(* ===== verification/_CoqProject ===== *)
-Q . S2P
Prelude.v
GoStrings.v
Version.v
EtcdPrefix.v
Labels.v
Supervisor.v
SupervisorOps.v
SupervisorGC.v
SupervisorProc.v
SupervisorSafety.v
SupervisorProps.v
Etcd.v
Interfaces.v
Effects.v
Pki.v
ClusterConfig.v
CuratorNode.v
CuratorState.v
CuratorSpec.v
CuratorAPI.v
CuratorSteps.v
CuratorHandlers.v
CuratorNet.v
CuratorSystem.v
CuratorExample.v
PkiProps.v
CuratorProps.v
CuratorNetProps.v
CuratorAuthProps.v
CuratorBootstrap.v
Reconciler.v
ReconcilerWatch.v
ReconcilerSystem.v
GoSort.v
Bytes.v
BlockDev.v
Gpt.v
GptFree.v
GptAdd.v
GptCodec.v
GptDisk.v
GptProps.v
Toposort.v
NetAddr.v
StaticConfig.v
StaticProps.v
StaticRun.v
Bootparam.v
EventValue.v
OrderedMap.v
Tinylb.v
Fat32Names.v
Fat32.v
Fat32Dir.v
Fat32Layout.v
Fat32Props.v
Sha256.v
Verity.v
VerityTree.v
VerityEncoder.v
VerityProps.v
Efivar.v
EfivarCodec.v
EfivarProps.v
Kmod.v
KmodTree.v
KmodProps.v
Eventlog.v
EventlogProps.v
Secureboot.v
SecurebootProps.v
Update.v
UpdateProps.v
LogBuffer.v
Links.v
Journal.v
JournalProps.v
DhcpLease.v
DhcpClient.v
DhcpProps.v
