(* ===== verification/Prelude.v ===== *)
(** * Monogon: a verification library

    Monogon OS runs Kubernetes clusters.  Its nodes boot into Metropolis, a Go program
    that supervises its services, keeps the state of the cluster in etcd and serves it
    through the curator, configures disks and networks, and keeps its logs in memory.
    This library models the parts of the repository whose behaviour is decided by
    their own code, and proves what makes them correct.

    ** Conventions.  A Go function that returns an error is a function into [result];
    panics are [None] or an outcome of their own; stateful code passes its state.  Pointers
    into shared structures are locations of a heap.  Integers are numbers in [Z] with
    the wrap-around of their width where it matters.  Code outside the repository (etcd, X.509,
    protocol buffers, the dhcpv4 library, uuid, netlink and the kernel) is a type class with
    its documented behaviour as laws, and each class has an instance in the library.
    Where scheduling, map iteration, clocks or failures of calls decide, theorems hold for
    all of their choices.

    ** Parts.

    - Shared: this file, [GoStrings] (package strings), [GoSort] (sort.SliceStable),
      [Bytes] (little-endian fields, CRC-32, UTF-16), [NetAddr] (parsers and masks of package
      net), [Links] (doubly linked lists), [Interfaces] and [Etcd] (libraries), [Effects]
      (programs that call them, with a weakest precondition under interference).

    - Supervisor, osbase/supervisor.  [Supervisor] has the tree of nodes and the calls of
      runnables (supervisor_node.go, supervisor.go), [SupervisorOps] what they do to it,
      [SupervisorProc] the processor and the liquidator (supervisor_processor.go) as a transition
      system with the goroutines of runnables, [SupervisorGC] the loops over the tree,
      [SupervisorSafety] the invariants of the system.  [SupervisorProps]: the tree stays
      well-formed, restarts affect exactly the subtrees they should, and no runnable is lost or
      runs twice, as long as names have no dots and no subtree restarts under a goroutine that
      is still responsible for it; and the executions in which the processor panics or does
      not end.

    - Curator, metropolis/node/core/curator.  [EtcdPrefix] (state.go), [Labels]
      (metropolis/node/labels.go), [ClusterConfig] (state_cluster.go), [CuratorNode]
      (state_node.go), [CuratorState] (access to etcd), [CuratorAPI] (impl_leader_*.go and
      bootstrap.go).  [CuratorSpec] and [CuratorSteps] give the abstract cluster and its
      transitions; [CuratorSteps] (Module CuratorRefine), [CuratorHandlers], [CuratorNet] and
      [CuratorSystem] show that every handler, among all others, refines them, and Module
      CuratorFence of [CuratorSystem] that a replaced leader changes nothing.  [CuratorProps], [CuratorNetProps], [CuratorAuthProps] and [CuratorBootstrap]
      state the properties, under the interference of the leader's other handlers and of other
      clients of etcd; that WireGuard keys stay unique also needs that the others keep them so.
      [CuratorExample] runs the handlers on concrete libraries.

    - PKI, osbase/pki.  [Pki] and [PkiProps]: certificates made once and agreed on by all
      calls that run at the same time, in any interleaving of their transactions, revocation.

    - Partition tables, osbase/blockdev, osbase/gpt, osbase/msguid.  [BlockDev] has the
      interface of block devices, its contract, its implementations, and the proof that they
      keep the contract.  [Gpt] models the tables.  [GptFree] and [GptAdd]: free
      space is found exactly, partitions are put there if the alignment allows, and where it
      does not.  [GptCodec], [GptDisk], [GptProps]: what is written is read back, and an interrupted
      write leaves the old or the new table, on a device that fails too, if the CRC-32 tells
      their entries from the mixtures of their blocks.

    - Networks, metropolis/node/core/network.  [DhcpLease] and [DhcpClient] (dhcp4c and its
      transports, with an encoding of options as an example), [DhcpProps]: the client's state
      machine keeps transports, deadlines and callbacks consistent and gives up expired
      leases.  [Toposort] (go/algorithm/toposort), [StaticConfig] (static.go and
      osbase/sysctl), [StaticProps], [StaticRun]: interfaces are configured after those they
      depend on, and failure deletes the links that were added, while
      addresses and routes on other links stay.  [Tinylb] (go/net/tinylb) with [OrderedMap]
      (go/types/mapsets): the load balancer dials the backends of its current set only, and
      closes the connections of those that were removed.

    - Logs and boot.  [LogBuffer] (osbase/logbuffer): the ring holds the last lines.  [Journal]
      and [JournalProps] (osbase/logtree): the heap of linked entries implements lists with
      quotas.  [Bootparam] (osbase/bootparam): decoding inverts encoding.

    - Event values, osbase/event/memory.  [EventValue]: watchers see the latest value, in
      order, whatever the interleaving of Set, Get and Close, and Set always completes.

    - FAT32, osbase/fat32.  [Fat32Names] (short names), [Fat32] (the writer, and in Module
      Fat32Read a reader written from the on-disk format, for images on new files), [Fat32Dir] (directory entries),
      [Fat32Layout] (placement of clusters, geometry), [Fat32Props]: the reader finds the
      tree that was written, the tables fit, and PlaceFile builds trees.

    - Verity, osbase/verity and mkverity.  [Sha256] (crypto/sha256), [Verity] (the encoder),
      [VerityTree] (hash trees as lists of blocks, and in Module VerityCheck what the kernel
      does with one), [VerityEncoder], [VerityProps]: the encoder writes the hash tree of its
      input, and the kernel returns exactly that input or there is a collision.

    - EFI variables, osbase/efivarfs.  [Efivar], [EfivarCodec], [EfivarProps]: device paths
      and load options are read back as written, any bytes are parsed without panic, boot
      entries take a free number.

    - Event logs, osbase/tpm/eventlog.  [Eventlog] (the parser and the replay against PCRs, with
      SHA-1 and SHA-256 of [Sha256]), [Secureboot] (secureboot.go and internal/events.go).
      [EventlogProps] (with Module EventlogCodec), [SecurebootProps]: logs are read back as written, any bytes
      are parsed without panic, verification accepts the logs that replay to the PCRs or have no events for them, the
      state of secure boot is that of a well-formed log, and no other log with events that verifies
      against the same PCR gives another answer to whether secure boot is on, or there is a collision.

    - Updates, metropolis/node/core/update and abloader.  [Update] has the update service and the loader
      that selects the slot to boot, on a disk whose operations may fail or stop in the middle.
      [UpdateProps]: whatever a node does, the active slot is one that was marked as good and has
      not changed since, if the state file is written atomically; and the entries of the
      firmware are repaired.

    - Kubernetes reconciler, metropolis/node/kubernetes/reconciler (reconciler_status.go), with the
      releases of [Version] (version).  [Reconciler] has the four programs, [ReconcilerWatch] what
      the watch over nodes publishes, [ReconcilerSystem] all nodes around one etcd: a leader
      reconciles alone, and only while every apiserver that serves is compatible with it.

    - Kernel modules, osbase/kmod.  [Kmod] (patterns, metadata, manager), [KmodTree] (what a
      radix tree means), [KmodProps]: looking a device up finds exactly the modules with a
      matching pattern, and they are loaded after those they depend on.

    ** Fuel.  Recursion that is not structural has fuel, and theorems show that it is
    enough: the garbage collection visits each node of the tree once; a chain of issuers of depth d
    takes 4 * d + 5 calls of Ensure; writing a line of n bytes takes at most n + 1 rounds; scanning
    the journal takes as many steps as the heap has entries; sorting and the sweep over
    partition boundaries are bounded by the number of elements; zeroing by the number of chunks;
    topological sorting nests once more than the graph has nodes; runes are at least
    one byte, groups of IPv6 addresses two; short names have a counter of 16 bits; chains of
    clusters are no longer than the table; the loops of the verity encoder consume their
    buffer or level; elements of device paths are at least four bytes; a pattern is split at
    most once per part; loading a module nests as deep as the modules depend on each other; each
    event, algorithm, digest or signature of an event log takes at least one byte of it; replacing
    a text consumes at least one character at a time.

    ** Not modelled.  Watches and leader election of the curator, the consensus
    service, role management, the objects that the Kubernetes reconciler writes and the other
    Kubernetes services, containers, the local storage of nodes and
    the DNS service consist of goroutines around remote calls and the operating system.
    The command line tools, the installer, image building, the bare metal cloud around
    an SQL database, and generated code are left out, as are logging and tracing inside
    the modelled functions.  Text of errors is kept as the format string of the source. *)

From stdpp Require Export base gmap strings list fin_maps sorting.
From Stdlib Require Export Ascii.

#[export] Set Default Goal Selector "!".

Declare Scope go_scope.
Delimit Scope go_scope with go.
Open Scope go_scope.

(** ** Fallible computations

    A Go function returning [(T, error)] is a function into [result E A]; the
    Go convention of an [if err != nil { return ..., err }] chain is the
    monadic bind. *)
Inductive result (E A : Type) :=
| Ok (a : A)
| Err (e : E).
Arguments Ok {E A} a.
Arguments Err {E A} e.

#[export] Instance result_ret {E} : MRet (result E) := fun A a => Ok a.
#[export] Instance result_bind {E} : MBind (result E) := fun A B k m =>
  match m with Ok a => k a | Err e => Err e end.
#[export] Instance result_map {E} : FMap (result E) := fun A B f m =>
  match m with Ok a => Ok (f a) | Err e => Err e end.

#[export] Instance result_eq_dec {E A} `{EqDecision E, EqDecision A} :
  EqDecision (result E A).
Proof. solve_decision. Defined.

(** [guard! b 'else' e 'in' k] is the Go early return [if !b { return e }; k]. *)
Notation "'guard!' b 'else' e 'in' k" := (if b then k else Err e)
  (at level 10, b at level 100, e at level 100, k at level 200) : go_scope.

Definition is_ok {E A} (r : result E A) : bool :=
  match r with Ok _ => true | Err _ => false end.

Lemma bind_ok {E A B} (m : result E A) (k : A -> result E B) b :
  m ≫= k = Ok b <-> exists a, m = Ok a /\ k a = Ok b.
Proof. destruct m; simpl; split; intros H; naive_solver. Qed.

Lemma bind_err {E A B} (m : result E A) (k : A -> result E B) e :
  m ≫= k = Err e <-> m = Err e \/ exists a, m = Ok a /\ k a = Err e.
Proof. destruct m; naive_solver. Qed.

(** ** Automation *)

Create HintDb go discriminated.
#[export] Hint Resolve Forall_nil_2 Forall_cons_2 Forall_app_2 : go.

(** Split every conjunction, existential and equality between constructors in
    the context. *)
Ltac go_inv :=
  repeat (match goal with
  | H : _ /\ _ |- _ => destruct H
  | H : exists _, _ |- _ => destruct H
  | H : Ok _ = Ok _ |- _ => injection H as H
  | H : Err _ = Err _ |- _ => injection H as H
  | H : Ok _ = Err _ |- _ => discriminate H
  | H : Err _ = Ok _ |- _ => discriminate H
  | H : mbind _ _ = Ok _ |- _ => apply bind_ok in H
  end; simplify_eq/=).

(** Case on the scrutinee of a [match]/[if] of the goal or of a hypothesis, the
    way the Go code branches. *)
Ltac go_case :=
  match goal with
  | |- context [ match ?x with _ => _ end ] =>
      lazymatch x with context [ match _ with _ => _ end ] => fail | _ => idtac end;
      destruct x eqn:?
  end; simplify_eq/=.
Ltac go_case_in H :=
  match type of H with
  | context [ match ?x with _ => _ end ] =>
      lazymatch x with context [ match _ with _ => _ end ] => fail | _ => idtac end;
      destruct x eqn:?
  end; simplify_eq/=.

(** ** Lists *)

Lemma last_cons_ne {A} (x : A) l : l <> [] -> last (x :: l) = last l.
Proof. destruct l; [done|]. by intros _. Qed.

Lemma forallb_Forall_iff {A} (f : A -> bool) (l : list A) :
  forallb f l = true <-> Forall (fun x => f x = true) l.
Proof. rewrite forallb_forall, Forall_forall. by setoid_rewrite list_elem_of_In. Qed.

Lemma cons_neq_self {A} (x : A) l : l = x :: l -> False.
Proof. intros H. apply (f_equal length) in H. simpl in H. lia. Qed.
#[export] Hint Resolve cons_neq_self : go.

Lemma Forall2_elem_l {A B} (R : A -> B -> Prop) l k x :
  Forall2 R l k -> x ∈ l -> exists y, y ∈ k /\ R x y.
Proof.
  induction 1 as [|a b l k Hab _ IH]; [by intros ?%not_elem_of_nil|].
  intros [->|Hx]%elem_of_cons; [exists b; split; [by left|done]|].
  destruct (IH Hx) as (y & ? & ?). exists y. split; [by right|done].
Qed.

Lemma Forall2_elem_r {A B} (R : A -> B -> Prop) l k y :
  Forall2 R l k -> y ∈ k -> exists x, x ∈ l /\ R x y.
Proof.
  intros H Hy. apply Forall2_flip in H. by apply (Forall2_elem_l _ _ _ _ H).
Qed.

Lemma list_filter_all {A} (P : A -> Prop) `{forall x, Decision (P x)} l : Forall P l -> filter P l = l.
Proof. induction 1 as [|x l Hx _ IH]; [done|]. by rewrite filter_cons_True, IH. Qed.
Lemma list_filter_none {A} (P : A -> Prop) `{forall x, Decision (P x)} l : Forall (fun x => ~ P x) l -> filter P l = [].
Proof. induction 1 as [|x l Hx _ IH]; [done|]. by rewrite filter_cons_False, IH. Qed.

Lemma NoDup_fmap_fst {A B} (l : list (A * B)) a b b' : NoDup l.*1 -> (a, b) ∈ l -> (a, b') ∈ l -> b = b'.
Proof.
  induction l as [|[x y] l IH]; cbn; [by intros _ ?%not_elem_of_nil|]. intros [Hx Hl]%NoDup_cons.
  intros [[= -> ->]|H1]%elem_of_cons [[= ->]|H2]%elem_of_cons; [done|..|by apply IH].
  - exfalso. apply Hx, list_elem_of_fmap. by exists (x, b').
  - exfalso. apply Hx, list_elem_of_fmap. simplify_eq. by eexists (_, _).
Qed.
