(* ===== verification/GoStrings.v ===== *)
(** * The part of Go's [strings] package the modelled code uses

    Go strings are byte sequences, so they are modelled by [string] (a list of
    8-bit characters).  Only single-character separators occur in the code. *)

From S2P Require Import Prelude.

#[global] Arguments String.append : simpl nomatch.

(** [strings.Split(s, sep)] for a one-byte separator. *)
Fixpoint Split (s : string) (sep : ascii) : list string :=
  match s with
  | EmptyString => [EmptyString]
  | String c r =>
      if decide (c = sep) then EmptyString :: Split r sep
      else match Split r sep with
           | [] => [String c EmptyString]
           | h :: t => String c h :: t
           end
  end.

(** [strings.Join(parts, sep)]. *)
Fixpoint Join (parts : list string) (sep : ascii) : string :=
  match parts with
  | [] => EmptyString
  | [p] => p
  | p :: ps => p +:+ String sep (Join ps sep)
  end.

(** [strings.Contains(s, c)] for a one-byte needle. *)
Fixpoint ContainsByte (s : string) (c : ascii) : bool :=
  match s with
  | EmptyString => false
  | String d r => bool_decide (d = c) || ContainsByte r c
  end.

(** [strings.HasPrefix(s, p)]. *)
Definition HasPrefix (s p : string) : bool := String.prefix p s.

(** [s[n:]]. *)
Fixpoint slice_from (s : string) (n : nat) : string :=
  match n, s with
  | O, _ => s
  | S n, String _ r => slice_from r n
  | S _, EmptyString => EmptyString
  end.

(** Bytewise lexicographic order of Go strings and of etcd keys. *)
Fixpoint string_ltb (a b : string) : bool :=
  match a, b with
  | _, EmptyString => false
  | EmptyString, String _ _ => true
  | String x a', String y b' =>
      if N.ltb (N_of_ascii x) (N_of_ascii y) then true
      else if N.ltb (N_of_ascii y) (N_of_ascii x) then false
      else string_ltb a' b'
  end.
Definition string_leb (a b : string) : bool := negb (string_ltb b a).

Definition bytes_of (s : string) : list ascii := String.list_ascii_of_string s.

(** ** Concatenation *)

Lemma append_assoc (a b c : string) : (a +:+ b) +:+ c = a +:+ (b +:+ c).
Proof. induction a as [|x a IH]; simpl; [done|]. by rewrite IH. Qed.

Lemma append_nil_r (a : string) : a +:+ EmptyString = a.
Proof. induction a as [|x a IH]; simpl; [done|]. by rewrite IH. Qed.

Lemma append_inj_l (a b c : string) : a +:+ b = a +:+ c -> b = c.
Proof. induction a; simpl; naive_solver. Qed.

Lemma length_append (a b : string) :
  String.length (a +:+ b) = String.length a + String.length b.
Proof. induction a; simpl; lia. Qed.

(** ** Contains, prefixes, slices *)

Lemma ContainsByte_app a b c :
  ContainsByte (a +:+ b) c = ContainsByte a c || ContainsByte b c.
Proof. induction a as [|x a IH]; simpl; [done|]. by rewrite IH, orb_assoc. Qed.

Lemma HasPrefix_app p s : HasPrefix (p +:+ s) p = true.
Proof.
  unfold HasPrefix. induction p as [|x p IH]; simpl; [by destruct s|].
  destruct (Ascii.ascii_dec x x); [done|congruence].
Qed.

Lemma HasPrefix_iff s p : HasPrefix s p = true <-> exists r, s = p +:+ r.
Proof.
  split; [|intros [r ->]; apply HasPrefix_app].
  unfold HasPrefix. revert s. induction p as [|x p IH]; intros s H; [by exists s|].
  destruct s as [|y s]; simpl in H; [done|].
  destruct (Ascii.ascii_dec x y) as [->|]; [|done].
  destruct (IH s H) as [r ->]. by exists r.
Qed.

Lemma slice_from_app p s : slice_from (p +:+ s) (String.length p) = s.
Proof. induction p; simpl; [by destruct s|done]. Qed.

(** ** Split and Join *)

Lemma Split_nonempty s sep : Split s sep <> [].
Proof. destruct s; simpl; [done|]. case_decide; [done|]. by destruct (Split s sep). Qed.

Lemma Split_no_sep s sep :
  Forall (fun p => ContainsByte p sep = false) (Split s sep).
Proof.
  induction s as [|c s IH]; simpl; [by repeat constructor|].
  case_decide as Hc; [by constructor|].
  destruct (Split s sep) as [|h t]; [repeat constructor; simpl; by rewrite bool_decide_eq_false_2|].
  apply Forall_cons in IH as [Hh Ht]. constructor; [|done]. simpl.
  by rewrite bool_decide_eq_false_2.
Qed.

Lemma Split_single s sep : ContainsByte s sep = false -> Split s sep = [s].
Proof.
  induction s as [|c s IH]; simpl; [done|].
  intros [Hc Hs]%orb_false_iff. apply bool_decide_eq_false in Hc.
  rewrite decide_False by done. by rewrite IH.
Qed.

Lemma Split_app_sep a b sep :
  ContainsByte a sep = false ->
  Split (a +:+ String sep b) sep = a :: Split b sep.
Proof.
  induction a as [|c a IH]; simpl.
  - intros _. by rewrite decide_True.
  - intros [Hc Ha]%orb_false_iff. apply bool_decide_eq_false in Hc.
    rewrite decide_False by done. by rewrite IH.
Qed.

(** Splitting what was joined gives the parts back, as long as no part holds
    the separator. *)
Lemma Split_Join parts sep :
  parts <> [] -> Forall (fun p => ContainsByte p sep = false) parts ->
  Split (Join parts sep) sep = parts.
Proof.
  intros Hne Hall. induction Hall as [|p ps Hp Hps IH]; [done|].
  destruct ps as [|q ps]; [by apply Split_single|].
  change (Join (p :: q :: ps) sep) with (p +:+ String sep (Join (q :: ps) sep)).
  rewrite Split_app_sep by done. by rewrite IH.
Qed.

Lemma Join_cons p ps sep :
  ps <> [] -> Join (p :: ps) sep = p +:+ String sep (Join ps sep).
Proof. by destruct ps. Qed.

Lemma Join_Split s sep : Join (Split s sep) sep = s.
Proof.
  induction s as [|c s IH]; [done|]. simpl. case_decide as Hc.
  - subst. rewrite Join_cons by apply Split_nonempty. by rewrite IH.
  - pose proof (Split_nonempty s sep) as Hne.
    destruct (Split s sep) as [|h t] eqn:E; [done|].
    destruct t as [|h' t]; simpl in *; [by rewrite IH|].
    rewrite <- IH. done.
Qed.

Lemma Join_inj ps qs sep :
  ps <> [] -> qs <> [] ->
  Forall (fun p => ContainsByte p sep = false) ps ->
  Forall (fun p => ContainsByte p sep = false) qs ->
  Join ps sep = Join qs sep -> ps = qs.
Proof. intros ???? E. rewrite <- (Split_Join ps sep), E by done. by apply Split_Join. Qed.

Lemma Join_snoc ps p sep :
  ps <> [] -> Join (ps ++ [p]) sep = Join ps sep +:+ String sep p.
Proof.
  induction ps as [|q ps IH]; [done|]. intros _.
  destruct ps as [|r ps]; [done|].
  change ((q :: r :: ps) ++ [p]) with (q :: ((r :: ps) ++ [p])).
  rewrite !Join_cons by done. rewrite IH by done. by rewrite append_assoc.
Qed.

(** ** Order *)

Lemma string_ltb_irrefl a : string_ltb a a = false.
Proof. induction a; simpl; [done|]. by rewrite N.ltb_irrefl. Qed.

Lemma string_ltb_app p a b : string_ltb (p +:+ a) (p +:+ b) = string_ltb a b.
Proof. induction p; simpl; [done|]. by rewrite N.ltb_irrefl. Qed.

(** [strings.Compare(a, b) <= 0]. *)
Definition string_le (a b : string) : Prop := string_leb a b = true.
#[export] Instance string_le_dec a b : Decision (string_le a b).
Proof. unfold string_le. apply _. Defined.

Lemma string_ltb_trans a b c : string_ltb a b = true -> string_ltb b c = true -> string_ltb a c = true.
Proof.
  revert b c. induction a as [|x a IH]; intros [|y b] [|z c]; cbn; try done.
  destruct (N.ltb_spec (N_of_ascii x) (N_of_ascii y)), (N.ltb_spec (N_of_ascii y) (N_of_ascii x)), (N.ltb_spec (N_of_ascii y) (N_of_ascii z)),
    (N.ltb_spec (N_of_ascii z) (N_of_ascii y)), (N.ltb_spec (N_of_ascii x) (N_of_ascii z)), (N.ltb_spec (N_of_ascii z) (N_of_ascii x)); try done; try lia. apply IH.
Qed.

Lemma string_ltb_total a b : string_ltb a b = false -> string_ltb b a = false -> a = b.
Proof.
  revert b. induction a as [|x a IH]; intros [|y b]; cbn; try done.
  destruct (N.ltb_spec (N_of_ascii x) (N_of_ascii y)), (N.ltb_spec (N_of_ascii y) (N_of_ascii x)); try done. intros H1 H2. f_equal; [|by apply IH].
  rewrite <- (ascii_N_embedding x), <- (ascii_N_embedding y). f_equal. lia.
Qed.

#[export] Instance string_le_total : Total string_le.
Proof.
  intros a b. unfold string_le, string_leb. destruct (string_ltb b a) eqn:E; [|by left]. right.
  destruct (string_ltb a b) eqn:E2; [|done]. pose proof (string_ltb_trans a b a E2 E) as E3. by rewrite string_ltb_irrefl in E3.
Qed.
#[export] Instance string_le_antisymm : AntiSymm (=) string_le.
Proof. intros a b H1%negb_true_iff H2%negb_true_iff. by apply string_ltb_total. Qed.
#[export] Instance string_le_trans : Transitive string_le.
Proof.
  intros a b c H1%negb_true_iff H2%negb_true_iff. apply negb_true_iff. destruct (string_ltb c a) eqn:E; [|done]. exfalso.
  destruct (string_ltb a b) eqn:E1; [by rewrite (string_ltb_trans c a b E E1) in H2|].
  rewrite (string_ltb_total a b) in E by done. by rewrite E in H2.
Qed.
