(* ===== verification/Version.v ===== *)
(** * Versions

    Models [version/version.go] and the messages of [version/spec/spec.proto].  A nil pointer is
    [None]; reading a field through one is a panic, as is slicing beyond the end of a
    string, and the outcome [None]. *)

From stdpp Require Import pretty.
From S2P Require Import Prelude GoStrings.

Module VersionSpec.

(** ** The messages *)

Record Version_Release := mkRelease { Major : Z; Minor : Z; Patch : Z }.
#[export] Instance Version_Release_eq_dec : EqDecision Version_Release.
Proof. solve_decision. Defined.
#[export] Instance Version_Release_countable : Countable Version_Release.
Proof.
  refine (inj_countable' (fun r => (Major r, Minor r, Patch r)) (fun t => match t with (a, b, c) => mkRelease a b c end) _).
  by intros [].
Defined.

Inductive BuildTreeState :=
| BUILD_TREE_STATE_INVALID
| BUILD_TREE_STATE_CLEAN
| BUILD_TREE_STATE_DIRTY
| BUILD_TREE_STATE_other (n : Z).
#[export] Instance BuildTreeState_eq_dec : EqDecision BuildTreeState.
Proof. solve_decision. Defined.
#[export] Instance BuildTreeState_countable : Countable BuildTreeState.
Proof.
  refine (inj_countable'
    (fun s => match s with BUILD_TREE_STATE_INVALID => inl 0 | BUILD_TREE_STATE_CLEAN => inl 1
              | BUILD_TREE_STATE_DIRTY => inl 2 | BUILD_TREE_STATE_other z => inr z end)
    (fun s => match s with inl 0 => BUILD_TREE_STATE_INVALID | inl 1 => BUILD_TREE_STATE_CLEAN
              | inl _ => BUILD_TREE_STATE_DIRTY | inr z => BUILD_TREE_STATE_other z end) _).
  by intros [].
Defined.

Record Version_GitInformation := mkGit {
  CommitHash : string;
  CommitsSinceRelease : Z;
  BuildTreeState_ : BuildTreeState
}.
#[export] Instance Version_GitInformation_eq_dec : EqDecision Version_GitInformation.
Proof. solve_decision. Defined.
#[export] Instance Version_GitInformation_countable : Countable Version_GitInformation.
Proof.
  refine (inj_countable' (fun g => (CommitHash g, CommitsSinceRelease g, BuildTreeState_ g))
    (fun t => match t with (a, b, c) => mkGit a b c end) _).
  by intros [].
Defined.

Record SpecVersion := mkVersion {
  Release_ : option Version_Release;
  GitInformation : option Version_GitInformation
}.
#[export] Instance SpecVersion_eq_dec : EqDecision SpecVersion.
Proof. solve_decision. Defined.
#[export] Instance SpecVersion_countable : Countable SpecVersion.
Proof.
  refine (inj_countable' (fun v => (Release_ v, GitInformation v)) (fun t => match t with (a, b) => mkVersion a b end) _).
  by intros [].
Defined.

(** ** The functions *)

Definition Release (rel : option Version_Release) : string :=
  match rel with
  | None => "0.0.0"
  | Some rel => Join [pretty (Major rel); pretty (Minor rel); pretty (Patch rel)] "."
  end.

#[global] Arguments Release : simpl never.

(** [s[:n]]. *)
Definition sliceTo (n : nat) (s : string) : option string :=
  if n <=? String.length s then Some (String.substring 0 n s) else None.

Definition prerelease (git : Version_GitInformation) : option (list string) :=
  hash ← sliceTo 8 (CommitHash git);
  let n := CommitsSinceRelease git in
  Some ((if bool_decide (n = 0%Z) then [] else ["dev" +:+ pretty n]) ++
        ["g" +:+ hash] ++
        (if bool_decide (BuildTreeState_ git = BUILD_TREE_STATE_CLEAN) then [] else ["dirty"])).

Definition Semver (v : option SpecVersion) : option string :=
  v ← v;
  let ver := "v" +:+ Release (Release_ v) in
  pre ← match GitInformation v with Some git => prerelease git | None => Some [] end;
  Some (match pre with [] => ver | _ => ver +:+ "-" +:+ Join pre "." end).

(** The comparison of two releases that are set. *)
Definition releaseLess (a b : Version_Release) : bool :=
  if bool_decide (Major a <> Major b) then (Major a <? Major b)%Z
  else if bool_decide (Minor a <> Minor b) then (Minor a <? Minor b)%Z
  else if bool_decide (Patch a <> Patch b) then (Patch a <? Patch b)%Z
  else false.

Definition ReleaseLessThan (a b : option Version_Release) : option bool :=
  a ← a; b ← b; Some (releaseLess a b).

(** ** The order of releases *)

Lemma releaseLess_iff a b :
  releaseLess a b = true <->
  (Major a < Major b \/ Major a = Major b /\ (Minor a < Minor b \/ Minor a = Minor b /\ Patch a < Patch b))%Z.
Proof. unfold releaseLess. repeat case_bool_decide; rewrite ?Z.ltb_lt; try done; lia. Qed.

Definition rle (a b : Version_Release) : Prop := releaseLess b a = false.

Lemma rle_iff a b :
  rle a b <->
  (Major a < Major b \/ Major a = Major b /\ (Minor a < Minor b \/ Minor a = Minor b /\ Patch a <= Patch b))%Z.
Proof. unfold rle. rewrite <- not_true_iff_false, releaseLess_iff. lia. Qed.

#[export] Instance rle_dec : RelDecision rle.
Proof. intros a b. unfold rle. apply _. Defined.

#[export] Instance rle_refl : Reflexive rle.
Proof. intros a. rewrite rle_iff. lia. Qed.
#[export] Instance rle_trans : Transitive rle.
Proof. intros a b c. rewrite !rle_iff. lia. Qed.
#[export] Instance rle_total : Total rle.
Proof. intros a b. rewrite !rle_iff. lia. Qed.
#[export] Instance rle_antisymm : AntiSymm (=) rle.
Proof. intros [] []. rewrite !rle_iff. cbn. intros. f_equal; lia. Qed.

Lemma releaseLess_le a b : releaseLess a b = true -> rle a b.
Proof. rewrite releaseLess_iff, rle_iff. lia. Qed.
#[export] Hint Resolve releaseLess_le : go.

(** The earlier and the later of two releases. *)
Definition rmin (a b : Version_Release) : Version_Release := if releaseLess a b then a else b.
Definition rmax (a b : Version_Release) : Version_Release := if releaseLess a b then b else a.

Lemma rmin_glb a b c : rle c (rmin a b) <-> rle c a /\ rle c b.
Proof.
  unfold rmin. destruct (releaseLess a b) eqn:E.
  - split; [|by intros []]. intros. split; [done|]. etrans; [done|]. by apply releaseLess_le.
  - split; [|by intros []]. intros. split; [|done]. by etrans.
Qed.
Lemma rmax_lub a b c : rle (rmax a b) c <-> rle a c /\ rle b c.
Proof.
  unfold rmax. destruct (releaseLess a b) eqn:E.
  - split; [|by intros []]. intros. split; [|done]. etrans; [|done]. by apply releaseLess_le.
  - split; [|by intros []]. intros. split; [done|]. by etrans.
Qed.

(** ** The text of a release determines it *)

Lemma ContainsByte_pretty_go x s c :
  (forall d, (d < 10)%N -> pretty_N_char d <> c) -> ContainsByte s c = false -> ContainsByte (pretty_N_go x s) c = false.
Proof.
  intros Hc. revert s. induction (N.lt_wf_0 x) as [x _ IH]. intros s Hs.
  destruct (decide (0 < x)%N) as [Hx|Hx].
  - rewrite pretty_N_go_step by done. apply IH; [by apply N.div_lt|]. cbn. rewrite Hs, orb_false_r.
    apply bool_decide_eq_false. apply Hc. apply N.mod_lt. done.
  - replace x with 0%N by lia. by rewrite pretty_N_go_0.
Qed.

Lemma no_dot (z : Z) : ContainsByte (pretty z) "." = false.
Proof.
  assert (forall n : N, ContainsByte (pretty n) "." = false) as HN.
  { intros n. unfold pretty, pretty_N. case_decide; [done|]. apply ContainsByte_pretty_go; [|done].
    intros d Hd. unfold pretty_N_char. by repeat case_match. }
  destruct z; [done|..].
  - apply (HN (N.pos p)).
  - change (ContainsByte ("-" +:+ pretty (N.pos p)) "." = false). rewrite ContainsByte_app, HN. done.
Qed.

Lemma Release_inj a b : Release (Some a) = Release (Some b) -> a = b.
Proof.
  intros H. unfold Release in H. apply Join_inj in H; [|done..| |]; [|repeat constructor; apply no_dot..].
  injection H as H1 H2 H3. apply (inj pretty) in H1, H2, H3. destruct a, b. cbn in *. by subst.
Qed.

End VersionSpec.
