(* ===== verification/EtcdPrefix.v ===== *)
(** * etcd key prefixes of the curator

    Models [metropolis/node/core/curator/state.go]: the naming scheme under
    which the curator keeps nodes, join keys and cluster data in etcd. *)

From S2P Require Import Prelude GoStrings.

Module EtcdPrefix.

Definition slash : ascii := "/"%char.

(** [etcdPrefix]: the path components of a prefix, e.g. [foo; bar] for
    [/foo/bar/]. *)
Record etcdPrefix := mkPrefix { parts : list string }.

#[export] Instance etcdPrefix_eq_dec : EqDecision etcdPrefix.
Proof. solve_decision. Defined.

Definition errNoComponent : string := "invalid path: must contain at least one component".
Definition errSlashEnds : string := "invalid path: must start and end with a /".
Definition errRepeated : string := "invalid path: must not contain repeated / characters".
Definition errIdEmpty : string := "invalid id: cannot be empty".
Definition errIdSlash : string := "invalid id: cannot contain / character".

(** The loop of [newEtcdPrefix] over the split path: [n] is the number of
    parts, [i] the index of the next one. *)
Fixpoint checkParts (n i : nat) (ps : list string) : option string :=
  match ps with
  | [] => None
  | p :: ps =>
      if bool_decide (i = 0) || bool_decide (i = n - 1) then
        if bool_decide (p = "") then checkParts n (S i) ps else Some errSlashEnds
      else
        if bool_decide (p = "") then Some errRepeated else checkParts n (S i) ps
  end.

Definition newEtcdPrefix (p : string) : result string etcdPrefix :=
  let ps := Split p slash in
  guard! bool_decide (3 <= length ps) else errNoComponent in
  match checkParts (length ps) 0 ps with
  | Some e => Err e
  | None => Ok (mkPrefix (drop 1 (take (length ps - 1) ps)))
  end.

(** [mustNewEtcdPrefix] panics on an invalid prefix: [None]. *)
Definition mustNewEtcdPrefix (p : string) : option etcdPrefix :=
  match newEtcdPrefix p with Ok r => Some r | Err _ => None end.

Definition Key (p : etcdPrefix) (id : string) : result string string :=
  guard! negb (bool_decide (id = "")) else errIdEmpty in
  guard! negb (ContainsByte id slash) else errIdSlash in
  Ok (String slash (Join (parts p ++ [id]) slash)).

Definition KeyRange (p : etcdPrefix) : string * string :=
  let base := String slash (Join (parts p) slash) in
  (base +:+ "/", base +:+ "0").

Definition ExtractID (p : etcdPrefix) (key : string) : string :=
  let strPrefix := String slash (Join (parts p) slash) +:+ "/" in
  if negb (HasPrefix key strPrefix) then ""
  else
    let id := slice_from key (String.length strPrefix) in
    if ContainsByte id slash then "" else id.

(** ** Well-formed prefixes *)

Definition component_ok (c : string) : Prop := c <> "" /\ ContainsByte c slash = false.

Definition prefix_wf (p : etcdPrefix) : Prop :=
  parts p <> [] /\ Forall component_ok (parts p).

Lemma checkParts_spec n i ps :
  i + length ps = n -> 0 < i -> checkParts n i ps = None ->
  Forall (fun c => c <> "") (take (length ps - 1) ps) /\ (ps <> [] -> last ps = Some "").
Proof.
  revert i. induction ps as [|p ps IH]; intros i Hn Hi H; [done|]. simpl in *.
  destruct ps as [|q ps].
  - rewrite (bool_decide_eq_true_2 (i = n - 1)), orb_true_r in H by (simpl in *; lia).
    case_bool_decide; [subst|done]. by split; [constructor|].
  - rewrite !bool_decide_eq_false_2 in H by (simpl in *; lia). simpl in H.
    case_bool_decide as Hp; [done|].
    destruct (IH (S i)) as [H1 H2]; [simpl in *; lia|lia|done|].
    split; [|intros _; apply H2; done].
    simpl in *. rewrite Nat.sub_0_r in *. by constructor.
Qed.

Lemma newEtcdPrefix_ok_split s p :
  newEtcdPrefix s = Ok p ->
  exists mid, Split s slash = "" :: mid ++ [""] /\ mid <> [] /\
    Forall (fun c => c <> "") mid /\ p = mkPrefix mid.
Proof.
  unfold newEtcdPrefix. case_bool_decide as Hlen; [|done].
  destruct (Split s slash) as [|a l] eqn:E; [by apply Split_nonempty in E|].
  destruct (checkParts _ _ _) eqn:Hc; [done|]. intros [= <-].
  simpl in Hc. case_bool_decide as Ha; [subst a|done].
  destruct l as [|b l] using rev_ind; [simpl in Hlen; lia|]. clear IHl.
  destruct (checkParts_spec (S (length (l ++ [b]))) 1 (l ++ [b])) as [H1 H2]; [done|lia|done|].
  rewrite last_snoc in H2. specialize (H2 ltac:(by destruct l)). injection H2 as ->.
  rewrite length_app in H1. simpl in H1.
  replace (length l + 1 - 1) with (length l) in H1 by lia.
  rewrite take_app_length in H1.
  exists l. split; [done|]. split; [intros ->; simpl in Hlen; lia|]. split; [done|].
  f_equal. simpl. rewrite length_app. simpl.
  replace (length l + 1 - 0) with (S (length l)) by lia. simpl.
  by rewrite take_app_length.
Qed.

(** ** Properties *)

Lemma base_snoc p id :
  parts p <> [] ->
  String slash (Join (parts p ++ [id]) slash) =
  (String slash (Join (parts p) slash) +:+ "/") +:+ id.
Proof. intros Hne. rewrite Join_snoc by done. simpl. by rewrite append_assoc. Qed.

Lemma newEtcdPrefix_sound s p :
  newEtcdPrefix s = Ok p ->
  prefix_wf p /\ s = String slash (Join (parts p) slash) +:+ "/".
Proof.
  intros (mid & Hs & Hne & Hall & ->)%newEtcdPrefix_ok_split.
  pose proof (Split_no_sep s slash) as Hsep. rewrite Hs in Hsep.
  apply Forall_cons in Hsep as [_ Hsep]. apply Forall_app in Hsep as [Hsep _].
  split.
  - split; [done|]. simpl. rewrite Forall_forall in *. unfold component_ok. naive_solver.
  - rewrite <- (Join_Split s slash), Hs, Join_cons by (by destruct mid).
    rewrite Join_snoc by done. done.
Qed.

(** The string form of a well-formed prefix parses back to it. *)
Lemma newEtcdPrefix_complete p :
  prefix_wf p -> newEtcdPrefix (String slash (Join (parts p) slash) +:+ "/") = Ok p.
Proof.
  destruct p as [ps]. intros [Hne Hall]. cbn [parts] in *.
  assert (Split (String slash (Join ps slash) +:+ "/") slash = "" :: ps ++ [""]) as E.
  { change (Split (String slash (Join ps slash +:+ "/")) slash = "" :: ps ++ [""]).
    simpl. f_equal. change "/" with (String slash ""). rewrite <- Join_snoc by done.
    apply Split_Join; [by destruct ps|]. apply Forall_app. split; [|by repeat constructor].
    rewrite Forall_forall in *. unfold component_ok in Hall. naive_solver. }
  unfold newEtcdPrefix. rewrite E.
  rewrite bool_decide_eq_true_2
    by (simpl; rewrite length_app; simpl; destruct ps; simpl; [done|lia]).
  assert (forall n i qs, i + length qs + 1 = n -> 0 < i -> Forall component_ok qs ->
    checkParts n i (qs ++ [""]) = None) as Hc.
  { intros n i qs. revert i. induction qs as [|q qs IH]; intros i Hn Hi Hqs; simpl in *.
    - rewrite (bool_decide_eq_true_2 (i = n - 1)), orb_true_r by lia. done.
    - apply Forall_cons in Hqs as [[Hq _] Hqs].
      rewrite !bool_decide_eq_false_2 by (done || lia). simpl. apply IH; [lia|lia|done]. }
  simpl. rewrite Hc; [|rewrite length_app; simpl; lia|lia|done].
  do 2 f_equal. rewrite length_app. simpl.
  replace (length ps + 1 - 0) with (S (length ps)) by lia. simpl. by rewrite take_app_length.
Qed.

(** [newEtcdPrefix] accepts exactly the strings [/c1/.../cn/] with at least one
    component, none of them empty, and reads the components off them. *)
Theorem newEtcdPrefix_iff s p :
  newEtcdPrefix s = Ok p <->
  prefix_wf p /\ s = String slash (Join (parts p) slash) +:+ "/".
Proof.
  split; [apply newEtcdPrefix_sound|]. intros [Hwf ->]. by apply newEtcdPrefix_complete.
Qed.

Lemma Key_iff_ExtractID p key id :
  parts p <> [] ->
  Key p id = Ok key <-> ExtractID p key = id /\ id <> "".
Proof.
  intros Hne. unfold Key, ExtractID. rewrite base_snoc by done.
  generalize (String slash (Join (parts p) slash) +:+ "/"). intros b.
  case_bool_decide as Hid; [subst; split; [done|intros [_ ?]; done]|]. simpl.
  split.
  - destruct (ContainsByte id slash) eqn:Hc; [done|]. simpl. intros [= <-].
    rewrite HasPrefix_app. simpl. rewrite slice_from_app, Hc. done.
  - intros [H _]. destruct (HasPrefix key b) eqn:Hp; simpl in H; [|congruence].
    apply HasPrefix_iff in Hp as [r ->]. rewrite slice_from_app in H.
    destruct (ContainsByte r slash) eqn:Hr; [congruence|]. subst r. by rewrite Hr.
Qed.

(** [Key] and [ExtractID] invert each other: a key is the key of a non-empty
    identifier under a prefix exactly when that identifier is what is extracted
    from it. *)
Theorem Key_ExtractID p key id :
  parts p <> [] ->
  Key p id = Ok key <-> ExtractID p key = id /\ id <> "".
Proof. apply Key_iff_ExtractID. Qed.

Lemma Key_ExtractID_witness :
  Key (mkPrefix ["nodes"]) "abc" = Ok "/nodes/abc".
Proof.
  apply (Key_ExtractID (mkPrefix ["nodes"]) "/nodes/abc" "abc"); [discriminate|].
  split; [reflexivity|discriminate].
Defined.

Lemma KeyRange_prefix (b : string) key :
  string_leb (b +:+ "/") key && string_ltb key (b +:+ "0") = HasPrefix key (b +:+ "/").
Proof.
  unfold string_leb. apply eq_true_iff_eq. rewrite andb_true_iff, negb_true_iff, HasPrefix_iff.
  revert key. induction b as [|x b IH]; intros key; cbn [String.append].
  - destruct key as [|y key]; cbn [string_ltb]; [naive_solver|].
    change (N_of_ascii "/"%char) with 47%N. change (N_of_ascii "0"%char) with 48%N.
    destruct (N.ltb_spec (N_of_ascii y) 47), (N.ltb_spec 47 (N_of_ascii y)),
      (N.ltb_spec (N_of_ascii y) 48), (N.ltb_spec 48 (N_of_ascii y)); try lia;
      split; try (intros [? ?]; done); try (intros [_ ?]; by destruct key);
      try (intros [r [= -> _]]; by change (N_of_ascii "/"%char) with 47%N in *; lia).
    + intros _. exists key. f_equal. rewrite <- (ascii_N_embedding y).
      replace (N_of_ascii y) with 47%N by lia. done.
    + by destruct key.
  - destruct key as [|y key]; cbn [string_ltb]; [naive_solver|].
    destruct (N.ltb_spec (N_of_ascii y) (N_of_ascii x)),
      (N.ltb_spec (N_of_ascii x) (N_of_ascii y)); try lia.
    + split; [naive_solver|]. intros [r [= -> _]]. lia.
    + split; [naive_solver|]. intros [r [= -> _]]. lia.
    + rewrite IH. assert (x = y) as ->.
      { rewrite <- (ascii_N_embedding x), <- (ascii_N_embedding y). f_equal. lia. }
      split; intros [r Hr]; exists r; [by rewrite Hr|by injection Hr].
Qed.

(** The half-open key interval of [KeyRange], in the bytewise order of etcd,
    holds exactly the keys that start with the prefix. *)
Theorem KeyRange_exact p key :
  string_leb (KeyRange p).1 key && string_ltb key (KeyRange p).2 = true <->
  HasPrefix key (String slash (Join (parts p) slash) +:+ "/") = true.
Proof. unfold KeyRange. cbn [fst snd]. rewrite KeyRange_prefix. done. Qed.

(** Two well-formed prefixes never produce the same key. *)
Lemma Key_inj p1 p2 id1 id2 k :
  prefix_wf p1 -> prefix_wf p2 -> Key p1 id1 = Ok k -> Key p2 id2 = Ok k ->
  p1 = p2 /\ id1 = id2.
Proof.
  intros [Hn1 Hw1] [Hn2 Hw2]. unfold Key.
  case_bool_decide as Hi1; [done|]. case_bool_decide as Hi2; [done|]. simpl.
  destruct (ContainsByte id1 slash) eqn:H1; [done|].
  destruct (ContainsByte id2 slash) eqn:H2; [done|]. simpl.
  intros [= <-] [= E]. apply Join_inj in E.
  - apply app_inj_tail in E as [E ->]. destruct p1, p2; simpl in *. by subst.
  - by destruct (parts p2).
  - by destruct (parts p1).
  - apply Forall_app; split; [|by repeat constructor].
    rewrite Forall_forall in *. unfold component_ok in Hw2. naive_solver.
  - apply Forall_app; split; [|by repeat constructor].
    rewrite Forall_forall in *. unfold component_ok in Hw1. naive_solver.
Qed.

End EtcdPrefix.
