(* ===== verification/Labels.v ===== *)
(** * Node labels

    Models [metropolis/node/labels.go]. *)

From S2P Require Import Prelude GoStrings.

Module Labels.

Definition MaxLabelsPerNode : nat := 128.

Inductive labelError :=
| ErrLabelEmpty
| ErrLabelTooLong
| ErrLabelInvalidFirstCharacter
| ErrLabelInvalidLastCharacter
| ErrLabelInvalidCharacter.

#[export] Instance labelError_eq_dec : EqDecision labelError.
Proof. solve_decision. Defined.

Definition in_range (lo hi c : ascii) : bool :=
  N.leb (N_of_ascii lo) (N_of_ascii c) && N.leb (N_of_ascii c) (N_of_ascii hi).

(** The character class [a-zA-Z0-9] of [reLabelFirstLast]. *)
Definition reLabelFirstLast (c : ascii) : bool :=
  in_range "a" "z" c || in_range "A" "Z" c || in_range "0" "9" c.

(** [reLabelBody]: every character is in [a-zA-Z0-9\-._]. *)
Definition bodyChar (c : ascii) : bool :=
  reLabelFirstLast c || bool_decide (c = "-"%char) || bool_decide (c = "."%char)
  || bool_decide (c = "_"%char).
Definition reLabelBody (v : string) : bool := forallb bodyChar (bytes_of v).

(** [ValidateLabel]: [None] is the nil error. *)
Definition ValidateLabel (v : string) : option labelError :=
  match bytes_of v with
  | [] => Some ErrLabelEmpty
  | first :: _ =>
      if bool_decide (63 < String.length v) then Some ErrLabelTooLong
      else if negb (reLabelFirstLast first) then Some ErrLabelInvalidFirstCharacter
      else if negb (reLabelFirstLast (default first (last (bytes_of v))))
      then Some ErrLabelInvalidLastCharacter
      else if negb (reLabelBody v) then Some ErrLabelInvalidCharacter
      else None
  end.

Definition valid (v : string) : bool := bool_decide (ValidateLabel v = None).

(** [GetNodeLabel] over the pairs of a [NodeLabels] message. *)
Fixpoint GetNodeLabel (pairs : list (string * string)) (key : string) : string :=
  match pairs with
  | [] => ""
  | (k, v) :: pairs => if bool_decide (k = key) then v else GetNodeLabel pairs key
  end.

Lemma length_bytes_of v : length (bytes_of v) = String.length v.
Proof. induction v; simpl; [done|]. by f_equal. Qed.

(** [ValidateLabel] accepts exactly the strings of 1 to 63 bytes from
    [a-zA-Z0-9-._] that start and end with a letter or a digit. *)
Theorem ValidateLabel_iff v :
  ValidateLabel v = None <->
  1 <= String.length v <= 63 /\
  Forall (fun c => bodyChar c = true) (bytes_of v) /\
  (exists c, head (bytes_of v) = Some c /\ reLabelFirstLast c = true) /\
  (exists c, last (bytes_of v) = Some c /\ reLabelFirstLast c = true).
Proof.
  rewrite <- (length_bytes_of v). unfold ValidateLabel. rewrite <- (length_bytes_of v).
  unfold reLabelBody. rewrite <- forallb_Forall_iff.
  destruct (bytes_of v) as [|c l] eqn:E; [simpl; naive_solver lia|].
  destruct (last (c :: l)) as [z|] eqn:El; [|by apply last_None in El].
  simpl default. simpl head.
  case_bool_decide as Hlen; [split; [done|simpl in *; intros [[??] ?]; lia]|].
  split.
  - repeat (case_match; simpl in *; try done). intros _.
    repeat match goal with H : negb _ = false |- _ => apply negb_false_iff in H end.
    split; [simpl in *; lia|]. split; [done|]. split; eauto.
  - intros (_ & Hb & (c' & [= <-] & Hc) & (z' & [= <-] & Hz)). by rewrite Hc, Hz, Hb.
Qed.

(** A label error is returned by the first rule that fails, in the order of the
    code. *)
Lemma ValidateLabel_too_long v : 63 < String.length v -> ValidateLabel v = Some ErrLabelTooLong.
Proof.
  unfold ValidateLabel. rewrite <- length_bytes_of.
  destruct (bytes_of v); simpl; [lia|]. intros. by rewrite bool_decide_eq_true_2.
Qed.

(** With duplicate-free keys, [GetNodeLabel] is the lookup of the label map. *)
Theorem GetNodeLabel_lookup pairs key :
  NoDup pairs.*1 ->
  GetNodeLabel pairs key = default "" ((list_to_map pairs : gmap string string) !! key).
Proof.
  induction pairs as [|[k v] pairs IH]; intros Hnd; simpl; [by rewrite lookup_empty|].
  apply NoDup_cons in Hnd as [_ Hnd]. case_bool_decide as Hk.
  - subst. by rewrite lookup_insert_eq.
  - rewrite lookup_insert_ne by done. by apply IH.
Qed.

End Labels.
