(* ===== verification/Supervisor.v ===== *)
(** * The supervision tree

    Models [osbase/supervisor/supervisor_node.go] and the user-facing calls of
    [osbase/supervisor/supervisor.go]: the tree of supervised nodes, node
    lookup by distinguished name, starting groups of runnables, signals and
    sub-loggers.

    The Go code keeps nodes on the heap with parent and child pointers.  Here
    the address of a node is its position in the tree, the list of names from
    the node up to (and excluding) the root: the parent of [c :: p] is [p], the
    root is [[]], and the child of [p] stored under key [c] of its [children]
    map has address [c :: p].  The tree is the store from addresses to nodes. *)

From S2P Require Import Prelude GoStrings.

Module Supervisor.

Inductive nodeState :=
| nodeStateNew
| nodeStateHealthy
| nodeStateDead
| nodeStateDone
| nodeStateCanceled.

#[export] Instance nodeState_eq_dec : EqDecision nodeState.
Proof. solve_decision. Defined.

Inductive SignalType := SignalHealthy | SignalDone.

(** The identity of a runnable function. *)
Definition Runnable := nat.

(** The address of a node. *)
Abbreviation ptr := (list string).

(** [node].  [children] holds the keys of the children map (Go leaves the
    iteration order of a map open: here it is the order of the list, which no
    result depends on).  [canceled] is whether the cancel function [ctxC] of
    the node's own context was called.  [bo] is the position of the exponential
    backoff: the number of intervals drawn since its last reset. *)
Record node := mkNode {
  runnable : Runnable;
  children : list string;
  reserved : gset string;
  groups : list (gset string);
  state : nodeState;
  bo : nat;
  canceled : bool
}.

Abbreviation tree := (gmap (list string) node).

Definition with_state (s : nodeState) (n : node) : node :=
  mkNode (runnable n) (children n) (reserved n) (groups n) s (bo n) (canceled n).
Definition with_bo (b : nat) (n : node) : node :=
  mkNode (runnable n) (children n) (reserved n) (groups n) (state n) b (canceled n).
Definition with_cancel (n : node) : node :=
  mkNode (runnable n) (children n) (reserved n) (groups n) (state n) (bo n) true.
Definition with_reserved (r : gset string) (n : node) : node :=
  mkNode (runnable n) (children n) r (groups n) (state n) (bo n) (canceled n).
Definition with_children (cs : list string) (n : node) : node :=
  mkNode (runnable n) cs (reserved n) (groups n) (state n) (bo n) (canceled n).
Definition with_groups (gs : list (gset string)) (n : node) : node :=
  mkNode (runnable n) (children n) (reserved n) gs (state n) (bo n) (canceled n).

Definition dot : ascii := "."%char.

(** [node.dn]. *)
Fixpoint dn (p : ptr) : string :=
  match p with
  | [] => "root"
  | name :: parent => dn parent +:+ String dot name
  end.

(** The children of a node, as pointers. *)
Definition kids (t : tree) (p : ptr) : list ptr :=
  match t !! p with
  | Some n => (fun c => c :: p) <$> children n
  | None => []
  end.

(** The walk of [nodeByDN] from [cur] along the remaining parts; [None] is the
    panic for a name that is not found. *)
Fixpoint walk (t : tree) (cur : ptr) (parts : list string) : option ptr :=
  match parts with
  | [] => Some cur
  | x :: parts =>
      n ← t !! cur;
      if bool_decide (x ∈ children n) then walk t (x :: cur) parts else None
  end.

(** [supervisor.nodeByDN]. *)
Definition nodeByDN (t : tree) (name : string) : option ptr :=
  match Split name dot with
  | first :: parts => if bool_decide (first = "root") then walk t [] parts else None
  | [] => None
  end.

(** [ctx.Err() != nil] for the context of a node: its own cancel function, or
    that of the context it derives from, was called. *)
Fixpoint ctxErr (t : tree) (p : ptr) : bool :=
  match t !! p with
  | Some n => canceled n
  | None => false
  end
  || match p with
     | [] => false
     | _ :: parent => ctxErr t parent
     end.

(** [node.groupSiblings]. *)
Definition groupSiblings (n : node) (name : string) : option (gset string) :=
  List.find (fun g => bool_decide (name ∈ g)) (groups n).

(** [node.reset] drops the children (with everything below them), reservations
    and groups, derives a fresh context and goes back to NEW. *)
Definition fresh (n : node) : node :=
  mkNode (runnable n) [] ∅ [] nodeStateNew (bo n) false.

Definition below (p q : ptr) : Prop := p `suffix_of` q /\ p <> q.
#[export] Instance below_dec p q : Decision (below p q).
Proof. unfold below. apply _. Defined.

Definition prune (p : ptr) (t : tree) : tree :=
  filter (fun kv => ~ below p kv.1) t.

Definition reset (t : tree) (p : ptr) : tree :=
  match t !! p with
  | Some n => <[p := fresh n]> (prune p t)
  | None => t
  end.

(** [newNode]: a node with fresh dynamic fields; the caller links it. *)
Definition newNode (r : Runnable) : node := mkNode r [] ∅ [] nodeStateNew 0 false.

(** [reNodeName.MatchString]: the pattern is not anchored, so a name matches as
    soon as one of its characters is in the class. *)
Definition nodeNameChar (c : ascii) : bool :=
  let n := N_of_ascii c in
  (N.leb 97 n && N.leb n 122) || (N.leb 48 n && N.leb n 57) || N.eqb n 95.
Definition reNodeName (s : string) : bool := existsb nodeNameChar (bytes_of s).

Definition errNonNew : string := "cannot run new runnable on non-NEW node".
Definition errNameInvalid : string := "runnable name is invalid".
Definition errExists : string := "runnable already exists".
Definition errReserved : string := "runnable would shadow reserved name".
Definition errDuplicate : string := "duplicate child name".
Definition errInUse : string := "name already in use by child runnable".
Definition errSubLogger : string := "sub-logger name is invalid".

(** The first loop of [runGroup]: the requested names are checked. *)
Fixpoint checkNames (n : node) (names : list string) : result string unit :=
  match names with
  | [] => Ok tt
  | name :: names =>
      guard! reNodeName name else errNameInvalid in
      guard! negb (bool_decide (name ∈ children n)) else errExists in
      guard! negb (bool_decide (name ∈ reserved n)) else errReserved in
      checkNames n names
  end.

(** The second loop of [runGroup]: the child nodes are created.  An error
    leaves the children created so far in the tree. *)
Fixpoint createChildren (t : tree) (p : ptr) (rs : list (string * Runnable))
    (group : gset string) (dns : list string)
    : tree * result string (gset string * list string) :=
  match rs with
  | [] => (t, Ok (group, dns))
  | (name, r) :: rs =>
      match t !! p with
      | None => (t, Ok (group, dns))
      | Some n =>
          match groupSiblings n name with
          | Some _ => (t, Err errDuplicate)
          | None =>
              let t := <[name :: p := newNode r]> (<[p := with_children (children n ++ [name]) n]> t) in
              createChildren t p rs ({[name]} ∪ group) (dns ++ [dn (name :: p)])
          end
      end
  end.

(** [node.runGroup]: the new tree, and the DNs of the members to schedule. *)
Definition runGroup (t : tree) (p : ptr) (rs : list (string * Runnable))
    : tree * result string (list string) :=
  match t !! p with
  | None => (t, Err errNonNew)
  | Some n =>
      if negb (bool_decide (state n = nodeStateNew)) then (t, Err errNonNew)
      else match checkNames n rs.*1 with
           | Err e => (t, Err e)
           | Ok _ =>
               match createChildren t p rs ∅ [] with
               | (t, Err e) => (t, Err e)
               | (t, Ok (group, dns)) =>
                   (alter (fun n => with_groups (groups n ++ [group]) n) p t, Ok dns)
               end
           end
  end.

(** [node.signal]; [None] is the panic on an unexpected signal. *)
Definition signal (t : tree) (p : ptr) (s : SignalType) : option tree :=
  n ← t !! p;
  match s with
  | SignalHealthy =>
      if bool_decide (state n = nodeStateNew)
      then Some (<[p := with_bo 0 (with_state nodeStateHealthy n)]> t) else None
  | SignalDone =>
      if bool_decide (state n = nodeStateHealthy)
      then Some (<[p := with_bo 0 (with_state nodeStateDone n)]> t) else None
  end.

(** [RunGroup], [Run], [Signal] and [SubLogger] find their node through the DN
    the context carries ([fromContext]); [None] is the panic. *)
Definition RunGroup (t : tree) (ctxDN : string) (rs : list (string * Runnable))
    : option (tree * result string (list string)) :=
  p ← nodeByDN t ctxDN; Some (runGroup t p rs).

Definition Run (t : tree) (ctxDN : string) (name : string) (r : Runnable)
    : option (tree * result string (list string)) :=
  RunGroup t ctxDN [(name, r)].

Definition Signal (t : tree) (ctxDN : string) (s : SignalType) : option tree :=
  p ← nodeByDN t ctxDN; signal t p s.

(** [SubLogger]: on success, the logtree DN the logger is created for. *)
Definition SubLogger (t : tree) (ctxDN name : string) : option (tree * result string string) :=
  p ← nodeByDN t ctxDN;
  n ← t !! p;
  Some (if bool_decide (name ∈ children n) then (t, Err errInUse)
        else if negb (reNodeName name) then (t, Err errSubLogger)
        else (<[p := with_reserved ({[name]} ∪ reserved n) n]> t,
              Ok (dn p +:+ String dot name))).

(** ** Well-formed trees *)

(** The name of every node is free of the DN separator. *)
Definition names_ok (t : tree) : Prop :=
  forall p, is_Some (t !! p) -> Forall (fun c => ContainsByte c dot = false) p.

(** Groups: they hold children only, every child is in a group, and two
    different groups are disjoint. *)
Definition groups_ok (n : node) : Prop :=
  (forall g c, g ∈ groups n -> c ∈ g -> c ∈ children n) /\
  (forall c, c ∈ children n -> exists g, g ∈ groups n /\ c ∈ g) /\
  (forall i j g h c, groups n !! i = Some g -> groups n !! j = Some h ->
     c ∈ g -> c ∈ h -> i = j).

Definition node_ok (n : node) : Prop :=
  NoDup (children n) /\ groups_ok n /\ (forall c, c ∈ children n -> c ∉ reserved n).

Record wf (t : tree) : Prop := {
  wf_root : is_Some (t !! []);
  wf_child : forall p n c, t !! p = Some n -> c ∈ children n <-> is_Some (t !! (c :: p));
  wf_parent : forall c p, is_Some (t !! (c :: p)) -> is_Some (t !! p);
  wf_node : forall p n, t !! p = Some n -> node_ok n
}.

(** ** Distinguished names *)

Definition name_ok (c : string) : Prop := ContainsByte c dot = false.

Lemma dn_Join p : dn p = Join ("root" :: rev p) dot.
Proof.
  induction p as [|c p IH]; [done|]. simpl dn. rewrite IH.
  simpl rev. rewrite app_comm_cons, Join_snoc by done. done.
Qed.

Lemma dn_inj p q : Forall name_ok p -> Forall name_ok q -> dn p = dn q -> p = q.
Proof.
  intros Hp Hq. rewrite !dn_Join. intros E. apply Join_inj in E; try done.
  - injection E as E. by apply (f_equal (@rev _)) in E; rewrite !rev_involutive in E.
  - constructor; [done|]. by apply Forall_rev.
  - constructor; [done|]. by apply Forall_rev.
Qed.

Lemma names_ok_inj t p q :
  names_ok t -> is_Some (t !! p) -> is_Some (t !! q) -> dn p = dn q -> p = q.
Proof. intros Hn Hp Hq. apply dn_inj; by apply Hn. Qed.

Lemma walk_app t cur p q :
  wf t -> is_Some (t !! (rev q ++ rev p ++ cur)) ->
  walk t cur (p ++ q) = walk t (rev p ++ cur) q.
Proof.
  intros Hwf. revert cur q. induction p as [|x p IH]; intros cur q Hs; [done|].
  simpl in *. rewrite <- app_assoc in Hs. simpl in Hs.
  assert (forall l r, is_Some (t !! (l ++ r)) -> is_Some (t !! r)) as Hsuf.
  { intros l r. induction l as [|y l IHl]; [done|]. simpl. intros. by apply IHl, (wf_parent t Hwf y). }
  assert (is_Some (t !! (x :: cur))) as Hx by (apply (Hsuf (rev q ++ rev p)); by rewrite <- app_assoc).
  destruct (wf_parent t Hwf _ _ Hx) as [n Hn]. rewrite Hn. simpl.
  rewrite bool_decide_eq_true_2 by (by apply (wf_child t Hwf cur n)).
  rewrite IH by (by rewrite <- ?app_assoc). by rewrite <- app_assoc.
Qed.

Lemma walk_Some t cur parts p :
  wf t -> is_Some (t !! cur) -> walk t cur parts = Some p ->
  p = rev parts ++ cur /\ is_Some (t !! p).
Proof.
  intros Hwf. revert cur. induction parts as [|x parts IH]; intros cur Hc; simpl.
  { by intros [= <-]. }
  destruct Hc as [n Hn]. rewrite Hn. simpl. case_bool_decide as Hx; [|done].
  intros H. apply (wf_child t Hwf cur n) in Hx; [|done].
  apply IH in H as [-> ?]; [|done]. by rewrite <- app_assoc.
Qed.

(** A node found by DN is in the tree, and has that DN. *)
Lemma nodeByDN_Some t d p :
  wf t -> nodeByDN t d = Some p -> d = dn p /\ is_Some (t !! p) /\ Forall name_ok p.
Proof.
  intros Hwf. unfold nodeByDN. destruct (Split d dot) as [|first parts] eqn:E; [done|].
  case_bool_decide; [subst first|done].
  intros [-> Hs]%walk_Some; [|done|by apply wf_root]. rewrite app_nil_r in *.
  split; [by rewrite dn_Join, rev_involutive, <- E, Join_Split|]. split; [done|].
  pose proof (Split_no_sep d dot) as Hsep. rewrite E in Hsep.
  apply Forall_cons in Hsep as [_ Hsep]. by apply Forall_rev.
Qed.

(** Lookup by DN finds exactly the node the DN was computed from. *)
Lemma nodeByDN_dn t p :
  wf t -> Forall name_ok p -> is_Some (t !! p) -> nodeByDN t (dn p) = Some p.
Proof.
  intros Hwf Hnames Hp. unfold nodeByDN. rewrite dn_Join.
  rewrite Split_Join; [|done|constructor; [done|by apply Forall_rev]]. simpl.
  rewrite <- (app_nil_r (rev p)), walk_app; rewrite ?rev_involutive, ?app_nil_r; done.
Qed.

Lemma nodeByDN_iff t d p :
  wf t -> names_ok t -> nodeByDN t d = Some p <-> is_Some (t !! p) /\ d = dn p.
Proof.
  intros Hwf Hn. split; [intros (?&?&?)%nodeByDN_Some; done|].
  intros [Hp ->]. apply nodeByDN_dn; [done|by apply Hn|done].
Qed.

(** ** Updating one node in place *)

Lemma wf_insert t p n n' :
  wf t -> t !! p = Some n -> children n' = children n -> node_ok n' -> wf (<[p := n']> t).
Proof.
  intros Hwf Hp Hc Hok. split.
  - rewrite lookup_insert. case_decide; [done|]. by apply wf_root.
  - intros q m c. rewrite !lookup_insert. repeat case_decide; subst; try done.
    + by exfalso; eauto with go.
    + intros [= <-]. rewrite Hc. by apply wf_child.
    + intros Hq. rewrite (wf_child t Hwf q m c) by done. rewrite Hp. naive_solver.
    + by apply wf_child.
  - intros c q. rewrite !lookup_insert. repeat case_decide; try done; subst.
    + intros _. by apply (wf_parent t Hwf c).
    + by apply wf_parent.
  - intros q m. rewrite lookup_insert. case_decide; [by intros [= <-]|by apply wf_node].
Qed.

Lemma names_ok_insert t p n :
  names_ok t -> is_Some (t !! p) -> names_ok (<[p := n]> t).
Proof. intros Hn Hp q. rewrite lookup_insert. case_decide; subst; [|apply Hn]. intros _. by apply Hn. Qed.

Lemma node_ok_with_state s n : node_ok n -> node_ok (with_state s n).
Proof. done. Qed.
Lemma node_ok_with_bo b n : node_ok n -> node_ok (with_bo b n).
Proof. done. Qed.
Lemma node_ok_with_cancel n : node_ok n -> node_ok (with_cancel n).
Proof. done. Qed.

Create HintDb sup discriminated.
#[export] Hint Resolve node_ok_with_state node_ok_with_bo node_ok_with_cancel : sup.

End Supervisor.
