(* ===== verification/SupervisorOps.v ===== *)
(** * Operations of runnables on the supervision tree

    What [runGroup], [signal] and [SubLogger] do to a well-formed tree: every
    branch of each operation, and that all of them keep the tree well formed. *)

From S2P Require Import Prelude GoStrings Supervisor.

Module SupervisorOps.
Import Supervisor.

(** ** Starting a group *)

(** The nodes a group adds below [p]. *)
Definition added (p : ptr) (rs : list (string * Runnable)) : tree :=
  list_to_map ((fun cr => (cr.1 :: p, newNode cr.2)) <$> rs).

Lemma added_lookup p rs q n :
  NoDup rs.*1 -> added p rs !! q = Some n <->
  exists c r, q = c :: p /\ (c, r) ∈ rs /\ n = newNode r.
Proof.
  intros Hnd. unfold added.
  assert (NoDup ((fun cr : string * Runnable => (cr.1 :: p, newNode cr.2)) <$> rs).*1) as Hnd'.
  { rewrite <- list_fmap_compose. change (NoDup (((fun c => c :: p) ∘ fst) <$> rs)).
    rewrite list_fmap_compose. apply NoDup_fmap_2; [|done]. intros ?? [= ?]. done. }
  rewrite <- elem_of_list_to_map by done. rewrite list_elem_of_fmap.
  split; [intros ([c r] & [= -> ->] & ?); eauto|].
  intros (c & r & -> & ? & ->). by exists (c, r).
Qed.

Lemma added_self p rs : added p rs !! p = None.
Proof.
  unfold added. apply not_elem_of_list_to_map_1. rewrite <- list_fmap_compose.
  intros (cr & E & _)%list_elem_of_fmap. simpl in E. eauto with go.
Qed.

Lemma added_notin p rs c : c ∉ rs.*1 -> added p rs !! (c :: p) = None.
Proof.
  intros Hc. unfold added. apply not_elem_of_list_to_map_1. rewrite <- list_fmap_compose.
  intros (cr & [= ->] & Hin)%list_elem_of_fmap. apply Hc. apply list_elem_of_fmap. eauto.
Qed.

(** The tree after a group was created below [p], groups not yet updated. *)
Definition grown (t : tree) (p : ptr) (n : node) (rs : list (string * Runnable)) : tree :=
  <[p := with_children (children n ++ rs.*1) n]> (added p rs ∪ t).

Lemma createChildren_spec t p n rs g ds :
  t !! p = Some n -> NoDup rs.*1 ->
  (forall c, c ∈ rs.*1 -> groupSiblings n c = None) ->
  createChildren t p rs g ds =
    (grown t p n rs, Ok (list_to_set rs.*1 ∪ g, ds ++ ((fun c => dn (c :: p)) <$> rs.*1))).
Proof.
  revert t n g ds. induction rs as [|[c r] rs IH]; intros t n g ds Hp Hnd Hg.
  { simpl. f_equal.
    - unfold grown. simpl. rewrite app_nil_r. unfold added. simpl.
      rewrite (left_id_L ∅ (∪)). destruct n. by rewrite insert_id.
    - do 2 f_equal; [set_solver|by rewrite app_nil_r]. }
  csimpl in Hnd. apply NoDup_cons in Hnd as [Hc Hnd]. cbn [createChildren]. rewrite Hp.
  rewrite Hg by (by left).
  rewrite (IH _ (with_children (children n ++ [c]) n)); [|..|done|].
  - f_equal.
    + unfold grown. apply map_eq. intros q. rewrite !lookup_insert.
      case_decide as Hq; [simpl; by rewrite <- app_assoc|].
      rewrite !lookup_union, !lookup_insert. unfold added. simpl.
      rewrite lookup_insert. fold (added p rs).
      destruct (decide (c :: p = q)) as [<-|Hcq].
      * rewrite added_notin by done. by destruct (t !! (c :: p)).
      * by rewrite !decide_False by done.
    + do 2 f_equal; [set_solver|]. simpl. by rewrite <- app_assoc.
  - rewrite lookup_insert_ne by (intros E; symmetry in E; eauto with go).
    by rewrite lookup_insert_eq.
  - intros d Hd. apply Hg. by right.
Qed.

Lemma groups_ok_siblings n c : groups_ok n -> c ∉ children n -> groupSiblings n c = None.
Proof.
  intros (Hsub & _) Hc. unfold groupSiblings.
  destruct (List.find _ _) as [g|] eqn:E; [|done].
  apply find_some in E as [Hin Hb]. apply bool_decide_eq_true in Hb.
  exfalso. apply Hc. eapply Hsub; [|done]. by apply list_elem_of_In.
Qed.

Lemma checkNames_Ok n names :
  checkNames n names = Ok tt <->
  Forall (fun c => reNodeName c = true /\ (c ∉ children n) /\ c ∉ reserved n) names.
Proof.
  induction names as [|c names IH]; simpl; [split; [constructor|done]|].
  rewrite Forall_cons, <- IH. destruct (reNodeName c); [|naive_solver].
  case_bool_decide; [naive_solver|]. simpl. case_bool_decide; naive_solver.
Qed.

(** What a successful group start does. *)
Definition group_started (t : tree) (p : ptr) (n : node) (rs : list (string * Runnable)) : tree :=
  <[p := with_groups (groups n ++ [list_to_set rs.*1])
           (with_children (children n ++ rs.*1) n)]> (added p rs ∪ t).

Lemma runGroup_spec t p n rs :
  wf t -> t !! p = Some n -> NoDup rs.*1 ->
  runGroup t p rs =
    if negb (bool_decide (state n = nodeStateNew)) then (t, Err errNonNew)
    else match checkNames n rs.*1 with
         | Err e => (t, Err e)
         | Ok _ => (group_started t p n rs, Ok ((fun c => dn (c :: p)) <$> rs.*1))
         end.
Proof.
  intros Hwf Hp Hnd. unfold runGroup. rewrite Hp. case_bool_decide; simpl; [|done].
  destruct (checkNames n rs.*1) as [[]|e] eqn:E; [|done].
  apply checkNames_Ok in E. rewrite Forall_forall in E.
  rewrite (createChildren_spec t p n); [|done..|].
  - f_equal. unfold grown, group_started. rewrite alter_insert_eq. simpl.
    do 4 f_equal. set_solver.
  - intros c Hc. apply groups_ok_siblings; [apply (wf_node t Hwf p n Hp)|]. naive_solver.
Qed.

(** A group that is refused leaves the tree as it was; in particular the
    duplicate-name error of the second loop is never reached. *)
Lemma runGroup_err_unchanged t p rs t' e :
  wf t -> NoDup rs.*1 -> runGroup t p rs = (t', Err e) -> t' = t /\ e <> errDuplicate.
Proof.
  intros Hwf Hnd H. destruct (t !! p) as [n|] eqn:Hp.
  2:{ unfold runGroup in H. rewrite Hp in H. by injection H as <- <-. }
  rewrite (runGroup_spec t p n) in H by done.
  case_bool_decide; simpl in H; [|by injection H as <- <-].
  destruct (checkNames n rs.*1) as [|e'] eqn:E; [done|]. injection H as <- <-.
  split; [done|]. clear -E. induction rs.*1 as [|c l IH]; simpl in E; [done|].
  destruct (reNodeName c); [|by injection E as <-].
  case_bool_decide; simpl in E; [by injection E as <-|].
  case_bool_decide; simpl in E; [by injection E as <-|]. auto.
Qed.

Lemma node_ok_grown n (rs : list (string * Runnable)) :
  node_ok n -> NoDup rs.*1 ->
  Forall (fun c => reNodeName c = true /\ (c ∉ children n) /\ c ∉ reserved n) rs.*1 ->
  node_ok (with_groups (groups n ++ [list_to_set rs.*1])
             (with_children (children n ++ rs.*1) n)).
Proof.
  intros (Hnd & (G1 & G2 & G3) & Hr) Hnd' Hall. rewrite Forall_forall in Hall.
  split; [|split; [split; [|split]|]]; simpl.
  - apply NoDup_app. split; [done|]. split; [naive_solver|done].
  - intros g c [Hg|Hg%list_elem_of_singleton]%elem_of_app Hc; rewrite elem_of_app; [eauto|].
    subst g. rewrite elem_of_list_to_set in Hc. by right.
  - intros c [Hc|Hc]%elem_of_app; setoid_rewrite elem_of_app.
    + destruct (G2 c Hc) as (g & ? & ?). eauto.
    + exists (list_to_set rs.*1). rewrite elem_of_list_to_set.
      split; [right; by apply list_elem_of_singleton|done].
  - intros i j g h c Hi Hj Hcg Hch.
    apply lookup_snoc_Some in Hi as [[Hil Hi]|[-> <-]], Hj as [[Hjl Hj]|[-> <-]].
    + eauto.
    + rewrite elem_of_list_to_set in Hch. exfalso. apply list_elem_of_lookup_2 in Hi.
      naive_solver.
    + rewrite elem_of_list_to_set in Hcg. exfalso. apply list_elem_of_lookup_2 in Hj.
      naive_solver.
    + done.
  - intros c [Hc|Hc]%elem_of_app; [by apply Hr|]. naive_solver.
Qed.

Lemma newNode_ok r : node_ok (newNode r).
Proof.
  split; [constructor|]. split; [|by intros ? ?%not_elem_of_nil].
  split; [by intros ??[]%not_elem_of_nil|]. split; [by intros ? ?%not_elem_of_nil|]. done.
Qed.

Lemma wf_group_started t p n rs :
  wf t -> t !! p = Some n -> NoDup rs.*1 ->
  Forall (fun c => reNodeName c = true /\ (c ∉ children n) /\ c ∉ reserved n) rs.*1 ->
  wf (group_started t p n rs).
Proof.
  intros Hwf Hp Hnd Hall. pose proof Hall as Hall'. rewrite Forall_forall in Hall'.
  assert (forall q, is_Some ((added p rs ∪ t) !! q) <->
            (exists c, q = c :: p /\ c ∈ rs.*1) \/ is_Some (t !! q)) as Hdom.
  { intros q. rewrite <- elem_of_dom, dom_union, elem_of_union, !elem_of_dom.
    split; (intros [H|H]; [left|by right]).
    - destruct H as [m (c & r & -> & Hin & ->)%added_lookup]; [|done].
      exists c. split; [done|]. apply list_elem_of_fmap. by exists (c, r).
    - destruct H as (c & -> & ([c' r] & -> & Hin)%list_elem_of_fmap). simpl.
      exists (newNode r). apply added_lookup; [done|]. eauto. }
  assert (forall q, is_Some (group_started t p n rs !! q) <->
            (exists c, q = c :: p /\ c ∈ rs.*1) \/ is_Some (t !! q)) as Hdom'.
  { intros q. unfold group_started. rewrite lookup_insert. case_decide as E; [|apply Hdom].
    subst q. rewrite Hp. naive_solver. }
  split.
  - apply Hdom'. right. by apply wf_root.
  - intros q m c Hq. rewrite Hdom'. unfold group_started in Hq. rewrite lookup_insert in Hq.
    case_decide as E.
    + subst q. injection Hq as <-. simpl. rewrite elem_of_app, (wf_child t Hwf p n c) by done.
      split; [intros [?|?]; eauto|]. intros [(c' & [= ->] & ?)|?]; eauto.
    + destruct (added p rs !! q) as [m'|] eqn:Ha.
      * rewrite (lookup_union_Some_l _ _ _ _ Ha) in Hq. injection Hq as <-.
        apply added_lookup in Ha as (d & r & -> & Hd & ->); [|done]. simpl.
        split; [by intros ?%not_elem_of_nil|].
        intros [(c' & [= _ E'] & _)|Hs]; [symmetry in E'; exfalso; eauto with go|].
        apply (wf_parent t Hwf) in Hs. exfalso.
        apply (wf_child t Hwf p n) in Hs; [|done].
        destruct (Hall' d) as (_ & Hnin & _); [|done]. apply list_elem_of_fmap. by exists (d, r).
      * rewrite lookup_union_r in Hq by done. rewrite (wf_child t Hwf q m c) by done.
        split; [by right|]. intros [(c' & [= -> ->] & _)|?]; done.
  - intros c q. rewrite !Hdom'. intros [(c' & [= -> ->] & _)|Hs]; [right; by rewrite Hp|].
    right. by apply (wf_parent t Hwf c).
  - intros q m. unfold group_started. rewrite lookup_insert. case_decide.
    + intros [= <-]. apply node_ok_grown; [by apply (wf_node t Hwf p)|done|done].
    + intros [Hm|[_ Hm]]%lookup_union_Some_raw.
      * apply added_lookup in Hm as (? & r & ? & ? & ->); [|done]. apply newNode_ok.
      * by apply (wf_node t Hwf q).
Qed.

Lemma runGroup_wf t p rs t' r :
  wf t -> NoDup rs.*1 -> runGroup t p rs = (t', r) -> wf t'.
Proof.
  intros Hwf Hnd H. destruct (t !! p) as [n|] eqn:Hp.
  2:{ unfold runGroup in H. rewrite Hp in H. by injection H as <- <-. }
  rewrite (runGroup_spec t p n) in H by done.
  case_bool_decide; simpl in H; [|by injection H as <- <-].
  destruct (checkNames n rs.*1) as [[]|e] eqn:E; injection H as <- <-; [|done].
  apply wf_group_started; [done..|]. by apply checkNames_Ok.
Qed.

(** ** Signals and sub-loggers *)

Lemma signal_wf t p s t' : wf t -> signal t p s = Some t' -> wf t'.
Proof.
  intros Hwf. unfold signal. destruct (t !! p) as [n|] eqn:Hp; [|done]. simpl.
  pose proof (wf_node t Hwf p n Hp).
  destruct s; case_bool_decide; intros [= <-]; apply (wf_insert t p n); auto with sup.
Qed.

Lemma SubLogger_wf t d name t' r : wf t -> SubLogger t d name = Some (t', r) -> wf t'.
Proof.
  intros Hwf. unfold SubLogger. destruct (nodeByDN t d) as [p|]; [|done]. simpl.
  destruct (t !! p) as [n|] eqn:Hp; [|done]. simpl.
  case_bool_decide as Hc; [by intros [= <- <-]|].
  destruct (reNodeName name); simpl; intros [= <- <-]; [|done].
  apply (wf_insert t p n); [done..|].
  destruct (wf_node t Hwf p n Hp) as (H1 & H2 & H3). split; [done|]. split; [done|].
  simpl. intros c Hin. specialize (H3 c Hin). set_solver.
Qed.

(** The signal protocol: NEW -> HEALTHY -> DONE, each resetting the backoff;
    any other signal panics. *)
Lemma signal_spec t p n s :
  t !! p = Some n ->
  signal t p s =
    match state n, s with
    | nodeStateNew, SignalHealthy => Some (<[p := with_bo 0 (with_state nodeStateHealthy n)]> t)
    | nodeStateHealthy, SignalDone => Some (<[p := with_bo 0 (with_state nodeStateDone n)]> t)
    | _, _ => None
    end.
Proof. intros Hp. unfold signal. rewrite Hp. simpl. by destruct s, (state n). Qed.

(** ** Restarting a node *)

Lemma prune_lookup p t q : prune p t !! q = if decide (below p q) then None else t !! q.
Proof.
  unfold prune. destruct (t !! q) as [n|] eqn:E.
  - case_decide as Hb.
    + apply map_lookup_filter_None. right. intros m Hm. simpl. naive_solver.
    + apply map_lookup_filter_Some. done.
  - case_decide; apply map_lookup_filter_None; by left.
Qed.

Lemma not_below_self p : ~ below p p.
Proof. by intros [_ ?]. Qed.

Lemma reset_lookup t p q :
  is_Some (t !! p) ->
  reset t p !! q =
    if decide (q = p) then fresh <$> t !! p
    else if decide (below p q) then None else t !! q.
Proof.
  intros [n Hn]. unfold reset. rewrite Hn. rewrite lookup_insert.
  repeat case_decide; try congruence; rewrite ?prune_lookup; repeat case_decide; done.
Qed.

Lemma below_cons p c q : below p (c :: q) <-> p `suffix_of` q.
Proof.
  split.
  - intros [[k Hk] Hne]. destruct k as [|x k]; [by simpl in Hk|].
    injection Hk as -> ->. by exists k.
  - intros [k ->]. split; [by exists (c :: k)|].
    intros E. apply (f_equal length) in E. simpl in E. rewrite length_app in E. lia.
Qed.

Lemma fresh_ok n : node_ok (fresh n).
Proof.
  split; [constructor|]. split; [|by intros ? ?%not_elem_of_nil].
  split; [by intros ??[]%not_elem_of_nil|]. split; [by intros ? ?%not_elem_of_nil|]. done.
Qed.

Lemma suffix_below p q : p `suffix_of` q -> q = p \/ below p q.
Proof. intros H. destruct (decide (q = p)); [by left|right]. by split. Qed.

Lemma reset_wf t p : wf t -> is_Some (t !! p) -> wf (reset t p).
Proof.
  intros Hwf Hp. split.
  - rewrite reset_lookup by done. case_decide as E.
    + destruct Hp as [n ->]. done.
    + rewrite decide_False; [by apply wf_root|]. intros [H Hne]. apply suffix_nil_inv in H. done.
  - intros q m c. rewrite !reset_lookup by done. destruct Hp as [n Hn]. rewrite Hn.
    destruct (decide (q = p)) as [->|Hq].
    + intros [= <-]. simpl. rewrite decide_False by (intros E; symmetry in E; eauto with go).
      rewrite decide_True by (by apply below_cons). split; [by intros ?%not_elem_of_nil|].
      by intros [??].
    + destruct (decide (below p q)) as [Hb|Hb]; [done|]. intros Hm.
      rewrite (wf_child t Hwf q m c) by done.
      destruct (decide (c :: q = p)) as [E|Hne]; [by rewrite <- E in *; rewrite Hn|].
      rewrite decide_False; [done|]. intros H%below_cons%suffix_below. naive_solver.
  - intros c q. rewrite !reset_lookup by done. destruct Hp as [n Hn]. rewrite Hn.
    destruct (decide (q = p)) as [->|Hq]; [done|].
    destruct (decide (c :: q = p)) as [E|Hne].
    + intros _. rewrite decide_False.
      * apply (wf_parent t Hwf c). by rewrite E, Hn.
      * intros [[k Hk] _]. subst p. apply (f_equal length) in Hk. rewrite length_app in Hk.
        simpl in Hk. lia.
    + destruct (decide (below p (c :: q))) as [?|Hb]; [by intros [??]|].
      rewrite decide_False; [by apply wf_parent|]. intros [Hs _]. apply Hb. by apply below_cons.
  - intros q m. rewrite reset_lookup by done. case_decide; [|case_decide; [done|by apply wf_node]].
    destruct (t !! p); [|done]. intros [= <-]. apply fresh_ok.
Qed.

Lemma reset_names_ok t p : names_ok t -> is_Some (t !! p) -> names_ok (reset t p).
Proof.
  intros Hn Hp q. rewrite reset_lookup by done. case_decide; subst; [intros _; by apply Hn|].
  case_decide; [by intros [??]|apply Hn].
Qed.

End SupervisorOps.
