(* ===== verification/SupervisorGC.v ===== *)
(** * The GC of the supervision tree

    Models [processGC] of [osbase/supervisor/supervisor_processor.go], which
    finds the subtrees that died and can be restarted, and the other loops of
    that file that traverse the tree ([liveRunnables], [processKill]).

    All of these are the same Go loop: take the first node of a queue, update
    some accumulator, change the queue, stop when it is empty.  [worklist] is
    that loop with fuel, and [worklist_inv] is its rule: an invariant and a
    measure that the body decreases give the result of the loop and that the
    fuel was enough for it. *)

From S2P Require Import Prelude GoStrings Supervisor SupervisorOps.

Module SupervisorGC.
Import Supervisor SupervisorOps.

Fixpoint worklist {A} (body : ptr -> list ptr -> A -> list ptr * A)
    (fuel : nat) (queue : list ptr) (acc : A) : option A :=
  match queue with
  | [] => Some acc
  | cur :: queue =>
      match fuel with
      | O => None
      | S fuel => let '(queue, acc) := body cur queue acc in worklist body fuel queue acc
      end
  end.

(** ** The phases of [processGC] *)

(** Phase one: find all leaves by DFS. *)
Definition leaves_body (t : tree) (cur : ptr) (queue : list ptr) (leaves : gset string)
    : list ptr * gset string :=
  let queue := foldl (fun q c => c :: q) queue (kids t cur) in
  let leaves := if bool_decide (kids t cur = []) then {[dn cur]} ∪ leaves else leaves in
  (queue, leaves).

(** A node in this state may be restarted. *)
Definition restartable (s : nodeState) : bool :=
  match s with
  | nodeStateDone | nodeStateCanceled | nodeStateDead => true
  | _ => false
  end.

Definition state_of (t : tree) (p : ptr) : nodeState :=
  match t !! p with Some n => state n | None => nodeStateNew end.

Definition allVisited (t : tree) (visited : gset string) (cur : ptr) : bool :=
  forallb (fun c => bool_decide (dn c ∈ visited)) (kids t cur).

(** Phase two: from the leaves to the root, note which subtrees are ready.  A
    node whose children are not all decided is pushed back. *)
Definition ready_body (t : tree) (cur : ptr) (queue : list ptr)
    (acc : gset string * gset string) : list ptr * (gset string * gset string) :=
  let '(visited, ready) := acc in
  let curDn := dn cur in
  if negb (allVisited t visited cur) then (queue ++ [cur], (visited, ready))
  else
    let childrenReady := forallb (fun c => bool_decide (dn c ∈ ready)) (kids t cur) in
    let curReady := restartable (state_of t cur) in
    let visited := {[curDn]} ∪ visited in
    let ready := if childrenReady && curReady then {[curDn]} ∪ ready else ready ∖ {[curDn]} in
    let queue := match cur with
                 | [] => queue
                 | _ :: parent =>
                     if bool_decide (dn parent ∈ visited) then queue else queue ++ [parent]
                 end in
    (queue, (visited, ready)).

(** Phase three: from the root, the largest subtrees that need a restart and
    can have one. *)
Definition restart_body (t : tree) (ready : gset string) (cur : ptr) (queue : list ptr)
    (acc : gset string * gset string) : list ptr * (gset string * gset string) :=
  let '(want, can) := acc in
  let want := match state_of t cur with
              | nodeStateDead | nodeStateCanceled => {[dn cur]} ∪ want
              | _ => want
              end in
  if bool_decide (dn cur ∈ want) && bool_decide (dn cur ∈ ready)
     && match cur with [] => true | _ :: parent => negb (ctxErr t parent) end
  then (queue, (want, {[dn cur]} ∪ can))
  else (queue ++ kids t cur, (want, can)).

(** The body of the final loop: draw a backoff for a node that died, reset it,
    and send a schedule request (after the backoff, if one was drawn). *)
Definition restart_node (acc : tree * list (string * bool)) (d : string)
    : option (tree * list (string * bool)) :=
  let '(t, reqs) := acc in
  p ← nodeByDN t d;
  n ← t !! p;
  let dead := bool_decide (state n = nodeStateDead) in
  let t := if dead then <[p := with_bo (S (bo n)) n]> t else t in
  Some (reset t p, reqs ++ [(d, dead)]).

Fixpoint restart_all (acc : tree * list (string * bool)) (ds : list string)
    : option (tree * list (string * bool)) :=
  match ds with
  | [] => Some acc
  | d :: ds => acc ← restart_node acc d; restart_all acc ds
  end.

(** Fuel for phase two: each queued node moves up to the root at most once, and
    between two moves at most the whole queue is pushed back. *)
Definition weight (queue : list ptr) : nat := sum_list ((fun p => S (length p)) <$> queue).
Definition ready_fuel (queue : list ptr) : nat := weight queue * S (length queue) + length queue.

Definition gc_leaves (t : tree) : option (gset string) :=
  worklist (leaves_body t) (size t) [[]] ∅.
Definition gc_ready (t : tree) (queue : list ptr) : option (gset string * gset string) :=
  worklist (ready_body t) (ready_fuel queue) queue (∅, ∅).
Definition gc_can (t : tree) (ready : gset string) : option (gset string * gset string) :=
  worklist (restart_body t ready) (size t) [[]] (∅, ∅).

(** [processGC]: the new tree and the schedule requests, each with whether a
    backoff precedes it. *)
Definition processGC (t : tree) : option (tree * list (string * bool)) :=
  leaves ← gc_leaves t;
  queue ← mapM (nodeByDN t) (elements leaves);
  vr ← gc_ready t queue;
  wc ← gc_can t vr.2;
  restart_all (t, []) (elements wc.2).

(** ** The loop rule *)

Lemma worklist_inv {A} body (I : list ptr -> A -> Prop) (μ : list ptr -> A -> nat) :
  (forall cur q a q' a', I (cur :: q) a -> body cur q a = (q', a') ->
     I q' a' /\ μ q' a' < μ (cur :: q) a) ->
  forall fuel q a, I q a -> μ q a <= fuel ->
  exists a', worklist body fuel q a = Some a' /\ I [] a'.
Proof.
  intros Hstep fuel. induction fuel as [|fuel IH]; intros q a HI Hμ.
  - destruct q as [|cur q]; [by exists a|].
    destruct (body cur q a) as [q' a'] eqn:E. apply Hstep in E as [_ ?]; [lia|done].
  - destruct q as [|cur q]; [by exists a|]. simpl.
    destruct (body cur q a) as [q' a'] eqn:E. apply Hstep in E as [HI' ?]; [|done].
    apply IH; [done|lia].
Qed.

(** ** Subtrees *)

Definition sub (t : tree) (p : ptr) : gset ptr := filter (suffix p) (dom t).

Lemma elem_of_sub t p q : q ∈ sub t p <-> p `suffix_of` q /\ is_Some (t !! q).
Proof. unfold sub. by rewrite elem_of_filter, elem_of_dom. Qed.

Lemma wf_up t p q : wf t -> p `suffix_of` q -> is_Some (t !! q) -> is_Some (t !! p).
Proof.
  intros Hwf [k ->]. induction k as [|c k IH]; [done|]. intros. by apply IH, (wf_parent t Hwf c).
Qed.

Lemma elem_of_kids t p q :
  wf t -> is_Some (t !! p) -> q ∈ kids t p <-> exists c, q = c :: p /\ is_Some (t !! q).
Proof.
  intros Hwf [n Hn]. unfold kids. rewrite Hn, list_elem_of_fmap.
  split; intros (c & -> & H); exists c; (split; [done|]); by apply (wf_child t Hwf p n).
Qed.

Lemma kids_in t p q : wf t -> q ∈ kids t p -> is_Some (t !! q) /\ exists c, q = c :: p.
Proof.
  intros Hwf Hq. destruct (t !! p) as [n|] eqn:Hp; [|by unfold kids in Hq; rewrite Hp in Hq; set_solver].
  apply elem_of_kids in Hq as (c & -> & ?); eauto.
Qed.

Lemma kids_NoDup t p : wf t -> NoDup (kids t p).
Proof.
  intros Hwf. unfold kids. destruct (t !! p) as [n|] eqn:E; [|constructor].
  apply NoDup_fmap_2; [by intros ??[=]|]. by apply (wf_node t Hwf p n).
Qed.

(** Everything strictly below [p] is at or below exactly one child of [p]. *)
Lemma below_kid t p q :
  wf t -> below p q -> is_Some (t !! q) -> exists c, c ∈ kids t p /\ c `suffix_of` q.
Proof.
  intros Hwf [[k ->] Hne] Hs. destruct k as [|c k] using rev_ind; [done|]. clear IHk.
  rewrite <- app_assoc in *. simpl in *.
  assert (c :: p `suffix_of` k ++ c :: p) as Hsuf by (by exists k).
  pose proof (wf_up t _ _ Hwf Hsuf Hs) as Hc. exists (c :: p). split; [|done].
  apply elem_of_kids; [done|by apply (wf_parent t Hwf c)|]. eauto.
Qed.

Lemma suffix_same_length {A} (l k m : list A) :
  l `suffix_of` m -> k `suffix_of` m -> length l = length k -> l = k.
Proof. intros [x ->] [y E] Hlen. by apply app_inj_2 in E as [_ ?]. Qed.

Lemma kid_unique t p c d q :
  wf t -> c ∈ kids t p -> d ∈ kids t p -> c `suffix_of` q -> d `suffix_of` q -> c = d.
Proof.
  intros Hwf Hc Hd Hcq Hdq. apply kids_in in Hc as [_ [? ->]]; [|done].
  apply kids_in in Hd as [_ [? ->]]; [|done]. by eapply suffix_same_length.
Qed.

Definition total (t : tree) (q : list ptr) : nat := sum_list ((fun p => size (sub t p)) <$> q).

Lemma total_app t l k : total t (l ++ k) = total t l + total t k.
Proof. unfold total. rewrite fmap_app. by apply sum_list_with_app. Qed.

Lemma size_union_kids t p cs :
  wf t -> NoDup cs -> (forall c, c ∈ cs -> c ∈ kids t p) ->
  size (⋃ (sub t <$> cs)) = total t cs.
Proof.
  intros Hwf. induction cs as [|c cs IH]; intros Hnd Hin; [done|].
  apply NoDup_cons in Hnd as [Hc Hnd]. unfold total in *. csimpl.
  rewrite size_union.
  - rewrite IH; [done|done|]. intros. apply Hin. by right.
  - intros q Hq Hu. apply elem_of_union_list in Hu as (X & HX & Hq').
    apply list_elem_of_fmap in HX as (d & -> & Hd).
    apply elem_of_sub in Hq as [Hq _]. apply elem_of_sub in Hq' as [Hq' _].
    assert (c = d) as ->; [|done].
    eapply kid_unique; [done|apply Hin; by left|apply Hin; by right|done|done].
Qed.

Lemma sub_unfold t p :
  wf t -> is_Some (t !! p) -> sub t p = {[p]} ∪ ⋃ (sub t <$> kids t p).
Proof.
  intros Hwf Hp. apply set_eq. intros q.
  rewrite elem_of_union, elem_of_singleton, elem_of_union_list, elem_of_sub.
  split.
  - intros [Hs Hq]. apply suffix_below in Hs as [->|Hb]; [by left|right].
    destruct (below_kid t p q Hwf Hb Hq) as (c & Hc & Hcq).
    exists (sub t c). split; [apply list_elem_of_fmap; eauto|by apply elem_of_sub].
  - intros [->|(X & HX & Hq)]; [done|]. apply list_elem_of_fmap in HX as (c & -> & Hc).
    apply elem_of_sub in Hq as [Hs Hq]. split; [|done].
    apply kids_in in Hc as [_ [x ->]]; [|done]. etrans; [|done]. by exists [x].
Qed.

(** A subtree is its root and the subtrees of the children. *)
Lemma size_sub t p :
  wf t -> is_Some (t !! p) -> size (sub t p) = S (total t (kids t p)).
Proof.
  intros Hwf Hp. rewrite (sub_unfold t p) by done. rewrite size_union.
  - rewrite size_singleton, (size_union_kids t p); [done|done|by apply kids_NoDup|done].
  - intros q Hq%elem_of_singleton Hu. subst q.
    apply elem_of_union_list in Hu as (X & HX & Hq).
    apply list_elem_of_fmap in HX as (c & -> & Hc). apply elem_of_sub in Hq as [[k Hk] _].
    apply kids_in in Hc as [_ [x ->]]; [|done]. apply (f_equal length) in Hk.
    rewrite length_app in Hk. simpl in Hk. lia.
Qed.

Lemma total_cons t p q : total t (p :: q) = size (sub t p) + total t q.
Proof. done. Qed.

Lemma total_root t : total t [[]] = size t.
Proof.
  unfold total. simpl. rewrite Nat.add_0_r. rewrite <- size_dom. f_equal.
  apply set_eq. intros q. rewrite elem_of_sub, elem_of_dom.
  split; [by intros [_ ?]|]. split; [apply suffix_nil|done].
Qed.

(** Descending to the children of the head shrinks a queue. *)
Lemma total_descend t p q ks :
  wf t -> is_Some (t !! p) -> ks ≡ₚ kids t p ->
  total t (q ++ ks) < total t (p :: q) /\ total t (ks ++ q) < total t (p :: q).
Proof.
  intros Hwf Hp Hk. rewrite !total_app, total_cons, size_sub by done.
  assert (total t ks = total t (kids t p)) as -> by (unfold total; by rewrite Hk). lia.
Qed.

(** ** Phase one *)

Definition leaf (t : tree) (p : ptr) : Prop := is_Some (t !! p) /\ kids t p = [].

Lemma foldl_push (q ks : list ptr) : foldl (fun q c => c :: q) q ks = reverse ks ++ q.
Proof.
  revert q. induction ks as [|k ks IH]; intros q; [done|].
  simpl. rewrite IH, reverse_cons. by rewrite <- app_assoc.
Qed.

Lemma suffix_kid t p q :
  wf t -> p `suffix_of` q -> is_Some (t !! q) -> q = p \/ exists c, c ∈ kids t p /\ c `suffix_of` q.
Proof. intros Hwf Hs Hq. apply suffix_below in Hs as [->|Hb]; [by left|right]. by apply below_kid. Qed.

Lemma gc_leaves_spec t :
  wf t -> exists L, gc_leaves t = Some L /\ forall d, d ∈ L <-> exists p, leaf t p /\ d = dn p.
Proof.
  intros Hwf.
  set (I := fun (q : list ptr) (L : gset string) =>
    (forall x, x ∈ q -> is_Some (t !! x)) /\
    (forall d, d ∈ L -> exists p, leaf t p /\ d = dn p) /\
    (forall p, leaf t p -> dn p ∈ L \/ exists x, x ∈ q /\ x `suffix_of` p)).
  destruct (worklist_inv (leaves_body t) I (fun q _ => total t q)) with
    (fuel := size t) (q := [[]] : list ptr) (a := ∅ : gset string)
    as (L & HL & _ & H1 & H2).
  - intros cur q L q' L' (Hq & Hsound & Hcomp) [= <- <-]. rewrite foldl_push.
    assert (is_Some (t !! cur)) as Hcur by (apply Hq; by left). split; [split; [|split]|].
    + intros x [Hx|Hx]%elem_of_app; [|apply Hq; by right].
      rewrite elem_of_reverse in Hx. by apply (kids_in t cur).
    + intros d. case_bool_decide as Hk; [|apply Hsound].
      intros [->%elem_of_singleton|?]%elem_of_union; [|by apply Hsound]. by exists cur.
    + intros p Hp. destruct (Hcomp p Hp) as [?|(x & [->|Hx]%elem_of_cons & Hs)].
      * left. case_bool_decide; set_solver.
      * destruct (suffix_kid t cur p Hwf Hs) as [->|(c & Hc & ?)]; [apply Hp| |].
        -- left. rewrite bool_decide_eq_true_2 by apply Hp. set_solver.
        -- right. exists c. split; [|done]. apply elem_of_app. left. by rewrite elem_of_reverse.
      * right. exists x. split; [|done]. apply elem_of_app. by right.
    + apply (total_descend t cur q (reverse (kids t cur)) Hwf Hcur). by rewrite reverse_Permutation.
  - split; [|split].
    + intros x ->%list_elem_of_singleton. by apply wf_root.
    + set_solver.
    + intros p _. right. exists []. split; [by left|apply suffix_nil].
  - by rewrite total_root.
  - exists L. split; [done|]. intros d. split; [apply H1|].
    intros (p & Hp & ->). destruct (H2 p Hp) as [?|(x & ?%not_elem_of_nil & _)]; done.
Qed.

Lemma gc_queue_spec t :
  wf t -> names_ok t ->
  exists L queue, gc_leaves t = Some L /\ mapM (nodeByDN t) (elements L) = Some queue /\
    forall p, p ∈ queue <-> leaf t p.
Proof.
  intros Hwf Hn. destruct (gc_leaves_spec t Hwf) as (L & HL & Hspec).
  assert (Forall (fun d => exists p, leaf t p /\ d = dn p) (elements L)) as Hall.
  { apply Forall_forall. intros d Hd%elem_of_elements. by apply Hspec. }
  assert (is_Some (mapM (nodeByDN t) (elements L))) as [queue Hq].
  { apply mapM_is_Some_2. eapply Forall_impl; [done|]. intros d (p & [Hp _] & ->).
    simpl. rewrite nodeByDN_dn; [done|done|by apply Hn|done]. }
  exists L, queue. split; [done|]. split; [done|]. intros p. apply mapM_Some_1 in Hq. split.
  - intros Hp. destruct (Forall2_elem_r _ _ _ _ Hq Hp) as (d & Hd & Hlook).
    apply elem_of_elements, Hspec in Hd as (p' & Hl & ->).
    apply nodeByDN_iff in Hlook as [Hp' E]; [|done..].
    apply (names_ok_inj t) in E; [by subst|done|apply Hl|done].
  - intros Hl. assert (dn p ∈ elements L) as Hd by (apply elem_of_elements, Hspec; eauto).
    destruct (Forall2_elem_l _ _ _ _ Hq Hd) as (p' & Hp' & Hlook).
    apply nodeByDN_iff in Hlook as [Hs E]; [|done..].
    apply (names_ok_inj t) in E; [by subst|done|apply Hl|done].
Qed.

(** ** Phase two *)

(** The specification: every node of the subtree may be restarted. *)
Definition subtree_ready (t : tree) (p : ptr) : Prop :=
  map_Forall (fun q n => p `suffix_of` q -> restartable (state n) = true) t.

#[export] Instance subtree_ready_dec t p : Decision (subtree_ready t p).
Proof. unfold subtree_ready. apply _. Defined.

Lemma subtree_ready_unfold t p :
  wf t -> is_Some (t !! p) ->
  subtree_ready t p <->
  restartable (state_of t p) = true /\ forall c, c ∈ kids t p -> subtree_ready t c.
Proof.
  intros Hwf [n Hn]. unfold state_of. rewrite Hn. split.
  - intros H. split; [by apply (H p n)|]. intros c Hc q m Hq Hs. apply (H q m Hq).
    apply kids_in in Hc as [_ [x ->]]; [|done]. etrans; [|done]. by exists [x].
  - intros [Hp Hk] q m Hq Hs. destruct (suffix_kid t p q Hwf Hs) as [->|(c & Hc & Hcq)].
    + by rewrite Hq.
    + by simplify_eq.
    + by apply (Hk c Hc q m Hq).
Qed.

Fixpoint find_idx {A} (f : A -> bool) (l : list A) : nat :=
  match l with
  | [] => 0
  | x :: l => if f x then 0 else S (find_idx f l)
  end.

Lemma find_idx_le {A} (f : A -> bool) l : find_idx f l <= length l.
Proof. induction l; simpl; [lia|]. case_match; lia. Qed.

Lemma find_idx_rotate {A} (f : A -> bool) x y l :
  f x = false -> y ∈ x :: l -> f y = true ->
  find_idx f (l ++ [x]) < find_idx f (x :: l).
Proof.
  intros Hx [->|Hy]%elem_of_cons Hf; [congruence|]. simpl. rewrite Hx.
  apply Nat.lt_succ_r. induction l as [|z l IH]; [by apply not_elem_of_nil in Hy|].
  simpl. destruct (f z) eqn:Hz; [done|].
  apply elem_of_cons in Hy as [->|Hy]; [congruence|]. specialize (IH Hy). lia.
Qed.

Record ready_inv (t : tree) (bound : nat) (q : list ptr) (a : gset string * gset string) : Prop := {
  ri_in : forall x, x ∈ q -> is_Some (t !! x);
  ri_len : length q <= bound;
  ri_closed : forall p, is_Some (t !! p) -> dn p ∈ a.1 -> forall c, c ∈ kids t p -> dn c ∈ a.1;
  ri_ready : forall p, is_Some (t !! p) -> dn p ∈ a.1 -> dn p ∈ a.2 <-> subtree_ready t p;
  ri_front : forall p, is_Some (t !! p) -> dn p ∉ a.1 ->
    (forall c, c ∈ kids t p -> dn c ∈ a.1) -> p ∈ q
}.

Lemma allVisited_true t V p : allVisited t V p = true <-> forall c, c ∈ kids t p -> dn c ∈ V.
Proof.
  unfold allVisited. rewrite forallb_Forall_iff, Forall_forall.
  by setoid_rewrite bool_decide_eq_true.
Qed.

(** Below every undecided node there is one that can be decided next. *)
Lemma undecided_front t (V : gset string) p :
  wf t -> is_Some (t !! p) -> dn p ∉ V ->
  exists x, is_Some (t !! x) /\ (dn x ∉ V) /\ forall c, c ∈ kids t x -> dn c ∈ V.
Proof.
  intros Hwf. remember (size (sub t p)) as k eqn:Hk. revert p Hk.
  induction k as [k IH] using lt_wf_ind. intros p -> Hp Hv.
  destruct (decide (Forall (fun c => dn c ∈ V) (kids t p))) as [Hall|Hex].
  { exists p. rewrite Forall_forall in Hall. eauto. }
  apply not_Forall_Exists in Hex; [|apply _].
  apply Exists_exists in Hex as (c & Hc & Hcv).
  apply (IH (size (sub t c))) with (p := c); [|done|by apply (kids_in t p c)|done].
  rewrite (size_sub t p) by done.
  apply list_elem_of_split in Hc as (l1 & l2 & ->). rewrite total_app, total_cons. lia.
Qed.

Lemma ready_progress t b q V R :
  wf t -> ready_inv t b q (V, R) -> q <> [] -> exists x, x ∈ q /\ allVisited t V x = true.
Proof.
  intros Hwf HI Hne. destruct q as [|cur q]; [done|].
  destruct (allVisited t V cur) eqn:E; [exists cur; split; [by left|done]|].
  assert (exists c, c ∈ kids t cur /\ dn c ∉ V) as (c & Hc & Hcv).
  { destruct (decide (Exists (fun c => dn c ∉ V) (kids t cur))) as [H|H];
      [by apply Exists_exists in H|].
    apply not_true_iff_false in E. destruct E. apply allVisited_true. intros c Hc.
    destruct (decide (dn c ∈ V)); [done|]. destruct H. apply Exists_exists. eauto. }
  destruct (undecided_front t V c Hwf) as (x & Hx & Hxv & Hxk);
    [by apply (kids_in t cur c)|done|].
  exists x. split; [|by apply allVisited_true]. by apply (ri_front _ _ _ _ HI).
Qed.

Definition ready_measure (t : tree) (b : nat) (q : list ptr) (a : gset string * gset string) : nat :=
  weight q * S b + find_idx (allVisited t a.1) q.

Lemma weight_snoc q p : weight (q ++ [p]) = weight q + S (length p).
Proof. unfold weight. rewrite fmap_app, sum_list_with_app. simpl. lia. Qed.
Lemma weight_cons q p : weight (p :: q) = S (length p) + weight q.
Proof. done. Qed.

(** Pushing the current node back keeps the invariant and brings the next
    decidable node closer to the front. *)
Lemma ready_step_pushback t b cur q V R :
  wf t -> ready_inv t b (cur :: q) (V, R) -> allVisited t V cur = false ->
  ready_inv t b (q ++ [cur]) (V, R) /\
  ready_measure t b (q ++ [cur]) (V, R) < ready_measure t b (cur :: q) (V, R).
Proof.
  intros Hwf HI Hv. destruct (ready_progress t b (cur :: q) V R Hwf HI) as (y & Hy & Hfy); [done|].
  split.
  - destruct HI as [H1 H2 H3 H4 H5]. split; [|..|done|done|].
    + intros x. rewrite elem_of_app, list_elem_of_singleton. intros [?| ->]; apply H1; [by right|by left].
    + rewrite length_app. simpl in *. lia.
    + intros p ???. rewrite elem_of_app, list_elem_of_singleton.
      assert (p ∈ cur :: q) as [->|?]%elem_of_cons by eauto; eauto.
  - unfold ready_measure. rewrite weight_snoc, weight_cons.
    pose proof (find_idx_rotate (allVisited t V) cur y q Hv Hy Hfy). simpl fst. lia.
Qed.

Lemma elem_of_visited t (V : gset string) cur p :
  names_ok t -> is_Some (t !! cur) -> is_Some (t !! p) ->
  dn p ∈ {[dn cur]} ∪ V <-> p = cur \/ dn p ∈ V.
Proof.
  intros Hn Hc Hp. rewrite elem_of_union, elem_of_singleton.
  split; (intros [H|H]; [left|by right]); [by apply (names_ok_inj t)|by subst].
Qed.

(** Deciding the current node keeps the invariant. *)
Lemma ready_step_decide t b cur q V R q' V' R' :
  wf t -> names_ok t -> ready_inv t b (cur :: q) (V, R) -> allVisited t V cur = true ->
  ready_body t cur q (V, R) = (q', (V', R')) ->
  ready_inv t b q' (V', R') /\ weight q' < weight (cur :: q).
Proof.
  intros Hwf Hn [H1 H2 H3 H4 H5] Hv. simpl in H3, H4, H5. pose proof Hv as Hk.
  rewrite allVisited_true in Hk. unfold ready_body. rewrite Hv. simpl negb.
  assert (is_Some (t !! cur)) as Hcur by (apply H1; by left).
  set (ok := forallb _ (kids t cur) && _). intros [= <- <- <-].
  assert (ok = true <-> subtree_ready t cur) as Hok.
  { unfold ok. rewrite andb_true_iff, forallb_Forall_iff, Forall_forall.
    rewrite subtree_ready_unfold by done. setoid_rewrite bool_decide_eq_true.
    assert (forall c, c ∈ kids t cur -> dn c ∈ R <-> subtree_ready t c) as Hc.
    { intros c Hc. apply H4; [by apply (kids_in t cur c)|by apply Hk]. }
    split; intros [Ha Hb]; split; try done; intros c ?; apply Hc; auto. }
  pose proof (fun p => elem_of_visited t V cur p Hn Hcur) as Hvis. clearbody ok.
  set (q' := match cur with [] => q | _ :: parent => _ end).
  assert ((forall x, x ∈ q -> x ∈ q') /\ length q' <= S (length q) /\
          (forall x, x ∈ q' -> is_Some (t !! x)) /\
          (forall p, cur ∈ kids t p -> dn p ∉ {[dn cur]} ∪ V -> p ∈ q') /\
          weight q' < weight (cur :: q)) as (Q1 & Q2 & Q3 & Q4 & Q5).
  { unfold q'. destruct cur as [|c parent].
    - split; [done|]. split; [lia|]. split; [intros; apply H1; by right|].
      split; [|rewrite weight_cons; simpl; lia]. intros p Hp. by apply kids_in in Hp as [_ [? ?]].
    - assert (is_Some (t !! parent)) as Hpar by (by apply (wf_parent t Hwf c)).
      case_bool_decide as Hd.
      + split; [done|]. split; [lia|]. split; [intros; apply H1; by right|].
        split; [|rewrite weight_cons; simpl; lia].
        intros p Hp Hnv. apply kids_in in Hp as [_ [? [= -> ->]]]; done.
      + split; [intros; apply elem_of_app; by left|]. split; [rewrite length_app; simpl; lia|].
        split; [intros x [?| ->%list_elem_of_singleton]%elem_of_app; [apply H1; by right|done]|].
        split; [|rewrite weight_snoc, weight_cons; simpl; lia].
        intros p Hp _. apply kids_in in Hp as [_ [? [= -> ->]]]; [|done]. set_solver. }
  clearbody q'. split; [|done]. split; simpl.
  - done.
  - simpl in H2. lia.
  - intros p Hp. rewrite Hvis by done. intros [->|Hpv] c Hc; apply elem_of_union; right; [by apply Hk|].
    by apply (H3 p Hp Hpv).
  - intros p Hp. rewrite Hvis by done. intros Hpv. destruct (decide (p = cur)) as [->|Hne].
    + rewrite <- Hok. destruct ok; set_solver.
    + destruct Hpv as [?|Hpv]; [done|]. rewrite <- (H4 p Hp Hpv).
      assert (dn p <> dn cur) by (intros E; by apply Hne, (names_ok_inj t)).
      destruct ok; set_solver.
  - intros p Hp Hnv Hkids. destruct (decide (cur ∈ kids t p)) as [?|Hnk]; [by apply Q4|].
    assert (p ∈ cur :: q) as [->|?]%elem_of_cons; [|set_solver|by apply Q1].
    apply H5; [done|set_solver|]. intros c Hc.
    destruct (proj1 (Hvis c (proj1 (kids_in t p c Hwf Hc))) (Hkids c Hc)) as [->|?]; done.
Qed.

(** Whatever order the leaves are queued in, phase two ends, with the fuel of
    [ready_fuel], having decided every node as the specification says. *)
Lemma gc_ready_spec t queue :
  wf t -> names_ok t -> (forall p, p ∈ queue <-> leaf t p) ->
  exists V R, gc_ready t queue = Some (V, R) /\
    forall p, is_Some (t !! p) -> dn p ∈ V /\ (dn p ∈ R <-> subtree_ready t p).
Proof.
  intros Hwf Hn Hq. unfold gc_ready.
  destruct (worklist_inv (ready_body t) (ready_inv t (length queue)) (ready_measure t (length queue)))
    with (fuel := ready_fuel queue) (q := queue) (a := (∅, ∅) : gset string * gset string)
    as ([V R] & HL & HI).
  - intros cur q [V R] q' [V' R'] HI Hb. destruct (allVisited t V cur) eqn:E.
    + destruct (ready_step_decide _ _ _ _ _ _ _ _ _ Hwf Hn HI E Hb) as [HI' Hw].
      split; [done|]. unfold ready_measure. pose proof (ri_len _ _ _ _ HI').
      pose proof (find_idx_le (allVisited t (V', R').1) q'). nia.
    + unfold ready_body in Hb. rewrite E in Hb. injection Hb as <- <- <-.
      by apply ready_step_pushback.
  - split; simpl; [intros x Hx; by apply Hq|done|set_solver|set_solver|].
    intros p Hp _ Hk. apply Hq. split; [done|].
    destruct (kids t p) as [|c l]; [done|]. exfalso. specialize (Hk c). set_solver.
  - unfold ready_measure, ready_fuel. simpl fst.
    pose proof (find_idx_le (allVisited t ∅) queue). lia.
  - exists V, R. split; [done|]. intros p Hp.
    assert (dn p ∈ V) as Hv.
    { destruct (decide (dn p ∈ V)) as [|Hv]; [done|].
      destruct (undecided_front t V p Hwf Hp Hv) as (x & Hx & Hxv & Hxk).
      pose proof (ri_front _ _ _ _ HI x Hx Hxv Hxk) as Hin. by apply not_elem_of_nil in Hin. }
    split; [done|]. by apply (ri_ready _ _ _ _ HI).
Qed.

(** ** Phase three *)

Definition wants_restart (s : nodeState) : bool :=
  match s with nodeStateDead | nodeStateCanceled => true | _ => false end.

(** A node that should be restarted, with a subtree that can be and a parent
    whose context is still live. *)
Definition candidate (t : tree) (p : ptr) : Prop :=
  wants_restart (state_of t p) = true /\ subtree_ready t p /\
  match p with [] => True | _ :: parent => ctxErr t parent = false end.

#[export] Instance candidate_dec t p : Decision (candidate t p).
Proof. unfold candidate. destruct p; apply _. Defined.

(** The specification of the restart set: the candidates with no candidate
    above them. *)
Definition restart_root (t : tree) (p : ptr) : Prop :=
  is_Some (t !! p) /\ candidate t p /\ forall a, below a p -> ~ candidate t a.

Lemma restart_body_spec t R cur q W C :
  names_ok t -> is_Some (t !! cur) ->
  (dn cur ∈ R <-> subtree_ready t cur) ->
  (dn cur ∈ W -> wants_restart (state_of t cur) = true) ->
  exists W', (forall p, is_Some (t !! p) -> dn p ∈ W' -> p = cur \/ dn p ∈ W) /\
    (dn cur ∈ W' <-> wants_restart (state_of t cur) = true) /\
    restart_body t R cur q (W, C) =
      if decide (candidate t cur) then (q, (W', {[dn cur]} ∪ C))
      else (q ++ kids t cur, (W', C)).
Proof.
  intros Hn Hcur HR HW. unfold restart_body.
  set (W' := match state_of t cur with nodeStateNew => _ | _ => _ end). exists W'.
  assert (dn cur ∈ W' <-> wants_restart (state_of t cur) = true) as HW'.
  { unfold W'. destruct (state_of t cur); set_solver. }
  split; [|split; [done|]].
  - intros p Hp. unfold W'. destruct (state_of t cur); try by right.
    all: intros [E%elem_of_singleton|?]%elem_of_union; [left|by right]; by apply (names_ok_inj t).
  - clearbody W'. destruct (bool_decide (dn cur ∈ W') && bool_decide (dn cur ∈ R) && _) eqn:E.
    + rewrite decide_True; [done|].
      rewrite !andb_true_iff, !bool_decide_eq_true in E. destruct E as [[E1 E2] E3].
      split; [by apply HW'|]. split; [by apply HR|]. destruct cur; [done|].
      by apply negb_true_iff.
    + rewrite decide_False; [done|]. intros (C1 & C2 & C3).
      apply not_true_iff_false in E. apply E.
      rewrite !andb_true_iff, !bool_decide_eq_true.
      split; [split; [by apply HW'|by apply HR]|]. destruct cur; [done|].
      by rewrite C3.
Qed.

Lemma gc_can_spec t R :
  wf t -> names_ok t -> (forall p, is_Some (t !! p) -> dn p ∈ R <-> subtree_ready t p) ->
  exists W C, gc_can t R = Some (W, C) /\
    (forall d, d ∈ C <-> exists p, restart_root t p /\ d = dn p).
Proof.
  intros Hwf Hn HR. unfold gc_can.
  set (I := fun (q : list ptr) (a : gset string * gset string) =>
    (forall x, x ∈ q -> is_Some (t !! x) /\ forall a, below a x -> ~ candidate t a) /\
    (forall p, is_Some (t !! p) -> dn p ∈ a.1 -> wants_restart (state_of t p) = true) /\
    (forall d, d ∈ a.2 -> exists p, restart_root t p /\ d = dn p) /\
    (forall p, restart_root t p -> dn p ∈ a.2 \/ exists x, x ∈ q /\ x `suffix_of` p)).
  destruct (worklist_inv (restart_body t R) I (fun q _ => total t q)) with
    (fuel := size t) (q := [[]] : list ptr) (a := (∅, ∅) : gset string * gset string)
    as ([W C] & HL & _ & _ & H2 & H3).
  - intros cur q [W C] q' [W' C'] (Hq & HW & Hs & Hc) Hb. simpl in HW, Hs, Hc.
    destruct (Hq cur) as [Hcur Hanc]; [by left|].
    destruct (restart_body_spec t R cur q W C Hn Hcur (HR cur Hcur) (HW cur Hcur))
      as (W'' & HW1 & HW2 & E). rewrite E in Hb. clear E.
    assert (forall p, is_Some (t !! p) -> dn p ∈ W'' -> wants_restart (state_of t p) = true) as HW''.
    { intros p Hp Hd. destruct (HW1 p Hp Hd) as [->|?]; [by apply HW2|by apply HW]. }
    case_decide as Hcand; injection Hb as <- <- <-.
    + split; [split; [|split; [|split]]|]; simpl.
      * intros x Hx. apply Hq. by right.
      * done.
      * intros d [->%elem_of_singleton|?]%elem_of_union; [|by apply Hs].
        exists cur. done.
      * intros p Hp. destruct (Hc p Hp) as [?|(x & [->|Hx]%elem_of_cons & Hsuf)];
          [left; set_solver| |right; eauto].
        left. apply suffix_below in Hsuf as [->|Hb]; [set_solver|].
        exfalso. by apply (proj2 (proj2 Hp) cur Hb).
      * rewrite total_cons, size_sub by done. lia.
    + split; [split; [|split; [|split]]|]; simpl.
      * intros x [Hx|Hx]%elem_of_app; [apply Hq; by right|].
        apply kids_in in Hx as [? [c ->]]; [|done]. split; [done|].
        intros a Ha%below_cons%suffix_below. destruct Ha as [<-|Ha]; [done|by apply Hanc].
      * done.
      * done.
      * intros p Hp. destruct (Hc p Hp) as [?|(x & [->|Hx]%elem_of_cons & Hsuf)];
          [by left| |right; exists x; split; [apply elem_of_app; by left|done]].
        destruct (suffix_kid t cur p Hwf Hsuf (proj1 Hp)) as [->|(c & Hck & ?)].
        { exfalso. apply Hcand. apply Hp. }
        right. exists c. split; [apply elem_of_app; by right|done].
      * by apply (total_descend t cur q (kids t cur) Hwf Hcur).
  - split; [|split; [|split]]; simpl; [|set_solver|set_solver|].
    + intros x ->%list_elem_of_singleton. split; [by apply wf_root|].
      intros a [Ha Hne]. by apply suffix_nil_inv in Ha.
    + intros p _. right. exists []. split; [by left|apply suffix_nil].
  - by rewrite total_root.
  - exists W, C. split; [done|]. intros d. split; [apply H2|].
    intros (p & Hp & ->). destruct (H3 p Hp) as [?|(x & ?%not_elem_of_nil & _)]; done.
Qed.

(** ** Restarting the roots *)

(** The node a restart leaves behind: reset, with one more backoff interval
    drawn if it had died. *)
Definition restarted (n : node) : node :=
  fresh (if bool_decide (state n = nodeStateDead) then with_bo (S (bo n)) n else n).

Lemma restart_node_spec t p n reqs :
  wf t -> names_ok t -> t !! p = Some n ->
  exists t', restart_node (t, reqs) (dn p) =
      Some (t', reqs ++ [(dn p, bool_decide (state n = nodeStateDead))]) /\
    wf t' /\ names_ok t' /\
    forall q, t' !! q = if decide (q = p) then Some (restarted n)
                        else if decide (below p q) then None else t !! q.
Proof.
  intros Hwf Hn Hp. unfold restart_node.
  rewrite nodeByDN_dn by (done || by apply Hn). simpl. rewrite Hp. simpl.
  set (t1 := if bool_decide _ then _ else t). set (n1 := if bool_decide (state n = nodeStateDead) then with_bo (S (bo n)) n else n).
  assert (t1 = <[p := n1]> t) as ->.
  { unfold t1, n1. case_bool_decide; [done|]. by rewrite insert_id. }
  assert (wf (<[p := n1]> t)) as Hwf1.
  { apply (wf_insert t p n); [done|done|by unfold n1; case_bool_decide|].
    pose proof (wf_node t Hwf p n Hp). unfold n1. case_bool_decide; auto with sup. }
  assert (names_ok (<[p := n1]> t)) as Hn1 by (apply names_ok_insert; [done|by rewrite Hp]).
  assert (is_Some (<[p := n1]> t !! p)) as Hs by (by rewrite lookup_insert_eq).
  eexists. split; [done|]. split; [by apply reset_wf|]. split; [by apply reset_names_ok|].
  intros q. rewrite reset_lookup by done. rewrite lookup_insert_eq. simpl.
  case_decide; [done|]. by rewrite lookup_insert_ne.
Qed.

(** What a GC run leaves of the tree, for a set of roots given as a list. *)
Definition gc_result (t : tree) (roots : list ptr) (q : ptr) : option node :=
  if decide (q ∈ roots) then restarted <$> t !! q
  else if decide (Exists (fun p => below p q) roots) then None
  else t !! q.

Lemma restart_all_spec t reqs roots :
  wf t -> names_ok t -> NoDup roots ->
  (forall p, p ∈ roots -> is_Some (t !! p)) ->
  (forall p q, p ∈ roots -> q ∈ roots -> ~ below p q) ->
  exists t', restart_all (t, reqs) (dn <$> roots) =
      Some (t', reqs ++ ((fun p => (dn p, bool_decide (state_of t p = nodeStateDead))) <$> roots)) /\
    wf t' /\ names_ok t' /\ forall q, t' !! q = gc_result t roots q.
Proof.
  revert t reqs. induction roots as [|p roots IH]; intros t reqs Hwf Hn Hnd Hin Hanti.
  { exists t. simpl. rewrite app_nil_r. split; [done|]. split; [done|]. split; [done|].
    intros q. unfold gc_result. rewrite !decide_False; [done| |by apply not_elem_of_nil].
    by intros ?%Exists_nil. }
  apply NoDup_cons in Hnd as [Hp Hnd].
  destruct (Hin p) as [n Hpn]; [by left|].
  destruct (restart_node_spec t p n reqs Hwf Hn Hpn) as (t1 & E & Hwf1 & Hn1 & Hlook).
  assert (forall q, q ∈ roots -> t1 !! q = t !! q) as Hkeep.
  { intros q Hq. rewrite Hlook. rewrite decide_False by (by intros ->).
    rewrite decide_False; [done|]. apply Hanti; [by left|by right]. }
  destruct (IH t1 (reqs ++ [(dn p, bool_decide (state n = nodeStateDead))]) Hwf1 Hn1 Hnd)
    as (t' & E' & Hwf' & Hn' & Hlook').
  - intros q Hq. rewrite Hkeep by done. apply Hin. by right.
  - intros x y Hx Hy. apply Hanti; by right.
  - exists t'. rewrite fmap_cons. cbn [restart_all]. rewrite E. cbn [mbind option_bind]. rewrite E'.
    split; [|split; [done|split; [done|]]].
    + f_equal. f_equal. rewrite <- app_assoc. f_equal. simpl. f_equal.
      * unfold state_of. by rewrite Hpn.
      * apply list_fmap_ext. intros i q Hq%list_elem_of_lookup_2. unfold state_of.
        by rewrite Hkeep.
    + intros q. rewrite Hlook'. unfold gc_result.
      destruct (decide (q ∈ roots)) as [Hq|Hq].
      { rewrite decide_True by (by right). by rewrite Hkeep. }
      rewrite Hlook. destruct (decide (q = p)) as [->|Hqp].
      { rewrite (decide_True (P := p ∈ p :: roots)) by (by left).
        rewrite decide_False; [by rewrite Hpn|].
        intros (x & Hx & Hb)%Exists_exists. eapply Hanti; [| |done]; [by right|by left]. }
      rewrite (decide_False (P := q ∈ p :: roots)) by (intros [?|?]%elem_of_cons; done).
      destruct (decide (below p q)) as [Hb|Hb].
      { rewrite (decide_True (P := Exists _ (p :: roots))) by (by left). by destruct (decide _). }
      destruct (decide (Exists (fun p => below p q) roots)) as [He|He].
      { by rewrite decide_True by (by right). }
      rewrite decide_False; [done|]. by intros [?|?]%Exists_cons.
Qed.

Lemma restart_root_antichain t p q : restart_root t p -> restart_root t q -> ~ below p q.
Proof. intros (_ & Hc & _) (_ & _ & Ha) Hb. by apply (Ha p). Qed.

(** [processGC] never panics and never gets stuck on a well-formed tree; it
    restarts exactly the topmost restartable subtrees. *)
Lemma processGC_spec t :
  wf t -> names_ok t ->
  exists t' roots, NoDup roots /\ (forall p, p ∈ roots <-> restart_root t p) /\
    processGC t = Some (t', (fun p => (dn p, bool_decide (state_of t p = nodeStateDead))) <$> roots) /\
    wf t' /\ names_ok t' /\ (forall q, t' !! q = gc_result t roots q).
Proof.
  intros Hwf Hn. destruct (gc_queue_spec t Hwf Hn) as (L & queue & HL & HQ & Hqueue).
  destruct (gc_ready_spec t queue Hwf Hn Hqueue) as (V & R & HR & HVR).
  destruct (gc_can_spec t R Hwf Hn) as (W & C & HC & Hcan); [intros p Hp; by apply HVR|].
  assert (exists roots, elements C = dn <$> roots /\ forall p, p ∈ roots -> restart_root t p)
    as (roots & Hel & Hroots).
  { assert (forall d, d ∈ elements C -> exists p, restart_root t p /\ d = dn p) as H.
    { intros d ?%elem_of_elements. by apply Hcan. }
    induction (elements C) as [|d l IH]; [exists []; split; [done|by intros ? ?%not_elem_of_nil]|].
    destruct (H d) as (p & Hp & ->); [by left|].
    destruct IH as (rs & -> & Hrs); [intros; apply H; by right|].
    exists (p :: rs). split; [done|]. intros q [->|?]%elem_of_cons; auto. }
  assert (NoDup roots) as Hnd.
  { apply (NoDup_fmap_1 dn). rewrite <- Hel. apply NoDup_elements. }
  destruct (restart_all_spec t [] roots) as (t' & E & Hwf' & Hn' & Hlook); [done|done|done|..].
  { intros p Hp. by apply Hroots. }
  { intros p q Hp Hq. apply (restart_root_antichain t); by apply Hroots. }
  exists t', roots. split; [done|]. split.
  { intros p. split; [apply Hroots|]. intros Hp.
    assert (dn p ∈ elements C) as Hd by (apply elem_of_elements, Hcan; eauto).
    rewrite Hel in Hd. apply list_elem_of_fmap in Hd as (p' & Hdn & Hp').
    apply (names_ok_inj t) in Hdn; [by subst|done|apply Hp|by apply Hroots]. }
  split; [|done]. unfold processGC. rewrite HL. simpl. rewrite HQ. simpl. rewrite HR. simpl.
  rewrite HC. simpl. by rewrite Hel.
Qed.

End SupervisorGC.
