(* ===== verification/SupervisorProc.v ===== *)
(** * The supervisor's processor

    Models the request handlers, the processor loop and the liquidator of
    [osbase/supervisor/supervisor_processor.go], and [New] of
    [osbase/supervisor/supervisor.go], as a transition system: the processor
    picks up requests and timer ticks in any order, while the goroutines of the
    runnables call into the supervisor and return. *)

From S2P Require Import Prelude GoStrings Supervisor SupervisorOps SupervisorGC.

Module SupervisorProc.
Import Supervisor SupervisorOps SupervisorGC.

(** What a runnable returned, other than nil: an error that is the context
    error [context.Canceled], or any other (panics included). *)
Inductive runErr := errCanceled | errOther.
#[export] Instance runErr_eq_dec : EqDecision runErr.
Proof. solve_decision. Defined.

(** [processorRequest]. *)
Inductive request :=
| ReqSchedule (d : string)
| ReqDied (d : string) (err : option runErr)
| ReqWaitSettled (waiter : nat).
#[export] Instance request_eq_dec : EqDecision request.
Proof. solve_decision. Defined.

(** ** Handlers *)

(** Cancel the contexts of the group siblings of [name]; [None] is the nil
    dereference for a name that is not a child. *)
Fixpoint cancelSiblings (t : tree) (parent : ptr) (name : string) (sibs : list string)
    : option tree :=
  match sibs with
  | [] => Some t
  | s :: sibs =>
      if bool_decide (s = name) then cancelSiblings t parent name sibs
      else n ← t !! (s :: parent);
           cancelSiblings (<[s :: parent := with_cancel n]> t) parent name sibs
  end.

(** [processDied]. *)
Definition processDied (t : tree) (d : string) (err : option runErr) : option tree :=
  p ← nodeByDN t d;
  n ← t !! p;
  if bool_decide (state n = nodeStateDone) && bool_decide (err = None) then Some t
  else if bool_decide (err = Some errCanceled) && ctxErr t p
  then Some (<[p := with_state nodeStateCanceled n]> t)
  else
    let t := <[p := with_cancel (with_state nodeStateDead n)]> t in
    match p with
    | [] => Some t
    | name :: parent =>
        pn ← t !! parent;
        match groupSiblings pn name with
        | None => Some t
        | Some g => cancelSiblings t parent name (elements g)
        end
    end.

(** [processSchedule]: the DN of the goroutine that is started. *)
Definition processSchedule (t : tree) (d : string) : option string :=
  p ← nodeByDN t d; Some d.

(** [processKill]: gather the nodes, then cancel their contexts. *)
Definition kill_body (t : tree) (cur : ptr) (queue : list ptr) (cancels : list ptr)
    : list ptr * list ptr :=
  (queue ++ kids t cur, cancels ++ [cur]).
Definition processKill (t : tree) : option tree :=
  cancels ← worklist (kill_body t) (size t) [[]] [];
  Some (foldl (fun t c => alter with_cancel c t) t cancels).

(** [liveRunnables]: the DNs that are neither DEAD nor DONE, sorted. *)
Definition is_live (s : nodeState) : bool :=
  match s with nodeStateDead | nodeStateDone => false | _ => true end.
Definition live_body (t : tree) (el : ptr) (q : list ptr) (acc : gset string * list string)
    : list ptr * (gset string * list string) :=
  let '(seen, live) := acc in
  if bool_decide (dn el ∈ seen) then (q, (seen, live))
  else (q ++ kids t el,
        ({[dn el]} ∪ seen, if is_live (state_of t el) then live ++ [dn el] else live)).
Definition string_le (a b : string) : Prop := string_leb a b = true.
#[export] Instance string_le_dec : RelDecision string_le.
Proof. intros a b. unfold string_le. apply _. Defined.
Definition liveRunnables (t : tree) : option (list string) :=
  acc ← worklist (live_body t) (size t) [[]] (∅, []);
  Some (merge_sort string_le acc.2).

(** ** The processor's state *)

Inductive phase := Processing | Liquidating | Exited | Crashed.

(** [pending] are the requests that some goroutine is sending, [running] the
    DNs of the goroutines that execute a runnable. *)
Record world := mkWorld {
  tr : tree;
  pending : list request;
  running : list string;
  clean : bool;
  cleanCycles : nat;
  waiters : list nat;
  closed : list nat;
  ph : phase
}.

Definition set_tr t w := mkWorld t (pending w) (running w) (clean w) (cleanCycles w) (waiters w) (closed w) (ph w).
Definition set_pending l w := mkWorld (tr w) l (running w) (clean w) (cleanCycles w) (waiters w) (closed w) (ph w).
Definition set_running l w := mkWorld (tr w) (pending w) l (clean w) (cleanCycles w) (waiters w) (closed w) (ph w).
Definition set_ph p w := mkWorld (tr w) (pending w) (running w) (clean w) (cleanCycles w) (waiters w) (closed w) p.
Definition add_waiter x w := mkWorld (tr w) (pending w) (running w) (clean w) (cleanCycles w) (waiters w ++ [x]) (closed w) (ph w).
Definition markDirty w := mkWorld (tr w) (pending w) (running w) false 0 (waiters w) (closed w) (ph w).

(** The GC ticker of the [processor] loop. *)
Definition on_tick (w : world) : world :=
  let collected :=
    if clean w then Some w
    else '(t, reqs) ← processGC (tr w);
         Some (set_pending (pending w ++ ((fun r => ReqSchedule r.1) <$> reqs)) (set_tr t w)) in
  match collected with
  | None => set_ph Crashed w
  | Some w =>
      let cycles := S (cleanCycles w) in
      if bool_decide (50 < cycles)
      then mkWorld (tr w) (pending w) (running w) true cycles [] (closed w ++ waiters w) (ph w)
      else mkWorld (tr w) (pending w) (running w) true cycles (waiters w) (closed w) (ph w)
  end.

(** A request arriving at the [processor] loop. *)
Definition on_request (r : request) (w : world) : world :=
  match r with
  | ReqSchedule d =>
      match processSchedule (tr w) d with
      | Some d => markDirty (set_running (running w ++ [d]) w)
      | None => set_ph Crashed w
      end
  | ReqDied d e =>
      match processDied (tr w) d e with
      | Some t => markDirty (set_tr t w)
      | None => set_ph Crashed w
      end
  | ReqWaitSettled x => add_waiter x w
  end.

(** The context of the supervisor is done: cancel everything and hand over to
    the liquidator. *)
Definition on_ctx_done (w : world) : world :=
  match processKill (tr w) with
  | Some t => set_ph Liquidating (set_tr t w)
  | None => set_ph Crashed w
  end.

(** A request arriving at the [liquidator]. *)
Definition mark_dead (t : tree) (d : string) : option tree :=
  p ← nodeByDN t d; Some (alter (with_state nodeStateDead) p t).
Definition on_liquidate (r : request) (w : world) : world :=
  let t := match r with
           | ReqSchedule d | ReqDied d _ => mark_dead (tr w) d
           | ReqWaitSettled _ => Some (tr w)
           end in
  match t with
  | None => set_ph Crashed w
  | Some t =>
      match liveRunnables t with
      | None => set_ph Crashed w
      | Some [] => set_ph Exited (set_tr t w)
      | Some _ => set_tr t w
      end
  end.

(** [New]. *)
Definition New (r : Runnable) : world :=
  mkWorld {[ [] := newNode r ]} [ReqSchedule "root"] [] true 0 [] [] Processing.

(** A name as the pattern of [reNodeName] means it: only characters of the
    class. *)
Definition good_name (c : string) : Prop :=
  c <> "" /\ Forall (fun x => nodeNameChar x = true) (bytes_of c).

(** What happens in a step: the processor or the liquidator receives a request,
    the processor's ticker fires or its context is done, and goroutines of
    runnables return or call into the supervisor. *)
Inductive event :=
| EvRequest (r : request)
| EvTick
| EvDone
| EvReturn (d : string) (e : option runErr)
| EvRunGroup (d : string) (rs : list (string * Runnable))
| EvSignal (d : string) (s : SignalType)
| EvSubLogger (d name : string)
| EvWait (x : nat).

(** One step of the system. *)
Inductive step : world -> event -> world -> Prop :=
| step_request w l r k :
    ph w = Processing -> pending w = l ++ r :: k ->
    step w (EvRequest r) (on_request r (set_pending (l ++ k) w))
| step_tick w :
    ph w = Processing -> step w EvTick (on_tick w)
| step_done w :
    ph w = Processing -> step w EvDone (on_ctx_done w)
| step_liquidate w l r k :
    ph w = Liquidating -> pending w = l ++ r :: k ->
    step w (EvRequest r) (on_liquidate r (set_pending (l ++ k) w))
| step_return w l d k e :
    running w = l ++ d :: k ->
    step w (EvReturn d e) (set_running (l ++ k) (set_pending (pending w ++ [ReqDied d e]) w))
| step_run w d rs t r :
    d ∈ running w -> NoDup rs.*1 ->
    RunGroup (tr w) d rs = Some (t, r) ->
    step w (EvRunGroup d rs)
      (set_pending (pending w ++ match r with Ok dns => ReqSchedule <$> dns | Err _ => [] end)
                   (set_tr t w))
| step_signal w d s t :
    d ∈ running w -> Signal (tr w) d s = Some t -> step w (EvSignal d s) (set_tr t w)
| step_sublogger w d name t r :
    d ∈ running w -> SubLogger (tr w) d name = Some (t, r) ->
    step w (EvSubLogger d name) (set_tr t w)
| step_wait w x :
    step w (EvWait x) (set_pending (pending w ++ [ReqWaitSettled x]) w).

Inductive steps : world -> list event -> world -> Prop :=
| steps_nil w : steps w [] w
| steps_cons w e w' evs w'' : step w e w' -> steps w' evs w'' -> steps w (e :: evs) w''.

(** The names of the runnables that an event starts are ones that [reNodeName] means. *)
Definition plain_names (e : event) : Prop :=
  match e with EvRunGroup _ rs => Forall good_name rs.*1 | _ => True end.

(** ** An interpreter

    The step relation is executable: [exec] performs an event, taking the first
    matching request or goroutine. *)

Fixpoint take_out {A} `{EqDecision A} (x : A) (l : list A) : option (list A) :=
  match l with
  | [] => None
  | y :: l => if bool_decide (x = y) then Some l else (y ::.) <$> take_out x l
  end.

Definition in_phase (p q : phase) : bool :=
  match p, q with
  | Processing, Processing | Liquidating, Liquidating => true
  | _, _ => false
  end.

#[export] Instance good_name_dec c : Decision (good_name c).
Proof. unfold good_name. apply _. Defined.

#[export] Instance plain_names_dec e : Decision (plain_names e).
Proof. destruct e; apply _. Defined.

Definition exec (w : world) (e : event) : option world :=
  match e with
  | EvRequest r =>
      l ← take_out r (pending w);
      if in_phase (ph w) Processing then Some (on_request r (set_pending l w))
      else if in_phase (ph w) Liquidating then Some (on_liquidate r (set_pending l w))
      else None
  | EvTick => if in_phase (ph w) Processing then Some (on_tick w) else None
  | EvDone => if in_phase (ph w) Processing then Some (on_ctx_done w) else None
  | EvReturn d e =>
      l ← take_out d (running w);
      Some (set_running l (set_pending (pending w ++ [ReqDied d e]) w))
  | EvRunGroup d rs =>
      if bool_decide (d ∈ running w) && bool_decide (NoDup rs.*1)
      then '(t, r) ← RunGroup (tr w) d rs;
           Some (set_pending (pending w ++ match r with Ok dns => ReqSchedule <$> dns | Err _ => [] end)
                             (set_tr t w))
      else None
  | EvSignal d s =>
      if bool_decide (d ∈ running w) then (fun t => set_tr t w) <$> Signal (tr w) d s else None
  | EvSubLogger d name =>
      if bool_decide (d ∈ running w) then (fun tr => set_tr tr.1 w) <$> SubLogger (tr w) d name else None
  | EvWait x => Some (set_pending (pending w ++ [ReqWaitSettled x]) w)
  end.

Fixpoint execs (w : world) (evs : list event) : option world :=
  match evs with
  | [] => Some w
  | e :: evs => w' ← exec w e; execs w' evs
  end.

Lemma take_out_split {A} `{EqDecision A} (x : A) l k :
  take_out x l = Some k -> exists l1 l2, l = l1 ++ x :: l2 /\ k = l1 ++ l2.
Proof.
  revert k. induction l as [|y l IH]; intros k; simpl; [done|]. case_bool_decide.
  - intros [= <-]. subst. by exists [], l.
  - destruct (take_out x l) as [k'|]; [|done]. intros [= <-].
    destruct (IH k' eq_refl) as (l1 & l2 & -> & ->). by exists (y :: l1), l2.
Qed.

Lemma in_phase_eq p q : in_phase p q = true -> p = q.
Proof. by destruct p, q. Qed.

Lemma exec_step w e w' : exec w e = Some w' -> step w e w'.
Proof.
  destruct e; simpl.
  - destruct (take_out r (pending w)) as [l|] eqn:E; [|done].
    apply take_out_split in E as (l1 & l2 & E & ->). simpl.
    destruct (in_phase (ph w) Processing) eqn:Hp; [intros [= <-]; apply step_request; [by apply in_phase_eq|done]|].
    destruct (in_phase (ph w) Liquidating) eqn:Hl; [|done]. intros [= <-].
    apply step_liquidate; [by apply in_phase_eq|done].
  - destruct (in_phase (ph w) Processing) eqn:Hp; [|done]. intros [= <-]. by apply step_tick, in_phase_eq.
  - destruct (in_phase (ph w) Processing) eqn:Hp; [|done]. intros [= <-]. by apply step_done, in_phase_eq.
  - destruct (take_out d (running w)) as [l|] eqn:E; [|done].
    apply take_out_split in E as (l1 & l2 & E & ->). intros [= <-]. by apply step_return.
  - repeat case_bool_decide; try done. destruct (RunGroup (tr w) d rs) as [[t r]|] eqn:E; [|done].
    intros [= <-]. by apply step_run.
  - case_bool_decide; [|done]. destruct (Signal (tr w) d s) eqn:E; [|done]. intros [= <-].
    by apply step_signal.
  - case_bool_decide; [|done]. destruct (SubLogger (tr w) d name) as [[t r]|] eqn:E; [|done].
    intros [= <-]. by apply step_sublogger with r.
  - intros [= <-]. apply step_wait.
Qed.

Lemma execs_steps w evs w' : execs w evs = Some w' -> steps w evs w'.
Proof.
  revert w. induction evs as [|e evs IH]; intros w; simpl; [intros [= <-]; apply steps_nil|].
  destruct (exec w e) as [w1|] eqn:E; [|done]. simpl. intros H.
  eapply steps_cons; [by apply exec_step|auto].
Qed.

(** ** Updates that keep the shape of the tree *)

Definition same_node_shape (n n' : node) : Prop :=
  children n' = children n /\ groups n' = groups n /\ reserved n' = reserved n.

Definition same_shape (t t' : tree) : Prop :=
  forall q, option_relation same_node_shape (fun _ => False) (fun _ => False) (t !! q) (t' !! q).

Lemma same_shape_refl t : same_shape t t.
Proof. intros q. by destruct (t !! q). Qed.

Lemma same_shape_trans t1 t2 t3 : same_shape t1 t2 -> same_shape t2 t3 -> same_shape t1 t3.
Proof.
  intros H1 H2 q. specialize (H1 q). specialize (H2 q).
  destruct (t1 !! q), (t2 !! q), (t3 !! q); simpl in *; try done.
  unfold same_node_shape in *. naive_solver congruence.
Qed.

#[export] Instance same_shape_preorder : PreOrder same_shape.
Proof. split; [exact same_shape_refl|exact same_shape_trans]. Qed.

Lemma same_shape_is_Some t t' q : same_shape t t' -> is_Some (t !! q) <-> is_Some (t' !! q).
Proof.
  intros H. specialize (H q). destruct (t !! q), (t' !! q); simpl in H; try done.
Qed.

Lemma same_shape_wf t t' : same_shape t t' -> wf t -> wf t'.
Proof.
  intros Hs Hwf.
  assert (forall q n', t' !! q = Some n' -> exists n, t !! q = Some n /\ same_node_shape n n') as Hback.
  { intros q n' E. specialize (Hs q). rewrite E in Hs. destruct (t !! q); simpl in Hs; [eauto|done]. }
  pose proof (fun q => same_shape_is_Some t t' q Hs) as Hdom. split.
  - by apply Hdom, wf_root.
  - intros p n' c Hp. destruct (Hback p n' Hp) as (n & Hn & Hc & _ & _).
    rewrite Hc, <- Hdom. by apply wf_child.
  - intros c p. rewrite <- !Hdom. by apply wf_parent.
  - intros p n' Hp. destruct (Hback p n' Hp) as (n & Hn & Hc & Hg & Hr).
    destruct (wf_node t Hwf p n Hn) as (H1 & (G1 & G2 & G3) & H3).
    unfold node_ok, groups_ok. rewrite Hc, Hg, Hr. done.
Qed.

Lemma same_shape_names t t' : same_shape t t' -> names_ok t -> names_ok t'.
Proof. intros Hs Hn p Hp. apply Hn. by apply (same_shape_is_Some t t' p Hs). Qed.

Lemma same_shape_insert t p n n' :
  t !! p = Some n -> same_node_shape n n' -> same_shape t (<[p := n']> t).
Proof.
  intros Hp Hs q. rewrite lookup_insert. case_decide; subst; [by rewrite Hp|].
  by destruct (t !! q).
Qed.

Lemma same_shape_alter f t p : (forall n, same_node_shape n (f n)) -> same_shape t (alter f p t).
Proof.
  intros Hf q. rewrite lookup_alter. case_decide; subst; destruct (t !! q); simpl; done.
Qed.

Lemma shape_with_state s n : same_node_shape n (with_state s n).
Proof. done. Qed.
Lemma shape_with_cancel n : same_node_shape n (with_cancel n).
Proof. done. Qed.
Lemma shape_with_bo b n : same_node_shape n (with_bo b n).
Proof. done. Qed.
#[export] Hint Resolve shape_with_state shape_with_cancel shape_with_bo : sup.

(** ** [processDied] *)

(** [q] is a child of [parent] named in [sibs], other than [name]. *)
Definition other_sibling (sibs : list string) (name : string) (parent q : ptr) : Prop :=
  match q with
  | [] => False
  | s :: parent' => s ∈ sibs /\ s <> name /\ parent' = parent
  end.
#[export] Instance other_sibling_dec sibs name parent q :
  Decision (other_sibling sibs name parent q).
Proof. destruct q; apply _. Defined.

Lemma cancelSiblings_spec t parent name sibs :
  (forall s, s ∈ sibs -> s <> name -> is_Some (t !! (s :: parent))) ->
  exists t', cancelSiblings t parent name sibs = Some t' /\ same_shape t t' /\
    forall q, t' !! q =
      if decide (other_sibling sibs name parent q)
      then with_cancel <$> t !! q else t !! q.
Proof.
  revert t. induction sibs as [|s sibs IH]; intros t Hin.
  { exists t. split; [done|]. split; [reflexivity|]. intros q.
    rewrite decide_False; [done|]. destruct q; [by intros []|]. by intros [?%not_elem_of_nil _]. }
  simpl. case_bool_decide as Hs.
  - destruct (IH t) as (t' & E & Hsh & Hl); [intros; apply Hin; [by right|done]|].
    exists t'. split; [done|]. split; [done|]. intros q. rewrite Hl.
    apply decide_ext. destruct q; [done|]. simpl. set_solver.
  - destruct (Hin s) as [n Hn]; [by left|done|]. rewrite Hn. simpl.
    assert (same_shape t (<[s :: parent := with_cancel n]> t)) as Hsh0
      by (eapply same_shape_insert; eauto with sup).
    destruct (IH (<[s :: parent := with_cancel n]> t)) as (t' & E & Hsh & Hl).
    { intros x Hx Hne. apply (same_shape_is_Some t); [done|]. apply Hin; [by right|done]. }
    exists t'. split; [done|]. split; [by etrans|]. intros q. rewrite Hl, lookup_insert.
    destruct (decide (s :: parent = q)) as [<-|Hq].
    + rewrite Hn. rewrite (decide_True (P := other_sibling (s :: sibs) _ _ _)) by (simpl; set_solver).
      by destruct (decide _).
    + apply decide_ext. destruct q; [done|]. simpl. set_solver.
Qed.

(** The effect of a death that is not an expected exit: the node is DEAD and
    canceled, and its group siblings are canceled. *)
Definition group_of (t : tree) (parent : ptr) (name : string) : gset string :=
  match t !! parent with
  | Some pn => default ∅ (groupSiblings pn name)
  | None => ∅
  end.

Definition is_sibling (t : tree) (p q : ptr) : Prop :=
  match p with
  | [] => False
  | name :: parent => other_sibling (elements (group_of t parent name)) name parent q
  end.
#[export] Instance is_sibling_dec t p q : Decision (is_sibling t p q).
Proof. destruct p; apply _. Defined.

Definition killed (t : tree) (p : ptr) (q : ptr) : option node :=
  if decide (q = p) then (fun n => with_cancel (with_state nodeStateDead n)) <$> t !! p
  else if decide (is_sibling t p q) then with_cancel <$> t !! q
  else t !! q.

Lemma processDied_spec t p n e :
  wf t -> Forall name_ok p -> t !! p = Some n ->
  exists t', processDied t (dn p) e = Some t' /\ same_shape t t' /\
    if bool_decide (state n = nodeStateDone) && bool_decide (e = None) then t' = t
    else if bool_decide (e = Some errCanceled) && ctxErr t p
    then t' = <[p := with_state nodeStateCanceled n]> t
    else forall q, t' !! q = killed t p q.
Proof.
  intros Hwf Hp Hn. unfold processDied. rewrite nodeByDN_dn by done. simpl. rewrite Hn. simpl.
  destruct (bool_decide (state n = nodeStateDone) && _);
    [exists t; split; [done|split; [reflexivity|done]]|].
  destruct (bool_decide (e = Some errCanceled) && _).
  { eexists. split; [done|]. split; [eapply same_shape_insert; eauto with sup|done]. }
  set (n' := with_cancel (with_state nodeStateDead n)).
  assert (same_shape t (<[p := n']> t)) as Hsh by (eapply same_shape_insert; done).
  destruct p as [|name parent].
  { eexists. split; [done|]. split; [done|]. intros q. unfold killed.
    rewrite lookup_insert. destruct (decide ([] = q)) as [<-|Hq].
    - rewrite decide_True by done. by rewrite Hn.
    - rewrite !decide_False by done. done. }
  destruct (wf_parent t Hwf name parent) as [pn Hpn]; [by rewrite Hn|].
  rewrite lookup_insert_ne by (intros E; symmetry in E; eauto with go).
  rewrite Hpn. simpl.
  assert (group_of t parent name = default ∅ (groupSiblings pn name)) as Hgo.
  { unfold group_of. by rewrite Hpn. }
  destruct (groupSiblings pn name) as [g|] eqn:Hg.
  - destruct (cancelSiblings_spec (<[name :: parent := n']> t) parent name (elements g))
      as (t' & E & Hsh' & Hl).
    { intros s Hs _. apply (same_shape_is_Some t); [done|].
      apply (wf_child t Hwf parent pn); [done|].
      apply find_some in Hg as [Hg _]. apply list_elem_of_In in Hg.
      destruct (wf_node t Hwf parent pn Hpn) as (_ & (G1 & _) & _).
      apply (G1 g); [done|]. by apply elem_of_elements. }
    exists t'. split; [done|]. split; [by etrans|]. intros q. rewrite Hl. unfold killed.
    simpl in Hgo. destruct (decide (q = name :: parent)) as [->|Hq].
    + rewrite decide_False by (by intros (_ & ? & _)).
      rewrite lookup_insert_eq, Hn. done.
    + rewrite lookup_insert_ne by done. apply decide_ext. simpl. by rewrite Hgo.
  - eexists. split; [done|]. split; [done|]. intros q. unfold killed. rewrite lookup_insert.
    destruct (decide (name :: parent = q)) as [<-|Hq].
    + rewrite decide_True by done. by rewrite Hn.
    + rewrite !decide_False; [done| |done]. unfold is_sibling. rewrite Hgo. simpl.
      rewrite elements_empty. destruct q; [by intros []|]. by intros [?%not_elem_of_nil _].
Qed.

(** ** Traversals: [processKill] and [liveRunnables] *)

Lemma alter_cancels (t : tree) (cs : list ptr) (q : ptr) :
  foldl (fun t c => alter with_cancel c t) t cs !! q =
  if decide (q ∈ cs) then with_cancel <$> t !! q else t !! q.
Proof.
  revert t. induction cs as [|c cs IH]; intros t; simpl.
  { done. }
  rewrite IH, lookup_alter. destruct (decide (c = q)) as [->|Hc].
  - rewrite (decide_True (P := q ∈ q :: cs)) by (by left).
    destruct (decide _), (t !! q); done.
  - apply decide_ext. set_solver.
Qed.

Lemma processKill_spec t : wf t -> processKill t = Some (with_cancel <$> t).
Proof.
  intros Hwf. unfold processKill.
  set (I := fun (q : list ptr) (cs : list ptr) =>
    (forall x, x ∈ q -> is_Some (t !! x)) /\
    (forall p, is_Some (t !! p) -> p ∈ cs \/ exists x, x ∈ q /\ x `suffix_of` p)).
  destruct (worklist_inv (kill_body t) I (fun q _ => total t q)) with
    (fuel := size t) (q := [[]] : list ptr) (a := [] : list ptr) as (cs & HL & _ & H2).
  - intros cur q cs q' cs' (Hq & Hc) [= <- <-].
    assert (is_Some (t !! cur)) as Hcur by (apply Hq; by left).
    split; [|by apply (total_descend t cur q (kids t cur) Hwf Hcur)]. split.
    + intros x [?|Hx]%elem_of_app; [apply Hq; by right|]. by apply (kids_in t cur).
    + intros p Hp. destruct (Hc p Hp) as [?|(x & [->|Hx]%elem_of_cons & Hs)]; [left; set_solver| |].
      * destruct (suffix_kid t cur p Hwf Hs Hp) as [->|(c & ? & ?)]; [left; set_solver|].
        right. exists c. split; [apply elem_of_app; by right|done].
      * right. exists x. split; [apply elem_of_app; by left|done].
  - split; [intros x ->%list_elem_of_singleton; by apply wf_root|].
    intros p _. right. exists []. split; [by left|apply suffix_nil].
  - by rewrite total_root.
  - rewrite HL. simpl. f_equal. apply map_eq. intros q. rewrite alter_cancels, lookup_fmap.
    case_decide as Hq; [done|]. destruct (t !! q) as [n|] eqn:E; [|done].
    exfalso. destruct (H2 q) as [?|(x & ?%not_elem_of_nil & _)]; [by rewrite E|done..].
Qed.

Lemma string_le_total : Total string_le.
Proof.
  intros a. unfold string_le, string_leb. induction a as [|x a IH]; intros [|y b]; simpl; eauto.
  destruct (N.ltb_spec (N_of_ascii x) (N_of_ascii y)), (N.ltb_spec (N_of_ascii y) (N_of_ascii x));
    simpl; eauto; lia.
Qed.
#[export] Existing Instance string_le_total.

(** A visited node has its children visited or queued, so everything below it
    is visited or below a queued node. *)
Definition seen_closed (t : tree) (seen : gset string) (q : list ptr) : Prop :=
  forall p, is_Some (t !! p) -> dn p ∈ seen -> forall c, c ∈ kids t p -> dn c ∈ seen \/ c ∈ q.

Lemma seen_below t seen q x p :
  wf t -> seen_closed t seen q -> dn x ∈ seen -> is_Some (t !! p) -> x `suffix_of` p ->
  dn p ∈ seen \/ exists y, y ∈ q /\ y `suffix_of` p.
Proof.
  intros Hwf Hk Hx Hp [l ->]. induction l as [|c l IH]; [by left|]. simpl in *.
  pose proof (wf_parent t Hwf _ _ Hp) as Hp'.
  destruct (IH Hp') as [Hd|(y & Hy & Hs)].
  - destruct (Hk _ Hp' Hd (c :: l ++ x)) as [?|?]; [|by left|right; eauto].
    apply elem_of_kids; [done..|]. destruct Hp' as [n Hn]. eauto.
  - right. exists y. split; [done|]. by apply suffix_cons_r.
Qed.

Lemma liveRunnables_spec t :
  wf t -> names_ok t ->
  exists l, liveRunnables t = Some l /\ Sorted string_le l /\ NoDup l /\
    forall d, d ∈ l <-> exists p n, t !! p = Some n /\ is_live (state n) = true /\ d = dn p.
Proof.
  intros Hwf Hn. unfold liveRunnables.
  set (I := fun (q : list ptr) (a : gset string * list string) =>
    (forall x, x ∈ q -> is_Some (t !! x)) /\
    (forall d, d ∈ a.1 -> exists p, is_Some (t !! p) /\ d = dn p) /\
    seen_closed t a.1 q /\
    (forall p, is_Some (t !! p) -> dn p ∈ a.1 \/ exists x, x ∈ q /\ x `suffix_of` p) /\
    NoDup a.2 /\
    (forall d, d ∈ a.2 <-> d ∈ a.1 /\ exists p n, t !! p = Some n /\ is_live (state n) = true /\ d = dn p)).
  destruct (worklist_inv (live_body t) I (fun q _ => total t q)) with
    (fuel := size t) (q := [[]] : list ptr) (a := (∅, []) : gset string * list string)
    as ([seen live] & HL & _ & _ & _ & H2 & H3 & H4).
  - intros cur q [seen live] q' a' (Hq & Hr & Hk & Hc & Hnd & Hlive).
    assert (is_Some (t !! cur)) as Hcur by (apply Hq; by left). simpl in Hr, Hk, Hc, Hlive, Hnd.
    unfold live_body. case_bool_decide as Hseen; intros [= <- <-].
    + split; [|rewrite total_cons, size_sub by done; lia].
      assert (seen_closed t seen q) as Hk'.
      { intros p Hp Hd c Hck. destruct (Hk p Hp Hd c Hck) as [?|[->|?]%elem_of_cons]; auto. }
      split; [intros; apply Hq; by right|]. split; [done|]. split; [done|].
      split; [|done]. intros p Hp.
      destruct (Hc p Hp) as [?|(x & [->|Hx]%elem_of_cons & Hs)]; [by left|by apply (seen_below t seen q cur)|eauto].
    + split; [|by apply (total_descend t cur q (kids t cur) Hwf Hcur)].
      destruct Hcur as [n Hcn]. unfold state_of. rewrite Hcn.
      split; [|split; [|split; [|split; [|split]]]]; simpl.
      * intros x [?|Hx]%elem_of_app; [apply Hq; by right|]. by apply (kids_in t cur).
      * intros d [->%elem_of_singleton|?]%elem_of_union; [|by apply Hr]. exists cur. by rewrite Hcn.
      * intros p Hp. rewrite (elem_of_visited t seen cur p) by (done || by rewrite Hcn).
        intros [->|Hd] c Hck; [right; apply elem_of_app; by right|].
        destruct (Hk p Hp Hd c Hck) as [?|[->|?]%elem_of_cons]; set_solver.
      * intros p Hp. destruct (Hc p Hp) as [?|(x & [->|Hx]%elem_of_cons & Hs)]; [left; set_solver| |].
        -- destruct (suffix_kid t cur p Hwf Hs Hp) as [->|(c & ? & ?)]; [left; set_solver|].
           right. exists c. split; [apply elem_of_app; by right|done].
        -- right. exists x. split; [apply elem_of_app; by left|done].
      * case_match; [|done]. apply NoDup_app. split; [done|]. split; [|apply NoDup_singleton].
        intros d Hd ->%list_elem_of_singleton. apply Hlive in Hd as [? _]. done.
      * intros d. assert (d ∈ (if is_live (state n) then live ++ [dn cur] else live) <->
                          d ∈ live \/ (d = dn cur /\ is_live (state n) = true)) as ->.
        { destruct (is_live (state n)); [rewrite elem_of_app, list_elem_of_singleton|]; naive_solver. }
        rewrite Hlive, elem_of_union, elem_of_singleton. split.
        -- intros [[? ?]|[-> ?]]; [naive_solver|]. split; [by left|]. eauto.
        -- intros [[->|?] (p & m & Hp & Hl & E)]; [right|left; split; [done|]; by exists p, m].
           apply (names_ok_inj t) in E; [|done|by rewrite Hcn|by rewrite Hp]. subst p.
           by simplify_eq.
  - split; [|split; [|split; [|split; [|split]]]]; simpl.
    + intros x ->%list_elem_of_singleton. by apply wf_root.
    + set_solver.
    + intros p _ ?%not_elem_of_empty. done.
    + intros p _. right. exists []. split; [by left|apply suffix_nil].
    + constructor.
    + set_solver.
  - by rewrite total_root.
  - rewrite HL. simpl. eexists. split; [done|]. split; [apply Sorted_merge_sort; apply _|].
    split; [by rewrite merge_sort_Permutation|].
    intros d. rewrite merge_sort_Permutation, H4. split; [by intros [_ ?]|].
    intros (p & n & Hp & ? & ->). split; [|eauto].
    destruct (H2 p) as [?|(x & ?%not_elem_of_nil & _)]; [by rewrite Hp|done..].
Qed.

End SupervisorProc.
