(* ===== verification/SupervisorSafety.v ===== *)
(** * Safety of the supervisor

    Invariants of the processor's transition system: every node that is
    supposed to run is accounted for by exactly one goroutine or request, so
    that the processor never loses a node and never panics, and the conditions
    this depends on. *)

From S2P Require Import Prelude GoStrings Supervisor SupervisorOps SupervisorGC SupervisorProc.

Module SupervisorSafety.
Import Supervisor SupervisorOps SupervisorGC SupervisorProc.

(** ** Outstanding work *)

(** The DNs a request is about. *)
Definition req_dns (r : request) : list string :=
  match r with ReqSchedule d | ReqDied d _ => [d] | ReqWaitSettled _ => [] end.

(** The DNs some goroutine is responsible for: those that are waiting to be
    scheduled, those that run, and those whose death is not handled yet. *)
Definition outstanding (w : world) : list string := running w ++ (pending w ≫= req_dns).

Definition active (s : nodeState) : bool :=
  match s with nodeStateNew | nodeStateHealthy => true | _ => false end.
Definition may_run (s : nodeState) : bool :=
  match s with nodeStateNew | nodeStateHealthy | nodeStateDone => true | _ => false end.

Record accounted (t : tree) (o : list string) : Prop := {
  acc_wf : wf t;
  acc_names : names_ok t;
  acc_nodup : NoDup o;
  acc_in : forall d, d ∈ o -> exists p n, t !! p = Some n /\ d = dn p /\ may_run (state n) = true;
  acc_all : forall p n, t !! p = Some n -> active (state n) = true -> dn p ∈ o
}.

#[export] Instance accounted_perm t : Proper ((≡ₚ) ==> iff) (accounted t).
Proof.
  assert (forall o o', o ≡ₚ o' -> accounted t o -> accounted t o') as H.
  { intros o o' E [H1 H2 H3 H4 H5]. split; [done|done|by rewrite <- E| |].
    - intros d. rewrite <- E. apply H4.
    - intros p n. rewrite <- E. apply H5. }
  intros o o' E. split; by apply H.
Qed.

Lemma accounted_nodeByDN t o d :
  accounted t o -> d ∈ o ->
  exists p n, t !! p = Some n /\ d = dn p /\ may_run (state n) = true /\
    nodeByDN t d = Some p /\ Forall name_ok p.
Proof.
  intros H Hd. destruct (acc_in t o H d Hd) as (p & n & Hp & -> & Hs). exists p, n.
  assert (Forall name_ok p) by (apply (acc_names t o H); by rewrite Hp).
  split_and!; try done. apply nodeByDN_dn; [apply (acc_wf t o H)|done|by rewrite Hp].
Qed.

(** A change of the nodes' bookkeeping that leaves the states alone. *)
Lemma accounted_states t t' o :
  wf t' -> names_ok t' -> (forall q, state <$> t' !! q = state <$> t !! q) ->
  accounted t o -> accounted t' o.
Proof.
  intros Hwf Hn Hst [_ _ H3 H4 H5]. split; [done..| |].
  - intros d (p & n & Hp & -> & Hs)%H4. specialize (Hst p). rewrite Hp in Hst.
    destruct (t' !! p) as [n'|] eqn:E; [|done]. injection Hst as Hst.
    exists p, n'. by rewrite Hst.
  - intros p n' Hp Ha. specialize (Hst p). rewrite Hp in Hst.
    destruct (t !! p) as [n|] eqn:E; [|done]. injection Hst as Hst.
    apply (H5 p n E). by rewrite <- Hst.
Qed.

(** The goroutine of [p] is gone, and its node is not active any more. *)
Lemma accounted_exit t t' p o :
  wf t' -> names_ok t' -> is_Some (t !! p) ->
  (forall q, q <> p -> state <$> t' !! q = state <$> t !! q) ->
  (forall n', t' !! p = Some n' -> active (state n') = false) ->
  accounted t (dn p :: o) -> accounted t' o.
Proof.
  intros Hwf Hn Hp Hst Hact [_ Hnm H3 H4 H5]. apply NoDup_cons in H3 as [Hnin H3].
  split; [done..| |].
  - intros d Hd. destruct (H4 d) as (q & n & Hq & -> & Hs); [by right|].
    assert (q <> p) as Hne by (intros ->; done).
    specialize (Hst q Hne). rewrite Hq in Hst.
    destruct (t' !! q) as [n'|] eqn:E; [|done]. injection Hst as Hst.
    exists q, n'. by rewrite Hst.
  - intros q n' Hq Ha. destruct (decide (q = p)) as [->|Hne].
    { by rewrite (Hact n' Hq) in Ha. }
    specialize (Hst q Hne). rewrite Hq in Hst.
    destruct (t !! q) as [n|] eqn:E; [|done]. injection Hst as Hst.
    assert (dn q ∈ dn p :: o) as [Hd|?]%elem_of_cons; [|exfalso|done].
    + apply (H5 q n E). by rewrite <- Hst.
    + apply Hne, (names_ok_inj t); [done|by rewrite E|done|done].
Qed.

(** The state of an outstanding node moves, and it may still run. *)
Lemma accounted_progress t p n n' o :
  accounted t o -> t !! p = Some n -> dn p ∈ o -> same_node_shape n n' ->
  may_run (state n') = true -> accounted (<[p := n']> t) o.
Proof.
  intros [H1 H2 H3 H4 H5] Hp Hd Hsh Hm.
  assert (same_shape t (<[p := n']> t)) as Hs by (by apply same_shape_insert with n).
  split; [by apply (same_shape_wf t)|by apply (same_shape_names t)|done| |].
  - intros d Hin. destruct (H4 d Hin) as (q & m & Hq & -> & Hr).
    destruct (decide (p = q)) as [->|Hne].
    + exists q, n'. by rewrite lookup_insert_eq.
    + exists q, m. by rewrite lookup_insert_ne.
  - intros q m. rewrite lookup_insert. case_decide; [by subst|]. apply H5.
Qed.

(** ** Handlers *)

Lemma accounted_died t d e o :
  accounted t (d :: o) -> exists t', processDied t d e = Some t' /\ accounted t' o.
Proof.
  intros H. destruct (accounted_nodeByDN t _ d H) as (p & n & Hp & -> & Hm & _ & Hok); [by left|].
  destruct (processDied_spec t p n e (acc_wf _ _ H) Hok Hp) as (t' & E & Hsh & Hres).
  exists t'. split; [done|].
  pose proof (same_shape_wf t t' Hsh (acc_wf _ _ H)) as Hwf'.
  pose proof (same_shape_names t t' Hsh (acc_names _ _ H)) as Hn'.
  apply (accounted_exit t t' p); [done|done|by rewrite Hp| | |done].
  - intros q Hq. destruct (_ && _) in Hres; [by subst|]. destruct (_ && _) in Hres.
    + subst. by rewrite lookup_insert_ne.
    + rewrite Hres. unfold killed. rewrite decide_False by done.
      case_decide; [|done]. by destruct (t !! q).
  - intros n' Hn. destruct (bool_decide (state n = nodeStateDone) && _) eqn:Hd in Hres.
    + subst. apply andb_true_iff in Hd as [Hd _]. apply bool_decide_eq_true in Hd.
      rewrite Hp in Hn. injection Hn as <-. by rewrite Hd.
    + destruct (_ && _) in Hres.
      * subst. rewrite lookup_insert_eq in Hn. by injection Hn as <-.
      * rewrite Hres in Hn. unfold killed in Hn. rewrite decide_True, Hp in Hn by done.
        by injection Hn as <-.
Qed.

Lemma accounted_mark_dead t d o :
  accounted t (d :: o) -> exists t', mark_dead t d = Some t' /\ accounted t' o /\ same_shape t t' /\
    (forall p, dn p <> d -> t' !! p = t !! p).
Proof.
  intros H. destruct (accounted_nodeByDN t _ d H) as (p & n & Hp & -> & Hm & HD & Hok); [by left|].
  unfold mark_dead. rewrite HD. simpl. eexists. split; [done|].
  assert (same_shape t (alter (with_state nodeStateDead) p t)) as Hsh by (by apply same_shape_alter).
  split; [|split; [done|]].
  - apply (accounted_exit t _ p); [|by apply (same_shape_names t), H|by rewrite Hp| | |done].
    + apply (same_shape_wf t); [done|apply H].
    + intros q Hq. by rewrite lookup_alter_ne.
    + intros n'. rewrite lookup_alter_eq, Hp. by intros [= <-].
  - intros q Hq. rewrite lookup_alter_ne; [done|]. by intros ->.
Qed.

Lemma accounted_kill t o :
  accounted t o -> exists t', processKill t = Some t' /\ accounted t' o.
Proof.
  intros H. rewrite (processKill_spec t) by apply H. eexists. split; [done|].
  assert (same_shape t (with_cancel <$> t)) as Hsh.
  { intros q. rewrite lookup_fmap. by destruct (t !! q). }
  apply (accounted_states t); [| | |done].
  - apply (same_shape_wf t); [done|apply H].
  - apply (same_shape_names t); [done|apply H].
  - intros q. rewrite lookup_fmap. by destruct (t !! q).
Qed.

Lemma accounted_signal t d s t' o :
  accounted t o -> d ∈ o -> Signal t d s = Some t' -> accounted t' o.
Proof.
  intros H Hd. destruct (accounted_nodeByDN t _ d H Hd) as (p & n & Hp & -> & Hm & HD & _).
  unfold Signal. rewrite HD. simpl. rewrite (signal_spec t p n) by done.
  destruct (state n), s; intros [= <-]; by apply (accounted_progress t p n).
Qed.

Lemma accounted_sublogger t d name t' r o :
  accounted t o -> SubLogger t d name = Some (t', r) -> accounted t' o.
Proof.
  intros H E. pose proof (SubLogger_wf t d name t' r (acc_wf _ _ H) E) as Hwf'. revert E.
  unfold SubLogger. destruct (nodeByDN t d) as [p|]; [|done]. simpl.
  destruct (t !! p) as [n|] eqn:Hp; [|done]. simpl.
  case_bool_decide; [by intros [= <- <-]|].
  destruct (reNodeName name); simpl; intros [= <- <-]; [|done].
  apply (accounted_states t); [done| | |done].
  - apply names_ok_insert; [apply H|by rewrite Hp].
  - intros q. rewrite lookup_insert. case_decide; [|done]. subst. by rewrite Hp.
Qed.

(** ** Starting groups *)

Lemma good_name_ok c : good_name c -> name_ok c.
Proof.
  intros [_ H]. unfold name_ok. induction c as [|x c IH]; [done|].
  apply Forall_cons in H as [Hx H]. simpl. rewrite IH by done. rewrite orb_false_r.
  apply bool_decide_eq_false. by intros ->.
Qed.

Lemma group_started_lookup t p n rs q m :
  NoDup rs.*1 -> group_started t p n rs !! q = Some m ->
  (q = p /\ state m = state n) \/
  (exists c r, q = c :: p /\ (c, r) ∈ rs /\ m = newNode r) \/ (q <> p /\ t !! q = Some m).
Proof.
  intros Hnd. unfold group_started. rewrite lookup_insert. case_decide as E.
  { intros [= <-]. left. done. }
  intros [Hm|[_ Hm]]%lookup_union_Some_raw; [|by right; right].
  apply added_lookup in Hm as (c & r & ? & ? & ?); [|done]. right; left. eauto.
Qed.

Lemma group_started_new t p n rs c :
  c ∈ rs.*1 -> NoDup rs.*1 -> exists r, group_started t p n rs !! (c :: p) = Some (newNode r).
Proof.
  intros ([c' r] & -> & Hin)%list_elem_of_fmap Hnd. simpl. exists r. unfold group_started.
  rewrite lookup_insert_ne by (intros E; symmetry in E; eauto with go).
  apply lookup_union_Some_l, added_lookup; eauto.
Qed.

Lemma group_started_old t p n rs q m :
  wf t -> t !! p = Some n -> NoDup rs.*1 -> (forall c, c ∈ rs.*1 -> c ∉ children n) ->
  t !! q = Some m -> exists m', group_started t p n rs !! q = Some m' /\ state m' = state m.
Proof.
  intros Hwf Hp Hnd Hc Hq. unfold group_started. rewrite lookup_insert. case_decide as E.
  { subst. simplify_eq. eauto. }
  exists m. split; [|done]. rewrite lookup_union_r; [done|].
  destruct (added p rs !! q) as [x|] eqn:Ha; [|done].
  apply added_lookup in Ha as (c & r & -> & Hin & ->); [|done]. exfalso.
  apply (Hc c); [apply list_elem_of_fmap; by exists (c, r)|].
  apply (wf_child t Hwf p n); [done|by rewrite Hq].
Qed.

Lemma accounted_group t d rs t' r o :
  accounted t o -> d ∈ o -> NoDup rs.*1 -> Forall good_name rs.*1 ->
  RunGroup t d rs = Some (t', r) ->
  accounted t' (o ++ match r with Ok dns => dns | Err _ => [] end).
Proof.
  intros H Hd Hnd Hgood.
  destruct (accounted_nodeByDN t _ d H Hd) as (p & n & Hp & -> & Hm & HD & Hpn).
  unfold RunGroup. rewrite HD. cbn [mbind option_bind]. destruct H as [H1 H2 H3 H4 H5].
  rewrite (runGroup_spec t p n) by done.
  case_bool_decide as Hst; simpl; [|intros [= <- <-]; by rewrite app_nil_r].
  destruct (checkNames n rs.*1) as [[]|e] eqn:Hc; intros [= <- <-]; [|by rewrite app_nil_r].
  apply checkNames_Ok in Hc. pose proof Hc as Hc'. rewrite Forall_forall in Hc'.
  assert (names_ok (group_started t p n rs)) as Hn'.
  { intros q [m Hq]. apply (group_started_lookup _ _ _ _ _ _ Hnd) in Hq as [[-> _]|[(c & r & -> & Hin & _)|[_ Hq]]]; [done| |].
    - constructor; [|done]. apply good_name_ok. rewrite Forall_forall in Hgood. apply Hgood.
      apply list_elem_of_fmap. by exists (c, r).
    - apply H2. by rewrite Hq. }
  split; [by apply wf_group_started|done| | |].
  - apply NoDup_app. split; [done|]. split.
    + intros d Hd1 (c & -> & Hin)%list_elem_of_fmap.
      destruct (H4 _ Hd1) as (q & m & Hq & E & _).
      destruct (group_started_new t p n rs c Hin Hnd) as [r Hr].
      destruct (group_started_old t p n rs q m) as (m' & Hm' & _); [done..|naive_solver|done|].
      apply (names_ok_inj (group_started t p n rs) (c :: p) q) in E; [|done|by rewrite Hr|by rewrite Hm'].
      subst q. destruct (Hc' c Hin) as (_ & Hno & _). apply Hno. apply (wf_child t H1 p n); [done|by rewrite Hq].
    + apply NoDup_fmap_2_strong; [|done]. intros c1 c2 Hc1 Hc2 E.
      destruct (group_started_new t p n rs c1 Hc1 Hnd) as [r1 Hr1].
      destruct (group_started_new t p n rs c2 Hc2 Hnd) as [r2 Hr2].
      apply (names_ok_inj (group_started t p n rs) (c1 :: p) (c2 :: p)) in E; [|done|by rewrite Hr1|by rewrite Hr2].
      by injection E.
  - intros x [Hx|(c & -> & Hin)%list_elem_of_fmap]%elem_of_app.
    + destruct (H4 x Hx) as (q & m & Hq & -> & Hs).
      destruct (group_started_old t p n rs q m) as (m' & Hm' & E); [done..|naive_solver|done|].
      exists q, m'. by rewrite E.
    + destruct (group_started_new t p n rs c Hin Hnd) as [r Hr]. by exists (c :: p), (newNode r).
  - intros q m Hq Ha. apply elem_of_app.
    apply (group_started_lookup _ _ _ _ _ _ Hnd) in Hq as [[-> E]|[(c & r & -> & Hin & ->)|[_ Hq]]].
    + left. apply (H5 p n); [done|by rewrite <- E].
    + right. apply list_elem_of_fmap. exists c. split; [done|].
      apply list_elem_of_fmap. by exists (c, r).
    + left. by apply (H5 q m).
Qed.

(** ** Garbage collection *)

(** No goroutine is still responsible for a node of a subtree that the
    processor is about to restart.  This can only fail for DONE nodes. *)
Definition quiet (t : tree) (o : list string) : Prop :=
  forall p q, restart_root t p -> p `suffix_of` q -> dn q ∉ o.

Lemma gc_kept t o roots q :
  (forall p, p ∈ roots <-> restart_root t p) -> quiet t o -> dn q ∈ o ->
  gc_result t roots q = t !! q.
Proof.
  intros Hr Hquiet Hq. unfold gc_result.
  rewrite decide_False by (intros ?%Hr; by apply (Hquiet q q)).
  rewrite decide_False; [done|]. intros (p & Hp%Hr & [Hs _])%Exists_exists. by apply (Hquiet p q).
Qed.

Lemma accounted_gc t o :
  accounted t o -> quiet t o ->
  exists t' reqs, processGC t = Some (t', reqs) /\ accounted t' (o ++ reqs.*1).
Proof.
  intros [H1 H2 H3 H4 H5] Hquiet.
  destruct (processGC_spec t H1 H2) as (t' & roots & Hnd & Hroots & E & Hwf' & Hn' & Hl).
  eexists _, _. split; [done|]. rewrite <- list_fmap_compose.
  change (fst ∘ _) with dn.
  assert (forall p, p ∈ roots -> exists n, t !! p = Some n /\ t' !! p = Some (restarted n)) as Hroot.
  { intros p Hp. rewrite Hl. unfold gc_result. rewrite decide_True by done.
    apply Hroots in Hp as [[n Hn] _]. exists n. by rewrite Hn. }
  split; [done|done| | |].
  - apply NoDup_app. split; [done|]. split.
    + intros d Hd (p & -> & Hp%Hroots)%list_elem_of_fmap. by apply (Hquiet p p).
    + apply NoDup_fmap_2_strong; [|done]. intros p q Hp Hq Edn.
      apply (names_ok_inj t'); [done| | |done].
      * destruct (Hroot p Hp) as (? & _ & ->). done.
      * destruct (Hroot q Hq) as (? & _ & ->). done.
  - intros d [Hd|(p & -> & Hp)%list_elem_of_fmap]%elem_of_app.
    + destruct (H4 d Hd) as (q & n & Hq & -> & Hs). exists q, n.
      rewrite Hl, (gc_kept t o) by done. done.
    + destruct (Hroot p Hp) as (n & _ & Hp'). exists p, (restarted n). done.
  - intros q m Hq Ha. apply elem_of_app. rewrite Hl in Hq. unfold gc_result in Hq.
    case_decide as Hin; [right; apply list_elem_of_fmap; eauto|]. left.
    case_decide; [done|]. by apply (H5 q m).
Qed.

(** ** The system *)

Definition inv (w : world) : Prop := ph w <> Crashed /\ accounted (tr w) (outstanding w).

Lemma outstanding_take w l r k :
  pending w = l ++ r :: k ->
  outstanding w ≡ₚ req_dns r ++ outstanding (set_pending (l ++ k) w).
Proof.
  intros E. unfold outstanding. simpl. rewrite E, !bind_app, bind_cons. simpl. solve_Permutation.
Qed.

Lemma outstanding_push w rs t :
  outstanding (set_pending (pending w ++ rs) (set_tr t w)) = outstanding w ++ (rs ≫= req_dns).
Proof. unfold outstanding. simpl. by rewrite bind_app, app_assoc. Qed.

Lemma bind_schedule (ds : list string) : (ReqSchedule <$> ds) ≫= req_dns = ds.
Proof. induction ds as [|d ds IH]; [done|]. csimpl. by rewrite IH. Qed.

Lemma new_inv r : inv (New r).
Proof.
  split; [done|]. unfold New, outstanding. simpl.
  assert (forall q n, ({[ [] := newNode r ]} : tree) !! q = Some n -> q = [] /\ n = newNode r) as Hone.
  { intros q n [? ?]%lookup_singleton_Some. done. }
  split.
  - split.
    + by rewrite lookup_singleton_eq.
    + intros p n c [-> ->]%Hone. split; [by intros ?%not_elem_of_nil|].
      by intros [? [? _]%Hone].
    + intros c p. by intros [? [? _]%Hone].
    + intros p n [-> ->]%Hone. apply newNode_ok.
  - intros p [n [-> _]%Hone]. constructor.
  - apply NoDup_singleton.
  - intros d ->%list_elem_of_singleton. exists [], (newNode r). by rewrite lookup_singleton_eq.
  - intros p n [-> ->]%Hone _. by left.
Qed.

Lemma request_inv w l r k :
  inv w -> ph w = Processing -> pending w = l ++ r :: k ->
  inv (on_request r (set_pending (l ++ k) w)).
Proof.
  intros [_ Hacc] Hph Hpend. rewrite (outstanding_take w l r k Hpend) in Hacc.
  destruct r as [d|d e|x]; simpl in Hacc.
  - destruct (accounted_nodeByDN _ _ d Hacc) as (p & n & _ & _ & _ & HD & _); [by left|].
    simpl. unfold processSchedule. rewrite HD. simpl. split; [by simpl; rewrite Hph|].
    assert (outstanding (markDirty (set_running (running w ++ [d]) (set_pending (l ++ k) w))) ≡ₚ
            d :: outstanding (set_pending (l ++ k) w)) as ->; [|done].
    unfold outstanding. simpl. solve_Permutation.
  - destruct (accounted_died _ d e _ Hacc) as (t' & E & Hacc'). simpl. rewrite E.
    split; [by simpl; rewrite Hph|]. done.
  - split; [by simpl; rewrite Hph|done].
Qed.

Lemma tick_inv w :
  inv w -> ph w = Processing -> (clean w = false -> quiet (tr w) (outstanding w)) -> inv (on_tick w).
Proof.
  intros [_ Hacc] Hph Hq. unfold on_tick. destruct (clean w).
  { case_bool_decide; (split; [by simpl; rewrite Hph|done]). }
  destruct (accounted_gc _ _ Hacc (Hq eq_refl)) as (t' & reqs & -> & Hacc'). simpl.
  assert (outstanding w ++ reqs.*1 = outstanding (set_pending (pending w ++ ((fun r => ReqSchedule r.1) <$> reqs)) (set_tr t' w))) as E.
  { rewrite outstanding_push. f_equal. rewrite <- (bind_schedule reqs.*1), <- list_fmap_compose. done. }
  rewrite E in Hacc'. case_bool_decide; (split; [by simpl; rewrite Hph|done]).
Qed.

(** The liquidator takes over the bookkeeping; it stops exactly when no node is
    NEW, HEALTHY or CANCELED. *)
Lemma liquidate_spec w l r k :
  inv w -> ph w = Liquidating -> pending w = l ++ r :: k ->
  let w' := on_liquidate r (set_pending (l ++ k) w) in
  inv w' /\ running w' = running w /\ pending w' = l ++ k /\
  (forall p, dn p ∉ req_dns r -> tr w' !! p = tr w !! p) /\
  (forall p, is_Some (tr w' !! p) <-> is_Some (tr w !! p)) /\
  (ph w' = Exited <-> forall p n, tr w' !! p = Some n -> is_live (state n) = false) /\
  (ph w' = Exited \/ ph w' = Liquidating).
Proof.
  intros [_ Hacc] Hph Hpend. rewrite (outstanding_take w l r k Hpend) in Hacc. cbn zeta.
  assert (exists t', match r with
           | ReqSchedule d | ReqDied d _ => mark_dead (tr w) d
           | ReqWaitSettled _ => Some (tr w)
           end = Some t' /\ accounted t' (outstanding (set_pending (l ++ k) w)) /\ same_shape (tr w) t' /\
           (forall p, dn p ∉ req_dns r -> t' !! p = tr w !! p)) as (t' & E & Hacc' & Hsh & Hl).
  { destruct r as [d|d e|x]; simpl in Hacc.
    - destruct (accounted_mark_dead _ d _ Hacc) as (t' & ? & ? & ? & Hl). exists t'.
      split_and!; try done. intros p Hp. apply Hl. set_solver.
    - destruct (accounted_mark_dead _ d _ Hacc) as (t' & ? & ? & ? & Hl). exists t'.
      split_and!; try done. intros p Hp. apply Hl. set_solver.
    - exists (tr w). by split_and!. }
  unfold on_liquidate. cbn [tr set_pending]. rewrite E.
  destruct (liveRunnables_spec t') as (live & -> & _ & _ & Hlive); [apply Hacc'..|].
  assert (forall p, is_Some (t' !! p) <-> is_Some (tr w !! p)) as Hdom
    by (intros p; symmetry; by apply same_shape_is_Some).
  destruct live as [|d live]; simpl; (split_and!; [split; [simpl; congruence|done]| | | | | |]); simpl; try done; eauto.
  - split; [intros _ p n Hp|done]. destruct (is_live (state n)) eqn:Ea; [|done].
    exfalso. apply (not_elem_of_nil (dn p)), Hlive. eauto.
  - rewrite Hph. split; [done|]. intros Hall.
    destruct (proj1 (Hlive d)) as (p & n & Hp & Ha & _); [by left|]. by rewrite (Hall p n Hp) in Ha.
Qed.

Lemma step_inv w e w' :
  inv w -> step w e w' -> plain_names e ->
  (e = EvTick -> clean w = false -> quiet (tr w) (outstanding w)) -> inv w'.
Proof.
  intros Hinv Hstep Hg Hq. destruct Hstep as
    [w l r k Hph Hp|w Hph|w Hph|w l r k Hph Hp|w l d k e Hr|w d rs t r Hr Hnd E|w d s t Hr E|w d name t r Hr E|w x].
  - by apply request_inv.
  - apply tick_inv; auto.
  - destruct Hinv as [_ Hacc]. destruct (accounted_kill _ _ Hacc) as (t' & E & Hacc').
    unfold on_ctx_done. rewrite E. done.
  - by apply liquidate_spec.
  - destruct Hinv as [Hc Hacc]. split; [done|].
    assert (outstanding (set_running (l ++ k) (set_pending (pending w ++ [ReqDied d e]) w)) ≡ₚ
            outstanding w) as ->; [|done].
    unfold outstanding. simpl. rewrite Hr, bind_app. simpl. solve_Permutation.
  - destruct Hinv as [Hc Hacc]. split; [done|]. rewrite outstanding_push.
    assert (match r with Ok dns => ReqSchedule <$> dns | Err _ => [] end ≫= req_dns =
            match r with Ok dns => dns | Err _ => [] end) as ->.
    { destruct r; [apply bind_schedule|done]. }
    apply (accounted_group (tr w) d rs t r); [done| |done..].
    unfold outstanding. apply elem_of_app. by left.
  - destruct Hinv as [Hc Hacc]. split; [done|].
    apply (accounted_signal (tr w) d s); [done| |done]. apply elem_of_app. by left.
  - destruct Hinv as [Hc Hacc]. split; [done|]. by apply (accounted_sublogger (tr w) d name t r).
  - destruct Hinv as [Hc Hacc]. split; [done|].
    change (outstanding _) with (outstanding (set_pending (pending w ++ [ReqWaitSettled x]) (set_tr (tr w) w))).
    rewrite outstanding_push. simpl. by rewrite app_nil_r.
Qed.

(** The states of an execution of a supervisor in which runnables have plain names
    and the garbage collector only runs when the tree is [quiet].  What happens otherwise is
    shown by [dotted_name_crash] and [late_return_crash]. *)
Inductive reachable (r : Runnable) : world -> Prop :=
| reach_new : reachable r (New r)
| reach_step w e w' :
    reachable r w -> step w e w' -> plain_names e ->
    (e = EvTick -> clean w = false -> quiet (tr w) (outstanding w)) -> reachable r w'.

Lemma reachable_inv r w : reachable r w -> inv w.
Proof. induction 1; [apply new_inv|by eapply step_inv]. Qed.
End SupervisorSafety.
