(* ===== verification/SupervisorProps.v ===== *)
(** * What the supervisor guarantees

    The properties of [osbase/supervisor]: the tree operations, the garbage
    collector, the processor and the liquidator; and the executions that show
    where the code falls short of its comments. *)

From S2P Require Import Prelude GoStrings Supervisor SupervisorOps SupervisorGC SupervisorProc SupervisorSafety.

Module SupervisorProps.
Import Supervisor SupervisorOps SupervisorGC SupervisorProc SupervisorSafety.

(** ** A concrete tree *)

(** A root with a group of two children: [a] is DEAD, [b] was canceled. *)
Definition ex_node (cs : list string) (gs : list (gset string)) (s : nodeState) (c : bool) : node :=
  mkNode 0 cs ∅ gs s 0 c.
Definition ex_tree (root a b : nodeState) : tree :=
  {[ [] := ex_node ["a"; "b"] [{["a"; "b"]}] root false;
     ["a"] := ex_node [] [] a false;
     ["b"] := ex_node [] [] b false ]}.

Lemma ex_tree_lookup root a b q n :
  ex_tree root a b !! q = Some n ->
  (q = [] /\ n = ex_node ["a"; "b"] [{["a"; "b"]}] root false) \/
  (q = ["a"] /\ n = ex_node [] [] a false) \/ (q = ["b"] /\ n = ex_node [] [] b false).
Proof.
  unfold ex_tree. rewrite !lookup_insert. repeat case_decide; subst; [naive_solver..|].
  rewrite lookup_singleton_Some. naive_solver.
Qed.

Lemma ex_tree_wf root a b : wf (ex_tree root a b).
Proof.
  split.
  - done.
  - intros p n c Hp. apply ex_tree_lookup in Hp as [[-> ->]|[[-> ->]|[-> ->]]]; simpl.
    + split; [|intros [m Hm%ex_tree_lookup]; set_solver].
      intros [->|[->|[]%elem_of_nil]%elem_of_cons]%elem_of_cons; done.
    + split; [by intros ?%not_elem_of_nil|]. intros [m Hm%ex_tree_lookup]. naive_solver.
    + split; [by intros ?%not_elem_of_nil|]. intros [m Hm%ex_tree_lookup]. naive_solver.
  - intros c p [m Hm%ex_tree_lookup].
    destruct Hm as [[? _]|[[[= -> ->] _]|[[= -> ->] _]]]; done.
  - intros p n Hp. apply ex_tree_lookup in Hp as [[-> ->]|[[-> ->]|[-> ->]]]; [|exact (newNode_ok 0)..].
    split; [by apply (bool_decide_unpack _)|]. split; [|by intros ? _ ?%not_elem_of_empty]. split; [|split]; simpl.
    + intros g c ->%list_elem_of_singleton. set_solver.
    + intros c Hc. exists {["a"; "b"]}. set_solver.
    + intros [|i] [|j] g h c; try done.
Qed.

Lemma ex_tree_names root a b : names_ok (ex_tree root a b).
Proof.
  intros p [n Hp]. apply ex_tree_lookup in Hp as [[-> _]|[[-> _]|[-> _]]]; repeat constructor.
Qed.

(** ** Distinguished names *)

(** [nodeByDN] and [dn] are inverse to each other on a well-formed tree
    whose names hold no dot: looking up a DN finds the one node that has it,
    and panics for any string that is not the DN of a node. *)
Theorem nodeByDN_inverse t d p :
  wf t -> names_ok t ->
  (nodeByDN t d = Some p <-> is_Some (t !! p) /\ d = dn p) /\
  (nodeByDN t d = None <-> forall q, is_Some (t !! q) -> dn q <> d).
Proof.
  intros Hwf Hn. pose proof (nodeByDN_iff t d p Hwf Hn) as Hiff. split; [done|].
  split.
  - intros E q Hq <-. assert (nodeByDN t (dn q) = Some q) by (by apply nodeByDN_iff). congruence.
  - intros Hno. destruct (nodeByDN t d) as [q|] eqn:E; [|done].
    apply nodeByDN_iff in E as [Hq ->]; [|done..]. by apply Hno in Hq.
Qed.

Lemma nodeByDN_inverse_witness :
  nodeByDN (ex_tree nodeStateNew nodeStateNew nodeStateNew) "root.a" = Some ["a"].
Proof.
  apply (nodeByDN_inverse (ex_tree nodeStateNew nodeStateNew nodeStateNew) "root.a" ["a"]);
    [apply ex_tree_wf|apply ex_tree_names|]. split; [by eexists|done].
Defined.

(** ** Groups of runnables *)

(** [runGroup] either refuses a group and leaves the tree untouched, or adds
    exactly the requested children, as NEW nodes of one new group below the
    node, and asks for each of them to be scheduled; it succeeds exactly for a
    NEW node and names that match the pattern, are no children yet and are not
    reserved.  The tree stays well formed in all cases. *)
Theorem runGroup_correct t p n rs t' r :
  wf t -> t !! p = Some n -> NoDup rs.*1 -> runGroup t p rs = (t', r) ->
  wf t' /\
  (is_ok r = true <-> state n = nodeStateNew /\
     Forall (fun c => reNodeName c = true /\ (c ∉ children n) /\ c ∉ reserved n) rs.*1) /\
  match r with
  | Err e => t' = t
  | Ok dns =>
      dns = (fun c => dn (c :: p)) <$> rs.*1 /\
      t' !! p = Some (with_groups (groups n ++ [list_to_set rs.*1])
                        (with_children (children n ++ rs.*1) n)) /\
      (forall c x, (c, x) ∈ rs -> t' !! (c :: p) = Some (newNode x)) /\
      (forall q, q <> p -> ~ (exists c, c ∈ rs.*1 /\ q = c :: p) -> t' !! q = t !! q)
  end.
Proof.
  intros Hwf Hp Hnd E. split; [by eapply runGroup_wf|].
  rewrite (runGroup_spec t p n) in E by done. rewrite <- checkNames_Ok.
  case_bool_decide as Hs; simpl in E; [|injection E as <- <-; naive_solver].
  destruct (checkNames n rs.*1) as [[]|e] eqn:Hc; injection E as <- <-; [|naive_solver].
  split; [done|]. split; [done|]. unfold group_started.
  split; [by rewrite lookup_insert_eq|]. split.
  - intros c x Hin. rewrite lookup_insert_ne by (intros E; symmetry in E; eauto with go).
    apply lookup_union_Some_l, added_lookup; eauto.
  - intros q Hq Hno. rewrite lookup_insert_ne by done. rewrite lookup_union_r; [done|].
    destruct (added p rs !! q) as [m|] eqn:Ha; [|done].
    apply added_lookup in Ha as (c & x & -> & Hin & ->); [|done]. exfalso. apply Hno.
    exists c. split; [|done]. apply list_elem_of_fmap. by exists (c, x).
Qed.

Lemma runGroup_correct_witness :
  exists t', runGroup (ex_tree nodeStateNew nodeStateNew nodeStateNew) [] [("c", 7)] =
    (t', Ok ["root.c"]) /\ wf t'.
Proof.
  eexists. split; [reflexivity|].
  apply (runGroup_correct (ex_tree nodeStateNew nodeStateNew nodeStateNew) []
    (ex_node ["a"; "b"] [{["a"; "b"]}] nodeStateNew false) [("c", 7)] _ (Ok ["root.c"]));
    [apply ex_tree_wf|reflexivity|by apply (bool_decide_unpack _)|reflexivity].
Defined.

(** ** Deaths *)

(** [processDied] keeps a DONE node that returned nil as it is; it marks a
    node CANCELED that returned its context's error; in every other case the
    node becomes DEAD with its context canceled, the contexts of its group
    siblings are canceled, and nothing else changes.  The shape of the tree is
    never touched. *)
Theorem processDied_correct t p n e :
  wf t -> Forall name_ok p -> t !! p = Some n ->
  exists t', processDied t (dn p) e = Some t' /\ wf t' /\
    (forall q, q <> p -> state <$> t' !! q = state <$> t !! q) /\
    if bool_decide (state n = nodeStateDone) && bool_decide (e = None) then t' = t
    else if bool_decide (e = Some errCanceled) && ctxErr t p
    then t' = <[p := with_state nodeStateCanceled n]> t
    else forall q, t' !! q = killed t p q.
Proof.
  intros Hwf Hp Hn. destruct (processDied_spec t p n e Hwf Hp Hn) as (t' & E & Hsh & Hres).
  exists t'. split; [done|]. split; [by apply (same_shape_wf t)|]. split; [|done].
  intros q Hq. destruct (_ && _) in Hres; [by subst|]. destruct (_ && _) in Hres.
  - subst. by rewrite lookup_insert_ne.
  - rewrite Hres. unfold killed. rewrite decide_False by done.
    case_decide; [|done]. by destruct (t !! q).
Qed.

Lemma processDied_correct_witness :
  exists t', processDied (ex_tree nodeStateHealthy nodeStateHealthy nodeStateNew) "root.a" None = Some t' /\
    t' !! ["b"] = Some (ex_node [] [] nodeStateNew true).
Proof.
  destruct (processDied_correct (ex_tree nodeStateHealthy nodeStateHealthy nodeStateNew) ["a"]
    (ex_node [] [] nodeStateHealthy false) None) as (t' & E & _ & _ & H);
    [apply ex_tree_wf|repeat constructor|reflexivity|].
  exists t'. split; [exact E|]. rewrite H. reflexivity.
Defined.

(** ** Garbage collection *)

(** C14: [processGC] terminates on every well-formed tree, and restarts exactly
    the nodes that are DEAD or CANCELED, have only DEAD, DONE and CANCELED
    nodes below them and a parent whose context is live, and have no such node
    above them: each is reset to NEW (one more backoff interval drawn if it had
    died) and scheduled, everything below it is dropped, and all other nodes
    keep their place and contents. *)
Theorem processGC_correct t :
  wf t -> names_ok t ->
  exists t' roots, processGC t =
      Some (t', (fun p => (dn p, bool_decide (state_of t p = nodeStateDead))) <$> roots) /\
    NoDup roots /\ (forall p, p ∈ roots <-> restart_root t p) /\ wf t' /\ names_ok t' /\
    forall q, t' !! q =
      if decide (q ∈ roots) then restarted <$> t !! q
      else if decide (Exists (fun p => below p q) roots) then None else t !! q.
Proof.
  intros Hwf Hn. destruct (processGC_spec t Hwf Hn) as (t' & roots & ? & ? & ? & ? & ? & ?).
  exists t', roots. by split_and!.
Qed.

Lemma processGC_correct_witness :
  exists t' roots, processGC (ex_tree nodeStateHealthy nodeStateDead nodeStateCanceled) = Some (t', roots) /\
    roots = [("root.a", true); ("root.b", false)] /\ wf t'.
Proof.
  destruct (processGC_correct (ex_tree nodeStateHealthy nodeStateDead nodeStateCanceled)
              (ex_tree_wf _ _ _) (ex_tree_names _ _ _)) as (t' & roots & E & _ & _ & H & _ & _).
  exists t'. eexists. split; [exact E|]. split; [|exact H].
  assert (processGC (ex_tree nodeStateHealthy nodeStateDead nodeStateCanceled) ≫= Some ∘ snd =
          Some [("root.a", true); ("root.b", false)]) as E2 by (vm_compute; reflexivity).
  rewrite E in E2. injection E2 as E2. exact E2.
Defined.

(** ** The processor *)

(** C2: In every execution in which the names of runnables consist of the characters that
    [reNodeName] lists (the code also accepts others, see [dotted_name_crash]) and the garbage
    collector never restarts a subtree that a goroutine is still responsible for (see
    [late_return_crash]), the processor does not panic, the tree stays well formed, every NEW
    or HEALTHY node is waiting to be scheduled, running, or about to be reported dead, and no
    node has two such goroutines or requests: no runnable is lost, and none runs twice. *)
Theorem supervisor_safe r w :
  reachable r w ->
  ph w <> Crashed /\ wf (tr w) /\ NoDup (outstanding w) /\
  (forall p n, tr w !! p = Some n -> active (state n) = true -> dn p ∈ outstanding w) /\
  (forall d, d ∈ outstanding w ->
     exists p n, tr w !! p = Some n /\ d = dn p /\ may_run (state n) = true).
Proof. intros [Hc [H1 H2 H3 H4 H5]]%reachable_inv. by split_and!. Qed.

(** Executions without a garbage collection. *)
Lemma reachable_steps r w evs w' :
  reachable r w -> steps w evs w' -> Forall plain_names evs -> EvTick ∉ evs -> reachable r w'.
Proof.
  intros Hr Hs. revert Hr. induction Hs as [w|w e w' evs w'' He _ IH]; intros Hr Hpl Hno; [done|].
  apply not_elem_of_cons in Hno as [Hne Hno]. apply Forall_cons in Hpl as [Hpl Hpls]. apply IH; [|done..].
  eapply reach_step; [done..|]. by intros ->.
Qed.

(** The ticks since the last scheduled or died runnable. *)
Fixpoint quiet_ticks (c : nat) (evs : list event) : nat :=
  match evs with
  | [] => c
  | EvTick :: evs => quiet_ticks (S c) evs
  | EvRequest (ReqSchedule _) :: evs | EvRequest (ReqDied _ _) :: evs => quiet_ticks 0 evs
  | _ :: evs => quiet_ticks c evs
  end.

Lemma on_tick_ph w : ph (on_tick w) = Processing -> cleanCycles (on_tick w) = S (cleanCycles w).
Proof.
  unfold on_tick. destruct (clean w); [by case_bool_decide|].
  destruct (processGC (tr w)) as [[t reqs]|]; simpl; [by case_bool_decide|done].
Qed.

Lemma step_ticks w e w' evs :
  step w e w' -> ph w' = Processing ->
  ph w = Processing /\ quiet_ticks (cleanCycles w) (e :: evs) = quiet_ticks (cleanCycles w') evs.
Proof.
  intros Hs Hph. destruct Hs as [w l r k Hp _|w Hp|w Hp|w l r k Hp _|w l d k e Hr|w d rs t r Hr Hnd E|w d s t Hr E|w d name t r Hr E|w x];
    try (split; [done|]; done).
  - split; [done|]. destruct r as [d|d e|x]; simpl in *; [| |done].
    + by destruct (processSchedule (tr w) d).
    + by destruct (processDied (tr w) d e).
  - split; [done|]. simpl. by rewrite on_tick_ph.
  - unfold on_ctx_done in Hph. by destruct (processKill (tr w)).
  - exfalso. unfold on_liquidate in Hph. revert Hph.
    destruct r; simpl; repeat case_match; simpl; congruence.
Qed.

Lemma steps_ticks w evs w' :
  steps w evs w' -> ph w' = Processing ->
  ph w = Processing /\ cleanCycles w' = quiet_ticks (cleanCycles w) evs.
Proof.
  induction 1 as [w|w e w' evs w'' He _ IH]; intros Hph; [done|].
  destruct (IH Hph) as [Hph' ->]. destruct (step_ticks w e w' evs He Hph') as [? ->]. done.
Qed.

(** A waiter for a settled supervision tree is only released by the ticker,
    after at least fifty further ticks since the last runnable was scheduled or
    died, and all of the waiters are then released together. *)
Theorem waiters_settled r evs w e w' :
  steps (New r) evs w -> step w e w' -> closed w' <> closed w ->
  e = EvTick /\ 50 <= quiet_ticks 0 evs /\ closed w' = closed w ++ waiters w /\ waiters w' = [].
Proof.
  intros Hs He Hc. destruct He as [w l rq k Hp _|w Hp|w Hp|w l rq k Hp _|w l d k er Hr|w d rs t rs' Hr Hnd E|w d s t Hr E|w d name t rs' Hr E|w x];
    try done.
  - exfalso. destruct rq as [d|d er|x]; simpl in Hc; [| |done].
    + by destruct (processSchedule (tr w) d).
    + by destruct (processDied (tr w) d er).
  - destruct (steps_ticks _ _ _ Hs Hp) as [_ Hcc]. change (cleanCycles (New r)) with 0 in Hcc.
    rewrite <- Hcc. split; [done|]. revert Hc. unfold on_tick.
    destruct (clean w); [|destruct (processGC (tr w)) as [[t reqs]|]; [|done]]; simpl;
      (case_bool_decide; [|done]); intros _; (split_and!; [lia|done|done]).
  - unfold on_ctx_done in Hc. by destruct (processKill (tr w)).
  - exfalso. revert Hc. unfold on_liquidate. destruct rq; simpl; repeat case_match; done.
Qed.

(** Ticks of a clean tree. *)
Lemma clean_ticks n w :
  clean w = true -> ph w = Processing -> cleanCycles w + n <= 50 ->
  exists w', steps w (replicate n EvTick) w' /\ clean w' = true /\ ph w' = Processing /\
    cleanCycles w' = cleanCycles w + n /\ waiters w' = waiters w /\ closed w' = closed w.
Proof.
  revert w. induction n as [|n IH]; intros w Hcl Hph Hn.
  { exists w. split_and!; [apply steps_nil|done..|lia|done|done]. }
  assert (on_tick w = mkWorld (tr w) (pending w) (running w) true (S (cleanCycles w))
                        (waiters w) (closed w) (ph w)) as E.
  { unfold on_tick. rewrite Hcl. rewrite bool_decide_eq_false_2 by lia. done. }
  destruct (IH (on_tick w)) as (w' & Hs & H1 & H2 & H3 & H4 & H5);
    [by rewrite E|by rewrite E|rewrite E; simpl; lia|].
  rewrite E in H3, H4, H5. simpl in *. exists w'. split_and!; try done; [|lia].
  eapply steps_cons; [by apply step_tick|done].
Qed.

Lemma steps_ticks_50 :
  exists w, steps (New 0) (EvWait 7 :: EvRequest (ReqWaitSettled 7) :: replicate 50 EvTick) w /\
    ph w = Processing /\ closed w = [] /\ closed (on_tick w) = [7].
Proof.
  destruct (clean_ticks 50 (add_waiter 7 (New 0))) as (w & Hs & H1 & H2 & H3 & H4 & H5); [done..|].
  exists w. split_and!; [|done|done|].
  - eapply steps_cons; [apply step_wait|].
    eapply steps_cons; [by apply (step_request _ [ReqSchedule "root"] (ReqWaitSettled 7) [])|done].
  - unfold on_tick. rewrite H1, bool_decide_eq_true_2 by (rewrite H3; simpl; lia). simpl.
    by rewrite H4, H5.
Qed.

Lemma waiters_settled_witness :
  exists w w', step w EvTick w' /\ closed w' = closed w ++ waiters w.
Proof.
  destruct steps_ticks_50 as (w & Hs & Hph & Hc & Hc').
  exists w, (on_tick w). split; [by apply step_tick|].
  apply (waiters_settled 0 _ w EvTick (on_tick w) Hs (step_tick w Hph)).
  by rewrite Hc, Hc'.
Defined.

(** ** The liquidator *)

(** Once the supervisor's context is done, the processor cancels the
    context of every node and hands over to the liquidator.  The liquidator
    marks the node of each request DEAD, and exits exactly when afterwards no
    node is NEW, HEALTHY or CANCELED; it never panics. *)
Theorem liquidator_correct r w l q k :
  reachable r w -> pending w = l ++ q :: k ->
  (ph w = Processing -> ph (on_ctx_done w) = Liquidating /\
     forall p, is_Some (tr w !! p) -> ctxErr (tr (on_ctx_done w)) p = true) /\
  (ph w = Liquidating ->
     let w' := on_liquidate q (set_pending (l ++ k) w) in
     (ph w' = Exited \/ ph w' = Liquidating) /\
     (ph w' = Exited <-> forall p n, tr w' !! p = Some n -> is_live (state n) = false) /\
     (forall p, dn p ∉ req_dns q -> tr w' !! p = tr w !! p)).
Proof.
  intros Hinv%reachable_inv Hp. split.
  - intros _. destruct Hinv as [_ Hacc]. unfold on_ctx_done.
    rewrite (processKill_spec (tr w)) by apply Hacc. split; [done|].
    intros p [n Hn]. simpl. destruct p; simpl; rewrite lookup_fmap, Hn; done.
  - intros Hph. destruct (liquidate_spec w l q k Hinv Hph Hp) as (_ & _ & _ & ? & _ & ? & ?). done.
Qed.

Lemma liquidator_correct_witness :
  reachable 0 (New 0) /\ ph (on_ctx_done (New 0)) = Liquidating.
Proof.
  split; [apply reach_new|].
  destruct (liquidator_correct 0 (New 0) [] (ReqSchedule "root") [] (reach_new 0) eq_refl) as [H _].
  apply H. reflexivity.
Defined.

Lemma not_outstanding w p n :
  inv w -> tr w !! p = Some n -> may_run (state n) = false -> dn p ∉ outstanding w.
Proof.
  intros [_ H] Hp Hm Hd. destruct (acc_in _ _ H _ Hd) as (q & m & Hq & E & Hmr).
  apply (names_ok_inj (tr w)) in E; [|apply H|by rewrite Hp|by rewrite Hq].
  subst q. congruence.
Qed.

Lemma canceled_stays w e w' p n :
  inv w -> ph w = Liquidating -> tr w !! p = Some n -> state n = nodeStateCanceled -> step w e w' ->
  ph w' = Liquidating /\ exists n', tr w' !! p = Some n' /\ state n' = nodeStateCanceled.
Proof.
  intros Hinv Hph Hp Hst Hs.
  assert (dn p ∉ outstanding w) as Hout by (eapply not_outstanding; [done|done|by rewrite Hst]).
  destruct Hs as [w l r k Hph' _|w Hph'|w Hph'|w l r k Hph' Hpend|w l d k e Hr|w d rs t r Hr Hnd E|w d s t Hr E|w d name t r Hr E|w x];
    try congruence; try (split; [done|]; by eauto).
  - destruct (liquidate_spec w l r k Hinv Hph Hpend) as (_ & _ & _ & Hl & _ & Hex & Hor).
    assert (tr (on_liquidate r (set_pending (l ++ k) w)) !! p = Some n) as Hp'.
    { rewrite Hl; [done|]. intros Hd. apply Hout. rewrite (outstanding_take w l r k Hpend).
      apply elem_of_app. by left. }
    split; [|eauto]. destruct Hor as [Hor|?]; [|done].
    rewrite Hex in Hor. specialize (Hor p n Hp'). by rewrite Hst in Hor.
  - split; [done|]. simpl. destruct Hinv as [_ Hacc].
    destruct (accounted_nodeByDN (tr w) (outstanding w) d Hacc) as (q & m & Hq & -> & _ & HD & _);
      [apply elem_of_app; by left|].
    revert E. unfold RunGroup. rewrite HD. cbn [mbind option_bind].
    rewrite (runGroup_spec (tr w) q m) by (done || apply Hacc).
    destruct (negb _); [intros [= <- <-]; eauto|].
    destruct (checkNames m rs.*1) as [[]|] eqn:Hc; intros [= <- <-]; [|eauto].
    apply checkNames_Ok in Hc. rewrite Forall_forall in Hc.
    destruct (group_started_old (tr w) q m rs p n) as (n' & ? & E); [apply Hacc|done|done|naive_solver|done|].
    exists n'. by rewrite E.
  - split; [done|]. simpl. destruct Hinv as [_ Hacc]. unfold Signal in E.
    destruct (accounted_nodeByDN (tr w) (outstanding w) d Hacc) as (q & m & Hq & -> & Hm & HD & _);
      [apply elem_of_app; by left|].
    rewrite HD in E. simpl in E. rewrite (signal_spec _ q m) in E by done.
    assert (q <> p) by (intros ->; simplify_eq; by rewrite Hst in Hm).
    destruct (state m), s; try done; injection E as <-; rewrite lookup_insert_ne by done; eauto.
  - split; [done|]. simpl. revert E. unfold SubLogger.
    destruct (nodeByDN (tr w) d) as [q|]; [|done]. simpl.
    destruct (tr w !! q) as [m|] eqn:Hq; [|done]. simpl.
    case_bool_decide; [intros [= <- <-]; eauto|].
    destruct (reNodeName name); simpl; intros [= <- <-]; [|eauto].
    rewrite lookup_insert. case_decide; [|eauto]. subst. simplify_eq. eauto.
Qed.

(** If some node is already CANCELED when the liquidator takes over, the
    liquidator never exits, whatever the runnables do afterwards: it counts
    that node as live, and no request about it will ever come. *)
Theorem liquidator_stuck r w evs w' p n :
  reachable r w -> ph w = Liquidating -> tr w !! p = Some n -> state n = nodeStateCanceled ->
  steps w evs w' -> Forall plain_names evs -> ph w' = Liquidating.
Proof.
  intros Hr Hph Hp Hst Hs. revert n p Hr Hph Hp Hst.
  induction Hs as [w|w e w' evs w'' He _ IH]; intros n p Hr Hph Hp Hst Hpl; [done|]. apply Forall_cons in Hpl as [Hpl Hpls].
  destruct (canceled_stays w e w' p n (reachable_inv r w Hr) Hph Hp Hst He) as (Hph' & n' & Hp' & Hst').
  apply (IH n' p); [|done..]. eapply reach_step; [done..|].
  intros ->. inversion He; congruence.
Qed.

(** ** Executions *)

(** [a] of the group [a], [b] dies, [b] is canceled and returns, and the
    supervisor is shut down before either is restarted. *)
Definition shutdown_events : list event :=
  [ EvRequest (ReqSchedule "root"); EvRunGroup "root" [("a", 1); ("b", 2)];
    EvRequest (ReqSchedule "root.a"); EvRequest (ReqSchedule "root.b");
    EvReturn "root.a" (Some errOther); EvRequest (ReqDied "root.a" (Some errOther));
    EvReturn "root.b" (Some errCanceled); EvRequest (ReqDied "root.b" (Some errCanceled));
    EvDone ].

Lemma execs_check (P : world -> bool) w evs :
  match execs w evs with Some w' => P w' | None => false end = true ->
  exists w', steps w evs w' /\ P w' = true.
Proof.
  destruct (execs w evs) as [w'|] eqn:E; [|done]. intros H. exists w'. split; [|done].
  by apply execs_steps.
Qed.

Lemma shutdown_run :
  exists w n, steps (New 0) shutdown_events w /\ ph w = Liquidating /\
    tr w !! ["b"] = Some n /\ state n = nodeStateCanceled.
Proof.
  destruct (execs_check (fun w => in_phase (ph w) Liquidating &&
      bool_decide (state <$> tr w !! ["b"] = Some nodeStateCanceled)) (New 0) shutdown_events)
    as (w & Hs & [Hph Hb]%andb_true_iff); [vm_compute; reflexivity|].
  apply bool_decide_eq_true in Hb. destruct (tr w !! ["b"]) as [n|] eqn:E; [|done].
  injection Hb as Hb. exists w, n. split_and!; try done. by apply in_phase_eq.
Qed.

Lemma liquidator_stuck_witness :
  exists w, reachable 0 w /\ ph w = Liquidating /\
    forall evs w', steps w evs w' -> Forall plain_names evs -> ph w' = Liquidating.
Proof.
  destruct shutdown_run as (w & n & Hs & Hph & Hp & Hst).
  assert (reachable 0 w) as Hr.
  { apply (reachable_steps 0 (New 0) shutdown_events); [apply reach_new|exact Hs|by apply (bool_decide_unpack _)|].
    unfold shutdown_events. set_solver. }
  exists w. split; [exact Hr|]. split; [exact Hph|].
  intros evs w' Hs' Hpl. exact (liquidator_stuck 0 w evs w' ["b"] n Hr Hph Hp Hst Hs' Hpl).
Defined.

(** The child [a] signals DONE and is still running when the root dies and is
    restarted; [a] then returns. *)
Definition late_return_events : list event :=
  [ EvRequest (ReqSchedule "root"); EvRunGroup "root" [("a", 1)]; EvRequest (ReqSchedule "root.a");
    EvSignal "root.a" SignalHealthy; EvSignal "root.a" SignalDone;
    EvReturn "root" (Some errOther); EvRequest (ReqDied "root" (Some errOther));
    EvTick; EvReturn "root.a" None; EvRequest (ReqDied "root.a" None) ].

(** The garbage collector restarts a DEAD node over a DONE child without
    waiting for the child's goroutine.  When that goroutine returns, its DN is
    no longer in the tree and the processor panics, taking the whole
    supervisor down. *)
Theorem late_return_crash : exists w, steps (New 0) late_return_events w /\ ph w = Crashed.
Proof.
  destruct (execs_check (fun w => match ph w with Crashed => true | _ => false end) (New 0) late_return_events)
    as (w & Hs & Hph); [vm_compute; reflexivity|].
  exists w. split; [done|]. by destruct (ph w).
Qed.

(** The pattern for runnable names is not anchored, so [Run] accepts a name
    with a dot in it; the request to schedule the new node then panics the
    processor, because the DN of the node names a different path. *)
Definition dotted_events : list event :=
  [EvRequest (ReqSchedule "root"); EvRunGroup "root" [("a.b", 1)]; EvRequest (ReqSchedule "root.a.b")].

Theorem dotted_name_crash : exists w, steps (New 0) dotted_events w /\ ph w = Crashed.
Proof.
  destruct (execs_check (fun w => match ph w with Crashed => true | _ => false end) (New 0) dotted_events)
    as (w & Hs & Hph); [vm_compute; reflexivity|].
  exists w. split; [done|]. by destruct (ph w).
Qed.

(** The group [a], [b] is started; [a] fails, [b] is canceled, and both have been
    reported dead.  The garbage collector then restarts them. *)
Definition failure_events : list event := take 8 shutdown_events.
Definition restart_events : list event := [EvRequest (ReqSchedule "root.a"); EvRequest (ReqSchedule "root.b"); EvSignal "root.b" SignalHealthy].

Definition ran (w : world) (evs : list event) : world := default w (execs w evs).

Lemma ran_steps w evs : (if execs w evs is Some _ then true else false) = true -> steps w evs (ran w evs).
Proof. unfold ran. destruct (execs w evs) eqn:E; [|done]. intros _. by apply execs_steps. Qed.

Lemma quiet_root t : wants_restart (state_of t []) = false -> quiet t ["root"].
Proof.
  intros Hw p q (_ & (Hp & _) & _) Hs Hq%list_elem_of_singleton.
  assert (q = []) as ->.
  { destruct q as [|c q]; [done|]. apply (f_equal (fun s => ContainsByte s dot)) in Hq. cbn [dn] in Hq. rewrite ContainsByte_app in Hq.
    revert Hq. change (ContainsByte (String dot c) dot) with true. by rewrite orb_true_r. }
  apply suffix_nil_inv in Hs as ->. congruence.
Qed.

Definition collected : world := on_tick (ran (New 0) failure_events).
Definition restarted_world : world := ran collected restart_events.

Lemma restarted_reachable : reachable 0 restarted_world.
Proof.
  assert (reachable 0 (ran (New 0) failure_events)) as Hr.
  { eapply reachable_steps; [apply reach_new|apply ran_steps; by vm_compute|by apply (bool_decide_unpack _)|cbn; set_solver]. }
  eapply (reachable_steps 0 collected restart_events); [|apply ran_steps; by vm_compute|by apply (bool_decide_unpack _)|cbn; set_solver].
  eapply reach_step; [exact Hr|by apply step_tick; vm_compute|done|]. intros _ _.
  assert (outstanding (ran (New 0) failure_events) = ["root"]) as -> by (vm_compute; reflexivity).
  apply quiet_root. by vm_compute.
Qed.

Lemma supervisor_safe_witness :
  reachable 0 restarted_world /\ running restarted_world = ["root"; "root.a"; "root.b"] /\
  (state <$> tr restarted_world !! ["b"]) = Some nodeStateHealthy /\
  ph restarted_world <> Crashed /\ NoDup (outstanding restarted_world).
Proof.
  split; [exact restarted_reachable|]. split; [vm_compute; reflexivity|]. split; [vm_compute; reflexivity|].
  pose proof (supervisor_safe 0 restarted_world restarted_reachable) as (Hc & _ & Hn & _). exact (conj Hc Hn).
Defined.

End SupervisorProps.
