(* ===== verification/Etcd.v ===== *)
(** * The etcd key-value store

    The curator and the PKI keep all persistent state in etcd.  etcd itself is
    not part of the repository: this file states, as the class [Etcd], what the
    code relies on (transactions guarded by comparisons of revisions are atomic,
    a failed call may or may not have been applied), and gives a store in memory
    as an instance. *)

From S2P Require Import Prelude GoStrings.

Module Etcd.

(** A key's value, with the revisions of its creation and last change. *)
Record kv := mkKV { kv_value : string; kv_create : Z; kv_mod : Z }.
#[export] Instance kv_eq_dec : EqDecision kv.
Proof. solve_decision. Defined.

Abbreviation db := (gmap string kv).

(** The operations and comparisons of [clientv3] that the code uses.  Comparisons of a key are
    for equality, and an absent key has revision 0; the comparison of a range is that all
    revisions are less, where an empty range counts as revision 0. *)
Inductive op :=
| OpGet (key : string)
| OpGetRange (start stop : string)
| OpPut (key value : string)
| OpDelete (key : string).

Inductive cmp :=
| CreateRevision (key : string) (rev : Z)
| ModRevision (key : string) (rev : Z)
| ModRevisionRangeLess (start stop : string) (rev : Z).

Inductive opResp :=
| RespRange (kvs : list (string * kv))
| RespPut
| RespDelete.

(** Errors of the client: the context's deadline or cancelation, or any other. *)
Inductive clientErr := ErrDeadlineExceeded | ErrCanceled | ErrClient.
#[export] Instance clientErr_eq_dec : EqDecision clientErr.
Proof. solve_decision. Defined.

Inductive txnRes :=
| Committed (resps : list opResp)
| Rejected
| Failed (e : clientErr).

(** Revisions start at 1: comparing with 0 tests that the key is absent. *)
Definition rev_matches (found : option Z) (rev : Z) : bool :=
  match found with
  | None => bool_decide (rev = 0%Z)
  | Some r => bool_decide (r = rev) && bool_decide (rev <> 0%Z)
  end.
Definition in_range (start stop key : string) : bool :=
  string_leb start key && string_ltb key stop.

Definition key_le (a b : string * kv) : Prop := string_leb a.1 b.1 = true.
#[export] Instance key_le_dec : RelDecision key_le.
Proof. intros a b. unfold key_le. apply _. Defined.

(** The entries of a key range, in the order of the keys. *)
Definition range (d : db) (start stop : string) : list (string * kv) :=
  merge_sort key_le (map_to_list (filter (fun e => in_range start stop e.1 = true) d)).

Definition cmp_holds (d : db) (c : cmp) : bool :=
  match c with
  | CreateRevision key rev => rev_matches (kv_create <$> d !! key) rev
  | ModRevision key rev => rev_matches (kv_mod <$> d !! key) rev
  | ModRevisionRangeLess start stop rev =>
      match range d start stop with
      | [] => (0 <? rev)%Z
      | kvs => forallb (fun e => (kv_mod e.2 <? rev)%Z) kvs
      end
  end.

Definition put (r : Z) (d : db) (key value : string) : db :=
  <[key := mkKV value (default r (kv_create <$> d !! key)) r]> d.

(** One operation of a transaction that commits at revision [r]. *)
Definition apply_op (r : Z) (d : db) (o : op) : db * opResp :=
  match o with
  | OpGet key => (d, RespRange (match d !! key with Some e => [(key, e)] | None => [] end))
  | OpGetRange start stop => (d, RespRange (range d start stop))
  | OpPut key value => (put r d key value, RespPut)
  | OpDelete key => (delete key d, RespDelete)
  end.

Fixpoint apply_ops (r : Z) (d : db) (ops : list op) : db * list opResp :=
  match ops with
  | [] => (d, [])
  | o :: ops =>
      let '(d, x) := apply_op r d o in
      let '(d, xs) := apply_ops r d ops in
      (d, x :: xs)
  end.

(** The revision of a transaction is later than everything in the store. *)
Definition fresh_rev (d : db) (r : Z) : Prop :=
  (0 < r)%Z /\ forall k e, d !! k = Some e -> (kv_create e < r)%Z /\ (kv_mod e < r)%Z.

Definition holds (d : db) (cs : list cmp) : bool := forallb (cmp_holds d) cs.

(** What the code relies on. *)
Class Etcd := {
  estate : Type;
  content : estate -> db;
  txn : estate -> list cmp -> list op -> estate -> txnRes -> Prop;
  txn_committed s cs ops s' rs :
    txn s cs ops s' (Committed rs) ->
    holds (content s) cs = true /\
    exists r, fresh_rev (content s) r /\ apply_ops r (content s) ops = (content s', rs);
  txn_rejected s cs ops s' :
    txn s cs ops s' Rejected -> holds (content s) cs = false /\ content s' = content s;
  txn_failed s cs ops s' e :
    txn s cs ops s' (Failed e) ->
    content s' = content s \/
    holds (content s) cs = true /\
    exists r, fresh_rev (content s) r /\ content s' = (apply_ops r (content s) ops).1
}.

(** ** A store in memory *)

Record mem := mkMem { mem_db : db; mem_rev : Z }.

Definition mem_ok (m : mem) : Prop := fresh_rev (mem_db m) (mem_rev m + 1).

Definition mem_exec (m : mem) (cs : list cmp) (ops : list op) : mem * txnRes :=
  if holds (mem_db m) cs then
    let r := (mem_rev m + 1)%Z in
    let '(d, rs) := apply_ops r (mem_db m) ops in (mkMem d r, Committed rs)
  else (m, Rejected).

(** The store executes a transaction, or it fails before or after that. *)
Inductive mem_txn (m : mem) (cs : list cmp) (ops : list op) : mem -> txnRes -> Prop :=
| mem_txn_exec : mem_ok m ->
    mem_txn m cs ops (mem_exec m cs ops).1 (mem_exec m cs ops).2
| mem_txn_lost e : mem_txn m cs ops m (Failed e)
| mem_txn_unknown e : mem_ok m -> mem_txn m cs ops (mem_exec m cs ops).1 (Failed e).

#[export] Program Instance MemEtcd : Etcd := {|
  estate := mem;
  content := mem_db;
  txn := mem_txn
|}.
Next Obligation.
  intros m cs ops m' rs H. inversion H as [Hok E1 E2| |]. clear H. revert E1 E2.
  unfold mem_exec. destruct (holds (mem_db m) cs); [|done].
  destruct (apply_ops _ _ _) as [d rs'] eqn:E. simpl. intros <- [= ->].
  split; [done|]. exists (mem_rev m + 1)%Z. done.
Qed.
Next Obligation.
  intros m cs ops m' H. inversion H as [Hok E1 E2| |]. clear H. revert E1 E2.
  unfold mem_exec. destruct (holds (mem_db m) cs); [|by intros <- _].
  by destruct (apply_ops _ _ _).
Qed.
Next Obligation.
  intros m cs ops m' e H. inversion H as [Hok E1 E2| |e' Hok E1]; [|by left|].
  - clear H. revert E1 E2. unfold mem_exec. destruct (holds (mem_db m) cs); [|done].
    by destruct (apply_ops _ _ _).
  - clear H. revert E1. unfold mem_exec. destruct (holds (mem_db m) cs); [|intros <-; by left].
    destruct (apply_ops _ _ _) as [d rs'] eqn:E. simpl. intros <-. right. split; [done|].
    exists (mem_rev m + 1)%Z. by rewrite E.
Qed.

(** The store stays consistent. *)
Lemma apply_ops_fresh r d ops :
  fresh_rev d r -> fresh_rev (apply_ops r d ops).1 (r + 1).
Proof.
  intros [Hr Hd].
  assert (forall k e, d !! k = Some e -> (kv_create e <= r)%Z /\ (kv_mod e <= r)%Z) as H.
  { intros k e He. destruct (Hd k e He). lia. }
  clear Hd. cut (forall k e, (apply_ops r d ops).1 !! k = Some e -> (kv_create e <= r)%Z /\ (kv_mod e <= r)%Z).
  { intros H'. split; [lia|]. intros k e He. destruct (H' k e He). lia. }
  revert d H. induction ops as [|o ops IH]; intros d H; [done|]. simpl.
  destruct (apply_op r d o) as [d1 x] eqn:E1. destruct (apply_ops r d1 ops) as [d2 xs] eqn:E2.
  simpl. change d2 with (d2, xs).1. rewrite <- E2. apply IH.
  destruct o; simpl in E1; injection E1 as <- _; try done.
  - intros k e. unfold put. rewrite lookup_insert. case_decide; [|apply H].
    intros [= <-]. simpl. subst. destruct (d !! k) as [e'|] eqn:E; simpl; [|lia].
    destruct (H k e' E). lia.
  - intros k e. rewrite lookup_delete. case_decide; [done|apply H].
Qed.

Lemma mem_exec_ok m cs ops : mem_ok m -> mem_ok (mem_exec m cs ops).1.
Proof.
  intros H. unfold mem_exec. destruct (holds _ _); [|done].
  pose proof (apply_ops_fresh _ _ ops H) as Hf.
  destruct (apply_ops _ _ _) as [d rs] eqn:E. done.
Qed.

(** ** Revisions

    The revision of the store, as in the headers of responses: it grows with every
    transaction that changes the store, and bounds the revisions of all keys. *)
Class EtcdRevision {E : Etcd} := {
  storeValid : estate -> Prop;
  storeRevision : estate -> Z;
  revision_bound s k e : storeValid s -> content s !! k = Some e -> (kv_create e <= storeRevision s /\ kv_mod e <= storeRevision s)%Z;
  txn_valid s cs ops s' r : storeValid s -> txn s cs ops s' r -> storeValid s';
  txn_revision s cs ops s' r :
    storeValid s -> txn s cs ops s' r ->
    content s' = content s /\ (storeRevision s <= storeRevision s')%Z \/
    (storeRevision s < storeRevision s')%Z /\ holds (content s) cs = true /\ content s' = (apply_ops (storeRevision s') (content s) ops).1
}.

#[export] Program Instance MemRevision : EtcdRevision (E := MemEtcd) := {|
  storeValid := mem_ok;
  storeRevision := mem_rev
|}.
Next Obligation. intros m k e [_ Hm] Hk. destruct (Hm k e Hk). cbn. lia. Qed.
Next Obligation. intros m cs ops m' r Hm H. destruct H; [by apply mem_exec_ok|done|by apply mem_exec_ok]. Qed.
Next Obligation.
  intros m cs ops m' r Hm H. cbn.
  assert (forall m2, m2 = (mem_exec m cs ops).1 ->
    mem_db m2 = mem_db m /\ (mem_rev m <= mem_rev m2)%Z \/
    (mem_rev m < mem_rev m2)%Z /\ holds (mem_db m) cs = true /\ mem_db m2 = (apply_ops (mem_rev m2) (mem_db m) ops).1) as Hx.
  { intros m2 ->. unfold mem_exec. destruct (holds (mem_db m) cs) eqn:Eh; [|left; cbn; split; [done|lia]].
    destruct (apply_ops _ _ _) as [d rs] eqn:E. right. cbn. rewrite E. split; [lia|done]. }
  destruct H; [by apply Hx|left; split; [done|lia]|by apply Hx].
Qed.

(** ** The values of a store *)

(** [values] forgets the revisions. *)
Definition values (d : db) : gmap string string := kv_value <$> d.

(** Operations on values only. *)
Definition vapply_op (g : gmap string string) (o : op) : gmap string string :=
  match o with
  | OpGet _ | OpGetRange _ _ => g
  | OpPut key value => <[key := value]> g
  | OpDelete key => delete key g
  end.

Definition vapply (g : gmap string string) (ops : list op) : gmap string string :=
  foldl vapply_op g ops.

Lemma values_apply r d ops : values (apply_ops r d ops).1 = vapply (values d) ops.
Proof.
  revert d. induction ops as [|o ops IH]; intros d; [done|]. simpl.
  destruct (apply_op r d o) as [d1 x] eqn:E1. specialize (IH d1).
  destruct (apply_ops r d1 ops) as [d2 xs]. simpl in *. rewrite IH. f_equal.
  destruct o; simpl in E1; injection E1 as <- _; simpl; try done; unfold values.
  - unfold put. by rewrite fmap_insert.
  - by rewrite fmap_delete.
Qed.

(** The revision of creation is stable as long as the key exists. *)
Lemma apply_ops_create r d ops k e :
  (forall key, OpDelete key ∈ ops -> key <> k) ->
  d !! k = Some e -> kv_create <$> (apply_ops r d ops).1 !! k = Some (kv_create e).
Proof.
  revert d e. induction ops as [|o ops IH]; intros d e Hno Hk; [by simpl; rewrite Hk|]. simpl.
  destruct (apply_op r d o) as [d1 x] eqn:E1.
  assert (exists e1, d1 !! k = Some e1 /\ kv_create e1 = kv_create e) as (e1 & Hk1 & Hc).
  { destruct o; simpl in E1; injection E1 as <- _; eauto.
    - unfold put. rewrite lookup_insert. case_decide; [|eauto]. subst. rewrite Hk. simpl. eauto.
    - rewrite lookup_delete_ne; [eauto|]. apply (Hno key). by left. }
  specialize (IH d1 e1). destruct (apply_ops r d1 ops) as [d2 xs]. simpl in *.
  rewrite IH, Hc; [done| |done]. intros key Hin. apply (Hno key). by right.
Qed.

(** The keys an operation writes; all others are left alone. *)
Definition op_writes (o : op) : list string :=
  match o with OpPut k _ | OpDelete k => [k] | _ => [] end.

Lemma apply_ops_other r d ops k :
  k ∉ (ops ≫= op_writes) -> (apply_ops r d ops).1 !! k = d !! k.
Proof.
  revert d. induction ops as [|o ops IH]; intros d Hk; [done|]. simpl.
  rewrite bind_cons in Hk. apply not_elem_of_app in Hk as [Hk1 Hk2].
  destruct (apply_op r d o) as [d1 x] eqn:E1. specialize (IH d1 Hk2).
  destruct (apply_ops r d1 ops) as [d2 xs]. simpl in *. rewrite IH.
  destruct o; simpl in E1; injection E1 as <- _; simpl in Hk1; try done.
  - unfold put. rewrite lookup_insert_ne; [done|]. set_solver.
  - rewrite lookup_delete_ne; [done|]. set_solver.
Qed.

(** What a transaction does to a key. *)
Lemma apply_ops_cases r d ops k :
  (apply_ops r d ops).1 !! k = d !! k \/
  (exists e, (apply_ops r d ops).1 !! k = Some e /\ OpPut k (kv_value e) ∈ ops /\ kv_mod e = r /\
    (kv_create e = r \/ kv_create <$> d !! k = Some (kv_create e))) \/
  ((apply_ops r d ops).1 !! k = None /\ OpDelete k ∈ ops).
Proof.
  revert d. induction ops as [|o ops IH]; intros d; [by left|]. cbn [apply_ops].
  destruct (apply_op r d o) as [d1 x] eqn:E1. specialize (IH d1).
  destruct (apply_ops r d1 ops) as [d2 xs]. cbn [fst] in *.
  assert (d1 !! k = d !! k \/
    (exists e, d1 !! k = Some e /\ o = OpPut k (kv_value e) /\ kv_mod e = r /\ (kv_create e = r \/ kv_create <$> d !! k = Some (kv_create e))) \/
    (d1 !! k = None /\ o = OpDelete k)) as H1.
  { destruct o as [|? ?|k' v|k']; cbn in E1; injection E1 as <- _; [by left..| |].
    - unfold put. destruct (decide (k' = k)) as [->|Hn]; [|left; by apply lookup_insert_ne].
      right. left. eexists. split; [apply lookup_insert_eq|]. cbn. split_and!; [done..|]. destruct (d !! k); cbn; auto.
    - destruct (decide (k' = k)) as [->|Hn]; [|left; by apply lookup_delete_ne]. right. right. by rewrite lookup_delete_eq. }
  destruct IH as [IH|[(e & IH & Hin & Hm & Hc)|[IH Hin]]].
  - rewrite IH. destruct H1 as [H1|[(e & H1 & -> & Hm & Hc)|[H1 ->]]]; [by left| |].
    + right. left. exists e. split_and!; [done|by left|done..].
    + right. right. split; [done|by left].
  - right. left. exists e. split_and!; [done|by right|done|]. destruct Hc as [Hc|Hc]; [by left|].
    destruct H1 as [H1|[(e1 & H1 & _ & _ & Hc1)|[H1 _]]]; rewrite H1 in Hc; [by right| |done].
    cbn in Hc. injection Hc as Hc. by rewrite <- Hc.
  - right. right. split; [done|by right].
Qed.

Lemma elem_of_range d start stop k e : (k, e) ∈ range d start stop <-> d !! k = Some e /\ in_range start stop k = true.
Proof.
  unfold range. rewrite merge_sort_Permutation, elem_of_map_to_list, map_lookup_filter_Some. done.
Qed.

Lemma range_less d start stop rev k e :
  cmp_holds d (ModRevisionRangeLess start stop rev) = true -> d !! k = Some e -> in_range start stop k = true -> (kv_mod e < rev)%Z.
Proof.
  intros H Hk Hr. assert ((k, e) ∈ range d start stop) as Hin by (by apply elem_of_range).
  unfold cmp_holds in H. destruct (range d start stop) as [|x l]; [by apply not_elem_of_nil in Hin|].
  rewrite forallb_Forall_iff, Forall_forall in H. specialize (H _ Hin). cbn in H. by apply Z.ltb_lt in H.
Qed.

(** ** A state and an earlier one *)

Section later.
Context {E : Etcd} {ER : EtcdRevision}.

(** Since [s0], revisions have grown: keys that were not modified are as before, and those that were
    created have later revisions. *)
Record later (s0 s : estate) : Prop := {
  later_rev : (storeRevision s0 <= storeRevision s)%Z;
  later_mod k e : content s !! k = Some e -> (kv_mod e <= storeRevision s0)%Z -> content s0 !! k = Some e;
  later_create k e : content s !! k = Some e -> (kv_create e <= storeRevision s0)%Z -> kv_create <$> content s0 !! k = Some (kv_create e)
}.

Lemma later_refl s : later s s.
Proof. split; [lia|done|]. intros k e -> _. done. Qed.

Lemma later_trans s0 s1 s2 : later s0 s1 -> later s1 s2 -> later s0 s2.
Proof.
  intros [R1 M1 C1] [R2 M2 C2]. split; [lia| |].
  - intros k e Hk He. apply M1; [|done]. apply M2; [done|lia].
  - intros k e Hk He. assert (kv_create <$> content s1 !! k = Some (kv_create e)) as H1 by (apply C2; [done|lia]).
    destruct (content s1 !! k) as [e1|] eqn:H; [|done]. injection H1 as H1. rewrite <- H1. apply C1; [done|lia].
Qed.

Lemma later_txn s cs ops s' r : storeValid s -> txn s cs ops s' r -> later s s'.
Proof.
  intros Hv Ht. destruct (txn_revision _ _ _ _ _ Hv Ht) as [[Hc Hr]|(Hr & _ & Hc)].
  { split; [done|by rewrite Hc|]. intros k e. rewrite Hc. by intros -> _. }
  split; [lia| |]; intros k e Hk He; rewrite Hc in Hk; destruct (apply_ops_cases (storeRevision s') (content s) ops k) as [H|[(e' & H & _ & Hm & Hcr)|[H _]]];
    rewrite H in Hk; [done| |done| |injection Hk as <-|done].
  - injection Hk as <-. lia.
  - by rewrite Hk.
  - destruct Hcr; [lia|done].
Qed.

(** What a put that depends on [cs] does. *)
Lemma txn_put s cs k v s' r :
  storeValid s -> txn s cs [OpPut k v] s' r ->
  (forall k', k' <> k -> content s' !! k' = content s !! k') /\
  (content s' !! k = content s !! k \/ holds (content s) cs = true /\ kv_value <$> content s' !! k = Some v) /\
  (forall rs, r = Committed rs -> holds (content s) cs = true /\ kv_value <$> content s' !! k = Some v).
Proof.
  intros Hv Ht.
  assert (forall x k', k' <> k -> (apply_ops x (content s) [OpPut k v]).1 !! k' = content s !! k') as Hne.
  { intros x k' Hk. cbn. by apply lookup_insert_ne. }
  assert (forall x, kv_value <$> (apply_ops x (content s) [OpPut k v]).1 !! k = Some v) as Heq.
  { intros x. cbn. unfold put. by rewrite lookup_insert_eq. }
  split_and!.
  - intros k' Hk. destruct (txn_revision _ _ _ _ _ Hv Ht) as [[-> _]|(_ & _ & ->)]; [done|by apply Hne].
  - destruct (txn_revision _ _ _ _ _ Hv Ht) as [[-> _]|(_ & Hh & ->)]; [by left|right]. split; [done|apply Heq].
  - intros rs ->. apply txn_committed in Ht as (Hh & x & _ & Ha). split; [done|].
    specialize (Heq x). by rewrite Ha in Heq.
Qed.

Lemma txn_get s cs k s' r :
  storeValid s -> txn s cs [OpGet k] s' r ->
  content s' = content s /\ forall rs, r = Committed rs -> rs = [RespRange (match content s !! k with Some e => [(k, e)] | None => [] end)].
Proof.
  intros Hv Ht. split; [by destruct (txn_revision _ _ _ _ _ Hv Ht) as [[-> _]|(_ & _ & ->)]|].
  intros rs ->. apply txn_committed in Ht as (_ & x & _ & Ha). by injection Ha as _ <-.
Qed.

End later.

End Etcd.
