(* ===== verification/Interfaces.v ===== *)
(** * Interfaces of code outside the repository

    Protocol buffers, X.509 and textual network prefixes come from libraries.
    Each class states the documented behaviour that the curator and the PKI
    rely on; instances at the end of [CuratorExample] show that it can hold. *)

From S2P Require Import Prelude.

Module Interfaces.

(** [proto.Marshal] and [proto.Unmarshal] of a message type.  Marshaling can
    fail (strings that are not UTF-8); what was marshaled is read back. *)
Class Codec (M : Type) := {
  Marshal : M -> option string;
  Unmarshal : string -> option M;
  Unmarshal_Marshal m b : Marshal m = Some b -> Unmarshal b = Some m
}.

(** [crypto/x509]: parsed certificates and revocation lists.  [CertRaw] is the
    DER content a certificate was parsed from. *)
Class X509 := {
  Cert : Type;
  ParseCertificate : string -> option Cert;
  CertRaw : Cert -> string;
  CertPublicKey : Cert -> option string;
  CertDNSNames : Cert -> list string;
  CertSerial : Cert -> Z;
  CRLList : Type;
  ParseCRL : string -> option CRLList;
  Revoked : CRLList -> list Z;
  ParseCertificate_Raw d c : ParseCertificate d = Some c -> CertRaw c = d
}.

(** [net/netip]: addresses and prefixes as numbers, with their textual forms.
    Printing and parsing round trips. *)
Record Addr := mkAddr { addr_is4 : bool; addr_bits : N }.
#[export] Instance Addr_eq_dec : EqDecision Addr.
Proof. solve_decision. Defined.

Record Prefix := mkPrefix { prefix_addr : Addr; prefix_bits : N }.
#[export] Instance Prefix_eq_dec : EqDecision Prefix.
Proof. solve_decision. Defined.

Definition addr_len (a : Addr) : N := if addr_is4 a then 32 else 128.

Definition prefix_valid (p : Prefix) : Prop :=
  (prefix_bits p <= addr_len (prefix_addr p))%N /\
  (addr_bits (prefix_addr p) < 2 ^ addr_len (prefix_addr p))%N.

(** [Prefix.Masked]: the host bits cleared. *)
Definition Masked (p : Prefix) : Prefix :=
  let a := prefix_addr p in
  let host := (addr_len a - prefix_bits p)%N in
  mkPrefix (mkAddr (addr_is4 a) (N.shiftl (N.shiftr (addr_bits a) host) host)) (prefix_bits p).

(** [Prefix.Contains]. *)
Definition Contains (p : Prefix) (a : Addr) : bool :=
  let host := (addr_len (prefix_addr p) - prefix_bits p)%N in
  bool_decide (addr_is4 (prefix_addr p) = addr_is4 a) &&
  N.eqb (N.shiftr (addr_bits (prefix_addr p)) host) (N.shiftr (addr_bits a) host).

(** [Prefix.IsSingleIP]. *)
Definition IsSingleIP (p : Prefix) : bool := N.eqb (prefix_bits p) (addr_len (prefix_addr p)).

Class NetText := {
  ParsePrefix : string -> option Prefix;
  Prefix_String : Prefix -> string;
  Addr_String : Addr -> string;
  ParseIP : string -> bool;
  ParsePrefix_String p : prefix_valid p -> ParsePrefix (Prefix_String p) = Some p;
  ParsePrefix_valid s p : ParsePrefix s = Some p -> prefix_valid p;
  Prefix_String_nonempty p : Prefix_String p <> ""
}.

(** [wgtypes.ParseKey] and [Key.String]. *)
Class WireGuard := {
  wgKey : Type;
  ParseKey : string -> option wgKey;
  wgKey_String : wgKey -> string;
  wgKey_String_nonempty k : wgKey_String k <> ""
}.

End Interfaces.
