(* ===== verification/Effects.v ===== *)
(** * Programs with effects

    The RPC handlers of the curator and the certificate code call etcd, the
    random source, the clock and cryptographic primitives.  They are modelled
    as finite trees of effects ([prog]); [runs] relates a program to the
    outcomes it can have while other clients of etcd interfere between the
    calls, and [wp] is the weakest precondition of that relation. *)

From S2P Require Import Prelude GoStrings Etcd Interfaces.

Module Effects.
Import Etcd Interfaces.

(** ** Errors *)

(** The gRPC codes the code uses. *)
Inductive code :=
| Canceled | Unknown | InvalidArgument | DeadlineExceeded | NotFound | PermissionDenied
| FailedPrecondition | OutOfRange | Unimplemented | Internal | Unavailable | Unauthenticated.
#[export] Instance code_eq_dec : EqDecision code.
Proof. solve_decision. Defined.

(** Errors are gRPC statuses (the message is the format string of the source,
    without its arguments), other Go errors, or panics. *)
Inductive err :=
| Status (c : code) (msg : string)
| GoErr (msg : string)
| Panic.
#[export] Instance err_eq_dec : EqDecision err.
Proof. solve_decision. Defined.

(** ** Effects *)

(** The in-memory state of a [pki.Certificate]'s key material. *)
Record keys := mkKeys { pubKey : option string; privKey : option string }.

Section Effects.
Context {E : Etcd} {X : X509}.

(** [consensus.JoinCluster], what adding a member to the etcd cluster yields. *)
Record JoinCluster := mkJoin {
  jc_ca : Cert;
  jc_node : Cert;
  jc_crlRaw : string;
  jc_crl : CRLList;
  jc_existing : list (string * string)
}.

Inductive eff : Type -> Type :=
| ETxn (cs : list cmp) (ops : list op) : eff txnRes
| ERand (n : nat) : eff (option string)
| ERandInt : eff (option Z)
| ENow : eff Z
| EGenerateKey : eff (option (string * string))
| ECreateCertificate (isCA : bool) (dns : list string) (serial : Z) (pub : string)
    (parent : option Cert) (key : string) : eff (option string)
| ECreateCRL (cert : Cert) (key : string) (revoked : list Z) : eff (option string)
| EAddNode (pub : string) : eff (result err JoinCluster)
| ECacheGet : eff (option (gmap string string))
| ECachePut (c : gmap string string) : eff unit
| EHeartbeatGet (id : string) : eff (option Z)
| EHeartbeatStore (id : string) (t : Z) : eff unit
| ECAGet : eff keys
| ECAPut (k : keys) : eff unit
| ELockNodes : eff unit
| EUnlockNodes : eff unit.

Inductive prog (A : Type) :=
| Ret (a : A)
| Vis {B : Type} (e : eff B) (k : B -> prog A).
#[global] Arguments Ret {A} a.
#[global] Arguments Vis {A B} e k.

Fixpoint prog_bind {A B} (m : prog A) (k : A -> prog B) : prog B :=
  match m with
  | Ret a => k a
  | Vis e j => Vis e (fun x => prog_bind (j x) k)
  end.
#[export] Instance prog_mret : MRet prog := fun A a => Ret a.
#[export] Instance prog_mbind : MBind prog := fun A B k m => prog_bind m k.

Definition trigger {B} (e : eff B) : prog B := Vis e Ret.

(** A handler: a program that may return an error. *)
Abbreviation handler A := (prog (result err A)).

Definition try {A B} (m : handler A) (k : A -> handler B) : handler B :=
  prog_bind m (fun r => match r with Ok a => k a | Err e => Ret (Err e) end).

(** A pure fallible step. *)
Definition lift {A} (r : result err A) : handler A := Ret r.

(** ** Outcomes *)

(** The state a program runs in: etcd, and the process state of the curator
    (the cache of WireGuard keys, heartbeat timestamps, the keys of the CA), and
    whether the running program holds the lock on nodes. *)
Record world := mkWorld {
  es : estate;
  cache : option (gmap string string);
  heartbeats : gmap string Z;
  ca : keys;
  locked : bool
}.

Definition store (w : world) : db := content (es w).
Definition set_es s w := mkWorld s (cache w) (heartbeats w) (ca w) (locked w).
Definition set_cache c w := mkWorld (es w) c (heartbeats w) (ca w) (locked w).
Definition set_heartbeats h w := mkWorld (es w) (cache w) h (ca w) (locked w).
Definition set_ca k w := mkWorld (es w) (cache w) (heartbeats w) k (locked w).
Definition set_locked b w := mkWorld (es w) (cache w) (heartbeats w) (ca w) b.

Lemma store_set_es s w : store (set_es s w) = content s.
Proof. done. Qed.

(** What the rest of the system may do between two calls. *)
Variable R : world -> world -> Prop.

(** The possible outcomes of an effect.  The cryptographic primitives behave as
    documented: a certificate is made for the given key, names and serial, a
    revocation list holds the given serials. *)
Definition eff_step {B} (e : eff B) : world -> world -> B -> Prop :=
  match e in eff B return world -> world -> B -> Prop with
  | ETxn cs ops => fun w w' x =>
      exists w1 s, R w w1 /\ txn (es w1) cs ops s x /\ w' = set_es s w1
  | ERand n => fun w w' x => w' = w /\ forall s, x = Some s -> String.length s = n
  | ERandInt => fun w w' x => w' = w /\ forall n, x = Some n -> (0 <= n < 2 ^ 127)%Z
  | ENow => fun w w' _ => w' = w
  | EGenerateKey => fun w w' x =>
      w' = w /\ forall pub priv, x = Some (pub, priv) ->
        String.length pub = 32 /\ String.length priv = 64
  | ECreateCertificate isCA dns serial pub parent key => fun w w' x =>
      w' = w /\ forall der, x = Some der ->
        exists c, ParseCertificate der = Some c /\ CertPublicKey c = Some pub /\
          CertDNSNames c = dns /\ CertSerial c = serial
  | ECreateCRL cert key revoked => fun w w' x =>
      w' = w /\ forall der, x = Some der ->
        exists l, ParseCRL der = Some l /\ Revoked l = revoked
  | EAddNode pub => fun w w' x =>
      R w w' /\ forall jc, x = Ok jc ->
        ParseCertificate (CertRaw (jc_ca jc)) = Some (jc_ca jc) /\
        ParseCertificate (CertRaw (jc_node jc)) = Some (jc_node jc) /\
        ParseCRL (jc_crlRaw jc) = Some (jc_crl jc)
  | ECacheGet => fun w w' x => w' = w /\ x = cache w
  | ECachePut c => fun w w' _ => w' = set_cache (Some c) w
  | EHeartbeatGet id => fun w w' x => R w w' /\ x = heartbeats w' !! id
  | EHeartbeatStore id t => fun w w' _ =>
      exists w1, R w w1 /\ w' = set_heartbeats (<[id := t]> (heartbeats w1)) w1
  | ECAGet => fun w w' x => w' = w /\ x = ca w
  | ECAPut k => fun w w' _ => w' = set_ca k w
  | ELockNodes => fun w w' _ => exists w1, R w w1 /\ w' = set_locked true w1
  | EUnlockNodes => fun w w' _ => w' = set_locked false w
  end.

Inductive runs {A} : world -> prog A -> world -> A -> Prop :=
| runs_ret w a : runs w (Ret a) w a
| runs_vis w B (e : eff B) k w1 x w2 a :
    eff_step e w w1 x -> runs w1 (k x) w2 a -> runs w (Vis e k) w2 a.

Fixpoint wp {A} (p : prog A) (Q : world -> A -> Prop) (w : world) : Prop :=
  match p with
  | Ret a => Q w a
  | Vis e k => forall w1 x, eff_step e w w1 x -> wp (k x) Q w1
  end.

Lemma wp_runs {A} (p : prog A) Q w w' a : wp p Q w -> runs w p w' a -> Q w' a.
Proof.
  intros Hwp Hr. revert Q Hwp. induction Hr as [w a|w B e k w1 x w2 a Hs Hr IH]; intros Q Hwp.
  - done.
  - apply IH. by apply Hwp.
Qed.

Lemma wp_mono {A} (p : prog A) (Q Q' : world -> A -> Prop) w :
  (forall w a, Q w a -> Q' w a) -> wp p Q w -> wp p Q' w.
Proof.
  intros HQ. revert w. induction p as [a|B e k IH]; intros w H; simpl in *; [auto|].
  intros w1 x Hs. by apply IH, H.
Qed.

Lemma wp_ret {A} (a : A) (Q : world -> A -> Prop) w : Q w a -> wp (Ret a) Q w.
Proof. done. Qed.

Lemma wp_and {A} (p : prog A) (Q Q' : world -> A -> Prop) w :
  wp p Q w -> wp p Q' w -> wp p (fun w a => Q w a /\ Q' w a) w.
Proof.
  revert w. induction p as [a|B e k IH]; intros w H H'; simpl in *; [done|].
  intros w1 x Hs. apply IH; auto.
Qed.

Lemma wp_bind {A B} (p : prog A) (k : A -> prog B) Q w :
  wp p (fun w a => wp (k a) Q w) w -> wp (prog_bind p k) Q w.
Proof.
  revert w. induction p as [a|C e j IH]; intros w H; simpl in *; [done|].
  intros w1 x Hs. by apply IH, H.
Qed.

Lemma wp_try {A B} (m : handler A) (k : A -> handler B) Q w :
  wp m (fun w r => match r with Ok a => wp (k a) Q w | Err e => Q w (Err e) end) w ->
  wp (try m k) Q w.
Proof.
  intros H. apply wp_bind. eapply wp_mono; [|exact H]. by intros w' [a|e].
Qed.

(** ** Programs that only write certain keys

    [only P Q p]: whatever the outcomes of its effects, [p] writes no keys of
    etcd outside [P], touches neither the cache nor the lock, and returns a value
    in [Q]. *)

Definition eff_only (P : string -> Prop) {B} (e : eff B) : Prop :=
  match e with
  | ETxn _ ops => Forall P (ops ≫= op_writes)
  | ECachePut _ | ELockNodes | EUnlockNodes => False
  | _ => True
  end.

Fixpoint only {A} (P : string -> Prop) (Q : A -> Prop) (p : prog A) : Prop :=
  match p with
  | Ret a => Q a
  | Vis e k => eff_only P e /\ forall x, only P Q (k x)
  end.

Lemma only_bind {A B} P (Q : A -> Prop) (Q' : B -> Prop) p k :
  only P Q p -> (forall a, Q a -> only P Q' (k a)) -> only P Q' (prog_bind p k).
Proof.
  intros Hp Hk. induction p as [a|C e j IH]; simpl in *; [auto|].
  destruct Hp as [He Hp]. split; [done|]. intros x. by apply IH.
Qed.

Lemma only_mono {A} (P P' : string -> Prop) (Q Q' : A -> Prop) p :
  (forall k, P k -> P' k) -> (forall a, Q a -> Q' a) -> only P Q p -> only P' Q' p.
Proof.
  intros HP HQ. induction p as [a|C e j IH]; simpl; [auto|]. intros [He Hp].
  split; [|intros x; by apply IH]. destruct e; simpl in *; try done.
  eapply Forall_impl; [exact He|auto].
Qed.

(** ** Running a program deterministically *)

Fixpoint exec (h : forall B, eff B -> world -> world * B) {A} (p : prog A) (w : world) : world * A :=
  match p with
  | Ret a => (w, a)
  | Vis e k => let '(w, x) := h _ e w in exec h (k x) w
  end.

Lemma exec_runs h (I : world -> Prop) :
  (forall B (e : eff B) w, I w -> eff_step e w (h B e w).1 (h B e w).2 /\ I (h B e w).1) ->
  forall A (p : prog A) w, I w -> runs w p (exec h p w).1 (exec h p w).2 /\ I (exec h p w).1.
Proof.
  intros Hh A p. induction p as [a|B e k IH]; intros w Hw; simpl; [split; [constructor|done]|].
  destruct (Hh B e w Hw) as [Hs Hi]. destruct (h B e w) as [w1 x] eqn:Eh. simpl in *.
  destruct (IH x w1 Hi) as [Hr Hi']. split; [|done]. by econstructor.
Qed.

End Effects.

Arguments runs {E X} R {A} _ _ _ _.
Arguments wp {E X} R {A} _ _ _ : simpl never.
Arguments eff_step {E X} R {B} _ _ _ _.

(** With less interference there are fewer outcomes. *)
Lemma eff_step_rely `{E : Etcd} `{X : X509} (R R' : world -> world -> Prop) {B} (e : eff B) w w1 x :
  (forall w1 w2, R w1 w2 -> R' w1 w2) -> eff_step R e w w1 x -> eff_step R' e w w1 x.
Proof. intros HR. destruct e; simpl; try done; naive_solver. Qed.

Lemma wp_rely `{E : Etcd} `{X : X509} (R R' : world -> world -> Prop) {A} (p : prog A) (Q : world -> A -> Prop) w :
  (forall w1 w2, R w1 w2 -> R' w1 w2) -> wp R' p Q w -> wp R p Q w.
Proof.
  intros HR. revert w. induction p as [a|B e k IH]; intros w H; [exact H|]. intros w1 x Hs. apply IH, H. by eapply eff_step_rely.
Qed.

(** ** Programs that run at the same time

    An interleaving of a number of programs that share the world, with [R] what others may
    do.  A step is one effect. *)
Section Interleaving.
Context {E : Etcd} {X : X509} (R : world -> world -> Prop).

Inductive interleaves {A} : world -> list (prog A) -> world -> list (prog A) -> Prop :=
| interleaves_nil w ps : interleaves w ps w ps
| interleaves_step i w ps B (e : eff B) k w1 x w2 ps' :
    ps !! i = Some (Vis e k) -> eff_step R e w w1 x ->
    interleaves w1 (<[i := k x]> ps) w2 ps' -> interleaves w ps w2 ps'.

(** Effects that read nothing but etcd. *)
Definition eff_shared {B} (e : eff B) : Prop :=
  match e with
  | ETxn _ _ | ERand _ | ERandInt | ENow | EGenerateKey | ECreateCertificate _ _ _ _ _ _ | ECreateCRL _ _ _ => True
  | _ => False
  end.

(** Every step of [p] is one that [G] allows, whatever came before. *)
Fixpoint guarantees (G : world -> world -> Prop) {A} (p : prog A) : Prop :=
  match p with
  | Ret _ => True
  | Vis e k => eff_shared e /\ (forall w w1 x, eff_step G e w w1 x -> G w w1) /\ forall x, guarantees G (k x)
  end.

Lemma guarantees_bind G {A B} (p : prog A) (k : A -> prog B) :
  guarantees G p -> (forall a, guarantees G (k a)) -> guarantees G (prog_bind p k).
Proof. intros Hp Hk. induction p as [a|C e j IH]; simpl in *; [auto|]. destruct Hp as (? & ? & ?). split_and!; [done..|auto]. Qed.

Context (G : world -> world -> Prop) `{!PreOrder G} (HR : forall w w', R w w' -> G w w').

Lemma eff_step_stable {B} (e : eff B) w w' w1 x : eff_shared e -> G w w' -> eff_step G e w' w1 x ->
  eff_step G e w w1 x \/ (eff_step G e w w x /\ w1 = w').
Proof.
  intros He HG. destruct e; simpl in *; try done; [|naive_solver..].
  intros (w0 & s & H0 & Ht & ->). left. exists w0, s. split; [by etrans|done].
Qed.

Lemma wp_stable {A} (p : prog A) (Q : world -> A -> Prop) w w' : (forall w1 w2 a, G w1 w2 -> Q w1 a -> Q w2 a) ->
  guarantees G p -> wp G p Q w -> G w w' -> wp G p Q w'.
Proof.
  intros HQ. revert w w'. induction p as [a|B e k IH]; intros w w' Hp Hw HG; [by eapply HQ|]. destruct Hp as (He & Hs & Hk). intros w1 x Hx.
  destruct (eff_step_stable e w w' w1 x He HG Hx) as [H1|[H1 ->]]; [by apply Hw|]. apply (IH x w); [done|by apply Hw|done].
Qed.

(** Programs that keep to [G] and only rely on it can run at the same time. *)
Definition cooperates {A} (w : world) (p : prog A) (Q : world -> A -> Prop) : Prop :=
  (forall w1 w2 a, G w1 w2 -> Q w1 a -> Q w2 a) /\ guarantees G p /\ wp G p Q w.

Theorem interleaves_cooperates {A} (Qs : list (world -> A -> Prop)) w ps w' ps' :
  interleaves w ps w' ps' -> Forall2 (cooperates w) ps Qs -> Forall2 (cooperates w') ps' Qs.
Proof.
  induction 1 as [w ps|i w ps B e k w1 x w2 ps' Hi Hs _ IH]; intros Hps; [done|]. apply IH.
  destruct (Forall2_lookup_l _ _ _ _ _ Hps Hi) as (Q & HQi & HQ & (He & Hstep & Hk) & Hw). apply (eff_step_rely R G) in Hs; [|done].
  rewrite <- (list_insert_id Qs i Q) by done. apply Forall2_insert; [|split_and!; [done..|by apply Hw]].
  eapply Forall2_impl; [exact Hps|]. intros p Q' (HQ' & Hp & Hw'). split_and!; [done..|]. eapply wp_stable; [done..|by eapply Hstep].
Qed.

End Interleaving.

Abbreviation handler A := (prog (result err A)).

Notation "'let!' x := m 'in' k" := (try m (fun x => k))
  (at level 10, x pattern, m at level 100, k at level 200) : go_scope.
Notation "'call!' x := e 'in' k" := (Vis e (fun x => k))
  (at level 10, x pattern, e at level 100, k at level 200) : go_scope.
Notation "'check!' b 'else' e 'in' k" := (if b then k else Ret (Err e))
  (at level 10, b at level 100, e at level 100, k at level 200) : go_scope.

End Effects.
