(* ===== verification/Pki.v ===== *)
(** * Certificates in etcd

    Models [osbase/pki]: certificates whose keys and DER form are kept in etcd
    and created there on first use ([certificate.go], [ca.go]), and revocation
    lists ([crl.go]).  The Go code mutates the [Certificate] it is called on
    (and its issuer); here the operations return the updated certificate. *)

From S2P Require Import Prelude GoStrings Etcd Interfaces Effects.

Module Pki.
Import Etcd Interfaces Effects.

Inductive CertificateMode :=
| CertificateManaged
| CertificateExternal
| CertificateEphemeral
| CertificateMode_other (n : Z).
#[export] Instance CertificateMode_eq_dec : EqDecision CertificateMode.
Proof. solve_decision. Defined.

(** [Certificate].  Of the template, the fields the code looks at; an issuer
    of [None] is [SelfSigned]. *)
Inductive Certificate := mkCertificate {
  Namespace : string;
  Name : string;
  Template_IsCA : bool;
  Template_DNSNames : list string;
  Mode : CertificateMode;
  PubKey : option string;
  PrivKey : option string;
  Issuer : option Certificate
}.

Definition set_keys (pub priv : option string) (c : Certificate) : Certificate :=
  mkCertificate (Namespace c) (Name c) (Template_IsCA c) (Template_DNSNames c) (Mode c) pub priv (Issuer c).
Definition set_isCA (b : bool) (c : Certificate) : Certificate :=
  mkCertificate (Namespace c) (Name c) b (Template_DNSNames c) (Mode c) (PubKey c) (PrivKey c) (Issuer c).
Definition set_issuer (i : option Certificate) (c : Certificate) : Certificate :=
  mkCertificate (Namespace c) (Name c) (Template_IsCA c) (Template_DNSNames c) (Mode c) (PubKey c) (PrivKey c) i.

(** The number of issuers above a certificate. *)
Fixpoint depth (c : Certificate) : nat :=
  match c with
  | mkCertificate _ _ _ _ _ _ _ None => 0
  | mkCertificate _ _ _ _ _ _ _ (Some i) => S (depth i)
  end.

(** The etcd paths of a certificate. *)
Definition certPath (c : Certificate) : string := Namespace c +:+ "issued/" +:+ Name c +:+ "-cert.der".
Definition privPath (c : Certificate) : string := Namespace c +:+ "keys/" +:+ Name c +:+ "-privkey.bin".
Definition crlPath (c : Certificate) : string := Namespace c +:+ Name c +:+ "-crl.der".

Definition errFuel : err := GoErr "out of fuel".

Section Pki.
Context {E : Etcd} {X : X509}.
(** [PrivateKey.Public] of [crypto/ed25519]. *)
Context (Public : string -> string).

(** Programs that update a certificate. *)
Definition withCert {A B} (m : prog (Certificate * result err A))
    (k : Certificate -> A -> prog (Certificate * result err B)) : prog (Certificate * result err B) :=
  prog_bind m (fun cr => match cr.2 with Ok a => k cr.1 a | Err e => Ret (cr.1, Err e) end).
Notation "'do!' c , x := m 'in' k" := (withCert m (fun c x => k))
  (at level 10, c binder, x pattern, m at level 100, k at level 200).

(** [kv.Get]. *)
Definition kvGet (msg path : string) : prog (result err (list (string * kv))) :=
  call! r := ETxn [] [OpGet path] in
  Ret match r with Committed (RespRange kvs :: _) => Ok kvs | _ => Err (GoErr msg) end.

(** A transaction that creates a key: [None] for an error of the client. *)
Definition kvCreate (path value : string) : prog (option bool) :=
  call! r := ETxn [CreateRevision path 0] [OpPut path value] in
  Ret match r with Committed _ => Some true | Rejected => Some false | Failed _ => None end.

(** [issueCertificate]. *)
Definition issueCertificate (req : Certificate) (parent : option Cert) (caKey : string)
    : prog (result err string) :=
  call! serial := ERandInt in
  match serial with
  | None => Ret (Err (GoErr "failed to generate serial number: %w"))
  | Some serial =>
      call! now := ENow in
      call! der := ECreateCertificate (Template_IsCA req) (Template_DNSNames req) serial
                     (default "" (PubKey req)) parent caKey in
      Ret match der with Some der => Ok der | None => Err (GoErr "x509: create certificate") end
  end.

(** The end of [ensure] for a certificate that is kept in etcd: load it, or
    issue and save it. *)
Definition loadOrIssue (issue : Certificate -> prog (Certificate * result err string)) (c : Certificate)
    : prog (Certificate * result err string) :=
  prog_bind (kvGet "failed to get certificate from etcd: %w" (certPath c)) (fun r =>
  match r with
  | Err e => Ret (c, Err e)
  | Ok [(_, e)] =>
      Ret (c, match ParseCertificate (kv_value e) with
              | None => Err (GoErr "failed to parse certificate retrieved from etcd: %w")
              | Some cert =>
                  match CertPublicKey cert with
                  | None => Err (GoErr "unexpected non-ed25519 certificate found in etcd")
                  | Some pk =>
                      guard! bool_decide (pk = default "" (PubKey c))
                      else GoErr "certificate stored in etcd emitted for different public key" in
                      Ok (kv_value e)
                  end
              end)
  | Ok _ =>
      do! c, cert := issue c in
      prog_bind (kvCreate (certPath c) cert) (fun r =>
      Ret (c, match r with
              | None => Err (GoErr "failed to write newly issued certificate: %w")
              | Some false => Err (GoErr "certificate issuance transaction failed: concurrent write")
              | Some true => Ok cert
              end))
  end).

(** The end of [ensureKey] for a managed key that is not in etcd yet: generate
    and save it, together with an empty revocation list. *)
Definition generateKey (makeCRL : Certificate -> list Z -> prog (Certificate * result err string)) (c : Certificate)
    : prog (Certificate * result err unit) :=
  call! k := EGenerateKey in
  match k with
  | None => Ret (c, Err (GoErr "while generating keypair: %w"))
  | Some (pub, priv) =>
      prog_bind (kvCreate (privPath c) priv) (fun r =>
      match r with
      | None => Ret (c, Err (GoErr "failed to write newly generated keypair: %w"))
      | Some false => Ret (c, Err (GoErr "key generation transaction failed: concurrent write"))
      | Some true =>
          do! c, emptyCRL := makeCRL c [] in
          prog_bind (kvCreate (crlPath c) emptyCRL) (fun r =>
          match r with
          | None => Ret (c, Err (GoErr "failed to upsert empty CRL"))
          | Some _ => Ret (set_keys (Some pub) (Some priv) c, Ok tt)
          end)
      end)
  end.

(** [ensure] with its callees. *)
Definition ensureBody (ensureKey : Certificate -> prog (Certificate * result err unit))
    (issue : Certificate -> prog (Certificate * result err string)) (c : Certificate) : prog (Certificate * result err string) :=
  do! c, _ := ensureKey c in
  match Mode c with
  | CertificateEphemeral => issue c
  | CertificateMode_other _ => Ret (c, Err (GoErr "invalid certificate mode %v"))
  | CertificateManaged | CertificateExternal =>
      if bool_decide (Name c = "") then
        Ret (c, Err (if bool_decide (Mode c = CertificateExternal)
                     then GoErr "external certificate must have name set"
                     else GoErr "managed certificate must have name set"))
      else
        loadOrIssue issue c
  end.

(** [ensureKey] for a certificate without a public key. *)
Definition ensureKeyBody (makeCRL : Certificate -> list Z -> prog (Certificate * result err string)) (c : Certificate)
    : prog (Certificate * result err unit) :=
  match Mode c with
  | CertificateEphemeral =>
      call! k := EGenerateKey in
      match k with
      | None => Ret (c, Err (GoErr "when generating ephemeral key: %w"))
      | Some (pub, priv) => Ret (set_keys (Some pub) (Some priv) c, Ok tt)
      end
  | CertificateExternal =>
      Ret (c, Err (match PrivKey c with
                   | Some _ => GoErr "external certificate must not have PrivateKey set"
                   | None => GoErr "external certificate must have PublicKey set"
                   end))
  | CertificateMode_other _ => Ret (c, Err (GoErr "invalid certificate mode %v"))
  | CertificateManaged =>
      if bool_decide (Name c = "") then Ret (c, Err (GoErr "managed certificate must have Name set"))
      else
        prog_bind (kvGet "failed to get private key from etcd: %w" (privPath c)) (fun r =>
        match r with
        | Err e => Ret (c, Err e)
        | Ok [(_, e)] =>
            if bool_decide (String.length (kv_value e) = 64)
            then Ret (set_keys (Some (Public (kv_value e))) (Some (kv_value e)) c, Ok tt)
            else Ret (c, Err (GoErr "stored private key has invalid size"))
        | Ok _ => generateKey makeCRL c
        end)
  end.

(** [Issue] of a certificate and of the self-signed issuer. *)
Definition issueBody (ensure : Certificate -> prog (Certificate * result err string))
    (ensureKey : Certificate -> prog (Certificate * result err unit)) (req : Certificate) : prog (Certificate * result err string) :=
  match Issuer req with
  | None =>
      do! req, _ := ensureKey req in
      match PrivKey req with
      | None => Ret (req, Err (GoErr "cannot issue self-signed certificate without a private key"))
      | Some key => prog_bind (issueCertificate req None key) (fun r => Ret (req, r))
      end
  | Some c =>
      prog_bind (ensureKey c) (fun cr =>
      let '(c, r) := cr in
      let req := set_issuer (Some c) req in
      match r with
      | Err e => Ret (req, Err e)
      | Ok _ =>
          do! req, _ := ensureKey req in
          match PrivKey c with
          | None => Ret (req, Err (GoErr "cannot use certificate without private key as CA"))
          | Some caKey =>
              prog_bind (ensure c) (fun cr =>
              let '(c, r) := cr in
              let req := set_issuer (Some c) req in
              match r with
              | Err e => Ret (req, Err e)
              | Ok caCert =>
                  match ParseCertificate caCert with
                  | None => Ret (req, Err (GoErr "could not parse CA certificate: %w"))
                  | Some ca =>
                      let req := set_isCA false req in
                      prog_bind (issueCertificate req (Some ca) caKey) (fun r => Ret (req, r))
                  end
              end)
          end
      end)
  end.

Definition makeCRLBody (ensure : Certificate -> prog (Certificate * result err string)) (c : Certificate) (revoked : list Z)
    : prog (Certificate * result err string) :=
  if negb (bool_decide (Mode c = CertificateManaged))
  then Ret (c, Err (GoErr "only managed certificates can issue CRLs"))
  else
    do! c, certBytes := ensure c in
    match ParseCertificate certBytes with
    | None => Ret (c, Err (GoErr "when parsing issuing certificate: %w"))
    | Some cert =>
        call! now := ENow in
        call! crl := ECreateCRL cert (default "" (PrivKey c)) revoked in
        Ret (c, match crl with Some crl => Ok crl | None => Err (GoErr "failed to generate CRL: %w") end)
    end.

(** [ensure], [ensureKey], the two implementations of [Issuer.Issue] and
    [makeCRL] call each other; [fuel] bounds the depth of the calls. *)
Fixpoint ensure (fuel : nat) (c : Certificate) : prog (Certificate * result err string) :=
  match fuel with
  | O => Ret (c, Err errFuel)
  | S fuel => ensureBody (ensureKey fuel) (issue fuel) c
  end
with ensureKey (fuel : nat) (c : Certificate) : prog (Certificate * result err unit) :=
  match PubKey c with
  | Some _ => Ret (c, Ok tt)
  | None =>
      match fuel with
      | O => Ret (c, Err errFuel)
      | S fuel => ensureKeyBody (makeCRL fuel) c
      end
  end
with issue (fuel : nat) (req : Certificate) : prog (Certificate * result err string) :=
  match fuel with
  | O => Ret (req, Err errFuel)
  | S fuel => issueBody (ensure fuel) (ensureKey fuel) req
  end
with makeCRL (fuel : nat) (c : Certificate) (revoked : list Z) : prog (Certificate * result err string) :=
  match fuel with
  | O => Ret (c, Err errFuel)
  | S fuel => makeCRLBody (ensure fuel) c revoked
  end.

(** One more call. *)
Ltac open_bodies := cbn [ensure ensureKey issue makeCRL]; unfold ensureBody, ensureKeyBody, issueBody, makeCRLBody.

(** [Ensure], with enough fuel for the chain of issuers ([ensure_enough]). *)
Definition Ensure (c : Certificate) : prog (Certificate * result err string) :=
  ensure (4 * depth c + 5) c.

(** [Revoke].  The receiver is a copy of the certificate, so key material that
    is loaded on the way is dropped at the end. *)
Definition certs_of (c : Certificate) (kvs : list (string * kv)) : option (list Cert) :=
  mapM (fun e => ParseCertificate (kv_value e.2)) (filter (fun e => e.1 <> crlPath c) kvs).

Definition Revoke (c : Certificate) (hostname : string) : prog (result err unit) :=
  call! res := ETxn [] [OpGet (crlPath c);
                        OpGetRange (Namespace c +:+ "issued/") (Namespace c +:+ "issued0")] in
  match res with
  | Committed [RespRange kvs1; RespRange kvs2] =>
      let kvs := kvs1 ++ kvs2 in
      match last (filter (fun e => e.1 = crlPath c) kvs) with
      | None =>
          Ret (Err (match certs_of c kvs with
                    | None => GoErr "could not parse certificate %q from etcd: %w"
                    | Some _ => GoErr "could not find CRL in etcd"
                    end))
      | Some (_, e) =>
          match ParseCRL (kv_value e) with
          | None => Ret (Err (GoErr "could not parse CRL from etcd: %w"))
          | Some crl =>
              match certs_of c kvs with
              | None => Ret (Err (GoErr "could not parse certificate %q from etcd: %w"))
              | Some certs =>
                  match List.find (fun cert => bool_decide (hostname ∈ CertDNSNames cert)) certs with
                  | None => Ret (Err (GoErr "could not find requested hostname"))
                  | Some cert =>
                      if bool_decide (CertSerial cert ∈ Revoked crl) then Ret (Ok tt)
                      else
                        prog_bind (makeCRL (4 * depth c + 7) c (Revoked crl ++ [CertSerial cert])) (fun cr =>
                        match cr.2 with
                        | Err e => Ret (Err (GoErr "when generating new CRL for revocation: %w"))
                        | Ok crlRaw =>
                            call! r := ETxn [CreateRevision (crlPath c) (kv_create e)]
                                            [OpPut (crlPath c) crlRaw] in
                            Ret match r with
                                | Failed _ => Err (GoErr "when saving new CRL: %w")
                                | Rejected => Err (GoErr "CRL save transaction failed, retry possible")
                                | Committed _ => Ok tt
                                end
                        end)
                  end
              end
          end
      end
  | _ => Ret (Err (GoErr "failed to retrieve certificates and CRL from etcd: %w"))
  end.

(** ** Only additions *)

(** The keys that are only ever created. *)
Context (mine : string -> Prop).

(** Every entry of [d] at such a key is still there, unchanged. *)
Definition grows (d d' : db) : Prop := forall k e, mine k -> d !! k = Some e -> d' !! k = Some e.

Lemma grows_refl d : grows d d.
Proof. by intros k e. Qed.
Lemma grows_trans d1 d2 d3 : grows d1 d2 -> grows d2 d3 -> grows d1 d3.
Proof. intros H1 H2 k e Hm Hk. by apply H2, H1. Qed.
#[export] Instance grows_preorder : PreOrder grows.
Proof. split; [exact grows_refl|exact grows_trans]. Qed.

Context (R : world -> world -> Prop).
Context (HR : forall w w', R w w' -> grows (store w) (store w')).

Lemma wp_kvGet msg path (Q : world -> result err (list (string * kv)) -> Prop) w :
  (forall w' r, grows (store w) (store w') ->
     (forall kvs, r = Ok kvs -> kvs = match store w' !! path with Some e => [(path, e)] | None => [] end) ->
     (forall e, r = Err e -> e = GoErr msg) -> Q w' r) ->
  wp R (kvGet msg path) Q w.
Proof.
  intros HQ. intros w1 res (w0 & s & HRw & Ht & ->). apply HR in HRw.
  assert (content s = store w0) as Es.
  { destruct res as [rs| |e].
    - apply txn_committed in Ht as (_ & r & _ & [= E1 _]). by rewrite <- E1.
    - by apply txn_rejected in Ht as [_ ->].
    - by apply txn_failed in Ht as [->|(_ & r & _ & ->)]. }
  apply HQ; rewrite ?store_set_es, ?Es; [done| |].
  - intros kvs. destruct res as [rs| |e]; try done.
    apply txn_committed in Ht as (_ & r & _ & [= _ <-]). simpl. by intros [= <-].
  - intros e. repeat case_match; by intros [= <-].
Qed.

Lemma put_new w path value r : holds (store w) [CreateRevision path 0] = true -> grows (store w) (put r (store w) path value).
Proof.
  intros Hh k e _ Hk. unfold put. rewrite lookup_insert_ne; [done|]. intros ->.
  apply andb_true_iff in Hh as [Hh _]. simpl in Hh. rewrite Hk in Hh. simpl in Hh. by rewrite andb_false_r in Hh.
Qed.

Lemma wp_kvCreate path value (Q : world -> option bool -> Prop) w :
  (forall w' r, grows (store w) (store w') ->
     (r = Some true -> kv_value <$> store w' !! path = Some value) -> Q w' r) ->
  wp R (kvCreate path value) Q w.
Proof.
  intros HQ. intros w1 res (w0 & s & HRw & Ht & ->). apply HR in HRw.
  destruct res as [rs| |e].
  - apply txn_committed in Ht as (Hh & r & _ & [= E1 _]). apply HQ; rewrite store_set_es, <- E1.
    + etrans; [done|]. by apply put_new.
    + intros _. unfold put. by rewrite lookup_insert_eq.
  - apply txn_rejected in Ht as [_ E1]. apply HQ; [|done]. by rewrite store_set_es, E1.
  - apply HQ; [|done]. apply txn_failed in Ht as [E1|(Hh & r & _ & E1)]; rewrite store_set_es, E1.
    + done.
    + etrans; [done|]. by apply put_new.
Qed.

(** ** What the operations establish *)

(** The names of a certificate and its issuers. *)
Fixpoint names (c : Certificate) : list (string * string) :=
  match c with
  | mkCertificate ns name _ _ _ _ _ i => (ns, name) :: match i with None => [] | Some i => names i end
  end.

(** The identity of a certificate, and a key it already has, are kept. *)
Definition frame (c c' : Certificate) : Prop :=
  Namespace c' = Namespace c /\ Name c' = Name c /\ Mode c' = Mode c /\ names c' = names c /\
  forall p, PubKey c = Some p -> PubKey c' = Some p.

#[local] Instance frame_preorder : PreOrder frame.
Proof.
  split; [done|]. intros c1 c2 c3 (? & ? & ? & ? & ?) (? & ? & ? & ? & ?).
  unfold frame. split_and!; [congruence..|]. auto.
Qed.

Lemma depth_Issuer c : depth c = match Issuer c with None => 0 | Some i => S (depth i) end.
Proof. by destruct c as [? ? ? ? ? ? ? []]. Qed.

Lemma names_Issuer c :
  names c = (Namespace c, Name c) :: match Issuer c with None => [] | Some i => names i end.
Proof. by destruct c as [? ? ? ? ? ? ? []]. Qed.
Fixpoint depth_names c : depth c = pred (length (names c)).
Proof.
  destruct c as [ns name isCA dns m pub priv [i|]]; simpl; [|done]. rewrite (depth_names i).
  by destruct i.
Qed.
Lemma frame_depth c c' : frame c c' -> depth c' = depth c.
Proof. intros (_ & _ & _ & Hn & _). by rewrite !depth_names, Hn. Qed.

Lemma frame_keys c pub priv : PubKey c = None -> frame c (set_keys pub priv c).
Proof. intros H. unfold frame. split_and!; try done; [|by rewrite H]. by rewrite !names_Issuer. Qed.
Lemma frame_issuer c i i' : Issuer c = Some i -> frame i i' -> frame c (set_issuer (Some i') c).
Proof.
  intros Hi (_ & _ & _ & Hd & _). unfold frame. split_and!; try done.
  rewrite (names_Issuer c), Hi, names_Issuer. simpl. by rewrite Hd.
Qed.
Lemma frame_isCA c b : frame c (set_isCA b c).
Proof. unfold frame. split_and!; try done. by rewrite !names_Issuer. Qed.

Lemma frame_reissue c c2 ca ca1 ca3 :
  Issuer c = Some ca -> frame ca ca1 -> frame ca1 ca3 -> frame c c2 -> frame c (set_issuer (Some ca3) c2).
Proof.
  intros Hi (_ & _ & _ & Hd1 & _) (_ & _ & _ & Hd3 & _) (H1 & H2 & H3 & _ & H5).
  unfold frame. split_and!; try done. rewrite (names_Issuer c), Hi, names_Issuer. simpl. by rewrite H1, H2, Hd3, Hd1.
Qed.

Lemma frame_paths c c' : frame c c' -> certPath c' = certPath c /\ privPath c' = privPath c.
Proof. intros (H1 & H2 & _). unfold certPath, privPath. by rewrite H1, H2. Qed.

(** [cert] is the DER form of a certificate for the public key of [c]. *)
Definition cert_for (cert : string) (c : Certificate) : Prop :=
  is_Some (PubKey c) /\ exists x, ParseCertificate cert = Some x /\ CertPublicKey x = PubKey c.

Lemma cert_for_frame cert c c' : frame c c' -> cert_for cert c -> cert_for cert c'.
Proof.
  intros (_ & _ & _ & _ & H) [[p Hp] (x & Hx & Hk)]. pose proof (H p Hp) as Hp'.
  split; [by rewrite Hp'|]. exists x. by rewrite Hk, Hp', Hp.
Qed.

Definition stored (w : world) (path value : string) : Prop :=
  kv_value <$> store w !! path = Some value.

Lemma stored_grows w w' path value :
  mine path -> grows (store w) (store w') -> stored w path value -> stored w' path value.
Proof.
  intros Hm Hg. unfold stored. destruct (store w !! path) as [e|] eqn:He; [|done].
  by rewrite (Hg _ _ Hm He).
Qed.

Definition key_post (c : Certificate) (w w' : world) (cr : Certificate * result err unit) : Prop :=
  grows (store w) (store w') /\ frame c cr.1 /\ (cr.2 = Ok tt -> is_Some (PubKey cr.1)).
Definition issue_post (c : Certificate) (w w' : world) (cr : Certificate * result err string) : Prop :=
  grows (store w) (store w') /\ frame c cr.1 /\ forall cert, cr.2 = Ok cert -> cert_for cert cr.1.
Definition ensure_post (c : Certificate) (w w' : world) (cr : Certificate * result err string) : Prop :=
  grows (store w) (store w') /\ frame c cr.1 /\
  forall cert, cr.2 = Ok cert -> cert_for cert cr.1 /\
    (Mode c = CertificateManaged \/ Mode c = CertificateExternal -> stored w' (certPath c) cert).
Definition crl_post (c : Certificate) (w w' : world) (cr : Certificate * result err string) : Prop :=
  grows (store w) (store w') /\ frame c cr.1.

Lemma wp_withCert {A B} (m : prog (Certificate * result err A))
    (k : Certificate -> A -> prog (Certificate * result err B)) Q w :
  wp R m (fun w cr => match cr.2 with Ok a => wp R (k cr.1 a) Q w | Err e => Q w (cr.1, Err e) end) w ->
  wp R (withCert m k) Q w.
Proof. intros H. apply wp_bind. eapply wp_mono; [|exact H]. by intros w' [c' [a|e]]. Qed.

Lemma issueCertificate_spec c parent key (Q : world -> result err string -> Prop) w :
  is_Some (PubKey c) ->
  (forall r, (forall cert, r = Ok cert -> cert_for cert c) -> Q w r) ->
  wp R (issueCertificate c parent key) Q w.
Proof.
  intros Hk HQ. unfold issueCertificate. intros w1 serial [-> _]. destruct serial as [serial|]; [|by apply HQ].
  intros w2 now ->. intros w3 der [-> Hder]. apply HQ. intros cert Hc.
  destruct der as [der|]; [|done]. injection Hc as <-. split; [done|].
  destruct (Hder der eq_refl) as (x & Hx & Hpk & _). exists x. split; [done|].
  rewrite Hpk. by destruct Hk as [p ->].
Qed.

(** Specifications of the four mutually recursive operations at a fuel. *)
Definition specs (n : nat) : Prop :=
  (forall c w, wp R (ensure n c) (ensure_post c w) w) /\
  (forall c w, wp R (ensureKey n c) (key_post c w) w) /\
  (forall c w, wp R (issue n c) (issue_post c w) w) /\
  (forall c rv w, wp R (makeCRL n c rv) (crl_post c w) w).

Lemma generateKey_spec mk c w w1 :
  (forall c rv w, wp R (mk c rv) (crl_post c w) w) -> PubKey c = None ->
  grows (store w) (store w1) -> wp R (generateKey mk c) (key_post c w) w1.
Proof.
  intros Hcrl Hp Hg1. unfold generateKey. intros w2 k [-> _].
  destruct k as [[pub priv]|]; [|split; [done|]; done].
  apply wp_bind, wp_kvCreate. intros w3 r Hg3 _. assert (grows (store w) (store w3)) by (by etrans).
  destruct r as [[]|]; [|split; [done|]; done..].
  apply wp_withCert. eapply wp_mono; [|apply Hcrl]. intros w4 [c' [crl|e]] [Hg4 Hf]; cbn [fst snd] in *.
  - apply wp_bind, wp_kvCreate. intros w5 r Hg5 _.
    assert (grows (store w) (store w5)) by (by repeat (etrans; [eassumption|])).
    destruct r; (split; [done|]); [|done]. split; [|eauto].
    destruct Hf as (? & ? & ? & Hd & _). unfold frame. simpl. split_and!; try done; [|by rewrite Hp].
    rewrite <- Hd. by rewrite !names_Issuer.
  - split; [by etrans|]. done.
Qed.

Lemma ensureKey_step n : specs n -> forall c w, wp R (ensureKey (S n) c) (key_post c w) w.
Proof.
  intros (_ & _ & _ & Hcrl) c w. open_bodies.
  destruct (PubKey c) as [p|] eqn:Hp.
  { split; [reflexivity|]. split; [reflexivity|]. by cbn; rewrite Hp. }
  assert (forall w' e, grows (store w) (store w') -> key_post c w w' (c, Err e)) as Herr.
  { intros w' e Hg. split; [done|]. split; [reflexivity|done]. }
  assert (forall w' pub priv, grows (store w) (store w') ->
    key_post c w w' (set_keys (Some pub) (Some priv) c, Ok tt)) as Hset.
  { intros w' pub priv Hg. split; [done|]. split; [by apply frame_keys|eauto]. }
  destruct (Mode c).
  - case_bool_decide; [by apply Herr|]. apply wp_bind, wp_kvGet. intros w1 r Hg1 Hr _.
    destruct r as [[|[k0 e] [|? ?]]|e]; [by apply generateKey_spec| |by apply generateKey_spec|by apply Herr].
    case_bool_decide; [by apply Hset|by apply Herr].
  - by apply Herr.
  - intros w1 k [-> _]. destruct k as [[pub priv]|]; [by apply Hset|by apply Herr].
  - by apply Herr.
Qed.

Lemma issue_step n : specs n -> forall c w, wp R (issue (S n) c) (issue_post c w) w.
Proof.
  intros (Hens & Hkey & _ & _) c w. open_bodies. destruct (Issuer c) as [ca|] eqn:Hi.
  - apply wp_bind. eapply wp_mono; [|apply Hkey]. intros w1 [ca1 [[]|e]] (Hg1 & Hf1 & Hk1); cbn [fst snd] in *.
    2:{ split; [done|]. split; [by eapply frame_issuer|done]. }
    apply wp_withCert. eapply wp_mono; [|apply Hkey]. intros w2 [c2 [[]|e]] (Hg2 & Hf2 & Hk2); cbn [fst snd] in *.
    2:{ split; [by etrans|]. split; [etrans; [by eapply frame_issuer|done]|done]. }
    assert (frame c c2) as Hf2' by (etrans; [by eapply frame_issuer|exact Hf2]).
    destruct (PrivKey ca1) as [caKey|]; [|split; [by etrans|]; done].
    apply wp_bind. eapply wp_mono; [|apply Hens]. intros w3 [ca3 [caCert|e]] (Hg3 & Hf3 & _); cbn [fst snd] in *;
      (assert (grows (store w) (store w3)) as Hg by (by repeat (etrans; [eassumption|])));
      (assert (frame c (set_issuer (Some ca3) c2)) as Hf by (by eapply frame_reissue)).
    2:{ split; [done|]. split; [done|done]. }
    destruct (ParseCertificate caCert) as [x|]; [|split; [done|]; split; [done|done]].
    apply wp_bind, issueCertificate_spec; [by apply Hk2|]. intros r Hr.
    split; [done|]. split; [|done]. etrans; [exact Hf|apply frame_isCA].
  - apply wp_withCert. eapply wp_mono; [|apply Hkey]. intros w1 [c1 [[]|e]] (Hg1 & Hf1 & Hk1); cbn [fst snd] in *.
    2:{ split; [done|]. split; [done|done]. }
    destruct (PrivKey c1) as [key|]; [|split; [done|]; done].
    apply wp_bind, issueCertificate_spec; [by apply Hk1|]. intros r Hr. done.
Qed.

Lemma loadOrIssue_spec iss c c1 w w1 :
  (forall c w, wp R (iss c) (issue_post c w) w) ->
  grows (store w) (store w1) -> frame c c1 -> is_Some (PubKey c1) ->
  wp R (loadOrIssue iss c1) (ensure_post c w) w1.
Proof.
  intros Hiss Hg1 Hf1 Hk1. pose proof (frame_paths _ _ Hf1) as [Hpath _].
  apply wp_bind, wp_kvGet. intros w2 r Hg2 Hr _. assert (grows (store w) (store w2)) as Hg by (by etrans).
  destruct r as [kvs|e]; [|split; [done|]; done]. specialize (Hr kvs eq_refl).
  destruct (store w2 !! certPath c1) as [e|] eqn:He; subst kvs.
  - split; [done|]. split; [done|]. cbn [snd fst]. intros cert Hc.
    destruct (ParseCertificate (kv_value e)) as [x|] eqn:Hx; [|done].
    destruct (CertPublicKey x) as [pk|] eqn:Hpk; [|done].
    case_bool_decide as Heq; [|done]. injection Hc as <-. split.
    + split; [done|]. exists x. split; [done|]. rewrite Hpk, Heq. by destruct Hk1 as [? ->].
    + intros _. unfold stored. by rewrite <- Hpath, He.
  - apply wp_withCert. eapply wp_mono; [|apply Hiss].
    intros w3 [c3 [cert|er]] (Hg3 & Hf3 & Hc3); cbn [fst snd] in *.
    2:{ split; [by etrans|]. split; [by etrans|done]. }
    apply wp_bind, wp_kvCreate. intros w4 r Hg4 Hr4.
    split; [by repeat (etrans; [eassumption|])|]. split; [by etrans|]. cbn [fst snd]. intros cert' Hc.
    destruct r as [[]|]; try done. injection Hc as <-. split; [by apply Hc3|].
    intros _. unfold stored. destruct (frame_paths _ _ Hf3) as [Hp3 _]. rewrite <- Hpath, <- Hp3. auto.
Qed.

Lemma ensure_step n : specs n -> forall c w, wp R (ensure (S n) c) (ensure_post c w) w.
Proof.
  intros (_ & Hkey & Hiss & _) c w. open_bodies.
  apply wp_withCert. eapply wp_mono; [|apply Hkey]. intros w1 [c1 [[]|e]] (Hg1 & Hf1 & Hk1); cbn [fst snd] in *.
  2:{ split; [done|]. done. }
  specialize (Hk1 eq_refl). pose proof Hf1 as (_ & _ & Hm & _).
  destruct (Mode c1) eqn:Hmd.
  - case_bool_decide; [split; [done|]; done|by apply loadOrIssue_spec].
  - case_bool_decide; [split; [done|]; done|by apply loadOrIssue_spec].
  - eapply wp_mono; [|apply Hiss]. intros w2 [c2 r] (Hg2 & Hf2 & Hc2). cbn [fst snd] in *.
    split; [by etrans|]. split; [by etrans|]. intros cert Hc. cbn [fst snd] in *. split; [by apply Hc2|].
    rewrite <- Hm. by intros [?|?].
  - split; [done|]. done.
Qed.

Lemma specs_all n : specs n.
Proof.
  induction n as [|n IH].
  - split; [|split; [|split]]; intros c; intros; open_bodies.
    + split; [reflexivity|]. split; [reflexivity|done].
    + destruct (PubKey c) eqn:Hp; (split; [reflexivity|]; split; [reflexivity|]); [by cbn; rewrite Hp|done].
    + split; [reflexivity|]. split; [reflexivity|done].
    + split; reflexivity.
  - split; [by apply ensure_step|]. split; [by apply ensureKey_step|]. split; [by apply issue_step|].
    intros c rv w. open_bodies. destruct (negb _); [split; reflexivity|].
    apply wp_withCert. eapply wp_mono; [|apply IH].
    intros w1 [c1 [cert|e]] (Hg1 & Hf1 & _); cbn [fst snd] in *; [|done].
    destruct (ParseCertificate cert) as [x|]; [|done].
    intros w2 now ->. intros w3 crl [-> _]. done.
Qed.

(** ** Nothing is replaced, not even for a moment *)

(** Every effect keeps what is there: new keys are only created. *)
Definition keeps (w w' : world) : Prop := grows (store w) (store w').

#[export] Instance keeps_preorder : PreOrder keeps.
Proof. split; [intros w; apply grows_refl|]. intros w1 w2 w3. apply grows_trans. Qed.

Lemma kvGet_keeps msg path : guarantees keeps (kvGet msg path).
Proof.
  split_and!; [done| |done]. intros w w1 x (w0 & st & H0 & Ht & ->). unfold keeps. etrans; [exact H0|]. rewrite store_set_es.
  assert (content st = store w0) as ->; [|reflexivity]. destruct x as [rs| |e].
  - apply txn_committed in Ht as (_ & r & _ & [= E1 _]). by rewrite <- E1.
  - by apply txn_rejected in Ht as [_ ->].
  - by apply txn_failed in Ht as [->|(_ & r & _ & ->)].
Qed.

Lemma kvCreate_keeps path value : guarantees keeps (kvCreate path value).
Proof.
  split_and!; [done| |done]. intros w w1 x (w0 & st & H0 & Ht & ->). unfold keeps. etrans; [exact H0|]. rewrite store_set_es. destruct x as [rs| |e].
  - apply txn_committed in Ht as (Hh & r & _ & [= E1 _]). rewrite <- E1. by apply put_new.
  - apply txn_rejected in Ht as [_ ->]. reflexivity.
  - apply txn_failed in Ht as [->|(Hh & r & _ & ->)]; [reflexivity|by apply put_new].
Qed.

Lemma pure_keeps {A B} (e : eff B) (k : B -> prog A) :
  eff_shared e -> (forall w w1 x, eff_step keeps e w w1 x -> w1 = w) -> (forall x, guarantees keeps (k x)) -> guarantees keeps (Vis e k).
Proof. intros He Hw Hk. split_and!; [done| |done]. intros w w1 x ->%Hw. reflexivity. Qed.

Lemma withCert_keeps {A B} (m : prog (Certificate * result err A)) (k : Certificate -> A -> prog (Certificate * result err B)) :
  guarantees keeps m -> (forall c a, guarantees keeps (k c a)) -> guarantees keeps (withCert m k).
Proof. intros Hm Hk. apply guarantees_bind; [done|]. intros [c [a|e]]; [apply Hk|done]. Qed.

Lemma issueCertificate_keeps c parent key : guarantees keeps (issueCertificate c parent key).
Proof.
  apply pure_keeps; [done|by intros ??? [-> _]|]. intros [serial|]; [|done]. apply pure_keeps; [done|by intros ??? ->|]. intros now.
  apply pure_keeps; [done|by intros ??? [-> _]|]. by intros [der|].
Qed.

Lemma generateKey_keeps mk c : (forall c rv, guarantees keeps (mk c rv)) -> guarantees keeps (generateKey mk c).
Proof.
  intros Hmk. apply pure_keeps; [done|by intros ??? [-> _]|]. intros [[pub priv]|]; [|done]. apply guarantees_bind; [apply kvCreate_keeps|].
  intros [[]|]; [|done..]. apply withCert_keeps; [apply Hmk|]. intros c' crl. apply guarantees_bind; [apply kvCreate_keeps|]. by intros [|].
Qed.

Lemma loadOrIssue_keeps iss c : (forall c, guarantees keeps (iss c)) -> guarantees keeps (loadOrIssue iss c).
Proof.
  intros Hiss. apply guarantees_bind; [apply kvGet_keeps|].
  assert (guarantees keeps (do! c, cert := iss c in prog_bind (kvCreate (certPath c) cert) (fun r =>
    Ret (c, match r with
            | None => Err (GoErr "failed to write newly issued certificate: %w")
            | Some false => Err (GoErr "certificate issuance transaction failed: concurrent write")
            | Some true => Ok cert
            end)))) as Hi.
  { apply withCert_keeps; [apply Hiss|]. intros c' cert. apply guarantees_bind; [apply kvCreate_keeps|done]. }
  intros [[|[k0 e] [|? ?]]|e]; done.
Qed.

Lemma all_keep n : (forall c, guarantees keeps (ensure n c)) /\ (forall c, guarantees keeps (ensureKey n c)) /\
  (forall c, guarantees keeps (issue n c)) /\ (forall c rv, guarantees keeps (makeCRL n c rv)).
Proof.
  induction n as [|n (He & Hk & Hi & Hm)]; [split_and!; intros c; intros; cbn [ensure ensureKey issue makeCRL]; try done; by destruct (PubKey c)|].
  split_and!; intros c; intros; open_bodies.
  - apply withCert_keeps; [apply Hk|]. intros c' _. destruct (Mode c'); [case_bool_decide; [done|by apply loadOrIssue_keeps]..|apply Hi|done].
  - destruct (PubKey c); [done|]. destruct (Mode c); [|done| |done].
    + case_bool_decide; [done|]. apply guarantees_bind; [apply kvGet_keeps|].
      intros [[|[k0 e] [|? ?]]|e]; [by apply generateKey_keeps|by case_bool_decide|by apply generateKey_keeps|done].
    + apply pure_keeps; [done|by intros ??? [-> _]|]. by intros [[pub priv]|].
  - destruct (Issuer c) as [ca|].
    + apply guarantees_bind; [apply Hk|]. intros [ca1 [[]|e]]; [|done]. apply withCert_keeps; [apply Hk|]. intros c2 _. destruct (PrivKey ca1); [|done].
      apply guarantees_bind; [apply He|]. intros [ca3 [caCert|e]]; [|done]. destruct (ParseCertificate caCert); [|done].
      apply guarantees_bind; [apply issueCertificate_keeps|done].
    + apply withCert_keeps; [apply Hk|]. intros c1 _. destruct (PrivKey c1); [|done]. apply guarantees_bind; [apply issueCertificate_keeps|done].
  - destruct (negb _); [done|]. apply withCert_keeps; [apply He|]. intros c' cert. destruct (ParseCertificate cert); [|done].
    apply pure_keeps; [done|by intros ??? ->|]. intros now. apply pure_keeps; [done|by intros ??? [-> _]|done].
Qed.

(** ** Enough fuel *)

Definition fueled {A} (cr : Certificate * result err A) : Prop := cr.2 <> Err errFuel.

Lemma fueled_err {A B} c c' e :
  fueled (c, Err e : result err A) -> fueled (c', Err e : result err B).
Proof. unfold fueled. simpl. intros H [= ->]. by apply H. Qed.

(** The key of [c] can be had without generating one. *)
Definition keyed (w : world) (c : Certificate) : Prop :=
  is_Some (PubKey c) \/ mine (privPath c) /\ exists v, stored w (privPath c) v.

(** The private keys of a certificate and its issuers are only ever created. *)
Definition chain_mine (c : Certificate) : Prop :=
  forall c', (Namespace c', Name c') ∈ names c -> mine (privPath c').

Lemma chain_mine_frame c c' : frame c c' -> chain_mine c -> chain_mine c'.
Proof. intros (_ & _ & _ & Hn & _) Hc. unfold chain_mine. by rewrite Hn. Qed.
Lemma chain_mine_self c : chain_mine c -> mine (privPath c).
Proof. intros Hc. apply Hc. rewrite names_Issuer. by left. Qed.
Lemma chain_mine_issuer c i : Issuer c = Some i -> chain_mine c -> chain_mine i.
Proof. intros Hi Hc c' Hin. apply Hc. rewrite names_Issuer, Hi. by right. Qed.

Lemma ensureKey_keyed n c w :
  keyed w c -> 1 <= n -> wp R (ensureKey n c) (fun _ => fueled) w.
Proof.
  intros Hk Hn. destruct n as [|n]; [lia|]. open_bodies.
  destruct (PubKey c) as [p|] eqn:Hp; [done|]. destruct Hk as [[? ?]|[Hm [v Hv]]]; [congruence|].
  destruct (Mode c); [|by destruct (PrivKey c)| |done].
  - case_bool_decide; [done|]. apply wp_bind, wp_kvGet. intros w1 r Hg Hr He.
    destruct r as [kvs|e]; [|by rewrite (He e)]. specialize (Hr kvs eq_refl).
    apply (stored_grows w w1) in Hv; [|done..]. unfold stored in Hv.
    destruct (store w1 !! privPath c) as [e|]; [|done]. subst kvs. by case_bool_decide.
  - intros w1 k [-> _]. by destruct k as [[pub priv]|].
Qed.

Lemma issueCertificate_fueled c parent key Q w :
  (forall r, r <> Err errFuel -> Q w r) -> wp R (issueCertificate c parent key) Q w.
Proof.
  intros HQ. intros w1 serial [-> _]. destruct serial; [|by apply HQ].
  intros w2 now ->. intros w3 der [-> _]. apply HQ. by destruct der.
Qed.

Lemma loadOrIssue_fueled iss c w :
  (forall w, wp R (iss c) (fun _ => fueled) w) -> wp R (loadOrIssue iss c) (fun _ => fueled) w.
Proof.
  intros Hiss. apply wp_bind, wp_kvGet. intros w1 r _ Hr He.
  destruct r as [kvs|e]; [|by rewrite (He e)]. specialize (Hr kvs eq_refl).
  destruct (store w1 !! certPath c) as [e|]; subst kvs.
  - unfold fueled. cbn [snd]. destruct (ParseCertificate _) as [x|]; [|done].
    destruct (CertPublicKey x); [|done]. by case_bool_decide.
  - apply wp_withCert. eapply wp_mono; [|apply Hiss]. intros w2 [c2 [cert|e]] Hf; [|by eapply fueled_err, Hf].
    apply wp_bind, wp_kvCreate. intros w3 r3 _ _. by destruct r3 as [[]|].
Qed.

Record enough (d : nat) : Prop := {
  enough_issue : forall c n w, depth c = d -> chain_mine c -> is_Some (PubKey c) -> 4 * d + 1 <= n ->
    wp R (issue n c) (fun _ => fueled) w;
  enough_keyed : forall c n w, depth c = d -> chain_mine c -> keyed w c -> 4 * d + 2 <= n ->
    wp R (ensure n c) (fun _ => fueled) w;
  enough_key : forall c n w, depth c = d -> chain_mine c -> 4 * d + 4 <= n ->
    wp R (ensureKey n c) (fun _ => fueled) w
}.

(** [ensure] after a successful [ensureKey]. *)
Lemma ensure_from_key d n c w :
  (forall c w, depth c = d -> chain_mine c -> is_Some (PubKey c) -> wp R (issue n c) (fun _ => fueled) w) ->
  depth c = d -> chain_mine c -> wp R (ensureKey n c) (fun _ => fueled) w ->
  wp R (ensure (S n) c) (fun _ => fueled) w.
Proof.
  intros Hiss Hd Hm Hkey. open_bodies. apply wp_withCert.
  destruct (specs_all n) as (_ & Hpost & _).
  eapply wp_mono; [|exact (wp_and R _ _ _ w Hkey (Hpost c w))].
  intros w1 [c1 [[]|e]] [Hf (_ & Hfr & Hk)]; cbn [fst snd] in *; [|by eapply fueled_err, Hf].
  specialize (Hk eq_refl). pose proof (frame_depth _ _ Hfr) as Hd1. pose proof (chain_mine_frame _ _ Hfr Hm) as Hm1.
  destruct (Mode c1); [| | |done].
  - case_bool_decide; [done|]. apply loadOrIssue_fueled. intros w2. apply Hiss; [congruence|done..].
  - case_bool_decide; [done|]. apply loadOrIssue_fueled. intros w2. apply Hiss; [congruence|done..].
  - apply Hiss; [congruence|done..].
Qed.

Lemma enough_all d : enough d.
Proof.
  induction d as [d IH] using lt_wf_ind.
  assert (forall c n w, depth c = d -> chain_mine c -> is_Some (PubKey c) -> 4 * d + 1 <= n ->
    wp R (issue n c) (fun _ => fueled) w) as Hissue.
  { intros c n w Hd Hm Hk Hn. destruct n as [|n]; [lia|]. open_bodies.
    rewrite depth_Issuer in Hd. destruct (Issuer c) as [ca|] eqn:Hi.
    - assert (enough (depth ca)) as IHca by (apply IH; lia).
      pose proof (chain_mine_issuer _ _ Hi Hm) as Hmca.
      apply wp_bind. destruct (specs_all n) as (_ & Hpost & _).
      eapply wp_mono; [|exact (wp_and R _ _ _ w (enough_key _ IHca ca n w eq_refl Hmca ltac:(lia)) (Hpost ca w))].
      intros w1 [ca1 [[]|e]] [Hf (_ & Hfr & Hk1)]; cbn [fst snd] in *; [|by eapply fueled_err, Hf].
      pose proof (frame_depth _ _ Hfr) as Hd1. pose proof (chain_mine_frame _ _ Hfr Hmca) as Hm1.
      apply wp_withCert. eapply wp_mono; [|apply ensureKey_keyed; [by left|lia]].
      intros w2 [c2 [[]|e]] Hf2; cbn [fst snd] in *; [|by eapply fueled_err, Hf2].
      destruct (PrivKey ca1) as [caKey|]; [|done].
      apply wp_bind. eapply wp_mono; [|apply (enough_keyed _ IHca ca1 n w2); [done|done|left; by apply Hk1|lia]].
      intros w3 [ca3 [caCert|e]] Hf3; [|by eapply fueled_err, Hf3].
      destruct (ParseCertificate caCert); [|done].
      by apply wp_bind, issueCertificate_fueled.
    - apply wp_withCert. assert (exists p, PubKey c = Some p) as [p Hp] by done.
      assert (ensureKey n c = Ret (c, Ok tt)) as -> by (destruct n; open_bodies; by rewrite Hp).
      apply wp_ret. cbn [fst snd]. destruct (PrivKey c); [|done]. by apply wp_bind, issueCertificate_fueled. }
  assert (forall c n w, depth c = d -> chain_mine c -> keyed w c -> 4 * d + 2 <= n ->
    wp R (ensure n c) (fun _ => fueled) w) as Hkeyed.
  { intros c n w Hd Hm Hk Hn. destruct n as [|n]; [lia|]. apply (ensure_from_key d); [|done|done|].
    - intros c' w' Hd' Hm' Hk'. apply Hissue; [done..|lia].
    - apply ensureKey_keyed; [done|lia]. }
  split; [done|done|]. intros c n w Hd Hm Hn. destruct n as [|n]; [lia|]. open_bodies.
  destruct (PubKey c) as [p|] eqn:Hp; [done|].
  destruct (Mode c); [|by destruct (PrivKey c)| |done].
  - case_bool_decide; [done|]. apply wp_bind, wp_kvGet. intros w1 r _ _ He.
    assert (wp R (generateKey (makeCRL n) c) (fun _ => fueled) w1) as Hgen.
    { intros w2 k [-> _]. destruct k as [[pub priv]|]; [|done].
      apply wp_bind, wp_kvCreate. intros w3 r3 _ Hst. destruct r3 as [[]|]; [|done..].
      destruct n as [|n]; [lia|]. apply wp_withCert. open_bodies. destruct (negb _); [done|].
      apply wp_withCert. eapply wp_mono; [|apply (Hkeyed c n w3); [done|done| |lia]].
      2:{ right. split; [by apply chain_mine_self|]. exists priv. by apply Hst. }
      intros w4 [c4 [cert|e]] Hf4; [|by eapply fueled_err, Hf4]. cbn [fst snd].
      destruct (ParseCertificate cert); [|done]. intros w5 now ->. intros w6 crl [-> _].
      destruct crl as [crl|]; [|done]. apply wp_bind, wp_kvCreate. intros w7 r7 _ _. by destruct r7. }
    destruct r as [[|[k0 e] [|? ?]]|e]; [exact Hgen| |exact Hgen|by rewrite (He e)].
    by case_bool_decide.
  - intros w1 k [-> _]. by destruct k as [[pub priv]|].
Qed.

Lemma ensure_enough c n w : chain_mine c -> 4 * depth c + 5 <= n -> wp R (ensure n c) (fun _ => fueled) w.
Proof.
  intros Hm Hn. destruct n as [|n]; [lia|]. apply (ensure_from_key (depth c)); [|done|done|].
  - intros c' w' Hd Hm' Hk. apply (enough_issue _ (enough_all (depth c))); [done..|lia].
  - apply (enough_key _ (enough_all (depth c))); [done..|lia].
Qed.

(** ** Writes stay in the namespace *)

Fixpoint in_ns (ns : string) (c : Certificate) : Prop :=
  match c with
  | mkCertificate ns' _ _ _ _ _ _ i =>
      ns' = ns /\ match i with None => True | Some i => in_ns ns i end
  end.

Lemma in_ns_Issuer ns c :
  in_ns ns c <-> Namespace c = ns /\ match Issuer c with None => True | Some i => in_ns ns i end.
Proof. by destruct c. Qed.

Definition under (ns k : string) : Prop := exists s, k = ns +:+ s.

Definition only_ns {A} (ns : string) (p : prog (Certificate * A)) : Prop :=
  only (under ns) (fun cr => in_ns ns cr.1) p.

Lemma only_withCert {A B} ns (m : prog (Certificate * result err A))
    (k : Certificate -> A -> prog (Certificate * result err B)) :
  only_ns ns m -> (forall c a, in_ns ns c -> only_ns ns (k c a)) -> only_ns ns (withCert m k).
Proof.
  intros Hm Hk. eapply only_bind; [exact Hm|]. intros [c [a|e]] Hc; [by apply Hk|done].
Qed.

Lemma only_kvGet P msg path : only P (fun _ => True) (kvGet msg path).
Proof. split; [constructor|done]. Qed.

Lemma only_kvCreate (P : string -> Prop) path v : P path -> only P (fun _ => True) (kvCreate path v).
Proof. intros HP. split; [by repeat constructor|done]. Qed.

Lemma only_issueCertificate P c parent key : only P (fun _ => True) (issueCertificate c parent key).
Proof. split; [done|]. intros [serial|]; [|done]. split; [done|]. intros _. by split. Qed.

Definition only_specs (ns : string) (n : nat) : Prop :=
  (forall c, in_ns ns c -> only_ns ns (ensure n c)) /\
  (forall c, in_ns ns c -> only_ns ns (ensureKey n c)) /\
  (forall c, in_ns ns c -> only_ns ns (issue n c)) /\
  (forall c rv, in_ns ns c -> only_ns ns (makeCRL n c rv)).

Lemma in_ns_paths ns c : in_ns ns c -> under ns (certPath c) /\ under ns (privPath c) /\ under ns (crlPath c).
Proof.
  rewrite in_ns_Issuer. intros [<- _]. unfold under, certPath, privPath, crlPath.
  split_and!; by eexists.
Qed.

Lemma in_ns_keys ns c pub priv : in_ns ns c -> in_ns ns (set_keys pub priv c).
Proof. by rewrite !in_ns_Issuer. Qed.
Lemma in_ns_issuer ns c i : in_ns ns c -> in_ns ns i -> in_ns ns (set_issuer (Some i) c).
Proof. rewrite !(in_ns_Issuer ns (set_issuer _ _)), (in_ns_Issuer ns c). simpl. naive_solver. Qed.
Lemma in_ns_isCA ns c b : in_ns ns c -> in_ns ns (set_isCA b c).
Proof. by rewrite !in_ns_Issuer. Qed.

Lemma only_generateKey ns mk c :
  (forall c rv, in_ns ns c -> only_ns ns (mk c rv)) -> in_ns ns c -> only_ns ns (generateKey mk c).
Proof.
  intros Hmk Hc. split; [done|]. intros [[pub priv]|]; [|done].
  eapply only_bind; [apply only_kvCreate; by apply in_ns_paths|]. intros [[]|] _; [|done..].
  apply only_withCert; [by apply Hmk|]. intros c1 crl Hc1.
  eapply only_bind; [apply only_kvCreate; by apply in_ns_paths|].
  intros [|] _; [by apply in_ns_keys|done].
Qed.

Lemma only_loadOrIssue ns iss c :
  (forall c, in_ns ns c -> only_ns ns (iss c)) -> in_ns ns c -> only_ns ns (loadOrIssue iss c).
Proof.
  intros Hiss Hc. eapply only_bind; [apply only_kvGet|]. intros r _.
  assert (only_ns ns (withCert (iss c) (fun c cert => prog_bind (kvCreate (certPath c) cert) (fun r =>
      Ret (c, match r with
              | None => Err (GoErr "failed to write newly issued certificate: %w")
              | Some false => Err (GoErr "certificate issuance transaction failed: concurrent write")
              | Some true => Ok cert
              end))))) as H.
  { apply only_withCert; [by apply Hiss|]. intros c1 cert Hc1.
    by eapply only_bind; [apply only_kvCreate; by apply in_ns_paths|]. }
  destruct r as [[|[k e] [|? ?]]|e]; done.
Qed.

Lemma only_all ns n : only_specs ns n.
Proof.
  induction n as [|n (He & Hk & Hi & Hm)].
  - split; [|split; [|split]]; intros c; intros; open_bodies; try done.
    by destruct (PubKey c).
  - split; [|split; [|split]]; intros c; intros; open_bodies.
    + apply only_withCert; [by apply Hk|]. intros c1 [] Hc1.
      destruct (Mode c1); [| |by apply Hi|done]; (case_bool_decide; [done|by apply only_loadOrIssue]).
    + destruct (PubKey c); [done|]. destruct (Mode c); [|done| |done].
      * case_bool_decide; [done|]. eapply only_bind; [apply only_kvGet|].
        intros [[|[k e] [|? ?]]|e] _; [by apply only_generateKey| |by apply only_generateKey|done].
        case_bool_decide; [by apply in_ns_keys|done].
      * split; [done|]. intros [[pub priv]|]; [by apply in_ns_keys|done].
    + destruct (Issuer c) as [ca|] eqn:Hca.
      * assert (in_ns ns ca) as Hns by (apply in_ns_Issuer in H as [_ H]; by rewrite Hca in H).
        eapply only_bind; [by apply Hk|]. intros [ca1 [[]|e]] Hca1; [|by apply in_ns_issuer].
        apply only_withCert; [by apply Hk, in_ns_issuer|]. intros c2 [] Hc2.
        destruct (PrivKey ca1); [|done].
        eapply only_bind; [by apply He|]. intros [ca3 [cert|e]] Hca3; [|by apply in_ns_issuer].
        destruct (ParseCertificate cert); [|by apply in_ns_issuer].
        eapply only_bind; [apply only_issueCertificate|]. intros r _. by apply in_ns_isCA, in_ns_issuer.
      * apply only_withCert; [by apply Hk|]. intros c1 [] Hc1. destruct (PrivKey c1); [|done].
        eapply only_bind; [apply only_issueCertificate|]. done.
    + destruct (negb _); [done|]. apply only_withCert; [by apply He|]. intros c1 cert Hc1.
      destruct (ParseCertificate cert); [|done]. split; [done|]. intros _. by split.
Qed.

End Pki.

End Pki.
