(* ===== verification/ClusterConfig.v ===== *)
(** * Cluster configuration

    Models [metropolis/node/core/curator/state_cluster.go]: the TPM and storage
    policies of a cluster, and their protobuf form.  Loading and saving the
    configuration in etcd is in [CuratorState]. *)

From S2P Require Import Prelude Etcd Interfaces Effects.

Module ClusterConfig.
Import Effects.

(** Protobuf enums are open: a value that is none of the named ones (the
    zero value INVALID included) is carried as a number. *)
Inductive TPMMode :=
| TPM_MODE_REQUIRED
| TPM_MODE_BEST_EFFORT
| TPM_MODE_DISABLED
| TPM_MODE_other (n : Z).
#[export] Instance TPMMode_eq_dec : EqDecision TPMMode.
Proof. solve_decision. Defined.

Inductive StorageSecurityPolicy :=
| POLICY_PERMISSIVE
| POLICY_NEEDS_ENCRYPTION
| POLICY_NEEDS_INSECURE
| POLICY_NEEDS_ENCRYPTION_AND_AUTHENTICATION
| POLICY_other (n : Z).
#[export] Instance StorageSecurityPolicy_eq_dec : EqDecision StorageSecurityPolicy.
Proof. solve_decision. Defined.

Inductive NodeStorageSecurity :=
| STORAGE_INSECURE
| STORAGE_ENCRYPTED
| STORAGE_AUTHENTICATED_ENCRYPTED
| STORAGE_other (n : Z).
#[export] Instance NodeStorageSecurity_eq_dec : EqDecision NodeStorageSecurity.
Proof. solve_decision. Defined.

Inductive NodeTPMUsage :=
| NODE_TPM_NOT_PRESENT
| NODE_TPM_PRESENT_BUT_UNUSED
| NODE_TPM_PRESENT_AND_USED
| NODE_TPM_other (n : Z).
#[export] Instance NodeTPMUsage_eq_dec : EqDecision NodeTPMUsage.
Proof. solve_decision. Defined.

(** [Cluster], and [cpb.ClusterConfiguration] as far as it is used. *)
Record Cluster := mkCluster {
  TPMMode_ : TPMMode;
  StorageSecurityPolicy_ : StorageSecurityPolicy
}.
#[export] Instance Cluster_eq_dec : EqDecision Cluster.
Proof. solve_decision. Defined.

Record ClusterConfiguration := mkClusterConfiguration {
  TpmMode : TPMMode;
  StoragePolicy : StorageSecurityPolicy
}.
#[export] Instance ClusterConfiguration_eq_dec : EqDecision ClusterConfiguration.
Proof. solve_decision. Defined.

Definition DefaultClusterConfiguration : Cluster :=
  mkCluster TPM_MODE_REQUIRED POLICY_NEEDS_ENCRYPTION_AND_AUTHENTICATION.

Definition NodeShouldUseTPM (c : Cluster) (available : bool) : result err bool :=
  match TPMMode_ c with
  | TPM_MODE_DISABLED => Ok false
  | TPM_MODE_REQUIRED =>
      guard! available else GoErr "TPM required but not available" in Ok true
  | TPM_MODE_BEST_EFFORT => Ok available
  | TPM_MODE_other _ => Err (GoErr "invalid TPM mode")
  end.

Definition NodeTPMUsage_of (c : Cluster) (have : bool) : result err NodeTPMUsage :=
  use ← NodeShouldUseTPM c have;
  Ok (if have && use then NODE_TPM_PRESENT_AND_USED
      else if have && negb use then NODE_TPM_PRESENT_BUT_UNUSED
      else NODE_TPM_NOT_PRESENT).

Definition NodeStorageSecurity_of (c : Cluster) : result err NodeStorageSecurity :=
  match StorageSecurityPolicy_ c with
  | POLICY_PERMISSIVE => Ok STORAGE_AUTHENTICATED_ENCRYPTED
  | POLICY_NEEDS_ENCRYPTION_AND_AUTHENTICATION => Ok STORAGE_AUTHENTICATED_ENCRYPTED
  | POLICY_NEEDS_ENCRYPTION => Ok STORAGE_ENCRYPTED
  | POLICY_NEEDS_INSECURE => Ok STORAGE_INSECURE
  | POLICY_other _ => Err (GoErr "invalid cluster storage policy %d")
  end.

Definition ValidateNodeStorage (c : Cluster) (ns : NodeStorageSecurity) : result err unit :=
  match StorageSecurityPolicy_ c with
  | POLICY_PERMISSIVE => Ok tt
  | POLICY_NEEDS_INSECURE =>
      guard! bool_decide (ns = STORAGE_INSECURE)
      else Status FailedPrecondition "cluster policy requires insecure node storage" in Ok tt
  | POLICY_NEEDS_ENCRYPTION =>
      match ns with
      | STORAGE_AUTHENTICATED_ENCRYPTED => Ok tt
      | STORAGE_ENCRYPTED => Ok tt
      | _ => Err (Status FailedPrecondition "cluster policy requires encrypted node storage")
      end
  | POLICY_NEEDS_ENCRYPTION_AND_AUTHENTICATION =>
      guard! bool_decide (ns = STORAGE_AUTHENTICATED_ENCRYPTED)
      else Status FailedPrecondition "cluster policy requires encrypted and authenticated node storage" in Ok tt
  | POLICY_other _ => Err (Status Internal "cannot interpret cluster node storage policy")
  end.

Definition mode_ok (m : TPMMode) : bool :=
  match m with
  | TPM_MODE_REQUIRED | TPM_MODE_BEST_EFFORT | TPM_MODE_DISABLED => true
  | TPM_MODE_other _ => false
  end.
Definition policy_ok (p : StorageSecurityPolicy) : bool :=
  match p with
  | POLICY_PERMISSIVE | POLICY_NEEDS_ENCRYPTION_AND_AUTHENTICATION
  | POLICY_NEEDS_ENCRYPTION | POLICY_NEEDS_INSECURE => true
  | POLICY_other _ => false
  end.

Definition clusterFromProto (cc : ClusterConfiguration) : result err Cluster :=
  guard! mode_ok (TpmMode cc) else GoErr "invalid TpmMode: %v" in
  guard! policy_ok (StoragePolicy cc) else GoErr "invalid StorageSecurityPolicy: %v" in
  Ok (mkCluster (TpmMode cc) (StoragePolicy cc)).

Definition ClusterConfigurationFromInitial (icc : ClusterConfiguration) : result err Cluster :=
  clusterFromProto icc.

(** [Cluster.proto]. *)
Definition clusterProto (c : Cluster) : result err ClusterConfiguration :=
  guard! mode_ok (TPMMode_ c) else GoErr "invalid TPMMode %d" in
  guard! policy_ok (StorageSecurityPolicy_ c) else GoErr "invalid StorageSecurityPolicy %d" in
  Ok (mkClusterConfiguration (TPMMode_ c) (StorageSecurityPolicy_ c)).

Definition cluster_ok (c : Cluster) : Prop :=
  mode_ok (TPMMode_ c) = true /\ policy_ok (StorageSecurityPolicy_ c) = true.

Lemma clusterProto_iff c cc :
  clusterProto c = Ok cc <->
  cluster_ok c /\ cc = mkClusterConfiguration (TPMMode_ c) (StorageSecurityPolicy_ c).
Proof.
  unfold clusterProto, cluster_ok. destruct (mode_ok _); [|naive_solver].
  destruct (policy_ok _); naive_solver.
Qed.

Lemma clusterFromProto_iff cc c :
  clusterFromProto cc = Ok c <-> clusterProto c = Ok cc.
Proof.
  rewrite clusterProto_iff. unfold clusterFromProto, cluster_ok.
  destruct cc as [m p], c as [m' p']; simpl.
  destruct (mode_ok m) eqn:Em; [|split; [done|intros [[? _] [= -> ->]]; congruence]].
  destruct (policy_ok p) eqn:Ep; [|split; [done|intros [[_ ?] [= -> ->]]; congruence]].
  naive_solver.
Qed.

(** ** Properties *)

(** What a cluster recommends to a registering node, its policy accepts:
    the recommended storage security passes [ValidateNodeStorage]; a TPM is
    used exactly if there is one and the mode does not disable it, and a
    cluster that requires a TPM refuses a node without one.  Both fail only
    for a configuration that [clusterFromProto] refuses, apart from the missing
    TPM. *)
Theorem cluster_policy c :
  (forall s, NodeStorageSecurity_of c = Ok s -> ValidateNodeStorage c s = Ok tt) /\
  (forall have u, NodeTPMUsage_of c have = Ok u ->
     (u = NODE_TPM_PRESENT_AND_USED <-> have = true /\ TPMMode_ c <> TPM_MODE_DISABLED) /\
     (u = NODE_TPM_NOT_PRESENT <-> have = false) /\
     (TPMMode_ c = TPM_MODE_REQUIRED -> u = NODE_TPM_PRESENT_AND_USED)) /\
  (cluster_ok c <->
     (exists s, NodeStorageSecurity_of c = Ok s) /\ (exists u, NodeTPMUsage_of c true = Ok u)).
Proof.
  destruct c as [m p]. unfold cluster_ok, NodeTPMUsage_of, NodeShouldUseTPM, NodeStorageSecurity_of,
    ValidateNodeStorage. simpl. split; [|split].
  - destruct p; naive_solver.
  - intros [] u; destruct m; naive_solver.
  - destruct m, p; naive_solver.
Qed.

(** [clusterFromProto] and [Cluster.proto] are inverse to each other: each
    accepts exactly what the other produces. *)
Theorem cluster_roundtrip c cc :
  clusterFromProto cc = Ok c <-> clusterProto c = Ok cc.
Proof. apply clusterFromProto_iff. Qed.

End ClusterConfig.
