(* ===== verification/CuratorNode.v ===== *)
(** * Nodes of the cluster

    Models the [Node] object of [metropolis/node/core/curator/state_node.go]:
    its roles, its protobuf form and parsing, and node identifiers
    ([metropolis/node/core/identity/identity.go]). *)

From S2P Require Import Prelude GoStrings Version EtcdPrefix Labels Etcd Interfaces Effects ClusterConfig.

Module CuratorNode.
Import VersionSpec Labels Interfaces Effects ClusterConfig.

(** ** Identifiers *)

(** [hex.EncodeToString]. *)
Definition hexDigit (n : N) : ascii :=
  ascii_of_N (if N.ltb n 10 then 48 + n else 87 + n).
Fixpoint hexEncode (s : string) : string :=
  match s with
  | EmptyString => EmptyString
  | String c s =>
      String (hexDigit (N_of_ascii c / 16)) (String (hexDigit (N_of_ascii c mod 16)) (hexEncode s))
  end.

(** [NodeIDBare] and [NodeID]; slicing the first 16 bytes panics for a shorter
    key. *)
Definition NodeIDBare (pub : string) : option string :=
  if bool_decide (16 <= String.length pub) then Some (hexEncode (String.substring 0 16 pub))
  else None.
Definition NodeID (pub : string) : option string :=
  bare ← NodeIDBare pub; Some ("metropolis-" +:+ bare).

Lemma hexDigit_inj a b : (a < 16)%N -> (b < 16)%N -> hexDigit a = hexDigit b -> a = b.
Proof.
  intros Ha Hb. unfold hexDigit.
  assert (forall n, (n < 16)%N -> ((if N.ltb n 10 then 48 + n else 87 + n) < 256)%N) as Hlt.
  { intros n Hn. destruct (N.ltb_spec n 10); lia. }
  intros E. apply (f_equal N_of_ascii) in E.
  rewrite !N_ascii_embedding in E by (by apply Hlt).
  destruct (N.ltb_spec a 10), (N.ltb_spec b 10); lia.
Qed.

Lemma hexDigit_plain a c : (a < 16)%N -> (N_of_ascii c < 48)%N -> hexDigit a <> c.
Proof.
  intros Ha Hc E. subst c. revert Hc. unfold hexDigit.
  destruct (N.ltb_spec a 10); rewrite N_ascii_embedding by lia; lia.
Qed.

Lemma hexEncode_inj a b : hexEncode a = hexEncode b -> a = b.
Proof.
  revert b. induction a as [|x a IH]; intros [|y b]; simpl; try done.
  intros [= H1 H2 H]. apply IH in H as ->. f_equal.
  apply hexDigit_inj in H1, H2; try (apply N.mod_lt; lia);
    try (apply N.Div0.div_lt_upper_bound; pose proof (N_ascii_bounded x); pose proof (N_ascii_bounded y); lia).
  rewrite <- (ascii_N_embedding x), <- (ascii_N_embedding y). f_equal.
  rewrite (N.div_mod (N_of_ascii x) 16), (N.div_mod (N_of_ascii y) 16) by lia. by rewrite H1, H2.
Qed.

Lemma hexEncode_plain s c : (N_of_ascii c < 48)%N -> ContainsByte (hexEncode s) c = false.
Proof.
  intros Hc. induction s as [|x s IH]; [done|]. simpl. rewrite IH.
  rewrite !bool_decide_eq_false_2; [done| |].
  - apply hexDigit_plain; [|done]. apply N.mod_lt. lia.
  - apply hexDigit_plain; [|done]. apply N.Div0.div_lt_upper_bound. pose proof (N_ascii_bounded x). lia.
Qed.

Lemma hexEncode_empty s : hexEncode s = "" -> s = "".
Proof. by destruct s. Qed.

Lemma NodeID_plain pub id : NodeID pub = Some id -> id <> "" /\ ContainsByte id EtcdPrefix.slash = false.
Proof.
  unfold NodeID, NodeIDBare. case_bool_decide; [|done]. intros [= <-]. split; [done|].
  change (ContainsByte ("metropolis-" +:+ hexEncode (String.substring 0 16 pub)) EtcdPrefix.slash = false).
  rewrite ContainsByte_app. by rewrite hexEncode_plain.
Qed.

(** ** Data *)

Inductive NodeState :=
| STATE_NEW
| STATE_STANDBY
| STATE_UP
| STATE_DECOMMISSIONED
| STATE_other (n : Z).
#[export] Instance NodeState_eq_dec : EqDecision NodeState.
Proof. solve_decision. Defined.

(** [cpb.NodeStatus]. *)
Record NodeStatus := mkStatus {
  ExternalAddress : string;
  RunningCurator : option Z;
  Timestamp : option Z;
  Version : option SpecVersion
}.
#[export] Instance NodeStatus_eq_dec : EqDecision NodeStatus.
Proof. solve_decision. Defined.

(** The messages [cpb.NodeRoles], [cpb.NodeClusterNetworking] and [ppb.Node]. *)
Record ConsensusMemberMsg := mkCMMsg {
  CaCertificate : string;
  PeerCertificate : string;
  InitialCrl : string;
  PeersMsg : list (string * string)
}.
Record RolesMsg := mkRoles {
  KubernetesWorkerMsg : bool;
  KubernetesControllerMsg : bool;
  ConsensusMemberM : option ConsensusMemberMsg
}.
Record ClusternetMsg := mkClusternet {
  WireguardPubkey : string;
  Prefixes : list string
}.
Record NodeMsg := mkNodeMsg {
  ClusterUnlockKey : string;
  PublicKey : string;
  JoinKey : string;
  FsmState : NodeState;
  Roles : option RolesMsg;
  StatusMsg : option NodeStatus;
  TpmUsage : NodeTPMUsage;
  Clusternet : option ClusternetMsg;
  LabelsMsg : option (list (string * string))
}.

Section Node.
Context {X : X509} {NT : NetText} {NC : Codec NodeMsg}.

(** [NodeRoleConsensusMember]; the CRL is kept with its parsed form. *)
Record ConsensusMember := mkCM {
  CACertificate : Cert;
  PeerCert : Cert;
  CRLRaw : string;
  CRLParsed : CRLList;
  Peers : list (string * string)
}.

(** [Node].  The roles without data are booleans. *)
Record Node := mkNode {
  clusterUnlockKey : string;
  pubkey : string;
  jkey : string;
  state : NodeState;
  status : option NodeStatus;
  tpmUsage : NodeTPMUsage;
  consensusMember : option ConsensusMember;
  kubernetesController : bool;
  kubernetesWorker : bool;
  wireguardKey : string;
  networkPrefixes : list Prefix;
  labels : gmap string string
}.

Definition set_state s n := mkNode (clusterUnlockKey n) (pubkey n) (jkey n) s (status n)
  (tpmUsage n) (consensusMember n) (kubernetesController n) (kubernetesWorker n)
  (wireguardKey n) (networkPrefixes n) (labels n).
Definition set_cuk k n := mkNode k (pubkey n) (jkey n) (state n) (status n)
  (tpmUsage n) (consensusMember n) (kubernetesController n) (kubernetesWorker n)
  (wireguardKey n) (networkPrefixes n) (labels n).
Definition set_status s n := mkNode (clusterUnlockKey n) (pubkey n) (jkey n) (state n) s
  (tpmUsage n) (consensusMember n) (kubernetesController n) (kubernetesWorker n)
  (wireguardKey n) (networkPrefixes n) (labels n).
Definition set_consensus c n := mkNode (clusterUnlockKey n) (pubkey n) (jkey n) (state n) (status n)
  (tpmUsage n) c (kubernetesController n) (kubernetesWorker n)
  (wireguardKey n) (networkPrefixes n) (labels n).
Definition set_controller b n := mkNode (clusterUnlockKey n) (pubkey n) (jkey n) (state n) (status n)
  (tpmUsage n) (consensusMember n) b (kubernetesWorker n)
  (wireguardKey n) (networkPrefixes n) (labels n).
Definition set_worker b n := mkNode (clusterUnlockKey n) (pubkey n) (jkey n) (state n) (status n)
  (tpmUsage n) (consensusMember n) (kubernetesController n) b
  (wireguardKey n) (networkPrefixes n) (labels n).
Definition set_network k ps n := mkNode (clusterUnlockKey n) (pubkey n) (jkey n) (state n) (status n)
  (tpmUsage n) (consensusMember n) (kubernetesController n) (kubernetesWorker n)
  k ps (labels n).
Definition set_labels l n := mkNode (clusterUnlockKey n) (pubkey n) (jkey n) (state n) (status n)
  (tpmUsage n) (consensusMember n) (kubernetesController n) (kubernetesWorker n)
  (wireguardKey n) (networkPrefixes n) l.

Definition ID (n : Node) : option string := NodeID (pubkey n).

(** [NewNodeForBootstrap]. *)
Definition NewNodeForBootstrap (cuk pub jpub : string) (tpm : NodeTPMUsage) (ls : gmap string string) : Node :=
  mkNode cuk pub jpub STATE_UP None tpm None false false "" [] ls.

Definition EnableKubernetesWorker := set_worker true.
Definition DisableKubernetesWorker := set_worker false.
Definition EnableKubernetesController := set_controller true.
Definition DisableKubernetesController := set_controller false.
Definition DisableConsensusMember := set_consensus None.

Definition EnableConsensusMember (jc : JoinCluster) (n : Node) : Node :=
  set_consensus (Some (mkCM (jc_ca jc) (jc_node jc) (jc_crlRaw jc) (jc_crl jc) (jc_existing jc))) n.

(** ** Protobuf form *)

Definition pair_le (a b : string * string) : Prop := string_leb a.1 b.1 = true.
#[export] Instance pair_le_dec : RelDecision pair_le.
Proof. intros a b. unfold pair_le. apply _. Defined.

(** The label pairs of a message, sorted by key. *)
Definition labelPairs (ls : gmap string string) : list (string * string) :=
  merge_sort pair_le (map_to_list ls).

(** [Node.proto]. *)
Definition proto (n : Node) : NodeMsg :=
  mkNodeMsg (clusterUnlockKey n) (pubkey n) (jkey n) (state n)
    (Some (mkRoles (kubernetesWorker n) (kubernetesController n)
             ((fun cm => mkCMMsg (CertRaw (CACertificate cm)) (CertRaw (PeerCert cm))
                           (CRLRaw cm) (Peers cm)) <$> consensusMember n)))
    (status n) (tpmUsage n)
    (if bool_decide (wireguardKey n <> "")
     then Some (mkClusternet (wireguardKey n) (Prefix_String <$> networkPrefixes n)) else None)
    (Some (labelPairs (labels n))).

Definition errUnmarshal : err := GoErr "could not unmarshal proto: %w".

(** The consensus role of a message. *)
Definition unmarshalConsensus (cm : ConsensusMemberMsg) : result err ConsensusMember :=
  match ParseCertificate (CaCertificate cm) with
  | None => Err (GoErr "could not unmarshal consensus ca certificate: %w")
  | Some caCert =>
      match ParseCertificate (PeerCertificate cm) with
      | None => Err (GoErr "could not unmarshal consensus peer certificate: %w")
      | Some peerCert =>
          match ParseCRL (InitialCrl cm) with
          | None => Err (GoErr "could not unmarshal consensus crl: %w")
          | Some crl => Ok (mkCM caCert peerCert (InitialCrl cm) crl (PeersMsg cm))
          end
      end
  end.

(** The prefixes of a message; invalid ones are dropped. *)
Definition unmarshalPrefixes (ps : list string) : list Prefix :=
  omap (fun cidr => if bool_decide (cidr = "") then None else ParsePrefix cidr) ps.

(** The labels of a message; invalid ones are dropped, later ones win. *)
Definition addLabel (ls : gmap string string) (kv : string * string) : gmap string string :=
  if valid kv.1 && valid kv.2 then <[kv.1 := kv.2]> ls else ls.
Definition unmarshalLabels (pairs : list (string * string)) : gmap string string :=
  foldl addLabel ∅ pairs.

(** [nodeUnmarshal]; a message without roles is a nil dereference. *)
Definition nodeFromMsg (msg : NodeMsg) : result err Node :=
  match Roles msg with
  | None => Err Panic
  | Some roles =>
      cm ← match ConsensusMemberM roles with
           | None => Ok None
           | Some cm => Some <$> unmarshalConsensus cm
           end;
      Ok (mkNode (ClusterUnlockKey msg) (PublicKey msg) (JoinKey msg) (FsmState msg) (StatusMsg msg)
            (TpmUsage msg) cm (KubernetesControllerMsg roles) (KubernetesWorkerMsg roles)
            (from_option WireguardPubkey "" (Clusternet msg))
            (from_option (unmarshalPrefixes ∘ Prefixes) [] (Clusternet msg))
            (from_option unmarshalLabels ∅ (LabelsMsg msg)))
  end.

Definition nodeUnmarshal (data : string) : result err Node :=
  match Unmarshal data with
  | None => Err errUnmarshal
  | Some msg => nodeFromMsg msg
  end.

(** ** Nodes that survive a round trip *)

Definition consensus_ok (cm : ConsensusMember) : Prop :=
  ParseCertificate (CertRaw (CACertificate cm)) = Some (CACertificate cm) /\
  ParseCertificate (CertRaw (PeerCert cm)) = Some (PeerCert cm) /\
  ParseCRL (CRLRaw cm) = Some (CRLParsed cm).

Definition labels_ok (ls : gmap string string) : Prop :=
  map_Forall (fun k v => valid k = true /\ valid v = true) ls.

Record node_ok (n : Node) : Prop := {
  ok_consensus : from_option consensus_ok True (consensusMember n);
  ok_network : wireguardKey n = "" -> networkPrefixes n = [];
  ok_prefixes : Forall prefix_valid (networkPrefixes n);
  ok_labels : labels_ok (labels n)
}.

Lemma unmarshalPrefixes_String ps :
  Forall prefix_valid ps -> unmarshalPrefixes (Prefix_String <$> ps) = ps.
Proof.
  induction 1 as [|p ps Hp _ IH]; [done|]. unfold unmarshalPrefixes in *. csimpl.
  rewrite bool_decide_eq_false_2 by apply Prefix_String_nonempty.
  rewrite ParsePrefix_String by done. by rewrite IH.
Qed.

Lemma unmarshalLabels_acc ls pairs :
  Forall (fun kv => valid kv.1 = true /\ valid kv.2 = true) pairs -> NoDup pairs.*1 ->
  (forall k, k ∈ pairs.*1 -> ls !! k = None) ->
  foldl addLabel ls pairs = list_to_map pairs ∪ ls.
Proof.
  revert ls. induction pairs as [|[k v] pairs IH]; intros ls Hv Hnd Hls.
  { simpl. by rewrite (left_id_L ∅ (∪)). }
  apply Forall_cons in Hv as [[Hk Hv1] Hv]. csimpl in Hnd. apply NoDup_cons in Hnd as [Hnin Hnd].
  cbn [foldl]. unfold addLabel at 2. simpl in Hk, Hv1. simpl fst. simpl snd. rewrite Hk, Hv1. simpl andb. cbv iota.
  rewrite IH; [|done|done|].
  - simpl. rewrite <- insert_union_r by (by apply not_elem_of_list_to_map_1).
    by rewrite insert_union_l.
  - intros k' Hk'. rewrite lookup_insert_ne by (intros ->; done). apply Hls. csimpl. by right.
Qed.

Lemma unmarshalLabels_pairs ls : labels_ok ls -> unmarshalLabels (labelPairs ls) = ls.
Proof.
  intros Hok. unfold unmarshalLabels, labelPairs.
  pose proof (merge_sort_Permutation pair_le (map_to_list ls)) as Hp.
  rewrite unmarshalLabels_acc.
  - rewrite (right_id_L ∅ (∪)). rewrite <- (list_to_map_to_list ls) at 2.
    apply list_to_map_proper; [|done]. rewrite Hp. apply NoDup_fst_map_to_list.
  - rewrite Hp. apply Forall_forall. intros [k v] Hin%elem_of_map_to_list. by apply Hok.
  - rewrite Hp. apply NoDup_fst_map_to_list.
  - intros k _. apply lookup_empty.
Qed.

Lemma nodeFromMsg_proto n : node_ok n -> nodeFromMsg (proto n) = Ok n.
Proof.
  intros [Hc Hn Hp Hl]. destruct n as [cuk pub jk st sts tpm cm kc kw wg ps ls]. simpl in *.
  unfold nodeFromMsg, proto. simpl.
  rewrite unmarshalLabels_pairs by done.
  assert (match (fun cm => mkCMMsg (CertRaw (CACertificate cm)) (CertRaw (PeerCert cm)) (CRLRaw cm) (Peers cm)) <$> cm with
          | None => Ok None | Some cm => Some <$> unmarshalConsensus cm end = Ok cm) as ->.
  { destruct cm as [[c1 c2 raw lst prs]|]; [|done]. simpl in *. destruct Hc as (H1 & H2 & H3). simpl in *.
    unfold unmarshalConsensus. simpl. by rewrite H1, H2, H3. }
  simpl. case_bool_decide as Hw; simpl.
  - by rewrite unmarshalPrefixes_String.
  - subst wg. by rewrite Hn.
Qed.

Lemma nodeUnmarshal_Marshal n b :
  node_ok n -> Marshal (proto n) = Some b -> nodeUnmarshal b = Ok n.
Proof.
  intros Hok Hb. unfold nodeUnmarshal. rewrite (Unmarshal_Marshal _ _ Hb).
  by apply nodeFromMsg_proto.
Qed.

(** What is read from the store has valid labels, valid prefixes and
    well-formed certificates. *)
Lemma unmarshalLabels_ok pairs : labels_ok (unmarshalLabels pairs).
Proof.
  unfold unmarshalLabels. assert (labels_ok ∅) as H0 by apply map_Forall_empty. revert H0.
  generalize (∅ : gmap string string). induction pairs as [|[k v] pairs IH]; intros ls Hls; [done|].
  simpl. apply IH. unfold addLabel. simpl. destruct (valid k && valid v) eqn:E; [|done].
  apply andb_true_iff in E as [? ?]. apply map_Forall_insert_2; done.
Qed.

Lemma unmarshalPrefixes_valid ps : Forall prefix_valid (unmarshalPrefixes ps).
Proof.
  apply Forall_forall. intros p (s & _ & Hs)%list_elem_of_omap.
  case_bool_decide; [done|]. by apply ParsePrefix_valid in Hs.
Qed.

End Node.

End CuratorNode.
