(* ===== verification/CuratorState.v ===== *)
(** * The curator's state in etcd

    Models the accessors of [metropolis/node/core/curator]: transactions that
    are fenced by leadership ([impl_leader.go]), loading and saving of nodes
    ([state_node.go]), of the cluster configuration ([state_cluster.go]) and of
    the register ticket ([state_registerticket.go]). *)

From S2P Require Import Prelude GoStrings EtcdPrefix Labels Etcd Interfaces Effects ClusterConfig CuratorNode.

Module CuratorState.
Import EtcdPrefix Etcd Interfaces Effects ClusterConfig CuratorNode.

(** [leadership]: the etcd key and revision that back it. *)
Record leadership := mkLeadership {
  lockKey : string;
  lockRev : Z;
  leaderID : string
}.

(** The errors of [txnAsLeader]. *)
Inductive leaderErr := LostLeadership | TxnFailed (e : clientErr).

(** [rpcError]: the errors that are reported as they are. *)
Definition rpcError (e : leaderErr) : option err :=
  match e with
  | LostLeadership => Some (Status Unavailable "lost leadership")
  | TxnFailed ErrDeadlineExceeded => Some (Status DeadlineExceeded "context deadline exceeded")
  | TxnFailed ErrCanceled => Some (Status Canceled "context canceled")
  | TxnFailed ErrClient => None
  end.

Definition leaderStatus (msg : string) (e : leaderErr) : err :=
  default (Status Unavailable msg) (rpcError e).

Definition NodeEtcdPrefix : etcdPrefix := EtcdPrefix.mkPrefix ["nodes"].
Definition joinCredPrefix : etcdPrefix := EtcdPrefix.mkPrefix ["join_keys"].
Definition clusterConfigurationKey : string := "/cluster/configuration".
Definition registerTicketEtcdPath : string := "/global/register_ticket".
Definition initialOwnerEtcdPath : string := "/global/initial_owner".
Definition registerTicketSize : nat := 32.

Definition errNodeNotFound : err := Status NotFound "node not found".

(** The messages [ppb.RegisterTicket] and [ppb.InitialOwner]. *)
Record RegisterTicketMsg := mkTicketMsg { Opaque : string }.
Record InitialOwnerMsg := mkOwnerMsg { OwnerPublicKey : string }.

(** What a handler sees of the world: the guarded values of etcd, and the cache
    of WireGuard keys. *)
Abbreviation view := (gmap string string * option (gmap string string))%type.

Section State.
Context {E : Etcd} {X : X509} {NT : NetText} {NC : Codec NodeMsg} {CC : Codec ClusterConfiguration}.
Context {TC : Codec RegisterTicketMsg}.

(** [txnAsLeader]; the second call only fetches data for a log line. *)
Definition txnAsLeader (l : leadership) (ops : list op) : prog (result leaderErr (list opResp)) :=
  call! resp := ETxn [CreateRevision (lockKey l) (lockRev l)] ops in
  match resp with
  | Failed e => Ret (Err (TxnFailed e))
  | Rejected => call! _ := ETxn [] [OpGet (lockKey l)] in Ret (Err LostLeadership)
  | Committed rs => Ret (Ok rs)
  end.

(** [res.Responses[0].GetResponseRange().Kvs]. *)
Definition firstKvs (rs : list opResp) : list (string * kv) :=
  match rs with RespRange kvs :: _ => kvs | _ => [] end.

(** A fenced transaction whose errors are turned into statuses. *)
Definition leaderTxn (l : leadership) (msg : string) (ops : list op) : handler (list opResp) :=
  prog_bind (txnAsLeader l ops)
    (fun r => Ret match r with Ok rs => Ok rs | Err e => Err (leaderStatus msg e) end).

Definition orPanic {A} (o : option A) : handler A := Ret (match o with Some a => Ok a | None => Err Panic end).

Definition nodeLoad (l : leadership) (id : string) : handler Node :=
  match Key NodeEtcdPrefix id with
  | Err _ => Ret (Err (Status InvalidArgument "invalid node id"))
  | Ok key =>
      let! res := leaderTxn l "could not retrieve node %s: %v" [OpGet key] in
      match firstKvs res with
      | [(_, e)] =>
          Ret match nodeUnmarshal (kv_value e) with
              | Ok node => Ok node
              | Err Panic => Err Panic
              | Err _ => Err (Status Unavailable "could not unmarshal node")
              end
      | _ => Ret (Err errNodeNotFound)
      end
  end.

Definition etcdNodePath (n : Node) (id : string) : result string string := Key NodeEtcdPrefix id.
Definition etcdJoinKeyPath (n : Node) : result string string := Key joinCredPrefix (hexEncode (jkey n)).

Definition nodeSave (l : leadership) (n : Node) : handler unit :=
  let! id := orPanic (ID n) in
  match etcdNodePath n id with
  | Err _ => Ret (Err (Status InvalidArgument "invalid node id"))
  | Ok nkey =>
      match Marshal (proto n) with
      | None => Ret (Err (Status Unavailable "could not marshal updated node"))
      | Some nodeBytes =>
          match etcdJoinKeyPath n with
          | Err _ => Ret (Err (Status InvalidArgument "invalid join key representation"))
          | Ok jkey =>
              let! _ := leaderTxn l "could not save updated node" [OpPut nkey nodeBytes; OpPut jkey id] in
              Ret (Ok tt)
          end
      end
  end.

Definition nodeDestroy (l : leadership) (n : Node) : handler unit :=
  let! id := orPanic (ID n) in
  match etcdNodePath n id with
  | Err _ => Ret (Err (Status InvalidArgument "invalid node id"))
  | Ok nkey =>
      match etcdJoinKeyPath n with
      | Err _ => Ret (Err (Status InvalidArgument "invalid join key representation"))
      | Ok jkey =>
          let! _ := leaderTxn l "could not destroy node" [OpDelete nkey; OpDelete jkey] in
          Ret (Ok tt)
      end
  end.

Definition nodeIdByJoinKey (l : leadership) (jk : string) : handler string :=
  check! negb (bool_decide (jk = "")) else Status InvalidArgument "join key is empty" in
  match Key joinCredPrefix (hexEncode jk) with
  | Err _ => Ret (Err (Status InvalidArgument "invalid join key representation"))
  | Ok key =>
      let! res := leaderTxn l "could not retrieve node id matching join key %s: %v" [OpGet key] in
      match firstKvs res with
      | [(_, e)] => Ret (Ok (kv_value e))
      | _ => Ret (Err errNodeNotFound)
      end
  end.

Definition clusterUnmarshal (data : string) : result err Cluster :=
  match Unmarshal (M := ClusterConfiguration) data with
  | None => Err (GoErr "could not unmarshal proto: %w")
  | Some msg => clusterFromProto msg
  end.

Definition clusterLoad (l : leadership) : handler Cluster :=
  let! res := leaderTxn l "could not retrieve cluster configuration: %v" [OpGet clusterConfigurationKey] in
  match firstKvs res with
  | [(_, e)] =>
      Ret match clusterUnmarshal (kv_value e) with
          | Ok c => Ok c
          | Err _ => Err (Status Unavailable "could not unmarshal cluster")
          end
  | _ => Ret (Err errNodeNotFound)
  end.

Definition clusterSave (l : leadership) (c : Cluster) : handler unit :=
  match clusterProto c with
  | Err _ => Ret (Err (Status Unavailable "could not convert updated cluster"))
  | Ok msg =>
      match Marshal msg with
      | None => Ret (Err (Status Unavailable "could not marshal updated cluster"))
      | Some b =>
          let! _ := leaderTxn l "could not save updated cluster configuration" [OpPut clusterConfigurationKey b] in
          Ret (Ok tt)
      end
  end.

(** [ensureRegisterTicket]: here every error of a transaction is reported with
    the same status. *)
Definition ensureRegisterTicket (l : leadership) : handler string :=
  prog_bind (txnAsLeader l [OpGet registerTicketEtcdPath]) (fun r =>
  match r with
  | Err _ => Ret (Err (Status Unavailable "could not retrieve register ticket: %v"))
  | Ok res =>
      match firstKvs res with
      | (_, e) :: _ => Ret (Ok (kv_value e))
      | [] =>
          call! opaque := ERand registerTicketSize in
          match opaque with
          | None => Ret (Err (Status Unavailable "could not generate new ticket: %v"))
          | Some opaque =>
              match Marshal (mkTicketMsg opaque) with
              | None => Ret (Err (Status Unavailable "could not marshal new ticket: %v"))
              | Some ticketBytes =>
                  prog_bind (txnAsLeader l [OpPut registerTicketEtcdPath ticketBytes]) (fun r =>
                  match r with
                  | Err _ => Ret (Err (Status Unavailable "could not save new ticket: %v"))
                  | Ok _ => Ret (Ok ticketBytes)
                  end)
              end
          end
      end
  end).

(** ** What leadership protects *)

(** The keys that only the leader writes, under the lock on nodes. *)
Definition guarded (k : string) : bool :=
  HasPrefix k "/nodes/" || HasPrefix k "/join_keys/" || bool_decide (k = clusterConfigurationKey).

Definition gdata (d : db) : gmap string string :=
  filter (fun e => guarded e.1 = true) (values d).

Definition held (l : leadership) (w : world) : Prop :=
  cmp_holds (store w) (CreateRevision (lockKey l) (lockRev l)) = true.

#[export] Instance held_dec l w : Decision (held l w).
Proof. unfold held. apply _. Defined.

Definition view_of (w : world) : view := (gdata (store w), cache w).

(** How the guarded state evolves by the other handlers of the same leader. *)
Context (env : view -> view -> Prop).

(** What the rest of the system does between two calls of a handler: as long as
    the leadership is still held, it was held all along (an etcd lock key that
    was lost cannot be regained with the same creation revision), and nobody
    else but this leader's handlers wrote guarded keys or the leader's cache:
    nobody at all while the handler has the lock on nodes. *)
Definition rely (l : leadership) (w w' : world) : Prop :=
  locked w' = locked w /\
  (held l w' -> held l w /\
     if locked w then view_of w' = view_of w else env (view_of w) (view_of w')).

(** What a handler with the lock knows about the guarded state: if the leadership
    is held, then it was held when the handler started ([Hist]), and the state is as
    in [P]; [owns] when it is known to be held. *)
Context (Hist : Prop).

Definition lead (l : leadership) (P : view -> Prop) (w : world) : Prop :=
  locked w = true /\ (held l w -> Hist /\ P (view_of w)).
Definition owns (l : leadership) (P : view -> Prop) (w : world) : Prop :=
  locked w = true /\ held l w /\ Hist /\ P (view_of w).

Lemma lead_rely l P w w' : lead l P w -> rely l w w' -> lead l P w'.
Proof.
  intros [Hl HP] [Hl' HR]. split; [by rewrite Hl'|]. intros Hh. destruct (HR Hh) as [Hh0 Hv].
  rewrite Hl in Hv. rewrite Hv. by apply HP.
Qed.

Lemma lead_mono l (P Q : view -> Prop) w : (forall v, P v -> Q v) -> lead l P w -> lead l Q w.
Proof. intros HPQ [Hl HP]. split; [done|]. intros Hh. destruct (HP Hh). auto. Qed.

Lemma owns_lead l P w : owns l P w -> lead l P w.
Proof. intros (? & ? & ? & ?). by split. Qed.

(** ** Fenced transactions *)

Lemma gdata_lookup d k : gdata d !! k = if guarded k then kv_value <$> d !! k else None.
Proof.
  unfold gdata, values. destruct (guarded k) eqn:Hk.
  - destruct (d !! k) as [e|] eqn:Hd; simpl.
    + apply map_lookup_filter_Some. rewrite lookup_fmap, Hd. done.
    + apply map_lookup_filter_None. left. by rewrite lookup_fmap, Hd.
  - apply map_lookup_filter_None. right. intros x _. simpl. by rewrite Hk.
Qed.

Lemma vapply_lookup g ops k :
  k ∉ (ops ≫= op_writes) -> vapply g ops !! k = g !! k.
Proof.
  revert g. induction ops as [|o ops IH]; intros g Hk; [done|].
  rewrite bind_cons in Hk. apply not_elem_of_app in Hk as [Hk1 Hk2].
  unfold vapply in *. simpl. rewrite IH by done. destruct o; simpl in *; try done.
  - rewrite lookup_insert_ne; [done|]. set_solver.
  - rewrite lookup_delete_ne; [done|]. set_solver.
Qed.

Lemma gdata_apply r d ops :
  Forall (fun k => guarded k = true) (ops ≫= op_writes) ->
  gdata (apply_ops r d ops).1 = vapply (gdata d) ops.
Proof.
  intros Hg. apply map_eq. intros k. rewrite gdata_lookup.
  rewrite <- (lookup_fmap kv_value). change (kv_value <$> (apply_ops r d ops).1) with (values (apply_ops r d ops).1).
  rewrite values_apply. revert d Hg. unfold gdata.
  assert (forall g h, (forall k, h !! k = if guarded k then g !! k else None) ->
    Forall (fun k => guarded k = true) (ops ≫= op_writes) ->
    (if guarded k then vapply g ops !! k else None) = vapply h ops !! k) as H.
  { induction ops as [|o ops IH]; intros g h Hgh Hg; [symmetry; apply Hgh|].
    rewrite bind_cons in Hg. apply Forall_app in Hg as [Hg1 Hg2]. unfold vapply in *. simpl.
    apply IH; [|done]. intros k'. destruct o; simpl in *; try apply Hgh.
    - rewrite !lookup_insert. apply Forall_cons in Hg1 as [Hg1 _].
      case_decide; [subst; by rewrite Hg1|apply Hgh].
    - rewrite !lookup_delete. case_decide; [by destruct (guarded k')|apply Hgh]. }
  intros d Hg. apply H; [|done]. intros k'. change (filter (fun e => guarded e.1 = true) (values d)) with (gdata d).
  rewrite gdata_lookup. unfold values. by rewrite lookup_fmap.
Qed.

Context (l : leadership).
Context (Hlock : guarded (lockKey l) = false).

Lemma held_apply r d ops :
  Forall (fun k => guarded k = true) (ops ≫= op_writes) ->
  (apply_ops r d ops).1 !! lockKey l = d !! lockKey l.
Proof.
  intros Hg. apply apply_ops_other. intros Hin. rewrite Forall_forall in Hg.
  apply Hg in Hin. congruence.
Qed.

Lemma wp_txnAsLeader ops v0 Q w :
  Forall (fun k => guarded k = true) (ops ≫= op_writes) ->
  lead l (eq v0) w ->
  (forall w' d r, owns l (eq (vapply v0.1 ops, v0.2)) w' -> gdata d = v0.1 ->
     Q w' (Ok (apply_ops r d ops).2)) ->
  (forall w', lead l (fun _ => False) w' -> Q w' (Err LostLeadership)) ->
  (forall w' e, lead l (fun v => v = v0 \/ v = (vapply v0.1 ops, v0.2)) w' -> Q w' (Err (TxnFailed e))) ->
  wp (rely l) (txnAsLeader l ops) Q w.
Proof.
  intros Hg Hlead Hok Hlost Hfail. intros w1 res (w0 & s & HR & Ht & ->).
  pose proof (lead_rely l _ _ _ Hlead HR) as [Hlk Hlead0].
  destruct res as [rs| |e]; simpl.
  - apply txn_committed in Ht as (Hh & r & _ & Eop).
    assert (held l w0) as Hh0 by (by apply andb_true_iff in Hh as [? _]).
    destruct (Hlead0 Hh0) as [HH Hv]. unfold view_of in Hv.
    assert (content s = (apply_ops r (store w0) ops).1) as Es by (unfold store; by rewrite Eop).
    assert (rs = (apply_ops r (store w0) ops).2) as -> by (unfold store; by rewrite Eop).
    apply Hok; [split_and!; [done| |done|]|].
    + unfold held, store. simpl. unfold store in Es. rewrite Es. simpl in *.
      by rewrite (held_apply r (content (es w0)) ops Hg).
    + unfold view_of, store. simpl. rewrite Es, gdata_apply by done. by rewrite Hv.
    + by rewrite Hv.
  - apply txn_rejected in Ht as [Hh Es].
    intros w2 x (w3 & s' & [Hlk' HR'] & Ht' & ->).
    assert (~ held l (set_es s w0)) as Hno.
    { unfold held, store. simpl. rewrite Es. intros Hh'. apply not_true_iff_false in Hh. apply Hh.
      simpl. by rewrite Hh'. }
    apply Hlost. split; [by simpl; rewrite Hlk'|]. intros Hh2. exfalso. apply Hno.
    assert (held l w3) as Hh3.
    { unfold held, store in *. simpl in *. destruct x as [rs| |e].
      - apply txn_committed in Ht' as (_ & r & _ & [= E1 _]). by rewrite E1.
      - apply txn_rejected in Ht' as [_ E1]. by rewrite <- E1.
      - apply txn_failed in Ht' as [E1|(_ & r & _ & E1)]; by rewrite E1 in Hh2. }
    by destruct (HR' Hh3).
  - apply Hfail. split; [done|]. intros Hh. apply txn_failed in Ht as [Es|(Hh' & r & _ & Es)].
    + unfold held, view_of, store in *. simpl in *. rewrite Es in *.
      destruct (Hlead0 Hh) as [HH Hv]. split; [done|]. left. by rewrite Hv.
    + assert (held l w0) as Hh0 by (by apply andb_true_iff in Hh' as [? _]).
      destruct (Hlead0 Hh0) as [HH Hv]. split; [done|]. right.
      unfold view_of, store in *. simpl. rewrite Es, gdata_apply by done. by rewrite Hv.
Qed.

(** A program that writes no guarded keys is, for the guarded state, like the
    rest of the system. *)
Context (Henv : PreOrder env).

Lemma rely_refl w : rely l w w.
Proof. split; [done|]. intros Hh. split; [done|]. by destruct (locked w). Qed.

Lemma rely_trans w1 w2 w3 : rely l w1 w2 -> rely l w2 w3 -> rely l w1 w3.
Proof.
  intros [L12 H12] [L23 H23]. split; [congruence|]. intros Hh. destruct (H23 Hh) as [Hh2 V23].
  destruct (H12 Hh2) as [Hh1 V12]. split; [done|]. rewrite L12 in V23.
  destruct (locked w1); [congruence|by etrans].
Qed.

Definition unguarded (k : string) : Prop := guarded k = false /\ k <> lockKey l.

Lemma rely_txn w w0 s cs ops res :
  rely l w w0 -> txn (es w0) cs ops s res -> Forall unguarded (ops ≫= op_writes) ->
  rely l w (set_es s w0).
Proof.
  intros HR Ht Hg. eapply rely_trans; [exact HR|]. split; [done|].
  assert (forall r, let d := (apply_ops r (store w0) ops).1 in
    d !! lockKey l = store w0 !! lockKey l /\ gdata d = gdata (store w0)) as Happ.
  { intros r. simpl. rewrite Forall_forall in Hg. split.
    - apply apply_ops_other. intros Hin. by destruct (Hg _ Hin).
    - apply map_eq. intros k. rewrite !gdata_lookup. destruct (guarded k) eqn:Hk; [|done].
      rewrite apply_ops_other; [done|]. intros Hin. destruct (Hg _ Hin). congruence. }
  assert (store (set_es s w0) !! lockKey l = store w0 !! lockKey l /\
          gdata (store (set_es s w0)) = gdata (store w0)) as [Hlk Hgd].
  { rewrite store_set_es. destruct res as [rs| |e].
    - apply txn_committed in Ht as (_ & r & _ & E1). specialize (Happ r). unfold store in Happ.
      by rewrite E1 in Happ.
    - apply txn_rejected in Ht as [_ ->]. done.
    - apply txn_failed in Ht as [->|(_ & r & _ & ->)]; [done|apply Happ]. }
  unfold held, view_of. simpl cmp_holds. rewrite Hlk, Hgd. intros Hh. split; [done|].
  by destruct (locked w0).
Qed.

Lemma wp_only {A} (P : string -> Prop) (Q : A -> Prop) p w w0 :
  only P Q p -> (forall k, P k -> unguarded k) -> rely l w w0 ->
  wp (rely l) p (fun w' a => rely l w w' /\ Q a) w0.
Proof.
  intros Hp HP. revert w0. induction p as [a|B e k IH]; intros w0 HR; [done|].
  destruct Hp as [He Hp]. intros w1 x Hs. apply IH; [apply Hp|]. clear IH Hp k.
  destruct e; simpl in He, Hs.
  - destruct Hs as (w2 & s & HR2 & Ht & ->). apply (rely_txn w w2 s cs ops x); [by eapply rely_trans|done|].
    eapply Forall_impl; [exact He|]. exact HP.
  - by destruct Hs as [-> _].
  - by destruct Hs as [-> _].
  - by subst.
  - by destruct Hs as [-> _].
  - by destruct Hs as [-> _].
  - by destruct Hs as [-> _].
  - destruct Hs as [HR2 _]. by eapply rely_trans.
  - by destruct Hs as [-> _].
  - done.
  - destruct Hs as [HR2 _]. by eapply rely_trans.
  - destruct Hs as (w2 & HR2 & ->). eapply rely_trans; [exact HR|]. eapply rely_trans; [exact HR2|].
    exact (rely_refl w2).
  - by destruct Hs as [-> _].
  - by subst.
  - done.
  - done.
Qed.

End State.

End CuratorState.
