(* ===== verification/CuratorSpec.v ===== *)
(** * What the curator's accessors do

    The abstract state of a cluster, as decoded from the guarded keys of etcd,
    and specifications of the accessors of [CuratorState] in terms of it. *)

From S2P Require Import Prelude GoStrings EtcdPrefix Labels Etcd Interfaces Effects ClusterConfig CuratorNode CuratorState.

Module CuratorSpec.
Import EtcdPrefix Etcd Interfaces Effects ClusterConfig CuratorNode CuratorState.

Section Spec.
Context {E : Etcd} {X : X509} {NT : NetText} {NC : Codec NodeMsg} {CC : Codec ClusterConfiguration}.
Context {TC : Codec RegisterTicketMsg}.

(** ** Decoding *)

(** The entries under a prefix, by identifier. *)
Definition section (p : etcdPrefix) (g : gmap string string) : gmap string string :=
  list_to_map (omap (fun kv => let id := ExtractID p kv.1 in
                               if bool_decide (id = "") then None else Some (id, kv.2)) (map_to_list g)).

Lemma section_lookup p g id v :
  parts p <> [] ->
  section p g !! id = Some v <-> exists key, Key p id = Ok key /\ g !! key = Some v.
Proof.
  intros Hne. unfold section.
  set (f := fun kv : string * string => let id := ExtractID p kv.1 in
              if bool_decide (id = "") then None else Some (id, kv.2)).
  assert (forall id v, (id, v) ∈ omap f (map_to_list g) <-> exists key, Key p id = Ok key /\ g !! key = Some v) as Hin.
  { intros id' v'. rewrite list_elem_of_omap. split.
    - intros ([k x] & Hk%elem_of_map_to_list & Hf). unfold f in Hf. simpl in Hf.
      case_bool_decide as Hid; [done|]. injection Hf as <- <-. exists k.
      split; [|done]. by apply Key_iff_ExtractID.
    - intros (key & Hkey & Hg). apply Key_iff_ExtractID in Hkey as [Hid Hne']; [|done].
      exists (key, v'). split; [by apply elem_of_map_to_list|]. unfold f. simpl. rewrite Hid.
      by rewrite bool_decide_eq_false_2. }
  rewrite <- Hin. split; [apply elem_of_list_to_map_2|].
  intros H. apply elem_of_list_to_map_1'; [|done]. intros y Hy.
  apply Hin in H as (k1 & H1 & G1). apply Hin in Hy as (k2 & H2 & G2). congruence.
Qed.

Lemma section_None p g id :
  parts p <> [] -> section p g !! id = None <-> forall key, Key p id = Ok key -> g !! key = None.
Proof.
  intros Hne. split.
  - intros H key Hk. destruct (g !! key) as [v|] eqn:Hg; [|done].
    assert (section p g !! id = Some v) by (apply section_lookup; eauto). congruence.
  - intros H. destruct (section p g !! id) as [v|] eqn:Hs; [|done].
    apply section_lookup in Hs as (key & Hk & Hg); [|done]. specialize (H key Hk). congruence.
Qed.

Lemma section_eq p g id key : parts p <> [] -> Key p id = Ok key -> section p g !! id = g !! key.
Proof.
  intros Hne Hk. destruct (g !! key) as [v|] eqn:Hg.
  - apply section_lookup; eauto.
  - apply section_None; [done|]. congruence.
Qed.

(** The section after a change at one key. *)
Lemma section_insert p g id key v :
  parts p <> [] -> Key p id = Ok key -> section p (<[key := v]> g) = <[id := v]> (section p g).
Proof.
  intros Hne Hk. apply map_eq. intros id'. apply option_eq. intros x.
  rewrite section_lookup by done. rewrite lookup_insert. split.
  - intros (k' & Hk' & Hg). rewrite lookup_insert in Hg. case_decide as Ek.
    + subst k'. apply Key_iff_ExtractID in Hk as [<- _], Hk' as [<- _]; [|done..]. by rewrite decide_True.
    + rewrite decide_False by (intros ->; congruence). apply section_lookup; eauto.
  - case_decide as Ei.
    + subst id'. intros [= <-]. exists key. by rewrite lookup_insert_eq.
    + intros (k' & Hk' & Hg)%section_lookup; [|done]. exists k'. split; [done|].
      rewrite lookup_insert_ne; [done|]. intros ->.
      apply Key_iff_ExtractID in Hk as [? _], Hk' as [? _]; [|done..]. congruence.
Qed.

Lemma section_delete p g id key :
  parts p <> [] -> Key p id = Ok key -> section p (delete key g) = delete id (section p g).
Proof.
  intros Hne Hk. apply map_eq. intros id'. apply option_eq. intros x.
  rewrite section_lookup by done. rewrite lookup_delete_Some, section_lookup by done. split.
  - intros (k' & Hk' & Hg). apply lookup_delete_Some in Hg as [Hne' Hg]. split; [|eauto].
    intros ->. congruence.
  - intros (Hid & k' & Hk' & Hg). exists k'. split; [done|]. apply lookup_delete_Some. split; [|done].
    intros ->. apply Key_iff_ExtractID in Hk as [? _], Hk' as [? _]; [|done..]. congruence.
Qed.

Lemma section_other p g key v :
  parts p <> [] -> (forall id, Key p id <> Ok key) ->
  section p (<[key := v]> g) = section p g /\ section p (delete key g) = section p g.
Proof.
  intros Hne Hno. split; apply map_eq; intros id; apply option_eq; intros x;
    rewrite !section_lookup by done.
  - split; intros (k & Hk & Hg); exists k; (split; [done|]);
      [rewrite lookup_insert_ne in Hg|rewrite lookup_insert_ne]; try done; intros ->; by apply (Hno id).
  - split; intros (k & Hk & Hg); exists k; (split; [done|]);
      [rewrite lookup_delete_ne in Hg|rewrite lookup_delete_ne]; try done; intros ->; by apply (Hno id).
Qed.

(** The abstract state: nodes by identifier, node identifiers by join key, and the
    cluster configuration. *)
Record cluster := mkAbs {
  nodes : gmap string Node;
  joins : gmap string string;
  config : option Cluster
}.

Definition decodeNode (v : string) : option Node :=
  match nodeUnmarshal v with Ok n => Some n | Err _ => None end.
Definition decodeCluster (v : string) : option Cluster :=
  match clusterUnmarshal v with Ok c => Some c | Err _ => None end.

Definition abs (g : gmap string string) : cluster :=
  mkAbs (omap decodeNode (section NodeEtcdPrefix g)) (section joinCredPrefix g)
    (g !! clusterConfigurationKey ≫= decodeCluster).

Definition save_node (id : string) (n : Node) (a : cluster) : cluster :=
  mkAbs (<[id := n]> (nodes a)) (<[hexEncode (jkey n) := id]> (joins a)) (config a).
Definition drop_node (id : string) (n : Node) (a : cluster) : cluster :=
  mkAbs (delete id (nodes a)) (delete (hexEncode (jkey n)) (joins a)) (config a).

(** ** Keys *)

Lemma Key_nodes id key : Key NodeEtcdPrefix id = Ok key -> key = "/nodes/" +:+ id.
Proof.
  unfold Key. case_bool_decide; [done|]. simpl. by destruct (ContainsByte id slash); intros [= <-].
Qed.
Lemma Key_joins id key : Key joinCredPrefix id = Ok key -> key = "/join_keys/" +:+ id.
Proof.
  unfold Key. case_bool_decide; [done|]. simpl. by destruct (ContainsByte id slash); intros [= <-].
Qed.

Lemma guarded_nodes id key : Key NodeEtcdPrefix id = Ok key -> guarded key = true.
Proof. intros ->%Key_nodes. unfold guarded. by rewrite HasPrefix_app. Qed.
Lemma guarded_joins id key : Key joinCredPrefix id = Ok key -> guarded key = true.
Proof. intros ->%Key_joins. unfold guarded. rewrite (HasPrefix_app "/join_keys/"). by rewrite orb_true_r. Qed.

Lemma abs_put_both g id jk nkey jkp n b :
  node_ok n -> Key NodeEtcdPrefix id = Ok nkey -> Key joinCredPrefix jk = Ok jkp ->
  jk = hexEncode (jkey n) -> Marshal (proto n) = Some b ->
  abs (vapply g [OpPut nkey b; OpPut jkp id]) = save_node id n (abs g).
Proof.
  intros Hok Hn Hj -> Hb. unfold vapply. simpl. unfold abs, save_node. simpl.
  pose proof (Key_nodes _ _ Hn) as En. pose proof (Key_joins _ _ Hj) as Ej.
  rewrite (section_insert joinCredPrefix _ _ _ _ ltac:(done) Hj).
  destruct (section_other NodeEtcdPrefix (<[nkey := b]> g) jkp id) as [-> _]; [done|intros id' ->%Key_nodes; done|].
  rewrite (section_insert NodeEtcdPrefix _ _ _ _ ltac:(done) Hn).
  destruct (section_other joinCredPrefix g nkey b) as [-> _]; [done|intros id' ->%Key_joins; done|].
  subst nkey jkp. f_equal.
  - rewrite omap_insert_Some with (y := n); [done|].
    unfold decodeNode. by rewrite (nodeUnmarshal_Marshal n b).
  - by rewrite !lookup_insert_ne.
Qed.

Lemma abs_delete_both g id nkey jkp n :
  Key NodeEtcdPrefix id = Ok nkey -> Key joinCredPrefix (hexEncode (jkey n)) = Ok jkp ->
  abs (vapply g [OpDelete nkey; OpDelete jkp]) = drop_node id n (abs g).
Proof.
  intros Hn Hj. unfold vapply. simpl. unfold abs, drop_node. simpl.
  pose proof (Key_nodes _ _ Hn) as En. pose proof (Key_joins _ _ Hj) as Ej.
  rewrite (section_delete joinCredPrefix _ _ _ ltac:(done) Hj).
  destruct (section_other NodeEtcdPrefix (delete nkey g) jkp "") as [_ ->]; [done|intros id' ->%Key_nodes; done|].
  rewrite (section_delete NodeEtcdPrefix _ _ _ ltac:(done) Hn).
  destruct (section_other joinCredPrefix g nkey "") as [_ ->]; [done|intros id' ->%Key_joins; done|].
  subst nkey jkp. f_equal.
  - by rewrite omap_delete.
  - by rewrite !lookup_delete_ne.
Qed.

(** ** Accessors *)

Context (l : leadership).
Context (Hlock : guarded (lockKey l) = false).
Context (env : view -> view -> Prop) (Hist : Prop).
Local Abbreviation rely := (rely env).
Local Abbreviation lead := (lead Hist).
Local Abbreviation owns := (owns Hist).

Definition kv_pair (e : string * kv) : string * string := (e.1, kv_value e.2).
Definition entry (g : gmap string string) (key : string) : list (string * string) :=
  match g !! key with Some v => [(key, v)] | None => [] end.

Lemma entry_get d g key e :
  guarded key = true -> gdata d = g ->
  kv_pair <$> match d !! key with Some x => [(key, x)] | None => [] end = e -> e = entry g key.
Proof.
  intros Hg <- <-. unfold entry. rewrite gdata_lookup, Hg. by destruct (d !! key).
Qed.

Lemma wp_leaderTxn msg ops v0 Q w :
  Forall (fun k => guarded k = true) (ops ≫= op_writes) ->
  lead l (eq v0) w ->
  (forall w' d r, owns l (eq (vapply v0.1 ops, v0.2)) w' -> gdata d = v0.1 ->
     Q w' (Ok (apply_ops r d ops).2)) ->
  (forall w' le, lead l (fun v => v = v0 \/ v = (vapply v0.1 ops, v0.2)) w' ->
     Q w' (Err (leaderStatus msg le))) ->
  wp (rely l) (leaderTxn l msg ops) Q w.
Proof.
  intros Hg Hlead Hok Herr. unfold leaderTxn. apply wp_bind.
  apply (wp_txnAsLeader env Hist l Hlock ops v0); [done|done| | |].
  - intros w' d r Ho Hd. by apply Hok.
  - intros w' Hno. apply Herr. by eapply lead_mono; [|exact Hno].
  - intros w' e He. by apply Herr.
Qed.

Lemma wp_leaderGet msg key v0 Q w :
  guarded key = true -> lead l (eq v0) w ->
  (forall w' kvs, owns l (eq v0) w' -> kv_pair <$> kvs = entry v0.1 key -> Q w' (Ok [RespRange kvs])) ->
  (forall w' le, lead l (eq v0) w' -> Q w' (Err (leaderStatus msg le))) ->
  wp (rely l) (leaderTxn l msg [OpGet key]) Q w.
Proof.
  intros Hg Hlead Hok Herr. apply (wp_leaderTxn msg [OpGet key] v0); [constructor|done| |].
  - intros w' d r Ho Hd. simpl. apply Hok; [by destruct v0|]. by eapply entry_get.
  - intros w' le Hl. apply Herr. eapply lead_mono; [|exact Hl]. simpl.
    intros v [->| ->]; [done|by destruct v0].
Qed.

Lemma wp_nodeLoad id v0 Q w :
  lead l (eq v0) w ->
  (forall w' n, owns l (eq v0) w' -> nodes (abs v0.1) !! id = Some n -> Q w' (Ok n)) ->
  (forall w' e, lead l (eq v0) w' -> (e = errNodeNotFound -> owns l (eq v0) w' /\ nodes (abs v0.1) !! id = None) ->
     Q w' (Err e)) ->
  wp (rely l) (nodeLoad l id) Q w.
Proof.
  intros Hlead Hok Herr. unfold nodeLoad. destruct (Key NodeEtcdPrefix id) as [key|] eqn:Hk.
  2:{ apply wp_ret. by apply Herr. }
  apply wp_try. apply (wp_leaderGet _ key v0); [by eapply guarded_nodes|done| |].
  2:{ intros w' le Hl. apply Herr; [done|]. by destruct le as [|[]]. }
  intros w' kvs Ho Hkvs. cbn [firstKvs]. pose proof (owns_lead _ _ _ _ Ho) as Hl.
  pose proof (section_eq NodeEtcdPrefix v0.1 id key ltac:(done) Hk) as Hs.
  unfold entry in Hkvs. destruct (v0.1 !! key) as [x|] eqn:Hx.
  - destruct kvs as [|[k e] [|? ?]]; [done| |done]. injection Hkvs as -> <-. apply wp_ret.
    assert (nodes (abs v0.1) !! id = decodeNode (kv_value e)) as Hn.
    { simpl. by rewrite lookup_omap, Hs. }
    unfold decodeNode in Hn. destruct (nodeUnmarshal (kv_value e)) as [n|er]; [by apply Hok|].
    destruct er; apply Herr; done.
  - destruct kvs; [|done]. apply wp_ret. apply Herr; [done|]. intros _. split; [done|].
    simpl. by rewrite lookup_omap, Hs.
Qed.

Lemma wp_nodeIdByJoinKey jk v0 Q w :
  lead l (eq v0) w ->
  (forall w' id, owns l (eq v0) w' -> joins (abs v0.1) !! hexEncode jk = Some id -> Q w' (Ok id)) ->
  (forall w' e, lead l (eq v0) w' -> Q w' (Err e)) ->
  wp (rely l) (nodeIdByJoinKey l jk) Q w.
Proof.
  intros Hlead Hok Herr. unfold nodeIdByJoinKey. case_bool_decide; [apply wp_ret; by apply Herr|]. simpl negb. cbv iota.
  destruct (Key joinCredPrefix (hexEncode jk)) as [key|] eqn:Hk; [|apply wp_ret; by apply Herr].
  apply wp_try. apply (wp_leaderGet _ key v0); [by eapply guarded_joins|done| |].
  2:{ intros w' le Hl. by apply Herr. }
  intros w' kvs Ho Hkvs. cbn [firstKvs].
  pose proof (section_eq joinCredPrefix v0.1 (hexEncode jk) key ltac:(done) Hk) as Hs.
  unfold entry in Hkvs. destruct (v0.1 !! key) as [x|] eqn:Hx.
  - destruct kvs as [|[k e] [|? ?]]; [done| |done]. injection Hkvs as -> <-. apply wp_ret. by apply Hok.
  - destruct kvs; [|done]. apply wp_ret. apply Herr. by apply owns_lead.
Qed.

Lemma wp_clusterLoad v0 Q w :
  lead l (eq v0) w ->
  (forall w' c, owns l (eq v0) w' -> config (abs v0.1) = Some c -> Q w' (Ok c)) ->
  (forall w' e, lead l (eq v0) w' -> Q w' (Err e)) ->
  wp (rely l) (clusterLoad l) Q w.
Proof.
  intros Hlead Hok Herr. unfold clusterLoad. apply wp_try.
  apply (wp_leaderGet _ clusterConfigurationKey v0); [done|done| |].
  2:{ intros w' le Hl. by apply Herr. }
  intros w' kvs Ho Hkvs. cbn [firstKvs]. pose proof (owns_lead _ _ _ _ Ho) as Hl.
  unfold entry in Hkvs. destruct (v0.1 !! clusterConfigurationKey) as [x|] eqn:Hx.
  - destruct kvs as [|[k e] [|? ?]]; [done| |done]. injection Hkvs as -> <-. apply wp_ret.
    assert (config (abs v0.1) = decodeCluster (kv_value e)) as Hc by (simpl; by rewrite Hx).
    unfold decodeCluster in Hc. destruct (clusterUnmarshal (kv_value e)); [by apply Hok|by apply Herr].
  - destruct kvs; [|done]. apply wp_ret. by apply Herr.
Qed.

(** The two outcomes of a write: it succeeded, or it is not known. *)
Definition changed (v0 : view) (a : cluster) (v : view) : Prop := v.2 = v0.2 /\ abs v.1 = a.
Definition maybe_changed (v0 : view) (a : cluster) (v : view) : Prop := v = v0 \/ changed v0 a v.

Lemma lead_maybe v0 a w : lead l (eq v0) w -> lead l (maybe_changed v0 a) w.
Proof. apply lead_mono. intros v <-. by left. Qed.

(** A write of a node's two keys. *)
Lemma wp_nodeWrite msg ops v0 a Q w :
  Forall (fun k => guarded k = true) (ops ≫= op_writes) -> abs (vapply v0.1 ops) = a ->
  lead l (eq v0) w ->
  (forall w', owns l (changed v0 a) w' -> Q w' (Ok tt)) ->
  (forall w' e, lead l (maybe_changed v0 a) w' -> Q w' (Err e)) ->
  wp (rely l) (let! _ := leaderTxn l msg ops in Ret (Ok tt)) Q w.
Proof.
  intros Hg Habs Hlead HQ Herr. apply wp_try, (wp_leaderTxn _ ops v0); [done|done| |].
  - intros w' d r (? & ? & ? & Hv) _. apply wp_ret, HQ. split_and!; [done..|]. rewrite <- Hv. by split.
  - intros w' le Hl. apply Herr. eapply lead_mono; [|exact Hl]. intros v [->| ->]; [by left|right; by split].
Qed.

Lemma wp_nodeSave n id v0 Q w :
  node_ok n -> ID n = Some id -> lead l (eq v0) w ->
  (forall w', owns l (changed v0 (save_node id n (abs v0.1))) w' -> Q w' (Ok tt)) ->
  (forall w' e, lead l (maybe_changed v0 (save_node id n (abs v0.1))) w' -> Q w' (Err e)) ->
  wp (rely l) (nodeSave l n) Q w.
Proof.
  intros Hok Hid Hlead HQ Herr. unfold nodeSave, orPanic. rewrite Hid. apply wp_try, wp_ret.
  assert (forall e, wp (rely l) (Ret (Err e)) Q w) as Hfail by (intros e; by apply wp_ret, Herr, lead_maybe).
  unfold etcdNodePath, etcdJoinKeyPath. destruct (Key NodeEtcdPrefix id) as [nkey|] eqn:Hn; [|apply Hfail].
  destruct (Marshal (proto n)) as [b|] eqn:Hb; [|apply Hfail].
  destruct (Key joinCredPrefix (hexEncode (jkey n))) as [jkp|] eqn:Hj; [|apply Hfail].
  pose proof (abs_put_both v0.1 id _ nkey jkp n b Hok Hn Hj eq_refl Hb) as Habs.
  eapply wp_nodeWrite; [|exact Habs|exact Hlead|exact HQ|exact Herr].
  repeat constructor; [by eapply guarded_nodes|by eapply guarded_joins].
Qed.

Lemma wp_nodeDestroy n id v0 Q w :
  ID n = Some id -> lead l (eq v0) w ->
  (forall w', owns l (changed v0 (drop_node id n (abs v0.1))) w' -> Q w' (Ok tt)) ->
  (forall w' e, lead l (maybe_changed v0 (drop_node id n (abs v0.1))) w' -> Q w' (Err e)) ->
  wp (rely l) (nodeDestroy l n) Q w.
Proof.
  intros Hid Hlead HQ Herr. unfold nodeDestroy, orPanic. rewrite Hid. apply wp_try, wp_ret.
  assert (forall e, wp (rely l) (Ret (Err e)) Q w) as Hfail by (intros e; by apply wp_ret, Herr, lead_maybe).
  unfold etcdNodePath, etcdJoinKeyPath. destruct (Key NodeEtcdPrefix id) as [nkey|] eqn:Hn; [|apply Hfail].
  destruct (Key joinCredPrefix (hexEncode (jkey n))) as [jkp|] eqn:Hj; [|apply Hfail].
  pose proof (abs_delete_both v0.1 id nkey jkp n Hn Hj) as Habs.
  eapply wp_nodeWrite; [|exact Habs|exact Hlead|exact HQ|exact Herr].
  repeat constructor; [by eapply guarded_nodes|by eapply guarded_joins].
Qed.

End Spec.

End CuratorSpec.
