(* ===== verification/CuratorAPI.v ===== *)
(** * The curator's RPC handlers

    Models the leader's implementation of the Curator and Management services:
    [impl_leader_curator.go], [impl_leader_management.go],
    [impl_leader_cluster_networking.go] and [impl_leader_aaa.go] of
    [metropolis/node/core/curator], and [bootstrap.go].  Tracing is left out. *)

From S2P Require Import Prelude GoStrings EtcdPrefix Labels Etcd Interfaces Effects Pki ClusterConfig CuratorNode CuratorState.

Module CuratorAPI.
Import EtcdPrefix Labels Etcd Interfaces Effects Pki ClusterConfig CuratorNode CuratorState.

(** [rpc.PeerInfo]: the public key of a node, the identity of a user, or an
    unauthenticated peer that may have presented a self-signed key. *)
Record PeerInfo := mkPeer {
  pi_Node : option string;
  pi_User : option string;
  pi_Unauthenticated : option (option string)
}.

(** The node a request is about. *)
Inductive nodeRef := RefPubkey (pubkey : string) | RefId (id : string) | RefUnset.

Definition PublicKeySize : nat := 32.

Definition errNotNode (msg : string) : err := Status PermissionDenied msg.
Definition errEphemeral (c : code) : err :=
  Status c "connection must be established with a self-signed ephemeral certificate".
Definition errPubkeyLen : err := Status InvalidArgument "pubkey must be %d bytes long".

(** [UpdateNodeRolesRequest]. *)
Record RolesRequest := mkRolesReq {
  rr_node : nodeRef;
  rr_worker : option bool;
  rr_controller : option bool;
  rr_consensus : option bool
}.

(** [DeleteNodeRequest]. *)
Record DeleteRequest := mkDeleteReq {
  dr_node : nodeRef;
  dr_bypassRoles : bool;
  dr_bypassNotDecommissioned : bool
}.

(** [UpdateNodeLabelsRequest]. *)
Record LabelsRequest := mkLabelsReq {
  lr_node : nodeRef;
  lr_upsert : list (string * string);
  lr_delete : list string
}.

(** [RegisterNodeRequest] and its response. *)
Record RegisterRequest := mkRegisterReq {
  rq_ticket : string;
  rq_joinKey : string;
  rq_haveLocalTpm : bool;
  rq_labels : option (list (string * string))
}.
Record RegisterResponse := mkRegisterResp {
  rs_config : option ClusterConfiguration;
  rs_tpmUsage : option NodeTPMUsage;
  rs_storage : option NodeStorageSecurity
}.

Inductive Health := HEALTH_UNKNOWN | HEALTHY | HEARTBEAT_TIMEOUT.
#[export] Instance Health_eq_dec : EqDecision Health.
Proof. solve_decision. Defined.

Definition HeartbeatInterval : Z := 5000000000.
Definition HeartbeatTimeout : Z := HeartbeatInterval * 2.

(** The labels of a new node: at most [MaxLabelsPerNode] pairs are looked at,
    invalid ones are skipped, and the first of several pairs with a key wins. *)
Definition addNewLabel (ls : gmap string string) (kv : string * string) : gmap string string :=
  if negb (valid kv.1) then ls
  else if negb (valid kv.2) then ls
  else if bool_decide (is_Some (ls !! kv.1)) then ls
  else <[kv.1 := kv.2]> ls.
Definition newLabels (pairs : option (list (string * string))) : gmap string string :=
  match pairs with
  | None => ∅
  | Some pairs => foldl addNewLabel ∅ (take MaxLabelsPerNode pairs)
  end.

(** The first loops of [UpdateNodeLabels]: the requested changes are checked
    and collected. *)
Fixpoint collectUpserts (acc : gmap string string) (pairs : list (string * string))
    : result err (gmap string string) :=
  match pairs with
  | [] => Ok acc
  | (k, v) :: pairs =>
      guard! valid k else Status InvalidArgument "invalid upsert key %q: %v" in
      guard! valid v else Status InvalidArgument "invalid upsert value %q (key %q): %v" in
      guard! bool_decide (acc !! k = None) else Status InvalidArgument "repeated upsert key %q" in
      collectUpserts (<[k := v]> acc) pairs
  end.
Fixpoint collectDeletes (upserts : gmap string string) (acc : gset string) (ks : list string)
    : result err (gset string) :=
  match ks with
  | [] => Ok acc
  | k :: ks =>
      guard! valid k else Status InvalidArgument "invalid delete key %q: %v" in
      guard! bool_decide (upserts !! k = None)
      else Status InvalidArgument "delete key %q conflicts with upsert key" in
      guard! bool_decide (k ∉ acc) else Status InvalidArgument "repeated delete key %q" in
      collectDeletes upserts ({[k]} ∪ acc) ks
  end.
Definition applyLabels (upserts : gmap string string) (deletes : gset string)
    (ls : gmap string string) : gmap string string :=
  filter (fun kv => kv.1 ∉ deletes) (upserts ∪ ls).

(** [10.192.0.0/11]. *)
Definition clusterNet : Prefix := mkPrefix (mkAddr true 180355072) 11.

Section API.
Context {E : Etcd} {X : X509} {NT : NetText} {WG : WireGuard}.
Context {NC : Codec NodeMsg} {CC : Codec ClusterConfiguration}.
Context {TC : Codec RegisterTicketMsg} {OC : Codec InitialOwnerMsg}.
Context (Public : string -> string).

(** The rest of a handler, under the lock on nodes ([muNodes]), which is released
    when the handler returns. *)
Definition withNodes {A} (h : handler A) : handler A :=
  call! _ := ELockNodes in
  prog_bind h (fun r => call! _ := EUnlockNodes in Ret r).

(** A pure step of a handler. *)
Definition step {A} (r : result err A) : handler A := Ret r.

Definition nodePeer (pi : option PeerInfo) (e : err) : handler string :=
  Ret match pi ≫= pi_Node with Some pk => Ok pk | None => Err e end.
Definition ephemeralPeer (pi : option PeerInfo) (c : code) : handler string :=
  Ret match pi ≫= pi_Unauthenticated with Some (Some pk) => Ok pk | _ => Err (errEphemeral c) end.

(** The identifier a request is about. *)
Definition resolveRef (r : nodeRef) : handler string :=
  match r with
  | RefPubkey pk =>
      check! bool_decide (String.length pk = PublicKeySize) else errPubkeyLen in
      orPanic (NodeID pk)
  | RefId id => Ret (Ok id)
  | RefUnset => Ret (Err (Status InvalidArgument "exactly one of pubkey or id must be set"))
  end.

(** Loading the node of a management request. *)
Definition loadRequested (l : leadership) (id : string) : handler Node :=
  prog_bind (nodeLoad l id) (fun r =>
  Ret match r with
      | Ok n => Ok n
      | Err e =>
          if bool_decide (e = Panic) then Err Panic
          else if bool_decide (e = errNodeNotFound) then Err (Status NotFound "node %s not found")
          else Err (Status InvalidArgument "while loading node %s: %v")
      end).

(** ** Curator service *)

Definition UpdateNodeStatus (l : leadership) (pi : option PeerInfo) (nodeId : string)
    (st : option NodeStatus) : handler unit :=
  let! pk := nodePeer pi (errNotNode "only nodes can update node status") in
  let! id := orPanic (NodeID pk) in
  check! bool_decide (id = nodeId)
  else Status PermissionDenied "node %q cannot update the status of node %q" in
  match st with
  | None => Ret (Err (Status InvalidArgument "Status and Status.ExternalAddress must be set"))
  | Some st =>
      check! bool_decide (ExternalAddress st <> "")
      else Status InvalidArgument "Status and Status.ExternalAddress must be set" in
      check! ParseIP (ExternalAddress st)
      else Status InvalidArgument "Status.ExternalAddress must be a valid IP address" in
      withNodes (
      let! node := nodeLoad l id in
      call! now := ENow in
      nodeSave l (set_status (Some (mkStatus (ExternalAddress st) (RunningCurator st) (Some now) (Version st))) node))
  end.

(** [Heartbeat]: the messages that arrive on the stream, each with whether the
    response could be sent. *)
Inductive received := RecvMsg (sent : bool) | RecvEOF | RecvErr.

Fixpoint heartbeatLoop (id : string) (msgs : list received) : handler unit :=
  match msgs with
  | [] => Ret (Ok tt)
  | RecvEOF :: _ => Ret (Ok tt)
  | RecvErr :: _ => Ret (Err (GoErr "recv"))
  | RecvMsg sent :: msgs =>
      call! now := ENow in
      call! _ := EHeartbeatStore id now in
      check! sent else GoErr "send" in
      heartbeatLoop id msgs
  end.
Definition Heartbeat (pi : option PeerInfo) (msgs : list received) : handler unit :=
  let! pk := nodePeer pi (errNotNode "only nodes can send heartbeats") in
  let! id := orPanic (NodeID pk) in
  heartbeatLoop id msgs.

Definition RegisterNode (l : leadership) (pi : option PeerInfo) (req : RegisterRequest)
    : handler RegisterResponse :=
  let! pubkey := ephemeralPeer pi Unauthenticated in
  check! bool_decide (String.length (rq_joinKey req) = PublicKeySize)
  else Status InvalidArgument "join_key must be set and be %d bytes long" in
  prog_bind (ensureRegisterTicket l) (fun wantTicket =>
  match wantTicket with
  | Err _ => Ret (Err (Status Unavailable "could not retrieve register ticket"))
  | Ok wantTicket =>
      check! bool_decide (wantTicket = rq_ticket req)
      else Status PermissionDenied "registerticket invalid" in
      withNodes (
      let! cl := clusterLoad l in
      match NodeStorageSecurity_of cl with
      | Err _ => Ret (Err (Status InvalidArgument "cannot generate recommended node storage security"))
      | Ok nodeStorageSecurity =>
          match NodeTPMUsage_of cl (rq_haveLocalTpm req) with
          | Err _ => Ret (Err (Status PermissionDenied "%s"))
          | Ok tpmUsage =>
              let! id := orPanic (NodeID pubkey) in
              prog_bind (nodeLoad l id) (fun r =>
              match r with
              | Ok node =>
                  if bool_decide (state node = STATE_NEW) then Ret (Ok (mkRegisterResp None None None))
                  else Ret (Err (Status FailedPrecondition "node already exists in cluster, state %s"))
              | Err e =>
                  check! bool_decide (e = errNodeNotFound) else e in
                  let node := mkNode "" pubkey (rq_joinKey req) STATE_NEW None tpmUsage None false false
                                "" [] (newLabels (rq_labels req)) in
                  let! _ := nodeSave l node in
                  Ret (Ok (mkRegisterResp
                             (match clusterProto cl with Ok cc => Some cc | Err _ => None end)
                             (Some tpmUsage) (Some nodeStorageSecurity)))
              end)
          end
      end)
  end).

(** The cluster CA, and certificates it issues ([state_pki.go],
    [identity/certificates.go]). *)
Definition pkiNamespace : string := "/cluster-pki/".
Definition pkiCA (k : keys) : Certificate :=
  mkCertificate pkiNamespace "cluster-ca" true [] CertificateManaged (pubKey k) (privKey k) None.
Definition issuedCert (name : string) (dns : list string) (pub : string) (ca : Certificate) : Certificate :=
  mkCertificate pkiNamespace name false dns CertificateExternal (Some pub) None (Some ca).

(** [pkiCA.Ensure] on the process-wide CA object. *)
Definition ensureCA : handler string :=
  call! k := ECAGet in
  prog_bind (Ensure Public (pkiCA k)) (fun cr =>
  call! _ := ECAPut (mkKeys (PubKey cr.1) (PrivKey cr.1)) in
  Ret (cr.2)).
Definition ensureIssued (name : string) (dns : list string) (pub : string) : handler string :=
  call! k := ECAGet in
  prog_bind (Ensure Public (issuedCert name dns pub (pkiCA k))) (fun cr =>
  let k := match Issuer cr.1 with
           | Some ca => mkKeys (PubKey ca) (PrivKey ca)
           | None => k
           end in
  call! _ := ECAPut k in
  Ret (cr.2)).

Definition CommitNode (l : leadership) (pi : option PeerInfo) (security : NodeStorageSecurity)
    (cuk : string) : handler (string * string) :=
  let! pubkey := ephemeralPeer pi Unauthenticated in
  check! match security with STORAGE_other _ => false | _ => true end
  else Status InvalidArgument "invalid storage_security (is it set?)" in
  withNodes (
  let! cl := clusterLoad l in
  let! _ := step (ValidateNodeStorage cl security) in
  let! id := orPanic (NodeID pubkey) in
  let! node := nodeLoad l id in
  let! _ := step match state node with
                 | STATE_NEW => Err (Status PermissionDenied "node is NEW, wait for attestation/approval")
                 | STATE_DECOMMISSIONED => Err (Status FailedPrecondition "node is DECOMMISSIONED, abort register flow")
                 | STATE_UP => Err (Status FailedPrecondition "node is already UP, abort register flow")
                 | STATE_STANDBY => Ok tt
                 | STATE_other _ => Err (Status Internal "node is in unknown state: %v")
                 end in
  check! bool_decide (security = STORAGE_INSECURE) || bool_decide (String.length cuk = 32)
  else Status InvalidArgument "invalid ClusterUnlockKey length, wanted %d bytes, got %d" in
  prog_bind ensureCA (fun caCert =>
  match caCert with
  | Err _ => Ret (Err (Status Unavailable "could not get CA certificate: %v"))
  | Ok caCertBytes =>
      let! nid := orPanic (ID node) in
      prog_bind (ensureIssued ("node-" +:+ id) [nid] (CuratorNode.pubkey node)) (fun nodeCert =>
      match nodeCert with
      | Err _ => Ret (Err (Status Unavailable "could not emit node credentials: %v"))
      | Ok nodeCertBytes =>
          let! _ := nodeSave l (set_cuk cuk (set_state STATE_UP node)) in
          Ret (Ok (caCertBytes, nodeCertBytes))
      end)
  end)).

Definition JoinNode (l : leadership) (pi : option PeerInfo) (usingSealed : bool) : handler string :=
  let! jkey := ephemeralPeer pi PermissionDenied in
  withNodes (
  let! id := nodeIdByJoinKey l jkey in
  let! node := nodeLoad l id in
  let! cl := clusterLoad l in
  check! negb (bool_decide (TPMMode_ cl = TPM_MODE_REQUIRED) && negb usingSealed)
  else Status PermissionDenied "cannot join this cluster with an unsealed configuration" in
  check! negb (bool_decide (TPMMode_ cl = TPM_MODE_DISABLED) && usingSealed)
  else Status PermissionDenied "cannot join this cluster with a sealed configuration" in
  check! negb (bool_decide (CuratorNode.tpmUsage node = NODE_TPM_PRESENT_AND_USED) && negb usingSealed)
  else Status PermissionDenied "node registered with TPM, cannot join without one" in
  check! negb (bool_decide (CuratorNode.tpmUsage node <> NODE_TPM_PRESENT_AND_USED) && usingSealed)
  else Status PermissionDenied "node registered without TPM, cannot join with one" in
  check! bool_decide (state node = STATE_UP)
  else Status FailedPrecondition "node isn't UP, cannot join" in
  Ret (Ok (clusterUnlockKey node))).

(** ** Cluster networking *)

(** [nodeValueConverter], for values read from etcd. *)
Definition nodeValueConverter (key value : string) : result err (string * option Node) :=
  let id := ExtractID NodeEtcdPrefix key in
  node ← (if bool_decide (value = "") then Ok None
          else match nodeUnmarshal value with
               | Err e => Err e
               | Ok node =>
                   match ID node with
                   | None => Err Panic
                   | Some nid =>
                       guard! bool_decide (id = nid) else GoErr "node ID mismatch (etcd key: %q, value: %q)" in
                       Ok (Some node)
                   end
               end);
  guard! bool_decide (id <> "") else GoErr "invalid node key %q" in
  Ok (id, node).

(** The loop of [prepareClusternetCacheUnlocked] over the nodes in etcd. *)
Fixpoint buildCache (m : gmap string string) (kvs : list (string * kv)) : result err (gmap string string) :=
  match kvs with
  | [] => Ok m
  | (key, e) :: kvs =>
      match nodeValueConverter key (kv_value e) with
      | Err Panic => Err Panic
      | Err _ => Err (Status Unavailable "internal error during clusternet cache load")
      | Ok (id, None) => buildCache m kvs
      | Ok (id, Some n) =>
          if bool_decide (wireguardKey n = "") then buildCache m kvs
          else if bool_decide (m !! wireguardKey n <> None) && bool_decide (m !! wireguardKey n <> Some id)
          then buildCache m kvs
          else buildCache (<[wireguardKey n := id]> m) kvs
      end
  end.

(** The nodes are read outside of a leader transaction. *)
Definition prepareClusternetCacheUnlocked : handler (gmap string string) :=
  call! c := ECacheGet in
  match c with
  | Some m => Ret (Ok m)
  | None =>
      call! r := ETxn [] [OpGetRange (KeyRange NodeEtcdPrefix).1 (KeyRange NodeEtcdPrefix).2] in
      match r with
      | Committed [RespRange kvs] =>
          match buildCache ∅ kvs with
          | Err e => Ret (Err e)
          | Ok m => call! _ := ECachePut m in Ret (Ok m)
          end
      | _ => Ret (Err (Status Unavailable "internal error during clusternet cache load"))
      end
  end.

(** A prefix a node may announce: canonical, and inside the cluster network or
    the node's own address. *)
Definition prefixOk (externalIP : string) (p : Prefix) : bool :=
  (Contains clusterNet (prefix_addr p) && N.leb (prefix_bits clusterNet) (prefix_bits p)) ||
  (IsSingleIP p && bool_decide (Addr_String (prefix_addr p) = externalIP)).
Fixpoint checkPrefixes (externalIP : string) (cidrs : list string) : result err (list Prefix) :=
  match cidrs with
  | [] => Ok []
  | cidr :: cidrs =>
      match ParsePrefix cidr with
      | None => Err (Status InvalidArgument "clusternet.prefixes[%d].cidr invalid: %v")
      | Some p =>
          guard! bool_decide (Prefix_String (Masked p) = Prefix_String p)
          else Status InvalidArgument "clusternet.prefixes[%d].cidr (%s) must be in canonical format" in
          guard! prefixOk externalIP p
          else Status InvalidArgument "clusternet.prefixes[%d].cidr (%s) must be fully contained within cluster network" in
          ps ← checkPrefixes externalIP cidrs; Ok (p :: ps)
      end
  end.

Definition UpdateNodeClusterNetworking (l : leadership) (pi : option PeerInfo)
    (clusternet : option ClusternetMsg) : handler unit :=
  let! pk := nodePeer pi (errNotNode "only nodes can update node cluster networking") in
  let! id := orPanic (NodeID pk) in
  match clusternet with
  | None => Ret (Err (Status InvalidArgument "clusternet must be set"))
  | Some cn =>
      check! bool_decide (WireguardPubkey cn <> "")
      else Status InvalidArgument "clusternet.wireguard_pubkey must be set" in
      match ParseKey (WireguardPubkey cn) with
      | None => Ret (Err (Status InvalidArgument "clusternet.wireguard_pubkey must be a valid wireguard public key"))
      | Some key =>
          withNodes (
          let! cache := prepareClusternetCacheUnlocked in
          check! bool_decide (cache !! wgKey_String key = None) || bool_decide (cache !! wgKey_String key = Some id)
          else Status InvalidArgument "public key alread used by another node" in
          let! node := nodeLoad l id in
          match status node with
          | None => Ret (Err (Status FailedPrecondition "node needs to submit at least one status update"))
          | Some st =>
              let! prefixes := step (checkPrefixes (ExternalAddress st) (Prefixes cn)) in
              let! _ := nodeSave l (set_network (wgKey_String key) prefixes node) in
              call! _ := ECachePut (<[wgKey_String key := id]> cache) in
              Ret (Ok tt)
          end)
      end
  end.

(** ** Management service *)

Definition GetRegisterTicket (l : leadership) : handler string := ensureRegisterTicket l.

Definition ApproveNode (l : leadership) (pubkey : string) : handler unit :=
  check! bool_decide (String.length pubkey = PublicKeySize) else errPubkeyLen in
  withNodes (
  let! id := orPanic (NodeID pubkey) in
  let! node := nodeLoad l id in
  match state node with
  | STATE_UP | STATE_STANDBY => Ret (Ok tt)
  | STATE_NEW => nodeSave l (set_state STATE_STANDBY node)
  | _ => Ret (Err (Status FailedPrecondition "node in state %s cannot be approved"))
  end).

(** The role changes of [UpdateNodeRoles], in the order of the code. *)
Definition changeConsensus (change : option bool) (node : Node) : handler Node :=
  match change with
  | None => Ret (Ok node)
  | Some true =>
      call! join := EAddNode (CuratorNode.pubkey node) in
      Ret match join with
          | Err _ => Err (Status Unavailable "could not add node: %v")
          | Ok jc => Ok (EnableConsensusMember jc node)
          end
  | Some false =>
      check! negb (kubernetesController node)
      else Status FailedPrecondition "could not remove consensus member role while node is a kubernetes controller" in
      Ret (Ok (DisableConsensusMember node))
  end.
Definition changeController (change : option bool) (node : Node) : result err Node :=
  match change with
  | None => Ok node
  | Some true =>
      match consensusMember node with
      | None => Err (Status FailedPrecondition "could not set role: Kubernetes controller nodes must also be consensus members")
      | Some _ => Ok (EnableKubernetesController node)
      end
  | Some false => Ok (DisableKubernetesController node)
  end.
Definition changeWorker (change : option bool) (node : Node) : Node :=
  match change with
  | None => node
  | Some true => EnableKubernetesWorker node
  | Some false => DisableKubernetesWorker node
  end.

Definition UpdateNodeRoles (l : leadership) (req : RolesRequest) : handler unit :=
  let! id := resolveRef (rr_node req) in
  withNodes (
  let! node := loadRequested l id in
  let! node := changeConsensus (rr_consensus req) node in
  let! node := step (changeController (rr_controller req) node) in
  nodeSave l (changeWorker (rr_worker req) node)).

Definition DecommissionNode : handler unit := Ret (Err (Status Unimplemented "unimplemented")).

(** The safety checks of [DeleteNode]. *)
Definition deleteAllowed (req : DeleteRequest) (node : Node) : result err unit :=
  guard! dr_bypassRoles req || match consensusMember node with Some _ => false | None => true end
  else Status FailedPrecondition "node still has ConsensusMember role" in
  guard! dr_bypassRoles req || negb (kubernetesController node)
  else Status FailedPrecondition "node still has KubernetesController role" in
  guard! dr_bypassRoles req || negb (kubernetesWorker node)
  else Status FailedPrecondition "node still has KubernetesWorker role" in
  match state node with
  | STATE_NEW | STATE_STANDBY | STATE_DECOMMISSIONED => Ok tt
  | STATE_UP =>
      guard! dr_bypassNotDecommissioned req
      else Status FailedPrecondition "node must be decommissioned first" in Ok tt
  | STATE_other _ => Err (Status Internal "node has an invalid internal state")
  end.
Definition DeleteNode (l : leadership) (req : DeleteRequest) : handler unit :=
  let! id := resolveRef (dr_node req) in
  withNodes (
  let! node := loadRequested l id in
  let! _ := step (deleteAllowed req node) in
  nodeDestroy l node).

Definition UpdateNodeLabels (l : leadership) (req : LabelsRequest) : handler unit :=
  let! id := resolveRef (lr_node req) in
  let! upserts := step (collectUpserts ∅ (lr_upsert req)) in
  let! deletes := step (collectDeletes upserts ∅ (lr_delete req)) in
  withNodes (
  let! node := loadRequested l id in
  let ls := applyLabels upserts deletes (labels node) in
  check! bool_decide (size ls <= MaxLabelsPerNode)
  else Status OutOfRange "change would result in too many labels on node (%d, limit %d)" in
  nodeSave l (set_labels ls node)).

(** [nodeHealth].  Times are nanoseconds; [None] is a node that never sent a
    heartbeat, whose zero timestamp is further away than a [time.Duration] can
    express. *)
Definition maxDuration : Z := 2 ^ 63 - 1.
Definition nodeHealth (startTs : Z) (heartbeat : option Z) (node : Node) (now : Z) : Health * Z :=
  let lhb := match heartbeat with Some t => now - t | None => maxDuration end%Z in
  let nh :=
    if bool_decide (state node = STATE_UP) then
      if bool_decide (heartbeat = None) && Z.ltb (now - startTs) HeartbeatTimeout then HEALTH_UNKNOWN
      else if Z.ltb HeartbeatTimeout lhb then HEARTBEAT_TIMEOUT
      else HEALTHY
    else HEALTH_UNKNOWN in
  (nh, lhb).

(** An entry of [GetNodes]. *)
Record ApiNode := mkApiNode {
  an_pubkey : string;
  an_id : string;
  an_state : NodeState;
  an_status : option NodeStatus;
  an_controller : bool;
  an_worker : bool;
  an_consensus : bool;
  an_sinceHeartbeat : Z;
  an_health : Health;
  an_tpmUsage : NodeTPMUsage;
  an_labels : list (string * string)
}.

Definition nodeRange : op := OpGetRange (KeyRange NodeEtcdPrefix).1 (KeyRange NodeEtcdPrefix).2.

(** The reply loop of [GetNodes]; [filter] is the compiled filter expression of
    the request. *)
Fixpoint listNodes (startTs now : Z) (keep : ApiNode -> result err bool) (kvs : list (string * kv))
    : handler (list ApiNode) :=
  match kvs with
  | [] => Ret (Ok [])
  | (_, e) :: kvs =>
      match nodeUnmarshal (kv_value e) with
      | Err Panic => Ret (Err Panic)
      | Err _ => listNodes startTs now keep kvs
      | Ok node =>
          let! id := orPanic (ID node) in
          call! hb := EHeartbeatGet id in
          let '(health, lhb) := nodeHealth startTs hb node now in
          let entry := mkApiNode (CuratorNode.pubkey node) id (state node) (status node)
                         (kubernetesController node) (kubernetesWorker node)
                         (bool_decide (is_Some (consensusMember node))) lhb health
                         (CuratorNode.tpmUsage node) (labelPairs (labels node)) in
          let! k := step (keep entry) in
          let! rest := listNodes startTs now keep kvs in
          Ret (Ok (if k then entry :: rest else rest))
      end
  end.
Definition GetNodes (l : leadership) (startTs : Z) (keep : result err (ApiNode -> result err bool))
    : handler (list ApiNode) :=
  withNodes (
  prog_bind (txnAsLeader l [nodeRange]) (fun r =>
  match r with
  | Err _ => Ret (Err (Status Unavailable "could not retrieve list of nodes: %v"))
  | Ok res =>
      let! keep := step keep in
      call! now := ENow in
      listNodes startTs now keep (firstKvs res)
  end)).

(** [GetClusterInfo]: the directory of up to fifteen nodes that are UP, in the
    order of their public keys. *)
Fixpoint upNodes (kvs : list (string * kv)) : result err (list Node) :=
  match kvs with
  | [] => Ok []
  | (_, e) :: kvs =>
      match nodeUnmarshal (kv_value e) with
      | Err Panic => Err Panic
      | Err _ => upNodes kvs
      | Ok node =>
          rest ← upNodes kvs;
          Ok (if bool_decide (state node = STATE_UP) then node :: rest else rest)
      end
  end.
Definition pubkey_le (a b : Node) : Prop := string_leb (CuratorNode.pubkey a) (CuratorNode.pubkey b) = true.
#[export] Instance pubkey_le_dec : RelDecision pubkey_le.
Proof. intros a b. unfold pubkey_le. apply _. Defined.
Definition directoryEntry (node : Node) : result err (string * list string) :=
  match ID node with
  | None => Err Panic
  | Some id =>
      Ok (id, match status node with
              | Some st => if bool_decide (ExternalAddress st <> "") then [ExternalAddress st] else []
              | None => []
              end)
  end.
Fixpoint directory (ns : list Node) : result err (list (string * list string)) :=
  match ns with
  | [] => Ok []
  | n :: ns => e ← directoryEntry n; rest ← directory ns; Ok (e :: rest)
  end.
Definition GetClusterInfo (l : leadership) (caRaw : string)
    : handler (list (string * list string) * string * option ClusterConfiguration) :=
  prog_bind (txnAsLeader l [nodeRange]) (fun r =>
  match r with
  | Err _ => Ret (Err (Status Unavailable "could not retrieve list of nodes: %v"))
  | Ok res =>
      let! ns := step (upNodes (firstKvs res)) in
      let! dir := step (directory (take 15 (merge_sort pubkey_le ns))) in
      prog_bind (clusterLoad l) (fun cl =>
      Ret (Ok (dir, caRaw, match cl with
                           | Ok cl => match clusterProto cl with Ok cc => Some cc | Err _ => None end
                           | Err _ => None
                           end)))
  end).

(** ** Authentication of the owner *)

Definition getOwnerPubkey : handler string :=
  call! r := ETxn [] [OpGet initialOwnerEtcdPath] in
  match r with
  | Committed [RespRange [(_, e)]] =>
      Ret match Unmarshal (M := InitialOwnerMsg) (kv_value e) with
          | None => Err (Status FailedPrecondition "initial owner data could not be unmarshaled")
          | Some iom =>
              guard! bool_decide (String.length (OwnerPublicKey iom) = PublicKeySize)
              else Status FailedPrecondition "initial owner publickey has invalid length" in
              Ok (OwnerPublicKey iom)
          end
  | Committed _ => Ret (Err (Status FailedPrecondition "no initial owner set for cluster"))
  | Failed ErrClient => Ret (Err (Status Unavailable "could not retrieve initial owner status in etcd"))
  | Failed _ => Ret (Err (GoErr "context"))
  | Rejected => Ret (Err (Status Unavailable "could not retrieve initial owner status in etcd"))
  end.

(** [Escrow].  The first message holds the requested identity and key; what is
    sent to the client is a request for a certificate as proof, or the emitted
    certificate. *)
Inductive escrowMsg := NeedRefreshCertificate | EmittedCertificate (der : string).
Definition Escrow (pi : option PeerInfo) (msg : result err (option (string * string)))
    : prog (list escrowMsg * result err unit) :=
  match pi with
  | None => Ret ([], Err (Status Unauthenticated "no PeerInfo available"))
  | Some pi =>
      match pi_Unauthenticated pi with
      | None => Ret ([], Err (Status InvalidArgument "connection is already authenticated"))
      | Some selfSigned =>
          match msg with
          | Err e => Ret ([], Err e)
          | Ok None => Ret ([], Err (Status InvalidArgument "client parameters must be set"))
          | Ok (Some (name, publicKey)) =>
              if negb (bool_decide (name = "owner"))
              then Ret ([], Err (Status Unimplemented "only owner escrow is currently implemented"))
              else if negb (bool_decide (String.length publicKey = PublicKeySize))
              then Ret ([], Err (Status InvalidArgument "client parameters public_key must be set and valid"))
              else match selfSigned with
              | None => Ret ([NeedRefreshCertificate],
                             Err (Status Unauthenticated "cannot proceed without refresh certificate proof at transport layer"))
              | Some pk =>
                  if negb (bool_decide (pk = publicKey))
                  then Ret ([], Err (Status Unimplemented "client parameters public_key different from transport public key unimplemented"))
                  else prog_bind getOwnerPubkey (fun opk =>
                  match opk with
                  | Err e => Ret ([], Err e)
                  | Ok opk =>
                      if negb (bool_decide (pk = opk))
                      then Ret ([], Err (Status PermissionDenied "public key not authorized to escrow owner credentials"))
                      else prog_bind (ensureIssued "owner" [] pk) (fun oc =>
                      Ret match oc with
                          | Err _ => ([], Err (Status Unavailable "ensuring new certificate failed: %v"))
                          | Ok der => ([EmittedCertificate der], Ok tt)
                          end)
                  end)
              end
          end
      end
  end.

(** ** Bootstrap *)

(** [BootstrapNodeFinish]: the result of the transaction's comparisons is not
    looked at. *)
Definition BootstrapNodeFinish (node : Node) (ownerKey : string) (cluster : Cluster)
    : handler (string * string) :=
  call! _ := ECAPut (mkKeys None None) in
  let! caCert := ensureCA in
  let! id := orPanic (ID node) in
  let! nodeCert := ensureIssued ("node-" +:+ id) [id] (CuratorNode.pubkey node) in
  match etcdNodePath node id with
  | Err _ => Ret (Err (GoErr "failed to get node key: %w"))
  | Ok nodePath =>
      match Marshal (proto node) with
      | None => Ret (Err (GoErr "failed to marshal node: %w"))
      | Some nodeRaw =>
          match Marshal (mkOwnerMsg ownerKey) with
          | None => Ret (Err (GoErr "failed to marshal initial owner: %w"))
          | Some ownerRaw =>
              match etcdJoinKeyPath node with
              | Err _ => Ret (Err (GoErr "failed to get join key: %w"))
              | Ok joinKeyPath =>
                  match clusterProto cluster with
                  | Err _ => Ret (Err (GoErr "failed to serialize initial cluster configuration: %w"))
                  | Ok cc =>
                      match Marshal cc with
                      | None => Ret (Err (GoErr "failed to marshal initial cluster configuration: %w"))
                      | Some clusterRaw =>
                          call! r := ETxn [CreateRevision nodePath 0; CreateRevision initialOwnerEtcdPath 0;
                                           CreateRevision joinKeyPath 0; CreateRevision clusterConfigurationKey 0]
                                          [OpPut nodePath nodeRaw; OpPut initialOwnerEtcdPath ownerRaw;
                                           OpPut joinKeyPath id; OpPut clusterConfigurationKey clusterRaw] in
                          Ret match r with
                              | Failed _ => Err (GoErr "failed to store initial cluster state: %w")
                              | _ => Ok (caCert, nodeCert)
                              end
                      end
                  end
              end
          end
      end
  end.

End API.

End CuratorAPI.
