(* ===== verification/CuratorSteps.v ===== *)
(** * The curator as a state machine

    The abstract transitions of a cluster, one per mutating RPC, the invariant
    they preserve, and the form of the handlers' specifications: relative to the
    state at the time a handler takes the lock, it performs its transition, and
    the other handlers only perform transitions too. *)

From S2P Require Import Prelude GoStrings EtcdPrefix Labels Etcd Interfaces Effects Pki ClusterConfig CuratorNode CuratorState CuratorSpec CuratorAPI.

Module CuratorSteps.
Import EtcdPrefix Labels Etcd Interfaces Effects Pki ClusterConfig CuratorNode CuratorState CuratorSpec CuratorAPI.

Section Steps.
Context {E : Etcd} {X : X509} {NT : NetText} {WG : WireGuard}.
Context {NC : Codec NodeMsg} {CC : Codec ClusterConfiguration}.
Context {TC : Codec RegisterTicketMsg} {OC : Codec InitialOwnerMsg}.

(** ** Transitions *)

Definition newNode (pub jk : string) (tpm : NodeTPMUsage) (ls : option (list (string * string))) : Node :=
  mkNode "" pub jk STATE_NEW None tpm None false false "" [] (newLabels ls).

Definition set_roles (cm : option ConsensusMember) (kc kw : bool) (n : Node) : Node :=
  set_worker kw (set_controller kc (set_consensus cm n)).

(** A controller is a consensus member, unless both are as they were. *)
Definition roles_allowed (n : Node) (cm : option ConsensusMember) (kc : bool) : Prop :=
  from_option consensus_ok True cm /\
  (kc = true -> is_Some cm \/ (kubernetesController n = true /\ cm = consensusMember n)).

(** A prefix the node may announce: canonical, and in the cluster network or the
    node's own address. *)
Definition announceable (st : NodeStatus) (p : Prefix) : Prop :=
  prefix_valid p /\ Prefix_String (Masked p) = Prefix_String p /\ prefixOk (ExternalAddress st) p = true.

Inductive cstep (a : cluster) : cluster -> Prop :=
| CRegister id pub jk have c tpm ls :
    NodeID pub = Some id -> nodes a !! id = None -> String.length jk = PublicKeySize ->
    config a = Some c -> NodeTPMUsage_of c have = Ok tpm ->
    cstep a (save_node id (newNode pub jk tpm ls) a)
| CApprove id n :
    nodes a !! id = Some n -> state n = STATE_NEW ->
    cstep a (save_node id (set_state STATE_STANDBY n) a)
| CCommit id n c security cuk :
    nodes a !! id = Some n -> state n = STATE_STANDBY -> config a = Some c ->
    ValidateNodeStorage c security = Ok tt ->
    security = STORAGE_INSECURE \/ String.length cuk = 32 ->
    cstep a (save_node id (set_cuk cuk (set_state STATE_UP n)) a)
| CStatus id n st :
    nodes a !! id = Some n -> ParseIP (ExternalAddress st) = true ->
    cstep a (save_node id (set_status (Some st) n) a)
| CRoles id n cm kc kw :
    nodes a !! id = Some n -> roles_allowed n cm kc ->
    cstep a (save_node id (set_roles cm kc kw n) a)
| CLabels id n ls :
    nodes a !! id = Some n -> labels_ok ls -> size ls <= MaxLabelsPerNode ->
    cstep a (save_node id (set_labels ls n) a)
| CNetwork id n st key ps :
    nodes a !! id = Some n -> status n = Some st -> key <> "" -> Forall (announceable st) ps ->
    cstep a (save_node id (set_network key ps n) a)
| CDelete id n req :
    nodes a !! id = Some n -> deleteAllowed req n = Ok tt ->
    cstep a (drop_node id n a).

(** ** Invariant *)

Record node_inv (id : string) (n : Node) : Prop := {
  inv_id : ID n = Some id;
  inv_ok : node_ok n;
  inv_controller : kubernetesController n = true -> is_Some (consensusMember n);
  inv_labels : size (labels n) <= MaxLabelsPerNode
}.

Record cluster_inv (a : cluster) : Prop := {
  inv_nodes : map_Forall node_inv (nodes a);
  inv_joins : map_Forall (fun j id => exists n, nodes a !! id = Some n /\ hexEncode (jkey n) = j) (joins a)
}.

Lemma newLabels_ok pairs : labels_ok (newLabels pairs) /\ size (newLabels pairs) <= MaxLabelsPerNode.
Proof.
  destruct pairs as [pairs|]; simpl; [|split; [apply map_Forall_empty|rewrite map_size_empty; lia]].
  assert (forall ps ls, labels_ok ls -> labels_ok (foldl addNewLabel ls ps) /\
    size (foldl addNewLabel ls ps) <= size ls + length ps) as H.
  { induction ps as [|[k v] ps IH]; intros ls Hls; simpl; [split; [done|lia]|].
    unfold addNewLabel at 2 4. simpl.
    destruct (valid k) eqn:Hk; simpl; [destruct (valid v) eqn:Hv; simpl; [case_bool_decide as Hs|]|].
    2:{ destruct (IH (<[k := v]> ls)) as [H1 H2]; [by apply map_Forall_insert_2|]. split; [done|].
        pose proof (map_size_insert k v ls). destruct (ls !! k) eqn:Hl; [by destruct Hs|].
        rewrite map_size_insert_None in H2 by done. lia. }
    all: destruct (IH ls Hls); split; [done|lia]. }
  destruct (H (take MaxLabelsPerNode pairs) ∅ ltac:(apply map_Forall_empty)) as [H1 H2].
  split; [done|]. rewrite map_size_empty, length_take in H2. lia.
Qed.

Lemma save_node_inv a id n :
  cluster_inv a -> node_inv id n ->
  (forall n', nodes a !! id = Some n' -> jkey n = jkey n') -> cluster_inv (save_node id n a).
Proof.
  intros [Hn Hj] Hi Hk. split; simpl; [by apply map_Forall_insert_2|].
  apply map_Forall_insert_2; [exists n; by rewrite lookup_insert_eq|].
  intros j id' Hid'. destruct (Hj j id' Hid') as (n' & Hn' & Hjk). destruct (decide (id' = id)) as [->|Hne].
  - exists n. rewrite lookup_insert_eq. by rewrite (Hk n').
  - exists n'. by rewrite lookup_insert_ne.
Qed.

Lemma drop_node_inv a id n : cluster_inv a -> nodes a !! id = Some n -> cluster_inv (drop_node id n a).
Proof.
  intros [Hn Hj] Hi. split; simpl; [by apply map_Forall_delete|].
  intros j id' [Hne Hid']%lookup_delete_Some. destruct (Hj j id' Hid') as (n' & Hn' & Hjk).
  exists n'. rewrite lookup_delete_ne; [done|]. intros ->. congruence.
Qed.

(** A change of a node that keeps its keys keeps its identifier. *)
Lemma update_inv a id n n' :
  cluster_inv a -> nodes a !! id = Some n -> pubkey n' = pubkey n -> jkey n' = jkey n ->
  node_ok n' -> (kubernetesController n' = true -> is_Some (consensusMember n')) ->
  size (labels n') <= MaxLabelsPerNode ->
  cluster_inv (save_node id n' a) /\ ID n' = Some id.
Proof.
  intros Hinv Hn Hp Hj Hok Hc Hl. destruct (inv_nodes _ Hinv id n Hn) as [Hid _ _ _].
  assert (ID n' = Some id) as Hid' by (unfold ID in *; by rewrite Hp). split; [|done].
  apply save_node_inv; [done|by split|]. intros n2 Hn2. congruence.
Qed.

Lemma cstep_preserves a a' : cstep a a' -> cluster_inv a -> cluster_inv a'.
Proof.
  intros Hs Hinv. pose proof (inv_nodes _ Hinv) as Hns.
  destruct Hs as [id pub jk have c tpm ls Hid Hno Hlen Hc Ht|id n Hn|id n c sec cuk Hn|id n st Hn
    |id n cm kc kw Hn [Hok Hcm]|id n ls Hn Hls Hsz|id n st key ps Hn Hst Hkey Hps|id n req Hn];
    try (destruct (Hns id n Hn) as [Hi [Ho1 Ho2 Ho3 Ho4] Hctl Hlab]).
  - destruct (newLabels_ok ls). apply save_node_inv; [done| |by rewrite Hno].
    split; simpl; [done| |done|done]. by split.
  - eapply update_inv; [done|exact Hn|done..].
  - eapply update_inv; [done|exact Hn|done..].
  - eapply update_inv; [done|exact Hn|done..].
  - eapply update_inv; [done|exact Hn|done|done|by split| |done]. simpl. intros Hkc.
    destruct (Hcm Hkc) as [?|[Hk ->]]; [done|by apply Hctl].
  - eapply update_inv; [done|exact Hn|done|done|by split|done|done].
  - eapply update_inv; [done|exact Hn|done|done| |done|done]. split; simpl; [done|done| |done].
    eapply Forall_impl; [exact Hps|]. by intros p [? _].
  - by apply drop_node_inv.
Qed.

Lemma csteps_preserve a a' : rtc cstep a a' -> cluster_inv a -> cluster_inv a'.
Proof. induction 1; eauto using cstep_preserves. Qed.

End Steps.

End CuratorSteps.

(** * The handlers refine the state machine

    Each handler, run among the other handlers of the same leader and whatever
    else uses etcd, has a specification against the abstract state of the
    cluster. *)

Module CuratorRefine.
Import EtcdPrefix Labels Etcd Interfaces Effects Pki ClusterConfig CuratorNode CuratorState CuratorSpec CuratorAPI CuratorSteps.

(** The key of a leader's lock, as made by etcd's election recipe. *)
Definition election_key (l : leadership) : Prop := HasPrefix (lockKey l) "/leader/" = true.

Section Refine.
Context {E : Etcd} {X : X509} {NT : NetText} {WG : WireGuard}.
Context {NC : Codec NodeMsg} {CC : Codec ClusterConfiguration}.
Context {TC : Codec RegisterTicketMsg} {OC : Codec InitialOwnerMsg}.
Context (Public : string -> string).

Definition state_of (w : world) : cluster := abs (view_of w).1.

(** The other handlers. *)
Definition others (v v' : view) : Prop := rtc cstep (abs v.1) (abs v'.1).
#[export] Instance others_preorder : PreOrder others.
Proof. split; [intros v; apply rtc_refl|]. intros v1 v2 v3 H1 H2. unfold others in *. by etrans. Qed.

Definition interference (l : leadership) : world -> world -> Prop := rely others l.

(** [post O w w' r]: the handler started in [w] and ended with [r] in [w'].  If it
    succeeded, the leadership was held all along, and the handler took the state
    from what it was when the lock was taken ([a]) to [state_of w'], as in [O].
    If it failed, and the leadership is still held, either nothing changed or
    the change was made although the write was reported as failed. *)
Definition post {A} (l : leadership) (O : A -> cluster -> cluster -> Prop) (w w' : world) (r : result err A) : Prop :=
  locked w' = false /\
  match r with
  | Ok x => held l w' /\ held l w /\ exists a, rtc cstep (state_of w) a /\ O x a (state_of w')
  | Err _ => held l w' -> held l w /\
      exists a, rtc cstep (state_of w) a /\ (state_of w' = a \/ exists x, O x a (state_of w'))
  end.

(** The worlds a handler starts in. *)
Definition ready (l : leadership) (w : world) : Prop :=
  locked w = false /\ (held l w -> cluster_inv (state_of w)).

Definition spec {A} (l : leadership) (O : A -> cluster -> cluster -> Prop) (h : handler A) : Prop :=
  forall w, ready l w -> wp (interference l) h (post l O w) w.

Context (l : leadership).

Lemma ready_rely w w' : ready l w -> interference l w w' -> ready l w'.
Proof.
  intros [Hl Hi] [Hl' HR]. split; [congruence|]. intros Hh. destruct (HR Hh) as [Hh0 Hv].
  rewrite Hl in Hv. eapply csteps_preserve; [exact Hv|]. by apply Hi.
Qed.

Lemma post_rely {A} (O : A -> cluster -> cluster -> Prop) w w1 w' r :
  locked w = false -> interference l w w1 -> post l O w1 w' r -> post l O w w' r.
Proof.
  intros Hl [_ HR] [Hl' Hp]. split; [done|]. rewrite Hl in HR. destruct r as [x|e].
  - destruct Hp as (Hh & Hh1 & a & Ha & HO). destruct (HR Hh1) as [Hh0 Hv].
    split_and!; [done..|]. exists a. split; [by etrans|done].
  - intros Hh. destruct (Hp Hh) as (Hh1 & a & Ha & HO). destruct (HR Hh1) as [Hh0 Hv].
    split; [done|]. exists a. split; [by etrans|done].
Qed.

Lemma spec_err {A} (O : A -> cluster -> cluster -> Prop) e : spec l O (Ret (Err e)).
Proof.
  intros w [Hl _]. apply wp_ret. split; [done|]. intros Hh. split; [done|].
  exists (state_of w). split; [apply rtc_refl|by left].
Qed.

Lemma spec_try_ret {A B} (O : B -> cluster -> cluster -> Prop) (r : result err A) k :
  (forall a, r = Ok a -> spec l O (k a)) -> spec l O (try (Ret r) k).
Proof. intros H. destruct r as [a|e]; [by apply H|apply spec_err]. Qed.

Lemma spec_check {A} (O : A -> cluster -> cluster -> Prop) (b : bool) e h :
  (b = true -> spec l O h) -> spec l O (if b then h else Ret (Err e)).
Proof. intros H. destruct b; [by apply H|apply spec_err]. Qed.

Lemma spec_mono {A} (O O' : A -> cluster -> cluster -> Prop) h :
  (forall x a a', O x a a' -> O' x a a') -> spec l O h -> spec l O' h.
Proof.
  intros HO Hs w Hw. eapply wp_mono; [|by apply Hs]. intros w' r [Hl Hp]. split; [done|].
  destruct r; naive_solver.
Qed.

Context (Hlk : election_key l).

Lemma election_unguarded : guarded (lockKey l) = false.
Proof.
  unfold election_key in Hlk. apply HasPrefix_iff in Hlk as [s ->]. done.
Qed.

(** Programs that leave the guarded keys alone. *)
Lemma spec_bind_only {A B} (P : string -> Prop) (Q : A -> Prop) (O : B -> cluster -> cluster -> Prop) p k :
  only P Q p -> (forall x, P x -> unguarded l x) -> (forall a, Q a -> spec l O (k a)) ->
  spec l O (prog_bind p k).
Proof.
  intros Hp HP Hk w Hw. apply wp_bind.
  eapply wp_mono; [|apply (wp_only others l _ P Q p w w Hp HP), rely_refl; apply _].
  intros w1 a [HR HQ]. eapply wp_mono; [|by apply Hk, (ready_rely w)].
  intros w' r. apply post_rely; [by destruct Hw|done].
Qed.

(** ** Under the lock *)

Definition does {A} (H : Prop) (O : A -> cluster -> cluster -> Prop) (v0 : view) (w' : world) (r : result err A) : Prop :=
  match r with
  | Ok x => owns H l (fun v => O x (abs v0.1) (abs v.1)) w'
  | Err _ => lead H l (fun v => abs v.1 = abs v0.1 \/ exists x, O x (abs v0.1) (abs v.1)) w'
  end.

Lemma spec_withNodes {A} (O : A -> cluster -> cluster -> Prop) h :
  (forall H v0 w, cluster_inv (abs v0.1) -> lead H l (eq v0) w -> wp (interference l) h (does H O v0) w) ->
  spec l O (withNodes h).
Proof.
  intros Hh w Hw w1 [] (w2 & HR & ->). pose proof (ready_rely _ _ Hw HR) as [Hl2 Hi2]. apply wp_bind.
  assert (exists v0, cluster_inv (abs v0.1) /\ lead (held l w2) l (eq v0) (set_locked true w2) /\
    (held l w2 -> v0 = view_of w2)) as (v0 & Hi & Hle & Hv).
  { destruct (decide (held l w2)) as [Hd|Hd].
    - exists (view_of w2). split_and!; [by apply Hi2|by split|done].
    - exists (∅, None). split_and!; [by split|by split|done]. }
  eapply wp_mono; [|apply (Hh _ _ _ Hi Hle)]. intros w' r Hd w3 [] ->. apply wp_ret.
  apply (post_rely _ _ w2); [by destruct Hw|done|]. split; [done|]. destruct r as [x|e].
  - destruct Hd as (_ & Hw' & Hw2 & HO). split_and!; [done..|]. exists (abs v0.1). split; [|done].
    unfold state_of. by rewrite Hv.
  - intros Hw'. destruct Hd as [_ Hd]. destruct (Hd Hw') as [Hw2 HO]. split; [done|].
    exists (abs v0.1). split; [|done]. unfold state_of. by rewrite Hv.
Qed.

Section Locked.
Context (H : Prop) (v0 : view).

Lemma does_err {A} (O : A -> cluster -> cluster -> Prop) w e :
  lead H l (eq v0) w -> does H O v0 w (Err e).
Proof. apply lead_mono. intros v <-. by left. Qed.

Lemma does_ok {A} (O : A -> cluster -> cluster -> Prop) w x :
  owns H l (eq v0) w -> O x (abs v0.1) (abs v0.1) -> does H O v0 w (Ok x).
Proof. intros (? & ? & ? & Hv) HO. split_and!; [done..|]. by rewrite <- Hv. Qed.

Lemma does_try_ret {A B} (O : B -> cluster -> cluster -> Prop) (r : result err A) k w :
  lead H l (eq v0) w -> (forall x, r = Ok x -> wp (interference l) (k x) (does H O v0) w) ->
  wp (interference l) (try (Ret r) k) (does H O v0) w.
Proof. intros Hl Hk. destruct r as [x|e]; [by apply Hk|by apply wp_ret, does_err]. Qed.

Lemma does_check {A} (O : A -> cluster -> cluster -> Prop) (b : bool) e h w :
  lead H l (eq v0) w -> (b = true -> wp (interference l) h (does H O v0) w) ->
  wp (interference l) (if b then h else Ret (Err e)) (does H O v0) w.
Proof. intros Hl Hk. destruct b; [by apply Hk|by apply wp_ret, does_err]. Qed.

Lemma does_nodeLoad {A} (O : A -> cluster -> cluster -> Prop) id k w :
  lead H l (eq v0) w ->
  (forall w' n, owns H l (eq v0) w' -> nodes (abs v0.1) !! id = Some n ->
     wp (interference l) (k n) (does H O v0) w') ->
  wp (interference l) (try (nodeLoad l id) k) (does H O v0) w.
Proof.
  intros Hl Hk. apply wp_try. eapply wp_nodeLoad; [apply election_unguarded|exact Hl|exact Hk|].
  intros w' e He _. by apply does_err.
Qed.

Lemma does_loadRequested {A} (O : A -> cluster -> cluster -> Prop) id k w :
  lead H l (eq v0) w ->
  (forall w' n, owns H l (eq v0) w' -> nodes (abs v0.1) !! id = Some n ->
     wp (interference l) (k n) (does H O v0) w') ->
  wp (interference l) (try (loadRequested l id) k) (does H O v0) w.
Proof.
  intros Hl Hk. apply wp_try. unfold loadRequested. apply wp_bind.
  eapply wp_nodeLoad; [apply election_unguarded|exact Hl|exact Hk|].
  intros w' e He _. apply wp_ret. repeat case_bool_decide; by apply does_err.
Qed.

Lemma does_clusterLoad {A} (O : A -> cluster -> cluster -> Prop) k w :
  lead H l (eq v0) w ->
  (forall w' c, owns H l (eq v0) w' -> config (abs v0.1) = Some c ->
     wp (interference l) (k c) (does H O v0) w') ->
  wp (interference l) (try (clusterLoad l) k) (does H O v0) w.
Proof.
  intros Hl Hk. apply wp_try. eapply wp_clusterLoad; [apply election_unguarded|exact Hl|exact Hk|].
  intros w' e He. by apply does_err.
Qed.

Lemma does_nodeSave (O : unit -> cluster -> cluster -> Prop) n id w :
  node_ok n -> ID n = Some id -> lead H l (eq v0) w ->
  O tt (abs v0.1) (save_node id n (abs v0.1)) ->
  wp (interference l) (nodeSave l n) (does H O v0) w.
Proof.
  intros Hok Hid Hl HO. eapply wp_nodeSave; [apply election_unguarded|done|done|exact Hl|..].
  - intros w' (? & ? & ? & _ & Ha). split_and!; [done..|]. by rewrite Ha.
  - intros w' e He. eapply lead_mono; [|exact He]. intros v [->|[_ ->]]; eauto.
Qed.

Lemma does_nodeSave_then {A} (O : A -> cluster -> cluster -> Prop) n id x w :
  node_ok n -> ID n = Some id -> lead H l (eq v0) w ->
  O x (abs v0.1) (save_node id n (abs v0.1)) ->
  wp (interference l) (try (nodeSave l n) (fun _ => Ret (Ok x))) (does H O v0) w.
Proof.
  intros Hok Hid Hl HO. apply wp_try. eapply wp_nodeSave; [apply election_unguarded|done|done|exact Hl|..].
  - intros w' (? & ? & ? & _ & Ha). apply wp_ret. split_and!; [done..|]. by rewrite Ha.
  - intros w' e He. eapply lead_mono; [|exact He]. intros v [->|[_ ->]]; eauto.
Qed.

(** Programs under the lock that leave the guarded keys alone. *)
Lemma does_bind_only {A B} (P : string -> Prop) (Q : A -> Prop) (O : B -> cluster -> cluster -> Prop) p k w :
  only P Q p -> (forall x, P x -> unguarded l x) -> lead H l (eq v0) w ->
  (forall w' a, Q a -> lead H l (eq v0) w' -> wp (interference l) (k a) (does H O v0) w') ->
  wp (interference l) (prog_bind p k) (does H O v0) w.
Proof.
  intros Hp HP Hl Hk. apply wp_bind.
  eapply wp_mono; [|apply (wp_only others l _ P Q p w w Hp HP), rely_refl; apply _].
  intros w' a [HR HQ]. apply Hk; [done|]. by eapply lead_rely.
Qed.

End Locked.

End Refine.

End CuratorRefine.
