(* ===== verification/CuratorHandlers.v ===== *)
(** * Specifications of the curator's handlers

    What each mutating handler does to the cluster, and that it is a transition
    of the state machine of [CuratorSteps]. *)

From S2P Require Import Prelude GoStrings EtcdPrefix Labels Etcd Interfaces Effects Pki ClusterConfig CuratorNode CuratorState CuratorSpec CuratorAPI CuratorSteps.

Module CuratorHandlers.
Import EtcdPrefix Labels Etcd Interfaces Effects Pki ClusterConfig CuratorNode CuratorState CuratorSpec CuratorAPI CuratorSteps CuratorRefine.

(** The collected changes are those of the request, without repetitions. *)
Lemma collectUpserts_lookup acc pairs ups :
  collectUpserts acc pairs = Ok ups ->
  (forall k v, (k, v) ∈ pairs -> ups !! k = Some v) /\ (forall k, k ∉ pairs.*1 -> ups !! k = acc !! k) /\ acc ⊆ ups.
Proof.
  revert acc. induction pairs as [|[k v] pairs IH]; intros acc; simpl.
  { intros [= <-]. split_and!; [by intros k v ?%not_elem_of_nil|done|done]. }
  destruct (valid k); [|done]. destruct (valid v); [|done]. case_bool_decide as Hk; [|done].
  intros Hc. destruct (IH _ Hc) as (H1 & H2 & H3). split_and!.
  - intros k' v' [[= -> ->]|Hin]%elem_of_cons; [|by apply H1].
    eapply lookup_weaken; [|exact H3]. apply lookup_insert_eq.
  - intros k' [Hne Hn]%not_elem_of_cons. rewrite H2 by done. by rewrite lookup_insert_ne.
  - etrans; [|exact H3]. by apply insert_subseteq.
Qed.

Lemma collectDeletes_elem ups acc ks dels :
  collectDeletes ups acc ks = Ok dels ->
  (forall k, k ∈ dels <-> k ∈ acc \/ k ∈ ks) /\ (forall k, k ∈ ks -> ups !! k = None).
Proof.
  revert acc. induction ks as [|k ks IH]; intros acc; simpl.
  { intros [= <-]. split; [set_solver|]. by intros k ?%not_elem_of_nil. }
  destruct (valid k); [|done]. case_bool_decide as Hu; [|done]. case_bool_decide; [|done].
  intros Hc. destruct (IH _ Hc) as [H1 H2]. split; [set_solver|].
  intros k' [->|Hin]%elem_of_cons; [done|by apply H2].
Qed.

Section Handlers.
Context {E : Etcd} {X : X509} {NT : NetText} {WG : WireGuard}.
Context {NC : Codec NodeMsg} {CC : Codec ClusterConfiguration}.
Context {TC : Codec RegisterTicketMsg} {OC : Codec InitialOwnerMsg}.
Context (Public : string -> string).

(** ** What the handlers do *)

Definition resolves (r : nodeRef) (id : string) : Prop :=
  match r with
  | RefPubkey pk => String.length pk = PublicKeySize /\ NodeID pk = Some id
  | RefId i => i = id
  | RefUnset => False
  end.

Definition status_updated (pi : option PeerInfo) (id : string) (st : option NodeStatus)
    (_ : unit) (a a' : cluster) : Prop :=
  exists pk s n t, pi ≫= pi_Node = Some pk /\ NodeID pk = Some id /\ st = Some s /\
    ParseIP (ExternalAddress s) = true /\ nodes a !! id = Some n /\
    a' = save_node id (set_status (Some (mkStatus (ExternalAddress s) (RunningCurator s) (Some t) (Version s))) n) a.

Definition registered (pi : option PeerInfo) (req : RegisterRequest)
    (resp : RegisterResponse) (a a' : cluster) : Prop :=
  exists pk id c tpm, pi ≫= pi_Unauthenticated = Some (Some pk) /\ NodeID pk = Some id /\
    String.length (rq_joinKey req) = PublicKeySize /\
    config a = Some c /\ NodeTPMUsage_of c (rq_haveLocalTpm req) = Ok tpm /\
    ((exists n, nodes a !! id = Some n /\ state n = STATE_NEW /\ a' = a /\
        resp = mkRegisterResp None None None) \/
     (nodes a !! id = None /\ rs_tpmUsage resp = Some tpm /\
        a' = save_node id (newNode pk (rq_joinKey req) tpm (rq_labels req)) a)).

Definition committed (pi : option PeerInfo) (security : NodeStorageSecurity) (cuk : string)
    (_ : string * string) (a a' : cluster) : Prop :=
  exists pk id n c, pi ≫= pi_Unauthenticated = Some (Some pk) /\ NodeID pk = Some id /\
    nodes a !! id = Some n /\ state n = STATE_STANDBY /\ config a = Some c /\
    ValidateNodeStorage c security = Ok tt /\
    (security = STORAGE_INSECURE \/ String.length cuk = 32) /\
    a' = save_node id (set_cuk cuk (set_state STATE_UP n)) a.

Definition joined (pi : option PeerInfo) (usingSealed : bool) (cuk : string) (a a' : cluster) : Prop :=
  a' = a /\ exists id n c, pi ≫= pi_Unauthenticated = Some (Some (jkey n)) /\
    nodes a !! id = Some n /\ state n = STATE_UP /\ cuk = clusterUnlockKey n /\ config a = Some c /\
    (CuratorNode.tpmUsage n = NODE_TPM_PRESENT_AND_USED <-> usingSealed = true) /\
    (TPMMode_ c = TPM_MODE_REQUIRED -> usingSealed = true) /\
    (TPMMode_ c = TPM_MODE_DISABLED -> usingSealed = false).

Definition networked (pi : option PeerInfo) (cn : option ClusternetMsg) (_ : unit) (a a' : cluster) : Prop :=
  exists pk id m key n st ps, pi ≫= pi_Node = Some pk /\ NodeID pk = Some id /\ cn = Some m /\
    ParseKey (WireguardPubkey m) = Some key /\ nodes a !! id = Some n /\ status n = Some st /\
    checkPrefixes (ExternalAddress st) (Prefixes m) = Ok ps /\
    a' = save_node id (set_network (wgKey_String key) ps n) a.

Definition approved (pk : string) (_ : unit) (a a' : cluster) : Prop :=
  exists id n, NodeID pk = Some id /\ nodes a !! id = Some n /\
    (((state n = STATE_UP \/ state n = STATE_STANDBY) /\ a' = a) \/
     (state n = STATE_NEW /\ a' = save_node id (set_state STATE_STANDBY n) a)).

(** The roles of [n'] are those of [n], changed as requested. *)
Definition roles_as_requested (req : RolesRequest) (n : Node) (cm : option ConsensusMember) (kc kw : bool) : Prop :=
  match rr_consensus req with
  | None => cm = consensusMember n
  | Some true => from_option consensus_ok False cm
  | Some false => cm = None /\ kubernetesController n = false
  end /\
  kc = default (kubernetesController n) (rr_controller req) /\
  (rr_controller req = Some true -> is_Some cm) /\
  kw = default (kubernetesWorker n) (rr_worker req).

Definition roles_updated (req : RolesRequest) (_ : unit) (a a' : cluster) : Prop :=
  exists id n cm kc kw, resolves (rr_node req) id /\ nodes a !! id = Some n /\
    roles_as_requested req n cm kc kw /\ a' = save_node id (set_roles cm kc kw n) a.

Definition deleted (req : DeleteRequest) (_ : unit) (a a' : cluster) : Prop :=
  exists id n, resolves (dr_node req) id /\ nodes a !! id = Some n /\
    deleteAllowed req n = Ok tt /\ a' = drop_node id n a.

Definition relabelled (req : LabelsRequest) (_ : unit) (a a' : cluster) : Prop :=
  exists id n ups dels, resolves (lr_node req) id /\
    collectUpserts ∅ (lr_upsert req) = Ok ups /\ collectDeletes ups ∅ (lr_delete req) = Ok dels /\
    nodes a !! id = Some n /\ size (applyLabels ups dels (labels n)) <= MaxLabelsPerNode /\
    a' = save_node id (set_labels (applyLabels ups dels (labels n)) n) a.

(** ** Pure parts *)

Lemma checkPrefixes_announceable st cidrs ps :
  checkPrefixes (ExternalAddress st) cidrs = Ok ps -> Forall (announceable st) ps.
Proof.
  revert ps. induction cidrs as [|cidr cidrs IH]; intros ps; simpl; [intros [= <-]; constructor|].
  destruct (ParsePrefix cidr) as [p|] eqn:Hp; [|done]. case_bool_decide as Hm; [|done].
  destruct (prefixOk (ExternalAddress st) p) eqn:Hok; [|done].
  destruct (checkPrefixes (ExternalAddress st) cidrs) as [ps'|]; [|done]. intros [= <-].
  constructor; [|by apply IH]. split_and!; [by eapply ParsePrefix_valid|done|done].
Qed.

Lemma collectUpserts_ok acc pairs ups :
  collectUpserts acc pairs = Ok ups -> labels_ok acc -> labels_ok ups.
Proof.
  revert acc. induction pairs as [|[k v] pairs IH]; intros acc; simpl; [by intros [= <-]|].
  destruct (valid k) eqn:Hk; [|done]. destruct (valid v) eqn:Hv; [|done]. case_bool_decide; [|done].
  intros Hc Hacc. eapply IH; [exact Hc|]. by apply map_Forall_insert_2.
Qed.

Lemma applyLabels_ok ups dels ls : labels_ok ups -> labels_ok ls -> labels_ok (applyLabels ups dels ls).
Proof.
  intros Hu Hl k v [Hkv _]%map_lookup_filter_Some.
  apply lookup_union_Some_raw in Hkv as [Hkv|[_ Hkv]]; [by apply Hu|by apply Hl].
Qed.

(** ** Handlers *)

Context (l : leadership).
Context (Hlk : election_key l).

Lemma from_Some {A B} (o : option A) (e : B) x :
  match o with Some x => Ok x | None => Err e end = Ok x -> o = Some x.
Proof. destruct o; [by intros [= ->]|done]. Qed.

Lemma from_Some2 {A B} (o : option (option A)) (e : B) x :
  match o with Some (Some x) => Ok x | _ => Err e end = Ok x -> o = Some (Some x).
Proof. destruct o as [[]|]; [by intros [= ->]|done..]. Qed.

Lemma spec_UpdateNodeStatus pi id st : spec l (status_updated pi id st) (UpdateNodeStatus l pi id st).
Proof.
  unfold UpdateNodeStatus. apply spec_try_ret. intros pk Hpk%from_Some. apply spec_try_ret. intros id' Hid%from_Some.
  apply spec_check. intros ->%bool_decide_eq_true. destruct st as [s|]; [|apply spec_err].
  apply spec_check. intros _. apply spec_check. intros Hip. apply spec_withNodes.
  intros H v0 w Hinv Hl. apply does_nodeLoad; [done|done|]. intros w1 n Ho Hn w2 t ->.
  destruct (inv_nodes _ Hinv _ _ Hn) as [Hi [H1 H2 H3 H4] _ _].
  apply does_nodeSave with (id := id); [done|by split|done|by apply owns_lead|].
  by exists pk, s, n, t.
Qed.

Lemma only_ensureRegisterTicket :
  only (fun k => k = registerTicketEtcdPath) (fun _ => True) (ensureRegisterTicket l).
Proof.
  assert (forall ops, Forall (fun k => k = registerTicketEtcdPath) (ops ≫= op_writes) ->
    only (fun k => k = registerTicketEtcdPath) (fun _ => True) (txnAsLeader l ops)) as Ht.
  { intros ops Hops. split; [done|]. intros [rs| |e]; simpl; [done| |done]. split; [constructor|].
    intros x. done. }
  unfold ensureRegisterTicket. eapply only_bind; [apply Ht; constructor|]. intros [res|e] _; [|done].
  destruct (firstKvs res) as [|[k v] kvs]; [|done]. split; [done|]. intros [o|]; [|done].
  destruct (Marshal (mkTicketMsg o)) as [b|]; [|done].
  eapply only_bind; [apply Ht; by repeat constructor|]. by intros [|].
Qed.

Lemma ticket_unguarded k : k = registerTicketEtcdPath -> unguarded l k.
Proof.
  intros ->. split; [done|]. intros Heq. unfold election_key in Hlk. by rewrite <- Heq in Hlk.
Qed.

Lemma spec_RegisterNode pi req : spec l (registered pi req) (RegisterNode l pi req).
Proof.
  unfold RegisterNode. apply spec_try_ret. intros pk Hpk%from_Some2. apply spec_check. intros Hj%bool_decide_eq_true.
  eapply spec_bind_only; [apply only_ensureRegisterTicket|apply ticket_unguarded|].
  intros [t|e] _; [|apply spec_err]. apply spec_check. intros _. apply spec_withNodes.
  intros H v0 w Hinv Hl. apply does_clusterLoad; [done|done|]. intros w1 c Ho1 Hc.
  destruct (NodeStorageSecurity_of c) as [sec|e]; [|by apply wp_ret, does_err, owns_lead].
  destruct (NodeTPMUsage_of c (rq_haveLocalTpm req)) as [tpm|e] eqn:Ht; [|by apply wp_ret, does_err, owns_lead].
  apply does_try_ret; [by apply owns_lead|]. intros id Hid%from_Some.
  apply wp_bind. eapply wp_nodeLoad; [by apply election_unguarded|by apply owns_lead| |].
  - intros w2 n Ho2 Hnn. case_bool_decide as Hst; [|by apply wp_ret, does_err, owns_lead].
    apply wp_ret, does_ok; [done|]. exists pk, id, c, tpm. split_and!; [done..|]. left. by exists n.
  - intros w2 e Hl2 He. apply does_check; [done|]. intros Heq%bool_decide_eq_true.
    destruct (He Heq) as [Ho2 Hno]. destruct (newLabels_ok (rq_labels req)) as [Hlab _].
    apply does_nodeSave_then with (id := id); [done|by split|done|done|].
    exists pk, id, c, tpm. split_and!; [done..|]. by right.
Qed.

(** The PKI only writes in its own namespace. *)
Lemma pki_unguarded k : under pkiNamespace k -> unguarded l k.
Proof.
  intros [s ->]. split; [done|]. intros Heq. unfold election_key in Hlk. by rewrite <- Heq in Hlk.
Qed.

Lemma only_ensureCA : only (under pkiNamespace) (fun _ => True) (ensureCA Public).
Proof.
  split; [done|]. intros k. eapply only_bind; [by apply only_all|]. intros cr _. by split.
Qed.
Lemma only_ensureIssued name dns pub :
  only (under pkiNamespace) (fun _ => True) (ensureIssued Public name dns pub).
Proof.
  split; [done|]. intros k. eapply only_bind; [by apply only_all|]. intros cr _. by split.
Qed.

Lemma spec_CommitNode pi security cuk :
  spec l (committed pi security cuk) (CommitNode Public l pi security cuk).
Proof.
  unfold CommitNode. apply spec_try_ret. intros pk Hpk%from_Some2. apply spec_check. intros _.
  apply spec_withNodes. intros H v0 w Hinv Hl. apply does_clusterLoad; [done|done|]. intros w1 c Ho1 Hc.
  apply does_try_ret; [by apply owns_lead|]. intros [] Hv.
  apply does_try_ret; [by apply owns_lead|]. intros id Hid%from_Some.
  apply does_nodeLoad; [done|by apply owns_lead|]. intros w2 n Ho2 Hn.
  apply does_try_ret; [by apply owns_lead|]. intros [] Hst.
  assert (state n = STATE_STANDBY) as Hstandby by (by destruct (state n)). clear Hst.
  apply does_check; [by apply owns_lead|]. intros Hcuk.
  eapply does_bind_only; [apply only_ensureCA|apply pki_unguarded|by apply owns_lead|].
  intros w3 [caCert|e] _ Hl3; [|by apply wp_ret, does_err].
  apply does_try_ret; [done|]. intros nid Hnid%from_Some.
  eapply does_bind_only; [apply only_ensureIssued|apply pki_unguarded|done|].
  intros w4 [nodeCert|e] _ Hl4; [|by apply wp_ret, does_err].
  destruct (inv_nodes _ Hinv _ _ Hn) as [Hi [H1 H2 H3 H4] _ _].
  apply does_nodeSave_then with (id := id); [done|by split|done|done|].
  exists pk, id, n, c. split_and!; try done.
  apply orb_true_iff in Hcuk as [?%bool_decide_eq_true|?%bool_decide_eq_true]; auto.
Qed.

Lemma spec_JoinNode pi usingSealed : spec l (joined pi usingSealed) (JoinNode l pi usingSealed).
Proof.
  unfold JoinNode. apply spec_try_ret. intros jk Hpk%from_Some2. apply spec_withNodes.
  intros H v0 w Hinv Hl. apply wp_try. eapply wp_nodeIdByJoinKey; [by apply election_unguarded|exact Hl| |].
  2:{ intros w' e He. by apply does_err. }
  intros w1 id Ho1 Hjoin. apply does_nodeLoad; [done|by apply owns_lead|]. intros w2 n Ho2 Hn.
  apply does_clusterLoad; [done|by apply owns_lead|]. intros w3 c Ho3 Hc.
  pose proof (owns_lead _ _ _ _ Ho3) as Hl3.
  do 5 (apply does_check; [done|]; intros ?). apply wp_ret, does_ok; [done|].
  destruct (inv_joins _ Hinv _ _ Hjoin) as (n' & Hn' & Hjk%hexEncode_inj).
  rewrite Hn in Hn'. injection Hn' as <-. split; [done|]. exists id, n, c. rewrite Hjk.
  repeat match goal with Hb : context [bool_decide ?P] |- _ =>
    revert Hb; destruct (decide P); [rewrite (bool_decide_eq_true_2 P) by done|rewrite (bool_decide_eq_false_2 P) by done]
  end; destruct usingSealed; simpl; intros; try done; split_and!; done.
Qed.

Lemma spec_ApproveNode pk : spec l (approved pk) (ApproveNode l pk).
Proof.
  unfold ApproveNode. apply spec_check. intros _. apply spec_withNodes. intros H v0 w Hinv Hl.
  apply does_try_ret; [done|]. intros id Hid%from_Some.
  apply does_nodeLoad; [done|done|]. intros w1 n Ho Hn. pose proof (owns_lead _ _ _ _ Ho) as Hl1.
  destruct (inv_nodes _ Hinv _ _ Hn) as [Hi [H1 H2 H3 H4] _ _]. destruct (state n) eqn:Hst.
  - apply does_nodeSave with (id := id); [done|by split|done|done|]. exists id, n. auto 10.
  - apply wp_ret, does_ok; [done|]. exists id, n. auto 10.
  - apply wp_ret, does_ok; [done|]. exists id, n. auto 10.
  - by apply wp_ret, does_err.
  - by apply wp_ret, does_err.
Qed.

Lemma spec_resolveRef {A} (O : A -> cluster -> cluster -> Prop) r k :
  (forall id, resolves r id -> spec l O (k id)) -> spec l O (try (resolveRef r) k).
Proof.
  intros Hk. destruct r as [pk|id|]; simpl; [|by apply Hk|apply spec_err].
  case_bool_decide as Hlen; [|apply spec_err]. apply spec_try_ret. intros id Hid%from_Some. by apply Hk.
Qed.

(** What the change of the consensus role does. *)
Lemma does_changeConsensus {A} H v0 (O : A -> cluster -> cluster -> Prop) ch n k w :
  lead H l (eq v0) w ->
  (forall w' cm, lead H l (eq v0) w' ->
     match ch with
     | None => cm = consensusMember n
     | Some true => from_option consensus_ok False cm
     | Some false => cm = None /\ kubernetesController n = false
     end -> wp (interference l) (k (set_consensus cm n)) (does l H O v0) w') ->
  wp (interference l) (try (changeConsensus ch n) k) (does l H O v0) w.
Proof.
  intros Hl Hk. destruct ch as [[|]|]; simpl.
  - intros w1 x [HR Hjc]. apply does_try_ret; [by eapply lead_rely|]. intros n' Hn'.
    destruct x as [jc|]; [|done]. injection Hn' as <-. apply Hk; [by eapply lead_rely|]. simpl.
    destruct (Hjc jc eq_refl) as (H1 & H2 & H3). by split_and!.
  - destruct (kubernetesController n) eqn:Hc; [by apply wp_ret, does_err|]. by apply Hk.
  - assert (n = set_consensus (consensusMember n) n) as Heq by (by destruct n).
    unfold try. simpl. rewrite Heq at 1. by apply Hk.
Qed.

Lemma spec_UpdateNodeRoles req : spec l (roles_updated req) (UpdateNodeRoles l req).
Proof.
  unfold UpdateNodeRoles. apply spec_resolveRef. intros id Hid. apply spec_withNodes.
  intros H v0 w Hinv Hl. apply does_loadRequested; [done|done|]. intros w1 n Ho1 Hn.
  destruct (inv_nodes _ Hinv _ _ Hn) as [Hi [H1 H2 H3 H4] _ _].
  apply does_changeConsensus; [by apply owns_lead|]. intros w2 cm Hl2 Hcm.
  apply does_try_ret; [done|]. intros n2 Hn2.
  assert (exists kc kw, changeWorker (rr_worker req) n2 = set_roles cm kc kw n /\
    kc = default (kubernetesController n) (rr_controller req) /\
    (rr_controller req = Some true -> is_Some cm) /\ kw = default (kubernetesWorker n) (rr_worker req))
    as (kc & kw & Heq & Hkc & Hc & Hkw).
  { eexists _, _. split_and!; [|reflexivity| |reflexivity].
    - destruct (rr_controller req) as [[|]|]; simpl in Hn2; [destruct cm as [cm|]; [|done]|..];
        injection Hn2 as <-; by destruct (rr_worker req) as [[|]|].
    - intros Hrc. rewrite Hrc in Hn2. simpl in Hn2. by destruct cm. }
  rewrite Heq. apply does_nodeSave with (id := id); [done| |done|done|].
  - split; simpl; [|done..]. destruct (rr_consensus req) as [[|]|]; [by destruct cm|by destruct Hcm as [-> _]|by subst].
  - exists id, n, cm, kc, kw. by split_and!.
Qed.

Lemma spec_DeleteNode req : spec l (deleted req) (DeleteNode l req).
Proof.
  unfold DeleteNode. apply spec_resolveRef. intros id Hid. apply spec_withNodes.
  intros H v0 w Hinv Hl. apply does_loadRequested; [done|done|]. intros w1 n Ho1 Hn.
  destruct (inv_nodes _ Hinv _ _ Hn) as [Hi _ _ _].
  apply does_try_ret; [by apply owns_lead|]. intros [] Hd.
  assert (deleted req tt (abs v0.1) (drop_node id n (abs v0.1))) as HO by (by exists id, n).
  eapply wp_nodeDestroy; [by apply election_unguarded|exact Hi|by apply owns_lead| |].
  - intros w' (? & ? & ? & _ & Ha). split_and!; [done..|]. by rewrite Ha.
  - intros w' e He. eapply lead_mono; [|exact He]. intros v [->|[_ ->]]; eauto.
Qed.

Lemma spec_UpdateNodeLabels req : spec l (relabelled req) (UpdateNodeLabels l req).
Proof.
  unfold UpdateNodeLabels. apply spec_resolveRef. intros id Hid.
  apply spec_try_ret. intros ups Hups. apply spec_try_ret. intros dels Hdels. apply spec_withNodes.
  intros H v0 w Hinv Hl. apply does_loadRequested; [done|done|]. intros w1 n Ho1 Hn.
  destruct (inv_nodes _ Hinv _ _ Hn) as [Hi [H1 H2 H3 H4] _ _].
  apply does_check; [by apply owns_lead|]. intros Hsz%bool_decide_eq_true.
  apply does_nodeSave with (id := id); [done| |done|by apply owns_lead|].
  - split; simpl; [done..|]. apply applyLabels_ok; [|done]. eapply collectUpserts_ok; [exact Hups|].
    apply map_Forall_empty.
  - exists id, n, ups, dels. by split_and!.
Qed.

End Handlers.

End CuratorHandlers.
