(* ===== verification/CuratorNet.v ===== *)
(** * Cluster networking

    The leader's cache of WireGuard keys, and the specification of
    [UpdateNodeClusterNetworking]. *)

From S2P Require Import Prelude GoStrings EtcdPrefix Labels Etcd Interfaces Effects Pki ClusterConfig CuratorNode CuratorState CuratorSpec CuratorAPI CuratorSteps CuratorHandlers.

Module CuratorNet.
Import EtcdPrefix Labels Etcd Interfaces Effects Pki ClusterConfig CuratorNode CuratorState CuratorSpec CuratorAPI CuratorSteps CuratorRefine CuratorHandlers.

Section Net.
Context {E : Etcd} {X : X509} {NT : NetText} {WG : WireGuard}.
Context {NC : Codec NodeMsg} {CC : Codec ClusterConfiguration}.
Context {TC : Codec RegisterTicketMsg} {OC : Codec InitialOwnerMsg}.

(** No two nodes have the same WireGuard key. *)
Definition unique_keys (a : cluster) : Prop :=
  forall id1 id2 n1 n2, nodes a !! id1 = Some n1 -> nodes a !! id2 = Some n2 ->
    wireguardKey n1 = wireguardKey n2 -> wireguardKey n1 <> "" -> id1 = id2.

(** The cache names the owner of every key. *)
Definition complete (m : gmap string string) (a : cluster) : Prop :=
  forall id n, nodes a !! id = Some n -> wireguardKey n <> "" -> m !! wireguardKey n = Some id.

Definition cache_complete (v : view) : Prop := forall m, v.2 = Some m -> complete m (abs v.1).

(** ** Building the cache *)

(** The entries of the nodes in etcd. *)
Definition node_entries (g : gmap string string) (kvs : list (string * kv)) : Prop :=
  forall key x, HasPrefix key "/nodes/" = true -> g !! key = Some x -> exists e, (key, e) ∈ kvs /\ kv_value e = x.

(** Every entry of the list is a node of the cluster, or does not decode. *)
Definition entries_of (g : gmap string string) (kvs : list (string * kv)) : Prop :=
  Forall (fun ke => g !! ke.1 = Some (kv_value ke.2)) kvs.

Lemma range_entries d :
  let kvs := range d (KeyRange NodeEtcdPrefix).1 (KeyRange NodeEtcdPrefix).2 in
  node_entries (gdata d) kvs /\ entries_of (gdata d) kvs.
Proof.
  intros kvs.
  assert (forall key e, (key, e) ∈ kvs <-> d !! key = Some e /\ HasPrefix key "/nodes/" = true) as Hin.
  { intros key e. unfold kvs, range. rewrite (merge_sort_Permutation key_le).
    rewrite elem_of_map_to_list, map_lookup_filter_Some. simpl. unfold in_range.
    pose proof (KeyRange_prefix "/nodes" key) as Hr. simpl in Hr. by rewrite <- Hr. }
  split.
  - intros key x Hp Hg. rewrite gdata_lookup in Hg. destruct (guarded key); [|done].
    destruct (d !! key) as [e|] eqn:Hd; [|done]. injection Hg as <-. exists e. by rewrite Hin.
  - apply Forall_forall. intros [key e] [Hd Hp]%Hin. simpl. rewrite gdata_lookup.
    unfold guarded. by rewrite Hp, Hd.
Qed.

(** Protobuf: no bytes are the message with no fields set. *)
Definition emptyNodeMsg : NodeMsg :=
  mkNodeMsg "" "" "" (STATE_other 0) None None (NODE_TPM_other 0) None None.
Definition decodes_empty : Prop := Unmarshal (M := NodeMsg) "" = Some emptyNodeMsg.

(** The keys of a map belong to nodes. *)
Definition owned (m : gmap string string) (a : cluster) : Prop :=
  forall k id, m !! k = Some id -> exists n, nodes a !! id = Some n /\ wireguardKey n = k.

Lemma nodeValueConverter_inv g key e id o :
  g !! key = Some (kv_value e) -> decodes_empty ->
  nodeValueConverter key (kv_value e) = Ok (id, o) ->
  Key NodeEtcdPrefix id = Ok key /\ nodes (abs g) !! id = o.
Proof.
  intros Hg Hempty. unfold nodeValueConverter. set (id' := ExtractID NodeEtcdPrefix key).
  assert (id' <> "" -> Key NodeEtcdPrefix id' = Ok key) as Hkey.
  { intros Hne. by apply Key_iff_ExtractID. }
  assert (forall o', id' <> "" -> decodeNode (kv_value e) = o' ->
    Key NodeEtcdPrefix id' = Ok key /\ nodes (abs g) !! id' = o') as Hdone.
  { intros o' Hne Hdec. specialize (Hkey Hne). split; [done|]. simpl. rewrite lookup_omap.
    rewrite (section_eq NodeEtcdPrefix g id' key ltac:(done) Hkey), Hg. exact Hdec. }
  destruct (bool_decide_reflect (kv_value e = "")) as [Hv|Hv].
  - simpl. case_bool_decide; [|done]. intros [= <- <-]. apply Hdone; [done|].
    unfold decodeNode, nodeUnmarshal. by rewrite Hv, Hempty.
  - destruct (nodeUnmarshal (kv_value e)) as [n|] eqn:Hu; [|done]. destruct (ID n) as [nid|]; [|done].
    destruct (bool_decide_reflect (id' = nid)); [|done]. simpl. case_bool_decide; [|done]. intros [= <- <-].
    apply Hdone; [done|]. unfold decodeNode. by rewrite Hu.
Qed.

Lemma buildCache_spec g m kvs m' :
  decodes_empty -> unique_keys (abs g) -> entries_of g kvs -> owned m (abs g) ->
  buildCache m kvs = Ok m' ->
  owned m' (abs g) /\ m ⊆ m' /\
  forall id n key e, (key, e) ∈ kvs -> Key NodeEtcdPrefix id = Ok key -> nodes (abs g) !! id = Some n ->
    wireguardKey n <> "" -> m' !! wireguardKey n = Some id.
Proof.
  intros Hempty Huniq. revert m. induction kvs as [|[key e] kvs IH]; intros m Hof Hown; simpl.
  { intros [= <-]. split_and!; [done|done|]. intros id n key e Hin. by apply not_elem_of_nil in Hin. }
  apply Forall_cons in Hof as [Hg Hof].
  destruct (nodeValueConverter key (kv_value e)) as [[id o]|er] eqn:Hc; [|by destruct er].
  apply (nodeValueConverter_inv g) in Hc as [Hkey Hn]; [|done|done].
  assert (forall m2, owned m2 (abs g) -> m ⊆ m2 ->
    (forall n, o = Some n -> wireguardKey n <> "" -> m2 !! wireguardKey n = Some id) ->
    buildCache m2 kvs = Ok m' -> owned m' (abs g) /\ m ⊆ m' /\
    forall id n key0 e0, (key0, e0) ∈ (key, e) :: kvs -> Key NodeEtcdPrefix id = Ok key0 ->
      nodes (abs g) !! id = Some n -> wireguardKey n <> "" -> m' !! wireguardKey n = Some id) as Hstep.
  { intros m2 Hown2 Hsub Hhead Hb. destruct (IH m2 Hof Hown2 Hb) as (H1 & H2 & H3).
    split_and!; [done|by etrans|]. intros id2 n2 key0 e0 [[= -> ->]|Hin]%elem_of_cons Hk2 Hn2 Hne; [|by eauto].
    assert (id2 = id) as ->.
    { apply Key_iff_ExtractID in Hkey as [<- _], Hk2 as [<- _]; done. }
    eapply lookup_weaken; [|exact H2]. by apply Hhead; [congruence|]. }
  destruct o as [n|]; [|by apply Hstep]. case_bool_decide as Hwg.
  { apply Hstep; [done..|]. intros n' [= <-] Hne. done. }
  destruct (m !! wireguardKey n) as [id'|] eqn:Hm.
  - assert (id' = id) as ->.
    { destruct (Hown _ _ Hm) as (n' & Hn' & Hw). apply (Huniq id' id n' n); [done..|congruence]. }
    rewrite (bool_decide_eq_false_2 (Some id <> Some id)) by naive_solver. rewrite andb_false_r.
    rewrite (insert_id m) by done. apply Hstep; [done..|]. by intros n' [= <-].
  - rewrite (bool_decide_eq_false_2 (None <> None)) by naive_solver. simpl. apply Hstep.
    + intros k i [[<- <-]|[_ Hk]]%lookup_insert_Some; [by exists n|by apply Hown].
    + by apply insert_subseteq.
    + intros n' [= <-] _. by rewrite lookup_insert_eq.
Qed.

(** ** The handler *)

Context (l : leadership) (Hlk : election_key l).

(** The cache the handler works with. *)
Definition cached (v : view) (m : gmap string string) : Prop :=
  v.2 = Some m \/
  (v.2 = None /\ exists kvs, node_entries v.1 kvs /\ entries_of v.1 kvs /\ buildCache ∅ kvs = Ok m).

Lemma wp_prepareCache H v0 Q w :
  lead H l (eq v0) w ->
  (forall w' m, lead H l (fun v => v = (v0.1, Some m) /\ cached v0 m) w' -> Q w' (Ok m)) ->
  (forall w' e, lead H l (eq v0) w' -> Q w' (Err e)) ->
  wp (interference l) prepareClusternetCacheUnlocked Q w.
Proof.
  intros Hl Hok Herr. intros w1 c [-> ->]. destruct (cache w) as [m|] eqn:Hc.
  { apply wp_ret, Hok. destruct Hl as [Hlk' Hv]. split; [done|]. intros Hh. destruct (Hv Hh) as [HH ->].
    split; [done|]. unfold view_of, cached. simpl. by rewrite Hc; auto. }
  intros w1 x (w0 & s & HR & Ht & ->). pose proof (lead_rely _ _ _ _ _ _ Hl HR) as Hl0.
  assert (lead H l (eq v0) (set_es s w0)) as Hls.
  { apply (lead_rely others H l _ w0); [exact Hl0|].
    apply (rely_txn others l _ w0 w0 s [] [nodeRange] x); [apply rely_refl; apply _|exact Ht|constructor]. }
  destruct x as [rs| |e]; [|by apply wp_ret, Herr..].
  apply txn_committed in Ht as (_ & r & _ & [= Es Hrs]).
  subst rs. simpl. destruct (buildCache ∅ _) as [m|e] eqn:Hb; [|by apply wp_ret, Herr].
  intros w2 [] ->. apply wp_ret, Hok. split; [by destruct Hls|]. intros Hh. destruct Hls as [_ Hls].
  destruct (Hls Hh) as [HH Hv]. split; [done|].
  assert (view_of (set_es s w0) = view_of w0) as Hv0 by (unfold view_of, store; simpl; by rewrite Es).
  assert (held l w0) as Hh0.
  { revert Hh. unfold held, store. simpl. by rewrite Es. }
  assert (view_of w0 = view_of w) as Hvw.
  { destruct HR as [_ HR]. destruct Hl as [Hl _]. rewrite Hl in HR. by apply HR. }
  rewrite Hv0 in Hv. split.
  - rewrite Hv. unfold view_of, store. simpl. by rewrite Es.
  - right. split; [by rewrite Hv, Hvw|].
    destruct (range_entries (content (es w0))) as [H1 H2]. eexists. rewrite Hv. split_and!; [exact H1|exact H2|exact Hb].
Qed.

Lemma cached_complete v m :
  decodes_empty -> unique_keys (abs v.1) -> cache_complete v -> cached v m -> complete m (abs v.1).
Proof.
  intros Hempty Huniq Hcc [Hm|(_ & kvs & Hent & Hof & Hb)]; [by apply Hcc|].
  apply (buildCache_spec v.1) in Hb as (_ & _ & Hb); [|done..|by intros k id Hk].
  intros id n Hn Hne. pose proof Hn as Hs. simpl in Hs. rewrite lookup_omap in Hs.
  destruct (section NodeEtcdPrefix v.1 !! id) as [x|] eqn:Hx; [|done].
  apply section_lookup in Hx as (key & Hk & Hg); [|done].
  destruct (Hent key x) as (e & Hin & He); [|done|by eapply Hb].
  apply Key_nodes in Hk as ->. apply HasPrefix_app.
Qed.

(** On success, the key was free or the node's own in the cache. *)
Definition claims (H : Prop) (v0 : view) (key id : string) (w' : world) (r : result err unit) : Prop :=
  r = Ok tt -> owns H l (fun v => exists c, cached v0 c /\ v.2 = Some (<[key := id]> c) /\
    (c !! key = None \/ c !! key = Some id)) w'.

(** What the handler does with the lock: in particular, it refuses a key that the
    cache gives to another node. *)
Lemma does_network H v0 pi cn w pk id m key :
  cluster_inv (abs v0.1) -> lead H l (eq v0) w ->
  pi ≫= pi_Node = Some pk -> NodeID pk = Some id -> cn = Some m -> ParseKey (WireguardPubkey m) = Some key ->
  wp (interference l)
    (let! cache := prepareClusternetCacheUnlocked in
     check! bool_decide (cache !! wgKey_String key = None) || bool_decide (cache !! wgKey_String key = Some id)
     else Status InvalidArgument "public key alread used by another node" in
     let! node := nodeLoad l id in
     match status node with
     | None => Ret (Err (Status FailedPrecondition "node needs to submit at least one status update"))
     | Some st =>
         let! prefixes := step (checkPrefixes (ExternalAddress st) (Prefixes m)) in
         let! _ := nodeSave l (set_network (wgKey_String key) prefixes node) in
         call! _ := ECachePut (<[wgKey_String key := id]> cache) in
         Ret (Ok tt)
     end)
    (fun w' r => does l H (networked pi cn) v0 w' r /\ claims H v0 (wgKey_String key) id w' r) w.
Proof.
  intros Hinv Hl Hpk Hid Hcn Hkey. apply wp_try. apply (wp_prepareCache H v0); [done| |].
  2:{ intros w' e He. split; [by apply does_err|done]. }
  intros w1 c Hl1. set (v1 := (v0.1, Some c)).
  assert (lead (H /\ cached v0 c) l (eq v1) w1) as Hl2.
  { destruct Hl1 as [? Hl1]. split; [done|]. intros Hh. destruct (Hl1 Hh) as (? & -> & ?). done. }
  assert (forall w' P, lead (H /\ cached v0 c) l P w' -> lead H l P w') as Hweak.
  { intros w' P [? HP]. split; [done|]. intros Hh. destruct (HP Hh) as [[? _] ?]. done. }
  assert (forall w' e, lead (H /\ cached v0 c) l (eq v1) w' ->
    does l H (networked pi cn) v0 w' (Err e) /\ claims H v0 (wgKey_String key) id w' (Err e)) as Hfail.
  { intros w' e Hw'. split; [|done]. apply Hweak. eapply lead_mono; [|exact Hw']. intros v <-. by left. }
  assert (forall w' e, lead (H /\ cached v0 c) l (eq v1) w' -> wp (interference l) (Ret (Err e))
    (fun w' r => does l H (networked pi cn) v0 w' r /\ claims H v0 (wgKey_String key) id w' r) w') as Hret.
  { intros w' e Hw'. by apply wp_ret, Hfail. }
  destruct (bool_decide _ || _) eqn:Hkc; [|by apply Hret].
  assert (c !! wgKey_String key = None \/ c !! wgKey_String key = Some id) as Hfree.
  { apply orb_true_iff in Hkc as [?%bool_decide_eq_true|?%bool_decide_eq_true]; auto. }
  apply wp_try. eapply wp_nodeLoad; [by apply election_unguarded|exact Hl2| |].
  2:{ intros w' e Hw' _. by apply Hfail. }
  intros w2 n Ho2 Hn. pose proof (owns_lead _ _ _ _ Ho2) as Hl3.
  destruct (status n) as [st|] eqn:Hst; [|by apply Hret].
  destruct (checkPrefixes (ExternalAddress st) (Prefixes m)) as [ps|e] eqn:Hps; [|by apply Hret].
  destruct (inv_nodes _ Hinv _ _ Hn) as [Hi [H1 H2 H3 H4] _ _].
  set (n' := set_network (wgKey_String key) ps n).
  assert (node_ok n') as Hok.
  { split; simpl; [done| | |done]; [intros Hw; by apply wgKey_String_nonempty in Hw|].
    eapply Forall_impl; [by eapply checkPrefixes_announceable|]. by intros p [? _]. }
  assert (networked pi cn tt (abs v0.1) (save_node id n' (abs v0.1))) as HO by (by exists pk, id, m, key, n, st, ps).
  apply wp_try, wp_try. eapply wp_nodeSave; [by apply election_unguarded|exact Hok|exact Hi|exact Hl3| |].
  - intros w3 (Hk3 & Hh3 & [HH Hc] & _ & Ha) w4 [] ->. apply wp_ret. split; [|intros _]; split_and!; try done.
    + change (networked pi cn tt (abs v0.1) (abs (view_of w3).1)). by rewrite Ha.
    + by exists c.
  - intros w3 e Hl4. split; [|done]. apply Hweak. eapply lead_mono; [|exact Hl4].
    intros v [->|[_ ->]]; eauto.
Qed.

Lemma spec_UpdateNodeClusterNetworking pi cn :
  spec l (networked pi cn) (UpdateNodeClusterNetworking l pi cn).
Proof.
  unfold UpdateNodeClusterNetworking. apply spec_try_ret. intros pk Hpk%from_Some.
  apply spec_try_ret. intros id Hid%from_Some. destruct cn as [m|] eqn:Hcn; [|apply spec_err].
  apply spec_check. intros _. destruct (ParseKey (WireguardPubkey m)) as [key|] eqn:Hkey; [|apply spec_err].
  apply spec_withNodes. intros H v0 w Hinv Hl.
  eapply wp_mono; [|by eapply (does_network H v0 pi (Some m))]. by intros w' r [Hd _].
Qed.

End Net.

End CuratorNet.
