(* ===== verification/CuratorSystem.v ===== *)
(** * The curator as a whole

    The requests a leader serves, that serving them is what the handlers assume
    of each other, and that a leader that was replaced does no harm. *)

From S2P Require Import Prelude GoStrings EtcdPrefix Labels Etcd Interfaces Effects Pki ClusterConfig CuratorNode CuratorState CuratorSpec CuratorAPI CuratorSteps CuratorHandlers CuratorNet.

Module CuratorSystem.
Import EtcdPrefix Labels Etcd Interfaces Effects Pki ClusterConfig CuratorNode CuratorState CuratorSpec CuratorAPI CuratorSteps CuratorRefine CuratorHandlers CuratorNet.

Section System.
Context {E : Etcd} {X : X509} {NT : NetText} {WG : WireGuard}.
Context {NC : Codec NodeMsg} {CC : Codec ClusterConfiguration}.
Context {TC : Codec RegisterTicketMsg} {OC : Codec InitialOwnerMsg}.
Context (Public : string -> string).

Inductive request :=
| RqUpdateNodeStatus (pi : option PeerInfo) (id : string) (st : option NodeStatus)
| RqHeartbeat (pi : option PeerInfo) (msgs : list received)
| RqRegisterNode (pi : option PeerInfo) (req : RegisterRequest)
| RqCommitNode (pi : option PeerInfo) (security : NodeStorageSecurity) (cuk : string)
| RqJoinNode (pi : option PeerInfo) (usingSealed : bool)
| RqUpdateNodeClusterNetworking (pi : option PeerInfo) (cn : option ClusternetMsg)
| RqGetRegisterTicket
| RqApproveNode (pubkey : string)
| RqUpdateNodeRoles (req : RolesRequest)
| RqDecommissionNode
| RqDeleteNode (req : DeleteRequest)
| RqUpdateNodeLabels (req : LabelsRequest)
| RqGetNodes (startTs : Z) (keep : result err (ApiNode -> result err bool))
| RqGetClusterInfo (caRaw : string)
| RqEscrow (pi : option PeerInfo) (msg : result err (option (string * string))).

(** The response, without its contents. *)
Definition forget {A} (h : handler A) : handler unit :=
  prog_bind h (fun r => Ret match r with Ok _ => Ok tt | Err e => Err e end).

Definition serve (l : leadership) (rq : request) : handler unit :=
  match rq with
  | RqUpdateNodeStatus pi id st => UpdateNodeStatus l pi id st
  | RqHeartbeat pi msgs => Heartbeat pi msgs
  | RqRegisterNode pi req => forget (RegisterNode l pi req)
  | RqCommitNode pi security cuk => forget (CommitNode Public l pi security cuk)
  | RqJoinNode pi usingSealed => forget (JoinNode l pi usingSealed)
  | RqUpdateNodeClusterNetworking pi cn => UpdateNodeClusterNetworking l pi cn
  | RqGetRegisterTicket => forget (GetRegisterTicket l)
  | RqApproveNode pubkey => ApproveNode l pubkey
  | RqUpdateNodeRoles req => UpdateNodeRoles l req
  | RqDecommissionNode => DecommissionNode
  | RqDeleteNode req => DeleteNode l req
  | RqUpdateNodeLabels req => UpdateNodeLabels l req
  | RqGetNodes startTs keep => forget (GetNodes l startTs keep)
  | RqGetClusterInfo caRaw => forget (GetClusterInfo l caRaw)
  | RqEscrow pi msg => prog_bind (Escrow Public pi msg) (fun mr => Ret mr.2)
  end.

(** ** Guarantee *)

Context (l : leadership) (Hlk : election_key l).

Definition guarantees {A} (h : handler A) : Prop :=
  forall w, ready l w -> wp (interference l) h (fun w' _ => interference l w w') w.

Lemma guarantees_forget {A} (h : handler A) : guarantees h -> guarantees (forget h).
Proof. intros Hh w Hw. apply wp_bind. eapply wp_mono; [|by apply Hh]. intros w' r HR. by apply wp_ret. Qed.

Lemma guarantees_spec {A} (O : A -> cluster -> cluster -> Prop) h :
  (forall x a a', cluster_inv a -> O x a a' -> rtc cstep a a') -> spec l O h -> guarantees h.
Proof.
  intros HO Hs w Hw. eapply wp_mono; [|by apply Hs]. destruct Hw as [Hl Hi]. intros w' r [Hl' Hp].
  split; [congruence|]. rewrite Hl. intros Hh. destruct r as [x|e].
  - destruct Hp as (_ & Hw & a & Ha & HOa). split; [done|]. unfold others. etrans; [exact Ha|].
    apply (HO x); [|done]. eapply csteps_preserve; [exact Ha|by apply Hi].
  - destruct (Hp Hh) as (Hw & a & Ha & [Heq|[x HOa]]); split; try done; unfold others.
    + unfold state_of in *. by rewrite Heq.
    + etrans; [exact Ha|]. apply (HO x); [|done]. eapply csteps_preserve; [exact Ha|by apply Hi].
Qed.

Lemma guarantees_only {A} (P : string -> Prop) (Q : result err A -> Prop) h :
  only P Q h -> (forall k, P k -> unguarded l k) -> guarantees h.
Proof.
  intros Hh HP w Hw. eapply wp_mono; [|apply (wp_only others l _ P Q h w w Hh HP), rely_refl; apply _].
  by intros w' r [HR _].
Qed.

Lemma guarantees_locked {A} (P : string -> Prop) (Q : result err A -> Prop) h :
  only P Q h -> (forall k, P k -> unguarded l k) -> guarantees (withNodes h).
Proof.
  intros Hh HP w [Hl _] w1 [] (w2 & HR & ->). apply wp_bind.
  eapply wp_mono; [|apply (wp_only others l _ P Q h (set_locked true w2) (set_locked true w2) Hh HP), rely_refl; apply _].
  intros w3 r [[Hl3 HR3] _] w4 [] ->. apply wp_ret. simpl in Hl3, HR3. destruct HR as [Hl2 HR2].
  split; [done|]. intros Hw3. destruct (HR3 Hw3) as [Hw2 Hv]. destruct (HR2 Hw2) as [Hw1 Hv2].
  split; [done|]. rewrite Hl in *. change (others (view_of w) (view_of w3)). rewrite Hv. exact Hv2.
Qed.

Lemma only_txnAsLeader P ops :
  Forall P (ops ≫= op_writes) -> only P (fun _ => True) (txnAsLeader l ops).
Proof.
  intros Hops. split; [done|]. intros [rs| |e]; simpl; [done| |done]. split; [constructor|]. done.
Qed.

Lemma only_try {A B} P (Q : result err B -> Prop) (m : handler A) k :
  only P (fun _ => True) m -> (forall a, only P Q (k a)) -> (forall e, Q (Err e)) -> only P Q (try m k).
Proof. intros Hm Hk HQ. eapply only_bind; [exact Hm|]. intros [a|e] _; [apply Hk|apply HQ]. Qed.

Lemma only_clusterLoad P : only P (fun _ => True) (clusterLoad l).
Proof.
  unfold clusterLoad, leaderTxn. apply only_try; [|intros res|done].
  - eapply only_bind; [apply only_txnAsLeader; constructor|]. by intros [|] _.
  - by destruct (firstKvs res) as [|[k e] [|? ?]].
Qed.

Lemma only_heartbeatLoop P id msgs : only P (fun _ => True) (heartbeatLoop id msgs).
Proof.
  induction msgs as [|[[|]| |] msgs IH]; simpl; try done.
Qed.

Lemma only_listNodes P startTs now keep kvs : only P (fun _ => True) (listNodes startTs now keep kvs).
Proof.
  induction kvs as [|[k e] kvs IH]; simpl; [done|].
  destruct (nodeUnmarshal (kv_value e)) as [n|[]]; [|done..].
  apply only_try; [done| |done]. intros id. split; [done|]. intros hb.
  destruct (nodeHealth startTs hb n now) as [h lhb]. apply only_try; [done| |done]. intros b.
  by apply only_try.
Qed.

Lemma only_Escrow pi msg : only (under pkiNamespace) (fun _ => True) (Escrow Public pi msg).
Proof.
  unfold Escrow. destruct pi as [pi|]; [|done]. destruct (pi_Unauthenticated pi) as [ss|]; [|done].
  destruct msg as [[[name pk]|]|]; [|done..]. case_bool_decide; [|done]. case_bool_decide; [|done]. cbn [negb].
  destruct ss as [pk'|]; [|done]. case_bool_decide; [|done]. cbn [negb].
  eapply (only_bind _ (fun _ => True)).
  - split; [constructor|]. intros x. by repeat case_match.
  - intros [opk|e] _; [|done]. case_bool_decide; [|done]. cbn [negb].
    eapply only_bind; [apply only_ensureIssued|]. by intros [der|e] _.
Qed.

(** Transitions of the handlers. *)
Lemma status_updated_step pi id st x a a' : status_updated pi id st x a a' -> rtc cstep a a'.
Proof. intros (pk & s & n & t & _ & _ & _ & Hip & Hn & ->). apply rtc_once. by eapply CStatus. Qed.
Lemma registered_step pi req x a a' : registered pi req x a a' -> rtc cstep a a'.
Proof.
  intros (pk & id & c & tpm & _ & Hid & Hj & Hc & Ht & [(n & _ & _ & -> & _)|(Hno & _ & ->)]); [done|].
  apply rtc_once. by eapply CRegister.
Qed.
Lemma committed_step pi sec cuk x a a' : committed pi sec cuk x a a' -> rtc cstep a a'.
Proof. intros (pk & id & n & c & _ & _ & Hn & Hst & Hc & Hv & Hk & ->). apply rtc_once. by eapply CCommit. Qed.
Lemma networked_step pi cn x a a' : networked pi cn x a a' -> rtc cstep a a'.
Proof.
  intros (pk & id & m & key & n & st & ps & _ & _ & _ & _ & Hn & Hst & Hps & ->). apply rtc_once.
  eapply CNetwork; [done|done|apply wgKey_String_nonempty|by eapply checkPrefixes_announceable].
Qed.
Lemma approved_step pk x a a' : approved pk x a a' -> rtc cstep a a'.
Proof. intros (id & n & _ & Hn & [[_ ->]|[Hst ->]]); [done|]. apply rtc_once. by apply CApprove. Qed.
Lemma roles_updated_step req x a a' : cluster_inv a -> roles_updated req x a a' -> rtc cstep a a'.
Proof.
  intros Hinv (id & n & cm & kc & kw & _ & Hn & (Hcm & Hkc & Hc & _) & ->). apply rtc_once, CRoles; [done|].
  destruct (inv_nodes _ Hinv _ _ Hn) as [_ [Hok _ _ _] _ _]. split.
  - destruct (rr_consensus req) as [[|]|]; [by destruct cm|by destruct Hcm as [-> _]|by subst].
  - intros ->. destruct (rr_controller req) as [[|]|]; simpl in Hkc; [left; by apply Hc|done|].
    destruct (rr_consensus req) as [[|]|]; [by destruct cm; eauto| |by auto].
    destruct Hcm as [_ Hf]. congruence.
Qed.
Lemma deleted_step req x a a' : deleted req x a a' -> rtc cstep a a'.
Proof. intros (id & n & _ & Hn & Hd & ->). apply rtc_once. by eapply CDelete. Qed.
Lemma relabelled_step req x a a' : cluster_inv a -> relabelled req x a a' -> rtc cstep a a'.
Proof.
  intros Hinv (id & n & ups & dels & _ & Hu & _ & Hn & Hsz & ->). apply rtc_once, CLabels; [done| |done].
  destruct (inv_nodes _ Hinv _ _ Hn) as [_ [_ _ _ Hlab] _ _]. apply applyLabels_ok; [|done].
  eapply collectUpserts_ok; [exact Hu|apply map_Forall_empty].
Qed.

Lemma serve_guarantees rq : guarantees (serve l rq).
Proof.
  assert (forall (k : string), False -> unguarded l k) as Hnone by done.
  destruct rq; simpl; try apply guarantees_forget.
  - eapply guarantees_spec; [|by apply spec_UpdateNodeStatus]. eauto using status_updated_step.
  - apply (guarantees_only (fun _ => False) (fun _ => True)); [|done].
    apply only_try; [done| |done]. intros pk. apply only_try; [done| |done]. intros id. apply only_heartbeatLoop.
  - eapply guarantees_spec; [|by apply spec_RegisterNode]. eauto using registered_step.
  - eapply guarantees_spec; [|by apply spec_CommitNode]. eauto using committed_step.
  - eapply guarantees_spec; [|by apply spec_JoinNode]. by intros x a a' _ [-> _].
  - eapply guarantees_spec; [|by apply spec_UpdateNodeClusterNetworking]. eauto using networked_step.
  - eapply guarantees_only; [apply only_ensureRegisterTicket|by apply ticket_unguarded].
  - eapply guarantees_spec; [|by apply spec_ApproveNode]. eauto using approved_step.
  - eapply guarantees_spec; [|by apply spec_UpdateNodeRoles]. eauto using roles_updated_step.
  - by apply (guarantees_only (fun _ => False) (fun _ => True)).
  - eapply guarantees_spec; [|by apply spec_DeleteNode]. eauto using deleted_step.
  - eapply guarantees_spec; [|by apply spec_UpdateNodeLabels]. eauto using relabelled_step.
  - apply (guarantees_locked (fun _ => False) (fun _ => True)); [|done].
    eapply only_bind; [apply only_txnAsLeader; constructor|]. intros [res|e] _; [|done].
    apply only_try; [done| |done]. intros keep'. split; [done|]. intros now. apply only_listNodes.
  - apply (guarantees_only (fun _ => False) (fun _ => True)); [|done].
    eapply only_bind; [apply only_txnAsLeader; constructor|]. intros [res|e] _; [|done].
    apply only_try; [done| |done]. intros ns. apply only_try; [done| |done]. intros dir.
    eapply only_bind; [apply only_clusterLoad|]. done.
  - apply (guarantees_only (under pkiNamespace) (fun _ => True)); [|by apply pki_unguarded].
    by eapply only_bind; [apply only_Escrow|].
Qed.

End System.

End CuratorSystem.

(** * Fencing

    Programs whose writes of guarded keys all depend on the leader's lock do not
    change them once the lock is lost; and the handlers are such programs. *)

Module CuratorFence.
Import EtcdPrefix Labels Etcd Interfaces Effects Pki ClusterConfig CuratorNode CuratorState CuratorSpec CuratorAPI CuratorSteps CuratorRefine CuratorHandlers CuratorNet CuratorSystem.

Section Fence.
Context {E : Etcd} {X : X509} {NT : NetText} {WG : WireGuard}.
Context {NC : Codec NodeMsg} {CC : Codec ClusterConfiguration}.
Context {TC : Codec RegisterTicketMsg} {OC : Codec InitialOwnerMsg}.
Context (Public : string -> string).
Context (l : leadership).

Definition lockCmp : cmp := CreateRevision (lockKey l) (lockRev l).

Definition eff_fenced {B} (e : eff B) : Prop :=
  match e with
  | ETxn cs ops => Forall (unguarded l) (ops ≫= op_writes) \/ lockCmp ∈ cs
  | _ => True
  end.

Fixpoint fenced {A} (p : prog A) : Prop :=
  match p with
  | Ret _ => True
  | Vis e k => eff_fenced e /\ forall x, fenced (k x)
  end.

(** The leadership is lost, and the guarded data is [g]. *)
Definition lost (g : gmap string string) (w : world) : Prop := ~ held l w /\ gdata (store w) = g.

Lemma lost_content g w s : store (set_es s w) = store w -> lost g w -> lost g (set_es s w).
Proof. intros Hs. unfold lost, held. by rewrite Hs. Qed.

Lemma lost_ops g w r s ops :
  content s = (apply_ops r (store w) ops).1 -> Forall (unguarded l) (ops ≫= op_writes) ->
  lost g w -> lost g (set_es s w).
Proof.
  intros Hs Hun [Hno Hg]. rewrite Forall_forall in Hun. split.
  - unfold held. rewrite store_set_es, Hs. simpl. rewrite apply_ops_other; [done|].
    intros Hin. by destruct (Hun _ Hin).
  - rewrite store_set_es, Hs, <- Hg. apply map_eq. intros k. rewrite !gdata_lookup.
    destruct (guarded k) eqn:Hk; [|done]. rewrite apply_ops_other; [done|].
    intros Hin. destruct (Hun _ Hin). congruence.
Qed.

Lemma lost_txn g w s cs ops res :
  Forall (unguarded l) (ops ≫= op_writes) \/ lockCmp ∈ cs -> lost g w ->
  txn (es w) cs ops s res -> lost g (set_es s w).
Proof.
  intros Hf Hlost Ht.
  assert (holds (content (es w)) cs = true -> Forall (unguarded l) (ops ≫= op_writes)) as Hops.
  { intros Hh. destruct Hf as [Hf|Hin]; [done|]. exfalso. destruct Hlost as [Hno _]. apply Hno.
    unfold holds in Hh. rewrite forallb_forall in Hh. by apply Hh, list_elem_of_In. }
  destruct res as [rs| |e].
  - apply txn_committed in Ht as (Hh & r & _ & Heq). eapply (lost_ops _ _ r); [|by apply Hops|done].
    unfold store. by rewrite Heq.
  - apply txn_rejected in Ht as [_ Hs]. by apply lost_content.
  - apply txn_failed in Ht as [Hs|(Hh & r & _ & Hs)]; [by apply lost_content|].
    by eapply (lost_ops _ _ r); [|apply Hops|].
Qed.

(** A change of the guarded data that is not the program's own. *)
Definition foreign (R : world -> world -> Prop) (g g' : gmap string string) : Prop :=
  exists w w', R w w' /\ gdata (store w) = g /\ gdata (store w') = g'.

Lemma fenced_runs (R : world -> world -> Prop) {A} (p : prog A) w w' a :
  (forall w1 w2, R w1 w2 -> ~ held l w1 -> ~ held l w2) ->
  fenced p -> ~ held l w -> runs R w p w' a ->
  ~ held l w' /\ rtc (foreign R) (gdata (store w)) (gdata (store w')).
Proof.
  intros HR Hp Hl Hr. revert Hp Hl. induction Hr as [w a|w B e k w1 x w2 a Hs Hr IH]; intros Hp Hl; [done|].
  destruct Hp as [He Hp].
  assert (~ held l w1 /\ rtc (foreign R) (gdata (store w)) (gdata (store w1))) as [Hl1 Hf].
  { clear IH Hr Hp k.
    assert (forall w3, R w w3 -> ~ held l w3 /\ rtc (foreign R) (gdata (store w)) (gdata (store w3))) as Hfor.
    { intros w3 HR3. split; [by eapply HR|]. apply rtc_once. by exists w, w3. }
    destruct e; simpl in He, Hs; try (by subst); try (by destruct Hs as [-> _]).
    - destruct Hs as (w3 & s & HR3 & Ht & ->). destruct (Hfor _ HR3) as [Hl3 Hf3].
      destruct (lost_txn (gdata (store w3)) w3 s cs ops x) as [Hl4 Hg]; [done|done|done|].
      split; [done|]. by rewrite Hg.
    - destruct Hs as [HR3 _]. by apply Hfor.
    - destruct Hs as [HR3 _]. by apply Hfor.
    - destruct Hs as (w3 & HR3 & ->). exact (Hfor _ HR3).
    - destruct Hs as (w3 & HR3 & ->). exact (Hfor _ HR3). }
  destruct (IH (Hp x) Hl1) as [Hl2 Hf2]. split; [done|]. by etrans.
Qed.

(** ** The handlers are fenced *)

Lemma fenced_bind {A B} (p : prog A) (k : A -> prog B) :
  fenced p -> (forall a, fenced (k a)) -> fenced (prog_bind p k).
Proof.
  intros Hp Hk. induction p as [a|C e j IH]; simpl; [apply Hk|]. destruct Hp as [He Hp].
  split; [done|]. intros x. by apply IH.
Qed.

Lemma fenced_try {A B} (m : handler A) (k : A -> handler B) :
  fenced m -> (forall a, fenced (k a)) -> fenced (try m k).
Proof. intros Hm Hk. apply fenced_bind; [done|]. by intros [a|e]. Qed.

Lemma fenced_withNodes {A} (h : handler A) : fenced h -> fenced (withNodes h).
Proof. intros Hh. split; [done|]. intros _. by apply fenced_bind. Qed.

Lemma fenced_only {A} (P : string -> Prop) (Q : A -> Prop) p :
  (forall k, P k -> unguarded l k) -> only P Q p -> fenced p.
Proof.
  intros HP. induction p as [a|C e j IH]; simpl; [done|]. intros [He Hp]. split; [|auto].
  destruct e; simpl in *; try done. left. eapply Forall_impl; [exact He|exact HP].
Qed.

Lemma fenced_txnAsLeader ops : fenced (txnAsLeader l ops).
Proof.
  split; [right; by apply list_elem_of_singleton|]. intros [rs| |e]; simpl; [done| |done].
  split; [left; constructor|done].
Qed.

Lemma fenced_leaderTxn msg ops : fenced (leaderTxn l msg ops).
Proof. apply fenced_bind; [apply fenced_txnAsLeader|]. by intros [|]. Qed.

Lemma fenced_nodeLoad id : fenced (nodeLoad l id).
Proof.
  unfold nodeLoad. destruct (Key NodeEtcdPrefix id); [|done]. apply fenced_try; [apply fenced_leaderTxn|].
  intros res. by repeat case_match.
Qed.

Lemma fenced_nodeSave n : fenced (nodeSave l n).
Proof.
  unfold nodeSave. apply fenced_try; [done|]. intros id. destruct (etcdNodePath n id); [|done].
  destruct (Marshal (proto n)); [|done]. destruct (etcdJoinKeyPath n); [|done].
  by apply fenced_try; [apply fenced_leaderTxn|].
Qed.

Lemma fenced_nodeDestroy n : fenced (nodeDestroy l n).
Proof.
  unfold nodeDestroy. apply fenced_try; [done|]. intros id. destruct (etcdNodePath n id); [|done].
  destruct (etcdJoinKeyPath n); [|done]. by apply fenced_try; [apply fenced_leaderTxn|].
Qed.

Lemma fenced_nodeIdByJoinKey jk : fenced (nodeIdByJoinKey l jk).
Proof.
  unfold nodeIdByJoinKey. case_match; [|done]. case_match; [|done].
  apply fenced_try; [apply fenced_leaderTxn|]. intros res. by repeat case_match.
Qed.

Lemma fenced_clusterLoad : fenced (clusterLoad l).
Proof. by eapply (fenced_only (fun _ => False)); [|apply only_clusterLoad]. Qed.

Lemma fenced_loadRequested id : fenced (loadRequested l id).
Proof. by apply fenced_bind; [apply fenced_nodeLoad|]. Qed.

Lemma fenced_prepareCache : fenced prepareClusternetCacheUnlocked.
Proof.
  split; [done|]. intros [m|]; [done|]. split; [left; constructor|]. intros x.
  repeat case_match; try done.
Qed.

Lemma fenced_resolveRef r : fenced (resolveRef r).
Proof. destruct r; simpl; [|done..]. by case_match. Qed.

Lemma fenced_changeConsensus ch n : fenced (changeConsensus ch n).
Proof. destruct ch as [[|]|]; simpl; [done| |done]. by case_match. Qed.

End Fence.

Create HintDb fence.
#[export] Hint Resolve fenced_nodeLoad fenced_nodeSave fenced_nodeDestroy fenced_nodeIdByJoinKey
  fenced_clusterLoad fenced_loadRequested fenced_prepareCache fenced_resolveRef fenced_changeConsensus
  fenced_txnAsLeader : fence.

(** Goes through a handler. *)
Ltac fence :=
  repeat first
    [ done
    | solve [eauto with fence]
    | apply fenced_withNodes
    | apply fenced_try; [|intros ?]
    | match goal with
      | |- fenced _ (Vis _ _) => split; [done|intros ?]
      | |- fenced _ (prog_bind _ _) => apply fenced_bind; [|intros ?]
      | |- fenced _ (match ?x with _ => _ end) => destruct x
      end ].

Lemma serve_fenced `{E : Etcd} `{X : X509} `{NT : NetText} `{WG : WireGuard} `{NC : !Codec NodeMsg}
    `{CC : !Codec ClusterConfiguration} `{TC : !Codec RegisterTicketMsg} `{OC : !Codec InitialOwnerMsg}
    Public l rq :
  election_key l -> fenced l (serve Public l rq).
Proof.
  intros Hlk.
  assert (fenced l (ensureRegisterTicket l)) as Hticket.
  { eapply fenced_only; [by apply ticket_unguarded|apply only_ensureRegisterTicket]. }
  assert (fenced l (ensureCA Public)) as Hca.
  { eapply fenced_only; [by apply pki_unguarded|apply only_ensureCA]. }
  assert (forall name dns pub, fenced l (ensureIssued Public name dns pub)) as Hissued.
  { intros. eapply fenced_only; [by apply pki_unguarded|apply only_ensureIssued]. }
  assert (forall startTs now keep kvs, fenced l (listNodes startTs now keep kvs)) as Hlist.
  { intros. by eapply (fenced_only l (fun _ => False)); [|apply only_listNodes]. }
  assert (forall id msgs, fenced l (heartbeatLoop id msgs)) as Hloop.
  { intros. by eapply (fenced_only l (fun _ => False)); [|apply only_heartbeatLoop]. }
  assert (forall pi msg, fenced l (Escrow Public pi msg)) as Hescrow.
  { intros. eapply fenced_only; [by apply pki_unguarded|apply only_Escrow]. }
  destruct rq; unfold serve, forget, UpdateNodeStatus, Heartbeat, RegisterNode, CommitNode, JoinNode,
    UpdateNodeClusterNetworking, GetRegisterTicket, ApproveNode, UpdateNodeRoles, DecommissionNode,
    DeleteNode, UpdateNodeLabels, GetNodes, GetClusterInfo; fence.
Qed.

End CuratorFence.
