(* ===== verification/CuratorExample.v ===== *)
(** * A concrete curator

    Instances of the interfaces: messages are encoded as numbers, written in
    binary, certificates are their contents, and every effect has one outcome.
    They show that what is assumed of libraries can hold, and run the handlers. *)

From S2P Require Import Prelude GoStrings Version EtcdPrefix Labels Etcd Interfaces Effects Pki ClusterConfig CuratorNode CuratorState CuratorSpec CuratorAPI CuratorSteps CuratorHandlers CuratorNet CuratorSystem.
From stdpp Require Import countable.

Module CuratorExample.
Import VersionSpec EtcdPrefix Labels Etcd Interfaces Effects Pki ClusterConfig CuratorNode CuratorState CuratorSpec CuratorAPI CuratorSteps CuratorRefine CuratorHandlers CuratorNet CuratorSystem.

(** ** Encoding *)

Fixpoint bits_of (p : positive) : string :=
  match p with
  | xH => "1"
  | xO p => String "0" (bits_of p)
  | xI p => String "+" (bits_of p)
  end.
Fixpoint of_bits (s : string) : option positive :=
  match s with
  | "1" => Some xH
  | String "0" s => xO <$> of_bits s
  | String "+" s => xI <$> of_bits s
  | _ => None
  end.

Lemma of_bits_of p : of_bits (bits_of p) = Some p.
Proof. induction p as [p IH|p IH|]; simpl; [by rewrite IH| |done]. rewrite IH. by destruct (bits_of p). Qed.

Lemma bits_nonempty p : bits_of p <> "".
Proof. by destruct p. Qed.

Definition enc {A} `{Countable A} (x : A) : string := bits_of (encode x).
Definition dec {A} `{Countable A} (s : string) : option A := of_bits s ≫= decode.

Lemma dec_enc {A} `{Countable A} (x : A) : dec (enc x) = Some x.
Proof. unfold dec, enc. rewrite of_bits_of. apply decode_encode. Qed.

#[export] Instance NodeState_countable : Countable NodeState.
Proof.
  refine (inj_countable'
    (fun s => match s with STATE_NEW => inl 0 | STATE_STANDBY => inl 1 | STATE_UP => inl 2
              | STATE_DECOMMISSIONED => inl 3 | STATE_other z => inr z end)
    (fun s => match s with inl 0 => STATE_NEW | inl 1 => STATE_STANDBY | inl 2 => STATE_UP
              | inl _ => STATE_DECOMMISSIONED | inr z => STATE_other z end) _).
  by intros [].
Defined.
#[export] Instance NodeTPMUsage_countable : Countable NodeTPMUsage.
Proof.
  refine (inj_countable'
    (fun s => match s with NODE_TPM_NOT_PRESENT => inl 0 | NODE_TPM_PRESENT_BUT_UNUSED => inl 1
              | NODE_TPM_PRESENT_AND_USED => inl 2 | NODE_TPM_other z => inr z end)
    (fun s => match s with inl 0 => NODE_TPM_NOT_PRESENT | inl 1 => NODE_TPM_PRESENT_BUT_UNUSED
              | inl _ => NODE_TPM_PRESENT_AND_USED | inr z => NODE_TPM_other z end) _).
  by intros [].
Defined.
#[export] Instance NodeStatus_countable : Countable NodeStatus.
Proof.
  refine (inj_countable' (fun s => (ExternalAddress s, RunningCurator s, (Timestamp s, Version s)))
    (fun t => match t with (a, b, (c, d)) => mkStatus a b c d end) _).
  by intros [].
Defined.
#[export] Instance ConsensusMemberMsg_eq_dec : EqDecision ConsensusMemberMsg.
Proof. solve_decision. Defined.
#[export] Instance ConsensusMemberMsg_countable : Countable ConsensusMemberMsg.
Proof.
  refine (inj_countable' (fun s => (CaCertificate s, PeerCertificate s, (InitialCrl s, PeersMsg s)))
    (fun t => match t with (a, b, (c, d)) => mkCMMsg a b c d end) _).
  by intros [].
Defined.
#[export] Instance RolesMsg_eq_dec : EqDecision RolesMsg.
Proof. solve_decision. Defined.
#[export] Instance RolesMsg_countable : Countable RolesMsg.
Proof.
  refine (inj_countable' (fun s => (KubernetesWorkerMsg s, KubernetesControllerMsg s, ConsensusMemberM s))
    (fun t => match t with (a, b, c) => mkRoles a b c end) _).
  by intros [].
Defined.
#[export] Instance ClusternetMsg_eq_dec : EqDecision ClusternetMsg.
Proof. solve_decision. Defined.
#[export] Instance ClusternetMsg_countable : Countable ClusternetMsg.
Proof.
  refine (inj_countable' (fun s => (WireguardPubkey s, Prefixes s))
    (fun t => match t with (a, b) => mkClusternet a b end) _).
  by intros [].
Defined.
#[export] Instance NodeMsg_eq_dec : EqDecision NodeMsg.
Proof. solve_decision. Defined.
#[export] Instance NodeMsg_countable : Countable NodeMsg.
Proof.
  refine (inj_countable'
    (fun s => (ClusterUnlockKey s, PublicKey s, (JoinKey s, FsmState s),
               (Roles s, StatusMsg s, (TpmUsage s, (Clusternet s, LabelsMsg s)))))
    (fun t => match t with (a, b, (c, d), (e, f, (g, (h, i)))) => mkNodeMsg a b c d e f g h i end) _).
  by intros [].
Defined.
#[export] Instance TPMMode_countable : Countable TPMMode.
Proof.
  refine (inj_countable'
    (fun s => match s with TPM_MODE_REQUIRED => inl 0 | TPM_MODE_BEST_EFFORT => inl 1
              | TPM_MODE_DISABLED => inl 2 | TPM_MODE_other z => inr z end)
    (fun s => match s with inl 0 => TPM_MODE_REQUIRED | inl 1 => TPM_MODE_BEST_EFFORT
              | inl _ => TPM_MODE_DISABLED | inr z => TPM_MODE_other z end) _).
  by intros [].
Defined.
#[export] Instance StorageSecurityPolicy_countable : Countable StorageSecurityPolicy.
Proof.
  refine (inj_countable'
    (fun s => match s with POLICY_PERMISSIVE => inl 0 | POLICY_NEEDS_ENCRYPTION => inl 1
              | POLICY_NEEDS_INSECURE => inl 2 | POLICY_NEEDS_ENCRYPTION_AND_AUTHENTICATION => inl 3
              | POLICY_other z => inr z end)
    (fun s => match s with inl 0 => POLICY_PERMISSIVE | inl 1 => POLICY_NEEDS_ENCRYPTION
              | inl 2 => POLICY_NEEDS_INSECURE | inl _ => POLICY_NEEDS_ENCRYPTION_AND_AUTHENTICATION
              | inr z => POLICY_other z end) _).
  by intros [].
Defined.

(** ** Instances *)

Definition CodecOf {M} `{Countable M} : Codec M.
Proof.
  refine {| Marshal m := Some (enc m); Unmarshal s := dec s |}.
  intros m b [= <-]. apply dec_enc.
Defined.

#[export] Instance NodeMsg_codec : Codec NodeMsg.
Proof.
  refine {| Marshal m := Some (enc m);
            Unmarshal s := if bool_decide (s = "") then Some emptyNodeMsg else dec s |}.
  intros m b [= <-]. rewrite bool_decide_eq_false_2 by apply bits_nonempty. apply dec_enc.
Defined.

#[export] Instance ClusterConfiguration_countable : Countable ClusterConfiguration.
Proof.
  refine (inj_countable' (fun s => (TpmMode s, StoragePolicy s))
    (fun t => match t with (a, b) => mkClusterConfiguration a b end) _).
  by intros [].
Defined.
#[export] Instance RegisterTicketMsg_eq_dec : EqDecision RegisterTicketMsg.
Proof. solve_decision. Defined.
#[export] Instance RegisterTicketMsg_countable : Countable RegisterTicketMsg.
Proof. refine (inj_countable' Opaque mkTicketMsg _). by intros []. Defined.
#[export] Instance InitialOwnerMsg_eq_dec : EqDecision InitialOwnerMsg.
Proof. solve_decision. Defined.
#[export] Instance InitialOwnerMsg_countable : Countable InitialOwnerMsg.
Proof. refine (inj_countable' OwnerPublicKey mkOwnerMsg _). by intros []. Defined.

#[export] Instance ClusterConfiguration_codec : Codec ClusterConfiguration := CodecOf.
#[export] Instance RegisterTicketMsg_codec : Codec RegisterTicketMsg := CodecOf.
#[export] Instance InitialOwnerMsg_codec : Codec InitialOwnerMsg := CodecOf.

(** A certificate is its content: key, names and serial number. *)
Definition certContent (d : string) : option (string * list string * Z) := dec d.
#[export] Instance ContentX509 : X509.
Proof.
  refine {| Cert := string;
            ParseCertificate d := match certContent d with Some _ => Some d | None => None end;
            CertRaw c := c;
            CertPublicKey c := (fun x => x.1.1) <$> certContent c;
            CertDNSNames c := from_option (fun x => x.1.2) [] (certContent c);
            CertSerial c := from_option snd 0%Z (certContent c);
            CRLList := list Z;
            ParseCRL d := dec d;
            Revoked l := l |}.
  intros d c. by destruct (certContent d); intros [= <-].
Defined.

#[export] Instance ExampleNetText : NetText.
Proof.
  refine {| ParsePrefix s := match dec s with
              | Some (b, a, n) =>
                  let p := mkPrefix (mkAddr b a) n in
                  if N.leb n (if b then 32 else 128) && N.ltb a (2 ^ (if b then 32 else 128))
                  then Some p else None
              | None => None
              end;
            Prefix_String p := enc (addr_is4 (prefix_addr p), addr_bits (prefix_addr p), prefix_bits p);
            Addr_String a := enc (addr_is4 a, addr_bits a);
            ParseIP s := negb (bool_decide (s = "")) |}.
  - intros [[b a] n] [H1 H2]. simpl in *. rewrite dec_enc.
    unfold addr_len in *. simpl in *. by rewrite (proj2 (N.leb_le _ _) H1), (proj2 (N.ltb_lt _ _) H2).
  - intros s p. destruct (dec s) as [[[b a] n]|]; [|done]. case_match eqn:Hb; [|done]. intros [= <-].
    apply andb_true_iff in Hb as [H1%N.leb_le H2%N.ltb_lt]. by split.
  - intros p. apply bits_nonempty.
Defined.

#[export] Instance ExampleWireGuard : WireGuard.
Proof. by refine {| wgKey := string; ParseKey s := Some s; wgKey_String k := "k" +:+ k |}. Defined.

(** ** One outcome per effect *)

Fixpoint chars (c : ascii) (n : nat) : string :=
  match n with 0 => "" | S n => String c (chars c n) end.
Lemma chars_length c n : String.length (chars c n) = n.
Proof. induction n; simpl; congruence. Qed.

Definition Public (priv : string) : string := chars "p" 32.

Definition exampleCert : string := enc (chars "e" 32, @nil string, 1%Z).

Definition det {B} (e : eff B) : world -> world * B :=
  match e in eff B return world -> world * B with
  | ETxn cs ops => fun w => let r := mem_exec (es w) cs ops in (set_es (E := MemEtcd) r.1 w, r.2)
  | ERand n => fun w => (w, Some (chars "r" n))
  | ERandInt => fun w => (w, Some (mem_rev (es (E := MemEtcd) w) mod 2 ^ 127)%Z)
  | ENow => fun w => (w, 1000%Z)
  | EGenerateKey => fun w => (w, Some (chars "p" 32, chars "s" 64))
  | ECreateCertificate isCA dns serial pub parent key => fun w => (w, Some (enc (pub, dns, serial)))
  | ECreateCRL cert key revoked => fun w => (w, Some (enc revoked))
  | EAddNode pub => fun w => (w, Ok (mkJoin exampleCert exampleCert (enc (@nil Z)) [] []))
  | ECacheGet => fun w => (w, cache w)
  | ECachePut c => fun w => (set_cache (Some c) w, tt)
  | EHeartbeatGet id => fun w => (w, heartbeats w !! id)
  | EHeartbeatStore id t => fun w => (set_heartbeats (<[id := t]> (heartbeats w)) w, tt)
  | ECAGet => fun w => (w, ca w)
  | ECAPut k => fun w => (set_ca k w, tt)
  | ELockNodes => fun w => (set_locked true w, tt)
  | EUnlockNodes => fun w => (set_locked false w, tt)
  end.

Lemma det_step (R : world -> world -> Prop) {B} (e : eff B) w :
  (forall w, R w w) -> mem_ok (es w) -> eff_step R e w (det e w).1 (det e w).2 /\ mem_ok (es (det e w).1).
Proof.
  intros HR Hok. destruct e; simpl; (split; [|done || by apply mem_exec_ok]).
  - exists w, (mem_exec (es w) cs ops).1. split_and!; [apply HR|by constructor|done].
  - split; [done|]. intros s [= <-]. apply chars_length.
  - split; [done|]. intros z [= <-]. by apply Z.mod_pos_bound.
  - done.
  - split; [done|]. by intros pub priv [= <- <-].
  - split; [done|]. intros der [= <-]. exists (enc (pub, dns, serial)). simpl. unfold certContent.
    by rewrite dec_enc.
  - split; [done|]. intros der [= <-]. exists revoked. simpl. by rewrite dec_enc.
  - split; [apply HR|]. intros jc [= <-]. vm_compute. done.
  - done.
  - done.
  - split; [apply HR|done].
  - exists w. split; [apply HR|done].
  - done.
  - done.
  - exists w. split; [apply HR|done].
  - done.
Qed.

Definition play {A} (p : prog A) (w : world) : world * A := exec (@det) p w.

Lemma play_runs (R : world -> world -> Prop) {A} (p : prog A) w :
  (forall w, R w w) -> mem_ok (es w) -> runs R w p (play p w).1 (play p w).2 /\ mem_ok (es (play p w).1).
Proof.
  intros HR Hok. apply (exec_runs R (@det) (fun w => mem_ok (es w))); [|done].
  intros B e w1 Hw1. by apply det_step.
Qed.

(** ** A cluster *)

Definition l0 : leadership := mkLeadership "/leader/1" 1 "curator".

Definition owner : string := chars "o" 32.

(** The leader holds its lock, and the cluster has a configuration and an owner,
    but no nodes yet. *)
Definition db0 : db :=
  <["/leader/1" := mkKV "" 1 1]>
  (<[clusterConfigurationKey := mkKV (enc (mkClusterConfiguration TPM_MODE_BEST_EFFORT POLICY_PERMISSIVE)) 2 2]>
  (<[initialOwnerEtcdPath := mkKV (enc (mkOwnerMsg owner)) 2 2]> ∅)).
Definition w0 : world := mkWorld (E := MemEtcd) (mkMem db0 2) None ∅ (mkKeys None None) false.

Lemma election_l0 : election_key l0.
Proof. done. Qed.

Lemma mem_ok_w0 : mem_ok (es w0).
Proof.
  split; [done|]. intros k e. simpl. unfold db0. rewrite !lookup_insert_Some. intros H.
  repeat destruct H as [[_ <-]|[_ H]]; [done..|]. by rewrite lookup_empty in H.
Qed.

Lemma ready_w0 : ready l0 w0.
Proof.
  split; [done|]. intros _.
  assert (nodes (state_of w0) = ∅ /\ joins (state_of w0) = ∅) as [Hn Hj] by (split; vm_compute; reflexivity).
  split; [rewrite Hn|rewrite Hj]; apply map_Forall_empty.
Qed.

(** Serving a request in it. *)
Definition after (rqs : list request) : world :=
  foldl (fun w rq => (play (serve Public l0 rq) w).1) w0 rqs.

Lemma interference_refl l w : interference l w w.
Proof. apply rely_refl. apply _. Qed.

Lemma after_ok rqs : mem_ok (es (after rqs)) /\ ready l0 (after rqs).
Proof.
  induction rqs as [|rq rqs [IH1 IH2]] using rev_ind; [split; [apply mem_ok_w0|apply ready_w0]|].
  unfold after in *. rewrite foldl_app. simpl.
  destruct (play_runs (interference l0) (serve Public l0 rq) _ (interference_refl l0) IH1) as [Hr Hok].
  split; [done|]. eapply ready_rely; [exact IH2|].
  eapply (wp_runs _ _ (fun w' _ => interference l0 _ w')); [|exact Hr]. by apply serve_guarantees.
Qed.

(** A node that registers, is approved, and commits. *)
Definition pk1 : string := chars "a" 32.
Definition jk1 : string := chars "j" 32.
Definition self (pk : string) : option PeerInfo := Some (mkPeer None None (Some (Some pk))).
Definition node (pk : string) : option PeerInfo := Some (mkPeer (Some pk) None None).
Definition ticket0 : string := enc (mkTicketMsg (chars "r" 32)).
Definition register1 : request :=
  RqRegisterNode (self pk1) (mkRegisterReq ticket0 jk1 true (Some [("rack", "r1")])).
Definition commit1 : request := RqCommitNode (self pk1) STORAGE_AUTHENTICATED_ENCRYPTED (chars "c" 32).
Definition join_requests : list request := [register1; RqApproveNode pk1; commit1].

Lemma joins_up : (play (JoinNode l0 (self jk1) true) (after join_requests)).2 = Ok (chars "c" 32).
Proof. vm_compute. reflexivity. Qed.

End CuratorExample.
