(* ===== verification/PkiProps.v ===== *)
(** * Properties of the PKI

    Certificates are created once and never replaced; revocations can be lost. *)

From S2P Require Import Prelude GoStrings EtcdPrefix Etcd Interfaces Effects Pki CuratorAPI CuratorExample.

Module PkiProps.
Import Etcd Interfaces Effects Pki CuratorAPI.

(** C37: [Ensure] terminates within its fuel for every chain of issuers; it never
    replaces anything under a key that others do not overwrite either; and the
    certificate it returns is for the public key of the requested certificate
    and is the one kept in etcd under its name. *)
Theorem Ensure_correct `{E : Etcd} `{X : X509} Public (mine : string -> Prop) R c w w' c' r :
  (forall w1 w2, R w1 w2 -> grows mine (store w1) (store w2)) -> chain_mine mine c ->
  runs R w (Ensure Public c) w' (c', r) ->
  grows mine (store w) (store w') /\ r <> Err errFuel /\
  forall cert, r = Ok cert ->
    cert_for cert c' /\ (forall p, PubKey c = Some p -> PubKey c' = Some p) /\
    (Mode c = CertificateManaged \/ Mode c = CertificateExternal -> stored w' (certPath c) cert).
Proof.
  intros HR Hm Hr. destruct (specs_all Public mine R HR (4 * depth c + 5)) as (He & _).
  pose proof (wp_runs _ _ _ _ _ _ (He c w) Hr) as (Hg & Hf & Hc).
  pose proof (wp_runs _ _ _ _ _ _ (ensure_enough Public mine R HR c (4 * depth c + 5) w Hm ltac:(lia)) Hr) as Hfu.
  split; [done|]. split; [exact Hfu|]. intros cert ->. destruct (Hc cert eq_refl) as [H1 H2].
  split; [done|]. split; [|done]. by destruct Hf as (_ & _ & _ & _ & Hp).
Qed.

(** Calls of [Ensure] that run at the same time, for certificates of any names. *)
Lemma Ensure_interleaved `{E : Etcd} `{X : X509} Public (mine : string -> Prop) R cs w w' ps :
  (forall w1 w2, R w1 w2 -> grows mine (store w1) (store w2)) -> Forall (fun c => mine (certPath c)) cs ->
  interleaves R w (Ensure Public <$> cs) w' ps ->
  forall i c c' cert, cs !! i = Some c -> ps !! i = Some (Ret (c', Ok cert)) ->
  Mode c = CertificateManaged \/ Mode c = CertificateExternal -> stored w' (certPath c) cert.
Proof.
  intros HR Hm Hi i c c' cert Hc Hp Hmode.
  assert (Forall2 (cooperates (keeps mine) w) (Ensure Public <$> cs) ((fun c w1 => ensure_post mine c w w1) <$> cs)) as Hall.
  { apply Forall2_fmap, Forall_Forall2_diag. eapply Forall_impl; [exact Hm|]. intros c0 Hm0. split_and!.
    - intros w1 w2 [c1 r] Hg (H1 & H2 & H3). split; [by etrans|]. split; [done|]. intros cert0 Hr. destruct (H3 cert0 Hr) as [H4 H5]. split; [done|].
      intros H6. exact (stored_grows mine w1 w2 _ _ Hm0 Hg (H5 H6)).
    - apply (all_keep Public mine).
    - apply (specs_all Public mine (keeps mine)). by intros. }
  pose proof (interleaves_cooperates R (keeps mine) HR _ _ _ _ _ Hi Hall) as Hend.
  destruct (Forall2_lookup_l _ _ _ _ _ Hend Hp) as (Q & HQ & _ & _ & Hpost). rewrite list_lookup_fmap, Hc in HQ. injection HQ as <-.
  destruct Hpost as (_ & _ & Hpost). by apply (Hpost cert).
Qed.

(** C17: Any number of calls of [Ensure] run at the same time, in any interleaving of their etcd transactions and of what
    others do, who do not replace what is under the names of the certificates: all the calls that succeed for
    managed or external certificates of one name return the same certificate, the one in etcd. *)
Theorem Ensure_agree `{E : Etcd} `{X : X509} Public (mine : string -> Prop) R cs w w' ps i j c1 c2 c1' c2' cert1 cert2 :
  (forall w1 w2, R w1 w2 -> grows mine (store w1) (store w2)) -> Forall (fun c => mine (certPath c)) cs ->
  interleaves R w (Ensure Public <$> cs) w' ps ->
  cs !! i = Some c1 -> cs !! j = Some c2 -> Namespace c2 = Namespace c1 -> Name c2 = Name c1 ->
  Mode c1 = CertificateManaged \/ Mode c1 = CertificateExternal ->
  Mode c2 = CertificateManaged \/ Mode c2 = CertificateExternal ->
  ps !! i = Some (Ret (c1', Ok cert1)) -> ps !! j = Some (Ret (c2', Ok cert2)) ->
  cert2 = cert1 /\ stored w' (certPath c1) cert1.
Proof.
  intros HR Hm Hi H1 H2 Hns Hn Hm1 Hm2 Hp1 Hp2.
  pose proof (Ensure_interleaved Public mine R cs w w' ps HR Hm Hi) as Hst.
  pose proof (Hst i c1 c1' cert1 H1 Hp1 Hm1) as Hs1. pose proof (Hst j c2 c2' cert2 H2 Hp2 Hm2) as Hs2.
  split; [|done]. unfold stored, certPath in *. rewrite Hns, Hn in Hs2. congruence.
Qed.

(** ** Witnesses *)

Import CuratorExample.

Definition keep_all (k : string) : Prop := True.

Lemma grows_eq (w1 w2 : world) : w1 = w2 -> grows keep_all (store w1) (store w2).
Proof. intros ->. reflexivity. Qed.

Definition emptyWorld : world := mkWorld (E := MemEtcd) (mkMem ∅ 0) None ∅ (mkKeys None None) false.

Lemma mem_ok_empty : mem_ok (es emptyWorld).
Proof. split; [done|]. intros k e H. simpl in H. by rewrite lookup_empty in H. Qed.

Definition exampleCA : Certificate :=
  mkCertificate "/pki/" "ca" true [] CertificateManaged None None None.
Definition exampleLeaf (name : string) : Certificate :=
  mkCertificate "/pki/" name false [name] CertificateExternal (Some (chars "k" 32)) None (Some exampleCA).

Definition leafRun : world * (Certificate * result err string) := play (Ensure Public (exampleLeaf "a")) emptyWorld.

Definition okOr (r : result err string) : string := match r with Ok c => c | Err _ => "" end.

Lemma leafRun_ok : leafRun.2.2 = Ok (okOr leafRun.2.2).
Proof. vm_compute. reflexivity. Qed.
Lemma play_pair {A B} (p : prog (A * B)) w :
  mem_ok (es w) -> runs eq w p (play p w).1 ((play p w).2.1, (play p w).2.2) /\ mem_ok (es (play p w).1).
Proof. rewrite <- surjective_pairing. by apply (play_runs eq). Qed.

Lemma leafRun_runs : runs eq emptyWorld (Ensure Public (exampleLeaf "a")) leafRun.1 (leafRun.2.1, leafRun.2.2) /\
  mem_ok (es leafRun.1).
Proof. exact (play_pair (Ensure Public (exampleLeaf "a")) emptyWorld mem_ok_empty). Qed.
Lemma Ensure_correct_witness :
  grows keep_all (store emptyWorld) (store leafRun.1) /\ leafRun.2.2 <> Err errFuel /\
  forall cert, leafRun.2.2 = Ok cert ->
    cert_for cert leafRun.2.1 /\ (forall p, PubKey (exampleLeaf "a") = Some p -> PubKey leafRun.2.1 = Some p) /\
    (Mode (exampleLeaf "a") = CertificateManaged \/ Mode (exampleLeaf "a") = CertificateExternal ->
     stored leafRun.1 (certPath (exampleLeaf "a")) cert).
Proof.
  apply (Ensure_correct Public keep_all eq (exampleLeaf "a") emptyWorld leafRun.1 leafRun.2.1 leafRun.2.2).
  - exact grows_eq.
  - done.
  - exact (proj1 leafRun_runs).
Defined.

(** Programs that take turns in a given order. *)
Fixpoint interleave {A} (turns : list nat) (w : world) (ps : list (prog A)) : world * list (prog A) :=
  match turns with
  | [] => (w, ps)
  | i :: turns =>
      match ps !! i with
      | Some (Vis e k) => let '(w, x) := det e w in interleave turns w (<[i := k x]> ps)
      | _ => interleave turns w ps
      end
  end.

Lemma interleave_ok {A} turns w (ps : list (prog A)) :
  mem_ok (es w) -> interleaves eq w ps (interleave turns w ps).1 (interleave turns w ps).2.
Proof.
  revert w ps. induction turns as [|i turns IH]; intros w ps Hw; cbn [interleave]; [constructor|]. destruct (ps !! i) as [[a|B e k]|] eqn:Hi; [by apply IH| |by apply IH].
  destruct (det_step eq e w (fun w => eq_refl) Hw) as [Hs Hok]. destruct (det e w) as [w1 x]. cbn [fst snd] in *. econstructor; [done..|]. by apply IH.
Qed.

(** Two calls for the same CA: the second one finds the private key of the first before there is a certificate. *)
Definition caTurns : list nat := [0; 0; 0; 1] ++ replicate 30 0 ++ replicate 30 1.
Definition caRuns : world * list (prog (Certificate * result err string)) :=
  interleave caTurns emptyWorld (Ensure Public <$> [exampleCA; exampleCA]).

Definition outcomeOf (p : option (prog (Certificate * result err string))) : Certificate * result err string :=
  match p with Some (Ret r) => r | _ => (exampleCA, Err Panic) end.

Lemma caRuns_done i : i ∈ [0; 1] ->
  caRuns.2 !! i = Some (Ret ((outcomeOf (caRuns.2 !! i)).1, Ok (okOr (outcomeOf (caRuns.2 !! i)).2))).
Proof. intros [->|[->|[]%not_elem_of_nil]%elem_of_cons]%elem_of_cons; vm_compute; reflexivity. Qed.

Lemma Ensure_agree_witness : okOr (outcomeOf (caRuns.2 !! 1)).2 = okOr (outcomeOf (caRuns.2 !! 0)).2 /\
  stored caRuns.1 (certPath exampleCA) (okOr (outcomeOf (caRuns.2 !! 0)).2).
Proof.
  apply (Ensure_agree Public keep_all eq [exampleCA; exampleCA] emptyWorld caRuns.1 caRuns.2 0 1 exampleCA exampleCA
           (outcomeOf (caRuns.2 !! 0)).1 (outcomeOf (caRuns.2 !! 1)).1).
  - exact grows_eq.
  - by repeat constructor.
  - exact (interleave_ok caTurns emptyWorld _ mem_ok_empty).
  - reflexivity.
  - reflexivity.
  - reflexivity.
  - reflexivity.
  - left. reflexivity.
  - left. reflexivity.
  - apply caRuns_done. left.
  - apply caRuns_done. right. left.
Defined.

(** ** Revocation *)

(** Two certificates of one CA. *)
Definition twoCerts : world := (play (Ensure Public (exampleLeaf "b")) leafRun.1).1.

Lemma twoCerts_ok : mem_ok (es twoCerts).
Proof. exact (proj2 (play_pair (Ensure Public (exampleLeaf "b")) leafRun.1 (proj2 leafRun_runs))). Qed.

(** The first steps of a program, and what is left of it. *)
Inductive steps {A} : world -> prog A -> world -> prog A -> Prop :=
| steps_nil w p : steps w p w p
| steps_cons w B (e : eff B) k w1 x w2 p :
    eff_step eq e w w1 x -> steps w1 (k x) w2 p -> steps w (Vis e k) w2 p.

(** Runs a program until it is about to write the revocation list. *)
Definition savesCRL {B} (e : eff B) : bool :=
  match e with
  | ETxn cs ops => bool_decide (crlPath exampleCA ∈ (ops ≫= op_writes))
  | _ => false
  end.
Fixpoint pause {A} (p : prog A) (w : world) : world * prog A :=
  match p with
  | Ret a => (w, Ret a)
  | Vis e k => if savesCRL e then (w, Vis e k) else let '(w, x) := det e w in pause (k x) w
  end.

Lemma pause_steps {A} (p : prog A) w :
  mem_ok (es w) -> steps w p (pause p w).1 (pause p w).2 /\ mem_ok (es (pause p w).1).
Proof.
  revert w. induction p as [a|B e k IH]; intros w Hok; simpl; [split; [constructor|done]|].
  destruct (savesCRL e); [split; [constructor|done]|].
  destruct (det_step eq e w) as [Hs Hok']; [done..|]. destruct (det e w) as [w1 x]. simpl in *.
  destruct (IH x w1 Hok') as [H1 H2]. split; [by econstructor|done].
Qed.

(** The serial numbers revoked in a world, and the one of the certificate for a
    name. *)
Definition revokedIn (w : world) : option (list Z) :=
  match store (E := MemEtcd) w !! crlPath exampleCA with Some e => ParseCRL (kv_value e) | None => None end.
Definition serialOf (w : world) (name : string) : option Z :=
  match store (E := MemEtcd) w !! certPath (exampleLeaf name) with
  | Some e => match ParseCertificate (kv_value e) with Some c => Some (CertSerial c) | None => None end
  | None => None
  end.

Definition revokeA : world * prog (result err unit) := pause (Revoke Public exampleCA "a") twoCerts.
Definition revokeB : world * result err unit := play (Revoke Public exampleCA "b") revokeA.1.
Definition revokeA' : world * result err unit := play revokeA.2 revokeB.1.

Lemma revoke_check :
  revokeB.2 = Ok tt /\ revokeA'.2 = Ok tt /\
  serialOf twoCerts "a" = Some 8%Z /\ serialOf twoCerts "b" = Some 12%Z /\
  revokedIn revokeB.1 = Some [12%Z] /\ revokedIn revokeA'.1 = Some [8%Z].
Proof. vm_compute. repeat split. Qed.

(** A revocation can be lost: [Revoke] guards its write with the revision at
    which the revocation list was created, which an update does not change.  So
    when another process revokes "b" right before a revocation of "a" writes the
    list, both calls succeed, and "b" is not revoked in the end. *)
Theorem Revoke_lost :
  exists w1 rest w2 w3 sa sb,
    serialOf twoCerts "a" = Some sa /\ serialOf twoCerts "b" = Some sb /\ sa <> sb /\
    steps twoCerts (Revoke Public exampleCA "a") w1 rest /\
    runs eq w1 (Revoke Public exampleCA "b") w2 (Ok tt) /\ revokedIn w2 = Some [sb] /\
    runs eq w2 rest w3 (Ok tt) /\ revokedIn w3 = Some [sa].
Proof.
  destruct revoke_check as (HB & HA & Ha & Hb & HrB & HrA).
  destruct (pause_steps (Revoke Public exampleCA "a") twoCerts twoCerts_ok) as [Hs Hok1].
  destruct (play_runs eq (Revoke Public exampleCA "b") revokeA.1) as [HrunB Hok2]; [done|exact Hok1|].
  destruct (play_runs eq revokeA.2 revokeB.1) as [HrunA _]; [done|exact Hok2|].
  exists revokeA.1, revokeA.2, revokeB.1, revokeA'.1, 8%Z, 12%Z.
  repeat (split; [by first [exact Ha|exact Hb|lia|exact Hs]|]).
  split; [|split; [exact HrB|split; [|exact HrA]]].
  - rewrite <- HB. exact HrunB.
  - rewrite <- HA. exact HrunA.
Qed.

End PkiProps.
