(* ===== verification/CuratorProps.v ===== *)
(** * Properties of the curator

    Serving requests refines the state machine of [CuratorSteps]; what each of
    the security-relevant handlers does; fencing; and what a write that is
    reported as failed can do to the WireGuard keys. *)

From S2P Require Import Prelude GoStrings EtcdPrefix Labels Etcd Interfaces Effects Pki ClusterConfig CuratorNode CuratorState CuratorSpec CuratorAPI CuratorSteps CuratorHandlers CuratorNet CuratorSystem CuratorExample.

Module CuratorProps.
Import EtcdPrefix Labels Etcd Interfaces Effects Pki ClusterConfig CuratorNode CuratorState CuratorSpec CuratorAPI CuratorSteps CuratorRefine CuratorHandlers CuratorNet CuratorSystem CuratorFence.

Section Props.
Context {E : Etcd} {X : X509} {NT : NetText} {WG : WireGuard}.
Context {NC : Codec NodeMsg} {CC : Codec ClusterConfiguration}.
Context {TC : Codec RegisterTicketMsg} {OC : Codec InitialOwnerMsg}.
Context (Public : string -> string).

(** What serving a request does while the leadership is held. *)
Lemma serve_csteps l rq w w' r :
  election_key l -> ready l w -> runs (interference l) w (serve Public l rq) w' r ->
  locked w' = false /\
  (held l w' -> held l w /\ rtc cstep (state_of w) (state_of w') /\ cluster_inv (state_of w')).
Proof.
  intros Hlk Hw Hr.
  pose proof (wp_runs _ _ _ _ _ _ (serve_guarantees Public l Hlk rq w Hw) Hr) as HR.
  destruct (ready_rely _ _ _ Hw HR) as [Hl' Hi]. split; [done|]. intros Hh.
  destruct HR as [_ HR]. destruct (HR Hh) as [Hh0 Hv]. destruct Hw as [Hl _]. rewrite Hl in Hv. auto.
Qed.

(** C1: Serving any request, while the leader's other handlers and all other
    clients of etcd run, changes the cluster only by transitions of the state
    machine, and keeps its invariant, for as long as the leadership is held. *)
Theorem serve_refines l rq w w' r :
  election_key l -> ready l w -> runs (interference l) w (serve Public l rq) w' r ->
  locked w' = false /\
  (held l w' -> held l w /\ rtc cstep (state_of w) (state_of w') /\ cluster_inv (state_of w')).
Proof. apply serve_csteps. Qed.

(** What identifies a node does not change, its state only moves from NEW to STANDBY to UP, and the cluster unlock key
    is only set when it becomes UP. *)
Definition same_identity (n n' : Node) : Prop :=
  pubkey n' = pubkey n /\ jkey n' = jkey n /\ CuratorNode.tpmUsage n' = CuratorNode.tpmUsage n.
Definition moves (n n' : Node) : Prop :=
  (state n' = state n /\ clusterUnlockKey n' = clusterUnlockKey n) \/
  (state n = STATE_NEW /\ state n' = STATE_STANDBY /\ clusterUnlockKey n' = clusterUnlockKey n) \/
  (state n = STATE_STANDBY /\ state n' = STATE_UP).
Definition unprivileged (n : Node) : Prop :=
  state n = STATE_NEW /\ clusterUnlockKey n = "" /\ consensusMember n = None /\
  kubernetesController n = false /\ kubernetesWorker n = false.

(** The nodes of a cluster from one moment to the next: those that stay live on, those that appear are not privileged. *)
Definition live_on (a a' : cluster) : Prop :=
  forall id n', nodes a' !! id = Some n' ->
  match nodes a !! id with
  | Some n => same_identity n n' /\ moves n n'
  | None => unprivileged n'
  end.

Lemma cstep_live_on a a' : cstep a a' -> live_on a a'.
Proof.
  intros Hs id n' Hn'.
  assert (forall id1 n1 n2, nodes a !! id1 = Some n1 -> nodes a' = <[id1 := n2]> (nodes a) ->
    same_identity n1 n2 -> moves n1 n2 ->
    match nodes a !! id with Some n => same_identity n n' /\ moves n n' | None => unprivileged n' end) as Hupd.
  { intros id1 n1 n2 Hn1 Ha' Hsame Hmove. rewrite Ha', lookup_insert in Hn'. case_decide as Hid.
    - injection Hn' as <-. subst id1. by rewrite Hn1.
    - rewrite Hn'. split; [by split_and!|by left]. }
  destruct Hs as [id1 pub jk have c tpm ls Hid Hno Hlen Hc Ht|id1 n Hn Hst|id1 n c sec cuk Hn Hst|id1 n st Hn
    |id1 n cm kc kw Hn Hok|id1 n ls Hn Hls|id1 n st key ps Hn Hst|id1 n req Hn];
    simpl in Hn'; try (by eapply (Hupd id1 n); [done|reflexivity|by split_and!|left]).
  - rewrite lookup_insert in Hn'. case_decide as Hd.
    + subst id1. rewrite Hno. by injection Hn' as <-.
    + rewrite Hn'. split; [by split_and!|by left].
  - eapply (Hupd id1 n); [done|reflexivity|by split_and!|]. right. by left.
  - eapply (Hupd id1 n); [done|reflexivity|by split_and!|]. right. by right.
  - apply lookup_delete_Some in Hn' as [_ Hn']. rewrite Hn'. split; [by split_and!|by left].
Qed.


(** ** Admission of nodes *)

(** Runs of a specified handler. *)
Lemma spec_runs {A} l (O : A -> cluster -> cluster -> Prop) h w w' r :
  spec l O h -> ready l w -> runs (interference l) w h w' r -> post l O w w' r.
Proof. intros Hs Hw Hr. eapply wp_runs; [|exact Hr]. by apply Hs. Qed.

(** A successful [RegisterNode] comes from a peer that proved possession of
    the key the node is named after, and either found it NEW or added it, NEW
    and with the TPM usage the cluster's policy demands; whether it succeeds or
    fails, nothing else happens to the cluster. *)
Theorem RegisterNode_correct l pi req w w' r :
  election_key l -> ready l w -> runs (interference l) w (RegisterNode l pi req) w' r ->
  post l (registered pi req) w w' r.
Proof. intros Hlk. apply spec_runs. by apply spec_RegisterNode. Qed.

(** C30: A successful [CommitNode] comes from the key of a node that was approved
    (STANDBY), with a storage security the cluster allows and, unless that is
    insecure, a 32-byte unlock key, and makes the node UP with that key. *)
Theorem CommitNode_correct l pi security cuk w w' r :
  election_key l -> ready l w -> runs (interference l) w (CommitNode Public l pi security cuk) w' r ->
  post l (committed pi security cuk) w w' r.
Proof. intros Hlk. apply spec_runs. by apply spec_CommitNode. Qed.

(** C16: [JoinNode] only hands out the unlock key of the node whose join key the
    peer proved possession of, only if that node is UP, only with the use of
    the TPM the node registered with and the cluster demands, and changes
    nothing. *)
Theorem JoinNode_correct l pi usingSealed w w' r :
  election_key l -> ready l w -> runs (interference l) w (JoinNode l pi usingSealed) w' r ->
  post l (joined pi usingSealed) w w' r.
Proof. intros Hlk. apply spec_runs. by apply spec_JoinNode. Qed.

(** ** Management *)

(** A successful [UpdateNodeRoles] leaves each role of the node as requested
    or, if not mentioned, as it was, and no Kubernetes controller is left
    outside of the consensus. *)
Theorem UpdateNodeRoles_correct l req w w' r :
  election_key l -> ready l w -> runs (interference l) w (UpdateNodeRoles l req) w' r ->
  post l (roles_updated req) w w' r /\
  (held l w' -> forall id n, nodes (state_of w') !! id = Some n ->
     kubernetesController n = true -> is_Some (consensusMember n)).
Proof.
  intros Hlk Hw Hr.
  assert (post l (roles_updated req) w w' r) as Hp.
  { by eapply spec_runs; [apply spec_UpdateNodeRoles|..]. }
  split; [done|]. intros Hh id n Hn.
  pose proof (wp_runs _ _ _ _ _ _ (serve_guarantees Public l Hlk (RqUpdateNodeRoles req) w Hw) Hr) as HR.
  destruct (ready_rely _ _ _ Hw HR) as [_ Hi]. by destruct (inv_nodes _ (Hi Hh) id n Hn).
Qed.

(** [DeleteNode] removes exactly the requested node and its join key; without
    the safety bypasses, the node had no roles and was not UP. *)
Theorem DeleteNode_correct l req w w' r :
  election_key l -> ready l w -> runs (interference l) w (DeleteNode l req) w' r ->
  post l (fun (_ : unit) a a' => exists id n, resolves (dr_node req) id /\ nodes a !! id = Some n /\
      a' = drop_node id n a /\
      (dr_bypassRoles req = false ->
         consensusMember n = None /\ kubernetesController n = false /\ kubernetesWorker n = false) /\
      (dr_bypassNotDecommissioned req = false -> state n <> STATE_UP)) w w' r.
Proof.
  intros Hlk. apply spec_runs. eapply spec_mono; [|by apply spec_DeleteNode].
  intros [] a a' (id & n & Hid & Hn & Hd & ->). exists id, n. split_and!; [done..| |].
  - intros Hb. unfold deleteAllowed in Hd. rewrite Hb in Hd. simpl in Hd.
    destruct (consensusMember n); [done|]. destruct (kubernetesController n); [done|].
    by destruct (kubernetesWorker n).
  - intros Hb Hst. unfold deleteAllowed in Hd. rewrite Hb, Hst in Hd.
    repeat case_match; done.
Qed.

(** A successful [UpdateNodeLabels] sets exactly the labels to upsert, removes
    exactly those to delete, leaves all others alone, and does not leave the node
    with more labels than allowed. *)
Theorem UpdateNodeLabels_correct l req w w' r :
  election_key l -> ready l w -> runs (interference l) w (UpdateNodeLabels l req) w' r ->
  post l (fun (_ : unit) a a' => exists id n ls, resolves (lr_node req) id /\ nodes a !! id = Some n /\
      a' = save_node id (set_labels ls n) a /\ size ls <= MaxLabelsPerNode /\ labels_ok ls /\
      (forall k v, (k, v) ∈ lr_upsert req -> ls !! k = Some v) /\
      (forall k, k ∈ lr_delete req -> ls !! k = None) /\
      (forall k, k ∉ (lr_upsert req).*1 -> k ∉ lr_delete req -> ls !! k = labels n !! k)) w w' r.
Proof.
  intros Hlk. apply spec_runs.
  intros w1 Hw1. eapply wp_mono; [|by apply spec_UpdateNodeLabels].
  assert (forall a a', cluster_inv a -> relabelled req tt a a' ->
    exists id n ls, resolves (lr_node req) id /\ nodes a !! id = Some n /\
      a' = save_node id (set_labels ls n) a /\ size ls <= MaxLabelsPerNode /\ labels_ok ls /\
      (forall k v, (k, v) ∈ lr_upsert req -> ls !! k = Some v) /\
      (forall k, k ∈ lr_delete req -> ls !! k = None) /\
      (forall k, k ∉ (lr_upsert req).*1 -> k ∉ lr_delete req -> ls !! k = labels n !! k)) as Hstep.
  { intros a a' Hinv (id & n & ups & dels & Hid & Hu & Hd & Hn & Hsz & ->).
    destruct (collectUpserts_lookup _ _ _ Hu) as (U1 & U2 & _).
    destruct (collectDeletes_elem _ _ _ _ Hd) as [D1 D2].
    destruct (inv_nodes _ Hinv _ _ Hn) as [_ [_ _ _ Hlab] _ _].
    exists id, n, (applyLabels ups dels (labels n)). split_and!; [done..| | | |].
    - apply applyLabels_ok; [|done]. eapply collectUpserts_ok; [exact Hu|apply map_Forall_empty].
    - intros k v Hin. apply map_lookup_filter_Some. split; [by apply lookup_union_Some_l, U1|].
      simpl. rewrite D1. intros [H0|Hk]; [by apply elem_of_empty in H0|]. specialize (D2 _ Hk). specialize (U1 _ _ Hin). congruence.
    - intros k Hin. apply map_lookup_filter_None. right. intros x _ Hk. apply Hk. simpl. rewrite D1. by right.
    - intros k Hnu Hnd. unfold applyLabels. rewrite map_lookup_filter, lookup_union.
      rewrite (U2 k Hnu), lookup_empty, (left_id_L None _). destruct (labels n !! k) as [x|]; [|done]. simpl.
      rewrite option_guard_True; [done|]. rewrite D1. by intros [?%elem_of_empty|?]. }
  intros w2 [[]|e] [Hl' Hp]; (split; [done|]).
  - destruct Hp as (Hh & Hh1 & a & Ha & HO). split_and!; [done..|]. exists a. split; [done|].
    apply Hstep; [|done]. eapply csteps_preserve; [exact Ha|]. by apply Hw1.
  - intros Hh. destruct (Hp Hh) as (Hh1 & a & Ha & [Heq|[[] HO]]); (split; [done|]); exists a; (split; [done|]).
    + by left.
    + right. exists tt. apply Hstep; [|done]. eapply csteps_preserve; [exact Ha|]. by apply Hw1.
Qed.

(** C12: Once a leader has lost its lock, none of the requests it is still serving
    changes the guarded keys of etcd (nodes, join keys and the cluster
    configuration): all changes are made by others. *)
Theorem lost_leader_harmless l rq (R : world -> world -> Prop) w w' r :
  election_key l -> (forall w1 w2, R w1 w2 -> ~ held l w1 -> ~ held l w2) ->
  ~ held l w -> runs R w (serve Public l rq) w' r ->
  ~ held l w' /\ rtc (foreign R) (gdata (store w)) (gdata (store w')).
Proof. intros Hlk HR Hno Hr. by apply (fenced_runs l R (serve Public l rq) w w' r); [|by apply serve_fenced|..]. Qed.

End Props.

(** ** Witnesses *)

Import CuratorExample.

Lemma played {A} rqs (p : prog A) :
  runs (interference l0) (after rqs) p (play p (after rqs)).1 (play p (after rqs)).2.
Proof. exact (proj1 (play_runs _ p (after rqs) (interference_refl l0) (proj1 (after_ok rqs)))). Qed.

Lemma ready_after rqs : ready l0 (after rqs).
Proof. exact (proj2 (after_ok rqs)). Qed.

Lemma serve_refines_witness :
  let w := after [register1] in
  let wr := play (serve Public l0 (RqApproveNode pk1)) w in
  locked wr.1 = false /\
  (held l0 wr.1 -> held l0 w /\ rtc cstep (state_of w) (state_of wr.1) /\ cluster_inv (state_of wr.1)).
Proof.
  intros w wr. apply (serve_refines Public l0 (RqApproveNode pk1) w wr.1 wr.2).
  - exact election_l0.
  - exact (ready_after [register1]).
  - exact (played [register1] (serve Public l0 (RqApproveNode pk1))).
Defined.

Definition approved1 : list request := [register1; RqApproveNode pk1].
Definition nodeStateOf (w : world) (id : string) : option NodeState := state <$> nodes (state_of w) !! id.


Definition registerReq1 : RegisterRequest := mkRegisterReq ticket0 jk1 true (Some [("rack", "r1")]).

Lemma RegisterNode_correct_witness :
  let wr := play (RegisterNode l0 (self pk1) registerReq1) (after []) in
  post l0 (registered (self pk1) registerReq1) (after []) wr.1 wr.2.
Proof.
  intros wr. apply (RegisterNode_correct l0 (self pk1) registerReq1).
  - exact election_l0.
  - exact (ready_after []).
  - exact (played [] (RegisterNode l0 (self pk1) registerReq1)).
Defined.

Lemma CommitNode_correct_witness :
  let h := CommitNode Public l0 (self pk1) STORAGE_AUTHENTICATED_ENCRYPTED (chars "c" 32) in
  let wr := play h (after approved1) in
  post l0 (committed (self pk1) STORAGE_AUTHENTICATED_ENCRYPTED (chars "c" 32)) (after approved1) wr.1 wr.2.
Proof.
  intros h wr. apply (CommitNode_correct Public l0 (self pk1) STORAGE_AUTHENTICATED_ENCRYPTED (chars "c" 32)).
  - exact election_l0.
  - exact (ready_after approved1).
  - exact (played approved1 h).
Defined.

Lemma JoinNode_correct_witness :
  let wr := play (JoinNode l0 (self jk1) true) (after join_requests) in
  post l0 (joined (self jk1) true) (after join_requests) wr.1 wr.2.
Proof.
  intros wr. apply (JoinNode_correct l0 (self jk1) true).
  - exact election_l0.
  - exact (ready_after join_requests).
  - exact (played join_requests (JoinNode l0 (self jk1) true)).
Defined.

Definition makeController : RolesRequest := mkRolesReq (RefPubkey pk1) None (Some true) (Some true).

Lemma UpdateNodeRoles_correct_witness :
  let wr := play (UpdateNodeRoles l0 makeController) (after join_requests) in
  post l0 (roles_updated makeController) (after join_requests) wr.1 wr.2 /\
  (held l0 wr.1 -> forall id n, nodes (state_of wr.1) !! id = Some n ->
     kubernetesController n = true -> is_Some (consensusMember n)).
Proof.
  intros wr. apply (UpdateNodeRoles_correct Public l0 makeController (after join_requests) wr.1 wr.2).
  - exact election_l0.
  - exact (ready_after join_requests).
  - exact (played join_requests (UpdateNodeRoles l0 makeController)).
Defined.

Definition delete1 : DeleteRequest := mkDeleteReq (RefPubkey pk1) false false.

Lemma DeleteNode_correct_witness :
  let wr := play (DeleteNode l0 delete1) (after approved1) in
  post l0 (fun (_ : unit) a a' => exists id n, resolves (dr_node delete1) id /\ nodes a !! id = Some n /\
      a' = drop_node id n a /\
      (dr_bypassRoles delete1 = false ->
         consensusMember n = None /\ kubernetesController n = false /\ kubernetesWorker n = false) /\
      (dr_bypassNotDecommissioned delete1 = false -> state n <> STATE_UP)) (after approved1) wr.1 wr.2.
Proof.
  intros wr. apply (DeleteNode_correct l0 delete1).
  - exact election_l0.
  - exact (ready_after approved1).
  - exact (played approved1 (DeleteNode l0 delete1)).
Defined.

Definition relabel1 : LabelsRequest := mkLabelsReq (RefPubkey pk1) [("zone", "z1")] ["rack"].

Lemma UpdateNodeLabels_correct_witness :
  let wr := play (UpdateNodeLabels l0 relabel1) (after [register1]) in
  post l0 (fun (_ : unit) a a' => exists id n ls, resolves (lr_node relabel1) id /\ nodes a !! id = Some n /\
      a' = save_node id (set_labels ls n) a /\ size ls <= MaxLabelsPerNode /\ labels_ok ls /\
      (forall k v, (k, v) ∈ lr_upsert relabel1 -> ls !! k = Some v) /\
      (forall k, k ∈ lr_delete relabel1 -> ls !! k = None) /\
      (forall k, k ∉ (lr_upsert relabel1).*1 -> k ∉ lr_delete relabel1 -> ls !! k = labels n !! k))
    (after [register1]) wr.1 wr.2.
Proof.
  intros wr. apply (UpdateNodeLabels_correct l0 relabel1).
  - exact election_l0.
  - exact (ready_after [register1]).
  - exact (played [register1] (UpdateNodeLabels l0 relabel1)).
Defined.

(** All of them succeed. *)
Lemma examples_succeed :
  (play (serve Public l0 (RqApproveNode pk1)) (after [register1])).2 = Ok tt /\
  (play (serve Public l0 register1) (after [])).2 = Ok tt /\
  (play (serve Public l0 commit1) (after approved1)).2 = Ok tt /\
  (play (UpdateNodeRoles l0 makeController) (after join_requests)).2 = Ok tt /\
  (play (DeleteNode l0 delete1) (after approved1)).2 = Ok tt /\
  (play (UpdateNodeLabels l0 relabel1) (after [register1])).2 = Ok tt.
Proof. vm_compute. repeat split. Qed.

(** A leader whose lock has another creation revision than in etcd. *)
Definition deposed : leadership := mkLeadership "/leader/1" 2 "curator".

Lemma lost_leader_harmless_witness :
  let w := after [register1] in
  let wr := play (serve Public deposed (RqApproveNode pk1)) w in
  ~ held deposed wr.1 /\ rtc (foreign eq) (gdata (store w)) (gdata (store wr.1)).
Proof.
  intros w wr. apply (lost_leader_harmless Public deposed (RqApproveNode pk1) eq w wr.1 wr.2).
  - reflexivity.
  - intros w1 w2 <-. exact (fun H => H).
  - unfold held. rewrite not_true_iff_false. vm_compute. reflexivity.
  - exact (proj1 (play_runs eq (serve Public deposed (RqApproveNode pk1)) w (fun _ => eq_refl) (proj1 (after_ok [register1])))).
Defined.

End CuratorProps.
