(* ===== verification/CuratorNetProps.v ===== *)
(** * Properties of cluster networking

    Announced prefixes stay in the cluster network; WireGuard keys are unique as
    long as no write is reported as failed that was made. *)

From S2P Require Import Prelude GoStrings EtcdPrefix Labels Etcd Interfaces Effects Pki ClusterConfig CuratorNode CuratorState CuratorSpec CuratorAPI CuratorSteps CuratorHandlers CuratorNet CuratorSystem CuratorExample CuratorProps.

Module CuratorNetProps.
Import EtcdPrefix Labels Etcd Interfaces Effects Pki ClusterConfig CuratorNode CuratorState CuratorSpec CuratorAPI CuratorSteps CuratorRefine CuratorHandlers CuratorNet CuratorSystem.

(** Prefixes as sets of addresses. *)
Lemma Contains_trans p q a :
  addr_is4 (prefix_addr p) = addr_is4 (prefix_addr q) ->
  (prefix_bits p <= prefix_bits q <= addr_len (prefix_addr q))%N ->
  Contains p (prefix_addr q) = true -> Contains q a = true -> Contains p a = true.
Proof.
  intros H4 [Hle Hlen]. unfold Contains. rewrite !andb_true_iff, !bool_decide_eq_true, !N.eqb_eq.
  intros [_ Hp] [Hq4 Hq]. split; [congruence|].
  assert (addr_len (prefix_addr p) = addr_len (prefix_addr q)) as Hl by (unfold addr_len; by rewrite H4).
  rewrite Hl in *. rewrite Hp.
  replace (addr_len (prefix_addr q) - prefix_bits p)%N
    with ((addr_len (prefix_addr q) - prefix_bits q) + (prefix_bits q - prefix_bits p))%N by lia.
  by rewrite <- !N.shiftr_shiftr, Hq.
Qed.

Section Net.
Context {E : Etcd} {X : X509} {NT : NetText} {WG : WireGuard}.
Context {NC : Codec NodeMsg} {CC : Codec ClusterConfiguration}.
Context {TC : Codec RegisterTicketMsg} {OC : Codec InitialOwnerMsg}.

(** Every address in a prefix that [UpdateNodeClusterNetworking] accepts lies
    in 10.192.0.0/11, or the prefix is a single address, the node's own. *)
Theorem checkPrefixes_contained externalIP cidrs ps p a :
  checkPrefixes externalIP cidrs = Ok ps -> p ∈ ps -> Contains p a = true ->
  Contains clusterNet a = true \/
  (a = prefix_addr p /\ Addr_String (prefix_addr p) = externalIP).
Proof.
  intros Hps Hin Ha.
  pose proof (checkPrefixes_announceable (mkStatus externalIP None None None) cidrs ps Hps) as Hall.
  rewrite Forall_forall in Hall. destruct (Hall p Hin) as ([Hlen Hbits] & _ & Hok). simpl in Hok.
  unfold prefixOk in Hok. apply orb_true_iff in Hok as [[Hc Hle%N.leb_le]%andb_true_iff|[Hs Heq%bool_decide_eq_true]%andb_true_iff].
  - left. apply (Contains_trans clusterNet p a); [|done|done|done].
    unfold Contains in Hc. by apply andb_true_iff in Hc as [?%bool_decide_eq_true _].
  - right. split; [|done]. unfold IsSingleIP in Hs. apply N.eqb_eq in Hs.
    unfold Contains in Ha. rewrite Hs, N.sub_diag, !N.shiftr_0_r in Ha.
    apply andb_true_iff in Ha as [H4%bool_decide_eq_true Hb%N.eqb_eq].
    destruct a as [is4 bits], (prefix_addr p) as [is4' bits']. simpl in *. congruence.
Qed.

Lemma unique_claim id key n a c ps :
  unique_keys a -> complete c a -> nodes a !! id = Some n -> key <> "" ->
  c !! key = None \/ c !! key = Some id ->
  unique_keys (save_node id (set_network key ps n) a) /\ complete (<[key := id]> c) (save_node id (set_network key ps n) a).
Proof.
  intros Hu Hc Hn Hkey Hfree.
  assert (forall id2 n2, nodes a !! id2 = Some n2 -> wireguardKey n2 = key -> id2 = id) as Hown.
  { intros id2 n2 Hn2 Hk2. assert (c !! key = Some id2) as H2.
    { rewrite <- Hk2. apply Hc; [done|]. by rewrite Hk2. }
    destruct Hfree; congruence. }
  split.
  - intros id1 id2 n1 n2. simpl. rewrite !lookup_insert. repeat case_decide; subst; try done.
    + intros [= <-] Hn2 Hk Hne. simpl in Hk. symmetry. by apply (Hown id2 n2).
    + intros Hn1 [= <-] Hk Hne. simpl in Hk. by apply (Hown id1 n1).
    + apply Hu.
  - intros id2 n2. simpl. rewrite lookup_insert. case_decide.
    + intros [= <-] _. subst. simpl. by rewrite lookup_insert_eq.
    + intros Hn2 Hne. rewrite lookup_insert_ne; [by apply Hc|]. intros Heq.
      by assert (id2 = id) by (by apply (Hown id2 n2)).
Qed.

(** WireGuard keys are unique, and the cache of the leader names the owner of each. *)
Definition keys_ok (v : view) : Prop := unique_keys (abs v.1) /\ cache_complete v.

(** Others, who leave such a cluster so while the leadership is held. *)
Definition careful (l : leadership) (w w' : world) : Prop :=
  interference l w w' /\ (held l w' -> keys_ok (view_of w) -> keys_ok (view_of w')).

Lemma networked_keys pi cn a a' c pk id m key :
  pi ≫= pi_Node = Some pk -> NodeID pk = Some id -> cn = Some m -> ParseKey (WireguardPubkey m) = Some key ->
  networked pi cn tt a a' -> unique_keys a -> complete c a ->
  c !! wgKey_String key = None \/ c !! wgKey_String key = Some id ->
  unique_keys a' /\ complete (<[wgKey_String key := id]> c) a'.
Proof.
  intros Hp1 Hp2 -> Hp4 (pk' & id' & m' & key' & n & st & ps & Hq1 & Hq2 & [= <-] & Hq4 & Hn & _ & _ & ->) Hu Hc Hfree.
  assert (pk' = pk) as -> by congruence. assert (id' = id) as -> by congruence. assert (key' = key) as -> by congruence.
  apply unique_claim; [done..|apply wgKey_String_nonempty|done].
Qed.

(** A successful call keeps keys unique. *)
Lemma networking_keys l pi cn w : election_key l -> ready l w -> decodes_empty -> keys_ok (view_of w) ->
  wp (careful l) (UpdateNodeClusterNetworking l pi cn) (fun w' r => r = Ok tt -> keys_ok (view_of w')) w.
Proof.
  intros Hlk Hw Hempty Hkeys. apply wp_try, wp_ret. destruct (pi ≫= pi_Node) as [pk|] eqn:Hpk; [|done].
  apply wp_try, wp_ret. destruct (NodeID pk) as [id|] eqn:Hid; [|done].
  destruct cn as [m|] eqn:Hcn; [|done]. destruct (bool_decide _); [|done].
  destruct (ParseKey (WireguardPubkey m)) as [key|] eqn:Hkey; [|done].
  intros w1 [] (w2 & [HR HK] & ->). pose proof (ready_rely _ _ _ Hw HR) as [Hl2 Hi2].
  apply (wp_rely (careful l) (interference l)); [by intros ?? []|]. apply wp_bind. set (H := held l w2).
  assert (exists v0, cluster_inv (abs v0.1) /\ lead H l (eq v0) (set_locked true w2) /\ (H -> v0 = view_of w2))
    as (v0 & Hi & Hle & Hv).
  { destruct (decide (held l w2)) as [Hd|Hd].
    - exists (view_of w2). split_and!; [by apply Hi2| |done]. by split.
    - exists (∅, None). split_and!; [by split|by split|]. done. }
  eapply wp_mono; [|by eapply (does_network l Hlk H v0 pi (Some m) _ pk id m key)].
  intros w3 r3 [Hd Hcl] w4 [] ->. apply wp_ret. intros ->.
  destruct (Hcl eq_refl) as (_ & _ & HH & c & Hca & Hc2 & Hfree). rewrite (Hv HH) in *.
  destruct (HK HH Hkeys) as [Hu Hcc]. destruct Hd as (_ & _ & _ & Hnet).
  destruct (networked_keys pi (Some m) _ _ c pk id m key Hpk Hid eq_refl Hkey Hnet Hu) as [U1 U2]; [by apply cached_complete|done|].
  change (view_of (set_locked false w3)) with (view_of w3). split; [done|]. intros c' Hc'. rewrite Hc2 in Hc'. by injection Hc' as <-.
Qed.

(** C29: [UpdateNodeClusterNetworking] changes nothing but the WireGuard key and the prefixes of the calling node.  If keys
    are unique and the leader's cache is complete when it is called, others keep them so, and the call succeeds, then keys
    are unique and the cache is complete afterwards: a key of another node is refused.  (An empty value of a node in
    etcd decodes to a message without fields.) *)
Theorem UpdateNodeClusterNetworking_correct l pi cn w w' r :
  election_key l -> ready l w -> decodes_empty ->
  runs (careful l) w (UpdateNodeClusterNetworking l pi cn) w' r ->
  post l (networked pi cn) w w' r /\ (r = Ok tt -> keys_ok (view_of w) -> keys_ok (view_of w')).
Proof.
  intros Hlk Hw Hempty Hr. split.
  - eapply wp_runs; [|exact Hr]. apply (wp_rely (careful l) (interference l)); [by intros ?? []|]. by apply spec_UpdateNodeClusterNetworking.
  - intros -> Hk. pose proof (wp_runs _ _ _ _ _ _ (networking_keys l pi cn w Hlk Hw Hempty Hk) Hr) as Hend. by apply Hend.
Qed.

End Net.

(** ** Witnesses *)

Import CuratorExample CuratorProps.

(** 10.200.1.0/24 and 10.200.1.5. *)
Definition prefix1 : Prefix := mkPrefix (mkAddr true 180879616) 24.
Definition addr1 : Addr := mkAddr true 180879621.

Lemma checkPrefixes_contained_witness :
  checkPrefixes "192.0.2.1" [Prefix_String prefix1] = Ok [prefix1] /\
  (Contains clusterNet addr1 = true \/
   (addr1 = prefix_addr prefix1 /\ Addr_String (prefix_addr prefix1) = "192.0.2.1")).
Proof.
  assert (checkPrefixes "192.0.2.1" [Prefix_String prefix1] = Ok [prefix1]) as H by (vm_compute; reflexivity).
  split; [exact H|].
  apply (checkPrefixes_contained "192.0.2.1" [Prefix_String prefix1] [prefix1] prefix1 addr1).
  - exact H.
  - left.
  - vm_compute. reflexivity.
Defined.

Definition pk2 : string := chars "b" 32.
Definition id1 : string := "metropolis-61616161616161616161616161616161".
Definition id2 : string := "metropolis-62626262626262626262626262626262".
Definition status0 : option NodeStatus := Some (mkStatus "192.0.2.1" None None None).
Definition two_nodes : list request :=
  [register1; RqUpdateNodeStatus (node pk1) id1 status0;
   RqRegisterNode (self pk2) (mkRegisterReq ticket0 (chars "i" 32) true None);
   RqUpdateNodeStatus (node pk2) id2 status0].

Definition net1 : option ClusternetMsg := Some (mkClusternet "x" [Prefix_String prefix1]).

(** The first node has a key; the second one asks for another. *)
Definition one_key : list request := two_nodes ++ [RqUpdateNodeClusterNetworking (node pk1) net1].
Definition net2 : option ClusternetMsg := Some (mkClusternet "y" []).

Definition keysOf (a : cluster) : list string := filter (fun k => k <> "") (wireguardKey <$> (map_to_list (nodes a)).*2).

Lemma unique_check a : NoDup (keysOf a) -> unique_keys a.
Proof.
  unfold keysOf. intros Hnd i1 i2 n1 n2 H1%elem_of_map_to_list H2%elem_of_map_to_list Hk Hne.
  induction (map_to_list (nodes a)) as [|[i n] l IH]; [by apply not_elem_of_nil in H1|]. cbn [fmap list_fmap fst snd] in Hnd.
  assert (forall j m, (j, m) ∈ l -> wireguardKey m <> "" -> wireguardKey m ∈ filter (fun k => k <> "") (wireguardKey <$> l.*2)) as Hin.
  { intros j m Hj Hm. apply list_elem_of_filter. split; [done|]. apply list_elem_of_fmap. exists m. split; [done|]. apply list_elem_of_fmap. by exists (j, m). }
  rewrite filter_cons in Hnd.
  apply elem_of_cons in H1 as [[= <- <-]|H1], H2 as [[= <- <-]|H2]; [done|..].
  - rewrite decide_True in Hnd by done. apply NoDup_cons in Hnd as [Hno _]. destruct Hno. rewrite Hk. apply (Hin i2 n2); congruence.
  - rewrite decide_True in Hnd by congruence. apply NoDup_cons in Hnd as [Hno _]. destruct Hno. rewrite <- Hk. by apply (Hin i1 n1).
  - apply IH; [|done..]. case_decide; [by apply NoDup_cons in Hnd as [_ ?]|done].
Qed.

Definition completeCheck (m : gmap string string) (a : cluster) : bool :=
  forallb (fun x => bool_decide (wireguardKey x.2 = "") || bool_decide (m !! wireguardKey x.2 = Some x.1)) (map_to_list (nodes a)).

Lemma complete_check m a : completeCheck m a = true -> complete m a.
Proof.
  unfold completeCheck. rewrite forallb_forall. intros Hc id n Hn%elem_of_map_to_list%list_elem_of_In Hne. specialize (Hc _ Hn). cbn in Hc.
  apply orb_true_iff in Hc as [?%bool_decide_eq_true|?%bool_decide_eq_true]; done.
Qed.

Lemma one_key_ok : keys_ok (view_of (after one_key)).
Proof.
  split; [apply unique_check; apply (bool_decide_unpack _); vm_compute; reflexivity|]. intros m Hm. apply complete_check.
  assert (match (view_of (after one_key)).2 with Some m => completeCheck m (abs (view_of (after one_key)).1) | None => true end = true) as H by (vm_compute; reflexivity).
  by rewrite Hm in H.
Qed.

Lemma careful_refl l w : careful l w w.
Proof. split; [apply interference_refl|done]. Qed.

Lemma UpdateNodeClusterNetworking_correct_witness :
  let wr := play (UpdateNodeClusterNetworking l0 (node pk2) net2) (after one_key) in
  wr.2 = Ok tt /\ post l0 (networked (node pk2) net2) (after one_key) wr.1 wr.2 /\ keys_ok (view_of wr.1).
Proof.
  intros wr. assert (wr.2 = Ok tt) as Hok by (vm_compute; reflexivity).
  destruct (UpdateNodeClusterNetworking_correct l0 (node pk2) net2 (after one_key) wr.1 wr.2) as [H1 H2].
  - exact election_l0.
  - exact (ready_after one_key).
  - reflexivity.
  - exact (proj1 (play_runs (careful l0) _ (after one_key) (careful_refl l0) (proj1 (after_ok one_key)))).
  - exact (conj Hok (conj H1 (H2 Hok one_key_ok))).
Defined.

(** The key of the first node is refused. *)
Lemma key_refused : (play (UpdateNodeClusterNetworking l0 (node pk2) net1) (after one_key)).2 =
  Err (Status InvalidArgument "public key alread used by another node").
Proof. vm_compute. reflexivity. Qed.

(** ** A write that is reported as failed *)

Definition is_put (o : op) : bool := match o with OpPut _ _ => true | _ => false end.

(** Every outcome as in [det], but transactions that write are executed and then
    reported as timed out. *)
Definition flaky {B} (e : eff B) : world -> world * B :=
  match e in eff B return world -> world * B with
  | ETxn cs ops => fun w =>
      let r := mem_exec (es w) cs ops in
      (set_es (E := MemEtcd) r.1 w, if existsb is_put ops then Failed ErrDeadlineExceeded else r.2)
  | e => det e
  end.

Lemma flaky_step {B} (e : eff B) w :
  mem_ok (es w) ->
  eff_step (interference l0) e w (flaky e w).1 (flaky e w).2 /\ mem_ok (es (flaky e w).1).
Proof.
  intros Hok. destruct e; try (apply det_step; [apply interference_refl|done]).
  simpl. split; [|by apply mem_exec_ok]. exists w, (mem_exec (es w) cs ops).1.
  split_and!; [apply interference_refl| |done]. destruct (existsb is_put ops); [|by constructor].
  by apply mem_txn_unknown.
Qed.

Definition failedClaim : world * result err unit :=
  exec (@flaky) (UpdateNodeClusterNetworking l0 (node pk1) net1) (after two_nodes).
Definition secondClaim : world * result err unit :=
  play (UpdateNodeClusterNetworking l0 (node pk2) net1) failedClaim.1.

Definition keyOf (w : world) (id : string) : option string := wireguardKey <$> nodes (state_of w) !! id.

Lemma keys_clash w i j k :
  keyOf w i = Some k -> keyOf w j = Some k -> k <> "" -> i <> j -> ~ unique_keys (state_of w).
Proof.
  unfold keyOf. intros Hi Hj Hk Hne Hu.
  destruct (nodes (state_of w) !! i) as [n1|] eqn:Hn1; [|done].
  destruct (nodes (state_of w) !! j) as [n2|] eqn:Hn2; [|done].
  injection Hi as Hi. injection Hj as Hj. apply Hne, (Hu i j n1 n2); congruence.
Qed.

Lemma claims_check :
  failedClaim.2 = Err (Status DeadlineExceeded "context deadline exceeded") /\ secondClaim.2 = Ok tt /\
  keyOf secondClaim.1 id1 = Some "kx" /\ keyOf secondClaim.1 id2 = Some "kx".
Proof. vm_compute. repeat split. Qed.

(** WireGuard keys are not always unique: if the save of a node's key is made
    but reported as failed, the key is in etcd and not in the leader's cache, and
    another node can take it. *)
Theorem wireguard_key_taken_twice :
  exists w1 e w2,
    runs (interference l0) (after two_nodes) (UpdateNodeClusterNetworking l0 (node pk1) net1) w1 (Err e) /\
    runs (interference l0) w1 (UpdateNodeClusterNetworking l0 (node pk2) net1) w2 (Ok tt) /\
    keyOf (after two_nodes) id1 = Some "" /\ ~ unique_keys (state_of w2).
Proof.
  destruct claims_check as (H1 & H2 & K1 & K2).
  destruct (exec_runs (interference l0) (@flaky) (fun w => mem_ok (es w)) (fun B e w => flaky_step e w)
    _ (UpdateNodeClusterNetworking l0 (node pk1) net1) (after two_nodes) (proj1 (after_ok two_nodes))) as [Hr1 Hok1].
  pose proof (proj1 (play_runs (interference l0) (UpdateNodeClusterNetworking l0 (node pk2) net1) failedClaim.1
    (interference_refl l0) Hok1)) as Hr2.
  eexists failedClaim.1, _, secondClaim.1. split; [rewrite <- H1; exact Hr1|].
  split; [rewrite <- H2; exact Hr2|]. split; [vm_compute; reflexivity|].
  exact (keys_clash _ id1 id2 "kx" K1 K2 ltac:(discriminate) ltac:(discriminate)).
Qed.

End CuratorNetProps.
