(* ===== verification/CuratorAuthProps.v ===== *)
(** * Properties of the curator's secrets and credentials

    The register ticket, the escrow of the owner's certificate, the creation of a
    cluster, and what survives being stored in etcd. *)

From S2P Require Import Prelude GoStrings EtcdPrefix Labels Etcd Interfaces Effects Pki ClusterConfig CuratorNode CuratorState CuratorSpec CuratorAPI CuratorSteps CuratorHandlers CuratorSystem CuratorExample CuratorProps.

Module CuratorAuthProps.
Import EtcdPrefix Labels Etcd Interfaces Effects Pki ClusterConfig CuratorNode CuratorState CuratorSpec CuratorAPI CuratorSteps CuratorRefine CuratorHandlers CuratorSystem.

Section Auth.
Context {E : Etcd} {X : X509} {NT : NetText} {WG : WireGuard}.
Context {NC : Codec NodeMsg} {CC : Codec ClusterConfiguration}.
Context {TC : Codec RegisterTicketMsg} {OC : Codec InitialOwnerMsg}.

(** ** Nodes in etcd *)

(** What [nodeUnmarshal] returns for the stored form of a node is that node,
    for every node that a handler can have produced; and whatever it returns has
    valid labels and prefixes. *)
Theorem node_roundtrip (n n' : Node) data b :
  (node_ok n -> Marshal (proto n) = Some b -> nodeUnmarshal b = Ok n) /\
  (nodeUnmarshal data = Ok n' -> labels_ok (labels n') /\ Forall prefix_valid (networkPrefixes n')).
Proof.
  split; [apply nodeUnmarshal_Marshal|]. unfold nodeUnmarshal, nodeFromMsg.
  destruct (Unmarshal data) as [msg|]; [|done]. destruct (Roles msg) as [roles|]; [|done].
  destruct (match ConsensusMemberM roles with Some cm => _ | None => _ end) as [cm|]; [|done].
  intros [= <-]. simpl. split.
  - destruct (LabelsMsg msg); simpl; [apply unmarshalLabels_ok|apply map_Forall_empty].
  - destruct (Clusternet msg); simpl; [apply unmarshalPrefixes_valid|constructor].
Qed.

(** ** The register ticket *)

Definition ticketOf (w : world) : option string := kv_value <$> store w !! registerTicketEtcdPath.

(** While the lock on the ticket is taken, no other handler of the leader touches
    it, and other leaders are fenced off. *)
Definition ticket_rely (l : leadership) (w w' : world) : Prop :=
  held l w' -> held l w /\ ticketOf w' = ticketOf w.

Section Ticket.
Context (l : leadership) (Hlk : election_key l).

(** The ticket after the operations of a transaction on it. *)
Definition ticket_after (t : option string) (ops : list op) (t' : option string) : Prop :=
  exists d r, kv_value <$> d !! registerTicketEtcdPath = t /\
    kv_value <$> (apply_ops r d ops).1 !! registerTicketEtcdPath = t'.

Lemma wp_ticketTxn H t ops Q w :
  Forall (fun k => k = registerTicketEtcdPath) (ops ≫= op_writes) ->
  (held l w -> H /\ ticketOf w = t) ->
  (forall w' d r, held l w' -> H -> kv_value <$> d !! registerTicketEtcdPath = t ->
     ticketOf w' = kv_value <$> (apply_ops r d ops).1 !! registerTicketEtcdPath -> Q w' (Ok (apply_ops r d ops).2)) ->
  (forall w' e, (held l w' -> H /\ (ticketOf w' = t \/ ticket_after t ops (ticketOf w'))) -> Q w' (Err e)) ->
  wp (ticket_rely l) (txnAsLeader l ops) Q w.
Proof.
  intros Hops Ht Hok Herr. intros w1 res (w0 & s & HR & Htx & ->).
  assert (held l w0 -> H /\ ticketOf w0 = t) as Ht0.
  { intros Hh. destruct (HR Hh) as [Hh0 ->]. by apply Ht. }
  assert (forall r d, (apply_ops r d ops).1 !! lockKey l = d !! lockKey l) as Hlock.
  { intros r d. apply apply_ops_other. intros Hin. rewrite Forall_forall in Hops. apply Hops in Hin.
    unfold election_key in Hlk. by rewrite Hin in Hlk. }
  assert (forall r d, content s = (apply_ops r d ops).1 -> held l (set_es s w0) ->
    cmp_holds d (CreateRevision (lockKey l) (lockRev l)) = true) as Hback.
  { intros r d Hs. unfold held. rewrite store_set_es, Hs. simpl. by rewrite Hlock. }
  destruct res as [rs| |e].
  - apply txn_committed in Htx as (Hh & r & _ & Heq).
    assert (held l w0) as Hh0 by (by apply andb_true_iff in Hh as [? _]). destruct (Ht0 Hh0) as [HH Ht1].
    assert (rs = (apply_ops r (store w0) ops).2) as -> by (unfold store; by rewrite Heq).
    assert (content s = (apply_ops r (store w0) ops).1) as Hs by (unfold store; by rewrite Heq).
    apply wp_ret, Hok; [|done|done|by unfold ticketOf; rewrite store_set_es, Hs].
    unfold held. rewrite store_set_es, Hs. simpl. by rewrite Hlock.
  - apply txn_rejected in Htx as [Hh Hs]. intros w2 x (w3 & s3 & HR3 & Htx3 & ->). apply wp_ret, Herr.
    intros Hh2. exfalso. apply not_true_iff_false in Hh. apply Hh. simpl. rewrite andb_true_r.
    assert (held l w3) as Hh3.
    { revert Hh2. unfold held. rewrite store_set_es. destruct x as [rs| |e].
      - apply txn_committed in Htx3 as (_ & r & _ & [= E1 _]). by rewrite <- E1.
      - apply txn_rejected in Htx3 as [_ ->]. done.
      - apply txn_failed in Htx3 as [->|(_ & r & _ & ->)]; done. }
    destruct (HR3 Hh3) as [Hh1 _]. revert Hh1. unfold held. by rewrite store_set_es, Hs.
  - apply wp_ret, Herr. intros Hh. apply txn_failed in Htx as [Hs|(_ & r & _ & Hs)].
    + assert (held l w0) as Hh0 by (revert Hh; unfold held; by rewrite store_set_es, Hs).
      destruct (Ht0 Hh0) as [HH Ht1]. split; [done|]. left. rewrite <- Ht1. unfold ticketOf. by rewrite store_set_es, Hs.
    + destruct (Ht0 (Hback r _ Hs Hh)) as [HH Ht1]. split; [done|]. right. exists (store w0), r.
      split; [done|]. unfold ticketOf. by rewrite store_set_es, Hs.
Qed.

(** [ensureRegisterTicket] returns the ticket that is stored, creates one only
    if there is none, and never replaces one, whether it succeeds or fails. *)
Theorem ensureRegisterTicket_correct w w' r :
  runs (ticket_rely l) w (ensureRegisterTicket l) w' r ->
  match r with
  | Ok t => held l w /\ held l w' /\ ticketOf w' = Some t /\ (forall t0, ticketOf w = Some t0 -> t0 = t)
  | Err _ => held l w' -> held l w /\ (forall t0, ticketOf w = Some t0 -> ticketOf w' = Some t0)
  end.
Proof.
  revert w' r. enough (wp (ticket_rely l) (ensureRegisterTicket l) (fun w' r => match r with
    | Ok t => held l w /\ held l w' /\ ticketOf w' = Some t /\ (forall t0, ticketOf w = Some t0 -> t0 = t)
    | Err _ => held l w' -> held l w /\ (forall t0, ticketOf w = Some t0 -> ticketOf w' = Some t0)
    end) w) as Hwp.
  { intros w' r Hr. exact (wp_runs _ _ _ _ _ _ Hwp Hr). }
  apply wp_bind, (wp_ticketTxn (held l w) (ticketOf w)); [constructor|done| |].
  2:{ intros w' e He Hh. destruct (He Hh) as [Hw Ht]. split; [done|]. intros t0 Ht0.
      destruct Ht as [Ht|(d & r & Hd & Ht)]; [congruence|]. simpl in Ht. congruence. }
  intros w1 d r Hh1 Hw Hd Ht1. cbn [apply_ops apply_op fst snd firstKvs] in *.
  rewrite <- Hd.
  destruct (d !! registerTicketEtcdPath) as [e|]; cbn [fmap option_fmap option_map] in *.
  { split_and!; [done..|]. by intros t0 [= ->]. }
  intros w2 o [-> _]. destruct o as [o|]; [|by intros _].
  destruct (Marshal (mkTicketMsg o)) as [b|]; [|by intros _].
  apply wp_bind, (wp_ticketTxn (held l w) None); [by repeat constructor|done| |].
  - intros w3 d3 r3 Hh3 _ Hd3 Ht3. simpl in *. unfold put in Ht3. rewrite lookup_insert_eq in Ht3. done.
  - intros w3 e He Hh. destruct (He Hh) as [_ _]. done.
Qed.

End Ticket.

(** ** The owner's credentials *)

Definition ownerOf (w : world) : option string := kv_value <$> store w !! initialOwnerEtcdPath.

Context (Public : string -> string).

Lemma wp_getOwnerPubkey R Q w :
  (forall w1 w2, R w1 w2 -> ownerOf w2 = ownerOf w1) ->
  (forall w' pk raw iom, ownerOf w = Some raw -> Unmarshal raw = Some iom -> OwnerPublicKey iom = pk -> Q w' (Ok pk)) ->
  (forall w' e, Q w' (Err e)) ->
  wp R getOwnerPubkey Q w.
Proof.
  intros HR Hok Herr. intros w1 x (w0 & s & HR0 & Ht & ->). apply HR in HR0.
  destruct x as [rs| |e]; [|by apply wp_ret|by destruct e; apply wp_ret].
  apply txn_committed in Ht as (_ & r & _ & [= _ <-]). simpl.
  unfold ownerOf in HR0 at 1. unfold store in HR0 at 1.
  destruct (content (es w0) !! initialOwnerEtcdPath) as [e|]; [|by apply wp_ret]. apply wp_ret.
  destruct (Unmarshal (kv_value e)) as [iom|] eqn:Hu; [|by apply Herr]. case_bool_decide; [|by apply Herr].
  by eapply Hok; [symmetry; exact HR0|..].
Qed.

Lemma wp_ensureIssued (mine : string -> Prop) R name dns pk Q w :
  (forall w1 w2, R w1 w2 -> grows mine (store w1) (store w2)) ->
  (forall w' der x, ParseCertificate der = Some x -> CertPublicKey x = Some pk -> Q w' (Ok der)) ->
  (forall w' e, Q w' (Err e)) ->
  wp R (ensureIssued Public name dns pk) Q w.
Proof.
  intros HR Hok Herr. intros w1 k [-> ->]. apply wp_bind.
  destruct (specs_all Public mine R HR (4 * depth (issuedCert name dns pk (pkiCA (ca w))) + 5)) as (He & _).
  eapply wp_mono; [|apply He]. intros w2 [c r] (_ & (_ & _ & _ & _ & Hpk) & Hc) w3 [] ->. apply wp_ret. simpl.
  destruct r as [der|e]; [|by apply Herr]. destruct (Hc der eq_refl) as [[_ (x & Hx & Hk)] _].
  apply (Hok _ der x); [done|]. rewrite Hk. by apply Hpk.
Qed.

(** [Escrow] emits a certificate only to a peer that asked for the owner's
    credentials with the key it proved possession of, when that key is the one
    stored as the owner's in etcd, and the certificate is for that key. *)
Theorem Escrow_correct (mine : string -> Prop) R pi msg w w' msgs r der :
  (forall w1 w2, R w1 w2 -> ownerOf w2 = ownerOf w1) ->
  (forall w1 w2, R w1 w2 -> grows mine (store w1) (store w2)) ->
  runs R w (Escrow Public pi msg) w' (msgs, r) -> EmittedCertificate der ∈ msgs ->
  exists p pk raw iom x,
    pi = Some p /\ pi_Unauthenticated p = Some (Some pk) /\ msg = Ok (Some ("owner", pk)) /\
    ownerOf w = Some raw /\ Unmarshal raw = Some iom /\ OwnerPublicKey iom = pk /\
    ParseCertificate der = Some x /\ CertPublicKey x = Some pk.
Proof.
  intros HR Hg Hr. revert Hr.
  enough (wp R (Escrow Public pi msg) (fun _ mr => EmittedCertificate der ∈ mr.1 ->
    exists p pk raw iom x,
      pi = Some p /\ pi_Unauthenticated p = Some (Some pk) /\ msg = Ok (Some ("owner", pk)) /\
      ownerOf w = Some raw /\ Unmarshal raw = Some iom /\ OwnerPublicKey iom = pk /\
      ParseCertificate der = Some x /\ CertPublicKey x = Some pk) w) as Hwp.
  { intros Hr. exact (wp_runs _ _ _ _ _ _ Hwp Hr). }
  unfold Escrow. destruct pi as [p|]; [|by intros ?%not_elem_of_nil].
  destruct (pi_Unauthenticated p) as [ss|] eqn:Hun; [|by intros ?%not_elem_of_nil].
  destruct msg as [[[name pub]|]|e]; [|by intros ?%not_elem_of_nil..].
  case_bool_decide as Hname; [|by intros ?%not_elem_of_nil]. subst name. cbn [negb].
  case_bool_decide; [|by intros ?%not_elem_of_nil]. cbn [negb].
  destruct ss as [pk|]; [|by intros ?%list_elem_of_singleton].
  case_bool_decide as Hpk; [|by intros ?%not_elem_of_nil]. subst pub. cbn [negb].
  apply wp_bind, wp_getOwnerPubkey; [done| |by intros w1 e ?%not_elem_of_nil].
  intros w1 opk raw iom Hraw Hu Ho. case_bool_decide as Heq; [|by intros ?%not_elem_of_nil]. cbn [negb].
  apply wp_bind, (wp_ensureIssued mine); [done| |by intros w2 e ?%not_elem_of_nil].
  intros w2 der' x Hx Hk [= <-]%list_elem_of_singleton. subst opk. by exists p, pk, raw, iom, x.
Qed.

End Auth.

(** ** Witnesses *)

Import CuratorExample CuratorProps.

Definition exampleNode : Node :=
  mkNode "cuk" pk1 jk1 STATE_UP None NODE_TPM_PRESENT_AND_USED None false true "kx"
    [mkPrefix (mkAddr true 180879616) 24] {["rack" := "r1"]}.

Lemma exampleNode_ok : node_ok exampleNode.
Proof.
  split; [exact I|discriminate| |].
  - constructor; [|constructor]. split; vm_compute; [discriminate|reflexivity].
  - apply map_Forall_singleton. split; vm_compute; reflexivity.
Qed.

Lemma node_roundtrip_witness :
  nodeUnmarshal (enc (proto exampleNode)) = Ok exampleNode /\ labels_ok (labels exampleNode).
Proof.
  destruct (node_roundtrip exampleNode exampleNode (enc (proto exampleNode)) (enc (proto exampleNode))) as [H1 H2].
  assert (nodeUnmarshal (enc (proto exampleNode)) = Ok exampleNode) as H by exact (H1 exampleNode_ok eq_refl).
  split; [exact H|]. exact (proj1 (H2 H)).
Defined.

Lemma ticket_rely_refl l w : ticket_rely l w w.
Proof. done. Qed.

Definition ticketRun : world * result err string := play (ensureRegisterTicket l0) w0.

Lemma ensureRegisterTicket_correct_witness :
  match ticketRun.2 with
  | Ok t => held l0 w0 /\ held l0 ticketRun.1 /\ ticketOf ticketRun.1 = Some t /\
            (forall t0, ticketOf w0 = Some t0 -> t0 = t)
  | Err _ => held l0 ticketRun.1 -> held l0 w0 /\
             (forall t0, ticketOf w0 = Some t0 -> ticketOf ticketRun.1 = Some t0)
  end.
Proof.
  apply (ensureRegisterTicket_correct l0 election_l0 w0 ticketRun.1 ticketRun.2).
  exact (proj1 (play_runs (ticket_rely l0) (ensureRegisterTicket l0) w0 (ticket_rely_refl l0) mem_ok_w0)).
Defined.

Definition escrowRun : world * (list escrowMsg * result err unit) :=
  play (Escrow Public (self owner) (Ok (Some ("owner", owner)))) w0.
Definition escrowed : string :=
  match escrowRun.2.1 with [EmittedCertificate der] => der | _ => "" end.

Lemma escrowRun_ok : escrowRun.2 = ([EmittedCertificate escrowed], Ok tt).
Proof. vm_compute. reflexivity. Qed.

Lemma Escrow_correct_witness :
  exists p pk raw iom x,
    self owner = Some p /\ pi_Unauthenticated p = Some (Some pk) /\
    Ok (E := err) (Some ("owner", owner)) = Ok (Some ("owner", pk)) /\
    ownerOf w0 = Some raw /\ Unmarshal raw = Some iom /\ OwnerPublicKey iom = pk /\
    ParseCertificate escrowed = Some x /\ CertPublicKey x = Some pk.
Proof.
  apply (Escrow_correct Public (fun _ => True) eq (self owner) (Ok (Some ("owner", owner))) w0 escrowRun.1
           [EmittedCertificate escrowed] (Ok tt) escrowed).
  - intros w1 w2 <-. reflexivity.
  - intros w1 w2 <-. reflexivity.
  - rewrite <- escrowRun_ok.
    exact (proj1 (play_runs eq (Escrow Public (self owner) (Ok (Some ("owner", owner)))) w0 (fun _ => eq_refl) mem_ok_w0)).
  - left.
Defined.

End CuratorAuthProps.
