(* ===== verification/CuratorBootstrap.v ===== *)
(** * Creation of a cluster

    [BootstrapNodeFinish] of [bootstrap.go] establishes the invariant that the
    handlers keep. *)

From S2P Require Import Prelude GoStrings EtcdPrefix Labels Etcd Interfaces Effects Pki ClusterConfig CuratorNode CuratorState CuratorSpec CuratorAPI CuratorSteps CuratorHandlers CuratorSystem CuratorExample CuratorAuthProps.

Module CuratorBootstrap.
Import EtcdPrefix Labels Etcd Interfaces Effects Pki ClusterConfig CuratorNode CuratorState CuratorSpec CuratorAPI CuratorSteps CuratorRefine CuratorHandlers CuratorSystem CuratorAuthProps.

Section Bootstrap.
Context {E : Etcd} {X : X509} {NT : NetText} {WG : WireGuard}.
Context {NC : Codec NodeMsg} {CC : Codec ClusterConfiguration}.
Context {TC : Codec RegisterTicketMsg} {OC : Codec InitialOwnerMsg}.
Context (Public : string -> string).

(** Nothing of a cluster is in etcd yet. *)
Definition blank (w : world) : Prop := gdata (store w) = ∅ /\ store w !! initialOwnerEtcdPath = None.

Context (R : world -> world -> Prop) (HR : forall w1 w2, R w1 w2 -> blank w1 -> blank w2).

Lemma gdata_put r d k v : gdata (put r d k v) = if guarded k then <[k := v]> (gdata d) else gdata d.
Proof.
  apply map_eq. intros k'. rewrite gdata_lookup. unfold put. rewrite lookup_insert.
  destruct (guarded k) eqn:Hk.
  - rewrite lookup_insert, gdata_lookup. case_decide; [subst; by rewrite Hk|done].
  - rewrite gdata_lookup. case_decide; [subst; by rewrite Hk|done].
Qed.

Lemma blank_txn w s cs ops res :
  blank w -> txn (es w) cs ops s res -> Forall (under pkiNamespace) (ops ≫= op_writes) -> blank (set_es s w).
Proof.
  intros [Hg Ho] Ht Hops. rewrite Forall_forall in Hops.
  assert (forall r, blank (set_es s w) \/ content s <> (apply_ops r (store w) ops).1) as Happ.
  { intros r. destruct (decide (content s = (apply_ops r (store w) ops).1)) as [Hs|Hs]; [|by right]. left.
    unfold blank. rewrite store_set_es, Hs. split.
    - apply map_eq. intros k. rewrite gdata_lookup. destruct (guarded k) eqn:Hk; [|done].
      rewrite apply_ops_other; [by rewrite <- Hg, gdata_lookup, Hk|].
      intros Hin. destruct (Hops _ Hin) as [x ->]. done.
    - rewrite apply_ops_other; [done|]. intros Hin. by destruct (Hops _ Hin) as [x Hx]. }
  assert (content s = store w -> blank (set_es s w)) as Hsame.
  { intros Hs. unfold blank. by rewrite store_set_es, Hs. }
  destruct res as [rs| |e].
  - apply txn_committed in Ht as (_ & r & _ & Heq). destruct (Happ r) as [?|Hno]; [done|]. exfalso. apply Hno.
    unfold store. by rewrite Heq.
  - apply txn_rejected in Ht as [_ Hs]. by apply Hsame.
  - apply txn_failed in Ht as [Hs|(_ & r & _ & Hs)]; [by apply Hsame|]. by destruct (Happ r).
Qed.

Lemma wp_blank {A} (Q : A -> Prop) p w :
  only (under pkiNamespace) Q p -> blank w -> wp R p (fun w' a => blank w' /\ Q a) w.
Proof.
  revert w. induction p as [a|B e k IH]; intros w Hp Hb; [done|]. destruct Hp as [He Hp].
  intros w1 x Hs. apply IH; [apply Hp|]. clear IH Hp k.
  destruct e; simpl in He, Hs; try done; try (by subst); try (by destruct Hs as [-> _]).
  - destruct Hs as (w2 & s & HR2 & Ht & ->). eapply blank_txn; [|exact Ht|done]. by eapply HR.
  - destruct Hs as [HR2 _]. by eapply HR.
  - destruct Hs as [HR2 _]. by eapply HR.
  - destruct Hs as (w2 & HR2 & ->). exact (HR _ _ HR2 Hb).
Qed.

(** What a first node is like ([NewNodeForBootstrap], with its roles). *)
Definition bootable (n : Node) : Prop :=
  node_ok n /\ (kubernetesController n = true -> is_Some (consensusMember n)) /\
  size (labels n) <= MaxLabelsPerNode.

Lemma abs_boot id nkey jkp n b cc c raw :
  node_ok n -> Key NodeEtcdPrefix id = Ok nkey -> Key joinCredPrefix (hexEncode (jkey n)) = Ok jkp ->
  Marshal (proto n) = Some b -> clusterProto c = Ok cc -> Marshal cc = Some raw ->
  abs (<[clusterConfigurationKey := raw]> (<[jkp := id]> (<[nkey := b]> ∅))) =
  mkAbs {[id := n]} {[hexEncode (jkey n) := id]} (Some c).
Proof.
  intros Hok Hn Hj Hb Hc Hraw.
  pose proof (abs_put_both ∅ id _ nkey jkp n b Hok Hn Hj eq_refl Hb) as Ha.
  unfold vapply in Ha. simpl in Ha. unfold abs in *. simpl in Ha. injection Ha as Ha1 Ha2 _.
  destruct (section_other NodeEtcdPrefix (<[jkp := id]> (<[nkey := b]> ∅)) clusterConfigurationKey raw) as [-> _];
    [done|by intros i Hi%Key_nodes|].
  destruct (section_other joinCredPrefix (<[jkp := id]> (<[nkey := b]> ∅)) clusterConfigurationKey raw) as [-> _];
    [done|by intros i Hi%Key_joins|].
  rewrite Ha1, Ha2, lookup_insert_eq. f_equal. simpl. unfold decodeCluster, clusterUnmarshal.
  rewrite (Unmarshal_Marshal _ _ Hraw). by rewrite (proj2 (clusterFromProto_iff cc c) Hc).
Qed.

(** The transaction that creates the cluster. *)
Lemma create_cluster w s id nkey jkp n b owner cc c raw res :
  blank w -> node_ok n -> Key NodeEtcdPrefix id = Ok nkey -> Key joinCredPrefix (hexEncode (jkey n)) = Ok jkp ->
  Marshal (proto n) = Some b -> clusterProto c = Ok cc -> Marshal cc = Some raw ->
  txn (es w) [CreateRevision nkey 0; CreateRevision initialOwnerEtcdPath 0;
              CreateRevision jkp 0; CreateRevision clusterConfigurationKey 0]
    [OpPut nkey b; OpPut initialOwnerEtcdPath owner; OpPut jkp id; OpPut clusterConfigurationKey raw] s res ->
  match res with
  | Failed _ => True
  | _ => state_of (set_es s w) = mkAbs {[id := n]} {[hexEncode (jkey n) := id]} (Some c) /\
         ownerOf (set_es s w) = Some owner
  end.
Proof.
  intros [Hg Ho] Hok Hn Hj Hb Hc Hraw Ht.
  pose proof (guarded_nodes _ _ Hn) as Gn. pose proof (guarded_joins _ _ Hj) as Gj.
  assert (forall k, guarded k = true -> store w !! k = None) as Habsent.
  { intros k Hk. pose proof (gdata_lookup (store w) k) as Hl. rewrite Hg, lookup_empty, Hk in Hl.
    by destruct (store w !! k). }
  destruct res as [rs| |e]; [| |done].
  - apply txn_committed in Ht as (_ & r & _ & Heq). apply (f_equal fst) in Heq. simpl in Heq. split.
    + unfold state_of, view_of. rewrite store_set_es, <- Heq. cbn [fst].
      rewrite !gdata_put, Gn, Gj. change (guarded initialOwnerEtcdPath) with false.
      change (guarded clusterConfigurationKey) with true. cbv iota. change (content (es w)) with (store w).
      rewrite Hg. by eapply abs_boot.
    + unfold ownerOf. rewrite store_set_es, <- Heq. unfold put.
      apply Key_joins in Hj as ->. rewrite !lookup_insert_ne by done. by rewrite lookup_insert_eq.
  - apply txn_rejected in Ht as [Hh _]. exfalso. apply not_true_iff_false in Hh. apply Hh.
    change (content (es w)) with (store w). simpl.
    by rewrite (Habsent _ Gn), (Habsent _ Gj), (Habsent clusterConfigurationKey), Ho.
Qed.

(** A successful [BootstrapNodeFinish] on a store without a cluster creates
    exactly the first node, its join key, the configuration and the owner, and
    with them the invariant that all handlers keep. *)
Theorem BootstrapNodeFinish_correct n ownerKey c w w' certs :
  blank w -> bootable n ->
  runs R w (BootstrapNodeFinish Public n ownerKey c) w' (Ok certs) ->
  exists id, ID n = Some id /\ cluster_inv (state_of w') /\
    state_of w' = mkAbs {[id := n]} {[hexEncode (jkey n) := id]} (Some c) /\
    exists raw, ownerOf w' = Some raw /\ Marshal (mkOwnerMsg ownerKey) = Some raw.
Proof.
  intros Hb (Hok & Hctl & Hlab) Hr. revert Hr.
  enough (wp R (BootstrapNodeFinish Public n ownerKey c) (fun w' r => r = Ok certs -> exists id, ID n = Some id /\
    state_of w' = mkAbs {[id := n]} {[hexEncode (jkey n) := id]} (Some c) /\
    exists raw, ownerOf w' = Some raw /\ Marshal (mkOwnerMsg ownerKey) = Some raw) w) as Hwp.
  { intros Hr. destruct (wp_runs _ _ _ _ _ _ Hwp Hr eq_refl) as (id & Hid & Hst & Ho).
    exists id. split; [done|]. rewrite Hst. split; [|done]. split; simpl.
    - apply map_Forall_singleton. by split.
    - apply map_Forall_singleton. exists n. by rewrite lookup_singleton_eq. }
  intros w1 [] ->. apply wp_try.
  eapply wp_mono; [|apply (wp_blank _ _ _ (only_ensureCA Public)); exact Hb].
  intros w2 [caCert|e] [Hb2 _]; [|done]. apply wp_try, wp_ret. destruct (ID n) as [id|] eqn:Hid; [|done].
  apply wp_try. eapply wp_mono; [|apply (wp_blank _ _ _ (only_ensureIssued Public _ _ _)); exact Hb2].
  intros w3 [nodeCert|e] [Hb3 _]; [|done].
  unfold etcdNodePath. destruct (Key NodeEtcdPrefix id) as [nkey|] eqn:Hn; [|done].
  destruct (Marshal (proto n)) as [b|] eqn:Hm; [|done].
  destruct (Marshal (mkOwnerMsg ownerKey)) as [owner|] eqn:Hown; [|done].
  unfold etcdJoinKeyPath. destruct (Key joinCredPrefix (hexEncode (jkey n))) as [jkp|] eqn:Hj; [|done].
  destruct (clusterProto c) as [cc|] eqn:Hc; [|done]. destruct (Marshal cc) as [raw|] eqn:Hraw; [|done].
  intros w4 res (w5 & s & HR5 & Ht & ->). apply wp_ret. intros Hcerts.
  pose proof (create_cluster w5 s id nkey jkp n b owner cc c raw res (HR _ _ HR5 Hb3) Hok Hn Hj Hm Hc Hraw Ht) as Hpost.
  exists id. split; [done|]. destruct res as [rs| |e]; [| |done]; destruct Hpost as [-> ->]; eauto.
Qed.

End Bootstrap.

(** ** Witness *)

Import CuratorExample.

Definition blankWorld : world := mkWorld (E := MemEtcd) (mkMem ∅ 0) None ∅ (mkKeys None None) false.
Definition firstNode : Node := NewNodeForBootstrap (chars "c" 32) pk1 jk1 NODE_TPM_PRESENT_AND_USED ∅.
Definition bootRun : world * result err (string * string) :=
  play (BootstrapNodeFinish Public firstNode owner DefaultClusterConfiguration) blankWorld.
Definition bootCerts : string * string := match bootRun.2 with Ok c => c | Err _ => ("", "") end.

Lemma bootRun_ok : bootRun.2 = Ok bootCerts.
Proof. vm_compute. reflexivity. Qed.

Lemma mem_ok_blank : mem_ok (es blankWorld).
Proof. split; [done|]. intros k e H. simpl in H. by rewrite lookup_empty in H. Qed.

Lemma bootRun_runs :
  runs eq blankWorld (BootstrapNodeFinish Public firstNode owner DefaultClusterConfiguration) bootRun.1 (Ok bootCerts).
Proof.
  rewrite <- bootRun_ok.
  exact (proj1 (play_runs eq (BootstrapNodeFinish Public firstNode owner DefaultClusterConfiguration) blankWorld
    (fun _ => eq_refl) mem_ok_blank)).
Qed.

Lemma BootstrapNodeFinish_correct_witness :
  exists id, ID firstNode = Some id /\ cluster_inv (state_of bootRun.1) /\
    state_of bootRun.1 = mkAbs {[id := firstNode]} {[hexEncode (jkey firstNode) := id]} (Some DefaultClusterConfiguration) /\
    exists raw, ownerOf bootRun.1 = Some raw /\ Marshal (mkOwnerMsg owner) = Some raw.
Proof.
  apply (BootstrapNodeFinish_correct Public eq (fun w1 w2 H Hb => match H with eq_refl => Hb end)
           firstNode owner DefaultClusterConfiguration blankWorld bootRun.1 bootCerts).
  - split; [vm_compute; reflexivity|reflexivity].
  - split; [split; [exact I|reflexivity|constructor|apply map_Forall_empty]|].
    split; [intros [=]|]. vm_compute. lia.
  - exact bootRun_runs.
Defined.

End CuratorBootstrap.
