(* ===== verification/Reconciler.v ===== *)
(** * The Kubernetes reconciler: releases and status

    Models [metropolis/node/kubernetes/reconciler/reconciler_status.go].  Every node that is a
    Kubernetes controller waits in [WaitReady] until the reconciler status in etcd allows its
    release; of the nodes with the latest release one is elected to [lead]: it restricts the status
    to what is compatible with it, reconciles, and publishes what it did.

    A build of the node carries its own version and the minimum releases it needs of others.
    Calls that panic (on nil pointers, and on short hashes in log messages) have the outcome [None].
    [lead] is a machine with a state between any two calls that can be interleaved with
    other nodes; the functions give the next state from the result of the call. *)

From S2P Require Import Prelude GoStrings Version EtcdPrefix Labels Etcd Interfaces Effects Pki ClusterConfig CuratorNode CuratorState.

Module Reconciler.
Import VersionSpec EtcdPrefix Etcd Interfaces CuratorNode CuratorState.

Definition statusKey : string := "/kubernetes/reconciler/status".
Definition electionPrefix : string := "/kubernetes/reconciler/leader".

(** [ppb.KubernetesReconcilerStatus]. *)
Inductive ReconcilerState := STATE_UNKNOWN | STATE_DONE | STATE_WORKING | STATE_unrecognized (n : Z).
#[export] Instance ReconcilerState_eq_dec : EqDecision ReconcilerState.
Proof. solve_decision. Defined.
#[export] Instance ReconcilerState_countable : Countable ReconcilerState.
Proof.
  refine (inj_countable'
    (fun s => match s with STATE_UNKNOWN => inl 0 | STATE_DONE => inl 1 | STATE_WORKING => inl 2 | STATE_unrecognized z => inr z end)
    (fun s => match s with inl 0 => STATE_UNKNOWN | inl 1 => STATE_DONE | inl _ => STATE_WORKING | inr z => STATE_unrecognized z end) _).
  by intros [].
Defined.
Record KubernetesReconcilerStatus := mkRStatus {
  State : ReconcilerState;
  RVersion : option SpecVersion;
  MinimumCompatibleRelease : option Version_Release
}.
#[export] Instance KubernetesReconcilerStatus_eq_dec : EqDecision KubernetesReconcilerStatus.
Proof. solve_decision. Defined.
#[export] Instance KubernetesReconcilerStatus_countable : Countable KubernetesReconcilerStatus.
Proof.
  refine (inj_countable' (fun s => (State s, RVersion s, MinimumCompatibleRelease s))
    (fun t => match t with (a, b, c) => mkRStatus a b c end) _).
  by intros [].
Defined.

(** The constants of a build: [mversion.Version] and the minimum releases. *)
Record build := mkBuild {
  Version_ : SpecVersion;
  minReconcilerRelease : Version_Release;
  minApiserverRelease : Version_Release
}.

#[export] Instance build_eq_dec : EqDecision build.
Proof. solve_decision. Defined.

(** The minimum releases of this build. *)
Definition thisBuild (v : SpecVersion) : build := mkBuild v (mkRelease 0 1 0) (mkRelease 0 1 0).

Definition local (b : build) : option Version_Release := Release_ (Version_ b).

(** [v.Release]. *)
Definition releaseOf (v : option SpecVersion) : option (option Version_Release) := v ← v; Some (Release_ v).

(** ** Waiting for the reconciler *)

(** One iteration of [WaitReady], with the versions it logs: whether it returns. *)
Definition waitCheck (b : build) (status : KubernetesReconcilerStatus) : option bool :=
  _ ← Semver (RVersion status);
  _ ← Semver (Some (Version_ b));
  below ← ReleaseLessThan (local b) (MinimumCompatibleRelease status);
  if below : bool then Some false
  else
    rel ← releaseOf (RVersion status);
    old ← ReleaseLessThan rel (Some (minReconcilerRelease b));
    Some (negb old).

Inductive waitEnd (Er : Type) := WaitReturned | WaitErr (e : Er) | WaitPanic | WaitBlocked.
Arguments WaitReturned {Er}.
Arguments WaitErr {Er} e.
Arguments WaitPanic {Er}.
Arguments WaitBlocked {Er}.

(** [gets] are the results of the calls of [Get], as far as there are any yet. *)
Fixpoint WaitReady {Er} (b : build) (gets : list (result Er KubernetesReconcilerStatus)) : waitEnd Er :=
  match gets with
  | [] => WaitBlocked
  | Err e :: _ => WaitErr e
  | Ok status :: gets =>
      match waitCheck b status with
      | None => WaitPanic
      | Some true => WaitReturned
      | Some false => WaitReady b gets
      end
  end.

(** ** The releases of the nodes *)

Record nodeReleases := mkReleases {
  minRelease : option Version_Release;
  maxRelease : option Version_Release;
  revision : Z
}.

Section watch.
Context {NC : Codec NodeMsg}.

(** The variables of [watchNodes]. *)
Record watchState := mkWatch {
  nodeToRelease : gmap string string;
  releaseCount : gmap string Z;
  releaseStruct : gmap string (option Version_Release)
}.
Definition watchEmpty : watchState := mkWatch ∅ ∅ ∅.

Definition countOf (ws : watchState) (release : string) : Z := default 0%Z (releaseCount ws !! release).

Definition subtractNode (nodeKey : string) (ws : watchState) : watchState :=
  match nodeToRelease ws !! nodeKey with
  | None => ws
  | Some prevRelease =>
      let n := (countOf ws prevRelease - 1)%Z in
      if bool_decide (n = 0%Z)
      then mkWatch (delete nodeKey (nodeToRelease ws)) (delete prevRelease (releaseCount ws)) (delete prevRelease (releaseStruct ws))
      else mkWatch (delete nodeKey (nodeToRelease ws)) (<[prevRelease := n]> (releaseCount ws)) (releaseStruct ws)
  end.

Definition addNode (nodeKey : string) (rel : option Version_Release) (ws : watchState) : watchState :=
  let release := Release rel in
  mkWatch (<[nodeKey := release]> (nodeToRelease ws))
    (<[release := (countOf ws release + 1)%Z]> (releaseCount ws))
    (if bool_decide (countOf ws release = 0%Z) then <[release := rel]> (releaseStruct ws) else releaseStruct ws).

(** What the value of a node says: a nil role message is a panic, and otherwise it is a controller
    with a version or it is skipped. *)
Definition nodeVersion (value : string) : option (option SpecVersion) :=
  if bool_decide (value = "") then Some None
  else match Unmarshal value with
  | None => Some None
  | Some node =>
      roles ← Roles node;
      Some (if KubernetesControllerMsg roles then status ← StatusMsg node; Version status else None)
  end.

Definition updateNode (kv : string * string) (ws : watchState) : option watchState :=
  let ws := subtractNode kv.1 ws in
  v ← nodeVersion kv.2;
  Some (match v with None => ws | Some v => addNode kv.1 (Release_ v) ws end).

Fixpoint updateNodes (kvs : list (string * string)) (ws : watchState) : option watchState :=
  match kvs with
  | [] => Some ws
  | kv :: kvs => ws ← updateNode kv ws; updateNodes kvs ws
  end.

(** The loop of [publish] over the releases, in the order of the iteration. *)
Fixpoint minMax (rs : list (option Version_Release)) (mn mx : option Version_Release) :
    option (option Version_Release * option Version_Release) :=
  match rs with
  | [] => Some (mn, mx)
  | release :: rs =>
      lower ← ReleaseLessThan release mn;
      higher ← ReleaseLessThan mx release;
      minMax rs (if lower : bool then release else mn) (if higher : bool then release else mx)
  end.

(** The responses of a watch: an error, or events with the revision of the header.  The value of
    a deletion is empty. *)
Record response := mkResponse {
  respErr : option string;
  respEvents : list (string * string);
  respRevision : Z
}.

Inductive watchEnd := WatchErr (e : string) | WatchPanic | WatchWaiting.

(** [order n] is the order in which the n-th iteration visits a map. *)
Context (order : nat -> list (option Version_Release) -> list (option Version_Release)).

Definition publish (b : build) (n : nat) (ws : watchState) (rev : Z) : option nodeReleases :=
  '(mn, mx) ← minMax (order n (map_to_list (releaseStruct ws)).*2) (local b) (local b);
  Some (mkReleases mn mx rev).

(** The values that are published, and how it ends. *)
Fixpoint watchLoop (b : build) (n : nat) (ws : watchState) (rs : list response) : list nodeReleases * watchEnd :=
  match rs with
  | [] => ([], WatchWaiting)
  | r :: rs =>
      match respErr r with
      | Some e => ([], WatchErr e)
      | None =>
          match updateNodes (respEvents r) ws with
          | None => ([], WatchPanic)
          | Some ws =>
              match publish b n ws (respRevision r) with
              | None => ([], WatchPanic)
              | Some v => let '(vs, e) := watchLoop b (S n) ws rs in (v :: vs, e)
              end
          end
      end
  end.

Definition watchNodes (b : build) (get : result string (list (string * string) * Z)) (rs : list response) : list nodeReleases * watchEnd :=
  match get with
  | Err e => ([], WatchErr e)
  | Ok (kvs, rev) => watchLoop b 0 watchEmpty (mkResponse None kvs rev :: rs)
  end.

End watch.

Inductive releasesEnd (Er : Type) := ReleasesErr (e : Er) | ReleasesRestart | ReleasesPanic | ReleasesBlocked.
Arguments ReleasesErr {Er} e.
Arguments ReleasesRestart {Er}.
Arguments ReleasesPanic {Er}.
Arguments ReleasesBlocked {Er}.

Definition shouldRun (b : build) (r : nodeReleases) : option bool := negb <$> ReleaseLessThan (local b) (maxRelease r).

Fixpoint releasesLoop {Er} (b : build) (running : bool) (gets : list (result Er nodeReleases)) : releasesEnd Er :=
  match gets with
  | [] => ReleasesBlocked
  | Err e :: _ => ReleasesErr e
  | Ok r :: gets =>
      match shouldRun b r with
      | None => ReleasesPanic
      | Some now => if bool_decide (now <> running) then ReleasesRestart else releasesLoop b running gets
      end
  end.

(** Whether [elect] is started, and how it ends. *)
Definition watchReleases {Er} (b : build) (gets : list (result Er nodeReleases)) : bool * releasesEnd Er :=
  match gets with
  | [] => (false, ReleasesBlocked)
  | Err e :: _ => (false, ReleasesErr e)
  | Ok r :: gets =>
      match shouldRun b r with
      | None => (false, ReleasesPanic)
      | Some run => (run, releasesLoop b run gets)
      end
  end.

(** ** Leading *)

Section lead.
Context {SC : Codec KubernetesReconcilerStatus}.

Definition doneStatus (b : build) : KubernetesReconcilerStatus :=
  mkRStatus STATE_DONE (Some (Version_ b)) (Some (minApiserverRelease b)).

Inductive leadErr := ErrGetStatus | ErrMarshalStatus | ErrUpdateStatus | ErrLostLeadership | ErrContext.

(** Where [lead] is: before the call it makes next, with the variables that are still used. *)
Inductive pc :=
| PGet
| PSetWorking (doneBytes workingBytes : string) (status : KubernetesReconcilerStatus)
| PRestrict (doneBytes restrictedBytes : string) (status : KubernetesReconcilerStatus)
| PWait (doneBytes : string) (status : KubernetesReconcilerStatus)
| PReconcile (doneBytes : string) (status : option KubernetesReconcilerStatus)
| PSetDone (doneBytes : string)
| PPeriodic
| PReturned (e : leadErr)
| PPanicked.

(** The status only allows apiservers which are compatible after reconciling. *)
Definition statusCompatible (b : build) (status : KubernetesReconcilerStatus) : option bool :=
  rel ← releaseOf (RVersion status);
  newer ← ReleaseLessThan (local b) rel;
  if newer : bool then Some false
  else negb <$> ReleaseLessThan (MinimumCompatibleRelease status) (Some (minApiserverRelease b)).

Definition setWorking (status : KubernetesReconcilerStatus) : KubernetesReconcilerStatus :=
  mkRStatus STATE_WORKING (RVersion status) (MinimumCompatibleRelease status).

(** The status that allows what both the status and this build allow. *)
Definition restrictStatus (b : build) (status : KubernetesReconcilerStatus) : option KubernetesReconcilerStatus :=
  rel ← releaseOf (RVersion status);
  older ← ReleaseLessThan rel (local b);
  lower ← ReleaseLessThan (MinimumCompatibleRelease status) (Some (minApiserverRelease b));
  Some (mkRStatus STATE_WORKING
    (if older : bool then RVersion status else Some (Version_ b))
    (if lower : bool then Some (minApiserverRelease b) else MinimumCompatibleRelease status)).

(** From a status that exists to the first call that updates it. *)
Definition withStatus (b : build) (doneBytes : string) (status : KubernetesReconcilerStatus) : pc :=
  if bool_decide (status = doneStatus b) then PWait doneBytes status
  else match statusCompatible b status with
  | None => PPanicked
  | Some true =>
      if bool_decide (State status = STATE_WORKING) then PWait doneBytes status
      else match Marshal (setWorking status) with
      | None => PReturned ErrMarshalStatus
      | Some workingBytes => PSetWorking doneBytes workingBytes (setWorking status)
      end
  | Some false =>
      match restrictStatus b status with
      | None => PPanicked
      | Some restricted =>
          match Marshal restricted with
          | None => PReturned ErrMarshalStatus
          | Some restrictedBytes => PRestrict doneBytes restrictedBytes restricted
          end
      end
  end.

(** After getting the status. *)
Definition afterGet (b : build) (resp : txnRes) : pc :=
  match resp with
  | Committed [RespRange kvs] =>
      let status := match kvs with [(_, e)] => Unmarshal (kv_value e) | _ => None end in
      match Marshal (doneStatus b) with
      | None => PReturned ErrMarshalStatus
      | Some doneBytes =>
          match status with
          | None => PReconcile doneBytes None
          | Some status => withStatus b doneBytes status
          end
      end
  | _ => PReturned ErrGetStatus
  end.

(** After a transaction that depends on the leadership only. *)
Definition afterUpdate (next : pc) (resp : txnRes) : pc :=
  match resp with
  | Committed _ => next
  | Rejected => PReturned ErrLostLeadership
  | Failed _ => PReturned ErrUpdateStatus
  end.

(** What an iteration of the loop that restricts the status does with the current releases. *)
Inductive restrictAct := RContinue | RTxn (cs : list cmp) (ops : list op) | RPanic.

Definition onReleases (b : build) (isLeaderCmp : cmp) (restrictedBytes : string) (releases : nodeReleases) : restrictAct :=
  match ReleaseLessThan (local b) (maxRelease releases) with
  | None => RPanic
  | Some true => RContinue
  | Some false =>
      match ReleaseLessThan (minRelease releases) (Some (minApiserverRelease b)) with
      | None => RPanic
      | Some true => RContinue
      | Some false =>
          RTxn [isLeaderCmp; ModRevisionRangeLess (KeyRange NodeEtcdPrefix).1 (KeyRange NodeEtcdPrefix).2 (revision releases + 1)]
            [OpPut statusKey restrictedBytes]
      end
  end.

(** After the transaction of this loop, which goes on if it was rejected. *)
Definition afterRestrict (again next : pc) (resp : txnRes) : pc :=
  match resp with
  | Committed _ => next
  | Rejected => again
  | Failed _ => PReturned ErrUpdateStatus
  end.

(** After the first successful [reconcileAll]. *)
Definition afterReconcile (b : build) (doneBytes : string) (status : option KubernetesReconcilerStatus) : pc :=
  if bool_decide (status = Some (doneStatus b)) then PPeriodic else PSetDone doneBytes.

(** The key of the campaign and the revision it was created at. *)
Record election := mkElection { electionKey : string; electionRev : Z }.
Definition isLeaderCmp (l : election) : cmp := CreateRevision (electionKey l) (electionRev l).

(** Waiting for something other than etcd, so that a canceled context is seen there. *)
Definition blocking (p : pc) : Prop :=
  match p with PRestrict _ _ _ | PWait _ _ | PReconcile _ _ | PPeriodic => True | _ => False end.

Context {E : Etcd}.

(** One step of [lead], where [got] are the values that [releasesW.Get] can return. *)
Inductive leadStep (b : build) (l : election) (got : nodeReleases -> Prop) : pc * estate -> pc * estate -> Prop :=
| LeadGet s s' resp :
    txn s [] [OpGet statusKey] s' resp ->
    leadStep b l got (PGet, s) (afterGet b resp, s')
| LeadSetWorking doneBytes workingBytes status s s' resp :
    txn s [isLeaderCmp l] [OpPut statusKey workingBytes] s' resp ->
    leadStep b l got (PSetWorking doneBytes workingBytes status, s) (afterUpdate (PWait doneBytes status) resp, s')
| LeadRestrictContinue doneBytes restrictedBytes status releases s :
    got releases -> onReleases b (isLeaderCmp l) restrictedBytes releases = RContinue ->
    leadStep b l got (PRestrict doneBytes restrictedBytes status, s) (PRestrict doneBytes restrictedBytes status, s)
| LeadRestrictPanic doneBytes restrictedBytes status releases s :
    got releases -> onReleases b (isLeaderCmp l) restrictedBytes releases = RPanic ->
    leadStep b l got (PRestrict doneBytes restrictedBytes status, s) (PPanicked, s)
| LeadRestrict doneBytes restrictedBytes status releases cs ops s s' resp :
    got releases -> onReleases b (isLeaderCmp l) restrictedBytes releases = RTxn cs ops ->
    txn s cs ops s' resp ->
    leadStep b l got (PRestrict doneBytes restrictedBytes status, s)
      (afterRestrict (PRestrict doneBytes restrictedBytes status) (PWait doneBytes status) resp, s')
| LeadWaited doneBytes status s :
    leadStep b l got (PWait doneBytes status, s) (PReconcile doneBytes (Some status), s)
| LeadReconciled doneBytes status s :
    leadStep b l got (PReconcile doneBytes status, s) (afterReconcile b doneBytes status, s)
| LeadSetDone doneBytes s s' resp :
    txn s [isLeaderCmp l] [OpPut statusKey doneBytes] s' resp ->
    leadStep b l got (PSetDone doneBytes, s) (afterUpdate PPeriodic resp, s')
| LeadCanceled p s :
    blocking p -> leadStep b l got (p, s) (PReturned ErrContext, s).

(** [reconcileAll] may be running. *)
Definition reconciling (p : pc) : Prop :=
  match p with PReconcile _ _ | PPeriodic => True | _ => False end.

End lead.

End Reconciler.
