(* ===== verification/ReconcilerWatch.v ===== *)
(** * The Kubernetes reconciler: what the nodes' releases are

    [watchNodes] counts the releases of the controllers, by their text, and updates the counts
    with every event.  Whatever the order of iteration, the value it publishes after a
    response is the lowest and the highest release of the local node and of the controllers in etcd at
    the revision of the response. *)

From S2P Require Import Prelude GoStrings Version EtcdPrefix Labels Etcd Interfaces Effects Pki ClusterConfig CuratorNode CuratorState Reconciler.

Module ReconcilerWatch.
Import VersionSpec EtcdPrefix Etcd Interfaces CuratorNode CuratorState Reconciler.

Section watch.
Context {NC : Codec NodeMsg}.

(** ** The nodes of a store *)

(** The release of a controller. *)
Definition nodeRelease (value : string) : option Version_Release :=
  v ← nodeVersion value; v ← v; Release_ v.

(** The roles are set, and the release of every version. *)
Definition valueOk (value : string) : Prop :=
  exists v, nodeVersion value = Some v /\ forall ver, v = Some ver -> exists r, Release_ ver = Some r.

Definition releasesOf (m : gmap string string) : gmap string Version_Release := omap nodeRelease m.

Definition applyEvents (m : gmap string string) (evs : list (string * string)) : gmap string string :=
  foldl (fun m e => <[e.1 := e.2]> m) m evs.

(** ** Counting *)

Definition cnt (g : gmap string Version_Release) (r : Version_Release) : nat := size (filter (fun kv => kv.2 = r) g).

Lemma cnt_insert g k r r' : g !! k = None -> cnt (<[k := r]> g) r' = (if decide (r = r') then 1 else 0) + cnt g r'.
Proof.
  intros Hk. unfold cnt. case_decide as E.
  - rewrite map_filter_insert_True by done. rewrite map_size_insert_None; [done|].
    apply map_lookup_filter_None. by left.
  - rewrite map_filter_insert_False by done. by rewrite delete_id.
Qed.

Lemma cnt_delete g k r r' : g !! k = Some r -> cnt g r' = (if decide (r = r') then 1 else 0) + cnt (delete k g) r'.
Proof.
  intros Hk. rewrite <- (insert_delete_id g k r) at 1 by done. apply cnt_insert. by rewrite lookup_delete_eq.
Qed.

Lemma cnt_pos g r : 0 < cnt g r <-> exists k, g !! k = Some r.
Proof.
  unfold cnt. split.
  - intros H. assert (filter (fun kv => kv.2 = r) g <> ∅) as Hne.
    { intros E. rewrite E, map_size_empty in H. lia. }
    apply map_choose in Hne as (k & r' & (Hk & Hr)%map_lookup_filter_Some). cbn in Hr. subst. by exists k.
  - intros [k Hk]. enough (size (filter (fun kv => kv.2 = r) g) <> 0) by lia.
    intros E%map_size_empty_inv. apply (f_equal (fun m => m !! k)) in E.
    rewrite lookup_empty in E. apply map_lookup_filter_None in E as [E|E]; [congruence|]. by apply (E r).
Qed.

(** A map with the texts of releases as keys. *)
Definition indexed {A} (M : gmap string A) (P : Version_Release -> A -> Prop) : Prop :=
  forall s z, M !! s = Some z <-> exists r, s = Release (Some r) /\ P r z.

Lemma indexed_iff {A} (M : gmap string A) P Q : (forall r z, P r z <-> Q r z) -> indexed M P -> indexed M Q.
Proof. intros HPQ HM s z. rewrite (HM s z). by setoid_rewrite HPQ. Qed.

Lemma indexed_delete {A} (M : gmap string A) P r :
  indexed M P -> indexed (delete (Release (Some r)) M) (fun r' z => r' <> r /\ P r' z).
Proof.
  intros HM s z. rewrite lookup_delete_Some, (HM s z). split.
  - intros [Hs (r' & -> & HP)]. exists r'. split_and!; [done| |done]. intros ->. done.
  - intros (r' & -> & Hr & HP). split; [|by exists r']. intros E%Release_inj. done.
Qed.

Lemma indexed_insert {A} (M : gmap string A) P r z0 :
  indexed M P -> indexed (<[Release (Some r) := z0]> M) (fun r' z => r' = r /\ z = z0 \/ r' <> r /\ P r' z).
Proof.
  intros HM s z. rewrite lookup_insert_Some, (HM s z). split.
  - intros [[<- <-]|[Hs (r' & -> & HP)]]; [exists r; naive_solver|]. exists r'. split; [done|]. right. split; [|done]. intros ->. done.
  - intros (r' & -> & [[-> ->]|[Hr HP]]); [by left|]. right. split; [|by exists r']. intros E%Release_inj. done.
Qed.

(** The variables of [watchNodes] for the controllers' releases [g]. *)
Record counts (ws : watchState) (g : gmap string Version_Release) : Prop := {
  counts_nodes : forall k, nodeToRelease ws !! k = (fun r => Release (Some r)) <$> g !! k;
  counts_count : indexed (releaseCount ws) (fun r z => z = Z.of_nat (cnt g r) /\ 0 < cnt g r);
  counts_struct : indexed (releaseStruct ws) (fun r o => o = Some r /\ 0 < cnt g r)
}.

Lemma counts_empty : counts watchEmpty ∅.
Proof.
  assert (forall r, cnt ∅ r = 0) as Hc.
  { intros r. unfold cnt. by rewrite map_filter_empty, map_size_empty. }
  split; [done|intros s z|intros s o]; cbn [releaseCount releaseStruct watchEmpty]; rewrite lookup_empty;
    (split; [done|]); intros (r & _ & _ & H); rewrite Hc in H; lia.
Qed.

Lemma countOf_counts ws g r : counts ws g -> countOf ws (Release (Some r)) = Z.of_nat (cnt g r).
Proof.
  intros [_ Hc _]. unfold countOf. destruct (releaseCount ws !! _) as [z|] eqn:E; cbn.
  - apply Hc in E as (r' & E & -> & _). by apply Release_inj in E as ->.
  - destruct (cnt g r) eqn:En; [done|]. exfalso.
    assert (releaseCount ws !! Release (Some r) = Some (Z.of_nat (cnt g r))) as E2; [|congruence].
    apply Hc. exists r. split_and!; [done..|lia].
Qed.

Lemma counts_subtract ws g k : counts ws g -> counts (subtractNode k ws) (delete k g).
Proof.
  intros H. unfold subtractNode. rewrite (counts_nodes _ _ H). destruct (g !! k) as [r|] eqn:Hk; cbn.
  2:{ by rewrite delete_id. }
  pose proof (cnt_delete g k r) as Hd. specialize (fun r' => Hd r' Hk).
  rewrite (countOf_counts _ _ _ H).
  assert (forall k', delete k (nodeToRelease ws) !! k' = (fun r => Release (Some r)) <$> delete k g !! k') as Hn.
  { intros k'. rewrite !lookup_delete. case_decide; [done|]. apply H. }
  pose proof (Hd r) as Hr. rewrite decide_True in Hr by done.
  case_bool_decide as E; (split; [done|..]); cbn [releaseCount releaseStruct].
  - eapply indexed_iff; [|apply indexed_delete, H]. intros r' z. cbn. rewrite (Hd r'). case_decide as Er; [subst r'|naive_solver].
    split; [by intros [? _]|intros [_ ?]; lia].
  - eapply indexed_iff; [|apply indexed_delete, H]. intros r' z. cbn. rewrite (Hd r'). case_decide as Er; [subst r'|naive_solver].
    split; [by intros [? _]|intros [_ ?]; lia].
  - eapply indexed_iff; [|apply indexed_insert, H]. intros r' z. cbn. rewrite (Hd r'). case_decide as Er; [subst r'|naive_solver].
    rewrite Hr. split; [intros [[_ ->]|[? _]]; [lia|done]|]. intros [-> ?]. left. split; [done|lia].
  - eapply indexed_iff; [|apply H]. intros r' z. cbn. rewrite (Hd r'). case_decide as Er; [subst r'|done].
    split; (intros [-> ?]; split; [done|lia]).
Qed.

Lemma counts_add ws g k r : counts ws g -> g !! k = None -> counts (addNode k (Some r) ws) (<[k := r]> g).
Proof.
  intros H Hk. unfold addNode. rewrite (countOf_counts _ _ _ H).
  pose proof (fun r' => cnt_insert g k r r' Hk) as Hd.
  split; cbn [nodeToRelease releaseCount releaseStruct].
  - intros k'. rewrite !lookup_insert. case_decide; [done|]. apply H.
  - eapply indexed_iff; [|apply indexed_insert, H]. intros r' z. cbn. rewrite (Hd r'). case_decide as Er; [subst r'|naive_solver].
    split; [intros [[_ ->]|[? _]]; [lia|done]|]. intros [-> ?]. left. split; [done|lia].
  - case_bool_decide as E.
    + eapply indexed_iff; [|apply indexed_insert, H]. intros r' z. cbn. rewrite (Hd r'). case_decide as Er; [subst r'|naive_solver].
      split; [intros [[_ ->]|[? _]]; [split; [done|lia]|done]|]. intros [-> ?]. by left.
    + eapply indexed_iff; [|apply H]. intros r' z. cbn. rewrite (Hd r'). case_decide as Er; [subst r'|done].
      split; (intros [-> ?]; split; [done|lia]).
Qed.

(** ** Events *)

Lemma releasesOf_insert m k v : releasesOf (<[k := v]> m) = match nodeRelease v with Some r => <[k := r]> (delete k (releasesOf m)) | None => delete k (releasesOf m) end.
Proof.
  unfold releasesOf. destruct (nodeRelease v) as [r|] eqn:E.
  - rewrite insert_delete_eq. by apply omap_insert_Some.
  - by apply omap_insert_None.
Qed.

Lemma updateNode_counts ws m e :
  counts ws (releasesOf m) -> valueOk e.2 ->
  exists ws', updateNode e ws = Some ws' /\ counts ws' (releasesOf (<[e.1 := e.2]> m)).
Proof.
  intros H (v & Hv & Hok). rewrite releasesOf_insert. unfold updateNode, nodeRelease. rewrite Hv. cbn.
  apply (counts_subtract _ _ e.1) in H. destruct v as [ver|]; cbn; [|eauto].
  destruct (Hok ver eq_refl) as [r Hr]. rewrite Hr. eexists. split; [done|].
  apply counts_add; [done|]. by rewrite lookup_delete_eq.
Qed.

Lemma updateNodes_counts evs ws m :
  counts ws (releasesOf m) -> Forall (fun e => valueOk e.2) evs ->
  exists ws', updateNodes evs ws = Some ws' /\ counts ws' (releasesOf (applyEvents m evs)).
Proof.
  intros H Hok. revert ws m H. induction Hok as [|e evs He _ IH]; intros ws m H; [by exists ws|].
  destruct (updateNode_counts ws m e H He) as (ws1 & E1 & H1). cbn [updateNodes]. rewrite E1. cbn.
  by apply (IH ws1 (<[e.1 := e.2]> m)).
Qed.

(** ** Publishing *)

(** The releases of the local node and of the controllers are between these, and both occur. *)
Definition summary (r0 : Version_Release) (g : gmap string Version_Release) (v : nodeReleases) : Prop :=
  exists mn mx,
    minRelease v = Some mn /\ maxRelease v = Some mx /\
    (mn = r0 \/ exists k, g !! k = Some mn) /\ (mx = r0 \/ exists k, g !! k = Some mx) /\
    rle mn r0 /\ rle r0 mx /\ forall k r, g !! k = Some r -> rle mn r /\ rle r mx.

Lemma minMax_spec rs a b :
  exists mn mx, minMax (Some <$> rs) (Some a) (Some b) = Some (Some mn, Some mx) /\
    mn ∈ a :: rs /\ mx ∈ b :: rs /\ Forall (rle mn) (a :: rs) /\ Forall (fun r => rle r mx) (b :: rs).
Proof.
  revert a b. induction rs as [|r rs IH]; intros a b.
  { exists a, b. cbn. split_and!; [done|by left|by left|by repeat constructor|by repeat constructor]. }
  destruct (IH (rmin r a) (rmax b r)) as (mn & mx & E & Hmn & Hmx & Fmn & Fmx).
  exists mn, mx. split; [|clear E IH].
  { rewrite <- E. cbn. f_equal; unfold rmin, rmax; by destruct (releaseLess _ _). }
  apply Forall_cons in Fmn as [Fa Fmn], Fmx as [Fb Fmx]. apply rmin_glb in Fa as [? ?]. apply rmax_lub in Fb as [? ?].
  split_and!; [| |by repeat constructor..].
  - apply elem_of_cons in Hmn as [->|?]; [|by do 2 right]. unfold rmin. destruct (releaseLess r a); [right|]; by left.
  - apply elem_of_cons in Hmx as [->|?]; [|by do 2 right]. unfold rmax. destruct (releaseLess b r); [right|]; by left.
Qed.

Lemma struct_values ws g l :
  counts ws g -> l ≡ₚ (map_to_list (releaseStruct ws)).*2 ->
  exists rs, l = Some <$> rs /\ forall r, r ∈ rs <-> exists k, g !! k = Some r.
Proof.
  intros H Hl.
  assert (forall o, o ∈ l <-> exists r, o = Some r /\ exists k, g !! k = Some r) as Hin.
  { intros o. rewrite Hl, list_elem_of_fmap. split.
    - intros ([s o'] & -> & (r & _ & -> & Hp)%elem_of_map_to_list%(counts_struct _ _ H)). exists r. by apply cnt_pos in Hp.
    - intros (r & -> & Hp%cnt_pos). exists (Release (Some r), Some r). split; [done|].
      apply elem_of_map_to_list, (counts_struct _ _ H). by exists r. }
  clear Hl. assert (exists rs, l = Some <$> rs) as [rs ->].
  { assert (Forall (fun o => is_Some o) l) as F.
    { apply Forall_forall. intros o (r & -> & _)%Hin. by exists r. }
    clear Hin. induction F as [|o l [r ->] _ [rs ->]]; [by exists []|by exists (r :: rs)]. }
  exists rs. split; [done|]. intros r. rewrite <- (list_elem_of_fmap_inj Some). rewrite Hin. naive_solver.
Qed.

Context (order : nat -> list (option Version_Release) -> list (option Version_Release)).
Context (order_perm : forall n l, order n l ≡ₚ l).
Context (b : build) (r0 : Version_Release) (b_release : local b = Some r0).

Lemma publish_spec n ws g rev :
  counts ws g -> exists v, publish order b n ws rev = Some v /\ revision v = rev /\ summary r0 g v.
Proof using order_perm b_release.
  intros H. unfold publish. destruct (struct_values ws g (order n (map_to_list (releaseStruct ws)).*2) H) as (rs & -> & Hrs); [apply order_perm|].
  rewrite b_release. destruct (minMax_spec rs r0 r0) as (mn & mx & -> & Hmn & Hmx & Fmn & Fmx). cbn.
  eexists. split_and!; [done..|]. apply Forall_cons in Fmn as [? Fmn], Fmx as [? Fmx].
  rewrite Forall_forall in Fmn, Fmx. exists mn, mx. split_and!; [done..| | |done|done|].
  - apply elem_of_cons in Hmn as [->|?]; [by left|]. right. by apply Hrs.
  - apply elem_of_cons in Hmx as [->|?]; [by left|]. right. by apply Hrs.
  - intros k r Hk. assert (r ∈ rs) by (apply Hrs; eauto). auto.
Qed.

(** The revisions of the responses, each with the nodes after its events. *)
Fixpoint snapshots (m : gmap string string) (rs : list response) : list (Z * gmap string string) :=
  match rs with
  | [] => []
  | r :: rs => let m := applyEvents m (respEvents r) in (respRevision r, m) :: snapshots m rs
  end.

Definition summarises (sn : Z * gmap string string) (v : nodeReleases) : Prop :=
  revision v = sn.1 /\ summary r0 (releasesOf sn.2) v.

Definition eventsOk (rs : list response) : Prop := Forall (fun r => Forall (fun e => valueOk e.2) (respEvents r)) rs.

Lemma watchLoop_spec rs n ws m :
  counts ws (releasesOf m) -> eventsOk rs ->
  exists vs e, watchLoop order b n ws rs = (vs, e) /\ Forall2 summarises (take (length vs) (snapshots m rs)) vs /\
    (Forall (fun r => respErr r = None) rs -> length vs = length rs /\ e = WatchWaiting) /\ e <> WatchPanic.
Proof using order_perm b_release.
  intros H Hok. revert n ws m H. induction Hok as [|r rs Hr _ IH]; intros n ws m H.
  { exists [], WatchWaiting. by split_and!. }
  cbn [watchLoop]. destruct (respErr r) as [er|] eqn:Er.
  { exists [], (WatchErr er). split_and!; [done|constructor| |done]. intros [? _]%Forall_cons. congruence. }
  destruct (updateNodes_counts _ ws m H Hr) as (ws' & -> & H').
  destruct (publish_spec n ws' _ (respRevision r) H') as (v & -> & Hrev & Hsum).
  destruct (IH (S n) ws' _ H') as (vs & e & -> & HF & Hall & He).
  exists (v :: vs), e. split_and!; [done| | |done].
  - cbn. constructor; [done|apply HF].
  - intros [_ Hn]%Forall_cons. destruct (Hall Hn) as [? ->]. cbn. split; [lia|done].
Qed.


(** A version without a release counts as 0.0.0 when it is printed, and as a panic when it is compared. *)
Lemma nil_release_panics key value ver rev rs :
  nodeVersion value = Some (Some ver) -> Release_ ver = None ->
  watchNodes order b (Ok ([(key, value)], rev)) rs = ([], WatchPanic).
Proof using order_perm.
  intros Hv Hr. cbn [watchNodes watchLoop respErr respEvents]. unfold updateNodes, updateNode. cbn. rewrite Hv. cbn. rewrite Hr.
  assert (subtractNode key watchEmpty = watchEmpty) as -> by done.
  assert (publish order b 0 (addNode key None watchEmpty) rev = None) as ->; [|done].
  unfold publish. cbn. rewrite bool_decide_true, insert_empty, map_to_list_singleton by done. cbn.
  assert (order 0 [None] = [None]) as ->; [|done]. apply Permutation_singleton_r, order_perm.
Qed.

End watch.

End ReconcilerWatch.
