(* ===== verification/ReconcilerSystem.v ===== *)
(** * The Kubernetes reconciler: the cluster

    All reconcilers and all apiservers of a cluster around one etcd.  Reconcilers are elected
    and lose their leadership at any time, other transactions run between any two of their calls,
    watches lag behind, and nodes of different releases come and go.  No apiserver serves that
    is incompatible with the reconciler that is running.

    An apiserver is registered if the entry of its node in etcd says that it is a controller and what
    its release is.  With [ordered], nodes are registered from before they wait for the
    reconciler until they stop; without, they need not be. *)

From S2P Require Import Prelude GoStrings Version EtcdPrefix Labels Etcd Interfaces Effects Pki ClusterConfig CuratorNode CuratorState CuratorExample Reconciler ReconcilerWatch.

Module ReconcilerSystem.
Import VersionSpec EtcdPrefix Etcd Interfaces CuratorNode CuratorState Reconciler ReconcilerWatch.

(** ** Keys *)

Definition isNodeKey (k : string) : bool := in_range (KeyRange NodeEtcdPrefix).1 (KeyRange NodeEtcdPrefix).2 k.
Definition isElectionKey (k : string) : bool := HasPrefix k (electionPrefix +:+ "/").

Lemma status_not_node : isNodeKey statusKey = false.
Proof. done. Qed.
Lemma status_not_election : isElectionKey statusKey = false.
Proof. done. Qed.
Lemma election_not_node k : isElectionKey k = true -> isNodeKey k = false.
Proof.
  intros H. apply not_true_iff_false. intros [r2 E2]%KeyRange_exact%HasPrefix_iff.
  apply HasPrefix_iff in H as [r1 E1]. subst k. done.
Qed.

Section system.
Context {E : Etcd} {ER : EtcdRevision} {NC : Codec NodeMsg} {SC : Codec KubernetesReconcilerStatus}.
Context (ordered : bool).

(** ** The system *)

Inductive apiserver :=
| Waiting (b : build) (seen : option KubernetesReconcilerStatus)
| Serving (b : build).
Definition apiBuild (a : apiserver) : build := match a with Waiting b _ | Serving b => b end.

Record leader := mkLeader { leadBuild : build; leadElection : election; leadPc : pc }.

(** [history] has all the states of etcd so far; apiservers are named by the keys of their nodes. *)
Record world := mkWorld {
  store : estate;
  history : list estate;
  leaders : gmap nat leader;
  apiservers : gmap string apiserver
}.

Definition setStore (s : estate) (w : world) : world := mkWorld s (s :: history w) (leaders w) (apiservers w).
Definition setLeader (i : nat) (l : leader) (w : world) : world := mkWorld (store w) (history w) (<[i := l]> (leaders w)) (apiservers w).
Definition setApi (k : string) (o : option apiserver) (w : world) : world :=
  mkWorld (store w) (history w) (leaders w) (partial_alter (fun _ => o) k (apiservers w)).

(** The releases of a build are set, and its minimum releases are not above its own. *)
Definition buildOk (b : build) : Prop :=
  exists r, local b = Some r /\ rle (minReconcilerRelease b) r /\ rle (minApiserverRelease b) r.

Definition statusAt (s : estate) : option KubernetesReconcilerStatus := content s !! statusKey ≫= fun e => Unmarshal (kv_value e).

Definition registered (s : estate) (k : string) (b : build) : Prop :=
  isNodeKey k = true /\ exists e, content s !! k = Some e /\ nodeRelease (kv_value e) = local b.

(** [m] has the values of the nodes in [s]; the value of a node that does not exist is empty. *)
Definition sameNodes (m : gmap string string) (s : estate) : Prop :=
  forall k, default "" (m !! k) = if isNodeKey k then default "" (kv_value <$> content s !! k) else "".

(** The responses of a watch: the events up to a response give the nodes at its revision, and each has
    a value that the key has had, or was a deletion. *)
Fixpoint faithful (h : list estate) (m : gmap string string) (rs : list response) : Prop :=
  match rs with
  | [] => True
  | r :: rs =>
      let m := applyEvents m (respEvents r) in
      (exists s, s ∈ h /\ storeRevision s = respRevision r /\ sameNodes m s) /\
      Forall (fun e => e.2 = "" \/ exists s, s ∈ h /\ isNodeKey e.1 = true /\ kv_value <$> content s !! e.1 = Some e.2) (respEvents r) /\
      faithful h m rs
  end.

(** A value that the [watchNodes] of a node has published. *)
Definition published (b : build) (h : list estate) (v : nodeReleases) : Prop :=
  exists order kvs rev rs,
    (forall n l, order n l ≡ₚ l) /\ faithful h ∅ (mkResponse None kvs rev :: rs) /\
    v ∈ (watchNodes order b (Ok (kvs, rev)) rs).1.

(** Campaigning ends when all keys of the election with an earlier revision are gone. *)
Definition elected (s : estate) (l : election) : Prop :=
  isElectionKey (electionKey l) = true /\ (0 < electionRev l <= storeRevision s)%Z /\
  forall k e, content s !! k = Some e -> isElectionKey k = true ->
    (electionRev l <= kv_create e)%Z /\ (kv_create e = electionRev l -> k = electionKey l).

(** What others write: nodes with their roles and releases, and keys that do not concern the reconciler.
    Election keys are put and deleted with the sessions. *)
Definition envOp (w : world) (o : op) : Prop :=
  match o with
  | OpPut k v =>
      k <> statusKey /\
      (isNodeKey k = true -> valueOk v /\ (ordered = true -> forall a, apiservers w !! k = Some a -> nodeRelease v = local (apiBuild a)))
  | OpDelete k =>
      k <> statusKey /\ (isNodeKey k = true -> ordered = true -> apiservers w !! k = None)
  | _ => True
  end.

Inductive step (w : world) : world -> Prop :=
| StepEnv cs ops s' resp :
    Forall (envOp w) ops -> txn (store w) cs ops s' resp -> step w (setStore s' w)
| StepElected i b l :
    leaders w !! i = None -> buildOk b -> elected (store w) l ->
    (forall j l', leaders w !! j = Some l' -> leadElection l' <> l) ->
    step w (setLeader i (mkLeader b l PGet) w)
| StepLead i l p' s' :
    leaders w !! i = Some l ->
    leadStep (leadBuild l) (leadElection l) (published (leadBuild l) (history w)) (leadPc l, store w) (p', s') ->
    step w (setLeader i (mkLeader (leadBuild l) (leadElection l) p') (setStore s' w))
| StepBoot k b :
    apiservers w !! k = None -> buildOk b -> (ordered = true -> registered (store w) k b) ->
    step w (setApi k (Some (Waiting b None)) w)
| StepObserve k b seen status :
    apiservers w !! k = Some (Waiting b seen) -> statusAt (store w) = Some status ->
    step w (setApi k (Some (Waiting b (Some status))) w)
| StepReady k b status :
    apiservers w !! k = Some (Waiting b (Some status)) -> waitCheck b status = Some true ->
    step w (setApi k (Some (Serving b)) w)
| StepStop k :
    step w (setApi k None w).

(** At first there is no status. *)
Definition initial (w : world) : Prop :=
  storeValid (store w) /\ content (store w) !! statusKey = None /\ history w = [store w] /\
  leaders w = ∅ /\ apiservers w = ∅ /\
  forall k e, content (store w) !! k = Some e -> isNodeKey k = true -> valueOk (kv_value e).

Definition reachable (w : world) : Prop := exists w0, initial w0 /\ rtc step w0 w.

(** The leader still holds its key. *)
Definition live (s : estate) (l : leader) : Prop := cmp_holds (content s) (isLeaderCmp (leadElection l)) = true.

(** The apiserver of build [a] may serve while a reconciler of build [b] runs. *)
Definition compatibleBuilds (a b : build) : Prop :=
  exists ra rb, local a = Some ra /\ local b = Some rb /\ rle (minApiserverRelease b) ra /\ rle (minReconcilerRelease a) rb.

(** ** What the status allows *)

Definition statusIs (st : KubernetesReconcilerStatus) (r m : Version_Release) : Prop :=
  exists v, RVersion st = Some v /\ Release_ v = Some r /\ MinimumCompatibleRelease st = Some m.

Definition compat (a : build) (st : KubernetesReconcilerStatus) : Prop :=
  exists ra r m, local a = Some ra /\ statusIs st r m /\ rle m ra /\ rle (minReconcilerRelease a) r.

(** Only apiservers that are compatible with build [b] are allowed. *)
Definition restrictive (st : KubernetesReconcilerStatus) (b : build) : Prop :=
  exists r m rb, statusIs st r m /\ local b = Some rb /\ rle r rb /\ rle (minApiserverRelease b) m.

Lemma statusIs_fun st r m r' m' : statusIs st r m -> statusIs st r' m' -> r' = r /\ m' = m.
Proof. intros (v & H1 & H2 & H3) (v' & H1' & H2' & H3'). split; congruence. Qed.

Lemma waitCheck_compat b st : waitCheck b st = Some true -> compat b st.
Proof.
  unfold waitCheck. destruct (Semver (RVersion st)); [cbn -[Semver local]|done].
  destruct (Semver (Some (Version_ b))); [cbn -[local]|done].
  unfold compat. destruct (local b) as [ra|]; [cbn|done]. destruct (MinimumCompatibleRelease st) as [m|] eqn:Em; [cbn|done].
  destruct (releaseLess ra m) eqn:E1; [done|]. destruct (RVersion st) as [v|] eqn:Ev; [cbn|done].
  destruct (Release_ v) as [r|] eqn:Er; [cbn|done]. intros [= E2]. apply negb_true_iff in E2.
  exists ra, r, m. split_and!; [done| |done..]. by exists v.
Qed.

Lemma compat_done a b : compat a (doneStatus b) <-> compatibleBuilds a b.
Proof.
  split.
  - intros (ra & r & m & Ha & (v & Hv & Hr & Hm) & H1 & H2). cbn in Hv, Hm. simplify_eq. exists ra, r. done.
  - intros (ra & rb & Ha & Hb & H1 & H2). exists ra, rb, (minApiserverRelease b). split_and!; [done| |done..]. by exists (Version_ b).
Qed.

Lemma restrictive_compat st a b : restrictive st b -> compat a st -> compatibleBuilds a b.
Proof.
  intros (r & m & rb & Hst & Hb & Hr & Hm) (ra & r' & m' & Ha & Hst' & H1 & H2).
  destruct (statusIs_fun _ _ _ _ _ Hst Hst') as [-> ->]. exists ra, rb. split_and!; [done..|by etrans|by etrans].
Qed.

Lemma restrictive_done b : buildOk b -> restrictive (doneStatus b) b.
Proof. intros (rb & Hb & _ & _). exists rb, (minApiserverRelease b), rb. split_and!; [|done..]. by exists (Version_ b). Qed.

Lemma compatible_restrictive b st r m : buildOk b -> statusIs st r m -> statusCompatible b st = Some true -> restrictive st b.
Proof.
  intros (rb & Hb & _ & _) Hst. pose proof Hst as (v & Hv & Hr & Hm).
  unfold statusCompatible. rewrite Hv, Hm, Hb. cbn. rewrite Hr. cbn.
  destruct (releaseLess rb r) eqn:E1; [done|]. intros [= E2]. apply negb_true_iff in E2. by exists r, m, rb.
Qed.

Lemma restrict_statusIs b st r m rb st' :
  local b = Some rb -> statusIs st r m -> restrictStatus b st = Some st' -> statusIs st' (rmin r rb) (rmax m (minApiserverRelease b)).
Proof.
  intros Hb (v & Hv & Hr & Hm). unfold restrictStatus. rewrite Hv, Hm. cbn. rewrite Hr, Hb. cbn. intros [= <-].
  unfold rmin, rmax. destruct (releaseLess r rb), (releaseLess m _); [exists v|exists v|exists (Version_ b)..]; done.
Qed.

(** The status that is written by a leader that restricts it. *)
Lemma restrict_compat b st st' r m rb a ra :
  local b = Some rb -> statusIs st r m -> restrictStatus b st = Some st' ->
  buildOk a -> local a = Some ra -> rle (minApiserverRelease b) ra -> rle ra rb -> compat a st -> compat a st'.
Proof.
  intros Hb Hst Hr (ra' & Ha & Hrec & _) Ha' Hmin Hmax (ra2 & r2 & m2 & Ha2 & Hst2 & H1 & H2).
  assert (ra' = ra) as -> by congruence. assert (ra2 = ra) as -> by congruence.
  destruct (statusIs_fun _ _ _ _ _ Hst Hst2) as [-> ->].
  exists ra, (rmin r rb), (rmax m (minApiserverRelease b)). split_and!; [done|by eapply restrict_statusIs| |].
  - by apply rmax_lub.
  - apply rmin_glb. split; [done|by trans ra].
Qed.

Lemma restrict_restrictive b st st' r m :
  buildOk b -> statusIs st r m -> restrictStatus b st = Some st' -> restrictive st' b.
Proof.
  intros (rb & Hb & _ & _) Hst Hr. exists (rmin r rb), (rmax m (minApiserverRelease b)), rb.
  split_and!; [by eapply restrict_statusIs|done| |].
  - by apply (rmin_glb r rb (rmin r rb)).
  - by apply (rmax_lub m (minApiserverRelease b) (rmax m (minApiserverRelease b))).
Qed.

(** ** Published releases *)

Definition nodesOk (s : estate) : Prop := forall k e, content s !! k = Some e -> isNodeKey k = true -> valueOk (kv_value e).

Lemma valueOk_empty : valueOk "".
Proof. exists None. done. Qed.

Lemma faithful_eventsOk h m rs : (forall s, s ∈ h -> nodesOk s) -> faithful h m rs -> eventsOk rs.
Proof.
  intros Hh. revert m. induction rs as [|r rs IH]; intros m; [constructor|]. cbn. intros (_ & He & Hf).
  constructor; [|by eapply IH]. eapply Forall_impl; [done|]. cbn. intros [k v]. cbn. intros [->|(s & Hs & Hk & Hv)]; [apply valueOk_empty|].
  apply fmap_Some in Hv as (e & Hv & ->). by eapply Hh.
Qed.

Lemma faithful_snapshots h m rs sn :
  faithful h m rs -> sn ∈ snapshots m rs -> exists s, s ∈ h /\ storeRevision s = sn.1 /\ sameNodes sn.2 s.
Proof.
  revert m. induction rs as [|r rs IH]; intros m; cbn; [by intros _ ?%not_elem_of_nil|].
  intros (H1 & _ & Hf) [->|Hin]%elem_of_cons; [done|by eapply IH].
Qed.

(** The releases of the controllers at the revision of a published value are within its bounds. *)
Lemma published_bounds b h v rb :
  (forall s, s ∈ h -> nodesOk s) -> local b = Some rb -> published b h v ->
  exists s mn mx, s ∈ h /\ storeRevision s = revision v /\ minRelease v = Some mn /\ maxRelease v = Some mx /\
    forall k e r, isNodeKey k = true -> content s !! k = Some e -> nodeRelease (kv_value e) = Some r -> rle mn r /\ rle r mx.
Proof.
  intros Hh Hb (order & kvs & rev & rs & Ho & Hf & Hv).
  pose proof (faithful_eventsOk _ _ _ Hh Hf) as Hok.
  destruct (watchLoop_spec order Ho b rb Hb _ 0 watchEmpty ∅ ltac:(unfold releasesOf; rewrite omap_empty; apply counts_empty) Hok)
    as (vs & e & Hw & HF & _).
  unfold watchNodes in Hv. rewrite Hw in Hv. destruct (Forall2_elem_r _ _ _ _ HF Hv) as (sn & Hsn & Hrev & mn & mx & Hmn & Hmx & _ & _ & _ & _ & Hall).
  assert (sn ∈ snapshots ∅ (mkResponse None kvs rev :: rs)) as Hin.
  { rewrite <- (take_drop (length vs)). apply elem_of_app. by left. }
  destruct (faithful_snapshots _ _ _ _ Hf Hin) as (s & Hs & Hsr & Hsame).
  exists s, mn, mx. split_and!; [done|congruence|done..|]. intros k e0 r Hk He Hr. apply (Hall k).
  specialize (Hsame k). rewrite Hk, He in Hsame. cbn in Hsame. unfold releasesOf. rewrite lookup_omap.
  destruct (sn.2 !! k) as [x|]; cbn in *; [by rewrite Hsame|]. by rewrite <- Hsame in Hr.
Qed.

(** ** Leadership *)

Lemma live_iff s l : (0 < electionRev (leadElection l))%Z ->
  live s l <-> kv_create <$> content s !! electionKey (leadElection l) = Some (electionRev (leadElection l)).
Proof.
  intros Hp. unfold live, isLeaderCmp, cmp_holds, rev_matches. destruct (content s !! _) as [e|]; cbn.
  - rewrite andb_true_iff, !bool_decide_eq_true. split; [by intros [-> _]|]. intros [= ->]. split; [done|lia].
  - rewrite bool_decide_eq_true. split; [lia|done].
Qed.

Lemma live_back s s' l : later s s' -> elected s (leadElection l) -> live s' l -> live s l.
Proof.
  intros Hl (_ & [Hp Hr] & _). rewrite !live_iff by done.
  intros (e & He & Hc)%fmap_Some. rewrite Hc in Hr |- *. by apply (later_create _ _ Hl).
Qed.

Lemma elected_later s s' l : later s s' -> elected s l -> elected s' l.
Proof.
  intros Hl (Hk & [Hp Hr] & Hall). split_and!; [done..| |].
  { pose proof (later_rev _ _ Hl). lia. }
  intros k e He Hek. destruct (Z.le_gt_cases (kv_create e) (storeRevision s)) as [Hle|Hgt]; [|lia].
  pose proof (later_create _ _ Hl k e He Hle) as (e0 & He0 & Hc)%fmap_Some. rewrite Hc. by apply Hall.
Qed.

Lemma live_unique s l1 l2 :
  elected s (leadElection l1) -> elected s (leadElection l2) -> live s l1 -> live s l2 -> leadElection l1 = leadElection l2.
Proof.
  intros (Hk1 & [Hp1 _] & Hall1) (Hk2 & [Hp2 _] & Hall2). rewrite !live_iff by done.
  intros (e1 & He1 & Hr1)%fmap_Some (e2 & He2 & Hr2)%fmap_Some.
  destruct (Hall1 _ _ He2 Hk2) as [Hle1 Heq1]. destruct (Hall2 _ _ He1 Hk1) as [Hle2 _].
  destruct (leadElection l1), (leadElection l2). cbn in *. f_equal; [symmetry; apply Heq1|]; lia.
Qed.

(** ** What a leader knows *)

(** What the state of a live leader says about the current status. *)
Definition view (b : build) (cur : option KubernetesReconcilerStatus) (p : pc) : Prop :=
  match p with
  | PGet | PReturned _ | PPanicked => True
  | PSetWorking doneBytes bytes st' =>
      Marshal (doneStatus b) = Some doneBytes /\ Marshal st' = Some bytes /\
      exists st, cur = Some st /\ st' = setWorking st /\ restrictive st b
  | PRestrict doneBytes bytes st' =>
      Marshal (doneStatus b) = Some doneBytes /\ Marshal st' = Some bytes /\
      exists st, cur = Some st /\ restrictStatus b st = Some st'
  | PWait doneBytes st => Marshal (doneStatus b) = Some doneBytes /\ cur = Some st /\ restrictive st b
  | PReconcile doneBytes o =>
      Marshal (doneStatus b) = Some doneBytes /\ cur = o /\ forall st, o = Some st -> restrictive st b
  | PSetDone doneBytes => Marshal (doneStatus b) = Some doneBytes /\ forall st, cur = Some st -> restrictive st b
  | PPeriodic => exists st, cur = Some st /\ restrictive st b
  end.

(** A status that is there can be read, and has its releases. *)
Definition statusOk (s : estate) : Prop :=
  forall e, content s !! statusKey = Some e -> exists st r m, Unmarshal (kv_value e) = Some st /\ statusIs st r m.

Definition allowed (s : estate) (a : build) : Prop := exists st, statusAt s = Some st /\ compat a st.

Lemma statusAt_ok s st : statusOk s -> statusAt s = Some st -> exists r m, statusIs st r m.
Proof.
  intros Hs (e & He & Hu)%bind_Some. destruct (Hs e He) as (st' & r & m & Hu' & H). assert (st' = st) as -> by congruence. eauto.
Qed.

Lemma withStatus_view b doneBytes st r m :
  buildOk b -> Marshal (doneStatus b) = Some doneBytes -> statusIs st r m -> view b (Some st) (withStatus b doneBytes st).
Proof.
  intros Hb Hd Hst. unfold withStatus. case_bool_decide as Ed.
  { subst. cbn. split_and!; [done..|]. by apply restrictive_done. }
  destruct (statusCompatible b st) as [[]|] eqn:Ec; [| |done].
  - pose proof (compatible_restrictive _ _ _ _ Hb Hst Ec) as Hr. case_bool_decide; [done|].
    destruct (Marshal (setWorking st)) eqn:Em; [|done]. cbn. split_and!; [done..|]. by exists st.
  - destruct (restrictStatus b st) as [st'|] eqn:Er; [|done]. destruct (Marshal st') eqn:Em; [|done].
    cbn. split_and!; [done..|]. by exists st.
Qed.

Section leading.
Context (b : build) (l : election) (h : list estate) (s : estate).
Context (b_ok : buildOk b) (s_valid : storeValid s) (s_status : statusOk s).
Context (h_ok : forall s0, s0 ∈ h -> later s0 s /\ nodesOk s0).

Definition liveE (s : estate) : Prop := cmp_holds (content s) (isLeaderCmp l) = true.

(** The status has changed, and whoever was allowed still is. *)
Definition rewritten (s' : estate) : Prop :=
  exists e st r m, liveE s /\ content s' !! statusKey = Some e /\ Unmarshal (kv_value e) = Some st /\ statusIs st r m /\
    forall k a, registered s k a -> buildOk a -> forall st0, statusAt s = Some st0 -> compat a st0 -> compat a st.

Definition effect (p' : pc) (s' : estate) : Prop :=
  storeValid s' /\ later s s' /\ (forall k, k <> statusKey -> content s' !! k = content s !! k) /\
  (content s' !! statusKey = content s !! statusKey \/ rewritten s') /\
  (liveE s -> view b (statusAt s') p').

Lemma statusAt_eq s' : content s' !! statusKey = content s !! statusKey -> statusAt s' = statusAt s.
Proof. unfold statusAt. by intros ->. Qed.

Lemma statusAt_put s' st bytes : Marshal st = Some bytes -> kv_value <$> content s' !! statusKey = Some bytes -> statusAt s' = Some st.
Proof. intros Hm (e & He & Hv)%fmap_Some. unfold statusAt. rewrite He. cbn. rewrite <- Hv. by apply Unmarshal_Marshal. Qed.

(** Nothing is written. *)
Lemma effect_same p' : (liveE s -> view b (statusAt s) p') -> effect p' s.
Proof using s_valid. intros H. split_and!; [done|apply later_refl|done|by left|done]. Qed.

Lemma holds_live cs : isLeaderCmp l ∈ cs -> holds (content s) cs = true -> liveE s.
Proof. unfold holds. rewrite forallb_Forall_iff, Forall_forall. intros Hin H. by apply H. Qed.

(** A transaction that writes [st], and depends on the leadership. *)
Lemma effect_put cs bytes st s' resp p' :
  isLeaderCmp l ∈ cs -> txn s cs [OpPut statusKey bytes] s' resp ->
  (liveE s -> Marshal st = Some bytes /\ exists r m, statusIs st r m) ->
  (holds (content s) cs = true -> forall k a, registered s k a -> buildOk a -> forall st0, statusAt s = Some st0 -> compat a st0 -> compat a st) ->
  (liveE s -> match resp with
              | Committed _ => view b (Some st) p'
              | Rejected => view b (statusAt s) p'
              | Failed _ => forall cur, view b cur p'
              end) ->
  effect p' s'.
Proof using s_valid.
  intros Hin Ht Hst Hkeep Hview. destruct (txn_put _ _ _ _ _ _ s_valid Ht) as (Hne & Hw & Hc).
  split_and!; [by eapply txn_valid|by eapply later_txn|done| |].
  - destruct Hw as [Hw|[Hh Hw]]; [by left|right]. pose proof (holds_live _ Hin Hh) as Hl.
    destruct (Hst Hl) as (Hm & r & m & Hs). apply fmap_Some in Hw as (e & He & Hw).
    exists e, st, r, m. split_and!; [done..| |done|by apply Hkeep]. apply Unmarshal_Marshal. by rewrite <- Hw.
  - intros Hl. specialize (Hview Hl). destruct (Hst Hl) as [Hm _]. destruct resp as [rs| |e]; [| |apply Hview].
    + destruct (Hc rs eq_refl) as [_ Hv]. by rewrite (statusAt_put s' st bytes Hm Hv).
    + apply txn_rejected in Ht as [_ Ht]. rewrite statusAt_eq; [done|]. by rewrite Ht.
Qed.

(** The transaction that restricts the status commits only if all controllers are compatible. *)
Lemma restrict_registered releases bytes cs ops k a ra :
  published b h releases -> onReleases b (isLeaderCmp l) bytes releases = RTxn cs ops -> holds (content s) cs = true ->
  registered s k a -> local a = Some ra ->
  exists rb, local b = Some rb /\ rle (minApiserverRelease b) ra /\ rle ra rb.
Proof using b_ok h_ok.
  intros Hp Hon Hh [Hk (e & He & Hr)] Ha. destruct b_ok as (rb & Hb & _ & _).
  destruct (published_bounds b h releases rb (fun s0 H => proj2 (h_ok s0 H)) Hb Hp) as (s0 & mn & mx & Hs0 & Hrev & Hmn & Hmx & Hall).
  unfold onReleases in Hon. rewrite Hb, Hmn, Hmx in Hon. cbn -[KeyRange] in Hon.
  destruct (releaseLess rb mx) eqn:E1; [done|]. destruct (releaseLess mn _) eqn:E2; [done|]. injection Hon as <- _.
  unfold holds in Hh. cbn [forallb] in Hh. apply andb_true_iff in Hh as [_ [Hh _]%andb_true_iff].
  pose proof (range_less _ _ _ _ k e Hh He Hk) as Hm. destruct (h_ok s0 Hs0) as [Hl _].
  assert (content s0 !! k = Some e) as He0 by (apply (later_mod _ _ Hl); [done|lia]).
  destruct (Hall k e ra Hk He0) as [H1 H2]; [congruence|]. exists rb. split_and!; [done|by trans mn|by trans mx].
Qed.

Lemma lead_effect p p' s' :
  (liveE s -> view b (statusAt s) p) -> leadStep b l (published b h) (p, s) (p', s') -> effect p' s'.
Proof using b_ok s_valid s_status h_ok.
  intros Hview Hstep. inversion Hstep as [? ? resp Ht|doneBytes bytes st ? ? resp Ht|? ? ? releases ? Hgot Hon|? ? ? releases ? Hgot Hon
    |doneBytes bytes st releases cs ops ? ? resp Hgot Hon Ht|doneBytes st ?|doneBytes o ?|doneBytes ? ? resp Ht|? ? Hblk]; subst; clear Hstep.
  - (* the status is read *)
    destruct (txn_get _ _ _ _ _ s_valid Ht) as [Hc Hresp].
    split_and!; [by eapply txn_valid|by eapply later_txn|by rewrite Hc|left; by rewrite Hc|]. intros _.
    rewrite statusAt_eq by (by rewrite Hc). unfold afterGet. destruct resp as [rs| |]; [|done..]. rewrite (Hresp rs eq_refl).
    destruct (Marshal (doneStatus b)) as [doneBytes|] eqn:Hd; [|by destruct (content s !! statusKey)].
    unfold statusAt. destruct (content s !! statusKey) as [e|] eqn:He; cbn; [|done].
    destruct (s_status e He) as (st & r & m & Hu & Hst). rewrite Hu. by eapply withStatus_view.
  - eapply (effect_put _ _ st); [by left|done| | |].
    + intros Hl. destruct (Hview Hl) as (_ & Hm & st0 & _ & -> & (r & m & _ & Hst & _)). split; [done|]. by exists r, m.
    + intros Hh k a _ _ st0 Hst0 Hco. assert (liveE s) as Hl by (eapply holds_live; [|done]; by left).
      destruct (Hview Hl) as (_ & _ & st1 & Hst1 & -> & _). assert (st1 = st0) as -> by congruence. done.
    + intros Hl. destruct (Hview Hl) as (Hd & _ & st0 & _ & -> & Hr). by destruct resp.
  - by apply effect_same.
  - by apply effect_same.
  - assert (isLeaderCmp l ∈ cs /\ ops = [OpPut statusKey bytes]) as [Hin ->].
    { unfold onReleases in Hon. repeat case_match; try done. injection Hon as <- <-. split; [by left|done]. }
    eapply (effect_put cs bytes st); [done..| | |].
    + intros Hl. destruct (Hview Hl) as (_ & Hm & st0 & Hst0 & Hr). destruct (statusAt_ok s st0 s_status Hst0) as (r & m & Hst).
      destruct b_ok as (rb & Hb & _). split; [done|]. eexists _, _. by eapply restrict_statusIs.
    + intros Hh k a Hreg Ha st0 Hst0 Hco. pose proof (holds_live _ Hin Hh) as Hl.
      destruct (Hview Hl) as (_ & _ & st1 & Hst1 & Hr). assert (st1 = st0) as -> by congruence.
      destruct (statusAt_ok s st0 s_status Hst0) as (r & m & Hst). pose proof Ha as (ra & Hla & _).
      destruct (restrict_registered _ _ _ _ k a ra Hgot Hon Hh Hreg Hla) as (rb & Hb & H1 & H2). by eapply restrict_compat.
    + intros Hl. pose proof (Hview Hl) as (Hd & Hm & st0 & Hst0 & Hr). destruct (statusAt_ok s st0 s_status Hst0) as (r & m & Hst).
      destruct resp; cbn; [|by apply Hview|done]. split_and!; [done..|]. by eapply restrict_restrictive.
  - apply effect_same. intros Hl. destruct (Hview Hl) as (Hd & -> & Hr). cbn. split_and!; [done..|]. by intros ? [= <-].
  - apply effect_same. intros Hl. destruct (Hview Hl) as (Hd & -> & Hr). unfold afterReconcile. case_bool_decide as Eo; [|done].
    subst. exists (doneStatus b). split; [done|]. by apply Hr.
  - eapply (effect_put _ _ (doneStatus b)); [by left|done| | |].
    + intros Hl. destruct (Hview Hl) as [Hd _]. split; [done|]. destruct b_ok as (rb & Hb & _).
      exists rb, (minApiserverRelease b). by exists (Version_ b).
    + intros Hh k a _ _ st0 Hst0 Hco. assert (liveE s) as Hl by (eapply holds_live; [|done]; by left).
      destruct (Hview Hl) as [_ Hr]. apply compat_done. eapply restrictive_compat; [|done]. by apply Hr.
    + intros Hl. destruct resp; [|done..]. exists (doneStatus b). split; [done|by apply restrictive_done].
  - by apply effect_same.
Qed.

End leading.

(** ** The invariant *)

Definition apiOk (s : estate) (k : string) (a : apiserver) : Prop :=
  buildOk (apiBuild a) /\ registered s k (apiBuild a) /\
  match a with
  | Serving b => allowed s b
  | Waiting b (Some st) => compat b st -> allowed s b
  | Waiting b None => True
  end.

Record inv (w : world) : Prop := {
  inv_valid : storeValid (store w);
  inv_history : forall s, s ∈ history w -> later s (store w) /\ nodesOk s;
  inv_current : store w ∈ history w;
  inv_status : statusOk (store w);
  inv_leader : forall i l, leaders w !! i = Some l -> buildOk (leadBuild l) /\ elected (store w) (leadElection l);
  inv_distinct : forall i j l l', leaders w !! i = Some l -> leaders w !! j = Some l' -> leadElection l = leadElection l' -> i = j;
  inv_view : forall i l, leaders w !! i = Some l -> live (store w) l -> view (leadBuild l) (statusAt (store w)) (leadPc l);
  inv_api : ordered = true -> forall k a, apiservers w !! k = Some a -> apiOk (store w) k a
}.

Lemma world_inv_initial w : initial w -> inv w.
Proof.
  intros (Hv & Hs & Hh & Hl & Ha & Hn). split; rewrite ?Hh, ?Hl, ?Ha; try done.
  - intros s ->%list_elem_of_singleton. split; [apply later_refl|done].
  - by left.
  - intros e. by rewrite Hs.
Qed.

Lemma apiOk_store s s' k a :
  registered s' k (apiBuild a) -> (allowed s (apiBuild a) -> allowed s' (apiBuild a)) -> apiOk s k a -> apiOk s' k a.
Proof. intros Hr Hal (Hb & _ & H). split_and!; [done..|]. destruct a as [b [st|]|b]; cbn in *; auto. Qed.

(** Another state of the store, where only nodes and keys of others, or only the status, changed. *)
Lemma inv_env w cs ops s' resp : inv w -> Forall (envOp w) ops -> txn (store w) cs ops s' resp -> inv (setStore s' w).
Proof.
  intros Hi Hops Ht. pose proof (inv_valid _ Hi) as Hv. pose proof (later_txn _ _ _ _ _ Hv Ht) as Hl.
  rewrite Forall_forall in Hops.
  assert (forall k, content s' !! k = content (store w) !! k \/
    (exists e, content s' !! k = Some e /\ OpPut k (kv_value e) ∈ ops) \/ content s' !! k = None /\ OpDelete k ∈ ops) as Hk.
  { intros k. destruct (txn_revision _ _ _ _ _ Hv Ht) as [[-> _]|(_ & _ & ->)]; [by left|].
    destruct (apply_ops_cases (storeRevision s') (content (store w)) ops k) as [?|[(e & ? & ? & _)|?]]; eauto. }
  assert (content s' !! statusKey = content (store w) !! statusKey) as Hst.
  { destruct (Hk statusKey) as [?|[(e & _ & [? _]%Hops)|[_ [? _]%Hops]]]; done. }
  assert (nodesOk s') as Hn.
  { intros k e He Hnk. destruct (Hk k) as [H|[(e' & H & Hin)|[H _]]]; rewrite He in H; [| |done].
    - symmetry in H. destruct (inv_history _ Hi _ (inv_current _ Hi)) as [_ Hn]. by eapply Hn.
    - injection H as <-. apply Hops in Hin as [_ Hin]. by apply Hin. }
  pose proof (statusAt_eq (store w) s' Hst) as Hsa.
  split; cbn; try apply Hi.
  - by eapply txn_valid.
  - intros s [->|Hs]%elem_of_cons; [split; [apply later_refl|done]|]. destruct (inv_history _ Hi s Hs). split; [by eapply later_trans|done].
  - by left.
  - intros e. rewrite Hst. apply Hi.
  - intros i l Hil. destruct (inv_leader _ Hi i l Hil). split; [done|by eapply elected_later].
  - intros i l Hil Hlive. rewrite Hsa. apply (inv_view _ Hi i); [done|]. eapply live_back; [done| |done]. by eapply (inv_leader _ Hi).
  - intros Hord k a Hka. pose proof (inv_api _ Hi Hord k a Hka) as Hok. eapply (apiOk_store (store w)); [|unfold allowed; by rewrite Hsa|done].
    destruct Hok as (_ & [Hnk (e & He & Hr)] & _). split; [done|].
    destruct (Hk k) as [H|[(e' & H & Hin)|[H Hin]]].
    + exists e. by rewrite H.
    + exists e'. split; [done|]. apply Hops in Hin as [_ Hin]. destruct (Hin Hnk) as [_ Hin2]. by apply Hin2.
    + apply Hops in Hin as [_ Hin]. rewrite Hin in Hka; done.
Qed.

Lemma inv_lead w i l p' s' :
  inv w -> leaders w !! i = Some l ->
  leadStep (leadBuild l) (leadElection l) (published (leadBuild l) (history w)) (leadPc l, store w) (p', s') ->
  inv (setLeader i (mkLeader (leadBuild l) (leadElection l) p') (setStore s' w)).
Proof.
  intros Hi Hil Hstep. destruct (inv_leader _ Hi i l Hil) as [Hb Hel].
  destruct (lead_effect _ _ _ _ Hb (inv_valid _ Hi) (inv_status _ Hi) (inv_history _ Hi) _ _ _ (inv_view _ Hi i l Hil) Hstep)
    as (Hv & Hlater & Hne & Hw & Hview).
  assert (forall j l', <[i := mkLeader (leadBuild l) (leadElection l) p']> (leaders w) !! j = Some l' ->
    exists l0, leaders w !! j = Some l0 /\ leadBuild l0 = leadBuild l' /\ leadElection l0 = leadElection l' /\ (j <> i -> l0 = l')) as Hold.
  { intros j l' [[<- <-]|[Hj Hj']]%lookup_insert_Some; [exists l; split_and!; done|]. exists l'. split_and!; done. }
  split; cbn.
  - done.
  - intros s [->|Hs]%elem_of_cons.
    + split; [apply later_refl|]. intros k e He Hnk. destruct (inv_history _ Hi _ (inv_current _ Hi)) as [_ Hn].
      apply (Hn k); [|done]. rewrite <- He. symmetry. apply Hne. by intros ->.
    + destruct (inv_history _ Hi s Hs). split; [by eapply later_trans|done].
  - by left.
  - intros e He. destruct Hw as [Hw|(e' & st & r & m & _ & Hw & Hu & Hst & _)]; [rewrite Hw in He; by apply Hi|].
    rewrite He in Hw. injection Hw as <-. by exists st, r, m.
  - intros j l' (l0 & Hj & Eb & Ee & _)%Hold. rewrite <- Eb, <- Ee. destruct (inv_leader _ Hi j l0 Hj). split; [done|by eapply elected_later].
  - intros j j' l1 l2 (l3 & Hj & _ & E1 & _)%Hold (l4 & Hj' & _ & E2 & _)%Hold E3. eapply (inv_distinct _ Hi); [done..|congruence].
  - intros j l' Hj Hlive. destruct (decide (j = i)) as [->|Hji].
    { rewrite lookup_insert_eq in Hj. injection Hj as <-. apply Hview. by apply (live_back _ _ l Hlater Hel) in Hlive. }
    rewrite lookup_insert_ne in Hj by done. destruct (inv_leader _ Hi j l' Hj) as [_ Hel'].
    apply (live_back _ _ _ Hlater Hel') in Hlive. destruct Hw as [Hw|(e' & st & r & m & Hli & _)].
    + rewrite (statusAt_eq _ _ Hw). by apply (inv_view _ Hi j).
    + exfalso. apply Hji, (inv_distinct _ Hi j i l' l); [done..|]. by apply (live_unique (store w)).
  - intros Hord k a Hka. pose proof (inv_api _ Hi Hord k a Hka) as Hok. pose proof Hok as (Hba & [Hnk (e & He & Hr)] & _).
    eapply (apiOk_store (store w)); [|intros Hal|done].
    + split; [done|]. exists e. split; [|done]. rewrite Hne; [done|]. by intros ->.
    + destruct Hal as (st0 & Hst0 & Hco). destruct Hw as [Hw|(e' & st & r & m & _ & Hw & Hu & _ & Hkeep)].
      * exists st0. by rewrite (statusAt_eq _ _ Hw).
      * exists st. split; [unfold statusAt; by rewrite Hw|]. eapply (Hkeep k); [|done..]. split; [done|]. by exists e.
Qed.

(** A node starts, goes on or stops. *)
Lemma inv_setApi w k o :
  inv w -> (ordered = true -> forall a, o = Some a -> apiOk (store w) k a) -> inv (setApi k o w).
Proof.
  intros Hi Ho. split; cbn; try apply Hi. intros Hord k' a. destruct (decide (k' = k)) as [->|Hk].
  - rewrite lookup_partial_alter_eq. by apply Ho.
  - rewrite lookup_partial_alter_ne by done. by apply (inv_api _ Hi).
Qed.

Lemma world_inv_step w w' : inv w -> step w w' -> inv w'.
Proof.
  intros Hi Hstep. destruct Hstep as [cs ops s' resp Hops Ht|i b l Hi0 Hb Hel Hd|i l p' s' Hil Hl|k b Hk Hb Hreg|k b seen st Hk Hst|k b st Hk Hck|k].
  - by eapply inv_env.
  - split; cbn; try apply Hi.
    + intros j l' [[<- <-]|[_ Hj]]%lookup_insert_Some; [done|by apply (inv_leader _ Hi j)].
    + intros j j' l1 l2 [[<- <-]|[_ Hj]]%lookup_insert_Some [[<- <-]|[_ Hj']]%lookup_insert_Some; cbn; [done| | |].
      * intros E1. exfalso. by apply (Hd j' l2).
      * intros E1. exfalso. by apply (Hd j l1).
      * by apply (inv_distinct _ Hi).
    + intros j l' [[<- <-]|[_ Hj]]%lookup_insert_Some; [done|by apply (inv_view _ Hi j)].
  - by apply inv_lead.
  - apply (inv_setApi w k (Some (Waiting b None))); [done|]. intros Hord a [= <-]. split_and!; [done|by apply Hreg|done].
  - apply (inv_setApi w k (Some (Waiting b (Some st)))); [done|]. intros Hord a [= <-].
    destruct (inv_api _ Hi Hord _ _ Hk) as (? & ? & _). split_and!; [done..|]. intros Hc. by exists st.
  - apply (inv_setApi w k (Some (Serving b))); [done|]. intros Hord a [= <-].
    destruct (inv_api _ Hi Hord _ _ Hk) as (? & ? & Hal). split_and!; [done..|]. cbn. by apply Hal, waitCheck_compat.
  - by apply (inv_setApi w k None).
Qed.

Lemma world_inv_reachable w : reachable w -> inv w.
Proof.
  intros (w0 & H0 & Hr). apply world_inv_initial in H0. induction Hr as [|w1 w2 w3 Hs _ IH]; [done|]. by apply IH, (world_inv_step w1).
Qed.

End system.

(** C3: whatever the interleaving of elections, reconcilers of any releases, watches, nodes and other
    transactions, as long as nodes are registered before they wait for the reconciler: while a leader that
    holds its key reconciles, it is the only one, and every apiserver that serves is compatible
    with it. *)
Theorem reconciler_safe {E : Etcd} {ER : EtcdRevision} {NC : Codec NodeMsg} {SC : Codec KubernetesReconcilerStatus} w i l :
  reachable true w -> leaders w !! i = Some l -> live (store w) l -> reconciling (leadPc l) ->
  (forall j l', leaders w !! j = Some l' -> live (store w) l' -> j = i) /\
  (forall k a, apiservers w !! k = Some (Serving a) -> compatibleBuilds a (leadBuild l)).
Proof.
  intros Hr%world_inv_reachable Hil Hlive Hrec. split.
  - intros j l' Hj Hlive'. apply (inv_distinct _ _ Hr j i l' l); [done..|].
    destruct (inv_leader _ _ Hr i l Hil), (inv_leader _ _ Hr j l' Hj). by apply (live_unique (store w)).
  - intros k a Hk. destruct (inv_api _ _ Hr eq_refl _ _ Hk) as (_ & _ & st & Hst & Hco).
    pose proof (inv_view _ _ Hr i l Hil Hlive) as Hv. destruct (leadPc l); try done; cbn in Hv.
    + destruct Hv as (_ & Hs & Hre). eapply restrictive_compat; [|done]. apply Hre. congruence.
    + destruct Hv as (st' & Hs & Hre). assert (st' = st) as -> by congruence. by eapply restrictive_compat.
Qed.

End ReconcilerSystem.

(** * The Kubernetes reconciler: executions

    Two executions with the store in memory.  A reconciler of release 0.1.0 runs and an apiserver of release 0.2.0
    starts; and, if nodes need not be registered, an apiserver of release 0.1.0 still serves while a
    reconciler runs that needs release 0.2.0. *)

Module ReconcilerExample.
Import VersionSpec EtcdPrefix Etcd Interfaces ClusterConfig CuratorNode CuratorState CuratorExample Reconciler ReconcilerWatch ReconcilerSystem.

#[export] Instance status_codec : Codec KubernetesReconcilerStatus := CodecOf.

Section run.
Context (ordered : bool).

(** The next state of a leader, when its transactions get through and the releases are [got]. *)
Definition leadNext (b : build) (l : election) (got : nodeReleases) (p : pc) (m : mem) : pc * mem :=
  match p with
  | PGet => let '(m, r) := mem_exec m [] [OpGet statusKey] in (afterGet b r, m)
  | PSetWorking d bytes st => let '(m, r) := mem_exec m [isLeaderCmp l] [OpPut statusKey bytes] in (afterUpdate (PWait d st) r, m)
  | PRestrict d bytes st =>
      match onReleases b (isLeaderCmp l) bytes got with
      | RContinue => (p, m)
      | RPanic => (PPanicked, m)
      | RTxn cs ops => let '(m, r) := mem_exec m cs ops in (afterRestrict p (PWait d st) r, m)
      end
  | PWait d st => (PReconcile d (Some st), m)
  | PReconcile d o => (afterReconcile b d o, m)
  | PSetDone d => let '(m, r) := mem_exec m [isLeaderCmp l] [OpPut statusKey d] in (afterUpdate PPeriodic r, m)
  | PPeriodic | PReturned _ | PPanicked => (p, m)
  end.

Definition running (p : pc) : bool := match p with PPeriodic | PReturned _ | PPanicked => false | _ => true end.

Lemma mem_exec_txn m cs ops : mem_ok m -> txn (Etcd := MemEtcd) m cs ops (mem_exec m cs ops).1 (mem_exec m cs ops).2.
Proof. intros H. by apply mem_txn_exec. Qed.

Lemma leadNext_ok b l got p m : mem_ok m -> mem_ok (leadNext b l got p m).2.
Proof.
  intros H. destruct p; cbn [leadNext]; try done; try (destruct (onReleases _ _ _ _)); try done;
    match goal with |- context [mem_exec ?m ?cs ?ops] => pose proof (mem_exec_ok m cs ops H) end;
    destruct (mem_exec _ _ _); done.
Qed.

Lemma leadNext_step b l (got : nodeReleases -> Prop) v p m :
  mem_ok m -> running p = true -> (forall d r st, p = PRestrict d r st -> got v) ->
  leadStep (E := MemEtcd) b l got (p, m) (leadNext b l v p m).
Proof.
  intros H Hp Hv. pose proof (fun cs ops => mem_exec_txn m cs ops H) as Ht.
  destruct p as [|d bytes st|d bytes st|d st|d o|d| | |]; cbn [leadNext]; try done; try constructor.
  - specialize (Ht [] [OpGet statusKey]). destruct (mem_exec _ _ _). by constructor.
  - specialize (Ht [isLeaderCmp l] [OpPut statusKey bytes]). destruct (mem_exec _ _ _). by constructor.
  - specialize (Hv _ _ _ eq_refl). destruct (onReleases _ _ _ _) as [|cs ops|] eqn:Eo; [by eapply (LeadRestrictContinue (E := MemEtcd))| |by eapply (LeadRestrictPanic (E := MemEtcd))].
    specialize (Ht cs ops). destruct (mem_exec _ _ _). by eapply (LeadRestrict (E := MemEtcd)).
  - specialize (Ht [isLeaderCmp l] [OpPut statusKey d]). destruct (mem_exec _ _ _). by constructor.
Qed.

(** A reachable state with a consistent store. *)
Definition good (w : world (E := MemEtcd)) : Prop := reachable ordered w /\ mem_ok (store w).

Lemma good_step w w' : good w -> step ordered w w' -> mem_ok (store w') -> good w'.
Proof. intros [(w0 & H0 & Hr) _] Hs Hok. split; [|done]. exists w0. split; [done|]. by eapply rtc_r. Qed.

Definition runEnv (ops : list op) (w : world (E := MemEtcd)) : world := setStore (mem_exec (store w) [] ops).1 w.
Lemma good_env ops w : good w -> Forall (envOp ordered w) ops -> good (runEnv ops w).
Proof.
  intros Hw Ho. pose proof Hw as [_ Hm]. apply (good_step w); [done| |by apply mem_exec_ok].
  by apply (StepEnv _ _ [] ops _ (mem_exec (store w) [] ops).2), mem_exec_txn.
Qed.

Definition runLead (i : nat) (v : nodeReleases) (w : world (E := MemEtcd)) : world :=
  match leaders w !! i with
  | None => w
  | Some l =>
      let '(p, m) := leadNext (leadBuild l) (leadElection l) v (leadPc l) (store w) in
      setLeader i (mkLeader (leadBuild l) (leadElection l) p) (setStore m w)
  end.
Lemma good_lead i v w :
  good w ->
  match leaders w !! i with
  | None => True
  | Some l => running (leadPc l) = true /\
      match leadPc l with PRestrict _ _ _ => published (E := MemEtcd) (leadBuild l) (history w) v | _ => True end
  end -> good (runLead i v w).
Proof.
  intros Hw H. pose proof Hw as [_ Hm]. unfold runLead. destruct (leaders w !! i) as [l|] eqn:El; [|done]. destruct H as [Hrun Hp].
  pose proof (leadNext_ok (leadBuild l) (leadElection l) v (leadPc l) (store w) Hm) as Hok.
  pose proof (leadNext_step (leadBuild l) (leadElection l) (published (leadBuild l) (history w)) v (leadPc l) (store w) Hm Hrun) as Hs.
  destruct (leadNext _ _ _ _ _) as [p m]. apply (good_step w); [done| |done]. apply StepLead; [done|]. apply Hs. intros d r st E1. by rewrite E1 in Hp.
Qed.

(** The node's entry says that it is a controller of release 0.2.0. *)
Definition release (minor : Z) : Version_Release := mkRelease 0 minor 0.
Definition version (minor : Z) : SpecVersion := mkVersion (Some (release minor)) None.
Definition old : build := mkBuild (version 1) (release 1) (release 1).
Definition new : build := mkBuild (version 2) (release 1) (release 2).
Definition nodeKey : string := "/nodes/a".
Definition nodeValue : string :=
  enc (mkNodeMsg "" "" "" STATE_UP (Some (mkRoles false true None)) (Some (mkStatus "" None None (Some (version 2))))
    NODE_TPM_NOT_PRESENT None None).
Definition electionKey1 : string := electionPrefix +:+ "/1".
Definition electionKey2 : string := electionPrefix +:+ "/2".
Definition noReleases : nodeReleases := mkReleases None None 0.

(** The old reconciler is elected and finishes. *)
Definition w0 : world (E := MemEtcd) := mkWorld (mkMem ∅ 0) [mkMem ∅ 0] ∅ ∅.
Definition w1 : world := runEnv [OpPut nodeKey nodeValue; OpPut electionKey1 ""] w0.
Definition w2 : world := setLeader 0 (mkLeader old (mkElection electionKey1 1) PGet) w1.
Definition w3 : world := runLead 0 noReleases w2.
Definition w4 : world := runLead 0 noReleases w3.
Definition w5 : world := runLead 0 noReleases w4.

Lemma old_ok : buildOk old.
Proof. by exists (release 1). Qed.
Lemma new_ok : buildOk new.
Proof. by exists (release 2). Qed.

Lemma nodeValue_ok : valueOk nodeValue.
Proof. exists (Some (version 2)). split; [vm_compute; done|]. intros ? [= <-]. by exists (release 2). Qed.

(** A condition on all entries of a concrete map, by computation. *)
Lemma check_map {K A} `{Countable K} (m : gmap K A) (P : K -> A -> Prop) `{forall k e, Decision (P k e)} :
  bool_decide (map_Forall P m) = true -> forall k e, m !! k = Some e -> P k e.
Proof. intros H1%bool_decide_eq_true k e. apply H1. Qed.

Lemma good_w0 : good w0.
Proof.
  split; [|split; [done|]; by intros]. exists w0. split; [|done].
  by split_and!.
Qed.

Lemma good_w5 : good w5.
Proof.
  apply good_lead; [|by vm_compute]. apply good_lead; [|by vm_compute]. apply good_lead; [|by vm_compute].
  assert (good w1) as Hw1.
  { apply good_env; [apply good_w0|]. 
    apply Forall_cons. split; [|by apply Forall_singleton]. split; [done|]. intros _. split; [apply nodeValue_ok|done]. }
  apply (good_step w1); [done| |by destruct Hw1].
  apply StepElected; [done|apply old_ok| |done].
  split_and!; [done..|]. apply (check_map (mem_db (store w1)) (fun k e => isElectionKey k = true -> _ /\ (_ -> k = electionKey1))). vm_compute. done.
Qed.

(** A node boots, sees the status and serves. *)
Definition boot (b : build) (w : world (E := MemEtcd)) : world := setApi nodeKey (Some (Waiting b None)) w.
Definition observe (b : build) (w : world (E := MemEtcd)) : world := setApi nodeKey (Some (Waiting b (statusAt (store w)))) w.
Definition serve (b : build) (w : world (E := MemEtcd)) : world := setApi nodeKey (Some (Serving b)) w.

Lemma good_serve b w :
  good w -> apiservers w !! nodeKey = None -> buildOk b -> (ordered = true -> registered (store w) nodeKey b) ->
  match statusAt (store w) with Some st => waitCheck b st = Some true | None => False end ->
  good (serve b (observe b (boot b w))).
Proof.
  intros Hw Hk Hb Hreg Hst. pose proof Hw as [_ Hm]. destruct (statusAt (store w)) as [st|] eqn:Es; [|done].
  assert (good (boot b w)) as Hw1 by (apply (good_step w); [done|by apply StepBoot|done]).
  assert (good (observe b (boot b w))) as Hw2.
  { apply (good_step (boot b w)); [done| |done]. unfold observe. cbn [boot setApi store]. rewrite Es.
    apply (StepObserve _ _ _ _ None); [apply lookup_partial_alter_eq|done]. }
  apply (good_step (observe b (boot b w))); [done| |done]. apply (StepReady _ _ _ _ st); [|done].
  unfold observe. cbn [boot setApi store apiservers]. rewrite Es. apply lookup_partial_alter_eq.
Qed.

End run.

(** The old reconciler is still leading, and an apiserver of the new release starts. *)
Definition example : world := serve new (observe new (boot new w5)).

Lemma example_reachable : reachable true example.
Proof.
  apply (good_serve true new w5); [apply good_w5|by vm_compute|apply new_ok| |by vm_compute].
  intros _. split; [done|]. eexists. split; [by vm_compute|]. by vm_compute.
Qed.

Lemma reconciler_safe_witness :
  reachable true example /\
  (forall k a, apiservers example !! k = Some (Serving a) -> compatibleBuilds a old) /\ apiservers example !! nodeKey = Some (Serving new).
Proof.
  split; [apply example_reachable|]. split; [|by vm_compute].
  apply (reconciler_safe example 0 (mkLeader old (mkElection electionKey1 1) PPeriodic) example_reachable); [by vm_compute..|done].
Defined.

(** The node appears, changes to a node without a version, and is deleted. *)
Definition bareValue : string :=
  enc (mkNodeMsg "" "" "" STATE_UP (Some (mkRoles false true None)) None NODE_TPM_NOT_PRESENT None None).


(** The node boots into the old release while its entry still has the new one; then a new reconciler is
    elected, which needs all apiservers to have the new release. *)
Definition u1 : world := serve old (observe old (boot old w5)).
Definition u2 : world := runEnv [OpDelete electionKey1; OpPut electionKey2 ""] u1.
Definition u3 : world := setLeader 1 (mkLeader new (mkElection electionKey2 4) PGet) u2.
Definition u4 : world := runLead 1 noReleases u3.
Definition newReleases : nodeReleases := mkReleases (Some (release 2)) (Some (release 2)) 5.
Definition u5 : world := runLead 1 newReleases u4.
Definition u6 : world := runLead 1 newReleases u5.

Definition l6 : leader := default (mkLeader old (mkElection "" 0) PGet) (leaders u6 !! 1).

Lemma u4_published : published (E := MemEtcd) new (history u4) newReleases.
Proof.
  exists (fun _ l => l), [(nodeKey, nodeValue)], 5%Z, []. split_and!; [done| |vm_compute; by left].
  cbn [faithful respEvents respRevision applyEvents foldl fst snd]. split_and!; [exists (store u4); split_and!| |done].
  - by left.
  - by vm_compute.
  - intros k. assert (mem_db (store u4) !! nodeKey = Some (mkKV nodeValue 1 1)) as Hn by (by vm_compute).
    destruct (decide (k = nodeKey)) as [->|Hk].
    { rewrite lookup_insert_eq. change (content (store u4)) with (mem_db (store u4)). by rewrite Hn. }
    rewrite lookup_insert_ne, lookup_empty by done. destruct (isNodeKey k) eqn:Ek; [|done].
    destruct (content (store u4) !! k) as [e|] eqn:He; [|done]. exfalso. apply Hk. revert Ek.
    revert k e He Hk. apply (check_map (mem_db (store u4)) (fun k e => k <> nodeKey -> isNodeKey k = true -> k = nodeKey)). vm_compute. done.
  - apply Forall_singleton. right. exists (store u4). split_and!; [by left|done|by vm_compute].
Qed.

Lemma good_u6 : good false u6.
Proof.
  assert (good false u2) as Hu2.
  { apply good_env; [|by repeat constructor].
    apply (good_serve false old w5); [apply good_w5|by vm_compute|apply old_ok|done|by vm_compute]. }
  assert (good false u3) as Hu3.
  { apply (good_step false u2); [done| |by destruct Hu2]. apply StepElected; [by vm_compute|apply new_ok|..].
    - split_and!; [done..|]. apply (check_map (mem_db (store u2)) (fun k e => isElectionKey k = true -> _ /\ (_ -> k = electionKey2))). by vm_compute.
    - intros j l' Hj E1. assert (Etcd.in_range electionKey1 electionKey2 (electionKey (leadElection l')) = true) as Hk; [|by rewrite E1 in Hk].
      clear E1. revert j l' Hj. 
      apply (@check_map nat leader _ _ (leaders u2) (fun _ l' => Etcd.in_range electionKey1 electionKey2 (electionKey (leadElection l')) = true) (fun _ _ => bool_eq_dec _ _)). by vm_compute. }
  apply good_lead; [|by vm_compute]. apply good_lead; [apply good_lead; [done|by vm_compute]|].
  pose proof u4_published as Hp. destruct (leaders u4 !! 1) as [l|] eqn:El; [|done].
  assert (bool_decide (leadBuild <$> leaders u4 !! 1 = Some new) && default false (running ∘ leadPc <$> leaders u4 !! 1) = true) as Hb by (by vm_compute).
  rewrite El in Hb. cbn in Hb. apply andb_true_iff in Hb as [Hb Hr]. apply bool_decide_eq_true in Hb. injection Hb as ->.
  split; [done|]. by destruct (leadPc l).
Qed.

(** If nodes need not be registered before they wait for the reconciler, an apiserver can serve that is too
    old for the reconciler that runs. *)
Lemma unordered_unsafe :
  reachable (E := MemEtcd) false u6 /\ leaders u6 !! 1 = Some l6 /\ live (store u6) l6 /\ reconciling (leadPc l6) /\
  apiservers u6 !! nodeKey = Some (Serving old) /\ ~ compatibleBuilds old (leadBuild l6).
Proof.
  split_and!; [apply good_u6|by vm_compute..|].
  assert (leadBuild l6 = new) as -> by (by vm_compute). intros (ra & rb & [= <-] & _ & H1 & _). done.
Qed.

End ReconcilerExample.
