(* ===== verification/GoSort.v ===== *)
(** * Sorting of slices

    Go's [sort.SliceStable] for a comparison of indexes: insertion sort of blocks of
    20 elements, which are then merged by rotations.  The log code uses it with the
    comparison [i > j], which is not an order on the elements; [SliceStable_reverse]
    shows that the algorithm then reverses the slice, whatever its length. *)

From S2P Require Import Prelude.

Module GoSort.

Section Sort.
Context {A : Type} (less : nat -> nat -> bool).
Implicit Types l : list A.

Definition swap (i j : nat) l : list A :=
  match l !! i, l !! j with
  | Some x, Some y => <[i := y]> (<[j := x]> l)
  | _, _ => l
  end.

(** [for j := i; j > a && less(j, j-1); j--]. *)
Fixpoint insertDown (a j : nat) l : list A :=
  match j with
  | 0 => l
  | S j' => if (a <? S j') && less (S j') j' then insertDown a j' (swap (S j') j' l) else l
  end.

Definition insertionSort (a b : nat) l : list A :=
  foldl (fun l i => insertDown a i l) l (seq (S a) (b - S a)).

(** [rotate]: exchanges the blocks from [a] to [m] and from [m] to [b]. *)
Definition rotate (a m b : nat) l : list A :=
  take a l ++ take (b - m) (drop m l) ++ take (m - a) (drop a l) ++ drop b l.

(** [for i < j]: the least index from which on [stop] holds. *)
Fixpoint search (fuel : nat) (up : nat -> bool) (i j : nat) : nat :=
  match fuel with
  | 0 => i
  | S fuel =>
      if i <? j then
        let h := (i + j) / 2 in
        if up h then search fuel up (S h) j else search fuel up i h
      else i
  end.

(** [for k := a; k < i-1; k++] and [for k := m; k > i; k--] with swaps of neighbours. *)
Definition bubbleUp (a i : nat) l : list A := foldl (fun l k => swap k (S k) l) l (seq a (i - 1 - a)).
Fixpoint bubbleDown (i k : nat) l : list A :=
  match k with
  | 0 => l
  | S k' => if i <? S k' then bubbleDown i k' (swap (S k') k' l) else l
  end.

Fixpoint symMerge (fuel : nat) (a m b : nat) l : list A :=
  match fuel with
  | 0 => l
  | S fuel =>
      if m - a =? 1 then bubbleUp a (search (S b) (fun h => less h a) m b) l
      else if b - m =? 1 then bubbleDown (search (S b) (fun h => negb (less m h)) a m) m l
      else
        let mid := (a + b) / 2 in
        let n := mid + m in
        let '(start, r) := if mid <? m then (n - b, mid) else (a, m) in
        let start := search (S b) (fun c => negb (less (n - 1 - c) c)) start r in
        let end_ := n - start in
        let l := if (start <? m) && (m <? end_) then rotate start m end_ l else l in
        let l := if (a <? start) && (start <? mid) then symMerge fuel a start mid l else l in
        if (mid <? end_) && (end_ <? b) then symMerge fuel mid end_ b l else l
  end.

(** The first loop: sorts blocks from [a]. *)
Fixpoint sortBlocks (fuel bs a n : nat) l : list A :=
  match fuel with
  | 0 => l
  | S fuel =>
      if a + bs <=? n then sortBlocks fuel bs (a + bs) n (insertionSort a (a + bs) l)
      else insertionSort a n l
  end.

(** The inner merge loop, from [a]. *)
Fixpoint mergeBlocks (fuel bs a n : nat) l : list A :=
  match fuel with
  | 0 => l
  | S fuel =>
      if a + 2 * bs <=? n then mergeBlocks fuel bs (a + 2 * bs) n (symMerge n a (a + bs) (a + 2 * bs) l)
      else if a + bs <? n then symMerge n a (a + bs) n l
      else l
  end.

(** The outer merge loop. *)
Fixpoint mergeAll (fuel bs n : nat) l : list A :=
  match fuel with
  | 0 => l
  | S fuel => if bs <? n then mergeAll fuel (2 * bs) n (mergeBlocks (S n) bs 0 n l) else l
  end.

(** Blocks only grow and there are fewer than [n] of them, and the block size at
    least doubles: the number of elements bounds all loops. *)
Definition SliceStable l : list A :=
  let n := length l in mergeAll n 20 n (sortBlocks (S n) 20 0 n l).

End Sort.

(** The comparison [func(i, j int) bool { return i > j }]. *)
Definition indexAfter (i j : nat) : bool := j <? i.

Section Reverse.
Context {A : Type}.
Implicit Types l pre post xs ys : list A.

Lemma swap_next pre post x y : swap (S (length pre)) (length pre) (pre ++ x :: y :: post) = pre ++ y :: x :: post.
Proof.
  unfold swap. rewrite !lookup_app_r, Nat.sub_diag by lia. replace (S (length pre) - length pre) with 1 by lia. simpl.
  rewrite insert_app_r_alt by lia. rewrite Nat.sub_diag. simpl.
  rewrite insert_app_r_alt by lia. by replace (S (length pre) - length pre) with 1 by lia.
Qed.

Lemma swap_next' pre post x y : swap (length pre) (S (length pre)) (pre ++ x :: y :: post) = pre ++ y :: x :: post.
Proof.
  unfold swap. rewrite !lookup_app_r, Nat.sub_diag by lia. replace (S (length pre) - length pre) with 1 by lia. simpl.
  rewrite insert_app_r_alt by lia. replace (S (length pre) - length pre) with 1 by lia. simpl.
  rewrite insert_app_r_alt by lia. by rewrite Nat.sub_diag.
Qed.

(** An element is inserted at the front of its block. *)
Lemma insertDown_front pre xs x post :
  insertDown indexAfter (length pre) (length (pre ++ xs)) (pre ++ xs ++ x :: post) = pre ++ x :: xs ++ post.
Proof.
  revert x post. induction xs as [|y xs IH] using rev_ind; intros x post.
  { rewrite app_nil_r. simpl. destruct (length pre) as [|k] eqn:Hk; [done|]. simpl.
    by rewrite (proj2 (Nat.ltb_ge _ _)) by lia. }
  rewrite !length_app. simpl. replace (length pre + (length xs + 1)) with (S (length (pre ++ xs))) by (rewrite length_app; lia).
  cbn [insertDown]. unfold indexAfter at 1. rewrite length_app, !(proj2 (Nat.ltb_lt _ _)) by lia. cbn [andb].
  rewrite <- (length_app pre xs). rewrite <- !app_assoc. cbn [app]. rewrite (app_assoc pre xs), swap_next, <- app_assoc.
  apply IH.
Qed.

Lemma insertionSort_from pre xs ys post :
  foldl (fun l i => insertDown indexAfter (length pre) i l) (pre ++ xs ++ ys ++ post) (seq (length (pre ++ xs)) (length ys)) =
  pre ++ rev ys ++ xs ++ post.
Proof.
  revert xs. induction ys as [|y ys IH]; intros xs; [done|]. cbn [length seq foldl].
  pose proof (insertDown_front pre xs y (ys ++ post)) as H. cbn [app] in *. rewrite H.
  specialize (IH (y :: xs)). cbn [app] in IH. replace (S (length (pre ++ xs))) with (length (pre ++ y :: xs)) by (rewrite !length_app; simpl; lia).
  rewrite IH. simpl. by rewrite <- app_assoc.
Qed.

Lemma insertionSort_reverse pre xs post :
  insertionSort indexAfter (length pre) (length pre + length xs) (pre ++ xs ++ post) = pre ++ rev xs ++ post.
Proof.
  destruct xs as [|x xs].
  { unfold insertionSort. simpl. by replace (length pre + 0 - S (length pre)) with 0 by lia. }
  unfold insertionSort. simpl. replace (length pre + S (length xs) - S (length pre)) with (length xs) by lia.
  pose proof (insertionSort_from pre [x] xs post) as H. rewrite length_app in H. simpl in H.
  replace (S (length pre)) with (length pre + 1) by lia. rewrite H. by rewrite <- app_assoc.
Qed.

Lemma bubbleUp_rotate pre x ys post :
  bubbleUp (length pre) (length pre + S (length ys)) (pre ++ x :: ys ++ post) = pre ++ ys ++ x :: post.
Proof.
  unfold bubbleUp. replace (length pre + S (length ys) - 1 - length pre) with (length ys) by lia.
  revert pre. induction ys as [|y ys IH]; intros pre; [done|]. cbn [length seq foldl app].
  rewrite swap_next'. specialize (IH (pre ++ [y])). rewrite length_app, Nat.add_1_r, <- !app_assoc in IH. exact IH.
Qed.

Lemma bubbleDown_rotate pre xs y post :
  bubbleDown (length pre) (length (pre ++ xs)) (pre ++ xs ++ y :: post) = pre ++ y :: xs ++ post.
Proof.
  revert y post. induction xs as [|x xs IH] using rev_ind; intros y post.
  { rewrite app_nil_r. simpl. destruct (length pre) as [|k] eqn:Hk; [done|]. simpl.
    by rewrite (proj2 (Nat.ltb_ge _ _)) by lia. }
  rewrite !length_app. simpl. replace (length pre + (length xs + 1)) with (S (length (pre ++ xs))) by (rewrite length_app; lia).
  cbn [bubbleDown]. rewrite length_app, (proj2 (Nat.ltb_lt _ _)) by lia.
  rewrite <- (length_app pre xs). rewrite <- !app_assoc. cbn [app]. rewrite (app_assoc pre xs), swap_next, <- app_assoc.
  apply IH.
Qed.

Lemma rotate_blocks pre xs ys post a m b :
  a = length pre -> m = a + length xs -> b = m + length ys ->
  rotate a m b (pre ++ xs ++ ys ++ post) = pre ++ ys ++ xs ++ post.
Proof.
  intros -> -> ->. unfold rotate. rewrite take_app_length.
  replace (length pre + length xs + length ys - (length pre + length xs)) with (length ys) by lia.
  replace (length pre + length xs - length pre) with (length xs) by lia.
  replace (drop (length pre + length xs) (pre ++ xs ++ ys ++ post)) with (ys ++ post).
  2:{ by rewrite <- length_app, app_assoc, drop_app_length. }
  replace (drop (length pre + length xs + length ys) (pre ++ xs ++ ys ++ post)) with post.
  2:{ by rewrite <- !length_app, !app_assoc, drop_app_length. }
  by rewrite drop_app_length, !take_app_length.
Qed.

(** The searches find the ends of the range. *)
Lemma search_up fuel up i j : j - i < fuel -> i <= j -> (forall h, i <= h < j -> up h = true) -> search fuel up i j = j.
Proof.
  revert i j. induction fuel as [|fuel IH]; intros i j Hf Hij Hup; [lia|]. cbn [search].
  destruct (Nat.ltb_spec i j); [|lia]. pose proof (Nat.div_mod_eq (i + j) 2). pose proof (Nat.mod_upper_bound (i + j) 2).
  rewrite Hup by lia. apply IH; [lia|lia|]. intros; apply Hup; lia.
Qed.
Lemma search_down fuel up i j : j - i < fuel -> (forall h, i <= h < j -> up h = false) -> search fuel up i j = i.
Proof.
  revert i j. induction fuel as [|fuel IH]; intros i j Hf Hup; [lia|]. cbn [search].
  destruct (Nat.ltb_spec i j); [|done]. pose proof (Nat.div_mod_eq (i + j) 2). pose proof (Nat.mod_upper_bound (i + j) 2).
  rewrite Hup by lia. apply IH; [lia|]. intros; apply Hup; lia.
Qed.

Ltac cmp x y := first [rewrite (proj2 (Nat.ltb_lt x y)) by lia | rewrite (proj2 (Nat.ltb_ge x y)) by lia].

Lemma symMerge_swap fuel pre xs ys post a m b :
  a = length pre -> m = a + length xs -> b = m + length ys -> xs <> [] -> ys <> [] -> b - a <= fuel ->
  symMerge indexAfter fuel a m b (pre ++ xs ++ ys ++ post) = pre ++ ys ++ xs ++ post.
Proof.
  revert pre xs ys post a m b. induction fuel as [|fuel IH]; intros pre xs ys post a m b Ha Hm Hb Hxs Hys Hf.
  { destruct xs; [done|simpl in *; lia]. }
  cbn [symMerge]. assert (0 < length xs) by (destruct xs; simpl; [done|lia]). assert (0 < length ys) by (destruct ys; simpl; [done|lia]).
  destruct (Nat.eqb_spec (m - a) 1) as [H1|H1].
  { destruct xs as [|x [|]]; simpl in Hm; [lia| |lia]. rewrite search_up; [|lia|lia|].
    - subst b m a. rewrite <- Nat.add_assoc. exact (bubbleUp_rotate pre x ys post).
    - intros h Hh. apply Nat.ltb_lt. lia. }
  destruct (Nat.eqb_spec (b - m) 1) as [H2|H2].
  { destruct ys as [|y [|]]; simpl in Hb; [lia| |lia]. rewrite search_down; [|lia|].
    - subst m a. rewrite <- length_app. exact (bubbleDown_rotate pre xs y post).
    - intros h Hh. unfold indexAfter. rewrite (proj2 (Nat.ltb_lt _ _)) by lia. done. }
  assert ((a + b) / 2 * 2 <= a + b < (a + b) / 2 * 2 + 2) as Hmid.
  { pose proof (Nat.div_mod_eq (a + b) 2). pose proof (Nat.mod_upper_bound (a + b) 2). lia. }
  set (mid := (a + b) / 2) in *. clearbody mid.
  destruct (Nat.ltb_spec mid m) as [H3|H3].
  - rewrite search_down; [|lia|]. 2:{ intros c Hc. unfold indexAfter. rewrite (proj2 (Nat.ltb_lt _ _)) by lia. done. }
    replace (mid + m - (mid + m - b)) with b by lia.
    cmp (mid + m - b) m. cmp m b. cmp b b. cmp mid b. cbn [andb].
    set (x1 := take (length xs - (b - mid)) xs). set (x2 := drop (length xs - (b - mid)) xs).
    assert (length x1 = length xs - (b - mid)) as Hx1 by (unfold x1; rewrite length_take; lia).
    assert (length x2 = b - mid) as Hx2 by (unfold x2; rewrite length_drop; lia).
    assert (xs = x1 ++ x2) as Hsplit by (symmetry; apply take_drop). clearbody x1 x2. subst xs. rewrite length_app in *.
    rewrite <- (app_assoc x1), (app_assoc pre x1), (rotate_blocks (pre ++ x1) x2 ys post) by (rewrite ?length_app; lia).
    rewrite <- !app_assoc.
    destruct (Nat.ltb_spec a (mid + m - b)) as [H4|H4]; cbn [andb].
    + cmp (mid + m - b) mid. rewrite (IH pre x1 ys (x2 ++ post)); [done|lia..| |done|lia].
      intros ->. simpl in *. lia.
    + assert (x1 = []) as -> by (apply nil_length_inv; lia). done.
  - rewrite search_down; [|lia|]. 2:{ intros c Hc. unfold indexAfter. rewrite (proj2 (Nat.ltb_lt _ _)) by lia. done. }
    cmp a m. cmp m (mid + m - a). cmp a a. cmp mid (mid + m - a). cbn [andb].
    set (y1 := take (mid - a) ys). set (y2 := drop (mid - a) ys).
    assert (length y1 = mid - a) as Hy1 by (unfold y1; rewrite length_take; lia).
    assert (length y2 = length ys - (mid - a)) as Hy2 by (unfold y2; rewrite length_drop; lia).
    assert (ys = y1 ++ y2) as Hsplit by (symmetry; apply take_drop). clearbody y1 y2. subst ys. rewrite length_app in *.
    rewrite <- (app_assoc y1 y2), (rotate_blocks pre xs y1 (y2 ++ post)) by lia.
    destruct (Nat.ltb_spec (mid + m - a) b) as [H4|H4].
    + rewrite (app_assoc pre y1), (IH (pre ++ y1) xs y2 post); [by rewrite <- !app_assoc|rewrite ?length_app; lia..|done| |lia].
      intros ->. simpl in *. lia.
    + assert (y2 = []) as -> by (apply nil_length_inv; lia). by rewrite app_nil_r.
Qed.

(** A list and the same with its blocks of [bs] elements (the last one may be
    shorter) reversed. *)
Inductive blocks (bs : nat) : list A -> list A -> Prop :=
| blocks_last xs : length xs <= bs -> blocks bs xs (rev xs)
| blocks_more xs l l' : length xs = bs -> l <> [] -> blocks bs l l' -> blocks bs (xs ++ l) (rev xs ++ l').

Lemma blocks_length bs l l' : blocks bs l l' -> length l' = length l.
Proof. induction 1; rewrite ?length_app, !length_rev; lia. Qed.

Lemma sortBlocks_blocks fuel bs pre l a n :
  0 < bs -> a = length pre -> n = a + length l -> length l < fuel ->
  exists l', sortBlocks indexAfter fuel bs a n (pre ++ l) = pre ++ l' /\ blocks bs l l'.
Proof.
  intros Hbs. revert pre l a n. induction fuel as [|fuel IH]; intros pre l a n Ha Hn Hf; [lia|]. cbn [sortBlocks].
  destruct (Nat.leb_spec (a + bs) n) as [Hle|Hgt].
  - rewrite <- (take_drop bs l). set (xs := take bs l). set (l1 := drop bs l).
    assert (length xs = bs) as Hxs by (unfold xs; rewrite length_take; lia).
    assert (length l1 = length l - bs) as Hl1 by apply length_drop.
    pose proof (insertionSort_reverse pre xs l1) as Hs. rewrite <- Ha, Hxs in Hs. rewrite Hs, app_assoc.
    destruct (IH (pre ++ rev xs) l1 (a + bs) n) as (l' & -> & Hb); [rewrite length_app, length_rev; lia|lia|lia|].
    exists (rev xs ++ l'). split; [by rewrite <- app_assoc|]. destruct l1 as [|y l1].
    + apply blocks_length, nil_length_inv in Hb as ->. rewrite !app_nil_r. constructor. lia.
    + by constructor.
  - exists (rev l). split; [|constructor; lia]. pose proof (insertionSort_reverse pre l []) as Hs.
    rewrite !app_nil_r in Hs. subst. exact Hs.
Qed.

Lemma mergeBlocks_blocks fuel bs pre l l' a n :
  0 < bs -> blocks bs l l' -> a = length pre -> n = a + length l -> length l < fuel ->
  exists l2, mergeBlocks indexAfter fuel bs a n (pre ++ l') = pre ++ l2 /\ blocks (2 * bs) l l2.
Proof.
  intros Hbs. revert pre l l' a n. induction fuel as [|fuel IH]; intros pre l l' a n Hb Ha Hn Hf; [lia|]. cbn [mergeBlocks].
  destruct Hb as [xs Hxs|xs l l' Hxs Hne Hb].
  { destruct (Nat.leb_spec (a + 2 * bs) n); [lia|]. cmp (a + bs) n. exists (rev xs). split; [done|]. constructor. lia. }
  rewrite length_app in *. destruct Hb as [ys Hys|ys l l' Hys Hne' Hb].
  - assert (ys <> []) as Hne2 by done. assert (0 < length ys) by (destruct ys; simpl; [done|lia]).
    assert (forall b, b = a + bs + length ys -> symMerge indexAfter n a (a + bs) b (pre ++ rev xs ++ rev ys) = pre ++ rev (xs ++ ys)) as Hm.
    { intros b ->. pose proof (symMerge_swap n pre (rev xs) (rev ys) []) as Hm. rewrite !app_nil_r in Hm.
      rewrite Hm; rewrite ?length_rev; [by rewrite rev_app_distr|lia..| | |lia].
      - intros Hr. apply (f_equal length) in Hr. rewrite length_rev in Hr. simpl in Hr. lia.
      - intros Hr. apply (f_equal length) in Hr. rewrite length_rev in Hr. simpl in Hr. lia. }
    exists (rev (xs ++ ys)). split; [|constructor; rewrite length_app; lia].
    destruct (Nat.leb_spec (a + 2 * bs) n).
    + rewrite Hm by lia. destruct fuel as [|fuel]; [lia|]. cbn [mergeBlocks].
      destruct (Nat.leb_spec (a + 2 * bs + 2 * bs) n); [lia|]. by cmp (a + 2 * bs + bs) n.
    + cmp (a + bs) n. apply Hm. lia.
  - rewrite length_app in *. destruct (Nat.leb_spec (a + 2 * bs) n); [|lia].
    rewrite (symMerge_swap n pre (rev xs) (rev ys) l'); rewrite ?length_rev; [|lia..| | |lia].
    + rewrite (app_assoc (rev ys)), <- rev_app_distr, (app_assoc pre).
      destruct (IH (pre ++ rev (xs ++ ys)) l l' (a + 2 * bs) n) as (l2 & -> & Hb2);
        [done|rewrite length_app, length_rev, length_app; lia|lia|lia|].
      exists (rev (xs ++ ys) ++ l2). split; [by rewrite <- app_assoc|]. rewrite app_assoc. constructor; [rewrite length_app; lia|done|done].
    + intros Hr. apply (f_equal length) in Hr. rewrite length_rev in Hr. simpl in Hr. lia.
    + intros Hr. apply (f_equal length) in Hr. rewrite length_rev in Hr. simpl in Hr. lia.
Qed.

Lemma blocks_one bs l l' : blocks bs l l' -> length l <= bs -> l' = rev l.
Proof.
  intros Hb Hl. destruct Hb as [xs ?|xs l l' Hxs Hne Hb]; [done|]. rewrite length_app in Hl.
  destruct l; [done|simpl in *; lia].
Qed.

Lemma mergeAll_reverse fuel bs l l' : 0 < bs -> blocks bs l l' -> length l <= bs + fuel ->
  mergeAll indexAfter fuel bs (length l) l' = rev l.
Proof.
  revert bs l'. induction fuel as [|fuel IH]; intros bs l' Hbs Hb Hf; cbn [mergeAll].
  { apply (blocks_one bs); [done|lia]. }
  destruct (Nat.ltb_spec bs (length l)) as [Hlt|Hge]; [|by apply (blocks_one bs)].
  destruct (mergeBlocks_blocks (S (length l)) bs [] l l' 0 (length l)) as (l2 & Hm & Hb2); [done..|lia|]. cbn [app] in Hm. rewrite Hm.
  apply IH; [lia|done|lia].
Qed.

(** Sorting a slice with the comparison of indexes [i > j] reverses it. *)
Theorem SliceStable_reverse l : SliceStable indexAfter l = rev l.
Proof.
  unfold SliceStable. destruct (sortBlocks_blocks (S (length l)) 20 [] l 0 (length l)) as (l' & Hs & Hb); [lia|done|done|lia|].
  cbn [app] in Hs. rewrite Hs. apply mergeAll_reverse; [lia|done|lia].
Qed.

End Reverse.
End GoSort.
