(* ===== verification/Bytes.v ===== *)
(** * Bytes and little-endian integers

    What the code uses of Go's [encoding/binary], [hash/crc32] and [unicode/utf16]:
    little-endian fields, the IEEE checksum and UTF-16.  A byte is a number below
    256, a slice of bytes a list. *)

From S2P Require Import Prelude.
From Stdlib Require Import ZArith.

Module Bytes.

Open Scope Z_scope.

Abbreviation bytes := (list Z).

Definition isByte (b : Z) : Prop := 0 <= b < 256.
Definition isBytes (l : bytes) : Prop := Forall isByte l.

Definition zeros (n : nat) : bytes := replicate n 0.
Definition len {A} (l : list A) : Z := Z.of_nat (length l).

(** Conversions to Go's fixed-width integers. *)
Definition u32 (z : Z) : Z := z mod 2 ^ 32.
Definition u64 (z : Z) : Z := z mod 2 ^ 64.
Definition i64 (z : Z) : Z := (z + 2 ^ 63) mod 2 ^ 64 - 2 ^ 63.

Lemma u64_small z : 0 <= z < 2 ^ 64 -> u64 z = z.
Proof. apply Z.mod_small. Qed.

Lemma u32_small z : 0 <= z < 2 ^ 32 -> u32 z = z.
Proof. apply Z.mod_small. Qed.

Lemma i64_small z : - 2 ^ 63 <= z < 2 ^ 63 -> i64 z = z.
Proof. intros. unfold i64. rewrite Z.mod_small; lia. Qed.

(** ** Integers *)

Fixpoint le (n : nat) (v : Z) : bytes :=
  match n with
  | O => []
  | S n => v mod 256 :: le n (v / 256)
  end.

Fixpoint unle (l : bytes) : Z :=
  match l with
  | [] => 0
  | b :: l => b + 256 * unle l
  end.

Definition width (n : nat) : Z := 2 ^ (8 * Z.of_nat n).

Lemma le_length n v : length (le n v) = n.
Proof. revert v. induction n; intros; simpl; auto. Qed.

Lemma le_isBytes n v : isBytes (le n v).
Proof. revert v. induction n as [|n IH]; intros v; constructor; [|apply IH]. apply Z.mod_pos_bound. lia. Qed.

Lemma width_S n : width (S n) = 256 * width n.
Proof. unfold width. rewrite Nat2Z.inj_succ, Z.mul_succ_r, Z.add_comm, Z.pow_add_r by lia. done. Qed.

Lemma unle_le n v : 0 <= v < width n -> unle (le n v) = v.
Proof.
  revert v. induction n as [|n IH]; intros v Hv; [unfold width in Hv; simpl in *; lia|]. simpl. rewrite width_S in Hv.
  rewrite IH.
  - pose proof (Z.div_mod v 256). lia.
  - split; [apply Z.div_pos; lia|]. apply Z.div_lt_upper_bound; lia.
Qed.

Lemma unle_bound l : isBytes l -> 0 <= unle l < width (length l).
Proof.
  induction 1 as [|b l Hb Hl IH]; [unfold width; simpl; lia|]. cbn [unle length]. rewrite width_S. unfold isByte in Hb. lia.
Qed.

Lemma le_unle l : isBytes l -> le (length l) (unle l) = l.
Proof.
  induction 1 as [|b l Hb Hl IH]; [done|]. cbn [length le unle]. unfold isByte in Hb.
  rewrite (Z.mul_comm 256), Z.mod_add, Z.mod_small, Z.div_add, Z.div_small, Z.add_0_l by lia. by rewrite IH.
Qed.

(** ** Reading fields off the front *)

Definition getBytes (n : nat) (l : bytes) : bytes * bytes := (take n l, drop n l).
Definition getLE (n : nat) (l : bytes) : Z * bytes := (unle (take n l), drop n l).

Fixpoint getLEs (k : nat) (n : nat) (l : bytes) : list Z :=
  match k with O => [] | S k => unle (take n l) :: getLEs k n (drop n l) end.

Lemma getBytes_app n a l : length a = n -> getBytes n (a ++ l) = (a, l).
Proof. intros <-. unfold getBytes. by rewrite take_app_length, drop_app_length. Qed.

Lemma getLE_app n v l : 0 <= v < width n -> getLE n (le n v ++ l) = (v, l).
Proof.
  intros Hv. unfold getLE. rewrite take_app_length', drop_app_length' by (by rewrite le_length). by rewrite unle_le.
Qed.

Lemma getLEs_concat n vs l : Forall (fun v => 0 <= v < width n) vs -> getLEs (length vs) n (concat (le n <$> vs) ++ l) = vs.
Proof.
  induction 1 as [|v vs Hv Hvs IH]; [done|]. cbn [length getLEs fmap list_fmap concat]. rewrite <- app_assoc.
  rewrite take_app_length', drop_app_length' by (by rewrite le_length). by rewrite unle_le, IH by done.
Qed.

(** ** Slices *)

Lemma concat_le_length n vs : length (concat (le n <$> vs)) = (n * length vs)%nat.
Proof. induction vs as [|v vs IH]; cbn; [lia|]. rewrite length_app, le_length, IH. lia. Qed.

Lemma concat_length_uniform {A} (k : nat) (ls : list (list A)) : Forall (fun l => length l = k) ls -> length (concat ls) = (length ls * k)%nat.
Proof. induction 1 as [|a ls Ha Hls IH]; [done|]. cbn [concat length]. rewrite length_app, Ha, IH. lia. Qed.

Lemma len_app {A} (a b : list A) : len (a ++ b) = len a + len b.
Proof. unfold len. rewrite length_app. lia. Qed.

Lemma len_nonneg {A} (l : list A) : 0 <= len l.
Proof. unfold len. lia. Qed.

Lemma zeros_isBytes n : isBytes (zeros n).
Proof. apply Forall_replicate. unfold isByte. lia. Qed.

(** [copy(dst, src)]. *)
Definition copy_ (dst src : bytes) : bytes := take (length dst) src ++ drop (length src) dst.

Lemma copy_length dst src : length (copy_ dst src) = length dst.
Proof. unfold copy_. rewrite length_app, length_take, length_drop. lia. Qed.

(** [bits.OnesCount]. *)
Fixpoint onesPos (p : positive) : Z :=
  match p with xH => 1 | xO p => onesPos p | xI p => 1 + onesPos p end.

(** ** The IEEE checksum *)

Definition crcBit (c : Z) : Z := if Z.odd c then Z.lxor (Z.shiftr c 1) 3988292384 else Z.shiftr c 1.
Definition crcByte (c b : Z) : Z := Nat.iter 8 crcBit (Z.lxor c b).
Definition crcUpdate (c : Z) (l : bytes) : Z := foldl crcByte c l.

(** [crc32.ChecksumIEEE], and [hash.Hash32] of [crc32.NewIEEE]: the sum of everything
    written. *)
Definition ChecksumIEEE (l : bytes) : Z := Z.lxor (crcUpdate 4294967295 l) 4294967295.

Lemma lxor_bound a b : 0 <= a < 2 ^ 32 -> 0 <= b < 2 ^ 32 -> 0 <= Z.lxor a b < 2 ^ 32.
Proof.
  intros Ha Hb. assert (0 <= Z.lxor a b) as H0 by (apply Z.lxor_nonneg; lia). split; [done|].
  destruct (Z.eq_dec (Z.lxor a b) 0) as [->|]; [lia|]. apply Z.log2_lt_pow2; [lia|].
  eapply Z.le_lt_trans; [apply Z.log2_lxor; lia|].
  apply Z.max_lub_lt; [destruct (Z.eq_dec a 0) as [->|]|destruct (Z.eq_dec b 0) as [->|]]; simpl; try lia; apply Z.log2_lt_pow2; lia.
Qed.

Lemma crcBit_bound c : 0 <= c < 2 ^ 32 -> 0 <= crcBit c < 2 ^ 32.
Proof.
  intros Hc. assert (0 <= Z.shiftr c 1 < 2 ^ 32).
  { rewrite Z.shiftr_div_pow2 by lia. split; [apply Z.div_pos; lia|]. apply Z.div_lt_upper_bound; lia. }
  unfold crcBit. case_match; [|done]. apply lxor_bound; lia.
Qed.

Lemma crcUpdate_bound l c : isBytes l -> 0 <= c < 2 ^ 32 -> 0 <= crcUpdate c l < 2 ^ 32.
Proof.
  intros Hl. revert c. induction Hl as [|b l Hb Hl IH]; intros c Hc; [done|]. cbn. apply IH.
  unfold crcByte, isByte in *. cbn. do 8 apply crcBit_bound. apply lxor_bound; lia.
Qed.

Lemma ChecksumIEEE_bound l : isBytes l -> 0 <= ChecksumIEEE l < width 4.
Proof. intros Hl. apply lxor_bound; [|lia]. apply crcUpdate_bound; [done|lia]. Qed.

(** The check value of the checksum. *)
Lemma ChecksumIEEE_check : ChecksumIEEE [49; 50; 51; 52; 53; 54; 55; 56; 57] = 3421780262.
Proof. vm_compute. reflexivity. Qed.

(** The bytes of a string constant. *)
Definition ascii_bytes (s : string) : bytes := (fun c => Z.of_N (N_of_ascii c)) <$> String.list_ascii_of_string s.

(** ** UTF-16 *)

Definition surr1 : Z := 55296.     (* 0xd800 *)
Definition surr2 : Z := 56320.     (* 0xdc00 *)
Definition surr3 : Z := 57344.     (* 0xe000 *)
Definition surrSelf : Z := 65536.
Definition maxRune : Z := 1114111.
Definition replacement : Z := 65533.

Definition encodeRune (r : Z) : list Z :=
  if ((0 <=? r) && (r <? surr1)) || ((surr3 <=? r) && (r <? surrSelf)) then [r]
  else if (surrSelf <=? r) && (r <=? maxRune)
  then [surr1 + (r - surrSelf) / 1024; surr2 + (r - surrSelf) mod 1024]
  else [replacement].
Definition utf16Encode (rs : list Z) : list Z := concat (encodeRune <$> rs).

Fixpoint utf16Decode (us : list Z) : list Z :=
  match us with
  | [] => []
  | r :: us =>
      if (r <? surr1) || (surr3 <=? r) then r :: utf16Decode us
      else match us with
           | r2 :: us' =>
               if (surr1 <=? r) && (r <? surr2) && (surr2 <=? r2) && (r2 <? surr3)
               then ((r - surr1) * 1024 + (r2 - surr2) + surrSelf) :: utf16Decode us'
               else replacement :: utf16Decode us
           | [] => [replacement]
           end
  end.

(** A Unicode scalar value. *)
Definition isRune (r : Z) : Prop := 0 <= r < surr1 \/ surr3 <= r <= maxRune.

Lemma utf16_roundtrip rs us : Forall isRune rs -> utf16Decode (utf16Encode rs ++ us) = rs ++ utf16Decode us.
Proof.
  induction 1 as [|r rs Hr Hrs IH]; [done|]. unfold utf16Encode in *. cbn [fmap list_fmap concat]. rewrite <- app_assoc.
  unfold encodeRune, isRune, surr1, surr2, surr3, surrSelf, maxRune in *.
  destruct (_ || _) eqn:Hb.
  - cbn [app utf16Decode]. unfold surr1, surr3. replace ((r <? 55296) || (57344 <=? r)) with true; [by rewrite IH|].
    symmetry. rewrite orb_true_iff, Z.ltb_lt, Z.leb_le. lia.
  - assert (65536 <= r <= 1114111) as Hr'.
    { rewrite orb_false_iff, !andb_false_iff, !Z.leb_gt, !Z.ltb_ge in Hb. lia. }
    replace ((65536 <=? r) && (r <=? 1114111)) with true by (symmetry; rewrite andb_true_iff, !Z.leb_le; lia).
    pose proof (Z.div_mod (r - 65536) 1024). pose proof (Z.mod_pos_bound (r - 65536) 1024).
    assert (0 <= (r - 65536) / 1024 < 1024) by (split; [apply Z.div_pos; lia|apply Z.div_lt_upper_bound; lia]).
    cbn [app utf16Decode]. unfold surr1, surr2, surr3, surrSelf.
    rewrite (proj2 (Z.ltb_ge _ _)), (proj2 (Z.leb_gt _ _)) by lia. cbn [orb].
    rewrite !(proj2 (Z.leb_le _ _)), !(proj2 (Z.ltb_lt _ _)) by lia. cbn [andb]. rewrite IH. f_equal. lia.
Qed.

Lemma encodeRune_width r : Forall (fun v => 0 <= v < width 2) (encodeRune r).
Proof.
  unfold encodeRune, surr1, surr2, surr3, surrSelf, maxRune, replacement. change (width 2) with 65536.
  destruct (_ || _) eqn:H1.
  - constructor; [|constructor]. rewrite orb_true_iff, !andb_true_iff, !Z.leb_le, !Z.ltb_lt in H1. lia.
  - destruct ((65536 <=? r) && _) eqn:H2; [|constructor; [lia|constructor]]. rewrite andb_true_iff, !Z.leb_le in H2.
    pose proof (Z.mod_pos_bound (r - 65536) 1024). assert (0 <= (r - 65536) / 1024 < 1024).
    { split; [apply Z.div_pos; lia|apply Z.div_lt_upper_bound; lia]. }
    constructor; [lia|]. constructor; [lia|constructor].
Qed.

Lemma utf16Encode_width rs : Forall (fun v => 0 <= v < width 2) (utf16Encode rs).
Proof. unfold utf16Encode. induction rs; cbn; [constructor|]. apply Forall_app_2; [apply encodeRune_width|done]. Qed.

Lemma utf16_zeros n : utf16Decode (zeros n) = zeros n.
Proof. unfold zeros. induction n as [|n IH]; [done|]. cbn. by rewrite IH. Qed.

End Bytes.
