(* ===== verification/BlockDev.v ===== *)
(** * Block devices

    Models [osbase/blockdev]: the interface [BlockDev] as a class of operations and
    its contract as a class of laws, the memory-backed device, sections of a device,
    the seeker on top of one, and zeroing in software.

    An operation that mutates the device returns its new state.  Slicing out of
    bounds panics, which is [None]. *)

From S2P Require Import Prelude Bytes.
From Stdlib Require Import ZArith.

Module BlockDev.
Import Bytes.
Open Scope Z_scope.

Definition EOF : string := "EOF".
Definition ErrOutOfBounds : string := "write out of bounds".

Class BlockDev := {
  dev : Type;
  BlockSize : dev -> Z;
  BlockCount : dev -> Z;
  OptimalBlockSize : dev -> Z;
  (** The buffer given and the offset; the buffer afterwards, the number of bytes
      read and the error. *)
  ReadAt : dev -> bytes -> Z -> option (bytes * Z * option string);
  WriteAt : dev -> bytes -> Z -> option (Z * option string * dev);
  Discard : dev -> Z -> Z -> option (option string * dev);
  Zero : dev -> Z -> Z -> option (option string * dev)
}.

Definition size `{BlockDev} (d : dev) : Z := BlockSize d * BlockCount d.

(** [p[:n]]. *)
Definition sliceTo (p : bytes) (n : Z) : option bytes :=
  if (0 <=? n) && (n <=? len p) then Some (take (Z.to_nat n) p) else None.

(** ** The contract *)

(** The contents [f] with [p] written at [off]. *)
Definition overlay (f : Z -> Z) (off : Z) (p : bytes) : Z -> Z := fun x =>
  if (off <=? x) && (x <? off + len p) then nth (Z.to_nat (x - off)) p 0 else f x.

(** The [n] bytes from [off]. *)
Definition bytesAt (f : Z -> Z) (off : Z) (n : nat) : bytes := (fun i => f (off + Z.of_nat i)) <$> seq 0 n.

(** Every block of size [bs] of [h] is as in [f] or as in [g]: what is left of [f]
    when writing [g] over it is interrupted. *)
Definition torn (bs : Z) (f g h : Z -> Z) : Prop :=
  forall k, (forall x, k * bs <= x < (k + 1) * bs -> h x = f x) \/ (forall x, k * bs <= x < (k + 1) * bs -> h x = g x).

Definition unchangedOutside (a b : Z) (f g : Z -> Z) : Prop := forall x, ~ (a <= x < b) -> g x = f x.

Definition sameGeometry `{BlockDev} (d d' : dev) : Prop := BlockSize d' = BlockSize d /\ BlockCount d' = BlockCount d.

(** What the users of a device rely on: it has contents, which reads return and
    writes of whole blocks change; a write that fails has written some of the blocks. *)
Class BlockDevLaws (B : BlockDev) := {
  valid : dev -> Prop;
  byteAt : dev -> Z -> Z;
  valid_geometry d : valid d -> 0 < BlockSize d /\ 0 <= BlockCount d;
  ReadAt_ok d p off : valid d -> 0 <= off < size d -> off + len p <= size d ->
    ReadAt d p off = Some (bytesAt (byteAt d) off (length p), len p, None);
  WriteAt_ok d p off : valid d -> 0 <= off -> off + len p <= size d -> (BlockSize d | off) -> (BlockSize d | len p) ->
    exists n e d', WriteAt d p off = Some (n, e, d') /\ valid d' /\ sameGeometry d d' /\
      match e with
      | None => n = len p /\ forall x, byteAt d' x = overlay (byteAt d) off p x
      | Some _ => torn (BlockSize d) (byteAt d) (overlay (byteAt d) off p) (byteAt d')
      end;
  Zero_ok d a b : valid d -> 0 <= a < b -> b <= size d -> (BlockSize d | a) -> (BlockSize d | b) ->
    exists e d', Zero d a b = Some (e, d') /\ valid d' /\ sameGeometry d d' /\ unchangedOutside a b (byteAt d) (byteAt d') /\
      (e = None -> forall x, a <= x < b -> byteAt d' x = 0);
  Discard_ok d a b : valid d -> 0 <= a < b -> b <= size d -> (BlockSize d | a) -> (BlockSize d | b) ->
    exists e d', Discard d a b = Some (e, d') /\ valid d' /\ sameGeometry d d' /\ unchangedOutside a b (byteAt d) (byteAt d')
}.

(** ** [Memory] *)

Record Memory := mkMemory { blockSize : Z; blockCount : Z; data : bytes }.

Definition OnesCount64 (z : Z) : Z := match u64 z with Zpos p => onesPos p | _ => 0 end.

Definition NewMemory (bs bc : Z) : result string Memory :=
  guard! negb (bs <=? 0) else "block size cannot be zero or negative"%string in
  guard! negb (1 <? OnesCount64 bs) else "block size must be a power of two"%string in
  guard! negb (bc <? 0) else "block count cannot be negative"%string in
  Ok (mkMemory bs bc (zeros (Z.to_nat (bs * bc)))).

(** [data[off:]]. *)
Definition sliceFrom (l : bytes) (off : Z) : option bytes :=
  if (0 <=? off) && (off <=? len l) then Some (drop (Z.to_nat off) l) else None.

Definition memReadAt (m : Memory) (p : bytes) (off : Z) : option (bytes * Z * option string) :=
  let devSize := blockSize m * blockCount m in
  if devSize <? off then Some (p, 0, Some EOF)
  else
    rest ← sliceFrom (data m) off;
    let p' := copy_ p rest in
    let n := len rest in
    Some (if n <? len p then (p', n, Some EOF) else (p', len p, None)).

Definition memWriteAt (m : Memory) (p : bytes) (off : Z) : option (Z * option string * Memory) :=
  let devSize := blockSize m * blockCount m in
  if devSize <? off then Some (0, Some EOF, m)
  else
    rest ← sliceFrom (data m) off;
    let m' := mkMemory (blockSize m) (blockCount m) (take (Z.to_nat off) (data m) ++ copy_ rest p) in
    let n := len rest in
    Some (if n <? len p then (n, Some EOF, m') else (len p, None, m')).

Definition validRange (m : Memory) (startByte endByte : Z) : result string unit :=
  guard! negb (endByte <? startByte) else "startByte larger than endByte, invalid interval"%string in
  let devSize := blockSize m * blockCount m in
  guard! negb ((devSize <=? startByte) || (startByte <? 0)) else "startByte out of range"%string in
  guard! negb ((devSize <? endByte) || (endByte <? 0)) else "endByte out of range"%string in
  guard! Z.land startByte (blockSize m - 1) =? 0 else "startByte is not aligned to blockSize"%string in
  guard! Z.land endByte (blockSize m - 1) =? 0 else "endByte is not aligned to blockSize"%string in
  Ok tt.

(** [for i := startByte; i < endByte; i++ { m.data[i] = b }]. *)
Definition fillRange (m : Memory) (startByte endByte b : Z) : Memory :=
  mkMemory (blockSize m) (blockCount m)
    (foldl (fun l i => <[(Z.to_nat startByte + i)%nat := b]> l) (data m) (seq 0 (Z.to_nat (endByte - startByte)))).

Definition memDiscard (m : Memory) (startByte endByte : Z) : option (option string * Memory) :=
  match validRange m startByte endByte with
  | Err e => Some (Some e, m)
  | Ok _ => Some (None, fillRange m startByte endByte 170)
  end.

Definition memZero (m : Memory) (startByte endByte : Z) : option (option string * Memory) :=
  match validRange m startByte endByte with
  | Err e => Some (Some e, m)
  | Ok _ => Some (None, fillRange m startByte endByte 0)
  end.

#[export] Instance Memory_BlockDev : BlockDev := {|
  dev := Memory; BlockSize := blockSize; BlockCount := blockCount; OptimalBlockSize := blockSize;
  ReadAt := memReadAt; WriteAt := memWriteAt; Discard := memDiscard; Zero := memZero
|}.

(** ** [Section] *)

Section sections.
Context `{B : BlockDev}.

Record Section_ := mkSection { b : dev; startBlock : Z; endBlock : Z }.

Definition NewSection (d : dev) (s e : Z) : Section_ := mkSection d s e.

Definition secReadAt (s : Section_) (p : bytes) (off : Z) : option (bytes * Z * option string) :=
  let bOff := off + startBlock s * BlockSize (b s) in
  let bytesToEnd := endBlock s * BlockSize (b s) - bOff in
  if bytesToEnd <=? 0 then Some (p, 0, Some EOF)
  else if bytesToEnd <? len p
  then
    q ← sliceTo p bytesToEnd;
    '(q', n, err) ← ReadAt (b s) q bOff;
    Some (q' ++ drop (length q) p, n, err)
  else ReadAt (b s) p bOff.

Definition set_b (s : Section_) (d : dev) : Section_ := mkSection d (startBlock s) (endBlock s).

Definition secWriteAt (s : Section_) (p : bytes) (off : Z) : option (Z * option string * Section_) :=
  let bOff := off + startBlock s * BlockSize (b s) in
  let bytesToEnd := endBlock s * BlockSize (b s) - bOff in
  if bytesToEnd <=? 0 then Some (0, Some ErrOutOfBounds, s)
  else if bytesToEnd <? len p
  then
    q ← sliceTo p bytesToEnd;
    '(n, err, d') ← WriteAt (b s) q (off + startBlock s * BlockSize (b s));
    Some (n, match err with Some e => Some e | None => Some ErrOutOfBounds end, set_b s d')
  else
    '(n, err, d') ← WriteAt (b s) p (off + startBlock s * BlockSize (b s));
    Some (n, err, set_b s d').

Definition secBlockCount (s : Section_) : Z := endBlock s - startBlock s.
Definition secBlockSize (s : Section_) : Z := BlockSize (b s).

Definition inRange (s : Section_) (startByte endByte : Z) : result string unit :=
  guard! negb (endByte <? startByte) else "invalid range: startByte bigger than endByte"%string in
  let sectionLen := secBlockCount s * secBlockSize s in
  guard! negb (sectionLen <=? startByte) else "startByte out of range"%string in
  guard! negb (sectionLen <? endByte) else "endBlock out of range"%string in
  Ok tt.

Definition secDiscard (s : Section_) (startByte endByte : Z) : option (option string * Section_) :=
  match inRange s startByte endByte with
  | Err e => Some (Some e, s)
  | Ok _ =>
      let offset := startBlock s * BlockSize (b s) in
      '(e, d') ← Discard (b s) (offset + startByte) (offset + endByte);
      Some (e, set_b s d')
  end.

Definition secZero (s : Section_) (startByte endByte : Z) : option (option string * Section_) :=
  match inRange s startByte endByte with
  | Err e => Some (Some e, s)
  | Ok _ =>
      let offset := startBlock s * BlockSize (b s) in
      '(e, d') ← Zero (b s) (offset + startByte) (offset + endByte);
      Some (e, set_b s d')
  end.

(** A section is a device itself. *)
Definition Section_BlockDev : BlockDev := {|
  dev := Section_; BlockSize := secBlockSize; BlockCount := secBlockCount; OptimalBlockSize s := OptimalBlockSize (b s);
  ReadAt := secReadAt; WriteAt := secWriteAt; Discard := secDiscard; Zero := secZero
|}.

(** ** Zeroing in software *)

(** The loop from [i], with the buffer it writes. *)
Fixpoint zeroLoop (fuel : nat) (d : dev) (buf : bytes) (bufSize i endByte : Z) : option (option string * dev) :=
  match fuel with
  | O => None
  | S fuel =>
      if i <? endByte
      then
        buf ← (if endByte - i <? bufSize then sliceTo buf (endByte - i) else Some buf);
        '(_, err, d') ← WriteAt d buf i;
        match err with
        | Some e => Some (Some e, d')
        | None => zeroLoop fuel d' buf bufSize (i + bufSize) endByte
        end
      else Some (None, d)
  end.

Definition GenericZero (d : dev) (startByte endByte : Z) : option (option string * dev) :=
  if negb (Z.rem startByte (BlockSize d) =? 0) then Some (Some "startByte needs to be aligned to block size"%string, d)
  else if negb (Z.rem endByte (BlockSize d) =? 0) then Some (Some "endByte needs to be aligned to block size"%string, d)
  else
    let bufSizeTarget := if endByte - startByte <? 16 * 1024 * 1024 then endByte - startByte else 16 * 1024 * 1024 in
    let bufSize := Z.quot bufSizeTarget (BlockSize d) * BlockSize d in
    if bufSize <? 0 then None
    else zeroLoop (S (Z.to_nat (endByte - startByte))) d (zeros (Z.to_nat bufSize)) bufSize startByte endByte.

(** ** [ReadWriteSeeker] *)

Record ReadWriteSeeker := mkRWS { rb : dev; currPos : Z }.
Definition NewRWS (d : dev) : ReadWriteSeeker := mkRWS d 0.

Definition rwsRead (s : ReadWriteSeeker) (p : bytes) : option (bytes * Z * option string * ReadWriteSeeker) :=
  '(p', n, err) ← ReadAt (rb s) p (currPos s);
  Some (p', n, err, mkRWS (rb s) (currPos s + n)).

Definition rwsWrite (s : ReadWriteSeeker) (p : bytes) : option (Z * option string * ReadWriteSeeker) :=
  '(n, err, d') ← WriteAt (rb s) p (currPos s);
  Some (n, err, mkRWS d' (currPos s + n)).

Inductive whence := SeekStart | SeekCurrent | SeekEnd.

Definition Seek (s : ReadWriteSeeker) (offset : Z) (w : whence) : Z * ReadWriteSeeker :=
  let pos := match w with
             | SeekCurrent => currPos s + offset
             | SeekStart => offset
             | SeekEnd => BlockCount (rb s) * BlockSize (rb s) - offset
             end in
  (pos, mkRWS (rb s) pos).

End sections.
End BlockDev.

(** * Block devices: the contract holds

    The memory-backed device and sections of any device that keeps the contract keep
    it; sections confine their users; zeroing in software zeroes. *)

Module BlockDevProps.
Import Bytes BlockDev.
Open Scope Z_scope.

(** ** Contents *)

Lemma bytesAt_length f off n : length (bytesAt f off n) = n.
Proof. unfold bytesAt. by rewrite length_fmap, length_seq. Qed.

Lemma bytesAt_S f off n : bytesAt f off (S n) = f off :: bytesAt f (off + 1) n.
Proof.
  unfold bytesAt. cbn [seq]. rewrite fmap_cons, Z.add_0_r. f_equal. rewrite <- (fmap_S_seq 0 n), <- list_fmap_compose.
  apply list_fmap_ext. intros i x _. unfold compose. f_equal. lia.
Qed.

Lemma bytesAt_app f off n k : bytesAt f off (n + k) = bytesAt f off n ++ bytesAt f (off + Z.of_nat n) k.
Proof.
  revert off. induction n as [|n IH]; intros off; [by rewrite Z.add_0_r|]. cbn [Nat.add]. rewrite !bytesAt_S, IH. cbn [app].
  do 3 f_equal. lia.
Qed.

Lemma bytesAt_ext f g off n : (forall x, off <= x < off + Z.of_nat n -> f x = g x) -> bytesAt f off n = bytesAt g off n.
Proof.
  revert off. induction n as [|n IH]; intros off H; [done|]. rewrite !bytesAt_S, H by lia. f_equal. apply IH. intros x ?. apply H. lia.
Qed.

Lemma bytesAt_nth f off n i : (i < n)%nat -> nth i (bytesAt f off n) 0 = f (off + Z.of_nat i).
Proof.
  revert off n. induction i as [|i IH]; intros off [|n] Hi; try lia; rewrite bytesAt_S; cbn [nth]; [by rewrite Z.add_0_r|].
  rewrite IH by lia. f_equal. lia.
Qed.

Lemma overlay_in f off p x : off <= x < off + len p -> overlay f off p x = nth (Z.to_nat (x - off)) p 0.
Proof. intros. unfold overlay. by rewrite (proj2 (Z.leb_le _ _)), (proj2 (Z.ltb_lt _ _)) by lia. Qed.

Lemma overlay_out f off p x : ~ (off <= x < off + len p) -> overlay f off p x = f x.
Proof.
  intros. unfold overlay. destruct (Z.leb_spec off x); [|done]. by rewrite (proj2 (Z.ltb_ge _ _)) by lia.
Qed.

(** What was written is read back. *)
Lemma bytesAt_overlay f off p : bytesAt (overlay f off p) off (length p) = p.
Proof.
  revert f off. induction p as [|c p IH]; intros f off; [done|]. cbn [length]. rewrite bytesAt_S. f_equal.
  - rewrite overlay_in by (unfold len; cbn [length]; lia). by rewrite Z.sub_diag.
  - etrans; [|apply (IH f (off + 1))]. apply bytesAt_ext. intros x Hx.
    rewrite !overlay_in by (unfold len; cbn [length]; lia). replace (Z.to_nat (x - off)) with (S (Z.to_nat (x - (off + 1)))) by lia. done.
Qed.

Lemma bytesAt_overlay_out f off p off' n :
  off' + Z.of_nat n <= off \/ off + len p <= off' -> bytesAt (overlay f off p) off' n = bytesAt f off' n.
Proof. intros H. apply bytesAt_ext. intros x Hx. apply overlay_out. lia. Qed.

(** A part of what was written. *)
Lemma bytesAt_overlay_app f off p q r :
  bytesAt (overlay f off (p ++ q ++ r)) (off + len p) (length q) = q.
Proof.
  etrans; [|apply (bytesAt_overlay f (off + len p) q)]. apply bytesAt_ext. unfold len. intros x Hx.
  rewrite !overlay_in by (unfold len; rewrite ?length_app; lia). unfold len in *.
  rewrite app_nth2 by lia. rewrite app_nth1 by lia. f_equal. lia.
Qed.

Lemma torn_outside bs f off p h x : 0 < bs -> torn bs f (overlay f off p) h -> ~ (off <= x < off + len p) -> h x = f x.
Proof.
  intros Hbs Ht Hx. destruct (Ht (x / bs)) as [H|H].
  - apply H. pose proof (Z.div_mod x bs). pose proof (Z.mod_pos_bound x bs). lia.
  - rewrite H; [by apply overlay_out|]. pose proof (Z.div_mod x bs). pose proof (Z.mod_pos_bound x bs). lia.
Qed.

Lemma nth_drop_ (l : bytes) i j : nth j (drop i l) 0 = nth (i + j) l 0.
Proof. revert l. induction i as [|i IH]; intros [|c l]; try done; [by destruct j|apply IH]. Qed.

Lemma nth_take_ (l : bytes) i j : (j < i)%nat -> nth j (take i l) 0 = nth j l 0.
Proof. revert l j. induction i as [|i IH]; intros [|c l] [|j] ?; try done; try lia. cbn. apply IH. lia. Qed.

(** ** The memory-backed device *)

Definition memByte (m : Memory) (x : Z) : Z := if 0 <=? x then nth (Z.to_nat x) (data m) 0 else 0.

Definition powerOfTwo (z : Z) : Prop := exists k, 0 <= k /\ z = 2 ^ k.

Definition memValid (m : Memory) : Prop :=
  powerOfTwo (blockSize m) /\ 0 <= blockCount m /\ len (data m) = blockSize m * blockCount m.

Lemma mem_geometry m : memValid m -> 0 < blockSize m /\ 0 <= blockCount m.
Proof. intros ((k & Hk & ->) & ? & _). split; [apply Z.pow_pos_nonneg; lia|done]. Qed.

Lemma sliceFrom_ok l off : 0 <= off <= len l -> sliceFrom l off = Some (drop (Z.to_nat off) l).
Proof. intros. unfold sliceFrom. by rewrite !(proj2 (Z.leb_le _ _)) by lia. Qed.

Lemma sliceTo_ok p n : 0 <= n <= len p -> sliceTo p n = Some (take (Z.to_nat n) p).
Proof. intros. unfold sliceTo. by rewrite !(proj2 (Z.leb_le _ _)) by lia. Qed.

Lemma memReadAt_ok m p off : memValid m -> 0 <= off < blockSize m * blockCount m -> off + len p <= blockSize m * blockCount m ->
  memReadAt m p off = Some (bytesAt (memByte m) off (length p), len p, None).
Proof.
  intros (_ & _ & Hl) H0 Hr. pose proof (len_nonneg p). unfold memReadAt. rewrite (proj2 (Z.ltb_ge _ _)) by lia.
  rewrite sliceFrom_ok by lia. cbn [mbind option_bind]. unfold len in *.
  rewrite (proj2 (Z.ltb_ge _ _)) by (rewrite length_drop; lia). do 3 f_equal. unfold copy_.
  rewrite (drop_ge p), app_nil_r by (rewrite length_drop; lia). apply nth_ext with (d := 0) (d' := 0).
  - rewrite length_take, length_drop, bytesAt_length. lia.
  - intros i Hi. rewrite length_take in Hi. rewrite bytesAt_nth, nth_take_, nth_drop_ by lia. unfold memByte.
    rewrite (proj2 (Z.leb_le _ _)) by lia. f_equal. lia.
Qed.

Lemma memWriteAt_ok m p off : memValid m -> 0 <= off -> off + len p <= blockSize m * blockCount m ->
  exists m', memWriteAt m p off = Some (len p, None, m') /\ memValid m' /\ blockSize m' = blockSize m /\ blockCount m' = blockCount m /\
    forall x, memByte m' x = overlay (memByte m) off p x.
Proof.
  intros (Hp & Hc & Hl) H0 Hr. pose proof (len_nonneg p). unfold memWriteAt. rewrite (proj2 (Z.ltb_ge _ _)) by lia.
  rewrite sliceFrom_ok by lia. cbn [mbind option_bind]. unfold len in *.
  rewrite (proj2 (Z.ltb_ge _ _)) by (rewrite length_drop; lia). eexists. split; [done|]. split; [|split_and!; [done..|]].
  { split_and!; [done..|]. cbn. unfold len. rewrite length_app, copy_length, length_take, length_drop. lia. }
  intros x. unfold memByte at 1. cbn [data]. destruct (Z.leb_spec 0 x) as [Hx|Hx].
  - destruct (Z_lt_ge_dec x off).
    + rewrite overlay_out by (unfold len; lia). unfold memByte. rewrite (proj2 (Z.leb_le _ _)) by lia.
      rewrite app_nth1, nth_take_ by (rewrite ?length_take; lia). done.
    + rewrite app_nth2 by (rewrite length_take; lia). rewrite length_take_le by lia. unfold copy_.
      rewrite firstn_all2 by (rewrite length_drop; lia).
      destruct (Z_lt_ge_dec x (off + len p)); unfold len in *.
      * rewrite overlay_in by (unfold len; lia). rewrite app_nth1 by lia. f_equal. lia.
      * rewrite overlay_out by (unfold len; lia). rewrite app_nth2 by lia. rewrite !nth_drop_. unfold memByte.
        rewrite (proj2 (Z.leb_le _ _)) by lia. f_equal. lia.
  - rewrite overlay_out by lia. unfold memByte. by rewrite (proj2 (Z.leb_gt _ _)) by lia.
Qed.

Lemma aligned_land bs a : powerOfTwo bs -> (bs | a) -> Z.land a (bs - 1) = 0.
Proof.
  intros (k & Hk & ->) Ha. replace (2 ^ k - 1) with (Z.ones k) by (rewrite Z.ones_equiv; lia).
  rewrite Z.land_ones by done. apply Z.mod_divide; [|done]. pose proof (Z.pow_pos_nonneg 2 k). lia.
Qed.

Lemma validRange_ok m s e : memValid m -> 0 <= s < e -> e <= blockSize m * blockCount m -> (blockSize m | s) -> (blockSize m | e) ->
  validRange m s e = Ok tt.
Proof.
  intros (Hp & _ & _) Hs He Ds De. unfold validRange. rewrite !aligned_land by done.
  rewrite (proj2 (Z.ltb_ge e s)), (proj2 (Z.leb_gt _ s)), (proj2 (Z.ltb_ge s 0)), (proj2 (Z.ltb_ge _ e)), (proj2 (Z.ltb_ge e 0)) by lia. done.
Qed.

Lemma fillRange_ok m s e c : memValid m -> 0 <= s < e -> e <= blockSize m * blockCount m ->
  memValid (fillRange m s e c) /\ forall x, memByte (fillRange m s e c) x = if (s <=? x) && (x <? e) then c else memByte m x.
Proof.
  intros (Hp & Hc & Hl) Hs He.
  assert (forall n l, (Z.to_nat s + n <= length l)%nat ->
    let l' := foldl (fun l i => <[(Z.to_nat s + i)%nat := c]> l) l (seq 0 n) in
    length l' = length l /\ forall j, nth j l' 0 = if decide (Z.to_nat s <= j < Z.to_nat s + n)%nat then c else nth j l 0) as Hf.
  { induction n as [|n IH]; intros l Hn; cbn zeta.
    - split; [done|]. intros j. rewrite decide_False by lia. done.
    - rewrite seq_S, foldl_app. cbn [foldl Nat.add]. destruct (IH l) as [H1 H2]; [lia|].
      split; [by rewrite length_insert|]. intros j. rewrite !nth_lookup. destruct (decide (j = Z.to_nat s + n)%nat) as [->|Hj].
      + rewrite list_lookup_insert_eq by lia. by rewrite decide_True by lia.
      + rewrite list_lookup_insert_ne by lia. rewrite <- nth_lookup, H2, <- nth_lookup.
        destruct (decide (Z.to_nat s <= j < Z.to_nat s + n)%nat); [by rewrite decide_True by lia|by rewrite decide_False by lia]. }
  unfold len in *. destruct (Hf (Z.to_nat (e - s)) (data m)) as [H1 H2]; [lia|]. split.
  - split_and!; [done..|]. cbn. unfold len. rewrite H1. lia.
  - intros x. unfold memByte. cbn [fillRange data]. destruct (Z.leb_spec 0 x).
    + rewrite H2. destruct (decide _).
      * by rewrite (proj2 (Z.leb_le _ _)), (proj2 (Z.ltb_lt _ _)) by lia.
      * destruct (Z.leb_spec s x); [|done]. by rewrite (proj2 (Z.ltb_ge _ _)) by lia.
    + by rewrite (proj2 (Z.leb_gt s x)) by lia.
Qed.

#[export] Instance Memory_laws : BlockDevLaws Memory_BlockDev.
Proof.
  refine {| valid := memValid : @dev Memory_BlockDev -> Prop; byteAt := memByte : @dev Memory_BlockDev -> _ |}.
  - exact mem_geometry.
  - exact memReadAt_ok.
  - intros m p off Hm H0 Hr _ _. destruct (memWriteAt_ok m p off Hm H0 Hr) as (m' & ? & ? & ? & ? & ?).
    exists (len p), None, m'. done.
  - intros m s e Hm Hs He Ds De. exists None, (fillRange m s e 0). cbn. unfold memZero. rewrite validRange_ok by done.
    destruct (fillRange_ok m s e 0 Hm Hs He) as [Hv Hx]. split_and!; [done..| |]; intros x.
    + intros Hn. rewrite Hx. destruct (Z.leb_spec s x); [|done]. by rewrite (proj2 (Z.ltb_ge _ _)) by lia.
    + intros y Hy. rewrite Hx. by rewrite (proj2 (Z.leb_le _ _)), (proj2 (Z.ltb_lt _ _)) by lia.
  - intros m s e Hm Hs He Ds De. exists None, (fillRange m s e 170). cbn. unfold memDiscard. rewrite validRange_ok by done.
    destruct (fillRange_ok m s e 170 Hm Hs He) as [Hv Hx]. split_and!; [done..|]; intros x Hn.
    rewrite Hx. destruct (Z.leb_spec s x); [|done]. by rewrite (proj2 (Z.ltb_ge _ _)) by lia.
Defined.

(** ** Sections *)

Section sections.
Context {B : BlockDev} {L : BlockDevLaws B}.

Definition secValid (s : Section_) : Prop := valid (b s) /\ 0 <= startBlock s <= endBlock s /\ endBlock s <= BlockCount (b s).
Definition base (s : Section_) : Z := startBlock s * BlockSize (b s).
Definition secByte (s : Section_) (x : Z) : Z := byteAt (b s) (x + base s).

Lemma sec_geometry s : secValid s -> 0 < secBlockSize s /\ 0 <= secBlockCount s.
Proof. intros (Hv & ? & ?). apply valid_geometry in Hv. unfold secBlockSize, secBlockCount. lia. Qed.

(** Where a section is in its device. *)
Lemma sec_bounds s : secValid s ->
  0 <= base s /\ base s + secBlockSize s * secBlockCount s = endBlock s * BlockSize (b s) /\ endBlock s * BlockSize (b s) <= size (b s) /\
  (BlockSize (b s) | base s).
Proof.
  intros (Hv & ? & ?). apply valid_geometry in Hv as [? ?]. unfold base, secBlockSize, secBlockCount, size.
  split_and!; [nia|lia|nia|apply Z.divide_factor_r].
Qed.

Lemma overlay_shift f off p x k : overlay f (off + k) p (x + k) = overlay (fun y => f (y + k)) off p x.
Proof.
  destruct (decide (off <= x < off + len p)).
  - rewrite !overlay_in by lia. f_equal. lia.
  - rewrite !overlay_out by lia. done.
Qed.

Lemma torn_shift bs f g h k : torn bs f g h -> torn bs (fun x => f (x + k * bs)) (fun x => g (x + k * bs)) (fun x => h (x + k * bs)).
Proof. intros Ht j. destruct (Ht (j + k)) as [H|H]; [left|right]; intros x Hx; apply H; lia. Qed.

Lemma secReadAt_ok s p off : secValid s -> 0 <= off < secBlockSize s * secBlockCount s -> off + len p <= secBlockSize s * secBlockCount s ->
  secReadAt s p off = Some (bytesAt (secByte s) off (length p), len p, None).
Proof.
  intros Hs Ho Hp. pose proof (sec_bounds s Hs) as (? & ? & ? & _). unfold secReadAt. fold (base s).
  rewrite (proj2 (Z.leb_gt _ _)), (proj2 (Z.ltb_ge _ _)) by lia. destruct Hs as (Hv & _). rewrite ReadAt_ok by (done || lia).
  do 3 f_equal. unfold bytesAt. apply list_fmap_ext. intros i x _. unfold secByte. f_equal. lia.
Qed.

(** A write that fits, on the device of the section. *)
Lemma secWriteAt_fits s p off : secValid s -> 0 <= off -> off + len p <= secBlockSize s * secBlockCount s ->
  (secBlockSize s | off) -> (secBlockSize s | len p) ->
  exists n e d', WriteAt (b s) p (off + base s) = Some (n, e, d') /\ valid d' /\ sameGeometry (b s) d' /\
    (forall x, ~ (base s <= x < base s + secBlockSize s * secBlockCount s) -> byteAt d' x = byteAt (b s) x) /\
    match e with
    | None => n = len p /\ forall x, secByte (set_b s d') x = overlay (secByte s) off p x
    | Some _ => torn (secBlockSize s) (secByte s) (overlay (secByte s) off p) (secByte (set_b s d'))
    end.
Proof.
  intros Hs Ho Hp Do Dp. pose proof (sec_bounds s Hs) as (? & ? & ? & Db). pose proof (sec_geometry s Hs) as [Hbs _].
  destruct Hs as (Hv & _). pose proof (len_nonneg p).
  destruct (WriteAt_ok (b s) p (off + base s)) as (n & e & d' & HW & Hv' & HG & He); [done|lia..|by apply Z.divide_add_r|done|].
  exists n, e, d'. split_and!; [done..| |].
  - intros x Hx. destruct e; [eapply torn_outside; [exact Hbs|exact He|lia]|]. destruct He as [_ He]. rewrite He. apply overlay_out. lia.
  - unfold secByte, base in *. cbn [set_b b startBlock]. destruct HG as [HG _]. rewrite HG. destruct e.
    + eapply torn_shift in He. intros k. destruct (He k) as [Hk|Hk]; [left|right]; intros x Hx; rewrite Hk by done; [done|apply overlay_shift].
    + destruct He as [-> He]. split; [done|]. intros x. rewrite He. apply overlay_shift.
Qed.

Lemma inRange_ok s x y : 0 <= x < y -> y <= secBlockSize s * secBlockCount s -> inRange s x y = Ok tt.
Proof.
  intros. unfold inRange. rewrite (Z.mul_comm (secBlockCount s)).
  rewrite (proj2 (Z.ltb_ge _ _)), (proj2 (Z.leb_gt _ _)), (proj2 (Z.ltb_ge _ _)) by lia. done.
Qed.

(** What holds of a range of the device holds of the range of the section. *)
Lemma sec_unchanged s d' x y : sameGeometry (b s) d' ->
  unchangedOutside (base s + x) (base s + y) (byteAt (b s)) (byteAt d') -> unchangedOutside x y (secByte s) (secByte (set_b s d')).
Proof. intros [HG _] H z Hz. unfold secByte, base in *. cbn. rewrite HG. apply H. lia. Qed.

Lemma set_b_valid s d' : secValid s -> valid d' -> sameGeometry (b s) d' -> secValid (set_b s d').
Proof. intros (Hv & H) Hv' [H1 H2]. unfold secValid. cbn. by rewrite H2. Qed.

Definition Section_laws : BlockDevLaws Section_BlockDev.
Proof.
  refine {| valid := secValid : @dev Section_BlockDev -> Prop; byteAt := secByte : @dev Section_BlockDev -> _ |}.
  - exact sec_geometry.
  - exact secReadAt_ok.
  - intros s p off Hs Ho Hp Do Dp. pose proof (sec_bounds s Hs) as (H1 & H2 & H3 & _). unfold size in Hp.
    cbn [WriteAt BlockSize Section_BlockDev BlockCount] in *. unfold secWriteAt. fold (base s).
    destruct (Z.leb_spec (endBlock s * BlockSize (b s) - (off + base s)) 0).
    + exists 0, (Some ErrOutOfBounds), s. split_and!; [done..|]. intros k. by left.
    + rewrite (proj2 (Z.ltb_ge _ _)) by lia. destruct (secWriteAt_fits s p off) as (n & e & d' & -> & Hv & HG & _ & He); [done..|].
      exists n, e, (set_b s d'). split_and!; [done|by apply set_b_valid|..|done]. destruct HG as [HG _]. split; [exact HG|done].
  - intros s x y Hs Hx Hy Dx Dy. pose proof (sec_bounds s Hs) as (H1 & H2 & H3 & Db). unfold size in Hy.
    cbn [Zero BlockSize Section_BlockDev BlockCount] in *. unfold secZero. rewrite inRange_ok by done. fold (base s).
    destruct (Zero_ok (b s) (base s + x) (base s + y)) as (e & d' & -> & Hv & HG & HU & HZ);
      [apply Hs|lia..|by apply Z.divide_add_r|by apply Z.divide_add_r|].
    exists e, (set_b s d'). pose proof HG as [HG' _].
    split_and!; [done|by apply set_b_valid|split; [exact HG'|done]|by apply sec_unchanged|].
    intros -> z Hz. unfold secByte, base in *. cbn. rewrite HG'. apply HZ; [done|lia].
  - intros s x y Hs Hx Hy Dx Dy. pose proof (sec_bounds s Hs) as (H1 & H2 & H3 & Db). unfold size in Hy.
    cbn [Discard BlockSize Section_BlockDev BlockCount] in *. unfold secDiscard. rewrite inRange_ok by done. fold (base s).
    destruct (Discard_ok (b s) (base s + x) (base s + y)) as (e & d' & -> & Hv & HG & HU);
      [apply Hs|lia..|by apply Z.divide_add_r|by apply Z.divide_add_r|].
    exists e, (set_b s d'). pose proof HG as [HG' _].
    split_and!; [done|by apply set_b_valid|split; [exact HG'|done]|by apply sec_unchanged].
Defined.

Lemma divide_min bs x y : (bs | x) -> (bs | y) -> (bs | Z.min x y).
Proof. intros. destruct (Z.min_spec x y) as [[_ ->]|[_ ->]]; done. Qed.

(** A section confines its users: a write of whole blocks at any offset that is
    not negative leaves everything outside of the section as it was, on success has
    written all of the data inside, and fails if the data does not fit. *)
Theorem Section_confined s p off :
  secValid s -> 0 <= off -> (secBlockSize s | off) -> (secBlockSize s | len p) ->
  exists n e s', secWriteAt s p off = Some (n, e, s') /\ secValid s' /\
    startBlock s' = startBlock s /\ endBlock s' = endBlock s /\
    (forall x, ~ (base s <= x < base s + secBlockSize s * secBlockCount s) -> byteAt (b s') x = byteAt (b s) x) /\
    (e = None -> n = len p /\ off + len p <= secBlockSize s * secBlockCount s /\ forall x, secByte s' x = overlay (secByte s) off p x).
Proof.
  intros Hs Ho Do Dp. pose proof (sec_bounds s Hs) as (H1 & H2 & H3 & Db). pose proof (len_nonneg p).
  unfold secWriteAt. fold (base s). destruct (Z.leb_spec (endBlock s * BlockSize (b s) - (off + base s)) 0).
  - by exists 0, (Some ErrOutOfBounds), s.
  - destruct (Z.ltb_spec (endBlock s * BlockSize (b s) - (off + base s)) (len p)).
    + rewrite sliceTo_ok by lia. cbn [mbind option_bind].
      assert (len (take (Z.to_nat (endBlock s * BlockSize (b s) - (off + base s))) p) = secBlockSize s * secBlockCount s - off) as Hlen.
      { unfold len in *. rewrite length_take. lia. }
      destruct (secWriteAt_fits s (take (Z.to_nat (endBlock s * BlockSize (b s) - (off + base s))) p) off)
        as (n & e & d' & -> & Hv & HG & Hout & He); [done..|lia|done| |].
      { rewrite Hlen. apply Z.divide_sub_r; [apply Z.divide_factor_l|done]. }
      exists n. eexists _, (set_b s d'). split; [done|]. split_and!; [by apply set_b_valid|done..|by destruct e].
    + destruct (secWriteAt_fits s p off) as (n & e & d' & -> & Hv & HG & Hout & He); [done..|lia|done|done|].
      exists n, e, (set_b s d'). split; [done|]. split_and!; [by apply set_b_valid|done..|].
      intros ->. destruct He as [-> He]. split_and!; [done|lia|done].
Qed.

(** ** Zeroing in software *)

Lemma zeroLoop_ok fuel d buf bufSize i e : valid d -> 0 < bufSize -> (BlockSize d | bufSize) -> buf = zeros (Z.to_nat bufSize) ->
  0 <= i -> e <= size d -> (BlockSize d | i) -> (BlockSize d | e) -> Z.max 0 (e - i) < Z.of_nat fuel ->
  exists err d', zeroLoop fuel d buf bufSize i e = Some (err, d') /\ valid d' /\ sameGeometry d d' /\
    unchangedOutside i e (byteAt d) (byteAt d') /\ (err = None -> forall x, i <= x < e -> byteAt d' x = 0).
Proof.
  intros Hv Hbuf Dbuf ->. revert d i Hv Dbuf. induction fuel as [|fuel IH]; intros d i Hv Dbuf Hi He Di De Hf.
  { lia. }
  cbn [zeroLoop]. destruct (Z.ltb_spec i e) as [Hlt|Hge].
  2:{ exists None, d. split_and!; [done..|]. intros _ x Hx. lia. }
  set (n := Z.min bufSize (e - i)).
  assert ((if e - i <? bufSize then sliceTo (zeros (Z.to_nat bufSize)) (e - i) else Some (zeros (Z.to_nat bufSize))) =
    Some (zeros (Z.to_nat n))) as ->.
  { destruct (Z.ltb_spec (e - i) bufSize).
    - rewrite sliceTo_ok by (unfold len, zeros; rewrite length_replicate; lia). unfold zeros.
      rewrite take_replicate. do 2 f_equal. unfold n. lia.
    - do 3 f_equal. unfold n. lia. }
  cbn [mbind option_bind]. assert (len (zeros (Z.to_nat n)) = n) as Hn by (unfold len, zeros; rewrite length_replicate; lia).
  destruct (WriteAt_ok d (zeros (Z.to_nat n)) i) as (k & err & d1 & -> & Hv1 & HG1 & Herr); [done|done|lia|done| |].
  { rewrite Hn. apply divide_min; [done|by apply Z.divide_sub_r]. }
  assert (unchangedOutside i e (byteAt d) (byteAt d1)) as HU.
  { intros x Hx. pose proof (valid_geometry d Hv) as [Hbs _]. destruct err as [err|].
    - eapply torn_outside; [exact Hbs|exact Herr|lia].
    - destruct Herr as [_ ->]. apply overlay_out. lia. }
  destruct err as [err|]; [by exists (Some err), d1|]. destruct Herr as [_ Herr].
  destruct HG1 as [HG1 HG2]. cbn [mbind option_bind]. destruct (Z.ltb_spec (e - i) bufSize).
  - destruct fuel as [|fuel]; [lia|]. exists None, d1. cbn [zeroLoop]. rewrite (proj2 (Z.ltb_ge _ _)) by lia.
    split_and!; [done..|]. intros _ x Hx. rewrite Herr, overlay_in by lia.  unfold zeros.
    rewrite nth_lookup, lookup_replicate_2 by lia. done.
  - replace (Z.to_nat n) with (Z.to_nat bufSize) by (unfold n; lia).
    destruct (IH d1 (i + bufSize)) as (err & d2 & -> & Hv2 & [HG3 HG4] & HU2 & HZ); unfold size in *; rewrite ?HG1, ?HG2;
      [done|done|lia|done|by apply Z.divide_add_r|done|lia|].
    exists err, d2. split_and!; [done|done|split; congruence| |].
    + intros x Hx. rewrite HU2 by lia. apply HU. lia.
    + intros -> x Hx. destruct (decide (i + bufSize <= x < e)); [by apply HZ|]. rewrite HU2 by lia.
      rewrite Herr, overlay_in by lia. unfold zeros. rewrite nth_lookup, lookup_replicate_2 by lia. done.
Qed.

(** [GenericZero] keeps the contract of [Zero], on devices whose blocks are not larger
    than its buffer. *)
Theorem GenericZero_ok d x y : valid d -> BlockSize d <= 16 * 1024 * 1024 ->
  0 <= x < y -> y <= size d -> (BlockSize d | x) -> (BlockSize d | y) ->
  exists e d', GenericZero d x y = Some (e, d') /\ valid d' /\ sameGeometry d d' /\ unchangedOutside x y (byteAt d) (byteAt d') /\
    (e = None -> forall z, x <= z < y -> byteAt d' z = 0).
Proof.
  intros Hv Hs Hx Hy Dx Dy. pose proof (valid_geometry d Hv) as [Hbs _]. unfold GenericZero.
  rewrite !Z.rem_mod_nonneg by lia. apply Z.mod_divide in Dx as Mx; [|lia]. apply Z.mod_divide in Dy as My; [|lia].
  rewrite Mx, My. cbn [negb Z.eqb].
  set (target := if y - x <? _ then y - x else _). assert (BlockSize d <= target).
  { unfold target. case_match; [|done]. apply Z.divide_pos_le; [lia|by apply Z.divide_sub_r]. }
  rewrite Z.quot_div_nonneg by lia. pose proof (Z.div_str_pos target (BlockSize d)).
  rewrite (proj2 (Z.ltb_ge _ _)) by nia.
  apply zeroLoop_ok; [done|nia|apply Z.divide_factor_r|done|lia|done..|lia].
Qed.

End sections.

(** A section of the last two of four blocks; the second half of a longer write does
    not fit. *)
Definition exampleMemory : Memory := mkMemory 2 4 [1; 2; 3; 4; 5; 6; 7; 8].
Definition exampleSection : @Section_ Memory_BlockDev := @mkSection Memory_BlockDev exampleMemory 1 3.

Lemma exampleSection_valid : @secValid _ Memory_laws exampleSection.
Proof. unfold secValid. cbn. split_and!; try lia. unfold memValid. cbn. split_and!; [by exists 1|lia|done]. Qed.

Lemma Section_confined_witness :
  @secWriteAt Memory_BlockDev exampleSection [9; 9; 9; 9] 2 =
    Some (2, Some ErrOutOfBounds, @mkSection Memory_BlockDev (mkMemory 2 4 [1; 2; 3; 4; 9; 9; 7; 8]) 1 3) /\
  exists n e s', @secWriteAt Memory_BlockDev exampleSection [9; 9; 9; 9] 2 = Some (n, e, s') /\ memByte (b s') 6 = 7.
Proof.
  split; [reflexivity|].
  destruct (@Section_confined Memory_BlockDev Memory_laws exampleSection [9; 9; 9; 9] 2) as (n & e & s' & -> & _ & _ & _ & Hout & _).
  - exact exampleSection_valid.
  - lia.
  - by exists 1.
  - by exists 2.
  - exists n, e, s'. split; [done|]. apply (Hout 6).
    unfold base, secBlockSize, secBlockCount. cbn. lia.
Defined.

End BlockDevProps.
