(* ===== verification/Gpt.v ===== *)
(** * GUID partition tables

    Models [osbase/gpt] ([gpt.go], [mbr.go]) and [osbase/msguid]: the layout of the
    tables on disk, the search for free space, adding partitions, and writing and
    reading both copies of a table through the interface of block devices.

    A UUID is its sixteen bytes, a string its runes.  A table's entries are distinct
    objects, so a partition is a value of its entry; nil entries are [None].  What
    [uuid.New] returns is a parameter, a sequence of which a counter says how much was
    used.  Divisions and remainders are those of Go, which truncate.  A panic is
    [None]. *)

From S2P Require Import Prelude Bytes BlockDev.
From Stdlib Require Import ZArith.

Module Gpt.
Import Bytes BlockDev.
Open Scope Z_scope.

(** ** Mixed-endian UUIDs *)

Definition uuid_Nil : bytes := zeros 16.

Definition mixedEndianTranspose : list nat := [3; 2; 1; 0; 5; 4; 7; 6; 8; 9; 10; 11; 12; 13; 14; 15]%nat.

Definition From_ (u : bytes) : bytes := (fun from => nth from u 0) <$> mixedEndianTranspose.

Definition To_ (i : bytes) : bytes :=
  foldl (fun o '(from, dest) => <[dest := nth from i 0]> o) (zeros 16) (imap (fun from dest => (from, dest)) mixedEndianTranspose).

Class Uuids := { uuid_New : nat -> bytes }.

(** What the code relies on: random UUIDs are sixteen bytes, and not all zero. *)
Class UuidLaws (U : Uuids) := {
  uuid_New_length n : length (uuid_New n) = 16%nat;
  uuid_New_bytes n : isBytes (uuid_New n);
  uuid_New_Nil n : uuid_New n <> uuid_Nil
}.

(** ** The structures on disk *)

Definition gptSignature : bytes := [69; 70; 73; 32; 80; 65; 82; 84].
Definition gptRevision : Z := 65536.

Record header := mkHeader {
  Signature : bytes;
  Revision : Z;
  HeaderSize : Z;
  HeaderCRC32 : Z;
  HeaderBlock : Z;
  AlternateHeaderBlock : Z;
  hdrFirstUsable : Z;
  hdrLastUsable : Z;
  hdrID : bytes;
  PartitionEntriesStartBlock : Z;
  PartitionEntryCount : Z;
  PartitionEntrySize : Z;
  PartitionEntriesCRC32 : Z
}.

Record partition := mkPart {
  pType : bytes;
  pID : bytes;
  pFirst : Z;
  pLast : Z;
  pAttributes : Z;
  pName : list Z
}.

(** [binary.Write] and [binary.Read]: fields in order, little-endian; blank fields are
    written as zeroes and skipped. *)
Definition encodeHeader (h : header) : bytes :=
  Signature h ++ le 4 (Revision h) ++ le 4 (HeaderSize h) ++ le 4 (HeaderCRC32 h) ++ zeros 4 ++
  le 8 (HeaderBlock h) ++ le 8 (AlternateHeaderBlock h) ++ le 8 (hdrFirstUsable h) ++ le 8 (hdrLastUsable h) ++
  hdrID h ++ le 8 (PartitionEntriesStartBlock h) ++ le 4 (PartitionEntryCount h) ++ le 4 (PartitionEntrySize h) ++
  le 4 (PartitionEntriesCRC32 h).

Definition headerSize : Z := 92.

Definition decodeHeader (l : bytes) : header :=
  let '(sig, l) := getBytes 8 l in
  let '(rev, l) := getLE 4 l in
  let '(sz, l) := getLE 4 l in
  let '(crc, l) := getLE 4 l in
  let '(_, l) := getBytes 4 l in
  let '(hb, l) := getLE 8 l in
  let '(ahb, l) := getLE 8 l in
  let '(fu, l) := getLE 8 l in
  let '(lu, l) := getLE 8 l in
  let '(id, l) := getBytes 16 l in
  let '(start, l) := getLE 8 l in
  let '(count, l) := getLE 4 l in
  let '(esz, l) := getLE 4 l in
  let '(ecrc, l) := getLE 4 l in
  mkHeader sig rev sz crc hb ahb fu lu id start count esz ecrc.

Definition encodePartition (p : partition) : bytes :=
  pType p ++ pID p ++ le 8 (pFirst p) ++ le 8 (pLast p) ++ le 8 (pAttributes p) ++ concat (le 2 <$> pName p).

Definition partSize : Z := 128.

Definition decodePartition (l : bytes) : partition :=
  let '(ty, l) := getBytes 16 l in
  let '(id, l) := getBytes 16 l in
  let '(first, l) := getLE 8 l in
  let '(last, l) := getLE 8 l in
  let '(attr, l) := getLE 8 l in
  mkPart ty id first last attr (getLEs 36 2 l).

(** ** Partitions and tables *)

Definition PerTypeAttrs (a : Z) : Z := u32 (Z.shiftr a 48).
Definition SetPerTypeAttrs (a v : Z) : Z := Z.lor (Z.land a 1099511627775) (u64 (Z.shiftl v 48)).

Record Partition := mkPartition {
  Name : list Z;
  Type_ : bytes;
  ID : bytes;
  FirstBlock : Z;
  LastBlock : Z;
  Attributes : Z;
  Section : option (Z * Z)
}.

Definition SizeBlocks (p : Partition) : Z := u64 (1 + LastBlock p - FirstBlock p).

Definition IsUnused (p : option Partition) : bool :=
  match p with
  | None => true
  | Some p => bool_decide (Type_ p = uuid_Nil)
  end.

Record Table := mkTable {
  TableID : bytes;
  BootCode : bytes;
  Partitions : list (option Partition)
}.

Definition New : Table := mkTable uuid_Nil [] [].

Definition set_ID (id : bytes) (p : Partition) : Partition :=
  mkPartition (Name p) (Type_ p) id (FirstBlock p) (LastBlock p) (Attributes p) (Section p).
Definition set_placement (first last : Z) (p : Partition) : Partition :=
  mkPartition (Name p) (Type_ p) (ID p) first last (Attributes p) (Some (i64 first, i64 last + 1)).
Definition set_Partitions (ps : list (option Partition)) (g : Table) : Table := mkTable (TableID g) (BootCode g) ps.

(** ** Free space *)

Definition partitionEntryBlocks (bs : Z) : Z := Z.quot (16384 + bs - 1) bs.
Definition FirstUsableBlock (bs : Z) : Z := 2 + partitionEntryBlocks bs.
Definition LastUsableBlock (bs bc : Z) : Z := bc - (2 + partitionEntryBlocks bs).
Definition Overhead (bs : Z) : Z := 3 + 2 * partitionEntryBlocks bs.

(** The start and end blocks of the partitions in use. *)
Fixpoint occupied (bc : Z) (ps : list (option Partition)) : result string (list Z * list Z) :=
  match ps with
  | [] => Ok ([], [])
  | None :: ps => occupied bc ps
  | Some p :: ps =>
      if IsUnused (Some p) then occupied bc ps
      else
        guard! negb (LastBlock p <? FirstBlock p) else "partition has a LastBlock smaller than its FirstBlock"%string in
        guard! negb ((u64 bc <=? FirstBlock p) || (u64 bc <=? LastBlock p))
        else "partition exceeds the block count of the block device"%string in
        '(starts, ends) ← occupied bc ps;
        Ok (i64 (FirstBlock p) :: starts, i64 (LastBlock p) + 1 :: ends)
  end.

(** [freeSpaces[len(freeSpaces)-1][1] = x]. *)
Definition closeLast (fs : list (Z * Z)) (x : Z) : list (Z * Z) :=
  match last fs with
  | Some (a, _) => removelast fs ++ [(a, x)]
  | None => fs
  end.

(** The loop over the boundaries; the fuel is the number of boundaries left and one. *)
Fixpoint sweep (fuel : nat) (starts ends : list Z) (current : Z) (fs : list (Z * Z)) (overlap : bool) :
    option (list (Z * Z) * bool) :=
  match fuel with
  | O => None
  | S fuel =>
      match starts, ends with
      | [], [] => Some (fs, overlap)
      | s :: starts', e :: ends' =>
          if s =? e then sweep fuel starts' ends' current fs overlap
          else if s <? e
          then
            let fs := if (current =? 0) && negb (bool_decide (fs = [])) then closeLast fs s else fs in
            sweep fuel starts' ends (current + 1) fs (overlap || (1 <? current + 1))
          else
            let fs := if (current - 1 =? 0) && negb (bool_decide (starts = [])) then fs ++ [(e, 0)] else fs in
            sweep fuel starts ends' (current - 1) fs overlap
      | s :: starts', [] =>
          let fs := if (current =? 0) && negb (bool_decide (fs = [])) then closeLast fs s else fs in
          sweep fuel starts' ends (current + 1) fs (overlap || (1 <? current + 1))
      | [], e :: ends' =>
          let fs := if (current - 1 =? 0) && negb (bool_decide (starts = [])) then fs ++ [(e, 0)] else fs in
          sweep fuel starts ends' (current - 1) fs overlap
      end
  end.

(** [sort.Slice] with [<] on numbers. *)
Definition sortInts (l : list Z) : list Z := merge_sort Z.le l.

Definition GetFreeSpaces (bs bc : Z) (g : Table) : option (result string (list (Z * Z) * bool)) :=
  match occupied bc (Partitions g) with
  | Err e => Some (Err e)
  | Ok (starts, ends) =>
      let startBlocks := sortInts (0 :: LastUsableBlock bs bc + 1 :: starts) in
      let endBlocks := sortInts (FirstUsableBlock bs :: bc :: ends) in
      r ← sweep (S (length startBlocks + length endBlocks)) startBlocks endBlocks 0 [] false;
      Some (Ok r)
  end.

(** ** Adding partitions *)

Record addOptions := mkAdd { preferEnd : bool; keepEmptyEntries : bool; alignment : Z }.
Inductive AddOption := WithPreferEnd | WithKeepEmptyEntries | WithAlignment (alignmenet : Z).

Definition applyAdd (o : addOptions) (a : AddOption) : addOptions :=
  match a with
  | WithPreferEnd => mkAdd true (keepEmptyEntries o) (alignment o)
  | WithKeepEmptyEntries => mkAdd (preferEnd o) true (alignment o)
  | WithAlignment al => mkAdd (preferEnd o) (keepEmptyEntries o) al
  end.

Definition addOptionsOf (bs : Z) (options : list AddOption) : addOptions :=
  foldl applyAdd (mkAdd false false (if 1024 * 1024 <? bs then bs else 1024 * 1024)) options.

Definition largestFree (fs : list (Z * Z)) : Z :=
  foldl (fun largest '(s, e) => if largest <? e - s then e - s else largest) 0 fs.

(** The search for a free space that fits; the first and last block in it, or the
    size of the largest space after alignment. *)
Fixpoint place (fs : list (Z * Z)) (blocks alignTo : Z) (preferEnd : bool) (maxFreeBlocks : Z) : result Z (Z * Z) :=
  match fs with
  | [] => Err maxFreeBlocks
  | (start, end_) :: fs =>
      let freeBlocks := end_ - start in
      let paddingBlocks := Z.rem (Z.rem (alignTo - start) alignTo) alignTo in
      let freeBlocks := freeBlocks - paddingBlocks in
      let start := start + paddingBlocks in
      let maxFreeBlocks := if maxFreeBlocks <? freeBlocks then freeBlocks else maxFreeBlocks in
      if blocks <=? freeBlocks
      then
        if negb preferEnd then Ok (u64 start, u64 (start + blocks - 1))
        else
          let moveLeft := Z.rem (end_ - blocks - 1) alignTo in
          Ok (u64 (end_ - (blocks + 1 + moveLeft)), u64 (end_ - (2 + moveLeft)))
      else place fs blocks alignTo preferEnd maxFreeBlocks
  end.

(** The position of the first unused entry. *)
Fixpoint firstUnused (ps : list (option Partition)) : option nat :=
  match ps with
  | [] => None
  | p :: ps => if IsUnused p then Some O else S <$> firstUnused ps
  end.

Definition insertPartition (keepEmpty : bool) (p : Partition) (ps : list (option Partition)) : list (option Partition) :=
  match (if keepEmpty then None else firstUnused ps) with
  | None => ps ++ [Some p]
  | Some i => <[i := Some p]> ps
  end.

Section add.
Context `{U : Uuids}.

(** The error, the partition, the table and the number of UUIDs used afterwards. *)
Definition AddPartition (bs bc : Z) (g : Table) (p : Partition) (size : Z) (options : list AddOption) (n : nat) :
    option (option string * Partition * Table * nat) :=
  let opts := addOptionsOf bs options in
  if negb (Z.rem (alignment opts) bs =? 0) then Some (Some "requested alignment is not an integer multiple of the block size"%string, p, g, n)
  else
    let '(p, n) := if decide (ID p = uuid_Nil) then (set_ID (uuid_New n) p, S n) else (p, n) in
    r ← GetFreeSpaces bs bc g;
    match r with
    | Err _ => Some (Some "unable to determine free space"%string, p, g, n)
    | Ok (fs, _) =>
        let fs := if preferEnd opts then rev fs else fs in
        let blocks := if size =? -1 then largestFree fs else Z.quot (i64 (size + bs - 1)) bs in
        let alignTo := Z.quot (alignment opts) bs in
        if (alignTo =? 0) && negb (bool_decide (fs = [])) then None (* division by zero *)
        else
        match place fs blocks alignTo (preferEnd opts) 0 with
        | Err _ => Some (Some "no space for partition"%string, p, g, n)
        | Ok (first, last) =>
            let p := set_placement first last p in
            Some (None, p, set_Partitions (insertPartition (keepEmptyEntries opts) p (Partitions g)) g, n)
        end
    end.
End add.

(** ** The protective MBR *)

Definition mbrSignature : bytes := [85; 170].

(** The bytes of a partition record. *)
Definition encodeRecord (startingCHS : bytes) (type : Z) (endingCHS : bytes) (startingBlock sizeInBlocks : Z) : bytes :=
  [0] ++ startingCHS ++ [type] ++ endingCHS ++ le 4 startingBlock ++ le 4 sizeInBlocks.

Definition toCHS (lba : Z) : bytes :=
  let maxCylinders := 1023 in
  let maxHeadsPerCylinder := 255 in
  let maxSectorsPerTrack := 62 in
  let cylinder := Z.quot lba (maxHeadsPerCylinder * maxSectorsPerTrack) in
  let head := Z.rem (Z.quot lba maxSectorsPerTrack) maxHeadsPerCylinder in
  let sector := Z.rem lba maxSectorsPerTrack + 1 in
  let '(cylinder, head, sector) :=
    if maxCylinders <? cylinder then (maxCylinders, maxHeadsPerCylinder, maxSectorsPerTrack + 1) else (cylinder, head, sector) in
  [head mod 256; Z.lor (sector mod 256) (Z.land (Z.shiftr cylinder 2 mod 256) 192); cylinder mod 256].

(** The bytes of an MBR with one partition record. *)
Definition encodeMBR (bootCode record : bytes) : bytes :=
  bootCode ++ zeros 4 ++ zeros 2 ++ record ++
  encodeRecord (zeros 3) 0 (zeros 3) 0 0 ++ encodeRecord (zeros 3) 0 (zeros 3) 0 0 ++ encodeRecord (zeros 3) 0 (zeros 3) 0 0 ++
  mbrSignature.

Definition makeProtectiveMBR (bc : Z) (bootCode : bytes) : result string bytes :=
  let representedBlockCount := if bc <? 4294967295 then u32 bc else 4294967295 in
  guard! negb (440 <? len bootCode) else "BootCode is too long"%string in
  Ok (encodeMBR (copy_ (zeros 440) bootCode) (encodeRecord (toCHS 1) 238 (toCHS (bc + 1)) 1 (u32 (representedBlockCount - 1)))).

(** The boot code, the types of the partition records and the signature of an MBR. *)
Definition decodeMBR (l : bytes) : bytes * list Z * bytes :=
  let '(bootCode, l) := getBytes 440 l in
  let '(_, l) := getBytes 6 l in
  (bootCode, (fun i => nth (16 * i + 4) l 0) <$> seq 0 4, take 2 (drop 64 l)).

(** ** Writing *)

(** [for buf.Len() % bs != 0 { buf.WriteByte(0) }]. *)
Definition padTo (bs : Z) (l : bytes) : bytes := l ++ zeros (Z.to_nat ((- len l) mod bs)).

(** [copy] into an array of zeroes. *)
Definition nameUTF16 (name : list Z) : list Z := copy_ (zeros 36) (utf16Encode name).

Definition rawPartition (p : Partition) : partition :=
  mkPart (From_ (Type_ p)) (From_ (ID p)) (FirstBlock p) (LastBlock p) (Attributes p) (nameUTF16 (Name p)).

Definition entryData (p : option Partition) : bytes :=
  match p with
  | None => zeros (Z.to_nat partSize)
  | Some p => encodePartition (rawPartition p)
  end.

Definition partitionEntriesData (ps : list (option Partition)) : bytes :=
  concat ((fun i => entryData (default None (ps !! i))) <$> seq 0 128).

Definition set_HeaderCRC32 (crc : Z) (h : header) : header :=
  mkHeader (Signature h) (Revision h) (HeaderSize h) crc (HeaderBlock h) (AlternateHeaderBlock h) (hdrFirstUsable h) (hdrLastUsable h)
    (hdrID h) (PartitionEntriesStartBlock h) (PartitionEntryCount h) (PartitionEntrySize h) (PartitionEntriesCRC32 h).

(** The header at [block], whose other copy is at [alternate], with its checksum. *)
Definition makeHeader (bs bc : Z) (id entries : bytes) (block alternate start : Z) : header :=
  let hdr := mkHeader gptSignature gptRevision headerSize 0 (u64 block) (u64 alternate)
    (u64 (2 + partitionEntryBlocks bs)) (u64 (bc - (2 + partitionEntryBlocks bs)))
    (From_ id) (u64 start) 128 partSize (ChecksumIEEE entries) in
  set_HeaderCRC32 (ChecksumIEEE (encodeHeader hdr)) hdr.

Section io.
Context `{U : Uuids} `{B : BlockDev}.

(** The identifiers that are missing, partition by partition. *)
Fixpoint fillIDs (ps : list (option Partition)) (n : nat) : list (option Partition) * nat :=
  match ps with
  | [] => ([], n)
  | None :: ps => let '(ps, n) := fillIDs ps n in (None :: ps, n)
  | Some p :: ps =>
      let '(p, n) := if decide (ID p = uuid_Nil) then (set_ID (uuid_New n) p, S n) else (p, n) in
      let '(ps, n) := fillIDs ps n in
      (Some p :: ps, n)
  end.

(** The error, the table, the device and the number of UUIDs used afterwards. *)
Definition Write (g : Table) (d : dev) (n : nat) : option (option string * Table * dev * nat) :=
  let bs := BlockSize d in
  let bc := BlockCount d in
  if bs <? 512 then Some (Some "block size is smaller than 512 bytes, this is unsupported"%string, g, d, n)
  else if 128 <? len (Partitions g) then Some (Some "bigger-than default GPTs (>128 partitions) are unimplemented"%string, g, d, n)
  else if bc <? 3 + 2 * partitionEntryBlocks bs then Some (Some "not enough blocks to write GPT"%string, g, d, n)
  else
    let '(id, n) := if decide (TableID g = uuid_Nil) then (uuid_New n, S n) else (TableID g, n) in
    let '(ps, n) := fillIDs (Partitions g) n in
    let g := mkTable id (BootCode g) ps in
    let entries := partitionEntriesData ps in
    let alternate := makeHeader bs bc id entries (bc - 1) 1 (bc - (1 + partitionEntryBlocks bs)) in
    let padded := padTo bs entries in
    '(_, err, d) ← WriteAt d padded (i64 (PartitionEntriesStartBlock alternate) * bs);
    match err with
    | Some _ => Some (Some "failed to write alternate partition entries"%string, g, d, n)
    | None =>
        '(_, err, d) ← WriteAt d (padTo bs (encodeHeader alternate)) ((bc - 1) * bs);
        match err with
        | Some _ => Some (Some "failed to write alternate header"%string, g, d, n)
        | None =>
            let primary := makeHeader bs bc id entries 1 (bc - 1) 2 in
            match makeProtectiveMBR bc (BootCode g) with
            | Err _ => Some (Some "failed creating protective MBR"%string, g, d, n)
            | Ok mbr =>
                let hdrRaw := padTo bs (padTo bs (padTo bs mbr ++ encodeHeader primary) ++ padded) in
                '(_, err, d) ← WriteAt d hdrRaw 0;
                Some (match err with Some _ => Some "failed to write primary GPT"%string | None => None end, g, d, n)
            end
        end
    end.

(** ** Reading *)

(** [TrimRight(l, NUL)]. *)
Fixpoint trimRight (l : list Z) : list Z :=
  match l with
  | [] => []
  | c :: l => match trimRight l with [] => if c =? 0 then [] else [c] | l' => c :: l' end
  end.

Definition partitionOf (part : partition) : option Partition :=
  if decide (pType part = uuid_Nil) then None
  else Some (mkPartition (trimRight (utf16Decode (pName part))) (To_ (pType part)) (To_ (pID part)) (pFirst part) (pLast part)
               (pAttributes part) None).

Definition readEntries (data : bytes) (count entrySize : nat) : list (option Partition) :=
  (fun i => partitionOf (decodePartition (take entrySize (drop (i * entrySize) data)))) <$> seq 0 count.

(** The loop that finds the last entry in use. *)
Definition maxValidPartition (ps : list (option Partition)) : nat :=
  foldl (fun m '(i, p) => if negb (IsUnused p) then i else m) O (imap (fun i p => (i, p)) ps).

Definition readSingleGPT (d : dev) (headerBlockPos : Z) : option (result string Table) :=
  let bs := BlockSize d in
  '(hdrBlock, _, err) ← ReadAt d (zeros (Z.to_nat bs)) (bs * headerBlockPos);
  match err with
  | Some _ => Some (Err "failed to read GPT header block"%string)
  | None =>
      if len hdrBlock <? headerSize then None
      else
        let hdr := decodeHeader hdrBlock in
        if negb (bool_decide (Signature hdr = gptSignature)) then Some (Err "no GPT signature found"%string)
        else if HeaderSize hdr <? headerSize then Some (Err "GPT header size is too small, likely corrupted"%string)
        else if bs <? HeaderSize hdr then Some (Err "GPT header size is bigger than block size, likely corrupted"%string)
        else
          let reservedBytes := drop (Z.to_nat headerSize) (take (Z.to_nat (HeaderSize hdr)) hdrBlock) in
          let hdrExpectedCRC := HeaderCRC32 hdr in
          let hdr := set_HeaderCRC32 0 hdr in
          if negb (ChecksumIEEE (encodeHeader hdr ++ reservedBytes) =? hdrExpectedCRC)
          then Some (Err "GPT header checksum mismatch, probably corrupted"%string)
          else if negb (HeaderBlock hdr =? u64 headerBlockPos) then Some (Err "GPT header indicates wrong block"%string)
          else if PartitionEntrySize hdr <? partSize then Some (Err "partition entry size too small"%string)
          else if u64 (BlockCount d) <? PartitionEntriesStartBlock hdr then Some (Err "partition entry start block is out of range"%string)
          else if 4 * 1024 * 1024 <? u64 (PartitionEntryCount hdr * PartitionEntrySize hdr)
          then Some (Err "partition entry area bigger than 4MiB, refusing to read"%string)
          else
            '(entries, _, err) ←
              ReadAt d (zeros (Z.to_nat (u32 (PartitionEntrySize hdr * PartitionEntryCount hdr)))) (bs * i64 (PartitionEntriesStartBlock hdr));
            match err with
            | Some _ => Some (Err "failed to read partition entries"%string)
            | None =>
                if negb (ChecksumIEEE entries =? PartitionEntriesCRC32 hdr) then Some (Err "GPT partition entry table checksum mismatch"%string)
                else
                  let ps := readEntries entries (Z.to_nat (PartitionEntryCount hdr)) (Z.to_nat (PartitionEntrySize hdr)) in
                  let m := S (maxValidPartition ps) in
                  if bool_decide (length ps < m)%nat then None (* slice out of bounds *)
                  else Some (Ok (mkTable (To_ (hdrID hdr)) [] (take m ps)))
            end
  end.

Definition set_BootCode (code : bytes) (g : Table) : Table := mkTable (TableID g) code (Partitions g).

Definition Read (d : dev) : option (result string Table) :=
  if BlockCount d <? Overhead (BlockSize d) then Some (Err "disk cannot contain a GPT as the block count is too small to store one"%string)
  else
    '(zeroBlock, _, err) ← ReadAt d (zeros (Z.to_nat (BlockSize d))) 0;
    match err with
    | Some _ => Some (Err "failed to read first block"%string)
    | None =>
        mbr ← sliceTo zeroBlock 512;
        let '(code, types, signature) := decodeMBR mbr in
        let hasDOSBootSig := bool_decide (signature = mbrSignature) in
        if hasDOSBootSig && negb (existsb (fun t => t =? 238) types)
        then Some (Err "block device contains an MBR table without a GPT marker or a raw FAT filesystem"%string)
        else
          let bootCode := if hasDOSBootSig then trimRight code else [] in
          primaryGPT ← readSingleGPT d 1;
          match primaryGPT with
          | Ok g => Some (Ok (set_BootCode bootCode g))
          | Err _ =>
              alternateGPT ← readSingleGPT d (BlockCount d - 1);
              match alternateGPT with
              | Ok g => Some (Ok (set_BootCode bootCode g))
              | Err _ => Some (Err "failed to read both GPTs"%string)
              end
          end
    end.

End io.

End Gpt.
