(* ===== verification/GptFree.v ===== *)
(** * Partition tables: free space and placement

    The search for free space by two independently sorted lists of boundaries finds
    exactly the gaps between the partitions and their overlaps, and what adding a
    partition makes of it. *)

From S2P Require Import Prelude Bytes BlockDev Gpt.
From Stdlib Require Import ZArith.

Module GptFree.
Import Bytes BlockDev Gpt.
Open Scope Z_scope.

(** ** Counting boundaries *)

(** The number of boundaries after a position. *)
Definition after (x : Z) (l : list Z) : Z := len (filter (fun y => x < y) l).

(** The number of intervals over a position, of which only the sets of the starts and
    of the ends are known. *)
Definition occ (S E : list Z) (x : Z) : Z := after x E - after x S.

Lemma after_cons x y l : after x (y :: l) = (if decide (x < y) then 1 else 0) + after x l.
Proof. unfold after, len. rewrite filter_cons. case_decide; cbn [length]; lia. Qed.

Lemma after_nil x : after x [] = 0.
Proof. done. Qed.

Lemma after_bound x l : 0 <= after x l <= len l.
Proof.
  induction l as [|y l IH]; [done|]. rewrite after_cons. unfold len in *. cbn [length]. case_decide; lia.
Qed.

Lemma after_all x l : Forall (fun y => x < y) l -> after x l = len l.
Proof.
  induction 1 as [|y l Hy Hl IH]; [done|]. rewrite after_cons, decide_True, IH by done. unfold len. cbn [length]. lia.
Qed.

Lemma after_perm x l k : l ≡ₚ k -> after x l = after x k.
Proof. intros H. unfold after, len. by rewrite H. Qed.

Lemma len_cons {A} (a : A) l : len (a :: l) = 1 + len l.
Proof. unfold len. cbn [length]. lia. Qed.

Lemma len_0 {A} (l : list A) : len l = 0 -> l = [].
Proof. destruct l; [done|]. rewrite len_cons. unfold len. lia. Qed.

(** ** Intervals *)

Definition inFree (x : Z) (fs : list (Z * Z)) : Prop := exists a b, (a, b) ∈ fs /\ a <= x < b.

(** Not empty, in ascending order and apart, after [lo]. *)
Fixpoint ascending (lo : Z) (fs : list (Z * Z)) : Prop :=
  match fs with
  | [] => True
  | (a, b) :: fs => lo < a /\ a < b /\ ascending b fs
  end.

Lemma ascending_weaken lo lo' fs : lo' <= lo -> ascending lo fs -> ascending lo' fs.
Proof. destruct fs as [|[a b] fs]; [done|]. cbn. intros ? (? & ? & ?). split_and!; [lia|done..]. Qed.

Lemma inFree_cons x a b fs : inFree x ((a, b) :: fs) <-> a <= x < b \/ inFree x fs.
Proof.
  split.
  - intros (c & d & [[= -> ->]|H]%elem_of_cons & Hx); [by left|]. right. by exists c, d.
  - intros [H|(c & d & H & Hx)]; [exists a, b|exists c, d]; rewrite elem_of_cons; auto.
Qed.

Lemma inFree_nil x : inFree x [] <-> False.
Proof. split; [intros (? & ? & []%not_elem_of_nil & _)|done]. Qed.

(** ** The loop over the boundaries *)

Definition opening (op : option Z) : list (Z * Z) := match op with None => [] | Some a => [(a, 0)] end.

Abbreviation sorted := (StronglySorted Z.le).

Lemma closeLast_snoc fs a x : closeLast (fs ++ [(a, 0)]) x = fs ++ [(a, x)].
Proof. unfold closeLast. rewrite last_snoc. by rewrite removelast_last. Qed.

(** Where the loop is: between intervals, since the free space began at [a], or in one. *)
Definition at_ (op : option Z) (S E : list Z) : Prop :=
  match op with
  | None => len E = len S -> S = []
  | Some a => len E = len S /\ S <> [] /\ Forall (fun s => a < s) S
  end.

Definition free (op : option Z) (S E : list Z) (x : Z) : Prop :=
  (forall a, op = Some a -> a <= x) /\ occ S E x = 0 /\ exists s, s ∈ S /\ x < s.

(** The loop's invariant, and what it has then found. *)
Record boundaries (op : option Z) (S E : list Z) (lo : Z) (ov : bool) : Prop := {
  b_sortedS : sorted S;
  b_sortedE : sorted E;
  b_nonneg x : 0 <= occ S E x;
  b_pos s : s ∈ S -> 1 <= occ S E s;
  b_loS : Forall (Z.le lo) S;
  b_loE : Forall (Z.lt lo) E;
  b_at : at_ op S E;
  b_lo a : op = Some a -> lo < a;
  b_ov : 2 <= len E - len S -> ov = true
}.

Definition finds (op : option Z) (S E : list Z) (lo : Z) (ov : bool) (tail : list (Z * Z)) (ov' : bool) : Prop :=
  ascending lo tail /\ (forall x, inFree x tail <-> free op S E x) /\ (ov' = true <-> ov = true \/ exists x, 2 <= occ S E x).

Lemma occ_pop_both s S E x : occ (s :: S) (s :: E) x = occ S E x.
Proof. unfold occ. rewrite !after_cons. lia. Qed.

Lemma occ_pop_start s S E x : occ S E x = occ (s :: S) E x + if decide (x < s) then 1 else 0.
Proof. unfold occ. rewrite after_cons. lia. Qed.

Lemma occ_pop_end e S E x : occ S E x = occ S (e :: E) x - if decide (x < e) then 1 else 0.
Proof. unfold occ. rewrite after_cons. lia. Qed.

Lemma occ_before S E x : Forall (fun y => x < y) S -> Forall (fun y => x < y) E -> occ S E x = len E - len S.
Proof. intros H1 H2. unfold occ. by rewrite !after_all. Qed.

Lemma sorted_after x y l : sorted (y :: l) -> x < y -> Forall (fun z => x < z) (y :: l).
Proof. intros [_ H]%StronglySorted_inv Hx. constructor; [done|]. eapply Forall_impl; [exact H|]. intros z Hz. simpl in *. lia. Qed.

Lemma sorted_le x y l : sorted (y :: l) -> x <= y -> Forall (Z.le x) (y :: l).
Proof. intros [_ H]%StronglySorted_inv Hx. constructor; [done|]. eapply Forall_impl; [exact H|]. intros z Hz. simpl in *. lia. Qed.

(** One boundary of either kind at the same position. *)
Lemma pop_both op s S E lo ov : boundaries op (s :: S) (s :: E) lo ov -> boundaries op S E lo ov.
Proof.
  intros [HS HE H0 H1 HloS HloE Hat Hlo Hov].
  apply StronglySorted_inv in HS as [HS _]. apply StronglySorted_inv in HE as [HE HsE].
  apply Forall_cons in HloS as [_ HloS]. apply Forall_cons in HloE as [_ HloE]. rewrite !len_cons in Hov.
  assert (forall x, 0 <= occ S E x) as H0' by (intros x; by rewrite <- (occ_pop_both s)).
  split; try done.
  - intros t Ht. rewrite <- (occ_pop_both s). apply H1. by right.
  - destruct op as [a|]; cbn in *; rewrite !len_cons in Hat.
    + destruct Hat as (Hl & _ & Ha). split_and!; [lia| |by apply Forall_cons in Ha as [_ ?]].
      intros ->. assert (E = []) as -> by (apply len_0; change (len (@nil Z)) with 0 in Hl; lia).
      specialize (H1 s (list_elem_of_here _ _)). rewrite occ_pop_both in H1. unfold occ in H1. cbn in H1. lia.
    + intros Hl. assert (s :: S = []) by (apply Hat; lia). done.
  - intros Hd. apply Hov. lia.
Qed.

Lemma finds_both op s S E lo ov tail ov' : boundaries op (s :: S) (s :: E) lo ov ->
  finds op S E lo ov tail ov' -> finds op (s :: S) (s :: E) lo ov tail ov'.
Proof.
  intros Hb (Ha & Hf & Ho). split_and!; [done| |by setoid_rewrite occ_pop_both].
  intros x. rewrite Hf. unfold free. rewrite occ_pop_both. split; intros (H1 & H2 & t & Ht & Hx); split_and!; try done.
  - exists t. split; [by right|done].
  - apply elem_of_cons in Ht as [->|Ht]; [|by exists t].
    pose proof (sorted_after x s _ (b_sortedS _ _ _ _ _ Hb) Hx) as [_ HS]%Forall_cons.
    pose proof (sorted_after x s _ (b_sortedE _ _ _ _ _ Hb) Hx) as [_ HE]%Forall_cons.
    rewrite (occ_before S E x HS HE) in H2. destruct op as [a|].
    + destruct (b_at _ _ _ _ _ (pop_both _ _ _ _ _ _ Hb)) as (_ & Hne & _). destruct S as [|t S]; [done|].
      exists t. split; [by left|by apply Forall_cons in HS as [? _]].
    + exfalso. assert (s :: S = []) by (apply (b_at _ _ _ _ _ Hb); rewrite !len_cons; lia). done.
Qed.

(** A start. *)
Lemma pop_start op s S e E lo ov : boundaries op (s :: S) (e :: E) lo ov -> s < e ->
  boundaries None S (e :: E) s (ov || (1 <? len (e :: E) - len (s :: S) + 1)).
Proof.
  intros [HS HE H0 H1 HloS HloE Hat Hlo Hov] Hlt.
  assert (forall x, 0 <= occ S (e :: E) x) as H0'.
  { intros x. rewrite (occ_pop_start s S). specialize (H0 x). case_decide; lia. }
  split; try done.
  - by apply StronglySorted_inv in HS as [HS _].
  - intros t Ht. rewrite (occ_pop_start s S). specialize (H1 t (list_elem_of_further _ _ _ Ht)). case_decide; lia.
  - by apply StronglySorted_inv in HS as [_ HS].
  - by apply sorted_after.
  - cbn. intros Hl. destruct op as [a|]; cbn in Hat; rewrite (len_cons s) in Hat.
    + lia.
    + specialize (H0 (s - 1)). rewrite occ_before in H0; [|apply sorted_after; [done|lia]..]. rewrite (len_cons s) in H0. lia.
  - rewrite (len_cons s). intros H. rewrite (proj2 (Z.ltb_lt _ _)) by lia. apply orb_true_r.
Qed.

Lemma finds_start op s S e E lo ov tail ov' : boundaries op (s :: S) (e :: E) lo ov -> s < e ->
  finds None S (e :: E) s (ov || (1 <? len (e :: E) - len (s :: S) + 1)) tail ov' ->
  finds op (s :: S) (e :: E) lo ov (match op with Some a => (a, s) :: tail | None => tail end) ov'.
Proof.
  intros [HS HE H0 H1 HloS HloE Hat Hlo Hov] Hlt (Ha & Hf & Ho).
  assert (forall x, x < s -> occ (s :: S) (e :: E) x = len (e :: E) - len (s :: S)) as Hbefore.
  { intros x Hx. apply occ_before; apply sorted_after; (done || lia). }
  assert (op = None -> 0 < len (e :: E) - len (s :: S)) as Hin.
  { intros ->. specialize (H0 (s - 1)). rewrite Hbefore in H0 by lia. cbn in Hat. destruct (Z.eq_dec (len (e :: E)) (len (s :: S))); [|lia].
    by specialize (Hat e0). }
  assert (forall x, free op (s :: S) (e :: E) x <-> (exists a, op = Some a /\ a <= x < s) \/ free None S (e :: E) x) as Hfree.
  { intros x. unfold free. rewrite (occ_pop_start s S). split.
    - intros (Hop & H2 & t & Ht & Hx). destruct (decide (x < s)) as [Hxs|Hxs].
      + rewrite Hbefore in H2 by done. destruct op as [a|]; [left; exists a; eauto|]. specialize (Hin eq_refl). lia.
      + right. split_and!; [done|lia|]. exists t. apply elem_of_cons in Ht as [->|Ht]; [lia|done].
    - intros [(a & -> & Hx)|(_ & H2 & t & Ht & Hx)].
      + split_and!; [intros ? [= <-]; lia| |exists s; split; [by left|lia]]. rewrite Hbefore by lia. cbn in Hat. lia.
      + specialize (H0 x). destruct (decide (x < s)); [lia|]. split_and!; [|lia|exists t; split; [by right|done]].
        intros a ->. destruct Hat as (_ & _ & [Has _]%Forall_cons). lia. }
  split_and!.
  - apply Forall_cons in HloS as [Hlos _]. destruct op as [a|]; [|by eapply ascending_weaken].
    cbn. destruct Hat as (_ & _ & [Has _]%Forall_cons). split_and!; [by apply Hlo|done..].
  - intros x. rewrite Hfree. destruct op as [a|].
    + rewrite inFree_cons, Hf. split; [intros [?|?]; eauto|intros [(? & [= ->] & ?)|?]; auto].
    + rewrite Hf. split; [auto|intros [(? & [=] & _)|?]; done].
  - assert (1 < len (e :: E) - len (s :: S) + 1 -> 2 <= occ (s :: S) (e :: E) s) as Htwo.
    { intros H. rewrite (len_cons s) in H. unfold occ. rewrite (after_all s (e :: E)) by (apply sorted_after; done).
      rewrite (after_cons s s), decide_False by lia. pose proof (after_bound s S). lia. }
    rewrite Ho, orb_true_iff, Z.ltb_lt. split.
    + intros [[?|H]|[x Hx]]; [by left|by right; exists s; apply Htwo|right].
      rewrite (occ_pop_start s S) in Hx. destruct (decide (x < s)) as [Hxs|]; [|exists x; lia].
      exists s. apply Htwo. rewrite Hbefore in Hx by done. lia.
    + intros [?|[x Hx]]; [by do 2 left|]. destruct (decide (x < s)) as [Hxs|Hxs].
      * left. left. apply Hov. rewrite Hbefore in Hx by done. lia.
      * right. exists x. rewrite (occ_pop_start s S), decide_False by done. lia.
Qed.

(** An end. *)
Lemma pop_end op s S e E lo ov : boundaries op (s :: S) (e :: E) lo ov -> e < s ->
  op = None /\ boundaries (if decide (len E = len (s :: S)) then Some e else None) (s :: S) E lo ov.
Proof.
  intros [HS HE H0 H1 HloS HloE Hat Hlo Hov] Hlt.
  assert (len (s :: S) < len (e :: E)) as Hlen.
  { specialize (H0 e). unfold occ in H0. rewrite (after_all e (s :: S)) in H0 by (by apply sorted_after).
    rewrite after_cons, decide_False in H0 by lia. rewrite (len_cons e). pose proof (after_bound e E). lia. }
  assert (op = None) as -> by (destruct op; [destruct Hat; lia|done]). split; [done|].
  assert (forall x, e <= x -> occ (s :: S) E x = occ (s :: S) (e :: E) x) as Hsame.
  { intros x Hx. rewrite (occ_pop_end e (s :: S) E), decide_False by lia. lia. }
  apply StronglySorted_inv in HE as HE'. destruct HE' as [HE' HeE].
  assert (forall x, x < e -> occ (s :: S) (e :: E) x = len (e :: E) - len (s :: S)) as Hbefore.
  { intros x Hx. apply occ_before; apply sorted_after; (done || lia). }
  split; try done.
  - intros x. destruct (decide (x < e)).
    + rewrite (occ_pop_end e (s :: S) E), decide_True, Hbefore by done. lia.
    + rewrite Hsame by lia. apply H0.
  - intros t Ht. pose proof (sorted_after e s S HS Hlt) as Hall. rewrite Forall_forall in Hall. rewrite Hsame; [by apply H1|].
    specialize (Hall t Ht). lia.
  - by apply Forall_cons in HloE as [_ ?].
  - destruct (decide _) as [Hl|Hl]; cbn; [|done]. split_and!; [done..|by apply sorted_after].
  - intros a Ha. apply Forall_cons in HloE as [? _]. destruct (decide _); [by injection Ha as <-|done].
  - intros H. apply Hov. rewrite (len_cons e). lia.
Qed.

Lemma finds_end s S e E lo ov tail ov' : boundaries None (s :: S) (e :: E) lo ov -> e < s ->
  finds (if decide (len E = len (s :: S)) then Some e else None) (s :: S) E lo ov tail ov' ->
  finds None (s :: S) (e :: E) lo ov tail ov'.
Proof.
  intros Hb Hlt (Ha & Hf & Ho). pose proof (pop_end _ _ _ _ _ _ _ Hb Hlt) as [_ Hb'].
  destruct Hb as [HS HE H0 H1 HloS HloE Hat Hlo Hov].
  assert (forall x, x < e -> occ (s :: S) (e :: E) x = len (e :: E) - len (s :: S)) as Hbefore.
  { intros x Hx. apply occ_before; apply sorted_after; (done || lia). }
  assert (0 < len (e :: E) - len (s :: S)) as Hin.
  { pose proof (H0 (e - 1)) as H. rewrite Hbefore in H by lia. cbn in Hat.
    destruct (Z.eq_dec (len (e :: E)) (len (s :: S))) as [Heq|]; [|lia]. by specialize (Hat Heq). }
  split_and!; [done| |].
  - intros x. rewrite Hf. unfold free. rewrite (occ_pop_end e (s :: S) E). destruct (decide (x < e)) as [Hx|Hx].
    + rewrite Hbefore by done. rewrite (len_cons e) in *. destruct (decide (len E = len (s :: S))).
      * split; [intros (H & _); specialize (H e eq_refl); lia|lia].
      * split; lia.
    + rewrite Z.sub_0_r. split; intros (_ & H2 & H3); split_and!; try done.
      intros a He. destruct (decide _); [injection He as <-; lia|done].
  - rewrite Ho. split; (intros [?|[x Hx]]; [by left|]).
    + right. exists x. rewrite (occ_pop_end e (s :: S) E) in Hx. case_decide; lia.
    + destruct (decide (x < e)); [left; apply Hov; rewrite <- (Hbefore x) by done; lia|].
      right. exists x. rewrite (occ_pop_end e (s :: S) E), decide_False by done. lia.
Qed.

(** The ends that are left when nothing starts any more. *)
Lemma sweep_ends fuel E fs ov lo : (length E < fuel)%nat -> (2 <= len E -> ov = true) ->
  sweep fuel [] E (len E) fs ov = Some (fs, ov) /\ finds None [] E lo ov [] ov.
Proof.
  intros Hf Hov. split.
  - clear Hov. revert fuel Hf. induction E as [|e E IH]; intros [|fuel] Hf; cbn [length] in Hf; try lia; [done|].
    cbn [sweep]. rewrite bool_decide_true by done. rewrite andb_false_r, len_cons. replace (1 + len E - 1) with (len E) by lia.
    apply IH. lia.
  - split_and!; [done| |].
    + intros x. rewrite inFree_nil. split; [done|]. intros (_ & _ & s & []%not_elem_of_nil & _).
    + split; [auto|]. intros [?|[x Hx]]; [done|]. apply Hov. unfold occ in Hx. rewrite after_nil in Hx.
      pose proof (after_bound x E). lia.
Qed.

Lemma sweep_ok fuel : forall op S E lo fs ov, (length S + length E < fuel)%nat -> boundaries op S E lo ov ->
  exists tail ov', sweep fuel S E (len E - len S) (fs ++ opening op) ov = Some (fs ++ tail, ov') /\ finds op S E lo ov tail ov'.
Proof.
  induction fuel as [|fuel IH]; intros op S E lo fs ov Hfuel Hb; [lia|]. destruct S as [|s S].
  { assert (op = None) as -> by (destruct op; [by destruct (b_at _ _ _ _ _ Hb) as (_ & ? & _)|done]).
    exists [], ov. rewrite !app_nil_r. replace (len E - len []) with (len E) by (unfold len; cbn; lia).
    apply sweep_ends; [cbn in Hfuel; lia|]. intros ?. apply (b_ov _ _ _ _ _ Hb). unfold len in *. cbn. lia. }
  destruct E as [|e E].
  { pose proof (b_pos _ _ _ _ _ Hb s (list_elem_of_here _ _)) as H. unfold occ in H. rewrite after_nil in H.
    pose proof (after_bound s (s :: S)). lia. }
  cbn [sweep]. destruct (Z.eqb_spec s e) as [<-|Hne].
  - destruct (IH op S E lo fs ov) as (tail & ov' & Hsw & Hfi); [cbn in Hfuel; lia|by eapply pop_both|].
    exists tail, ov'. split; [|by apply finds_both]. rewrite !len_cons, <- Hsw. f_equal. lia.
  - destruct (Z.ltb_spec s e) as [Hlt|Hge].
    + pose proof (pop_start _ _ _ _ _ _ _ Hb Hlt) as Hb'.
      destruct (IH None S (e :: E) s (match op with Some a => fs ++ [(a, s)] | None => fs end) _ ltac:(cbn in *; lia) Hb')
        as (tail & ov' & Hsw & Hfi).
      exists (match op with Some a => (a, s) :: tail | None => tail end), ov'. split; [|by apply finds_start].
      rewrite app_nil_r in Hsw. replace (len (e :: E) - len (s :: S) + 1) with (len (e :: E) - len S) in * by (rewrite (len_cons s); lia).
      destruct op as [a|].
      * destruct (b_at _ _ _ _ _ Hb) as (Hl & _). rewrite (proj2 (Z.eqb_eq (len (e :: E) - len (s :: S)) 0)), bool_decide_false by (lia || by destruct fs).
        cbn [andb negb opening]. by rewrite closeLast_snoc, Hsw, <- app_assoc.
      * rewrite (proj2 (Z.eqb_neq _ _)), app_nil_r; [done|]. intros Heq.
        assert (s :: S = []); [|done]. apply (b_at _ _ _ _ _ Hb). lia.
    + pose proof (pop_end op s S e E lo ov Hb ltac:(lia)) as [-> Hb'].
      destruct (IH _ (s :: S) E lo fs ov ltac:(cbn in *; lia) Hb') as (tail & ov' & Hsw & Hfi).
      exists tail, ov'. split; [|apply finds_end; [done|lia|done]]. rewrite app_nil_r, bool_decide_false by done. rewrite andb_true_r.
      rewrite <- Hsw. rewrite (len_cons e). replace (1 + len E - len (s :: S) - 1) with (len E - len (s :: S)) by lia.
      destruct (decide _) as [Heq|Heq].
      * by rewrite Heq, Z.sub_diag.
      * rewrite (proj2 (Z.eqb_neq _ _)) by lia. by rewrite app_nil_r.
Qed.

(** ** Free space of a table *)

(** The partitions in use. *)
Definition used (ps : list (option Partition)) : list Partition := omap (fun p => if IsUnused p then None else p) ps.

(** The half-open intervals that the tables and the partitions occupy. *)
Definition partitionInterval (p : Partition) : Z * Z := (FirstBlock p, LastBlock p + 1).
Definition intervals (bs bc : Z) (g : Table) : list (Z * Z) :=
  (0, FirstUsableBlock bs) :: (LastUsableBlock bs bc + 1, bc) :: (partitionInterval <$> used (Partitions g)).

Definition covers (x : Z) (i : Z * Z) : Prop := i.1 <= x < i.2.
#[export] Instance covers_dec x i : Decision (covers x i).
Proof. unfold covers. apply _. Defined.

(** Two of the intervals share a block. *)
Definition overlapping (l : list (Z * Z)) : Prop :=
  exists i j a b x, (i < j)%nat /\ l !! i = Some a /\ l !! j = Some b /\ covers x a /\ covers x b.

(** The blocks of a partition are numbers that fit a uint64. *)
Definition blocks64 (p : Partition) : Prop := 0 <= FirstBlock p < 2 ^ 64 /\ 0 <= LastBlock p < 2 ^ 64.
Definition onDevice (bc : Z) (p : Partition) : Prop := 0 <= FirstBlock p <= LastBlock p /\ LastBlock p < bc.
#[export] Instance blocks64_dec p : Decision (blocks64 p).
Proof. unfold blocks64. apply _. Defined.
#[export] Instance onDevice_dec bc p : Decision (onDevice bc p).
Proof. unfold onDevice. apply _. Defined.

Lemma occ_intervals l x : Forall (fun i => i.1 < i.2) l -> occ l.*1 l.*2 x = len (filter (covers x) l).
Proof.
  unfold occ. induction 1 as [|[a b] l Hi Hl IH]; [done|]. rewrite !fmap_cons, !after_cons, filter_cons. unfold covers at 1. cbn [fst snd] in *.
  repeat case_decide; rewrite ?len_cons; lia.
Qed.

Lemma filter_two l x : 2 <= len (filter (covers x) l) <->
  exists i j a b, (i < j)%nat /\ l !! i = Some a /\ l !! j = Some b /\ covers x a /\ covers x b.
Proof.
  assert (forall l, 1 <= len (filter (covers x) l) <-> exists j b, l !! j = Some b /\ covers x b) as H1.
  { clear l. intros l. split.
    - intros H. destruct (filter (covers x) l) as [|b k] eqn:E; [done|]. assert (b ∈ filter (covers x) l) as Hb by (rewrite E; by left).
      apply list_elem_of_filter in Hb as [Hc [j Hj]%list_elem_of_lookup]. eauto.
    - intros (j & b & Hj%list_elem_of_lookup_2 & Hc). assert (b ∈ filter (covers x) l) as Hb by (by apply list_elem_of_filter).
      destruct (filter (covers x) l); [by apply not_elem_of_nil in Hb|]. rewrite len_cons. unfold len. lia. }
  induction l as [|i l IH]; [split; [done|intros (i & j & a & b & _ & H & _); done]|]. rewrite filter_cons. destruct (decide (covers x i)) as [Hc|Hc].
  - rewrite len_cons. split.
    + intros H. destruct (proj1 (H1 l)) as (j & b & Hj & Hb); [lia|]. exists O, (S j), i, b. split_and!; try done. lia.
    + intros (i' & [|j] & a & b & Hlt & _ & Hj & _ & Hb); [lia|]. enough (1 <= len (filter (covers x) l)) by lia. apply H1. eauto.
  - rewrite IH. split.
    + intros (i' & j & a & b & ? & ? & ? & ? & ?). exists (S i'), (S j), a, b. split_and!; try done. lia.
    + intros ([|i'] & [|j] & a & b & Hlt & Hi & Hj & Ha & Hb); try lia; cbn in *; [by simplify_eq|].
      exists i', j, a, b. split_and!; try done. lia.
Qed.

Lemma occupied_spec bc ps : 0 <= bc < 2 ^ 63 -> Forall blocks64 (used ps) ->
  match occupied bc ps with
  | Err _ => exists p, p ∈ used ps /\ ~ onDevice bc p
  | Ok (starts, ends) => Forall (onDevice bc) (used ps) /\ starts = (partitionInterval <$> used ps).*1 /\ ends = (partitionInterval <$> used ps).*2
  end.
Proof.
  intros Hbc. induction ps as [|[p|] ps IH]; intros Hp; [done| |by apply IH]. cbn [occupied]. unfold used in *. cbn [omap list_omap] in *.
  destruct (IsUnused (Some p)) eqn:Hu; [by apply IH|]. apply Forall_cons in Hp as [[H1 H2] Hp]. specialize (IH Hp).
  rewrite u64_small by lia. destruct (Z.ltb_spec (LastBlock p) (FirstBlock p)).
  { cbn. exists p. split; [by left|]. unfold onDevice. lia. }
  destruct (Z.leb_spec bc (FirstBlock p)).
  { cbn. exists p. split; [by left|]. unfold onDevice. lia. }
  destruct (Z.leb_spec bc (LastBlock p)).
  { cbn. exists p. split; [by left|]. unfold onDevice. lia. }
  cbn [orb negb]. destruct (occupied bc ps) as [[starts ends]|]; cbn.
  - destruct IH as (IH & -> & ->). rewrite !i64_small by lia. split; [|done]. constructor; [|done]. unfold onDevice. lia.
  - destruct IH as (q & Hq & Hbad). exists q. split; [by right|done].
Qed.

Lemma sortInts_sorted l : sorted (sortInts l).
Proof. apply Sorted_StronglySorted; [intros ???; lia|]. apply Sorted_merge_sort. intros ??. lia. Qed.

Lemma sortInts_perm l : sortInts l ≡ₚ l.
Proof. apply merge_sort_Permutation. Qed.

Lemma sorted_head x l : sorted l -> x ∈ l -> Forall (Z.le x) l -> exists l', l = x :: l'.
Proof.
  intros Hs Hx Hall. destruct l as [|y l]; [by apply not_elem_of_nil in Hx|]. exists l. f_equal.
  apply Forall_cons in Hall as [Hy _]. apply StronglySorted_inv in Hs as [_ Hs]. rewrite Forall_forall in Hs.
  apply elem_of_cons in Hx as [->|Hx]; [done|]. specialize (Hs x Hx). lia.
Qed.

Lemma ascending_from lo fs x : ascending lo fs -> inFree x fs -> lo < x.
Proof.
  intros Hasc (a & b & Hab & Hx). enough (lo < a) by lia. clear Hx. revert lo Hasc.
  induction fs as [|[c d] fs IH]; intros lo Hasc; [by apply not_elem_of_nil in Hab|]. cbn in Hasc. destruct Hasc as (? & ? & ?).
  apply elem_of_cons in Hab as [[= -> ->]|Hab]; [done|]. specialize (IH Hab d ltac:(done)). lia.
Qed.

(** The whole loop, from the start at 0. *)
Lemma sweep_all S E : boundaries (Some (-1)) S E (-2) false -> 0 ∈ S -> Forall (Z.le 0) S -> Forall (Z.lt 0) E -> len E = len S ->
  exists fs ov, sweep (Datatypes.S (length S + length E)) S E 0 [] false = Some (fs, ov) /\ ascending 0 fs /\
    (forall x, inFree x fs <-> 0 <= x /\ occ S E x = 0 /\ exists s, s ∈ S /\ x < s) /\
    (ov = true <-> exists x, 2 <= occ S E x).
Proof.
  intros Hb Hz HS0 HE0 Hlen. destruct (sorted_head 0 S) as [S' ->]; [apply Hb|done..|].
  destruct E as [|e E]; [rewrite len_cons in Hlen; unfold len in Hlen; cbn in Hlen; lia|].
  apply Forall_cons in HE0 as [He _]. pose proof (pop_start _ _ _ _ _ _ _ Hb He) as Hb'. rewrite Hlen, Z.sub_diag in Hb'. cbn in Hb'.
  destruct (sweep_ok (length (0 :: S') + length (e :: E)) None S' (e :: E) 0 [] false) as (fs & ov & Hsw & Hfi); [cbn; lia|done|].
  pose proof (finds_start _ _ _ _ _ _ _ fs ov Hb He) as Hfull. rewrite Hlen, Z.sub_diag in Hfull. specialize (Hfull Hfi).
  destruct Hfull as (_ & Hfree & Hov). destruct Hfi as (Hasc & _ & _). exists fs, ov. split_and!.
  - cbn [app opening] in Hsw. rewrite Hlen, len_cons in Hsw. replace (1 + len S' - len S') with 1 in Hsw by lia.
    cbn [sweep]. rewrite (proj2 (Z.eqb_neq _ _)), (proj2 (Z.ltb_lt _ _)) by lia. exact Hsw.
  - done.
  - intros x. specialize (Hfree x). rewrite inFree_cons in Hfree. unfold free in Hfree. split.
    + intros Hin. pose proof (ascending_from _ _ _ Hasc Hin). destruct (proj1 Hfree (or_intror Hin)) as (_ & ? & ?).
      split; [lia|done].
    + intros (Hx & Hz' & Hs). destruct (proj2 Hfree) as [?|?]; [|lia|done]. split_and!; [intros a [= <-]; lia|done..].
  - rewrite Hov. naive_solver.
Qed.

(** The loop on the boundaries of intervals that are not empty. *)
Lemma sweep_intervals l : Forall (fun i => 0 <= i.1 < i.2) l -> 0 ∈ l.*1 ->
  let S := sortInts l.*1 in let E := sortInts l.*2 in
  exists fs ov, sweep (Datatypes.S (length S + length E)) S E 0 [] false = Some (fs, ov) /\ ascending 0 fs /\
    (forall x, inFree x fs <-> 0 <= x /\ len (filter (covers x) l) = 0 /\ exists i, i ∈ l /\ x < i.1) /\
    (ov = true <-> overlapping l).
Proof.
  intros Hl Hz. cbn zeta. pose proof (proj1 (Forall_forall _ _) Hl) as Hl'.
  assert (forall x, occ (sortInts l.*1) (sortInts l.*2) x = len (filter (covers x) l)) as Hocc.
  { intros x. rewrite <- occ_intervals by (eapply Forall_impl; [exact Hl|cbn; lia]). unfold occ.
    by rewrite !(after_perm x _ _ (sortInts_perm _)). }
  assert (forall s, s ∈ sortInts l.*1 <-> exists i, i ∈ l /\ s = i.1) as HS.
  { intros s. rewrite sortInts_perm, list_elem_of_fmap. naive_solver. }
  assert (Forall (Z.le 0) (sortInts l.*1)) as HS0.
  { apply Forall_forall. intros s (i & Hi & ->)%HS. apply Hl', Hi. }
  assert (Forall (Z.lt 0) (sortInts l.*2)) as HE0.
  { apply Forall_forall. intros e. rewrite sortInts_perm, list_elem_of_fmap. intros (i & -> & Hi%Hl'). cbn in Hi. lia. }
  assert (len (sortInts l.*2) = len (sortInts l.*1)) as Hlen by (unfold len; by rewrite !sortInts_perm, !length_fmap).
  destruct (sweep_all (sortInts l.*1) (sortInts l.*2)) as (fs & ov & Hsw & Hasc & Hfree & Hov); [|by rewrite sortInts_perm|done..|].
  - split; [apply sortInts_sorted|apply sortInts_sorted|..|lia].
    + intros x. rewrite Hocc. unfold len. lia.
    + intros s (i & Hi & ->)%HS. rewrite Hocc. specialize (Hl' i Hi). cbn in Hl'.
      assert (i ∈ filter (covers i.1) l) as Hf by (apply list_elem_of_filter; unfold covers; split; [lia|done]).
      destruct (filter (covers i.1) l); [by apply not_elem_of_nil in Hf|]. rewrite len_cons. unfold len. lia.
    + eapply Forall_impl; [exact HS0|]. cbn. lia.
    + eapply Forall_impl; [exact HE0|]. cbn. lia.
    + cbn. split_and!; [done| |eapply Forall_impl; [exact HS0|cbn; lia]]. intros Hnil.
      assert (0 ∈ sortInts l.*1) as H0 by (by rewrite sortInts_perm). rewrite Hnil in H0. by apply not_elem_of_nil in H0.
    + by intros a [= <-].
  - exists fs, ov. split_and!; [done..| |].
    + intros x. rewrite Hfree, Hocc. setoid_rewrite HS. naive_solver.
    + rewrite Hov. unfold overlapping. setoid_rewrite Hocc. setoid_rewrite filter_two. naive_solver.
Qed.

(** Both copies of the table fit on the device. *)
Definition roomy (bs bc : Z) : Prop := 0 < bs < 2 ^ 62 /\ Overhead bs <= bc < 2 ^ 62.

(** No interval covers the block. *)
Definition freeBlock (bs bc : Z) (g : Table) (x : Z) : Prop := 0 <= x < bc /\ forall i, i ∈ intervals bs bc g -> ~ covers x i.

Lemma entryBlocks_pos bs bc : roomy bs bc -> 0 < partitionEntryBlocks bs.
Proof. intros [? _]. unfold partitionEntryBlocks. rewrite Z.quot_div_nonneg by lia. apply Z.div_str_pos. lia. Qed.

Lemma intervals_proper bs bc g : roomy bs bc -> Forall (onDevice bc) (used (Partitions g)) -> Forall (fun i => 0 <= i.1 < i.2) (intervals bs bc g).
Proof.
  intros Hr Hon. pose proof (entryBlocks_pos bs bc Hr). destruct Hr as [_ Hr]. unfold intervals, FirstUsableBlock, LastUsableBlock, Overhead in *.
  repeat constructor; cbn [fst snd]; try lia. apply Forall_fmap. eapply Forall_impl; [exact Hon|]. unfold onDevice, compose. cbn. lia.
Qed.

Lemma filter_none l x : len (filter (covers x) l) = 0 <-> forall i, i ∈ l -> ~ covers x i.
Proof.
  split.
  - intros Hl i Hi Hc. apply len_0 in Hl. assert (i ∈ filter (covers x) l) as H by (by apply list_elem_of_filter). rewrite Hl in H.
    by apply not_elem_of_nil in H.
  - intros H. destruct (filter (covers x) l) as [|i k] eqn:E; [done|]. exfalso. assert (i ∈ filter (covers x) l) as Hi by (rewrite E; by left).
    apply list_elem_of_filter in Hi as [Hc Hi]. by apply (H i).
Qed.

Lemma GetFreeSpaces_ok bs bc g : roomy bs bc -> Forall blocks64 (used (Partitions g)) -> Forall (onDevice bc) (used (Partitions g)) ->
  exists fs ov, GetFreeSpaces bs bc g = Some (Ok (fs, ov)) /\ ascending 0 fs /\
    (forall x, inFree x fs <-> freeBlock bs bc g x) /\ (ov = true <-> overlapping (intervals bs bc g)).
Proof.
  intros Hr H64 Hon. pose proof (intervals_proper bs bc g Hr Hon) as Hp. pose proof (entryBlocks_pos bs bc Hr). destruct Hr as [_ Hr].
  pose proof (occupied_spec bc (Partitions g) ltac:(unfold Overhead in *; lia) H64) as Hocc. unfold GetFreeSpaces.
  destruct (occupied bc (Partitions g)) as [[starts ends]|e]; [|destruct Hocc as (p & Hin & Hbad); rewrite Forall_forall in Hon; by destruct (Hbad (Hon p Hin))].
  destruct Hocc as (_ & -> & ->).
  destruct (sweep_intervals (intervals bs bc g)) as (fs & ov & Hsw & Hasc & Hfree & Hov); [done|by left|].
  cbn zeta in Hsw. exists fs, ov.
  unfold intervals at 1 2 3 4 in Hsw. cbn [fmap list_fmap fst snd] in Hsw.
  split_and!; [cbn [fmap list_fmap]; by rewrite Hsw|done| |done].
  intros x. rewrite Hfree, filter_none. unfold freeBlock. split.
  - intros (Hx & Hc & i & Hi & Hlt). split; [|done]. split; [done|]. rewrite Forall_forall in Hp.
    apply elem_of_cons in Hi as [->|[->|(p & -> & Hin)%list_elem_of_fmap]%elem_of_cons]; cbn in Hlt.
    + lia.
    + unfold LastUsableBlock in Hlt. lia.
    + rewrite Forall_forall in Hon. specialize (Hon p Hin) as [? ?]. lia.
  - intros (Hx & Hc). split_and!; [lia|done|]. exists (LastUsableBlock bs bc + 1, bc). split; [right; by left|]. cbn.
    specialize (Hc (LastUsableBlock bs bc + 1, bc) ltac:(right; by left)). unfold covers in Hc. cbn in Hc. lia.
Qed.

(** C28: The search for free space returns an error if and only if a partition ends
    before it begins or beyond the device.  Otherwise the spaces it returns are not
    empty, in ascending order and apart, contain exactly the blocks that neither the
    tables nor a partition occupies, and the flag says whether any two of them overlap. *)
Theorem GetFreeSpaces_correct bs bc g :
  roomy bs bc -> Forall blocks64 (used (Partitions g)) ->
  match GetFreeSpaces bs bc g with
  | Some (Ok (fs, overlap)) =>
      Forall (onDevice bc) (used (Partitions g)) /\ ascending 0 fs /\ (forall x, inFree x fs <-> freeBlock bs bc g x) /\
      (overlap = true <-> overlapping (intervals bs bc g))
  | Some (Err _) => exists p, p ∈ used (Partitions g) /\ ~ onDevice bc p
  | None => False
  end.
Proof.
  intros Hr H64. destruct (decide (Forall (onDevice bc) (used (Partitions g)))) as [Hon|Hoff].
  - by destruct (GetFreeSpaces_ok bs bc g Hr H64 Hon) as (fs & ov & -> & ?).
  - pose proof (entryBlocks_pos bs bc Hr). destruct Hr as [_ Hr]. unfold GetFreeSpaces, Overhead in *.
    pose proof (occupied_spec bc (Partitions g) ltac:(lia) H64) as Hocc.
    destruct (occupied bc (Partitions g)) as [[starts ends]|e]; [|done]. by destruct Hocc.
Qed.

End GptFree.
