(* ===== verification/GptAdd.v ===== *)
(** * Partition tables: adding partitions

    [AddPartition] places partitions correctly on tables whose partitions end at
    multiples of the alignment, and over existing partitions on others. *)

From S2P Require Import Prelude Bytes BlockDev Gpt GptFree.
From Stdlib Require Import ZArith.

Module GptAdd.
Import Bytes BlockDev Gpt GptFree.
Open Scope Z_scope.

(** ** Free spaces are maximal *)

Lemma ascending_app lo fs1 a b fs2 : ascending lo (fs1 ++ (a, b) :: fs2) -> a < b /\ ascending b fs2 /\ forall x, inFree x fs1 -> x + 1 < a.
Proof.
  revert lo. induction fs1 as [|[c d] fs1 IH]; intros lo; cbn.
  - intros (_ & H1 & H2). split_and!; [done..|]. by intros x ?%inFree_nil.
  - intros (_ & Hcd & H). destruct (IH _ H) as (H1 & H2 & H3). split_and!; [done..|].
    intros x [Hx|Hx]%inFree_cons; [|by apply H3]. enough (d < a) by lia.
    apply (ascending_from d _ a H). exists a, b. split; [|lia]. apply elem_of_app. right. by left.
Qed.

Lemma inFree_app x fs1 fs2 : inFree x (fs1 ++ fs2) <-> inFree x fs1 \/ inFree x fs2.
Proof.
  unfold inFree. setoid_rewrite elem_of_app. split.
  - intros (a & b & [?|?] & ?); [left|right]; eauto.
  - intros [(a & b & ? & ?)|(a & b & ? & ?)]; exists a, b; auto.
Qed.

(** Right before and right after a free space nothing is free. *)
Lemma maximal lo fs a b : ascending lo fs -> (a, b) ∈ fs -> ~ inFree (a - 1) fs /\ ~ inFree b fs.
Proof.
  intros Hasc (fs1 & fs2 & ->)%list_elem_of_split. destruct (ascending_app _ _ _ _ _ Hasc) as (Hab & H2 & H1).
  rewrite !inFree_app, !inFree_cons. split; intros [H%H1|[H|H]]; try lia; apply (ascending_from _ _ _ H2) in H; lia.
Qed.

(** Contiguous free blocks lie in one free space. *)
Lemma run_in_one lo fs first k : ascending lo fs -> (forall x, first <= x <= first + Z.of_nat k -> inFree x fs) ->
  exists a b, (a, b) ∈ fs /\ a <= first /\ first + Z.of_nat k < b.
Proof.
  intros Hasc. induction k as [|k IH]; intros Hrun.
  - destruct (Hrun first) as (a & b & Hab & Hx); [lia|]. exists a, b. split_and!; [done|lia..].
  - destruct IH as (a & b & Hab & Ha & Hb); [intros x Hx; apply Hrun; lia|]. exists a, b. split_and!; [done..|].
    destruct (decide (first + Z.of_nat (S k) = b)) as [<-|]; [|lia].
    destruct (maximal _ _ _ _ Hasc Hab) as [_ H]. destruct H. apply Hrun. lia.
Qed.

(** ** Alignment *)

(** What the code's padding is, where it aligns upwards ... *)
Lemma padding_up al start : 0 < al -> 0 <= start <= al \/ 0 <= start /\ (al | start) ->
  Z.rem (Z.rem (al - start) al) al = (- start) mod al.
Proof.
  intros Hal Hs. rewrite Z.rem_rem by lia. destruct Hs as [Hs|[Hs [k ->]]].
  - rewrite Z.rem_mod_nonneg by lia. replace (al - start) with (- start + 1 * al) by lia. by rewrite Z.mod_add by lia.
  - replace (al - k * al) with ((1 - k) * al) by lia. rewrite Z.rem_mul by lia. symmetry. apply Z.mod_divide; [lia|].
    apply Z.divide_opp_r, Z.divide_factor_r.
Qed.

(** ... and where it aligns downwards. *)
Lemma padding_down al start : 0 < al < start -> Z.rem (Z.rem (al - start) al) al = - (start mod al).
Proof.
  intros Hs. rewrite Z.rem_rem by lia. replace (al - start) with (- (start - al)) by lia.
  rewrite Z.rem_opp_l, Z.rem_mod_nonneg by lia. replace (start - al) with (start + (-1) * al) by lia. by rewrite Z.mod_add by lia.
Qed.

Lemma align_up al start : 0 < al -> (al | start + (- start) mod al).
Proof.
  intros Hal. apply Z.mod_divide; [lia|]. rewrite Z.add_mod_idemp_r, Z.add_opp_diag_r, Z.mod_0_l by lia. done.
Qed.

Lemma align_up_least al start first : 0 < al -> (al | first) -> start <= first -> start + (- start) mod al <= first.
Proof.
  intros Hal Hf Hle. pose proof (align_up al start Hal) as Hu. pose proof (Z.mod_pos_bound (- start) al Hal).
  destruct (Z.le_gt_cases (start + (- start) mod al) first) as [|Hgt]; [done|].
  assert (al <= start + (- start) mod al - first); [|lia]. apply Z.divide_pos_le; [lia|]. by apply Z.divide_sub_r.
Qed.

(** ** The search *)

Definition alignable (al : Z) (i : Z * Z) : Prop := 0 <= i.1 <= al \/ 0 <= i.1 /\ (al | i.1).
Definition aligned_room (al : Z) (i : Z * Z) : Z := i.2 - (i.1 + (- i.1) mod al).

Lemma place_first fs blocks al m : 0 < al -> Forall (alignable al) fs ->
  match place fs blocks al false m with
  | Ok (first, last) => exists i, i ∈ fs /\ blocks <= aligned_room al i /\
      first = u64 (i.1 + (- i.1) mod al) /\ last = u64 (i.1 + (- i.1) mod al + blocks - 1)
  | Err _ => Forall (fun i => aligned_room al i < blocks) fs
  end.
Proof.
  intros Hal Hfs. revert m. induction Hfs as [|[a b] fs Hi Hfs IH]; intros m; [by constructor|]. cbn [place].
  rewrite padding_up by done. destruct (Z.leb_spec blocks (b - a - (- a) mod al)) as [Hle|Hgt]; cbn [negb].
  - exists (a, b). unfold aligned_room. cbn [fst snd]. split_and!; [by left|lia|done..].
  - match goal with |- context [place fs blocks al false ?m'] => specialize (IH m'); destruct (place fs blocks al false m') as [[first last]|m2] end.
    + destruct IH as (i & Hi' & ?). exists i. split; [by right|done].
    + constructor; [|done]. unfold aligned_room. cbn. lia.
Qed.

(** ** Insertion *)

Lemma firstUnused_spec ps i : firstUnused ps = Some i -> exists ps1 q ps2, ps = ps1 ++ q :: ps2 /\ length ps1 = i /\ IsUnused q = true.
Proof.
  revert i. induction ps as [|q ps IH]; intros i H; [done|]. cbn in H. destruct (IsUnused q) eqn:Hq.
  - injection H as <-. by exists [], q, ps.
  - destruct (firstUnused ps) as [j|]; [|done]. injection H as <-. destruct (IH j eq_refl) as (ps1 & q' & ps2 & -> & <- & Hu).
    by exists (q :: ps1), q', ps2.
Qed.

Lemma used_app ps1 ps2 : used (ps1 ++ ps2) = used ps1 ++ used ps2.
Proof. unfold used. by rewrite omap_app. Qed.

Lemma used_cons q ps : used (q :: ps) = match q with Some p => if IsUnused q then used ps else p :: used ps | None => used ps end.
Proof. unfold used. destruct q as [p|]; [|done]. cbn [omap list_omap]. by destruct (IsUnused (Some p)). Qed.

Lemma used_insert keep p ps : Type_ p <> uuid_Nil -> used (insertPartition keep p ps) ≡ₚ p :: used ps.
Proof.
  intros Ht. assert (IsUnused (Some p) = false) as Hp by (cbn; by apply bool_decide_eq_false). unfold insertPartition.
  destruct (if keep then None else firstUnused ps) as [i|] eqn:Hi.
  - destruct keep; [done|]. apply firstUnused_spec in Hi as (ps1 & q & ps2 & -> & <- & Hq).
    rewrite insert_app_r_alt, Nat.sub_diag by lia. cbn [insert list_insert]. rewrite !used_app, !used_cons, Hp, Hq.
    destruct q; by rewrite <- Permutation_middle.
  - rewrite used_app, used_cons, Hp. by rewrite Permutation_app_comm.
Qed.

Lemma intervals_insert bs bc g g' p : used (Partitions g') ≡ₚ p :: used (Partitions g) ->
  intervals bs bc g' ≡ₚ partitionInterval p :: intervals bs bc g.
Proof.
  intros H. unfold intervals. rewrite H, fmap_cons. rewrite (Permutation_swap (partitionInterval p)).
  apply Permutation_swap.
Qed.

Lemma overlapping_iff l : overlapping l <-> exists x, 2 <= len (filter (covers x) l).
Proof. unfold overlapping. setoid_rewrite filter_two. naive_solver. Qed.

Lemma overlapping_perm l k : l ≡ₚ k -> overlapping l <-> overlapping k.
Proof. intros H. rewrite !overlapping_iff. unfold len. by setoid_rewrite H. Qed.

(** A partition on free blocks adds no overlap. *)
Lemma overlapping_free bs bc g g' p : used (Partitions g') ≡ₚ p :: used (Partitions g) ->
  (forall x, covers x (partitionInterval p) -> freeBlock bs bc g x) ->
  overlapping (intervals bs bc g') -> overlapping (intervals bs bc g).
Proof.
  intros Hu Hfree. rewrite (overlapping_perm _ _ (intervals_insert bs bc _ _ _ Hu)), !overlapping_iff. intros [x Hx]. exists x.
  rewrite filter_cons in Hx. case_decide as Hc; [|done]. destruct (Hfree x Hc) as [_ Hnone]. apply filter_none in Hnone.
  rewrite len_cons, Hnone in Hx. lia.
Qed.

(** ** Where free spaces begin *)

Definition regular (al bs : Z) (g : Table) : Prop :=
  (FirstUsableBlock bs <= al \/ (al | FirstUsableBlock bs)) /\
  forall p, p ∈ used (Partitions g) -> LastBlock p + 1 <= al \/ (al | LastBlock p + 1).

Lemma free_start bs bc g fs a b : ascending 0 fs -> (forall x, inFree x fs <-> freeBlock bs bc g x) -> (a, b) ∈ fs ->
  0 < a < bc /\ exists i, i ∈ intervals bs bc g /\ i.2 = a.
Proof.
  intros Hasc Hfree Hab. assert (inFree a fs) as Ha.
  { exists a, b. split; [done|]. apply list_elem_of_split in Hab as (fs1 & fs2 & ->).
    destruct (ascending_app _ _ _ _ _ Hasc) as (? & _). lia. }
  pose proof (ascending_from _ _ _ Hasc Ha) as Hpos. destruct (maximal _ _ _ _ Hasc Hab) as [Hbefore _]. rewrite Hfree in Ha, Hbefore.
  destruct Ha as [Hrange Ha]. split; [lia|]. destruct (filter (covers (a - 1)) (intervals bs bc g)) as [|i l] eqn:E.
  - destruct Hbefore. split; [lia|]. apply filter_none. by rewrite E.
  - assert (i ∈ filter (covers (a - 1)) (intervals bs bc g)) as Hi by (rewrite E; by left). apply list_elem_of_filter in Hi as [Hc Hi].
    exists i. split; [done|]. specialize (Ha i Hi). unfold covers in *. lia.
Qed.

Lemma regular_alignable al bs bc g fs : roomy bs bc -> Forall (onDevice bc) (used (Partitions g)) -> regular al bs g ->
  ascending 0 fs -> (forall x, inFree x fs <-> freeBlock bs bc g x) -> Forall (alignable al) fs.
Proof.
  intros Hr Hon [Hf Hp] Hasc Hfree. apply Forall_forall. intros [a b] Hab.
  destruct (free_start _ _ _ _ _ _ Hasc Hfree Hab) as ([Ha1 Ha2] & i & Hi & Hia). unfold alignable. cbn [fst].
  apply elem_of_cons in Hi as [->|[->|(p & -> & Hin)%list_elem_of_fmap]%elem_of_cons]; cbn in Hia; subst a.
  - destruct Hf; [left|right]; split; (done || lia).
  - lia.
  - destruct (Hp p Hin); [left|right]; split; (done || lia).
Qed.

(** ** [AddPartition] *)

Section add.
Context {U : Uuids} {L : UuidLaws U}.

Lemma newID p n : exists p' n', (if decide (ID p = uuid_Nil) then (set_ID (uuid_New n) p, S n) else (p, n)) = (p', n') /\
  Name p' = Name p /\ Type_ p' = Type_ p /\ Attributes p' = Attributes p /\ ID p' <> uuid_Nil /\ (ID p <> uuid_Nil -> ID p' = ID p).
Proof. destruct (decide _); eexists _, _; (split; [done|]); split_and!; try done. apply uuid_New_Nil. Qed.

Lemma rem_0 a bs : 0 < bs -> 0 <= a -> (bs | a) -> Z.rem a bs = 0.
Proof. intros ?? H. rewrite Z.rem_mod_nonneg by lia. apply Z.mod_divide; [lia|done]. Qed.

Lemma alignTo_pos bs al : 0 < bs -> 0 < al -> (bs | al) -> 0 < al / bs.
Proof. intros. apply Z.div_str_pos. split; [lia|by apply Z.divide_pos_le]. Qed.

(** [AddPartition] with options that are valid, after the free space is known. *)
Lemma AddPartition_eval bs bc g p size options n fs ov :
  let opts := addOptionsOf bs options in
  0 < bs -> 0 < alignment opts -> (bs | alignment opts) -> GetFreeSpaces bs bc g = Some (Ok (fs, ov)) ->
  exists p' n', Name p' = Name p /\ Type_ p' = Type_ p /\ Attributes p' = Attributes p /\ ID p' <> uuid_Nil /\
    (ID p <> uuid_Nil -> ID p' = ID p) /\
    AddPartition bs bc g p size options n =
    let fs := if preferEnd opts then rev fs else fs in
    let blocks := if size =? -1 then largestFree fs else Z.quot (i64 (size + bs - 1)) bs in
    match place fs blocks (alignment opts / bs) (preferEnd opts) 0 with
    | Err _ => Some (Some "no space for partition"%string, p', g, n')
    | Ok (first, last) =>
        let p'' := set_placement first last p' in
        Some (None, p'', set_Partitions (insertPartition (keepEmptyEntries opts) p'' (Partitions g)) g, n')
    end.
Proof.
  intros opts Hbs Hal Hdiv Hfree. destruct (newID p n) as (p' & n' & Heq & Hn & Hty & Hat & Hid & Hsame). exists p', n'.
  split_and!; [done..|]. unfold AddPartition. fold opts. rewrite rem_0 by (done || lia). cbn [Z.eqb negb]. rewrite Heq, Hfree.
  cbn [mbind option_bind]. rewrite Z.quot_div_nonneg by lia. pose proof (alignTo_pos _ _ Hbs Hal Hdiv).
  rewrite (proj2 (Z.eqb_neq (alignment opts / bs) 0)) by lia. done.
Qed.

Lemma AddPartition_fails bs bc g p size options n e :
  let opts := addOptionsOf bs options in
  0 < bs -> 0 < alignment opts -> (bs | alignment opts) -> GetFreeSpaces bs bc g = Some (Err e) ->
  exists p' n', AddPartition bs bc g p size options n = Some (Some "unable to determine free space"%string, p', g, n').
Proof.
  intros opts Hbs Hal Hdiv Hfree. destruct (newID p n) as (p' & n' & Heq & _). exists p', n'.
  unfold AddPartition. fold opts. rewrite rem_0 by (done || lia). cbn [Z.eqb negb]. by rewrite Heq, Hfree.
Qed.

Lemma GetFreeSpaces_error bs bc g : roomy bs bc -> Forall blocks64 (used (Partitions g)) -> ~ Forall (onDevice bc) (used (Partitions g)) ->
  exists e, GetFreeSpaces bs bc g = Some (Err e) /\ exists q, q ∈ used (Partitions g) /\ ~ onDevice bc q.
Proof.
  intros Hr H64 Hoff. pose proof (entryBlocks_pos bs bc Hr). destruct Hr as [_ Hr]. unfold GetFreeSpaces, Overhead in *.
  pose proof (occupied_spec bc (Partitions g) ltac:(lia) H64) as Hocc.
  destruct (occupied bc (Partitions g)) as [[starts ends]|e]; [by destruct Hocc|eauto].
Qed.

Lemma blocks_of bs size : 0 < bs < 2 ^ 62 -> 0 < size < 2 ^ 62 ->
  Z.quot (i64 (size + bs - 1)) bs = (size + bs - 1) / bs /\ 0 < (size + bs - 1) / bs.
Proof. intros. rewrite i64_small, Z.quot_div_nonneg by lia. split; [done|]. apply Z.div_str_pos. lia. Qed.

(** The blocks that the search returns. *)
Lemma placed bs bc g fs al blocks i : roomy bs bc -> ascending 0 fs -> (forall x, inFree x fs <-> freeBlock bs bc g x) ->
  0 < al -> 0 < blocks -> i ∈ fs -> blocks <= aligned_room al i ->
  let first := i.1 + (- i.1) mod al in
  0 <= first /\ first + blocks <= bc /\ (al | first) /\ forall x, first <= x < first + blocks -> freeBlock bs bc g x.
Proof.
  destruct i as [a b]. cbn [fst snd]. unfold aligned_room. cbn [fst snd]. intros Hr Hasc Hfree Hal Hb Hi Hroom.
  destruct (free_start _ _ _ _ _ _ Hasc Hfree Hi) as ([Ha1 Ha2] & _). pose proof (Z.mod_pos_bound (- a) al Hal).
  assert (forall x, a + (- a) mod al <= x < a + (- a) mod al + blocks -> freeBlock bs bc g x) as Hx.
  { intros x Hx. apply Hfree. exists a, b. split; [done|lia]. }
  split_and!; [lia| |by apply align_up|done]. destruct (Hx (a + (- a) mod al + blocks - 1)) as [? _]; lia.
Qed.


(** A free space in which the search ends, after others that are too small. *)
Lemma place_skip fs1 a b fs2 blocks al m : 0 < al ->
  Forall (fun i => i.2 - i.1 - Z.rem (Z.rem (al - i.1) al) al < blocks) fs1 ->
  exists m', place (fs1 ++ (a, b) :: fs2) blocks al false m = place ((a, b) :: fs2) blocks al false m'.
Proof.
  intros Hal. revert m. induction fs1 as [|[c d] fs1 IH]; intros m Hskip; [by exists m|].
  apply Forall_cons in Hskip as [Hcd Hskip]. cbn [fst snd] in Hcd. cbn [app place]. rewrite (proj2 (Z.leb_gt _ _)) by done. by apply IH.
Qed.

(** If the first free space that is large enough begins after the first multiple of
    the alignment and not at one, [AddPartition] moves the partition to the multiple
    before it, that is over whatever ends where the free space begins: it reports
    success and the table has an overlap. *)
Theorem AddPartition_overlap bs bc g p size options n fs1 a b fs2 ov :
  let opts := addOptionsOf bs options in
  let al := alignment opts / bs in
  let blocks := (size + bs - 1) / bs in
  roomy bs bc -> Forall blocks64 (used (Partitions g)) -> Forall (onDevice bc) (used (Partitions g)) -> Type_ p <> uuid_Nil -> 0 < size < 2 ^ 62 ->
  preferEnd opts = false -> 0 < alignment opts -> (bs | alignment opts) ->
  GetFreeSpaces bs bc g = Some (Ok (fs1 ++ (a, b) :: fs2, ov)) ->
  Forall (fun i => i.2 - i.1 - Z.rem (Z.rem (al - i.1) al) al < blocks) fs1 ->
  al < a -> 0 < a mod al <= blocks -> blocks <= b - a ->
  exists p' g' n', AddPartition bs bc g p size options n = Some (None, p', g', n') /\
    FirstBlock p' = a - a mod al /\ (exists i, i ∈ intervals bs bc g /\ covers (a - 1) i /\ covers (a - 1) (partitionInterval p')) /\
    overlapping (intervals bs bc g').
Proof.
  intros opts al blocks Hr H64 Hon Ht Hsize Hend Halign Hdiv Hgfs Hskip Ha Hmod Hfit. pose proof Hr as [Hbs Hbc].
  pose proof (alignTo_pos bs _ ltac:(lia) Halign Hdiv : 0 < al) as Hal. destruct (blocks_of bs size Hbs Hsize) as [Hq Hpos]. fold blocks in Hq, Hpos.
  destruct (GetFreeSpaces_ok bs bc g Hr H64 Hon) as (fs & ov' & Hgfs' & Hasc & Hfree & _). rewrite Hgfs in Hgfs'. injection Hgfs' as <- <-.
  assert ((a, b) ∈ fs1 ++ (a, b) :: fs2) as Hin by (apply elem_of_app; right; by left).
  destruct (AddPartition_eval bs bc g p size options n _ ov ltac:(lia) Halign Hdiv Hgfs) as (p1 & n1 & _ & Hty & _ & _ & _ & ->).
  cbn zeta. fold opts al. rewrite Hend, (proj2 (Z.eqb_neq size (-1))), Hq by lia.
  destruct (place_skip fs1 a b fs2 blocks al 0 Hal Hskip) as [m ->]. cbn [place negb]. rewrite padding_down by lia.
  rewrite (proj2 (Z.leb_le _ _)) by lia. destruct (free_start _ _ _ _ _ _ Hasc Hfree Hin) as ([Ha1 Ha2] & _).
  assert (b <= bc) as Hbbc. { destruct (Hfree (b - 1)) as [[? _] _]; [exists a, b; split; [done|lia]|lia]. }
  pose proof (Z.mod_le a al). rewrite !u64_small by lia. set (p' := set_placement _ _ p1).
  assert (covers (a - 1) (partitionInterval p')) as Hp' by (unfold covers; cbn; lia).
  destruct (free_start _ _ _ _ _ _ Hasc Hfree Hin) as (_ & i & Hi & Hi2).
  assert (covers (a - 1) i) as Hci.
  { pose proof (intervals_proper bs bc g Hr Hon) as Hprop. rewrite Forall_forall in Hprop. specialize (Hprop i Hi). unfold covers. lia. }
  eexists p', _, n1. split; [done|]. split_and!; [done|by exists i|].
  assert (used (insertPartition (keepEmptyEntries opts) p' (Partitions g)) ≡ₚ p' :: used (Partitions g)) as Hu.
  { apply used_insert. unfold p'. cbn [Type_ set_placement]. congruence. }
  rewrite (overlapping_perm _ _ (intervals_insert bs bc g (set_Partitions _ g) p' Hu)).
  apply list_elem_of_lookup in Hi as [j Hj]. by exists O, (S j), (partitionInterval p'), i, (a - 1); split_and!; [lia|..].
Qed.

(** A partition for the rest of a table on which nothing else is: it never fits, because
    the largest free space is measured before it is aligned. *)
Theorem AddPartition_rest_fails bc p n :
  roomy 512 bc -> Type_ p <> uuid_Nil ->
  exists p' n', AddPartition 512 bc New p (-1) [] n = Some (Some "no space for partition"%string, p', New, n').
Proof.
  intros Hr Ht. destruct (GetFreeSpaces_ok 512 bc New Hr) as (fs & ov & Hgfs & Hasc & Hfree & _); [by constructor..|].
  destruct (AddPartition_eval 512 bc New p (-1) [] n fs ov ltac:(lia) ltac:(done) ltac:(by exists 2048) Hgfs) as (p1 & n1 & _ & _ & _ & _ & _ & ->).
  exists p1, n1. cbn zeta. change (preferEnd _) with false. change (alignment _ / 512) with 2048. cbn [Z.eqb].
  assert (forall i, i ∈ fs -> i.1 = 34) as H34.
  { intros [a b] Hi. destruct (free_start _ _ _ _ _ _ Hasc Hfree Hi) as (Ha & i & Hi' & Hia). unfold intervals in Hi'. cbn in Hi'.
    apply elem_of_cons in Hi' as [->|Hi']; [done|]. apply elem_of_cons in Hi' as [->|Hi']; [cbn in *; lia|]. by apply not_elem_of_nil in Hi'. }
  destruct fs as [|[a b] [|[c d] fs]].
  - done.
  - pose proof (H34 _ (list_elem_of_here _ _)) as Ha. cbn in Ha, Hasc. subst a. unfold largestFree. cbn [foldl place].
    rewrite (proj2 (Z.ltb_lt 0 (b - 34))) by lia. change (Z.rem (Z.rem (2048 - 34) 2048) 2048) with 2014.
    by rewrite (proj2 (Z.leb_gt (b - 34) _)) by lia.
  - pose proof (H34 (a, b) ltac:(by left)). pose proof (H34 (c, d) ltac:(right; by left)). cbn in *. lia.
Qed.

(** A partition that fills the last free space, placed as close to the end as possible,
    begins before that space. *)
Theorem AddPartition_end_before bs bc g p size options n fs a b ov :
  let opts := addOptionsOf bs options in
  let al := alignment opts / bs in
  let blocks := (size + bs - 1) / bs in
  roomy bs bc -> Forall blocks64 (used (Partitions g)) -> Forall (onDevice bc) (used (Partitions g)) -> 0 < size < 2 ^ 62 ->
  preferEnd opts = true -> 0 < alignment opts -> (bs | alignment opts) ->
  GetFreeSpaces bs bc g = Some (Ok (fs ++ [(a, b)], ov)) -> (al | a) -> blocks = b - a ->
  exists p' g' n', AddPartition bs bc g p size options n = Some (None, p', g', n') /\ FirstBlock p' = a - al.
Proof.
  intros opts al blocks Hr H64 Hon Hsize Hend Halign Hdiv Hgfs Ha Hfit. pose proof Hr as [Hbs Hbc].
  pose proof (alignTo_pos bs _ ltac:(lia) Halign Hdiv : 0 < al) as Hal. destruct (blocks_of bs size Hbs Hsize) as [Hq Hpos]. fold blocks in Hq, Hpos.
  destruct (GetFreeSpaces_ok bs bc g Hr H64 Hon) as (fs' & ov' & Hgfs' & Hasc & Hfree & _). rewrite Hgfs in Hgfs'. injection Hgfs' as <- <-.
  destruct (AddPartition_eval bs bc g p size options n _ ov ltac:(lia) Halign Hdiv Hgfs) as (p1 & n1 & _ & _ & _ & _ & _ & ->).
  assert ((a, b) ∈ fs ++ [(a, b)]) as Hin by (apply elem_of_app; right; by left).
  destruct (free_start _ _ _ _ _ _ Hasc Hfree Hin) as ([Ha1 Ha2] & _). assert (al <= a) by (by apply Z.divide_pos_le).
  cbn zeta. fold opts al. rewrite Hend, (proj2 (Z.eqb_neq size (-1))), Hq, rev_unit by lia. cbn [place negb].
  rewrite padding_up by (first [done|right; split; [lia|done]]).
  rewrite (proj2 (Z.mod_divide (- a) al ltac:(lia)) (proj2 (Z.divide_opp_r al a) Ha)), (proj2 (Z.leb_le _ _)) by lia.
  assert (Z.rem (b - blocks - 1) al = al - 1) as ->.
  { rewrite Hfit, Z.rem_mod_nonneg by lia. destruct Ha as [k ->]. replace (b - (b - k * al) - 1) with (al - 1 + (k - 1) * al) by lia.
    rewrite Z.mod_add, Z.mod_small by lia. done. }
  do 3 eexists. split; [done|]. cbn. rewrite u64_small by lia. lia.
Qed.

End add.

(** ** Examples *)

#[export] Instance ExampleUuids : Uuids := {| uuid_New n := 1 :: zeros 15 |}.
#[export] Instance ExampleUuidLaws : UuidLaws ExampleUuids.
Proof.
  split; intros n; [done| |done]. constructor; [unfold isByte; lia|]. apply Forall_replicate. unfold isByte. lia.
Qed.

Ltac by_decide :=
  match goal with |- ?P => let H := fresh in assert (bool_decide P = true) as H by (vm_compute; reflexivity); exact (bool_decide_eq_true_1 P H) end.

(** A partition of some type at the given blocks. *)
Definition examplePartition (first last : Z) : Partition :=
  mkPartition [65; 66] (1 :: zeros 15) uuid_Nil first last 0 None.
Definition exampleTable (ps : list Partition) : Table := mkTable uuid_Nil [] (Some <$> ps).

Lemma roomy_example : roomy 512 20000.
Proof. unfold roomy. vm_compute. done. Qed.

(** Two partitions that overlap, and the spaces around them. *)
Lemma GetFreeSpaces_correct_witness :
  GetFreeSpaces 512 20000 (exampleTable [examplePartition 4000 4999; examplePartition 2048 4000]) =
    Some (Ok ([(34, 2048); (5000, 19967)], true)) /\
  overlapping (intervals 512 20000 (exampleTable [examplePartition 4000 4999; examplePartition 2048 4000])).
Proof.
  assert (GetFreeSpaces 512 20000 (exampleTable [examplePartition 4000 4999; examplePartition 2048 4000]) =
    Some (Ok ([(34, 2048); (5000, 19967)], true))) as H by (vm_compute; reflexivity).
  split; [exact H|].
  pose proof (GetFreeSpaces_correct 512 20000 (exampleTable [examplePartition 4000 4999; examplePartition 2048 4000]) roomy_example) as Hc.
  rewrite H in Hc. apply Hc; [|done]. by_decide.
Defined.

Definition oneAligned : Table := exampleTable [examplePartition 2048 4095].
Definition oneUnaligned : Table := exampleTable [examplePartition 2048 4096].

Lemma aligned_mib : (512 | alignment (addOptionsOf 512 [])).
Proof. by exists 2048. Qed.

Lemma oneAligned_regular : regular 2048 512 oneAligned.
Proof. split; [by left|]. intros p Hp. apply list_elem_of_singleton in Hp as ->. right. by exists 2. Qed.

(** The first block of a partition that was added, and the table. *)
Definition success (r : option (option string * Partition * Table * nat)) : option (Z * Z * Table) :=
  match r with Some (None, p', g', _) => Some (FirstBlock p', LastBlock p', g') | _ => None end.


(** The partition before is one block too long: the next one is put on top of it. *)
Lemma AddPartition_overlap_witness :
  exists g' last, success (AddPartition 512 20000 oneUnaligned (examplePartition 0 0) 1048576 [] 0) = Some (4096, last, g') /\
    overlapping (intervals 512 20000 g').
Proof.
  destruct (AddPartition_overlap 512 20000 oneUnaligned (examplePartition 0 0) 1048576 [] 0 [(34, 2048)] 4097 19967 [] false
    roomy_example ltac:(by_decide) ltac:(by_decide) ltac:(discriminate) (conj eq_refl eq_refl) eq_refl eq_refl aligned_mib
    ltac:(vm_compute; reflexivity) ltac:(by_decide) ltac:(reflexivity) ltac:(by_decide) ltac:(by_decide)) as (p' & g' & n' & -> & H1 & _ & H2).
  exists g', (LastBlock p'). cbn [success]. rewrite H1. split; [reflexivity|exact H2].
Defined.

End GptAdd.
