(* ===== verification/GptCodec.v ===== *)
(** * Partition tables: the bytes on disk

    Decoding the header, the entries and the boot block gives back what was encoded;
    what a table looks like after that. *)

From S2P Require Import Prelude Bytes BlockDev Gpt.
From Stdlib Require Import ZArith.

Module GptCodec.
Import Bytes BlockDev BlockDevProps Gpt.
Open Scope Z_scope.

(** ** Fields *)

Definition isUuid (u : bytes) : Prop := length u = 16%nat /\ isBytes u.

Record headerOk (h : header) : Prop := {
  ok_sig : length (Signature h) = 8%nat /\ isBytes (Signature h);
  ok_id : isUuid (hdrID h);
  ok_4 : Forall (fun v => 0 <= v < width 4)
    [Revision h; HeaderSize h; HeaderCRC32 h; PartitionEntryCount h; PartitionEntrySize h; PartitionEntriesCRC32 h];
  ok_8 : Forall (fun v => 0 <= v < width 8)
    [HeaderBlock h; AlternateHeaderBlock h; hdrFirstUsable h; hdrLastUsable h; PartitionEntriesStartBlock h]
}.

Lemma header_roundtrip h l : headerOk h -> decodeHeader (encodeHeader h ++ l) = h.
Proof.
  intros [[Hs _] [Hi _] H4 H8]. do 6 rewrite Forall_cons in H4. do 5 rewrite Forall_cons in H8. destruct H4 as (?&?&?&?&?&?&_), H8 as (?&?&?&?&?&_).
  unfold encodeHeader, decodeHeader. repeat rewrite <- app_assoc. rewrite getBytes_app by done.
  do 3 rewrite getLE_app by done. rewrite getBytes_app by done. do 4 rewrite getLE_app by done. rewrite getBytes_app by done.
  do 4 rewrite getLE_app by done. by destruct h.
Qed.

Lemma encodeHeader_length h : headerOk h -> length (encodeHeader h) = 92%nat.
Proof.
  intros [[Hs _] [Hi _] _ _]. unfold encodeHeader. rewrite !length_app, !le_length, Hs, Hi. unfold zeros. by rewrite length_replicate.
Qed.

Lemma encodeHeader_isBytes h : headerOk h -> isBytes (encodeHeader h).
Proof.
  intros [[_ Hs] [_ Hi] _ _]. unfold encodeHeader, isBytes. repeat apply Forall_app_2; try done; try apply le_isBytes. apply zeros_isBytes.
Qed.

Record partitionOk (p : partition) : Prop := {
  ok_type : isUuid (pType p);
  ok_pid : isUuid (pID p);
  ok_p8 : Forall (fun v => 0 <= v < width 8) [pFirst p; pLast p; pAttributes p];
  ok_name : length (pName p) = 36%nat /\ Forall (fun v => 0 <= v < width 2) (pName p)
}.

Lemma partition_roundtrip p l : partitionOk p -> decodePartition (encodePartition p ++ l) = p.
Proof.
  intros [[Ht _] [Hi _] H8 [Hn Hn']]. do 3 rewrite Forall_cons in H8. destruct H8 as (?&?&?&_).
  unfold encodePartition, decodePartition. repeat rewrite <- app_assoc. do 2 rewrite getBytes_app by done. do 3 rewrite getLE_app by done.
  rewrite <- Hn, getLEs_concat by done. by destruct p.
Qed.

Lemma encodePartition_length p : partitionOk p -> length (encodePartition p) = 128%nat.
Proof.
  intros [[Ht _] [Hi _] _ [Hn _]]. unfold encodePartition. rewrite !length_app, !le_length, concat_le_length, Ht, Hi, Hn. done.
Qed.

Lemma encodePartition_isBytes p : partitionOk p -> isBytes (encodePartition p).
Proof.
  intros [[_ Ht] [_ Hi] _ _]. unfold encodePartition, isBytes. repeat apply Forall_app_2; try done; try apply le_isBytes.
  induction (pName p) as [|v vs IH]; [constructor|]. cbn [fmap list_fmap concat]. apply Forall_app_2; [apply le_isBytes|done].
Qed.

(** ** UUIDs *)

Lemma list16 (u : bytes) : length u = 16%nat -> exists a0 a1 a2 a3 a4 a5 a6 a7 a8 a9 a10 a11 a12 a13 a14 a15,
  u = [a0; a1; a2; a3; a4; a5; a6; a7; a8; a9; a10; a11; a12; a13; a14; a15].
Proof. intros H. do 16 (destruct u as [|? u]; [done|]). destruct u; [|done]. by do 16 eexists. Qed.

Lemma To_From u : length u = 16%nat -> To_ (From_ u) = u.
Proof. intros (a0&a1&a2&a3&a4&a5&a6&a7&a8&a9&a10&a11&a12&a13&a14&a15&->)%list16. reflexivity. Qed.

Lemma From_uuid u : isUuid u -> isUuid (From_ u).
Proof.
  intros [(a0&a1&a2&a3&a4&a5&a6&a7&a8&a9&a10&a11&a12&a13&a14&a15&->)%list16 Hb]. split; [done|].
  unfold isBytes in *. do 16 rewrite Forall_cons in Hb. destruct Hb as (?&?&?&?&?&?&?&?&?&?&?&?&?&?&?&?&?). cbn. repeat (apply Forall_cons_2; [done|]). constructor.
Qed.

Lemma From_Nil u : length u = 16%nat -> From_ u = uuid_Nil <-> u = uuid_Nil.
Proof. intros Hl. split; [|by intros ->]. intros H. rewrite <- (To_From u Hl), H. done. Qed.

(** ** Names *)

Lemma nameUTF16_ok name : length (nameUTF16 name) = 36%nat /\ Forall (fun v => 0 <= v < width 2) (nameUTF16 name).
Proof.
  unfold nameUTF16. split; [by rewrite copy_length|]. unfold copy_. apply Forall_app_2; [by apply Forall_take, utf16Encode_width|].
  apply Forall_drop, Forall_replicate. done.
Qed.

Lemma trimRight_zeros l n : trimRight (l ++ zeros n) = trimRight l.
Proof.
  assert (trimRight (zeros n) = []) as Hz by (unfold zeros; induction n as [|n IH]; [done|cbn; by rewrite IH]).
  induction l as [|c l IH]; [done|]. cbn. by rewrite IH.
Qed.

Lemma trimRight_id l : last l <> Some 0 -> trimRight l = l.
Proof.
  induction l as [|c l IH]; [done|]. intros H. cbn. destruct l as [|d l].
  - cbn. destruct (Z.eqb_spec c 0); [|done]. by subst.
  - rewrite IH by done. done.
Qed.

(** The name as it is read back: cut after 36 code units, without zeroes at its end. *)
Definition storedName (name : list Z) : list Z := trimRight (utf16Decode (nameUTF16 name)).

Lemma storedName_id name : Forall isRune name -> (length (utf16Encode name) <= 36)%nat -> last name <> Some 0 -> storedName name = name.
Proof.
  intros Hr Hl Hlast. unfold storedName, nameUTF16, copy_. change (length (zeros 36)) with 36%nat. rewrite take_ge by done.
  unfold zeros. rewrite drop_replicate. fold (zeros (36 - length (utf16Encode name))).
  rewrite utf16_roundtrip, utf16_zeros, trimRight_zeros by done. by apply trimRight_id.
Qed.

(** ** Partitions as they are read back *)

Record storable (p : Partition) : Prop := {
  st_type : isUuid (Type_ p);
  st_id : isUuid (ID p);
  st_64 : Forall (fun v => 0 <= v < width 8) [FirstBlock p; LastBlock p; Attributes p]
}.

Definition storedPartition (p : option Partition) : option Partition :=
  match p with
  | Some p => if decide (Type_ p = uuid_Nil) then None
              else Some (mkPartition (storedName (Name p)) (Type_ p) (ID p) (FirstBlock p) (LastBlock p) (Attributes p) None)
  | None => None
  end.

Lemma rawPartition_ok p : storable p -> partitionOk (rawPartition p).
Proof. intros [Ht Hi H8]. split; cbn; [by apply From_uuid|by apply From_uuid|done|apply nameUTF16_ok]. Qed.

Definition entryOk (p : option Partition) : Prop := match p with Some p => storable p | None => True end.

Lemma entryData_length p : entryOk p -> length (entryData p) = 128%nat.
Proof. destruct p as [p|]; [|done]. intros H. by apply encodePartition_length, rawPartition_ok. Qed.

Lemma entryData_isBytes p : entryOk p -> isBytes (entryData p).
Proof. destruct p as [p|]; [|intros _; apply zeros_isBytes]. intros H. by apply encodePartition_isBytes, rawPartition_ok. Qed.

Lemma entry_roundtrip p : entryOk p -> partitionOf (decodePartition (entryData p)) = storedPartition p.
Proof.
  destruct p as [p|]; [|reflexivity]. intros H. cbn [entryData]. rewrite <- (app_nil_r (encodePartition _)), partition_roundtrip by (by apply rawPartition_ok).
  unfold partitionOf, storedPartition. cbn [rawPartition pType pID pFirst pLast pAttributes pName]. destruct H as [[Ht _] [Hi _] _].
  destruct (decide (Type_ p = uuid_Nil)) as [->|Hne]; [done|]. rewrite decide_False by (by rewrite From_Nil). by rewrite !To_From.
Qed.

(** ** The area of the entries *)

Lemma chunk_concat {A} (k : nat) (ls : list (list A)) i l : Forall (fun l => length l = k) ls -> ls !! i = Some l ->
  take k (drop (i * k) (concat ls)) = l.
Proof.
  intros Hls. revert i. induction Hls as [|a ls Ha Hls IH]; intros [|i] Hi; try done; cbn in Hi; cbn [concat].
  - injection Hi as ->. rewrite drop_0. by rewrite take_app_length'.
  - rewrite Nat.mul_succ_l, Nat.add_comm, <- drop_drop. rewrite (drop_app_length' a) by done. by apply IH.
Qed.

Definition entriesOk (ps : list (option Partition)) : Prop := Forall entryOk ps.

Lemma entryOk_lookup ps i : entriesOk ps -> entryOk (default None (ps !! i)).
Proof. intros H. destruct (ps !! i) as [p|] eqn:E; [|done]. by apply (Forall_lookup_1 _ _ _ _ H E). Qed.

Lemma entries_chunks ps : entriesOk ps -> Forall (fun l => length l = 128%nat) ((fun i => entryData (default None (ps !! i))) <$> seq 0 128).
Proof. intros H. apply Forall_fmap, Forall_true. intros i. by apply entryData_length, entryOk_lookup. Qed.

Lemma entries_length ps : entriesOk ps -> length (partitionEntriesData ps) = (128 * 128)%nat.
Proof. intros H. unfold partitionEntriesData. rewrite (concat_length_uniform 128) by (by apply entries_chunks). by rewrite length_fmap, length_seq. Qed.

Lemma entries_isBytes ps : entriesOk ps -> isBytes (partitionEntriesData ps).
Proof.
  intros H. unfold partitionEntriesData, isBytes. apply Forall_concat, Forall_fmap, Forall_true. intros i. by apply entryData_isBytes, entryOk_lookup.
Qed.

Lemma entries_roundtrip ps : entriesOk ps ->
  readEntries (partitionEntriesData ps) 128 128 = (fun i => storedPartition (default None (ps !! i))) <$> seq 0 128.
Proof.
  intros H. unfold readEntries, partitionEntriesData. apply list_fmap_ext. intros i x Hi.
  apply lookup_seq in Hi as [-> Hi]. cbn [Nat.add].
  rewrite (chunk_concat 128 _ i (entryData (default None (ps !! i)))); [by apply entry_roundtrip, entryOk_lookup|by apply entries_chunks|].
  rewrite list_lookup_fmap, lookup_seq_lt by done. done.
Qed.

(** ** Entries at the end that are not used *)

Fixpoint trimUnused (ps : list (option Partition)) : list (option Partition) :=
  match ps with
  | [] => []
  | p :: ps => match trimUnused ps, p with [], None => [] | ps', _ => p :: ps' end
  end.

Definition storedPartitions (ps : list (option Partition)) : list (option Partition) :=
  match trimUnused (storedPartition <$> ps) with [] => [None] | l => l end.

Lemma trimUnused_None l n : trimUnused (l ++ replicate n None) = trimUnused l.
Proof.
  induction l as [|p l IH]; [|cbn; by rewrite IH]. induction n as [|n IH]; [done|]. cbn in *. by rewrite IH.
Qed.

Lemma trimUnused_Some l p : trimUnused (l ++ [Some p]) = l ++ [Some p].
Proof. induction l as [|q l IH]; [done|]. cbn. rewrite IH. by destruct l. Qed.

Lemma maxValid_snoc l p : maxValidPartition (l ++ [p]) = if IsUnused p then maxValidPartition l else length l.
Proof. unfold maxValidPartition. rewrite imap_app, foldl_app. cbn. rewrite Nat.add_0_r. by destruct (IsUnused p). Qed.

Lemma maxValid_lt l : l <> [] -> (maxValidPartition l < length l)%nat.
Proof.
  induction l as [|p l IH] using rev_ind; [done|]. intros _. rewrite maxValid_snoc, length_app. cbn.
  destruct (IsUnused p); [|lia]. destruct l; [cbn; lia|]. specialize (IH ltac:(done)). lia.
Qed.

Definition proper (p : option Partition) : Prop := p = None \/ IsUnused p = false.

Lemma take_maxValid l : l <> [] -> Forall proper l ->
  take (S (maxValidPartition l)) l = match trimUnused l with [] => take 1 l | l' => l' end.
Proof.
  induction l as [|p l IH] using rev_ind; [done|]. intros _ [Hl [Hp _]%Forall_cons]%Forall_app. rewrite maxValid_snoc. destruct Hp as [->|Hp].
  - cbn [IsUnused]. change [None] with (replicate 1 (@None Partition)). rewrite trimUnused_None. destruct l as [|q l]; [done|].
    pose proof (maxValid_lt (q :: l) ltac:(done)). rewrite take_app_le by lia. rewrite IH by done. by destruct (trimUnused (q :: l)).
  - rewrite Hp. destruct p as [p|]; [|done]. rewrite trimUnused_Some, take_ge by (rewrite length_app; cbn; lia). by destruct l.
Qed.

Lemma stored_proper p : proper (storedPartition p).
Proof.
  destruct p as [p|]; [|by left]. cbn. destruct (decide _) as [|Hne]; [by left|]. right. cbn [IsUnused Type_]. by apply bool_decide_eq_false.
Qed.

Lemma stored_entries (ps : list (option Partition)) n : (length ps <= n)%nat ->
  (fun i => storedPartition (default None (ps !! i))) <$> seq 0 n = (storedPartition <$> ps) ++ replicate (n - length ps) None.
Proof.
  intros Hn. apply list_eq. intros i. rewrite list_lookup_fmap. destruct (decide (i < n)%nat) as [Hi|Hi].
  - rewrite lookup_seq_lt by done. cbn. destruct (decide (i < length ps)%nat).
    + rewrite lookup_app_l by (by rewrite length_fmap). rewrite list_lookup_fmap. by destruct (lookup_lt_is_Some_2 ps i) as [p ->].
    + rewrite lookup_app_r by (rewrite length_fmap; lia). rewrite lookup_replicate_2 by (rewrite length_fmap; lia).
      by rewrite lookup_ge_None_2 by lia.
  - rewrite lookup_seq_ge by lia. rewrite lookup_ge_None_2; [done|]. rewrite length_app, length_fmap, length_replicate. lia.
Qed.

(** What [readSingleGPT] makes of the entries. *)
Lemma entries_stored ps : entriesOk ps -> (length ps <= 128)%nat ->
  let l := readEntries (partitionEntriesData ps) 128 128 in
  length l = 128%nat /\ take (S (maxValidPartition l)) l = storedPartitions ps.
Proof.
  intros Hok Hlen l. unfold l. rewrite entries_roundtrip by done. split; [by rewrite length_fmap, length_seq|].
  rewrite take_maxValid; [|done|apply Forall_fmap, Forall_true; intros; apply stored_proper].
  rewrite stored_entries, trimUnused_None by done. unfold storedPartitions. destruct (trimUnused _) eqn:E; [|done].
  destruct ps as [|p ps]; [done|]. cbn. cbn in E. destruct (trimUnused (storedPartition <$> ps)), (storedPartition p); done.
Qed.

(** The table as it is read back. *)
Definition stored (g : Table) : Table := mkTable (TableID g) (trimRight (BootCode g)) (storedPartitions (Partitions g)).

(** ** Padding *)

Lemma padTo_length bs l : 0 < bs -> len (padTo bs l) = bs * ((len l + bs - 1) / bs).
Proof.
  intros Hbs. unfold padTo, len, zeros. rewrite length_app, length_replicate, Nat2Z.inj_add, Z2Nat.id by (apply Z.mod_pos_bound; lia).
  fold (len l). pose proof (Z.div_mod (len l + bs - 1) bs ltac:(lia)) as Hd. pose proof (Z.mod_pos_bound (len l + bs - 1) bs Hbs).
  pose proof (Z.mod_pos_bound (- len l) bs Hbs). rewrite <- (Z.mod_unique_pos (- len l) bs (- ((len l + bs - 1) / bs)) (bs - 1 - (len l + bs - 1) mod bs)); lia.
Qed.

Lemma padTo_divides bs l : 0 < bs -> (bs | len (padTo bs l)).
Proof. intros. rewrite padTo_length by done. apply Z.divide_factor_l. Qed.

Lemma padTo_id bs l : 0 < bs -> (bs | len l) -> padTo bs l = l.
Proof. intros Hbs Hd. unfold padTo. rewrite (proj2 (Z.mod_divide (- len l) bs ltac:(lia)) (proj2 (Z.divide_opp_r _ _) Hd)). apply app_nil_r. Qed.

Lemma padTo_block bs l : 0 < len l <= bs -> len (padTo bs l) = bs.
Proof.
  intros H. rewrite padTo_length by lia. replace ((len l + bs - 1) / bs) with 1; [lia|]. apply (Z.div_unique_pos _ _ _ (len l - 1)); lia.
Qed.

End GptCodec.
