(* ===== verification/GptDisk.v ===== *)
(** * Partition tables: reading and writing devices

    What [Read] makes of the bytes of a device, and the bytes that [Write] leaves there,
    also if it fails. *)

From S2P Require Import Prelude Bytes BlockDev Gpt GptCodec.
From Stdlib Require Import ZArith.

Module GptDisk.
Import Bytes BlockDev BlockDevProps Gpt GptCodec.
Open Scope Z_scope.

(** ** Headers *)

(** The size of the area of the entries. *)
Definition areaSize : nat := Z.to_nat 16384.

Lemma entries_area ps : entriesOk ps -> length (partitionEntriesData ps) = areaSize.
Proof. intros H. rewrite entries_length by done. unfold areaSize. lia. Qed.

Lemma u64_width z : 0 <= u64 z < width 8.
Proof. by apply Z.mod_pos_bound. Qed.

Definition baseHeader (bs bc : Z) (id e : bytes) (block alternate start : Z) : header :=
  mkHeader gptSignature gptRevision headerSize 0 (u64 block) (u64 alternate)
    (u64 (2 + partitionEntryBlocks bs)) (u64 (bc - (2 + partitionEntryBlocks bs)))
    (From_ id) (u64 start) 128 partSize (ChecksumIEEE e).

Lemma baseHeader_ok bs bc id e block alternate start : isUuid id -> isBytes e -> headerOk (baseHeader bs bc id e block alternate start).
Proof.
  intros Hid He. pose proof (ChecksumIEEE_bound e He) as Hc. change (width 4) with 4294967296 in Hc. split; cbn [Signature hdrID Revision HeaderSize HeaderCRC32
    PartitionEntryCount PartitionEntrySize PartitionEntriesCRC32 HeaderBlock AlternateHeaderBlock hdrFirstUsable hdrLastUsable
    PartitionEntriesStartBlock baseHeader].
  - split; [done|]. unfold gptSignature, isBytes. repeat (apply Forall_cons_2; [unfold isByte; lia|]). constructor.
  - by apply From_uuid.
  - change (width 4) with 4294967296. unfold gptRevision, headerSize, partSize. repeat (apply Forall_cons_2; [lia|]). constructor.
  - repeat (apply Forall_cons_2; [apply u64_width|]). constructor.
Qed.

Lemma set_crc_ok h c : headerOk h -> 0 <= c < width 4 -> headerOk (set_HeaderCRC32 c h).
Proof.
  intros [H1 H2 H3 H4] Hc. split; [done..| |done]. cbn [set_HeaderCRC32 Revision HeaderSize HeaderCRC32 PartitionEntryCount PartitionEntrySize PartitionEntriesCRC32].
  do 6 rewrite Forall_cons in H3. destruct H3 as (?&?&?&?&?&?&_). repeat (apply Forall_cons_2; [done|]). constructor.
Qed.

Lemma makeHeader_ok bs bc id e block alternate start : isUuid id -> isBytes e -> headerOk (makeHeader bs bc id e block alternate start).
Proof.
  intros Hid He. pose proof (baseHeader_ok bs bc id e block alternate start Hid He) as Hb. unfold makeHeader. cbn zeta. fold (baseHeader bs bc id e block alternate start).
  apply set_crc_ok; [done|]. by apply ChecksumIEEE_bound, encodeHeader_isBytes.
Qed.

Lemma header_block bs h : headerOk h -> 512 <= bs -> len (padTo bs (encodeHeader h)) = bs.
Proof. intros Hh Hbs. apply padTo_block. unfold len. rewrite encodeHeader_length by done. lia. Qed.

(** ** The boot block *)

Lemma toCHS_3 lba : exists a b c, toCHS lba = [a; b; c].
Proof. unfold toCHS. destruct (1023 <? _); do 3 eexists; reflexivity. Qed.

Lemma makeProtectiveMBR_spec bc code m : makeProtectiveMBR bc code = Ok m ->
  length m = Z.to_nat 512 /\ len code <= 440 /\ exists types, decodeMBR m = (copy_ (zeros 440) code, types, mbrSignature) /\
    existsb (fun t => t =? 238) types = true.
Proof.
  unfold makeProtectiveMBR. destruct (Z.ltb_spec 440 (len code)) as [|Hle]; [done|]. cbn [negb]. intros [= <-].
  destruct (toCHS_3 1) as (a & b & c & ->), (toCHS_3 (bc + 1)) as (a' & b' & c' & ->). unfold encodeMBR.
  split_and!; [rewrite length_app, copy_length; reflexivity|done|].
  unfold decodeMBR. rewrite getBytes_app by (by rewrite copy_length). rewrite (app_assoc (zeros 4)), getBytes_app by done.
  eexists. split; reflexivity.
Qed.

Lemma trimRight_copy code : len code <= 440 -> trimRight (copy_ (zeros 440) code) = trimRight code.
Proof.
  intros H. unfold copy_, zeros. rewrite drop_replicate, take_ge; [apply trimRight_zeros|]. rewrite length_replicate. unfold len in H. lia.
Qed.

(** ** Reading *)

Section reading.
Context {B : BlockDev} {L : BlockDevLaws B}.

(** The table with the entries in the area. *)
Definition tableOf (id e : bytes) : Table :=
  let l := readEntries e 128 128 in mkTable id [] (take (S (maxValidPartition l)) l).

Definition deviceOk (d : dev) : Prop := valid d /\ 512 <= BlockSize d /\ Overhead (BlockSize d) <= BlockCount d < 2 ^ 62.

Lemma readEntries_nonempty e : (S (maxValidPartition (readEntries e 128 128)) <= length (readEntries e 128 128))%nat.
Proof.
  assert (length (readEntries e 128 128) = 128%nat) as Hl by (unfold readEntries; by rewrite length_fmap, length_seq).
  apply maxValid_lt. intros H. by rewrite H in Hl.
Qed.

(** A copy of which the header is as it was written is read if and only if the entries
    have the checksum in it. *)
Lemma readSingle_spec d pos id e alternate start : deviceOk d -> isUuid id -> isBytes e ->
  0 < pos < BlockCount d -> 0 < start -> start * BlockSize d + 16384 <= size d ->
  bytesAt (byteAt d) (BlockSize d * pos) (Z.to_nat (BlockSize d)) =
    padTo (BlockSize d) (encodeHeader (makeHeader (BlockSize d) (BlockCount d) id e pos alternate start)) ->
  let e' := bytesAt (byteAt d) (BlockSize d * start) areaSize in
  exists msg, readSingleGPT d pos = Some (if ChecksumIEEE e' =? ChecksumIEEE e then Ok (tableOf id e') else Err msg).
Proof.
  intros (Hv & Hbs & Hbc) Hid He Hpos Hstart Hsize Hhdr e'. set (bs := BlockSize d) in *. set (h := makeHeader bs (BlockCount d) id e pos alternate start) in *.
  pose proof (makeHeader_ok bs (BlockCount d) id e pos alternate start Hid He : headerOk h) as Hok. unfold size in Hsize. fold bs in Hsize.
  assert (start < BlockCount d) as Hlt by nia. unfold readSingleGPT. fold bs.
  rewrite ReadAt_ok; [|done|unfold size; fold bs; nia|unfold size, zeros, len; fold bs; rewrite length_replicate; nia].
  unfold zeros at 1 2. rewrite length_replicate, Hhdr. cbn [mbind option_bind]. rewrite header_block by done.
  change headerSize with 92. rewrite (proj2 (Z.ltb_ge bs 92)) by lia. assert (decodeHeader (padTo bs (encodeHeader h)) = h) as -> by (by apply header_roundtrip).
  change (Signature h) with gptSignature. rewrite bool_decide_true by done. change (HeaderSize h) with 92. cbn [negb Z.ltb Z.compare Pos.compare Pos.compare_cont].
  rewrite (proj2 (Z.ltb_ge bs 92)) by lia. rewrite drop_ge, app_nil_r by (rewrite length_take; lia).
  change (set_HeaderCRC32 0 h) with (baseHeader bs (BlockCount d) id e pos alternate start).
  change (HeaderCRC32 h) with (ChecksumIEEE (encodeHeader (baseHeader bs (BlockCount d) id e pos alternate start))). rewrite Z.eqb_refl.
  cbn [negb baseHeader HeaderBlock PartitionEntrySize PartitionEntriesStartBlock PartitionEntryCount PartitionEntriesCRC32 hdrID].
  rewrite Z.eqb_refl. cbn [negb]. rewrite !u64_small by lia. rewrite (proj2 (Z.ltb_ge (BlockCount d) start)), i64_small by lia.
  change (Z.to_nat (u32 (partSize * 128))) with areaSize. change (partSize <? partSize) with false.
  change (4 * 1024 * 1024 <? u64 (128 * partSize)) with false. cbn match.
  rewrite ReadAt_ok; [|done|unfold size; fold bs; nia|].
  2:{ unfold size, zeros, len; fold bs. rewrite length_replicate. unfold areaSize. nia. }
  unfold zeros. rewrite length_replicate. fold e'. cbn [mbind option_bind]. destruct (Z.eqb_spec (ChecksumIEEE e') (ChecksumIEEE e)).
  - cbn [negb]. exists EmptyString. change (Z.to_nat 128) with 128%nat. change (Z.to_nat partSize) with 128%nat.
    pose proof (readEntries_nonempty e'). rewrite bool_decide_false by lia. rewrite To_From by apply Hid. reflexivity.
  - cbn [negb]. by eexists.
Qed.

(** [Read] on a device with a boot block as it was written. *)
Lemma Read_spec d code mbr : deviceOk d -> makeProtectiveMBR (BlockCount d) code = Ok mbr ->
  bytesAt (byteAt d) 0 (Z.to_nat (BlockSize d)) = padTo (BlockSize d) mbr ->
  Read d =
    (primary ← readSingleGPT d 1;
     match primary with
     | Ok g => Some (Ok (set_BootCode (trimRight code) g))
     | Err _ =>
         alternate ← readSingleGPT d (BlockCount d - 1);
         match alternate with
         | Ok g => Some (Ok (set_BootCode (trimRight code) g))
         | Err _ => Some (Err "failed to read both GPTs"%string)
         end
     end).
Proof.
  intros (Hv & Hbs & Hbc) (Hlen & Hcode & types & Hdec & Htypes)%makeProtectiveMBR_spec Hblock. unfold Read.
  assert (0 < Overhead (BlockSize d)).
  { unfold Overhead, partitionEntryBlocks. rewrite Z.quot_div_nonneg by lia. pose proof (Z.div_pos (16384 + BlockSize d - 1) (BlockSize d)). lia. }
  rewrite (proj2 (Z.ltb_ge _ _)) by lia. rewrite ReadAt_ok; [|done|unfold size; nia|].
  2:{ unfold size, zeros, len. rewrite length_replicate. nia. }
  unfold zeros. rewrite length_replicate, Hblock. cbn [mbind option_bind].
  assert (sliceTo (padTo (BlockSize d) mbr) 512 = Some mbr) as ->.
  { rewrite sliceTo_ok by (unfold padTo; rewrite len_app; unfold len at 1; rewrite Hlen; pose proof (len_nonneg (zeros (Z.to_nat (- len mbr mod BlockSize d)))); lia).
    rewrite <- Hlen. unfold padTo. by rewrite take_app_length. }
  cbn [mbind option_bind]. rewrite Hdec, bool_decide_true, Htypes by done. cbn [negb andb]. by rewrite trimRight_copy.
Qed.

End reading.

(** ** Writing *)

Lemma padTo_app bs a l : 0 < bs -> (bs | len a) -> padTo bs (a ++ l) = a ++ padTo bs l.
Proof.
  intros Hbs Hd. unfold padTo. rewrite <- app_assoc. do 3 f_equal. rewrite len_app. apply f_equal.
  replace (- (len a + len l)) with (- len l + - len a) by lia. rewrite Z.add_mod by lia.
  rewrite (proj2 (Z.mod_divide (- len a) bs ltac:(lia)) (proj2 (Z.divide_opp_r _ _) Hd)), Z.add_0_r, Z.mod_mod by lia. done.
Qed.

Abbreviation peb := partitionEntryBlocks.

Lemma peb_div bs : 0 < bs -> peb bs = (16384 + bs - 1) / bs.
Proof. intros. unfold partitionEntryBlocks. rewrite Z.quot_div_nonneg by lia. done. Qed.

Lemma peb_pos bs : 0 < bs -> 0 < peb bs /\ 16384 <= bs * peb bs.
Proof.
  intros Hbs. rewrite peb_div by done. split; [apply Z.div_str_pos; lia|]. pose proof (Z.div_mod (16384 + bs - 1) bs). pose proof (Z.mod_pos_bound (16384 + bs - 1) bs). lia.
Qed.

Definition paddedEntries (bs : Z) (ps : list (option Partition)) : bytes := padTo bs (partitionEntriesData ps).

Lemma paddedEntries_len bs ps : 0 < bs -> entriesOk ps -> len (paddedEntries bs ps) = bs * peb bs.
Proof.
  intros Hbs Hps. unfold paddedEntries. rewrite padTo_length, peb_div by done. unfold len. rewrite entries_area by done. unfold areaSize.
  rewrite Z2Nat.id by lia. done.
Qed.

(** A table that can be stored. *)
Record tableOk (g : Table) : Prop := { t_id : isUuid (TableID g); t_entries : entriesOk (Partitions g); t_count : (length (Partitions g) <= 128)%nat }.

Definition primaryHeader (bs bc : Z) (g : Table) : header :=
  makeHeader bs bc (TableID g) (partitionEntriesData (Partitions g)) 1 (bc - 1) 2.
Definition alternateHeader (bs bc : Z) (g : Table) : header :=
  makeHeader bs bc (TableID g) (partitionEntriesData (Partitions g)) (bc - 1) 1 (bc - (1 + peb bs)).

(** The boot block, the header and the entries at the start of the device. *)
Definition primaryData (bs bc : Z) (g : Table) (mbr : bytes) : bytes :=
  padTo bs mbr ++ padTo bs (encodeHeader (primaryHeader bs bc g)) ++ paddedEntries bs (Partitions g).

Lemma primaryHeader_ok bs bc g : tableOk g -> headerOk (primaryHeader bs bc g).
Proof. intros [H1 H2 _]. unfold primaryHeader. apply makeHeader_ok; [exact H1|apply entries_isBytes; exact H2]. Qed.

Lemma alternateHeader_ok bs bc g : tableOk g -> headerOk (alternateHeader bs bc g).
Proof. intros [H1 H2 _]. unfold alternateHeader. apply makeHeader_ok; [exact H1|apply entries_isBytes; exact H2]. Qed.

Lemma mbr_block bs bc code mbr : 512 <= bs -> makeProtectiveMBR bc code = Ok mbr -> len (padTo bs mbr) = bs.
Proof. intros Hbs (Hlen & _)%makeProtectiveMBR_spec. apply padTo_block. unfold len. rewrite Hlen. lia. Qed.

Lemma primaryData_eq bs bc g code mbr : 512 <= bs -> tableOk g -> makeProtectiveMBR bc code = Ok mbr ->
  padTo bs (padTo bs (padTo bs mbr ++ encodeHeader (primaryHeader bs bc g)) ++ paddedEntries bs (Partitions g)) = primaryData bs bc g mbr /\
  len (primaryData bs bc g mbr) = bs * (2 + peb bs).
Proof.
  intros Hbs Hg Hmbr. assert (len (primaryData bs bc g mbr) = bs * (2 + peb bs)) as Hlen.
  { unfold primaryData. rewrite !len_app, (mbr_block bs bc code), header_block, paddedEntries_len by (done || lia || by apply primaryHeader_ok || apply Hg). lia. }
  split; [|done]. rewrite (padTo_app bs (padTo bs mbr)), <- app_assoc by (lia || (apply padTo_divides; lia)). fold (primaryData bs bc g mbr).
  apply padTo_id; [lia|]. rewrite Hlen. apply Z.divide_factor_l.
Qed.

(** The bytes after each of the three writes. *)
Definition wrote1 (bs bc : Z) (g : Table) (f : Z -> Z) : Z -> Z := overlay f ((bc - (1 + peb bs)) * bs) (paddedEntries bs (Partitions g)).
Definition wrote2 (bs bc : Z) (g : Table) (f : Z -> Z) : Z -> Z :=
  overlay (wrote1 bs bc g f) ((bc - 1) * bs) (padTo bs (encodeHeader (alternateHeader bs bc g))).
Definition wrote3 (bs bc : Z) (g : Table) (mbr : bytes) (f : Z -> Z) : Z -> Z := overlay (wrote2 bs bc g f) 0 (primaryData bs bc g mbr).

Lemma overlay_ext f f' off p x : (forall y, f y = f' y) -> overlay f off p x = overlay f' off p x.
Proof. intros H. unfold overlay. by rewrite H. Qed.

Lemma torn_ext bs f f' g g' h : (forall x, f x = f' x) -> (forall x, g x = g' x) -> torn bs f g h -> torn bs f' g' h.
Proof. intros Hf Hg Ht k. destruct (Ht k) as [H|H]; [left|right]; intros x Hx; rewrite H by done; done. Qed.

(** The table that is written: with the identifiers that were missing. *)
Definition identify `{Uuids} (g : Table) (n : nat) : Table * nat :=
  let '(id, n) := if decide (TableID g = uuid_Nil) then (uuid_New n, S n) else (TableID g, n) in
  let '(ps, n) := fillIDs (Partitions g) n in
  (mkTable id (BootCode g) ps, n).

Section writing.
Context {U : Uuids} {UL : UuidLaws U} {B : BlockDev} {L : BlockDevLaws B}.

(** What a call of [Write] leaves on the device. *)
Inductive outcome (bs bc : Z) (g : Table) (f h : Z -> Z) : option string -> Prop :=
| TornEntries e : torn bs f (wrote1 bs bc g f) h -> outcome bs bc g f h (Some e)
| TornHeader e : torn bs (wrote1 bs bc g f) (wrote2 bs bc g f) h -> outcome bs bc g f h (Some e)
| NoBootBlock e : 440 < len (BootCode g) -> (forall x, h x = wrote2 bs bc g f x) -> outcome bs bc g f h (Some e)
| TornPrimary e mbr : makeProtectiveMBR bc (BootCode g) = Ok mbr -> torn bs (wrote2 bs bc g f) (wrote3 bs bc g mbr f) h -> outcome bs bc g f h (Some e)
| Written mbr : makeProtectiveMBR bc (BootCode g) = Ok mbr -> (forall x, h x = wrote3 bs bc g mbr f x) -> outcome bs bc g f h None.

(** Writes of whole blocks do not fail. *)
Definition reliable : Prop := forall d p off n e d', valid d -> WriteAt d p off = Some (n, e, d') ->
  0 <= off -> off + len p <= size d -> (BlockSize d | off) -> (BlockSize d | len p) -> e = None.

Lemma write_blocks d f p off : valid d -> (forall x, byteAt d x = f x) -> 0 <= off -> off + len p <= size d ->
  (BlockSize d | off) -> (BlockSize d | len p) ->
  exists k e d', WriteAt d p off = Some (k, e, d') /\ valid d' /\ sameGeometry d d' /\ (reliable -> e = None) /\
    match e with
    | None => forall x, byteAt d' x = overlay f off p x
    | Some _ => torn (BlockSize d) f (overlay f off p) (byteAt d')
    end.
Proof.
  intros Hv Hf H0 Hs D1 D2. destruct (WriteAt_ok d p off Hv H0 Hs D1 D2) as (k & e & d' & HW & Hv' & HG & He).
  exists k, e, d'. split_and!; [done..|intros Hr; exact (Hr d p off k e d' Hv HW H0 Hs D1 D2)|]. destruct e.
  - eapply torn_ext; [exact Hf| |exact He]. intros x. by apply overlay_ext.
  - destruct He as [_ He]. intros x. rewrite He. by apply overlay_ext.
Qed.

Lemma Write_spec g d n : deviceOk d -> (length (Partitions g) <= 128)%nat -> tableOk (identify g n).1 ->
  exists e d', Write g d n = Some (e, (identify g n).1, d', (identify g n).2) /\ valid d' /\ sameGeometry d d' /\
    outcome (BlockSize d) (BlockCount d) (identify g n).1 (byteAt d) (byteAt d') e /\
    (reliable -> len (BootCode g) <= 440 -> e = None).
Proof.
  intros (Hv & Hbs & Hbc) Hn. unfold identify, Write. unfold Overhead in Hbc. set (bs := BlockSize d) in *. set (bc := BlockCount d) in *.
  rewrite (proj2 (Z.ltb_ge bs 512)), (proj2 (Z.ltb_ge 128 (len (Partitions g)))), (proj2 (Z.ltb_ge bc (3 + 2 * peb bs))) by (unfold len; lia).
  destruct (if decide (TableID g = uuid_Nil) then _ else _) as [id n1]. destruct (fillIDs (Partitions g) n1) as [ps n2]. cbn [fst snd].
  set (g' := mkTable id (BootCode g) ps). intros Hg'. pose proof (peb_pos bs ltac:(lia)) as [Hpeb _].
  pose proof (t_entries _ Hg' : entriesOk ps) as Hps.
  change (makeHeader bs bc id (partitionEntriesData ps) (bc - 1) 1 (bc - (1 + peb bs))) with (alternateHeader bs bc g').
  change (makeHeader bs bc id (partitionEntriesData ps) 1 (bc - 1) 2) with (primaryHeader bs bc g'). change (padTo bs (partitionEntriesData ps)) with (paddedEntries bs ps).
  change (PartitionEntriesStartBlock (alternateHeader bs bc g')) with (u64 (bc - (1 + peb bs))). rewrite u64_small, i64_small by lia.
  pose proof (paddedEntries_len bs ps ltac:(lia) Hps) as Hlen.
  destruct (write_blocks d (byteAt d) (paddedEntries bs ps) ((bc - (1 + peb bs)) * bs)) as (k1 & e1 & d1 & -> & Hv1 & [HB1 HC1] & Hr1 & He1);
    [done|done|nia|rewrite Hlen; unfold size; fold bs bc; nia|apply Z.divide_factor_r|rewrite Hlen; apply Z.divide_factor_l|].
  fold bs bc in HB1, HC1. cbn [mbind option_bind]. destruct e1 as [e1|].
  { do 2 eexists. split; [reflexivity|]. split_and!; [exact Hv1|by split|constructor; exact He1|intros Hr; by specialize (Hr1 Hr)]. }
  pose proof (header_block bs _ (alternateHeader_ok bs bc g' Hg') Hbs) as Hhl.
  destruct (write_blocks d1 (wrote1 bs bc g' (byteAt d)) (padTo bs (encodeHeader (alternateHeader bs bc g'))) ((bc - 1) * bs))
    as (k2 & e2 & d2 & -> & Hv2 & [HB2 HC2] & Hr2 & He2);
    [done|exact He1|nia|rewrite Hhl; unfold size; rewrite HB1, HC1; nia|rewrite HB1; apply Z.divide_factor_r|rewrite Hhl, HB1; apply Z.divide_refl|].
  rewrite HB1 in HB2, He2. rewrite HC1 in HC2. cbn [mbind option_bind]. destruct e2 as [e2|].
  { do 2 eexists. split; [reflexivity|]. split_and!; [exact Hv2|by split|by apply TornHeader|intros Hr; by specialize (Hr2 Hr)]. }
  change (BootCode g') with (BootCode g). destruct (makeProtectiveMBR bc (BootCode g)) as [mbr|em] eqn:Hmbr.
  2:{ do 2 eexists. split; [reflexivity|]. assert (440 < len (BootCode g)).
      { unfold makeProtectiveMBR in Hmbr. destruct (Z.ltb_spec 440 (len (BootCode g))); [done|]. discriminate Hmbr. }
      split_and!; [exact Hv2|by split|by apply NoBootBlock|lia]. }
  destruct (primaryData_eq bs bc g' (BootCode g) mbr Hbs Hg' Hmbr) as [Hprim Hpl]. change (Partitions g') with ps in Hprim. rewrite Hprim.
  destruct (write_blocks d2 (wrote2 bs bc g' (byteAt d)) (primaryData bs bc g' mbr) 0) as (k3 & e3 & d3 & -> & Hv3 & [HB3 HC3] & Hr3 & He3);
    [done|exact He2|lia|rewrite Hpl; unfold size; rewrite HB2, HC2; nia|apply Z.divide_0_r|rewrite Hpl, HB2; apply Z.divide_factor_l|].
  rewrite HB2 in HB3, He3. rewrite HC2 in HC3. cbn [mbind option_bind]. eexists _, d3. split; [reflexivity|]. destruct e3 as [e3|].
  - split_and!; [exact Hv3|by split|by eapply TornPrimary|intros Hr; by specialize (Hr3 Hr)].
  - split_and!; [exact Hv3|by split|by eapply Written|done].
Qed.

End writing.
End GptDisk.
