(* ===== verification/GptProps.v ===== *)
(** * Partition tables: what was written is read

    A table that was written is read back, and an interrupted write leaves the old or
    the new table to be read. *)

From S2P Require Import Prelude Bytes BlockDev Gpt GptAdd GptCodec GptDisk.
From Stdlib Require Import ZArith.

Module GptProps.
Import Bytes BlockDev BlockDevProps Gpt GptCodec GptDisk.
Open Scope Z_scope.

(** ** Tables in the bytes of a device *)

Definition hasBoot (f : Z -> Z) (bs bc : Z) (code : bytes) : Prop :=
  exists mbr, makeProtectiveMBR bc code = Ok mbr /\ bytesAt f 0 (Z.to_nat bs) = padTo bs mbr.

Definition hasPrimary (f : Z -> Z) (bs bc : Z) (g : Table) : Prop :=
  bytesAt f (bs * 1) (Z.to_nat bs) = padTo bs (encodeHeader (primaryHeader bs bc g)) /\
  bytesAt f (bs * 2) (Z.to_nat (bs * peb bs)) = paddedEntries bs (Partitions g).

Definition hasAlternate (f : Z -> Z) (bs bc : Z) (g : Table) : Prop :=
  bytesAt f (bs * (bc - 1)) (Z.to_nat bs) = padTo bs (encodeHeader (alternateHeader bs bc g)) /\
  bytesAt f (bs * (bc - (1 + peb bs))) (Z.to_nat (bs * peb bs)) = paddedEntries bs (Partitions g).

Lemma bytesAt_take f off n k : (k <= n)%nat -> take k (bytesAt f off n) = bytesAt f off k.
Proof.
  intros H. replace n with (k + (n - k))%nat by lia. rewrite bytesAt_app, take_app_length'; [done|]. by rewrite bytesAt_length.
Qed.

(** The entries in their padded area. *)
Lemma area_entries f off bs ps : 0 < bs -> entriesOk ps -> bytesAt f off (Z.to_nat (bs * peb bs)) = paddedEntries bs ps ->
  bytesAt f off areaSize = partitionEntriesData ps.
Proof.
  intros Hbs Hps H. destruct (peb_pos bs Hbs) as [_ Hp]. rewrite <- (bytesAt_take _ _ (Z.to_nat (bs * peb bs))) by (unfold areaSize; lia).
  rewrite H. unfold paddedEntries, padTo. rewrite take_app_length'; [done|]. by rewrite entries_area.
Qed.

Lemma tableOf_entries id ps : entriesOk ps -> (length ps <= 128)%nat -> tableOf id (partitionEntriesData ps) = mkTable id [] (storedPartitions ps).
Proof. intros H1 H2. unfold tableOf. cbn zeta. by destruct (entries_stored ps H1 H2) as [_ ->]. Qed.

Section properties.
Context {U : Uuids} {UL : UuidLaws U} {B : BlockDev} {L : BlockDevLaws B}.

Lemma read_copy d pos alternate start g : deviceOk d -> tableOk g -> 0 < pos < BlockCount d -> 0 < start ->
  start * BlockSize d + 16384 <= size d ->
  bytesAt (byteAt d) (BlockSize d * pos) (Z.to_nat (BlockSize d)) =
    padTo (BlockSize d) (encodeHeader (makeHeader (BlockSize d) (BlockCount d) (TableID g) (partitionEntriesData (Partitions g)) pos alternate start)) ->
  bytesAt (byteAt d) (BlockSize d * start) areaSize = partitionEntriesData (Partitions g) ->
  readSingleGPT d pos = Some (Ok (mkTable (TableID g) [] (storedPartitions (Partitions g)))).
Proof.
  intros Hd [Hid Hps Hn] Hpos Hstart Hs Hhdr He.
  destruct (readSingle_spec d pos (TableID g) (partitionEntriesData (Partitions g)) alternate start Hd Hid (entries_isBytes _ Hps) Hpos Hstart Hs Hhdr) as [msg ->].
  rewrite He, Z.eqb_refl. by rewrite tableOf_entries.
Qed.

Lemma device_layout d : deviceOk d -> 0 < BlockSize d /\ 0 < peb (BlockSize d) /\ 16384 <= BlockSize d * peb (BlockSize d) /\
  3 + 2 * peb (BlockSize d) <= BlockCount d.
Proof. intros (_ & Hbs & Hbc). destruct (peb_pos (BlockSize d)); [lia|]. unfold Overhead in Hbc. lia. Qed.

Lemma deviceOk_same d d' : deviceOk d -> valid d' -> sameGeometry d d' -> deviceOk d'.
Proof. intros (_ & H) Hv [H1 H2]. unfold deviceOk. by rewrite H1, H2. Qed.

Lemma read_primary d g : deviceOk d -> tableOk g -> hasPrimary (byteAt d) (BlockSize d) (BlockCount d) g ->
  readSingleGPT d 1 = Some (Ok (mkTable (TableID g) [] (storedPartitions (Partitions g)))).
Proof.
  intros Hd Hg [Hh He]. destruct (device_layout d Hd) as (? & ? & ? & ?).
  apply (read_copy d 1 (BlockCount d - 1) 2); [exact Hd|exact Hg|lia|lia|unfold size; nia|exact Hh|].
  apply (area_entries _ _ (BlockSize d)); [done|apply Hg|exact He].
Qed.

Lemma read_alternate d g : deviceOk d -> tableOk g -> hasAlternate (byteAt d) (BlockSize d) (BlockCount d) g ->
  readSingleGPT d (BlockCount d - 1) = Some (Ok (mkTable (TableID g) [] (storedPartitions (Partitions g)))).
Proof.
  intros Hd Hg [Hh He]. destruct (device_layout d Hd) as (? & ? & ? & ?).
  apply (read_copy d (BlockCount d - 1) 1 (BlockCount d - (1 + peb (BlockSize d)))); [exact Hd|exact Hg|lia|lia|unfold size; nia|exact Hh|].
  apply (area_entries _ _ (BlockSize d)); [done|apply Hg|exact He].
Qed.

(** The table with some boot code, as it is read. *)
Definition storedWith (code : bytes) (g : Table) : Table := set_BootCode (trimRight code) (stored g).

Lemma Read_primary d code g : deviceOk d -> tableOk g -> hasBoot (byteAt d) (BlockSize d) (BlockCount d) code ->
  hasPrimary (byteAt d) (BlockSize d) (BlockCount d) g -> Read d = Some (Ok (storedWith code g)).
Proof.
  intros Hd Hg (mbr & Hmbr & Hb) Hp. rewrite (Read_spec d code mbr Hd Hmbr Hb), (read_primary d g Hd Hg Hp). reflexivity.
Qed.

(** ** After the writes *)

Lemma bytesAt_same f h off n : (forall x, off <= x < off + Z.of_nat n -> h x = f x) -> bytesAt h off n = bytesAt f off n.
Proof. apply bytesAt_ext. Qed.

(** Boot block and primary copy are the first blocks of the device ... *)
Lemma primary_region f h bs bc g code : 0 < bs -> 0 < peb bs -> (forall x, 0 <= x < bs * (2 + peb bs) -> h x = f x) ->
  (hasBoot f bs bc code -> hasBoot h bs bc code) /\ (hasPrimary f bs bc g -> hasPrimary h bs bc g).
Proof.
  intros Hbs Hp Hsame. split.
  - intros (mbr & Hm & Hb). exists mbr. split; [exact Hm|]. rewrite <- Hb. apply bytesAt_same. intros x Hx. apply Hsame. nia.
  - intros [Hh He]. split; [rewrite <- Hh|rewrite <- He]; apply bytesAt_same; intros x Hx; apply Hsame; nia.
Qed.

(** ... and the alternate copy the last ones. *)
Lemma alternate_region f h bs bc g : 0 < bs -> 0 < peb bs -> (forall x, bs * (bc - (1 + peb bs)) <= x < bs * bc -> h x = f x) ->
  hasAlternate f bs bc g -> hasAlternate h bs bc g.
Proof.
  intros Hbs Hp Hsame [Hh He]. split; [rewrite <- Hh|rewrite <- He]; apply bytesAt_same; intros x Hx; apply Hsame; nia.
Qed.

Lemma wrote2_outside bs bc g f x : 0 < bs -> 512 <= bs -> tableOk g -> x < bs * (bc - (1 + peb bs)) -> wrote2 bs bc g f x = f x.
Proof.
  intros Hbs Hbs' Hg Hx. destruct (peb_pos bs Hbs) as [Hp _]. unfold wrote2, wrote1. rewrite !overlay_out; [done|nia|nia].
Qed.

Lemma bytesAt_overlay_at f off off' p n : off = off' -> n = length p -> bytesAt (overlay f off p) off' n = p.
Proof. intros -> ->. apply bytesAt_overlay. Qed.

Lemma wrote2_alternate bs bc g f : 512 <= bs -> tableOk g -> 0 <= bc -> hasAlternate (wrote2 bs bc g f) bs bc g.
Proof.
  intros Hbs Hg Hbc. pose proof (header_block bs _ (alternateHeader_ok bs bc g Hg) Hbs) as Hhl.
  pose proof (paddedEntries_len bs _ ltac:(lia) (t_entries g Hg)) as Hel. pose proof (peb_pos bs ltac:(lia)) as [? _].
  unfold wrote2, wrote1. split.
  - apply bytesAt_overlay_at; [lia|]. unfold len in Hhl. lia.
  - rewrite bytesAt_overlay_out by (left; nia). apply bytesAt_overlay_at; [lia|]. unfold len in Hel. lia.
Qed.

Lemma wrote3_primary bs bc g mbr f : 512 <= bs -> tableOk g -> makeProtectiveMBR bc (BootCode g) = Ok mbr ->
  hasBoot (wrote3 bs bc g mbr f) bs bc (BootCode g) /\ hasPrimary (wrote3 bs bc g mbr f) bs bc g.
Proof.
  intros Hbs Hg Hmbr. pose proof (header_block bs _ (primaryHeader_ok bs bc g Hg) Hbs) as Hhl.
  pose proof (paddedEntries_len bs _ ltac:(lia) (t_entries g Hg)) as Hel. pose proof (mbr_block bs bc _ mbr Hbs Hmbr) as Hml.
  unfold wrote3, primaryData. set (pm := padTo bs mbr) in *. set (ph := padTo bs (encodeHeader _)) in *. set (pe := paddedEntries bs (Partitions g)) in *.
  set (f2 := wrote2 bs bc g f). split; [|split].
  - exists mbr. split; [exact Hmbr|]. pose proof (bytesAt_overlay_app f2 0 [] pm (ph ++ pe)) as H. cbn [app] in H. unfold len in *. cbn [length] in H.
    replace (length pm) with (Z.to_nat bs) in H by lia. exact H.
  - pose proof (bytesAt_overlay_app f2 0 pm ph pe) as H. rewrite Hml in H. unfold len in *. replace (length ph) with (Z.to_nat bs) in H by lia.
    replace (bs * 1) with (0 + bs) by lia. exact H.
  - pose proof (bytesAt_overlay_app f2 0 (pm ++ ph) pe []) as H. rewrite app_nil_r, <- app_assoc, len_app, Hml, Hhl in H. unfold len in *.
    replace (length pe) with (Z.to_nat (bs * peb bs)) in H by lia. replace (bs * 2) with (0 + (bs + bs)) by lia. exact H.
Qed.

(** ** Identifiers *)

Lemma uuid_New_ok n : isUuid (uuid_New n).
Proof. split; [apply uuid_New_length|apply uuid_New_bytes]. Qed.

(** The same table, but for identifiers that were missing. *)
Definition sameButID (p p' : option Partition) : Prop :=
  match p, p' with
  | None, None => True
  | Some p, Some p' => p' = set_ID (ID p') p /\ ID p' <> uuid_Nil /\ (ID p <> uuid_Nil -> ID p' = ID p)
  | _, _ => False
  end.

Definition identified (g g' : Table) : Prop :=
  BootCode g' = BootCode g /\ TableID g' <> uuid_Nil /\ (TableID g <> uuid_Nil -> TableID g' = TableID g) /\
  Forall2 sameButID (Partitions g) (Partitions g').

Lemma fillIDs_spec ps n : Forall2 sameButID ps (fillIDs ps n).1 /\ (entriesOk ps -> entriesOk (fillIDs ps n).1).
Proof.
  revert n. induction ps as [|[p|] ps IH]; intros n; [done| |].
  - cbn [fillIDs]. destruct (decide (ID p = uuid_Nil)) as [Hid|Hid].
    + destruct (IH (S n)) as [H1 H2]. destruct (fillIDs ps (S n)) as [ps' n']. cbn [fst] in *. split.
      * constructor; [|done]. split_and!; [done|apply uuid_New_Nil|done].
      * intros [[Ht _ H8] Hps]%Forall_cons. constructor; [|by apply H2]. split; [done|apply uuid_New_ok|done].
    + destruct (IH n) as [H1 H2]. destruct (fillIDs ps n) as [ps' n']. cbn [fst] in *. split.
      * constructor; [|done]. by destruct p.
      * intros [Hp Hps]%Forall_cons. constructor; [done|by apply H2].
  - cbn [fillIDs]. destruct (IH n) as [H1 H2]. destruct (fillIDs ps n) as [ps' n']. cbn [fst] in *. split; [by constructor|].
    intros [Hp Hps]%Forall_cons. constructor; [done|by apply H2].
Qed.

Lemma identify_spec g n : identified g (identify g n).1 /\ (tableOk g -> tableOk (identify g n).1).
Proof.
  unfold identify. destruct (decide (TableID g = uuid_Nil)) as [Hid|Hid].
  - destruct (fillIDs_spec (Partitions g) (S n)) as [H1 H2]. destruct (fillIDs (Partitions g) (S n)) as [ps n']. cbn [fst] in *. split.
    + split_and!; [done|apply uuid_New_Nil|done|done].
    + intros [_ Hps Hn]. split; [apply uuid_New_ok|by apply H2|]. cbn. by rewrite <- (Forall2_length _ _ _ H1).
  - destruct (fillIDs_spec (Partitions g) n) as [H1 H2]. destruct (fillIDs (Partitions g) n) as [ps n']. cbn [fst] in *. split.
    + by split_and!.
    + intros [Ht Hps Hn]. split; [done|by apply H2|]. cbn. by rewrite <- (Forall2_length _ _ _ H1).
Qed.

(** ** Round trip *)

(** Nothing of the table gets lost on the way. *)
Definition faithful (p : option Partition) : Prop :=
  match p with
  | None => True
  | Some p => Type_ p <> uuid_Nil /\ Section p = None /\ Forall isRune (Name p) /\ (length (utf16Encode (Name p)) <= 36)%nat /\ last (Name p) <> Some 0
  end.

Definition faithfulTable (g : Table) : Prop :=
  last (BootCode g) <> Some 0 /\ Forall faithful (Partitions g) /\ exists p, last (Partitions g) = Some (Some p).

Lemma stored_faithful p : faithful p -> storedPartition p = p.
Proof.
  destruct p as [p|]; [|done]. intros (Ht & Hs & Hr & Hl & Hn). unfold storedPartition. rewrite decide_False by done.
  rewrite storedName_id by done. destruct p. cbn in Hs. by subst.
Qed.

Lemma stored_id g : faithfulTable g -> stored g = g.
Proof.
  intros (Hb & Hp & p & Hlast). unfold stored, storedPartitions. rewrite trimRight_id by done.
  assert (storedPartition <$> Partitions g = Partitions g) as ->.
  { clear Hlast. induction Hp as [|q ps Hq Hps IH]; [done|]. cbn. by rewrite stored_faithful, IH. }
  apply last_Some in Hlast as [ps Hps]. rewrite Hps, trimUnused_Some. destruct g as [id code ps']. cbn in *. subst. by destruct ps.
Qed.

Lemma read_back g d n e g' d' n' : deviceOk d -> tableOk g -> Write g d n = Some (e, g', d', n') -> e = None ->
  g' = (identify g n).1 /\ deviceOk d' /\ sameGeometry d d' /\ hasBoot (byteAt d') (BlockSize d) (BlockCount d) (BootCode g') /\
  hasPrimary (byteAt d') (BlockSize d) (BlockCount d) g'.
Proof.
  intros Hd Hg HW ->. destruct (identify_spec g n) as [_ Hok]. specialize (Hok Hg).
  destruct (Write_spec g d n Hd (t_count g Hg) Hok) as (e & d2 & HW' & Hv & HG & Hout & _). rewrite HW in HW'. injection HW' as <- -> <- ->.
  inversion Hout as [| | | |mbr Hmbr Hf]; subst. pose proof Hd as (_ & Hbs & Hbc).
  destruct (wrote3_primary (BlockSize d) (BlockCount d) (identify g n).1 mbr (byteAt d) Hbs Hok Hmbr) as [H1 H2].
  destruct (peb_pos (BlockSize d) ltac:(lia)) as [Hp _].
  destruct (primary_region (wrote3 (BlockSize d) (BlockCount d) (identify g n).1 mbr (byteAt d)) (byteAt d') (BlockSize d) (BlockCount d) (identify g n).1
    (BootCode (identify g n).1) ltac:(lia) Hp) as [H3 H4]; [intros x _; apply Hf|].
  split_and!; [done| |done|by apply H3|by apply H4].
  by apply (deviceOk_same d).
Qed.

(** C32: On a device whose writes do not fail, [Write] succeeds for a table of at most
    128 partitions and 440 bytes of boot code, fills in the identifiers that are missing
    and nothing else, and [Read] then returns that table, with names cut to 36 UTF-16
    code units, nil for unused entries, and without those at the end; the very same
    table if it has none of these. *)
Theorem gpt_roundtrip g d n :
  deviceOk d -> tableOk g -> len (BootCode g) <= 440 -> reliable ->
  exists g' d' n', Write g d n = Some (None, g', d', n') /\ identified g g' /\
    Read d' = Some (Ok (stored g')) /\ (faithfulTable g' -> stored g' = g').
Proof.
  intros Hd Hg Hcode Hr. destruct (identify_spec g n) as [Hid Hok]. specialize (Hok Hg).
  destruct (Write_spec g d n Hd (t_count g Hg) Hok) as (e & d' & HW & Hv & HG & Hout & He). specialize (He Hr Hcode). subst e.
  exists (identify g n).1, d', (identify g n).2. split_and!; [exact HW|exact Hid| |apply stored_id].
  destruct (read_back g d n None _ d' _ Hd Hg HW eq_refl) as (_ & Hd' & [HG1 HG2] & Hb & Hp). rewrite <- HG1, <- HG2 in Hb, Hp.
  exact (Read_primary d' _ _ Hd' Hok Hb Hp).
Qed.

(** ** Interrupted writes *)

(** The entries that are left when one table is partly written over another. *)
Definition mixture (bs : Z) (e0 e1 m : bytes) : Prop :=
  exists h, torn bs (overlay (fun _ => 0) 0 (padTo bs e0)) (overlay (fun _ => 0) 0 (padTo bs e1)) h /\ m = bytesAt h 0 areaSize.

(** The checksum tells the two tables from such mixtures. *)
Definition distinguishable (bs : Z) (e0 e1 : bytes) : Prop := forall m, mixture bs e0 e1 m ->
  (ChecksumIEEE m = ChecksumIEEE e0 -> m = e0) /\ (ChecksumIEEE m = ChecksumIEEE e1 -> m = e1).

Lemma torn_block bs f g h k : torn bs f g h -> 0 < bs ->
  bytesAt h (bs * k) (Z.to_nat bs) = bytesAt f (bs * k) (Z.to_nat bs) \/ bytesAt h (bs * k) (Z.to_nat bs) = bytesAt g (bs * k) (Z.to_nat bs).
Proof. intros Ht Hbs. destruct (Ht k) as [H|H]; [left|right]; apply bytesAt_same; intros x Hx; apply H; lia. Qed.

(** The bytes of an area as a function. *)
Lemma bytesAt_point f off p x : bytesAt f off (length p) = p -> 0 <= x < len p -> f (x + off) = overlay (fun _ => 0) 0 p x.
Proof.
  intros H Hx. rewrite overlay_in by lia. rewrite <- H at 1. unfold len in Hx. rewrite bytesAt_nth by lia. f_equal. lia.
Qed.

Lemma torn_mixture bs f g h e0 e1 k : 0 < bs -> torn bs f g h ->
  length (padTo bs e0) = length (padTo bs e1) -> Z.of_nat areaSize <= len (padTo bs e0) ->
  bytesAt f (bs * k) (length (padTo bs e0)) = padTo bs e0 -> bytesAt g (bs * k) (length (padTo bs e1)) = padTo bs e1 ->
  mixture bs e0 e1 (bytesAt h (bs * k) areaSize).
Proof.
  intros Hbs Ht Hl Hs Hf Hg. set (p0 := padTo bs e0) in *. set (p1 := padTo bs e1) in *.
  exists (fun x => if (0 <=? x) && (x <? len p0) then h (x + bs * k) else 0). split.
  - assert (forall fun_ q x, bytesAt fun_ (bs * k) (length q) = q -> length q = length p0 ->
      (0 <= x < len p0 -> h (x + bs * k) = fun_ (x + bs * k)) ->
      (if (0 <=? x) && (x <? len p0) then h (x + bs * k) else 0) = overlay (fun _ => 0) 0 q x) as Hpoint.
    { intros fun_ q x Hq Hlq Hx. destruct (Z.leb_spec 0 x), (Z.ltb_spec x (len p0)); cbn [andb].
      - rewrite Hx by lia. apply bytesAt_point; [done|unfold len in *; lia].
      - rewrite overlay_out; [done|unfold len in *; lia].
      - rewrite overlay_out; [done|unfold len in *; lia].
      - rewrite overlay_out; [done|unfold len in *; lia]. }
    intros j. destruct (Ht (j + k)) as [H|H]; [left|right]; intros x Hx; eapply Hpoint; try done; intros _; apply H; nia.
  - unfold bytesAt. apply list_fmap_ext. intros i y Hi. apply lookup_lt_Some in Hi as Hlt. rewrite length_seq in Hlt.
    apply lookup_seq in Hi as [-> _]. cbn [Nat.add]. rewrite (proj2 (Z.leb_le _ _)), (proj2 (Z.ltb_lt _ _)) by lia. cbn [andb]. f_equal. lia.
Qed.

(** The primary copy of one of two tables, with entries of which some may be the other
    table's: it is read if the entries are its own. *)
Lemma read_mixed d g : deviceOk d -> tableOk g ->
  bytesAt (byteAt d) (BlockSize d * 1) (Z.to_nat (BlockSize d)) = padTo (BlockSize d) (encodeHeader (primaryHeader (BlockSize d) (BlockCount d) g)) ->
  (ChecksumIEEE (bytesAt (byteAt d) (BlockSize d * 2) areaSize) = ChecksumIEEE (partitionEntriesData (Partitions g)) ->
   bytesAt (byteAt d) (BlockSize d * 2) areaSize = partitionEntriesData (Partitions g)) ->
  readSingleGPT d 1 = Some (Ok (mkTable (TableID g) [] (storedPartitions (Partitions g)))) \/ exists msg, readSingleGPT d 1 = Some (Err msg).
Proof.
  intros Hd [Hid Hps Hn] Hh Hm. destruct (device_layout d Hd) as (? & ? & ? & ?).
  destruct (readSingle_spec d 1 (TableID g) (partitionEntriesData (Partitions g)) (BlockCount d - 1) 2 Hd Hid (entries_isBytes _ Hps))
    as [msg ->]; [lia|lia|unfold size; nia|exact Hh|].
  destruct (Z.eqb_spec (ChecksumIEEE (bytesAt (byteAt d) (BlockSize d * 2) areaSize)) (ChecksumIEEE (partitionEntriesData (Partitions g)))) as [Hc|];
    [left|right; by exists msg]. by rewrite (Hm Hc), tableOf_entries.
Qed.

Lemma Read_mixed d code g0 g1 : deviceOk d -> tableOk g0 -> tableOk g1 ->
  let bs := BlockSize d in let bc := BlockCount d in let e g := partitionEntriesData (Partitions g) in
  hasBoot (byteAt d) bs bc code -> hasAlternate (byteAt d) bs bc g1 ->
  (bytesAt (byteAt d) (bs * 1) (Z.to_nat bs) = padTo bs (encodeHeader (primaryHeader bs bc g0)) \/
   bytesAt (byteAt d) (bs * 1) (Z.to_nat bs) = padTo bs (encodeHeader (primaryHeader bs bc g1))) ->
  mixture bs (e g0) (e g1) (bytesAt (byteAt d) (bs * 2) areaSize) -> distinguishable bs (e g0) (e g1) ->
  Read d = Some (Ok (storedWith code g0)) \/ Read d = Some (Ok (storedWith code g1)).
Proof.
  intros Hd Hg0 Hg1 bs bc e (mbr & Hmbr & Hb) Halt Hhdr Hmix Hdist. rewrite (Read_spec d code mbr Hd Hmbr Hb). destruct (Hdist _ Hmix) as [H0 H1].
  destruct Hhdr as [Hhdr|Hhdr].
  - destruct (read_mixed d g0 Hd Hg0 Hhdr H0) as [->|[msg ->]]; [by left|]. cbn [mbind option_bind].
    rewrite (read_alternate d g1 Hd Hg1 Halt). by right.
  - destruct (read_mixed d g1 Hd Hg1 Hhdr H1) as [->|[msg ->]]; [by right|]. cbn [mbind option_bind].
    rewrite (read_alternate d g1 Hd Hg1 Halt). by right.
Qed.

(** The alternate copy is not where the primary one is. *)
Lemma outcome_primary bs bc g f h e : 512 <= bs -> tableOk g -> 3 + 2 * peb bs <= bc -> outcome bs bc g f h e ->
  (e <> None /\ forall x, 0 <= x < bs * (2 + peb bs) -> h x = f x) \/
  exists mbr, makeProtectiveMBR bc (BootCode g) = Ok mbr /\
    ((e <> None /\ torn bs (wrote2 bs bc g f) (wrote3 bs bc g mbr f) h) \/ (e = None /\ forall x, h x = wrote3 bs bc g mbr f x)).
Proof.
  intros Hbs Hg Hbc Hout. pose proof (peb_pos bs ltac:(lia)) as [Hp _]. destruct Hout as [e Ht|e Ht|e _ Hf|e mbr Hm Ht|mbr Hm Hf].
  - left. split; [done|]. intros x Hx. unfold wrote1 in Ht. eapply torn_outside; [|exact Ht|]; nia.
  - left. split; [done|]. intros x Hx. unfold wrote2 in Ht. etrans; [eapply torn_outside; [|exact Ht|]; nia|]. unfold wrote1. rewrite overlay_out; [done|nia].
  - left. split; [done|]. intros x Hx. rewrite Hf. apply wrote2_outside; [lia|done|done|nia].
  - right. exists mbr. auto.
  - right. exists mbr. auto.
Qed.

Lemma torn_boot bs bc f g h code0 code1 : torn bs f g h -> 0 < bs -> hasBoot f bs bc code0 -> hasBoot g bs bc code1 ->
  exists code, (code = code0 \/ code = code1) /\ hasBoot h bs bc code.
Proof.
  intros Ht Hbs (m0 & Hm0 & H0) (m1 & Hm1 & H1). destruct (torn_block _ _ _ _ 0 Ht Hbs) as [H|H]; rewrite Z.mul_0_r in H.
  - exists code0. split; [by left|]. exists m0. by rewrite H.
  - exists code1. split; [by right|]. exists m1. by rewrite H.
Qed.

(** The device between the second and the third write, if that is interrupted. *)
Lemma torn_primary_read d d' g0 g1 code mbr : deviceOk d -> valid d' -> sameGeometry d d' -> tableOk g0 -> tableOk g1 ->
  let bs := BlockSize d in let bc := BlockCount d in
  hasBoot (byteAt d) bs bc code -> hasPrimary (byteAt d) bs bc g0 -> makeProtectiveMBR bc (BootCode g1) = Ok mbr ->
  distinguishable bs (partitionEntriesData (Partitions g0)) (partitionEntriesData (Partitions g1)) ->
  torn bs (wrote2 bs bc g1 (byteAt d)) (wrote3 bs bc g1 mbr (byteAt d)) (byteAt d') ->
  exists c g, (c = code \/ c = BootCode g1) /\ (g = g0 \/ g = g1) /\ Read d' = Some (Ok (storedWith c g)).
Proof.
  intros Hd Hv [HG1 HG2] Hg0 Hg1 bs bc Hb0 Hp0 Hmbr Hdist Ht. destruct (device_layout d Hd) as (Hbs & Hpeb & Harea & Hbc).
  fold bs in Hbs, Hpeb, Harea. fold bs bc in Hbc.
  pose proof Hd as (_ & Hbs' & _). fold bs in Hbs'.
  destruct (wrote3_primary bs bc g1 mbr (byteAt d) Hbs' Hg1 Hmbr) as [Hb1 Hp1].
  assert (forall x, 0 <= x < bs * (2 + peb bs) -> wrote2 bs bc g1 (byteAt d) x = byteAt d x) as Hsame by (intros x Hx; apply wrote2_outside; [lia|done|done|nia]).
  destruct (primary_region (byteAt d) (wrote2 bs bc g1 (byteAt d)) bs bc g0 code Hbs Hpeb Hsame) as [Hb0' Hp0'].
  specialize (Hb0' Hb0). specialize (Hp0' Hp0). destruct Hp0' as [Hh0 He0], Hp1 as [Hh1 He1].
  destruct (torn_boot _ _ _ _ _ _ _ Ht Hbs Hb0' Hb1) as (c & Hc & Hboot).
  assert (hasAlternate (byteAt d') bs bc g1) as Halt.
  { apply (alternate_region (wrote2 bs bc g1 (byteAt d))); [done|done| |by apply wrote2_alternate; [..|lia]].
    intros x Hx. apply (torn_outside bs _ 0 (primaryData bs bc g1 mbr)); [done|exact Ht|].
    destruct (primaryData_eq bs bc g1 (BootCode g1) mbr Hbs' Hg1 Hmbr) as [_ ->]. nia. }
  assert (bytesAt (byteAt d') (bs * 1) (Z.to_nat bs) = padTo bs (encodeHeader (primaryHeader bs bc g0)) \/
    bytesAt (byteAt d') (bs * 1) (Z.to_nat bs) = padTo bs (encodeHeader (primaryHeader bs bc g1))) as Hhdr.
  { destruct (torn_block _ _ _ _ 1 Ht Hbs) as [->| ->]; [left; exact Hh0|right; exact Hh1]. }
  assert (mixture bs (partitionEntriesData (Partitions g0)) (partitionEntriesData (Partitions g1)) (bytesAt (byteAt d') (bs * 2) areaSize)) as Hmix.
  { pose proof (paddedEntries_len bs _ Hbs (t_entries g0 Hg0)) as L0. pose proof (paddedEntries_len bs _ Hbs (t_entries g1 Hg1)) as L1.
    unfold paddedEntries in *. unfold len in L0, L1. eapply (torn_mixture _ _ _ _ _ _ 2 Hbs Ht); [lia|unfold len, areaSize; lia| |].
    - etrans; [|exact He0]. f_equal. lia.
    - etrans; [|exact He1]. f_equal. lia. }
  assert (deviceOk d') as Hd' by (by apply (deviceOk_same d)). exists c. unfold bs, bc in *. rewrite <- HG1, <- HG2 in *.
  destruct (Read_mixed d' c g0 g1 Hd' Hg0 Hg1 Hboot Halt Hhdr Hmix Hdist) as [HR|HR]; [exists g0|exists g1]; auto.
Qed.

(** C7: Writing is crash safe, provided that the CRC-32 tells the entries of the two tables from every mixture of their blocks.  Let a
    table be on the device and another one be written over it, where each write may fail having written any of its blocks.  Then whatever
    was left out, [Read] returns the old or the new table, with the old or the new boot code; and the new one with the new boot code
    if nothing failed. *)
Theorem Write_crash_safe g0 d0 n0 g0' d1 n1 g1 n2 :
  deviceOk d0 -> tableOk g0 -> tableOk g1 -> Write g0 d0 n0 = Some (None, g0', d1, n1) ->
  distinguishable (BlockSize d0) (partitionEntriesData (Partitions g0')) (partitionEntriesData (Partitions (identify g1 n2).1)) ->
  exists e g1' d2 n3 code g, Write g1 d1 n2 = Some (e, g1', d2, n3) /\ identified g1 g1' /\
    Read d2 = Some (Ok (storedWith code g)) /\ (code = BootCode g0' \/ code = BootCode g1') /\ (g = g0' \/ g = g1') /\
    (e = None -> code = BootCode g1' /\ g = g1').
Proof.
  intros Hd0 Hg0 Hg1 HW0 Hdist. destruct (read_back g0 d0 n0 None g0' d1 n1 Hd0 Hg0 HW0 eq_refl) as (Heq & Hd1 & [HG1 HG2] & Hb & Hp).
  assert (tableOk g0') as Hg0' by (rewrite Heq; by apply identify_spec). rewrite <- HG1, <- HG2 in Hb, Hp. rewrite <- HG1 in Hdist.
  destruct (identify_spec g1 n2) as [Hid Hok]. specialize (Hok Hg1). set (g1' := (identify g1 n2).1) in *.
  destruct (Write_spec g1 d1 n2 Hd1 (t_count g1 Hg1) Hok) as (e & d2 & HW1 & Hv2 & HG & Hout & _). fold g1' in Hout, HW1.
  assert (deviceOk d2) as Hd2 by (by apply (deviceOk_same d1)). pose proof Hd1 as (_ & Hbs & _).
  destruct (device_layout d1 Hd1) as (Hbs0 & Hpeb & _ & Hbc). pose proof HG as [HGa HGb].
  destruct (outcome_primary _ _ _ _ _ _ Hbs Hok Hbc Hout) as [[He Hsame]|(mbr & Hmbr & [[He Ht]|[-> Hf]])].
  - destruct (primary_region _ _ _ (BlockCount d1) g0' (BootCode g0') Hbs0 Hpeb Hsame) as [Hb2 Hp2]. specialize (Hb2 Hb). specialize (Hp2 Hp).
    rewrite <- HGa, <- HGb in Hb2, Hp2. exists e, g1', d2, (identify g1 n2).2, (BootCode g0'), g0'.
    split_and!; [done..|by apply Read_primary|by left|by left|done].
  - destruct (torn_primary_read d1 d2 g0' g1' (BootCode g0') mbr Hd1 Hv2 HG Hg0' Hok Hb Hp Hmbr Hdist Ht) as (c & g & Hc & Hg & HR).
    exists e, g1', d2, (identify g1 n2).2, c, g. split_and!; [done..|]. by intros ->.
  - destruct (read_back g1 d1 n2 None g1' d2 _ Hd1 Hg1 HW1 eq_refl) as (_ & _ & _ & Hb2 & Hp2). rewrite <- HGa, <- HGb in Hb2, Hp2.
    exists None, g1', d2, (identify g1 n2).2, (BootCode g1'), g1'. split_and!; [done..|by apply Read_primary|by right|by right|done].
Qed.

End properties.
End GptProps.

(** * Partition tables: examples

    A device that fails in the middle of a write, and the properties of partition
    tables on concrete ones. *)

Module GptExample.
Import Bytes BlockDev BlockDevProps Gpt GptAdd GptCodec GptDisk GptProps.
Open Scope Z_scope.

(** ** A device that fails *)

(** Memory to which only so many more writes succeed; then a write stops after the
    first three blocks. *)
Record Flaky := mkFlaky { memory : Memory; fuse : nat }.

Definition flakyWriteAt (d : Flaky) (p : bytes) (off : Z) : option (Z * option string * Flaky) :=
  match fuse d with
  | S k => '(n, e, m) ← memWriteAt (memory d) p off; Some (n, e, mkFlaky m k)
  | O => '(n, e, m) ← memWriteAt (memory d) (take (Z.to_nat (blockSize (memory d) * 3)) p) off; Some (n, Some "input/output error"%string, mkFlaky m 0)
  end.

Definition Flaky_BlockDev : BlockDev := {|
  dev := Flaky; BlockSize d := blockSize (memory d); BlockCount d := blockCount (memory d); OptimalBlockSize d := blockSize (memory d);
  ReadAt d := memReadAt (memory d); WriteAt := flakyWriteAt;
  Discard d x y := '(e, m) ← memDiscard (memory d) x y; Some (e, mkFlaky m (fuse d));
  Zero d x y := '(e, m) ← memZero (memory d) x y; Some (e, mkFlaky m (fuse d))
|}.

(** The first blocks of the data, if written on their own. *)
Lemma torn_first bs f off p n : 0 < bs -> 0 <= n -> (bs | off) -> (bs | len p) -> torn bs f (overlay f off p) (overlay f off (take (Z.to_nat (bs * n)) p)).
Proof.
  intros Hbs Hn0 [j ->] [l Hl] k. assert (len (take (Z.to_nat (bs * n)) p) = Z.min (bs * n) (len p)) as Hlen by (unfold len; rewrite length_take; nia).
  destruct (decide (j <= k < j + n)) as [Hk|Hk]; [right|left]; intros x Hx.
  - destruct (decide (x < j * bs + len p)).
    + rewrite !overlay_in by nia. apply nth_take_. nia.
    + rewrite !overlay_out by nia. done.
  - apply overlay_out. rewrite Hlen. nia.
Qed.

Definition Flaky_laws : BlockDevLaws Flaky_BlockDev.
Proof.
  refine (@Build_BlockDevLaws Flaky_BlockDev (fun d => memValid (memory d)) (fun d => memByte (memory d)) _ _ _ _ _).
  - intros d. apply mem_geometry.
  - intros d. apply memReadAt_ok.
  - intros d p off Hv H0 Hs Do Dp. cbn in *. unfold flakyWriteAt. destruct (fuse d) as [|k].
    + pose proof (mem_geometry _ Hv) as [Hbs _]. unfold size in Hs. cbn in Hs.
      destruct (memWriteAt_ok (memory d) (take (Z.to_nat (blockSize (memory d) * 3)) p) off Hv H0) as (m & -> & Hv' & HG1 & HG2 & Hx).
      { unfold len in *. rewrite length_take. lia. }
      do 3 eexists. split; [reflexivity|]. split_and!; [done|by split|]. intros k. cbn. setoid_rewrite Hx. by apply torn_first; [|lia|..].
    + destruct (memWriteAt_ok (memory d) p off Hv H0 Hs) as (m & -> & Hv' & HG1 & HG2 & Hx). by do 3 eexists.
  - intros d x y Hv Hx Hy D1 D2. destruct (@Zero_ok _ Memory_laws (memory d) x y Hv Hx Hy D1 D2) as (e & m & Heq & ?).
    cbn in *. rewrite Heq. by exists e, (mkFlaky m (fuse d)).
  - intros d x y Hv Hx Hy D1 D2. destruct (@Discard_ok _ Memory_laws (memory d) x y Hv Hx Hy D1 D2) as (e & m & Heq & ?).
    cbn in *. rewrite Heq. by exists e, (mkFlaky m (fuse d)).
Defined.

(** ** Devices and tables *)

Definition blank (bs bc : Z) : Memory := mkMemory bs bc (zeros (Z.to_nat (bs * bc))).

Lemma blank_valid k bc : 0 <= k -> 0 <= bc -> memValid (blank (2 ^ k) bc).
Proof.
  intros Hk Hbc. split_and!; [by exists k|done|]. cbn [data blank]. unfold len, zeros. rewrite length_replicate. apply Z2Nat.id.
  pose proof (Z.pow_nonneg 2 k). cbn. nia.
Qed.

Lemma memory_reliable : @reliable _ Memory_laws.
Proof.
  intros d p off n e d' Hv HW H0 Hs _ _. destruct (memWriteAt_ok d p off Hv H0 Hs) as (m' & HW' & _). cbn in HW. rewrite HW in HW'. congruence.
Qed.

(** A UUID that is not random. *)
Definition exampleUuid (b : Z) : bytes := b :: zeros 15.

Lemma exampleUuid_ok c : isByte c -> isUuid (exampleUuid c).
Proof. intros H. split; [reflexivity|]. constructor; [exact H|apply zeros_isBytes]. Qed.

(** A table with two partitions and an unused entry between them. *)
Definition systemPartition (first last : Z) : Partition := mkPartition [69; 83; 80; 128512] (exampleUuid 7) (exampleUuid 9) first last 5 None.
Definition diskTable (id last : Z) (code : bytes) : Table :=
  mkTable (exampleUuid id) code [Some (systemPartition 40 last); None; Some (systemPartition 50 60)].

Lemma diskTable_ok id last code : isByte id -> 0 <= last < 2 ^ 63 -> tableOk (diskTable id last code).
Proof.
  intros Hid Hl. assert (forall l, 0 <= l < 2 ^ 63 -> forall f, 0 <= f < 2 ^ 63 -> storable (systemPartition f l)) as Hs.
  { intros l H f Hf. split; [apply exampleUuid_ok; unfold isByte; lia|apply exampleUuid_ok; unfold isByte; lia|].
    change (width 8) with (2 ^ 64). repeat (apply Forall_cons_2; [cbn [FirstBlock LastBlock Attributes systemPartition]; lia|]). constructor. }
  split; [by apply exampleUuid_ok| |cbn; lia]. cbn [Partitions diskTable]. repeat apply Forall_cons_2; [apply Hs; lia|done|apply Hs; lia|constructor].
Qed.

(** ** The round trip *)

Definition smallDisk : Memory := blank (2 ^ 9) 100.

Lemma smallDisk_ok : @deviceOk _ Memory_laws smallDisk.
Proof. split; [by apply blank_valid|]. split; [done|]. by vm_compute. Qed.

Lemma diskTable_faithful id last code : List.last code 1 <> 0 -> faithfulTable (diskTable id last code).
Proof.
  intros Hc. assert (forall l f, faithful (Some (systemPartition f l))) as Hf.
  { intros l f. split_and!; [discriminate|reflexivity| |cbn; lia|discriminate]. unfold isRune, surr1, surr3, maxRune.
    repeat (apply Forall_cons_2; [lia|]). constructor. }
  split_and!; [|repeat apply Forall_cons_2; [apply Hf|done|apply Hf|constructor]|by eexists].
  clear Hf. revert Hc. induction code as [|c [|c' code] IH]; [done| |exact IH]. cbn. intros H [= ->]. done.
Qed.

(** Its identifiers are complete. *)
Lemma diskTable_identified id last code g' : id <> 0 -> identified (diskTable id last code) g' -> g' = diskTable id last code.
Proof.
  intros Hne. destruct g' as [id' code' ps]. intros (Hcode & _ & Hid & Hps). cbn [BootCode TableID Partitions diskTable] in *.
  rewrite Hcode, Hid by (by injection). unfold diskTable. f_equal.
  apply Forall2_cons_inv_l in Hps as ([p1|] & ps1 & Q1 & Hps & ->); [|done].
  apply Forall2_cons_inv_l in Hps as ([p2|] & ps2 & Q2 & Hps & ->); [done|].
  apply Forall2_cons_inv_l in Hps as ([p3|] & ps3 & Q3 & Hps & ->); [|done].
  destruct Q1 as (H1 & _ & E1), Q3 as (H3 & _ & E3).
  apply Forall2_nil_inv_l in Hps as ->. rewrite H1, H3, E1, E3 by discriminate. reflexivity.
Qed.

Lemma gpt_roundtrip_witness :
  exists d' n', @Write ExampleUuids Memory_BlockDev (diskTable 3 45 [235; 254]) smallDisk 0 = Some (None, diskTable 3 45 [235; 254], d', n') /\
    @Read Memory_BlockDev d' = Some (Ok (diskTable 3 45 [235; 254])).
Proof.
  destruct (@gpt_roundtrip ExampleUuids ExampleUuidLaws Memory_BlockDev Memory_laws (diskTable 3 45 [235; 254]) smallDisk 0
    smallDisk_ok (diskTable_ok 3 45 [235; 254] ltac:(unfold isByte; lia) ltac:(lia)) ltac:(unfold len; cbn; lia) memory_reliable)
    as (g' & d' & n' & HW & Hid & HR & Hf).
  apply diskTable_identified in Hid as ->; [|discriminate].
  exists d', n'. split; [exact HW|]. rewrite HR, Hf; [reflexivity|]. apply diskTable_faithful. discriminate.
Defined.

(** ** The crash *)

Lemma bytesAt_part e off n : (off + n <= length e)%nat -> bytesAt (overlay (fun _ => 0) 0 e) (Z.of_nat off) n = take n (drop off e).
Proof.
  intros H. rewrite <- (bytesAt_overlay (fun _ => 0) 0 e) at 2. replace (length e) with (off + (n + (length e - off - n)))%nat by lia.
  rewrite bytesAt_app, drop_app_length' by (by rewrite bytesAt_length). rewrite bytesAt_app, take_app_length' by (by rewrite bytesAt_length). f_equal.
Qed.

(** If the entries only differ in the first two blocks, each of these is from one of the tables. *)
Lemma two_blocks e0 e1 m : length e0 = areaSize -> length e1 = areaSize -> drop 1024 e0 = drop 1024 e1 -> mixture (2 ^ 9) e0 e1 m ->
  exists a b : bool, m = take 512 (if a then e1 else e0) ++ take 512 (drop 512 (if b then e1 else e0)) ++ drop 1024 e0.
Proof.
  intros H0 H1 Hd (h & Ht & ->). assert (forall e, length e = areaSize -> padTo (2 ^ 9) e = e) as Hpad.
  { intros e He. apply padTo_id; [done|]. unfold len. rewrite He. exists 32. reflexivity. }
  rewrite !Hpad in Ht by done. assert (0 < 2 ^ 9) as Hbs by done. assert (Z.of_nat areaSize = 16384) as Harea by reflexivity.
  replace areaSize with (512 + (512 + Z.to_nat 15360))%nat by lia. rewrite !bytesAt_app, app_assoc.
  assert (forall k, (k < 2)%nat -> exists c : bool, bytesAt h (Z.of_nat (512 * k)) 512 = take 512 (drop (512 * k) (if c then e1 else e0))) as Hblock.
  { intros k Hk. replace (Z.of_nat (512 * k)) with (2 ^ 9 * Z.of_nat k) by lia.
    destruct (torn_block _ _ _ _ (Z.of_nat k) Ht Hbs) as [H|H]; change (Z.to_nat (2 ^ 9)) with 512%nat in H; rewrite H; [exists false|exists true];
      (replace (2 ^ 9 * Z.of_nat k) with (Z.of_nat (512 * k)) by lia); apply bytesAt_part; lia. }
  destruct (Hblock 0%nat) as [a Ha]; [lia|]. destruct (Hblock 1%nat) as [b Hb]; [lia|]. exists a, b. rewrite app_assoc. f_equal; [f_equal; [exact Ha|exact Hb]|].
  trans (bytesAt (overlay (fun _ => 0) 0 e0) (Z.of_nat 1024) (Z.to_nat 15360)).
  2:{ rewrite bytesAt_part by lia. apply take_ge. rewrite length_drop. lia. }
  apply bytesAt_ext. intros x Hx. assert (overlay (fun _ => 0) 0 e1 x = overlay (fun _ => 0) 0 e0 x) as Hsame.
  { rewrite !overlay_in by (unfold len; lia). rewrite Z.sub_0_r. replace (Z.to_nat x) with (1024 + (Z.to_nat x - 1024))%nat by lia.
    by rewrite <- !nth_drop_, Hd. }
  assert (2 ^ 9 * (x / 2 ^ 9) <= x < 2 ^ 9 * (x / 2 ^ 9) + 2 ^ 9) as Hk by (pose proof (Z.div_mod x (2 ^ 9)); pose proof (Z.mod_pos_bound x (2 ^ 9)); lia).
  destruct (Ht (x / 2 ^ 9)) as [H|H]; rewrite H by lia; [reflexivity|exact Hsame].
Qed.

(** A disk of which the sixth write fails, the last of the second table, after the boot code, the header and the first block
    of entries. *)
Definition failingDisk : Flaky := mkFlaky (blank (2 ^ 9) 100) 5.

(** Tables that use two blocks of entries. *)
Definition wideTable (id last : Z) (code : bytes) : Table :=
  mkTable (exampleUuid id) code [Some (systemPartition 40 last); None; None; None; Some (systemPartition 50 (last + 20))].
Definition oldTable : Table := wideTable 3 45 [235; 254].
Definition newTable : Table := wideTable 4 46 [144].

Lemma wideTable_ok id last code : isByte id -> 0 <= last < 2 ^ 62 -> tableOk (wideTable id last code).
Proof.
  intros Hid Hl. assert (forall l, 0 <= l < 2 ^ 63 -> forall f, 0 <= f < 2 ^ 63 -> storable (systemPartition f l)) as Hs.
  { intros l H f Hf. apply (diskTable_ok id l code Hid) in H as [_ H _]. apply Forall_inv in H. destruct H as [H1 H2 H3]. split; [done..|].
    apply Forall_cons in H3 as [_ H3]. apply Forall_cons_2; [|done]. change (width 8) with (2 ^ 64). cbn [FirstBlock systemPartition]. lia. }
  split; [by apply exampleUuid_ok| |cbn; lia]. cbn [Partitions wideTable]. repeat apply Forall_cons_2; [apply Hs; lia|done|done|done|apply Hs; lia|constructor].
Qed.

Lemma wideTable_identified id last code g' : id <> 0 -> identified (wideTable id last code) g' -> g' = wideTable id last code.
Proof.
  intros Hne. destruct g' as [id' code' ps]. intros (Hcode & _ & Hid & Hps). cbn [BootCode TableID Partitions wideTable] in *.
  rewrite Hcode, Hid by (by injection). unfold wideTable. f_equal.
  apply Forall2_cons_inv_l in Hps as ([p1|] & ps1 & Q1 & Hps & ->); [|done].
  do 3 (apply Forall2_cons_inv_l in Hps as ([?|] & ? & Q & Hps & ->); [done|clear Q]).
  apply Forall2_cons_inv_l in Hps as ([p3|] & ps3 & Q3 & Hps & ->); [|done].
  destruct Q1 as (H1 & _ & E1), Q3 as (H3 & _ & E3).
  apply Forall2_nil_inv_l in Hps as ->. rewrite H1, H3, E1, E3 by discriminate. reflexivity.
Qed.

Lemma failingDisk_ok : @deviceOk _ Flaky_laws failingDisk.
Proof. split; [by apply blank_valid|]. split; [done|]. by vm_compute. Qed.

Definition oldEntries : bytes := partitionEntriesData (Partitions oldTable).
Definition newEntries : bytes := partitionEntriesData (Partitions newTable).
Definition mixed (a b : bool) : bytes :=
  take 512 (if a then newEntries else oldEntries) ++ take 512 (drop 512 (if b then newEntries else oldEntries)) ++ drop 1024 oldEntries.

(** The checksums of the four mixtures differ. *)
Definition mixedCheck (a b : bool) : bool :=
  (implb (ChecksumIEEE (mixed a b) =? ChecksumIEEE oldEntries) (negb a && negb b)) && (implb (ChecksumIEEE (mixed a b) =? ChecksumIEEE newEntries) (a && b)).

Lemma mixed_check a b : mixedCheck a b = true.
Proof. destruct a, b; vm_compute; reflexivity. Qed.

Lemma blocks_app (e : bytes) : take 512 e ++ take 512 (drop 512 e) ++ drop 1024 e = e.
Proof. change 1024%nat with (512 + 512)%nat. rewrite <- drop_drop, !take_drop. done. Qed.

Lemma implb_eqb x y c : implb (x =? y) c = true -> x = y -> c = true.
Proof. intros H ->. by rewrite Z.eqb_refl in H. Qed.

Lemma tables_distinguishable : distinguishable (2 ^ 9) oldEntries newEntries.
Proof.
  assert (length oldEntries = areaSize) as H0 by (apply entries_area, (wideTable_ok 3 45 [235; 254]); unfold isByte; lia).
  assert (length newEntries = areaSize) as H1 by (apply entries_area, (wideTable_ok 4 46 [144]); unfold isByte; lia).
  assert (drop 1024 oldEntries = drop 1024 newEntries) as Hd by (vm_compute; reflexivity).
  assert (mixed true true = newEntries) as Hnew by (unfold mixed; rewrite Hd; apply blocks_app).
  intros m Hm. destruct (two_blocks _ _ _ H0 H1 Hd Hm) as (a & b & ->). fold (mixed a b).
  pose proof (mixed_check a b) as Hc. unfold mixedCheck in Hc. apply andb_true_iff in Hc as [C0 C1].
  split; intros E; [apply (implb_eqb _ _ _ C0) in E; clear C0 C1|apply (implb_eqb _ _ _ C1) in E; clear C0 C1].
  - destruct a, b; try discriminate E. apply blocks_app.
  - destruct a, b; try discriminate E. exact Hnew.
Qed.

(** Whether the write succeeded. *)
Definition wrote (r : option (option string * Table * Flaky * nat)) : bool :=
  match r with Some (None, _, _, _) => true | _ => false end.

(** The second table is not written completely. *)
Lemma second_write_fails :
  match @Write ExampleUuids Flaky_BlockDev oldTable failingDisk 0 with
  | Some (None, _, d1, _) => wrote (@Write ExampleUuids Flaky_BlockDev newTable d1 0)
  | _ => true
  end = false.
Proof. vm_compute. reflexivity. Qed.

Lemma Write_crash_safe_witness :
  exists d1 n1, @Write ExampleUuids Flaky_BlockDev oldTable failingDisk 0 = Some (None, oldTable, d1, n1) /\
  exists e d2 n3 code g, @Write ExampleUuids Flaky_BlockDev newTable d1 0 = Some (e, newTable, d2, n3) /\
    @Read Flaky_BlockDev d2 = Some (Ok (storedWith code g)) /\ (code = [235; 254] \/ code = [144]) /\ (g = oldTable \/ g = newTable).
Proof.
  assert (wrote (@Write ExampleUuids Flaky_BlockDev oldTable failingDisk 0) = true) as HW by (vm_compute; reflexivity).
  destruct (@Write ExampleUuids Flaky_BlockDev oldTable failingDisk 0) as [[[[[e|] g0'] d1] n1]|] eqn:Heq; try discriminate HW. clear HW.
  destruct (@identify_spec ExampleUuids ExampleUuidLaws oldTable 0) as [Hid0 _].
  destruct (@identify_spec ExampleUuids ExampleUuidLaws newTable 0) as [Hid1 _].
  apply wideTable_identified in Hid0 as Hold; [|discriminate]. apply wideTable_identified in Hid1 as Hnew; [|discriminate].
  pose proof (@read_back ExampleUuids ExampleUuidLaws Flaky_BlockDev Flaky_laws oldTable failingDisk 0 None g0' d1 n1 failingDisk_ok
    (wideTable_ok 3 45 [235; 254] ltac:(unfold isByte; lia) ltac:(lia)) Heq eq_refl) as [Hg0 _]. rewrite Hold in Hg0. subst g0'.
  exists d1, n1. split; [reflexivity|].
  destruct (@Write_crash_safe ExampleUuids ExampleUuidLaws Flaky_BlockDev Flaky_laws oldTable failingDisk 0 (wideTable 3 45 [235; 254]) d1 n1 newTable 0 failingDisk_ok
    (wideTable_ok 3 45 [235; 254] ltac:(unfold isByte; lia) ltac:(lia)) (wideTable_ok 4 46 [144] ltac:(unfold isByte; lia) ltac:(lia)) Heq)
    as (e & g1' & d2 & n3 & code & g & HW & Hid & HR & Hc & Hg & _).
  { rewrite Hnew. exact tables_distinguishable. }
  apply wideTable_identified in Hid as ->; [|discriminate]. exists e, d2, n3, code, g. split; [exact HW|]. split; [exact HR|]. split; [exact Hc|exact Hg].
Defined.

End GptExample.
