(* ===== verification/Toposort.v ===== *)
(** * Topological sorting

    Models [go/algorithm/toposort/toposort.go]: graphs as adjacency maps, references to
    nodes that were not added, and both depth-first sorts.

    Go iterates over maps in any order: [order] says in which one, for the k-th
    iteration.  The recursion of [visit] has fuel; the number of nodes is enough, since
    every nested call has one more node on the stack. *)

From S2P Require Import Prelude.

Module Toposort.

Section graphs.
Context {T : Type} `{Countable T}.

(** The maps to [true] are sets; maps that are nil are empty. *)
Record Graph := mkGraph { nodes : gmap T (gset T); addedNodes : gset T }.

Definition emptyGraph : Graph := mkGraph ∅ ∅.

Definition addNodeImplicit (n : T) (g : Graph) : Graph :=
  match nodes g !! n with
  | Some _ => g
  | None => mkGraph (<[n := ∅]> (nodes g)) (addedNodes g)
  end.

Definition AddNode (n : T) (g : Graph) : Graph :=
  addNodeImplicit n (mkGraph (nodes g) ({[n]} ∪ addedNodes g)).

(** [g.nodes[n]]. *)
Definition succs (g : Graph) (n : T) : gset T := default ∅ (nodes g !! n).

Definition AddEdge (from to : T) (g : Graph) : Graph :=
  let g := addNodeImplicit to (addNodeImplicit from g) in
  mkGraph (<[from := {[to]} ∪ succs g from]> (nodes g)) (addedNodes g).

(** ** References to nodes that were not added *)

(** [if out[n] == nil { out[n] = make(...) }; out[n][e] = true] for all of [es]. *)
Definition addRefs (n : T) (es : gset T) (out : gmap T (gset T)) : gmap T (gset T) := <[n := es ∪ default ∅ (out !! n)]> out.

Definition nodeRefs (g : Graph) (out : gmap T (gset T)) (ne : T * gset T) : gmap T (gset T) :=
  let '(n, outEdges) := ne in
  let out := if decide (n ∈ addedNodes g) then out else addRefs n outEdges out in
  foldl (fun out e => if decide (e ∈ addedNodes g) then out else addRefs e {[n]} out) out (elements outEdges).

Definition ImplicitNodeReferences (g : Graph) : gmap T (gset T) := foldl (nodeRefs g) ∅ (map_to_list (nodes g)).

(** ** Sorting *)

Definition ErrCycle : string := "graph has at least one cycle".

Record state := mkState {
  unmarkedNodes : gset T;
  nodeVisitStack : gset T;
  solution : list T;
  iterations : nat
}.

Definition push (n : T) (s : state) : state := mkState (unmarkedNodes s) ({[n]} ∪ nodeVisitStack s) (solution s) (iterations s).
Definition finish (n : T) (s : state) : state :=
  mkState (unmarkedNodes s ∖ {[n]}) (nodeVisitStack s ∖ {[n]}) (solution s ++ [n]) (iterations s).
Definition iterate (s : state) : state := mkState (unmarkedNodes s) (nodeVisitStack s) (solution s) (S (iterations s)).

Definition outcome : Type := option (result string state).

Section any.
Variable order : nat -> list T -> list T.
Variable g : Graph.

(** The loop of [visit], with [visit] for the nodes it points to. *)
Fixpoint visitLoop (visit : gset T -> state -> outcome) (ns : list T) (s : state) : outcome :=
  match ns with
  | [] => Some (Ok s)
  | n :: ns =>
      if decide (n ∉ unmarkedNodes s) then visitLoop visit ns s
      else if decide (n ∈ nodeVisitStack s) then Some (Err ErrCycle)
      else
        r ← visit (succs g n) (push n s);
        match r with
        | Err e => Some (Err e)
        | Ok s => visitLoop visit ns (finish n s)
        end
  end.

Fixpoint visit (fuel : nat) (ns : gset T) (s : state) : outcome :=
  match fuel with
  | O => None
  | S fuel => visitLoop (visit fuel) (order (iterations s) (elements ns)) (iterate s)
  end.

Definition TopologicalOrder : option (result string (list T)) :=
  let unmarked := dom (nodes g) in
  r ← visit (S (size unmarked)) unmarked (mkState unmarked ∅ [] 0);
  Some (fmap (M := result string) solution r).
End any.

Section det.
(** [cmp(a, b) <= 0]. *)
Context (le : T -> T -> Prop) `{le_dec : forall a b, Decision (le a b)}.
Variable g : Graph.

Fixpoint detLoop (visit : gset T -> state -> outcome) (ns : list T) (s : state) : outcome :=
  match ns with
  | [] => Some (Ok s)
  | n :: ns =>
      if decide (n ∈ nodeVisitStack s) then Some (Err ErrCycle)
      else
        r ← visit (succs g n) (push n s);
        match r with
        | Err e => Some (Err e)
        | Ok s => detLoop visit ns (finish n s)
        end
  end.

Definition sortedOrder (ns : gset T) (s : state) : list T := merge_sort le (filter (fun n => n ∈ unmarkedNodes s) (elements ns)).

Fixpoint detVisit (fuel : nat) (ns : gset T) (s : state) : outcome :=
  match fuel with
  | O => None
  | S fuel => detLoop (detVisit fuel) (sortedOrder ns s) s
  end.

Definition DetTopologicalOrder : option (result string (list T)) :=
  let unmarked := dom (nodes g) in
  r ← detVisit (S (size unmarked)) unmarked (mkState unmarked ∅ [] 0);
  Some (fmap (M := result string) solution r).
End det.

End graphs.
Arguments Graph T {_ _}.
Arguments state T {_ _}.
Arguments outcome T {_ _}.

End Toposort.

(** * Properties of topological sorting

    Whatever the iteration order, [TopologicalOrder] returns every node once, after the
    nodes it points to, or an error if and only if the graph has a cycle.  The
    deterministic variant also returns nodes several times. *)

Module ToposortProps.
Import Toposort.

Section props.
Context {T : Type} `{Countable T}.
Implicit Types (g : Graph T) (s : state T) (a b c n : T) (ns : gset T) (l : list T).

(** Edges lead to nodes of the graph. *)
Definition graphOk (g : Graph T) : Prop := forall a b, b ∈ succs g a -> b ∈ dom (nodes g).

Inductive path (g : Graph T) : T -> T -> Prop :=
| path_edge a b : b ∈ succs g a -> path g a b
| path_step a b c : path g a b -> c ∈ succs g b -> path g a c.

Definition cyclic (g : Graph T) : Prop := exists n, path g n n.

(** ** Building graphs *)

Lemma dom_addNodeImplicit n g : dom (nodes (addNodeImplicit n g)) = {[n]} ∪ dom (nodes g).
Proof.
  unfold addNodeImplicit. destruct (nodes g !! n) eqn:E; cbn; [|set_solver]. apply elem_of_dom_2 in E. set_solver.
Qed.

Lemma succs_addNodeImplicit n g a : succs (addNodeImplicit n g) a = succs g a.
Proof.
  unfold succs, addNodeImplicit. destruct (nodes g !! n) eqn:E; [done|]. cbn. destruct (decide (a = n)) as [->|].
  - by rewrite lookup_insert_eq, E.
  - by rewrite lookup_insert_ne.
Qed.

Lemma dom_AddNode n g : dom (nodes (AddNode n g)) = {[n]} ∪ dom (nodes g).
Proof. unfold AddNode. by rewrite dom_addNodeImplicit. Qed.

Lemma succs_AddNode n g a : succs (AddNode n g) a = succs g a.
Proof. unfold AddNode. by rewrite succs_addNodeImplicit. Qed.

Lemma added_addNodeImplicit n g : addedNodes (addNodeImplicit n g) = addedNodes g.
Proof. unfold addNodeImplicit. by destruct (nodes g !! n). Qed.

Lemma added_AddNode n g : addedNodes (AddNode n g) = {[n]} ∪ addedNodes g.
Proof. unfold AddNode. by rewrite added_addNodeImplicit. Qed.

Lemma dom_AddEdge from to g : dom (nodes (AddEdge from to g)) = {[from; to]} ∪ dom (nodes g).
Proof. unfold AddEdge. cbn. rewrite dom_insert_L, !dom_addNodeImplicit. set_solver. Qed.

Lemma elem_of_succs_AddEdge from to g a b : b ∈ succs (AddEdge from to g) a <-> (a = from /\ b = to) \/ b ∈ succs g a.
Proof.
  unfold AddEdge. unfold succs at 1. cbn. destruct (decide (a = from)) as [->|].
  - rewrite lookup_insert_eq. cbn. rewrite !succs_addNodeImplicit. set_solver.
  - rewrite lookup_insert_ne by done. fold (succs (addNodeImplicit to (addNodeImplicit from g)) a). rewrite !succs_addNodeImplicit. naive_solver.
Qed.

Lemma added_AddEdge from to g : addedNodes (AddEdge from to g) = addedNodes g.
Proof. unfold AddEdge. cbn. by rewrite !added_addNodeImplicit. Qed.

Lemma graphOk_empty : graphOk emptyGraph.
Proof. intros a b. unfold succs. cbn. set_solver. Qed.

Lemma graphOk_AddNode n g : graphOk g -> graphOk (AddNode n g).
Proof. intros Hg a b. rewrite succs_AddNode, dom_AddNode. intros Hb%Hg. set_solver. Qed.

Lemma graphOk_AddEdge from to g : graphOk g -> graphOk (AddEdge from to g).
Proof. intros Hg a b. rewrite elem_of_succs_AddEdge, dom_AddEdge. intros [[-> ->]|Hb%Hg]; set_solver. Qed.

(** ** References to nodes that were not added *)

Lemma lookup_addRefs n es (out : gmap T (gset T)) x : addRefs n es out !! x = if decide (x = n) then Some (es ∪ default ∅ (out !! n)) else out !! x.
Proof. unfold addRefs. case_decide; subst; [by rewrite lookup_insert_eq|by rewrite lookup_insert_ne]. Qed.

Lemma lookup_targets g n l x : forall out,
  foldl (fun out e => if decide (e ∈ addedNodes g) then out else addRefs e {[n]} out) out l !! x =
  if decide ((x ∉ addedNodes g) /\ x ∈ l) then Some ({[n]} ∪ default ∅ (out !! x)) else out !! x.
Proof.
  induction l as [|e l IH]; intros out; cbn [foldl]; [rewrite decide_False by set_solver; done|]. rewrite IH.
  destruct (decide (x = e)) as [->|Hx].
  - destruct (decide (e ∈ addedNodes g)) as [Ha|Ha]; [by rewrite !decide_False by naive_solver|].
    rewrite lookup_addRefs, (decide_True (P := e = e)) by done. rewrite (decide_True (P := _ /\ e ∈ e :: l)) by set_solver.
    case_decide; [|done]. cbn. f_equal. set_solver.
  - rewrite (decide_ext _ ((x ∉ addedNodes g) /\ x ∈ e :: l)) by set_solver. destruct (decide (e ∈ addedNodes g)); [done|].
    by rewrite lookup_addRefs, (decide_False (P := x = e)).
Qed.

Lemma lookup_nodeRefs g out k es n : nodeRefs g out (k, es) !! n =
  if decide (n ∈ addedNodes g) then out !! n
  else let base := if decide (n = k) then Some (es ∪ default ∅ (out !! n)) else out !! n in
    if decide (n ∈ es) then Some ({[k]} ∪ default ∅ base) else base.
Proof.
  cbn [nodeRefs]. rewrite lookup_targets. destruct (decide (n ∈ addedNodes g)) as [Ha|Ha].
  - rewrite decide_False by naive_solver. destruct (decide (k ∈ addedNodes g)) as [|Hk]; [done|]. by rewrite lookup_addRefs, decide_False by congruence.
  - cbn zeta. rewrite (decide_ext _ (n ∈ es)) by (rewrite elem_of_elements; naive_solver).
    assert ((if decide (k ∈ addedNodes g) then out else addRefs k es out) !! n = if decide (n = k) then Some (es ∪ default ∅ (out !! n)) else out !! n) as ->; [|done].
    destruct (decide (k ∈ addedNodes g)); [by rewrite decide_False by congruence|]. rewrite lookup_addRefs. case_decide; by subst.
Qed.

Lemma refs_spec g n L :
  (n ∈ addedNodes g -> foldl (nodeRefs g) ∅ L !! n = None) /\
  (n ∉ addedNodes g ->
    (is_Some (foldl (nodeRefs g) ∅ L !! n) <-> exists m es, (m, es) ∈ L /\ (m = n \/ n ∈ es)) /\
    forall m, m ∈ default ∅ (foldl (nodeRefs g) ∅ L !! n) <-> exists es, ((n, es) ∈ L /\ m ∈ es) \/ ((m, es) ∈ L /\ n ∈ es)).
Proof.
  induction L as [|[k es] L [IH1 IH2]] using rev_ind.
  { cbn. rewrite lookup_empty. split; [done|]. intros _. split; [rewrite is_Some_alt; set_solver|set_solver]. }
  rewrite foldl_app. cbn [foldl]. rewrite lookup_nodeRefs. split; intros Ha.
  { rewrite decide_True by done. auto. }
  rewrite decide_False by done. destruct (IH2 Ha) as [IHs IHm]. clear IH1 IH2. cbn zeta. setoid_rewrite elem_of_app. setoid_rewrite list_elem_of_singleton. split.
  - destruct (decide (n ∈ es)) as [He|He]; [split; [|done]; intros _; exists k, es; naive_solver|].
    destruct (decide (n = k)) as [->|Hk]; [split; [|done]; intros _; exists k, es; naive_solver|].
    rewrite IHs. split; intros (m & es' & Hm & ?); exists m, es'; [naive_solver|]. destruct Hm as [Hm|[= -> ->]]; naive_solver.
  - intros m. transitivity ((exists es, ((n, es) ∈ L /\ m ∈ es) \/ ((m, es) ∈ L /\ n ∈ es)) \/ (n = k /\ m ∈ es) \/ (m = k /\ n ∈ es)).
    + rewrite <- IHm. destruct (decide (n ∈ es)), (decide (n = k)); cbn; set_solver.
    + split; [naive_solver|]. intros (es' & [[[Hin|[= -> ->]] ?]|[[Hin|[= -> ->]] ?]]); eauto.
Qed.

(** The nodes that were not added, with what they point to and what points to them. *)
Lemma ImplicitNodeReferences_spec g n : graphOk g ->
  match ImplicitNodeReferences g !! n with
  | None => n ∈ addedNodes g \/ n ∉ dom (nodes g)
  | Some refs => (n ∉ addedNodes g) /\ n ∈ dom (nodes g) /\ forall m, m ∈ refs <-> m ∈ succs g n \/ n ∈ succs g m
  end.
Proof.
  intros Hg. destruct (refs_spec g n (map_to_list (nodes g))) as [H1 H2]. fold (ImplicitNodeReferences g) in *.
  assert (forall m es, (m, es) ∈ map_to_list (nodes g) -> succs g m = es /\ m ∈ dom (nodes g)) as Hl.
  { intros m es Hm%elem_of_map_to_list. unfold succs. rewrite Hm. split; [done|by eapply elem_of_dom_2]. }
  assert (forall m b, b ∈ succs g m -> (m, succs g m) ∈ map_to_list (nodes g)) as Hr.
  { intros m b Hb. apply elem_of_map_to_list. unfold succs in *. destruct (nodes g !! m); [done|set_solver]. }
  destruct (decide (n ∈ addedNodes g)) as [Ha|Ha]; [rewrite H1 by done; by left|]. destruct (H2 Ha) as [Hs Hm]. clear H1 H2.
  destruct (ImplicitNodeReferences g !! n) as [refs|] eqn:E.
  - split; [done|]. split.
    + destruct (proj1 Hs (mk_is_Some _ _ eq_refl)) as (m & es & [<- Hd]%Hl & [->|Hin]); [done|by eapply Hg].
    + intros m. cbn in Hm. rewrite Hm. split.
      * intros (es & [[[<- _]%Hl ?]|[[<- _]%Hl ?]]); auto.
      * intros [Hin|Hin]; eauto.
  - right. intros [es Hd]%elem_of_dom. assert (is_Some (None : option (gset T))) as [? [=]]. apply Hs. exists n, es. split; [by apply elem_of_map_to_list|by left].
Qed.

Lemma ImplicitNodeReferences_empty g : graphOk g -> ImplicitNodeReferences g = ∅ <-> dom (nodes g) ⊆ addedNodes g.
Proof.
  intros Hg. split.
  - intros E n Hn. pose proof (ImplicitNodeReferences_spec g n Hg) as Hs. rewrite E, lookup_empty in Hs. naive_solver.
  - intros Hd. apply map_eq. intros n. rewrite lookup_empty. pose proof (ImplicitNodeReferences_spec g n Hg) as Hs.
    destruct (ImplicitNodeReferences g !! n); [|done]. set_solver.
Qed.

(** Every node comes after the nodes it points to. *)
Definition ordered (g : Graph T) (l : list T) : Prop :=
  forall i a b, l !! i = Some a -> b ∈ succs g a -> b ∈ take i l.

Lemma succs_dom g a b : b ∈ succs g a -> a ∈ dom (nodes g).
Proof.
  unfold succs. destruct (nodes g !! a) eqn:E; [|set_solver]. intros _. apply elem_of_dom. eauto.
Qed.

Lemma path_dom g a b : path g a b -> a ∈ dom (nodes g).
Proof. induction 1; [by eapply succs_dom|done]. Qed.

Lemma ordered_snoc g l n : ordered g l -> (forall b, b ∈ succs g n -> b ∈ l) -> ordered g (l ++ [n]).
Proof.
  intros Hl Hn i a b Hi Hb. destruct (decide (i < length l)) as [Hlt|Hge].
  - rewrite lookup_app_l in Hi by done. rewrite take_app_le by lia. by eapply Hl.
  - rewrite lookup_app_r in Hi by lia. apply list_lookup_singleton_Some in Hi as [Hi <-]. rewrite take_app_ge by lia.
    apply elem_of_app. left. by apply Hn.
Qed.

Lemma ordered_closed g l a b : ordered g l -> a ∈ l -> b ∈ succs g a -> b ∈ l.
Proof.
  intros Hl [i Hi]%list_elem_of_lookup Hb. specialize (Hl i a b Hi Hb). apply list_elem_of_lookup in Hl as [j Hj].
  apply lookup_take_Some in Hj as [Hj _]. by eapply list_elem_of_lookup_2.
Qed.

(** The first position of a node only decreases along edges. *)
Lemma ordered_acyclic g l : ordered g l -> (forall n, n ∈ dom (nodes g) -> n ∈ l) -> ~ cyclic g.
Proof.
  intros Hl Hall [n Hn].
  assert (forall a b, path g a b -> forall i, a ∈ take i l -> exists j, j < i /\ b ∈ take j l) as Hdec.
  { intros a b Hp. induction Hp as [a b Hb|a b c Hp IH Hc]; intros i Hi.
    - apply list_elem_of_lookup in Hi as [k Hk]. apply lookup_take_Some in Hk as [Hk Hlt]. exists k. split; [done|]. by eapply Hl.
    - destruct (IH i Hi) as (j & Hj & Hbj). apply list_elem_of_lookup in Hbj as [k Hk]. apply lookup_take_Some in Hk as [Hk Hlt].
      exists k. split; [lia|]. by eapply Hl. }
  assert (n ∈ take (length l) l) as Hin.
  { rewrite take_ge by done. apply Hall. by eapply path_dom. }
  revert Hin. generalize (length l). induction n0 as [i IH] using lt_wf_ind. intros Hi. destruct (Hdec n n Hn i Hi) as (j & Hj & Hnj). by eapply IH.
Qed.

(** ** The state of the search *)

Record search (g : Graph T) (s : state T) : Prop := {
  s_stack : nodeVisitStack s ⊆ unmarkedNodes s;
  s_unmarked : unmarkedNodes s ⊆ dom (nodes g);
  s_done n : n ∈ solution s <-> n ∈ dom (nodes g) ∖ unmarkedNodes s;
  s_ordered : ordered g (solution s)
}.

(** The nodes that are visited are reached from all nodes on the stack. *)
Definition reached (g : Graph T) (ns : gset T) (s : state T) : Prop :=
  forall k n, k ∈ nodeVisitStack s -> n ∈ ns -> path g k n.

Definition visits (g : Graph T) (s s' : state T) : Prop :=
  unmarkedNodes s' ⊆ unmarkedNodes s /\ nodeVisitStack s' = nodeVisitStack s /\ (exists ext, solution s' = solution s ++ ext).

Definition remaining (s : state T) : nat := size (unmarkedNodes s ∖ nodeVisitStack s).

Lemma search_push g n s : search g s -> n ∈ unmarkedNodes s -> search g (push n s).
Proof. intros [H1 H2 H3 H4] Hn. split; cbn; [set_solver|done..]. Qed.

Lemma reached_push g n ns s : reached g ns s -> n ∈ ns -> reached g (succs g n) (push n s).
Proof.
  intros Hr Hn k m Hk Hm. cbn in Hk. apply elem_of_union in Hk as [->%elem_of_singleton|Hk]; [by apply path_edge|].
  eapply path_step; [by apply Hr|done].
Qed.

Lemma remaining_push n s : n ∈ unmarkedNodes s -> n ∉ nodeVisitStack s -> remaining (push n s) < remaining s.
Proof. intros H1 H2. unfold remaining. apply subset_size. cbn. set_solver. Qed.

(** After the nodes that [n] points to. *)
Lemma search_finish g n s : search g s -> n ∈ dom (nodes g) -> graphOk g -> (forall b, b ∈ succs g n -> b ∉ unmarkedNodes s) -> search g (finish n s).
Proof.
  intros [H1 H2 H3 H4] Hn Hg Hs. split; cbn.
  - set_solver.
  - set_solver.
  - intros m. rewrite elem_of_app, H3, list_elem_of_singleton. destruct (decide (m = n)) as [->|]; set_solver.
  - apply ordered_snoc; [done|]. intros b Hb. apply H3. apply elem_of_difference. split; [by eapply Hg|by apply Hs].
Qed.

Lemma visits_trans g s1 s2 s3 : visits g s1 s2 -> visits g s2 s3 -> visits g s1 s3.
Proof.
  intros (H1 & H2 & e1 & H3) (H4 & H5 & e2 & H6). split_and!; [set_solver|congruence|]. exists (e1 ++ e2). by rewrite H6, H3, app_assoc.
Qed.

(** A nested visit of a node that is not on the stack. *)
Lemma visits_node g n s s' : n ∉ nodeVisitStack s -> visits g (push n s) s' -> visits g s (finish n s').
Proof.
  intros Hn (H1 & H2 & e & H3). cbn in *. split_and!; cbn; [set_solver|rewrite H2; set_solver|]. exists (e ++ [n]). by rewrite H3, app_assoc.
Qed.

Lemma remaining_visits g s s' : visits g s s' -> remaining s' <= remaining s.
Proof. intros (H1 & H2 & _). unfold remaining. rewrite H2. apply subseteq_size. set_solver. Qed.

(** What a visit of [ns] does; each node is returned [once], or perhaps more often. *)
Definition visited (once : Prop) (g : Graph T) (ns : T -> Prop) (s : state T) (r : outcome T) : Prop :=
  match r with
  | None => False
  | Some (Err e) => e = ErrCycle /\ cyclic g
  | Some (Ok s') =>
      search g s' /\ visits g s s' /\ (forall n, ns n -> n ∉ unmarkedNodes s') /\ (once -> NoDup (solution s) -> NoDup (solution s'))
  end.

Section any.
Variable order : nat -> list T -> list T.
Hypothesis order_perm : forall k l, order k l ≡ₚ l.
Variable g : Graph T.
Hypothesis g_ok : graphOk g.

Lemma visitLoop_ok visit f l : forall s ns,
  (forall n s, search g s -> reached g (succs g n) s -> remaining s < f -> visited True g (fun m => m ∈ succs g n) s (visit (succs g n) s)) ->
  (forall n, n ∈ l -> n ∈ ns) -> search g s -> reached g ns s -> remaining s <= f ->
  visited True g (fun n => n ∈ l) s (visitLoop g visit l s).
Proof.
  induction l as [|n l IH]; intros s ns Hvisit Hns Hs Hr Hf; cbn [visitLoop].
  { split_and!; [done|split_and!; [done..|exists []; by rewrite app_nil_r]|set_solver|done]. }
  destruct (decide (n ∉ unmarkedNodes s)) as [Hn|Hn].
  - specialize (IH s ns Hvisit ltac:(set_solver) Hs Hr Hf). destruct (visitLoop g visit l s) as [[s'|e]|]; [|done..].
    destruct IH as (Q1 & Q2 & Q3 & Q4). split_and!; [done..| |done]. intros m [->|Hm]%elem_of_cons; [|by apply Q3]. destruct Q2 as (Q2 & _). set_solver.
  - apply dec_stable in Hn. destruct (decide (n ∈ nodeVisitStack s)) as [Hk|Hk].
    { split; [done|]. exists n. apply Hr; [done|apply Hns; by left]. }
    pose proof (remaining_push n s Hn Hk). pose proof (Hvisit n (push n s) (search_push g n s Hs Hn)
      (reached_push g n ns s Hr (Hns n (list_elem_of_here _ _))) ltac:(lia)) as Hv.
    destruct (visit (succs g n) (push n s)) as [[s1|e]|]; cbn [mbind option_bind]; [|done..]. destruct Hv as (Hs1 & Hv1 & Hm1 & Hnd1).
    assert (visits g s (finish n s1)) as Hv by (by apply visits_node). assert (search g (finish n s1)) as Hs2.
    { apply search_finish; [done|by apply (s_unmarked g s Hs)|done|done]. }
    pose proof (remaining_visits _ _ _ Hv). specialize (IH (finish n s1) ns Hvisit ltac:(set_solver) Hs2).
    assert (reached g ns (finish n s1)) as Hr2 by (intros k m Hk' Hm; apply Hr; [destruct Hv as (_ & Heq & _); by rewrite Heq in Hk'|done]).
    specialize (IH Hr2 ltac:(lia)). destruct (visitLoop g visit l (finish n s1)) as [[s'|e]|]; [|done..].
    destruct IH as (Q1 & Q2 & Q3 & Q4). split_and!; [done|by eapply visits_trans| |].
    + intros m [->|Hm]%elem_of_cons; [|by apply Q3]. destruct Q2 as (Q2 & _). cbn in Q2. set_solver.
    + intros _ Hnd. apply Q4; [done|]. cbn. apply NoDup_app. split_and!; [by apply Hnd1| |apply NoDup_singleton].
      intros m Hm ->%list_elem_of_singleton. apply (s_done g s1 Hs1) in Hm.
      destruct Hv1 as (_ & HK & _). pose proof (s_stack g s1 Hs1). cbn in HK. set_solver.
Qed.

Lemma visit_ok f ns s : search g s -> reached g ns s -> remaining s < f -> visited True g (fun n => n ∈ ns) s (visit order g f ns s).
Proof.
  revert ns s. induction f as [|f IH]; intros ns s Hs Hr Hf; [lia|]. cbn [visit].
  pose proof (visitLoop_ok (visit order g f) f (order (iterations s) (elements ns)) (iterate s) ns) as Hloop.
  specialize (Hloop ltac:(intros n s' ? ? ?; by apply IH)).
  assert (visited True g (fun n => n ∈ order (iterations s) (elements ns)) (iterate s) (visitLoop g (visit order g f) (order (iterations s) (elements ns)) (iterate s))) as Hv.
  { apply Hloop; [|by destruct Hs|done|unfold remaining in *; cbn; lia]. intros n. rewrite order_perm, elem_of_elements. done. }
  destruct (visitLoop _ _ _ _) as [[s'|e]|]; [|done..]. destruct Hv as (Q1 & Q2 & Q3 & Q4). split_and!; [done..| |done].
  intros n Hn. apply Q3. by rewrite order_perm, elem_of_elements.
Qed.

End any.

(** The search at its beginning. *)
Lemma search_start g : search g (mkState (dom (nodes g)) ∅ [] 0).
Proof. split; cbn; [set_solver|done|set_solver|]. intros i a b Hi. done. Qed.

Lemma remaining_start g : remaining (mkState (dom (nodes g)) ∅ [] 0) < S (size (dom (nodes g))).
Proof. unfold remaining. cbn. rewrite difference_empty_L. lia. Qed.

(** C34: For every iteration order of the maps, [TopologicalOrder] terminates, and
    returns each node exactly once and after all the nodes it points to, or an error if
    and only if the graph has a cycle. *)
Theorem TopologicalOrder_correct (order : nat -> list T -> list T) g :
  (forall k l, order k l ≡ₚ l) -> graphOk g ->
  match TopologicalOrder order g with
  | Some (Ok l) => NoDup l /\ (forall n, n ∈ l <-> n ∈ dom (nodes g)) /\ ordered g l /\ ~ cyclic g
  | Some (Err e) => e = ErrCycle /\ cyclic g
  | None => False
  end.
Proof.
  intros Hperm Hg. unfold TopologicalOrder.
  pose proof (visit_ok order Hperm g Hg (S (size (dom (nodes g)))) (dom (nodes g)) _ (search_start g) ltac:(intros k n Hk; set_solver) (remaining_start g)) as Hv.
  destruct (visit _ _ _ _ _) as [[s|e]|]; cbn; [|done|done].
  destruct Hv as (Hs & _ & Hall & Hnd). assert (forall n, n ∈ solution s <-> n ∈ dom (nodes g)) as Hn.
  { intros n. rewrite (s_done g s Hs). pose proof (s_unmarked g s Hs). set_solver. }
  split_and!; [|done|apply Hs|eapply ordered_acyclic; [apply Hs|by apply Hn]].
  apply Hnd; [done|constructor].
Qed.

(** ** The deterministic variant *)

Section det.
Context (le : T -> T -> Prop) `{le_dec : forall a b, Decision (le a b)}.
Variable g : Graph T.
Hypothesis g_ok : graphOk g.

Lemma elem_of_sortedOrder ns s n : n ∈ sortedOrder le ns s <-> n ∈ ns /\ n ∈ unmarkedNodes s.
Proof. unfold sortedOrder. rewrite merge_sort_Permutation, list_elem_of_filter, elem_of_elements. naive_solver. Qed.

(** A node that is marked already is visited once more, without effect on others. *)
Lemma revisit f n s : search g s -> n ∈ dom (nodes g) -> n ∉ unmarkedNodes s -> 1 <= f ->
  detVisit le g f (succs g n) (push n s) = Some (Ok (push n s)) /\ search g (finish n (push n s)) /\ visits g s (finish n (push n s)).
Proof.
  intros Hs Hd Hn Hf. assert (n ∈ solution s) as Hsol by (apply (s_done g s Hs); set_solver).
  assert (forall b, b ∈ succs g n -> b ∉ unmarkedNodes s) as Hb.
  { intros b Hb. pose proof (ordered_closed g _ n b (s_ordered g s Hs) Hsol Hb) as Hin. apply (s_done g s Hs) in Hin. set_solver. }
  destruct f as [|f]; [lia|]. cbn [detVisit]. assert (sortedOrder le (succs g n) (push n s) = []) as ->.
  { destruct (sortedOrder le (succs g n) (push n s)) as [|b l] eqn:E; [done|]. assert (b ∈ sortedOrder le (succs g n) (push n s)) as Hin by (rewrite E; by left).
    apply elem_of_sortedOrder in Hin as [Hbs Hbu]. by destruct (Hb b Hbs). }
  pose proof (s_stack g s Hs) as HK. split_and!; [done| |].
  - destruct Hs as [H1 H2 H3 H4]. split; cbn; [set_solver|set_solver| |apply ordered_snoc; [done|intros b Hbs; by eapply ordered_closed]].
    intros m. rewrite elem_of_app, H3, list_elem_of_singleton. destruct (decide (m = n)) as [->|]; set_solver.
  - split_and!; cbn; [set_solver|set_solver|by exists [n]].
Qed.

Lemma detLoop_ok f l : forall s ns,
  (forall n s, search g s -> reached g (succs g n) s -> remaining s < f ->
     visited False g (fun m => m ∈ succs g n) s (detVisit le g f (succs g n) s)) ->
  (forall n, n ∈ l -> n ∈ ns /\ n ∈ dom (nodes g) /\ (n ∈ nodeVisitStack s \/ 1 <= f)) -> search g s -> reached g ns s -> remaining s <= f ->
  visited False g (fun n => n ∈ l) s (detLoop g (detVisit le g f) l s).
Proof.
  induction l as [|n l IH]; intros s ns Hvisit Hns Hs Hr Hf; cbn [detLoop].
  { split_and!; [done|split_and!; [done..|exists []; by rewrite app_nil_r]|set_solver|done]. }
  destruct (Hns n (list_elem_of_here _ _)) as (Hn1 & Hn2 & Hn3). destruct (decide (n ∈ nodeVisitStack s)) as [Hk|Hk].
  { split; [done|]. exists n. by apply Hr. }
  destruct Hn3 as [?|Hf1]; [done|].
  assert (exists r, detVisit le g f (succs g n) (push n s) = Some r /\
    match r with Err e => e = ErrCycle /\ cyclic g | Ok s1 => search g (finish n s1) /\ visits g s (finish n s1) /\ n ∉ unmarkedNodes (finish n s1) end) as (r & -> & Hv).
  { destruct (decide (n ∈ unmarkedNodes s)) as [Hu|Hu].
    - pose proof (remaining_push n s Hu Hk). pose proof (Hvisit n (push n s) (search_push g n s Hs Hu) (reached_push g n ns s Hr Hn1) ltac:(lia)) as Hv.
      destruct (detVisit le g f (succs g n) (push n s)) as [[s1|e]|]; [|by eexists|done]. eexists. split; [done|]. destruct Hv as (Hs1 & Hv1 & Hm1 & _).
      split_and!; [by apply search_finish|by apply visits_node|cbn; set_solver].
    - destruct (revisit f n s Hs Hn2 Hu Hf1) as (-> & Hs1 & Hv1). eexists. split; [done|]. split_and!; [done..|cbn; set_solver]. }
  cbn [mbind option_bind]. destruct r as [s1|e]; [|done]. destruct Hv as (Hs2 & Hv & Hnu). pose proof (remaining_visits _ _ _ Hv).
  assert (nodeVisitStack (finish n s1) = nodeVisitStack s) as HK by (by destruct Hv as (_ & ? & _)).
  specialize (IH (finish n s1) ns Hvisit). assert (visited False g (fun n => n ∈ l) (finish n s1) (detLoop g (detVisit le g f) l (finish n s1))) as Hrest.
  { apply IH; [|done| |lia].
    - intros m Hm. destruct (Hns m (list_elem_of_further _ _ _ Hm)) as (? & ? & _). auto.
    - intros k m Hk' Hm. rewrite HK in Hk'. by apply Hr. }
  destruct (detLoop g (detVisit le g f) l (finish n s1)) as [[s'|e]|]; [|done..]. destruct Hrest as (Q1 & Q2 & Q3 & _).
  split_and!; [done|by eapply visits_trans| |done]. intros m [->|Hm]%elem_of_cons; [|by apply Q3]. destruct Q2 as (Q2 & _). set_solver.
Qed.

Lemma detVisit_ok f ns s : search g s -> reached g ns s -> remaining s < f -> visited False g (fun n => n ∈ ns) s (detVisit le g f ns s).
Proof.
  revert ns s. induction f as [|f IH]; intros ns s Hs Hr Hf; [lia|]. cbn [detVisit].
  pose proof (detLoop_ok f (sortedOrder le ns s) s ns ltac:(intros n s' ? ? ?; by apply IH)) as Hloop.
  assert (visited False g (fun n => n ∈ sortedOrder le ns s) s (detLoop g (detVisit le g f) (sortedOrder le ns s) s)) as Hv.
  { apply Hloop; [|done|done|lia]. intros n [Hn Hu]%elem_of_sortedOrder. split_and!; [done|by apply (s_unmarked g s Hs)|].
    destruct (decide (n ∈ nodeVisitStack s)) as [|Hk]; [by left|right]. pose proof (remaining_push n s Hu Hk). lia. }
  destruct (detLoop _ _ _ _) as [[s'|e]|]; [|done..]. destruct Hv as (Q1 & Q2 & Q3 & _). split_and!; [done..| |done].
  intros n Hn. destruct (decide (n ∈ unmarkedNodes s)) as [Hu|Hu]; [apply Q3, elem_of_sortedOrder; done|]. destruct Q2 as (Q2 & _). set_solver.
Qed.

Lemma DetTopologicalOrder_ok :
  match DetTopologicalOrder le g with
  | Some (Ok l) => (forall n, n ∈ l <-> n ∈ dom (nodes g)) /\ ordered g l /\ ~ cyclic g
  | Some (Err e) => e = ErrCycle /\ cyclic g
  | None => False
  end.
Proof.
  unfold DetTopologicalOrder.
  pose proof (detVisit_ok (S (size (dom (nodes g)))) (dom (nodes g)) _ (search_start g) ltac:(intros k n Hk; set_solver) (remaining_start g)) as Hv.
  destruct (detVisit _ _ _ _ _) as [[s|e]|]; cbn; [|done|done]. destruct Hv as (Hs & _ & Hall & _).
  assert (forall n, n ∈ solution s <-> n ∈ dom (nodes g)) as Hn.
  { intros n. rewrite (s_done g s Hs). pose proof (s_unmarked g s Hs). set_solver. }
  split_and!; [done|apply Hs|eapply ordered_acyclic; [apply Hs|by apply Hn]].
Qed.

(** ** Nodes that are returned twice *)

Lemma detLoop_app visit l1 l2 s :
  detLoop g visit (l1 ++ l2) s = (r ← detLoop g visit l1 s; match r with Err e => Some (Err e) | Ok s => detLoop g visit l2 s end).
Proof.
  revert s. induction l1 as [|n l1 IH]; intros s; cbn [detLoop app]; [done|]. case_decide; [done|].
  destruct (visit (succs g n) (push n s)) as [[s1|e]|]; cbn [mbind option_bind]; [apply IH|done..].
Qed.

Lemma detLoop_ext visit l : (forall ns s, match visit ns s with Some (Ok s') => exists x, solution s' = solution s ++ x | _ => True end) ->
  forall s, match detLoop g visit l s with Some (Ok s') => exists x, solution s' = solution s ++ x | _ => True end.
Proof.
  intros Hv. induction l as [|n l IH]; intros s; cbn [detLoop]; [exists []; by rewrite app_nil_r|]. case_decide; [done|].
  specialize (Hv (succs g n) (push n s)). destruct (visit (succs g n) (push n s)) as [[s1|e]|]; cbn [mbind option_bind]; [|done..].
  specialize (IH (finish n s1)). destruct (detLoop g visit l (finish n s1)) as [[s'|e]|]; [|done..].
  destruct Hv as [x Hx], IH as [y Hy]. exists (x ++ [n] ++ y). rewrite Hy. cbn. rewrite Hx. cbn. by rewrite <- !app_assoc.
Qed.

Lemma detVisit_ext f ns s : match detVisit le g f ns s with Some (Ok s') => exists x, solution s' = solution s ++ x | _ => True end.
Proof. revert ns s. induction f as [|f IH]; intros ns s; cbn [detVisit]; [done|]. by apply detLoop_ext. Qed.

Lemma sortedOrder_before `{!Total le, !Transitive le, !AntiSymm (=) le} ns s a b :
  a ∈ ns -> b ∈ ns -> a ∈ unmarkedNodes s -> b ∈ unmarkedNodes s -> le a b -> a <> b ->
  exists l1 l2 l3, sortedOrder le ns s = l1 ++ a :: l2 ++ b :: l3.
Proof.
  intros Ha Hb Ua Ub Hle Hne. pose proof (StronglySorted_merge_sort le (filter (fun n => n ∈ unmarkedNodes s) (elements ns))) as Hs. fold (sortedOrder le ns s) in Hs.
  assert (b ∈ sortedOrder le ns s) as (l1 & l3 & E)%list_elem_of_split by (by apply elem_of_sortedOrder).
  assert (a ∈ sortedOrder le ns s) as Hin by (by apply elem_of_sortedOrder). rewrite E in Hin, Hs.
  apply elem_of_app in Hin as [(k1 & k2 & ->)%list_elem_of_split|[->|Hin]%elem_of_cons]; [|done|].
  - exists k1, k2, l3. rewrite E. by rewrite <- app_assoc.
  - exfalso. apply Hne, (anti_symm le); [done|]. apply StronglySorted_app in Hs as (_ & _ & Hs).
    apply StronglySorted_inv in Hs as [_ Hs]. rewrite Forall_forall in Hs. by apply Hs.
Qed.

Lemma detLoop_start l : (forall n, n ∈ l -> n ∈ dom (nodes g)) ->
  visited False g (fun n => n ∈ l) (mkState (dom (nodes g)) ∅ [] 0) (detLoop g (detVisit le g (size (dom (nodes g)))) l (mkState (dom (nodes g)) ∅ [] 0)).
Proof.
  intros Hl. apply (detLoop_ok _ _ _ (dom (nodes g))); [intros; by apply detVisit_ok| |apply search_start|intros k n Hk; set_solver|pose proof (remaining_start g); lia].
  intros n Hn. split_and!; [by apply Hl..|right]. apply Hl in Hn. destruct (size (dom (nodes g))) eqn:E; [|lia].
  apply size_empty_inv in E. set_solver.
Qed.

(** An edge from a node to a greater one has the greater one returned twice. *)
Lemma DetTopologicalOrder_twice `{!Total le, !Transitive le, !AntiSymm (=) le} a b :
  b ∈ succs g a -> le a b -> ~ cyclic g ->
  exists l1 l2 l3, DetTopologicalOrder le g = Some (Ok (l1 ++ b :: l2 ++ b :: l3)).
Proof.
  intros Hab Hle Hac. assert (a <> b) as Hne by (intros ->; apply Hac; exists b; by apply path_edge).
  pose proof DetTopologicalOrder_ok as Hok. pose proof detLoop_start as Hstart. unfold DetTopologicalOrder in *.
  set (s0 := mkState _ _ _ _) in *. set (f := size _) in *. cbn [detVisit] in *.
  destruct (sortedOrder_before (dom (nodes g)) s0 a b) as (l1 & l2 & l3 & E); [by eapply succs_dom|by eapply g_ok|by eapply succs_dom|by eapply g_ok|done|done|].
  change (a :: l2 ++ b :: l3) with ((a :: l2) ++ b :: l3) in E. rewrite app_assoc in E.
  assert (forall n, n ∈ l1 ++ a :: l2 -> n ∈ dom (nodes g)) as Hl.
  { intros n Hn. apply (elem_of_sortedOrder (dom (nodes g)) s0). rewrite E. apply elem_of_app. by left. }
  specialize (Hstart _ Hl). rewrite E, detLoop_app in Hok |- *. clear E Hl.
  destruct (detLoop g (detVisit le g f) (l1 ++ a :: l2) s0) as [[s1|e]|]; cbn [mbind option_bind] in *; [|by destruct Hstart|done].
  destruct Hstart as (Hs1 & (_ & HK & _) & Hm & _). assert (a ∈ solution s1) as Ha.
  { apply (s_done g s1 Hs1). apply elem_of_difference. split; [by eapply succs_dom|apply Hm; set_solver]. }
  assert (b ∈ solution s1) as (p & q & Eb)%list_elem_of_split by (by eapply ordered_closed; [apply Hs1|..]).
  cbn [detLoop] in *. rewrite decide_False in Hok |- * by (rewrite HK; set_solver).
  pose proof (detVisit_ext f (succs g b) (push b s1)) as Hx.
  destruct (detVisit le g f (succs g b) (push b s1)) as [[s2|e]|]; cbn [mbind option_bind] in *; [|by destruct Hok|done].
  pose proof (detLoop_ext (detVisit le g f) l3 (detVisit_ext f) (finish b s2)) as Hy.
  destruct (detLoop g (detVisit le g f) l3 (finish b s2)) as [[s'|e]|]; cbn in *; [|by destruct Hok|done].
  destruct Hx as [x Hx], Hy as [y Hy]. exists p, (q ++ x), y. do 2 f_equal. rewrite Hy, Hx, Eb. by simplify_list_eq.
Qed.

End det.

End props.
End ToposortProps.
