(* ===== verification/NetAddr.v ===== *)
(** * Addresses of Go's [net] package

    What the code uses of [net] and [net/netip]: the text forms of IP addresses,
    prefixes and hardware addresses, and masks.  A [net.IP] is a slice of bytes; the
    parsers return 16 bytes, with IPv4 addresses mapped into IPv6.  A zone makes
    [ParseIP] and [ParseCIDR] fail, so addresses with zones do not occur. *)

From S2P Require Import Prelude GoStrings Bytes.
From Stdlib Require Import ZArith.

Module NetAddr.
Import Bytes.
Open Scope Z_scope.

Definition byteOf (c : ascii) : Z := Z.of_N (N_of_ascii c).
Definition bytesOf (s : string) : bytes := byteOf <$> bytes_of s.

Definition cDot : Z := 46.
Definition cColon : Z := 58.
Definition cPercent : Z := 37.
Definition cDash : Z := 45.

Definition digit (c : Z) : option Z := if (48 <=? c) && (c <=? 57) then Some (c - 48) else None.
Definition hexDigit (c : Z) : option Z :=
  if (48 <=? c) && (c <=? 57) then Some (c - 48)
  else if (97 <=? c) && (c <=? 102) then Some (c - 97 + 10)
  else if (65 <=? c) && (c <=? 70) then Some (c - 65 + 10)
  else None.

(** ** Addresses *)

(** [parseIPv4Fields]: the octet so far and its number of digits; the octets before. *)
Fixpoint ipv4Fields (s : bytes) (val digLen : Z) (fields : bytes) : option bytes :=
  match s with
  | [] => if (digLen =? 0) || negb (len fields =? 3) then None else Some (fields ++ [val])
  | c :: s =>
      match digit c with
      | Some d =>
          if (digLen =? 1) && (val =? 0) then None
          else let val := val * 10 + d in
          if 255 <? val then None else ipv4Fields s val (digLen + 1) fields
      | None =>
          if negb (c =? cDot) || (digLen =? 0) || (len fields =? 3) then None
          else ipv4Fields s 0 0 (fields ++ [val])
      end
  end.
Definition parseIPv4Fields (s : bytes) : option bytes := ipv4Fields s 0 0 [].

Definition v4InV6Prefix : bytes := zeros 10 ++ [255; 255].

(** A number of up to four hexadecimal digits: the digits read, the value, the rest. *)
Fixpoint hexGroup (s : bytes) (off acc : Z) : option (Z * Z * bytes) :=
  match s with
  | [] => Some (off, acc, [])
  | c :: r =>
      match hexDigit c with
      | None => Some (off, acc, s)
      | Some d => if 3 <? off then None else hexGroup r (off + 1) (acc * 16 + d)
      end
  end.

(** The groups of an address: the bytes so far and the position of the ellipsis.  Every
    round adds at least two bytes, so there are at most eight. *)
Fixpoint ipv6Groups (fuel : nat) (s ip : bytes) (ellipsis : option nat) : option (bytes * bytes * option nat) :=
  match fuel with
  | O => Some (s, ip, ellipsis)
  | S fuel =>
      '(off, acc, rest) ← hexGroup s 0 0;
      if off =? 0 then None
      else match rest with
      | [] => Some ([], ip ++ [acc / 256; acc mod 256], ellipsis)
      | c :: rest1 =>
          if c =? cDot then
            if bool_decide (ellipsis = None) && negb (len ip =? 12) then None
            else if 16 <? len ip + 4 then None
            else fields ← parseIPv4Fields s; Some ([], ip ++ fields, ellipsis)
          else
            let ip := ip ++ [acc / 256; acc mod 256] in
            if negb (c =? cColon) then None
            else match rest1 with
            | [] => None
            | c1 :: rest2 =>
                if c1 =? cColon then
                  if bool_decide (ellipsis <> None) then None
                  else match rest2 with
                  | [] => Some ([], ip, Some (length ip))
                  | _ => ipv6Groups fuel rest2 ip (Some (length ip))
                  end
                else ipv6Groups fuel rest1 ip ellipsis
            end
      end
  end.

Definition leadingEllipsis (s : bytes) : bytes * option nat :=
  match s with
  | c0 :: c1 :: r => if (c0 =? cColon) && (c1 =? cColon) then (r, Some 0%nat) else (s, None)
  | _ => (s, None)
  end.

Definition parseIPv6 (s : bytes) : option bytes :=
  if bool_decide (cPercent ∈ s) then None
  else
    let '(s, ellipsis) := leadingEllipsis s in
    if bool_decide (ellipsis = Some 0%nat) && bool_decide (s = []) then Some (zeros 16)
    else
      '(s, ip, ellipsis) ← ipv6Groups 8 s [] ellipsis;
      if negb (bool_decide (s = [])) then None
      else if len ip <? 16 then
        e ← ellipsis; Some (take e ip ++ zeros (16 - length ip) ++ drop e ip)
      else if bool_decide (ellipsis <> None) then None
      else Some ip.

(** [netip.ParseAddr]: whether the address is an IPv4 address, and its 16 bytes. *)
Definition isSep (c : Z) : bool := (c =? cDot) || (c =? cColon) || (c =? cPercent).
Definition ParseAddr (s : bytes) : option (bool * bytes) :=
  c ← head (filter isSep s);
  if c =? cDot then (fun f => (true, v4InV6Prefix ++ f)) <$> parseIPv4Fields s
  else if c =? cColon then (fun ip => (false, ip)) <$> parseIPv6 s
  else None.

Definition ParseIP (s : string) : option bytes := snd <$> ParseAddr (bytesOf s).

(** [net.IP.To4]; nil is [None]. *)
Definition To4 (ip : bytes) : option bytes :=
  if len ip =? 4 then Some ip
  else if (len ip =? 16) && bool_decide (take 12 ip = v4InV6Prefix) then Some (drop 12 ip)
  else None.

(** ** Masks *)

Fixpoint maskBytes (l : nat) (ones : Z) : bytes :=
  match l with
  | O => []
  | S l => if 8 <=? ones then 255 :: maskBytes l (ones - 8) else (255 - Z.shiftr 255 ones) :: maskBytes l 0
  end.
Definition CIDRMask (ones bits : Z) : bytes := maskBytes (Z.to_nat (bits / 8)) ones.

(** [IPMask.Size]: leading ones and bits, or zeroes for a mask that has ones after. *)
Definition maskSize (m : bytes) : Z * Z :=
  match List.find (fun k => bool_decide (m = CIDRMask (Z.of_nat k) (8 * len m))) (seq 0 (S (8 * length m))) with
  | Some k => (Z.of_nat k, 8 * len m)
  | None => (0, 0)
  end.

(** [IP.Mask], for the combinations of lengths that are not both shorter. *)
Definition maskIP (ip mask : bytes) : option bytes :=
  let mask := if (len mask =? 16) && (len ip =? 4) && bool_decide (take 12 mask = replicate 12 255) then drop 12 mask else mask in
  let ip := if (len mask =? 4) && (len ip =? 16) && bool_decide (take 12 ip = v4InV6Prefix) then drop 12 ip else ip in
  if negb (len ip =? len mask) then None else Some (zip_with Z.land ip mask).

Definition equalIP (ip x : bytes) : bool :=
  if len ip =? len x then bool_decide (ip = x)
  else if (len ip =? 4) && (len x =? 16) then bool_decide (take 12 x = v4InV6Prefix) && bool_decide (ip = drop 12 x)
  else if (len ip =? 16) && (len x =? 4) then bool_decide (take 12 ip = v4InV6Prefix) && bool_decide (drop 12 ip = x)
  else false.

Record IPNet := mkIPNet { IP : bytes; Mask : bytes }.
#[export] Instance IPNet_eq_dec : EqDecision IPNet.
Proof. solve_decision. Defined.

(** [dtoi], for all of a string: at least one digit, below 2^24 - 1. *)
Fixpoint dtoiFrom (s : bytes) (n : Z) : option Z :=
  match s with
  | [] => Some n
  | c :: s => d ← digit c; let n := n * 10 + d in if 16777215 <=? n then None else dtoiFrom s n
  end.
Definition dtoi (s : bytes) : option Z := if bool_decide (s = []) then None else dtoiFrom s 0.

(** [strings.Cut] at the first slash. *)
Fixpoint cutSlash (s : bytes) : option (bytes * bytes) :=
  match s with
  | [] => None
  | c :: s => if c =? 47 then Some ([], s) else '(a, m) ← cutSlash s; Some (c :: a, m)
  end.

(** [net.ParseCIDR]: the address and the mask of the network. *)
Definition ParseCIDR (s : string) : option IPNet :=
  '(addr, mask) ← cutSlash (bytesOf s);
  '(is4, ip) ← ParseAddr addr;
  n ← dtoi mask;
  let bits := if is4 : bool then 32 else 128 in
  if bits <? n then None else Some (mkIPNet ip (CIDRMask n bits)).

(** ** Hardware addresses *)

(** [xtoi2(s, e)]. *)
Definition xtoi2 (s : bytes) (e : Z) : option Z :=
  match s with
  | a :: b :: r =>
      if match r with c :: _ => negb (c =? e) | [] => false end then None
      else x ← hexDigit a; y ← hexDigit b; Some (x * 16 + y)
  | _ => None
  end.

Definition macLength (n : Z) : bool := (n =? 6) || (n =? 8) || (n =? 20).

Definition ParseMAC (s : string) : option bytes :=
  let s := bytesOf s in
  if len s <? 14 then None
  else
    let c2 := nth 2 s 0 in let c4 := nth 4 s 0 in
    if (c2 =? cColon) || (c2 =? cDash) then
      let n := (len s + 1) / 3 in
      if negb ((len s + 1) mod 3 =? 0) || negb (macLength n) then None
      else mapM (fun i => xtoi2 (drop (3 * i) s) c2) (seq 0 (Z.to_nat n))
    else if c4 =? cDot then
      let n := 2 * (len s + 1) / 5 in
      if negb ((len s + 1) mod 5 =? 0) || negb (macLength n) then None
      else @concat Z <$> mapM (fun i =>
        a ← xtoi2 (take 2 (drop (5 * i) s)) 0; b ← xtoi2 (drop (5 * i + 2) s) c4; Some [a; b]) (seq 0 (Z.to_nat (n / 2)))
    else None.

(** ** Well-formedness *)

Lemma digit_bound c d : digit c = Some d -> 0 <= d <= 9.
Proof. unfold digit. destruct (_ && _) eqn:E; [|done]. intros [= <-]. lia. Qed.

Lemma hexDigit_bound c d : hexDigit c = Some d -> 0 <= d <= 15.
Proof. 
  unfold hexDigit. destruct (_ && _) eqn:E1; [intros [= <-]; lia|]. destruct (_ && _) eqn:E2 in |- *; [intros [= <-]; lia|].
  destruct (_ && _) eqn:E3 in |- *; [intros [= <-]; lia|done].
Qed.

Lemma ipv4Fields_wf s : forall val digLen fields r, 0 <= val < 256 -> isBytes fields ->
  ipv4Fields s val digLen fields = Some r -> length r = 4%nat /\ isBytes r.
Proof.
  induction s as [|c s IH]; intros val digLen fields r Hv Hf; cbn [ipv4Fields].
  - destruct (digLen =? 0); [done|]. destruct (len fields =? 3) eqn:E; [|done]. intros [= <-]. unfold len in E. rewrite length_app. cbn.
    split; [lia|]. apply Forall_app. split; [done|by apply Forall_singleton].
  - destruct (digit c) as [d|] eqn:Ed.
    + destruct (_ && _); [done|]. apply digit_bound in Ed. destruct (255 <? _) eqn:E; [done|]. apply IH; [lia|done].
    + destruct (_ || _); [done|]. apply IH; [lia|]. apply Forall_app. split; [done|by apply Forall_singleton].
Qed.

Lemma parseIPv4Fields_wf s r : parseIPv4Fields s = Some r -> length r = 4%nat /\ isBytes r.
Proof. apply ipv4Fields_wf; [lia|constructor]. Qed.

Lemma hexGroup_bound s : forall off acc off' acc' r, 0 <= off <= 4 -> 0 <= acc < 16 ^ off -> hexGroup s off acc = Some (off', acc', r) -> 0 <= acc' < 65536.
Proof.
  assert (forall off, 0 <= off <= 4 -> 16 ^ off <= 65536) as Hp by (intros off Ho; change 65536 with (16 ^ 4); apply Z.pow_le_mono_r; lia).
  induction s as [|c s IH]; intros off acc off' acc' r Ho Ha; cbn [hexGroup]; [intros [= <- <- <-]; specialize (Hp off Ho); lia|].
  destruct (hexDigit c) as [d|] eqn:Ed; [|intros [= <- <- <-]; specialize (Hp off Ho); lia].
  destruct (3 <? off) eqn:E; [done|]. apply hexDigit_bound in Ed. apply IH; [lia|]. rewrite Z.pow_add_r by lia. lia.
Qed.

Lemma chunk_wf acc : 0 <= acc < 65536 -> isBytes [acc / 256; acc mod 256].
Proof.
  intros Ha. apply Forall_cons. split; [split; [apply Z.div_pos; lia|apply Z.div_lt_upper_bound; lia]|]. apply Forall_singleton, Z.mod_pos_bound. lia.
Qed.

Lemma ipv6Groups_wf fuel : forall s ip e s' ip' e', isBytes ip -> (length ip + 2 * fuel <= 16)%nat ->
  ipv6Groups fuel s ip e = Some (s', ip', e') -> isBytes ip' /\ (length ip' <= 16)%nat.
Proof.
  induction fuel as [|fuel IH]; intros s ip e s' ip' e' Hip Hl; cbn [ipv6Groups]; [intros [= <- <- <-]; split; [done|lia]|].
  destruct (hexGroup s 0 0) as [[[off acc] rest]|] eqn:Eg; cbn [mbind option_bind]; [|done]. apply hexGroup_bound in Eg; [|lia..].
  assert (isBytes (ip ++ [acc / 256; acc mod 256])) as Hip' by (apply Forall_app; split; [done|by apply chunk_wf]).
  assert (length (ip ++ [acc / 256; acc mod 256]) = (length ip + 2)%nat) as Hl' by (by rewrite length_app).
  destruct (off =? 0); [done|]. destruct rest as [|c rest1]; [intros [= <- <- <-]; split; [done|lia]|]. destruct (c =? cDot).
  - destruct (_ && _); [done|]. destruct (16 <? _) eqn:E16; [done|]. destruct (parseIPv4Fields s) as [f|] eqn:E4; cbn [mbind option_bind]; [|done].
    apply parseIPv4Fields_wf in E4 as [E4 Hf]. intros [= <- <- <-]. unfold len in E16. rewrite length_app. split; [by apply Forall_app|lia].
  - destruct (negb _); [done|]. destruct rest1 as [|c1 rest2]; [done|]. destruct (c1 =? cColon).
    + case_bool_decide; [done|]. destruct rest2; [intros [= <- <- <-]; split; [done|lia]|]. apply IH; [done|lia].
    + apply IH; [done|lia].
Qed.

Lemma zeros_wf n : isBytes (zeros n).
Proof. apply Forall_replicate. unfold isByte. lia. Qed.

Lemma parseIPv6_wf s ip : parseIPv6 s = Some ip -> length ip = 16%nat /\ isBytes ip.
Proof.
  unfold parseIPv6. case_bool_decide; [done|]. destruct (leadingEllipsis s) as [s1 e1]. destruct (_ && _); [intros [= <-]; split; [done|apply zeros_wf]|].
  destruct (ipv6Groups 8 s1 [] e1) as [[[s2 ip2] e2]|] eqn:Eg; cbn [mbind option_bind]; [|done].
  apply ipv6Groups_wf in Eg as [Hb Hl]; [|constructor|done]. destruct (negb _); [done|]. unfold len. destruct (_ <? _) eqn:E16.
  - destruct e2 as [e|]; cbn [mbind option_bind]; [|done]. intros [= <-]. split.
    + unfold zeros. rewrite !length_app, length_replicate, length_take, length_drop. lia.
    + repeat apply Forall_app_2; [by apply Forall_take|apply zeros_wf|by apply Forall_drop].
  - case_bool_decide; [done|]. intros [= <-]. split; [lia|done].
Qed.

(** Addresses have 16 bytes; IPv4 addresses are mapped. *)
Lemma ParseAddr_wf s is4 ip : ParseAddr s = Some (is4, ip) -> length ip = 16%nat /\ isBytes ip /\ (is4 = true -> take 12 ip = v4InV6Prefix).
Proof.
  unfold ParseAddr. destruct (head _) as [c|]; cbn [mbind option_bind]; [|done]. destruct (c =? cDot).
  - destruct (parseIPv4Fields s) as [f|] eqn:E; [|done]. intros [= <- <-]. apply parseIPv4Fields_wf in E as [E Hf]. split_and!.
    + cbn. lia.
    + by repeat (apply Forall_cons; split; [unfold isByte; lia|]).
    + done.
  - destruct (c =? cColon); [|done]. destruct (parseIPv6 s) eqn:E; [|done]. intros [= <- <-]. apply parseIPv6_wf in E as [? ?]. done.
Qed.

Lemma ParseIP_wf s ip : ParseIP s = Some ip -> length ip = 16%nat /\ isBytes ip.
Proof. unfold ParseIP. destruct (ParseAddr _) as [[is4 ip']|] eqn:E; [|done]. intros [= <-]. apply ParseAddr_wf in E. tauto. Qed.

(** A network of a family: 16 bytes, mapped for IPv4, and a contiguous mask of 32 or of 128 bits. *)
Definition familyBits (v4 : bool) : Z := if v4 then 32 else 128.
Definition netOk (v4 : bool) (n : IPNet) : Prop :=
  length (IP n) = 16%nat /\ isBytes (IP n) /\ (v4 = true -> take 12 (IP n) = v4InV6Prefix) /\
  exists ones, 0 <= ones <= familyBits v4 /\ Mask n = CIDRMask ones (familyBits v4).

(** An IPv4 address is what has no colon. *)
Definition noColon (s : bytes) : bool := bool_decide (cColon ∉ s).

Lemma digit_colon c d : digit c = Some d -> c <> cColon.
Proof. unfold digit, cColon. destruct ((48 <=? c) && (c <=? 57)) eqn:E; [|done]. lia. Qed.

Lemma ipv4Fields_noColon s val digLen fields f : ipv4Fields s val digLen fields = Some f -> cColon ∉ s.
Proof.
  revert val digLen fields. induction s as [|c s IH]; intros val digLen fields; [intros _; apply not_elem_of_nil|]. cbn [ipv4Fields]. rewrite not_elem_of_cons.
  destruct (digit c) as [d|] eqn:E.
  - destruct (_ && _); [done|]. destruct (_ <? _); [done|]. intros H%IH. split; [|done]. apply digit_colon in E. congruence.
  - destruct (Z.eqb_spec c cDot) as [->|]; [|done]. destruct (_ || _); [done|]. intros H%IH. done.
Qed.

Lemma dtoi_noColon s n : dtoi s = Some n -> cColon ∉ s.
Proof.
  unfold dtoi. case_bool_decide; [done|]. assert (forall s m, dtoiFrom s m = Some n -> cColon ∉ s) as Hf; [|apply Hf].
  clear. induction s as [|c s IH]; intros m; [intros _; apply not_elem_of_nil|]. cbn [dtoiFrom]. destruct (digit c) as [d|] eqn:E; cbn [mbind option_bind]; [|done].
  destruct (_ <=? _); [done|]. intros H%IH. apply not_elem_of_cons. apply digit_colon in E. split; [congruence|done].
Qed.

Lemma ParseAddr_family s is4 ip : ParseAddr s = Some (is4, ip) -> is4 = noColon s.
Proof.
  unfold ParseAddr, noColon. destruct (head (filter isSep s)) as [c|] eqn:Eh; cbn [mbind option_bind]; [|done]. destruct (c =? cDot).
  - destruct (parseIPv4Fields s) as [f|] eqn:E; [|done]. intros [= <- _]. apply ipv4Fields_noColon in E. by rewrite bool_decide_eq_true_2.
  - destruct (Z.eqb_spec c cColon) as [->|]; [|done]. destruct (parseIPv6 s); [|done]. intros [= <- _]. rewrite bool_decide_eq_false_2; [done|]. intros Hn. apply Hn.
    assert (cColon ∈ filter isSep s) as [_ Hi]%list_elem_of_filter; [|done]. destruct (filter isSep s); [done|]. injection Eh as ->. left.
Qed.

Lemma cutSlash_app s a m : cutSlash s = Some (a, m) -> s = a ++ 47 :: m.
Proof.
  revert a. induction s as [|c s IH]; intros a; [done|]. cbn [cutSlash]. destruct (Z.eqb_spec c 47) as [->|]; [by intros [= <- <-]|].
  destruct (cutSlash s) as [[b m']|]; cbn [mbind option_bind]; [|done]. intros [= <- <-]. by rewrite (IH b).
Qed.

Lemma dtoi_nonneg s n : dtoi s = Some n -> 0 <= n.
Proof.
  unfold dtoi. case_bool_decide; [done|]. assert (forall s m, 0 <= m -> dtoiFrom s m = Some n -> 0 <= n) as Hf; [|by apply Hf].
  clear. induction s as [|c s IH]; intros m Hm; cbn [dtoiFrom]; [intros [= <-]; done|]. destruct (digit c) as [d|] eqn:E; cbn [mbind option_bind]; [|done].
  apply digit_bound in E. destruct (_ <=? _); [done|]. apply IH. lia.
Qed.

Lemma ParseCIDR_wf s n : ParseCIDR s = Some n -> netOk (noColon (bytesOf s)) n.
Proof.
  unfold ParseCIDR. destruct (cutSlash _) as [[a m]|] eqn:Ec; cbn [mbind option_bind]; [|done]. apply cutSlash_app in Ec as ->.
  destruct (ParseAddr a) as [[is4 ip]|] eqn:Ea; cbn [mbind option_bind]; [|done]. destruct (dtoi m) as [k|] eqn:Ek; cbn [mbind option_bind]; [|done].
  assert (noColon (a ++ 47 :: m) = is4) as ->.
  { rewrite (ParseAddr_family _ _ _ Ea). apply dtoi_noColon in Ek. apply bool_decide_ext. rewrite not_elem_of_app, not_elem_of_cons. split; [tauto|]. by intros. }
  apply ParseAddr_wf in Ea as (H1 & H2 & H3). apply dtoi_nonneg in Ek. change (if is4 then 32 else 128) with (familyBits is4).
  destruct (Z.ltb_spec (familyBits is4) k); [done|]. intros [= <-]. split_and!; [done..|]. by exists k.
Qed.

(** ** Examples *)

Lemma ParseIP_examples :
  ParseIP "192.168.0.1" = Some (v4InV6Prefix ++ [192; 168; 0; 1]) /\ ParseIP "1.2.3" = None /\ ParseIP "01.2.3.4" = None /\ ParseIP "1..2.3" = None /\
  ParseIP "1.2.3.256" = None /\ ParseIP "1.2.3.4." = None /\
  ParseIP "::" = Some (zeros 16) /\ ParseIP "2001:db8::1" = Some ([32; 1; 13; 184] ++ zeros 11 ++ [1]) /\
  ParseIP "1:2:3:4:5:6:7:8" = Some [0; 1; 0; 2; 0; 3; 0; 4; 0; 5; 0; 6; 0; 7; 0; 8] /\ ParseIP "1:2:3:4:5:6:7::8" = None /\ ParseIP "1:2:3:4:5:6:7:8:9" = None /\
  ParseIP "::ffff:1.2.3.4" = ParseIP "1.2.3.4" /\ ParseIP "1::2::3" = None /\ ParseIP "fe80::1%eth0" = None /\ ParseIP "12345::" = None /\ ParseIP "1::" = Some ([0; 1] ++ zeros 14).
Proof. vm_compute. split_and!; reflexivity. Qed.

Lemma ParseCIDR_examples :
  ParseCIDR "10.0.0.1/8" = Some (mkIPNet (v4InV6Prefix ++ [10; 0; 0; 1]) [255; 0; 0; 0]) /\ ParseCIDR "10.0.0.1/33" = None /\ ParseCIDR "10.0.0.1" = None /\
  (Mask <$> ParseCIDR "::/12") = Some ([255; 240] ++ zeros 14) /\ maskSize [255; 240; 0; 0] = (12, 32) /\ maskSize [255; 1; 0; 0] = (0, 0).
Proof. vm_compute. split_and!; reflexivity. Qed.

Lemma ParseMAC_examples :
  ParseMAC "00:00:5e:00:53:01" = Some [0; 0; 94; 0; 83; 1] /\ ParseMAC "00-00-5E-00-53-01" = Some [0; 0; 94; 0; 83; 1] /\
  ParseMAC "0000.5e00.5301" = Some [0; 0; 94; 0; 83; 1] /\ ParseMAC "00:00:5e:00:53" = None /\ ParseMAC "00:00:5e-00:53:01" = None.
Proof. vm_compute. split_and!; reflexivity. Qed.

End NetAddr.
