(* ===== verification/StaticConfig.v ===== *)
(** * Static network configuration

    Models [metropolis/node/core/network/static.go], [singleIPtoNetlinkAddr] of
    [main.go] there and [osbase/sysctl/options.go]: the order in which interfaces are
    configured, and their configuration with its clean-up on failure.

    The kernel, netlink, the DHCP client and the supervisor answer requests ([Host]); the
    requests and answers are recorded in a trace.  Deferred functions are kept in the
    state and run when the function returns or panics.  Messages of errors are the format
    strings of the source. *)

From S2P Require Import Prelude GoStrings Bytes NetAddr Toposort.
From Stdlib Require Import ZArith.

Module StaticConfig.
Import Bytes NetAddr Toposort.
Open Scope Z_scope.

(** ** The configuration, of [net/proto/net.proto]

    A oneof that is not set is [None]; a message that is set is not nil.  Enumerations
    are open, so they are numbers. *)

Record DeviceSpec := mkDeviceSpec { HardwareAddress : string; Driver : string; DeviceIndex : Z }.

Record LACP := mkLACP {
  Rate : Z; SelectionLogic : Z; ActorSystemPriority : Z; UserPortKey : Z; ActorSystemMac : string
}.
Inductive BondModeSpec :=
| Lacp (l : LACP)
| ActiveBackup.
Record BondSpec := mkBondSpec {
  MemberInterface : list string; MinLinksSpec : Z; TransmitHashPolicy : Z; ModeSpec : option BondModeSpec
}.

Record VLANSpec := mkVLANSpec { Parent : string; Id : Z; Protocol : Z }.

Inductive ifType :=
| Interface_Device (d : DeviceSpec)
| Interface_Bond (b : BondSpec)
| Interface_Vlan (v : VLANSpec).

Record RouteSpec := mkRouteSpec { Destination : string; GatewayIp : string; SourceIp : string; Metric : Z }.

Record Interface := mkInterface {
  Name : string;
  Type_ : option ifType;
  Ipv4Autoconfig : bool;
  Ipv6Autoconfig : bool;
  Address : list string;
  Route : list RouteSpec;
  Mtu : Z
}.

Record Net := mkNet { Interfaces : list Interface; Nameserver : list string }.

(** ** Names of interfaces *)

(** How many bytes Go decodes as the next rune; bytes that are not UTF-8 are runes. *)
Definition cont (lo hi : Z) (c : option Z) : bool := match c with Some c => (lo <=? c) && (c <=? hi) | None => false end.
Definition runeSize (s : bytes) : nat :=
  let c k := s !! k in
  match s with
  | [] => 0%nat
  | b :: _ =>
      if (194 <=? b) && (b <=? 223) && cont 128 191 (c 1%nat) then 2%nat
      else if (224 <=? b) && (b <=? 239) && cont (if b =? 224 then 160 else 128) (if b =? 237 then 159 else 191) (c 1%nat) && cont 128 191 (c 2%nat) then 3%nat
      else if (240 <=? b) && (b <=? 244) && cont (if b =? 240 then 144 else 128) (if b =? 244 then 143 else 191) (c 1%nat)
        && cont 128 191 (c 2%nat) && cont 128 191 (c 3%nat) then 4%nat
      else 1%nat
  end.
Fixpoint runeCount (fuel : nat) (s : bytes) : nat :=
  match fuel, s with
  | S fuel, _ :: _ => S (runeCount fuel (drop (runeSize s) s))
  | _, _ => 0
  end%nat.

(** [/], [:] and [[:space:]], all of them single bytes. *)
Definition badDevByte (c : Z) : bool := (c =? 47) || (c =? 58) || ((9 <=? c) && (c <=? 13)) || (c =? 32).

(** [^[^/:[:space:]]{1,15}$]. *)
Definition validDevNameRegexp (s : bytes) : bool :=
  let n := runeCount (length s) s in
  bool_decide (1 <= n <= 15)%nat && forallb (fun c => negb (badDevByte c)) s.

Definition isValidDevName (name : string) : result string unit :=
  if bool_decide (name = ".") || bool_decide (name = "..") then Err "cannot be . or .."
  else if ContainsByte name "%" then Err "contains % sign which dynamically allocate names, this is disallowed"
  else if negb (validDevNameRegexp (bytesOf name)) then Err "too short, too long or contains forward slashes, colons or spaces"
  else Ok tt.

(** ** The order of configuration *)

Record depState := mkDep { depGraph : Graph string; ifMap : gmap string Interface }.

Definition addIface (iface : Interface) (s : depState) : depState :=
  let g := AddNode (Name iface) (depGraph s) in
  let g := match Type_ iface with
    | Some (Interface_Bond b) => foldl (fun g depIf => AddEdge depIf (Name iface) g) g (MemberInterface b)
    | Some (Interface_Vlan v) => AddEdge (Name iface) (Parent v) g
    | _ => g
    end in
  mkDep g (<[Name iface := iface]> (ifMap s)).

Fixpoint addIfaces (ifaces : list Interface) (s : depState) : result string depState :=
  match ifaces with
  | [] => Ok s
  | iface :: ifaces =>
      match isValidDevName (Name iface) with
      | Err _ => Err "invalid interface name %q: %w"
      | Ok _ => addIfaces ifaces (addIface iface s)
      end
  end.

(** A nil interface is [None]. *)
Definition getSortedIfaces (config : Net) : option (result string (list (option Interface))) :=
  match addIfaces (Interfaces config) (mkDep emptyGraph ∅) with
  | Err e => Some (Err e)
  | Ok s =>
      if bool_decide (ImplicitNodeReferences (depGraph s) <> ∅) then Some (Err "reference to undefined interface %q from interfaces %s")
      else
        match DetTopologicalOrder string_le (depGraph s) with
        | None => None
        | Some (Err _) => Some (Err "unable to calculate interface setup order: %w")
        | Some (Ok interfaceOrder) => Some (Ok ((fun ifname => ifMap s !! ifname) <$> interfaceOrder))
        end
  end.

(** ** Links, addresses and routes of netlink *)

Record LinkAttrs := mkAttrs {
  Index : Z; LinkName : string; ParentIndex : Z; MasterIndex : Z; MTU : Z; FlagUp : bool
}.
(** The defaults of the other attributes are netlink's. *)
Definition NewLinkAttrs : LinkAttrs := mkAttrs 0 "" 0 0 0 false.

Record BondAttrs := mkBondAttrs {
  BondMode : Z; MinLinks : Z; XmitHashPolicy : Z; LacpRate : Z; AdSelect : Z;
  AdActorSystem : option bytes; AdActorSysPrio : Z; AdUserPortKey : Z
}.

Inductive LinkKind :=
| Device
| Bond (b : BondAttrs)
| Vlan (VlanId VlanProtocol : Z).
Record Link := mkLink { Attrs : LinkAttrs; kind : LinkKind }.

Definition set_Index i l := mkLink (mkAttrs i (LinkName (Attrs l)) (ParentIndex (Attrs l)) (MasterIndex (Attrs l)) (MTU (Attrs l)) (FlagUp (Attrs l))) (kind l).
Definition set_Name n l := mkLink (mkAttrs (Index (Attrs l)) n (ParentIndex (Attrs l)) (MasterIndex (Attrs l)) (MTU (Attrs l)) (FlagUp (Attrs l))) (kind l).
Definition set_ParentIndex i l := mkLink (mkAttrs (Index (Attrs l)) (LinkName (Attrs l)) i (MasterIndex (Attrs l)) (MTU (Attrs l)) (FlagUp (Attrs l))) (kind l).
Definition set_MasterIndex i l := mkLink (mkAttrs (Index (Attrs l)) (LinkName (Attrs l)) (ParentIndex (Attrs l)) i (MTU (Attrs l)) (FlagUp (Attrs l))) (kind l).
Definition set_MTU m l := mkLink (mkAttrs (Index (Attrs l)) (LinkName (Attrs l)) (ParentIndex (Attrs l)) (MasterIndex (Attrs l)) m (FlagUp (Attrs l))) (kind l).
Definition set_Up l := mkLink (mkAttrs (Index (Attrs l)) (LinkName (Attrs l)) (ParentIndex (Attrs l)) (MasterIndex (Attrs l)) (MTU (Attrs l)) true) (kind l).

(** A link as the kernel lists it; [isDevice] if it is a [*netlink.Device]. *)
Record hostLink := mkHostLink {
  isDevice : bool; hIndex : Z; hName : string; hMTU : Z; hFlags : Z; HardwareAddr : bytes; PermHardwareAddr : bytes
}.

Record Addr := mkAddr { AddrNet : IPNet; Label : string; Scope_ : Z; Flags : Z }.
Definition SCOPE_UNIVERSE : Z := 0.
Definition SCOPE_LINK : Z := 253.
Definition SCOPE_HOST : Z := 254.
Definition IFA_F_PERMANENT : Z := 128.
Definition IFA_F_NOPREFIXROUTE : Z := 512.

Record NetlinkRoute := mkNetlinkRoute {
  Dst : IPNet; RouteProtocol : Z; LinkIndex : Z; Priority : Z; Src : option bytes; Gw : option bytes; RouteFlags : Z
}.
Definition RTPROT_STATIC : Z := 4.
Definition FLAG_ONLINK : Z := 4.

(** [net.Interface]. *)
Record netInterface := mkNetInterface { niIndex : Z; niMTU : Z; niName : string; niHardwareAddr : bytes; niFlags : Z }.

(** ** Requests *)

Inductive request :=
| LinkList
| Readlink (path : string)
| LinkSetUp (l : hostLink)
| LoopbackAddrAdd (l : hostLink) (a : Addr)
| LinkAdd (l : Link)
| LinkModify (l : Link)
| LinkDel (l : Link)
| LinkSetDown (l : Link)
| LinkByIndex (i : Z)
| AddrAdd (l : Link) (a : Addr)
| RouteAdd (r : NetlinkRoute)
| WriteFile (path value : string)
| NewClient (i : netInterface)
| Run (name : string)
| ConfigureDNS (servers : list bytes)
| SetStatus (ExternalAddress : option bytes)
| SignalHealthy
| SignalDone.

(** Adding a link sets its index. *)
Definition response (r : request) : Type :=
  match r with
  | LinkList => list hostLink
  | Readlink _ => string
  | LinkAdd _ => Z
  | LinkByIndex _ => hostLink
  | _ => unit
  end.

Class Host := {
  hstate : Type;
  handle (r : request) : hstate -> hstate * result string (response r);
  NewLinkBond : BondAttrs
}.

(** ** Programs *)

Section static.
Context {H : Host}.

Record event := mkEvent { ev_request : request; ev_response : result string (response ev_request) }.

Record st := mkSt { host : hstate; trace : list event; defers : list request }.

Inductive outcome (A : Type) :=
| Returns (a : A)
| Fails (e : string)
| Panics
| Diverges.
#[global] Arguments Returns {A} a.
#[global] Arguments Fails {A} e.
#[global] Arguments Panics {A}.
#[global] Arguments Diverges {A}.

Definition M (A : Type) : Type := st -> st * outcome A.

#[export] Instance M_ret : MRet M := fun A a s => (s, Returns a).
#[export] Instance M_bind : MBind M := fun A B k m s =>
  match m s with
  | (s, Returns a) => k a s
  | (s, Fails e) => (s, Fails e)
  | (s, Panics) => (s, Panics)
  | (s, Diverges) => (s, Diverges)
  end.

Definition fail {A} (e : string) : M A := fun s => (s, Fails e).
Definition panic {A} : M A := fun s => (s, Panics).

(** A call whose error the code looks at. *)
Definition call (r : request) : M (result string (response r)) := fun s =>
  let '(h, x) := handle r (host s) in (mkSt h (trace s ++ [mkEvent r x]) (defers s), Returns x).

(** [if err := ...; err != nil { return fmt.Errorf(e, err) }]. *)
Definition try_ (r : request) (e : string) : M (response r) :=
  x ← call r; match x with Ok a => mret a | Err _ => fail e end.

Definition lift {A} (r : result string A) : M A := match r with Ok a => mret a | Err e => fail e end.

Definition defer (r : request) : M unit := fun s => (mkSt (host s) (trace s) (r :: defers s), Returns tt).

(** The deferred functions, the last one first; they log errors. *)
Fixpoint runDefers (rs : list request) : M unit :=
  match rs with
  | [] => mret tt
  | r :: rs => _ ← call r; runDefers rs
  end.

(** A function with deferred functions that do nothing if it succeeds. *)
Definition withDefers (m : M unit) : M unit := fun s =>
  match m s with
  | (s, Returns a) => (s, Returns a)
  | (s, o) => ((runDefers (defers s) s).1, o)
  end.

(** ** Interfaces of the host *)

Record deviceIfData := mkDeviceIfData { dev : hostLink; driver : string }.

(** [filepath.Base]. *)
Definition Base (path : string) : string :=
  if bool_decide (path = "") then "."
  else default "/" (last (filter (fun p => p <> EmptyString) (Split path "/"))).

Fixpoint listLinks (links : list hostLink) (hostDevices : list deviceIfData) (loopbackLink : option hostLink) :
  M (list deviceIfData * option hostLink) :=
  match links with
  | [] => mret (hostDevices, loopbackLink)
  | link :: links =>
      let loopbackLink := if hIndex link =? 1 then Some link else loopbackLink in
      if negb (isDevice link) then listLinks links hostDevices loopbackLink
      else
        driverPath ← call (Readlink ("/sys/class/net/" +:+ hName link +:+ "/device/driver"));
        let driver := match driverPath with Ok p => Base p | Err _ => "" end in
        listLinks links (hostDevices ++ [mkDeviceIfData link driver]) loopbackLink
  end.

Definition listHostDeviceIfaces : M (list deviceIfData * option hostLink) :=
  links ← try_ LinkList "failed to list network links: %w";
  listLinks links [] None.

Definition matches (parsedHWAddr : bytes) (spec : DeviceSpec) (d : deviceIfData) : bool :=
  (bool_decide (parsedHWAddr = []) ||
   (if bool_decide (PermHardwareAddr (dev d) <> []) then bool_decide (PermHardwareAddr (dev d) = parsedHWAddr)
    else bool_decide (HardwareAddr (dev d) = parsedHWAddr))) &&
  (bool_decide (Driver spec = "") || bool_decide (Driver spec = driver d)).

Definition deviceIfaceFromSpec (it : DeviceSpec) (hostDevices : list deviceIfData) : result string Link :=
  parsedHWAddr ← (if bool_decide (HardwareAddress it = "") then Ok []
    else match ParseMAC (HardwareAddress it) with
         | Some mac => Ok mac
         | None => Err "unable to parse hardware address %q: %w"
         end);
  let matchedDevices := filter (fun d => matches parsedHWAddr it d) hostDevices in
  if (len matchedDevices <=? DeviceIndex it) || (DeviceIndex it <? 0)
  then Err "there are %d matching host devices but requested device index is %d"
  else match matchedDevices !! Z.to_nat (DeviceIndex it) with
       | Some d => Ok (set_Index (hIndex (dev d)) (mkLink NewLinkAttrs Device))
       | None => Err "index out of range"
       end.

(** ** Bonds and VLANs *)

(** A map of enumerations; a key that is not there has the value zero. *)
Definition enumMap (m : list (Z * Z)) (k : Z) : Z := default 0 (snd <$> List.find (fun p => p.1 =? k) m).

Definition vlanProtoMap : Z -> Z := enumMap [(0, 33024); (1, 34984)].
Definition lacpRateMap : Z -> Z := enumMap [(0, 0); (1, 1)].
Definition lacpAdSelectMap : Z -> Z := enumMap [(0, 0); (1, 1); (2, 2)].
Definition xmitHashPolicyMap : Z -> Z := enumMap [(0, 0); (2, 2); (1, 1); (3, 3); (4, 4); (5, 5)].
Definition BOND_MODE_ACTIVE_BACKUP : Z := 1.
Definition BOND_MODE_802_3AD : Z := 4.

Definition bondIfaceFromSpec (it : BondSpec) : result string Link :=
  let minLinks := MinLinksSpec it in
  let policy := xmitHashPolicyMap (TransmitHashPolicy it) in
  let d := NewLinkBond in
  match ModeSpec it with
  | Some (Lacp l) =>
      mac ← (if bool_decide (ActorSystemMac l = "") then Ok (AdActorSystem d)
        else match ParseMAC (ActorSystemMac l) with
             | Some mac => Ok (Some mac)
             | None => Err "malformed LACP actor_system_mac for bond %q: %w"
             end);
      Ok (mkLink NewLinkAttrs (Bond (mkBondAttrs BOND_MODE_802_3AD minLinks policy
        (lacpRateMap (Rate l)) (lacpAdSelectMap (SelectionLogic l)) mac
        (if ActorSystemPriority l =? 0 then AdActorSysPrio d else ActorSystemPriority l)
        (if UserPortKey l =? 0 then AdUserPortKey d else UserPortKey l))))
  | Some ActiveBackup =>
      Ok (mkLink NewLinkAttrs (Bond (mkBondAttrs BOND_MODE_ACTIVE_BACKUP minLinks policy
        (LacpRate d) (AdSelect d) (AdActorSystem d) (AdActorSysPrio d) (AdUserPortKey d))))
  | None => Err "unknown bond type %T"
  end.

(** ** Addresses and routes *)

Definition addressOrPrefix (s : string) : result string IPNet :=
  if ContainsByte s "/" then
    match ParseCIDR s with Some n => Ok n | None => Err "invalid CIDR address" end
  else
    match ParseIP s with
    | None => Err "invalid IP: %v"
    | Some ip => Ok (mkIPNet ip (if bool_decide (To4 ip = None) then CIDRMask 128 128 else CIDRMask 32 32))
    end.

Definition addrFromSpec (ipNet : IPNet) : Addr :=
  let '(ones, size) := maskSize (Mask ipNet) in
  mkAddr ipNet "" SCOPE_UNIVERSE (Z.lor (if ones =? size then IFA_F_NOPREFIXROUTE else 0) IFA_F_PERMANENT).

Definition addAddrFromSpec (a : string) (link : Link) : M unit :=
  ipNet ← lift (addressOrPrefix a);
  try_ (AddrAdd link (addrFromSpec ipNet)) "failed to add to kernel interface: %w".

Definition optionalIP (s : string) : result string (option bytes) :=
  if bool_decide (s = "") then Ok None
  else match ParseIP s with Some ip => Ok (Some ip) | None => Err "failed parsing %q as IP" end.

Definition routeOfSpec (r : RouteSpec) (link : Link) : result string NetlinkRoute :=
  dst ← match addressOrPrefix (Destination r) with Ok d => Ok d | Err _ => Err "destination invalid: %w" end;
  if negb (from_option (fun m => equalIP m (IP dst)) false (maskIP (IP dst) (Mask dst))) then Err "destination %v has bits in the mask set"
  else
    src ← optionalIP (SourceIp r);
    gw ← optionalIP (GatewayIp r);
    Ok (mkNetlinkRoute dst RTPROT_STATIC (Index (Attrs link)) (Metric r) src gw (if bool_decide (gw = None) then 0 else FLAG_ONLINK)).

Definition routeFromSpec (r : RouteSpec) (link : Link) : M unit :=
  route ← lift (routeOfSpec r link);
  try_ (RouteAdd route) "failed creating kernel route %q: %w".

Fixpoint forEach {A} (f : A -> M unit) (l : list A) : M unit :=
  match l with
  | [] => mret tt
  | a :: l => _ ← f a; forEach f l
  end.

(** [fmt.Errorf(e, err)] for the error of a call. *)
Definition wrap {A} (e : string) (m : M A) : M A := fun s =>
  match m s with (s, Fails _) => (s, Fails e) | r => r end.

(** ** Kernel options, of [osbase/sysctl] *)

(** [strings.ReplaceAll(name, ".", "/")]. *)
Definition dotsToSlashes (name : string) : string := Join (Split name ".") "/".

(** [path.Join] with /proc/sys/, for a name without dots: no element is "." or "..", so
    cleaning only removes empty elements. *)
Definition sysctlPath (name : string) : string :=
  "/" +:+ Join (filter (fun p => p <> EmptyString) (Split ("/proc/sys/" +:+ dotsToSlashes name) "/")) "/".

Definition Apply (opts : list (string * string)) : M unit :=
  forEach (fun '(name, value) =>
    try_ (WriteFile (sysctlPath name) (value +:+ String (ascii_of_nat 10) EmptyString)) "failed to set option %v: %w") opts.

(** ** Configuring an interface *)

Record loopState := mkLoop {
  hasIPv4Autoconfig : bool;
  nameLinkMap : gmap string Link;
  nameParentMap : gmap string string
}.

(** The link for the type of the interface, and the interfaces that become its members. *)
Definition newLinkOf (i : Interface) (hostDevices : list deviceIfData) (ls : loopState) : M (Link * gmap string string) :=
  match Type_ i with
  | Some (Interface_Device it) =>
      newLink ← wrap "interface %q: %w" (lift (deviceIfaceFromSpec it hostDevices));
      mret (newLink, nameParentMap ls)
  | Some (Interface_Bond it) =>
      let parents := foldl (fun parents m => <[m := Name i]> parents) (nameParentMap ls) (MemberInterface it) in
      newLink ← wrap "interface %q: %w" (lift (bondIfaceFromSpec it));
      mret (newLink, parents)
  | Some (Interface_Vlan it) =>
      match nameLinkMap ls !! Parent it with
      | None => panic
      | Some p => mret (set_ParentIndex (Index (Attrs p)) (mkLink NewLinkAttrs (Vlan (Id it) (vlanProtoMap (Protocol it)))), nameParentMap ls)
      end
  | None => panic
  end.

(** The name, the MTU and the link it is a member of. *)
Definition setAttrs (i : Interface) (links : gmap string Link) (parents : gmap string string) (newLink : Link) : M Link :=
  let newLink := set_Name (Name i) newLink in
  let newLink := if Mtu i =? 0 then newLink else set_MTU (Mtu i) newLink in
  let parent := default "" (parents !! Name i) in
  if bool_decide (parent <> "") then
    match links !! parent with
    | None => panic
    | Some m => mret (set_MasterIndex (Index (Attrs m)) newLink)
    end
  else mret (set_Up newLink).

Definition applyLink (newLink : Link) : M Link :=
  if Index (Attrs newLink) <=? 0 then
    i ← try_ (LinkAdd newLink) "failed to add link %q: %w";
    let newLink := set_Index i newLink in
    _ ← defer (LinkDel newLink);
    mret newLink
  else
    _ ← try_ (LinkModify newLink) "failed to modify link %q: %w";
    _ ← defer (LinkSetDown newLink);
    mret newLink.

Definition netlinkLinkToNetInterface (lnk : hostLink) : netInterface :=
  mkNetInterface (hIndex lnk) (hMTU lnk) (hName lnk) (HardwareAddr lnk) (hFlags lnk).

Definition runDHCPv4 (lnk : hostLink) : M unit :=
  _ ← try_ (NewClient (netlinkLinkToNetInterface lnk)) "failed creating DHCPv4 client: %w";
  try_ (Run ("dhcp-" +:+ hName lnk)) "".

(** What follows once the link is there. *)
Definition configureLink (i : Interface) (newLink : Link) : M unit :=
  newLinkWithAttrs ← try_ (LinkByIndex (Index (Attrs newLink))) "while getting just-configured link: %w";
  _ ← (if Ipv4Autoconfig i then wrap "error enabling DHCPv4 on %q: %w" (runDHCPv4 newLinkWithAttrs) else mret tt);
  _ ← (if Ipv6Autoconfig i
       then wrap "failed enabling accept_ra for interface %q: %w" (Apply [("net.ipv6.conf." +:+ hName newLinkWithAttrs +:+ ".accept_ra", "1")])
       else mret tt);
  _ ← forEach (fun a => wrap "failed adding address %q to link: %w" (addAddrFromSpec a newLink)) (Address i);
  forEach (fun r => wrap "failed creating route on interface %q: %w" (routeFromSpec r newLink)) (Route i).

Definition configureIface (hostDevices : list deviceIfData) (i : Interface) (ls : loopState) : M loopState :=
  '(newLink, parents) ← newLinkOf i hostDevices ls;
  newLink ← setAttrs i (nameLinkMap ls) parents newLink;
  newLink ← applyLink newLink;
  _ ← configureLink i newLink;
  mret (mkLoop (hasIPv4Autoconfig ls || Ipv4Autoconfig i) (<[Name i := newLink]> (nameLinkMap ls)) parents).

Fixpoint configureIfaces (hostDevices : list deviceIfData) (ifaces : list (option Interface)) (ls : loopState) : M loopState :=
  match ifaces with
  | [] => mret ls
  | None :: _ => panic
  | Some i :: ifaces => ls ← configureIface hostDevices i ls; configureIfaces hostDevices ifaces ls
  end.

(** ** The runnable *)

(** [singleIPtoNetlinkAddr], with [IP.IsLinkLocalUnicast] and [IP.IsLoopback]. *)
Definition IsLinkLocalUnicast (ip : bytes) : bool :=
  match To4 ip with
  | Some ip4 => (nth 0 ip4 0 =? 169) && (nth 1 ip4 0 =? 254)
  | None => (len ip =? 16) && (nth 0 ip 0 =? 254) && (Z.land (nth 1 ip 0) 192 =? 128)
  end.
Definition IsLoopback (ip : bytes) : bool :=
  match To4 ip with
  | Some ip4 => nth 0 ip4 0 =? 127
  | None => equalIP ip (zeros 15 ++ [1])
  end.
Definition singleIPtoNetlinkAddr (ip : bytes) (label : string) : Addr :=
  let mask := if bool_decide (To4 ip = None) then CIDRMask 128 128 else CIDRMask 32 32 in
  let scope := if IsLinkLocalUnicast ip then SCOPE_LINK else SCOPE_UNIVERSE in
  let scope := if IsLoopback ip then SCOPE_HOST else scope in
  mkAddr (mkIPNet ip mask) label scope 0.

(** The first IPv4 address of an interface without DHCP. *)
Definition firstIPv4 (i : Interface) : list bytes :=
  if Ipv4Autoconfig i then []
  else omap (fun a => match addressOrPrefix a with Ok n => To4 (IP n) | Err _ => None end) (Address i).
Definition selectedAddr (config : Net) : option bytes := head (concat (firstIPv4 <$> Interfaces config)).

Definition ignore {A} (m : M A) : M unit := _ ← m; mret tt.

Definition staticConfig (ExtraDNSListenerIPs : list bytes) (config : Net) : M unit :=
  sortedInterfaces ← (fun s => match getSortedIfaces config with
    | None => (s, Diverges)
    | Some (Ok l) => (s, Returns l)
    | Some (Err e) => (s, Fails e)
    end);
  '(hostDevices, loopbackLink) ← listHostDeviceIfaces;
  match loopbackLink with
  | None => fail "no loopback interface present, weird/broken kernel?"
  | Some loopbackLink =>
      _ ← call (LinkSetUp loopbackLink);
      _ ← forEach (fun addr => ignore (call (LoopbackAddrAdd loopbackLink (singleIPtoNetlinkAddr addr "")))) ExtraDNSListenerIPs;
      ls ← configureIfaces hostDevices sortedInterfaces (mkLoop false ∅ ∅);
      let nsIPList := omap ParseIP (Nameserver config) in
      _ ← (if bool_decide (nsIPList = []) then mret tt else ignore (call (ConfigureDNS nsIPList)));
      _ ← (if hasIPv4Autoconfig ls then mret tt else ignore (call (SetStatus (selectedAddr config))));
      _ ← call SignalHealthy;
      ignore (call SignalDone)
  end.

Definition runStaticConfig (ExtraDNSListenerIPs : list bytes) (config : Net) : M unit :=
  withDefers (staticConfig ExtraDNSListenerIPs config).

End static.
End StaticConfig.
