(* ===== verification/StaticProps.v ===== *)
(** * Properties of the static network configuration

    Interfaces are configured after those they depend on; addresses and routes are
    well formed. *)

From S2P Require Import Prelude GoStrings Bytes NetAddr Toposort StaticConfig.
From Stdlib Require Import ZArith.
From stdpp Require Import relations.

Module StaticProps.
Import Bytes NetAddr Toposort ToposortProps StaticConfig.

(** ** Dependencies *)

(** A VLAN depends on its parent, the members of a bond depend on the bond. *)
Definition depends (ifaces : list Interface) (a b : string) : Prop :=
  (exists i v, i ∈ ifaces /\ Name i = a /\ Type_ i = Some (Interface_Vlan v) /\ Parent v = b) \/
  (exists i d, i ∈ ifaces /\ Name i = b /\ Type_ i = Some (Interface_Bond d) /\ a ∈ MemberInterface d).

Definition defined (ifaces : list Interface) (n : string) : Prop := exists i, i ∈ ifaces /\ Name i = n.

(** If several interfaces have the same name, the last one is configured. *)
Definition winner (ifaces : list Interface) (n : string) : option Interface := last (filter (fun i => Name i = n) ifaces).

Lemma winner_snoc l i n : winner (l ++ [i]) n = if decide (Name i = n) then Some i else winner l n.
Proof.
  unfold winner. rewrite filter_app. cbn [filter list_filter]. case_decide; [|by rewrite app_nil_r]. by rewrite last_snoc.
Qed.

Lemma winner_Some l n i : winner l n = Some i -> i ∈ l /\ Name i = n.
Proof. intros Hl. apply last_Some_elem_of in Hl. apply list_elem_of_filter in Hl. tauto. Qed.

Lemma winner_defined l n : defined l n <-> is_Some (winner l n).
Proof.
  split; [|intros [i [Hi Hn]%winner_Some]; by exists i]. intros (i & Hi & Hn). unfold winner. rewrite last_is_Some.
  intros E. assert (i ∈ filter (fun i => Name i = n) l) as Hin by (by apply list_elem_of_filter). rewrite E in Hin. set_solver.
Qed.

Lemma winner_idem l n i : winner l n = Some i -> winner l (Name i) = Some i.
Proof. intros Hw. by destruct (winner_Some _ _ _ Hw) as [_ ->]. Qed.

Lemma depends_snoc l i a b : depends (l ++ [i]) a b <-> depends l a b \/ depends [i] a b.
Proof.
  unfold depends. setoid_rewrite elem_of_app. setoid_rewrite list_elem_of_singleton. firstorder.
Qed.

Lemma defined_snoc l i n : defined (l ++ [i]) n <-> defined l n \/ Name i = n.
Proof. unfold defined. setoid_rewrite elem_of_app. setoid_rewrite list_elem_of_singleton. naive_solver. Qed.

(** What has been built for [l]. *)
Record built (l : list Interface) (s : depState) : Prop := {
  b_ok : graphOk (depGraph s);
  b_succs a b : b ∈ succs (depGraph s) a <-> depends l a b;
  b_added n : n ∈ addedNodes (depGraph s) <-> defined l n;
  b_nodes n : n ∈ dom (nodes (depGraph s)) <-> defined l n \/ exists m, depends l n m \/ depends l m n;
  b_ifMap n : ifMap s !! n = winner l n
}.

Lemma AddEdges_members (to : string) (ms : list string) : forall g,
  (graphOk g -> graphOk (foldl (fun g m => AddEdge m to g) g ms)) /\
  (forall a b, b ∈ succs (foldl (fun g m => AddEdge m to g) g ms) a <-> (a ∈ ms /\ b = to) \/ b ∈ succs g a) /\
  addedNodes (foldl (fun g m => AddEdge m to g) g ms) = addedNodes g /\
  (to ∈ dom (nodes g) -> forall n, n ∈ dom (nodes (foldl (fun g m => AddEdge m to g) g ms)) <-> n ∈ ms \/ n ∈ dom (nodes g)).
Proof.
  induction ms as [|m ms IH]; intros g; cbn [foldl]; [set_solver|]. destruct (IH (AddEdge m to g)) as (H1 & H2 & H3 & H4). split_and!.
  - intros Hg. by apply H1, graphOk_AddEdge.
  - intros a b. rewrite H2, elem_of_succs_AddEdge. set_solver.
  - by rewrite H3, added_AddEdge.
  - intros Ht n. rewrite H4 by (rewrite dom_AddEdge; set_solver). rewrite dom_AddEdge. set_solver.
Qed.

Lemma depends_one i a b : depends [i] a b <->
  match Type_ i with
  | Some (Interface_Bond d) => b = Name i /\ a ∈ MemberInterface d
  | Some (Interface_Vlan v) => a = Name i /\ b = Parent v
  | _ => False
  end.
Proof.
  unfold depends. setoid_rewrite list_elem_of_singleton. destruct (Type_ i) as [[d|d|v]|] eqn:E; split; naive_solver.
Qed.

Lemma addIface_graph i s (g' := depGraph (addIface i s)) :
  (graphOk (depGraph s) -> graphOk g') /\
  (forall a b, b ∈ succs g' a <-> depends [i] a b \/ b ∈ succs (depGraph s) a) /\
  addedNodes g' = {[Name i]} ∪ addedNodes (depGraph s) /\
  (forall n, n ∈ dom (nodes g') <-> (Name i = n \/ exists m, depends [i] n m \/ depends [i] m n) \/ n ∈ dom (nodes (depGraph s))).
Proof.
  subst g'. unfold addIface. cbn [depGraph]. setoid_rewrite (depends_one i). destruct (Type_ i) as [[d|d|v]|].
  - rewrite dom_AddNode, added_AddNode. split_and!; [apply graphOk_AddNode|intros a b; rewrite succs_AddNode; tauto|done|set_solver].
  - destruct (AddEdges_members (Name i) (MemberInterface d) (AddNode (Name i) (depGraph s))) as (A1 & A2 & A3 & A4).
    split_and!; [intros ?; by apply A1, graphOk_AddNode|intros a b; rewrite A2, succs_AddNode; tauto|by rewrite A3, added_AddNode|].
    intros n. rewrite A4 by (rewrite dom_AddNode; set_solver). rewrite dom_AddNode, elem_of_union, elem_of_singleton. clear. naive_solver.
  - rewrite dom_AddEdge, dom_AddNode, added_AddEdge, added_AddNode.
    split_and!; [intros ?; by apply graphOk_AddEdge, graphOk_AddNode|intros a b; rewrite elem_of_succs_AddEdge, succs_AddNode; tauto|done|].
    intros n. rewrite !elem_of_union, !elem_of_singleton. clear. naive_solver.
  - rewrite dom_AddNode, added_AddNode. split_and!; [apply graphOk_AddNode|intros a b; rewrite succs_AddNode; tauto|done|set_solver].
Qed.

Lemma addIface_built l i s : built l s -> built (l ++ [i]) (addIface i s).
Proof.
  intros [H1 H2 H3 H4 H5]. destruct (addIface_graph i s) as (A1 & A2 & A3 & A4). split.
  - auto.
  - intros a b. rewrite A2, depends_snoc, H2. tauto.
  - intros n. rewrite A3, defined_snoc, elem_of_union, elem_of_singleton, H3. naive_solver.
  - intros n. rewrite A4, H4, defined_snoc. setoid_rewrite depends_snoc. clear. naive_solver.
  - intros n. rewrite winner_snoc. cbn. destruct (decide (Name i = n)) as [<-|]; [by rewrite lookup_insert_eq|by rewrite lookup_insert_ne].
Qed.

Definition validName (i : Interface) : Prop := isValidDevName (Name i) = Ok tt.

Lemma addIfaces_ok l : forall l0 s, built l0 s ->
  match addIfaces l s with
  | Ok s' => built (l0 ++ l) s' /\ Forall validName l
  | Err _ => ~ Forall validName l
  end.
Proof.
  induction l as [|i l IH]; intros l0 s Hs; cbn [addIfaces]; [by rewrite app_nil_r|].
  assert (Forall validName (i :: l) <-> isValidDevName (Name i) = Ok tt /\ Forall validName l) as Hv by exact (Forall_cons validName i l).
  destruct (isValidDevName (Name i)) as [[]|e]; [|by intros [? _]%Hv]. specialize (IH (l0 ++ [i]) _ (addIface_built l0 i s Hs)).
  rewrite <- app_assoc in IH. destruct (addIfaces l _); naive_solver.
Qed.

Lemma built_nil : built [] (mkDep emptyGraph ∅).
Proof.
  split.
  - apply graphOk_empty.
  - intros a b. unfold succs, depends. cbn. set_solver.
  - unfold defined. cbn. set_solver.
  - unfold defined, depends. cbn. set_solver.
  - done.
Qed.

Lemma built_path l s a b : built l s -> path (depGraph s) a b <-> tc (depends l) a b.
Proof.
  intros Hb. split.
  - induction 1 as [a b H|a b c _ IH H]; [apply tc_once; by apply (b_succs l s Hb)|]. eapply tc_r; [done|]. by apply (b_succs l s Hb).
  - assert (forall x y z, y ∈ succs (depGraph s) x -> path (depGraph s) y z -> path (depGraph s) x z) as Hl.
    { intros x y z H Hp. induction Hp; [eapply path_step; [by apply path_edge|done]|by eapply path_step; [apply IHHp|]]. }
    induction 1 as [a b H|a b c H _ IH]; [apply path_edge; by apply (b_succs l s Hb)|]. eapply Hl; [|done]. by apply (b_succs l s Hb).
Qed.

Lemma built_cyclic l s : built l s -> cyclic (depGraph s) <-> exists n, tc (depends l) n n.
Proof. intros Hb. unfold cyclic. by setoid_rewrite (built_path l s _ _ Hb). Qed.

(** Why there is no order. *)
Definition undefinedReference (l : list Interface) : Prop := exists a b, depends l a b /\ ~ (defined l a /\ defined l b).
Definition circular (l : list Interface) : Prop := exists n, tc (depends l) n n.

Lemma built_undefined l s : built l s -> ImplicitNodeReferences (depGraph s) <> ∅ <-> undefinedReference l.
Proof.
  intros Hb. split.
  - intros (n & refs & Hn)%map_choose. pose proof (ImplicitNodeReferences_spec _ n (b_ok l s Hb)) as Hs. rewrite Hn in Hs. destruct Hs as (Hs1 & Hs2 & _).
    rewrite (b_added l s Hb) in Hs1. apply (b_nodes l s Hb) in Hs2 as [?|[m [Hm|Hm]]]; [done|..]; do 2 eexists; (split; [exact Hm|naive_solver]).
  - intros (a & b & Hab & Hn) He. apply Hn. rewrite (ImplicitNodeReferences_empty _ (b_ok l s Hb)) in He.
    rewrite <- !(b_added l s Hb). split; apply He, (b_nodes l s Hb); eauto.
Qed.

(** The order of names behind the order of interfaces. *)
Lemma sorted_view (config : Net) (l := Interfaces config) :
  match getSortedIfaces config with
  | None => False
  | Some (Err _) => ~ Forall validName l \/ undefinedReference l \/ circular l
  | Some (Ok out) => exists s order, built l s /\ Forall validName l /\ ~ undefinedReference l /\ ~ circular l /\
      DetTopologicalOrder string_le (depGraph s) = Some (Ok order) /\ out = winner l <$> order /\
      (forall n, n ∈ order <-> defined l n) /\ ordered (depGraph s) order
  end.
Proof.
  unfold getSortedIfaces. pose proof (addIfaces_ok l [] _ built_nil) as Hadd. fold l.
  destruct (addIfaces _ _) as [s|e]; [|by left]. destruct Hadd as [Hb Hv]. cbn [app] in Hb.
  pose proof (built_undefined l s Hb) as Hu. pose proof (built_cyclic l s Hb) as Hc. case_bool_decide as Hr; [by right; left; apply Hu|].
  pose proof (DetTopologicalOrder_ok string_le (depGraph s) (b_ok l s Hb)) as Hd.
  destruct (DetTopologicalOrder string_le (depGraph s)) as [[order|e]|] eqn:Eo; [|right; right; by apply Hc, Hd|done]. destruct Hd as (Hin & Hord & Hac).
  exists s, order. split_and!; [done|done|intros Hx; by apply Hu in Hx|unfold circular; by rewrite <- Hc|done| | |done].
  - apply list_fmap_ext. intros _ n _. apply (b_ifMap l s Hb).
  - intros n. rewrite Hin, <- (b_added l s Hb). apply (ImplicitNodeReferences_empty _ (b_ok l s Hb)) in Hr.
    split; [apply Hr|]. intros Hn. apply (b_nodes l s Hb). left. by apply (b_added l s Hb).
Qed.

(** All interfaces, the last one of each name, each after those it depends on. *)
Record goodOrder (l : list Interface) (out : list (option Interface)) : Prop := {
  o_winner x : x ∈ out -> exists i, x = Some i /\ winner l (Name i) = Some i;
  o_all i : i ∈ l -> winner l (Name i) ∈ out;
  o_order k i d : out !! k = Some (Some i) -> depends l (Name i) d -> exists j i', (j < k)%nat /\ out !! j = Some (Some i') /\ Name i' = d
}.

Lemma goodOrder_built l s order : built l s -> (forall n, n ∈ order <-> defined l n) -> ordered (depGraph s) order -> goodOrder l (winner l <$> order).
Proof.
  intros Hb Hdef Hord. split.
  - intros x (n & -> & Hn)%list_elem_of_fmap. apply Hdef, winner_defined in Hn as [i Hi]. exists i. split; [done|]. by eapply winner_idem.
  - intros i Hi. apply list_elem_of_fmap. exists (Name i). split; [done|]. apply Hdef. by exists i.
  - intros k i d Hk Hdep. rewrite list_lookup_fmap_Some in Hk. destruct Hk as (n & Hn & Hi).
    assert (Name i = n) as <- by (by eapply winner_Some). apply (b_succs l s Hb) in Hdep.
    pose proof (Hord k (Name i) d ltac:(done) Hdep) as (j & Hj)%list_elem_of_lookup. apply lookup_take_Some in Hj as [Hj Hlt].
    assert (is_Some (winner l d)) as [i' Hi'] by (apply winner_defined, Hdef; by eapply list_elem_of_lookup_2).
    exists j, i'. split_and!; [done|by rewrite list_lookup_fmap, Hj; cbn; rewrite Hi'|by eapply winner_Some].
Qed.

(** [getSortedIfaces] fails exactly if a name is not valid, an interface refers to one
    that is not in the configuration, or dependencies are circular.  Otherwise it returns
    all interfaces, the last one of each name, and every VLAN after its parent and
    every member of a bond after the bond. *)
Theorem getSortedIfaces_correct (config : Net) :
  let l := Interfaces config in
  match getSortedIfaces config with
  | None => False
  | Some (Err _) => ~ Forall validName l \/ undefinedReference l \/ circular l
  | Some (Ok out) => Forall validName l /\ ~ undefinedReference l /\ ~ circular l /\ goodOrder l out
  end.
Proof.
  cbn zeta. pose proof (sorted_view config) as Hv. cbn zeta in Hv.
  destruct (getSortedIfaces config) as [[out|e]|]; [|done..]. destruct Hv as (s & order & Hb & H1 & H2 & H3 & _ & -> & Hdef & Hord).
  split_and!; [done..|by eapply goodOrder_built].
Qed.

(** An interface is returned, and configured, twice if another one whose name is
    smaller depends on it. *)
Theorem getSortedIfaces_twice (config : Net) (out : list (option Interface)) (a b : string) :
  getSortedIfaces config = Some (Ok out) -> depends (Interfaces config) a b -> string_ltb a b = true ->
  exists j k, j <> k /\ out !! j = Some (winner (Interfaces config) b) /\ out !! k = Some (winner (Interfaces config) b).
Proof.
  intros Hg Hdep Hlt. pose proof (sorted_view config) as Hv. rewrite Hg in Hv. cbn zeta in Hv. set (l := Interfaces config) in *.
  destruct Hv as (s & order & Hb & _ & _ & Hc & Ho & -> & _).
  destruct (DetTopologicalOrder_twice string_le (depGraph s) (b_ok l s Hb) a b) as (l1 & l2 & l3 & E).
  - by apply (b_succs l s Hb).
  - unfold string_le, string_leb. destruct (string_ltb b a) eqn:E; [|done]. pose proof (string_ltb_trans a b a Hlt E) as E3. by rewrite string_ltb_irrefl in E3.
  - by rewrite (built_cyclic l s Hb).
  - rewrite Ho in E. injection E as ->. exists (length l1), (length l1 + S (length l2))%nat. split; [lia|].
    rewrite !list_lookup_fmap, list_lookup_middle by done. split; [done|].
    replace (l1 ++ b :: l2 ++ b :: l3) with ((l1 ++ b :: l2) ++ b :: l3) by (by simplify_list_eq).
    by rewrite list_lookup_middle by (rewrite length_app; done).
Qed.

(** ** Addresses and routes *)

Lemma maskSize_CIDRMask ones bits : (0 <= ones <= bits)%Z -> (bits = 32 \/ bits = 128)%Z -> maskSize (CIDRMask ones bits) = (ones, bits).
Proof.
  intros Ho Hb. assert (Forall (fun b => Forall (fun k => maskSize (CIDRMask (Z.of_nat k) b) = (Z.of_nat k, b)) (seq 0 (S (Z.to_nat b)))) [32; 128]%Z) as Hall.
  { repeat constructor; vm_compute; reflexivity. }
  rewrite Forall_forall in Hall. specialize (Hall bits ltac:(set_solver)). rewrite Forall_forall in Hall.
  specialize (Hall (Z.to_nat ones)). rewrite Z2Nat.id in Hall by lia. apply Hall, elem_of_seq. lia.
Qed.

(** What a destination becomes: the network of a prefix is of the family it is written in, even if it is an IPv4 address
    mapped into IPv6; a single address has all bits of the mask set, 32 for an IPv4 address in either form. *)
Definition destinationOk (s : string) (n : IPNet) : Prop :=
  if ContainsByte s "/" then netOk (noColon (bytesOf s)) n
  else let v4 := bool_decide (To4 (IP n) <> None) in ParseIP s = Some (IP n) /\ netOk v4 n /\ Mask n = CIDRMask (familyBits v4) (familyBits v4).

Lemma To4_prefix ip : length ip = 16%nat -> To4 ip <> None -> take 12 ip = v4InV6Prefix.
Proof. intros Hl. unfold To4, len. rewrite Hl. cbn -[v4InV6Prefix take]. by case_bool_decide. Qed.

Lemma addressOrPrefix_ok s n : addressOrPrefix s = Ok n -> destinationOk s n.
Proof.
  unfold addressOrPrefix, destinationOk. destruct (ContainsByte s "/").
  - destruct (ParseCIDR s) as [n'|] eqn:E; [|done]. intros [= <-]. by eapply ParseCIDR_wf.
  - destruct (ParseIP s) as [ip|] eqn:E; [|done]. apply ParseIP_wf in E as [Hl Hb]. intros [= <-]. cbn [IP Mask]. split; [done|].
    destruct (decide (To4 ip = None)) as [H4|H4].
    all: rewrite ?(bool_decide_eq_true_2 (To4 ip = None)), ?(bool_decide_eq_false_2 (To4 ip = None)) by done.
    all: rewrite ?(bool_decide_eq_true_2 (To4 ip <> None)), ?(bool_decide_eq_false_2 (To4 ip <> None)) by tauto.
    all: cbn [familyBits]; (split; [|done]).
    + split; [done|]. split; [done|]. split; [done|]. exists 128%Z. by split; [cbn; lia|].
    + split; [done|]. split; [done|]. split; [intros _; by apply To4_prefix|]. exists 32%Z. by split; [cbn; lia|].
Qed.

Lemma netOk_size v4 n : netOk v4 n -> exists ones, maskSize (Mask n) = (ones, familyBits v4) /\ (0 <= ones <= familyBits v4)%Z.
Proof. intros (_ & _ & _ & ones & Ho & ->). exists ones. split; [|done]. apply maskSize_CIDRMask; [done|]. destruct v4; auto. Qed.

Lemma destinationOk_size s n : destinationOk s n -> exists v4, netOk v4 n /\ exists ones, maskSize (Mask n) = (ones, familyBits v4).
Proof.
  unfold destinationOk. destruct (ContainsByte s "/"); [intros H|intros (_ & H & _)]; (eexists; split; [done|]); apply netOk_size in H as (ones & ? & _); by exists ones.
Qed.

Definition ipOk (o : option bytes) : Prop := forall ip, o = Some ip -> length ip = 16%nat /\ isBytes ip.

Lemma optionalIP_ok s o : optionalIP s = Ok o -> ipOk o /\ (o = None <-> s = "").
Proof.
  unfold optionalIP. case_bool_decide as Hs; [intros [= <-]; split; [done|tauto]|]. destruct (ParseIP s) as [ip|] eqn:E; [|done].
  intros [= <-]. split; [intros ? [= <-]; by eapply ParseIP_wf|naive_solver].
Qed.

(** C40: The destination of a route that is added has 16 bytes and a contiguous mask: for a
    prefix of 32 bits exactly if it is written without colons, which then is a mapped IPv4
    address, and of 128 bits otherwise; for a single address all ones, of 32 bits exactly if
    [To4] is not nil.  It has no bits outside of the mask.  The route has a source and a
    gateway, of 16 bytes, exactly if the configuration has them, and is on-link exactly if it
    has a gateway. *)
Theorem routeOfSpec_type (r : RouteSpec) (link : Link) (route : NetlinkRoute) :
  routeOfSpec r link = Ok route ->
  destinationOk (Destination r) (Dst route) /\
  (exists v4, netOk v4 (Dst route) /\ exists ones, maskSize (Mask (Dst route)) = (ones, familyBits v4)) /\
  (exists m, maskIP (IP (Dst route)) (Mask (Dst route)) = Some m /\ equalIP m (IP (Dst route)) = true) /\
  ipOk (Src route) /\ ipOk (Gw route) /\ (Src route = None <-> SourceIp r = "") /\ (Gw route = None <-> GatewayIp r = "") /\
  RouteFlags route = (if decide (Gw route = None) then 0 else FLAG_ONLINK) /\ LinkIndex route = Index (Attrs link).
Proof.
  unfold routeOfSpec. destruct (addressOrPrefix (Destination r)) as [dst|e] eqn:Ed; cbn [mbind result_bind]; [|done].
  apply addressOrPrefix_ok in Ed. destruct (maskIP (IP dst) (Mask dst)) as [m|] eqn:Em; cbn [from_option negb]; [|done].
  destruct (equalIP m (IP dst)) eqn:Eq; cbn [negb]; [|done]. destruct (optionalIP (SourceIp r)) as [src|] eqn:Es; cbn [mbind result_bind]; [|done].
  destruct (optionalIP (GatewayIp r)) as [gw|] eqn:Eg; cbn [mbind result_bind]; [|done]. intros [= <-]. apply optionalIP_ok in Es as [? ?], Eg as [? ?].
  cbn. split_and!; try done; [by eapply destinationOk_size|by exists m|]. by case_bool_decide; case_decide.
Qed.

Lemma routeOfSpec_type_witness : exists route,
  routeOfSpec (mkRouteSpec "10.0.0.0/8" "192.0.2.254" "" 100) (mkLink NewLinkAttrs Device) = Ok route /\ netOk true (Dst route) /\ ipOk (Gw route).
Proof.
  assert (exists route, routeOfSpec (mkRouteSpec "10.0.0.0/8" "192.0.2.254" "" 100) (mkLink NewLinkAttrs Device) = Ok route) as [route Hr] by (eexists; vm_compute; reflexivity).
  exists route. destruct (routeOfSpec_type _ _ route Hr) as (H1 & _ & _ & _ & H2 & _). exact (conj Hr (conj H1 H2)).
Defined.

(** An IPv4 prefix written as an IPv6 one keeps its mask of 128 bits; a single address does not. *)
Lemma mapped_prefix :
  (Mask <$> addressOrPrefix "::ffff:10.0.0.0/104") = Ok (CIDRMask 104 128) /\ (To4 ∘ IP <$> addressOrPrefix "::ffff:10.0.0.0/104") = Ok (Some [10; 0; 0; 0]%Z) /\
  (Mask <$> addressOrPrefix "::ffff:10.0.0.1") = Ok (CIDRMask 32 32).
Proof. split_and!; vm_compute; reflexivity. Qed.

End StaticProps.
