(* ===== verification/StaticRun.v ===== *)
(** * The static configuration as a whole

    [runStaticConfig] for every behaviour of the host: links refer to links configured
    before, and a failure deletes the links that were added and sets the changed ones down. *)

From S2P Require Import Prelude GoStrings Bytes Toposort NetAddr StaticConfig StaticProps.
From Stdlib Require Import ZArith.

Module StaticRun.
Import Bytes NetAddr StaticConfig StaticProps.

Section run.
Context {H : Host}.

(** ** Programs *)

Definition wp {A} (m : M A) (Q : st -> outcome A -> Prop) (s : st) : Prop := Q (m s).1 (m s).2.

Lemma wp_conseq {A} (m : M A) (Q Q' : st -> outcome A -> Prop) s : (forall s o, Q s o -> Q' s o) -> wp m Q s -> wp m Q' s.
Proof. unfold wp. auto. Qed.

Lemma wp_seq {A B} (m : M A) (k : A -> M B) Q s :
  wp m (fun s o => match o with
    | Returns a => wp (k a) Q s
    | Fails e => Q s (Fails e)
    | Panics => Q s Panics
    | Diverges => Q s Diverges
    end) s -> wp (m ≫= k) Q s.
Proof. unfold wp, mbind, M_bind. destruct (m s) as [s' [a|e| |]]; done. Qed.

(** ** Links that were configured *)

(** The link of a successful addition or change. *)
Definition configured (e : event) : option Link :=
  match e with
  | mkEvent (LinkAdd l) (Ok i) => Some (set_Index i l)
  | mkEvent (LinkModify l) (Ok _) => Some l
  | _ => None
  end.
Definition links (t : list event) : list Link := omap configured t.

(** The cleanup that is deferred after a request: a link that was added is deleted, a device that was changed is
    set down.  Nothing else is cleaned up: not the attributes of a changed device, nor addresses, routes, options of the
    kernel and runnables. *)
Definition cleanupOf (e : event) : option request :=
  match e with
  | mkEvent (LinkAdd l) (Ok i) => Some (LinkDel (set_Index i l))
  | mkEvent (LinkModify l) (Ok _) => Some (LinkSetDown l)
  | _ => None
  end.

Definition cleanup (e : event) : bool :=
  match ev_request e with LinkDel _ | LinkSetDown _ => true | _ => false end.

(** Events that neither configure a link nor clean it up. *)
Definition quietReq (r : request) : bool :=
  match r with LinkAdd _ | LinkModify _ | LinkDel _ | LinkSetDown _ => false | _ => true end.

Definition extends (s s' : st) : Prop :=
  defers s' = defers s /\ exists t, trace s' = trace s ++ t /\ Forall (fun e => quietReq (ev_request e) = true) t.

Definition regular {A} (o : outcome A) : Prop := match o with Panics | Diverges => False | _ => True end.

(** A program that only has such events, and neither panics nor diverges. *)
Definition quiet {A} (m : M A) : Prop := forall s, wp m (fun s' o => extends s s' /\ regular o) s.

Lemma extends_refl s : extends s s.
Proof. split; [done|]. exists []. by rewrite app_nil_r. Qed.

Lemma extends_trans s1 s2 s3 : extends s1 s2 -> extends s2 s3 -> extends s1 s3.
Proof.
  intros (H1 & t1 & E1 & F1) (H2 & t2 & E2 & F2). split; [congruence|]. exists (t1 ++ t2). rewrite E2, E1, app_assoc. split; [done|]. by apply Forall_app.
Qed.

Lemma wp_quiet {A} (m : M A) Q s : quiet m -> (forall s' a, extends s s' -> Q s' (Returns a)) -> (forall s' e, extends s s' -> Q s' (Fails e)) -> wp m Q s.
Proof.
  intros Hm Hr Hf. specialize (Hm s). unfold wp in *. destruct (m s) as [s' [a|e| |]]; cbn in *; destruct Hm as [? []]; auto.
Qed.

Lemma quiet_ret {A} (a : A) : quiet (mret a).
Proof. intros s. split; [apply extends_refl|done]. Qed.

Lemma quiet_fail {A} e : quiet (fail e : M A).
Proof. intros s. split; [apply extends_refl|done]. Qed.

Lemma quiet_bind {A B} (m : M A) (k : A -> M B) : quiet m -> (forall a, quiet (k a)) -> quiet (m ≫= k).
Proof.
  intros Hm Hk s. apply wp_seq. apply wp_quiet; [done| |].
  - intros s' a He. eapply wp_conseq; [|apply Hk]. intros s2 o [? ?]. split; [by eapply extends_trans|done].
  - done.
Qed.

Lemma quiet_call r : quietReq r = true -> quiet (call r).
Proof.
  intros Hr s. unfold wp, call. destruct (handle r (host s)) as [h x]. split; [|done]. split; [done|]. eexists. split; [done|]. by repeat constructor.
Qed.

Lemma quiet_try r e : quietReq r = true -> quiet (try_ r e).
Proof. intros Hr. apply quiet_bind; [by apply quiet_call|]. intros [a|e']; [apply quiet_ret|apply quiet_fail]. Qed.

Lemma quiet_lift {A} (r : result string A) : quiet (lift r).
Proof. destruct r; [apply quiet_ret|apply quiet_fail]. Qed.

Lemma quiet_wrap {A} e (m : M A) : quiet m -> quiet (wrap e m).
Proof. intros Hm s. specialize (Hm s). unfold wp, wrap in *. destruct (m s) as [s' [a|e'| |]]; done. Qed.

Lemma quiet_forEach {A} (f : A -> M unit) l : (forall a, quiet (f a)) -> quiet (forEach f l).
Proof. intros Hf. induction l as [|a l IH]; [apply quiet_ret|]. apply quiet_bind; [apply Hf|done]. Qed.

Lemma quiet_if {A} (b : bool) (m1 m2 : M A) : quiet m1 -> quiet m2 -> quiet (if b then m1 else m2).
Proof. by destruct b. Qed.

Create HintDb quiet.
#[local] Hint Resolve quiet_ret quiet_fail quiet_lift : quiet.
#[local] Hint Extern 2 (quiet (mbind _ _)) => apply quiet_bind; [|intros ?] : quiet.
#[local] Hint Extern 1 (@quiet _ (call ?r)) => exact (quiet_call r eq_refl) : quiet.
#[local] Hint Extern 1 (@quiet _ (try_ ?r ?e)) => exact (quiet_try r e eq_refl) : quiet.
#[local] Hint Extern 2 (quiet (wrap _ _)) => apply quiet_wrap : quiet.
#[local] Hint Extern 2 (quiet (forEach _ _)) => apply quiet_forEach; intros ? : quiet.
#[local] Hint Extern 2 (quiet (if _ then _ else _)) => apply quiet_if : quiet.

Lemma quiet_Apply opts : quiet (Apply opts).
Proof. apply quiet_forEach. intros [name value]. auto with quiet. Qed.
#[local] Hint Resolve quiet_Apply : quiet.

Lemma quiet_configureLink i l : quiet (configureLink i l).
Proof. unfold configureLink, runDHCPv4, addAddrFromSpec, routeFromSpec. auto 12 with quiet. Qed.

Lemma quiet_listLinks ls : forall ds lo, quiet (listLinks ls ds lo).
Proof. induction ls as [|l ls IH]; intros ds lo; cbn [listLinks]; [apply quiet_ret|]. auto with quiet. Qed.

Lemma quiet_listHostDeviceIfaces : quiet listHostDeviceIfaces.
Proof. apply quiet_bind; [auto with quiet|]. intros ls. apply quiet_listLinks. Qed.

(** ** What holds of the trace *)

Section config.
Variable ifaces : list Interface.
Hypothesis names_ok : Forall validName ifaces.
Hypothesis acyclic : ~ circular ifaces.
Hypothesis typed : Forall (fun i => Type_ i <> None) ifaces.

(** The interface that is configured as [p] is a bond with member [m]. *)
Definition bondOf (p m : string) : Prop :=
  exists b d, winner ifaces p = Some b /\ Type_ b = Some (Interface_Bond d) /\ m ∈ MemberInterface d.

(** A link that was configured when [ls] were: a VLAN has the index of its parent, a member
    of a bond the index of a bond, other links are up. *)
Record soundLink (ls : list Link) (l : Link) : Prop := {
  sl_vlan i v : winner ifaces (LinkName (Attrs l)) = Some i -> Type_ i = Some (Interface_Vlan v) ->
    exists p, p ∈ ls /\ LinkName (Attrs p) = Parent v /\ ParentIndex (Attrs l) = Index (Attrs p);
  sl_master : (FlagUp (Attrs l) = true /\ forall b, ~ bondOf b (LinkName (Attrs l))) \/
    exists p, p ∈ ls /\ bondOf (LinkName (Attrs p)) (LinkName (Attrs l)) /\ MasterIndex (Attrs l) = Index (Attrs p)
}.

Definition sound (t : list event) : Prop :=
  forall k e l, t !! k = Some e -> configured e = Some l -> soundLink (links (take k t)) l.

(** Nothing was cleaned up yet, and everything that is to be cleaned up is deferred. *)
Definition tidy (s : st) : Prop :=
  sound (trace s) /\ defers s = reverse (omap cleanupOf (trace s)) /\ Forall (fun e => cleanup e = false) (trace s).

Lemma sound_snoc t e : sound t -> (forall l, configured e = Some l -> soundLink (links t) l) -> sound (t ++ [e]).
Proof.
  intros Ht He k e' l Hk Hc. destruct (decide (k < length t)%nat) as [Hlt|Hge].
  - rewrite lookup_app_l in Hk by done. rewrite take_app_le by lia. by eapply Ht.
  - rewrite lookup_app_r in Hk by lia. apply list_lookup_singleton_Some in Hk as [Hk <-]. rewrite take_app_length' by lia. by apply He.
Qed.

Lemma quietReq_configured e : quietReq (ev_request e) = true -> configured e = None /\ cleanupOf e = None /\ cleanup e = false.
Proof. destruct e as [[] x]; cbn; try done; by destruct x. Qed.

Lemma extends_links s s' : extends s s' -> links (trace s') = links (trace s).
Proof.
  intros (_ & t & -> & Ht). unfold links. rewrite omap_app. induction Ht as [|e t He Ht IH]; [by rewrite app_nil_r|].
  cbn. destruct (quietReq_configured e He) as (-> & _). done.
Qed.

Lemma tidy_extends s s' : tidy s -> extends s s' -> tidy s'.
Proof.
  intros (H1 & H2 & H3) (E & t & Et & Ht). unfold tidy. rewrite Et, E, H2. clear Et E H2. revert H1 H3. generalize (trace s) as t0.
  induction Ht as [|e t He Ht IH]; intros t0 H1 H3; [by rewrite app_nil_r|]. destruct (quietReq_configured e He) as (Hc & Hu & Hl).
  rewrite cons_middle, app_assoc. destruct (IH (t0 ++ [e])) as (I1 & I2 & I3).
  - apply sound_snoc; [done|]. by rewrite Hc.
  - apply Forall_app. auto.
  - split_and!; [done| |done]. rewrite <- I2. rewrite omap_app. cbn. by rewrite Hu, app_nil_r.
Qed.

(** ** The loop *)

Record inv (pre : list string) (s : st) (ls : loopState) : Prop := {
  i_tidy : tidy s;
  i_link n l : nameLinkMap ls !! n = Some l -> l ∈ links (trace s) /\ LinkName (Attrs l) = n;
  i_dom n : is_Some (nameLinkMap ls !! n) <-> n ∈ pre;
  i_parent m p : nameParentMap ls !! m = Some p -> is_Some (nameLinkMap ls !! p) /\ bondOf p m;
  i_member p m : is_Some (nameLinkMap ls !! p) -> bondOf p m -> is_Some (nameParentMap ls !! m)
}.

Lemma inv_extends pre s s' ls : inv pre s ls -> extends s s' -> inv pre s' ls.
Proof.
  intros [H1 H2 H3 H4 H5] He. split; [by eapply tidy_extends|rewrite (extends_links s s') by done; done|done..].
Qed.

Lemma winner_valid n i : winner ifaces n = Some i -> n <> "".
Proof.
  intros Hw ->. apply winner_Some in Hw as [Hi Hn]. rewrite Forall_forall in names_ok. specialize (names_ok i Hi). unfold validName in names_ok.
  rewrite Hn in names_ok. done.
Qed.

Lemma bondOf_depends p m : bondOf p m -> depends ifaces m p.
Proof. intros (b & d & [Hb Hn]%winner_Some & Ht & Hm). right. by exists b, d. Qed.

(** The parents after the members of a bond were added. *)
Definition parentsOf (i : Interface) (parents : gmap string string) : gmap string string :=
  match Type_ i with
  | Some (Interface_Bond b) => foldl (fun parents m => <[m := Name i]> parents) parents (MemberInterface b)
  | _ => parents
  end.

Lemma parentsOf_Some i parents m p : winner ifaces (Name i) = Some i ->
  parentsOf i parents !! m = Some p -> (p = Name i /\ bondOf (Name i) m) \/ parents !! m = Some p.
Proof.
  intros Hw. unfold parentsOf. destruct (Type_ i) as [[d|b|v]|] eqn:E; auto.
  assert (forall ms (parents : gmap string string), foldl (fun parents m => <[m := Name i]> parents) parents ms !! m = Some p -> (p = Name i /\ m ∈ ms) \/ parents !! m = Some p) as Hf.
  { induction ms as [|x ms IH]; intros ps Hp; cbn [foldl] in Hp; [by right|]. apply IH in Hp as [[-> Hm]|Hp]; [left; set_solver|].
    destruct (decide (x = m)) as [->|]; [rewrite lookup_insert_eq in Hp; left; set_solver|rewrite lookup_insert_ne in Hp by done; by right]. }
  intros [[-> Hm]|Hp]%Hf; [left; split; [done|by exists i, b]|by right].
Qed.

Lemma parentsOf_is_Some i parents m : winner ifaces (Name i) = Some i ->
  bondOf (Name i) m \/ is_Some (parents !! m) -> is_Some (parentsOf i parents !! m).
Proof.
  intros Hw. unfold parentsOf, bondOf. rewrite Hw. destruct (Type_ i) as [[d|b|v]|] eqn:E; [naive_solver| |naive_solver..].
  intros Hm. assert (m ∈ MemberInterface b \/ is_Some (parents !! m)) as Hm' by naive_solver. clear Hm. revert Hm'.
  generalize (MemberInterface b) as ms. intros ms. revert parents. induction ms as [|x ms IH]; intros ps Hm; cbn [foldl]; [set_solver|].
  apply IH. destruct (decide (x = m)) as [->|]; [right; by rewrite lookup_insert_eq|]. rewrite lookup_insert_ne by done. set_solver.
Qed.

Lemma newLinkOf_ok i hd ls s : i ∈ ifaces -> (forall d, depends ifaces (Name i) d -> is_Some (nameLinkMap ls !! d)) ->
  wp (newLinkOf i hd ls) (fun s' o => s' = s /\ match o with
    | Returns (l, ps) => ps = parentsOf i (nameParentMap ls) /\
        forall v, Type_ i = Some (Interface_Vlan v) -> exists p, nameLinkMap ls !! Parent v = Some p /\ ParentIndex (Attrs l) = Index (Attrs p)
    | Fails _ => True
    | _ => False
    end) s.
Proof.
  intros Hi Hd. unfold wp, newLinkOf, parentsOf. pose proof (proj1 (Forall_forall _ _) typed i Hi) as Ht. destruct (Type_ i) as [[d|b|v]|] eqn:E; [..|done].
  - unfold mbind, M_bind, wrap, lift. by destruct (deviceIfaceFromSpec d hd).
  - unfold mbind, M_bind, wrap, lift. by destruct (bondIfaceFromSpec b).
  - destruct (Hd (Parent v)) as [p Hp]; [left; by exists i, v|]. rewrite Hp. split; [done|]. split; [done|]. intros v' [= ->]. by exists p.
Qed.

Lemma setAttrs_ok i links ps l s : (forall p, ps !! Name i = Some p -> p <> "" /\ is_Some (links !! p)) ->
  wp (setAttrs i links ps l) (fun s' o => s' = s /\ match o with
    | Returns l' => LinkName (Attrs l') = Name i /\ ParentIndex (Attrs l') = ParentIndex (Attrs l) /\
        ((FlagUp (Attrs l') = true /\ ps !! Name i = None) \/
         exists p m, ps !! Name i = Some p /\ links !! p = Some m /\ MasterIndex (Attrs l') = Index (Attrs m))
    | _ => False
    end) s.
Proof.
  intros Hp. unfold wp, setAttrs. destruct (ps !! Name i) as [p|] eqn:E; cbn [default from_option id].
  - destruct (Hp p eq_refl) as [Hne [m Hm]]. rewrite bool_decide_eq_true_2 by done. rewrite Hm. split; [done|].
    destruct (Mtu i =? 0)%Z; (split_and!; [done..|right; by exists p, m]).
  - rewrite bool_decide_eq_false_2 by naive_solver. split; [done|]. destruct (Mtu i =? 0)%Z; (split_and!; [done..|by left]).
Qed.

(** One more event. *)
Definition addsEvent (s s' : st) (e : event) : Prop :=
  trace s' = trace s ++ [e] /\ cleanup e = false /\ defers s' = option_list (cleanupOf e) ++ defers s.

Lemma applyLink_ok l s : wp (applyLink l) (fun s' o => exists e, addsEvent s s' e /\ match o with
    | Returns l' => configured e = Some l' /\ exists i, l' = set_Index i l
    | Fails _ => configured e = None
    | _ => False
    end) s.
Proof.
  unfold wp, applyLink, try_, call, mbind, M_bind. destruct (_ <=? _)%Z.
  - destruct (handle (LinkAdd l) (host s)) as [h [i|e]]; eexists; (split; [split_and!; reflexivity|]); [split; [done|by exists i]|done].
  - destruct (handle (LinkModify l) (host s)) as [h [[]|e]]; eexists; (split; [split_and!; reflexivity|]); [|done].
    split; [done|]. exists (Index (Attrs l)). by destruct l as [[] ?].
Qed.

Lemma tidy_event s s' e : tidy s -> addsEvent s s' e -> (forall l, configured e = Some l -> soundLink (links (trace s)) l) -> tidy s'.
Proof.
  intros (H1 & H2 & H3) (E1 & E2 & E3) Hl. unfold tidy. rewrite E1, E3, H2. split_and!; [by apply sound_snoc| |apply Forall_app; auto].
  rewrite omap_app, reverse_app. f_equal. cbn. by destruct (cleanupOf e).
Qed.

(** The link that is applied is sound. *)
Lemma link_sound pre s ls i l l' k :
  inv pre s ls -> winner ifaces (Name i) = Some i -> (forall d, depends ifaces (Name i) d -> is_Some (nameLinkMap ls !! d)) ->
  (forall v, Type_ i = Some (Interface_Vlan v) -> exists p, nameLinkMap ls !! Parent v = Some p /\ ParentIndex (Attrs l) = Index (Attrs p)) ->
  LinkName (Attrs l') = Name i -> ParentIndex (Attrs l') = ParentIndex (Attrs l) ->
  (FlagUp (Attrs l') = true /\ parentsOf i (nameParentMap ls) !! Name i = None) \/
    (exists p m, parentsOf i (nameParentMap ls) !! Name i = Some p /\ nameLinkMap ls !! p = Some m /\ MasterIndex (Attrs l') = Index (Attrs m)) ->
  soundLink (links (trace s)) (set_Index k l').
Proof.
  intros Hinv Hw Hd Hv Hn Hp Hm. split; cbn.
  - intros i' v Hi' Ht. rewrite Hn, Hw in Hi'. injection Hi' as <-. destruct (Hv v Ht) as (p & Hlook & Hpi). exists p. split_and!; [by eapply i_link|by eapply i_link|congruence].
  - rewrite Hn. destruct Hm as [[Hup Hnone]|(p & m & Hp' & Hlm & Hmi)].
    + left. split; [done|]. intros b Hb. assert (is_Some (parentsOf i (nameParentMap ls) !! Name i)) as [x Hx]; [|congruence].
      apply parentsOf_is_Some; [done|]. right. eapply (i_member pre s ls Hinv); [|done]. by apply Hd, bondOf_depends.
    + right. exists m. destruct (i_link pre s ls Hinv p m Hlm) as [Hin Hname]. split_and!; [done| |done]. rewrite Hname.
      apply parentsOf_Some in Hp' as [[-> Hb]|Hp']; [done| |done]. by eapply i_parent.
Qed.

Lemma inv_step pre s s' ls i l a : inv pre s ls -> winner ifaces (Name i) = Some i -> tidy s' -> (forall l, l ∈ links (trace s) -> l ∈ links (trace s')) ->
  l ∈ links (trace s') -> LinkName (Attrs l) = Name i ->
  inv (pre ++ [Name i]) s' (mkLoop a (<[Name i := l]> (nameLinkMap ls)) (parentsOf i (nameParentMap ls))).
Proof.
  intros [H1 H2 H3 H4 H5] Hw Ht Hl Hin Hn. split; cbn; [done|..].
  - intros n l'. destruct (decide (Name i = n)) as [<-|]; [rewrite lookup_insert_eq; naive_solver|rewrite lookup_insert_ne by done]. intros [? ?]%H2. auto.
  - intros n. rewrite lookup_insert_is_Some', H3. set_solver.
  - intros m p Hp. rewrite lookup_insert_is_Some'. apply parentsOf_Some in Hp as [[-> Hb]|Hp]; [by auto| |done]. destruct (H4 m p Hp). auto.
  - intros p m Hp Hb. apply parentsOf_is_Some; [done|]. rewrite lookup_insert_is_Some' in Hp. destruct Hp as [->|Hp]; [by left|right; by eapply H5].
Qed.

Lemma configureIface_ok hd pre s ls i :
  inv pre s ls -> winner ifaces (Name i) = Some i -> (forall d, depends ifaces (Name i) d -> d ∈ pre) ->
  wp (configureIface hd i ls) (fun s' o => match o with
    | Returns ls' => inv (pre ++ [Name i]) s' ls'
    | Fails _ => tidy s'
    | _ => False
    end) s.
Proof.
  intros Hinv Hw Hdep. assert (forall d, depends ifaces (Name i) d -> is_Some (nameLinkMap ls !! d)) as Hd by (intros d Hd; by apply (i_dom pre s ls Hinv), Hdep).
  pose proof (i_tidy pre s ls Hinv) as Htidy. apply wp_seq. eapply wp_conseq; [|apply newLinkOf_ok; [by eapply winner_Some|done]].
  intros s1 [[l ps]|e| |] [-> Hl]; [|done..]. destruct Hl as [-> Hv]. apply wp_seq. eapply wp_conseq; [|apply setAttrs_ok].
  2:{ intros p [[-> Hb]|Hp]%parentsOf_Some; [..|done].
      - exfalso. apply acyclic. exists (Name i). apply relations.tc_once. by apply bondOf_depends.
      - destruct (i_parent pre s ls Hinv _ _ Hp) as [? (b & d & Hb & _)]. split; [by eapply winner_valid|done]. }
  intros s1 [l1|e| |] [-> Hl1]; [|done..]. destruct Hl1 as (Hn & Hp & Hm). apply wp_seq. eapply wp_conseq; [|apply applyLink_ok].
  intros s1 [l2|e| |] (ev & Hev & Hl2); [| |done..].
  2:{ eapply tidy_event; [done..|]. by rewrite Hl2. }
  destruct Hl2 as [Hc [k ->]]. assert (tidy s1) as Ht1.
  { eapply tidy_event; [done..|]. rewrite Hc. intros ? [= <-]. by eapply link_sound. }
  destruct Hev as (Etr & _). assert (links (trace s1) = links (trace s) ++ [set_Index k l1]) as El.
  { unfold links. rewrite Etr, omap_app. cbn. by rewrite Hc. }
  apply wp_seq, wp_quiet; [apply quiet_configureLink| |intros s2 e Hs2; by eapply tidy_extends].
  intros s2 [] Hs2. unfold wp. cbn. eapply inv_step; [exact Hinv|done|by eapply tidy_extends| | |done]; rewrite (extends_links s1 s2), El by done; set_solver.
Qed.

Lemma configureIfaces_ok hd out : goodOrder ifaces out -> forall rest pre0 s ls, out = pre0 ++ rest -> inv (omap (fmap Name) pre0) s ls ->
  wp (configureIfaces hd rest ls) (fun s' o => match o with
    | Returns ls' => inv (omap (fmap Name) out) s' ls'
    | Fails _ => tidy s'
    | _ => False
    end) s.
Proof.
  intros Hout. induction rest as [|x rest IH]; intros pre0 s ls E Hinv; cbn [configureIfaces].
  { rewrite app_nil_r in E. by subst. }
  destruct (o_winner ifaces out Hout x) as (i & -> & Hw); [subst; set_solver|]. apply wp_seq. eapply wp_conseq; [|apply configureIface_ok; [done..|]].
  - intros s' [ls'|e| |] Ho; [|done..]. apply (IH (pre0 ++ [Some i])); [by rewrite <- app_assoc|]. by rewrite omap_app.
  - intros d Hd. destruct (o_order ifaces out Hout (length pre0) i d) as (j & i' & Hj & Hi' & <-); [subst; by rewrite list_lookup_middle|done|].
    apply list_elem_of_omap. exists (Some i'). split; [|done]. apply list_elem_of_lookup. exists j. subst. by rewrite lookup_app_l in Hi'.
Qed.

Definition covered (s : st) : Prop := forall i, i ∈ ifaces -> exists l, l ∈ links (trace s) /\ LinkName (Attrs l) = Name i.

Lemma inv_covered out s ls : goodOrder ifaces out -> inv (omap (fmap Name) out) s ls -> covered s.
Proof.
  intros Hout Hinv i Hi. pose proof (o_all ifaces out Hout i Hi) as Hw. assert (defined ifaces (Name i)) as [w Hw']%winner_defined by (by exists i).
  assert (is_Some (nameLinkMap ls !! Name i)) as [l Hl]; [|exists l; by eapply i_link].
  apply (i_dom _ s ls Hinv), list_elem_of_omap. exists (Some w). split; [by rewrite <- Hw'|]. cbn. f_equal. by eapply winner_Some.
Qed.

End config.

(** ** The whole runnable *)

Definition typed (config : Net) : Prop := Forall (fun i => Type_ i <> None) (Interfaces config).

Lemma quiet_ignore {A} (m : M A) : quiet m -> quiet (ignore m).
Proof. intros Hm. apply quiet_bind; [done|]. intros a. apply quiet_ret. Qed.
#[local] Hint Extern 2 (quiet (ignore _)) => apply quiet_ignore : quiet.

Lemma tidy_start l s : trace s = [] -> defers s = [] -> tidy l s.
Proof. intros Ht Hd. unfold tidy. rewrite Ht, Hd. split_and!; [intros k e x Hk; done|done|constructor]. Qed.

Lemma inv_start l s : tidy l s -> inv l [] s (mkLoop false ∅ ∅).
Proof.
  intros Ht. split; cbn; [done|done|..].
  - intros n. rewrite lookup_empty. split; [by intros [? ?]|set_solver].
  - done.
  - intros p m. rewrite lookup_empty. by intros [? ?].
Qed.

(** The rest of the runnable, once the interfaces are known. *)
Lemma wp_bind_quiet {A B} l (m : M A) (k : A -> M B) s (Q : st -> B -> Prop) : quiet m -> tidy l s ->
  (forall s' a, extends s s' -> tidy l s' -> wp (k a) (fun s o => match o with Returns b => Q s b | Fails _ => tidy l s | _ => False end) s') ->
  wp (m ≫= k) (fun s o => match o with Returns b => Q s b | Fails _ => tidy l s | _ => False end) s.
Proof.
  intros Hm Ht Hk. apply wp_seq, wp_quiet; [done| |].
  - intros s' a He. apply Hk; [done|by eapply tidy_extends].
  - intros s' e He. by eapply tidy_extends.
Qed.

Lemma staticConfig_ok extra config s : typed config -> tidy (Interfaces config) s ->
  wp (staticConfig extra config) (fun s o => match o with
    | Returns _ => tidy (Interfaces config) s /\ covered (Interfaces config) s
    | Fails _ => tidy (Interfaces config) s
    | _ => False
    end) s.
Proof.
  intros Htyped Ht. set (l := Interfaces config) in *. apply wp_seq. pose proof (sorted_view config) as Hv. cbn zeta in Hv. fold l in Hv.
  unfold wp at 1. destruct (getSortedIfaces config) as [[out|e]|]; cbn [fst snd]; [|done..].
  destruct Hv as (gs & order & Hb & Hvalid & _ & Hac & _ & -> & Hdef & Hord). pose proof (goodOrder_built l gs order Hb Hdef Hord) as Hout.
  apply (wp_bind_quiet l _ _ _ (fun s _ => tidy l s /\ covered l s)); [apply quiet_listHostDeviceIfaces|done|]. intros s1 [hd [lo|]] _ Ht1; [|done].
  apply (wp_bind_quiet l _ _ _ (fun s _ => tidy l s /\ covered l s)); [auto with quiet|done|]. intros s2 _ _ Ht2.
  apply (wp_bind_quiet l _ _ _ (fun s _ => tidy l s /\ covered l s)); [auto with quiet|done|]. intros s3 _ _ Ht3.
  apply wp_seq. eapply wp_conseq; [|eapply (configureIfaces_ok l Hvalid Hac Htyped _ _ Hout _ []); [done|by apply inv_start]].
  intros s4 [ls|e| |] Ho; [|done..]. apply wp_quiet; [auto 9 with quiet| |].
  - intros s5 a He. pose proof (inv_extends l _ _ _ _ Ho He) as Hinv. split; [apply Hinv|by eapply inv_covered].
  - intros s5 e He. eapply tidy_extends; [apply Ho|done].
Qed.

Lemma runDefers_trace rs : forall s, exists u, trace (runDefers rs s).1 = trace s ++ u /\ ev_request <$> u = rs.
Proof.
  induction rs as [|r rs IH]; intros s; cbn [runDefers]; [exists []; by rewrite app_nil_r|]. unfold mbind, M_bind, call.
  destruct (handle r (host s)) as [h x]. destruct (IH (mkSt h (trace s ++ [mkEvent r x]) (defers s))) as (u & Hu & Hr).
  exists (mkEvent r x :: u). rewrite Hu. cbn. split; [by simplify_list_eq|by rewrite Hr].
Qed.

(** C22: Whatever the host does, the runnable does not panic if every interface has a type.
    Every VLAN it configures has the index of a link configured before for its parent, every
    member of a bond has the index of its bond, and all others are set up.  If it
    succeeds, every interface was configured and nothing was cleaned up; if it fails, the last
    requests are, in reverse order, the deletion of each link that was added and setting down
    each device that was changed, and nothing else is cleaned up. *)
Theorem runStaticConfig_correct (extra : list bytes) (config : Net) (s : st) :
  trace s = [] -> defers s = [] -> typed config ->
  let '(s', o) := runStaticConfig extra config s in
  exists done_ cleaned, trace s' = done_ ++ cleaned /\ sound (Interfaces config) done_ /\ Forall (fun e => cleanup e = false) done_ /\
    match o with
    | Returns _ => cleaned = [] /\ covered (Interfaces config) s'
    | Fails _ => ev_request <$> cleaned = reverse (omap cleanupOf done_)
    | Panics | Diverges => False
    end.
Proof.
  intros H1 H2 Hty. pose proof (staticConfig_ok extra config s Hty (tidy_start _ s H1 H2)) as Hok. unfold runStaticConfig, withDefers, wp in *.
  destruct (staticConfig extra config s) as [s' [[]|e| |]]; cbn in Hok |- *; [| |done..].
  - destruct Hok as [(Hs & _ & Hc) Hcov]. exists (trace s'), []. by rewrite app_nil_r.
  - destruct Hok as (Hs & Hd & Hc). destruct (runDefers_trace (defers s') s') as (u & Hu & Hr). exists (trace s'), u. split_and!; [done..|congruence].
Qed.

End run.
End StaticRun.

(** * A host for the static configuration

    A small kernel that knows links by name and index and rejects what exists already,
    configurations on it, and what goes wrong with some of them. *)

Module StaticExample.
Import Bytes NetAddr Toposort ToposortProps StaticConfig StaticProps StaticRun.
Open Scope Z_scope.

(** ** The host *)

Record kernel := mkKernel { kLinks : list (string * Z); kAddrs : list (Z * IPNet); kRuns : list string }.

Definition mkInfo (isDev : bool) (n : string) (i : Z) : hostLink := mkHostLink isDev i n 1500 0 [2; 0; 0; 0; 0; i] [].

(** The loopback interface and one device. *)
Definition boot : kernel := mkKernel [("lo", 1); ("eth0", 2)] [] [].

Definition info (k : kernel) (i : Z) : result string hostLink :=
  match List.find (fun p => p.2 =? i) (kLinks k) with
  | Some (n, i) => Ok (mkInfo (i <=? 2) n i)
  | None => Err "no such device"
  end.

Definition exampleHandle (r : request) : kernel -> kernel * result string (response r) :=
  match r return kernel -> kernel * result string (response r) with
  | LinkList => fun k => (k, Ok ((fun p => mkInfo (p.2 <=? 2) p.1 p.2) <$> kLinks k))
  | Readlink _ => fun k => (k, Ok "../../../bus/virtio/drivers/virtio_net")
  | LinkAdd l => fun k =>
      if bool_decide (LinkName (Attrs l) ∈ (kLinks k).*1) then (k, Err "file exists")
      else let i := len (kLinks k) + 1 in (mkKernel (kLinks k ++ [(LinkName (Attrs l), i)]) (kAddrs k) (kRuns k), Ok i)
  | LinkByIndex i => fun k => (k, info k i)
  | AddrAdd l a => fun k =>
      if bool_decide ((Index (Attrs l), AddrNet a) ∈ kAddrs k) then (k, Err "file exists")
      else (mkKernel (kLinks k) ((Index (Attrs l), AddrNet a) :: kAddrs k) (kRuns k), Ok tt)
  | Run n => fun k =>
      if bool_decide (n ∈ kRuns k) then (k, Err "tried to start a runnable that exists")
      else (mkKernel (kLinks k) (kAddrs k) (n :: kRuns k), Ok tt)
  | _ => fun k => (k, Ok tt)
  end.

#[local] Instance exampleHost : Host := { hstate := kernel; handle := exampleHandle; NewLinkBond := mkBondAttrs 0 (-1) (-1) (-1) (-1) None (-1) (-1) }.

Definition start : st := mkSt boot [] [].

(** ** Configurations *)

Definition device (name : string) (addrs : list string) : Interface := mkInterface name (Some (Interface_Device (mkDeviceSpec "" "virtio_net" 1))) false false addrs [] 0.
Definition vlan (name parent : string) : Interface := mkInterface name (Some (Interface_Vlan (mkVLANSpec parent 100 0))) false false [] [] 0.

(** A VLAN named after its parent, or before it. *)
Definition afterParent : Net := mkNet [vlan "eth0.100" "eth0"; device "eth0" ["192.0.2.1/24"]] ["192.0.2.254"].
Definition beforeParent : Net := mkNet [vlan "admin" "eth0"; device "eth0" ["192.0.2.1/24"]] [].

Lemma afterParent_runs : (runStaticConfig [] afterParent start).2 = Returns tt.
Proof. vm_compute. reflexivity. Qed.

Lemma runStaticConfig_correct_witness :
  let s' := (runStaticConfig [] afterParent start).1 in
  exists done_ cleaned, trace s' = done_ ++ cleaned /\ sound (Interfaces afterParent) done_ /\ cleaned = [] /\ covered (Interfaces afterParent) s'.
Proof.
  assert (typed afterParent) as Ht by (repeat constructor; done).
  pose proof (runStaticConfig_correct [] afterParent start eq_refl eq_refl Ht) as Hc. pose proof afterParent_runs as Hr.
  destruct (runStaticConfig [] afterParent start) as [s' o]. cbn in Hr. subst o. destruct Hc as (d & u & H1 & H2 & _ & H3 & H4).
  exists d, u. exact (conj H1 (conj H2 (conj H3 H4))).
Defined.

(** The address of the parent is added twice, so the configuration fails. *)
Lemma beforeParent_fails : (runStaticConfig [] beforeParent start).2 = Fails "failed adding address %q to link: %w".
Proof. vm_compute. reflexivity. Qed.

(** The address that was added stays, and no configuration with it succeeds afterwards. *)
Definition leftBehind : st := mkSt (host (runStaticConfig [] beforeParent start).1) [] [].

Lemma address_stays : (fun a => (a.1, IP a.2)) <$> kAddrs (host leftBehind) = [(2, v4InV6Prefix ++ [192; 0; 2; 1])].
Proof. vm_compute. reflexivity. Qed.

Lemma retry_fails : (runStaticConfig [] afterParent leftBehind).2 = Fails "failed adding address %q to link: %w".
Proof. vm_compute. reflexivity. Qed.

Lemma getSortedIfaces_twice_witness : exists out j k, getSortedIfaces beforeParent = Some (Ok out) /\ j <> k /\
  out !! j = Some (Some (device "eth0" ["192.0.2.1/24"])) /\ out !! k = Some (Some (device "eth0" ["192.0.2.1/24"])).
Proof.
  assert (depends (Interfaces beforeParent) "admin" "eth0") as Hd.
  { left. exists (vlan "admin" "eth0"), (mkVLANSpec "eth0" 100 0). split_and!; [by left|reflexivity..]. }
  set (out := [Some (device "eth0" ["192.0.2.1/24"]); Some (vlan "admin" "eth0"); Some (device "eth0" ["192.0.2.1/24"])]).
  assert (getSortedIfaces beforeParent = Some (Ok out)) as Hg by (vm_compute; reflexivity).
  destruct (getSortedIfaces_twice beforeParent out "admin" "eth0" Hg Hd eq_refl) as (j & k & Hjk & Hj & Hk).
  exists out, j, k. exact (conj Hg (conj Hjk (conj Hj Hk))).
Defined.

(** An interface without a type is dereferenced as nil. *)
Lemma untyped_panics : (runStaticConfig [] (mkNet [mkInterface "eth0" None false false [] [] 0] []) start).2 = Panics.
Proof. vm_compute. reflexivity. Qed.

(** The dots of a name become slashes: the option of the usual name of a VLAN is written to
    a file that does not exist. *)
Lemma dotted_sysctl : sysctlPath ("net.ipv6.conf." +:+ "eth0.100" +:+ ".accept_ra") = "/proc/sys/net/ipv6/conf/eth0/100/accept_ra".
Proof. vm_compute. reflexivity. Qed.

(** Names are limited to 15 characters, not bytes: eight times U+00C4 has 16 bytes. *)
Definition umlauts : string := String.concat "" (replicate 8 (String (ascii_of_nat 195) (String (ascii_of_nat 132) EmptyString))).
Lemma umlauts_valid : isValidDevName umlauts = Ok tt /\ String.length umlauts = 16%nat.
Proof. vm_compute. split; reflexivity. Qed.

(** ** Sorting *)

Definition diamond : Graph string :=
  AddEdge "a" "b" (AddEdge "a" "c" (AddEdge "b" "d" (AddEdge "c" "d" emptyGraph))).

Lemma TopologicalOrder_correct_witness : exists l, TopologicalOrder (fun _ l => reverse l) diamond = Some (Ok l) /\ NoDup l /\ ordered diamond l.
Proof.
  assert (graphOk diamond) as Hg by (repeat apply graphOk_AddEdge; apply graphOk_empty).
  pose proof (TopologicalOrder_correct (fun _ l => reverse l) diamond (fun k l => reverse_Permutation l) Hg) as Hc.
  assert (exists l, TopologicalOrder (fun _ l => reverse l) diamond = Some (Ok l)) as [l Hl] by (eexists; vm_compute; reflexivity).
  rewrite Hl in Hc. exists l. exact (conj Hl (conj (proj1 Hc) (proj1 (proj2 (proj2 Hc))))).
Defined.

End StaticExample.
