(* ===== verification/Bootparam.v ===== *)
(** * Kernel command lines

    Models [osbase/bootparam/bootparam.go]: encoding and decoding of boot parameters,
    with the proof that decoding inverts encoding.

    The loop of [Unmarshal] is over the characters that are left; the token it has read
    of the current parameter stands for the indices of the source. *)

From S2P Require Import Prelude GoStrings.

Module Bootparam.

Definition quote : ascii := ascii_of_nat 34.
Definition NUL : ascii := ascii_of_nat 0.
Definition xA0 : ascii := ascii_of_nat 160.

Record Param := mkParam { Name : string; Value : string; HasValue : bool }.
Abbreviation Params := (list Param).

Definition isSpace (r : ascii) : bool :=
  match nat_of_ascii r with
  | 9 | 10 | 11 | 12 | 13 | 32 | 160 => true
  | _ => false
  end.

Fixpoint TrimLeftSpace (s : string) : string :=
  match s with
  | EmptyString => EmptyString
  | String c r => if isSpace c then TrimLeftSpace r else s
  end.

Fixpoint containsSpace (s : string) : bool :=
  match s with
  | EmptyString => false
  | String c r => isSpace c || containsSpace r
  end.

(** ** What is used of [strings], for separators of one byte *)

(** [strings.Cut]. *)
Fixpoint Cut (s : string) (sep : ascii) : string * string * bool :=
  match s with
  | EmptyString => (EmptyString, EmptyString, false)
  | String c r =>
      if decide (c = sep) then (EmptyString, r, true)
      else let '(a, b, found) := Cut r sep in (String c a, b, found)
  end.

Definition HasPrefixByte (s : string) (c : ascii) : bool :=
  match s with String d _ => bool_decide (d = c) | EmptyString => false end.

Definition TrimPrefix (s : string) (c : ascii) : string :=
  match s with
  | String d r => if decide (d = c) then r else s
  | EmptyString => EmptyString
  end.

Fixpoint TrimSuffix (s : string) (c : ascii) : string :=
  match s with
  | EmptyString => EmptyString
  | String d EmptyString => if decide (d = c) then EmptyString else s
  | String d r => String d (TrimSuffix r c)
  end.

(** ** Decoding *)

Definition errEquals : string := "param contains = at first position, this causes broken behavior".

Definition parseToken (token : string) : result string Param :=
  if HasPrefix token "=" || HasPrefix token (String quote "=") then Err errEquals
  else
    let '(param, value, hasValue) := Cut token "=" in
    let name :=
      if HasPrefixByte param quote then
        let name := TrimPrefix param quote in
        if hasValue then name else TrimSuffix name quote
      else param in
    let val :=
      if hasValue then
        if HasPrefixByte value quote then TrimSuffix (TrimPrefix value quote) quote
        else if HasPrefixByte param quote then TrimSuffix value quote
        else value
      else EmptyString in
    (* the named result p has no other assignment, so HasValue is never set *)
    Ok (mkParam name val false).

(** Parameters, rest and error. *)
Definition decoded : Type := Params * string * option string.

Fixpoint scan (s token : string) (inQuote : bool) (params : Params) : decoded :=
  match s with
  | EmptyString =>
      if bool_decide (token = EmptyString) then (params, EmptyString, None)
      else if bool_decide (TrimLeftSpace token = EmptyString) then (params, EmptyString, None)
      else match parseToken token with
           | Err e => (params, EmptyString, Some e)
           | Ok p =>
               if bool_decide (Name p = "--") then (params, EmptyString, None)
               else (params ++ [p], EmptyString, None)
           end
  | String c r =>
      if isSpace c && negb inQuote then
        if bool_decide (TrimLeftSpace token = EmptyString) then scan r EmptyString inQuote params
        else match parseToken token with
             | Err e => (params, EmptyString, Some e)
             | Ok p =>
                 if bool_decide (Name p = "--") then (params, TrimLeftSpace r, None)
                 else scan r EmptyString inQuote (params ++ [p])
             end
      else scan r (token +:+ String c EmptyString) (if bool_decide (c = quote) then negb inQuote else inQuote) params
  end.

Definition Unmarshal (cmdline : string) : decoded :=
  let cmdline := TrimLeftSpace cmdline in
  let cmdline := (Cut cmdline NUL).1.1 in
  scan cmdline EmptyString false [].

(** ** Encoding *)

(** The checks of the loop, in their order. *)
Definition checkParam (p : Param) : result string unit :=
  if ContainsByte (Name p) "=" then Err "invalid '=' character in param %q"
  else if ContainsByte (Name p) quote then Err "invalid quote character in param %q"
  else if ContainsByte (Value p) quote then Err "invalid quote character in value %q"
  else if ContainsByte (Name p) NUL then Err "invalid null byte in param %q"
  else if ContainsByte (Value p) NUL then Err "invalid null byte in value %q"
  else if ContainsByte (Name p) xA0 then Err "invalid 0xa0 byte in param %q"
  else if ContainsByte (Value p) xA0 then Err "invalid 0xa0 byte in value %q"
  else if bool_decide (Value p <> EmptyString) && containsSpace (Name p) then Err "param %q contains spaces and value, this is unsupported"
  else if bool_decide (Name p = "--") then Err "param '--' is reserved and cannot be used"
  else if bool_decide (Name p = EmptyString) then Err "empty params are not supported"
  else Ok tt.

Definition quoted (s : string) : string :=
  if containsSpace s then String quote (s +:+ String quote EmptyString) else s.

(** The parameter without the space after it. *)
Definition token (p : Param) : string :=
  quoted (Name p) +:+ (if bool_decide (Value p <> EmptyString) then String "=" (quoted (Value p)) else EmptyString).

Fixpoint writeParams (params : Params) (strb : string) : result string string :=
  match params with
  | [] => Ok strb
  | p :: params =>
      match checkParam p with
      | Err e => Err e
      | Ok _ => writeParams params (strb +:+ token p +:+ " ")
      end
  end.

Definition Marshal (params : Params) (rest : string) : result string string :=
  if ContainsByte rest NUL then Err "rest contains 0x00 byte, this is disallowed"
  else
    strb ← writeParams params EmptyString;
    Ok (strb +:+ if bool_decide (rest = EmptyString) then EmptyString else "-- " +:+ TrimLeftSpace rest).

(** ** Strings *)

Lemma TrimSuffix_snoc s c : TrimSuffix (s +:+ String c EmptyString) c = s.
Proof.
  induction s as [|d s IH]; cbn [String.append TrimSuffix]; [by rewrite decide_True|]. rewrite IH. by destruct s.
Qed.

Lemma Cut_app a b c : ContainsByte a c = false -> Cut (a +:+ String c b) c = (a, b, true).
Proof.
  induction a as [|d a IH]; cbn [ContainsByte String.append Cut]; [by rewrite decide_True|]. intros [Hd Ha]%orb_false_iff. apply bool_decide_eq_false in Hd.
  rewrite decide_False by done. by rewrite IH.
Qed.

Lemma Cut_none a c : ContainsByte a c = false -> Cut a c = (a, EmptyString, false).
Proof.
  induction a as [|d a IH]; cbn [ContainsByte Cut]; [done|]. intros [Hd Ha]%orb_false_iff. apply bool_decide_eq_false in Hd.
  rewrite decide_False by done. by rewrite IH.
Qed.

Lemma TrimLeftSpace_idem s : TrimLeftSpace (TrimLeftSpace s) = TrimLeftSpace s.
Proof. induction s as [|c s IH]; [done|]. cbn. destruct (isSpace c) eqn:E; [done|]. cbn. by rewrite E. Qed.

Lemma TrimLeftSpace_contains s c : ContainsByte s c = false -> ContainsByte (TrimLeftSpace s) c = false.
Proof. induction s as [|d s IH]; [done|]. cbn. intros [Hd Hs]%orb_false_iff. destruct (isSpace d); [auto|]. cbn. by rewrite Hd, Hs. Qed.

(** ** What can be encoded *)

Record encodable (p : Param) : Prop := {
  e_name c : c ∈ ["="%char; quote; NUL; xA0] -> ContainsByte (Name p) c = false;
  e_value c : c ∈ [quote; NUL; xA0] -> ContainsByte (Value p) c = false;
  e_spaces : Value p = EmptyString \/ containsSpace (Name p) = false;
  e_reserved : Name p <> "--" /\ Name p <> EmptyString
}.

Lemma checkParam_ok p : checkParam p = Ok tt <-> encodable p.
Proof.
  unfold checkParam. split.
  - repeat (case_match; [done|]). intros _. split; [set_solver|set_solver| |].
    + destruct (bool_decide (Value p <> EmptyString)) eqn:Ev; [right; naive_solver|left]. apply bool_decide_eq_false in Ev. by apply dec_stable in Ev.
    + repeat match goal with E : bool_decide _ = false |- _ => apply bool_decide_eq_false in E end. done.
  - intros [H1 H2 H3 [H4 H5]]. rewrite !H1, !H2 by set_solver. rewrite !(bool_decide_eq_false_2 (Name p = _)) by done.
    destruct H3 as [->| ->]; [done|]. by rewrite andb_false_r.
Qed.

(** ** Decoding what was encoded *)

Lemma scan_plain a s t ps : containsSpace a = false -> ContainsByte a quote = false -> scan (a +:+ s) t false ps = scan s (t +:+ a) false ps.
Proof.
  revert t. induction a as [|c a IH]; intros t Hs Hq; cbn [String.append]; [by rewrite append_nil_r|]. cbn [containsSpace ContainsByte] in Hs, Hq.
  apply orb_false_iff in Hs as [Hc Hs], Hq as [Hd Hq]. cbn [scan]. rewrite Hc, Hd. cbn [andb]. rewrite IH by done. by rewrite append_assoc.
Qed.

Lemma scan_inside a s t ps : ContainsByte a quote = false -> scan (a +:+ s) t true ps = scan s (t +:+ a) true ps.
Proof.
  revert t. induction a as [|c a IH]; intros t Hq; cbn [String.append]; [by rewrite append_nil_r|]. cbn [ContainsByte] in Hq.
  apply orb_false_iff in Hq as [Hd Hq]. cbn [scan]. rewrite Hd, andb_false_r, IH by done. by rewrite append_assoc.
Qed.

Lemma scan_quoted a s t ps : ContainsByte a quote = false -> scan (quoted a +:+ s) t false ps = scan s (t +:+ quoted a) false ps.
Proof.
  intros Hq. unfold quoted. destruct (containsSpace a) eqn:E; [|by apply scan_plain]. cbn [String.append scan]. change (isSpace quote) with false. cbn [andb].
  rewrite bool_decide_eq_true_2 by done. cbn [negb]. rewrite append_assoc, scan_inside by done. cbn [String.append scan]. change (isSpace quote) with false.
  cbn [andb]. rewrite bool_decide_eq_true_2 by done. cbn [negb]. by rewrite !append_assoc.
Qed.

Lemma scan_token p s ps : encodable p -> scan (token p +:+ s) EmptyString false ps = scan s (token p) false ps.
Proof.
  intros [H1 H2 _ _]. unfold token. rewrite append_assoc, scan_quoted by (apply H1; set_solver). cbn [String.append].
  destruct (bool_decide (Value p <> EmptyString)); [|by rewrite append_nil_r]. cbn [String.append scan]. change (isSpace "=") with false. cbn [andb].
  rewrite bool_decide_eq_false_2 by done. rewrite scan_quoted by (apply H2; set_solver). by rewrite append_assoc.
Qed.

Lemma HasPrefixByte_contains s c : ContainsByte s c = false -> HasPrefixByte s c = false.
Proof. destruct s as [|d s]; [done|]. cbn. by intros [-> _]%orb_false_iff. Qed.

Lemma prefix_ne c d r s : c <> d -> HasPrefix (String d r) (String c s) = false.
Proof. intros Hn. unfold HasPrefix. cbn [String.prefix]. by destruct (ascii_dec c d). Qed.

Lemma prefix_eq c r s : HasPrefix (String c r) (String c s) = HasPrefix r s.
Proof. unfold HasPrefix. cbn [String.prefix]. by destruct (ascii_dec c c). Qed.

(** The name does not begin with an equals sign, so the token parses. *)
Lemma token_prefix p : encodable p -> HasPrefix (token p) "=" || HasPrefix (token p) (String quote "=") = false.
Proof.
  intros [H1 _ _ [_ Hne]]. pose proof (H1 "="%char ltac:(set_solver)) as He. pose proof (H1 quote ltac:(set_solver)) as Hq. unfold token, quoted.
  destruct (Name p) as [|c r]; [done|]. cbn [ContainsByte] in He, Hq. apply orb_false_iff in He as [He _], Hq as [Hq _].
  apply bool_decide_eq_false in He, Hq. destruct (containsSpace (String c r)); cbn [String.append].
  - rewrite prefix_ne, prefix_eq, prefix_ne by done. done.
  - by rewrite !prefix_ne.
Qed.

Lemma quoted_contains s c : c <> quote -> ContainsByte s c = false -> ContainsByte (quoted s) c = false.
Proof.
  intros Hc Hs. unfold quoted. destruct (containsSpace s); [|done]. cbn [ContainsByte]. rewrite bool_decide_eq_false_2 by done.
  rewrite ContainsByte_app, Hs. cbn. by rewrite bool_decide_eq_false_2.
Qed.

(** [HasValue] is not kept. *)
Definition decodedParam (p : Param) : Param := mkParam (Name p) (Value p) false.

Lemma parseToken_token p : encodable p -> parseToken (token p) = Ok (decodedParam p).
Proof.
  intros Hp. unfold parseToken. rewrite token_prefix by done. destruct Hp as [H1 H2 H3 [_ Hne]]. pose proof (H1 quote ltac:(set_solver)) as Hq.
  pose proof (H2 quote ltac:(set_solver)) as Hv. assert (ContainsByte (quoted (Name p)) "=" = false) as He by (apply quoted_contains; [done|apply H1; set_solver]).
  unfold token, decodedParam. destruct (decide (Value p = EmptyString)) as [E|E].
  - rewrite E. rewrite bool_decide_eq_false_2 by naive_solver. rewrite append_nil_r, Cut_none by done. unfold quoted.
    destruct (containsSpace (Name p)); [|by rewrite HasPrefixByte_contains]. cbn [HasPrefixByte]. rewrite bool_decide_eq_true_2 by done.
    cbn [TrimPrefix]. rewrite decide_True by done. by rewrite TrimSuffix_snoc.
  - rewrite bool_decide_eq_true_2 by done. rewrite Cut_app by done. destruct H3 as [?|Hs]; [done|]. replace (quoted (Name p)) with (Name p) by (unfold quoted; by rewrite Hs).
    rewrite (HasPrefixByte_contains (Name p)) by done. unfold quoted. destruct (containsSpace (Value p)); [|by rewrite HasPrefixByte_contains].
    cbn [HasPrefixByte]. rewrite bool_decide_eq_true_2 by done. cbn [TrimPrefix]. rewrite decide_True by done. by rewrite TrimSuffix_snoc.
Qed.

(** A token begins with a character that is no space. *)
Lemma token_nonspace p : encodable p -> exists c r, token p = String c r /\ isSpace c = false.
Proof.
  intros [_ _ _ [_ Hne]]. unfold token, quoted. destruct (Name p) as [|c r]; [done|]. destruct (containsSpace (String c r)) eqn:E; cbn [String.append]; [by eauto|].
  cbn in E. apply orb_false_iff in E as [E _]. eauto.
Qed.

Lemma scan_param p s ps : encodable p -> scan (token p +:+ String " " s) EmptyString false ps = scan s EmptyString false (ps ++ [decodedParam p]).
Proof.
  intros Hp. rewrite scan_token by done. cbn [scan]. change (isSpace " ") with true. cbn [andb negb]. destruct (token_nonspace p Hp) as (c & r & Et & Hc).
  rewrite bool_decide_eq_false_2 by (rewrite Et; cbn; by rewrite Hc). rewrite parseToken_token by done.
  rewrite bool_decide_eq_false_2; [done|]. apply Hp.
Qed.

(** What [writeParams] writes. *)
Definition line (params : Params) : string := foldr (fun p s => token p +:+ String " " s) EmptyString params.

Lemma writeParams_ok params : forall strb,
  match writeParams params strb with
  | Ok s => Forall encodable params /\ s = strb +:+ line params
  | Err _ => ~ Forall encodable params
  end.
Proof.
  induction params as [|p params IH]; intros strb; cbn [writeParams]; [split; [constructor|by rewrite append_nil_r]|].
  pose proof (checkParam_ok p) as Hc. destruct (checkParam p) as [[]|e]; [|intros [Hp _]%Forall_cons; by apply Hc in Hp].
  specialize (IH (strb +:+ token p +:+ " ")). destruct (writeParams params _); [|intros [_ ?]%Forall_cons; done].
  destruct IH as [Hall ->]. split; [constructor; [by apply Hc|done]|]. cbn [line foldr]. fold (line params). by rewrite !append_assoc.
Qed.

Lemma scan_line params s : Forall encodable params -> forall ps, scan (line params +:+ s) EmptyString false ps = scan s EmptyString false (ps ++ (decodedParam <$> params)).
Proof.
  induction 1 as [|p params Hp _ IH]; intros ps; cbn [line foldr fmap list_fmap]; [by rewrite app_nil_r|]. fold (line params).
  rewrite append_assoc. cbn [String.append]. rewrite scan_param by done. rewrite IH. by rewrite <- app_assoc.
Qed.

Lemma token_no_nul p : encodable p -> ContainsByte (token p) NUL = false.
Proof.
  intros [H1 H2 _ _]. unfold token. rewrite ContainsByte_app, quoted_contains by (done || apply H1; set_solver).
  destruct (bool_decide _); [|done]. cbn. rewrite quoted_contains by (done || apply H2; set_solver). done.
Qed.

Lemma line_no_nul params : Forall encodable params -> ContainsByte (line params) NUL = false.
Proof.
  induction 1 as [|p params Hp _ IH]; [done|]. cbn [line foldr]. fold (line params). rewrite ContainsByte_app, token_no_nul by done. cbn [ContainsByte orb].
  by rewrite IH.
Qed.

(** Lines do not begin with a space. *)
Lemma line_trim params s : Forall encodable params -> TrimLeftSpace s = s -> TrimLeftSpace (line params +:+ s) = line params +:+ s.
Proof.
  intros Hp Hs. destruct Hp as [|p params Hp _]; [done|]. cbn [line foldr]. destruct (token_nonspace p Hp) as (c & r & -> & Hc). cbn. by rewrite Hc.
Qed.

(** [Marshal] succeeds exactly if the rest has no null byte and all parameters can be
    encoded, and then [Unmarshal] returns the same names and values, and the rest
    without leading spaces. *)
Theorem bootparam_roundtrip (params : Params) (rest : string) :
  match Marshal params rest with
  | Ok cmdline =>
      Forall encodable params /\ ContainsByte rest NUL = false /\
      Unmarshal cmdline = (decodedParam <$> params, TrimLeftSpace rest, None)
  | Err _ => ~ (Forall encodable params /\ ContainsByte rest NUL = false)
  end.
Proof.
  unfold Marshal. destruct (ContainsByte rest NUL) eqn:Er; [by intros [_ ?]|]. pose proof (writeParams_ok params EmptyString) as Hw.
  destruct (writeParams params EmptyString) as [s|e]; cbn [mbind result_bind]; [|by intros [? _]]. destruct Hw as [Hp ->]. cbn [String.append].
  split; [done|]. split; [done|]. unfold Unmarshal.
  set (tail := if bool_decide (rest = EmptyString) then EmptyString else "-- " +:+ TrimLeftSpace rest).
  assert (TrimLeftSpace tail = tail) as Ht by (unfold tail; by case_bool_decide).
  assert (ContainsByte tail NUL = false) as Hn by (unfold tail; case_bool_decide; [done|]; rewrite ContainsByte_app; by apply TrimLeftSpace_contains).
  rewrite line_trim by done. rewrite Cut_none by (by rewrite ContainsByte_app, line_no_nul). cbn [fst]. rewrite scan_line by done. cbn [app].
  unfold tail. case_bool_decide as E; [by subst|]. cbn. by rewrite TrimLeftSpace_idem.
Qed.

End Bootparam.
