(* ===== verification/EventValue.v ===== *)
(** * Event values in memory

    Models [osbase/event/memory/memory.go] as a transition system: goroutines that Set a
    value, Watch it, and Get from and Close their watchers, in any interleaving of the
    operations on the channels.  [Set] holds the lock of the value while it goes
    through the watchers, but [Get] and [Close] do not take it.

    Watchers are numbered in the order of their creation.  The history of the values that
    were set, the position of a watcher in it and the values it has received are kept
    for the specification; the code does not have them.  Whether [Watch] drops closed
    watchers depends on the capacity of a slice; here it may or may not. *)

From S2P Require Import Prelude.

Module EventValue.

Section value.
Context {T : Type}.

(** A call of [Get] that holds [getSem]: at the first select, or blocked in the second. *)
Inductive getPC :=
| GTop (predicate : T -> bool)
| GBlocked (predicate : T -> bool).

Record watcher := mkWatcher {
  bufferedC : option T;
  closed : bool;
  getSem : option getPC;
  start : nat;
  got : list T
}.

(** Where a call of [Set] is: about to look at the next watcher, in [update] for one, or
    about to send to its buffered channel after draining it; with the watchers left
    and [newWatchers]. *)
Inductive lock :=
| Free
| Checking (val : T) (todo kept : list nat)
| Updating (val : T) (w : nat) (todo kept : list nat)
| Sending (val : T) (w : nat) (todo kept : list nat).

Record Value := mkValue {
  Sync : bool;
  inner : option T;
  watchers : list nat;
  mu : lock;
  all : list watcher;
  hist : list T
}.

Definition emptyValue (sync : bool) : Value := mkValue sync None [] Free [] [].

Definition set_mu m s := mkValue (Sync s) (inner s) (watchers s) m (all s) (hist s).
Definition set_watcher i w s := mkValue (Sync s) (inner s) (watchers s) (mu s) (<[i := w]> (all s)) (hist s).
Definition set_buffer b w := mkWatcher b (closed w) (getSem w) (start w) (got w).
Definition set_getSem g w := mkWatcher (bufferedC w) (closed w) g (start w) (got w).

Definition isClosed (s : Value) (i : nat) : bool := from_option closed false (all s !! i).

(** ** Set *)

(** Until the loop over the watchers. *)
Definition beginSet (val : T) (s : Value) : Value :=
  mkValue (Sync s) (Some val) (watchers s) (Checking val (watchers s) []) (all s) (hist s ++ [val]).

(** The next operation of a call of [Set]; [None] if it blocks. *)
Definition nextSet (s : Value) : option Value :=
  match mu s with
  | Free => None
  | Checking val [] kept => Some (mkValue (Sync s) (inner s) kept Free (all s) (hist s))
  | Checking val (i :: todo) kept =>
      Some (set_mu (if isClosed s i then Checking val todo kept else Updating val i todo kept) s)
  | Updating val i todo kept =>
      w ← all s !! i;
      if Sync s then
        if closed w then Some (set_mu (Checking val todo (kept ++ [i])) s) else None
      else Some (set_mu (Sending val i todo kept) (set_watcher i (set_buffer None w) s))
  | Sending val i todo kept =>
      w ← all s !! i;
      match bufferedC w with
      | Some _ => None
      | None => Some (set_mu (Checking val todo (kept ++ [i])) (set_watcher i (set_buffer (Some val) w) s))
      end
  end.

(** ** Watch *)

Definition dropClosed (s : Value) : list nat := filter (fun i => isClosed s i = false) (watchers s).

Definition Watch (drop_ : bool) (s : Value) : Value :=
  let waiter := mkWatcher (inner s) false None (length (hist s) - length (option_list (inner s))) [] in
  mkValue (Sync s) (inner s) ((if drop_ then dropClosed s else watchers s) ++ [length (all s)]) (mu s) (all s ++ [waiter]) (hist s).

(** ** Close; closing twice panics *)

Definition Close (w : watcher) : option watcher :=
  if closed w then None else Some (mkWatcher (bufferedC w) true (getSem w) (start w) (got w)).

(** ** Get *)

(** [event.GetOption]. *)
Record GetOption := mkGetOption { Predicate : option (T -> bool); BacklogOnly : bool }.

(** The last predicate; BacklogOnly is an error. *)
Fixpoint getOptions (opts : list GetOption) (predicate : T -> bool) : result string (T -> bool) :=
  match opts with
  | [] => Ok predicate
  | opt :: opts =>
      let predicate := default predicate (Predicate opt) in
      if BacklogOnly opt then Err "BacklogOnly is not implemented for memory watchers" else getOptions opts predicate
  end.

(** [None]: there is another call. *)
Definition beginGet (predicate : T -> bool) (w : watcher) : option watcher :=
  match getSem w with
  | Some _ => None
  | None => Some (set_getSem (Some (GTop predicate)) w)
  end.

(** A received value is returned, or rejected by the predicate. *)
Definition receive (predicate : T -> bool) (val : T) (b : option T) (w : watcher) : watcher :=
  mkWatcher b (closed w) (if predicate val then None else Some (GTop predicate)) (start w) (got w ++ [val]).

(** The operations of [Get] on its own: the first select, or the second one if there is a
    buffered value. *)
Definition nextGet (w : watcher) : option watcher :=
  match getSem w, bufferedC w with
  | Some (GTop p), Some val | Some (GBlocked p), Some val => Some (receive p val None w)
  | Some (GTop p), None => Some (set_getSem (Some (GBlocked p)) w)
  | _, _ => None
  end.

(** The context is done. *)
Definition cancelGet (w : watcher) : option watcher :=
  match getSem w with
  | Some (GBlocked _) => Some (set_getSem None w)
  | _ => None
  end.

(** A value goes through the unbuffered channel. *)
Definition rendezvous (s : Value) : option Value :=
  match mu s with
  | Updating val i todo kept =>
      w ← all s !! i;
      match getSem w with
      | Some (GBlocked p) =>
          if Sync s then Some (set_mu (Checking val todo (kept ++ [i])) (set_watcher i (receive p val (bufferedC w) w) s)) else None
      | _ => None
      end
  | _ => None
  end.

(** ** The system *)

Inductive step : Value -> Value -> Prop :=
| step_set s val : mu s = Free -> step s (beginSet val s)
| step_nextSet s s' : nextSet s = Some s' -> step s s'
| step_rendezvous s s' : rendezvous s = Some s' -> step s s'
| step_watch s drop_ : mu s = Free -> step s (Watch drop_ s)
| step_close s i w w' : all s !! i = Some w -> Close w = Some w' -> step s (set_watcher i w' s)
| step_get s i w w' opts p : all s !! i = Some w -> getOptions opts (fun _ => true) = Ok p -> beginGet p w = Some w' -> step s (set_watcher i w' s)
| step_nextGet s i w w' : all s !! i = Some w -> nextGet w = Some w' -> step s (set_watcher i w' s)
| step_cancel s i w w' : all s !! i = Some w -> cancelGet w = Some w' -> step s (set_watcher i w' s).

Inductive reachable (sync : bool) : Value -> Prop :=
| reachable_init : reachable sync (emptyValue sync)
| reachable_step s s' : reachable sync s -> step s s' -> reachable sync s'.

End value.
Arguments Value T : clear implicits.
Arguments watcher T : clear implicits.
Arguments getPC T : clear implicits.
Arguments lock T : clear implicits.

End EventValue.

(** * What event values promise

    The guarantees of [event.Value] and [event.Watcher]: watchers receive values in the
    order they were set, and an open watcher always has, or gets next, the newest one;
    with [Sync] it gets all of them. *)

Module EventProps.
Import EventValue.

Section props.
Context {T : Type}.
Implicit Types (s : Value T) (w : watcher T) (h : list T) (val : T).

(** What a watcher has received, or will receive next. *)
Definition seen (w : watcher T) : list T := got w ++ option_list (bufferedC w).

(** What a watcher should know of a history. *)
Definition due (h : list T) (w : watcher T) : list T := drop (start w) h.

Definition blocked (w : watcher T) : Prop := exists p, getSem w = Some (GBlocked p).

(** A watcher to which the history [h] was offered; [fresh] unless its buffer was drained. *)
Record ok (sync : bool) (h : list T) (fresh : Prop) (w : watcher T) : Prop := {
  k_start : start w <= length h;
  k_order : sublist (seen w) (due h w);
  k_fresh : fresh -> if sync then closed w = false -> seen w = due h w else last (seen w) = last (due h w);
  k_blocked : sync = true -> blocked w -> bufferedC w = None
}.

Lemma due_snoc h val w : start w <= length h -> due (h ++ [val]) w = due h w ++ [val].
Proof. intros Hs. unfold due. by rewrite drop_app_le. Qed.

Lemma ok_later sync h fresh w val : ok sync h fresh w -> ok sync (h ++ [val]) False w.
Proof.
  intros [H1 H2 H3 H4]. split; [rewrite length_app; lia| |done|done]. rewrite due_snoc by done. by apply sublist_inserts_r.
Qed.

Lemma ok_fresh sync h (fresh fresh' : Prop) w : (fresh' -> fresh) -> ok sync h fresh w -> ok sync h fresh' w.
Proof. intros Hf [H1 H2 H3 H4]. split; [done|done|intros ?; by apply H3, Hf|done]. Qed.

(** Steps of [Get] and [Close] keep what a watcher has seen. *)
Lemma ok_same sync h fresh w w' : ok sync h fresh w -> seen w' = seen w -> start w' = start w -> (closed w' = false -> closed w = false) ->
  (sync = true -> blocked w' -> bufferedC w' = None) -> ok sync h fresh w'.
Proof.
  intros [H1 H2 H3 H4] Es Et Hc Hb. split; unfold due in *; rewrite ?Es, ?Et; [done..| |done]. intros Hf. specialize (H3 Hf). destruct sync; auto.
Qed.

(** ** The invariant

    [pend] are the watchers that [Set] has not updated yet, to which [h] was offered;
    [drained] the one whose buffer it has emptied. *)
Record holds (s : Value T) (h : list T) (pend kept : list nat) (drained : option nat) : Prop := {
  h_nodup : NoDup (kept ++ pend);
  h_range i : i ∈ kept ++ pend -> is_Some (all s !! i);
  h_inner : inner s = last (hist s);
  h_open i w : all s !! i = Some w -> closed w = false -> i ∈ kept ++ pend;
  h_ok i w : all s !! i = Some w -> if decide (i ∈ pend) then ok (Sync s) h (drained <> Some i) w else ok (Sync s) (hist s) (i ∈ kept) w;
  h_drained i w : all s !! i = Some w -> drained = Some i -> bufferedC w = None
}.

Definition inv (s : Value T) : Prop :=
  match mu s with
  | Free => holds s [] [] (watchers s) None
  | Checking val todo kept => exists h, hist s = h ++ [val] /\ holds s h todo kept None
  | Updating val i todo kept => exists h, hist s = h ++ [val] /\ holds s h (i :: todo) kept None
  | Sending val i todo kept => Sync s = false /\ exists h, hist s = h ++ [val] /\ holds s h (i :: todo) kept (Some i)
  end.

Lemma inv_init sync : inv (emptyValue sync).
Proof. split; cbn; try done; [constructor|set_solver]. Qed.

(** A step of a watcher on its own. *)
Lemma holds_watcher s h pend kept drained i w w' : holds s h pend kept drained -> all s !! i = Some w ->
  (forall sync h fresh, ok sync h fresh w -> ok sync h fresh w') -> (closed w' = false -> closed w = false) -> (bufferedC w = None -> bufferedC w' = None) ->
  holds (set_watcher i w' s) h pend kept drained.
Proof.
  intros [H1 H2 H3 H4 H5 H6] Hw Hok Hc Hb. assert (i < length (all s)) as Hlt by (by eapply lookup_lt_Some).
  assert (forall j x, <[i := w']> (all s) !! j = Some x -> (j = i /\ x = w') \/ all s !! j = Some x) as Hl.
  { intros j x. destruct (decide (j = i)) as [->|]; [rewrite list_lookup_insert_eq by done; naive_solver|rewrite list_lookup_insert_ne by done; auto]. }
  split; cbn; try done.
  - intros j Hj. destruct (decide (j = i)) as [->|]; [by rewrite list_lookup_insert_eq|rewrite list_lookup_insert_ne by done; auto].
  - intros j x [[-> ->]|Hx]%Hl; eauto.
  - intros j x [[-> ->]|Hx]%Hl; [|by apply H5]. specialize (H5 i w Hw). case_decide; by apply Hok.
  - intros j x [[-> ->]|Hx]%Hl; eauto.
Qed.

Lemma inv_watcher s i w w' : inv s -> all s !! i = Some w ->
  (forall sync h fresh, ok sync h fresh w -> ok sync h fresh w') -> (closed w' = false -> closed w = false) -> (bufferedC w = None -> bufferedC w' = None) ->
  inv (set_watcher i w' s).
Proof.
  intros Hi Hw H1 H2 H3. unfold inv in *. cbn [mu set_watcher]. destruct (mu s) as [|val todo kept|val j todo kept|val j todo kept]; cbn [watchers hist set_watcher Sync].
  - by eapply holds_watcher.
  - destruct Hi as (h & E & Hi). exists h. split; [done|]. by eapply holds_watcher.
  - destruct Hi as (h & E & Hi). exists h. split; [done|]. by eapply holds_watcher.
  - destruct Hi as (Hs & h & E & Hi). split; [done|]. exists h. split; [done|]. by eapply holds_watcher.
Qed.

Lemma Close_inv s i w w' : inv s -> all s !! i = Some w -> Close w = Some w' -> inv (set_watcher i w' s).
Proof.
  unfold Close. intros Hi Hw Hc. destruct (closed w) eqn:E; [done|]. injection Hc as <-. eapply inv_watcher; [done|done| |done|done].
  intros sync h fresh Hok. eapply ok_same; [done..|]. intros Hs Hb. exact (k_blocked _ _ _ _ Hok Hs Hb).
Qed.

Lemma beginGet_inv s i w w' p : inv s -> all s !! i = Some w -> beginGet p w = Some w' -> inv (set_watcher i w' s).
Proof.
  unfold beginGet. intros Hi Hw Hg. destruct (getSem w) eqn:E; [done|]. injection Hg as <-. eapply inv_watcher; [done|done| |done|done].
  intros sync h fresh Hok. eapply ok_same; [done..|]. by intros _ [q [=]].
Qed.

Lemma cancelGet_inv s i w w' : inv s -> all s !! i = Some w -> cancelGet w = Some w' -> inv (set_watcher i w' s).
Proof.
  unfold cancelGet. intros Hi Hw Hg. destruct (getSem w) as [[p|p]|] eqn:E; [done| |done]. injection Hg as <-. eapply inv_watcher; [done|done| |done|done].
  intros sync h fresh Hok. eapply ok_same; [done..|]. by intros _ [q [=]].
Qed.

Lemma receive_ok sync h fresh p val w : bufferedC w = Some val -> ok sync h fresh w -> ok sync h fresh (receive p val None w).
Proof.
  intros Hb Hok. eapply ok_same; [done| |done|done|done]. unfold seen. cbn. by rewrite Hb, app_nil_r.
Qed.

Lemma nextGet_inv s i w w' : inv s -> all s !! i = Some w -> nextGet w = Some w' -> inv (set_watcher i w' s).
Proof.
  unfold nextGet. intros Hi Hw Hg. destruct (bufferedC w) as [val|] eqn:Eb.
  - destruct (getSem w) as [[p|p]|]; simplify_eq; (eapply inv_watcher; [done|done|intros; by apply receive_ok|done|done]).
  - destruct (getSem w) as [[p|p]|] eqn:E; simplify_eq. eapply inv_watcher; [done|done| |done|done]. intros sync h fresh Hok. by eapply ok_same.
Qed.

(** ** Steps of Set *)

Lemma beginSet_inv s val : inv s -> mu s = Free -> inv (beginSet val s).
Proof.
  unfold inv. intros Hi Hm. rewrite Hm in Hi. destruct Hi as [H1 H2 H3 H4 H5 H6]. cbn. exists (hist s). split; [done|]. rewrite app_nil_r in *. split; cbn.
  - done.
  - intros i Hi. by apply H2.
  - by rewrite last_snoc.
  - done.
  - intros i w Hw. specialize (H5 i w Hw). rewrite decide_False in H5 by set_solver. case_decide; (eapply ok_fresh; [|first [exact H5|by eapply ok_later]]); set_solver.
  - done.
Qed.

Lemma Watch_inv s b : inv s -> mu s = Free -> inv (Watch b s).
Proof.
  unfold inv. intros Hi Hm. rewrite Hm in Hi. destruct Hi as [H1 H2 H3 H4 H5 H6]. cbn. rewrite Hm. rewrite app_nil_r in *.
  set (l := if b then dropClosed s else watchers s).
  assert (forall i, i ∈ l -> i ∈ watchers s) as Hl by (subst l; destruct b; [intros i Hi; by apply list_elem_of_filter in Hi as [_ ?]|done]).
  assert (forall i, i ∈ l -> i < length (all s)) as Hr by (intros i Hi; apply lookup_lt_is_Some_1, H2; by apply Hl).
  assert (NoDup l) as Hn by (subst l; destruct b; [by apply NoDup_filter|done]).
  split; cbn; rewrite ?app_nil_r.
  - apply NoDup_app. split_and!; [done| |apply NoDup_singleton]. intros i Hi%Hr Hj. apply list_elem_of_singleton in Hj. lia.
  - intros i [Hi|Hi]%elem_of_app; [rewrite lookup_app_l by auto; apply H2; auto|]. apply list_elem_of_singleton in Hi as ->. by rewrite list_lookup_middle.
  - done.
  - intros i w [Hw|[Hlen Hw]]%lookup_app_Some Hc.
    + apply elem_of_app. left. subst l. destruct b; [|by eapply H4]. apply list_elem_of_filter. split; [unfold isClosed; by rewrite Hw|by eapply H4].
    + apply list_lookup_singleton_Some in Hw as [Hi _]. apply elem_of_app. right. apply list_elem_of_singleton. lia.
  - intros i w [Hw|[Hlen Hw]]%lookup_app_Some; rewrite decide_False by set_solver.
    + specialize (H5 i w Hw). rewrite decide_False in H5 by set_solver. eapply ok_fresh; [|done]. intros [Hi|Hi]%elem_of_app; [auto|].
      apply list_elem_of_singleton in Hi. apply lookup_lt_Some in Hw. lia.
    + apply list_lookup_singleton_Some in Hw as [_ <-]. rewrite H3. split; cbn.
      * lia.
      * unfold seen, due. cbn. destruct (last (hist s)) as [x|] eqn:E; cbn; [|apply sublist_nil_l]. apply last_Some in E as [l' ->].
        rewrite length_app. cbn. replace (length l' + 1 - 1) with (length l') by lia. by rewrite drop_app_length.
      * intros _. assert (option_list (last (hist s)) = drop (length (hist s) - length (option_list (last (hist s)))) (hist s)) as E.
        { destruct (last (hist s)) as [x|] eqn:E; cbn; [apply last_Some in E as [l' ->]; rewrite length_app; cbn; replace (length l' + 1 - 1) with (length l') by lia; by rewrite drop_app_length|].
          rewrite last_None in E. by rewrite E. }
        unfold seen, due. cbn. rewrite <- E. by destruct (Sync s).
      * by intros _ [p [=]].
  - done.
Qed.

(** The first of the watchers left is updated. *)
Lemma holds_move s s' h todo kept i w w' drained : holds s h (i :: todo) kept drained -> (drained = None \/ drained = Some i) -> all s !! i = Some w ->
  Sync s' = Sync s -> inner s' = inner s -> hist s' = hist s -> all s' = <[i := w']> (all s) -> ok (Sync s) (hist s) True w' ->
  holds s' h todo (kept ++ [i]) None.
Proof.
  intros [H1 H2 H3 H4 H5 H6] Hd Hw E1 E2 E3 E4 Hok. assert (i < length (all s)) as Hlt by (by eapply lookup_lt_Some).
  assert (kept ++ i :: todo = (kept ++ [i]) ++ todo) as El by (by rewrite <- app_assoc). rewrite El in *.
  assert (i ∉ todo) as Hi by (rewrite <- El in H1; apply NoDup_app in H1 as (_ & _ & [? _]%NoDup_cons); done).
  assert (forall j x, all s' !! j = Some x -> (j = i /\ x = w') \/ (j <> i /\ all s !! j = Some x)) as Hl.
  { intros j x. rewrite E4. destruct (decide (j = i)) as [->|]; [rewrite list_lookup_insert_eq by done; naive_solver|rewrite list_lookup_insert_ne by done; auto]. }
  split; rewrite ?E1, ?E2, ?E3; try done.
  - intros j Hj. rewrite E4. destruct (decide (j = i)) as [->|]; [by rewrite list_lookup_insert_eq|rewrite list_lookup_insert_ne by done; auto].
  - intros j x [[-> ->]|[? Hx]]%Hl Hc; [set_solver|by eapply H4].
  - intros j x [[-> ->]|[Hne Hx]]%Hl.
    + rewrite decide_False by done. by eapply ok_fresh; [|exact Hok].
    + specialize (H5 j x Hx). rewrite (decide_ext _ (j ∈ todo)) in H5 by set_solver. case_decide; (eapply ok_fresh; [|exact H5]); [naive_solver|set_solver].
Qed.

Lemma ok_deliver sync h w w' val : ok sync h (sync = true) w -> bufferedC w = None -> seen w' = seen w ++ [val] -> start w' = start w -> (closed w' = false -> closed w = false) ->
  (sync = true -> blocked w' -> bufferedC w' = None) -> ok sync (h ++ [val]) True w'.
Proof.
  intros [H1 H2 H3 H4] Hb Es Et Hc Hbl. assert (due (h ++ [val]) w' = due h w ++ [val]) as Hd by (unfold due; rewrite Et; by apply due_snoc).
  split; rewrite ?Et, ?length_app, ?Es, ?Hd; [lia|by apply sublist_app| |done]. intros _. destruct sync; [|by rewrite !last_snoc].
  intros Hcl. f_equal. auto.
Qed.

Lemma holds_set_mu m s h pend kept drained : holds s h pend kept drained -> holds (set_mu m s) h pend kept drained.
Proof. intros [H1 H2 H3 H4 H5 H6]. by split. Qed.

Lemma nextSet_inv s s' : inv s -> nextSet s = Some s' -> inv s'.
Proof.
  unfold inv, nextSet. destruct (mu s) as [|val [|i todo] kept|val i todo kept|val i todo kept]; [done|..].
  - intros (h & Eh & [H1 H2 H3 H4 H5 H6]) [= <-]. split; done.
  - intros (h & Eh & Hh) [= <-]. unfold isClosed. destruct (h_range _ _ _ _ _ Hh i ltac:(set_solver)) as [w Hw]. rewrite Hw. cbn.
    destruct (closed w) eqn:Ec; [|exists h; split; [done|by apply holds_set_mu]]. exists h. split; [done|]. destruct Hh as [H1 H2 H3 H4 H5 H6].
    assert (NoDup (kept ++ todo) /\ (i ∉ todo) /\ (i ∉ kept)) as (Hn & Hi & Hik).
    { apply NoDup_app in H1 as (N1 & N2 & [N3 N4]%NoDup_cons). split; [apply NoDup_app; set_solver|]. split; [done|]. intros Hk. by apply (N2 i Hk); left. }
    split; cbn; try done.
    + intros j Hj. apply H2. set_solver.
    + intros j x Hx Hc. specialize (H4 j x Hx Hc). assert (j <> i) by congruence. set_solver.
    + intros j x Hx. specialize (H5 j x Hx). destruct (decide (j = i)) as [->|Hne].
      * rewrite decide_True in H5 by set_solver. rewrite decide_False by done. rewrite Eh. eapply ok_fresh; [|by eapply ok_later]. done.
      * by rewrite (decide_ext _ (j ∈ todo)) in H5 by set_solver.
  - intros (h & Eh & Hh). destruct (all s !! i) as [w|] eqn:Hw; cbn [mbind option_bind]; [|done].
    pose proof (h_ok _ _ _ _ _ Hh i w Hw) as Hok. rewrite decide_True in Hok by set_solver. destruct (Sync s) eqn:Esy.
    + destruct (closed w) eqn:Ec; [|done]. intros [= <-]. exists h. split; [done|]. eapply (holds_move s _ h todo kept i w w); [done|by left|done..| |].
      * cbn. by rewrite list_insert_id.
      * rewrite Esy, Eh. pose proof (ok_later _ _ _ _ val Hok) as [K1 K2 K3 K4]. split; [done|done|by intros _; rewrite Ec|done].
    + intros [= <-]. cbn. split; [done|]. exists h. split; [done|]. destruct Hh as [H1 H2 H3 H4 H5 H6]. assert (i < length (all s)) as Hlt by (by eapply lookup_lt_Some).
      assert (forall j x, <[i := set_buffer None w]> (all s) !! j = Some x -> (j = i /\ x = set_buffer None w) \/ (j <> i /\ all s !! j = Some x)) as Hl.
      { intros j x. destruct (decide (j = i)) as [->|]; [rewrite list_lookup_insert_eq by done; naive_solver|rewrite list_lookup_insert_ne by done; auto]. }
      split; cbn; try done.
      * intros j Hj. destruct (decide (j = i)) as [->|]; [by rewrite list_lookup_insert_eq|rewrite list_lookup_insert_ne by done; auto].
      * intros j x [[-> ->]|[? Hx]]%Hl; eauto.
      * intros j x [[-> ->]|[Hne Hx]]%Hl.
        -- rewrite decide_True by set_solver. destruct Hok as [K1 K2 K3 K4]. split; cbn; [done| |done|done]. unfold seen, due in *. cbn. rewrite app_nil_r.
           etrans; [|exact K2]. by apply sublist_inserts_r.
        -- specialize (H5 j x Hx). rewrite Esy in H5 |- *. case_decide; (eapply ok_fresh; [|exact H5]); naive_solver.
      * intros j x [[_ ->]|[Hne _]]%Hl Hj; [done|congruence].
  - intros (Esy & h & Eh & Hh). destruct (all s !! i) as [w|] eqn:Hw; cbn [mbind option_bind]; [|done].
    pose proof (h_ok _ _ _ _ _ Hh i w Hw) as Hok. rewrite decide_True in Hok by set_solver. destruct (bufferedC w) eqn:Eb; [done|].
    intros [= <-]. cbn. exists h. split; [done|]. eapply (holds_move s _ h todo kept i w); [done|by right|done..|]. rewrite Eh. eapply ok_deliver; [|done| |done|done|].
    + eapply ok_fresh; [|exact Hok]. by rewrite Esy.
    + unfold seen. cbn. by rewrite Eb, app_nil_r.
    + by rewrite Esy.
Qed.

Lemma rendezvous_inv s s' : inv s -> rendezvous s = Some s' -> inv s'.
Proof.
  unfold inv, rendezvous. destruct (mu s) as [|val todo kept|val i todo kept|val i todo kept]; [done..| |done].
  intros (h & Eh & Hh). destruct (all s !! i) as [w|] eqn:Hw; cbn [mbind option_bind]; [|done]. destruct (getSem w) as [[p|p]|] eqn:Eg; [done| |done].
  destruct (Sync s) eqn:Esy; [|done]. intros [= <-]. cbn. exists h. split; [done|].
  pose proof (h_ok _ _ _ _ _ Hh i w Hw) as Hok. rewrite decide_True in Hok by set_solver. rewrite Esy in Hok.
  assert (bufferedC w = None) as Eb by (eapply k_blocked; [exact Hok|done|by exists p]).
  eapply (holds_move s _ h todo kept i w); [done|by left|done..|]. rewrite Eh. rewrite Esy. eapply ok_deliver; [|done| |done|done|].
  - by eapply ok_fresh; [|exact Hok].
  - unfold seen. cbn. by rewrite Eb, !app_nil_r.
  - intros _ _. done.
Qed.

Lemma value_step_inv s s' : inv s -> step s s' -> inv s'.
Proof.
  intros Hi Hs. destruct Hs; eauto using beginSet_inv, nextSet_inv, rendezvous_inv, Watch_inv, Close_inv, beginGet_inv, nextGet_inv, cancelGet_inv.
Qed.

Lemma step_Sync s s' : step s s' -> Sync s' = Sync s.
Proof.
  destruct 1; cbn; try done.
  - unfold nextSet in *. destruct (mu s) as [|val [|i todo] kept|val i todo kept|val i todo kept]; simplify_eq/=; try done;
      destruct (all s !! i) as [w|]; simplify_eq/=; [destruct (Sync s) eqn:E; [destruct (closed w)|]|destruct (bufferedC w)]; by simplify_eq/=.
  - unfold rendezvous in *. destruct (mu s); simplify_eq/=. destruct (all s !! w) as [x|]; simplify_eq/=. destruct (getSem x) as [[]|]; simplify_eq/=.
    destruct (Sync s) eqn:E; by simplify_eq/=.
Qed.

Lemma value_reachable_inv sync s : reachable sync s -> inv s /\ Sync s = sync.
Proof.
  induction 1 as [|s s' _ [IH E] Hs]; [split; [apply inv_init|done]|]. split; [by eapply value_step_inv|]. by rewrite (step_Sync s s' Hs).
Qed.

Lemma inv_watchers s i w : inv s -> all s !! i = Some w ->
  start w <= length (hist s) /\ sublist (seen w) (due (hist s) w) /\
  (mu s = Free -> closed w = false -> if Sync s then seen w = due (hist s) w else last (seen w) = last (due (hist s) w)).
Proof.
  intros Hi Hw. assert (forall h pend kept d, (pend <> [] -> exists val, hist s = h ++ [val]) -> holds s h pend kept d ->
    start w <= length (hist s) /\ sublist (seen w) (due (hist s) w)) as Hk.
  { intros h pend kept d Eh Hh. pose proof (h_ok _ _ _ _ _ Hh i w Hw) as Hok. case_decide as Hd; [|by destruct Hok].
    destruct Eh as [val ->]; [by intros ->; apply not_elem_of_nil in Hd|]. by destruct (ok_later _ _ _ _ val Hok). }
  unfold inv in Hi. destruct (mu s) as [|val todo kept|val j todo kept|val j todo kept] eqn:Em.
  - destruct (Hk _ _ _ _ ltac:(done) Hi) as [? ?]. split_and!; [done..|]. intros _ Hc. pose proof (h_ok _ _ _ _ _ Hi i w Hw) as Hok.
    rewrite decide_False in Hok by set_solver. pose proof (h_open _ _ _ _ _ Hi i w Hw Hc) as Hin. rewrite app_nil_r in Hin.
    pose proof (k_fresh _ _ _ _ Hok Hin) as Hf. destruct (Sync s); auto.
  - destruct Hi as (h & Eh & Hi). destruct (Hk _ _ _ _ ltac:(eauto) Hi). done.
  - destruct Hi as (h & Eh & Hi). destruct (Hk _ _ _ _ ltac:(eauto) Hi). done.
  - destruct Hi as (_ & h & Eh & Hi). destruct (Hk _ _ _ _ ltac:(eauto) Hi). done.
Qed.

(** C13: Whatever the goroutines do, a watcher receives values that were set since it was
    made, or just before, in their order and each once.  While no Set is going on, an open
    watcher without a buffered value has received the newest value, and one with a buffered
    value gets the newest one next; with [Sync], it has received all values, apart from
    a first one that it gets next. *)
Theorem event_value_correct (sync : bool) s : reachable sync s ->
  inner s = last (hist s) /\
  forall i w, all s !! i = Some w ->
    start w <= length (hist s) /\ sublist (got w) (due (hist s) w) /\
    (mu s = Free -> closed w = false ->
      if sync then got w ++ option_list (bufferedC w) = due (hist s) w
      else match bufferedC w with
           | Some val => last (hist s) = Some val
           | None => last (got w) = last (due (hist s) w)
           end).
Proof.
  intros [Hi Es]%value_reachable_inv. split.
  { unfold inv in Hi. destruct (mu s); [|destruct Hi as (? & _ & Hi)..|destruct Hi as (_ & ? & _ & Hi)]; by eapply h_inner. }
  intros i w Hw. destruct (inv_watchers s i w Hi Hw) as (H1 & H2 & H3). split_and!; [done|etrans; [|exact H2]; by apply sublist_inserts_r|].
  intros Hm Hc. specialize (H3 Hm Hc). rewrite Es in H3. destruct sync; [done|]. unfold seen in H3. destruct (bufferedC w) as [val|]; cbn in H3.
  - rewrite last_snoc in H3. symmetry in H3. unfold due in H3. apply last_Some in H3 as [l El].
    rewrite <- (take_drop (start w) (hist s)), El, app_assoc. by rewrite last_snoc.
  - by rewrite app_nil_r in H3.
Qed.

(** ** Set does not block *)

(** The steps a call of [Set] has left. *)
Definition stepsLeft (s : Value T) : nat :=
  match mu s with
  | Free => 0
  | Checking _ todo _ => 3 * length todo + 1
  | Updating _ _ todo _ => 3 * length todo + 3
  | Sending _ _ todo _ => 3 * length todo + 2
  end.

Fixpoint finishSet (n : nat) (s : Value T) : Value T :=
  match n with
  | O => s
  | S n => match nextSet s with Some s' => finishSet n s' | None => s end
  end.

Lemma nextSet_decreases s s' : nextSet s = Some s' -> stepsLeft s' < stepsLeft s.
Proof.
  unfold nextSet, stepsLeft. destruct (mu s) as [|val [|i todo] kept|val i todo kept|val i todo kept]; intros Hn; simplify_eq/=; [lia|destruct (isClosed s i); cbn; lia|..];
    destruct (all s !! i) as [w|]; simplify_eq/=.
  - destruct (Sync s); [destruct (closed w)|]; simplify_eq/=; lia.
  - destruct (bufferedC w); simplify_eq/=. lia.
Qed.

(** With [Sync], [Set] waits for an open watcher; otherwise it never waits. *)
Lemma nextSet_progress s : inv s -> mu s <> Free -> is_Some (nextSet s) \/
  (Sync s = true /\ exists val i todo kept w, mu s = Updating val i todo kept /\ all s !! i = Some w /\ closed w = false /\ (blocked w -> is_Some (rendezvous s))).
Proof.
  intros Hi Hm. unfold inv, nextSet, rendezvous in *. destruct (mu s) as [|val [|i todo] kept|val i todo kept|val i todo kept]; [done|by left; eexists..| |].
  - destruct Hi as (h & _ & Hi). destruct (h_range _ _ _ _ _ Hi i ltac:(set_solver)) as [w Hw]. rewrite Hw. cbn [mbind option_bind].
    destruct (Sync s); [|by left; eexists]. destruct (closed w) eqn:Ec; [by left; eexists|]. right. split; [done|]. exists val, i, todo, kept, w.
    split_and!; [done..|]. intros [p Hp]. rewrite Hp. by eexists.
  - destruct Hi as (_ & h & _ & Hi). destruct (h_range _ _ _ _ _ Hi i ltac:(set_solver)) as [w Hw]. rewrite Hw. cbn [mbind option_bind].
    rewrite (h_drained _ _ _ _ _ Hi i w Hw eq_refl). by left; eexists.
Qed.

(** C38: Without [Sync] a call of [Set] never blocks: whatever the watchers did before, it
    gets to its end by its own steps alone, and then every open watcher has the value or
    gets it next.  With [Sync] it only ever waits for a watcher that is open and has no
    call of [Get] that is waiting. *)
Theorem Set_completes (sync : bool) s : reachable sync s -> mu s <> Free ->
  if sync then is_Some (nextSet s) \/ is_Some (rendezvous s) \/
    exists val i todo kept w, mu s = Updating val i todo kept /\ all s !! i = Some w /\ closed w = false /\ ~ blocked w
  else let s' := finishSet (stepsLeft s) s in reachable false s' /\ mu s' = Free /\ hist s' = hist s.
Proof.
  intros Hr Hm. destruct (value_reachable_inv sync s Hr) as [Hi Es]. destruct sync.
  - destruct (nextSet_progress s Hi Hm) as [?|(_ & val & i & todo & kept & w & E1 & E2 & E3 & E4)]; [by left|right].
    destruct (getSem w) as [[p|p]|] eqn:Eg; [right|left; apply E4; by exists p|right]; exists val, i, todo, kept, w; (split_and!; [done..|]); unfold blocked; naive_solver.
  - clear Hm. remember (stepsLeft s) as n eqn:En. assert (stepsLeft s <= n) as Hn by lia. clear En. revert s Hr Hi Es Hn. induction n as [|n IH]; intros s Hr Hi Es Hn; cbn [finishSet].
    + unfold stepsLeft in Hn. destruct (mu s) eqn:Em; [done|lia..].
    + destruct (nextSet s) as [s'|] eqn:E.
      * assert (reachable false s') as Hr' by (eapply reachable_step; [done|by apply step_nextSet]). destruct (value_reachable_inv false s' Hr') as [Hi' Es'].
        pose proof (nextSet_decreases s s' E). destruct (IH s' Hr' Hi' Es' ltac:(lia)) as (I1 & I2 & I3). split_and!; [done..|]. rewrite I3. clear - E.
        unfold nextSet in E. destruct (mu s) as [|val [|i todo] kept|val i todo kept|val i todo kept]; simplify_eq/=; try done;
          destruct (all s !! i) as [w|]; simplify_eq/=; [destruct (Sync s); [destruct (closed w)|]|destruct (bufferedC w)]; by simplify_eq/=.
      * split; [done|]. split; [|done]. destruct (mu s) eqn:Em; [done|..];
          (destruct (nextSet_progress s Hi ltac:(by rewrite Em)) as [[? ?]|[? _]]; congruence).
Qed.

End props.

(** ** An execution: a watcher, and a value that is being set *)

Definition watching : Value nat := beginSet 7 (Watch false (emptyValue false)).

Lemma watching_reachable : reachable false watching.
Proof.
  eapply reachable_step; [eapply reachable_step; [apply reachable_init|by apply step_watch]|by apply step_set].
Qed.

Lemma event_value_correct_witness : inner watching = Some 7 /\ exists w, all watching !! 0 = Some w /\ sublist (got w) (due (hist watching) w).
Proof.
  destruct (event_value_correct false watching watching_reachable) as [H1 H2]. split; [exact H1|].
  eexists. split; [reflexivity|]. exact (proj1 (proj2 (H2 0 _ eq_refl))).
Defined.

Lemma Set_completes_witness : mu watching <> Free /\ mu (finishSet (stepsLeft watching) watching) = Free.
Proof.
  assert (mu watching <> Free) as Hm by discriminate. split; [exact Hm|]. exact (proj1 (proj2 (Set_completes false watching watching_reachable Hm))).
Defined.

End EventProps.
