(* ===== verification/OrderedMap.v ===== *)
(** * Ordered maps

    Models [go/types/mapsets/orderedmap.go]: a map with its keys in a sorted slice, and an
    iterator that cycles through them.  [abs] is the map it stands for. *)

From S2P Require Import Prelude GoStrings.

Module OrderedMap.

Section index.
Context {K : Type} `{EqDecision K}.

(** The index of a key. *)
Fixpoint indexOf (k : K) (l : list K) : option nat :=
  match l with
  | [] => None
  | k2 :: l => if decide (k2 = k) then Some 0 else S <$> indexOf k l
  end.

Lemma indexOf_Some k l : NoDup l -> k ∈ l -> exists a b, indexOf k l = Some (length a) /\ l = a ++ k :: b /\ (k ∉ a ++ b).
Proof.
  induction 1 as [|x l Hx Hl IH]; [set_solver|]. cbn. case_decide as E.
  - subst. intros _. by exists [], l.
  - intros [->|Hk]%elem_of_cons; [done|]. destruct (IH Hk) as (a & b & Ha & -> & Hn). exists (x :: a), b. rewrite Ha. split_and!; [done..|]. set_solver.
Qed.

End index.

Section maps.
Context {K V : Type} `{Countable K}.
(** [a <= b] of the keys, and the zero value of [V]. *)
Context (le : K -> K -> Prop) `{le_dec : forall a b, Decision (le a b)} `{le_total : !Total le, le_trans : !Transitive le, le_antisymm : !AntiSymm (=) le}.
Context (zero : V).

(** A nil map is [None]. *)
Record OrderedMap := mkMap { keys : list K; values : option (gmap K V) }.

Definition emptyMap : OrderedMap := mkMap [] None.

(** [s.values[k]] and whether it is there, also for a nil map. *)
Definition value (s : OrderedMap) (k : K) : option V := values s ≫= fun m => m !! k.

(** The keys are distinct, so every sorting algorithm gives the same result. *)
Definition sort (l : list K) : list K := merge_sort le l.

Definition Insert (k : K) (v : V) (s : OrderedMap) : OrderedMap :=
  let m := default ∅ (values s) in
  let ks := match m !! k with None => sort (keys s ++ [k]) | Some _ => keys s end in
  mkMap ks (Some (<[k := v]> m)).

Definition Get (k : K) (s : OrderedMap) : V * bool :=
  match value s k with
  | Some v => (v, true)
  | None => (zero, false)
  end.

Definition Keys (s : OrderedMap) : list K := match values s with None => [] | Some _ => keys s end.

Definition Values (s : OrderedMap) : list (K * V) := (fun k => (k, default zero (value s k))) <$> keys s.

(** A panic is [None]. *)
Definition Delete (k : K) (s : OrderedMap) : option OrderedMap :=
  match values s with
  | None => Some s
  | Some m =>
      match m !! k with
      | None => Some s
      | Some _ =>
          toRemove ← indexOf k (keys s);
          Some (mkMap (take toRemove (keys s) ++ drop (S toRemove) (keys s)) (Some (delete k m)))
      end
  end.

Definition Clear (s : OrderedMap) : OrderedMap := emptyMap.

Definition Count (s : OrderedMap) : nat := length (keys s).

Definition Clone (s : OrderedMap) : OrderedMap :=
  match values s with
  | None => emptyMap
  | Some m => mkMap (keys s) (Some (foldl (fun acc k => <[k := default zero (m !! k)]> acc) ∅ (keys s)))
  end.

Definition Replace (o s : OrderedMap) : OrderedMap := Clone o.

(** ** The iterator: an index into the map it was made for *)

Definition Next (s : OrderedMap) (ix : nat) : option (K * V) * nat :=
  match keys s with
  | [] => (None, ix)
  | k0 :: _ =>
      let ix := if decide (length (keys s) <= ix) then 0 else ix in
      let key := nth ix (keys s) k0 in
      (Some (key, default zero (value s key)), S ix)
  end.

(** ** Well-formed maps *)

Definition abs (s : OrderedMap) : gmap K V := default ∅ (values s).

Record wf (s : OrderedMap) : Prop := {
  wf_sorted : StronglySorted le (keys s);
  wf_nodup : NoDup (keys s);
  wf_keys k : k ∈ keys s <-> is_Some (abs s !! k)
}.

Lemma value_abs s k : value s k = abs s !! k.
Proof. unfold value, abs. destruct (values s); cbn; [done|by rewrite lookup_empty]. Qed.

Lemma wf_empty : wf emptyMap.
Proof. split; cbn; [constructor|constructor|]. intros k. unfold abs. cbn. rewrite lookup_empty. split; [set_solver|by intros [? ?]]. Qed.

Lemma Insert_ok k v s : wf s -> wf (Insert k v s) /\ abs (Insert k v s) = <[k := v]> (abs s).
Proof.
  intros [H1 H2 H3]. split; [|done]. unfold Insert. fold (abs s). destruct (abs s !! k) eqn:E; split; cbn [keys].
  - done.
  - done.
  - intros k'. rewrite H3. unfold abs. cbn. fold (abs s). rewrite lookup_insert_is_Some'. split; [auto|]. intros [->|]; [by rewrite E|done].
  - apply StronglySorted_merge_sort; apply _.
  - unfold sort. rewrite merge_sort_Permutation. apply NoDup_app. split_and!; [done| |apply NoDup_singleton]. intros x Hx ->%list_elem_of_singleton.
    apply H3 in Hx as [? ?]. congruence.
  - intros k'. change (abs (mkMap _ _)) with (<[k := v]> (abs s)). unfold sort.
    rewrite merge_sort_Permutation, elem_of_app, list_elem_of_singleton, H3, lookup_insert_is_Some'. naive_solver.
Qed.

(** Keys and values are never out of sync, so [Delete] does not panic. *)
Lemma Delete_ok k s : wf s -> exists s', Delete k s = Some s' /\ wf s' /\ abs s' = delete k (abs s).
Proof.
  intros Hs. pose proof Hs as [H1 H2 H3]. unfold Delete, abs in *. destruct (values s) as [m|] eqn:Ev; cbn in *.
  2:{ exists s. rewrite Ev. cbn. by rewrite delete_empty. }
  destruct (m !! k) eqn:E; [|exists s; rewrite Ev; cbn; by rewrite delete_id].
  destruct (indexOf_Some k (keys s) H2) as (a & b & -> & El & Hn); [apply H3; by rewrite E|]. cbn. eexists. split; [done|]. split; [|done].
  rewrite El in *. rewrite take_app_length. replace (drop (S (length a)) (a ++ k :: b)) with b by (by rewrite cons_middle, app_assoc, drop_app_length' by (rewrite length_app; cbn; lia)).
  assert (NoDup (a ++ b)) as Hnd by (apply NoDup_app in H2 as (? & ? & [? ?]%NoDup_cons); apply NoDup_app; set_solver). split; cbn.
  - apply StronglySorted_app in H1 as (S1 & S2 & S3). apply StronglySorted_inv in S3 as [S3 _] || idtac. apply StronglySorted_app. set_solver.
  - done.
  - intros k'. unfold abs. cbn. rewrite lookup_delete_is_Some, <- H3. set_solver.
Qed.

Lemma Clone_ok s : wf s -> wf (Clone s) /\ abs (Clone s) = abs s.
Proof.
  intros Hs. pose proof Hs as [H1 H2 H3]. unfold Clone, abs in *. destruct (values s) as [m|] eqn:Ev; cbn in *; [|split; [apply wf_empty|done]].
  assert (foldl (fun acc k => <[k := default zero (m !! k)]> acc) ∅ (keys s) = m) as E.
  { apply map_eq. intros k. assert (forall l (acc : gmap K V), foldl (fun acc k => <[k := default zero (m !! k)]> acc) acc l !! k = if decide (k ∈ l) then Some (default zero (m !! k)) else acc !! k) as Hf.
    { induction l as [|x l IH]; intros acc; cbn [foldl]; [done|]. rewrite IH. destruct (decide (x = k)) as [->|].
      - rewrite lookup_insert_eq, (decide_True (P := k ∈ k :: l)) by set_solver. by case_decide.
      - rewrite lookup_insert_ne by done. rewrite (decide_ext _ (k ∈ x :: l)) by set_solver. done. }
    rewrite Hf. case_decide as Hk; [apply H3 in Hk as [v ->]; done|]. rewrite lookup_empty. destruct (m !! k) eqn:E; [|done]. exfalso. apply Hk, H3. by rewrite E. }
  rewrite E. split; [|done]. split; cbn; [done..|]. intros k. unfold abs. cbn. apply H3.
Qed.

(** ** Cycling *)

Fixpoint Nexts (n : nat) (s : OrderedMap) (ix : nat) : list (option (K * V)) :=
  match n with
  | O => []
  | S n => let '(r, ix) := Next s ix in r :: Nexts n s ix
  end.

(** From an index within the map, the rest of it and then the beginning. *)
Lemma Nexts_rest s n ix : n <= length (keys s) - ix -> Nexts n s ix = Some <$> take n (drop ix (Values s)).
Proof.
  revert ix. induction n as [|n IH]; intros ix Hn; [done|]. cbn [Nexts]. assert (ix < length (keys s)) as Hlt by lia. unfold Next.
  destruct (keys s) as [|k0 ks] eqn:Ek; [cbn in Hlt; lia|]. rewrite <- Ek in *. rewrite decide_False by lia. destruct (lookup_lt_is_Some_2 (keys s) ix Hlt) as [k Hk].
  rewrite (nth_lookup_Some _ _ _ _ Hk). assert (drop ix (Values s) = (k, default zero (value s k)) :: drop (S ix) (Values s)) as ->.
  { apply drop_S. unfold Values. by rewrite list_lookup_fmap, Hk. }
  cbn. f_equal. apply IH. lia.
Qed.

Lemma Nexts_app s n m ix : Nexts (n + m) s ix = Nexts n s ix ++ Nexts m s (Nat.iter n (fun i => (Next s i).2) ix).
Proof.
  revert ix. induction n as [|n IH]; intros ix; [done|]. rewrite Nat.iter_succ_r. cbn [Nexts Nat.add]. destruct (Next s ix) as [r ix'] eqn:E.
  cbn [snd]. by rewrite IH.
Qed.

Lemma iter_Next s n ix : n <= length (keys s) - ix -> Nat.iter n (fun i => (Next s i).2) ix = ix + n.
Proof.
  revert ix. induction n as [|n IH]; intros ix Hn; [cbn; lia|]. rewrite Nat.iter_succ, IH by lia. unfold Next. destruct (keys s) as [|k0 ks] eqn:Ek; [cbn in Hn; lia|].
  rewrite <- Ek in *. rewrite decide_False by lia. cbn. lia.
Qed.

Lemma Next_wrap s ix : keys s <> [] -> length (keys s) <= ix -> Next s ix = Next s 0.
Proof.
  intros Hne Hi. unfold Next. destruct (keys s) as [|k0 ks] eqn:Ek; [done|]. rewrite <- Ek in *. rewrite decide_True by done. rewrite decide_False; [done|].
  rewrite Ek. cbn. lia.
Qed.

Lemma Nexts_wrap s n ix : keys s <> [] -> length (keys s) <= ix -> Nexts n s ix = Nexts n s 0.
Proof. intros Hne Hi. destruct n as [|n]; [done|]. cbn [Nexts]. by rewrite Next_wrap. Qed.

(** A whole cycle: everything once, from where the iterator is. *)
Lemma Nexts_cycle s ix : exists a b, Values s = a ++ b /\ Nexts (length (keys s)) s ix = Some <$> (b ++ a).
Proof.
  assert (length (Values s) = length (keys s)) as Hlen by (unfold Values; by rewrite length_fmap).
  destruct (decide (keys s = [])) as [E|Hne]; [exists [], []; unfold Values; by rewrite E|].
  assert (forall ix, ix < length (keys s) -> exists a b, Values s = a ++ b /\ Nexts (length (keys s)) s ix = Some <$> (b ++ a)) as Hc.
  { clear ix. intros ix Hix. exists (take ix (Values s)), (drop ix (Values s)). split; [by rewrite take_drop|].
    replace (length (keys s)) with ((length (keys s) - ix) + ix) at 1 by lia. rewrite Nexts_app, Nexts_rest, iter_Next by lia. rewrite take_ge by (rewrite length_drop; lia).
    rewrite fmap_app. f_equal. rewrite Nexts_wrap by (done || lia). rewrite Nexts_rest by lia. by rewrite drop_0. }
  destruct (decide (length (keys s) <= ix)) as [Hi|Hi]; [|apply Hc; lia]. rewrite Nexts_wrap by done. apply Hc. destruct (keys s); [done|]. cbn. lia.
Qed.

Lemma Values_abs s : wf s -> Values s ≡ₚ map_to_list (abs s).
Proof.
  intros [H1 H2 H3]. apply NoDup_Permutation.
  - apply (NoDup_fmap_1 fst). unfold Values. rewrite <- list_fmap_compose. rewrite (list_fmap_ext _ id); [by rewrite list_fmap_id|done].
  - apply NoDup_map_to_list.
  - intros [k v]. rewrite elem_of_map_to_list. unfold Values. rewrite list_elem_of_fmap. split.
    + intros (k' & [= <- ->] & [x Hk]%H3). by rewrite value_abs, Hk.
    + intros Hk. exists k. rewrite value_abs, Hk. split; [done|]. apply H3. by rewrite Hk.
Qed.

Lemma Keys_ok s : wf s -> Keys s = keys s.
Proof.
  intros [_ _ H3]. unfold Keys. destruct (values s) eqn:E; [done|]. destruct (keys s) as [|k l] eqn:Ek; [done|]. exfalso.
  destruct (proj1 (H3 k)) as [v Hv]; [set_solver|]. unfold abs in Hv. rewrite E in Hv. cbn in Hv. by rewrite lookup_empty in Hv.
Qed.

(** An ordered map is a map, with its keys in order.  On a well-formed map every operation does to the map
    it stands for what its name says and keeps it well formed: [Insert], [Delete], which does not find keys
    and values out of sync, [Get], [Clear], [Clone], [Replace]; [Values] lists the entries once, sorted by key, as [Keys] and [Count] do; and from any position
    of an iterator, as many calls of [Next] as there are entries return each entry once, in order, wrapping around. *)
Theorem ordered_map_correct s k v : wf s ->
  (wf (Insert k v s) /\ abs (Insert k v s) = <[k := v]> (abs s)) /\
  (exists s', Delete k s = Some s' /\ wf s' /\ abs s' = delete k (abs s)) /\
  Get k s = match abs s !! k with Some v => (v, true) | None => (zero, false) end /\
  (wf (Clear s) /\ abs (Clear s) = ∅) /\
  (forall o, wf (Replace s o) /\ abs (Replace s o) = abs s) /\
  (Values s ≡ₚ map_to_list (abs s) /\ StronglySorted le (Values s).*1 /\ (Values s).*1 = Keys s /\ Count s = size (abs s)) /\
  (forall ix, exists a b, Values s = a ++ b /\ Nexts (length (Keys s)) s ix = Some <$> (b ++ a)).
Proof.
  intros Hs. assert ((Values s).*1 = keys s) as Hk by (unfold Values; rewrite <- list_fmap_compose, (list_fmap_ext _ id); [by rewrite list_fmap_id|done]). split_and!.
  - by apply Insert_ok.
  - done.
  - by apply Delete_ok.
  - unfold Get. by rewrite value_abs.
  - apply wf_empty.
  - done.
  - intros o. by apply Clone_ok.
  - by apply Values_abs.
  - rewrite Hk. apply Hs.
  - by rewrite Hk, Keys_ok.
  - unfold Count. rewrite <- Hk, length_fmap, (Values_abs s Hs). apply length_map_to_list.
  - rewrite (Keys_ok s Hs). intros ix. apply Nexts_cycle.
Qed.

End maps.
Arguments OrderedMap K V {_ _}.

Lemma ordered_map_correct_witness : let s := Insert string_le "b" 2 (Insert string_le "a" 1 emptyMap) in
  wf string_le s /\ Get 0 "b" s = (2, true) /\ exists s', Delete "a" s = Some s' /\ abs s' = {["b" := 2]}.
Proof.
  intros s. assert (wf string_le s) as Hs by (apply Insert_ok, Insert_ok, wf_empty; apply _).
  destruct (ordered_map_correct string_le 0 s "a" 0 Hs) as (_ & (s' & E & _ & Ha) & _). split_and!; [exact Hs|reflexivity|].
  exists s'. split; [exact E|]. rewrite Ha. reflexivity.
Defined.

End OrderedMap.
