(* ===== verification/Tinylb.v ===== *)
(** * A load balancer

    Models [go/net/tinylb]: the pool of connections ([connection_pool.go]), and the server
    as a transition system of the goroutine that accepts connections, the one that
    follows the set of backends, and the ones that copy data ([tinylb.go]).

    A backend is its target name.  Connections are numbers; [opened] are the connections to
    backends that are open.  [picked] and [inserted] say for a connection which set of
    backends it was picked from and how many updates had listed the targets of the
    pool before it was inserted; the code does not have them. *)

From S2P Require Import Prelude GoStrings OrderedMap.

Module Tinylb.
Import OrderedMap.

(** ** The pool *)

Record connectionDetails := mkDetails { conn : nat; target : string }.

Record connectionPool := mkPool {
  detailsById : gmap nat connectionDetails;
  idsByTarget : gmap string (list nat);
  cid : nat
}.

Definition newConnectionPool : connectionPool := mkPool ∅ ∅ 0.

Definition ids (p : connectionPool) (t : string) : list nat := default [] (idsByTarget p !! t).

Definition poolInsert (t : string) (c : nat) (p : connectionPool) : connectionPool * nat :=
  let id := cid p in
  (mkPool (<[id := mkDetails c t]> (detailsById p)) (<[t := ids p t ++ [id]]> (idsByTarget p)) (S id), id).

(** The connections that are closed; a panic is [None]. *)
Definition CloseConn (id : nat) (p : connectionPool) : option (connectionPool * list nat) :=
  match detailsById p !! id with
  | None => Some (p, [])
  | Some cd =>
      let l := ids p (target cd) in
      ix ← indexOf id l;
      Some (mkPool (delete id (detailsById p)) (<[target cd := take ix l ++ drop (S ix) l]> (idsByTarget p)) (cid p), [conn cd])
  end.

Fixpoint closeAll (l : list nat) (details : gmap nat connectionDetails) : option (gmap nat connectionDetails * list nat) :=
  match l with
  | [] => Some (details, [])
  | id :: l =>
      cd ← details !! id;
      '(details, cs) ← closeAll l (delete id details);
      Some (details, conn cd :: cs)
  end.

Definition CloseTarget (t : string) (p : connectionPool) : option (connectionPool * list nat) :=
  '(details, cs) ← closeAll (ids p t) (detailsById p);
  Some (mkPool details (delete t (idsByTarget p)) (cid p), cs).

Definition Targets (p : connectionPool) : list string := merge_sort string_le (elements (dom (idsByTarget p))).

(** ** The server *)

(** Keys of backends to target names. *)
Abbreviation BackendSet := (OrderedMap string string).

(** The target names of a set. *)
Definition targetsOf (set : BackendSet) : list string := snd <$> Values "" set.

Inductive acceptorPC :=
| Accepting
| Picked (backend : string) (gen : nat)
| Dialed (backend : string) (gen : nat) (r : nat).

Inductive updaterPC :=
| Waiting
| Got (set : BackendSet)
| Closing (set : BackendSet) (todo : list string).

Record server := mkServer {
  pool : connectionPool;
  curSet : BackendSet;
  ix : nat;
  acceptor : acceptorPC;
  updater : updaterPC;
  opened : gset nat;
  dials : nat;
  pipes : gset nat;
  listed : nat;
  installed : nat;
  picked : gmap nat nat;
  inserted : gmap nat nat
}.

Definition newServer : server := mkServer newConnectionPool emptyMap 0 Accepting Waiting ∅ 0 ∅ 0 0 ∅ ∅.

(** Accept a connection and pick a backend; without one, the connection is closed. *)
Definition accept (s : server) : server :=
  let '(r, i) := Next "" (curSet s) (ix s) in
  mkServer (pool s) (curSet s) i (match r with Some (_, b) => Picked b (installed s) | None => Accepting end) (updater s) (opened s) (dials s) (pipes s)
    (listed s) (installed s) (picked s) (inserted s).

(** Dial the backend; if that fails, the connection is closed. *)
Definition dial (ok : bool) (s : server) : option server :=
  match acceptor s with
  | Picked b g =>
      Some (if ok then mkServer (pool s) (curSet s) (ix s) (Dialed b g (dials s)) (updater s) ({[dials s]} ∪ opened s) (S (dials s)) (pipes s)
                         (listed s) (installed s) (picked s) (inserted s)
            else mkServer (pool s) (curSet s) (ix s) Accepting (updater s) (opened s) (dials s) (pipes s) (listed s) (installed s) (picked s) (inserted s))
  | _ => None
  end.

(** Insert the connection into the pool, and start to copy data. *)
Definition insertConn (s : server) : option server :=
  match acceptor s with
  | Dialed b g r =>
      let '(p, id) := poolInsert b r (pool s) in
      Some (mkServer p (curSet s) (ix s) Accepting (updater s) (opened s) (dials s) ({[id]} ∪ pipes s) (listed s) (installed s)
              (<[id := g]> (picked s)) (<[id := listed s]> (inserted s)))
  | _ => None
  end.

(** Copying data ends in one direction. *)
Definition pipeEnds (id : nat) (s : server) : option server :=
  '(p, cs) ← CloseConn id (pool s);
  Some (mkServer p (curSet s) (ix s) (acceptor s) (updater s) (opened s ∖ list_to_set cs) (dials s) (pipes s) (listed s) (installed s) (picked s) (inserted s)).

Definition set_updater u s :=
  mkServer (pool s) (curSet s) (ix s) (acceptor s) u (opened s) (dials s) (pipes s) (listed s) (installed s) (picked s) (inserted s).

(** List the targets of the pool that are not in the new set. *)
Definition listTargets (s : server) : option server :=
  match updater s with
  | Got set =>
      let gone := filter (fun t => t ∉ targetsOf set) (Targets (pool s)) in
      Some (mkServer (pool s) (curSet s) (ix s) (acceptor s) (Closing set gone) (opened s) (dials s) (pipes s) (S (listed s)) (installed s) (picked s) (inserted s))
  | _ => None
  end.

(** Close the connections of the next one of them, or replace the set. *)
Definition nextUpdate (s : server) : option server :=
  match updater s with
  | Closing set (t :: todo) =>
      '(p, cs) ← CloseTarget t (pool s);
      Some (mkServer p (curSet s) (ix s) (acceptor s) (Closing set todo) (opened s ∖ list_to_set cs) (dials s) (pipes s) (listed s) (installed s) (picked s) (inserted s))
  | Closing set [] =>
      Some (mkServer (pool s) (Replace "" set (curSet s)) (ix s) (acceptor s) Waiting (opened s) (dials s) (pipes s) (listed s) (S (installed s)) (picked s) (inserted s))
  | _ => None
  end.

Inductive step : server -> server -> Prop :=
| step_accept s : acceptor s = Accepting -> step s (accept s)
| step_dial s ok s' : dial ok s = Some s' -> step s s'
| step_insert s s' : insertConn s = Some s' -> step s s'
| step_pipe s id s' : id ∈ pipes s -> pipeEnds id s = Some s' -> step s s'
| step_get s set : updater s = Waiting -> wf string_le set -> step s (set_updater (Got set) s)
| step_list s s' : listTargets s = Some s' -> step s s'
| step_update s s' : nextUpdate s = Some s' -> step s s'.

Inductive reachable : server -> Prop :=
| reachable_init : reachable newServer
| reachable_step s s' : reachable s -> step s s' -> reachable s'.

(** ** The pool is consistent *)

Record poolOk (p : connectionPool) : Prop := {
  p_ids t id : id ∈ ids p t <-> exists c, detailsById p !! id = Some (mkDetails c t);
  p_nodup t : NoDup (ids p t);
  p_cid id : is_Some (detailsById p !! id) -> id < cid p;
  p_conn i j d e : detailsById p !! i = Some d -> detailsById p !! j = Some e -> conn d = conn e -> i = j
}.

(** The connections in the pool. *)
Definition conns (p : connectionPool) : gset nat := map_to_set (fun _ d => conn d) (detailsById p).

Lemma elem_of_conns p c : c ∈ conns p <-> exists id t, detailsById p !! id = Some (mkDetails c t).
Proof.
  unfold conns. rewrite elem_of_map_to_set. split; [intros (id & [c' t] & Hd & <-); eauto|intros (id & t & Hd); eauto].
Qed.

Lemma poolOk_new : poolOk newConnectionPool.
Proof. split; unfold ids; cbn; [|constructor|by intros id [? ?]|done]. intros t id. rewrite lookup_empty. cbn. split; [set_solver|]. by intros [c ?]. Qed.

Lemma ids_insert p t l t' d n : ids (mkPool d (<[t := l]> (idsByTarget p)) n) t' = if decide (t' = t) then l else ids p t'.
Proof. unfold ids. cbn. case_decide; [subst; by rewrite lookup_insert_eq|by rewrite lookup_insert_ne]. Qed.

Lemma Insert_pool t c p : poolOk p -> (c ∉ conns p) -> let '(p', id) := poolInsert t c p in
  poolOk p' /\ detailsById p !! id = None /\ detailsById p' = <[id := mkDetails c t]> (detailsById p).
Proof.
  intros [H1 H2 H3 H4] Hc. cbn. assert (detailsById p !! cid p = None) as Hn by (apply eq_None_not_Some; intros Hs; apply H3 in Hs; lia).
  split; [|done]. split; cbn.
  - intros t' id. rewrite ids_insert. case_decide as E.
    + subst. rewrite elem_of_app, list_elem_of_singleton, H1. destruct (decide (id = cid p)) as [->|]; [rewrite lookup_insert_eq; naive_solver|rewrite lookup_insert_ne by done; naive_solver].
    + rewrite H1. destruct (decide (id = cid p)) as [->|]; [rewrite lookup_insert_eq, Hn; naive_solver|by rewrite lookup_insert_ne].
  - intros t'. rewrite ids_insert. case_decide; [|done]. subst. apply NoDup_app. split_and!; [done| |apply NoDup_singleton].
    intros x Hx ->%list_elem_of_singleton. apply H1 in Hx as [c' Hx]. congruence.
  - intros id. rewrite lookup_insert_is_Some'. intros [<-|Hi%H3]; lia.
  - intros i j d e Hi Hj He. rewrite elem_of_conns in Hc. destruct (decide (i = cid p)) as [->|Hi'], (decide (j = cid p)) as [->|Hj']; [done|..];
      rewrite ?lookup_insert_eq, ?lookup_insert_ne in Hi by done; rewrite ?lookup_insert_eq, ?lookup_insert_ne in Hj by done; simplify_eq/=.
    + destruct e as [ce te]. cbn in *. subst. naive_solver.
    + destruct d as [cd td]. cbn in *. subst. naive_solver.
    + by eapply H4.
Qed.

Lemma CloseConn_pool id p : poolOk p -> exists p' cs, CloseConn id p = Some (p', cs) /\ poolOk p' /\
  detailsById p' = delete id (detailsById p) /\ cid p' = cid p /\ cs = match detailsById p !! id with Some d => [conn d] | None => [] end.
Proof.
  intros Hp. pose proof Hp as [H1 H2 H3 H4]. unfold CloseConn. destruct (detailsById p !! id) as [[c t]|] eqn:E; cbn [target conn].
  2:{ exists p, []. by rewrite delete_id. }
  destruct (indexOf_Some id (ids p t) (H2 t)) as (a & b & -> & El & Hn); [apply H1; eauto|]. cbn. do 2 eexists. split; [done|]. cbn. split; [|done].
  rewrite El, take_app_length. replace (drop (S (length a)) (a ++ id :: b)) with b by (by rewrite cons_middle, app_assoc, drop_app_length' by (rewrite length_app; cbn; lia)).
  split; cbn.
  - intros t' i. rewrite ids_insert. setoid_rewrite lookup_delete_Some. case_decide as Ht.
    + subst t'. destruct (decide (i = id)) as [->|Hi]; [naive_solver|]. transitivity (i ∈ ids p t); [rewrite El; set_solver|]. rewrite H1. naive_solver.
    + rewrite H1. split; [|naive_solver]. intros [c' Hc]. exists c'. split; [|done]. intros ->. congruence.
  - intros t'. rewrite ids_insert. case_decide; [|done]. specialize (H2 t). rewrite El in H2. apply NoDup_app in H2 as (? & ? & [? ?]%NoDup_cons). apply NoDup_app. set_solver.
  - intros i. rewrite lookup_delete_is_Some. intros [_ Hi]. by apply H3.
  - intros i j d e [_ Hi]%lookup_delete_Some [_ Hj]%lookup_delete_Some. by apply H4.
Qed.

Lemma closeAll_ok l details : NoDup l -> (forall id, id ∈ l -> is_Some (details !! id)) -> exists cs,
  closeAll l details = Some (filter (fun kv => kv.1 ∉ l) details, cs) /\
  forall c, c ∈ cs <-> exists id d, id ∈ l /\ details !! id = Some d /\ conn d = c.
Proof.
  intros Hl. revert details. induction Hl as [|id l Hid Hl IH]; intros details Hd; cbn.
  - exists []. split; [|set_solver]. do 2 f_equal. symmetry. apply map_filter_id. set_solver.
  - destruct (Hd id) as [d E]; [set_solver|]. rewrite E. cbn. destruct (IH (delete id details)) as (cs & -> & Hcs).
    { intros i Hi. rewrite lookup_delete_is_Some. set_solver. }
    cbn. eexists. split.
    + do 2 f_equal. apply map_eq. intros i. apply option_eq. intros x. rewrite !map_lookup_filter_Some, lookup_delete_Some. cbn. set_solver.
    + intros c. rewrite elem_of_cons, Hcs. setoid_rewrite lookup_delete_Some. split.
      * intros [->|(i & e & Hi & [_ He] & <-)]; [exists id, d; set_solver|exists i, e; set_solver].
      * intros (i & e & [->|Hi]%elem_of_cons & He & <-); [left; congruence|]. right. exists i, e. set_solver.
Qed.

Lemma CloseTarget_pool t p : poolOk p -> exists p' cs, CloseTarget t p = Some (p', cs) /\ poolOk p' /\ cid p' = cid p /\
  (forall id d, detailsById p' !! id = Some d <-> detailsById p !! id = Some d /\ target d <> t) /\
  (forall c, c ∈ cs <-> exists id, detailsById p !! id = Some (mkDetails c t)).
Proof.
  intros Hp. pose proof Hp as [H1 H2 H3 H4]. unfold CloseTarget. destruct (closeAll_ok (ids p t) (detailsById p) (H2 t)) as (cs & -> & Hcs).
  { intros id [c Hc]%H1. by rewrite Hc. }
  cbn. do 2 eexists. split; [done|]. cbn. assert (forall id d, filter (fun kv => kv.1 ∉ ids p t) (detailsById p) !! id = Some d <-> detailsById p !! id = Some d /\ target d <> t) as Hf.
  { intros id [c t']. rewrite map_lookup_filter_Some. cbn. rewrite H1. split; intros [Hd Hn]; (split; [done|]).
    - intros ->. naive_solver.
    - intros [c' Hc']. congruence. }
  assert (forall t' n, ids (mkPool (filter (fun kv => kv.1 ∉ ids p t) (detailsById p)) (delete t (idsByTarget p)) n) t' = if decide (t' = t) then [] else ids p t') as Hi.
  { intros t' n. unfold ids at 1. cbn. case_decide; [subst; by rewrite lookup_delete_eq|by rewrite lookup_delete_ne]. }
  split_and!; [split; cbn|done|done|].
  - intros t' id. rewrite Hi. setoid_rewrite Hf. cbn. case_decide; [set_solver|]. rewrite H1. naive_solver.
  - intros t'. rewrite Hi. case_decide; [constructor|done].
  - intros id [d [Hd _]%Hf]. apply H3. by rewrite Hd.
  - intros i j d e [Hd _]%Hf [He _]%Hf. by apply H4.
  - intros c. rewrite Hcs. split.
    + intros (id & d & [c' Hc']%H1 & Hd & <-). exists id. simplify_eq. done.
    + intros [id Hd]. exists id, (mkDetails c t). split_and!; [apply H1; eauto|done..].
Qed.

Lemma elem_of_Targets p t : t ∈ Targets p <-> is_Some (idsByTarget p !! t).
Proof. unfold Targets. by rewrite merge_sort_Permutation, elem_of_elements, elem_of_dom. Qed.

(** The target of a connection is listed. *)
Lemma Targets_details p id c t : poolOk p -> detailsById p !! id = Some (mkDetails c t) -> t ∈ Targets p.
Proof.
  intros [H1 _ _ _] Hd. apply elem_of_Targets. assert (id ∈ ids p t) as Hi by (apply H1; eauto). unfold ids in Hi. destruct (idsByTarget p !! t); [done|set_solver].
Qed.

(** ** The server's invariant *)

Definition details (s : server) := detailsById (pool s).

(** What the acceptor has: connections that are not in the pool yet. *)
Definition pending (s : server) : gset nat := match acceptor s with Dialed _ _ r => {[r]} | _ => ∅ end.

Definition backendOk (s : server) (b : string) (g : nat) : Prop := g <= installed s /\ (g = installed s -> b ∈ targetsOf (curSet s)).

Definition acceptorOk (s : server) : Prop :=
  match acceptor s with
  | Accepting => True
  | Picked b g => backendOk s b g
  | Dialed b g r => backendOk s b g /\ (r ∉ conns (pool s)) /\ r < dials s
  end.

Definition updaterOk (s : server) : Prop :=
  match updater s with
  | Waiting => listed s = installed s
  | Got set => listed s = installed s /\ wf string_le set
  | Closing set _ => listed s = S (installed s) /\ wf string_le set
  end.

(** The targets that a connection inserted before the last listing can have. *)
Definition mayStay (s : server) (t : string) : Prop :=
  match updater s with
  | Closing set todo => t ∈ targetsOf set \/ t ∈ todo
  | _ => t ∈ targetsOf (curSet s)
  end.

Definition connOk (s : server) (id : nat) (t : string) : Prop :=
  (id ∈ pipes s) /\ exists g l, picked s !! id = Some g /\ inserted s !! id = Some l /\ backendOk s t g /\ l <= listed s /\ (l < listed s -> mayStay s t).

Record serverOk (s : server) : Prop := {
  s_pool : poolOk (pool s);
  s_set : wf string_le (curSet s);
  s_acceptor : acceptorOk s;
  s_updater : updaterOk s;
  s_opened : opened s = conns (pool s) ∪ pending s;
  s_dials c : c ∈ opened s -> c < dials s;
  s_conns id c t : details s !! id = Some (mkDetails c t) -> connOk s id t
}.

Lemma Next_target (set : BackendSet) i r j : Next "" set i = (Some r, j) -> r.2 ∈ targetsOf set.
Proof.
  unfold Next. destruct (keys set) as [|k0 ks] eqn:Ek; [done|]. rewrite <- Ek. intros [= <- _]. cbn. unfold targetsOf, Values. rewrite <- list_fmap_compose.
  apply list_elem_of_fmap. eexists. split; [reflexivity|]. destruct (nth_in_or_default (if decide (length (keys set) <= i) then 0 else i) (keys set) k0) as [Hin| ->].
  - by apply list_elem_of_In.
  - rewrite Ek. apply elem_of_cons. by left.
Qed.

Lemma conns_insert p id c t : detailsById p !! id = None -> forall p', detailsById p' = <[id := mkDetails c t]> (detailsById p) -> conns p' = {[c]} ∪ conns p.
Proof. intros Hn p' Hp. unfold conns. rewrite Hp. apply leibniz_equiv. by rewrite map_to_set_insert by done. Qed.

Lemma conns_close p p' cs :
  (forall id d, detailsById p' !! id = Some d -> detailsById p !! id = Some d /\ (conn d ∉ cs)) ->
  (forall id d, detailsById p !! id = Some d -> (conn d ∉ cs) -> detailsById p' !! id = Some d) ->
  conns p' = conns p ∖ list_to_set cs.
Proof.
  intros H1 H2. apply set_eq. intros c. rewrite elem_of_difference, !elem_of_conns, elem_of_list_to_set. split.
  - intros (id & t & Hd). apply H1 in Hd as [Hd Hn]. eauto.
  - intros [(id & t & Hd) Hn]. exists id, t. by apply H2.
Qed.

Lemma accept_ok s : acceptor s = Accepting -> serverOk s -> serverOk (accept s).
Proof.
  intros Ea [H1 H2 H3 H4 H5 H6 H7]. unfold accept. destruct (Next "" (curSet s) (ix s)) as [r i] eqn:E. split; [exact H1|exact H2| |exact H4| |exact H6|exact H7].
  - unfold acceptorOk. cbn. destruct r as [[k b]|]; [|done]. split; cbn; [done|]. intros _. by apply (Next_target _ _ _ _ E).
  - cbn. rewrite H5. unfold pending. rewrite Ea. cbn. by destruct r as [[? ?]|].
Qed.

Lemma conns_lt s c : serverOk s -> c ∈ conns (pool s) -> c < dials s.
Proof. intros [_ _ _ _ H5 H6 _] Hc. apply H6. set_solver. Qed.

Lemma dial_ok ok s s' : dial ok s = Some s' -> serverOk s -> serverOk s'.
Proof.
  intros E Hs. pose proof Hs as [H1 H2 H3 H4 H5 H6 H7]. unfold dial in E. unfold acceptorOk in H3. unfold pending in H5. destruct (acceptor s) as [|b g|] eqn:Ea; [done| |done].
  injection E as <-. destruct ok; (split; [exact H1|exact H2| |exact H4| | |exact H7]).
  - unfold acceptorOk. cbn. split_and!; [exact H3| |lia]. intros Hc%conns_lt; [lia|done].
  - cbn. rewrite H5. set_solver.
  - cbn. intros c [->%elem_of_singleton|Hc%H6]%elem_of_union; lia.
  - done.
  - done.
  - done.
Qed.

Lemma insertConn_ok s s' : insertConn s = Some s' -> serverOk s -> serverOk s'.
Proof.
  intros E [H1 H2 H3 H4 H5 H6 H7]. unfold insertConn in E. unfold acceptorOk in H3. unfold pending in H5. destruct (acceptor s) as [| |b g r] eqn:Ea; [done|done|].
  destruct H3 as (Hb & Hr & Hlt). pose proof (Insert_pool b r (pool s) H1 Hr) as Hp. destruct (poolInsert b r (pool s)) as [p id]. destruct Hp as (Hp & Hn & Ed).
  injection E as <-. split; [exact Hp|exact H2|exact I|exact H4| |exact H6|].
  - cbn. rewrite H5, (conns_insert _ _ _ _ Hn _ Ed). set_solver.
  - unfold details. cbn. rewrite Ed. intros i c t. destruct (decide (i = id)) as [->|Hi].
    + rewrite lookup_insert_eq. intros [= -> ->]. split; cbn; [set_solver|]. exists g, (listed s). rewrite !lookup_insert_eq. split_and!; [done..|lia].
    + rewrite lookup_insert_ne by done. intros Hd. destruct (H7 i c t Hd) as (Hin & g' & l & Hg & Hl & Hrest). split; cbn; [set_solver|].
      exists g', l. rewrite !lookup_insert_ne by done. done.
Qed.

(** Closing connections of the pool. *)
Lemma close_ok s p cs u : serverOk s -> poolOk p ->
  (forall id d, detailsById p !! id = Some d -> details s !! id = Some d /\ (conn d ∉ cs)) ->
  (forall id d, details s !! id = Some d -> (conn d ∉ cs) -> detailsById p !! id = Some d) ->
  (forall c, c ∈ cs -> c ∈ conns (pool s)) ->
  let s' := mkServer p (curSet s) (ix s) (acceptor s) u (opened s ∖ list_to_set cs) (dials s) (pipes s) (listed s) (installed s) (picked s) (inserted s) in
  updaterOk s' -> (forall id c t, detailsById p !! id = Some (mkDetails c t) -> mayStay s t -> mayStay s' t) -> serverOk s'.
Proof.
  intros [H1 H2 H3 H4 H5 H6 H7] Hp Ha Hb Hc s' Hu Hm. pose proof (conns_close _ _ _ Ha Hb) as Ec. split; [exact Hp|exact H2| |exact Hu| | |]; cbn.
  - unfold acceptorOk in *. cbn. destruct (acceptor s); [done|done|]. rewrite Ec. set_solver.
  - rewrite Ec, H5. unfold pending in *. unfold acceptorOk in H3. cbn. destruct (acceptor s); [set_solver|set_solver|]. destruct H3 as (_ & Hr & _). set_solver.
  - set_solver.
  - intros id c t Hd. destruct (H7 id c t) as (Hin & g & l & Hg & Hl & Hbo & Hle & Hst); [by apply Ha|]. split; [exact Hin|].
    exists g, l. split_and!; [done..|]. intros Hlt. by eapply Hm; [exact Hd|apply Hst].
Qed.

Lemma pipeEnds_ok id s : serverOk s -> exists s', pipeEnds id s = Some s' /\ serverOk s'.
Proof.
  intros Hs. pose proof (s_pool s Hs) as Hp. unfold pipeEnds. destruct (CloseConn_pool id (pool s) Hp) as (p & cs & -> & Hp' & Ed & _ & Ec). cbn. eexists. split; [done|].
  apply close_ok; [done|done|..|exact (s_updater s Hs)|done].
  - rewrite Ed. intros i d [Hi Hd]%lookup_delete_Some. split; [exact Hd|]. subst cs. destruct (detailsById (pool s) !! id) eqn:E; [|set_solver].
    intros Hc%list_elem_of_singleton. by apply Hi, (p_conn _ Hp _ _ _ _ E Hd).
  - rewrite Ed. intros i d Hd Hn. rewrite lookup_delete_Some. split; [|done]. intros ->. unfold details in Hd. rewrite Hd in Ec. set_solver.
  - subst cs. intros c Hc. destruct (detailsById (pool s) !! id) as [[c' t]|] eqn:E; [|set_solver]. apply list_elem_of_singleton in Hc as ->. apply elem_of_conns. eauto.
Qed.

Lemma listTargets_ok s s' : listTargets s = Some s' -> serverOk s -> serverOk s'.
Proof.
  intros E [H1 H2 H3 H4 H5 H6 H7]. unfold listTargets in E. unfold updaterOk in H4. destruct (updater s) as [|set|] eqn:Eu; [done| |done]. injection E as <-.
  split; [exact H1|exact H2|exact H3| |exact H5|exact H6|].
  - unfold updaterOk. cbn. split; [lia|apply H4].
  - intros id c t Hd. destruct (H7 id c t Hd) as (Hin & g & l & Hg & Hl & Hbo & Hle & Hst). split; [exact Hin|]. exists g, l. split_and!; [done..|cbn; lia|].
    intros _. unfold mayStay. cbn. destruct (decide (t ∈ targetsOf set)) as [|Hn]; [by left|right]. apply list_elem_of_filter. split; [done|].
    exact (Targets_details _ _ _ _ H1 Hd).
Qed.

Lemma nextUpdate_ok s : match updater s with Closing _ _ => serverOk s -> exists s', nextUpdate s = Some s' /\ serverOk s' | _ => nextUpdate s = None end.
Proof.
  unfold nextUpdate. destruct (updater s) as [| |set [|t todo]] eqn:Eu; [done|done| |]; intros Hs; pose proof Hs as [H1 H2 H3 H4 H5 H6 H7].
  - eexists. split; [done|]. unfold updaterOk in H4. rewrite Eu in H4. destruct H4 as [H4 Hw]. destruct (Clone_ok string_le "" set Hw) as [Hw' Habs].
    split; [exact H1|exact Hw'| | |exact H5|exact H6|].
    + unfold acceptorOk, backendOk in *. cbn. destruct (acceptor s); [done|split; [lia|lia]|]. destruct H3 as ([? ?] & ? & ?). split_and!; [lia|lia|done|done].
    + unfold updaterOk. cbn. lia.
    + intros id c t Hd. destruct (H7 id c t Hd) as (Hin & g & l & Hg & Hl & [Hg1 Hg2] & Hle & Hst). split; [exact Hin|]. exists g, l. split_and!; [done..|split; cbn; lia|done|].
      intros Hlt. apply Hst in Hlt. unfold mayStay in *. rewrite Eu in Hlt. cbn. destruct Hlt as [Ht|Ht]; [|set_solver].
      unfold targetsOf, Replace in *. rewrite (Values_abs string_le) in Ht |- * by done. by rewrite Habs.
  - destruct (CloseTarget_pool t (pool s) H1) as (p & cs & -> & Hp & _ & Hd & Hc). cbn. eexists. split; [done|]. apply close_ok; [done|done|..].
    + intros id d [Hdd Hne]%Hd. split; [exact Hdd|]. intros [id' Hid]%Hc. destruct d as [c' t']. cbn in *. assert (id = id') as <- by (by eapply (p_conn _ H1)). congruence.
    + intros id [c' t'] Hdd Hn. apply Hd. split; [exact Hdd|]. cbn. intros ->. apply Hn, Hc. cbn. eauto.
    + intros c [id Hid]%Hc. apply elem_of_conns. eauto.
    + unfold updaterOk in *. rewrite Eu in H4. exact H4.
    + intros id c t' Hdd. apply Hd in Hdd as [_ Hne]. unfold mayStay. rewrite Eu. cbn [updater target] in *. intros [Ht|[->|Ht]%elem_of_cons]; [by left|by destruct Hne|by right].
Qed.

Lemma reachable_ok s : reachable s -> serverOk s.
Proof.
  induction 1 as [|s s' _ IH Hs].
  - split; cbn; [apply poolOk_new|apply wf_empty; apply _|done|done|done|set_solver|]. intros id c t Hd. unfold details in Hd. cbn in Hd. by rewrite lookup_empty in Hd.
  - destruct Hs as [s Ha|s ok s' E|s s' E|s id s' _ E|s set Eu Hw|s s' E|s s' E].
    + by apply accept_ok.
    + by apply dial_ok with ok s.
    + by apply insertConn_ok with s.
    + destruct (pipeEnds_ok id s IH) as (s2 & E2 & Hs2). congruence.
    + destruct IH as [H1 H2 H3 H4 H5 H6 H7]. unfold updaterOk in H4. rewrite Eu in H4. split; [exact H1|exact H2|exact H3|by split|exact H5|exact H6|].
      intros id c t Hd. destruct (H7 id c t Hd) as (Hin & g & l & Hr). split; [exact Hin|]. exists g, l. unfold mayStay in *. by rewrite Eu in Hr.
    + by apply listTargets_ok with s.
    + pose proof (nextUpdate_ok s) as Hn. destruct (updater s); [congruence|congruence|]. destruct (Hn IH) as (s2 & E2 & Hs2). congruence.
Qed.

(** C26: the load balancer loses no connection and closes what it should.  In every state that the goroutines
    can reach: closing a connection and applying an update do not panic and each update goes on; the open
    connections to backends are those of the pool and the one the acceptor has just dialed, and each connection
    of the pool is being copied, so that it is closed when that ends; and between updates, a connection
    of the pool goes to a target of the current set, except one picked before the last update
    replaced the set and inserted after that update listed the targets of the pool. *)
Theorem tinylb_correct s : reachable s ->
  (forall id, is_Some (pipeEnds id s)) /\
  (match updater s with Waiting => True | Got _ => is_Some (listTargets s) | Closing _ _ => is_Some (nextUpdate s) end) /\
  opened s = conns (pool s) ∪ pending s /\
  (forall id c t, details s !! id = Some (mkDetails c t) -> (id ∈ pipes s) /\
     (updater s = Waiting -> (t ∉ targetsOf (curSet s)) ->
      exists g l, picked s !! id = Some g /\ inserted s !! id = Some l /\ g < installed s /\ l = listed s)).
Proof.
  intros Hs%reachable_ok. split_and!.
  - intros id. destruct (pipeEnds_ok id s Hs) as (s' & -> & _). eauto.
  - pose proof (nextUpdate_ok s) as Hn. unfold listTargets. destruct (updater s); [done|eauto|]. destruct (Hn Hs) as (s' & -> & _). eauto.
  - apply s_opened, Hs.
  - intros id c t Hd. destruct (s_conns s Hs id c t Hd) as (Hin & g & l & Hg & Hl & [Hg1 Hg2] & Hle & Hst). split; [exact Hin|]. intros Eu Hn. exists g, l.
    unfold mayStay in Hst. rewrite Eu in Hst. split_and!; [done|done| |].
    + destruct (decide (g = installed s)); [|lia]. by destruct Hn; apply Hg2.
    + destruct (decide (l < listed s)); [|lia]. by destruct Hn; apply Hst.
Qed.

(** ** A run in which a connection to a removed backend survives *)

Inductive event := Accept | Dial (ok : bool) | InsertConn | Update (backends : list (string * string)) | ListTargets | NextUpdate.

Definition exec (e : event) (s : server) : option server :=
  match e with
  | Accept => match acceptor s with Accepting => Some (accept s) | _ => None end
  | Dial ok => dial ok s
  | InsertConn => insertConn s
  | Update l => match updater s with Waiting => Some (set_updater (Got (foldr (fun '(k, b) => Insert string_le k b) emptyMap l)) s) | _ => None end
  | ListTargets => listTargets s
  | NextUpdate => nextUpdate s
  end.

Lemma event_step e s s' : exec e s = Some s' -> step s s'.
Proof.
  destruct e as [|ok| |l| |]; cbn; [|by apply step_dial|by apply step_insert| |by apply step_list|by apply step_update].
  - destruct (acceptor s) eqn:E; [|done|done]. intros [= <-]. by apply step_accept.
  - destruct (updater s) eqn:E; [|done|done]. intros [= <-]. apply step_get; [done|]. induction l as [|[k b] l IH]; cbn; [apply wf_empty|apply Insert_ok; [..|exact IH]]; apply _.
Qed.

Lemma exec_reachable l s s' : reachable s -> foldl (fun s e => s ≫= exec e) (Some s) l = Some s' -> reachable s'.
Proof.
  revert s. induction l as [|e l IH]; cbn; intros s Hs E; [congruence|]. destruct (exec e s) as [s1|] eqn:E1.
  - apply (IH s1); [|done]. by eapply reachable_step, event_step.
  - exfalso. clear -E. by induction l.
Qed.

(** A backend is added, a connection to it is dialed, the backend is removed, and the connection is inserted. *)
Definition lateInsert : option server :=
  foldl (fun s e => s ≫= exec e) (Some newServer)
    [Update [("a", "10.0.0.1:80")]; ListTargets; NextUpdate; Accept; Dial true; Update []; ListTargets; NextUpdate; InsertConn].

(** A connection to a backend that is gone can stay open: the server reaches a state in which no update
    is in progress, the set of backends is empty, and a connection to a backend is open, in the pool and being copied. *)
Theorem removed_backend_survives : exists s id c t, reachable s /\ updater s = Waiting /\ targetsOf (curSet s) = [] /\
  details s !! id = Some (mkDetails c t) /\ (c ∈ opened s) /\ (id ∈ pipes s).
Proof.
  destruct lateInsert as [s|] eqn:E; [|vm_compute in E; done]. exists s, 0, 0, "10.0.0.1:80". split; [exact (exec_reachable _ _ _ reachable_init E)|].
  vm_compute in E. injection E as <-. by vm_compute.
Qed.

Lemma tinylb_correct_witness : exists s, reachable s /\ is_Some (details s !! 0) /\ forall id, is_Some (pipeEnds id s).
Proof.
  destruct lateInsert as [s|] eqn:E; [|vm_compute in E; done]. exists s. pose proof (exec_reachable _ _ _ reachable_init E) as Hs. split_and!.
  - exact Hs.
  - vm_compute in E. injection E as <-. by eexists.
  - exact (proj1 (tinylb_correct s Hs)).
Defined.

End Tinylb.
