(* ===== verification/Fat32Names.v ===== *)
(** * FAT32: short names

    Models [osbase/fat32/dos83.go]: the 8.3 names of the entries of a directory.

    A name is a list of runes (a Go string that is valid UTF-8).  [upper] is the upper-case mapping of
    characters outside ASCII, a table of Go's [unicode] package; the theorems hold for every
    mapping. *)

From S2P Require Import Prelude Bytes.
From Stdlib Require Import ZArith.

Module Fat32Names.
Import Bytes.
Open Scope Z_scope.

(** ** Characters *)

(** The UTF-8 encoding of a rune. *)
Definition utf8Rune (r : Z) : bytes :=
  let r := if (r <? 0) || (maxRune <? r) || ((surr1 <=? r) && (r <? surr3)) then replacement else r in
  if r <? 128 then [r]
  else if r <? 2048 then [192 + r / 64; 128 + r mod 64]
  else if r <? 65536 then [224 + r / 4096; 128 + r / 64 mod 64; 128 + r mod 64]
  else [240 + r / 262144; 128 + r / 4096 mod 64; 128 + r / 64 mod 64; 128 + r mod 64].

Definition utf8 (s : list Z) : bytes := concat (utf8Rune <$> s).

Definition between (a b r : Z) : bool := (a <=? r) && (r <=? b).

(** The characters [A-Z0-9!#$%&'()@^_`{}~-]. *)
Definition validChar (r : Z) : bool :=
  between 65 90 r || between 48 57 r || bool_decide (r ∈ [33; 35; 36; 37; 38; 39; 40; 41; 64; 94; 95; 96; 123; 125; 126; 45]).

(** [A-Z0-9!#$%&'()-@^_`{}~-], where [)-@] is a range. *)
Definition validExtChar (r : Z) : bool :=
  between 65 90 r || between 48 57 r || bool_decide (r ∈ [33; 35; 36; 37; 38; 39; 40; 94; 95; 96; 123; 125; 126; 45]) || between 41 64 r.

Definition dot : Z := 46.

(** The part up to the first dot, and from it. *)
Fixpoint cutDot (s : list Z) : list Z * list Z :=
  match s with
  | [] => ([], [])
  | c :: r => if c =? dot then ([], s) else let '(a, b) := cutDot r in (c :: a, b)
  end.

(** [validDOSName.FindStringSubmatch]: the name and the extension with its dot.  No character of a name is
    a dot, so the expression matches in one way only. *)
Definition validDOSName (s : list Z) : option (list Z * list Z) :=
  let '(name, ext) := cutDot s in
  let extOk := match ext with [] => true | _ :: e => (1 <=? len e) && (len e <=? 3) && forallb validExtChar e end in
  if (len name <=? 8) && forallb validChar name && extOk then Some (name, ext) else None.

(** [invalidDOSNameChar.ReplaceAllString(s, "")]: the expression is anchored at both ends. *)
Definition removeInvalid (s : list Z) : list Z :=
  match s with
  | [c] => if validChar c then s else []
  | _ => s
  end.

(** [strings.Split(s, ".")]. *)
Fixpoint splitDots (s : list Z) : list (list Z) :=
  match s with
  | [] => [[]]
  | c :: r =>
      if c =? dot then [] :: splitDots r
      else match splitDots r with
           | p :: ps => (c :: p) :: ps
           | [] => [[c]]
           end
  end.

(** [fmt.Sprintf("%04X", n)] below 65536. *)
Definition hexDigit (d : Z) : Z := if d <? 10 then 48 + d else 55 + d.
Definition hex4 (n : Z) : bytes := [hexDigit (n / 4096 mod 16); hexDigit (n / 256 mod 16); hexDigit (n / 16 mod 16); hexDigit (n mod 16)].

(** [copy(dst[i:j], src)]. *)
Definition copyTo (i j : nat) (src dst : bytes) : bytes := take i dst ++ copy_ (take (j - i) (drop i dst)) src ++ drop j dst.

Definition spaces : bytes := replicate 11 32.

(** ** Names of a directory *)

Section names.
Context (upper : Z -> Z).

Definition toUpper (s : list Z) : list Z :=
  (fun r => if r <? 128 then (if between 97 122 r then r - 32 else r) else upper r) <$> s.

(** A name that is passed through. *)
Definition passThrough (name : list Z) : option bytes :=
  '(n, ext) ← validDOSName (toUpper name);
  let d := copyTo 0 8 (utf8 n) spaces in
  Some (match ext with [] => d | _ :: e => copyTo 8 11 (utf8 e) d end).

(** A name that is not, without its number. *)
Definition lossyName (name : list Z) : bytes :=
  let dotParts := removeInvalid <$> splitDots (toUpper name) in
  let lastDotPart := List.last dotParts [] in
  let first := hd [] dotParts in
  let hasExt := (1 <? len dotParts) && negb (len first =? 0) && negb (len lastDotPart =? 0) in
  let d := if hasExt then copyTo 8 11 (utf8 lastDotPart) spaces else spaces in
  let fileName := if hasExt then concat (removelast dotParts) else concat dotParts in
  copyTo 0 4 (utf8 fileName) d.

Inductive nameError := EDuplicateName | ENoUniqueName.

(** The first pass: the names that are passed through, [None] for the others. *)
Fixpoint firstPass (names : list (list Z)) (taken : gset bytes) : result nameError (list (option bytes) * gset bytes) :=
  match names with
  | [] => Ok ([], taken)
  | name :: names =>
      match passThrough name with
      | Some d =>
          guard! negb (bool_decide (d ∈ taken)) else EDuplicateName in
          '(ds, taken) ← firstPass names ({[d]} ∪ taken);
          Ok (Some d :: ds, taken)
      | None =>
          '(ds, taken) ← firstPass names taken;
          Ok (None :: ds, taken)
      end
  end.

(** Try numbers from [nameIdx]; there are at most 65535 of them. *)
Fixpoint findIdx (fuel : nat) (d : bytes) (nameIdx : Z) (taken : gset bytes) : result nameError (bytes * Z) :=
  match fuel with
  | O => Err ENoUniqueName
  | S fuel =>
      let d := copyTo 4 8 (hex4 nameIdx) d in
      let nameIdx := nameIdx + 1 in
      guard! negb (65535 <=? nameIdx) else ENoUniqueName in
      if bool_decide (d ∈ taken) then findIdx fuel d nameIdx taken else Ok (d, nameIdx)
  end.

Definition idxFuel (nameIdx : Z) : nat := Z.to_nat (65535 - nameIdx).

(** The second pass. *)
Fixpoint secondPass (names : list (list Z)) (first : list (option bytes)) (nameIdx : Z) (taken : gset bytes) : result nameError (list bytes) :=
  match names, first with
  | name :: names, Some d :: first => ds ← secondPass names first nameIdx taken; Ok (d :: ds)
  | name :: names, None :: first =>
      '(d, nameIdx) ← findIdx (idxFuel nameIdx) (lossyName name) nameIdx taken;
      ds ← secondPass names first nameIdx taken;
      Ok (d :: ds)
  | _, _ => Ok []
  end.

Definition makeUniqueDOSNames (names : list (list Z)) : result nameError (list bytes) :=
  '(first, taken) ← firstPass names ∅;
  secondPass names first 0 taken.

End names.
(** ** Eleven bytes, all different *)

Lemma copyTo_length i j src dst : (i <= j <= length dst)%nat -> length (copyTo i j src dst) = length dst.
Proof. intros Hij. unfold copyTo. rewrite !length_app, copy_length, !length_take, !length_drop. lia. Qed.

(** The place that was written. *)
Lemma copyTo_read i j src dst : (i <= j <= length dst)%nat -> length src = (j - i)%nat -> take (j - i) (drop i (copyTo i j src dst)) = src.
Proof.
  intros Hij Hl. unfold copyTo. assert (length (take i dst) = i) as Hi by (rewrite length_take; lia). rewrite <- Hi at 2. rewrite drop_app_length.
  unfold copy_. rewrite length_take, length_drop. replace ((j - i) `min` (length dst - i))%nat with (length src) by lia. rewrite firstn_all.
  rewrite (drop_ge (take _ _)) by (rewrite length_take; lia). rewrite app_nil_r. by apply take_app_length'.
Qed.

Lemma hex4_inj a b : 0 <= a < 65536 -> 0 <= b < 65536 -> hex4 a = hex4 b -> a = b.
Proof.
  intros Ha Hb [= H1 H2 H3 H4]. assert (forall x y, 0 <= x < 16 -> 0 <= y < 16 -> hexDigit x = hexDigit y -> x = y) as Hd.
  { unfold hexDigit. intros x y Hx Hy. destruct (Z.ltb_spec x 10), (Z.ltb_spec y 10); lia. }
  apply Hd in H1, H2, H3, H4; try (apply Z.mod_pos_bound; lia).
  rewrite (Z.div_mod a 16), (Z.div_mod b 16), H4 by lia. rewrite (Z.div_mod (a / 16) 16), (Z.div_mod (b / 16) 16), H3 by lia.
  rewrite !Z.div_div by lia. change (16 * 16) with 256. rewrite (Z.div_mod (a / 256) 16), (Z.div_mod (b / 256) 16), H2 by lia.
  rewrite !Z.div_div by lia. change (256 * 16) with 4096. rewrite (Z.mod_small (a / 4096)), (Z.mod_small (b / 4096)) in H1; [by rewrite H1|..];
    (split; [apply Z.div_pos; lia|apply Z.div_lt_upper_bound; lia]).
Qed.

(** The number of a name. *)
Definition idxPart (d : bytes) : bytes := take 4 (drop 4 d).

Section proofs.
Context (upper : Z -> Z).

Lemma passThrough_length name d : passThrough upper name = Some d -> length d = 11%nat.
Proof.
  unfold passThrough. destruct (validDOSName _) as [[n ext]|]; [|done]. cbn [mbind option_bind]. intros [= <-]. destruct ext; [by rewrite copyTo_length by (cbn; lia)|].
  by rewrite !copyTo_length by (rewrite ?copyTo_length; cbn; lia).
Qed.

Lemma lossyName_length name : length (lossyName upper name) = 11%nat.
Proof. unfold lossyName. case_match; rewrite !copyTo_length; try done; rewrite ?copyTo_length; cbn; lia. Qed.

Lemma findIdx_ok fuel d idx taken d' idx' : length d = 11%nat -> 0 <= idx -> findIdx fuel d idx taken = Ok (d', idx') ->
  length d' = 11%nat /\ (d' ∉ taken) /\ exists k, idx <= k < idx' /\ k < 65535 /\ idxPart d' = hex4 k.
Proof.
  revert d idx. induction fuel as [|fuel IH]; intros d idx Hd Hi; cbn [findIdx]; [done|]. destruct (Z.leb_spec 65535 (idx + 1)); cbn [negb]; [done|].
  assert (length (copyTo 4 8 (hex4 idx) d) = 11%nat) as Hl by (by rewrite copyTo_length by lia). case_bool_decide as Ht.
  - intros E. destruct (IH _ (idx + 1) Hl ltac:(lia) E) as (? & ? & k & ? & ? & ?). split_and!; [done..|]. exists k. split_and!; [lia..|done].
  - intros [= <- <-]. split_and!; [done..|]. exists idx. split_and!; [lia..|]. by apply (copyTo_read 4 8); [lia|].
Qed.

Lemma firstPass_ok names taken first taken' : firstPass upper names taken = Ok (first, taken') ->
  length first = length names /\ NoDup (omap id first) /\ (forall d, d ∈ omap id first -> (d ∉ taken) /\ d ∈ taken' /\ length d = 11%nat) /\ taken ⊆ taken'.
Proof.
  revert taken first. induction names as [|name names IH]; intros taken first; cbn [firstPass]; [intros [= <- <-]; cbn; split_and!; [done|constructor|set_solver|done]|].
  destruct (passThrough upper name) as [d|] eqn:Ed.
  - case_bool_decide as Ht; cbn [negb]; [done|]. intros ([ds t] & E & [= <- <-])%bind_ok. destruct (IH _ _ E) as (Hl & Hn & Hd & Hs). cbn. split_and!; [by rewrite Hl| | |set_solver].
    + constructor; [|done]. intros [Hx _]%Hd. set_solver.
    + apply passThrough_length in Ed. intros d' [->|Hx]%elem_of_cons; [set_solver|]. apply Hd in Hx. set_solver.
  - intros ([ds t] & E & [= <- <-])%bind_ok. destruct (IH _ _ E) as (Hl & Hn & Hd & Hs). cbn. split_and!; [by rewrite Hl|done..].
Qed.

Lemma secondPass_ok names first idx taken ds : length first = length names -> 0 <= idx -> NoDup (omap id first) ->
  (forall d, d ∈ omap id first -> d ∈ taken /\ length d = 11%nat) -> secondPass upper names first idx taken = Ok ds ->
  length ds = length names /\ NoDup ds /\ forall d, d ∈ ds -> length d = 11%nat /\
    (d ∈ omap id first \/ ((d ∉ taken) /\ exists k, idx <= k < 65535 /\ idxPart d = hex4 k)).
Proof.
  revert first idx ds. induction names as [|name names IH]; intros [|o first] idx ds Hl Hi Hn Hd; try done; [intros [= <-]; split_and!; [done|constructor|set_solver]|].
  cbn [secondPass length] in *. destruct o as [d|]; cbn in Hn, Hd.
  - intros (ds' & E & [= <-])%bind_ok. apply NoDup_cons in Hn as [Hnd Hn]. destruct (IH first idx ds') as (Hl' & Hn' & Hd'); [lia|done|done|set_solver|done|].
    cbn. split_and!; [by rewrite Hl'| |].
    + constructor; [|done]. intros [_ [Hx|[Hx _]]]%Hd'; [done|]. apply Hx, Hd. by left.
    + intros d' [->|Hx]%elem_of_cons; [split; [apply Hd; by left|left; by left]|]. apply Hd' in Hx as [? [?|?]]; (split; [done|]); [left; by right|by right].
  - intros ([d i] & E1 & (ds' & E & [= <-])%bind_ok)%bind_ok. apply findIdx_ok in E1 as (Hdl & Hdt & k & Hk & Hk' & Hp); [|apply lossyName_length|done].
    destruct (IH first i ds') as (Hl' & Hn' & Hd'); [lia|lia|done|done|done|]. split_and!; [cbn; by rewrite Hl'| |].
    + constructor; [|done]. intros [_ [Hx%Hd|(_ & k' & Hk2 & Hp')]]%Hd'; [naive_solver|]. rewrite Hp in Hp'. apply hex4_inj in Hp'; lia.
    + intros d' [->|Hx]%elem_of_cons; [split; [done|right]; split; [done|]; exists k; split; [lia|done]|]. apply Hd' in Hx as (? & [?|(? & k' & ? & ?)]); (split; [done|]); [by left|].
      right. split; [done|]. exists k'. split; [lia|done].
Qed.

(** The short names of a directory: one for each entry, of eleven bytes, no two the same. *)
Lemma makeUniqueDOSNames_ok names ds : makeUniqueDOSNames upper names = Ok ds -> length ds = length names /\ NoDup ds /\ Forall (fun d => length d = 11%nat) ds.
Proof.
  intros ([first taken] & E1 & E2)%bind_ok. apply firstPass_ok in E1 as (Hl & Hn & Hd & _). apply secondPass_ok in E2 as (Hl' & Hn' & Hd'); [|done..|set_solver].
  split_and!; [done..|]. apply Forall_forall. intros d Hx. by apply Hd'.
Qed.

(** ** The numbers suffice *)

(** The names that take a number from [idx] on. *)
Definition takenFrom (idx : Z) (taken : gset bytes) : gset bytes := filter (fun d => idxPart d ∈ hex4 <$> seqZ idx (65535 - idx)) taken.

Lemma takenFrom_mono idx taken : takenFrom (idx + 1) taken ⊆ takenFrom idx taken.
Proof.
  intros d. unfold takenFrom. rewrite !elem_of_filter, !list_elem_of_fmap. intros [(k & Hk & Hi) Hd]. split; [|done]. exists k. split; [done|].
  rewrite elem_of_seqZ in *. lia.
Qed.

Lemma takenFrom_step idx taken d : 0 <= idx < 65535 -> d ∈ taken -> idxPart d = hex4 idx -> (size (takenFrom (idx + 1) taken) < size (takenFrom idx taken))%nat.
Proof.
  intros Hi Hd Hp. apply subset_size. split; [apply takenFrom_mono|]. intros Hs. specialize (Hs d). unfold takenFrom in Hs. rewrite !elem_of_filter, !list_elem_of_fmap in Hs.
  destruct Hs as [(k & Hk & Hk') _].
  - split; [|done]. exists idx. split; [done|]. apply elem_of_seqZ. lia.
  - rewrite elem_of_seqZ in Hk'. rewrite Hp in Hk. apply hex4_inj in Hk; lia.
Qed.

Lemma findIdx_total fuel d idx taken : length d = 11%nat -> 0 <= idx -> idx + Z.of_nat (size (takenFrom idx taken)) + 1 < 65535 -> (idxFuel idx <= fuel)%nat ->
  exists d' idx', findIdx fuel d idx taken = Ok (d', idx') /\ 0 <= idx' /\ idx' + Z.of_nat (size (takenFrom idx' taken)) <= idx + Z.of_nat (size (takenFrom idx taken)) + 1.
Proof.
  revert d idx. induction fuel as [|fuel IH]; intros d idx Hd Hi Hlt Hf; unfold idxFuel in *; [lia|]. cbn [findIdx].
  destruct (Z.leb_spec 65535 (idx + 1)); cbn [negb]; [lia|]. assert (length (copyTo 4 8 (hex4 idx) d) = 11%nat) as Hl by (by rewrite copyTo_length by lia).
  case_bool_decide as Ht.
  - assert (idxPart (copyTo 4 8 (hex4 idx) d) = hex4 idx) as Hp by (apply (copyTo_read 4 8); [lia|done]).
    pose proof (takenFrom_step idx taken _ ltac:(lia) Ht Hp) as Hs. destruct (IH (copyTo 4 8 (hex4 idx) d) (idx + 1) Hl) as (d' & idx' & E & H0 & Hle); [lia..|].
    exists d', idx'. split_and!; [done|lia|lia].
  - pose proof (subseteq_size _ _ (takenFrom_mono idx taken)). do 2 eexists. split; [done|]. lia.
Qed.

Lemma firstPass_size names taken first taken' : firstPass upper names taken = Ok (first, taken') -> (size taken' <= size taken + length (omap id first))%nat.
Proof.
  revert taken first. induction names as [|name names IH]; intros taken first; cbn [firstPass]; [intros [= <- <-]; lia|].
  destruct (passThrough upper name) as [d|] eqn:Ed.
  - case_bool_decide as Ht; cbn [negb]; [done|]. intros ([ds t] & E & [= <- <-])%bind_ok. apply IH in E. rewrite size_union, size_singleton in E by set_solver. cbn. lia.
  - intros ([ds t] & E & [= <- <-])%bind_ok. by apply IH in E.
Qed.

Lemma secondPass_total names first idx taken : length first = length names -> 0 <= idx ->
  idx + Z.of_nat (size (takenFrom idx taken)) + Z.of_nat (length first - length (omap id first)) < 65535 -> is_ok (secondPass upper names first idx taken) = true.
Proof.
  revert first idx. induction names as [|name names IH]; intros [|o first] idx Hl Hi Hlt; try done. cbn [secondPass length] in *.
  assert (length (omap id first) <= length first)%nat as Ho by (clear; induction first as [|[|] ? ?]; cbn; lia).
  destruct o as [d|]; cbn in Hlt.
  - specialize (IH first idx). destruct (secondPass upper names first idx taken); [done|]. apply IH; lia.
  - destruct (findIdx_total (idxFuel idx) (lossyName upper name) idx taken) as (d & idx' & -> & H0 & Hle); [apply lossyName_length|lia|lia|done|]. cbn.
    specialize (IH first idx'). destruct (secondPass upper names first idx' taken); [done|]. apply IH; lia.
Qed.

(** With less than 65535 entries there is always a number left: the only error is that of two entries of the same name. *)
Lemma makeUniqueDOSNames_error names : len names < 65535 -> makeUniqueDOSNames upper names <> Err ENoUniqueName.
Proof.
  unfold len. intros Hn E. apply bind_err in E as [E|([first taken] & E1 & E2)].
  - revert E. generalize (∅ : gset bytes). clear Hn. induction names as [|name names IH]; intros taken; cbn [firstPass]; [done|].
    destruct (passThrough upper name); [case_bool_decide; cbn [negb]; [done|]|]; intros [E|([? ?] & _ & [=])]%bind_err; exact (IH _ E).
  - pose proof (firstPass_size _ _ _ _ E1) as Hs. rewrite size_empty in Hs. apply firstPass_ok in E1 as (Hl & _).
    assert (length (omap id first) <= length first)%nat as Ho by (clear; induction first as [|[|] ? ?]; cbn; lia).
    assert (size (takenFrom 0 taken) <= size taken)%nat by (apply subseteq_size; intros d; unfold takenFrom; rewrite elem_of_filter; by intros [_ ?]).
    pose proof (secondPass_total names first 0 taken Hl ltac:(lia) ltac:(lia)) as Hok. by rewrite E2 in Hok.
Qed.

End proofs.
End Fat32Names.
