(* ===== verification/Fat32.v ===== *)
(** * FAT32: writing a filesystem

    Models [osbase/fat32/fat32.go], [structs.go] and [utils.go]: inodes, the allocation of clusters, and the
    image [WriteFS] writes.

    An [Inode] is a tree: no inode is in two places.  What the code stores in an inode while it places and writes it, the first cluster and
    the parent, is in [Placed] and in the arguments of [writeData].  A time is given by its parts in
    UTC.  A file has content; the reader of it gives [data], and says that there are [Size]
    bytes.  [rnd] is the random identifier, or none if there is an error; if the writer can seek, [old x] is
    what it holds at offset [x] before (0 in a new file). *)

From S2P Require Import Prelude Bytes Fat32Names.
From Stdlib Require Import ZArith.

Module Fat32.
Import Bytes Fat32Names.
Open Scope Z_scope.

Definition u8 (z : Z) : Z := z mod 256.
Definition u16 (z : Z) : Z := z mod 65536.

(** ** Times *)

Record Time := mkTime { Year : Z; Month : Z; Day : Z; Hour : Z; Minute : Z; Second : Z; Nanosecond : Z }.

(** The date, the time, and the units of ten milliseconds. *)
Definition timeToMsDosTime (t : Time) : Z * Z * Z :=
  let t := if Year t <? 1980 then mkTime 1980 1 1 0 0 0 0 else t in
  let t := if 2107 <? Year t then mkTime 2107 12 31 23 59 59 0 else t in
  (u16 (Day t + Z.shiftl (Month t) 5 + Z.shiftl (Year t - 1980) 9),
   u16 (Second t / 2 + Z.shiftl (Minute t) 5 + Z.shiftl (Hour t) 11),
   u8 (Nanosecond t / 10000000 + Second t mod 2 * 100)).

(** ** Structures on disk *)

Definition fatMask : Z := 268435455.
Definition fatFree : Z := 0.
Definition fatEOF : Z := 268435448.

Record bootSector := mkBootSector {
  JmpInstruction : bytes; OEMName : bytes; bsBlockSize : Z; BlocksPerCluster : Z; ReservedBlocks : Z; NumFATs : Z;
  MediaCode : Z; SectorsPerTrack : Z; NumHeads : Z; HiddenBlocks : Z; TotalBlocks : Z; BlocksPerFAT : Z; Flags : Z;
  RootClusterNumber : Z; FSInfoBlock : Z; BackupStartBlock : Z; DriveNumber : Z; BootSignature : Z; bsID : Z;
  bsLabel : bytes; bsType : bytes; bsSignature : bytes
}.

Definition encodeBootSector (b : bootSector) : bytes :=
  JmpInstruction b ++ OEMName b ++ le 2 (bsBlockSize b) ++ le 1 (BlocksPerCluster b) ++ le 2 (ReservedBlocks b) ++ le 1 (NumFATs b) ++ zeros 4 ++
  le 1 (MediaCode b) ++ zeros 2 ++ le 2 (SectorsPerTrack b) ++ le 2 (NumHeads b) ++ le 4 (HiddenBlocks b) ++ le 4 (TotalBlocks b) ++ le 4 (BlocksPerFAT b) ++
  le 2 (Flags b) ++ zeros 2 ++ le 4 (RootClusterNumber b) ++ le 2 (FSInfoBlock b) ++ le 2 (BackupStartBlock b) ++ zeros 12 ++ le 1 (DriveNumber b) ++
  zeros 1 ++ le 1 (BootSignature b) ++ le 4 (bsID b) ++ bsLabel b ++ bsType b ++ zeros 420 ++ bsSignature b.

Record fsinfo := mkFsinfo {
  LeadSignature : bytes; StructSignature : bytes; FreeCount : Z; NextFreeCluster : Z; TrailingSignature : bytes
}.

Definition encodeFsinfo (f : fsinfo) : bytes :=
  LeadSignature f ++ zeros 480 ++ StructSignature f ++ le 4 (FreeCount f) ++ le 4 (NextFreeCluster f) ++ zeros 14 ++ TrailingSignature f.

Record dirEntry := mkDirEntry {
  DOSName : bytes; Attributes : Z; CreationTenMilli : Z; CreationTime : Z; CreationDate : Z; FirstClusterHigh : Z;
  LastWrittenToTime : Z; LastWrittenToDate : Z; FirstClusterLow : Z; FileSize : Z
}.

Definition encodeDirEntry (e : dirEntry) : bytes :=
  DOSName e ++ le 1 (Attributes e) ++ zeros 1 ++ le 1 (CreationTenMilli e) ++ le 2 (CreationTime e) ++ le 2 (CreationDate e) ++ zeros 2 ++
  le 2 (FirstClusterHigh e) ++ le 2 (LastWrittenToTime e) ++ le 2 (LastWrittenToDate e) ++ le 2 (FirstClusterLow e) ++ le 4 (FileSize e).

Definition lastSequenceNumberFlag : Z := 64.
Definition codepointsPerEntry : Z := 5 + 6 + 2.

Record lfnEntry := mkLfnEntry {
  SequenceNumber : Z; NamePart1 : list Z; lfnAttributes : Z; Checksum : Z; NamePart2 : list Z; NamePart3 : list Z
}.

Definition encodeLfnEntry (e : lfnEntry) : bytes :=
  le 1 (SequenceNumber e) ++ concat (le 2 <$> NamePart1 e) ++ le 1 (lfnAttributes e) ++ zeros 1 ++ le 1 (Checksum e) ++
  concat (le 2 <$> NamePart2 e) ++ zeros 2 ++ concat (le 2 <$> NamePart3 e).

(** ** Inodes *)

Definition AttrDirectory : Z := 16.

Record content := mkContent { data : bytes; Size : Z }.

Inductive Inode := mkInode (Name : list Z) (ModTime CreateTime : Time) (Attrs : Z) (Children : list Inode) (Content : content).

Definition Name (i : Inode) := let 'mkInode n _ _ _ _ _ := i in n.
Definition ModTime (i : Inode) := let 'mkInode _ m _ _ _ _ := i in m.
Definition CreateTime (i : Inode) := let 'mkInode _ _ c _ _ _ := i in c.
Definition Attrs (i : Inode) := let 'mkInode _ _ _ a _ _ := i in a.
Definition Children (i : Inode) := let 'mkInode _ _ _ _ cs _ := i in cs.
Definition Content (i : Inode) := let 'mkInode _ _ _ _ _ c := i in c.

Definition isDir (attrs : Z) : bool := negb (Z.land attrs AttrDirectory =? 0).

Inductive error :=
| ENames (e : nameError) | ENameTooLong | EFileTooBig | EDirTooBig | EShortRead
| EBlockSizePower | EBlockSizeSmall | ERandom | ERootNotDirectory | ETooManyEntries | ETooFewBlocks (occupied : Z).

(** The code units of a name, null-terminated. *)
Definition fileNameUTF16 (name : list Z) : result error (list Z) :=
  let us := utf16Encode name ++ [0] in
  guard! negb (255 <? len us) else ENameTooLong in Ok us.

Definition numEntries (us : list Z) : Z := (len us + codepointsPerEntry - 1) / codepointsPerEntry.

Definition metaSize (i : Inode) : result error Z :=
  us ← fileNameUTF16 (Name i);
  Ok ((numEntries us + 1) * 32).

Definition lfnChecksum (dosName : bytes) : Z :=
  foldl (fun sum b => u8 (u8 (Z.shiftl (Z.land sum 1) 7) + Z.shiftr sum 1 + b)) 0 dosName.

Fixpoint metaSizes (cs : list Inode) (size : Z) : result error Z :=
  match cs with
  | [] => Ok size
  | c :: cs => m ← metaSize c; metaSizes cs (size + m)
  end.

Definition dataSize (hasParent : bool) (i : Inode) : result error Z :=
  if isDir (Attrs i) then
    size ← metaSizes (Children i) (if hasParent then 2 * 32 else 1 * 32);
    guard! negb (2 * 1024 * 1024 <? size) else EDirTooBig in Ok size
  else Ok (Size (Content i)).

(** The [j]th entry of a long name; [us] is filled up. *)
Definition lfnEntryOf (dosName : bytes) (us : list Z) (num : Z) (j : Z) : lfnEntry :=
  let cps k := drop (Z.to_nat ((j - 1) * codepointsPerEntry + k)) us in
  mkLfnEntry (if j =? num then Z.lor (u8 j) lastSequenceNumberFlag else u8 j) (copy_ (zeros 5) (cps 0)) 15 (lfnChecksum dosName)
    (copy_ (zeros 6) (cps 5)) (copy_ (zeros 2) (cps 11)).

Definition writeMeta (i : Inode) (startCluster : Z) (dosName : bytes) : result error bytes :=
  us ← fileNameUTF16 (Name i);
  let num := numEntries us in
  let us := us ++ replicate (Z.to_nat (num * codepointsPerEntry - len us)) 65535 in
  let lfns := concat ((fun j => encodeLfnEntry (lfnEntryOf dosName us num j)) <$> reverse (seqZ 1 num)) in
  selfSize ← dataSize true i;
  guard! negb (4 * 1024 * 1024 * 1024 <=? selfSize) else EFileTooBig in
  let selfSize := if isDir (Attrs i) then 0 else selfSize in
  let '(date, t, _) := timeToMsDosTime (ModTime i) in
  Ok (lfns ++ encodeDirEntry (mkDirEntry dosName (Attrs i) 0 0 0 (u16 (Z.shiftr startCluster 16)) t date (u16 (Z.land startCluster 65535)) (u32 selfSize))).

(** ** Placement *)

Record planningState := mkPlan { fat : list Z; clusterSize : Z }.

(** An inode with its first cluster, and its children. *)
Inductive Placed := mkPlaced (inode : Inode) (startCluster : Z) (placedChildren : list Placed).
Definition inode (t : Placed) := let 'mkPlaced i _ _ := t in i.
Definition startCluster (t : Placed) := let 'mkPlaced _ s _ := t in s.
Definition placedChildren (t : Placed) := let 'mkPlaced _ _ cs := t in cs.

Definition allocBytes (b : Z) (p : planningState) : planningState * Z :=
  if b =? 0 then (p, 0)
  else
    let n := (b + clusterSize p - 1) / clusterSize p in
    let allocStartCluster := len (fat p) in
    (mkPlan (fat p ++ (u32 <$> seqZ (allocStartCluster + 1) (n - 1)) ++ [fatEOF]) (clusterSize p), allocStartCluster).

(** The children, one after the other. *)
Definition placeChildren (place : Inode -> planningState -> result error (planningState * Placed)) :
  list Inode -> planningState -> result error (planningState * list Placed) :=
  fix go cs p :=
    match cs with
    | [] => Ok (p, [])
    | c :: cs => '(p, c) ← place c p; '(p, cs) ← go cs p; Ok (p, c :: cs)
    end.

Fixpoint placeRecursively (hasParent : bool) (i : Inode) (p : planningState) : result error (planningState * Placed) :=
  selfDataSize ← dataSize hasParent i;
  let '(p, start) := allocBytes selfDataSize p in
  let 'mkInode _ _ _ _ children _ := i in
  '(p, cs) ← placeChildren (placeRecursively true) children p;
  Ok (p, mkPlaced i start cs).

(** The parent of an inode: its first cluster, and whether it is the root. *)
Abbreviation parent := (option (Z * bool)).

(** [orderedInodes]: the order in which they are placed. *)
Fixpoint orderedInodes (par : parent) (t : Placed) : list (parent * Placed) :=
  let 'mkPlaced i start cs := t in
  (par, t) :: concat (orderedInodes (Some (start, match par with None => true | Some _ => false end)) <$> cs).

Section writer.
Context (upper : Z -> Z) (rnd : option Z) (seeker : bool) (old : Z -> Z).

Fixpoint writeMetas (cs : list Placed) (names : list bytes) : result error bytes :=
  match cs, names with
  | c :: cs, d :: names => m ← writeMeta (inode c) (startCluster c) d; ms ← writeMetas cs names; Ok (m ++ ms)
  | _, _ => Ok []
  end.

Definition dotEntry (i : Inode) (start : Z) : dirEntry :=
  let '(date, t, _) := timeToMsDosTime (ModTime i) in
  let '(cdate, ctime, ctens) := timeToMsDosTime (CreateTime i) in
  mkDirEntry (46 :: replicate 10 32) (Attrs i) ctens ctime cdate (u16 (Z.shiftr start 16)) t date (u16 (Z.land start 65535)) 0.

Definition dotdotEntry (i : Inode) (start : Z) : dirEntry :=
  let '(date, t, _) := timeToMsDosTime (ModTime i) in
  mkDirEntry (46 :: 46 :: replicate 9 32) AttrDirectory 0 0 0 (u16 (Z.shiftr start 16)) t date (u16 (Z.land start 65535)) 0.

Definition writeData (volumeLabel : bytes) (par : parent) (t : Placed) : result error bytes :=
  let i := inode t in
  if isDir (Attrs i) then
    let head :=
      match par with
      | None => encodeDirEntry (mkDirEntry volumeLabel 8 0 0 0 0 0 0 0 0)
      | Some (start, parentIsRoot) =>
          encodeDirEntry (dotEntry i (startCluster t)) ++ encodeDirEntry (dotdotEntry i (if parentIsRoot : bool then 0 else start))
      end in
    match makeUniqueDOSNames upper (Name ∘ inode <$> placedChildren t) with
    | Err e => Err (ENames e)
    | Ok names => metas ← writeMetas (placedChildren t) names; Ok (head ++ metas)
    end
  else
    guard! negb (len (data (Content i)) <? Size (Content i)) else EShortRead in
    Ok (take (Z.to_nat (Size (Content i))) (data (Content i))).

(** ** The writer: the bytes that were written *)

Definition emptyBuf : Z := 1024 * 1024.

Fixpoint writeZeros (fuel : nat) (requiredBytes : Z) (out : bytes) : bytes :=
  match fuel with
  | O => out
  | S fuel =>
      if 0 <? requiredBytes then
        let cur := if emptyBuf <? requiredBytes then emptyBuf else requiredBytes in
        writeZeros fuel (requiredBytes - cur) (out ++ zeros (Z.to_nat cur))
      else out
  end.

Definition FinishBlock (alignment : Z) (mustZero : bool) (out : bytes) : bytes :=
  let requiredBytes := (alignment - len out mod alignment) mod alignment in
  if requiredBytes =? 0 then out
  else if seeker && negb mustZero then out ++ (old <$> seqZ (len out) (requiredBytes - 1)) ++ [0]
  else writeZeros (Z.to_nat requiredBytes) requiredBytes out.

(** ** The filesystem *)

Record Options := mkOptions { BlockSize : Z; BlockCount : Z; Label : bytes; ID : Z }.

Definition initBootSector (opts : Options) : bootSector :=
  mkBootSector [235; 254; 144] [77; 79; 78; 79; 71; 79; 78; 0] (BlockSize opts) 1 8 2 248 0 0 0 (BlockCount opts) 0 0 0 1 6 0 41 (ID opts)
    (copy_ (replicate 11 32) (Label opts)) [70; 65; 84; 51; 50; 32; 32; 32] [85; 170].

(** With its geometry and its root. *)
Definition setGeometry (b : bootSector) (total perFAT root : Z) : bootSector :=
  mkBootSector (JmpInstruction b) (OEMName b) (bsBlockSize b) (BlocksPerCluster b) (ReservedBlocks b) (NumFATs b) (MediaCode b) (SectorsPerTrack b)
    (NumHeads b) (HiddenBlocks b) total perFAT (Flags b) root (FSInfoBlock b) (BackupStartBlock b) (DriveNumber b) (BootSignature b) (bsID b)
    (bsLabel b) (bsType b) (bsSignature b).

Definition fill (n : Z) (fat : list Z) : list Z := fat ++ replicate (Z.to_nat (n - len fat)) fatFree.

Definition minEntries : Z := 65525 + 2.

Definition prepareFS (opts : Options) (rootInode : Inode) : result error (bootSector * fsinfo * list Z * Placed) :=
  let bsz := if BlockSize opts =? 0 then 512 else BlockSize opts in
  guard! (match bsz with Zpos p => onesPos p | _ => 0 end =? 1) else EBlockSizePower in
  guard! negb (bsz <? 512) else EBlockSizeSmall in
  id ← (if ID opts =? 0 then match rnd with Some r => Ok r | None => Err ERandom end else Ok (ID opts));
  let opts := mkOptions bsz (BlockCount opts) (Label opts) id in
  guard! isDir (Attrs rootInode) else ERootNotDirectory in
  let bs := initBootSector opts in
  let p := mkPlan [Z.lor 268435200 (MediaCode bs); 268435455] (BlocksPerCluster bs * bsBlockSize bs) in
  '(p, root) ← placeRecursively false rootInode p;
  let allocClusters := len (fat p) in
  guard! negb (fatMask <=? allocClusters) else ETooManyEntries in
  let fat := fill minEntries (fat p) in
  let perFAT := u32 (4 * len fat + bsz - 1) / u32 bsz in
  let occupiedBlocks := u32 (u32 (ReservedBlocks bs + u32 (u32 (len fat - 2) * BlocksPerCluster bs)) + u32 (perFAT * NumFATs bs)) in
  '(bs, fat) ← (
    if TotalBlocks bs =? 0 then Ok (setGeometry bs occupiedBlocks perFAT (u32 (startCluster root)), fat)
    else
      guard! negb (TotalBlocks bs <? occupiedBlocks) else ETooFewBlocks occupiedBlocks in
      let blocksToDistribute := u32 (TotalBlocks bs - ReservedBlocks bs) in
      let dataBlocksPerFATBlock := u32 (BlocksPerCluster bs * bsBlockSize bs) / 4 in
      let divisor := u32 (dataBlocksPerFATBlock + NumFATs bs) in
      let perFAT := u32 (u32 (TotalBlocks bs + u32 (2 * BlocksPerCluster bs)) + u32 (divisor - 1)) / divisor in
      let dataBlocks := u32 (blocksToDistribute - u32 (NumFATs bs * perFAT)) in
      let dataBlocks := u32 (dataBlocks - dataBlocks mod BlocksPerCluster bs) in
      Ok (setGeometry bs (TotalBlocks bs) perFAT (u32 (startCluster root)), fill (dataBlocks / BlocksPerCluster bs + 2) fat));
  let free := u32 (len fat - allocClusters) in
  let fsi := mkFsinfo [82; 82; 97; 65] [114; 114; 65; 97] free (if 1 <? free then u32 (u32 allocClusters + 1) else 4294967295) [85; 170] in
  Ok (bs, fsi, fat, root).

Definition writeFATs (bs : bootSector) (fat : list Z) (out : bytes) : bytes :=
  Nat.iter (Z.to_nat (NumFATs bs)) (fun out => FinishBlock (bsBlockSize bs) true (out ++ concat (le 4 <$> fat))) out.

Fixpoint writeInodes (bs : bootSector) (l : list (parent * Placed)) (out : bytes) : result error bytes :=
  match l with
  | [] => Ok out
  | (par, t) :: l =>
      d ← writeData (bsLabel bs) par t;
      writeInodes bs l (FinishBlock (bsBlockSize bs * BlocksPerCluster bs) false (out ++ d))
  end.

Definition writeReserved (bs : bootSector) (fsi : fsinfo) (out : bytes) : bytes :=
  let blk := bsBlockSize bs in
  let superblock out := FinishBlock blk true (FinishBlock blk true (out ++ encodeBootSector bs) ++ encodeFsinfo fsi) in
  let out := superblock out in
  let out := Nat.iter 4 (fun out => out ++ zeros (Z.to_nat blk)) out in
  superblock out.

Definition WriteFS (rootInode : Inode) (opts : Options) : result error bytes :=
  '(bs, fsi, fat, root) ← prepareFS opts rootInode;
  let out := writeFATs bs fat (writeReserved bs fsi []) in
  out ← writeInodes bs (orderedInodes None root) out;
  Ok (FinishBlock (bsBlockSize bs * TotalBlocks bs) false out).

Definition SizeFS (rootInode : Inode) (opts : Options) : result error Z :=
  '(bs, _, _, _) ← prepareFS opts rootInode;
  Ok (TotalBlocks bs).

End writer.
End Fat32.

(** * FAT32: reading a filesystem

    A reader written from the FAT32 specification, against which [Fat32] is verified: it takes the geometry from
    the boot sector, follows the chains of clusters in the allocation table, and
    reads directories with their long names, whose sequence numbers and checksums it verifies. *)

Module Fat32Read.
Import Bytes Fat32Names Fat32.
Open Scope Z_scope.

Definition sub (off n : Z) (l : bytes) : bytes := take (Z.to_nat n) (drop (Z.to_nat off) l).

(** ** The geometry *)

Record volume := mkVolume { vBlock : Z; vPerCluster : Z; vReserved : Z; vNumFATs : Z; vTotal : Z; vPerFAT : Z; vRoot : Z }.

Definition readBootSector (l : bytes) : option volume :=
  let '(_, l) := getBytes 11 l in
  let '(block, l) := getLE 2 l in
  let '(perCluster, l) := getLE 1 l in
  let '(reserved, l) := getLE 2 l in
  let '(numFATs, l) := getLE 1 l in
  let '(_, l) := getBytes 15 l in
  let '(total, l) := getLE 4 l in
  let '(perFAT, l) := getLE 4 l in
  let '(_, l) := getBytes 4 l in
  let '(root, l) := getLE 4 l in
  let '(_, l) := getBytes 462 l in
  let '(signature, _) := getBytes 2 l in
  if bool_decide (signature = [85; 170]) then Some (mkVolume block perCluster reserved numFATs total perFAT root) else None.

(** The first block of data, and the number of clusters. *)
Definition firstData (v : volume) : Z := vReserved v + vNumFATs v * vPerFAT v.
Definition clusterCount (v : volume) : Z := (vTotal v - firstData v) / vPerCluster v.

(** The [k]th copy of the table. *)
Definition fatCopy (v : volume) (img : bytes) (k : Z) : bytes := sub ((vReserved v + k * vPerFAT v) * vBlock v) (vPerFAT v * vBlock v) img.

(** The image is as long as it says, the table has an entry for each cluster, and its copies are the same. *)
Definition consistent (v : volume) (img : bytes) : bool :=
  (len img =? vTotal v * vBlock v) && (4 * (clusterCount v + 2) <=? vPerFAT v * vBlock v) &&
  forallb (fun k => bool_decide (fatCopy v img k = fatCopy v img 0)) (seqZ 0 (vNumFATs v)).

(** ** Chains *)

Definition entryOf (v : volume) (img : bytes) (c : Z) : Z := Z.land (unle (sub (vReserved v * vBlock v + 4 * c) 4 img)) 268435455.

Definition clusterData (v : volume) (img : bytes) (c : Z) : bytes :=
  sub ((firstData v + (c - 2) * vPerCluster v) * vBlock v) (vPerCluster v * vBlock v) img.

Fixpoint readChain (fuel : nat) (v : volume) (img : bytes) (c : Z) : option bytes :=
  match fuel with
  | O => None
  | S fuel =>
      if (2 <=? c) && (c <? clusterCount v + 2) then
        let e := entryOf v img c in
        if 268435448 <=? e then Some (clusterData v img c)
        else rest ← readChain fuel v img e; Some (clusterData v img c ++ rest)
      else None
  end.

(** The data that starts at a cluster; 0 is no data. *)
Definition readData (v : volume) (img : bytes) (c : Z) : option bytes :=
  if c =? 0 then Some [] else readChain (Z.to_nat (clusterCount v)) v img c.

(** ** Directories *)

Record dentry := mkDentry { eName : list Z; eAttrs : Z; eStart : Z; eSize : Z; eTime : Time }.

Definition readTime (date time : Z) : Time :=
  mkTime (1980 + date / 512) (date / 32 mod 16) (date mod 32) (time / 2048) (time / 32 mod 64) (time mod 32 * 2) 0.

(** A long name entry: its sequence number, its checksum and its code units. *)
Definition readLfn (l : bytes) : Z * Z * list Z :=
  let '(seq, l) := getLE 1 l in
  let part1 := getLEs 5 2 l in let '(_, l) := getBytes 10 l in
  let '(_, l) := getBytes 2 l in
  let '(sum, l) := getLE 1 l in
  let part2 := getLEs 6 2 l in let '(_, l) := getBytes 12 l in
  let '(_, l) := getBytes 2 l in
  (seq, sum, part1 ++ part2 ++ getLEs 2 2 l).

(** The checksum of a short name: rotate, and add. *)
Definition nameSum (dosName : bytes) : Z := foldl (fun s b => (s mod 2 * 128 + s / 2 + b) mod 256) 0 dosName.

Fixpoint untilZero (us : list Z) : list Z :=
  match us with
  | [] => []
  | u :: us => if u =? 0 then [] else u :: untilZero us
  end.

(** The sequence numbers of [n] entries. *)
Definition lfnSequence (n : Z) : list Z := reverse (seqZ 1 (n - 1) ++ [n + 64]).

Definition longName (lfns : list (Z * Z * list Z)) (dosName : bytes) : option (list Z) :=
  if bool_decide ((fun e => e.1.1) <$> lfns = lfnSequence (len lfns)) && forallb (fun e => e.1.2 =? nameSum dosName) lfns
  then Some (utf16Decode (untilZero (concat (snd <$> reverse lfns)))) else None.

Definition trimSpaces (l : bytes) : bytes := foldr (fun c r => match r with [] => if c =? 32 then [] else [c] | _ => c :: r end) [] l.

(** The name of an entry without a long name. *)
Definition shortName (dosName : bytes) : list Z :=
  let ext := trimSpaces (drop 8 dosName) in
  trimSpaces (take 8 dosName) ++ (if decide (ext = []) then [] else dot :: ext).

Definition readEntry (l : bytes) : bytes * Z * Z * Z * Time :=
  let '(name, l) := getBytes 11 l in
  let '(attrs, l) := getLE 1 l in
  let '(_, l) := getBytes 8 l in
  let '(high, l) := getLE 2 l in
  let '(time, l) := getLE 2 l in
  let '(date, l) := getLE 2 l in
  let '(low, l) := getLE 2 l in
  let '(size, _) := getLE 4 l in
  (name, attrs, high * 65536 + low, size, readTime date time).

Fixpoint readEntries (lfns : list (Z * Z * list Z)) (es : list bytes) : option (list dentry) :=
  match es with
  | [] => Some []
  | e :: es =>
      if hd 0 e =? 0 then Some []
      else if hd 0 e =? 229 then readEntries [] es
      else
        let '(dosName, attrs, start, size, time) := readEntry e in
        if Z.land attrs 63 =? 15 then readEntries (lfns ++ [readLfn e]) es
        else if negb (Z.land attrs 8 =? 0) then readEntries [] es
        else if hd 0 dosName =? dot then readEntries [] es
        else
          name ← match lfns with [] => Some (shortName dosName) | _ => longName lfns dosName end;
          rest ← readEntries [] es;
          Some (mkDentry name attrs start size time :: rest)
  end.

(** The entries of 32 bytes. *)
Fixpoint chunks (fuel : nat) (l : bytes) : list bytes :=
  match fuel, l with
  | S fuel, _ :: _ => take 32 l :: chunks fuel (drop 32 l)
  | _, _ => []
  end.

Definition readDir (l : bytes) : option (list dentry) := readEntries [] (chunks (length l) l).

(** ** Trees *)

Inductive file :=
| File (name : list Z) (attrs : Z) (time : Time) (content : bytes)
| Dir (name : list Z) (attrs : Z) (time : Time) (files : list file).

Fixpoint readTree (fuel : nat) (v : volume) (img : bytes) (e : dentry) : option file :=
  match fuel with
  | O => None
  | S fuel =>
      l ← readData v img (eStart e);
      if isDir (eAttrs e) then
        es ← readDir l;
        files ← mapM (readTree fuel v img) es;
        Some (Dir (eName e) (eAttrs e) (eTime e) files)
      else if eSize e <=? len l then Some (File (eName e) (eAttrs e) (eTime e) (take (Z.to_nat (eSize e)) l)) else None
  end.

(** The files of the root directory; [fuel] bounds the depth of the tree. *)
Definition readFS (fuel : nat) (img : bytes) : option (list file) :=
  v ← readBootSector img;
  if consistent v img then
    l ← readData v img (vRoot v);
    es ← readDir l;
    mapM (readTree fuel v img) es
  else None.

(** ** What an inode reads as *)

(** Times are kept to two seconds. *)
Definition dosTime (t : Time) : Time :=
  if Year t <? 1980 then mkTime 1980 1 1 0 0 0 0
  else if 2107 <? Year t then mkTime 2107 12 31 23 59 58 0
  else mkTime (Year t) (Month t) (Day t) (Hour t) (Minute t) (Second t / 2 * 2) 0.

Fixpoint view (i : Inode) : file :=
  let 'mkInode name mtime _ attrs children content := i in
  if isDir attrs then Dir name attrs (dosTime mtime) (view <$> children)
  else File name attrs (dosTime mtime) (take (Z.to_nat (Size content)) (data content)).

Fixpoint depth (i : Inode) : nat := let 'mkInode _ _ _ _ cs _ := i in S (foldr (fun c n => Nat.max (depth c) n) O cs).

(** ** Inodes that can be read back *)

Definition isRuneb (r : Z) : bool := between 0 (surr1 - 1) r || between surr3 maxRune r.

(** Not one whose UTF-8 encoding starts with the byte 0, the end of a directory, or 0xE5, which marks an entry as deleted. *)
Definition safeRune (r : Z) : bool := negb (r =? 0) && negb (between 20480 24575 r).

Definition okTime (t : Time) : bool :=
  between 1 12 (Month t) && between 1 31 (Day t) && between 0 23 (Hour t) && between 0 59 (Minute t) && between 0 59 (Second t).

Section ok.
Context (upper : Z -> Z).

Definition okName (name : list Z) : bool := forallb (fun r => isRuneb r && negb (r =? 0)) name && forallb safeRune (toUpper upper name).

(** The attributes are those the package declares; a file has no children. *)
Fixpoint okInode (i : Inode) : bool :=
  let 'mkInode name mtime _ attrs children content := i in
  okName name && okTime mtime && between 0 255 attrs && (Z.land attrs 8 =? 0) &&
  (isDir attrs || ((0 <=? Size content) && match children with [] => true | _ => false end)) && forallb okInode children.

End ok.
End Fat32Read.
