(* ===== verification/Fat32Dir.v ===== *)
(** * FAT32: directories read back

    What [writeMeta] and [writeData] write for a directory, [Fat32Read.readDir] reads: long names, attributes,
    times, first clusters and sizes. *)

From S2P Require Import Prelude Bytes Fat32Names Fat32.
From Stdlib Require Import ZArith.

Module Fat32Dir.
Import Bytes Fat32Names Fat32 Fat32Read.
Open Scope Z_scope.

(** ** Times and checksums *)

Lemma between_spec a b r : between a b r = true <-> a <= r <= b.
Proof. unfold between. rewrite andb_true_iff, !Z.leb_le. done. Qed.

Lemma readTime_ok t : okTime t = true -> let '(date, time, _) := timeToMsDosTime t in
  0 <= date < width 2 /\ 0 <= time < width 2 /\ readTime date time = dosTime t.
Proof.
  unfold okTime. rewrite !andb_true_iff, !between_spec. intros ((((HM & HD) & Hh) & Hm) & Hs). unfold timeToMsDosTime, dosTime, readTime. change (width 2) with 65536.
  destruct (Z.ltb_spec (Year t) 1980); [done|]. destruct (Z.ltb_spec 2107 (Year t)); [done|]. rewrite !Z.shiftl_mul_pow2 by lia.
  change (2 ^ 5) with 32. change (2 ^ 9) with 512. change (2 ^ 11) with 2048. unfold u16.
  set (y := Year t - 1980). set (s := Second t / 2). assert (0 <= s < 30) by (split; [apply Z.div_pos; lia|apply Z.div_lt_upper_bound; lia]).
  rewrite (Z.mod_small (Day t + _ + _)), (Z.mod_small (s + _ + _)) by lia. split_and!; [lia..|]. f_equal.
  - rewrite Z.div_add, Z.div_small by lia. lia.
  - replace (Day t + Month t * 32 + y * 512) with (Day t + (Month t + y * 16) * 32) by lia. rewrite Z.div_add, Z.div_small, Z.add_0_l, Z.mod_add, Z.mod_small by lia. done.
  - replace (Day t + Month t * 32 + y * 512) with (Day t + (Month t + y * 16) * 32) by lia. by rewrite Z.mod_add, Z.mod_small by lia.
  - rewrite Z.div_add, Z.div_small by lia. lia.
  - replace (s + Minute t * 32 + Hour t * 2048) with (s + (Minute t + Hour t * 64) * 32) by lia. rewrite Z.div_add, Z.div_small, Z.add_0_l, Z.mod_add, Z.mod_small by lia. done.
  - replace (s + Minute t * 32 + Hour t * 2048) with (s + (Minute t + Hour t * 64) * 32) by lia. by rewrite Z.mod_add, Z.mod_small by lia.
Qed.

Lemma lfnChecksum_ok d : lfnChecksum d = nameSum d.
Proof.
  unfold lfnChecksum, nameSum. generalize 0. induction d as [|b d IH]; intros s; cbn [foldl]; [done|]. rewrite IH. f_equal. unfold u8.
  change 1 with (Z.ones 1) at 1. rewrite Z.land_ones, Z.shiftl_mul_pow2, Z.shiftr_div_pow2 by lia. change (2 ^ 1) with 2. change (2 ^ 7) with 128.
  pose proof (Z.mod_pos_bound s 2). rewrite (Z.mod_small (s mod 2 * 128)) by lia. done.
Qed.

Lemma nameSum_bound d : 0 <= nameSum d < 256.
Proof. destruct d as [|b d] using rev_ind; [done|]. unfold nameSum. rewrite foldl_app. cbn. apply Z.mod_pos_bound. lia. Qed.

(** ** Entries *)

Record dirEntryOk (e : dirEntry) : Prop := {
  de_name : length (DOSName e) = 11%nat;
  de_1 : Forall (fun v => 0 <= v < width 1) [Attributes e];
  de_2 : Forall (fun v => 0 <= v < width 2) [FirstClusterHigh e; LastWrittenToTime e; LastWrittenToDate e; FirstClusterLow e];
  de_4 : 0 <= FileSize e < width 4
}.

Lemma encodeDirEntry_length e : length (DOSName e) = 11%nat -> length (encodeDirEntry e) = 32%nat.
Proof. intros Hn. unfold encodeDirEntry, zeros. rewrite !length_app, !le_length, !length_replicate, Hn. done. Qed.

Lemma readEntry_ok e : dirEntryOk e -> readEntry (encodeDirEntry e) =
  (DOSName e, Attributes e, FirstClusterHigh e * 65536 + FirstClusterLow e, FileSize e, readTime (LastWrittenToDate e) (LastWrittenToTime e)).
Proof.
  intros [Hn H1 H2 H4]. do 4 rewrite Forall_cons in H2. rewrite Forall_cons in H1. destruct H1 as (? & _), H2 as (? & ? & ? & ? & _). unfold readEntry, encodeDirEntry. rewrite getBytes_app by done.
  rewrite getLE_app by done. rewrite (app_assoc (zeros 1)), (app_assoc (zeros 1 ++ _)), (app_assoc ((zeros 1 ++ _) ++ _)), (app_assoc (((zeros 1 ++ _) ++ _) ++ _)).
  rewrite getBytes_app by (unfold zeros; by rewrite !length_app, !le_length, !length_replicate). do 4 rewrite getLE_app by done.
  rewrite <- (app_nil_r (le 4 _)), getLE_app by done. done.
Qed.

Record lfnOk (e : lfnEntry) : Prop := {
  lfn_seq : 0 < SequenceNumber e < 229;
  lfn_attrs : lfnAttributes e = 15;
  lfn_sum : 0 <= Checksum e < width 1;
  lfn_lens : length (NamePart1 e) = 5%nat /\ length (NamePart2 e) = 6%nat /\ length (NamePart3 e) = 2%nat;
  lfn_units : Forall (fun v => 0 <= v < width 2) (NamePart1 e ++ NamePart2 e ++ NamePart3 e)
}.

Lemma encodeLfnEntry_length e : lfnOk e -> length (encodeLfnEntry e) = 32%nat.
Proof. intros [_ _ _ (H1 & H2 & H3) _]. unfold encodeLfnEntry, zeros. rewrite !length_app, !le_length, !length_replicate, !concat_le_length, H1, H2, H3. done. Qed.

Lemma getLEs_length k n vs l : length vs = k -> Forall (fun v => 0 <= v < width n) vs -> getLEs k n (concat (le n <$> vs) ++ l) = vs.
Proof. intros <-. apply getLEs_concat. Qed.

Lemma readLfn_ok e : lfnOk e -> readLfn (encodeLfnEntry e) = (SequenceNumber e, Checksum e, NamePart1 e ++ NamePart2 e ++ NamePart3 e).
Proof.
  intros [Hs Ha Hc (H1 & H2 & H3) Hu]. apply Forall_app in Hu as [U1 [U2 U3]%Forall_app]. unfold readLfn, encodeLfnEntry. rewrite getLE_app by (change (width 1) with 256; lia).
  pose proof (concat_le_length 2 (NamePart1 e)) as C1. pose proof (concat_le_length 2 (NamePart2 e)) as C2. rewrite H1 in C1. rewrite H2 in C2.
  rewrite (getLEs_length 5) by done. rewrite getBytes_app by done. rewrite (app_assoc (le 1 (lfnAttributes e))), getBytes_app by (by rewrite length_app, le_length).
  rewrite getLE_app by done. rewrite (getLEs_length 6) by done. rewrite getBytes_app by done. rewrite getBytes_app by done.
  rewrite <- (app_nil_r (concat (le 2 <$> NamePart3 e))), (getLEs_length 2) by done. done.
Qed.

(** A long name entry is recognised as such. *)
Lemma readEntries_lfn lfns e es : lfnOk e ->
  readEntries lfns (encodeLfnEntry e :: es) = readEntries (lfns ++ [(SequenceNumber e, Checksum e, NamePart1 e ++ NamePart2 e ++ NamePart3 e)]) es.
Proof.
  intros He. rewrite <- (readLfn_ok e He). cbn [readEntries]. destruct He as [Hs Ha Hc (H1 & H2 & H3) Hu].
  assert (hd 0 (encodeLfnEntry e) = SequenceNumber e) as -> by (unfold encodeLfnEntry; cbn; apply Z.mod_small; lia).
  rewrite (proj2 (Z.eqb_neq _ 0)), (proj2 (Z.eqb_neq _ 229)) by lia. set (r := readLfn (encodeLfnEntry e)). clearbody r. unfold readEntry, encodeLfnEntry. rewrite app_assoc.
  rewrite getBytes_app by (by rewrite length_app, le_length, concat_le_length, H1). rewrite Ha, getLE_app by (change (width 1) with 256; lia).
  unfold getBytes, getLE. by change (Z.land 15 63 =? 15) with true.
Qed.

(** An entry that is a file or directory. *)
Lemma readEntries_short lfns e es : dirEntryOk e -> (hd 0 (DOSName e) ∉ [0; 229; dot]) -> Z.land (Attributes e) 8 = 0 ->
  readEntries lfns (encodeDirEntry e :: es) =
    (name ← match lfns with [] => Some (shortName (DOSName e)) | _ => longName lfns (DOSName e) end;
     rest ← readEntries [] es;
     Some (mkDentry name (Attributes e) (FirstClusterHigh e * 65536 + FirstClusterLow e) (FileSize e) (readTime (LastWrittenToDate e) (LastWrittenToTime e)) :: rest)).
Proof.
  intros He Hn Ha. cbn [readEntries]. rewrite (readEntry_ok e He). pose proof (de_name e He) as Hl. assert (hd 0 (encodeDirEntry e) = hd 0 (DOSName e)) as -> by (unfold encodeDirEntry; by destruct (DOSName e)).
  rewrite !not_elem_of_cons in Hn. destruct Hn as (N1 & N2 & N3 & _). rewrite !(proj2 (Z.eqb_neq _ _)) by done. rewrite Ha. cbn [negb Z.eqb].
  assert (Z.land (Attributes e) 63 <> 15) as Hx; [|by rewrite (proj2 (Z.eqb_neq _ 15) Hx), (proj2 (Z.eqb_neq _ dot) N3)]. intros E. assert (Z.testbit (Attributes e) 3 = true) as Ht.
  { apply (f_equal (fun z => Z.testbit z 3)) in E. rewrite Z.land_spec in E. cbn in E. by rewrite andb_true_r in E. }
  apply (f_equal (fun z => Z.testbit z 3)) in Ha. rewrite Z.land_spec, Ht in Ha. done.
Qed.

(** Volume labels, and the entries of the directory itself and its parent, are skipped. *)
Lemma readEntries_skip e es : dirEntryOk e -> (hd 0 (DOSName e) ∉ [0; 229]) -> Z.land (Attributes e) 63 <> 15 ->
  Z.land (Attributes e) 8 <> 0 \/ hd 0 (DOSName e) = dot -> readEntries [] (encodeDirEntry e :: es) = readEntries [] es.
Proof.
  intros He Hn Ha Hor. cbn [readEntries]. rewrite (readEntry_ok e He). pose proof (de_name e He) as Hl. assert (hd 0 (encodeDirEntry e) = hd 0 (DOSName e)) as -> by (unfold encodeDirEntry; by destruct (DOSName e)).
  rewrite !not_elem_of_cons in Hn. destruct Hn as (N1 & N2 & _). rewrite !(proj2 (Z.eqb_neq _ _)) by done.
  destruct (Z.eqb_spec (Z.land (Attributes e) 8) 0) as [E|]; cbn [negb]; [|done]. destruct Hor as [Hor|Hor]; [done|]. by rewrite (proj2 (Z.eqb_eq _ _)).
Qed.

(** ** Chunks *)

Lemma chunks_fuel n l : (length l <= n)%nat -> chunks n l = chunks (length l) l.
Proof.
  assert (forall n m l, (length l <= n)%nat -> (length l <= m)%nat -> chunks n l = chunks m l) as Hc; [|intros; by apply Hc].
  clear. induction n as [|n IH]; intros [|m] [|b l] Hn Hm; try done; cbn in *; try lia. f_equal. apply IH; rewrite length_drop; lia.
Qed.

Definition entries (l : bytes) : list bytes := chunks (length l) l.

Lemma entries_app a l : length a = 32%nat -> entries (a ++ l) = a :: entries l.
Proof.
  intros Ha. unfold entries. destruct a as [|b a]; [done|]. cbn [app length chunks].
  change (b :: a ++ l) with ((b :: a) ++ l). rewrite <- Ha at 1 2. rewrite take_app_length, drop_app_length. f_equal. apply chunks_fuel. rewrite length_app. lia.
Qed.

Lemma length_concat_same (n : nat) (ls : list bytes) : Forall (fun a => length a = n) ls -> length (concat ls) = (n * length ls)%nat.
Proof. induction 1 as [|a ls Ha _ IH]; cbn; [lia|]. rewrite length_app, Ha, IH. lia. Qed.

Lemma entries_concat ls l : Forall (fun a => length a = 32%nat) ls -> entries (concat ls ++ l) = ls ++ entries l.
Proof. induction 1 as [|a ls Ha _ IH]; [done|]. cbn [concat]. rewrite <- app_assoc, entries_app by done. by rewrite IH. Qed.

(** Nothing, or a zero, is the end. *)
Lemma readEntries_end l : hd 0 l = 0 -> readEntries [] (entries l) = Some [].
Proof. destruct l as [|b l]; [done|]. unfold entries. cbn [length chunks readEntries hd take]. by intros ->. Qed.

(** ** Long names *)

Lemma numEntries_bounds name us : fileNameUTF16 name = Ok us -> us = utf16Encode name ++ [0] /\ 1 <= numEntries us <= 20 /\
  0 <= numEntries us * codepointsPerEntry - len us.
Proof.
  unfold fileNameUTF16. destruct (Z.ltb_spec 255 (len (utf16Encode name ++ [0]))) as [|Hl]; [done|]. intros [= <-]. split; [done|].
  unfold numEntries, codepointsPerEntry. change (5 + 6 + 2) with 13. set (n := len (utf16Encode name ++ [0])) in *.
  assert (1 <= n) by (subst n; unfold len; rewrite length_app; cbn; lia). pose proof (Z.div_mod (n + 13 - 1) 13). pose proof (Z.mod_pos_bound (n + 13 - 1) 13). lia.
Qed.

(** Slices of the same length. *)
Lemma concat_slices (k : nat) n (us : list Z) : length us = (n * k)%nat ->
  concat ((fun j => take k (drop (Z.to_nat ((j - 1) * Z.of_nat k)) us)) <$> seqZ 1 (Z.of_nat n)) = us.
Proof.
  revert us. induction n as [|n IH]; intros us Hl; [by destruct us|]. rewrite Nat2Z.inj_succ, seqZ_cons by lia.
  cbn [fmap list_fmap concat]. transitivity (take k us ++ drop k us); [|apply take_drop]. apply (f_equal2 app); [done|].
  rewrite <- (IH (drop k us)) by (rewrite length_drop; lia). f_equal. change (Z.succ 1) with (1 + 1). rewrite <- fmap_add_seqZ, <- list_fmap_compose, Z.pred_succ.
  apply list_fmap_ext. intros i j [-> Hj]%lookup_seqZ. cbn. rewrite drop_drop. do 2 f_equal. lia.
Qed.

Definition lfnTriple (d : bytes) (us : list Z) (num j : Z) : Z * Z * list Z :=
  (if j =? num then j + 64 else j, nameSum d, take 13 (drop (Z.to_nat ((j - 1) * 13)) us)).

Lemma copy_zeros n (l : list Z) : (n <= length l)%nat -> copy_ (zeros n) l = take n l.
Proof. intros Hl. unfold copy_, zeros. rewrite length_replicate, drop_ge by (by rewrite length_replicate). apply app_nil_r. Qed.

Lemma lfnEntryOf_ok d us num j : 1 <= j <= num -> num <= 20 -> len us = num * 13 -> Forall (fun v => 0 <= v < width 2) us ->
  let e := lfnEntryOf d us num j in lfnOk e /\ (SequenceNumber e, Checksum e, NamePart1 e ++ NamePart2 e ++ NamePart3 e) = lfnTriple d us num j.
Proof.
  intros Hj Hnum Hl Hu. unfold len in Hl. assert (forall k n, k + Z.of_nat n <= 13 -> 0 <= k -> copy_ (zeros n) (drop (Z.to_nat ((j - 1) * codepointsPerEntry + k)) us) =
    take n (drop (Z.to_nat k) (drop (Z.to_nat ((j - 1) * 13)) us))) as Hp.
  { intros k n Hk H0. rewrite drop_drop, <- Z2Nat.inj_add by (unfold codepointsPerEntry; lia). apply copy_zeros. rewrite length_drop. unfold codepointsPerEntry. lia. }
  set (w := drop (Z.to_nat ((j - 1) * 13)) us) in *. assert (13 <= length w)%nat as Hw by (subst w; rewrite length_drop; lia).
  assert (Z.lor (u8 j) lastSequenceNumberFlag = j + 64) as Hlor.
  { unfold u8, lastSequenceNumberFlag. rewrite Z.mod_small by lia. assert (In j (seqZ 1 20)) as Hin by (apply list_elem_of_In, elem_of_seqZ; lia).
    revert Hin. clear. generalize j. apply List.Forall_forall. by repeat constructor. }
  assert (u8 j = j) as Hu8 by (apply Z.mod_small; lia).
  assert (take 5 w ++ take 6 (drop 5 w) ++ take 2 (drop 11 w) = take 13 w) as E.
  { rewrite <- (take_drop 5 (take 13 w)), take_take, <- (take_drop 6 (drop 5 (take 13 w))), drop_drop, !firstn_skipn_comm, !skipn_firstn_comm, !take_take. done. }
  unfold lfnEntryOf, lfnTriple. cbn [SequenceNumber Checksum NamePart1 NamePart2 NamePart3]. rewrite Hlor, Hu8, lfnChecksum_ok, !Hp by (unfold codepointsPerEntry; lia).
  change (Z.to_nat 0) with 0%nat. change (Z.to_nat 5) with 5%nat. change (Z.to_nat 11) with 11%nat. rewrite drop_0, E. split; [|done].
  split; cbn [SequenceNumber Checksum NamePart1 NamePart2 NamePart3 lfnAttributes].
  - destruct (j =? num); lia.
  - done.
  - apply nameSum_bound.
  - rewrite !length_take, !length_drop. lia.
  - rewrite E. apply Forall_take, Forall_drop, Hu.
Qed.

Lemma readEntries_lfns d us num js lfns es : Forall (fun j => 1 <= j <= num) js -> num <= 20 -> len us = num * 13 -> Forall (fun v => 0 <= v < width 2) us ->
  readEntries lfns (((fun j => encodeLfnEntry (lfnEntryOf d us num j)) <$> js) ++ es) = readEntries (lfns ++ (lfnTriple d us num <$> js)) es.
Proof.
  intros Hjs Hn Hl Hu. revert lfns. induction Hjs as [|j js Hj _ IH]; intros lfns; cbn [fmap list_fmap app]; [by rewrite app_nil_r|].
  destruct (lfnEntryOf_ok d us num j Hj Hn Hl Hu) as [Hok Ht]. rewrite readEntries_lfn by done. rewrite Ht, IH. by rewrite <- app_assoc.
Qed.

Lemma untilZero_app us l : Forall (fun u => u <> 0) us -> untilZero (us ++ 0 :: l) = us.
Proof. induction 1 as [|u us Hu _ IH]; [done|]. cbn. by rewrite (proj2 (Z.eqb_neq _ _)), IH. Qed.

Lemma utf16Encode_nonzero name : Forall (fun r => r <> 0) name -> Forall (fun u => u <> 0) (utf16Encode name).
Proof.
  unfold utf16Encode. induction 1 as [|r rs Hr _ IH]; [constructor|]. cbn. apply Forall_app_2; [|done]. unfold encodeRune, surr1, surr2, surr3, surrSelf, maxRune, replacement.
  case_match; [by constructor|]. case_match eqn:E; [|by constructor]. rewrite andb_true_iff, !Z.leb_le in E. constructor; [|constructor; [|done]].
  - pose proof (Z.div_pos (r - 65536) 1024). lia.
  - pose proof (Z.mod_pos_bound (r - 65536) 1024). lia.
Qed.

Lemma isRuneb_spec r : isRuneb r = true -> isRune r.
Proof. unfold isRuneb, isRune. rewrite orb_true_iff, !between_spec. lia. Qed.

Lemma longName_ok d name us : fileNameUTF16 name = Ok us -> forallb (fun r => isRuneb r && negb (r =? 0)) name = true ->
  let num := numEntries us in let us' := us ++ replicate (Z.to_nat (num * codepointsPerEntry - len us)) 65535 in
  longName (lfnTriple d us' num <$> reverse (seqZ 1 num)) d = Some name.
Proof.
  intros (-> & Hnum & Hfill)%numEntries_bounds Hname num us'. apply forallb_Forall_iff in Hname.
  assert (len us' = num * 13) as Hl by (subst us'; unfold len in *; rewrite length_app, length_replicate; unfold codepointsPerEntry in *; lia).
  assert (len (lfnTriple d us' num <$> reverse (seqZ 1 num)) = num) as Hlen by (unfold len; rewrite length_fmap, length_reverse, length_seqZ; lia).
  unfold longName. rewrite bool_decide_eq_true_2.
  - rewrite (proj2 (forallb_Forall_iff _ _)) by (apply Forall_fmap, Forall_forall; intros j _; apply Z.eqb_refl). cbn [andb]. f_equal.
    rewrite <- fmap_reverse, reverse_involutive, <- list_fmap_compose. unfold compose. cbn [lfnTriple snd].
    pose proof (concat_slices 13 (Z.to_nat num) us') as Hc. rewrite Z2Nat.id in Hc by lia. change (Z.of_nat 13) with 13 in Hc. rewrite Hc by (unfold len in Hl; lia).
    subst us'. rewrite <- app_assoc. cbn [app]. rewrite untilZero_app.
    + rewrite <- (app_nil_r (utf16Encode name)), utf16_roundtrip; [cbn; apply app_nil_r|]. eapply Forall_impl; [exact Hname|]. intros r [Hr _]%andb_true_iff. by apply isRuneb_spec.
    + apply utf16Encode_nonzero. eapply Forall_impl; [exact Hname|]. intros r [_ Hr%negb_true_iff%Z.eqb_neq]%andb_true_iff. done.
  - rewrite Hlen, <- list_fmap_compose, fmap_reverse. unfold lfnSequence. f_equal. replace num with (num - 1 + 1) at 2 by lia. rewrite seqZ_app by lia. rewrite fmap_app. f_equal.
    + rewrite <- (list_fmap_id (seqZ 1 (num - 1))) at 2. apply list_fmap_ext. intros i j [-> Hi]%lookup_seqZ. cbn. by rewrite (proj2 (Z.eqb_neq _ _)) by lia.
    + replace (1 + (num - 1)) with num by lia. rewrite seqZ_cons by lia. cbn. by rewrite Z.eqb_refl.
Qed.

(** ** An inode in a directory *)

Definition dentryOf (i : Inode) (start : Z) (size : Z) : dentry := mkDentry (Name i) (Attrs i) start (if isDir (Attrs i) then 0 else size) (dosTime (ModTime i)).

Record entryOk (i : Inode) (start : Z) (d : bytes) : Prop := {
  e_name : forallb (fun r => isRuneb r && negb (r =? 0)) (Name i) = true;
  e_time : okTime (ModTime i) = true;
  e_attrs : between 0 255 (Attrs i) = true /\ Z.land (Attrs i) 8 = 0;
  e_size : isDir (Attrs i) = false -> 0 <= Size (Content i);
  e_start : 0 <= start < 2 ^ 28;
  e_dos : length d = 11%nat /\ (hd 0 d ∉ [0; 229; dot])
}.

Lemma cluster_halves start : 0 <= start < 2 ^ 28 -> let h := u16 (Z.shiftr start 16) in let l := u16 (Z.land start 65535) in
  0 <= h < width 2 /\ 0 <= l < width 2 /\ h * 65536 + l = start.
Proof.
  intros Hs h l. subst h l. change (width 2) with 65536. unfold u16. change 65535 with (Z.ones 16). rewrite Z.land_ones, Z.shiftr_div_pow2 by lia. change (2 ^ 16) with 65536.
  pose proof (Z.mod_pos_bound start 65536). pose proof (Z.div_mod start 65536). assert (0 <= start / 65536 < 65536) by (split; [apply Z.div_pos; lia|apply Z.div_lt_upper_bound; lia]).
  rewrite !Z.mod_small by lia. lia.
Qed.

Lemma metaSizes_mono cs a s : metaSizes cs a = Ok s -> a <= s.
Proof.
  revert a. induction cs as [|c cs IH]; intros a; cbn [metaSizes]; [intros [= ->]; lia|]. intros (m & E & Es%IH)%bind_ok.
  apply bind_ok in E as (us & (_ & Hn & _)%numEntries_bounds & [= <-]). lia.
Qed.

Lemma writeMeta_read i start d m : entryOk i start d -> writeMeta i start d = Ok m -> exists size, dataSize true i = Ok size /\
  (forall us, fileNameUTF16 (Name i) = Ok us -> len m = (numEntries us + 1) * 32) /\
  forall rest, readEntries [] (entries (m ++ rest)) = rest' ← readEntries [] (entries rest); Some (dentryOf i start size :: rest').
Proof.
  intros [En Et [Ea Ea'] Es Est [Ed Ed']] (us & Eus & (size & Esz & Hm)%bind_ok)%bind_ok. exists size. split; [done|].
  destruct (Z.leb_spec (4 * 1024 * 1024 * 1024) size) as [|Hsz]; [done|]. cbn [negb] in Hm. pose proof (readTime_ok _ Et) as Ht. destruct (timeToMsDosTime (ModTime i)) as [[date time] tens].
  destruct Ht as (Hdate & Htime & Hread). injection Hm as <-. pose proof (longName_ok d _ _ Eus En) as Hlong. cbv zeta in Hlong.
  pose proof (numEntries_bounds _ _ Eus) as (Hus & Hnum & Hfill). set (num := numEntries us) in *. set (us' := us ++ _) in *.
  assert (Forall (fun v => 0 <= v < width 2) us') as Hw.
  { subst us' us. apply Forall_app_2; [apply Forall_app_2; [apply utf16Encode_width|by repeat constructor]|by apply Forall_replicate]. }
  assert (len us' = num * 13) as Hl by (subst us'; unfold len in *; rewrite length_app, length_replicate; unfold codepointsPerEntry in *; lia).
  assert (Forall (fun j => 1 <= j <= num) (reverse (seqZ 1 num))) as Hjs by (apply Forall_reverse, Forall_forall; intros j Hj%elem_of_seqZ; lia).
  assert (Forall (fun a => length a = 32%nat) ((fun j => encodeLfnEntry (lfnEntryOf d us' num j)) <$> reverse (seqZ 1 num))) as H32.
  { apply Forall_fmap. eapply Forall_impl; [exact Hjs|]. intros j Hj. apply encodeLfnEntry_length. apply lfnEntryOf_ok; (done || lia). }
  set (e := mkDirEntry _ _ _ _ _ _ _ _ _ _). destruct (cluster_halves start Est) as (Hh & Hlo & Hst).
  assert (0 <= size) as H0.
  { unfold dataSize in Esz. destruct (isDir (Attrs i)); [|injection Esz as <-; by apply Es]. apply bind_ok in Esz as (s & Hms%metaSizes_mono & Hg). destruct (_ <? _); [done|].
    injection Hg as <-. lia. }
  assert (dirEntryOk e) as He.
  { apply between_spec in Ea. split; cbn; [done|apply Forall_singleton; change (width 1) with 256; lia|by do 4 (apply Forall_cons_2; [done|])|]. change (width 4) with (2 ^ 32).
    unfold u32. destruct (isDir (Attrs i)); [done|]. rewrite Z.mod_small; lia. }
  split.
  - intros us2 [= <-]%(eq_trans (eq_sym Eus)). fold num. unfold len. rewrite length_app, encodeDirEntry_length by done. rewrite (length_concat_same 32) by done.
    rewrite length_fmap, length_reverse, length_seqZ. lia.
  - intros rest. rewrite <- app_assoc, entries_concat by done. rewrite entries_app by (by apply encodeDirEntry_length). rewrite readEntries_lfns by (done || lia). rewrite app_nil_l.
    rewrite readEntries_short by done. cbn [DOSName]. destruct (lfnTriple d us' num <$> reverse (seqZ 1 num)) as [|t0 ts] eqn:Etr.
    { apply (f_equal length) in Etr. rewrite length_fmap, length_reverse, length_seqZ in Etr. cbn in Etr. lia. }
    subst e. cbn [DOSName]. rewrite Hlong. cbn [mbind option_bind]. cbn [Attributes FirstClusterHigh FirstClusterLow FileSize LastWrittenToDate LastWrittenToTime]. rewrite Hst, Hread.
    unfold dentryOf. destruct (isDir (Attrs i)); [done|]. unfold u32. rewrite Z.mod_small by lia. done.
Qed.

(** ** Short names are not taken for something else *)

Definition liveName (d : bytes) : Prop := length d = 11%nat /\ (hd 0 d ∉ [0; 229; dot]).

Lemma copyTo_0 j src dst : (0 < j <= length dst)%nat -> hd 0 (copyTo 0 j src dst) = match src with [] => hd 0 dst | b :: _ => b end.
Proof. intros Hj. unfold copyTo, copy_. destruct dst as [|c dst]; [cbn in Hj; lia|]. destruct j as [|j]; [lia|]. by destruct src. Qed.

Lemma copyTo_hd i j src dst : (0 < i)%nat -> hd 0 (copyTo i j src dst) = hd 0 dst \/ dst = [].
Proof. intros Hi. unfold copyTo. destruct i as [|i]; [lia|]. destruct dst as [|c dst]; [by right|by left]. Qed.

Lemma copyTo_live i j src dst : (0 < i <= j)%nat -> (j <= 11)%nat -> liveName dst -> liveName (copyTo i j src dst).
Proof.
  intros Hi Hj [Hl Hh]. split; [rewrite copyTo_length; [done|lia]|]. destruct (copyTo_hd i j src dst) as [->| ->]; [lia|done|done].
Qed.

Lemma spaces_live : liveName spaces.
Proof. split; [done|]. cbn. set_solver. Qed.

Lemma utf8_live s : Forall (fun c => safeRune c = true /\ c <> dot) s -> utf8 s = [] \/ (hd 0 (utf8 s) ∉ [0; 229; dot]).
Proof.
  intros [|c l [Hc Hd] _]; [by left|]. right. assert (forall r, safeRune r = true -> r <> dot -> (hd 0 (if r <? 128 then [r] else if r <? 2048 then [192 + r / 64; 128 + r mod 64]
    else if r <? 65536 then [224 + r / 4096; 128 + r / 64 mod 64; 128 + r mod 64] else [240 + r / 262144; 128 + r / 4096 mod 64; 128 + r / 64 mod 64; 128 + r mod 64]) ∉ [0; 229; dot])) as Hr.
  { clear. unfold safeRune, dot. intros r [H0%negb_true_iff%Z.eqb_neq H1%negb_true_iff]%andb_true_iff Hd. assert (~ (20480 <= r <= 24575)) as H2 by (by rewrite <- between_spec, H1).
    rewrite !not_elem_of_cons. destruct (Z.ltb_spec r 128); cbn [hd]; [destruct (Z.eq_dec r 229); [lia|]; split_and!; [done..|apply not_elem_of_nil]|].
    pose proof (Z.div_mod r 64). pose proof (Z.mod_pos_bound r 64). pose proof (Z.div_mod r 4096). pose proof (Z.mod_pos_bound r 4096). pose proof (Z.div_mod r 262144). pose proof (Z.mod_pos_bound r 262144).
    destruct (Z.ltb_spec r 2048); cbn [hd]; [split_and!; [lia..|apply not_elem_of_nil]|].
    destruct (Z.ltb_spec r 65536); cbn [hd]; split_and!; try apply not_elem_of_nil; lia. }
  unfold utf8. cbn [fmap list_fmap concat]. assert (forall a b : bytes, a <> [] -> hd 0 (a ++ b) = hd 0 a) as Ha by (by intros [|? ?]). rewrite Ha.
  - unfold utf8Rune. cbv zeta. destruct (_ || _ || _); apply Hr; done.
  - unfold utf8Rune. cbv zeta. by repeat case_match.
Qed.

Lemma validChar_live c : validChar c = true -> safeRune c = true /\ c <> dot.
Proof.
  unfold validChar, safeRune, dot. rewrite !orb_true_iff, !between_spec, bool_decide_eq_true. intros H.
  assert (33 <= c < 128 /\ c <> 46) as [H1 H2]; [|split; [|done]; rewrite andb_true_iff, !negb_true_iff, Z.eqb_neq; split; [lia|]; unfold between; apply andb_false_iff; left; apply Z.leb_gt; lia].
  destruct H as [[H|H]|H]; [lia|lia|]. rewrite !elem_of_cons in H. set_solver by lia.
Qed.

Lemma copyTo_name j s d : (0 < j <= 11)%nat -> liveName d -> Forall (fun c => safeRune c = true /\ c <> dot) s -> liveName (copyTo 0 j (utf8 s) d).
Proof.
  intros Hj [Hl Hd] Hs. split; [rewrite copyTo_length; [done|lia]|]. rewrite copyTo_0 by lia. destruct (utf8_live s Hs) as [->|Hu]; [done|]. by destruct (utf8 s).
Qed.

Lemma splitDots_elem s : Forall (Forall (fun c => c ∈ s /\ c <> dot)) (splitDots s).
Proof.
  induction s as [|c s IH]; cbn [splitDots]; [by repeat constructor|]. assert (Forall (Forall (fun x => x ∈ c :: s /\ x <> dot)) (splitDots s)) as IH'.
  { eapply Forall_impl; [exact IH|]. intros p Hp. eapply Forall_impl; [exact Hp|]. intros x [? ?]. split; [by right|done]. }
  destruct (Z.eqb_spec c dot) as [->|Hc]; [by constructor|]. destruct (splitDots s) as [|p ps]; [apply Forall_singleton, Forall_singleton; split; [by left|done]|].
  apply Forall_cons in IH' as [Hp Hps]. constructor; [|done]. constructor; [split; [by left|done]|done].
Qed.

Section names.
Context (upper : Z -> Z).

Definition safeName (name : list Z) : Prop := forallb safeRune (toUpper upper name) = true.

Lemma passThrough_live name d : passThrough upper name = Some d -> liveName d.
Proof.
  unfold passThrough, validDOSName. destruct (cutDot (toUpper upper name)) as [n ext]. destruct (_ && _ && _) eqn:E; [|done]. cbn [mbind option_bind]. intros [= <-].
  rewrite !andb_true_iff in E. destruct E as [[_ Hn%forallb_Forall_iff] _]. assert (liveName (copyTo 0 8 (utf8 n) spaces)) as Hd.
  { apply copyTo_name; [lia|apply spaces_live|]. eapply Forall_impl; [exact Hn|]. apply validChar_live. }
  destruct ext; [done|]. by apply copyTo_live; [lia..|].
Qed.

Lemma lossyName_live name : safeName name -> liveName (lossyName upper name).
Proof.
  unfold safeName. rewrite forallb_Forall_iff. intros Hs. unfold lossyName. set (parts := removeInvalid <$> splitDots (toUpper upper name)).
  assert (Forall (Forall (fun c => safeRune c = true /\ c <> dot)) parts) as Hp.
  { subst parts. apply Forall_fmap. eapply Forall_impl; [apply splitDots_elem|]. intros p Hp. assert (Forall (fun c => safeRune c = true /\ c <> dot) p) as Hp'.
    { eapply Forall_impl; [exact Hp|]. intros c [Hc ?]. split; [|done]. rewrite Forall_forall in Hs. by apply Hs. }
    cbn. unfold removeInvalid. destruct p as [|c [|c' p]]; [done| |done]. by destruct (validChar c). }
  clearbody parts. assert (forall ps, Forall (Forall (fun c => safeRune c = true /\ c <> dot)) ps -> Forall (fun c => safeRune c = true /\ c <> dot) (concat ps)) as Hc.
  { induction 1; cbn; [constructor|by apply Forall_app_2]. }
  apply copyTo_name; [lia| |].
  - case_match; [apply copyTo_live; [lia..|]|]; apply spaces_live.
  - case_match; apply Hc; [|done]. clear -Hp. induction Hp as [|p ps Hp Hps IH]; [constructor|]. cbn. destruct ps; [constructor|by constructor].
Qed.

Lemma findIdx_live fuel d idx taken d' idx' : liveName d -> findIdx fuel d idx taken = Ok (d', idx') -> liveName d'.
Proof.
  revert d idx. induction fuel as [|fuel IH]; intros d idx Hd; cbn [findIdx]; [done|]. destruct (_ <=? _); cbn [negb]; [done|].
  assert (liveName (copyTo 4 8 (hex4 idx) d)) by (by apply copyTo_live; [lia..|]). case_bool_decide; [by apply IH|]. by intros [= <- _].
Qed.

Lemma dosNames_live names ds : Forall safeName names -> makeUniqueDOSNames upper names = Ok ds -> Forall liveName ds.
Proof.
  intros Hs ([first taken] & E1 & E2)%bind_ok. assert (Forall (fun o => forall d, o = Some d -> liveName d) first) as Hf.
  { revert E1. generalize (∅ : gset bytes). clear. revert first. induction names as [|name names IH]; intros first tk; cbn [firstPass]; [intros [= <- _]; constructor|].
    destruct (passThrough upper name) as [d|] eqn:Ed; [case_bool_decide; cbn [negb]; [done|]|]; intros ([ds t] & E & [= <- <-])%bind_ok;
      constructor; try (by apply (IH _ _ E)); [|done]. intros d' [= <-]. by apply passThrough_live in Ed. }
  clear E1. revert first ds E2 Hf. generalize 0. induction Hs as [|name names Hn _ IH]; intros idx first ds; [intros [= <-] _; constructor|].
  destruct first as [|[d|] first]; cbn [secondPass]; [intros [= <-] _; constructor|..].
  - intros (ds' & E & [= <-])%bind_ok [Hd Hf]%Forall_cons. constructor; [by apply Hd|by apply (IH _ _ _ E)].
  - intros ([d i] & E1 & (ds' & E & [= <-])%bind_ok)%bind_ok [_ Hf]%Forall_cons. constructor; [|by apply (IH _ _ _ E)]. by apply findIdx_live in E1; [|apply lossyName_live].
Qed.

(** ** Whole directories *)

Definition sizeOf (i : Inode) : Z := match dataSize true i with Ok s => s | Err _ => 0 end.

Definition dentryAt (t : Placed) : dentry := dentryOf (inode t) (startCluster t) (sizeOf (inode t)).

(** What is needed of a child. *)
Record childOk (t : Placed) : Prop := {
  c_name : okName upper (Name (inode t)) = true;
  c_time : okTime (ModTime (inode t)) = true;
  c_attrs : between 0 255 (Attrs (inode t)) = true /\ Z.land (Attrs (inode t)) 8 = 0;
  c_size : isDir (Attrs (inode t)) = false -> 0 <= Size (Content (inode t));
  c_start : 0 <= startCluster t < 2 ^ 28
}.

Lemma writeMetas_read cs names ms : Forall childOk cs -> length names = length cs -> Forall liveName names -> writeMetas cs names = Ok ms ->
  (forall a, metaSizes (inode <$> cs) a = Ok (a + len ms)) /\
  forall rest, readEntries [] (entries (ms ++ rest)) = rest' ← readEntries [] (entries rest); Some ((dentryAt <$> cs) ++ rest').
Proof.
  intros Hcs. revert names ms. induction Hcs as [|c cs [C1 C2 C3 C4 C5] _ IH]; intros [|d names] ms Hl Hn; try done.
  - intros [= <-]. split; [intros a; unfold len; cbn; f_equal; lia|]. intros rest. cbn [app fmap list_fmap]. by destruct (readEntries [] (entries rest)).
  - apply Forall_cons in Hn as [Hd Hn]. cbn [writeMetas]. intros (m & Em & (ms' & Ems & [= <-])%bind_ok)%bind_ok.
    destruct (IH names ms' ltac:(by injection Hl) Hn Ems) as [IH1 IH2]. apply andb_true_iff in C1 as [C1 _].
    destruct (writeMeta_read (inode c) (startCluster c) d m) as (size & Hsz & Hlen & Hread); [by split|done|]. split.
    + intros a. cbn [fmap list_fmap metaSizes]. unfold writeMeta in Em. apply bind_ok in Em as (us & Eus & _). unfold metaSize. rewrite Eus. cbn [mbind result_bind].
      rewrite IH1, <- (Hlen us Eus). f_equal. unfold len. rewrite length_app. lia.
    + intros rest. rewrite <- app_assoc, Hread, IH2. unfold dentryAt at 2, sizeOf. cbn [fmap list_fmap]. rewrite Hsz. by destruct (readEntries [] (entries rest)).
Qed.

Lemma land_8_63 a : Z.land a 8 = 0 -> Z.land a 63 <> 15.
Proof.
  intros Ha E. apply (f_equal (fun z => Z.testbit z 3)) in E, Ha. rewrite Z.land_spec in E, Ha. cbn in E, Ha. congruence.
Qed.

(** The entry of the directory or of its parent. *)
Lemma readEntries_dot e l : dirEntryOk e -> hd 0 (DOSName e) = dot -> Z.land (Attributes e) 8 = 0 -> readEntries [] (entries (encodeDirEntry e ++ l)) = readEntries [] (entries l).
Proof.
  intros He Hh Ha. rewrite entries_app by (apply encodeDirEntry_length, He). apply readEntries_skip; [done| |by apply land_8_63|by right]. rewrite Hh. unfold dot. set_solver.
Qed.

Lemma readEntries_label label l : length label = 11%nat -> hd 0 label <> 0 ->
  readEntries [] (entries (encodeDirEntry (mkDirEntry label 8 0 0 0 0 0 0 0 0) ++ l)) = readEntries [] (entries l).
Proof.
  intros Hl Hh. rewrite entries_app by (by apply encodeDirEntry_length). destruct (decide (hd 0 label = 229)) as [E|Hn].
  - cbn [readEntries]. assert (hd 0 (encodeDirEntry (mkDirEntry label 8 0 0 0 0 0 0 0 0)) = 229) as -> by (unfold encodeDirEntry; cbn; by destruct label). done.
  - apply readEntries_skip; cbn [DOSName Attributes]; [|set_solver|done|by left]. split; cbn; [done|by apply Forall_singleton|by repeat (apply Forall_cons_2; [done|])|done].
Qed.

Lemma dotEntry_ok i start : childOk (mkPlaced i start []) -> dirEntryOk (dotEntry i start) /\ hd 0 (DOSName (dotEntry i start)) = dot /\ Z.land (Attributes (dotEntry i start)) 8 = 0.
Proof.
  intros [_ Ht [Ha Ha'] _ Hs]. cbn [inode startCluster] in *. unfold dotEntry. pose proof (readTime_ok _ Ht) as Hr. destruct (timeToMsDosTime (ModTime i)) as [[date time] tens].
  destruct (timeToMsDosTime (CreateTime i)) as [[cdate ctime] ctens]. destruct Hr as (? & ? & _), (cluster_halves start Hs) as (? & ? & _). apply between_spec in Ha. split_and!; [|done..].
  split; cbn; [done|apply Forall_singleton; change (width 1) with 256; lia|by repeat (apply Forall_cons_2; [done|])|done].
Qed.

Lemma dotdotEntry_ok i start : okTime (ModTime i) = true -> 0 <= start < 2 ^ 28 ->
  dirEntryOk (dotdotEntry i start) /\ hd 0 (DOSName (dotdotEntry i start)) = dot /\ Z.land (Attributes (dotdotEntry i start)) 8 = 0.
Proof.
  intros Ht Hs. unfold dotdotEntry. pose proof (readTime_ok _ Ht) as Hr. destruct (timeToMsDosTime (ModTime i)) as [[date time] tens].
  destruct Hr as (? & ? & _), (cluster_halves start Hs) as (? & ? & _). split_and!; [|done..].
  split; cbn; [done|by apply Forall_singleton|by repeat (apply Forall_cons_2; [done|])|done].
Qed.

Definition hasParent (par : parent) : bool := match par with Some _ => true | None => false end.

Definition parentOk (par : parent) : Prop := match par with None => True | Some (start, _) => 0 <= start < 2 ^ 28 end.

Definition labelOk (label : bytes) : Prop := length label = 11%nat /\ hd 0 label <> 0.

(** The data of a directory: as long as was planned, and its entries. *)
Lemma writeData_dir label par t d : labelOk label -> parentOk par -> (par <> None -> childOk t) -> Forall childOk (placedChildren t) ->
  Children (inode t) = inode <$> placedChildren t -> isDir (Attrs (inode t)) = true -> writeData upper label par t = Ok d ->
  (forall s, dataSize (hasParent par) (inode t) = Ok s -> s = len d) /\
  forall slack, hd 0 slack = 0 -> readDir (d ++ slack) = Some (dentryAt <$> placedChildren t).
Proof.
  intros [Hl1 Hl2] Hpar Ht Hcs Hch Hdir. unfold writeData. rewrite Hdir. set (head := match par with None => _ | Some _ => _ end).
  assert (len head = (if hasParent par then 64 else 32) /\ forall l, readEntries [] (entries (head ++ l)) = readEntries [] (entries l)) as [Hh1 Hh2].
  { subst head. destruct par as [[ps proot]|].
    - destruct (Ht ltac:(done)) as [T1 T2 T3 T4 T5]. destruct (dotEntry_ok (inode t) (startCluster t)) as (D1 & D2 & D3); [by split|].
      destruct (dotdotEntry_ok (inode t) (if proot then 0 else ps)) as (E1 & E2 & E3); [done|by destruct proot|]. split.
      + unfold len. by rewrite length_app, !encodeDirEntry_length by (apply D1 || apply E1).
      + intros l. rewrite <- app_assoc, !readEntries_dot by done. done.
    - split; [unfold len; by rewrite encodeDirEntry_length|]. intros l. by apply readEntries_label. }
  clearbody head. destruct (makeUniqueDOSNames upper _) as [names|] eqn:En; [|done].
  intros (ms & Ems & [= <-])%bind_ok. assert (Forall (safeName ∘ (Name ∘ inode)) (placedChildren t)) as Hsafe.
  { eapply Forall_impl; [exact Hcs|]. intros c [[_ Hc]%andb_true_iff _ _ _ _]. done. }
  assert (Forall liveName names) as Hlive by (apply (dosNames_live _ _ (proj2 (Forall_fmap _ _ _) Hsafe) En)). apply makeUniqueDOSNames_ok in En as (Hlen & _).
  rewrite length_fmap in Hlen. destruct (writeMetas_read _ _ _ Hcs Hlen Hlive Ems) as [Hsz Hread].
  split.
  - intros s. unfold dataSize. rewrite Hdir, Hch, Hsz. cbn [mbind result_bind]. destruct (_ <? _); [done|]. cbn [negb]. intros [= <-].
    unfold len in *. rewrite length_app. destruct (hasParent par); lia.
  - intros slack Hs. unfold readDir. fold (entries ((head ++ ms) ++ slack)). rewrite <- app_assoc, Hh2, Hread, readEntries_end by done. cbn. by rewrite app_nil_r.
Qed.

Lemma writeData_file label par t d : isDir (Attrs (inode t)) = false -> 0 <= Size (Content (inode t)) -> writeData upper label par t = Ok d ->
  d = take (Z.to_nat (Size (Content (inode t)))) (data (Content (inode t))) /\ len d = Size (Content (inode t)).
Proof.
  intros Hd Hs. unfold writeData. rewrite Hd. destruct (Z.ltb_spec (len (data (Content (inode t)))) (Size (Content (inode t)))); cbn [negb]; [done|].
  intros [= <-]. split; [done|]. unfold len in *. rewrite length_take. lia.
Qed.

End names.
End Fat32Dir.
