(* ===== verification/Fat32Layout.v ===== *)
(** * FAT32: the layout of the image

    Clusters are allocated in the order in which inodes are written, so that every inode is where the allocation
    table says, and following its chain reads what was written. *)

From S2P Require Import Prelude Bytes Fat32Names Fat32 Fat32Dir.
From Stdlib Require Import ZArith.

Module Fat32Layout.
Import Bytes Fat32Names Fat32 Fat32Read Fat32Dir.
Open Scope Z_scope.

(** ** Trees *)

Lemma Inode_tree_ind (P : Inode -> Prop) :
  (forall n m c a cs ct, Forall P cs -> P (mkInode n m c a cs ct)) -> forall i, P i.
Proof. intros H. fix IH 1. intros [n m c a cs ct]. apply H. induction cs; constructor; [apply IH|done]. Qed.

Lemma Placed_tree_ind (P : Placed -> Prop) : (forall i s cs, Forall P cs -> P (mkPlaced i s cs)) -> forall t, P t.
Proof. intros H. fix IH 1. intros [i s cs]. apply H. induction cs; constructor; [apply IH|done]. Qed.

(** Every node has the children of its inode. *)
Fixpoint placedWf (t : Placed) : Prop :=
  let 'mkPlaced i _ cs := t in Children i = inode <$> cs /\ fold_right (fun c P => placedWf c /\ P) True cs.

Lemma fold_right_and {A} (P : A -> Prop) l : fold_right (fun c Q => P c /\ Q) True l <-> Forall P l.
Proof. induction l as [|x l IH]; cbn; [split; [constructor|done]|]. by rewrite IH, Forall_cons. Qed.

(** ** Allocation in order *)

Fixpoint allocAll (sizes : list Z) (p : planningState) : planningState * list Z :=
  match sizes with
  | [] => (p, [])
  | s :: sizes => let '(p, start) := allocBytes s p in let '(p, starts) := allocAll sizes p in (p, start :: starts)
  end.

Lemma allocAll_app s1 s2 p : allocAll (s1 ++ s2) p =
  let '(p1, starts1) := allocAll s1 p in let '(p2, starts2) := allocAll s2 p1 in (p2, starts1 ++ starts2).
Proof.
  revert p. induction s1 as [|s s1 IH]; intros p; cbn [app allocAll]; [by destruct (allocAll s2 p)|]. destruct (allocBytes s p) as [q st]. rewrite IH.
  destruct (allocAll s1 q) as [p1 st1]. by destruct (allocAll s2 p1).
Qed.

Definition nodeStart (n : parent * Placed) : Z := startCluster n.2.
Definition nodeSize (n : parent * Placed) (s : Z) : Prop := dataSize (hasParent n.1) (inode n.2) = Ok s.

(** The nodes [l] were allocated in this order. *)
Definition allocated (l : list (parent * Placed)) (p p' : planningState) : Prop :=
  exists sizes, allocAll sizes p = (p', nodeStart <$> l) /\ Forall2 nodeSize l sizes.

Lemma allocated_app l1 l2 p1 p2 p3 : allocated l1 p1 p2 -> allocated l2 p2 p3 -> allocated (l1 ++ l2) p1 p3.
Proof.
  intros (s1 & E1 & F1) (s2 & E2 & F2). exists (s1 ++ s2). rewrite allocAll_app, E1, E2, fmap_app. split; [done|by apply Forall2_app].
Qed.

Lemma place_allocated i hp p p' t : placeRecursively hp i p = Ok (p', t) ->
  inode t = i /\ placedWf t /\ forall par, hasParent par = hp -> allocated (orderedInodes par t) p p'.
Proof.
  revert hp p p' t. induction i as [n m c a cs ct IH] using Inode_tree_ind. intros hp p p' t. cbn [placeRecursively].
  intros (s & Es & E)%bind_ok. destruct (allocBytes s p) as [q start] eqn:Ea. apply bind_ok in E as ([q' ts] & Ec & [= -> <-]).
  assert (inode <$> ts = cs /\ Forall placedWf ts /\ forall par, hasParent par = true -> allocated (concat (orderedInodes par <$> ts)) q p') as (H1 & H2 & H3).
  { clear Es Ea. revert q ts Ec. induction IH as [|c0 cs Hc _ IHc]; intros q ts; cbn [placeChildren].
    - intros [= <- <-]. split_and!; [done|constructor|]. intros par _. exists []. by split; [|constructor].
    - intros ([q1 t1] & E1 & ([q2 ts'] & E2 & [= <- <-])%bind_ok)%bind_ok. destruct (Hc _ _ _ _ E1) as (I1 & W1 & A1), (IHc _ _ E2) as (I2 & W2 & A2). split_and!.
      + cbn. by rewrite I1, I2.
      + by constructor.
      + intros par Hp. cbn [fmap list_fmap concat]. eapply allocated_app; eauto. }
  split_and!; [done|cbn; by rewrite fold_right_and|]. intros par Hp. cbn [orderedInodes]. change (?x :: ?l) with ([x] ++ l). eapply allocated_app; [|by apply H3].
  exists [s]. cbn [allocAll]. rewrite Ea. split; [done|]. constructor; [|constructor]. unfold nodeSize. cbn. by rewrite Hp.
Qed.

(** ** Numbers of clusters *)

Definition clusters (cs b : Z) : Z := (b + cs - 1) / cs.
Definition padding (cs b : Z) : Z := (cs - b mod cs) mod cs.

Lemma clusters_padding cs b : 0 < cs -> 0 <= b -> b + padding cs b = clusters cs b * cs /\ 0 <= padding cs b < cs.
Proof.
  intros Hc Hb. unfold padding, clusters. pose proof (Z.mod_pos_bound b cs Hc). pose proof (Z.div_mod b cs ltac:(lia)) as Hd. split; [|by apply Z.mod_pos_bound].
  destruct (Z.eq_dec (b mod cs) 0) as [E|E].
  - rewrite E, Z.sub_0_r, Z_mod_same_full. replace (b + cs - 1) with (cs - 1 + b / cs * cs) by lia. rewrite Z.div_add, Z.div_small by lia. lia.
  - rewrite (Z.mod_small (cs - b mod cs)) by lia. replace (b + cs - 1) with (b mod cs - 1 + (b / cs + 1) * cs) by lia. rewrite Z.div_add, Z.div_small by lia. lia.
Qed.

Lemma padding_add cs k b : 0 < cs -> padding cs (k * cs + b) = padding cs b.
Proof. intros Hc. unfold padding. by rewrite Z.add_comm, Z.mod_add by lia. Qed.

Lemma clusters_pos cs b : 0 < cs -> 0 < b -> 1 <= clusters cs b.
Proof. intros. apply Z.div_le_lower_bound; lia. Qed.

(** What an allocation adds. *)
Definition chainOf (c n : Z) : list Z := (u32 <$> seqZ (c + 1) (n - 1)) ++ [fatEOF].

Lemma allocBytes_spec b p : 0 <= b -> 0 < clusterSize p -> allocBytes b p =
  if b =? 0 then (p, 0) else (mkPlan (fat p ++ chainOf (len (fat p)) (clusters (clusterSize p) b)) (clusterSize p), len (fat p)).
Proof. intros Hb Hc. unfold allocBytes, chainOf. destruct (b =? 0); [done|]. done. Qed.

Lemma chainOf_length c n : 1 <= n -> len (chainOf c n) = n.
Proof. intros Hn. unfold len, chainOf. rewrite length_app, length_fmap, length_seqZ. cbn. lia. Qed.

(** ** Parts of the image *)

Lemma sub_sub off n m l : 0 <= off -> 0 <= n -> 0 <= m -> sub off n l ++ sub (off + n) m l = sub off (n + m) l.
Proof.
  intros Ho Hn Hm. unfold sub. rewrite !Z2Nat.inj_add by lia. rewrite <- drop_drop. apply take_take_drop.
Qed.

Lemma sub_app a b c n : len b = n -> sub (len a) n (a ++ b ++ c) = b.
Proof. intros <-. unfold sub, len. rewrite !Nat2Z.id, drop_app_length. apply take_app_length. Qed.

Lemma len_zeros n : 0 <= n -> len (zeros (Z.to_nat n)) = n.
Proof. intros Hn. unfold len, zeros. rewrite length_replicate. lia. Qed.

(** ** Padding *)

Lemma writeZeros_ok fuel n out : 0 <= n -> (Z.to_nat n <= fuel)%nat -> writeZeros fuel n out = out ++ zeros (Z.to_nat n).
Proof.
  revert n out. induction fuel as [|fuel IH]; intros n out Hn Hf; cbn [writeZeros].
  - replace (Z.to_nat n) with 0%nat by lia. by rewrite app_nil_r.
  - destruct (Z.ltb_spec 0 n); [|replace (Z.to_nat n) with 0%nat by lia; by rewrite app_nil_r]. set (cur := if emptyBuf <? n then emptyBuf else n).
    assert (0 < cur <= n) as Hc by (subst cur; destruct (Z.ltb_spec emptyBuf n); unfold emptyBuf in *; lia). clearbody cur.
    rewrite IH by lia. rewrite <- app_assoc. f_equal. unfold zeros. rewrite <- replicate_add. f_equal. lia.
Qed.

Lemma FinishBlock_zeros seeker old a mustZero out : 0 < a -> mustZero = true \/ seeker = false \/ (forall x, old x = 0) ->
  FinishBlock seeker old a mustZero out = out ++ zeros (Z.to_nat (padding a (len out))).
Proof.
  intros Ha Hz. unfold FinishBlock. fold (padding a (len out)). destruct (clusters_padding a (len out) Ha (len_nonneg _)) as [_ Hp].
  destruct (Z.eqb_spec (padding a (len out)) 0) as [->|Hne]; [by rewrite app_nil_r|]. destruct (seeker && negb mustZero) eqn:Es; [|by apply writeZeros_ok; lia].
  f_equal. destruct Hz as [->|[->|Hz]]; [by rewrite andb_false_r in Es|done|]. assert (forall s n, old <$> seqZ s n = zeros (Z.to_nat n)) as Ho.
  { intros s n. apply list_eq. intros k. unfold zeros. rewrite list_lookup_fmap. destruct (decide (Z.of_nat k < n)).
    - rewrite (proj2 (lookup_seqZ _ _ _ _)), lookup_replicate_2 by ((split; [reflexivity|lia]) || lia). cbn. by rewrite Hz.
    - rewrite lookup_seqZ_ge by lia. symmetry. apply lookup_replicate_None. lia. }
  rewrite Ho. unfold zeros. change [0] with (replicate 1 0). rewrite <- replicate_add. f_equal. lia.
Qed.

(** ** Following a chain *)

Section image.
Context (v : volume) (img : bytes) (F : list Z).
Hypothesis Hblock : 0 < vBlock v.
Hypothesis Hper : vPerCluster v = 1.
Hypothesis Hfirst : 0 <= firstData v.
Hypothesis Hcount : len F <= clusterCount v + 2.
Hypothesis Hsmall : len F <= 268435448.
(** The table in the image is [F]. *)
Hypothesis Hentry : forall c x, 0 <= c -> F !! Z.to_nat c = Some x -> 0 <= x < 2 ^ 28 -> entryOf v img c = x.

Definition clusterOff (c : Z) : Z := (firstData v + (c - 2)) * vBlock v.

Lemma readChain_ok (n : nat) : forall fuel c pre post, F = pre ++ chainOf c (Z.of_nat (S n)) ++ post -> len pre = c -> 2 <= c -> (n < fuel)%nat ->
  readChain fuel v img c = Some (sub (clusterOff c) (Z.of_nat (S n) * vBlock v) img).
Proof.
  induction n as [|n IH]; intros fuel c pre post HF Hl Hc Hf; (destruct fuel as [|fuel]; [lia|]); cbn [readChain];
    pose proof (f_equal len HF) as HL; rewrite !len_app, chainOf_length in HL by lia; pose proof (len_nonneg post).
  - rewrite (proj2 (Z.leb_le _ _)), (proj2 (Z.ltb_lt _ _)) by lia. cbn [andb]. rewrite (Hentry c fatEOF) by (done || lia || (subst c F; unfold len; rewrite Nat2Z.id, lookup_app_r, Nat.sub_diag by lia; done)).
    change (268435448 <=? fatEOF) with true. change (Z.of_nat 1) with 1. unfold clusterData, clusterOff. rewrite Hper, Z.mul_1_r, !Z.mul_1_l. done.
  - rewrite (proj2 (Z.leb_le _ _)), (proj2 (Z.ltb_lt _ _)) by lia. cbn [andb].
    assert (chainOf c (Z.of_nat (S (S n))) = (c + 1) :: chainOf (c + 1) (Z.of_nat (S n))) as Hch.
    { unfold chainOf. rewrite seqZ_cons by lia. cbn [fmap list_fmap app]. f_equal; [apply Z.mod_small; lia|]. do 3 f_equal; lia. }
    rewrite (Hentry c (c + 1)); [|lia| |lia].
    + rewrite (proj2 (Z.leb_gt _ _)) by lia. rewrite (IH fuel (c + 1) (pre ++ [c + 1]) post); [|by rewrite HF, Hch, <- app_assoc|rewrite len_app; unfold len; cbn; unfold len in Hl; lia|lia|lia].
      cbn [mbind option_bind]. f_equal. unfold clusterData. rewrite Hper, Z.mul_1_l, Z.mul_1_r. fold (clusterOff c). replace (clusterOff (c + 1)) with (clusterOff c + vBlock v) by (unfold clusterOff; lia).
      rewrite sub_sub by (unfold clusterOff; nia). f_equal. nia.
    + rewrite HF, Hch. replace (Z.to_nat c) with (length pre) by (unfold len in Hl; lia). rewrite lookup_app_r, Nat.sub_diag by lia. done.
Qed.

Lemma readData_ok c n pre post : F = pre ++ chainOf c n ++ post -> len pre = c -> 2 <= c -> 1 <= n -> readData v img c = Some (sub (clusterOff c) (n * vBlock v) img).
Proof.
  intros HF Hl Hc Hn. unfold readData. rewrite (proj2 (Z.eqb_neq _ _)) by lia. pose proof (f_equal len HF) as HL. rewrite !len_app, chainOf_length in HL by lia. pose proof (len_nonneg post).
  replace n with (Z.of_nat (S (Z.to_nat (n - 1)))) in * by lia. apply (readChain_ok _ _ _ _ _ HF); lia.
Qed.

(** ** The data of the inodes *)

Context (upper : Z -> Z) (seeker : bool) (old : Z -> Z) (bs : bootSector).
Hypothesis Hholes : seeker = false \/ forall x, old x = 0.
Hypothesis Hbs : bsBlockSize bs = vBlock v /\ BlocksPerCluster bs = 1.

(** An inode is written as long as was planned. *)
Definition lengthOk (n : parent * Placed) : Prop := forall d s, writeData upper (bsLabel bs) n.1 n.2 = Ok d -> nodeSize n s -> s = len d.

Definition readable (n : parent * Placed) : Prop := exists d slack, writeData upper (bsLabel bs) n.1 n.2 = Ok d /\ hd 0 slack = 0 /\ readData v img (startCluster n.2) = Some (d ++ slack).

Lemma writeInodes_prefix l out out' : writeInodes upper seeker old bs l out = Ok out' -> exists r, out' = out ++ r.
Proof.
  destruct Hbs as [Hb1 Hb2]. revert out. induction l as [|[par t] l IH]; intros out; cbn [writeInodes]; [intros [= <-]; exists []; by rewrite app_nil_r|].
  intros (d & _ & E)%bind_ok. rewrite Hb1, Hb2, Z.mul_1_r, FinishBlock_zeros in E by auto. apply IH in E as [r ->]. rewrite <- !app_assoc. eauto.
Qed.

Lemma allocAll_prefix sizes p p' starts : allocAll sizes p = (p', starts) -> exists r, fat p' = fat p ++ r.
Proof.
  revert p starts. induction sizes as [|s sizes IH]; intros p starts; cbn [allocAll]; [intros [= <- _]; exists []; by rewrite app_nil_r|].
  destruct (allocBytes s p) as [q st] eqn:E. destruct (allocAll sizes q) as [q' sts] eqn:Eq. intros [= <- _]. destruct (IH _ _ Eq) as [r ->].
  unfold allocBytes in E. destruct (s =? 0); injection E as <- _; [eauto|]. cbn. rewrite <- !app_assoc. eauto.
Qed.

(** A node that is written where it was placed. *)
Lemma node_readable par t d c post rest pre : writeData upper (bsLabel bs) par t = Ok d -> 0 < len d -> startCluster t = c -> 2 <= c ->
  F = pre ++ chainOf c (clusters (vBlock v) (len d)) ++ post -> len pre = c ->
  (exists out, img = out ++ d ++ zeros (Z.to_nat (padding (vBlock v) (len d))) ++ rest /\ len out = clusterOff c) -> readable (par, t).
Proof.
  intros Ed Hd Hst Hc HF Hl (out & Himg & Ho). exists d, (zeros (Z.to_nat (padding (vBlock v) (len d)))). split_and!; [done|by destruct (Z.to_nat _)|]. cbn. rewrite Hst.
  destruct (clusters_padding (vBlock v) (len d) Hblock (len_nonneg _)) as [Hpad Hpad']. rewrite (readData_ok c _ _ _ HF Hl Hc) by (by apply clusters_pos).
  f_equal. rewrite <- Ho, Himg, (app_assoc d). apply sub_app. rewrite len_app, len_zeros; lia.
Qed.

Lemma writeInodes_readable l : forall p p' out out' rest post, allocated l p p' -> Forall lengthOk l -> clusterSize p = vBlock v ->
  writeInodes upper seeker old bs l out = Ok out' -> len out = clusterOff (len (fat p)) -> 2 <= len (fat p) -> F = fat p' ++ post -> img = out' ++ rest ->
  Forall readable l /\ len out' = clusterOff (len (fat p')).
Proof.
  destruct Hbs as [Hb1 Hb2]. induction l as [|n l IH]; intros p p' out out' rest post (sizes & Ea & Hs) Hlen Hcs Hw Ho H2 HF Himg.
  { apply Forall2_nil_inv_l in Hs as ->. injection Ea as <-. injection Hw as <-. done. }
  apply Forall2_cons_inv_l in Hs as (s & sizes' & Hs & Hss & ->). apply Forall_cons in Hlen as [Hn Hlen]. destruct n as [par t]. cbn [writeInodes] in Hw. apply bind_ok in Hw as (d & Ed & Hw).
  pose proof (Hn d s Ed Hs) as ->. rewrite Hb1, Hb2, Z.mul_1_r, FinishBlock_zeros in Hw by auto. rewrite len_app, Ho in Hw. unfold clusterOff in Hw at 1. rewrite padding_add in Hw by done.
  cbn [allocAll] in Ea. rewrite allocBytes_spec in Ea by (rewrite ?Hcs; done || apply len_nonneg). rewrite Hcs in Ea.
  destruct (clusters_padding (vBlock v) (len d) Hblock (len_nonneg _)) as [Hpad Hpad'].
  destruct (Z.eqb_spec (len d) 0) as [E0|E0].
  - destruct (allocAll sizes' p) as [q starts] eqn:Eq. injection Ea as <- Hst Hsts. assert (d = []) as -> by (destruct d; [done|unfold len in E0; cbn in E0; lia]).
    assert (padding (vBlock v) (len (A := Z) []) = 0) as Ep by (unfold padding; change (len (A := Z) []) with 0; rewrite Z.mod_0_l, Z.sub_0_r, Z_mod_same_full by lia; done).
    rewrite Ep, !app_nil_r in Hw. destruct (IH p q out out' rest post) as [IH1 IH2]; [exists sizes'; by rewrite Eq, Hsts|done..|]. split; [|done]. constructor; [|done].
    exists [], []. split_and!; [done..|]. unfold nodeStart in Hst. cbn in Hst. unfold readData. cbn. by rewrite <- Hst.
  - set (p1 := mkPlan _ _) in Ea. destruct (allocAll sizes' p1) as [q starts] eqn:Eq. injection Ea as <- Hst Hsts. pose proof (allocAll_prefix _ _ _ _ Eq) as [r Hr]. pose proof (len_nonneg d).
    pose proof (clusters_pos (vBlock v) (len d) Hblock ltac:(lia)) as Hpos. assert (len (fat p1) = len (fat p) + clusters (vBlock v) (len d)) as Hp1 by (subst p1; cbn; by rewrite len_app, chainOf_length).
    destruct (IH p1 q ((out ++ d) ++ zeros (Z.to_nat (padding (vBlock v) (len d)))) out' rest post) as [IH1 IH2]; [exists sizes'; by rewrite Eq, Hsts|done..| |lia|done|done|].
    { rewrite !len_app, len_zeros, Ho, Hp1 by lia. unfold clusterOff. lia. }
    split; [|done]. constructor; [|done]. pose proof (writeInodes_prefix _ _ _ Hw) as [r' Hr'].
    apply (node_readable par t d (len (fat p)) (r ++ post) (r' ++ rest) (fat p) Ed); [lia|done|done| |done|].
    + rewrite HF, Hr. subst p1. cbn. by rewrite <- !app_assoc.
    + exists out. split; [|done]. by rewrite Himg, Hr', <- !app_assoc.
Qed.

End image.
End Fat32Layout.

(** * FAT32: the geometry

    [prepareFS] plans a table that has an entry for each cluster, and fits the blocks reserved for it: always when
    the size of the filesystem is left open, and for a given number of blocks when [geometryOk] holds. *)

Module Fat32Geometry.
Import Bytes Fat32Names Fat32 Fat32Read Fat32Dir Fat32Layout.
Open Scope Z_scope.

(** ** Block sizes *)

Definition blockSizeOf (opts : Options) : Z := if BlockSize opts =? 0 then 512 else BlockSize opts.

Definition powerOfTwo (b : Z) : bool := match b with Zpos p => onesPos p | _ => 0 end =? 1.

Lemma onesPos_pos p : 1 <= onesPos p.
Proof. induction p; cbn; lia. Qed.

Lemma powerOfTwo_512 b : powerOfTwo b = true -> 512 <= b -> b mod 512 = 0.
Proof.
  unfold powerOfTwo. destruct b as [|p|p]; [done| |done]. rewrite Z.eqb_eq. intros Hp Hb.
  assert (forall p, onesPos p = 1 -> p = 1%positive \/ exists q, p = (q~0)%positive /\ onesPos q = 1) as Hs.
  { clear. intros [p|p|]; cbn; intros H; [|by eauto|by left]. pose proof (onesPos_pos p). lia. }
  do 9 (destruct (Hs _ Hp) as [->|(q & -> & Hq)]; [lia|]; clear Hp; rename q into p, Hq into Hp).
  assert (forall p : positive, Z.pos p~0~0~0~0~0~0~0~0~0 = Z.pos p * 512) as -> by (intros; lia). apply Z_mod_mult.
Qed.

(** ** The allocation table *)

(** The blocks of a table of [n] entries. *)
Abbreviation tableBlocks b n := (clusters b (4 * n)).

(** The blocks of each table of a filesystem with [t] blocks, [q] entries in each. *)
Definition fixedPerFAT (q t : Z) : Z := (t + 2 + (q + 1)) / (q + 2).

Lemma fixedPerFAT_bounds q t : 128 <= q < 16384 -> 65533 <= t < 2 ^ 28 -> let f := fixedPerFAT q t in
  t + 2 <= f * (q + 2) <= t + 2 + (q + 1) /\ 1 <= f /\ 2 * f <= t - 8.
Proof.
  intros Hq Ht f. subst f. unfold fixedPerFAT. pose proof (Z.div_mod (t + 2 + (q + 1)) (q + 2) ltac:(lia)). pose proof (Z.mod_pos_bound (t + 2 + (q + 1)) (q + 2) ltac:(lia)).
  set (f := (t + 2 + (q + 1)) / (q + 2)) in *. assert (t + 2 <= f * (q + 2) <= t + 2 + (q + 1)) as Hf by lia. split; [done|]. split; nia.
Qed.

(** The number of blocks is not among those for which the table takes a block less than is reserved for it. *)
Definition geometryOk (q t : Z) : bool := let r := (t + 2) mod (q + 2) in (r =? 0) || (11 <=? r).

Lemma clusters_iff b n f : 0 < b -> (clusters b n = f <-> (f - 1) * b < n <= f * b).
Proof.
  intros Hb. unfold clusters. pose proof (Z.div_mod (n + b - 1) b ltac:(lia)). pose proof (Z.mod_pos_bound (n + b - 1) b Hb). split; [intros <-; nia|]. intros Hn.
  symmetry. apply (Z.div_unique _ _ _ (n + b - 1 - b * f)); [left; lia|lia].
Qed.

(** For a fixed number of blocks, the table has as many blocks as are reserved for it just if [geometryOk]; otherwise one less. *)
Lemma fixed_table q t : 128 <= q < 16384 -> 65533 <= t < 2 ^ 28 -> let f := fixedPerFAT q t in
  tableBlocks (4 * q) (t - 6 - 2 * f) = if geometryOk q t then f else f - 1.
Proof.
  intros Hq Ht f. destruct (fixedPerFAT_bounds q t Hq Ht) as (Hf & H1 & H2). fold f in Hf, H1, H2. apply clusters_iff; [lia|]. unfold geometryOk.
  pose proof (Z.div_mod (t + 2) (q + 2) ltac:(lia)) as Hd. pose proof (Z.mod_pos_bound (t + 2) (q + 2) ltac:(lia)) as Hm. set (r := (t + 2) mod (q + 2)) in *. set (k := (t + 2) / (q + 2)) in *.
  assert (f = if r =? 0 then k else k + 1) as Hk by (destruct (Z.eqb_spec r 0); nia).
  destruct (Z.eqb_spec r 0) as [E|E]; cbn [orb]; [nia|]. destruct (Z.leb_spec 11 r); nia.
Qed.

(** ** Planning *)

Lemma fill_len n l : len (fill n l) = Z.max n (len l).
Proof. unfold fill. rewrite len_app. unfold len. rewrite length_replicate. lia. Qed.

Lemma fill_fill m n l : exists k, fill m (fill n l) = l ++ replicate k fatFree.
Proof. unfold fill. rewrite <- app_assoc, <- replicate_add. eauto. Qed.

Lemma clusters_mono b m n : 0 < b -> m <= n -> clusters b m <= clusters b n.
Proof. intros. apply Z.div_le_mono; lia. Qed.

(** The table of [n] entries that fits before the size is known, and the blocks it takes. *)
Lemma occupied_small b n : 512 <= b < 65536 -> minEntries <= n < 2 ^ 28 -> let f := tableBlocks b n in
  u32 (4 * n + b - 1) / u32 b = f /\ u32 (u32 (8 + u32 (u32 (n - 2) * 1)) + u32 (f * 2)) = 6 + n + 2 * f /\ 1 <= f <= 2 ^ 22.
Proof.
  intros Hb Hn f. unfold minEntries in Hn. assert (1 <= f <= 2 ^ 22) as Hf.
  { subst f. split; [apply clusters_pos; lia|]. apply Z.div_le_upper_bound; lia. }
  unfold u32. rewrite Z.mul_1_r. rewrite (Z.mod_small (4 * n + b - 1)), (Z.mod_small b), (Z.mod_small (n - 2)) by lia.
  rewrite (Z.mod_small (n - 2)), (Z.mod_small (8 + _)), (Z.mod_small (f * 2)), Z.mod_small by lia. split_and!; [done|lia|lia..].
Qed.

(** The numbers of a filesystem of a fixed size. *)
Lemma fixed_small b t : powerOfTwo b = true -> 512 <= b < 65536 -> 65533 <= t < 2 ^ 28 -> let q := b / 4 in
  128 <= q < 16384 /\ b = 4 * q /\ u32 (u32 (t + u32 (2 * 1)) + u32 (u32 (u32 (1 * b) / 4 + 2) - 1)) / u32 (u32 (1 * b) / 4 + 2) = fixedPerFAT q t.
Proof.
  intros Hp Hb Ht q. pose proof (powerOfTwo_512 b Hp ltac:(lia)) as Hm. pose proof (Z.div_mod b 512 ltac:(lia)) as Hd. rewrite Hm in Hd.
  assert (b = 4 * q) as Hq by (subst q; rewrite Hd at 1 2; replace (512 * (b / 512) + 0) with (128 * (b / 512) * 4) by lia; rewrite Z.div_mul by lia; lia).
  assert (128 <= q < 16384) as Hq' by (assert (1 <= b / 512) by (apply Z.div_le_lower_bound; lia); lia). split_and!; [lia..|done|]. unfold fixedPerFAT, u32.
  rewrite !Z.mul_1_l, (Z.mod_small b) by lia. fold q. rewrite (Z.mod_small (2 * 1)), (Z.mod_small (q + 2)), (Z.mod_small (t + _)), (Z.mod_small (q + 2 - 1)), Z.mod_small by lia.
  f_equal. lia.
Qed.

Definition sizeOk (opts : Options) : bool := (BlockCount opts =? 0) || geometryOk (blockSizeOf opts / 4) (BlockCount opts).

(** The plan: if [sizeOk], the table has an entry for each cluster, and exactly the blocks that the boot sector reserves for it. *)
Record planned (opts : Options) (root : Inode) (bs : bootSector) (fsi : fsinfo) (F : list Z) (t : Placed) (p : planningState) : Prop := {
  pl_place : placeRecursively false root (mkPlan [268435448; 268435455] (bsBlockSize bs)) = Ok (p, t);
  pl_dir : isDir (Attrs root) = true;
  pl_block : powerOfTwo (bsBlockSize bs) = true /\ 512 <= bsBlockSize bs < 65536;
  pl_fixed : BlocksPerCluster bs = 1 /\ ReservedBlocks bs = 8 /\ NumFATs bs = 2;
  pl_root : RootClusterNumber bs = u32 (startCluster t);
  pl_lens : length (JmpInstruction bs) = 3%nat /\ length (OEMName bs) = 8%nat /\ length (bsType bs) = 8%nat /\ bsSignature bs = [85; 170];
  pl_label : bsLabel bs = copy_ (replicate 11 32) (Label opts);
  pl_table : exists k, F = fat p ++ replicate k fatFree;
  pl_perFAT : tableBlocks (bsBlockSize bs) (len F) = if sizeOk opts then BlocksPerFAT bs else BlocksPerFAT bs - 1;
  pl_total : sizeOk opts = true -> TotalBlocks bs = 8 + 2 * BlocksPerFAT bs + (len F - 2);
  pl_small : TotalBlocks bs < 2 ^ 28;
  pl_alloc : len (fat p) < fatMask;
  pl_free : FreeCount fsi = len F - len (fat p);
  pl_fsi : length (LeadSignature fsi) = 4%nat /\ length (StructSignature fsi) = 4%nat /\ length (TrailingSignature fsi) = 2%nat
}.

(** The table that is written, if [n] entries were needed. *)
Lemma fixed_entries b t f n (g : bool) : 0 < b -> 0 <= n -> tableBlocks b (t - 6 - 2 * f) = (if g then f else f - 1) -> 6 + n + 2 * tableBlocks b n <= t ->
  tableBlocks b (Z.max (t - 6 - 2 * f) n) = (if g then f else f - 1) /\ (g = true -> Z.max (t - 6 - 2 * f) n = t - 6 - 2 * f).
Proof.
  intros Hb Hn Htab Hocc. destruct (Z.le_gt_cases n (t - 6 - 2 * f)) as [Hle|Hgt]; [by rewrite Z.max_l|].
  pose proof (clusters_mono b (4 * (t - 6 - 2 * f)) (4 * n) Hb ltac:(lia)). rewrite Z.max_r by lia. destruct g; [lia|]. split; [lia|done].
Qed.

Section prepare.
Context (rnd : option Z).

Lemma prepareFS_planned opts root bs fsi F t : prepareFS rnd opts root = Ok (bs, fsi, F, t) -> 0 <= BlockSize opts < 65536 -> 0 <= BlockCount opts ->
  TotalBlocks bs < 2 ^ 28 -> exists p, planned opts root bs fsi F t p.
Proof.
  unfold prepareFS. fold (blockSizeOf opts). set (b := blockSizeOf opts). fold (powerOfTwo b). intros E Hbs Hcnt Htot.
  destruct (powerOfTwo b) eqn:Hp; [|done]. destruct (Z.ltb_spec b 512) as [|Hb]; [done|]. cbn [negb] in E. apply bind_ok in E as (id & _ & E).
  assert (b < 65536) as Hb' by (subst b; unfold blockSizeOf; destruct (BlockSize opts =? 0); lia). destruct (isDir (Attrs root)) eqn:Hd; [|done].
  apply bind_ok in E as ([p t'] & Epl & E). destruct (Z.leb_spec fatMask (len (fat p))) as [|Hal]; [done|]. cbn [negb] in E. unfold fatMask in Hal. cbn [bsBlockSize initBootSector BlocksPerCluster MediaCode BlockSize ReservedBlocks NumFATs TotalBlocks] in E, Epl.
  change (Z.lor 268435200 248) with 268435448 in Epl. rewrite Z.mul_1_l in Epl. cbn [BlockCount] in E. set (F0 := fill minEntries (fat p)) in *.
  pose proof (fill_len minEntries (fat p)) as HF0. fold F0 in HF0. pose proof (len_nonneg (fat p)). assert (minEntries <= len F0 < 2 ^ 28) as HF by (unfold minEntries in *; lia).
  destruct (occupied_small b (len F0) ltac:(lia) HF) as (Ef & Eocc & Hf). rewrite Ef, Eocc in E. apply bind_ok in E as ([bs' F'] & E & [= <- <- <- <-]). exists p.
  assert (exists k, F0 = fat p ++ replicate k fatFree) as Hk by (unfold F0, fill; eauto).
  destruct (Z.eqb_spec (BlockCount opts) 0) as [E0|E0].
  - injection E as <- <-. assert (u32 (len F0 - len (fat p)) = len F0 - len (fat p)) by (apply Z.mod_small; unfold minEntries in *; lia).
    assert (sizeOk opts = true) as Hok by (unfold sizeOk; by rewrite E0). split; rewrite ?Hok; cbn; try done; lia.
  - destruct (Z.ltb_spec (BlockCount opts) (6 + len F0 + 2 * tableBlocks b (len F0))) as [|Hocc]; [done|]. cbn [negb] in E. injection E as <- <-. cbn in Htot.
    set (T := BlockCount opts) in *. unfold minEntries in HF. destruct (fixed_small b T Hp ltac:(lia) ltac:(lia)) as (Hq & Hbq & Hfx). rewrite Hfx. set (q := b / 4) in *.
    destruct (fixedPerFAT_bounds q T Hq ltac:(lia)) as (Hf1 & Hf2 & Hf3). pose proof (fixed_table q T Hq ltac:(lia)) as Htab. cbv zeta in Htab.
    assert (sizeOk opts = geometryOk q T) as Hok by (unfold sizeOk; fold b q T; by rewrite (proj2 (Z.eqb_neq _ _) E0)). rewrite <- Hbq in Htab. set (f := fixedPerFAT q T) in *.
    assert (u32 (u32 (u32 (T - 8) - u32 (2 * f)) - u32 (u32 (T - 8) - u32 (2 * f)) mod 1) / 1 + 2 = T - 6 - 2 * f) as Edb.
    { rewrite Z.mod_1_r, Z.sub_0_r, Z.div_1_r. unfold u32. rewrite (Z.mod_small (T - 8)), (Z.mod_small (2 * f)) by lia. do 2 rewrite (Z.mod_small (T - 8 - 2 * f)) by lia. lia. }
    rewrite Edb. destruct (fixed_entries b T f (len F0) (geometryOk q T) ltac:(lia) ltac:(lia) Htab Hocc) as [HFt HFl]. rewrite <- (fill_len (T - 6 - 2 * f) F0) in HFt, HFl.
    assert (u32 (len (fill (T - 6 - 2 * f) F0) - len (fat p)) = len (fill (T - 6 - 2 * f) F0) - len (fat p)) by (rewrite fill_len; apply Z.mod_small; lia).
    split; rewrite ?Hok; cbn; try done; try lia; [apply fill_fill|]. intros Hg. specialize (HFl Hg). lia.
Qed.

Lemma prepareFS_blockSize opts root bs fsi F t : prepareFS rnd opts root = Ok (bs, fsi, F, t) -> bsBlockSize bs = blockSizeOf opts.
Proof.
  unfold prepareFS. fold (blockSizeOf opts). destruct (_ =? 1); [|done]. destruct (blockSizeOf opts <? 512); [done|]. cbn [negb]. intros (id & _ & E)%bind_ok. destruct (isDir _); [|done].
  apply bind_ok in E as ([p t'] & _ & E). destruct (_ <=? _); [done|]. cbn [negb] in E. apply bind_ok in E as ([bs' F'] & E & [= <- _ _ _]).
  destruct (_ =? 0); [by injection E as <- _|]. destruct (_ <? _); [done|]. by injection E as <- _.
Qed.

End prepare.
End Fat32Geometry.
