(* ===== verification/Fat32Props.v ===== *)
(** * FAT32: what is written is read back

    The image [WriteFS] writes is a filesystem that a reader finds consistent, and in which it finds the tree that was
    written.  The theorems at the end show the inputs for which it is not. *)

From S2P Require Import Prelude Bytes Fat32Names Fat32 Fat32Dir Fat32Layout.
From Stdlib Require Import ZArith.

Module Fat32Props.
Import Bytes Fat32Names Fat32 Fat32Read Fat32Dir Fat32Layout Fat32Geometry.
Open Scope Z_scope.

Section props.
Context (upper : Z -> Z) (rnd : option Z) (seeker : bool) (old : Z -> Z).

(** ** Inodes that can be read back *)

Lemma okInode_spec n m c a cs ct : okInode upper (mkInode n m c a cs ct) = true ->
  okName upper n = true /\ okTime m = true /\ (between 0 255 a = true /\ Z.land a 8 = 0) /\ (isDir a = false -> 0 <= Size ct /\ cs = []) /\ Forall (fun i => okInode upper i = true) cs.
Proof.
  cbn [okInode]. rewrite !andb_true_iff, Z.eqb_eq, <- forallb_Forall_iff. intros (((((? & ?) & ?) & ?) & Hf) & ?). split_and!; [done..| |done].
  intros E. rewrite E in Hf. cbn [orb] in Hf. apply andb_true_iff in Hf as [Hs%Z.leb_le Hc]. split; [done|by destruct cs].
Qed.

Lemma okInode_child t : okInode upper (inode t) = true -> 0 <= startCluster t < 2 ^ 28 -> childOk upper t.
Proof.
  destruct t as [i start cs]. destruct i as [n m c a ch ct]. intros (Hn & Ht & Ha & Hf & _)%okInode_spec Hs. split; cbn in *; [done|done|done| |done]. intros E. by apply Hf.
Qed.

(** What is needed to write a node and to read it. *)
Record nodeOk (n : parent * Placed) : Prop := {
  n_parent : parentOk n.1;
  n_self : n.1 <> None -> childOk upper n.2;
  n_children : Forall (childOk upper) (placedChildren n.2);
  n_wf : Children (inode n.2) = inode <$> placedChildren n.2;
  n_file : isDir (Attrs (inode n.2)) = false -> 0 <= Size (Content (inode n.2)) /\ placedChildren n.2 = []
}.

Lemma orderedInodes_ok t : forall par, okInode upper (inode t) = true -> placedWf t -> Forall (fun n => 0 <= nodeStart n < 2 ^ 28) (orderedInodes par t) -> parentOk par ->
  Forall nodeOk (orderedInodes par t).
Proof.
  induction t as [i start cs IH] using Placed_tree_ind. intros par Hok [Hch Hwf%fold_right_and] Hst Hpar. cbn [orderedInodes] in *. apply Forall_cons in Hst as [Hself Hst]. cbn in Hself.
  pose proof Hok as Hok'. destruct i as [n m c a ch ct]. apply okInode_spec in Hok' as (_ & _ & _ & Hf & Hcs). cbn in Hch. subst ch.
  set (par' := Some (start, _)) in *. assert (parentOk par') as Hp' by done. clearbody par'. rewrite Forall_fmap in Hcs.
  assert (Forall (childOk upper) cs /\ Forall nodeOk (concat (orderedInodes par' <$> cs))) as [H1 H2].
  { clear Hok Hf Hself. induction IH as [|t cs Ht _ IHcs]; [by split; constructor|]. apply Forall_cons in Hwf as [W1 W2], Hcs as [C1 C2]. cbn [fmap list_fmap concat] in Hst.
    apply Forall_app in Hst as [S1 S2]. destruct (IHcs W2 S2 C2) as [I1 I2]. split; [constructor; [|done]|cbn; apply Forall_app_2; [|done]; by apply Ht].
    apply okInode_child; [done|]. destruct t. cbn [orderedInodes] in S1. by apply Forall_cons in S1 as [S1 _]. }
  constructor; [|done]. split; cbn; [done| |done|done|].
  - intros _. by apply okInode_child.
  - intros E. destruct (Hf E) as [? Hn]. split; [done|]. by apply fmap_nil_inv in Hn.
Qed.

Lemma nodeOk_length label n d s : labelOk label -> nodeOk n -> writeData upper label n.1 n.2 = Ok d -> nodeSize n s -> s = len d.
Proof.
  intros Hl [N1 N2 N3 N4 N5] Hw Hs. unfold nodeSize in Hs. destruct (isDir (Attrs (inode n.2))) eqn:Hd.
  - destruct (writeData_dir upper label n.1 n.2 d) as [H _]; [done..|]. by apply H.
  - destruct (N5 eq_refl) as [N5' _]. destruct (writeData_file upper label n.1 n.2 d Hd N5' Hw) as [_ ->]. unfold dataSize in Hs. rewrite Hd in Hs. by injection Hs.
Qed.

(** ** Reading a tree *)

Section tree.
Context (v : volume) (img : bytes) (bs : bootSector).
Hypothesis Hlabel : labelOk (bsLabel bs).

Lemma mapM_fmap_Some {A B C} (f : B -> option C) (h : A -> B) (g : A -> C) l : Forall (fun x => f (h x) = Some (g x)) l -> mapM f (h <$> l) = Some (g <$> l).
Proof. induction 1 as [|x l Hx _ IH]; [done|]. cbn. rewrite Hx. cbn. by rewrite IH. Qed.

(** The directory of a node lists its children. *)
Lemma node_dir n : nodeOk n -> readable v img upper bs n -> isDir (Attrs (inode n.2)) = true ->
  exists l, readData v img (startCluster n.2) = Some l /\ readDir l = Some (dentryAt <$> placedChildren n.2).
Proof.
  intros [N1 N2 N3 N4 N5] (d & slack & Hw & Hs & Hr) Hd. exists (d ++ slack). split; [done|]. destruct (writeData_dir upper (bsLabel bs) n.1 n.2 d) as [_ H]; [done..|]. by apply H.
Qed.

Lemma readTree_ok t : forall par fuel, Forall nodeOk (orderedInodes (Some par) t) -> Forall (readable v img upper bs) (orderedInodes (Some par) t) ->
  (depth (inode t) <= fuel)%nat -> readTree fuel v img (dentryAt t) = Some (view (inode t)).
Proof.
  induction t as [i start cs IH] using Placed_tree_ind. intros par fuel Hok Hr Hf. cbn [orderedInodes] in *. apply Forall_cons in Hok as [Hn Hok], Hr as [Hr1 Hr].
  destruct i as [n m c a ch ct]. cbn [inode depth] in Hf. destruct fuel as [|fuel]; [lia|]. cbn [readTree dentryAt dentryOf eStart eAttrs eName eTime eSize inode startCluster Attrs view].
  destruct (isDir a) eqn:Hd.
  - destruct (node_dir _ Hn Hr1 Hd) as (l & El & Edir). cbn [startCluster placedChildren snd] in El, Edir. rewrite El. cbn [mbind option_bind]. rewrite Edir. cbn [mbind option_bind].
    pose proof (n_wf _ Hn) as Hch. cbn in Hch. subst ch. rewrite (mapM_fmap_Some _ _ (view ∘ inode)).
    + cbn. by rewrite list_fmap_compose.
    + clear -IH Hok Hr Hf. induction IH as [|t cs Ht _ IHcs]; [constructor|]. cbn [fmap list_fmap concat foldr] in *. apply Forall_app in Hok as [O1 O2], Hr as [R1 R2].
      constructor; [eapply Ht; eauto; lia|]. apply IHcs; [done..|lia].
  - destruct Hr1 as (d & slack & Hw & _ & El). cbn [startCluster fst snd] in El, Hw. rewrite El. cbn [mbind option_bind]. destruct (n_file _ Hn Hd) as [Hs _]. cbn in Hs.
    destruct (writeData_file upper (bsLabel bs) (Some par) (mkPlaced (mkInode n m c a ch ct) start cs) d Hd Hs Hw) as [Ed Hl]. cbn [inode Content] in Ed, Hl. unfold sizeOf, dataSize. cbn [Attrs Content]. rewrite Hd.
    pose proof (len_nonneg slack). rewrite (proj2 (Z.leb_le _ _)) by (rewrite len_app; lia). rewrite <- Ed. do 2 f_equal. apply take_app_length'. unfold len in Hl. lia.
Qed.

End tree.
(** ** The image *)

Section image.
Context (opts : Options) (root : Inode) (bs : bootSector) (fsi : fsinfo) (F : list Z) (t : Placed) (p : planningState).
Hypothesis Hplan : planned opts root bs fsi F t p.
Hypothesis Hholes : seeker = false \/ forall x, old x = 0.

Hypothesis Hsize : sizeOk opts = true.

Let B := bsBlockSize bs.
Let V : volume := mkVolume B 1 8 2 (TotalBlocks bs) (BlocksPerFAT bs) (RootClusterNumber bs).

Lemma B_bounds : 512 <= B < 65536.
Proof. apply (pl_block _ _ _ _ _ _ _ Hplan). Qed.

Lemma perFAT_ok : BlocksPerFAT bs = tableBlocks B (len F).
Proof. unfold B. rewrite (pl_perFAT _ _ _ _ _ _ _ Hplan), Hsize. done. Qed.

Lemma total_ok : TotalBlocks bs = 8 + 2 * BlocksPerFAT bs + (len F - 2).
Proof. by apply (pl_total _ _ _ _ _ _ _ Hplan). Qed.

(** The table, padded to whole blocks. *)
Definition table : bytes := concat (le 4 <$> F) ++ zeros (Z.to_nat (padding B (4 * len F))).

Lemma table_len : len table = BlocksPerFAT bs * B.
Proof.
  pose proof B_bounds. pose proof (len_nonneg F). destruct (clusters_padding B (4 * len F)) as [Hp Hp']; [lia..|]. unfold table.
  rewrite len_app, len_zeros by lia. unfold len at 1. rewrite concat_le_length. rewrite perFAT_ok. unfold len in *. lia.
Qed.

Lemma encodeBootSector_len : len (encodeBootSector bs) = 512.
Proof.
  destruct Hplan as [_ _ _ _ _ (H1 & H2 & H3 & H4) HL _ _ _ _ _ _ _]. unfold len, encodeBootSector, zeros. rewrite !length_app, !le_length, !length_replicate, H1, H2, H3, H4, HL, copy_length. done.
Qed.

Lemma encodeFsinfo_len : len (encodeFsinfo fsi) = 512.
Proof. destruct (pl_fsi _ _ _ _ _ _ _ Hplan) as (H1 & H2 & H3). unfold len, encodeFsinfo, zeros. rewrite !length_app, !le_length, !length_replicate, H1, H2, H3. done. Qed.

(** A structure of 512 bytes in a block of its own. *)
Lemma block_len l out k : len l = 512 -> len out = k * B -> exists pad, FinishBlock seeker old B true (out ++ l) = out ++ l ++ pad /\ len (out ++ l ++ pad) = (k + 1) * B.
Proof.
  pose proof B_bounds. intros Hl Ho. rewrite FinishBlock_zeros by (lia || auto). eexists. split; [by rewrite <- app_assoc|]. rewrite !len_app, Ho, Hl, padding_add by lia.
  destruct (clusters_padding B 512) as [Hp Hp']; [lia..|]. rewrite len_zeros by lia. assert (clusters B 512 = 1) as E by (apply clusters_iff; lia). rewrite E in Hp. lia.
Qed.

Lemma writeReserved_len : exists r, writeReserved seeker old bs fsi [] = encodeBootSector bs ++ r /\ len (encodeBootSector bs ++ r) = 8 * B.
Proof.
  pose proof B_bounds. unfold writeReserved. fold B. destruct (block_len _ [] 0 encodeBootSector_len eq_refl) as (p1 & -> & L1). rewrite app_nil_l in *.
  destruct (block_len _ _ 1 encodeFsinfo_len L1) as (p2 & -> & L2). set (z := zeros (Z.to_nat B)). assert (len z = B) as Hz by (apply len_zeros; lia).
  assert (forall x, Nat.iter 4 (fun out => out ++ z) x = (((x ++ z) ++ z) ++ z) ++ z) as -> by done.
  set (out := (((_ ++ z) ++ z) ++ z) ++ z). assert (len out = 6 * B) as Ho by (subst out; rewrite !len_app, Hz in *; lia).
  destruct (block_len _ out 6 encodeBootSector_len Ho) as (p3 & -> & L3). destruct (block_len _ _ 7 encodeFsinfo_len L3) as (p4 & -> & L4).
  subst out. rewrite <- !app_assoc in *. eexists. split; [reflexivity|exact L4].
Qed.

Lemma writeFATs_ok out k : len out = k * B -> writeFATs seeker old bs F out = out ++ table ++ table.
Proof.
  pose proof B_bounds. intros Ho. unfold writeFATs. destruct (pl_fixed _ _ _ _ _ _ _ Hplan) as (_ & _ & ->). change (Z.to_nat 2) with 2%nat. fold B. assert (forall f (x : bytes), Nat.iter 2 f x = f (f x)) as -> by done.
  assert (forall out k, len out = k * B -> FinishBlock seeker old B true (out ++ concat (le 4 <$> F)) = out ++ table) as Hf.
  { intros o j Hj. rewrite FinishBlock_zeros by (lia || auto). unfold table. rewrite <- app_assoc, len_app, Hj, padding_add by lia. unfold len at 1. rewrite concat_le_length.
    do 5 f_equal. unfold len. lia. }
  rewrite (Hf _ _ Ho), (Hf _ (k + BlocksPerFAT bs)); [by rewrite <- app_assoc|]. rewrite len_app, table_len. lia.
Qed.

Lemma readBootSector_ok l : 0 <= TotalBlocks bs < 2 ^ 32 -> 0 <= BlocksPerFAT bs < 2 ^ 32 -> 0 <= RootClusterNumber bs < 2 ^ 32 -> readBootSector (encodeBootSector bs ++ l) = Some V.
Proof.
  pose proof B_bounds. intros HT HP HR. destruct Hplan as [_ _ _ (F1 & F2 & F3) _ (L1 & L2 & L3 & L4) L5 _ _ _ _ _ _ _].
  assert (encodeBootSector bs ++ l = (JmpInstruction bs ++ OEMName bs) ++ le 2 B ++ le 1 1 ++ le 2 8 ++ le 1 2 ++
    (zeros 4 ++ le 1 (MediaCode bs) ++ zeros 2 ++ le 2 (SectorsPerTrack bs) ++ le 2 (NumHeads bs) ++ le 4 (HiddenBlocks bs)) ++ le 4 (TotalBlocks bs) ++ le 4 (BlocksPerFAT bs) ++
    (le 2 (Flags bs) ++ zeros 2) ++ le 4 (RootClusterNumber bs) ++ (le 2 (FSInfoBlock bs) ++ le 2 (BackupStartBlock bs) ++ zeros 12 ++ le 1 (DriveNumber bs) ++
    zeros 1 ++ le 1 (BootSignature bs) ++ le 4 (bsID bs) ++ bsLabel bs ++ bsType bs ++ zeros 420) ++ [85; 170] ++ l) as ->.
  { unfold encodeBootSector. rewrite F1, F2, F3, L4. fold B. by rewrite <- !app_assoc. }
  unfold readBootSector. rewrite getBytes_app by (by rewrite length_app, L1, L2). rewrite getLE_app by (change (width 2) with 65536; lia). do 3 rewrite getLE_app by done.
  rewrite getBytes_app by done. do 2 rewrite getLE_app by done. rewrite getBytes_app by done. rewrite getLE_app by done.
  rewrite getBytes_app by (unfold zeros; rewrite !length_app, !le_length, !length_replicate, L3, L5, copy_length; done). rewrite getBytes_app by done. done.
Qed.

(** The table in the image. *)
Lemma entryOf_ok out rest : len out = 8 * B -> forall c x, 0 <= c -> F !! Z.to_nat c = Some x -> 0 <= x < 2 ^ 28 -> entryOf V (out ++ table ++ rest) c = x.
Proof.
  intros Ho c x Hc Hx Hb. apply list_elem_of_split_length in Hx as (l1 & l2 & HF & Hl). unfold entryOf. cbn [vReserved vBlock V].
  assert (out ++ table ++ rest = (out ++ concat (le 4 <$> l1)) ++ le 4 x ++ (concat (le 4 <$> l2) ++ zeros (Z.to_nat (padding B (4 * len F))) ++ rest)) as ->.
  { unfold table. rewrite HF at 1. rewrite fmap_app, concat_app. cbn [fmap list_fmap concat]. by rewrite <- !app_assoc. }
  assert (len (out ++ concat (le 4 <$> l1)) = 8 * B + 4 * c) as <- by (rewrite len_app, Ho; unfold len; rewrite concat_le_length; lia).
  rewrite sub_app by (unfold len; by rewrite le_length). rewrite unle_le by (change (width 4) with (2 ^ 32); lia). change 268435455 with (Z.ones 28). rewrite Z.land_ones by lia.
  apply Z.mod_small. lia.
Qed.

Lemma fatCopy_ok out rest : len out = 8 * B -> forall k, k = 0 \/ k = 1 -> fatCopy V (out ++ table ++ table ++ rest) k = table.
Proof.
  intros Ho k Hk. unfold fatCopy. cbn [vReserved vBlock vPerFAT V]. rewrite <- table_len. destruct Hk as [->| ->].
  - replace ((8 + 0 * BlocksPerFAT bs) * B) with (len out) by lia. by apply sub_app.
  - rewrite app_assoc. replace ((8 + 1 * BlocksPerFAT bs) * B) with (len (out ++ table)) by (rewrite len_app, table_len; lia). by apply sub_app.
Qed.

Lemma allocAll_starts sizes q q' starts : allocAll sizes q = (q', starts) -> Forall (fun s => 0 <= s <= len (fat q')) starts.
Proof.
  revert q starts. induction sizes as [|s sizes IH]; intros q starts; cbn [allocAll]; [intros [= <- <-]; constructor|].
  destruct (allocBytes s q) as [q1 st] eqn:E. destruct (allocAll sizes q1) as [q2 sts] eqn:Eq. intros [= <- <-]. constructor; [|by apply (IH _ _ Eq)].
  apply allocAll_prefix in Eq as [r ->]. unfold allocBytes in E. destruct (s =? 0); injection E as <- <-; cbn [fat]; rewrite !len_app; pose proof (len_nonneg r); pose proof (len_nonneg (fat q)); [lia|].
  pose proof (len_nonneg (u32 <$> seqZ (len (fat q) + 1) ((s + clusterSize q - 1) / clusterSize q - 1))). change (len [fatEOF]) with 1. lia.
Qed.

(** The nodes of the tree: the root is at cluster 2, and all of them can be written. *)
Lemma nodes_ok : okInode upper root = true -> startCluster t = 2 /\ Forall nodeOk (orderedInodes None t) /\ inode t = root /\ allocated (orderedInodes None t) (mkPlan [268435448; 268435455] B) p.
Proof.
  intros Hok. pose proof (pl_place _ _ _ _ _ _ _ Hplan) as Hpl. fold B in Hpl. destruct (place_allocated _ _ _ _ _ Hpl) as (Hi & Hwf & Ha). specialize (Ha None eq_refl).
  pose proof (pl_small _ _ _ _ _ _ _ Hplan) as Hsm. pose proof total_ok as Ht. destruct (pl_table _ _ _ _ _ _ _ Hplan) as [k HF]. pose proof B_bounds.
  assert (0 <= BlocksPerFAT bs) as HP by (rewrite perFAT_ok; apply Z.div_pos; pose proof (len_nonneg F); lia).
  assert (len (fat p) <= len F) as Hle by (rewrite HF, len_app; pose proof (len_nonneg (replicate k fatFree)); lia).
  split_and!; [| |done|done].
  - destruct Ha as (sizes & E & Hs). destruct t as [i st cs]. cbn [orderedInodes] in *. apply Forall2_cons_inv_l in Hs as (s & sizes' & Hsz & _ & ->). cbn in Hi. subst i.
    unfold nodeSize, dataSize in Hsz. cbn in Hsz. rewrite (pl_dir _ _ _ _ _ _ _ Hplan) in Hsz. apply bind_ok in Hsz as (s' & Hm%metaSizes_mono & Hg). destruct (_ <? _); [done|]. injection Hg as ->.
    cbn [allocAll] in E. rewrite allocBytes_spec in E by (cbn; lia). rewrite (proj2 (Z.eqb_neq _ _)) in E by lia. destruct (allocAll sizes' _). injection E as _ Hst _. symmetry. exact Hst.
  - apply orderedInodes_ok; [by rewrite Hi|done| |done]. destruct Ha as (sizes & E & _). apply allocAll_starts in E. rewrite Forall_fmap in E. eapply Forall_impl; [exact E|].
    unfold compose. intros n. cbn. lia.
Qed.

Lemma label_ok : hd 32 (Label opts) <> 0 -> labelOk (bsLabel bs).
Proof.
  intros Hl. rewrite (pl_label _ _ _ _ _ _ _ Hplan). split; [by rewrite copy_length|]. unfold copy_. destruct (Label opts); done.
Qed.

Lemma geometry_ok : 0 <= BlocksPerFAT bs /\ firstData V = 8 + 2 * BlocksPerFAT bs /\ clusterCount V = len F - 2 /\ len (fat p) <= len F <= 268435448 /\ 4 * len F <= BlocksPerFAT bs * B.
Proof.
  pose proof B_bounds as HB. pose proof perFAT_ok as HP. pose proof total_ok as HT. destruct Hplan as [_ _ _ _ _ _ _ [k HF] _ _ Hsm _ _ _]. pose proof (len_nonneg F) as HF0.
  assert (0 <= BlocksPerFAT bs) as HP0 by (rewrite HP; apply Z.div_pos; lia). destruct (clusters_padding B (4 * len F)) as [Hp1 Hp2]; [lia..|].
  pose proof (len_nonneg (replicate k fatFree)) as Hk0. assert (len F <= 0 \/ 1 <= BlocksPerFAT bs) by (rewrite HP; nia). split_and!; [done|done| | |lia|rewrite HP; lia].
  - unfold clusterCount. change (firstData V) with (8 + 2 * BlocksPerFAT bs). cbn. rewrite Z.div_1_r. lia.
  - rewrite HF at 1. rewrite len_app. lia.
Qed.

(** Where everything is. *)
Lemma image_layout out : okInode upper root = true -> hd 32 (Label opts) <> 0 ->
  writeInodes upper seeker old bs (orderedInodes None t) (writeFATs seeker old bs F (writeReserved seeker old bs fsi [])) = Ok out ->
  let img := FinishBlock seeker old (bsBlockSize bs * TotalBlocks bs) false out in
  (exists r rest, img = (encodeBootSector bs ++ r) ++ table ++ table ++ rest /\ len (encodeBootSector bs ++ r) = 8 * B) /\
  Forall (readable V img upper bs) (orderedInodes None t) /\ len img = TotalBlocks bs * B.
Proof.
  intros Hok Hl Hw img. pose proof B_bounds as HB. destruct (nodes_ok Hok) as (_ & Hnodes & _ & Hall). destruct writeReserved_len as (r & Er & Lr). rewrite Er, (writeFATs_ok _ 8) in Hw by done.
  set (out0 := encodeBootSector bs ++ r) in *. destruct geometry_ok as (HP0 & Hfd & Hcc & Hpf & _). pose proof total_ok as HT. destruct (pl_table _ _ _ _ _ _ _ Hplan) as [k HF].
  assert (bsBlockSize bs = vBlock V /\ BlocksPerCluster bs = 1) as Hbs by (split; [done|apply Hplan]).
  destruct (writeInodes_prefix V ltac:(cbn; lia) upper seeker old bs Hholes Hbs _ _ _ Hw) as [data Hdata].
  assert (2 <= len (fat p)) as H2.
  { destruct Hall as (sz & E & _). apply allocAll_prefix in E as [r' ->]. rewrite len_app. pose proof (len_nonneg r'). change (len (fat _)) with 2. lia. }
  assert (img = out ++ zeros (Z.to_nat (padding (B * TotalBlocks bs) (len out)))) as Himg by (subst img; rewrite FinishBlock_zeros by (tauto || nia); done).
  assert (exists rest, img = out0 ++ table ++ table ++ rest) as [rest Hrest] by (rewrite Himg, Hdata, <- !app_assoc; eauto).
  assert (Forall (readable V img upper bs) (orderedInodes None t) /\ len out = clusterOff V (len (fat p))) as [Hread Hlen].
  { apply (writeInodes_readable V img F) with (seeker := seeker) (old := old) (p := mkPlan [268435448; 268435455] B) (out := out0 ++ table ++ table) (rest := zeros (Z.to_nat (padding (B * TotalBlocks bs) (len out)))) (post := replicate k fatFree); try done; try (cbn; lia).
    - intros c x Hc Hx Hb. rewrite Hrest. by apply entryOf_ok.
    - eapply Forall_impl; [exact Hnodes|]. intros n Hn d s Hd Hs. by apply (nodeOk_length (bsLabel bs) n d s (label_ok Hl) Hn).
    - rewrite !len_app, table_len, Lr. unfold clusterOff. rewrite Hfd. change (len (fat _)) with 2. change (vBlock V) with B. lia. }
  split_and!; [eauto|done|]. assert (clusterOff V (len (fat p)) = (TotalBlocks bs - len F + len (fat p)) * B) as Ho by (unfold clusterOff; rewrite Hfd, HT; cbn; ring).
  assert (0 < B * TotalBlocks bs) as Hpos by nia. destruct (clusters_padding (B * TotalBlocks bs) (len out)) as [Hp1 Hp2]; [done|apply len_nonneg|].
  rewrite Himg, len_app, len_zeros, Hp1 by lia. assert (clusters (B * TotalBlocks bs) (len out) = 1) as -> by (apply clusters_iff; [done|]; rewrite Hlen, Ho; nia). lia.
Qed.

Lemma image_reads out fuel : okInode upper root = true -> hd 32 (Label opts) <> 0 -> (depth root <= S fuel)%nat ->
  writeInodes upper seeker old bs (orderedInodes None t) (writeFATs seeker old bs F (writeReserved seeker old bs fsi [])) = Ok out ->
  let img := FinishBlock seeker old (bsBlockSize bs * TotalBlocks bs) false out in
  len img = TotalBlocks bs * B /\ readFS fuel img = Some (view <$> Children root).
Proof.
  intros Hok Hl Hdep Hw img. destruct (image_layout out Hok Hl Hw) as ((r & rest & Hrest & Lr) & Hread & Hlimg). fold img in Hrest, Hread, Hlimg. clearbody img. split; [done|].
  pose proof B_bounds as HB. destruct (nodes_ok Hok) as (Hst & Hnodes & Hi & _). destruct geometry_ok as (HP0 & Hfd & Hcc & Hpf & H4). pose proof total_ok as HT. pose proof (len_nonneg F).
  pose proof (pl_root _ _ _ _ _ _ _ Hplan) as Hroot. rewrite Hst in Hroot. change (u32 2) with 2 in Hroot. pose proof (pl_small _ _ _ _ _ _ _ Hplan).
  unfold readFS. assert (readBootSector img = Some V) as -> by (rewrite Hrest, <- app_assoc; apply readBootSector_ok; lia). cbn [mbind option_bind].
  assert (consistent V img = true) as ->.
  { unfold consistent. rewrite Hlimg, Hcc, !andb_true_iff, Z.eqb_eq, Z.leb_le, forallb_Forall_iff, Forall_forall. cbn [vTotal vBlock vPerFAT V vNumFATs]. split_and!; [done|lia|].
    intros x Hx%elem_of_seqZ. apply bool_decide_eq_true_2. rewrite Hrest, !fatCopy_ok by (done || lia). done. }
  pose proof (pl_dir _ _ _ _ _ _ _ Hplan) as Hdir. pose proof (label_ok Hl) as Hlab. clear Hrest Hlimg. destruct t as [i st cs] eqn:Et. cbn in Hst, Hi. subst st i. cbn [orderedInodes] in Hnodes, Hread. apply Forall_cons in Hnodes as [Hn Hnodes], Hread as [Hr Hread].
  destruct (node_dir V img bs Hlab _ Hn Hr Hdir) as (l & El & Edir). cbn [startCluster placedChildren snd] in El, Edir. cbn [vRoot V]. rewrite Hroot, El. cbn [mbind option_bind].
  rewrite Edir. cbn [mbind option_bind]. pose proof (n_wf _ Hn) as Hch. cbn in Hch. rewrite (mapM_fmap_Some _ _ (view ∘ inode)); [by rewrite Hch, list_fmap_compose|].
  assert (Forall (fun c => (depth (inode c) <= fuel)%nat) cs) as Hd.
  { clear -Hdep Hch. destruct root as [n m c a ch ct]. cbn in Hch, Hdep. subst ch. apply le_S_n in Hdep. induction cs as [|c0 cs IH]; [constructor|]. cbn in Hdep. constructor; [lia|apply IH; lia]. }
  clear -Hd Hnodes Hread Hlab. induction Hd as [|c cs Hc _ IH]; [constructor|]. cbn [fmap list_fmap concat] in *. apply Forall_app in Hnodes as [N1 N2], Hread as [R1 R2].
  constructor; [by apply (readTree_ok V img bs Hlab c (2, true) fuel)|by apply IH].
Qed.

End image.
(** ** The table *)

Lemma allocAll_used sizes q q' starts : allocAll sizes q = (q', starts) -> len (fat q') < 2 ^ 32 -> Forall (fun e => e <> fatFree) (fat q) -> Forall (fun e => e <> fatFree) (fat q').
Proof.
  revert q starts. induction sizes as [|s sizes IH]; intros q starts; cbn [allocAll]; [by intros [= <- <-]|].
  destruct (allocBytes s q) as [q1 st] eqn:E. destruct (allocAll sizes q1) as [q2 sts] eqn:Eq. intros [= <- <-] Hl Hq. apply (IH _ _ Eq Hl). clear IH.
  apply allocAll_prefix in Eq as [r Hr]. unfold allocBytes in E. destruct (s =? 0); injection E as <- _; [done|]. cbn [fat] in *. apply Forall_app_2; [done|].
  apply Forall_app_2; [|by apply Forall_singleton]. apply Forall_fmap, Forall_forall. intros x Hx%elem_of_seqZ. unfold compose, u32, fatFree. pose proof (len_nonneg (fat q)).
  rewrite Hr, !len_app in Hl. pose proof (len_nonneg r). unfold len at 2 in Hl. rewrite length_fmap, length_seqZ in Hl. change (len [fatEOF]) with 1 in Hl. rewrite Z.mod_small; lia.
Qed.

Lemma filter_free k : length (filter (fun e => e = fatFree) (replicate k fatFree)) = k.
Proof. induction k as [|k IH]; [done|]. cbn [replicate]. rewrite filter_cons_True by done. cbn. by rewrite IH. Qed.

(** The number of free clusters is that of the free entries. *)
Lemma freeCount_ok opts root bs fsi F t p : planned opts root bs fsi F t p -> len (filter (fun e => e = fatFree) F) = FreeCount fsi.
Proof.
  intros [Hpl _ _ _ _ _ _ [k ->] _ _ _ Hlt -> _]. unfold fatMask in Hlt. destruct (place_allocated _ _ _ _ _ Hpl) as (_ & _ & Ha). destruct (Ha None eq_refl) as (sizes & E & _).
  apply allocAll_used in E; [|lia|by repeat (constructor; [done|])]. rewrite filter_app, !len_app. assert (filter (fun e => e = fatFree) (fat p) = []) as -> by (clear -E; induction E as [|x l Hx _ IH]; [done|rewrite filter_cons_False by done; exact IH]).
  unfold len. rewrite filter_free, length_replicate. cbn. lia.
Qed.

(** C27: the size of the allocation tables that are written, on every valid input of less than 2^28 blocks.  If the number of blocks is left open, each table takes the
    blocks that the boot sector gives; for a given number of blocks this holds just if the number plus 2 is not 1 to 10 above a multiple of
    the entries of a block plus 2.  For the others each table is one block too short, so that the second table and the data are
    not where the boot sector says.  The count of free clusters is right in any case. *)
Theorem table_fits opts root bs fsi F t out k : prepareFS rnd opts root = Ok (bs, fsi, F, t) -> 0 <= BlockSize opts < 65536 -> 0 <= BlockCount opts -> TotalBlocks bs < 2 ^ 28 ->
  len out = k * bsBlockSize bs ->
  len (writeFATs seeker old bs F out) = (k + 2 * (if sizeOk opts then BlocksPerFAT bs else BlocksPerFAT bs - 1)) * bsBlockSize bs /\
  len (filter (fun e => e = fatFree) F) = FreeCount fsi.
Proof.
  intros E Hb Hc Ht Ho. destruct (prepareFS_planned rnd opts root bs fsi F t E Hb Hc Ht) as [p Hplan]. split.
  - destruct Hplan as [_ _ (_ & HB) (_ & _ & HN) _ _ _ _ HP _ _ _ _ _]. rewrite <- HP. unfold writeFATs. rewrite HN. set (B := bsBlockSize bs) in *.
    assert (forall o j, len o = j * B -> len (FinishBlock seeker old B true (o ++ concat (le 4 <$> F))) = (j + tableBlocks B (len F)) * B) as Hf.
    { intros o j Hj. pose proof (len_nonneg F). destruct (clusters_padding B (4 * len F)) as [Hp1 Hp2]; [lia..|]. rewrite FinishBlock_zeros by (lia || auto).
      assert (len (concat (le 4 <$> F)) = 4 * len F) as Hl by (unfold len; rewrite concat_le_length; lia). rewrite !len_app, Hj, Hl, padding_add, len_zeros by lia. lia. }
    change (Z.to_nat 2) with 2%nat. assert (forall f (x : bytes), Nat.iter 2 f x = f (f x)) as -> by done. rewrite (Hf _ (k + tableBlocks B (len F))) by (by apply Hf). lia.
  - by apply (freeCount_ok _ _ _ _ _ _ _ Hplan).
Qed.

(** C6: what [WriteFS] writes can be read back.  For a tree whose names are valid (and have no character that makes a short
    name look deleted), whose files have no children and whose attributes are those of the package, written to a new file, or one that cannot be seeked,
    with a label that does not begin with a zero, fewer than 2^28 blocks of less than 64 KiB, and a number of blocks for which the table fits, if [WriteFS]
    returns no error: the image has the size that [SizeFS] gives, and a reader that takes the geometry from
    the boot sector, checks that the image is consistent, follows the chains in the allocation table and verifies the long names finds the tree that was
    written, with names, attributes, times to two seconds, and contents. *)
Theorem fat32_roundtrip root opts n img fuel :
  seeker = false \/ (forall x, old x = 0) -> okInode upper root = true -> 0 <= BlockSize opts < 65536 -> 0 <= BlockCount opts -> hd 32 (Label opts) <> 0 -> sizeOk opts = true ->
  SizeFS rnd root opts = Ok n -> n < 2 ^ 28 -> (depth root <= S fuel)%nat -> WriteFS upper rnd seeker old root opts = Ok img ->
  len img = n * blockSizeOf opts /\ readFS fuel img = Some (view <$> Children root).
Proof.
  intros Hholes Hok Hb Hc Hl Hs Hn Hlt Hd Hw. unfold SizeFS, WriteFS in *. apply bind_ok in Hn as ([[[bs fsi] F] t] & E & [= <-]). rewrite E in Hw. cbn [mbind result_bind] in Hw.
  destruct (prepareFS_planned rnd opts root bs fsi F t E Hb Hc Hlt) as [p Hplan]. apply bind_ok in Hw as (out & Hw & Himg). injection Himg as <-.
  destruct (image_reads opts root bs fsi F t p Hplan Hholes Hs out fuel Hok Hl Hd Hw) as [H1 H2]. split; [|done]. rewrite H1. f_equal. by apply prepareFS_blockSize in E.
Qed.

End props.
End Fat32Props.

(** * FAT32: building a tree

    Models [Inode.PlaceFile] of [osbase/fat32/fat32.go].  [fold] is Unicode case folding, a table of Go's [unicode]
    package: names are equal to [strings.EqualFold] if they are the same when folded. *)

Module Fat32Place.
Import Bytes Fat32Names Fat32 Fat32Read Fat32Dir Fat32Layout Fat32Props.
Open Scope Z_scope.

(** Go's zero time. *)
Definition zeroTime : Time := mkTime 1 1 1 0 0 0 0.

Definition setChildren (i : Inode) (cs : list Inode) : Inode := let 'mkInode n m c a _ ct := i in mkInode n m c a cs ct.

Section place.
Context (fold : Z -> Z).

Definition equalFold (s t : list Z) : bool := bool_decide (fold <$> s = fold <$> t).

(** The first child of that name. *)
Fixpoint findChild (part : list Z) (cs : list Inode) : option nat :=
  match cs with
  | [] => None
  | c :: cs => if equalFold (Name c) part then Some O else S <$> findChild part cs
  end.

(** The parts of the path ([strings.Split] returns at least one); the file exists if there is no result. *)
Fixpoint PlaceFile (pathParts : list (list Z)) (i : Inode) (reader : content) : option Inode :=
  match pathParts with
  | [] => None
  | part :: rest =>
      match findChild part (Children i), rest with
      | Some _, [] => None
      | None, [] => Some (setChildren i (Children i ++ [mkInode part zeroTime zeroTime 0 [] reader]))
      | Some k, _ =>
          child ← Children i !! k;
          child ← PlaceFile rest child reader;
          Some (setChildren i (<[k := child]> (Children i)))
      | None, _ =>
          child ← PlaceFile rest (mkInode part zeroTime zeroTime AttrDirectory [] (mkContent [] 0)) reader;
          Some (setChildren i (Children i ++ [child]))
      end
  end.

(** What is at a path. *)
Fixpoint lookupPath (path : list (list Z)) (i : Inode) : option Inode :=
  match path with
  | [] => Some i
  | part :: rest => k ← findChild part (Children i); child ← Children i !! k; lookupPath rest child
  end.

(** The same but for its children. *)
Definition sameNode (i j : Inode) : Prop := Name i = Name j /\ ModTime i = ModTime j /\ Attrs i = Attrs j /\ Content i = Content j.

Lemma setChildren_same i cs : sameNode i (setChildren i cs) /\ Children (setChildren i cs) = cs.
Proof. by destruct i. Qed.

Lemma findChild_Some part cs k : findChild part cs = Some k -> exists c, cs !! k = Some c /\ equalFold (Name c) part = true.
Proof.
  revert k. induction cs as [|c cs IH]; intros k; cbn; [done|]. destruct (equalFold (Name c) part) eqn:E; [intros [= <-]; eauto|].
  destruct (findChild part cs) as [k'|]; [|done]. cbn. intros [= <-]. by apply IH.
Qed.

(** The children are found by their names. *)
Lemma findChild_names part cs cs' : Name <$> cs = Name <$> cs' -> findChild part cs = findChild part cs'.
Proof.
  revert cs'. induction cs as [|c cs IH]; intros [|c' cs'] H; try done. cbn in *. injection H as Hc Hcs. by rewrite Hc, (IH _ Hcs).
Qed.

Lemma findChild_insert part cs k c c' : cs !! k = Some c -> Name c' = Name c -> findChild part (<[k := c']> cs) = findChild part cs.
Proof. intros Hk Hn. apply findChild_names. by rewrite list_fmap_insert, list_insert_id; [|by rewrite list_lookup_fmap, Hk, Hn]. Qed.

Lemma findChild_app part cs c : findChild part (cs ++ [c]) =
  match findChild part cs with Some k => Some k | None => if equalFold (Name c) part then Some (length cs) else None end.
Proof.
  induction cs as [|c0 cs IH]; cbn; [by destruct (equalFold (Name c) part)|]. destruct (equalFold (Name c0) part); [done|]. rewrite IH.
  destruct (findChild part cs); [done|]. by destruct (equalFold (Name c) part).
Qed.

Lemma PlaceFile_same path i reader i' : PlaceFile path i reader = Some i' -> sameNode i i'.
Proof.
  destruct path as [|part rest]; [done|]. cbn. destruct (findChild part (Children i)) as [k|], rest as [|r rest]; try done.
  - destruct (Children i !! k); [|done]. cbn [mbind option_bind]. destruct (PlaceFile _ _ _); [|done]. intros [= <-]. apply setChildren_same.
  - intros [= <-]. apply setChildren_same.
  - cbn [mbind option_bind]. destruct (PlaceFile _ _ _); [|done]. intros [= <-]. apply setChildren_same.
Qed.

Lemma equalFold_refl s : equalFold s s = true.
Proof. by apply bool_decide_eq_true_2. Qed.

(** Nothing on the way to a path is a file. *)
Fixpoint dirsOnly (path : list (list Z)) (i : Inode) : bool :=
  match path with
  | [] => true
  | part :: rest =>
      match rest, k ← findChild part (Children i); Children i !! k with
      | _ :: _, Some c => isDir (Attrs c) && dirsOnly rest c
      | _, _ => true
      end
  end.

(** A child is replaced. *)
Lemma lookup_replace i k part c c' : findChild part (Children i) = Some k -> Children i !! k = Some c -> sameNode c c' ->
  (forall q x, lookupPath q c = Some x -> exists x', lookupPath q c' = Some x' /\ sameNode x x') ->
  let i' := setChildren i (<[k := c']> (Children i)) in
  (forall rest, lookupPath (part :: rest) i' = lookupPath rest c') /\
  (forall q x, lookupPath q i = Some x -> exists x', lookupPath q i' = Some x' /\ sameNode x x').
Proof.
  intros Hf Hk Hs Hq i'. destruct (setChildren_same i (<[k := c']> (Children i))) as [Hsame Hch]. fold i' in Hsame, Hch.
  assert (forall p, findChild p (Children i') = findChild p (Children i)) as Hfc by (intros p; rewrite Hch; by apply (findChild_insert _ _ _ c); [|symmetry; apply Hs]).
  pose proof (lookup_lt_Some _ _ _ Hk) as Hlt. split.
  - intros rest. cbn [lookupPath]. rewrite Hfc, Hf. cbn [mbind option_bind]. by rewrite Hch, list_lookup_insert_eq.
  - intros [|p q] x; cbn [lookupPath]; [intros [= <-]; eauto|]. rewrite Hfc. destruct (findChild p (Children i)) as [k'|]; [|done]. cbn [mbind option_bind]. rewrite Hch.
    destruct (decide (k = k')) as [<-|Hne]; [rewrite list_lookup_insert_eq, Hk by done; apply Hq|]. rewrite list_lookup_insert_ne by done. intros Hx. exists x. split; [done|]. by split_and!.
Qed.

(** A child is added. *)
Lemma lookup_add i part c' : findChild part (Children i) = None -> equalFold (Name c') part = true ->
  let i' := setChildren i (Children i ++ [c']) in
  (forall rest, lookupPath (part :: rest) i' = lookupPath rest c') /\
  (forall q x, lookupPath q i = Some x -> exists x', lookupPath q i' = Some x' /\ sameNode x x').
Proof.
  intros Hf He i'. destruct (setChildren_same i (Children i ++ [c'])) as [Hsame Hch]. fold i' in Hsame, Hch. split.
  - intros rest. cbn [lookupPath]. rewrite Hch, findChild_app, Hf, He. cbn [mbind option_bind]. by rewrite lookup_app_r, Nat.sub_diag.
  - intros [|p q] x; cbn [lookupPath]; [intros [= <-]; eauto|]. rewrite Hch, findChild_app. destruct (findChild p (Children i)) as [k|] eqn:Ek; [|done]. cbn [mbind option_bind].
    destruct (findChild_Some _ _ _ Ek) as (c & Hc & _). rewrite lookup_app_l by (by eapply lookup_lt_Some). intros Hx. exists x. split; [done|]. by split_and!.
Qed.

Section ok.
Context (upper : Z -> Z).

Lemma okInode_children i cs : okInode upper i = true -> isDir (Attrs i) = true -> Forall (fun c => okInode upper c = true) cs -> okInode upper (setChildren i cs) = true.
Proof.
  destruct i as [n m c a ch ct]. cbn. rewrite !andb_true_iff. intros ((((H1 & H2) & H3) & _) & _) Hd Hcs. rewrite Hd. destruct H1 as [H0 H1]. split_and!; try done. by apply forallb_Forall_iff.
Qed.

Lemma okInode_new part attrs ct : okName upper part = true -> attrs = AttrDirectory \/ (attrs = 0 /\ 0 <= Size ct) -> okInode upper (mkInode part zeroTime zeroTime attrs [] ct) = true.
Proof.
  intros Hn Ha. cbn [okInode]. rewrite Hn. destruct Ha as [->|[-> Hs]]; [done|]. cbn. by rewrite (proj2 (Z.leb_le _ _) Hs).
Qed.

(** [PlaceFile] puts a file at a path: it fails just if something is there already; otherwise the path then leads to a file with that content, and
    everything that was there still is, with its name, time, attributes and content.  If nothing on the way is a file, the tree
    remains one that can be written and read back. *)
Theorem PlaceFile_correct path i reader : path <> [] ->
  (PlaceFile path i reader = None <-> is_Some (lookupPath path i)) /\
  forall i', PlaceFile path i reader = Some i' ->
    (exists f, lookupPath path i' = Some f /\ Content f = reader /\ isDir (Attrs f) = false /\ Some (Name f) = last path) /\
    (forall q x, lookupPath q i = Some x -> exists x', lookupPath q i' = Some x' /\ sameNode x x') /\
    (okInode upper i = true -> isDir (Attrs i) = true -> Forall (fun part => okName upper part = true) path -> 0 <= Size reader -> dirsOnly path i = true -> okInode upper i' = true).
Proof.
  revert i. induction path as [|part rest IH]; intros i; [done|]. intros _. cbn [PlaceFile]. destruct (findChild part (Children i)) as [k|] eqn:Ek.
  - destruct (findChild_Some _ _ _ Ek) as (c & Hc & _). destruct rest as [|r rest].
    { cbn [lookupPath]. rewrite Ek. cbn [mbind option_bind]. rewrite Hc. done. }
    set (path := r :: rest) in *. assert (path <> []) as Hne by done. clearbody path. destruct (IH c Hne) as [IH1 IH2]. rewrite Hc. cbn [lookupPath mbind option_bind]. rewrite Ek. cbn [mbind option_bind]. rewrite Hc. cbn [mbind option_bind].
    destruct (PlaceFile path c reader) as [c'|] eqn:Ep; cbn [mbind option_bind]; [|split; [tauto|done]]. split; [rewrite <- IH1; done|]. intros i' [= <-].
    destruct (IH2 c' eq_refl) as ((f & Hf & Hf') & Hq & Hok). apply PlaceFile_same in Ep. destruct (lookup_replace i k part c c' Ek Hc Ep Hq) as [L1 L2]. split_and!.
    + exists f. cbn [lookupPath] in L1. rewrite L1. split; [done|]. destruct path; [done|exact Hf'].
    + exact L2.
    + intros Ho Hd [Hn Hns]%Forall_cons Hs Hdo. destruct path as [|r' path']; [done|]. cbn [dirsOnly] in Hdo. rewrite Ek in Hdo. cbn [mbind option_bind] in Hdo. rewrite Hc in Hdo.
      apply andb_true_iff in Hdo as [Hcd Hdo]. pose proof Ho as Ho'. destruct i as [n m ct0 a ch ct]. apply okInode_spec in Ho' as (_ & _ & _ & _ & Hcs). cbn in Hc. apply okInode_children; [done|done|].
      apply Forall_insert; [done|]. apply Hok; [|done|done|done|done]. rewrite Forall_forall in Hcs. apply Hcs. by eapply list_elem_of_lookup_2.
  - assert (forall c', okInode upper i = true -> isDir (Attrs i) = true -> okInode upper c' = true -> okInode upper (setChildren i (Children i ++ [c'])) = true) as Hadd.
    { intros c' Ho Hd Hc'. apply okInode_children; [done|done|]. apply Forall_app_2; [|by apply Forall_singleton]. destruct i as [n m ct0 a ch ct]. by apply okInode_spec in Ho as (_ & _ & _ & _ & Hcs). }
    destruct rest as [|r rest].
    { cbn [lookupPath]. rewrite Ek. split; [split; [done|by intros [? ?]]|]. intros i' [= <-]. destruct (lookup_add i part (mkInode part zeroTime zeroTime 0 [] reader) Ek (equalFold_refl _)) as [L1 L2].
      specialize (L1 []). cbn [lookupPath] in L1. split_and!; [eexists; split; [exact L1|done]|exact L2|]. intros Ho Hd [Hn _]%Forall_cons Hs _. apply Hadd; [done|done|]. apply okInode_new; auto. }
    set (path := r :: rest) in *. assert (path <> []) as Hne by done. set (d := mkInode part zeroTime zeroTime AttrDirectory [] (mkContent [] 0)). destruct (IH d Hne) as [IH1 IH2].
    assert (lookupPath path d = None) as Hnone by done. clearbody path. cbn [lookupPath]. rewrite Ek. cbn [mbind option_bind]. destruct (PlaceFile path d reader) as [c'|] eqn:Ep; cbn [mbind option_bind].
    + split; [split; [done|by intros [? ?]]|]. intros i' [= <-]. destruct (IH2 c' eq_refl) as ((f & Hf & Hf') & Hq & Hok). apply PlaceFile_same in Ep.
      assert (equalFold (Name c') part = true) as He by (destruct Ep as [<- _]; apply equalFold_refl). destruct (lookup_add i part c' Ek He) as [L1 L2]. split_and!.
      * exists f. cbn [lookupPath] in L1. rewrite L1. split; [done|]. destruct path; [done|exact Hf'].
      * exact L2.
      * intros Ho Hd [Hn Hns]%Forall_cons Hs _. apply Hadd; [done|done|]. apply Hok; [apply okInode_new; auto|done|done|done|]. destruct path as [|? [|? ?]]; done.
    + split; [|done]. destruct IH1 as [IH1 _]. rewrite Hnone in IH1. specialize (IH1 eq_refl) as [? ?]. done.
Qed.

End ok.
End place.
End Fat32Place.

(** * FAT32: examples

    A small filesystem for which the theorems hold, and inputs for which what is written is not what is read. *)

Module Fat32Example.
Import Bytes Fat32Names Fat32 Fat32Read Fat32Dir Fat32Layout Fat32Geometry Fat32Props Fat32Place.
Open Scope Z_scope.

Abbreviation idZ := (fun r : Z => r).

Definition runes (s : string) : list Z := (fun c => Z.of_N (N_of_ascii c)) <$> String.list_ascii_of_string s.

Definition aTime : Time := mkTime 2022 3 4 5 6 7 8.

Definition emptyRoot : Inode := mkInode [] aTime aTime AttrDirectory [] (mkContent [] 0).

(** [EFI/BOOT/BOOTx64.EFI], of 600 bytes, and an empty file with a long name. *)
Definition efiParts : list (list Z) := [runes "EFI"; runes "BOOT"; runes "BOOTx64.EFI"].

Definition sampleRoot : option Inode :=
  i ← PlaceFile idZ efiParts emptyRoot (mkContent (replicate 600 7) 600);
  PlaceFile idZ [runes "a rather long name.txt"] i (mkContent [] 0).

Definition defaultOpts : Options := mkOptions 0 0 (runes "TEST") 1234.

Lemma writeInodes_total upper seeker old bs l : forallb (fun n => is_ok (writeData upper (bsLabel bs) n.1 n.2)) l = true -> forall out, exists out', writeInodes upper seeker old bs l out = Ok out'.
Proof.
  induction l as [|[par t] l IH]; cbn [forallb writeInodes]; [intros _ out; eauto|]. intros [H1 H2]%andb_true_iff out. cbn in H1. destruct (writeData _ _ par t); [|done]. by apply IH.
Qed.

(** Everything a filesystem needs to be written, and its number of blocks. *)
Definition writable (opts : Options) (root : Inode) : option Z :=
  match prepareFS None opts root with
  | Ok (bs, _, _, t) => if forallb (fun n => is_ok (writeData idZ (bsLabel bs) n.1 n.2)) (orderedInodes None t) then Some (TotalBlocks bs) else None
  | Err _ => None
  end.

Lemma writable_ok opts root n seeker old : writable opts root = Some n -> SizeFS None root opts = Ok n /\ exists img, WriteFS idZ None seeker old root opts = Ok img.
Proof.
  unfold writable, SizeFS, WriteFS. destruct (prepareFS None opts root) as [[[[bs fsi] F] t]|]; [|done]. cbn [mbind result_bind]. destruct (forallb _ _) eqn:E; [|done]. intros [= <-]. split; [done|].
  destruct (writeInodes_total idZ seeker old bs _ E (writeFATs seeker old bs F (writeReserved seeker old bs fsi []))) as [out ->]. cbn. eauto.
Qed.

Lemma fat32_roundtrip_witness : exists root img, sampleRoot = Some root /\ WriteFS idZ None true (fun _ => 0) root defaultOpts = Ok img /\
  len img = 66557 * 512 /\ readFS 3 img = Some (view <$> Children root).
Proof.
  destruct sampleRoot as [root|] eqn:Er; [|vm_compute in Er; done]. vm_compute in Er. injection Er as <-.
  match goal with |- exists r _, Some ?x = Some r /\ _ => set (root := x); assert (writable defaultOpts root = Some 66557) as Hw by (vm_compute; reflexivity) end.
  destruct (writable_ok _ _ _ true (fun _ => 0) Hw) as [Hs [img Hi]]. exists root, img. split; [done|]. split; [done|].
  apply (fat32_roundtrip idZ None true (fun _ => 0) root defaultOpts 66557 img 3); [by right|vm_compute; reflexivity|cbn; lia|cbn; lia|done|done|done|lia|vm_compute; lia|done].
Defined.

(** 69 MiB: the tables are a block too short. *)
Definition badOpts : Options := mkOptions 512 141312 (runes "TEST") 1234.

Lemma table_fits_witness : exists bs fsi F t, prepareFS None badOpts emptyRoot = Ok (bs, fsi, F, t) /\ sizeOk badOpts = false /\ forall out, len out = 8 * bsBlockSize bs ->
  len (writeFATs true (fun _ => 0) bs F out) = (8 + 2 * (BlocksPerFAT bs - 1)) * bsBlockSize bs.
Proof.
  assert (match prepareFS None badOpts emptyRoot with Ok (bs, _, _, _) => TotalBlocks bs <? 2 ^ 28 | Err _ => false end = true) as Hok by (vm_compute; reflexivity).
  destruct (prepareFS None badOpts emptyRoot) as [[[[bs fsi] F] t]|] eqn:E; [|done]. apply Z.ltb_lt in Hok. exists bs, fsi, F, t. split; [reflexivity|]. split; [vm_compute; reflexivity|]. intros out Ho.
  destruct (table_fits None true (fun _ => 0) badOpts emptyRoot bs fsi F t out 8 E) as [H _]; [cbn; lia|cbn; lia|done|done|].
  assert (sizeOk badOpts = false) as Hb by (vm_compute; reflexivity). rewrite Hb in H. exact H.
Defined.

Lemma PlaceFile_correct_witness : exists i', PlaceFile idZ efiParts emptyRoot (mkContent [1] 1) = Some i' /\ okInode idZ i' = true /\ exists f, lookupPath idZ efiParts i' = Some f /\ Content f = mkContent [1] 1.
Proof.
  destruct (PlaceFile_correct idZ idZ efiParts emptyRoot (mkContent [1] 1) ltac:(done)) as [_ H]. destruct (PlaceFile idZ efiParts emptyRoot (mkContent [1] 1)) as [i'|] eqn:E; [|vm_compute in E; done].
  destruct (H i' eq_refl) as ((f & Hf & Hc & _) & _ & Hok). exists i'. split; [done|]. split; [|exists f; split; done].
  apply Hok; [vm_compute; reflexivity..|repeat (constructor; [vm_compute; reflexivity|]); constructor|cbn; lia|vm_compute; reflexivity].
Defined.

(** ** Short names that look deleted *)

(** A file named with the character U+597D, twice. *)
Definition cjkRoot : Inode := mkInode [] aTime aTime AttrDirectory [mkInode [22909; 22909] aTime aTime 0 [] (mkContent [1] 1)] (mkContent [] 0).

(** A file whose name is not kept as a short name is lost if the UTF-8 encoding of its name starts with the byte 0xE5: the short name starts with that byte, which marks a deleted entry.
    The directory is written without an error, and a reader finds no file in it. *)
Theorem deleted_name : exists p t d, placeRecursively false cjkRoot (mkPlan [268435448; 268435455] 512) = Ok (p, t) /\ writeData idZ spaces None t = Ok d /\
  Children cjkRoot <> [] /\ readDir (d ++ zeros (Z.to_nat (padding 512 (len d)))) = Some [].
Proof. do 3 eexists. split; [vm_compute; reflexivity|]. split; [vm_compute; reflexivity|]. split; [done|]. vm_compute. reflexivity. Qed.

(** ** Old data in a directory *)

(** On a device that is not empty a directory gets entries that were never written: the end of the directory's last cluster is skipped, and the old data
    there (here bytes 0x41) is read as entries.  The root directory has no files, and a reader finds some. *)
Theorem stale_entries : exists p t d es, placeRecursively false emptyRoot (mkPlan [268435448; 268435455] 512) = Ok (p, t) /\ writeData idZ spaces None t = Ok d /\
  Children emptyRoot = [] /\ readDir (FinishBlock true (fun _ => 65) 512 false d) = Some es /\ es <> [].
Proof. do 4 eexists. split; [vm_compute; reflexivity|]. split; [vm_compute; reflexivity|]. split; [done|]. split; [vm_compute; reflexivity|done]. Qed.

(** ** Files below files *)

(** A file can be placed below a file, and is then lost: the calls succeed, but the file is not in the tree that is read back. *)
Theorem file_below_file : exists i i', PlaceFile idZ [runes "a"] emptyRoot (mkContent [1] 1) = Some i /\ PlaceFile idZ [runes "a"; runes "b"] i (mkContent [2] 1) = Some i' /\
  is_Some (lookupPath idZ [runes "a"; runes "b"] i') /\ view i' = view i.
Proof. do 2 eexists. split; [vm_compute; reflexivity|]. split; [vm_compute; reflexivity|]. split; [by eexists|reflexivity]. Qed.

End Fat32Example.
