(* ===== verification/Sha256.v ===== *)
(** * SHA-256

    Go's [crypto/sha256], as FIPS 180-4 defines it.  Words are numbers below 2^32. *)

From S2P Require Import Prelude Bytes.
From Stdlib Require Import ZArith.

Module Sha256.
Import Bytes.
Open Scope Z_scope.

(** The low 32 bits. *)
Definition w32 (x : Z) : Z := Z.land x 4294967295.

Definition rotr (n x : Z) : Z := Z.lor (Z.shiftr x n) (w32 (Z.shiftl x (32 - n))).

Definition sigma0 (x : Z) : Z := Z.lxor (Z.lxor (rotr 7 x) (rotr 18 x)) (Z.shiftr x 3).
Definition sigma1 (x : Z) : Z := Z.lxor (Z.lxor (rotr 17 x) (rotr 19 x)) (Z.shiftr x 10).
Definition Sigma0 (x : Z) : Z := Z.lxor (Z.lxor (rotr 2 x) (rotr 13 x)) (rotr 22 x).
Definition Sigma1 (x : Z) : Z := Z.lxor (Z.lxor (rotr 6 x) (rotr 11 x)) (rotr 25 x).
Definition Ch (x y z : Z) : Z := Z.lxor (Z.land x y) (Z.land (Z.lxor x 4294967295) z).
Definition Maj (x y z : Z) : Z := Z.lxor (Z.lxor (Z.land x y) (Z.land x z)) (Z.land y z).

Definition K : list Z :=
  [1116352408; 1899447441; 3049323471; 3921009573; 961987163; 1508970993; 2453635748; 2870763221; 3624381080; 310598401; 607225278; 1426881987;
   1925078388; 2162078206; 2614888103; 3248222580; 3835390401; 4022224774; 264347078; 604807628; 770255983; 1249150122; 1555081692; 1996064986;
   2554220882; 2821834349; 2952996808; 3210313671; 3336571891; 3584528711; 113926993; 338241895; 666307205; 773529912; 1294757372; 1396182291;
   1695183700; 1986661051; 2177026350; 2456956037; 2730485921; 2820302411; 3259730800; 3345764771; 3516065817; 3600352804; 4094571909; 275423344;
   430227734; 506948616; 659060556; 883997877; 958139571; 1322822218; 1537002063; 1747873779; 1955562222; 2024104815; 2227730452; 2361852424;
   2428436474; 2756734187; 3204031479; 3329325298].

Definition H0 : list Z := [1779033703; 3144134277; 1013904242; 2773480762; 1359893119; 2600822924; 528734635; 1541459225].

(** Big-endian words. *)
Definition be (n : nat) (v : Z) : bytes := reverse (le n v).

Fixpoint words (n : nat) (l : bytes) : list Z :=
  match n with
  | O => []
  | S n => unle (reverse (take 4 l)) :: words n (drop 4 l)
  end.

(** The message schedule: [w] holds the last sixteen words, the oldest first. *)
Fixpoint schedule (n : nat) (w : list Z) : list Z :=
  match n with
  | O => []
  | S n =>
      let t := w32 (sigma1 (nth 14 w 0) + nth 9 w 0 + sigma0 (nth 1 w 0) + nth 0 w 0) in
      nth 0 w 0 :: schedule n (drop 1 w ++ [t])
  end.

Definition round (s : list Z) (kw : Z * Z) : list Z :=
  match s with
  | [a; b; c; d; e; f; g; h] =>
      let t1 := w32 (h + Sigma1 e + Ch e f g + kw.1 + kw.2) in
      let t2 := w32 (Sigma0 a + Maj a b c) in
      [w32 (t1 + t2); a; b; c; w32 (d + t1); e; f; g]
  | _ => s
  end.

Definition compress (h : list Z) (block : bytes) : list Z :=
  zip_with (fun x y => w32 (x + y)) h (foldl round h (zip K (schedule 64 (words 16 block)))).

Fixpoint blocks (fuel : nat) (h : list Z) (l : bytes) : list Z :=
  match fuel, l with
  | S fuel, _ :: _ => blocks fuel (compress h (take 64 l)) (drop 64 l)
  | _, _ => h
  end.

Definition pad (l : bytes) : bytes := l ++ 128 :: zeros (Z.to_nat ((55 - len l) mod 64)) ++ be 8 (8 * len l).

Definition Sum256 (l : bytes) : bytes := concat (be 4 <$> blocks (length (pad l)) H0 (pad l)).

(** ** Digests have 32 bytes *)

Definition Size : nat := 32.

Lemma round_length s kw : length s = 8%nat -> length (round s kw) = 8%nat.
Proof. intros Hs. do 8 (destruct s as [|? s]; [done|]). by destruct s. Qed.

Lemma compress_length h b : length h = 8%nat -> length (compress h b) = 8%nat.
Proof.
  intros Hh. unfold compress. rewrite length_zip_with, Hh. assert (forall l s, length s = 8%nat -> length (foldl round s l) = 8%nat) as ->; [|done..].
  induction l as [|kw l IH]; intros s Hs; cbn [foldl]; [done|]. by apply IH, round_length.
Qed.

Lemma blocks_words fuel h l : length h = 8%nat -> length (blocks fuel h l) = 8%nat.
Proof. revert h l. induction fuel as [|fuel IH]; intros h [|b l] Hh; cbn [blocks]; try done. by apply IH, compress_length. Qed.

Lemma Sum256_length l : length (Sum256 l) = Size.
Proof.
  unfold Sum256. assert (forall hs, length (concat (be 4 <$> hs)) = (4 * length hs)%nat) as ->.
  { induction hs as [|h hs IH]; cbn [fmap list_fmap concat length]; [done|]. rewrite length_app, IH. unfold be. rewrite length_reverse, le_length. lia. }
  by rewrite blocks_words.
Qed.

(** The example of the standard: the digest of "abc". *)
Lemma Sum256_abc : Sum256 [97; 98; 99] =
  [186; 120; 22; 191; 143; 1; 207; 234; 65; 65; 64; 222; 93; 174; 34; 35; 176; 3; 97; 163; 150; 23; 122; 156; 180; 16; 255; 97; 242; 0; 21; 173].
Proof. vm_compute. reflexivity. Qed.

End Sha256.

(** * SHA-1

    Go's [crypto/sha1], with the padding, words and schedule window of SHA-256. *)

Module Sha1.
Import Bytes Sha256.
Open Scope Z_scope.

Definition rotl (n x : Z) : Z := rotr (32 - n) x.

Definition H1 : list Z := [1732584193; 4023233417; 2562383102; 271733878; 3285377520].

Fixpoint schedule1 (n : nat) (w : list Z) : list Z :=
  match n with
  | O => []
  | S n =>
      let t := rotl 1 (Z.lxor (Z.lxor (nth 13 w 0) (nth 8 w 0)) (Z.lxor (nth 2 w 0) (nth 0 w 0))) in
      nth 0 w 0 :: schedule1 n (drop 1 w ++ [t])
  end.

(** The constants and functions of the four groups of twenty rounds. *)
Definition K1 : list Z := replicate 20 1518500249 ++ replicate 20 1859775393 ++ replicate 20 2400959708 ++ replicate 20 3395469782.
Definition group (i : nat) (b c d : Z) : Z :=
  if (i <? 20)%nat then Ch b c d else if (i <? 40)%nat then Z.lxor (Z.lxor b c) d
  else if (i <? 60)%nat then Maj b c d else Z.lxor (Z.lxor b c) d.

Definition round1 (s : list Z) (ikw : nat * (Z * Z)) : list Z :=
  match s with
  | [a; b; c; d; e] => [w32 (rotl 5 a + group ikw.1 b c d + e + ikw.2.1 + ikw.2.2); a; rotl 30 b; c; d]
  | _ => s
  end.

Definition compress1 (h : list Z) (block : bytes) : list Z :=
  zip_with (fun x y => w32 (x + y)) h (foldl round1 h (zip (seq 0 80) (zip K1 (schedule1 80 (words 16 block))))).

Fixpoint blocks1 (fuel : nat) (h : list Z) (l : bytes) : list Z :=
  match fuel, l with
  | S fuel, _ :: _ => blocks1 fuel (compress1 h (take 64 l)) (drop 64 l)
  | _, _ => h
  end.

Definition Sum1 (l : bytes) : bytes := concat (be 4 <$> blocks1 (length (pad l)) H1 (pad l)).

Lemma round1_length s ikw : length s = 5%nat -> length (round1 s ikw) = 5%nat.
Proof. intros Hs. do 5 (destruct s as [|? s]; [done|]). by destruct s. Qed.

Lemma compress1_length h b : length h = 5%nat -> length (compress1 h b) = 5%nat.
Proof.
  intros Hh. unfold compress1. rewrite length_zip_with, Hh. assert (forall l s, length s = 5%nat -> length (foldl round1 s l) = 5%nat) as ->; [|done..].
  induction l as [|x l IH]; intros s Hs; cbn [foldl]; [done|]. by apply IH, round1_length.
Qed.

Lemma Sum1_length l : length (Sum1 l) = 20%nat.
Proof.
  unfold Sum1. assert (forall fuel h l, length h = 5%nat -> length (blocks1 fuel h l) = 5%nat) as Hb.
  { clear l. induction fuel as [|fuel IH]; intros h [|b l] Hh; cbn [blocks1]; try done. by apply IH, compress1_length. }
  rewrite (concat_length_uniform 4); [by rewrite length_fmap, Hb|].
  apply Forall_fmap, Forall_true. done.
Qed.

(** The example of the standard: the digest of "abc". *)
Lemma Sum1_abc : Sum1 [97; 98; 99] = [169; 153; 62; 54; 71; 6; 129; 106; 186; 62; 37; 113; 120; 80; 194; 108; 156; 208; 216; 157].
Proof. vm_compute. reflexivity. Qed.

End Sha1.
