(* ===== verification/Verity.v ===== *)
(** * dm-verity images

    The encoder of hash trees, [osbase/verity/encoder.go], and the tool that appends them to
    images, [metropolis/node/build/mkverity/mkverity.go].

    The readers of the encoder are buffers in memory, whose only error is the end of the data; the
    writer is a file with room for a number of bytes.  [None] is a loop that does not end. *)

From stdpp Require Import pretty.
From S2P Require Import Prelude GoStrings Bytes Sha256.
From Stdlib Require Import ZArith.

Module Verity.
Import Bytes Sha256.
Open Scope Z_scope.

Inductive error :=
| RandError (what : string)
| BlockSizeError
| WriteError (what : string)
| NotClosed
| EmptyEncoder
| ImageError (what : string).

#[export] Instance error_eq_dec : EqDecision error.
Proof. solve_decision. Defined.

(** ** Writers *)

Record file := File { written : bytes; room : Z }.

(** [Write]: a file that is full takes what fits and fails. *)
Definition fileWrite (f : file) (p : bytes) : bool * file :=
  if len p <=? room f then (true, File (written f ++ p) (room f - len p))
  else (false, File (written f ++ take (Z.to_nat (room f)) p) 0).

(** ** Superblocks *)

Record superblock := Superblock {
  signature : bytes;
  version : Z;
  hashType : Z;
  uuid : bytes;
  algorithm : bytes;
  dataBlockSize : Z;
  hashBlockSize : Z;
  dataBlocks : Z;
  saltSize : Z;
  saltBuffer : bytes;
}.

(** The arguments are the random bytes that are read, if reading them succeeds. *)
Definition newSuperblock (randUuid randSalt : option bytes) : result error superblock :=
  match randUuid with
  | None => Err (RandError "when generating UUID")
  | Some u =>
      match randSalt with
      | None => Err (RandError "when generating salt")
      | Some s => Ok (Superblock (ascii_bytes "verity" ++ [0; 0]) 1 1 u (ascii_bytes "sha256" ++ zeros 26) 4096 4096 0 64 s)
      end
  end.

Definition salt (sb : superblock) : bytes := take (Z.to_nat (saltSize sb)) (saltBuffer sb).

(** Up to the first zero; without one, slicing panics. *)
Definition algorithmName (sb : superblock) : option bytes :=
  match list_find (fun b => b = 0) (algorithm sb) with
  | Some (size, _) => Some (take size (algorithm sb))
  | None => None
  end.

Definition saltedDigest (sb : superblock) (data : bytes) : bytes := Sum256 (salt sb ++ data).

Definition dataBlocksPerHashBlock (sb : superblock) : Z := hashBlockSize sb / 32.

Definition setDataBlocks (n : Z) (sb : superblock) : superblock :=
  Superblock (signature sb) (version sb) (hashType sb) (uuid sb) (algorithm sb) (dataBlockSize sb) (hashBlockSize sb) n (saltSize sb) (saltBuffer sb).

Definition setBlockSizes (db hb : Z) (sb : superblock) : superblock :=
  Superblock (signature sb) (version sb) (hashType sb) (uuid sb) (algorithm sb) db hb (dataBlocks sb) (saltSize sb) (saltBuffer sb).

(** [binary.Write] with little-endian fields; blank fields are zero. *)
Definition encodeSuperblock (sb : superblock) : bytes :=
  signature sb ++ le 4 (version sb) ++ le 4 (hashType sb) ++ uuid sb ++ algorithm sb ++ le 4 (dataBlockSize sb) ++ le 4 (hashBlockSize sb) ++
  le 8 (dataBlocks sb) ++ le 2 (saltSize sb) ++ zeros 6 ++ saltBuffer sb ++ zeros 168.

(** [binary.Size]. *)
Definition superblockSize : Z := 512.

(** [superblock.WriteTo]. *)
Definition superblockWriteTo (sb : superblock) (w : file) : option error * file :=
  match fileWrite w (encodeSuperblock sb) with
  | (false, w) => (Some (WriteError "while writing a header"), w)
  | (true, w) =>
      let pbc := hashBlockSize sb - superblockSize in
      if pbc <=? 0 then (Some BlockSizeError, w)
      else match fileWrite w (zeros (Z.to_nat pbc)) with
           | (true, w) => (None, w)
           | (false, w) => (Some (WriteError "while writing padding"), w)
           end
  end.

(** ** Hash blocks *)

(** A slice of a buffer up to its capacity: the bytes after its length are zero. *)
Definition padTo (n : nat) (l : bytes) : bytes := l ++ zeros (n - length l).

(** [io.ReadFull] into a zero buffer of [n] bytes: how many were read, the buffer, whether the
    data ended before, and the rest. *)
Definition ReadFull (n : nat) (r : bytes) : nat * bytes * bool * bytes :=
  let got := take n r in (length got, padTo n got, bool_decide (length got < n)%nat, drop n r).

(** The loop of [computeHashBlock] with [b] rounds left: the block, the number of digests, whether
    the data ended, and the rest. *)
Fixpoint hashLoop (sb : superblock) (b : nat) (hblk : bytes) (dcnt : Z) (r : bytes) : option bytes * Z * bool * bytes :=
  match b with
  | O => (Some (padTo (Z.to_nat (hashBlockSize sb)) hblk), dcnt, false, r)
  | S b =>
      let '(n, dbuf, eof, r) := ReadFull (Z.to_nat (dataBlockSize sb)) r in
      let '(hblk, dcnt) := if bool_decide (n = 0%nat) then (hblk, dcnt) else (hblk ++ saltedDigest sb dbuf, u64 (dcnt + 1)) in
      if eof then
        if bool_decide (hblk = []) then (None, 0, true, r)
        else (Some (padTo (Z.to_nat (hashBlockSize sb)) hblk), dcnt, true, r)
      else hashLoop sb b hblk dcnt r
  end.

Definition computeHashBlock (sb : superblock) (r : bytes) : option bytes * Z * bool * bytes :=
  hashLoop sb (Z.to_nat (dataBlocksPerHashBlock sb)) [] 0 r.

Fixpoint levelLoop (sb : superblock) (fuel : nat) (hbuf r : bytes) : option bytes :=
  match fuel with
  | O => None
  | S fuel =>
      let '(hblk, _, eof, r) := computeHashBlock sb r in
      let hbuf := match hblk with Some b => hbuf ++ b | None => hbuf end in
      if (eof : bool) then Some hbuf else levelLoop sb fuel hbuf r
  end.

Definition computeLevel (sb : superblock) (r : bytes) : option bytes := levelLoop sb (S (length r)) [] r.

(** ** Hash trees: levels from bottom to top *)

Definition hashTree : Type := list bytes.
Definition push (ht : hashTree) (nl : bytes) : hashTree := ht ++ [nl].
Definition top (ht : hashTree) : bytes := default [] (last ht).

(** A level is written with one call: a writer that takes less fails. *)
Definition writeLevel (level : bytes) (w : file) : bool * file :=
  if bool_decide (level = []) then (true, w) else fileWrite w level.

Fixpoint writeLevels (levels : list bytes) (w : file) : option error * file :=
  match levels with
  | [] => (None, w)
  | level :: levels =>
      match writeLevel level w with
      | (true, w) => writeLevels levels w
      | (false, w) => (Some (WriteError "while writing a level"), w)
      end
  end.

(** [hashTree.WriteTo]. *)
Definition treeWriteTo (ht : hashTree) (w : file) : option error * file := writeLevels (reverse ht) w.

(** ** The encoder *)

Record encoder := Encoder {
  out : file;
  writeSb : bool;
  sb : superblock;
  bottom : bytes;
  dataBuffer : bytes;
  rootHash : option bytes;
}.

Definition NewEncoder (randUuid randSalt : option bytes) (out : file) (dataBlockSize hashBlockSize : Z) (writeSb : bool) : result error encoder :=
  sb ← newSuperblock randUuid randSalt;
  Ok (Encoder out writeSb (setBlockSizes dataBlockSize hashBlockSize sb) [] [] None).

Fixpoint treeLoop (sb : superblock) (fuel : nat) (ht : hashTree) : option hashTree :=
  match fuel with
  | O => None
  | S fuel =>
      if len (top ht) =? hashBlockSize sb then Some ht
      else match computeLevel sb (top ht) with
           | None => None
           | Some nl => treeLoop sb fuel (push ht nl)
           end
  end.

(** The tree and the root hash. *)
Definition computeHashTree (e : encoder) : option (hashTree * encoder) :=
  match treeLoop (sb e) (S (length (bottom e))) [bottom e] with
  | None => None
  | Some ht => Some (ht, Encoder (out e) (writeSb e) (sb e) (bottom e) (dataBuffer e) (Some (saltedDigest (sb e) (top ht))))
  end.

(** The loop of [processDataBuffer]: the count, [bottom] and [dataBuffer]. *)
Fixpoint processLoop (sb : superblock) (incomplete : bool) (fuel : nat) (tdcnt : Z) (bottom buf : bytes) : option (Z * bytes * bytes) :=
  match fuel with
  | O => None
  | S fuel =>
      let bph := u64 (dataBlocksPerHashBlock sb * dataBlockSize sb) in
      if (bph <=? len buf) || (incomplete && negb (len buf =? 0)) then
        let '(hb, dcnt, _, buf) := computeHashBlock sb buf in
        processLoop sb incomplete fuel (u64 (tdcnt + dcnt)) (bottom ++ default [] hb) buf
      else Some (tdcnt, bottom, buf)
  end.

Definition processDataBuffer (incomplete : bool) (e : encoder) : option (Z * encoder) :=
  match processLoop (sb e) incomplete (S (length (dataBuffer e))) 0 (bottom e) (dataBuffer e) with
  | None => None
  | Some (tdcnt, bottom, buf) => Some (tdcnt, Encoder (out e) (writeSb e) (sb e) bottom buf (rootHash e))
  end.

(** [e.sb.dataBlocks += dcnt]. *)
Definition addBlocks (dcnt : Z) (e : encoder) : encoder :=
  Encoder (out e) (writeSb e) (setDataBlocks (u64 (dataBlocks (sb e) + dcnt)) (sb e)) (bottom e) (dataBuffer e) (rootHash e).

Definition Write (e : encoder) (data : bytes) : option (Z * encoder) :=
  let e := Encoder (out e) (writeSb e) (sb e) (bottom e) (dataBuffer e ++ data) (rootHash e) in
  match processDataBuffer false e with
  | None => None
  | Some (dcnt, e) => Some (len data, addBlocks dcnt e)
  end.

Definition setOut (w : file) (e : encoder) : encoder := Encoder w (writeSb e) (sb e) (bottom e) (dataBuffer e) (rootHash e).

Definition Close (e : encoder) : option (option error * encoder) :=
  match processDataBuffer true e with
  | None => None
  | Some (dcnt, e) =>
      let e := addBlocks dcnt e in
      if bool_decide (bottom e = []) then Some (None, e)
      else match computeHashTree e with
           | None => None
           | Some (ht, e) =>
               match (if writeSb e then superblockWriteTo (sb e) (out e) else (None, out e)) with
               | (Some err, w) => Some (Some err, setOut w e)
               | (None, w) => let '(err, w) := treeWriteTo ht w in Some (err, setOut w e)
               end
           end
  end.

(** ** Mapping tables *)

Record MappingTable := Table {
  superblock_ : superblock;
  DataDevicePath : string;
  HashDevicePath : string;
  HashStart : Z;
  rootHash_ : bytes;
}.

(** [encoder.MappingTable]. *)
Definition mappingTable (e : encoder) (dataDevicePath hashDevicePath : string) (hashStart : Z) : result error MappingTable :=
  match rootHash e with
  | None => if bool_decide (bottom e = []) then Err EmptyEncoder else Err NotClosed
  | Some root => Ok (Table (sb e) dataDevicePath hashDevicePath (if writeSb e then i64 (hashStart + 1) else hashStart) root)
  end.

(** [hex.EncodeToString]. *)
Definition hexChar (d : Z) : ascii := ascii_of_N (Z.to_N (if d <? 10 then 48 + d else 87 + d)).
Fixpoint EncodeToString (l : bytes) : string :=
  match l with
  | [] => EmptyString
  | b :: l => String (hexChar (b / 16)) (String (hexChar (b mod 16)) (EncodeToString l))
  end.

Definition string_of_bytes (l : bytes) : string := String.string_of_list_ascii ((fun b => ascii_of_N (Z.to_N b)) <$> l).

(** [None] is the panic of [algorithmName]. *)
Definition VerityParameterList (t : MappingTable) : option (list string) :=
  match algorithmName (superblock_ t) with
  | None => None
  | Some name => Some
      ["1"; DataDevicePath t; HashDevicePath t; pretty (dataBlockSize (superblock_ t)); pretty (hashBlockSize (superblock_ t));
       pretty (dataBlocks (superblock_ t)); pretty (HashStart t); string_of_bytes name; EncodeToString (rootHash_ t);
       EncodeToString (salt (superblock_ t))]
  end.

Definition Length (t : MappingTable) : Z := u64 (dataBlocks (superblock_ t) * dataBlockSize (superblock_ t)) / 512.

Definition TargetParameters (t : MappingTable) : option (list string) :=
  match VerityParameterList t with
  | None => None
  | Some l => Some (["0"; pretty (Length t); "verity"] ++ l)
  end.

(** [MappingTable.String]. *)
Definition tableString (t : MappingTable) : option string := (fun ps => Join ps " ") <$> TargetParameters t.

(** ** [mkverity] *)

(** [io.Copy] into the encoder: one [Write] for what each read of the source returns. *)
Fixpoint copyEncoder (e : encoder) (reads : list bytes) : option encoder :=
  match reads with
  | [] => Some e
  | p :: reads => match Write e p with None => None | Some (_, e) => copyEncoder e reads end
  end.

(** [io.Copy] into a file. *)
Fixpoint copyFile (f : file) (reads : list bytes) : bool * file :=
  match reads with
  | [] => (true, f)
  | p :: reads => match fileWrite f p with (true, f) => copyFile f reads | (false, f) => (false, f) end
  end.

(** The data image: whether it is a regular file, and what the reads of either copy return;
    [None] if it cannot be opened.  The size of a regular file is what its reads add up to. *)
Record image := Image { isRegular : bool; size : Z; reads1 : list bytes; reads2 : list bytes }.

(** [outputImage] is the new file, if none exists at the path.  The result is the table or an error,
    and the output file if one was created. *)
Definition createImage (randUuid randSalt : option bytes) (dataImage : option image) (outputImage : option file)
    (dataImagePath outputImagePath : string) (wsb : bool) : option (result error MappingTable * option file) :=
  let bs := 4096 in
  match dataImage with
  | None => Some (Err (ImageError "while opening the data image"), None)
  | Some ds =>
      if negb (isRegular ds) then Some (Err (ImageError "the data image must be a regular file"), None)
      else if negb (size ds mod bs =? 0) then Some (Err (ImageError "the data image must end on a %d-byte block boundary"), None)
      else match outputImage with
      | None => Some (Err (ImageError "while opening the hash image for writing"), None)
      | Some w =>
          match copyFile w (reads1 ds) with
          | (false, w) => Some (Err (WriteError ""), Some w)
          | (true, w) =>
              match NewEncoder randUuid randSalt w bs bs wsb with
              | Err err => Some (Err err, Some w)
              | Ok v =>
                  match copyEncoder v (reads2 ds) with
                  | None => None
                  | Some v =>
                      match Close v with
                      | None => None
                      | Some (Some err, v) => Some (Err err, Some (out v))
                      | Some (None, v) => Some (mappingTable v dataImagePath outputImagePath (size ds / bs), Some (out v))
                      end
                  end
              end
          end
      end
  end.

End Verity.
