(* ===== verification/VerityTree.v ===== *)
(** * Hash trees

    The hash tree of dm-verity as lists of blocks, and the proof that the functions of
    the encoder that read buffers compute it. *)

From S2P Require Import Prelude Bytes Sha256 Verity.
From Stdlib Require Import ZArith.

Module VerityTree.
Import Bytes Sha256 Verity.
Open Scope nat_scope.

(** ** Rounding up *)

Definition divUp (m n : nat) : nat := (m + n - 1) / n.

Lemma divUp_small n : 0 < n -> divUp 0 n = 0.
Proof. intros Hn. unfold divUp. apply Nat.div_small. lia. Qed.

Lemma divUp_step m n : 0 < n -> 0 < m -> divUp m n = S (divUp (m - n) n).
Proof.
  intros Hn Hm. unfold divUp. destruct (decide (n <= m)).
  - replace (m + n - 1) with (m - n + n - 1 + 1 * n) by lia. rewrite Nat.div_add by lia. lia.
  - replace (m - n) with 0 by lia. rewrite (Nat.div_small (0 + n - 1)) by lia. symmetry. apply (Nat.div_unique _ _ _ (m - 1)); lia.
Qed.

Lemma divUp_bounds m n : 0 < n -> 0 < m -> 0 < divUp m n /\ divUp m n * n < m + n /\ m <= divUp m n * n.
Proof.
  intros Hn Hm. unfold divUp. pose proof (Nat.div_mod_eq (m + n - 1) n). pose proof (Nat.mod_upper_bound (m + n - 1) n).
  assert (0 < (m + n - 1) / n) by (apply Nat.div_str_pos; lia). nia.
Qed.

(** ** Lists in groups of [n] *)

Section chunks.
  Context {A : Type}.
  Implicit Types l : list A.

Fixpoint chunksF (fuel n : nat) (l : list A) : list (list A) :=
  match fuel, l with
  | S fuel, _ :: _ => take n l :: chunksF fuel n (drop n l)
  | _, _ => []
  end.

Definition chunks (n : nat) (l : list A) : list (list A) := chunksF (length l) n l.

Lemma chunksF_fuel n f l : 0 < n -> length l <= f -> chunksF f n l = chunks n l.
Proof.
  intros Hn. unfold chunks. assert (forall f g l, length l <= f -> length l <= g -> chunksF f n l = chunksF g n l) as H; [|intros; by apply H].
  clear f l. induction f as [|f IH]; intros [|g] [|x l] Hf Hg; cbn [chunksF length] in *; try done; try lia.
  f_equal. apply IH; rewrite length_drop; cbn [length]; lia.
Qed.

Lemma chunks_nil n : chunks n [] = [].
Proof. done. Qed.

Lemma chunks_step n l : 0 < n -> l <> [] -> chunks n l = take n l :: chunks n (drop n l).
Proof.
  intros Hn Hl. destruct l as [|x l]; [done|]. unfold chunks at 1. cbn [length chunksF]. f_equal. apply chunksF_fuel; [done|].
  rewrite length_drop. cbn [length]. lia.
Qed.

(** Induction on the groups of a list. *)
Lemma chunks_ind n (P : list A -> Prop) : 0 < n -> P [] -> (forall l, l <> [] -> P (drop n l) -> P l) -> forall l, P l.
Proof.
  intros Hn H0 HS l. remember (length l) as k eqn:Hk. revert l Hk. induction (lt_wf k) as [k _ IH]; intros l ->.
  destruct (decide (l = [])) as [->|Hl]; [done|]. apply HS; [done|]. apply (IH (length (drop n l))); [|done].
  destruct l; [done|]. rewrite length_drop. cbn [length]. lia.
Qed.

Lemma chunks_app n a b : 0 < n -> (n | length a) -> chunks n (a ++ b) = chunks n a ++ chunks n b.
Proof.
  intros Hn. revert a. apply (chunks_ind n (fun a => (n | length a) -> _)); [done|done|]. intros l Hl IH Hd.
  assert (n <= length l) as Hle by (apply Nat.divide_pos_le; [destruct l; cbn [length]; [done|lia]|done]).
  rewrite (chunks_step n (l ++ b)), (chunks_step n l); try done; [|by destruct l]. rewrite take_app_le, drop_app_le by done. cbn [app]. f_equal.
  apply IH. rewrite length_drop. by apply Nat.divide_sub_r.
Qed.

Lemma chunks_length n l : 0 < n -> length (chunks n l) = divUp (length l) n.
Proof.
  intros Hn. revert l. apply (chunks_ind n); [done|by rewrite divUp_small by lia|].
  intros l Hl IH. rewrite chunks_step by done. cbn [length]. rewrite IH, length_drop. destruct l as [|x l]; [done|]. cbn [length].
  by rewrite (divUp_step (S (length l))) by lia.
Qed.

Lemma chunks_lookup n l i x : 0 < n -> l !! i = Some x -> exists c, chunks n l !! (i / n) = Some c /\ c !! (i mod n) = Some x.
Proof.
  intros Hn. revert l i. apply (chunks_ind n (fun l => forall i, l !! i = Some x -> _)); [done|done|]. intros l Hl IH i Hi.
  rewrite chunks_step by done. destruct (decide (i < n)) as [Hlt|Hge].
  - rewrite Nat.div_small, Nat.mod_small by done. exists (take n l). split; [done|]. by rewrite lookup_take_lt.
  - destruct (IH (i - n)) as (c & Hc & Hx); [rewrite lookup_drop, <- Hi; f_equal; lia|]. exists c.
    replace i with (i - n + 1 * n) at 1 2 by lia. rewrite Nat.div_add, Nat.Div0.mod_add, Nat.add_1_r by lia. done.
Qed.

Lemma chunks_small n l : 0 < n -> l <> [] -> length l <= n -> chunks n l = [l].
Proof. intros Hn Hl Hle. rewrite chunks_step by done. by rewrite take_ge, drop_ge by done. Qed.

Lemma chunks_concat n (ls : list (list A)) : 0 < n -> Forall (fun l => length l = n) ls -> chunks n (concat ls) = ls.
Proof.
  intros Hn. induction 1 as [|l ls Hl Hls IH]; [done|]. cbn [concat]. rewrite chunks_app by (done || by rewrite Hl). rewrite IH, chunks_small; try done; [|lia].
  intros ->. cbn [length] in Hl. lia.
Qed.

Lemma chunks_nonempty n l : 0 < n -> Forall (fun c => 0 < length c <= n) (chunks n l).
Proof.
  intros Hn. revert l. apply (chunks_ind n); [done|constructor|]. intros l Hl IH. rewrite chunks_step by done. constructor; [|done].
  rewrite length_take. destruct l; [done|]. cbn [length]. lia.
Qed.

(** The first [k] groups. *)
Lemma chunks_take n k l : 0 < n -> take k (chunks n l) = chunks n (take (k * n) l).
Proof.
  intros Hn. revert l. induction k as [|k IH]; intros l; [done|]. destruct (decide (l = [])) as [->|Hl]; [by rewrite take_nil|].
  rewrite chunks_step by done. cbn [take]. rewrite IH. rewrite (chunks_step n (take (S k * n) l)); [|done|destruct l; [done|destruct n; [lia|done]]].
  rewrite take_take, skipn_firstn_comm. do 3 f_equal; lia.
Qed.

Lemma chunks_drop n k l : 0 < n -> drop k (chunks n l) = chunks n (drop (k * n) l).
Proof.
  intros Hn. revert l. induction k as [|k IH]; intros l; [done|]. destruct (decide (l = [])) as [->|Hl]; [by rewrite drop_nil|].
  rewrite chunks_step by done. cbn [drop]. by rewrite IH, drop_drop.
Qed.

End chunks.

(** ** The tree over blocks

    The superblock [s] gives the salt and the size of hash blocks. *)

Section tree.
  Context (s : superblock).

(** A file as blocks, the last padded with zeros. *)
Definition blocksOf (n : nat) (data : bytes) : list bytes := padTo n <$> chunks n data.

Definition hashBlock (bs : list bytes) : bytes := padTo (Z.to_nat (hashBlockSize s)) (concat (saltedDigest s <$> bs)).

Definition perBlock : nat := Z.to_nat (hashBlockSize s) / 32.

(** The hash blocks over blocks. *)
Definition nextLevel (bs : list bytes) : list bytes := hashBlock <$> chunks perBlock bs.

(** The levels from a level up to the one with a single block. *)
Fixpoint levelsF (fuel : nat) (bs : list bytes) : list (list bytes) :=
  bs :: match fuel with
        | S fuel => if bool_decide (length bs <= 1) then [] else levelsF fuel (nextLevel bs)
        | O => []
        end.

Definition levels (bs : list bytes) : list (list bytes) := levelsF (length bs) bs.

Lemma levels_one bs : length bs <= 1 -> levels bs = [bs].
Proof. intros Hl. unfold levels. destruct (length bs) as [|k] eqn:Hk; [done|]. cbn [levelsF]. by rewrite bool_decide_true by lia. Qed.

(** ** The functions of the encoder compute it *)

Lemma padTo_size n l : length l <= n -> length (padTo n l) = n.
Proof. intros Hl. unfold padTo, zeros. rewrite length_app, length_replicate. lia. Qed.

Lemma padTo_full n l : n <= length l -> padTo n l = l.
Proof. intros Hl. unfold padTo. replace (n - length l) with 0 by lia. by rewrite app_nil_r. Qed.

Lemma saltedDigest_length l : length (saltedDigest s l) = 32.
Proof. apply Sum256_length. Qed.

Lemma digest_cons_nonempty h l t : h ++ saltedDigest s l ++ t <> [].
Proof. intros H%(f_equal length). rewrite !length_app, saltedDigest_length in H. cbn [length] in H. lia. Qed.

Lemma digests_length bs : length (concat (saltedDigest s <$> bs)) = 32 * length bs.
Proof. induction bs as [|b bs IH]; cbn [fmap list_fmap concat length]; [done|]. rewrite length_app, IH, saltedDigest_length. lia. Qed.

Lemma blocksOf_step n r : 0 < n -> r <> [] -> blocksOf n r = padTo n (take n r) :: blocksOf n (drop n r).
Proof. intros Hn Hr. unfold blocksOf. by rewrite chunks_step. Qed.

Lemma blocksOf_take n k r : 0 < n -> take k (blocksOf n r) = blocksOf n (take (k * n) r).
Proof. intros Hn. unfold blocksOf. by rewrite <- fmap_take, chunks_take. Qed.

Lemma blocksOf_drop n k r : 0 < n -> drop k (blocksOf n r) = blocksOf n (drop (k * n) r).
Proof. intros Hn. unfold blocksOf. by rewrite <- fmap_drop, chunks_drop. Qed.

Lemma blocksOf_length n r : 0 < n -> length (blocksOf n r) = divUp (length r) n.
Proof. intros Hn. unfold blocksOf. by rewrite length_fmap, chunks_length. Qed.

Lemma blocksOf_uniform n r : 0 < n -> Forall (fun b => length b = n) (blocksOf n r).
Proof. intros Hn. apply Forall_fmap. eapply Forall_impl; [by apply chunks_nonempty|]. intros c [_ Hc]. by apply padTo_size. Qed.

Lemma blocksOf_app n a b : 0 < n -> (n | length a) -> blocksOf n (a ++ b) = blocksOf n a ++ blocksOf n b.
Proof. intros Hn Hd. unfold blocksOf. by rewrite chunks_app, fmap_app. Qed.

Lemma blocksOf_concat n bs : 0 < n -> Forall (fun b => length b = n) bs -> blocksOf n (concat bs) = bs.
Proof.
  intros Hn Hbs. unfold blocksOf. rewrite chunks_concat by done. induction Hbs as [|b bs Hb Hbs IH]; [done|]. cbn [fmap list_fmap]. f_equal; [|done].
  apply padTo_full. lia.
Qed.

Lemma ReadFull_nil n : 0 < n -> ReadFull n [] = (0, zeros n, true, []).
Proof. intros Hn. unfold ReadFull. rewrite take_nil, drop_nil. cbn [length]. rewrite bool_decide_true by done. unfold padTo. cbn [length app]. by rewrite Nat.sub_0_r. Qed.

(** What a hash block holds after [b] more rounds. *)
Lemma hashLoop_spec b hblk dcnt r : let n := Z.to_nat (dataBlockSize s) in 0 < n -> (0 <= dcnt)%Z -> (dcnt + Z.of_nat b < 2 ^ 64)%Z ->
  let bs := blocksOf n (take (b * n) r) in let all := hblk ++ concat (saltedDigest s <$> bs) in let eof := bool_decide (length r < b * n) in
  hashLoop s b hblk dcnt r =
  if eof && bool_decide (all = []) then (None, 0%Z, true, drop (b * n) r)
  else (Some (padTo (Z.to_nat (hashBlockSize s)) all), (dcnt + len bs)%Z, eof, drop (b * n) r).
Proof.
  intros n Hn. revert hblk dcnt r. induction b as [|b IH]; intros hblk dcnt r Hc Hb.
  { cbn. by rewrite app_nil_r, Z.add_0_r, drop_0. }
  cbn [hashLoop]. fold n. destruct (decide (r = [])) as [->|Hr].
  { rewrite ReadFull_nil by done. rewrite bool_decide_true by done. rewrite take_nil, drop_nil. cbn [blocksOf chunks chunksF length fmap list_fmap concat].
    rewrite (bool_decide_true (0 < S b * n)) by lia. rewrite app_nil_r, Z.add_0_r. cbn [andb]. by destruct (bool_decide (hblk = [])). }
  unfold ReadFull. rewrite (bool_decide_false (length (take n r) = 0)) by (rewrite length_take; destruct r; [done|cbn [length]; lia]).
  assert (blocksOf n (take (S b * n) r) = padTo n (take n r) :: blocksOf n (take (b * n) (drop n r))) as ->
    by (rewrite <- !blocksOf_take, blocksOf_step by done; done).
  cbn [fmap list_fmap concat]. rewrite u64_small, (bool_decide_false (_ ++ _ ++ _ = [])), andb_false_r by (apply digest_cons_nonempty || lia).
  destruct (decide (length r < n)) as [Hlt|Hge].
  - rewrite (bool_decide_true (length (take n r) < n)) by (rewrite length_take; lia). rewrite (drop_ge r n), (drop_ge r (S b * n)) by lia.
    rewrite (bool_decide_false (_ ++ _ = [])) by (pose proof (digest_cons_nonempty hblk (padTo n (take n r)) []) as H; by rewrite app_nil_r in H).
    rewrite take_nil, (bool_decide_true (length r < _)) by lia. cbn. by rewrite app_nil_r.
  - rewrite (bool_decide_false (length (take n r) < n)) by (rewrite length_take; lia). rewrite IH by lia. rewrite <- app_assoc.
    rewrite (bool_decide_false (_ ++ _ ++ _ = [])), andb_false_r by apply digest_cons_nonempty. rewrite drop_drop, length_drop. unfold len. cbn [length].
    rewrite (bool_decide_ext (length r - n < b * n) (length r < S b * n)) by lia. do 3 f_equal. lia.
Qed.

Section sized.
  Context (n : nat).
  Hypothesis Hsize : dataBlockSize s = Z.of_nat n.
  Hypothesis Hn : 0 < n.
  Hypothesis Hd : 0 < perBlock.
  Hypothesis Hhash : (0 <= hashBlockSize s < 2 ^ 32)%Z.

Lemma perBlock_eq : Z.to_nat (dataBlocksPerHashBlock s) = perBlock.
Proof. unfold dataBlocksPerHashBlock, perBlock. by rewrite Z2Nat.inj_div by lia. Qed.

Lemma perBlock_bound : (Z.of_nat perBlock < 2 ^ 32)%Z.
Proof. unfold perBlock. rewrite Nat2Z.inj_div. rewrite Z2Nat.id by lia. apply Z.div_lt_upper_bound; lia. Qed.

Lemma computeHashBlock_nil : computeHashBlock s [] = (None, 0%Z, true, []).
Proof.
  unfold computeHashBlock. rewrite perBlock_eq. pose proof perBlock_bound. rewrite hashLoop_spec by lia. rewrite take_nil, drop_nil. cbn [length].
  by rewrite bool_decide_true by nia.
Qed.

Lemma computeHashBlock_spec r : r <> [] ->
  computeHashBlock s r = (Some (hashBlock (take perBlock (blocksOf n r))), len (take perBlock (blocksOf n r)),
    bool_decide (length r < perBlock * n), drop (perBlock * n) r).
Proof.
  intros Hr. unfold computeHashBlock. rewrite perBlock_eq. pose proof perBlock_bound. rewrite hashLoop_spec by lia.
  replace (Z.to_nat (dataBlockSize s)) with n by lia. rewrite <- blocksOf_take by done. cbn [app]. destruct perBlock as [|k] eqn:Hk; [lia|].
  rewrite blocksOf_step by done. cbn [take fmap list_fmap concat].
  rewrite (bool_decide_false (_ ++ _ = [])) by apply (digest_cons_nonempty []). by rewrite andb_false_r.
Qed.

Lemma nextLevel_step r : r <> [] -> nextLevel (blocksOf n r) = hashBlock (take perBlock (blocksOf n r)) :: nextLevel (blocksOf n (drop (perBlock * n) r)).
Proof. intros Hr. unfold nextLevel. rewrite chunks_step, blocksOf_drop by (done || by rewrite blocksOf_step). done. Qed.

Lemma levelLoop_spec fuel hbuf r : length r < fuel -> levelLoop s fuel hbuf r = Some (hbuf ++ concat (nextLevel (blocksOf n r))).
Proof.
  revert hbuf r. induction fuel as [|fuel IH]; intros hbuf r Hf; [lia|]. cbn [levelLoop]. destruct (decide (r = [])) as [->|Hr].
  { rewrite computeHashBlock_nil. cbn. by rewrite app_nil_r. }
  rewrite computeHashBlock_spec, nextLevel_step by done. cbn [concat]. rewrite app_assoc. destruct (decide (length r < perBlock * n)) as [Hlt|Hge].
  - rewrite bool_decide_true, drop_ge by lia. cbn. by rewrite app_nil_r.
  - rewrite bool_decide_false by lia. apply IH. rewrite length_drop. nia.
Qed.

Lemma computeLevel_spec r : computeLevel s r = Some (concat (nextLevel (blocksOf n r))).
Proof. unfold computeLevel. by rewrite levelLoop_spec by lia. Qed.

Lemma nextLevel_app bs cs : (perBlock | length bs) -> nextLevel (bs ++ cs) = nextLevel bs ++ nextLevel cs.
Proof. intros H. unfold nextLevel. by rewrite chunks_app, fmap_app. Qed.

Lemma nextLevel_length bs : length (nextLevel bs) = divUp (length bs) perBlock.
Proof. unfold nextLevel. by rewrite length_fmap, chunks_length. Qed.

Lemma nextLevel_uniform bs : Forall (fun b => length b = Z.to_nat (hashBlockSize s)) (nextLevel bs).
Proof.
  apply Forall_fmap. eapply Forall_impl; [by apply chunks_nonempty|]. intros c [_ Hc]. unfold compose, hashBlock. apply padTo_size. rewrite digests_length.
  unfold perBlock in Hc. pose proof (Nat.Div0.mul_div_le (Z.to_nat (hashBlockSize s)) 32). lia.
Qed.

End sized.

(** Blocks of data and of hashes have one size. *)
Section equal.
  Context (n : nat).
  Hypothesis Hdata : dataBlockSize s = Z.of_nat n.
  Hypothesis Hhash : hashBlockSize s = Z.of_nat n.
  Hypothesis Hn : (64 <= n)%nat.
  Hypothesis Hmax : (Z.of_nat n < 2 ^ 32)%Z.

Lemma perBlock_two : 2 <= perBlock.
Proof. unfold perBlock. rewrite Hhash, Nat2Z.id. apply Nat.div_le_lower_bound; lia. Qed.

Lemma nextLevel_blocks bs : Forall (fun b => length b = n) (nextLevel bs).
Proof. pose proof perBlock_two. replace n with (Z.to_nat (hashBlockSize s)) by lia. apply (nextLevel_uniform n); lia. Qed.

Lemma nextLevel_smaller bs : 1 < length bs -> 0 < length (nextLevel bs) < length bs.
Proof. intros Hl. pose proof perBlock_two as Hp. rewrite nextLevel_length by lia. pose proof (divUp_bounds (length bs) perBlock ltac:(lia) ltac:(lia)). nia. Qed.

Lemma levelsF_fuel f bs : length bs <= f -> levelsF f bs = levels bs.
Proof.
  unfold levels. assert (forall f g bs, length bs <= f -> length bs <= g -> levelsF f bs = levelsF g bs) as H; [|intros; by apply H].
  clear f bs. induction f as [|f IH]; intros [|g] bs Hf Hg; cbn [levelsF]; try (rewrite bool_decide_true by lia); try done.
  destruct (decide (length bs <= 1)); [by rewrite bool_decide_true|]. rewrite bool_decide_false by done. pose proof (nextLevel_smaller bs). f_equal. apply IH; lia.
Qed.

Lemma levels_step bs : 1 < length bs -> levels bs = bs :: levels (nextLevel bs).
Proof.
  intros Hl. unfold levels at 1. destruct (length bs) as [|k] eqn:Hk; [lia|]. cbn [levelsF]. rewrite bool_decide_false by lia. f_equal. apply levelsF_fuel.
  pose proof (nextLevel_smaller bs). lia.
Qed.

Lemma levels_blocks bs : Forall (fun b => length b = n) bs -> Forall (Forall (fun b => length b = n)) (levels bs).
Proof.
  unfold levels. generalize (length bs) as f. intros f. revert bs. induction f as [|f IH]; intros bs Hbs; cbn [levelsF]; [by repeat constructor|].
  constructor; [done|]. case_bool_decide; [done|]. apply IH, nextLevel_blocks.
Qed.

Lemma treeLoop_spec fuel pre bs : Forall (fun b => length b = n) bs -> 0 < length bs <= fuel ->
  treeLoop s fuel (pre ++ [concat bs]) = Some (pre ++ (@concat Z <$> levels bs)).
Proof.
  revert pre bs. induction fuel as [|fuel IH]; intros pre bs Hbs Hf; [lia|]. cbn [treeLoop]. unfold top. rewrite last_snoc. cbn [default from_option id].
  unfold len. rewrite (concat_length_uniform n) by done. destruct (decide (length bs = 1)) as [H1|H1].
  { rewrite (proj2 (Z.eqb_eq _ _)) by lia. by rewrite levels_one by lia. }
  rewrite (proj2 (Z.eqb_neq _ _)) by nia. pose proof perBlock_two. rewrite (computeLevel_spec n) by lia. rewrite blocksOf_concat by (done || lia).
  unfold push. pose proof (nextLevel_smaller bs ltac:(lia)). rewrite IH; [|apply nextLevel_blocks|lia]. rewrite (levels_step bs) by lia.
  by rewrite <- app_assoc.
Qed.

Lemma levels_top bs : 0 < length bs -> exists b, last (levels bs) = Some [b].
Proof.
  remember (length bs) as k eqn:Hk. revert bs Hk. induction (lt_wf k) as [k _ IH]; intros bs -> Hl. destruct (decide (length bs = 1)) as [H1|H1].
  { rewrite levels_one by lia. destruct bs as [|b [|]]; [done| |done]. by exists b. }
  rewrite levels_step by lia. pose proof (nextLevel_smaller bs ltac:(lia)).
  destruct (IH (length (nextLevel bs)) ltac:(lia) (nextLevel bs) eq_refl ltac:(lia)) as [b Hb]. exists b.
  by rewrite last_cons, Hb.
Qed.

End equal.

End tree.
End VerityTree.

(** * Verification by dm-verity

    The reading side: what the verity target of the kernel does with a mapping table and a
    hash device before it returns a block of the data device.  Blocks that the tree was made
    from pass, and others pass only with a collision of the hash function. *)

Module VerityCheck.
Import Bytes Sha256 Verity VerityTree.
Open Scope nat_scope.

(** ** The target *)

Definition devBlock (dev : bytes) (n k : nat) : bytes := take n (drop (k * n) dev).
Definition digestAt (hb : bytes) (k : nat) : bytes := take 32 (drop (k * 32) hb).

(** The numbers of hash blocks of the levels over [n] blocks, from the bottom; none over a single
    block. *)
Fixpoint levelSizesF (fuel d n : nat) : list nat :=
  match fuel with
  | O => []
  | S fuel => if n <=? 1 then [] else divUp n d :: levelSizesF fuel d (divUp n d)
  end.

Section target.
  Context (s : superblock) (root : bytes) (dev : bytes) (start : nat).

(** The top level comes first on the device.  The hash blocks that are read for block [idx]: *)
Fixpoint hashPath (sizes : list nat) (idx : nat) : list bytes :=
  match sizes with
  | [] => []
  | _ :: above => devBlock dev (Z.to_nat (hashBlockSize s)) (start + sum_list above + idx / perBlock s) :: hashPath above (idx / perBlock s)
  end.

(** The digest [h] of block [idx] is the one in its hash block, whose digest is again, up to the root. *)
Fixpoint verifyUp (sizes : list nat) (idx : nat) (h : bytes) : bool :=
  match sizes with
  | [] => bool_decide (h = root)
  | _ :: above =>
      let hb := devBlock dev (Z.to_nat (hashBlockSize s)) (start + sum_list above + idx / perBlock s) in
      bool_decide (digestAt hb (idx mod perBlock s) = h) && verifyUp above (idx / perBlock s) (saltedDigest s hb)
  end.
End target.

Definition levelSizes (s : superblock) : list nat := levelSizesF (Z.to_nat (dataBlocks s)) (perBlock s) (Z.to_nat (dataBlocks s)).

(** Whether [blk] is returned for block [i] of the data device. *)
Definition dmVerify (t : MappingTable) (dev : bytes) (i : nat) (blk : bytes) : bool :=
  bool_decide (i < Z.to_nat (dataBlocks (superblock_ t))) &&
  verifyUp (superblock_ t) (rootHash_ t) dev (Z.to_nat (HashStart t)) (levelSizes (superblock_ t)) i (saltedDigest (superblock_ t) blk).

(** The blocks that are hashed for this. *)
Definition dmPath (t : MappingTable) (dev : bytes) (i : nat) (blk : bytes) : list bytes :=
  blk :: hashPath (superblock_ t) dev (Z.to_nat (HashStart t)) (levelSizes (superblock_ t)) i.

(** Two blocks with the same digest. *)
Definition collides (s : superblock) (p : bytes * bytes) : Prop := p.1 <> p.2 /\ saltedDigest s p.1 = saltedDigest s p.2.

(** ** What passes is what was hashed *)

Lemma verifyUp_unique s root dev dev' start sizes i h h' :
  verifyUp s root dev start sizes i h = true -> verifyUp s root dev' start sizes i h' = true ->
  h = h' \/ Exists (collides s) (zip (hashPath s dev start sizes i) (hashPath s dev' start sizes i)).
Proof.
  revert i h h'. induction sizes as [|k above IH]; intros i h h'; cbn [verifyUp hashPath].
  { intros H H'. apply bool_decide_eq_true in H, H'. left. congruence. }
  intros [H Hu]%andb_true_iff [H' Hu']%andb_true_iff. apply bool_decide_eq_true in H, H'. cbn [zip zip_with].
  destruct (IH _ _ _ Hu Hu') as [Hd|Hc]; [|right; by constructor].
  destruct (decide (devBlock dev (Z.to_nat (hashBlockSize s)) (start + sum_list above + i / perBlock s) =
    devBlock dev' (Z.to_nat (hashBlockSize s)) (start + sum_list above + i / perBlock s))) as [Heq|Hne].
  - left. rewrite <- H, <- H', Heq. done.
  - right. left. by split.
Qed.

Lemma dmVerify_unique t dev dev' i blk blk' : dmVerify t dev i blk = true -> dmVerify t dev' i blk' = true ->
  blk' = blk \/ Exists (collides (superblock_ t)) (zip (dmPath t dev i blk) (dmPath t dev' i blk')).
Proof.
  intros [_ H]%andb_true_iff [_ H']%andb_true_iff. destruct (decide (blk' = blk)) as [|Hne]; [by left|]. right.
  destruct (verifyUp_unique _ _ _ _ _ _ _ _ _ H H') as [Hd|Hc]; [left; by split|by right].
Qed.

(** ** What was hashed passes *)

Lemma digestAt_hashBlock s bs k b : bs !! k = Some b -> digestAt (hashBlock s bs) k = saltedDigest s b.
Proof.
  intros Hk. unfold digestAt, hashBlock, padTo. generalize (zeros (Z.to_nat (hashBlockSize s) - length (concat (saltedDigest s <$> bs)))) as z. intros z.
  rewrite <- (take_drop_middle bs k b Hk), fmap_app, fmap_cons, concat_app. cbn [concat]. rewrite <- !app_assoc.
  assert (length (concat (saltedDigest s <$> take k bs)) = k * 32) as Hl.
  { rewrite digests_length, length_take. apply lookup_lt_Some in Hk. lia. }
  rewrite <- Hl, drop_app_length. apply take_app_length'. symmetry. apply saltedDigest_length.
Qed.

Lemma devBlock_concat n pre bs post k b : length pre mod n = 0 -> 0 < n -> Forall (fun b => length b = n) bs -> bs !! k = Some b ->
  devBlock (pre ++ concat bs ++ post) n (length pre / n + k) = b.
Proof.
  intros Hpre Hn Hbs Hk. unfold devBlock. rewrite Nat.mul_add_distr_r. rewrite <- drop_drop.
  assert (length pre / n * n = length pre) as -> by (pose proof (Nat.div_mod_eq (length pre) n); lia). rewrite drop_app_length.
  rewrite <- (take_drop_middle bs k b Hk), concat_app. cbn [concat]. rewrite <- !app_assoc.
  assert (length (concat (take k bs)) = k * n) as <-.
  { rewrite (concat_length_uniform n) by (by apply Forall_take). rewrite length_take. apply lookup_lt_Some in Hk. lia. }
  rewrite drop_app_length. apply take_app_length'. symmetry. apply (Forall_lookup_1 _ _ _ _ Hbs Hk).
Qed.

(** The hash blocks of a tree on the device, the top level first. *)
Definition treeBlocks (lvs : list (list bytes)) : list bytes := concat (reverse lvs).

Lemma treeBlocks_length lvs : length (treeBlocks lvs) = sum_list (length <$> lvs).
Proof.
  unfold treeBlocks. induction lvs as [|l lvs IH]; [done|]. rewrite reverse_cons, concat_app, length_app, IH. cbn [concat fmap list_fmap sum_list].
  rewrite app_nil_r. unfold id. lia.
Qed.

Lemma treeBlocks_cons l lvs : treeBlocks (l :: lvs) = treeBlocks lvs ++ l.
Proof. unfold treeBlocks. rewrite reverse_cons, concat_app. cbn [concat]. by rewrite app_nil_r. Qed.

Section equal.
  Context (s : superblock) (n : nat).
  Hypothesis Hdata : dataBlockSize s = Z.of_nat n.
  Hypothesis Hhash : hashBlockSize s = Z.of_nat n.
  Hypothesis Hn : (64 <= n)%nat.
  Hypothesis Hmax : (Z.of_nat n < 2 ^ 32)%Z.

Lemma levelSizesF_levels fuel bs : length bs <= fuel -> 1 < length bs ->
  levelSizesF fuel (perBlock s) (length bs) = length <$> levels s (nextLevel s bs).
Proof.
  pose proof (perBlock_two s n Hhash Hn). revert bs. induction fuel as [|fuel IH]; intros bs Hf Hl; [lia|]. cbn [levelSizesF]. rewrite (proj2 (Nat.leb_gt _ _)) by lia.
  pose proof (nextLevel_smaller s n Hhash Hn bs Hl) as Hs. rewrite <- nextLevel_length by lia. destruct (decide (length (nextLevel s bs) = 1)) as [H1|H1].
  - rewrite levels_one by lia. cbn [fmap list_fmap]. f_equal. rewrite H1. by destruct fuel.
  - rewrite (levels_step s n) by (done || lia). cbn [fmap list_fmap]. f_equal. apply IH; lia.
Qed.

Lemma devBlock_level pre post l above k b start : length pre = start * n -> Forall (Forall (fun b => length b = n)) (l :: above) -> l !! k = Some b ->
  devBlock (pre ++ concat (treeBlocks (l :: above)) ++ post) n (start + sum_list (length <$> above) + k) = b.
Proof.
  intros Hpre Hall Hk. pose proof (devBlock_concat n pre (treeBlocks (l :: above)) post (length (treeBlocks above) + k) b) as H.
  rewrite Hpre, Nat.Div0.mod_mul, Nat.div_mul, treeBlocks_length, Nat.add_assoc in H by lia. apply H; [done|lia| |].
  - unfold treeBlocks. apply Forall_concat. by apply Forall_reverse.
  - rewrite treeBlocks_cons, <- treeBlocks_length. by rewrite lookup_app_r, Nat.add_sub_swap, Nat.sub_diag by lia.
Qed.

Lemma verifyUp_levels bs i blk pre post start b : 1 < length bs -> bs !! i = Some blk -> length pre = start * n ->
  last (levels s (nextLevel s bs)) = Some [b] ->
  verifyUp s (saltedDigest s b) (pre ++ concat (treeBlocks (levels s (nextLevel s bs))) ++ post) start (length <$> levels s (nextLevel s bs)) i (saltedDigest s blk) = true.
Proof.
  remember (length bs) as k eqn:Hk. revert bs Hk i blk post. induction (lt_wf k) as [k _ IH]; intros bs -> i blk post Hl Hi Hpre Htop.
  pose proof (perBlock_two s n Hhash Hn). pose proof (nextLevel_smaller s n Hhash Hn bs Hl) as Hs.
  destruct (chunks_lookup (perBlock s) bs i blk ltac:(lia) Hi) as (c & Hc & Hic).
  assert (nextLevel s bs !! (i / perBlock s) = Some (hashBlock s c)) as Hb by (unfold nextLevel; by rewrite list_lookup_fmap, Hc).
  pose proof (levels_blocks s n Hhash Hn _ (nextLevel_blocks s n Hhash Hn bs)) as Hall.
  destruct (decide (length (nextLevel s bs) = 1)) as [H1|H1].
  - rewrite levels_one in * by lia. cbn [fmap list_fmap verifyUp]. rewrite Hhash, Nat2Z.id.
    rewrite (devBlock_level _ _ _ [] _ _ _ Hpre Hall Hb), (digestAt_hashBlock _ _ _ _ Hic), bool_decide_true by done. injection Htop as Htop. rewrite Htop in Hb.
    destruct (i / perBlock s); [|done]. injection Hb as ->. by rewrite bool_decide_true.
  - rewrite (levels_step s n) in * by (done || lia). cbn [fmap list_fmap verifyUp]. rewrite Hhash, Nat2Z.id.
    rewrite (devBlock_level _ _ _ _ _ _ _ Hpre Hall Hb), (digestAt_hashBlock _ _ _ _ Hic), bool_decide_true by done. cbn [andb].
    rewrite treeBlocks_cons, concat_app, <- app_assoc. apply (IH (length (nextLevel s bs))); try done; try lia.
    rewrite last_cons in Htop. destruct (last (levels s (nextLevel s (nextLevel s bs)))); [done|].
    injection Htop as Htop. by rewrite Htop in H1.
Qed.

End equal.

End VerityCheck.
