(* ===== verification/VerityEncoder.v ===== *)
(** * The encoder builds the hash tree of what was written to it *)

From S2P Require Import Prelude Bytes Sha256 Verity VerityTree.
From Stdlib Require Import ZArith.

Module VerityEncoder.
Import Bytes Sha256 Verity VerityTree VerityCheck.
Open Scope nat_scope.

(** ** Files *)

(** What a file holds after writing [p], whether or not there was room. *)
Definition filled (w : file) (p : bytes) : bytes := written w ++ take (Z.to_nat (room w)) p.

Lemma fileWrite_ok w p : (len p <= room w)%Z -> fileWrite w p = (true, File (written w ++ p) (room w - len p)).
Proof. intros H. unfold fileWrite. by rewrite (proj2 (Z.leb_le _ _)). Qed.

Lemma fileWrite_fails w p : (0 <= room w < len p)%Z -> fileWrite w p = (false, File (filled w p) 0).
Proof. intros H. unfold fileWrite. by rewrite (proj2 (Z.leb_gt _ _)) by lia. Qed.

Lemma filled_ok w p : (len p <= room w)%Z -> filled w p = written w ++ p.
Proof. intros H. unfold filled, len in *. by rewrite take_ge by lia. Qed.

Lemma filled_next w p q : (len p <= room w)%Z -> filled (File (written w ++ p) (room w - len p)) q = filled w (p ++ q).
Proof.
  intros H. unfold filled, len in *. cbn [written room]. rewrite take_app, (take_ge p), <- app_assoc by lia. do 3 f_equal. lia.
Qed.

Lemma filled_short w p q : (0 <= room w < len p)%Z -> filled w (p ++ q) = filled w p.
Proof. intros H. unfold filled, len in *. by rewrite take_app_le by lia. Qed.

(** Writing in parts is writing at once. *)
Lemma writeLevels_spec ls w : (0 <= room w)%Z -> exists err f, writeLevels ls w = (err, f) /\ written f = filled w (concat ls) /\
  (err = None <-> (len (concat ls) <= room w)%Z).
Proof.
  revert w. induction ls as [|l ls IH]; intros w Hw; cbn [writeLevels concat].
  { exists None, w. split; [done|]. split; [by rewrite filled_ok, app_nil_r by (unfold len; cbn [length]; lia)|]. unfold len. cbn [length]. split; [lia|done]. }
  assert (writeLevel l w = fileWrite w l) as ->.
  { unfold writeLevel. case_bool_decide; [|done]. subst. rewrite fileWrite_ok by (unfold len; cbn [length]; lia). destruct w. cbn. by rewrite app_nil_r, Z.sub_0_r. }
  pose proof (len_app l (concat ls)) as Hl. pose proof (len_nonneg (concat ls)). destruct (decide (len l <= room w)%Z) as [Hok|Hno].
  - rewrite fileWrite_ok by done. destruct (IH (File (written w ++ l) (room w - len l))) as (err & f & Hf & Hwr & He); [cbn [room]; lia|].
    exists err, f. split; [done|]. rewrite filled_next in Hwr by done. split; [done|]. rewrite He. cbn [room]. lia.
  - rewrite fileWrite_fails by lia. eexists _, _. split; [done|]. cbn [written]. split; [symmetry; apply filled_short; lia|]. split; [done|lia].
Qed.

Lemma copyFile_spec reads w : (0 <= room w)%Z ->
  if (len (concat reads) <=? room w)%Z then copyFile w reads = (true, File (written w ++ concat reads) (room w - len (concat reads)))
  else exists f, copyFile w reads = (false, f).
Proof.
  revert w. induction reads as [|p reads IH]; intros w Hw; cbn [copyFile concat].
  { rewrite (proj2 (Z.leb_le _ _)) by (unfold len; cbn [length]; lia). destruct w. cbn. by rewrite app_nil_r, Z.sub_0_r. }
  pose proof (len_app p (concat reads)) as Hl. pose proof (len_nonneg (concat reads)). destruct (decide (len p <= room w)%Z) as [Hok|Hno].
  - rewrite fileWrite_ok by done. specialize (IH (File (written w ++ p) (room w - len p)) ltac:(cbn [room]; lia)). cbn [room written] in IH.
    rewrite Hl. destruct (Z.leb_spec (len p + len (concat reads)) (room w)).
    + rewrite (proj2 (Z.leb_le _ _)) in IH by lia. rewrite IH. do 2 f_equal; [by rewrite app_assoc|lia].
    + by rewrite (proj2 (Z.leb_gt _ _)) in IH by lia.
  - rewrite (proj2 (Z.leb_gt _ _)) by lia. rewrite fileWrite_fails by lia. by eexists.
Qed.

Lemma concat_levels (lvs : list (list bytes)) : concat (reverse (@concat Z <$> lvs)) = concat (treeBlocks lvs).
Proof.
  unfold treeBlocks. induction lvs as [|l lvs IH]; [done|]. rewrite fmap_cons, !reverse_cons, !concat_app, IH. cbn [concat]. by rewrite !app_nil_r.
Qed.

(** ** Processing the buffer *)

Section process.
  Context (s : superblock) (n : nat).
  Hypothesis Hdata : dataBlockSize s = Z.of_nat n.
  Hypothesis Hhash : hashBlockSize s = Z.of_nat n.
  Hypothesis Hn : (64 <= n)%nat.
  Hypothesis Hmax : (Z.of_nat n < 2 ^ 32)%Z.

(** The data of a hash block. *)
Definition span : nat := perBlock s * n.

Lemma span_pos : 0 < span.
Proof. pose proof (perBlock_two s n Hhash Hn). unfold span. nia. Qed.

Lemma bph_eq : u64 (dataBlocksPerHashBlock s * dataBlockSize s) = Z.of_nat span.
Proof.
  assert (dataBlocksPerHashBlock s = Z.of_nat (perBlock s)) as ->.
  { unfold dataBlocksPerHashBlock, perBlock. rewrite Nat2Z.inj_div, Z2Nat.id by lia. done. }
  assert (Z.of_nat (perBlock s) <= Z.of_nat n)%Z by (unfold perBlock; rewrite Hhash, Nat2Z.id, Nat2Z.inj_div; apply Z.div_le_upper_bound; lia).
  rewrite Hdata, u64_small; unfold span; nia.
Qed.

(** The hash blocks over [p], and the number of its blocks. *)
Definition hashesOf (p : bytes) : bytes := concat (nextLevel s (blocksOf n p)).
Definition countOf (p : bytes) : Z := len (blocksOf n p).

Lemma hashesOf_nil : hashesOf [] = [].
Proof. done. Qed.

Lemma countOf_nil : countOf [] = 0%Z.
Proof. done. Qed.

Lemma hashesOf_app p q : (span | length p) -> hashesOf (p ++ q) = hashesOf p ++ hashesOf q.
Proof.
  intros Hd. pose proof (perBlock_two s n Hhash Hn). assert (n | length p) as Hnd by (etransitivity; [|done]; apply Nat.divide_factor_r).
  unfold hashesOf. rewrite blocksOf_app by (done || lia). rewrite nextLevel_app, concat_app; [done|lia|].
  rewrite blocksOf_length by lia. destruct Hd as [k ->]. unfold span, divUp. replace (k * (perBlock s * n) + n - 1) with (n - 1 + k * perBlock s * n) by lia.
  rewrite Nat.div_add, (Nat.div_small (n - 1)) by lia. apply Nat.divide_factor_r.
Qed.

Lemma countOf_app p q : (n | length p) -> countOf (p ++ q) = (countOf p + countOf q)%Z.
Proof. intros Hd. unfold countOf. by rewrite blocksOf_app, len_app by (done || lia). Qed.

Lemma countOf_bound p : (0 <= countOf p <= len p)%Z.
Proof.
  unfold countOf, len. rewrite blocksOf_length by lia. destruct p as [|x p]; [rewrite divUp_small; cbn [length]; lia|].
  pose proof (divUp_bounds (length (x :: p)) n). cbn [length] in *. nia.
Qed.

Lemma computeHashBlock_first buf : buf <> [] ->
  computeHashBlock s buf = (Some (hashesOf (take span buf)), countOf (take span buf), bool_decide (length buf < span), drop span buf).
Proof.
  intros Hb. pose proof (perBlock_two s n Hhash Hn). pose proof span_pos. rewrite (computeHashBlock_spec s n) by (done || lia). unfold countOf, hashesOf.
  rewrite (nextLevel_step s n) by (lia || (destruct buf; [done|]; by destruct span; [lia|])). fold span.
  rewrite (drop_ge (take span buf)) by (rewrite length_take; lia).
  assert (nextLevel s (blocksOf n []) = []) as -> by done. cbn [concat]. rewrite app_nil_r, !blocksOf_take by lia. fold span. by rewrite take_take, Nat.min_id.
Qed.

Lemma processLoop_spec incomplete fuel tdcnt bottom buf : length buf < fuel -> (0 <= tdcnt)%Z -> (tdcnt + len buf < 2 ^ 64)%Z -> exists p rest, buf = p ++ rest /\
  processLoop s incomplete fuel tdcnt bottom buf = Some ((tdcnt + countOf p)%Z, bottom ++ hashesOf p, rest) /\
  if incomplete then rest = [] else length rest < span /\ (span | length p).
Proof.
  revert tdcnt bottom buf. pose proof span_pos as Hspan. induction fuel as [|fuel IH]; intros tdcnt bottom buf Hf Ht Hb; [lia|]. cbn [processLoop]. rewrite bph_eq.
  unfold len in *. destruct ((Z.of_nat span <=? _)%Z || _) eqn:Hgo.
  - assert (buf <> []) as Hne.
    { intros ->. apply orb_true_iff in Hgo as [Hgo%Z.leb_le|[_ Hgo]%andb_true_iff]; cbn [length] in Hgo; [lia|done]. }
    rewrite computeHashBlock_first by done. pose proof (countOf_bound (take span buf)) as Hc. unfold len in Hc. rewrite length_take in Hc.
    rewrite u64_small by lia. cbn [default from_option id].
    assert (length (drop span buf) < fuel) as Hdr by (rewrite length_drop; destruct buf; [done|]; cbn [length] in *; lia).
    destruct (IH (tdcnt + countOf (take span buf))%Z (bottom ++ hashesOf (take span buf)) (drop span buf)) as (p & rest & Hp & -> & Hr); [done|lia|rewrite length_drop; lia|].
    exists (take span buf ++ p), rest. split; [by rewrite <- app_assoc, <- Hp, take_drop|].
    destruct (decide (span <= length buf)) as [Hfull|Hpart].
    + assert (length (take span buf) = span) as Hlen by (rewrite length_take; lia).
      rewrite hashesOf_app, countOf_app by (rewrite Hlen; apply Nat.divide_refl || apply Nat.divide_factor_r).
      split; [by rewrite app_assoc, Z.add_assoc|]. destruct incomplete; [done|]. destruct Hr as [Hr Hd]. split; [done|]. rewrite length_app, Hlen. by apply Nat.divide_add_r.
    + rewrite drop_ge in Hp by lia. symmetry in Hp. apply app_nil in Hp as [-> ->]. rewrite countOf_nil, hashesOf_nil, !app_nil_r, Z.add_0_r.
      split; [done|]. destruct incomplete; [done|]. apply orb_true_iff in Hgo as [Hgo%Z.leb_le|Hgo]; [lia|done].
  - apply orb_false_iff in Hgo as [Hlt%Z.leb_gt Hi]. destruct incomplete; cbn [andb] in Hi.
    + apply negb_false_iff, Z.eqb_eq in Hi. assert (buf = []) as -> by (by apply nil_length_inv; lia). exists [], []. split; [done|]. by rewrite countOf_nil, hashesOf_nil, app_nil_r, Z.add_0_r.
    + exists [], buf. split; [done|]. rewrite countOf_nil, hashesOf_nil, app_nil_r, Z.add_0_r. split; [done|]. split; [lia|apply Nat.divide_0_r].
Qed.

End process.

(** ** The encoder after writes *)

Section encoder.
  Context (s : superblock) (n : nat) (w : file) (wsb : bool).
  Hypothesis Hdata : dataBlockSize s = Z.of_nat n.
  Hypothesis Hhash : hashBlockSize s = Z.of_nat n.
  Hypothesis Hn : (64 <= n)%nat.
  Hypothesis Hmax : (Z.of_nat n < 2 ^ 32)%Z.

(** The encoder after [p] has been hashed and with [buf] in its buffer. *)
Definition state (p buf : bytes) : encoder := Encoder w wsb (setDataBlocks (countOf n p) s) (hashesOf s n p) buf None.

Lemma processDataBuffer_state incomplete p buf : (span s n | length p) -> (len (p ++ buf) < 2 ^ 63)%Z -> exists q rest, buf = q ++ rest /\
  (processDataBuffer incomplete (state p buf) = Some (countOf n q, Encoder w wsb (setDataBlocks (countOf n p) s) (hashesOf s n (p ++ q)) rest None) /\
   addBlocks (countOf n q) (Encoder w wsb (setDataBlocks (countOf n p) s) (hashesOf s n (p ++ q)) rest None) = state (p ++ q) rest) /\
  if incomplete then rest = [] else (span s n | length (p ++ q)).
Proof.
  intros Hp Hl. rewrite len_app in Hl. pose proof (len_nonneg p). pose proof (len_nonneg buf). unfold processDataBuffer, state. cbn [sb bottom dataBuffer out writeSb rootHash].
  destruct (processLoop_spec (setDataBlocks (countOf n p) s) n Hdata Hhash Hn Hmax incomplete (S (length buf)) 0 (hashesOf s n p) buf) as (q & rest & -> & -> & Hr); [lia|lia|lia|].
  exists q, rest. split; [done|]. change (hashesOf (setDataBlocks (countOf n p) s) n q) with (hashesOf s n q).
  rewrite <- (hashesOf_app s n) by done. split.
  - split; [by rewrite Z.add_0_l|]. unfold addBlocks, setDataBlocks. cbn [out writeSb sb bottom dataBuffer rootHash dataBlocks].
    rewrite (countOf_app n Hn p q) by (etransitivity; [apply Nat.divide_factor_r|done]).
    pose proof (countOf_bound n Hn p). pose proof (countOf_bound n Hn q). rewrite len_app in *. rewrite u64_small by (pose proof (len_nonneg rest); lia). done.
  - destruct incomplete; [done|]. destruct Hr as [_ Hr]. rewrite length_app. by apply Nat.divide_add_r.
Qed.

Lemma copyEncoder_state p buf ds : (span s n | length p) -> (len (p ++ buf ++ concat ds) < 2 ^ 63)%Z ->
  exists q rest, p ++ buf ++ concat ds = q ++ rest /\ copyEncoder (state p buf) ds = Some (state q rest) /\ (span s n | length q).
Proof.
  revert p buf. induction ds as [|d ds IH]; intros p buf Hp Hl; cbn [concat copyEncoder].
  { exists p, buf. by rewrite app_nil_r. }
  unfold Write. cbn [concat] in Hl. rewrite (app_assoc buf) in *. rewrite (app_assoc p) in Hl. rewrite len_app in Hl. pose proof (len_nonneg (concat ds)).
  destruct (processDataBuffer_state false p (buf ++ d) Hp ltac:(lia)) as (q & rest & Hb & [Hs Ha] & Hq). cbn [state sb bottom dataBuffer out writeSb rootHash].
  unfold state in Hs. rewrite Hs, Ha. destruct (IH (p ++ q) rest Hq) as (q' & rest' & Hc & Hcopy & Hq').
  { rewrite <- !app_assoc, (app_assoc q), <- Hb, (app_assoc p), len_app. done. }
  exists q', rest'. split; [|done]. by rewrite <- Hc, <- !app_assoc, (app_assoc q), <- Hb, <- !app_assoc.
Qed.

(** ** Closing it *)

(** The superblock, the tree and the hash device for [data]. *)
Definition finalSb (data : bytes) : superblock := setDataBlocks (countOf n data) s.
Definition treeOf (data : bytes) : list (list bytes) := levels s (nextLevel s (blocksOf n data)).
Definition header (data : bytes) : bytes := if wsb then padTo n (encodeSuperblock (finalSb data)) else [].
Definition hashImage (data : bytes) : bytes := header data ++ concat (treeBlocks (treeOf data)).

Lemma superblockWriteTo_spec x f : length (encodeSuperblock x) = 512 -> hashBlockSize x = Z.of_nat n -> 512 < n -> (0 <= room f)%Z ->
  let h := padTo n (encodeSuperblock x) in
  if (len h <=? room f)%Z then superblockWriteTo x f = (None, File (written f ++ h) (room f - len h))
  else exists err f', superblockWriteTo x f = (Some err, f') /\ written f' = filled f h.
Proof.
  intros Hx Hb H512 Hf h. unfold superblockWriteTo, superblockSize. subst h. unfold padTo. rewrite Hx, Hb, (proj2 (Z.leb_gt (Z.of_nat n - 512) 0)) by lia.
  replace (Z.to_nat (Z.of_nat n - 512)) with (n - 512) by lia. assert (len (zeros (n - 512)) = Z.of_nat n - 512)%Z as Hz by (unfold len, zeros; rewrite length_replicate; lia).
  rewrite len_app, Hz. assert (len (encodeSuperblock x) = 512%Z) as He by (unfold len; lia). rewrite He. destruct (Z.leb_spec (512 + (Z.of_nat n - 512)) (room f)).
  - rewrite fileWrite_ok, fileWrite_ok by (cbn [room]; lia). cbn [written room]. rewrite He, Hz, app_assoc. do 2 f_equal. lia.
  - destruct (decide (512 <= room f)%Z).
    + rewrite fileWrite_ok, fileWrite_fails by (cbn [room]; lia). eexists _, _. split; [done|]. cbn [written]. apply filled_next. lia.
    + rewrite fileWrite_fails by lia. eexists _, _. split; [done|]. cbn [written]. symmetry. apply filled_short. lia.
Qed.

Lemma hashesOf_nonempty data : data <> [] -> hashesOf s n data <> [].
Proof.
  intros Hd. pose proof (perBlock_two s n Hhash Hn). unfold hashesOf. rewrite (nextLevel_step s n) by (done || lia). cbn [concat]. unfold hashBlock, padTo.
  rewrite <- app_assoc. pose proof (blocksOf_step n data ltac:(lia) Hd) as ->. destruct (perBlock s) as [|k]; [lia|]. cbn [take fmap list_fmap concat].
  rewrite <- !app_assoc. apply (digest_cons_nonempty s []).
Qed.

Lemma computeHashTree_state data : data <> [] -> exists b, last (treeOf data) = Some [b] /\
  computeHashTree (state data []) = Some (@concat Z <$> treeOf data, Encoder w wsb (finalSb data) (hashesOf s n data) [] (Some (saltedDigest s b))).
Proof.
  intros Hd. pose proof (perBlock_two s n Hhash Hn) as H2. assert (0 < length (nextLevel s (blocksOf n data))) as Hpos.
  { rewrite (nextLevel_step s n) by (done || lia). cbn [length]. lia. }
  destruct (levels_top s n Hhash Hn (nextLevel s (blocksOf n data)) Hpos) as [b Hb]. exists b. split; [done|].
  unfold computeHashTree, state. cbn [sb bottom out writeSb dataBuffer rootHash]. pose proof (nextLevel_blocks s n Hhash Hn (blocksOf n data)) as Hu.
  assert (length (hashesOf s n data) = length (nextLevel s (blocksOf n data)) * n) as Hl by (by apply concat_length_uniform).
  pose proof (treeLoop_spec (finalSb data) n Hdata Hhash Hn Hmax (S (length (hashesOf s n data))) [] (nextLevel s (blocksOf n data)) Hu ltac:(nia)) as Ht.
  change (levels (finalSb data) (nextLevel s (blocksOf n data))) with (treeOf data) in Ht. cbn [app] in Ht. unfold hashesOf, finalSb in *. rewrite Ht.
  do 4 f_equal. unfold top. rewrite fmap_last. unfold treeOf. rewrite Hb. cbn. by rewrite app_nil_r.
Qed.

Definition sbOk (data : bytes) : Prop := wsb = true -> 512 < n /\ length (encodeSuperblock (finalSb data)) = 512.

Lemma Close_state p buf data : (span s n | length p) -> data = p ++ buf -> (len data < 2 ^ 63)%Z -> data <> [] -> (0 <= room w)%Z -> sbOk data ->
  exists err e b, Close (state p buf) = Some (err, e) /\ last (treeOf data) = Some [b] /\ (err = None <-> (len (hashImage data) <= room w)%Z) /\
    written (out e) = filled w (hashImage data) /\ sb e = finalSb data /\ writeSb e = wsb /\ rootHash e = Some (saltedDigest s b).
Proof.
  intros Hp -> Hl Hne Hw Hsb. unfold Close. destruct (processDataBuffer_state true p buf Hp Hl) as (q & rest & -> & [-> ->] & ->).
  rewrite app_nil_r in *. cbn [state bottom]. rewrite bool_decide_false by (by apply hashesOf_nonempty).
  destruct (computeHashTree_state (p ++ q) Hne) as (b & Hb & ->). cbn [writeSb sb out]. unfold hashImage, header, treeWriteTo.
  assert (forall f, (0 <= room f)%Z -> exists err f', writeLevels (reverse (@concat Z <$> treeOf (p ++ q))) f = (err, f') /\
    written f' = filled f (concat (treeBlocks (treeOf (p ++ q)))) /\ (err = None <-> (len (concat (treeBlocks (treeOf (p ++ q)))) <= room f)%Z)) as Htree.
  { intros f Hf. rewrite <- concat_levels. by apply writeLevels_spec. }
  unfold sbOk in Hsb. destruct wsb.
  2:{ destruct (Htree w Hw) as (err & f & -> & Hwr & He). by eexists _, _, b. }
  destruct (Hsb eq_refl) as [H512 Henc]. pose proof (superblockWriteTo_spec (finalSb (p ++ q)) w Henc Hhash H512 Hw) as Hs. cbv zeta in Hs.
  pose proof (len_nonneg (concat (treeBlocks (treeOf (p ++ q))))). rewrite len_app. destruct (Z.leb_spec (len (padTo n (encodeSuperblock (finalSb (p ++ q))))) (room w)).
  - rewrite Hs. destruct (Htree (File (written w ++ padTo n (encodeSuperblock (finalSb (p ++ q)))) (room w - len (padTo n (encodeSuperblock (finalSb (p ++ q)))))))
      as (err & f & -> & Hwr & He); [cbn [room]; lia|]. rewrite filled_next in Hwr by done. eexists _, _, b. do 2 (split; [done|]). split; [|done].
    rewrite He. cbn [room]. lia.
  - destruct Hs as (err & f & -> & Hwr). eexists _, _, b. do 2 (split; [done|]). split; [split; [done|lia]|]. split; [|done].
    cbn [out setOut]. rewrite Hwr. symmetry. apply filled_short. lia.
Qed.

End encoder.

End VerityEncoder.
