(* ===== verification/VerityProps.v ===== *)
(** * Properties of dm-verity images

    Every block of the data passes the verification of the kernel with the hash device and the
    table that the encoder makes, and no other block does unless two blocks that are hashed collide;
    [mkverity] makes such an image.  A device of a single block is not accepted. *)

From S2P Require Import Prelude Bytes Sha256 Verity VerityTree VerityEncoder.
From Stdlib Require Import ZArith.

Module VerityProps.
Import Bytes Sha256 Verity VerityTree VerityCheck VerityEncoder.
Open Scope nat_scope.

(** ** The table and the hash device *)

Section image.
  Context (s : superblock) (n : nat) (wsb : bool) (data : bytes).
  Hypothesis Hdata : dataBlockSize s = Z.of_nat n.
  Hypothesis Hhash : hashBlockSize s = Z.of_nat n.
  Hypothesis Hn : (64 <= n)%nat.
  Hypothesis Hmax : (Z.of_nat n < 2 ^ 32)%Z.
  Hypothesis Htwo : n < length data.
  Hypothesis Hsb : sbOk s n wsb data.

Lemma blocks_two : 1 < length (blocksOf n data).
Proof. rewrite blocksOf_length by lia. pose proof (divUp_bounds (length data) n). nia. Qed.

Lemma levelSizes_final : levelSizes (finalSb s n data) = length <$> treeOf s n data.
Proof.
  unfold levelSizes. cbn [finalSb setDataBlocks dataBlocks]. unfold countOf, len. rewrite Nat2Z.id. apply (levelSizesF_levels s n Hhash Hn); [lia|apply blocks_two].
Qed.

Lemma header_length : length (header s n wsb data) = (if wsb then 1 else 0) * n.
Proof. unfold header. unfold sbOk in Hsb. destruct wsb; [|done]. destruct (Hsb eq_refl). rewrite padTo_size by lia. lia. Qed.

Lemma image_verifies t b pre post i blk : superblock_ t = finalSb s n data -> rootHash_ t = saltedDigest s b -> last (treeOf s n data) = Some [b] ->
  length pre + length (header s n wsb data) = Z.to_nat (HashStart t) * n -> blocksOf n data !! i = Some blk ->
  dmVerify t (pre ++ hashImage s n wsb data ++ post) i blk = true.
Proof.
  intros Hs Hr Hb Hstart Hi. unfold dmVerify. rewrite Hs, Hr, levelSizes_final. cbn [finalSb setDataBlocks dataBlocks]. unfold countOf, len. rewrite Nat2Z.id.
  rewrite bool_decide_true by (by eapply lookup_lt_Some). unfold hashImage. rewrite <- !app_assoc, (app_assoc pre).
  apply (verifyUp_levels s n Hhash Hn); [apply blocks_two|done|by rewrite length_app|done].
Qed.

(** What passes is the block that was hashed, or hashing it found a collision. *)
Lemma image_sound t b pre post dev i blk : superblock_ t = finalSb s n data -> rootHash_ t = saltedDigest s b -> last (treeOf s n data) = Some [b] ->
  length pre + length (header s n wsb data) = Z.to_nat (HashStart t) * n -> dmVerify t dev i blk = true ->
  exists blk0, blocksOf n data !! i = Some blk0 /\
    (blk = blk0 \/ Exists (collides (superblock_ t)) (zip (dmPath t (pre ++ hashImage s n wsb data ++ post) i blk0) (dmPath t dev i blk))).
Proof.
  intros Hs Hr Hb Hstart Hv. destruct (lookup_lt_is_Some_2 (blocksOf n data) i) as [blk0 Hblk].
  { unfold dmVerify in Hv. apply andb_true_iff in Hv as [Hi%bool_decide_eq_true _]. rewrite Hs in Hi. cbn [finalSb setDataBlocks dataBlocks] in Hi.
    unfold countOf, len in Hi. by rewrite Nat2Z.id in Hi. }
  exists blk0. split; [done|]. apply dmVerify_unique; [|done]. by apply (image_verifies t b).
Qed.

End image.

(** ** New encoders *)

Definition freshSb (u sl : bytes) (n : nat) : superblock :=
  setBlockSizes (Z.of_nat n) (Z.of_nat n) (Superblock (ascii_bytes "verity" ++ [0%Z; 0%Z]) 1 1 u (ascii_bytes "sha256" ++ zeros 26) 4096 4096 0 64 sl).

Lemma NewEncoder_state u sl w n wsb :
  NewEncoder (Some u) (Some sl) w (Z.of_nat n) (Z.of_nat n) wsb = Ok (state (freshSb u sl n) n w wsb [] []).
Proof. done. Qed.

Lemma freshSb_ok u sl n wsb data : length u = 16 -> length sl = 256 -> (wsb = true -> 512 < n) -> sbOk (freshSb u sl n) n wsb data.
Proof.
  intros Hu Hl Hw Ht. split; [by apply Hw|]. unfold encodeSuperblock. cbn [finalSb setDataBlocks freshSb setBlockSizes signature uuid algorithm saltBuffer].
  rewrite !length_app, !le_length, Hu, Hl. unfold zeros. by rewrite !length_replicate.
Qed.

(** An encoder from its creation to its end. *)
Lemma encoder_run u sl w n wsb ds : length u = 16 -> length sl = 256 -> 64 <= n -> (Z.of_nat n < 2 ^ 32)%Z -> (wsb = true -> 512 < n) ->
  concat ds <> [] -> (len (concat ds) < 2 ^ 63)%Z -> (0 <= room w)%Z ->
  let s := freshSb u sl n in let data := concat ds in
  exists e1 err e2 b, copyEncoder (state s n w wsb [] []) ds = Some e1 /\ Close e1 = Some (err, e2) /\ last (treeOf s n data) = Some [b] /\
    (err = None <-> (len (hashImage s n wsb data) <= room w)%Z) /\ written (out e2) = filled w (hashImage s n wsb data) /\
    sb e2 = finalSb s n data /\ writeSb e2 = wsb /\ rootHash e2 = Some (saltedDigest s b).
Proof.
  intros Hu Hsl Hn Hmax Hw Hne Hl Hr s data. destruct (copyEncoder_state s n w wsb eq_refl eq_refl Hn Hmax [] [] ds) as (p & buf & Hd & Hc & Hp); [apply Nat.divide_0_r|done|].
  cbn [app] in Hd. destruct (Close_state s n w wsb eq_refl eq_refl Hn Hmax p buf data Hp Hd Hl Hne Hr (freshSb_ok u sl n wsb data Hu Hsl Hw)) as (err & e2 & b & H).
  by exists (state s n w wsb p buf), err, e2, b.
Qed.

(** C9: With a UUID and a salt from the random source, data and hash blocks of one size, at least 64 bytes, and more than 512 with a superblock,
    and lengths and offsets that fit an int64: however data of more than one block is
    split into writes, closing the encoder writes the hash tree of all of
    it, or as much as there is room for and an error.  With the table of the encoder, dm-verity accepts every
    block of the data, the last padded with zeros; and whatever the hash device holds, it accepts a block
    that is not the one written only if two different blocks among those it hashed have the same digest. *)
Theorem verity_correct u sl w n wsb ds dd hd hs pre post : length u = 16 -> length sl = 256 -> 64 <= n -> (Z.of_nat n < 2 ^ 32)%Z -> (wsb = true -> 512 < n) ->
  n < length (concat ds) -> (len (concat ds) < 2 ^ 63)%Z -> (0 <= room w)%Z -> (0 <= hs < 2 ^ 63 - 1)%Z -> length pre = Z.to_nat hs * n ->
  exists e e1 err e2 t img, NewEncoder (Some u) (Some sl) w (Z.of_nat n) (Z.of_nat n) wsb = Ok e /\
    copyEncoder e ds = Some e1 /\ Close e1 = Some (err, e2) /\ mappingTable e2 dd hd hs = Ok t /\
    (err = None <-> (len img <= room w)%Z) /\ written (out e2) = written w ++ take (Z.to_nat (room w)) img /\
    img = hashImage (sb e) n wsb (concat ds) /\ dataBlocks (superblock_ t) = Z.of_nat (divUp (length (concat ds)) n) /\
    (forall i blk, blocksOf n (concat ds) !! i = Some blk -> dmVerify t (pre ++ img ++ post) i blk = true) /\
    (forall dev i blk, dmVerify t dev i blk = true -> exists blk0, blocksOf n (concat ds) !! i = Some blk0 /\
      (blk = blk0 \/ Exists (collides (superblock_ t)) (zip (dmPath t (pre ++ img ++ post) i blk0) (dmPath t dev i blk)))).
Proof.
  intros Hu Hsl Hn Hmax Hw Htwo Hl Hr Hhs Hpre. assert (concat ds <> []) as Hne by (intros H; rewrite H in Htwo; cbn [length] in Htwo; lia).
  destruct (encoder_run u sl w n wsb ds Hu Hsl Hn Hmax Hw Hne Hl Hr) as (e1 & err & e2 & b & Hc & Hcl & Hb & Herr & Hwr & Hs & Hws & Hroot).
  pose proof (freshSb_ok u sl n wsb (concat ds) Hu Hsl Hw) as Hok. assert (length (header (freshSb u sl n) n wsb (concat ds)) = (if wsb then 1 else 0) * n) as Hh by (by apply header_length).
  eexists _, e1, err, e2, _, _. split; [apply NewEncoder_state|]. do 2 (split; [done|]). split; [unfold mappingTable; by rewrite Hroot, Hs, Hws|].
  do 2 (split; [done|]). split; [done|]. split; [cbn [superblock_ finalSb setDataBlocks dataBlocks]; unfold countOf, len; by rewrite blocksOf_length by lia|].
  assert (length pre + length (header (freshSb u sl n) n wsb (concat ds)) = Z.to_nat (if wsb then i64 (hs + 1) else hs) * n) as Hstart.
  { rewrite Hpre, Hh. destruct wsb; [rewrite i64_small by lia; rewrite Z2Nat.inj_add by lia|]; lia. }
  split.
  - intros i blk Hi. by apply (image_verifies (freshSb u sl n) n wsb (concat ds)) with (b := b).
  - intros dev i blk Hv. by apply (image_sound (freshSb u sl n) n wsb (concat ds)) with (b := b).
Qed.

Lemma verity_correct_witness : let ds := [replicate 40 1%Z; replicate 110 2%Z] in
  exists e e1 err e2 t img, NewEncoder (Some (zeros 16)) (Some (zeros 256)) (File [] 1000) 64 64 false = Ok e /\
    copyEncoder e ds = Some e1 /\ Close e1 = Some (err, e2) /\ mappingTable e2 "data" "hash" 2 = Ok t /\ dataBlocks (superblock_ t) = 3%Z /\
    (forall i blk, blocksOf 64 (concat ds) !! i = Some blk -> dmVerify t (zeros 128 ++ img ++ [1%Z]) i blk = true).
Proof.
  intros ds. destruct (verity_correct (zeros 16) (zeros 256) (File [] 1000) 64 false ds "data" "hash" 2 (zeros 128) [1%Z])
    as (e & e1 & err & e2 & t & img & He & Hc & Hcl & Ht & _ & _ & _ & Hd & Hv & _); try done; try (cbn; lia).
  by exists e, e1, err, e2, t, img.
Defined.

(** ** [mkverity] *)

Lemma devBlock_blocksOf n data post i blk : 0 < n -> (n | length data) -> blocksOf n data !! i = Some blk -> devBlock (data ++ post) n i = blk.
Proof.
  intros Hn [k Hk] Hi. assert (concat (blocksOf n data) = data) as Hc.
  { clear Hi. revert k Hk. unfold blocksOf. revert data. apply (chunks_ind n (fun data => forall k, length data = k * n -> concat (padTo n <$> chunks n data) = data)); [done|done|].
    intros l Hl IH k Hk. rewrite chunks_step by done. cbn [fmap list_fmap concat]. destruct k as [|k]; [destruct l; [done|]; cbn [length] in Hk; lia|].
    rewrite (IH k) by (rewrite length_drop; lia). rewrite padTo_full by (rewrite length_take; lia). apply take_drop. }
  pose proof (devBlock_concat n [] (blocksOf n data) post i blk) as H. cbn [app length] in H. rewrite Hc, Nat.Div0.div_0_l in H. apply H; try done.
  - apply Nat.Div0.mod_0_l.
  - by apply blocksOf_uniform.
Qed.

Lemma blocksOf_exists n data i : 0 < n -> i < divUp (length data) n -> exists blk, blocksOf n data !! i = Some blk.
Proof. intros Hn Hi. apply lookup_lt_is_Some_2. by rewrite blocksOf_length. Qed.

(** A data image of [data] that can be read. *)
Definition imageOf (ds : image) (data : bytes) : Prop :=
  isRegular ds = true /\ size ds = len data /\ concat (reads1 ds) = data /\ concat (reads2 ds) = data.

Definition blockSize : nat := Z.to_nat 4096.

Lemma blockSize_eq : Z.of_nat blockSize = 4096%Z.
Proof. done. Qed.

(** The table for an image of [data] with [img] after it. *)
Definition goodTable (t : MappingTable) (data img : bytes) : Prop :=
  let whole := data ++ img in
  dataBlocks (superblock_ t) = (len data / 4096)%Z /\
  (forall i, i < length data / blockSize -> dmVerify t whole i (devBlock whole blockSize i) = true) /\
  (forall dev i, dmVerify t dev i (devBlock dev blockSize i) = true -> devBlock dev blockSize i = devBlock data blockSize i \/
    Exists (collides (superblock_ t)) (zip (dmPath t whole i (devBlock data blockSize i)) (dmPath t dev i (devBlock dev blockSize i)))).

Lemma goodTable_image s wsb data t b k : dataBlockSize s = Z.of_nat blockSize -> hashBlockSize s = Z.of_nat blockSize -> sbOk s blockSize wsb data ->
  length data = k * blockSize -> 1 < k -> superblock_ t = finalSb s blockSize data -> rootHash_ t = saltedDigest s b -> last (treeOf s blockSize data) = Some [b] ->
  HashStart t = Z.of_nat (k + if wsb then 1 else 0) -> goodTable t data (hashImage s blockSize wsb data).
Proof.
  intros Hd Hh Hsb Hk Hk1 Hs Hr Hb Hst. unfold goodTable. pose proof blockSize_eq as Hbs. remember blockSize as n eqn:Hn. clear Hn.
  assert (length data + length (header s n wsb data) = Z.to_nat (HashStart t) * n) as Hpre by (rewrite header_length, Hst, Nat2Z.id by (done || lia); lia).
  assert (n < length data) as Htwo by nia. assert (n | length data) as Hdiv by (by exists k).
  assert (divUp (length data) n = k) as Hup by (rewrite Hk; unfold divUp; symmetry; apply (Nat.div_unique _ _ _ (n - 1)); lia).
  split; [|split].
  - rewrite Hs. cbn [finalSb setDataBlocks dataBlocks]. unfold countOf, len. rewrite blocksOf_length by lia. rewrite Hup, Hk, Nat2Z.inj_mul, Hbs, Z.div_mul; lia.
  - intros i Hi. rewrite Hk, Nat.div_mul in Hi by lia. destruct (blocksOf_exists n data i) as [blk Hblk]; [lia|lia|].
    rewrite (devBlock_blocksOf n data _ i blk) by (done || lia). rewrite <- (app_nil_r (hashImage s n wsb data)).
    apply (image_verifies s n wsb data) with (b := b); done || lia.
  - intros dev i Hv. destruct (image_sound s n wsb data Hh ltac:(lia) ltac:(lia) Htwo t b data [] dev i _ Hs Hr Hb Hpre Hv) as (blk0 & Hblk & Hc).
    pose proof (devBlock_blocksOf n data [] i blk0 ltac:(lia) Hdiv Hblk) as He. rewrite app_nil_r in He. rewrite He. by rewrite app_nil_r in Hc.
Qed.

(** C8: With a UUID and a salt from the random source, from a regular file with a data image of at least two whole blocks of 4096 bytes, of a
    length that fits an int64, and to a file that can be created, [mkverity] makes an image that starts with the data and
    that dm-verity accepts in all blocks, with itself as hash device, or fails because there is no room for it.
    However the image is changed, a block that is accepted is the one of the data image, unless two
    different blocks that were hashed have the same digest. *)
Theorem createImage_correct u sl ds data r dp op wsb : length u = 16 -> length sl = 256 -> imageOf ds data -> (blockSize | length data) -> blockSize < length data ->
  (len data < 2 ^ 63)%Z -> (0 <= r)%Z ->
  let hashes := hashImage (freshSb u sl blockSize) blockSize wsb data in
  exists res f, createImage (Some u) (Some sl) (Some ds) (Some (File [] r)) dp op wsb = Some (res, Some f) /\
    match res with
    | Err _ => (r < len (data ++ hashes))%Z
    | Ok t => written f = data ++ hashes /\ goodTable t data hashes
    end.
Proof.
  intros Hu Hsl (Hreg & Hsize & Hr1 & Hr2) [k Hk] Htwo Hl Hr hashes. pose proof blockSize_eq as Hbs. pose proof (len_nonneg hashes) as Hh.
  assert (len data = Z.of_nat k * 4096)%Z as Hlen by (unfold len; rewrite Hk, Nat2Z.inj_mul, Hbs; done). assert (1 < k) as Hk1 by nia.
  unfold createImage. rewrite Hreg, Hsize, Hlen, Z.mod_mul, Z.eqb_refl by done. cbn [negb].
  pose proof (copyFile_spec (reads1 ds) (File [] r) Hr) as Hcopy. rewrite Hr1 in Hcopy. cbn [room written app] in Hcopy. rewrite len_app.
  destruct (Z.leb_spec (len data) r) as [Hroom|Hfull].
  2:{ destruct Hcopy as [f ->]. eexists _, f. split; [done|]. cbn. lia. }
  rewrite Hcopy, <- Hbs, NewEncoder_state. destruct (encoder_run u sl (File data (r - len data)) blockSize wsb (reads2 ds)) as
    (e1 & err & e2 & b & -> & -> & Hb & Herr & Hwr & Hs & Hws & Hroot); try done; try lia.
  { rewrite Hr2. intros ->. cbn [length] in Hk. lia. }
  { by rewrite Hr2. }
  { cbn [room]. lia. }
  rewrite Hr2 in *. fold hashes in Herr, Hwr. cbn [room] in Herr. destruct err as [err|].
  { eexists _, _. split; [done|]. cbn. destruct (decide (r < len data + len hashes)%Z); [done|]. by destruct Herr as [_ Herr]; discriminate Herr; lia. }
  eexists _, _. split; [done|]. unfold mappingTable. rewrite Hroot, Hs, Hws. rewrite filled_ok in Hwr by (by apply Herr). split; [done|].
  apply (goodTable_image (freshSb u sl blockSize) wsb data _ b k); try done; [apply freshSb_ok; [done..|lia]|]. cbn [HashStart]. rewrite Hbs, Z.div_mul by done.
  destruct wsb; [rewrite i64_small|]; lia.
Qed.

Lemma createImage_correct_witness : let data := replicate (2 * blockSize) 1%Z in let hashes := hashImage (freshSb (zeros 16) (zeros 256) blockSize) blockSize true data in
  exists res f, createImage (Some (zeros 16)) (Some (zeros 256)) (Some (Image true 8192 [data] [data])) (Some (File [] 20000)) "in" "out" true = Some (res, Some f) /\
    match res with Err _ => (20000 < len (data ++ hashes))%Z | Ok t => written f = data ++ hashes /\ goodTable t data hashes end.
Proof.
  intros data hashes. apply createImage_correct; try done.
  - exists 2. apply length_replicate.
  - unfold data. rewrite length_replicate. pose proof blockSize_eq. lia.
Defined.

(** ** Devices that are not accepted *)

(** Whether the block of one encoder with blocks of [db] and [hb] bytes passes. *)
Definition passes (db hb : Z) (data blk : bytes) (i : nat) : option bool :=
  match NewEncoder (Some (zeros 16)) (Some (zeros 256)) (File [] 100000) db hb false with
  | Err _ => None
  | Ok e =>
      match Write e data with
      | None => None
      | Some (_, e) =>
          match Close e with
          | Some (None, e) => match mappingTable e "data" "hash" 0 with Ok t => Some (dmVerify t (written (out e)) i blk) | Err _ => None end
          | _ => None
          end
      end
  end.

(** The root hash is always that of a hash block, but over a single block of data there is no hash block. *)
Theorem single_block_refused : passes 64 64 (zeros 64) (zeros 64) 0 = Some false.
Proof. vm_compute. reflexivity. Qed.

(** Two blocks pass. *)
Example two_blocks_pass : passes 64 64 (zeros 128) (zeros 64) 1 = Some true.
Proof. vm_compute. reflexivity. Qed.

(** Upper levels are hashed in blocks of the size of data blocks, not of hash blocks. *)
Theorem block_sizes_refused : passes 64 128 (zeros 320) (zeros 64) 4 = Some false.
Proof. vm_compute. reflexivity. Qed.

End VerityProps.
