(* ===== verification/Efivar.v ===== *)
(** * EFI boot entries

    Models [osbase/efivarfs]: device paths ([devicepath.go]), load options and the boot order
    ([boot.go]), and the variables that hold them ([efivarfs.go], [variables.go]).

    Strings are lists of Unicode scalar values.  A slice expression out of range panics, as does
    running out of fuel; both are [None]. *)

From S2P Require Import Prelude GoStrings Bytes Gpt.
From Stdlib Require Import ZArith.

Module Efivar.
Import Bytes Gpt.
Open Scope Z_scope.

Definition error : Type := string.

(** ** The UTF-16 codec of golang.org/x/text

    Little-endian without a byte order mark.  What does not decode becomes replacement
    characters, so that two bytes or more never decode to nothing; what happens to an odd byte
    at the end is left open. *)
Class Utf16Codec := {
  encoderBytes : list Z -> option bytes;
  decoderBytes : bytes -> option (list Z);
  encoder_valid rs : Forall isRune rs -> encoderBytes rs = Some (concat (le 2 <$> utf16Encode rs));
  decoder_even us : Forall (fun v => 0 <= v < width 2) us -> decoderBytes (concat (le 2 <$> us)) = Some (utf16Decode us);
  decoder_some d : 2 <= len d -> decoderBytes d <> Some [];
}.

Definition append16 (d : bytes) (v : Z) : bytes := d ++ [Z.land v 255; Z.land (Z.shiftr v 8) 255].
Definition append32 (d : bytes) (v : Z) : bytes :=
  d ++ [Z.land v 255; Z.land (Z.shiftr v 8) 255; Z.land (Z.shiftr v 16) 255; Z.land (Z.shiftr v 24) 255].

(** [l[lo:hi]]. *)
Definition slice (l : bytes) (lo hi : Z) : option bytes :=
  if (0 <=? lo) && (lo <=? hi) && (hi <=? len l) then Some (take (Z.to_nat (hi - lo)) (drop (Z.to_nat lo) l)) else None.

(** Indexing and slicing outside a slice panic ([None]).

    [bytes.IndexByte], -1 if there is none. *)
Fixpoint indexOfFrom (i : Z) (c : Z) (l : list Z) : Z :=
  match l with
  | [] => -1
  | b :: l => if b =? c then i else indexOfFrom (i + 1) c l
  end.
Definition IndexByte (l : list Z) (c : Z) : Z := indexOfFrom 0 c l.

(** ** Device paths *)

Inductive PartitionMatch :=
| PartitionMBR (DiskSignature : bytes)
| PartitionGPT (PartitionUUID : bytes)
| PartitionUnknown (PartitionSignature : bytes) (PartitionFormat SignatureType : Z).

Definition partitionSignature (p : PartitionMatch) : bytes :=
  match p with
  | PartitionMBR sig => copy_ (zeros 16) (take 4 sig)
  | PartitionGPT u => From_ u
  | PartitionUnknown sig _ _ => sig
  end.

Definition partitionFormat (p : PartitionMatch) : Z :=
  match p with PartitionMBR _ => 1 | PartitionGPT _ => 2 | PartitionUnknown _ f _ => f end.

Definition signatureType (p : PartitionMatch) : Z :=
  match p with PartitionMBR _ => 1 | PartitionGPT _ => 2 | PartitionUnknown _ _ t => t end.

Inductive DevicePathElem :=
| HardDrivePath (PartitionNumber PartitionStartBlock PartitionSizeBlocks : Z) (match_ : option PartitionMatch)
| FilePath (f : list Z)
| UnknownPath (TypeVal SubTypeVal : Z) (DataVal : bytes).

Definition DevicePath : Type := list DevicePathElem.

Definition typ (e : DevicePathElem) : Z := match e with HardDrivePath _ _ _ _ => 4 | FilePath _ => 4 | UnknownPath t _ _ => t end.
Definition subType (e : DevicePathElem) : Z := match e with HardDrivePath _ _ _ _ => 1 | FilePath _ => 4 | UnknownPath _ s _ => s end.

(** [ReplaceAll] of a character. *)
Definition ReplaceAll (old new : Z) (l : list Z) : list Z := (fun c => if c =? old then new else c) <$> l.

Section codec.
  Context `{Utf16Codec}.

Definition filePathData (f : list Z) : result error bytes :=
  if negb (IndexByte f 0 =? -1) then Err "contains invalid null bytes"
  else match encoderBytes (ReplaceAll 47 92 f) with
       | None => Err "failed to encode FilePath to UTF-16"
       | Some out => Ok (out ++ [0; 0])
       end.

Definition data (e : DevicePathElem) : result error bytes :=
  match e with
  | HardDrivePath num start sz m =>
      match m with
      | None => Err "PartitionMatch needs to be set"
      | Some m => Ok (le 4 num ++ le 8 start ++ le 8 sz ++ partitionSignature m ++ [partitionFormat m; signatureType m])
      end
  | FilePath f => filePathData f
  | UnknownPath _ _ d => Ok d
  end.

Definition unmarshalHardDrivePath (d : bytes) : option (result error DevicePathElem) :=
  if negb (len d =? 38) then Some (Err "invalid HardDrivePath element, expected 38 bytes, got %d")
  else
    numField ← slice d 0 4;
    startField ← slice d 4 12;
    sizeField ← slice d 12 20;
    pf ← d !! 36%nat;
    st ← d !! 37%nat;
    sigField ← slice d 20 36;
    let rawSig := copy_ (zeros 16) sigField in
    Some (Ok (HardDrivePath (unle numField) (unle startField) (unle sizeField) (Some
      (if (pf =? 1) && (st =? 1) then PartitionMBR (take 4 rawSig)
       else if (pf =? 2) && (st =? 2) then PartitionGPT (To_ rawSig)
       else PartitionUnknown rawSig pf st)))).

Definition unmarshalFilePath (d : bytes) : option (result error DevicePathElem) :=
  if len d <? 2 then Some (Err "FilePath must be at least 2 bytes because of UTF-16 null terminator")
  else match decoderBytes d with
       | None => Some (Err "error decoding FilePath UTF-16 string")
       | Some out =>
           let nullIdx := IndexByte out 0 in
           if negb (nullIdx =? len out - 1) then Some (Err "FilePath not properly null-terminated")
           else name ← slice out 0 (len out - 1);
                Some (Ok (FilePath (ReplaceAll 92 47 name)))
       end.

(** [pathElementUnmarshalMap]. *)
Definition unmarshalFunc (t subT : Z) : option (bytes -> option (result error DevicePathElem)) :=
  if (t =? 4) && (subT =? 1) then Some unmarshalHardDrivePath
  else if (t =? 4) && (subT =? 4) then Some unmarshalFilePath
  else None.

Fixpoint marshalElems (buf : bytes) (d : DevicePath) : result error bytes :=
  match d with
  | [] => Ok buf
  | p :: d =>
      let buf := buf ++ [typ p; subType p] in
      match data p with
      | Err _ => Err "failed marshaling path element"
      | Ok elemBuf =>
          if 65535 <? len elemBuf + 4 then Err "path element payload over maximum size"
          else marshalElems (append16 buf (len elemBuf + 4) ++ elemBuf) d
      end
  end.

(** [DevicePath.Marshal]. *)
Definition marshalPath (d : DevicePath) : result error bytes :=
  match marshalElems [] d with
  | Err err => Err err
  | Ok buf => Ok (buf ++ [127; 255; 4; 0])
  end.

Fixpoint pathLoop (fuel : nat) (p : DevicePath) (rest : bytes) : option (result error (DevicePath * bytes)) :=
  match fuel with
  | O => None
  | S fuel =>
      if len rest <? 4 then
        if negb (len rest =? 0) then Some (Err "dangling bytes at the end of device path: %x")
        else if len p =? 0 then Some (Err "empty DevicePath without End Of Path element")
        else Some (Err "got DevicePath with %d elements, but without End Of Path element")
      else
        t ← rest !! 0%nat;
        subT ← rest !! 1%nat;
        lenField ← slice rest 2 4;
        let dataLen := unle lenField in
        if len rest <? dataLen then Some (Err "path element larger than rest of buffer: %d > %d")
        else if dataLen <? 4 then Some (Err "path element must be at least 4 bytes (header), length indicates %d")
        else
          elemData ← slice rest 4 dataLen;
          rest ← slice rest dataLen (len rest);
          if (t =? 127) && (subT =? 255) then Some (Ok (p, rest))
          else match unmarshalFunc t subT with
               | None => pathLoop fuel (p ++ [UnknownPath t subT elemData]) rest
               | Some unmarshal =>
                   r ← unmarshal elemData;
                   match r with
                   | Err _ => Some (Err "failed decoding path element %d")
                   | Ok elem => pathLoop fuel (p ++ [elem]) rest
                   end
               end
  end.

Definition UnmarshalDevicePath (d : bytes) : option (result error (DevicePath * bytes)) := pathLoop (S (length d)) [] d.

(** ** Load options *)

Record LoadOption := mkLoadOption {
  Description : list Z;
  Inactive : bool;
  Hidden : bool;
  Category : Z;
  FilePath_ : DevicePath;
  ExtraPaths : list DevicePath;
  OptionalData : bytes;
}.

Fixpoint marshalExtra (raw : bytes) (eps : list DevicePath) : result error bytes :=
  match eps with
  | [] => Ok raw
  | ep :: eps =>
      match marshalPath ep with
      | Err _ => Err "failed marshalling ExtraPath"
      | Ok epRaw => marshalExtra (raw ++ epRaw) eps
      end
  end.

Definition attributes (e : LoadOption) : Z :=
  let attrs := u32 (Z.shiftl (Z.land (Category e) 31) 8) in
  let attrs := if Hidden e then Z.lor attrs 8 else attrs in
  if negb (Inactive e) then Z.lor attrs 1 else attrs.

(** [LoadOption.Marshal]. *)
Definition Marshal (e : LoadOption) : result error bytes :=
  let d := append32 [] (attributes e) in
  match marshalPath (FilePath_ e) with
  | Err _ => Err "failed marshalling FilePath"
  | Ok filePathRaw =>
      match marshalExtra filePathRaw (ExtraPaths e) with
      | Err err => Err err
      | Ok filePathRaw =>
          if 65535 <? len filePathRaw then Err "failed marshalling FilePath/ExtraPath: value too big (%d)"
          else
            let d := append16 d (len filePathRaw) in
            if negb (IndexByte (Description e) 0 =? -1) then Err "failed to encode Description: contains invalid null bytes"
            else match encoderBytes (Description e) with
                 | None => Err "failed to encode Description"
                 | Some encodedDesc => Ok ((((d ++ encodedDesc) ++ [0; 0]) ++ filePathRaw) ++ OptionalData e)
                 end
      end
  end.

(** [bytes.Index(l, {0, 0})]. *)
Fixpoint indexNulls (i : Z) (l : bytes) : Z :=
  match l with
  | a :: (b :: _) as r => if (a =? 0) && (b =? 0) then i else indexNulls (i + 1) r
  | _ => -1
  end.

Fixpoint extraLoop (fuel : nat) (eps : list DevicePath) (d : bytes) : option (result error (list DevicePath)) :=
  match fuel with
  | O => None
  | S fuel =>
      if 0 <? len d then
        r ← UnmarshalDevicePath d;
        match r with
        | Err _ => Some (Err "failed unmarshaling ExtraPath")
        | Ok (ep, d) => extraLoop fuel (eps ++ [ep]) d
        end
      else Some (Ok eps)
  end.

Definition UnmarshalLoadOption (d : bytes) : option (result error LoadOption) :=
  if len d <? 6 then Some (Err "invalid load option: minimum 6 bytes are required, got %d")
  else
    attrField ← slice d 0 4;
    let attrs := unle attrField in
    lenField ← slice d 4 6;
    let lenPath := unle lenField in
    body ← slice d 6 (len d);
    let nullIdx := indexNulls 0 body in
    if nullIdx =? -1 then Some (Err "no null code point marking end of Description found")
    else
      let descriptionEnd := 6 + nullIdx + 1 in
      descriptionRaw ← slice d 6 descriptionEnd;
      match decoderBytes descriptionRaw with
      | None => Some (Err "error decoding UTF-16 in Description")
      | Some description =>
          let descriptionEnd := descriptionEnd + 2 in
          if len d <? descriptionEnd + lenPath then Some (Err "declared length of FilePath (%d) overruns available data (%d)")
          else
            filePathData ← slice d descriptionEnd (descriptionEnd + lenPath);
            r ← UnmarshalDevicePath filePathData;
            match r with
            | Err _ => Some (Err "failed unmarshaling FilePath")
            | Ok (path, filePathData) =>
                eps ← extraLoop (S (length filePathData)) [] filePathData;
                match eps with
                | Err err => Some (Err err)
                | Ok eps =>
                    optional ← (if descriptionEnd + lenPath <? len d then slice d (descriptionEnd + lenPath) (len d) else Some []);
                    Some (Ok (mkLoadOption description (Z.land attrs 1 =? 0) (negb (Z.land attrs 8 =? 0)) (Z.land (Z.shiftr attrs 8) 31) path eps optional))
                end
            end
      end.

(** ** The boot order *)

Definition BootOrder : Type := list Z.

Definition marshalOrder (t : BootOrder) : bytes := foldl append16 [] t.

Definition UnmarshalBootOrder (d : bytes) : result error BootOrder :=
  if negb (len d mod 2 =? 0) then Err "invalid length: %v bytes"
  else Ok ((fun i => Z.lor (nth (2 * i) d 0) (Z.shiftl (nth (2 * i + 1) d 0) 8 mod 65536)) <$> seq 0 (length d / 2)).

End codec.

(** ** Variables *)

(** The files of efivarfs, by their names below its mount point. *)
Definition efivars : Type := gmap string bytes.

Inductive varError :=
| ErrNotExist
| ErrIO
| ErrText (what : error).

#[export] Instance varError_eq_dec : EqDecision varError.
Proof. solve_decision. Defined.

(** Scopes are given by the text of their UUID. *)
Definition ScopeGlobal : string := "8be4df61-93ca-11d2-aa0d-00e098032b8c".
Definition ScopeSystemd : string := "4a67b082-0a4c-41cf-b6c7-440b29bb8c4f".

Definition AttrNonVolatile : Z := 1.
Definition AttrBootserviceAccess : Z := 2.
Definition AttrRuntimeAccess : Z := 4.

Definition varPath (scope varName : string) : string := varName +:+ "-" +:+ scope.

(** [%04X] and [%04x] of an int. *)
Definition hexDigitChar (upper : bool) (d : Z) : ascii := ascii_of_N (Z.to_N (if d <? 10 then 48 + d else if upper then 55 + d else 87 + d)).
Fixpoint hexDigits (upper : bool) (fuel : nat) (v : Z) (acc : string) : string :=
  match fuel with
  | O => acc
  | S fuel => if v =? 0 then acc else hexDigits upper fuel (v / 16) (String (hexDigitChar upper (v mod 16)) acc)
  end.
Fixpoint padZeros (n : nat) (s : string) : string := match n with O => s | S n => String "0" (padZeros n s) end.
Definition formatHex (upper : bool) (v : Z) : string :=
  let digits := hexDigits upper 16 (Z.abs v) "" in
  let width := if v <? 0 then 3%nat else 4%nat in
  let padded := padZeros (width - String.length digits) digits in
  if v <? 0 then String "-" padded else padded.

Definition bootVar (upper : bool) (idx : Z) : string := "Boot" +:+ formatHex upper idx.

(** [strings.HasSuffix] and [strings.TrimSuffix]. *)
Definition HasSuffix (s suffix : string) : bool :=
  let n := (String.length s - String.length suffix)%nat in
  (String.length suffix <=? String.length s)%nat && String.eqb (String.substring n (String.length suffix) s) suffix.
Definition TrimSuffix (s suffix : string) : string :=
  if HasSuffix s suffix then String.substring 0 (String.length s - String.length suffix) s else s.

(** A hexadecimal digit. *)
Definition hexValue (c : ascii) : option Z :=
  let n := Z.of_N (N_of_ascii c) in
  if (48 <=? n) && (n <=? 57) then Some (n - 48)
  else if (65 <=? n) && (n <=? 70) then Some (n - 55)
  else if (97 <=? n) && (n <=? 102) then Some (n - 87)
  else None.

(** [bootVarRegexp] and [strconv.ParseUint] of what it found. *)
Definition bootVarIndex (name : string) : option Z :=
  match name with
  | String "B" (String "o" (String "o" (String "t" (String a (String b (String c (String d EmptyString))))))) =>
      a ← hexValue a; b ← hexValue b; c ← hexValue c; d ← hexValue d; Some (((a * 16 + b) * 16 + c) * 16 + d)
  | _ => None
  end.

Inductive access := ReadAccess | WriteAccess | DeleteAccess | ListAccess.

Section variables.
  Context `{Utf16Codec}.
  (** The accesses that fail although the file exists or can be made. *)
  Context (fault : access -> string -> bool).

Definition Write (vars : efivars) (scope varName : string) (attrs : Z) (value : bytes) : result varError () * efivars :=
  let path := varPath scope varName in
  if fault WriteAccess path then (Err ErrIO, vars)
  else
    let attrs := if negb (Z.land attrs AttrRuntimeAccess =? 0) then Z.lor attrs AttrBootserviceAccess else attrs in
    (Ok (), <[path := le 4 attrs ++ value]> vars).

Definition Read (vars : efivars) (scope varName : string) : result varError (bytes * Z) :=
  let path := varPath scope varName in
  match vars !! path with
  | None => Err ErrNotExist
  | Some val =>
      if fault ReadAccess path then Err ErrIO
      else if len val <? 4 then Err (ErrText "reading %q in scope %s: malformed, less than 4 bytes long")
      else Ok (drop 4 val, unle (take 4 val))
  end.

(** The names of the directory are sorted. *)
Definition ReadDir (vars : efivars) : list string := merge_sort string_le (fst <$> map_to_list vars).

Definition List_ (vars : efivars) (scope : string) : result varError (list string) :=
  if fault ListAccess "" then Err (ErrText "failed to list variable directory")
  else
    let suffix := "-" +:+ scope in
    Ok ((fun v => TrimSuffix v suffix) <$> filter (fun v => HasSuffix v suffix = true) (ReadDir vars)).

Definition Delete (vars : efivars) (scope varName : string) : result varError () * efivars :=
  let path := varPath scope varName in
  match vars !! path with
  | None => (Err ErrNotExist, vars)
  | Some _ => if fault DeleteAccess path then (Err ErrIO, vars) else (Ok (), delete path vars)
  end.

Definition decodeString (varData : bytes) : result varError (list Z) :=
  match decoderBytes varData with
  | None => Err (ErrText "decoding")
  | Some raw => Ok (if decide (last raw = Some 0) then take (length raw - 1) raw else raw)
  end.

Definition SetBootEntry (vars : efivars) (idx : Z) (be : LoadOption) : result varError () * efivars :=
  match Marshal be with
  | Err _ => (Err (ErrText "while marshaling the EFI boot entry"), vars)
  | Ok bem => Write vars ScopeGlobal (bootVar true idx) (Z.lor AttrNonVolatile AttrRuntimeAccess) bem
  end.

(** The first of [fuel] numbers from [i] that is not present, or -1. *)
Fixpoint firstFree (fuel : nat) (i : Z) (presentEntries : gset Z) : Z :=
  match fuel with
  | O => -1
  | S fuel => if decide (i ∈ presentEntries) then firstFree fuel (i + 1) presentEntries else i
  end.

Definition AddBootEntry (vars : efivars) (be : LoadOption) : result varError Z * efivars :=
  match List_ vars ScopeGlobal with
  | Err _ => (Err (ErrText "failed to list EFI variables"), vars)
  | Ok varNames =>
      let presentEntries : gset Z := list_to_set (omap bootVarIndex varNames) in
      let idx := firstFree (Z.to_nat 65535) 0 presentEntries in
      if idx =? -1 then (Err (ErrText "all 2^16 boot entry variables are occupied"), vars)
      else match SetBootEntry vars idx be with
           | (Err _, vars) => (Err (ErrText "failed to set new boot entry"), vars)
           | (Ok _, vars) => (Ok idx, vars)
           end
  end.

Definition GetBootEntry (vars : efivars) (idx : Z) : option (result varError LoadOption) :=
  let raw := match Read vars ScopeGlobal (bootVar true idx) with
             | Err ErrNotExist => Read vars ScopeGlobal (bootVar false idx)
             | r => r
             end in
  match raw with
  | Err err => Some (Err err)
  | Ok (raw, _) => r ← UnmarshalLoadOption raw; match r with Ok be => Some (Ok be) | Err err => Some (Err (ErrText err)) end
  end.

Definition DeleteBootEntry (vars : efivars) (idx : Z) : result varError () * efivars :=
  match Delete vars ScopeGlobal (bootVar true idx) with
  | (Err ErrNotExist, vars) => Delete vars ScopeGlobal (bootVar false idx)
  | r => r
  end.

Definition SetBootOrder (vars : efivars) (ord : BootOrder) : result varError () * efivars :=
  Write vars ScopeGlobal "BootOrder" (Z.lor AttrNonVolatile AttrRuntimeAccess) (marshalOrder ord).

Definition GetBootOrder (vars : efivars) : result varError BootOrder :=
  match Read vars ScopeGlobal "BootOrder" with
  | Err err => Err err
  | Ok (raw, _) => match UnmarshalBootOrder raw with Ok ord => Ok ord | Err _ => Err (ErrText "invalid boot order structure") end
  end.

Definition SetBootNext (vars : efivars) (entryIdx : Z) : result varError () * efivars :=
  Write vars ScopeGlobal "BootNext" (Z.lor AttrNonVolatile AttrRuntimeAccess) (le 2 entryIdx).

(** [uuid.Parse] is the argument. *)
Definition ReadLoaderDevicePartUUID (uuidParse : list Z -> option bytes) (vars : efivars) : result varError bytes :=
  match Read vars ScopeSystemd "LoaderDevicePartUUID" with
  | Err err => Err err
  | Ok (efiVar, _) =>
      match decodeString efiVar with
      | Err _ => Err (ErrText "decoding string failed")
      | Ok strContent =>
          match uuidParse strContent with
          | None => Err (ErrText "value in LoaderDevicePartUUID could not be parsed as UUID")
          | Some out => Ok out
          end
      end
  end.

End variables.
End Efivar.
