(* ===== verification/EfivarCodec.v ===== *)
(** * Device paths and load options: decoding inverts encoding *)

From S2P Require Import Prelude Bytes Gpt GptCodec Efivar.
From Stdlib Require Import ZArith.

Module EfivarCodec.
Import Bytes Gpt GptCodec Efivar.
Open Scope Z_scope.

(** ** Fields *)

Lemma append16_le d v : 0 <= v < width 2 -> append16 d v = d ++ le 2 v.
Proof.
  change (width 2) with 65536. intros Hv. unfold append16. cbn [le]. rewrite !(Z.land_ones _ 8), Z.shiftr_div_pow2 by lia. done.
Qed.

Lemma append32_le d v : 0 <= v < width 4 -> append32 d v = d ++ le 4 v.
Proof.
  intros Hv. unfold append32. cbn [le]. rewrite !(Z.land_ones _ 8), !Z.shiftr_div_pow2 by lia. by rewrite !Z.div_div by lia.
Qed.

Lemma slice_eq l lo hi a b c : l = a ++ b ++ c -> lo = len a -> hi = len a + len b -> slice l lo hi = Some b.
Proof.
  intros -> -> ->. unfold slice. pose proof (len_nonneg a). pose proof (len_nonneg b). pose proof (len_nonneg c). rewrite !len_app.
  rewrite !(proj2 (Z.leb_le _ _)) by lia. cbn [andb]. unfold len. replace (Z.to_nat (Z.of_nat (length a))) with (length a) by lia.
  rewrite drop_app_length. replace (Z.to_nat _) with (length b) by lia. by rewrite take_app_length.
Qed.

Lemma slice_some l lo hi : 0 <= lo <= hi -> hi <= len l -> exists r, slice l lo hi = Some r /\ len r = hi - lo.
Proof.
  intros H1 H2. unfold slice. rewrite !(proj2 (Z.leb_le _ _)) by lia. eexists. split; [done|]. unfold len in *. rewrite length_take, length_drop. lia.
Qed.

Lemma IndexByte_none l c : IndexByte l c = -1 <-> c ∉ l.
Proof.
  unfold IndexByte. assert (forall i, 0 <= i -> (indexOfFrom i c l = -1 <-> c ∉ l)) as H; [|by apply H].
  induction l as [|b l IH]; intros i Hi; cbn [indexOfFrom]; [split; [set_solver|done]|]. rewrite not_elem_of_cons, <- (IH (i + 1)) by lia.
  destruct (Z.eqb_spec b c) as [->|Hne]; [lia|naive_solver].
Qed.

Lemma IndexByte_end l c : c ∉ l -> IndexByte (l ++ [c]) c = len l.
Proof.
  unfold IndexByte, len. intros Hc. assert (forall i, indexOfFrom i c (l ++ [c]) = i + Z.of_nat (length l)) as H; [|by rewrite H].
  induction l as [|b l IH]; intros i; cbn [indexOfFrom app length]; [rewrite Z.eqb_refl; lia|]. apply not_elem_of_cons in Hc as [Hb Hc].
  rewrite (proj2 (Z.eqb_neq b c)), IH by done || congruence. lia.
Qed.

(** ** Elements *)

Definition matchOk (m : PartitionMatch) : Prop :=
  match m with
  | PartitionMBR sig => length sig = 4%nat
  | PartitionGPT u => length u = 16%nat
  | PartitionUnknown sig f t => length sig = 16%nat /\ ~ (f = 1 /\ t = 1) /\ ~ (f = 2 /\ t = 2)
  end.

(** Elements that have one encoding and no other meaning.  Backslashes of file names are read as slashes. *)
Definition elemOk (e : DevicePathElem) : Prop :=
  match e with
  | HardDrivePath num start sz m => 0 <= num < width 4 /\ 0 <= start < width 8 /\ 0 <= sz < width 8 /\ exists m', m = Some m' /\ matchOk m'
  | FilePath f => Forall isRune f /\ (0 ∉ f) /\ (92 ∉ f) /\ 2 * len (utf16Encode (ReplaceAll 47 92 f)) + 6 <= 65535
  | UnknownPath t s d => ~ (t = 127 /\ s = 255) /\ ~ (t = 4 /\ (s = 1 \/ s = 4)) /\ len d + 4 <= 65535
  end.

Lemma copy_whole n l : length l = n -> copy_ (zeros n) l = l.
Proof.
  intros <-. unfold copy_, zeros. rewrite length_replicate, firstn_all, drop_ge by (by rewrite length_replicate). by rewrite app_nil_r.
Qed.

Section codec.
  Context `{Utf16Codec}.

Lemma hardDrive_roundtrip num start sz m : elemOk (HardDrivePath num start sz (Some m)) ->
  exists d, data (HardDrivePath num start sz (Some m)) = Ok d /\ len d = 38 /\ unmarshalHardDrivePath d = Some (Ok (HardDrivePath num start sz (Some m))).
Proof.
  intros (Hnum & Hstart & Hsz & m' & [= <-] & Hm). cbn [data]. eexists. split; [done|].
  assert (length (partitionSignature m) = 16%nat) as Hsig.
  { destruct m as [sig|u|sig f t]; cbn [partitionSignature matchOk] in *; [by rewrite copy_length|done|by destruct Hm]. }
  assert (len (le 4 num ++ le 8 start ++ le 8 sz ++ partitionSignature m ++ [partitionFormat m; signatureType m]) = 38) as Hl.
  { unfold len. rewrite !length_app, !le_length, Hsig. done. }
  split; [done|]. unfold unmarshalHardDrivePath. rewrite Hl. cbn [negb Z.eqb Pos.eqb].
  destruct (list16 _ Hsig) as (a0&a1&a2&a3&a4&a5&a6&a7&a8&a9&a10&a11&a12&a13&a14&a15&Hs). rewrite Hs.
  change (slice _ 0 4) with (Some (le 4 num)). change (slice _ 4 12) with (Some (le 8 start)). change (slice _ 12 20) with (Some (le 8 sz)).
  change (_ !! 36%nat) with (Some (partitionFormat m)). change (_ !! 37%nat) with (Some (signatureType m)).
  change (slice _ 20 36) with (Some [a0; a1; a2; a3; a4; a5; a6; a7; a8; a9; a10; a11; a12; a13; a14; a15]). cbn [mbind option_bind].
  rewrite !unle_le by done. rewrite <- Hs. rewrite copy_whole by done. do 4 f_equal.
  destruct m as [sig|u|sig f t]; cbn [partitionSignature partitionFormat signatureType matchOk] in *.
  - cbn. do 4 (destruct sig as [|? sig]; [done|]). by destruct sig.
  - cbn [andb Z.eqb Pos.eqb]. by rewrite To_From.
  - destruct Hm as (_ & H1 & H2). destruct (Z.eqb_spec f 1), (Z.eqb_spec t 1), (Z.eqb_spec f 2), (Z.eqb_spec t 2); try done; try lia; naive_solver.
Qed.

Lemma ReplaceAll_elem old new l c : c ∉ l -> c <> new -> c ∉ ReplaceAll old new l.
Proof. intros Hc Hn Hi. apply list_elem_of_fmap in Hi as (x & -> & Hx). destruct (x =? old); [done|by apply Hc]. Qed.

Lemma ReplaceAll_inv l : 92 ∉ l -> ReplaceAll 92 47 (ReplaceAll 47 92 l) = l.
Proof.
  unfold ReplaceAll. induction l as [|c l IH]; [done|]. intros [Hc Hl]%not_elem_of_cons. cbn [fmap list_fmap]. rewrite IH by done. f_equal.
  destruct (Z.eqb_spec c 47) as [->|]; [done|]. by rewrite (proj2 (Z.eqb_neq c 92)) by congruence.
Qed.

Lemma ReplaceAll_isRune old new l : isRune new -> Forall isRune l -> Forall isRune (ReplaceAll old new l).
Proof. intros Hn Hl. apply Forall_fmap. eapply Forall_impl; [done|]. intros c Hc. cbn. by destruct (c =? old). Qed.

(** A terminated string. *)
Lemma decode_terminated rs : Forall isRune rs -> decoderBytes (concat (le 2 <$> utf16Encode rs) ++ [0; 0]) = Some (rs ++ [0]).
Proof.
  intros Hr. assert (concat (le 2 <$> utf16Encode rs) ++ [0; 0] = concat (le 2 <$> (utf16Encode rs ++ [0]))) as ->.
  { rewrite fmap_app, concat_app. done. }
  rewrite decoder_even; [|apply Forall_app_2; [apply utf16Encode_width|constructor; [by change (width 2) with 65536|constructor]]].
  by rewrite utf16_roundtrip by done.
Qed.

Lemma filePath_roundtrip f : elemOk (FilePath f) ->
  exists d, data (FilePath f) = Ok d /\ len d + 4 <= 65535 /\ unmarshalFilePath d = Some (Ok (FilePath f)).
Proof.
  intros (Hr & H0 & H92 & Hl). cbn [data]. unfold filePathData. rewrite (proj2 (Z.eqb_eq _ _)) by (by apply IndexByte_none). cbn [negb].
  assert (Forall isRune (ReplaceAll 47 92 f)) as Hrr by (apply ReplaceAll_isRune; [by left|done]). rewrite encoder_valid by done. eexists. split; [done|].
  assert (len (concat (le 2 <$> utf16Encode (ReplaceAll 47 92 f)) ++ [0; 0]) = 2 * len (utf16Encode (ReplaceAll 47 92 f)) + 2) as Hlen.
  { unfold len. rewrite length_app, concat_le_length. cbn [length]. lia. }
  pose proof (len_nonneg (utf16Encode (ReplaceAll 47 92 f))). split; [lia|]. unfold unmarshalFilePath. rewrite (proj2 (Z.ltb_ge _ _)) by lia.
  rewrite decode_terminated by done. rewrite IndexByte_end by (apply ReplaceAll_elem; done). rewrite len_app. change (len [0]) with 1.
  rewrite (proj2 (Z.eqb_eq _ _)) by lia. cbn [negb].
  rewrite (slice_eq _ 0 _ [] (ReplaceAll 47 92 f) [0]) by (done || unfold len; cbn [length]; lia). cbn [mbind option_bind]. by rewrite ReplaceAll_inv.
Qed.

Lemma elem_roundtrip e : elemOk e -> exists d, data e = Ok d /\ len d + 4 <= 65535 /\
  match unmarshalFunc (typ e) (subType e) with Some unmarshal => unmarshal d = Some (Ok e) | None => e = UnknownPath (typ e) (subType e) d end /\
  (typ e =? 127) && (subType e =? 255) = false.
Proof.
  destruct e as [num start sz m|f|t st d]; intros He.
  - pose proof He as (_ & _ & _ & m' & -> & _). destruct (hardDrive_roundtrip _ _ _ _ He) as (d & Hd & Hl & Hu). exists d. split; [done|]. split; [lia|done].
  - destruct (filePath_roundtrip _ He) as (d & Hd & Hl & Hu). by exists d.
  - destruct He as (H1 & H2 & H3). exists d. split; [done|]. split; [done|]. cbn [typ subType]. split; [|apply andb_false_iff; rewrite !Z.eqb_neq; lia].
    unfold unmarshalFunc. destruct (Z.eqb_spec t 4), (Z.eqb_spec st 1), (Z.eqb_spec st 4); cbn [andb]; try done; lia.
Qed.

(** ** Paths *)

(** One element in front of others. *)
Lemma pathLoop_step fuel p t st d rest : len d + 4 <= 65535 -> pathLoop (S fuel) p ([t; st] ++ le 2 (len d + 4) ++ d ++ rest) =
  if (t =? 127) && (st =? 255) then Some (Ok (p, rest))
  else match unmarshalFunc t st with
       | None => pathLoop fuel (p ++ [UnknownPath t st d]) rest
       | Some unmarshal => r ← unmarshal d; match r with Err _ => Some (Err "failed decoding path element %d") | Ok elem => pathLoop fuel (p ++ [elem]) rest end
       end.
Proof.
  intros Hl. pose proof (len_nonneg d). pose proof (len_nonneg rest). remember ([t; st] ++ le 2 (len d + 4) ++ d ++ rest) as r eqn:Hr.
  assert (len r = 4 + len d + len rest) as Hlen by (subst; rewrite !len_app; unfold len; rewrite le_length; cbn [length]; lia).
  cbn [pathLoop]. rewrite (proj2 (Z.ltb_ge (len r) 4)) by lia. assert (r !! 0%nat = Some t) as -> by (by subst). assert (r !! 1%nat = Some st) as -> by (by subst). cbn [mbind option_bind].
  rewrite (slice_eq r 2 4 [t; st] (le 2 (len d + 4)) (d ++ rest)) by done. cbn [mbind option_bind]. rewrite unle_le by (change (width 2) with 65536; lia).
  rewrite (proj2 (Z.ltb_ge (len r) _)), (proj2 (Z.ltb_ge _ 4)) by lia.
  rewrite (slice_eq r 4 (len d + 4) ([t; st] ++ le 2 (len d + 4)) d rest) by (subst; rewrite ?len_app; by rewrite <- ?app_assoc || (unfold len; rewrite le_length; cbn [length]; lia)).
  cbn [mbind option_bind].
  rewrite (slice_eq r (len d + 4) (len r) ([t; st] ++ le 2 (len d + 4) ++ d) rest []); [done|..].
  - subst. by rewrite app_nil_r, <- !app_assoc.
  - rewrite !len_app. unfold len. rewrite le_length. cbn [length]. lia.
  - rewrite Hlen, !len_app. unfold len. rewrite le_length. cbn [length]. lia.
Qed.

Lemma marshalElems_roundtrip d buf : Forall elemOk d -> exists raw, marshalElems buf d = Ok (buf ++ raw) /\
  forall fuel p rest, (length d < fuel)%nat -> pathLoop fuel p (raw ++ [127; 255; 4; 0] ++ rest) = Some (Ok (p ++ d, rest)).
Proof.
  intros Hd. revert buf. induction Hd as [|e d He Hd IH]; intros buf.
  { exists []. split; [cbn; by rewrite app_nil_r|]. intros [|fuel] p rest Hf; [cbn [length] in Hf; lia|].
    pose proof (pathLoop_step fuel p 127 255 [] rest ltac:(done)) as Hs. change (127 :: 255 :: 4 :: 0 :: rest) with ([127; 255] ++ le 2 (len [] + 4) ++ [] ++ rest).
    rewrite app_nil_r. exact Hs. }
  destruct (elem_roundtrip e He) as (x & Hx & Hl & Hu & Hend). pose proof (len_nonneg x). cbn [marshalElems]. rewrite Hx, (proj2 (Z.ltb_ge _ _)) by lia.
  rewrite append16_le by (change (width 2) with 65536; lia).
  destruct (IH (((buf ++ [typ e; subType e]) ++ le 2 (len x + 4)) ++ x)) as (raw & -> & Hloop). exists ([typ e; subType e] ++ le 2 (len x + 4) ++ x ++ raw).
  split; [by rewrite <- !app_assoc|]. intros [|fuel] p rest Hf; [cbn [length] in Hf; lia|]. rewrite <- !app_assoc. rewrite pathLoop_step, Hend by done.
  cbn [length] in Hf. replace (p ++ e :: d) with ((p ++ [e]) ++ d) by (by rewrite <- app_assoc). destruct (unmarshalFunc (typ e) (subType e)).
  - rewrite Hu. cbn [mbind option_bind]. apply Hloop. lia.
  - rewrite <- Hu. apply Hloop. lia.
Qed.

Lemma marshalElems_length d buf raw : marshalElems buf d = Ok raw -> (length buf + 4 * length d <= length raw)%nat.
Proof.
  revert buf. induction d as [|e d IH]; intros buf; cbn [marshalElems length]; [intros [= <-]; lia|]. destruct (data e) as [x|]; [|done].
  destruct (_ <? _); [done|]. intros Hr%IH. unfold append16 in Hr. rewrite !length_app in Hr. cbn [length] in Hr. lia.
Qed.

Lemma path_roundtrip d : Forall elemOk d -> exists raw, marshalPath d = Ok raw /\ forall rest, UnmarshalDevicePath (raw ++ rest) = Some (Ok (d, rest)).
Proof.
  intros Hd. unfold marshalPath. destruct (marshalElems_roundtrip d [] Hd) as (raw & Hm & Hloop). rewrite Hm. eexists. split; [done|]. intros rest.
  unfold UnmarshalDevicePath. rewrite <- app_assoc. cbn [app] in *. apply (Hloop _ [] rest). apply marshalElems_length in Hm. rewrite length_app. cbn [length] in *. lia.
Qed.

Lemma extra_roundtrip eps : Forall (Forall elemOk) eps -> forall buf, exists raw, marshalExtra buf eps = Ok (buf ++ raw) /\
  forall fuel acc, (length raw < fuel)%nat -> extraLoop fuel acc raw = Some (Ok (acc ++ eps)).
Proof.
  induction 1 as [|ep eps Hep Heps IH]; intros buf; cbn [marshalExtra].
  { exists []. split; [by rewrite app_nil_r|]. intros [|fuel] acc Hf; [lia|]. cbn. by rewrite app_nil_r. }
  destruct (path_roundtrip ep Hep) as (x & Hx & Hu). rewrite Hx. destruct (IH (buf ++ x)) as (raw & -> & Hloop). exists (x ++ raw). split; [by rewrite app_assoc|].
  assert (0 < length x)%nat as Hpos.
  { unfold marshalPath in Hx. destruct (marshalElems [] ep) as [b|]; [|done]. injection Hx as <-. rewrite length_app. cbn [length]. lia. }
  intros [|fuel] acc Hf; [lia|]. cbn [extraLoop]. rewrite length_app in Hf. rewrite (proj2 (Z.ltb_lt _ _)) by (rewrite len_app; unfold len; lia).
  rewrite Hu. cbn [mbind option_bind]. rewrite Hloop by lia. by rewrite <- app_assoc.
Qed.

End codec.

(** ** Where a description ends

    Two zero bytes in a row are searched for at odd positions too. *)

(** Code units whose end is found: not empty, the last below 256, and no unit below 256 before one that
    starts with a zero byte. *)
Fixpoint descOk (us : list Z) : bool :=
  match us with
  | [] => false
  | [u] => u <? 256
  | u :: (v :: _) as rest => negb ((u <? 256) && (v mod 256 =? 0)) && descOk rest
  end.

Fixpoint descIndex (us : list Z) : Z :=
  match us with
  | [] => 0
  | u :: rest => if (u <? 256) && match rest with v :: _ => v mod 256 =? 0 | [] => true end then 1 else 2 + descIndex rest
  end.

Lemma descIndex_cases us : (descOk us = true /\ descIndex us = 2 * len us - 1) \/
  (descOk us = false /\ (descIndex us = 2 * len us \/ exists i, (0 < i < length us)%nat /\ descIndex us = 2 * Z.of_nat i - 1)).
Proof.
  induction us as [|u us IH]; [by right; split; [|left]|]. unfold len in *. cbn [length descIndex descOk]. destruct us as [|v us].
  { rewrite andb_true_r. destruct (u <? 256); [by left|right]. split; [done|]. by left. }
  destruct ((u <? 256) && (v mod 256 =? 0)); cbn [negb andb].
  { right. split; [done|]. right. exists 1%nat. cbn [length]. lia. }
  destruct IH as [[-> ->]|[-> [->|(i & Hi & ->)]]]; [left; split; [done|]; lia|right; split; [done|]; left; lia|].
  right. split; [done|]. right. exists (S i). lia.
Qed.

Lemma indexNulls_units us i tail : Forall (fun u => 0 < u < width 2) us ->
  indexNulls i (concat (le 2 <$> us) ++ 0 :: 0 :: tail) = i + descIndex us.
Proof.
  change (width 2) with 65536. intros Hus. revert i. induction Hus as [|u us Hu Hus IH]; intros i; [cbn; lia|].
  pose proof (Z.div_mod u 256). pose proof (Z.mod_pos_bound u 256). assert (u / 256 mod 256 = u / 256) as Hdiv by (apply Z.mod_small; split; [apply Z.div_pos|apply Z.div_lt_upper_bound]; lia).
  cbn [fmap list_fmap concat le app]. rewrite Hdiv. cbn [indexNulls descIndex].
  assert ((u mod 256 =? 0) && (u / 256 =? 0) = false) as -> by (apply andb_false_iff; rewrite !Z.eqb_neq; lia).
  assert ((u <? 256) = (u / 256 =? 0)) as ->.
  { destruct (Z.eqb_spec (u / 256) 0); [apply Z.ltb_lt|apply Z.ltb_ge]; [lia|]. assert (0 <= u / 256) by (apply Z.div_pos; lia). lia. }
  destruct us as [|v us].
  { cbn [fmap list_fmap concat app]. rewrite !andb_true_r. destruct (u / 256 =? 0); [lia|]. cbn. lia. }
  cbn [fmap list_fmap concat le app] in *. destruct ((u / 256 =? 0) && (v mod 256 =? 0)); [lia|]. rewrite IH. lia.
Qed.

Lemma encodeRune_length r : (length (encodeRune r) <= 2)%nat /\ (r < 65536 -> length (encodeRune r) = 1%nat).
Proof.
  unfold encodeRune, surrSelf. destruct (_ || _); [cbn [length]; lia|]. destruct (Z.leb_spec 65536 r); cbn [andb]; [destruct (_ <=? _)|]; cbn [length]; lia.
Qed.

Lemma utf16Encode_cons r rs : length (utf16Encode (r :: rs)) = (length (encodeRune r) + length (utf16Encode rs))%nat.
Proof. unfold utf16Encode. cbn [fmap list_fmap concat]. apply length_app. Qed.

Lemma utf16Decode_length us : Forall (fun u => 0 <= u < width 2) us -> (length (utf16Encode (utf16Decode us)) <= length us)%nat.
Proof.
  remember (length us) as k eqn:Hk. revert us Hk. induction (lt_wf k) as [k _ IH]; intros us -> Hus. destruct us as [|u us]; [done|].
  apply Forall_cons in Hus as [Hu Hus]. change (width 2) with 65536 in Hu. cbn [utf16Decode length] in *. pose proof (IH (length us) ltac:(lia) us eq_refl Hus) as Hrec.
  destruct (_ || _); [rewrite utf16Encode_cons, (proj2 (encodeRune_length u)) by lia; lia|].
  assert (length (utf16Encode (replacement :: utf16Decode us)) <= S (length us))%nat as Hrep by (rewrite utf16Encode_cons, (proj2 (encodeRune_length replacement)) by done; lia).
  destruct us as [|v us]; [done|]. destruct (_ && _); [|done]. apply Forall_cons in Hus as [_ Hus]. pose proof (IH (length us) ltac:(cbn [length]; lia) us eq_refl Hus).
  rewrite utf16Encode_cons. pose proof (proj1 (encodeRune_length ((u - surr1) * 1024 + (v - surr2) + surrSelf))). cbn [length]. lia.
Qed.

Lemma encodeRune_pos r : isRune r -> r <> 0 -> Forall (fun u => 0 < u < width 2) (encodeRune r).
Proof.
  intros Hr H0. pose proof (encodeRune_width r) as Hw. change (width 2) with 65536 in *. revert Hw. unfold encodeRune, isRune, surr1, surr2, surr3, surrSelf, maxRune in *.
  assert (0 < r) by lia. destruct (_ || _); [intros Hw; apply Forall_cons in Hw as [Hw _]; constructor; [lia|constructor]|]. destruct (Z.leb_spec 65536 r); cbn [andb].
  - destruct (_ <=? _); intros Hw; [|by constructor; [unfold replacement; lia|constructor]].
    pose proof (Z.mod_pos_bound (r - 65536) 1024). assert (0 <= (r - 65536) / 1024) by (apply Z.div_pos; lia).
    rewrite !Forall_cons in Hw. repeat constructor; lia.
  - intros _. constructor; [unfold replacement; lia|constructor].
Qed.

Lemma utf16Encode_pos rs : Forall isRune rs -> 0 ∉ rs -> Forall (fun u => 0 < u < width 2) (utf16Encode rs).
Proof.
  unfold utf16Encode. induction 1 as [|r rs Hr Hrs IH]; intros H0; [constructor|]. apply not_elem_of_cons in H0 as [H0 H0']. cbn [fmap list_fmap concat].
  apply Forall_app_2; [apply encodeRune_pos; [done|congruence]|by apply IH].
Qed.

End EfivarCodec.
