(* ===== verification/EfivarProps.v ===== *)
(** * Properties of EFI boot entries

    Load options survive being written and read exactly if the end of their description is found;
    no bytes make the parsers panic or loop; new boot entries replace nothing and can be read back. *)

From S2P Require Import Prelude GoStrings Bytes Gpt GptCodec Efivar EfivarCodec.
From Stdlib Require Import ZArith.

Module EfivarProps.
Import Bytes Gpt GptCodec Efivar EfivarCodec.
Open Scope Z_scope.

Lemma forallb_seqZ (f : Z -> bool) n d : forallb f (seqZ 0 n) = true -> 0 <= d < n -> f d = true.
Proof. intros Hf Hd. rewrite forallb_forall in Hf. apply Hf, list_elem_of_In, elem_of_seqZ. lia. Qed.

Section codec.
  Context `{Utf16Codec}.

(** ** Round trip *)

Record optionOk (e : LoadOption) : Prop := {
  ok_runes : Forall isRune (Description e);
  ok_null : 0 ∉ Description e;
  ok_category : 0 <= Category e < 32;
  ok_path : Forall elemOk (FilePath_ e);
  ok_extra : Forall (Forall elemOk) (ExtraPaths e);
}.

(** The bits of attributes, for all values. *)
Definition attributesRead (i h : bool) (c : Z) : bool :=
  let a := attributes (mkLoadOption [] i h c [] [] []) in
  (0 <=? a) && (a <? width 4) && Bool.eqb (Z.land a 1 =? 0) i && Bool.eqb (negb (Z.land a 8 =? 0)) h && (Z.land (Z.shiftr a 8) 31 =? c).

Lemma attributes_all i h : forallb (attributesRead i h) (seqZ 0 32) = true.
Proof. destruct i, h; vm_compute; reflexivity. Qed.

Lemma attributes_ok e : 0 <= Category e < 32 -> 0 <= attributes e < width 4 /\
  (Z.land (attributes e) 1 =? 0) = Inactive e /\ negb (Z.land (attributes e) 8 =? 0) = Hidden e /\ Z.land (Z.shiftr (attributes e) 8) 31 = Category e.
Proof.
  intros Hc. pose proof (forallb_seqZ _ _ _ (attributes_all (Inactive e) (Hidden e)) Hc) as Hall. unfold attributesRead in Hall.
  change (attributes (mkLoadOption _ _ _ _ _ _ _)) with (attributes e) in Hall.
  rewrite !andb_true_iff, Z.leb_le, Z.ltb_lt, Z.eqb_eq, !eqb_true_iff in Hall. tauto.
Qed.

(** The encoded paths of an option. *)
Definition marshalPaths (e : LoadOption) : result error bytes :=
  match marshalPath (FilePath_ e) with Err err => Err err | Ok raw => marshalExtra raw (ExtraPaths e) end.

Lemma paths_roundtrip e : optionOk e -> exists raw, marshalPaths e = Ok raw /\ exists rest,
  UnmarshalDevicePath raw = Some (Ok (FilePath_ e, rest)) /\ extraLoop (S (length rest)) [] rest = Some (Ok (ExtraPaths e)).
Proof.
  intros He. unfold marshalPaths. destruct (path_roundtrip _ (ok_path _ He)) as (p & -> & Hp). destruct (extra_roundtrip _ (ok_extra _ He) p) as (x & -> & Hx).
  exists (p ++ x). split; [done|]. exists x. split; [apply Hp|]. apply (Hx _ []). lia.
Qed.

Lemma Marshal_ok e : optionOk e -> exists raw, marshalPaths e = Ok raw /\
  Marshal e = if 65535 <? len raw then Err "failed marshalling FilePath/ExtraPath: value too big (%d)"
    else Ok (le 4 (attributes e) ++ le 2 (len raw) ++ (concat (le 2 <$> utf16Encode (Description e)) ++ [0; 0]) ++ raw ++ OptionalData e).
Proof.
  intros He. destruct (paths_roundtrip e He) as (raw & Hraw & _). exists raw. split; [done|]. unfold marshalPaths in Hraw. unfold Marshal.
  destruct (marshalPath (FilePath_ e)) as [p|]; [|done]. rewrite Hraw. destruct (Z.ltb_spec 65535 (len raw)); [done|].
  rewrite (proj2 (Z.eqb_eq _ _)) by (apply IndexByte_none, (ok_null _ He)). cbn [negb]. rewrite encoder_valid by apply (ok_runes _ He).
  rewrite append32_le by apply attributes_ok, (ok_category _ He). pose proof (len_nonneg raw). rewrite append16_le by (change (width 2) with 65536; lia).
  by rewrite <- !app_assoc.
Qed.

(** The fields of encoded options up to the description. *)
Lemma Unmarshal_fields attrs raw us opt : 0 <= attrs < width 4 -> len raw <= 65535 -> Forall (fun u => 0 < u < width 2) us ->
  let d := le 4 attrs ++ le 2 (len raw) ++ (concat (le 2 <$> us) ++ [0; 0]) ++ raw ++ opt in
  (len d <? 6) = false /\ slice d 0 4 = Some (le 4 attrs) /\ slice d 4 6 = Some (le 2 (len raw)) /\
  slice d 6 (len d) = Some ((concat (le 2 <$> us) ++ [0; 0]) ++ raw ++ opt) /\
  indexNulls 0 ((concat (le 2 <$> us) ++ [0; 0]) ++ raw ++ opt) = descIndex us /\ len d = 8 + 2 * len us + len raw + len opt.
Proof.
  intros Ha Hr Hus d. pose proof (len_nonneg us). pose proof (len_nonneg raw). pose proof (len_nonneg opt).
  assert (len (concat (le 2 <$> us)) = 2 * len us) as Hc by (unfold len; rewrite concat_le_length; lia).
  assert (len d = 8 + 2 * len us + len raw + len opt) as Hd.
  { unfold d. rewrite !len_app, Hc. unfold len. rewrite !le_length. cbn [length]. lia. }
  split; [apply Z.ltb_ge; lia|]. split; [by apply (slice_eq _ _ _ [] _ (le 2 (len raw) ++ (concat (le 2 <$> us) ++ [0; 0]) ++ raw ++ opt))|].
  split; [by apply (slice_eq _ _ _ (le 4 attrs) _ ((concat (le 2 <$> us) ++ [0; 0]) ++ raw ++ opt))|]. split.
  - apply (slice_eq _ _ _ (le 4 attrs ++ le 2 (len raw)) _ []); [unfold d; by rewrite app_nil_r, <- !app_assoc|done|].
    rewrite Hd, !len_app, Hc. unfold len. rewrite !le_length. cbn [length]. lia.
  - split; [|done]. rewrite <- app_assoc. by apply (indexNulls_units us 0 (raw ++ opt)).
Qed.

Lemma len_le n v : len (le n v) = Z.of_nat n.
Proof. unfold len. by rewrite le_length. Qed.

Lemma prefix_len a b : len (le 4 a ++ le 2 b) = 6.
Proof. unfold len. by rewrite length_app, !le_length. Qed.

Lemma Unmarshal_good e raw : optionOk e -> marshalPaths e = Ok raw -> len raw <= 65535 -> descOk (utf16Encode (Description e)) = true ->
  UnmarshalLoadOption (le 4 (attributes e) ++ le 2 (len raw) ++ (concat (le 2 <$> utf16Encode (Description e)) ++ [0; 0]) ++ raw ++ OptionalData e) = Some (Ok e).
Proof.
  intros He Hraw Hlen Hdesc. destruct (attributes_ok e (ok_category _ He)) as (Ha & Hi & Hh & Hc).
  pose proof (utf16Encode_pos _ (ok_runes _ He) (ok_null _ He)) as Hus.
  destruct (Unmarshal_fields (attributes e) raw _ (OptionalData e) Ha Hlen Hus) as (H6 & H04 & H46 & Hbody & Hidx & Hd).
  destruct (paths_roundtrip e He) as (raw' & Hraw' & rest & Hp & Hx). assert (raw' = raw) as -> by congruence.
  destruct (descIndex_cases (utf16Encode (Description e))) as [[_ Hj]|[Hno _]]; [|congruence]. rewrite Hj in Hidx.
  assert (len (concat (le 2 <$> utf16Encode (Description e))) = 2 * len (utf16Encode (Description e))) as Hdl by (unfold len; rewrite concat_le_length; lia).
  pose proof (len_nonneg raw). pose proof (len_nonneg (OptionalData e)). pose proof (len_nonneg (utf16Encode (Description e))).
  set (us := utf16Encode (Description e)) in *. set (d := le 4 (attributes e) ++ _) in *. pose proof (prefix_len (attributes e) (len raw)) as Hpre.
  assert (slice d 6 (6 + (2 * len us - 1) + 1) = Some (concat (le 2 <$> us))) as Hs1.
  { apply (slice_eq _ _ _ (le 4 (attributes e) ++ le 2 (len raw)) _ ([0; 0] ++ raw ++ OptionalData e)); [unfold d; by rewrite <- !app_assoc|lia..]. }
  assert (slice d (6 + (2 * len us - 1) + 1 + 2) (6 + (2 * len us - 1) + 1 + 2 + len raw) = Some raw) as Hs2.
  { apply (slice_eq _ _ _ (le 4 (attributes e) ++ le 2 (len raw) ++ concat (le 2 <$> us) ++ [0; 0]) _ (OptionalData e)); [unfold d; by rewrite <- !app_assoc|..];
      rewrite !len_app, !len_le, Hdl; change (len [0; 0]) with 2; lia. }
  assert ((if 6 + (2 * len us - 1) + 1 + 2 + len raw <? len d then slice d (6 + (2 * len us - 1) + 1 + 2 + len raw) (len d) else Some []) = Some (OptionalData e)) as Hs3.
  { destruct (Z.ltb_spec (6 + (2 * len us - 1) + 1 + 2 + len raw) (len d)).
    - apply (slice_eq _ _ _ (le 4 (attributes e) ++ le 2 (len raw) ++ (concat (le 2 <$> us) ++ [0; 0]) ++ raw) _ []); [unfold d; by rewrite app_nil_r, <- !app_assoc|..];
        rewrite ?Hd, !len_app, !len_le, Hdl; change (len [0; 0]) with 2; lia.
    - destruct (OptionalData e) as [|x l]; [done|]. unfold len in *. cbn [length] in *. lia. }
  unfold UnmarshalLoadOption. rewrite H6, H04. cbn [mbind option_bind]. rewrite H46. cbn [mbind option_bind]. rewrite Hbody. cbn [mbind option_bind]. rewrite Hidx.
  rewrite (proj2 (Z.eqb_neq _ (-1))) by (destruct us; [done|]; unfold len; cbn [length]; lia). rewrite Hs1. cbn [mbind option_bind].
  rewrite decoder_even by apply utf16Encode_width. pose proof (utf16_roundtrip _ [] (ok_runes _ He)) as Hrt. rewrite !app_nil_r in Hrt. fold us in Hrt.
  rewrite Hrt, !unle_le by (done || (change (width 2) with 65536; lia)). rewrite (proj2 (Z.ltb_ge _ _)) by lia.
  rewrite Hs2. cbn [mbind option_bind]. rewrite Hp. cbn [mbind option_bind]. rewrite Hx. cbn [mbind option_bind]. rewrite Hs3, Hi, Hh, Hc. cbn [mbind option_bind]. by destruct e.
Qed.

(** What was decoded is the description that is returned. *)
Lemma Unmarshal_description d e : UnmarshalLoadOption d = Some (Ok e) -> exists attrField lenField body raw,
  slice d 4 6 = Some lenField /\ slice d 0 4 = Some attrField /\ slice d 6 (len d) = Some body /\
  slice d 6 (6 + indexNulls 0 body + 1) = Some raw /\ decoderBytes raw = Some (Description e) /\ 6 + indexNulls 0 body + 1 + 2 + unle lenField <= len d.
Proof.
  unfold UnmarshalLoadOption. destruct (_ <? 6); [done|]. destruct (slice d 0 4) as [attrField|]; [|done]. cbn [mbind option_bind].
  destruct (slice d 4 6) as [lenField|]; [|done]. cbn [mbind option_bind]. destruct (slice d 6 (len d)) as [body|]; [|done]. cbn [mbind option_bind].
  destruct (_ =? -1); [done|]. destruct (slice d 6 _) as [raw|] eqn:Hraw; [|done]. cbn [mbind option_bind]. destruct (decoderBytes raw) as [desc|] eqn:Hdesc; [|done].
  destruct (Z.ltb_spec (len d) (6 + indexNulls 0 body + 1 + 2 + unle lenField)); [done|]. destruct (slice d _ (_ + unle lenField)) as [fp|]; [|done]. cbn [mbind option_bind].
  destruct (UnmarshalDevicePath fp) as [[[path rest]|]|]; [|done..]. cbn [mbind option_bind]. destruct (extraLoop _ _ _) as [[eps|]|]; [|done..]. cbn [mbind option_bind].
  destruct (if _ <? _ then _ else _) as [opt|]; [|done]. cbn [mbind option_bind]. intros [= <-]. by exists attrField, lenField, body, raw.
Qed.

Lemma Unmarshal_bad e raw : optionOk e -> len raw <= 65535 -> OptionalData e = [] -> descOk (utf16Encode (Description e)) = false ->
  UnmarshalLoadOption (le 4 (attributes e) ++ le 2 (len raw) ++ (concat (le 2 <$> utf16Encode (Description e)) ++ [0; 0]) ++ raw ++ OptionalData e) <> Some (Ok e).
Proof.
  intros He Hlen Hopt Hdesc (attrField & lenField & body & draw & Hl & Ha & Hb & Hr & Hdec & Hfit)%Unmarshal_description.
  destruct (attributes_ok e (ok_category _ He)) as (Hat & _). pose proof (utf16Encode_pos _ (ok_runes _ He) (ok_null _ He)) as Hus.
  destruct (Unmarshal_fields (attributes e) raw _ (OptionalData e) Hat Hlen Hus) as (_ & _ & H46 & Hbody & Hidx & Hd).
  rewrite Hl in H46. rewrite Hb in Hbody. apply (inj Some) in H46 as ->. apply (inj Some) in Hbody as ->. rewrite Hidx in *.
  pose proof (len_nonneg raw). rewrite unle_le in Hfit by (change (width 2) with 65536; lia). rewrite Hd, Hopt in Hfit. change (len []) with 0 in Hfit.
  destruct (descIndex_cases (utf16Encode (Description e))) as [[Hok _]|[_ [Hj|(i & Hi & Hj)]]]; [congruence|lia|]. rewrite Hj in Hr.
  rewrite (slice_eq _ _ _ (le 4 (attributes e) ++ le 2 (len raw)) (concat (le 2 <$> take i (utf16Encode (Description e))))
    ((concat (le 2 <$> drop i (utf16Encode (Description e))) ++ [0; 0]) ++ raw ++ OptionalData e)) in Hr.
  - apply (inj Some) in Hr as <-. pose proof (utf16Encode_width (Description e)) as Hw. rewrite decoder_even in Hdec by (by apply Forall_take). injection Hdec as Hdec.
    pose proof (utf16Decode_length (take i (utf16Encode (Description e))) ltac:(by apply Forall_take)) as Hle. rewrite Hdec, length_take in Hle. lia.
  - rewrite <- (take_drop i (utf16Encode (Description e))) at 1. rewrite fmap_app, concat_app, <- !app_assoc. done.
  - by rewrite prefix_len.
  - rewrite prefix_len. unfold len. rewrite concat_le_length, length_take. lia.
Qed.

(** C23: A load option of valid paths is encoded unless its paths are longer than 65535 bytes, and decoding
    gives it back if the end of its description is found: the description is not empty, its last code unit is
    below 256 and none below 256 is followed by one whose low byte is zero.  Otherwise, without optional data, decoding fails or
    returns something else. *)
Theorem loadOption_roundtrip e : optionOk e -> exists raw, marshalPaths e = Ok raw /\
  match Marshal e with
  | Err _ => 65535 < len raw
  | Ok d => len raw <= 65535 /\ (descOk (utf16Encode (Description e)) = true -> UnmarshalLoadOption d = Some (Ok e)) /\
      (descOk (utf16Encode (Description e)) = false -> OptionalData e = [] -> UnmarshalLoadOption d <> Some (Ok e))
  end.
Proof.
  intros He. destruct (Marshal_ok e He) as (raw & Hraw & ->). exists raw. split; [done|]. destruct (Z.ltb_spec 65535 (len raw)); [done|]. split; [done|].
  split; [intros; by apply Unmarshal_good|intros; by apply Unmarshal_bad].
Qed.

(** ** Parsing any bytes *)

Lemma slice_bytes l lo hi r : isBytes l -> slice l lo hi = Some r -> isBytes r.
Proof. intros Hl. unfold slice. destruct (_ && _); [|done]. intros [= <-]. by apply Forall_take, Forall_drop. Qed.

Lemma unmarshalHardDrivePath_total d : is_Some (unmarshalHardDrivePath d).
Proof.
  unfold unmarshalHardDrivePath. destruct (Z.eqb_spec (len d) 38); cbn [negb]; [|by eexists].
  destruct (slice_some d 0 4 ltac:(lia) ltac:(lia)) as (f0 & -> & _). destruct (slice_some d 4 12 ltac:(lia) ltac:(lia)) as (f1 & -> & _).
  destruct (slice_some d 12 20 ltac:(lia) ltac:(lia)) as (f2 & -> & _). destruct (slice_some d 20 36 ltac:(lia) ltac:(lia)) as (f3 & -> & _).
  destruct (lookup_lt_is_Some_2 d 36) as [pf ->]; [unfold len in *; lia|]. destruct (lookup_lt_is_Some_2 d 37) as [st ->]; [unfold len in *; lia|]. by eexists.
Qed.

Lemma unmarshalFilePath_total d : is_Some (unmarshalFilePath d).
Proof.
  unfold unmarshalFilePath. destruct (Z.ltb_spec (len d) 2) as [|Hd]; [by eexists|]. pose proof (decoder_some d Hd) as Ho. destruct (decoderBytes d) as [out|]; [|by eexists].
  destruct (negb _); [by eexists|]. destruct (slice_some out 0 (len out - 1)) as (n & -> & _); [|lia|by eexists].
  destruct out; [done|]. unfold len. cbn [length]. lia.
Qed.

Lemma unmarshalFunc_total t st u d : unmarshalFunc t st = Some u -> is_Some (u d).
Proof.
  unfold unmarshalFunc. destruct (_ && _); [intros [= <-]; apply unmarshalHardDrivePath_total|].
  destruct (_ && _); [intros [= <-]; apply unmarshalFilePath_total|done].
Qed.

Lemma pathLoop_total fuel p rest : isBytes rest -> (length rest < fuel)%nat ->
  exists r, pathLoop fuel p rest = Some r /\ match r with Ok (_, rest') => isBytes rest' /\ (length rest' < length rest)%nat | Err _ => True end.
Proof.
  revert p rest. induction fuel as [|fuel IH]; intros p rest Hb Hf; [lia|]. cbn [pathLoop]. destruct (Z.ltb_spec (len rest) 4).
  { destruct (negb _); [by eexists|]. destruct (len p =? 0); by eexists. }
  destruct (lookup_lt_is_Some_2 rest 0) as [t ->]; [unfold len in *; lia|]. destruct (lookup_lt_is_Some_2 rest 1) as [st ->]; [unfold len in *; lia|]. cbn [mbind option_bind].
  destruct (slice_some rest 2 4 ltac:(lia) ltac:(lia)) as (lf & -> & _). cbn [mbind option_bind]. destruct (Z.ltb_spec (len rest) (unle lf)); [by eexists|].
  destruct (Z.ltb_spec (unle lf) 4); [by eexists|]. destruct (slice_some rest 4 (unle lf) ltac:(lia) ltac:(lia)) as (x & -> & _). cbn [mbind option_bind].
  destruct (slice_some rest (unle lf) (len rest) ltac:(lia) ltac:(lia)) as (rest' & Hr & Hl). rewrite Hr. cbn [mbind option_bind].
  pose proof (slice_bytes _ _ _ _ Hb Hr) as Hb'. assert (length rest' < length rest)%nat as Hlt by (unfold len in *; lia).
  assert (forall q, exists r, pathLoop fuel q rest' = Some r /\ match r with Ok (_, rest'') => isBytes rest'' /\ (length rest'' < length rest)%nat | Err _ => True end) as Hnext.
  { intros q. destruct (IH q rest' Hb' ltac:(lia)) as (r & Hq & Hm). exists r. split; [done|]. destruct r as [[]|]; [|done]. destruct Hm. split; [done|lia]. }
  destruct (_ && _); [by eexists|]. destruct (unmarshalFunc t st) as [u|] eqn:Eu; [|apply Hnext]. destruct (unmarshalFunc_total _ _ _ x Eu) as [[elem|err] ->]; cbn [mbind option_bind]; [apply Hnext|by eexists].
Qed.

Lemma extraLoop_total fuel eps d : isBytes d -> (length d < fuel)%nat -> exists r, extraLoop fuel eps d = Some r.
Proof.
  revert eps d. induction fuel as [|fuel IH]; intros eps d Hb Hf; [lia|]. cbn [extraLoop]. destruct (0 <? len d); [|by eexists].
  destruct (pathLoop_total (S (length d)) [] d Hb ltac:(lia)) as (r & Hr & Hm). unfold UnmarshalDevicePath. rewrite Hr. cbn [mbind option_bind].
  destruct r as [[ep rest]|]; [|by eexists]. destruct Hm. apply IH; [done|lia].
Qed.

Lemma indexNulls_range l i : 0 <= i -> indexNulls i l = -1 \/ i <= indexNulls i l <= i + len l - 2.
Proof.
  revert i. induction l as [|a [|b l] IH]; intros i Hi; [by left|by left|].
  assert (indexNulls i (a :: b :: l) = if (a =? 0) && (b =? 0) then i else indexNulls (i + 1) (b :: l)) as -> by done.
  destruct (_ && _); [right; unfold len; cbn [length]; lia|].
  destruct (IH (i + 1) ltac:(lia)) as [H1|H1]; [by left|right]. unfold len in *. cbn [length] in *. lia.
Qed.

Lemma UnmarshalLoadOption_returns d : isBytes d -> is_Some (UnmarshalLoadOption d).
Proof.
  intros Hb. unfold UnmarshalLoadOption. destruct (Z.ltb_spec (len d) 6); [by eexists|]. destruct (slice_some d 0 4 ltac:(lia) ltac:(lia)) as (af & -> & _). cbn [mbind option_bind].
  destruct (slice_some d 4 6 ltac:(lia) ltac:(lia)) as (lf & Hlf & _). rewrite Hlf. cbn [mbind option_bind]. pose proof (unle_bound lf (slice_bytes _ _ _ _ Hb Hlf)) as [Hl _].
  destruct (slice_some d 6 (len d) ltac:(lia) ltac:(lia)) as (body & -> & Hbody). cbn [mbind option_bind].
  destruct (indexNulls_range body 0 ltac:(lia)) as [->|Hi]; [by eexists|]. rewrite (proj2 (Z.eqb_neq _ _)) by lia.
  destruct (slice_some d 6 (6 + indexNulls 0 body + 1) ltac:(lia) ltac:(lia)) as (raw & -> & _). cbn [mbind option_bind]. destruct (decoderBytes raw) as [desc|]; [|by eexists].
  destruct (Z.ltb_spec (len d) (6 + indexNulls 0 body + 1 + 2 + unle lf)); [by eexists|].
  destruct (slice_some d (6 + indexNulls 0 body + 1 + 2) (6 + indexNulls 0 body + 1 + 2 + unle lf) ltac:(lia) ltac:(lia)) as (fp & Hfp & _). rewrite Hfp. cbn [mbind option_bind].
  destruct (pathLoop_total (S (length fp)) [] fp (slice_bytes _ _ _ _ Hb Hfp) ltac:(lia)) as (r & Hr & Hm). unfold UnmarshalDevicePath. rewrite Hr. cbn [mbind option_bind].
  destruct r as [[path rest]|]; [|by eexists]. destruct Hm as [Hrest _]. destruct (extraLoop_total (S (length rest)) [] rest Hrest ltac:(lia)) as (eps & ->). cbn [mbind option_bind].
  destruct eps as [eps|]; [|by eexists]. destruct (Z.ltb_spec (6 + indexNulls 0 body + 1 + 2 + unle lf) (len d)); [|by eexists].
  destruct (slice_some d (6 + indexNulls 0 body + 1 + 2 + unle lf) (len d) ltac:(lia) ltac:(lia)) as (opt & -> & _). by eexists.
Qed.

(** C25: Whatever bytes firmware returns, decoding them as a load option ends with an option or an error and does not panic:
    no index or slice of the decoders of the option, its device paths and their hard drive and file path elements is out of range. *)
Theorem UnmarshalLoadOption_total d : isBytes d -> exists r, UnmarshalLoadOption d = Some r.
Proof. apply UnmarshalLoadOption_returns. Qed.

(** ** The boot order *)

Lemma marshalOrder_le t : Forall (fun v => 0 <= v < width 2) t -> marshalOrder t = concat (le 2 <$> t).
Proof.
  intros Ht. unfold marshalOrder. assert (forall acc, foldl append16 acc t = acc ++ concat (le 2 <$> t)) as H0; [|by rewrite H0].
  induction Ht as [|v t Hv Ht IH]; intros acc; cbn [foldl fmap list_fmap concat]; [by rewrite app_nil_r|]. by rewrite append16_le, IH, <- app_assoc.
Qed.

Lemma land_bytes a b : 0 <= a < 256 -> Z.land a (Z.shiftl b 8) = 0.
Proof.
  intros Ha. apply Z.bits_inj'. intros n Hn. rewrite Z.land_spec, Z.shiftl_spec, Z.bits_0 by lia. destruct (decide (n < 8)).
  - rewrite (Z.testbit_neg_r b) by lia. apply andb_false_r.
  - rewrite <- (Z.mod_small a (2 ^ 8)), Z.mod_pow2_bits_high by lia. done.
Qed.

Lemma lor_bytes a b : 0 <= a < 256 -> 0 <= b < 256 -> Z.lor a (Z.shiftl b 8 mod 65536) = a + 256 * b.
Proof.
  intros Ha Hb. rewrite Z.mod_small by (rewrite Z.shiftl_mul_pow2 by lia; lia). rewrite <- Z.lxor_lor, <- Z.add_nocarry_lxor by (by apply land_bytes).
  rewrite Z.shiftl_mul_pow2 by lia. lia.
Qed.

(** Reading a boot order that was written. *)
Lemma bootOrder_roundtrip t : Forall (fun v => 0 <= v < width 2) t -> UnmarshalBootOrder (marshalOrder t) = Ok t.
Proof.
  intros Ht. rewrite marshalOrder_le by done. unfold UnmarshalBootOrder, len. rewrite concat_le_length.
  rewrite Nat2Z.inj_mul, Z.mul_comm, Z.mod_mul by lia. cbn [negb Z.eqb]. rewrite Nat.mul_comm, Nat.div_mul by lia. f_equal.
  induction Ht as [|v t Hv Ht IH]; [done|]. cbn [length seq fmap list_fmap concat le app]. f_equal.
  - cbn [Nat.mul Nat.add nth]. change (width 2) with 65536 in Hv. rewrite lor_bytes by (apply Z.mod_pos_bound; lia).
    rewrite (Z.mod_small (v / 256)) by (split; [apply Z.div_pos|apply Z.div_lt_upper_bound]; lia). pose proof (Z.div_mod v 256). lia.
  - rewrite <- IH at 2. rewrite <- (fmap_S_seq 0), <- list_fmap_compose. apply list_fmap_ext. intros i k _. unfold compose.
    replace (2 * S k)%nat with (S (S (2 * k))) by lia. done.
Qed.

End codec.

(** ** Names of variables *)

Lemma string_app_length (a b : string) : String.length (a +:+ b) = (String.length a + String.length b)%nat.
Proof. induction a as [|c a IH]; [done|]. cbn. by rewrite IH. Qed.

Lemma substring_all (s : string) : String.substring 0 (String.length s) s = s.
Proof. induction s as [|c s IH]; [done|]. cbn. by rewrite IH. Qed.

Lemma substring_front (a b : string) : String.substring 0 (String.length a) (a +:+ b) = a.
Proof. induction a as [|c a IH]; [by destruct b|]. cbn. by rewrite IH. Qed.

Lemma substring_back (a b : string) : String.substring (String.length a) (String.length b) (a +:+ b) = b.
Proof. induction a as [|c a IH]; [apply substring_all|]. cbn. by rewrite IH. Qed.

Lemma suffix_app (a b : string) : HasSuffix (a +:+ b) b = true /\ TrimSuffix (a +:+ b) b = a.
Proof.
  assert (HasSuffix (a +:+ b) b = true) as Hs.
  { unfold HasSuffix. rewrite string_app_length, Nat.add_sub. apply andb_true_iff. split; [apply Nat.leb_le; lia|]. rewrite substring_back. by apply String.eqb_eq. }
  split; [done|]. unfold TrimSuffix. rewrite Hs, string_app_length, Nat.add_sub. apply substring_front.
Qed.

Lemma substring_split (s : string) n m : String.length s = (n + m)%nat -> s = String.substring 0 n s +:+ String.substring n m s.
Proof.
  revert n m. induction s as [|c s IH]; intros n m Hl; [by destruct n, m|]. destruct n as [|n]; cbn in *.
  - destruct m as [|m]; [done|]. cbn. f_equal. injection Hl as <-. by rewrite substring_all.
  - f_equal. apply IH. lia.
Qed.

Lemma suffix_split (s b : string) : HasSuffix s b = true -> s = TrimSuffix s b +:+ b.
Proof.
  intros Hs. unfold TrimSuffix. rewrite Hs. unfold HasSuffix in Hs. apply andb_true_iff in Hs as [Hl%Nat.leb_le Hb%String.eqb_eq].
  rewrite <- Hb at 2. apply substring_split. lia.
Qed.

Definition fixedHex (upper : bool) : nat -> Z -> string -> string :=
  fix go k v acc := match k with O => acc | S k => go k (v / 16) (String (hexDigitChar upper (v mod 16)) acc) end.

Lemma fixedHex_zero up k acc : fixedHex up k 0 acc = padZeros k acc.
Proof.
  revert acc. induction k as [|k IH]; intros acc; [done|]. cbn [fixedHex]. change (0 / 16) with 0. rewrite IH. change (hexDigitChar up (0 mod 16)) with "0"%char.
  clear IH. induction k as [|k IH]; [done|]. cbn [padZeros] in *. by rewrite IH.
Qed.

Lemma hexDigits_fixed up k fuel v acc : (k <= fuel)%nat -> 0 <= v < 16 ^ Z.of_nat k -> exists j, (j <= k)%nat /\
  fixedHex up k v acc = padZeros j (hexDigits up fuel v acc) /\ String.length (hexDigits up fuel v acc) = (String.length acc + (k - j))%nat.
Proof.
  revert fuel v acc. induction k as [|k IH]; intros fuel v acc Hf Hv.
  { assert (v = 0) as -> by lia. exists O. split; [done|]. destruct fuel; cbn; split; try done; lia. }
  destruct (decide (v = 0)) as [->|Hne]; [exists (S k); rewrite fixedHex_zero; destruct fuel; cbn; repeat split; lia|]. destruct fuel as [|fuel]; [lia|].
  rewrite Nat2Z.inj_succ, Z.pow_succ_r in Hv by lia.
  destruct (IH fuel (v / 16) (String (hexDigitChar up (v mod 16)) acc)) as (j & Hj & Hfix & Hlen); [lia|split; [apply Z.div_pos|apply Z.div_lt_upper_bound]; lia|].
  exists j. split; [lia|]. cbn [hexDigits]. rewrite (proj2 (Z.eqb_neq v 0)) by done. split; [done|]. rewrite Hlen. cbn [String.length]. lia.
Qed.

Lemma formatHex_fixed up v : 0 <= v < 65536 -> formatHex up v = fixedHex up 4 v "".
Proof.
  intros Hv. destruct (hexDigits_fixed up 4 16 v "" ltac:(lia) ltac:(lia)) as (j & Hj & -> & Hl). unfold formatHex. rewrite (proj2 (Z.ltb_ge v 0)) by lia.
  rewrite Z.abs_eq, Hl by lia. cbn [String.length]. by replace (4 - (0 + (4 - j)))%nat with j by lia.
Qed.

Lemma hexValue_digit up d : 0 <= d < 16 -> hexValue (hexDigitChar up d) = Some d.
Proof.
  intros Hd. assert (forallb (fun d => bool_decide (hexValue (hexDigitChar up d) = Some d)) (seqZ 0 16) = true) as H by (destruct up; vm_compute; reflexivity).
  apply (bool_decide_eq_true_1 _ (forallb_seqZ _ _ _ H Hd)).
Qed.

Lemma bootVarIndex_bootVar up v : 0 <= v < 65536 -> bootVarIndex (bootVar up v) = Some v.
Proof.
  intros Hv. unfold bootVar. rewrite formatHex_fixed by done. cbn [fixedHex String.append]. cbn [bootVarIndex].
  rewrite !hexValue_digit by (apply Z.mod_pos_bound; lia). cbn [mbind option_bind]. f_equal. rewrite (Z.mod_small (v / 16 / 16 / 16)).
  - pose proof (Z.div_mod v 16). pose proof (Z.div_mod (v / 16) 16). pose proof (Z.div_mod (v / 16 / 16) 16). lia.
  - rewrite !Z.div_div by lia. split; [apply Z.div_pos|apply Z.div_lt_upper_bound]; lia.
Qed.

(** ** Boot entries *)

(** A variable for boot entry [i] exists. *)
Definition taken (vars : efivars) (i : Z) : Prop := exists name, bootVarIndex name = Some i /\ is_Some (vars !! varPath ScopeGlobal name).

Section variables.
  Context `{Utf16Codec} (fault : access -> string -> bool).

Lemma List_taken vars names i : List_ fault vars ScopeGlobal = Ok names -> i ∈ omap bootVarIndex names <-> taken vars i.
Proof.
  unfold List_. destruct (fault _ _); [done|]. intros [= <-]. rewrite list_elem_of_omap. unfold taken.
  assert (forall f, f ∈ ReadDir vars <-> is_Some (vars !! f)) as Hdir.
  { intros f. unfold ReadDir. rewrite merge_sort_Permutation, list_elem_of_fmap. split.
    - intros ([f' v] & -> & Hin%elem_of_map_to_list). by eexists.
    - intros [v Hv]. exists (f, v). split; [done|]. by apply elem_of_map_to_list. }
  split.
  - intros (name & Hin & Hidx). exists name. split; [done|]. apply list_elem_of_fmap in Hin as (f & -> & [Hsuf Hf]%list_elem_of_filter).
    apply Hdir in Hf. unfold varPath. by rewrite <- suffix_split.
  - intros (name & Hidx & Hn). exists name. split; [|done]. unfold varPath in Hn. destruct (suffix_app name ("-" +:+ ScopeGlobal)) as [Hs Ht].
    apply list_elem_of_fmap. exists (name +:+ "-" +:+ ScopeGlobal). split; [done|]. apply list_elem_of_filter. split; [done|]. by apply Hdir.
Qed.

Lemma firstFree_spec fuel i (present : gset Z) : 0 <= i -> let r := firstFree fuel i present in
  (r = -1 /\ forall j, i <= j < i + Z.of_nat fuel -> j ∈ present) \/ (i <= r < i + Z.of_nat fuel /\ (r ∉ present) /\ forall j, i <= j < r -> j ∈ present).
Proof.
  revert i. induction fuel as [|fuel IH]; intros i Hi; cbn [firstFree]; [left; split; [done|lia]|]. destruct (decide (i ∈ present)) as [Hin|Hout].
  - destruct (IH (i + 1) ltac:(lia)) as [[-> Hall]|(Hr & Hnot & Hall)]; [left; split; [done|]|right; split; [lia|]; split; [done|]]; intros j Hj;
      (destruct (decide (j = i)) as [->|]; [done|apply Hall; lia]).
  - right. split; [lia|]. split; [done|lia].
Qed.

Lemma Read_written vars name attrs value : 0 <= attrs < 2 ^ 32 -> fault ReadAccess (varPath ScopeGlobal name) = false ->
  Read fault (<[varPath ScopeGlobal name := le 4 attrs ++ value]> vars) ScopeGlobal name = Ok (value, attrs).
Proof.
  intros Ha Hf. unfold Read, efivars in *. rewrite lookup_insert_eq, Hf. rewrite (proj2 (Z.ltb_ge _ _)) by (rewrite len_app, len_le; pose proof (len_nonneg value); lia).
  rewrite drop_app_length', take_app_length' by (by rewrite le_length). by rewrite unle_le.
Qed.

(** AddBootEntry takes the lowest number below 65535 for which no variable exists, in upper or lower case, and changes only
    the new variable; GetBootEntry then returns the entry, if the end of its description is found.  On an error nothing changes; with all
    numbers below 65535 taken, there is one. *)
Theorem AddBootEntry_correct vars be : optionOk be ->
  match AddBootEntry fault vars be with
  | (Ok idx, vars') => 0 <= idx < 65535 /\ ~ taken vars idx /\ (forall i, 0 <= i < idx -> taken vars i) /\
      (forall path, path <> varPath ScopeGlobal (bootVar true idx) -> vars' !! path = vars !! path) /\
      (descOk (utf16Encode (Description be)) = true -> fault ReadAccess (varPath ScopeGlobal (bootVar true idx)) = false -> GetBootEntry fault vars' idx = Some (Ok be))
  | (Err err, vars') => vars' = vars /\
      (err = ErrText "all 2^16 boot entry variables are occupied" <-> fault ListAccess "" = false /\ forall i, 0 <= i < 65535 -> taken vars i)
  end.
Proof.
  intros Hbe. unfold AddBootEntry. destruct (List_ fault vars ScopeGlobal) as [names|err] eqn:Hlist.
  2:{ split; [done|]. split; [done|]. intros [Hf _]. unfold List_ in Hlist. by rewrite Hf in Hlist. }
  pose proof (List_taken vars names) as Htaken. assert (fault ListAccess "" = false) as Hlf by (unfold List_ in Hlist; by destruct (fault ListAccess "")).
  assert (forall i, i ∈ (list_to_set (omap bootVarIndex names) : gset Z) <-> taken vars i) as Hset by (intros i; rewrite elem_of_list_to_set; by apply Htaken).
  destruct (firstFree_spec (Z.to_nat 65535) 0 (list_to_set (omap bootVarIndex names)) ltac:(lia)) as [[-> Hfull]|(Hr & Hnot & Hlow)].
  { split; [done|]. split; [|done]. intros _. split; [done|]. intros i Hi. apply Hset, Hfull. lia. }
  set (idx := firstFree _ _ _) in *. rewrite (proj2 (Z.eqb_neq idx (-1))) by lia. rewrite Hset in Hnot.
  unfold SetBootEntry, Write. destruct (Marshal be) as [d|] eqn:Hm.
  2:{ split; [done|]. split; [done|]. intros [_ Hall]. by destruct Hnot; apply Hall; lia. }
  destruct (fault WriteAccess _); [split; [done|]; split; [done|]; intros [_ Hall]; by destruct Hnot; apply Hall; lia|].
  split; [lia|]. split; [done|]. split; [intros i Hi; apply Hset, Hlow; lia|]. split; [intros path Hp; unfold efivars in *; by rewrite lookup_insert_ne|]. intros Hdesc Hfr.
  unfold GetBootEntry. change (if negb _ then _ else _) with 7. rewrite Read_written by done.
  destruct (Marshal_ok be Hbe) as (raw & Hraw & Hm'). rewrite Hm in Hm'. destruct (Z.ltb_spec 65535 (len raw)); [done|].
  apply (f_equal (fun r => match r with Ok x => x | Err _ => [] end)) in Hm'. cbn beta iota in Hm'. by rewrite Hm', Unmarshal_good.
Qed.

End variables.

(** ** An instance of the codec, and examples *)

Definition utf16Bytes (d : bytes) : list Z := getLEs (length d / 2) 2 d.

Program Definition textUtf16 : Utf16Codec := {|
  encoderBytes rs := Some (concat (le 2 <$> utf16Encode rs));
  decoderBytes d := Some (utf16Decode (utf16Bytes d));
|}.
Next Obligation. done. Qed.
Next Obligation.
  intros us Hus. cbn beta. unfold utf16Bytes. rewrite concat_le_length, Nat.mul_comm, Nat.div_mul by done. rewrite <- (app_nil_r (concat _)). by rewrite getLEs_concat.
Qed.
Next Obligation.
  intros d Hd. unfold utf16Bytes, len in *. assert (length d / 2 <> 0)%nat as H2 by (intros H0%Nat.div_small_iff; lia).
  destruct (length d / 2)%nat as [|n]; [done|]. cbn [getLEs utf16Decode]. destruct (_ || _); [done|]. destruct (getLEs _ _ _); [done|]. by destruct (_ && _).
Qed.

Definition exampleOption : LoadOption :=
  mkLoadOption [77; 111; 110; 111; 103; 111; 110] false true 1
    [HardDrivePath 1 2048 409600 (Some (PartitionGPT (seqZ 1 16))); FilePath [47; 69; 70; 73; 47; 20013]] [[UnknownPath 3 5 [1; 2; 3]]] [7].

Lemma exampleOption_ok : optionOk exampleOption.
Proof.
  split; cbn [Description Category FilePath_ ExtraPaths exampleOption].
  - repeat (constructor; [left; unfold surr1; lia|]). constructor.
  - apply (bool_decide_unpack _). vm_compute. done.
  - lia.
  - constructor; [cbn [elemOk]; unfold width; cbn; repeat split; try lia; eexists; split; [done|]; done|]. constructor; [|constructor].
    split; [repeat (constructor; [left; unfold surr1; lia|]); constructor|]. repeat split; try (apply (bool_decide_unpack _); vm_compute; done).
  - constructor; [|constructor]. constructor; [|constructor]. cbn [elemOk]. split; [lia|]. by split; [lia|].
Qed.

Lemma loadOption_roundtrip_witness : exists raw, @marshalPaths textUtf16 exampleOption = Ok raw /\
  match @Marshal textUtf16 exampleOption with
  | Err _ => 65535 < len raw
  | Ok d => len raw <= 65535 /\ (descOk (utf16Encode (Description exampleOption)) = true -> @UnmarshalLoadOption textUtf16 d = Some (Ok exampleOption)) /\
      (descOk (utf16Encode (Description exampleOption)) = false -> OptionalData exampleOption = [] -> @UnmarshalLoadOption textUtf16 d <> Some (Ok exampleOption))
  end.
Proof. apply loadOption_roundtrip, exampleOption_ok. Defined.

Lemma UnmarshalLoadOption_total_witness : exists r, @UnmarshalLoadOption textUtf16 [1; 0; 0; 0; 9; 0; 77; 0; 0; 0; 127; 255; 4] = Some r.
Proof. apply UnmarshalLoadOption_total. repeat (constructor; [unfold isByte; lia|]). constructor. Defined.

(** Firmware with two entries, one of them in lower case. *)
Definition exampleVars : efivars := {[varPath ScopeGlobal "Boot0000" := [7; 0; 0; 0]; varPath ScopeGlobal "Boot000a" := [7; 0; 0; 0]]}.

Lemma AddBootEntry_correct_witness :
  match @AddBootEntry textUtf16 (fun _ _ => false) exampleVars exampleOption with
  | (Ok idx, vars') => idx = 1 /\ @GetBootEntry textUtf16 (fun _ _ => false) vars' idx = Some (Ok exampleOption)
  | (Err _, _) => False
  end.
Proof.
  pose proof (@AddBootEntry_correct textUtf16 (fun _ _ => false) exampleVars exampleOption exampleOption_ok) as H.
  assert (fst (@AddBootEntry textUtf16 (fun _ _ => false) exampleVars exampleOption) = Ok 1) as H1 by (vm_compute; reflexivity).
  destruct (@AddBootEntry textUtf16 (fun _ _ => false) exampleVars exampleOption) as [[idx|err] vars']; [|done]. injection H1 as ->.
  destruct H as (_ & _ & _ & _ & Hget). split; [done|]. by apply Hget.
Defined.

End EfivarProps.
