(* ===== verification/Kmod.v ===== *)
(** * Kernel modules

    Models [osbase/kmod]: the radix tree of device match patterns ([radix.go]), the metadata
    of modules ([meta.go], [modinfo.go]) and the manager that loads them ([manager.go]).

    Strings are lists of bytes.  Nodes of the tree are built from fresh parts and each has one
    parent, so that the tree is a value; [None] is a panic, or fuel that ran out. *)

From S2P Require Import Prelude Bytes.
From Stdlib Require Import ZArith.

Module Kmod.
Import Bytes.
Open Scope Z_scope.

(** ** The tree (spec/meta.proto) *)

Inductive NodeType := LITERAL | WILDCARD | SINGLE_WILDCARD | BYTE_RANGE | ROOT.

#[export] Instance NodeType_eq_dec : EqDecision NodeType.
Proof. solve_decision. Defined.

Inductive RadixNode := Node {
  Type_ : NodeType;
  Literal : bytes;
  StartByte : Z;
  EndByte : Z;
  Children : list RadixNode;
  ModuleIndex : list Z;
}.

Definition setChildren (cs : list RadixNode) (n : RadixNode) : RadixNode := Node (Type_ n) (Literal n) (StartByte n) (EndByte n) cs (ModuleIndex n).
Definition setModuleIndex (mi : list Z) (n : RadixNode) : RadixNode := Node (Type_ n) (Literal n) (StartByte n) (EndByte n) (Children n) mi.
Definition newRoot : RadixNode := Node ROOT [] 0 0 [] [].

(** ** Looking up *)

(** [needle[i:]] for all [i]. *)
Fixpoint suffixes (s : bytes) : list bytes := s :: match s with [] => [] | _ :: s => suffixes s end.

(** One round of the loop over children; indices are added to [matches]. *)
Definition lookupChild (rec : RadixNode -> bytes -> gset Z -> gset Z) (needle : bytes) (matches : gset Z) (c : RadixNode) : gset Z :=
  match Type_ c with
  | LITERAL =>
      if len needle <? len (Literal c) then matches
      else if bool_decide (Literal c = take (length (Literal c)) needle) then rec c (drop (length (Literal c)) needle) matches
      else matches
  | WILDCARD => foldl (fun m s => rec c s m) matches (suffixes needle)
  | SINGLE_WILDCARD => match needle with [] => matches | _ :: needle => rec c needle matches end
  | BYTE_RANGE =>
      match needle with
      | [] => matches
      | b :: needle => if (StartByte c mod 256 <=? b) && (b <=? EndByte c mod 256) then rec c needle matches else matches
      end
  | ROOT => matches
  end.

Fixpoint lookupModulesRec (n : RadixNode) (needle : bytes) (matches : gset Z) : gset Z :=
  let matches := foldl (lookupChild lookupModulesRec needle) matches (Children n) in
  match needle with [] => matches ∪ list_to_set (ModuleIndex n) | _ :: _ => matches end.

(** ** Parsing patterns *)

Inductive patternError := NotEnoughCharacters | IncorrectDash | EmptyRange | IllegalEscape.

#[export] Instance patternError_eq_dec : EqDecision patternError.
Proof. solve_decision. Defined.

Definition storeCurrentLiteral (out : list RadixNode) (currentLiteral : bytes) : list RadixNode :=
  match currentLiteral with [] => out | _ :: _ => out ++ [Node LITERAL currentLiteral 0 0 [] []] end.

Definition lastIsWildcard (out : list RadixNode) : bool :=
  match last out with Some p => bool_decide (Type_ p = WILDCARD) | None => false end.

(** '*' is 42, '?' 63, '[' 91, '\' 92, ']' 93 and '-' 45. *)
Fixpoint parseLoop (pattern : bytes) (out : list RadixNode) (currentLiteral : bytes) : result patternError (list RadixNode) :=
  match pattern with
  | [] => Ok (storeCurrentLiteral out currentLiteral)
  | ch :: rest =>
      if ch =? 42 then
        let out := storeCurrentLiteral out currentLiteral in
        if lastIsWildcard out then parseLoop rest out []
        else parseLoop rest (out ++ [Node WILDCARD [] 0 0 [] []]) []
      else if ch =? 63 then parseLoop rest (storeCurrentLiteral out currentLiteral ++ [Node SINGLE_WILDCARD [] 0 0 [] []]) []
      else if ch =? 91 then
        match rest with
        | a :: dash :: b :: close :: rest =>
            if negb (dash =? 45) || negb (close =? 93) then Err IncorrectDash
            else if b <? a then Err EmptyRange
            else parseLoop rest (storeCurrentLiteral out currentLiteral ++ [Node BYTE_RANGE [] a b [] []]) []
        | _ => Err NotEnoughCharacters
        end
      else if ch =? 92 then
        match rest with
        | [] => Err IllegalEscape
        | c :: rest => parseLoop rest out (currentLiteral ++ [c])
        end
      else parseLoop rest out (currentLiteral ++ [ch])
  end.

Definition parsePattern (pattern : bytes) : result patternError (list RadixNode) := parseLoop pattern [] [].

(** ** Adding patterns *)

Fixpoint commonPrefix (a b : bytes) : nat :=
  match a, b with
  | x :: a, y :: b => if x =? y then S (commonPrefix a b) else O
  | _, _ => O
  end.

(** What a child does with the part: nothing, or it is replaced and the work is done. *)
Definition literalChild (rec : RadixNode -> list RadixNode -> option RadixNode -> option RadixNode)
    (c currPart : RadixNode) (parts : list RadixNode) : option (option RadixNode) :=
  match Literal c, Literal currPart with
  | x :: _, y :: _ =>
      if x =? y then
        let i := commonPrefix (Literal c) (Literal currPart) in
        if bool_decide (i = length (Literal c)) && bool_decide (i = length (Literal currPart)) then
          match parts with
          | [p] => Some (Some (setModuleIndex (ModuleIndex c ++ ModuleIndex p) c))
          | _ => Some <$> rec c (tail parts) None
          end
        else if bool_decide (i = length (Literal c)) then
          Some <$> rec c parts (Some (Node LITERAL (drop i (Literal currPart)) 0 0 [] (ModuleIndex currPart)))
        else
          let splitOldPart := Node LITERAL (drop i (Literal c)) 0 0 (Children c) (ModuleIndex c) in
          if bool_decide (i = length (Literal currPart)) then
            match parts with
            | _ :: splitNewPart :: rest =>
                splitNewPart ← rec splitNewPart rest None;
                Some (Some (Node LITERAL (take i (Literal currPart)) (StartByte c) (EndByte c) [splitOldPart; splitNewPart] []))
            | _ => Some (Some (Node LITERAL (Literal currPart) (StartByte c) (EndByte c) [splitOldPart] (ModuleIndex currPart)))
            end
          else
            splitNewPart ← rec (Node LITERAL (drop i (Literal currPart)) 0 0 [] (ModuleIndex currPart)) (tail parts) None;
            Some (Some (Node LITERAL (take i (Literal currPart)) (StartByte c) (EndByte c) [splitOldPart; splitNewPart] []))
      else Some None
  | _, _ => None
  end.

Definition sameChild (rec : RadixNode -> list RadixNode -> option RadixNode -> option RadixNode)
    (c : RadixNode) (parts : list RadixNode) : option (option RadixNode) :=
  let c := match parts with [p] => setModuleIndex (ModuleIndex c ++ ModuleIndex p) c | _ => c end in
  Some <$> rec c (tail parts) None.

Definition tryChild (rec : RadixNode -> list RadixNode -> option RadixNode -> option RadixNode)
    (c currPart : RadixNode) (parts : list RadixNode) : option (option RadixNode) :=
  if negb (bool_decide (Type_ c = Type_ currPart)) then Some None
  else match Type_ c with
       | LITERAL => literalChild rec c currPart parts
       | BYTE_RANGE => if (StartByte c =? StartByte currPart) && (EndByte c =? EndByte currPart) then sameChild rec c parts else Some None
       | SINGLE_WILDCARD | WILDCARD => sameChild rec c parts
       | ROOT => Some None
       end.

Fixpoint tryChildren (f : RadixNode -> option (option RadixNode)) (pre cs : list RadixNode) : option (option (list RadixNode)) :=
  match cs with
  | [] => Some None
  | c :: cs =>
      r ← f c;
      match r with
      | Some c' => Some (Some (pre ++ c' :: cs))
      | None => tryChildren f (pre ++ [c]) cs
      end
  end.

(** The error it returns is always nil. *)
Fixpoint addPatternRec (fuel : nat) (n : RadixNode) (parts : list RadixNode) (currPartOverride : option RadixNode) : option RadixNode :=
  match fuel with
  | O => None
  | S fuel =>
      match parts with
      | [] => Some n
      | p :: rest =>
          let currPart := match currPartOverride with Some o => o | None => p end in
          r ← tryChildren (fun c => tryChild (addPatternRec fuel) c currPart parts) [] (Children n);
          match r with
          | Some cs => Some (setChildren cs n)
          | None => currPart ← addPatternRec fuel currPart rest None; Some (setChildren (Children n ++ [currPart]) n)
          end
      end
  end.

(** Each call uses up a part or characters of one. *)
Definition partsFuel (parts : list RadixNode) : nat := S (sum_list ((fun p => S (length (Literal p))) <$> parts)).

(** [pp[len(pp)-1].ModuleIndex = [moduleIndex]]. *)
Fixpoint setLastIndex (moduleIndex : Z) (pp : list RadixNode) : list RadixNode :=
  match pp with
  | [] => []
  | [p] => [setModuleIndex [moduleIndex] p]
  | p :: pp => p :: setLastIndex moduleIndex pp
  end.

Definition AddPattern (root : RadixNode) (pattern : bytes) (moduleIndex : Z) : option (result patternError RadixNode) :=
  match parsePattern pattern with
  | Err err => Some (Err err)
  | Ok pp =>
      let root := match pp with [] => setModuleIndex (ModuleIndex root ++ [moduleIndex]) root | _ :: _ => root end in
      let pp := setLastIndex moduleIndex pp in
      root ← addPatternRec (partsFuel pp) root pp None; Some (Ok root)
  end.

(** ** Module information *)

(** Keys and their values, in order. *)
Definition ModuleInfo : Type := gmap bytes (list bytes).

Definition values (m : ModuleInfo) (key : string) : list bytes := default [] (m !! ascii_bytes key).

Definition Get (m : ModuleInfo) (key : string) : bytes := match values m key with v :: _ => v | [] => [] end.

Definition InfoName (m : ModuleInfo) : bytes := Get m "name".
Definition Aliases (m : ModuleInfo) : list bytes := values m "alias".

Definition GetDependencies (m : ModuleInfo) : list bytes :=
  match values m "depends" with [[]] => [] | deps => deps end.

(** The tokens of a scanner over bytes that end with zero; empty tokens are passed over.  The scanner stops
    at a token that does not fit into its buffer. *)
Definition MaxScanTokenSize : Z := 65536.

Fixpoint scanTokens (token : bytes) (data : bytes) : list bytes :=
  match data with
  | [] => match token with [] => [] | _ => if MaxScanTokenSize <=? len token then [] else [token] end
  | b :: data =>
      if b =? 0 then
        match token with
        | [] => scanTokens [] data
        | _ => if MaxScanTokenSize <=? len token then [] else token :: scanTokens [] data
        end
      else scanTokens (token ++ [b]) data
  end.

(** [bytes.Cut]. *)
Fixpoint Cut (sep : Z) (l : bytes) : option (bytes * bytes) :=
  match l with
  | [] => None
  | b :: l => if b =? sep then Some ([], l) else '(key, value) ← Cut sep l; Some (b :: key, value)
  end.

Definition appendValue (key value : bytes) (m : ModuleInfo) : ModuleInfo := <[key := default [] (m !! key) ++ [value]]> m.

(** '=' is 61. *)
Definition addEntry (m : ModuleInfo) (entry : bytes) : ModuleInfo :=
  match Cut 61 entry with Some (key, value) => appendValue key value m | None => m end.

(** The sections of an ELF file by name. *)
Fixpoint GetModuleInfo (sections : list (string * bytes)) : option ModuleInfo :=
  match sections with
  | [] => None
  | (name, content) :: sections =>
      if bool_decide (name = ".modinfo"%string) then Some (foldl addEntry ∅ (scanTokens [] content)) else GetModuleInfo sections
  end.

(** '.' is 46.  The modules that are complete, and the current one. *)
Definition builtinToken (st : list ModuleInfo * ModuleInfo) (token : bytes) : list ModuleInfo * ModuleInfo :=
  match Cut 46 token with
  | None => st
  | Some (modName, entry) =>
      let '(out, currModule) := st in
      let '(out, currModule) :=
        if bool_decide (modName = InfoName currModule) then (out, currModule)
        else (if bool_decide (InfoName currModule = []) then out else out ++ [currModule], {[ascii_bytes "name" := [modName]]}) in
      (out, addEntry currModule entry)
  end.

Definition GetBuiltinModulesInfo (f : bytes) : option (list ModuleInfo) :=
  let '(out, currModule) := foldl builtinToken ([], ∅) (scanTokens [] f) in
  let out := if bool_decide (InfoName currModule = []) then out else out ++ [currModule] in
  if decide (NoDup (InfoName <$> out)) then Some out else None.

(** ** Metadata *)

Record Module_ := mkModule { Name : bytes; Path : bytes; Depends : list Z }.
Record Meta := mkMeta { Modules : list Module_; ModuleDeviceMatches : RadixNode }.

Fixpoint addAliases (root : RadixNode) (aliases : list bytes) (i : Z) : option (result patternError RadixNode) :=
  match aliases with
  | [] => Some (Ok root)
  | p :: aliases =>
      r ← AddPattern root p i;
      match r with Err err => Some (Err err) | Ok root => addAliases root aliases i end
  end.

(** The aliases of modules that have a path; modules are numbered from [i]. *)
Fixpoint addModules (root : RadixNode) (modinfos : list ModuleInfo) (i : Z) : option (result patternError RadixNode) :=
  match modinfos with
  | [] => Some (Ok root)
  | m :: modinfos =>
      r ← addAliases root (if bool_decide (Get m "path" = []) then [] else Aliases m) i;
      match r with Err err => Some (Err err) | Ok root => addModules root modinfos (i + 1) end
  end.

(** [modIndices] and [modInfoMap]: the last of the modules of a name. *)
Definition modIndices (modinfos : list ModuleInfo) : gmap bytes Z :=
  foldl (fun mp '(i, m) => <[InfoName m := i]> mp) ∅ (imap (fun i m => (Z.of_nat i, m)) modinfos).
Definition modInfoMap (modinfos : list ModuleInfo) : gmap bytes ModuleInfo := foldl (fun mp m => <[InfoName m := m]> mp) ∅ modinfos.

(** A dependency that is not known gets the zero value of the map. *)
Definition dependsOf (modinfos : list ModuleInfo) (name : bytes) : list Z :=
  (fun dep => default 0 (modIndices modinfos !! dep)) <$> GetDependencies (default ∅ (modInfoMap modinfos !! name)).

Definition MakeMetaFromModuleInfo (modinfos : list ModuleInfo) : option (result patternError Meta) :=
  r ← addModules newRoot modinfos 0;
  match r with
  | Err err => Some (Err err)
  | Ok root => Some (Ok (mkMeta ((fun m => mkModule (InfoName m) (Get m "path") (dependsOf modinfos (InfoName m))) <$> modinfos) root))
  end.

(** Bytewise order. *)
Fixpoint bytes_leb (a b : bytes) : bool :=
  match a, b with
  | [], _ => true
  | _ :: _, [] => false
  | x :: a, y :: b => if x <? y then true else if y <? x then false else bytes_leb a b
  end.
Definition nameLe (a b : Module_) : Prop := bytes_leb (Name a) (Name b) = true.
#[export] Instance nameLe_dec a b : Decision (nameLe a b).
Proof. unfold nameLe. apply _. Defined.

(** [order] is the iteration over the map of matches. *)
Definition LookupModules (order : gset Z -> list Z) (meta : Meta) (modalias : bytes) : option (list Module_) :=
  let matches := lookupModulesRec (ModuleDeviceMatches meta) modalias ∅ in
  mods ← mapM (fun idx => Modules meta !! Z.to_nat idx) (order matches);
  Some (merge_sort nameLe mods).

(** ** The manager *)

Inductive errno := EEXIST | ENOENT | ENOEXEC | EINVAL | EOther.

#[export] Instance errno_eq_dec : EqDecision errno.
Proof. solve_decision. Defined.

Inductive loadError := ErrNotFound (name : bytes) | ErrOpen | ErrLoad (e : errno).

Record Manager := mkManager {
  meta : Meta;
  moduleIndexes : gmap bytes Z;
  loadedModules : gset Z;
  attempts : list Z;   (** modules handed to the kernel, in order *)
}.

Definition markLoaded (modIdx : Z) (s : Manager) : Manager := mkManager (meta s) (moduleIndexes s) ({[modIdx]} ∪ loadedModules s) (attempts s).
Definition attempt (modIdx : Z) (s : Manager) : Manager := mkManager (meta s) (moduleIndexes s) (loadedModules s) (attempts s ++ [modIdx]).

(** [fields] are the first fields of the lines of /proc/modules, if it can be read. *)
Definition NewManager (meta : Meta) (fields : option (list bytes)) : option Manager :=
  let modIndexes : gmap bytes Z := foldl (fun mp '(i, m) => <[Name m := i]> mp) ∅ (imap (fun i m => (Z.of_nat i, m)) (Modules meta)) in
  fields ← fields;
  Some (mkManager meta modIndexes (list_to_set (omap (fun f => modIndexes !! f) fields)) []).

Section manager.
  (** Whether the file of a module can be opened, and what the kernel answers after the given attempts. *)
  Context (canOpen : Z -> bool) (finit_module : list Z -> Z -> option errno).

(** The dependencies in order, until one fails. *)
Fixpoint loadAll (load : Z -> Manager -> option (result loadError () * Manager)) (deps : list Z) (s : Manager) : option (result loadError () * Manager) :=
  match deps with
  | [] => Some (Ok (), s)
  | dep :: deps =>
      '(r, s) ← load dep s;
      match r with Err err => Some (Err err, s) | Ok _ => loadAll load deps s end
  end.

Fixpoint loadModuleRecursive (fuel : nat) (modIdx : Z) (s : Manager) : option (result loadError () * Manager) :=
  match fuel with
  | O => None
  | S fuel =>
      if decide (modIdx ∈ loadedModules s) then Some (Ok (), s)
      else
        modMeta ← Modules (meta s) !! Z.to_nat modIdx;
        if bool_decide (Path modMeta = []) then Some (Ok (), s)
        else
          '(r, s) ← loadAll (loadModuleRecursive fuel) (Depends modMeta) s;
          match r with
          | Err err => Some (Err err, s)
          | Ok _ =>
              if negb (canOpen modIdx) then Some (Err ErrOpen, s)
              else
                let err := finit_module (attempts s) modIdx in
                let s := attempt modIdx s in
                match err with
                | Some EEXIST => Some (Err (ErrLoad EEXIST), s)
                | _ => Some (Ok (), markLoaded modIdx s)
                end
          end
  end.

Definition LoadModule (fuel : nat) (name : bytes) (s : Manager) : option (result loadError () * Manager) :=
  match moduleIndexes s !! name with
  | None => Some (Err (ErrNotFound name), s)
  | Some modIdx => loadModuleRecursive fuel modIdx s
  end.

(** [order] is the iteration over the map of matches. *)
Definition LoadModulesForDevice (order : gset Z -> list Z) (fuel : nat) (devModalias : bytes) (s : Manager) : option (result loadError () * Manager) :=
  loadAll (loadModuleRecursive fuel) (order (lookupModulesRec (ModuleDeviceMatches (meta s)) devModalias ∅)) s.

End manager.

End Kmod.
