(* ===== verification/KmodTree.v ===== *)
(** * The radix tree of patterns

    What a tree matches, as a relation; looking up finds exactly this, and adding a
    pattern adds exactly what the pattern matches. *)

From S2P Require Import Prelude Bytes Kmod.
From Stdlib Require Import ZArith.

Module KmodTree.
Import Bytes Kmod.
Open Scope Z_scope.

Lemma RadixNode_induction (P : RadixNode -> Prop) : (forall n, Forall P (Children n) -> P n) -> forall n, P n.
Proof.
  intros H. fix IH 1. intros [t l sb eb cs mi]. apply H. cbn [Children]. induction cs as [|c cs IHcs]; constructor; [apply IH|apply IHcs].
Qed.

(** ** What nodes match *)

(** The part of a string that a node takes. *)
Definition consumes (c : RadixNode) (a : bytes) : Prop :=
  match Type_ c with
  | LITERAL => a = Literal c
  | WILDCARD => True
  | SINGLE_WILDCARD => length a = 1%nat
  | BYTE_RANGE => exists b, a = [b] /\ StartByte c mod 256 <= b <= EndByte c mod 256
  | ROOT => False
  end.

(** Index [i] is below [n] at the end of a path for the string. *)
Inductive sem : RadixNode -> bytes -> Z -> Prop :=
| sem_end n i : i ∈ ModuleIndex n -> sem n [] i
| sem_child n c a s i : c ∈ Children n -> consumes c a -> sem c s i -> sem n (a ++ s) i.

(** Below one child. *)
Definition semChild (c : RadixNode) (s : bytes) (i : Z) : Prop := exists a s', s = a ++ s' /\ consumes c a /\ sem c s' i.

Lemma sem_inv n s i : sem n s i <-> (s = [] /\ i ∈ ModuleIndex n) \/ exists c, c ∈ Children n /\ semChild c s i.
Proof.
  split.
  - destruct 1 as [n i Hi|n c a s i Hc Ha Hs]; [by left|right]. exists c. split; [done|]. by exists a, s.
  - intros [[-> Hi]|(c & Hc & a & s' & -> & Ha & Hs)]; [by constructor|by econstructor].
Qed.

Lemma elem_suffixes s s' : s' ∈ suffixes s <-> exists a, s = a ++ s'.
Proof.
  induction s as [|b s IH]; cbn [suffixes].
  - rewrite list_elem_of_singleton. split; [intros ->; by exists []|]. intros [a Ha]. symmetry in Ha. by apply app_nil in Ha as [_ ->].
  - rewrite elem_of_cons, IH. split; [intros [->|[a ->]]; [by exists []|by exists (b :: a)]|]. intros [[|b' a] Ha]; [by left|right]. injection Ha as <- ->. by exists a.
Qed.

Lemma foldl_elem {A} (f : gset Z -> A -> gset Z) (P : A -> Z -> Prop) l : (forall x m i, x ∈ l -> i ∈ f m x <-> i ∈ m \/ P x i) ->
  forall m i, i ∈ foldl f m l <-> i ∈ m \/ exists x, x ∈ l /\ P x i.
Proof.
  induction l as [|x l IH]; intros Hf m i; cbn [foldl]; [set_solver|]. rewrite IH by (intros; apply Hf; by right). rewrite Hf by left. split.
  - intros [[Hm|Hp]|(y & Hy & Hp)]; [by left|right; exists x; split; [left|done]|right; exists y; split; [by right|done]].
  - intros [Hm|(y & [->|Hy]%elem_of_cons & Hp)]; [by left; left|by left; right|right; by exists y].
Qed.

Lemma lookupChild_spec c s m i : (forall s m i, i ∈ lookupModulesRec c s m <-> i ∈ m \/ sem c s i) ->
  i ∈ lookupChild lookupModulesRec s m c <-> i ∈ m \/ semChild c s i.
Proof.
  intros IH. unfold lookupChild, semChild, consumes. destruct (Type_ c).
  - destruct (Z.ltb_spec (len s) (len (Literal c))) as [Hlt|Hge].
    + split; [by left|]. intros [Hm|(a & s' & -> & -> & _)]; [done|]. rewrite len_app in Hlt. pose proof (len_nonneg s'). lia.
    + case_bool_decide as Heq.
      * rewrite IH. split; (intros [Hm|Hs]; [by left|right]).
        -- exists (Literal c), (drop (length (Literal c)) s). split; [|done]. by rewrite Heq at 1; rewrite take_drop.
        -- destruct Hs as (a & s' & -> & -> & Hs). by rewrite drop_app_length.
      * split; [by left|]. intros [Hm|(a & s' & -> & -> & _)]; [done|]. by rewrite take_app_length in Heq.
  - rewrite (foldl_elem _ (fun s' i => sem c s' i)) by (intros; apply IH). split; (intros [Hm|Hs]; [by left|right]).
    + destruct Hs as (s' & [a ->]%elem_suffixes & Hs). by exists a, s'.
    + destruct Hs as (a & s' & -> & _ & Hs). exists s'. split; [|done]. apply elem_suffixes. by exists a.
  - destruct s as [|b s].
    + split; [by left|]. intros [Hm|(a & s' & Ha & Hl & _)]; [done|]. symmetry in Ha. by apply app_nil in Ha as [-> _].
    + rewrite IH. split; (intros [Hm|Hs]; [by left|right]); [by exists [b], s|]. destruct Hs as ([|x [|]] & s' & Heq & Hl & Hs); try done. by injection Heq as <- <-.
  - destruct s as [|b s].
    + split; [by left|]. intros [Hm|(a & s' & Ha & (b & -> & _) & _)]; [done|]. done.
    + destruct ((StartByte c mod 256 <=? b) && (b <=? EndByte c mod 256)) eqn:Hb.
      * rewrite IH. apply andb_true_iff in Hb as [H1%Z.leb_le H2%Z.leb_le]. split; (intros [Hm|Hs]; [by left|right]).
        -- exists [b], s. split; [done|]. split; [by exists b|done].
        -- destruct Hs as (a & s' & Heq & (x & -> & _) & Hs). by injection Heq as <- <-.
      * split; [by left|]. intros [Hm|(a & s' & Heq & (x & -> & H1 & H2) & Hs)]; [done|]. injection Heq as <- <-.
        apply andb_false_iff in Hb as [Hb%Z.leb_gt|Hb%Z.leb_gt]; lia.
  - split; [by left|]. by intros [Hm|(a & s' & _ & [] & _)].
Qed.

Lemma lookup_spec n s m i : i ∈ lookupModulesRec n s m <-> i ∈ m \/ sem n s i.
Proof.
  revert s m i. induction n as [n IH] using RadixNode_induction. intros s m i. rewrite Forall_forall in IH.
  assert (lookupModulesRec n s m = match s with [] => foldl (lookupChild lookupModulesRec s) m (Children n) ∪ list_to_set (ModuleIndex n) | _ :: _ => foldl (lookupChild lookupModulesRec s) m (Children n) end) as -> by (by destruct n).
  assert (i ∈ foldl (lookupChild lookupModulesRec s) m (Children n) <-> i ∈ m \/ exists c, c ∈ Children n /\ semChild c s i) as Hl.
  { apply (foldl_elem _ (fun c i => semChild c s i)). intros c m' j Hc. apply lookupChild_spec. by apply IH. }
  rewrite sem_inv. destruct s as [|b s]; [rewrite elem_of_union, elem_of_list_to_set, Hl|rewrite Hl]; naive_solver.
Qed.

(** ** Parts of patterns *)

(** What a list of parts matches, each part with its indices. *)
Fixpoint partsSem (parts : list RadixNode) (s : bytes) (i : Z) : Prop :=
  match parts with
  | [] => False
  | p :: parts => exists a s', s = a ++ s' /\ consumes p a /\ ((s' = [] /\ i ∈ ModuleIndex p) \/ partsSem parts s' i)
  end.

(** Literals are not empty, and there is no root below. *)
Definition nodeOk (c : RadixNode) : Prop := (Type_ c = LITERAL -> Literal c <> []) /\ Type_ c <> ROOT.

Inductive wf : RadixNode -> Prop :=
| wf_node n : (forall c, c ∈ Children n -> nodeOk c /\ wf c) -> wf n.

(** Parts as the parser makes them, with indices for the last one. *)
Fixpoint partsOk (parts : list RadixNode) : Prop :=
  match parts with
  | [] => True
  | p :: parts => Children p = [] /\ nodeOk p /\ (parts <> [] -> ModuleIndex p = []) /\ partsOk parts
  end.

(** Nodes that differ in their children only. *)
Definition sameNode (n n' : RadixNode) : Prop :=
  Type_ n' = Type_ n /\ Literal n' = Literal n /\ StartByte n' = StartByte n /\ EndByte n' = EndByte n /\ ModuleIndex n' = ModuleIndex n.

Lemma same_consumes n n' a : sameNode n n' -> consumes n' a <-> consumes n a.
Proof. intros (H1 & H2 & H3 & H4 & _). unfold consumes. by rewrite H1, H2, H3, H4. Qed.

Lemma same_ok n n' : sameNode n n' -> nodeOk n -> nodeOk n'.
Proof. intros (H1 & H2 & _). unfold nodeOk. by rewrite H1, H2. Qed.

Lemma sem_leaf n s i : Children n = [] -> sem n s i <-> s = [] /\ i ∈ ModuleIndex n.
Proof. intros Hn. rewrite sem_inv, Hn. set_solver. Qed.

(** Only children and indices count. *)
Lemma sem_ext n n' s i : Children n' = Children n -> ModuleIndex n' = ModuleIndex n -> sem n' s i <-> sem n s i.
Proof. intros Hc Hm. by rewrite !sem_inv, Hc, Hm. Qed.

Lemma sem_moreIndices n mi s i : sem (setModuleIndex (ModuleIndex n ++ mi) n) s i <-> sem n s i \/ (s = [] /\ i ∈ mi).
Proof. rewrite !sem_inv. cbn [ModuleIndex Children setModuleIndex]. rewrite elem_of_app. naive_solver. Qed.

Lemma wf_leaf n : Children n = [] -> wf n.
Proof. intros Hn. constructor. rewrite Hn. set_solver. Qed.

Lemma wf_ext n n' : Children n' = Children n -> wf n -> wf n'.
Proof. intros Hc. inversion_clear 1 as [n0 Hw]. constructor. by rewrite Hc. Qed.

(** A child that takes what the first part takes, and matches what was there before and the rest. *)
Lemma semChild_same c c' cur rest s i : (forall a, consumes c' a <-> consumes c a) -> (forall a, consumes cur a <-> consumes c a) ->
  (forall s i, sem c' s i <-> sem c s i \/ ((s = [] /\ i ∈ ModuleIndex cur) \/ partsSem rest s i)) ->
  semChild c' s i <-> semChild c s i \/ partsSem (cur :: rest) s i.
Proof.
  intros Hc Hcur Hs. unfold semChild. cbn [partsSem]. split.
  - intros (a & s' & -> & Ha & [H1|H1]%Hs); [left|right]; exists a, s'; (split; [done|]); [by rewrite <- Hc|by rewrite Hcur, <- Hc].
  - intros [(a & s' & -> & Ha & H1)|(a & s' & -> & Ha & H1)]; exists a, s'; (split; [done|]); rewrite Hc, Hs; [by split; [|left]|].
    rewrite Hcur in Ha. by split; [|right].
Qed.

Lemma semChild_literal c l s i : Type_ c = LITERAL -> Literal c = l -> semChild c s i <-> exists s', s = l ++ s' /\ sem c s' i.
Proof. intros Ht Hl. unfold semChild, consumes. rewrite Ht, Hl. naive_solver. Qed.

(** Splitting the literal of a node, or of a part. *)
Lemma semChild_split c l l1 s i : Type_ c = LITERAL -> Literal c = l ++ l1 ->
  semChild c s i <-> exists s', s = l ++ s' /\ semChild (Node LITERAL l1 0 0 (Children c) (ModuleIndex c)) s' i.
Proof.
  intros Ht Hl. rewrite (semChild_literal c (l ++ l1)) by done. setoid_rewrite (semChild_literal (Node LITERAL l1 0 0 (Children c) (ModuleIndex c)) l1); [|done..].
  split.
  - intros (s' & -> & Hs). exists (l1 ++ s'). split; [by rewrite app_assoc|]. exists s'. split; [done|]. by apply (sem_ext c).
  - intros (s1 & -> & s' & -> & Hs). exists s'. split; [by rewrite app_assoc|]. by apply (sem_ext c) in Hs.
Qed.

Lemma partsSem_split cur l l2 rest s i : Type_ cur = LITERAL -> Literal cur = l ++ l2 ->
  partsSem (cur :: rest) s i <-> exists s', s = l ++ s' /\ partsSem (Node LITERAL l2 0 0 [] (ModuleIndex cur) :: rest) s' i.
Proof.
  intros Ht Hl. cbn [partsSem]. unfold consumes. rewrite Ht, Hl. cbn [Type_ Literal ModuleIndex]. split.
  - intros (a & s' & -> & -> & H). exists (l2 ++ s'). split; [by rewrite app_assoc|]. by exists l2, s'.
  - intros (s1 & -> & a & s' & -> & -> & H). exists (l ++ l2), s'. by rewrite app_assoc.
Qed.

(** A literal node with given children. *)
Lemma semChild_new l sb eb cs mi s i :
  semChild (Node LITERAL l sb eb cs mi) s i <-> exists s', s = l ++ s' /\ ((s' = [] /\ i ∈ mi) \/ exists c, c ∈ cs /\ semChild c s' i).
Proof. rewrite (semChild_literal _ l) by done. by setoid_rewrite sem_inv. Qed.

(** ** Adding parts *)

(** The parts with the first one replaced. *)
Definition eff (ov : option RadixNode) (parts : list RadixNode) : list RadixNode :=
  match ov, parts with Some o, _ :: rest => o :: rest | _, _ => parts end.

Definition ovOk (ov : option RadixNode) (parts : list RadixNode) : Prop :=
  forall o, ov = Some o -> exists p rest, parts = p :: rest /\ ModuleIndex p = ModuleIndex o /\ Type_ o = LITERAL.

(** What adding parts with the given fuel does. *)
Definition recSpec (rec : RadixNode -> list RadixNode -> option RadixNode -> option RadixNode) (fuel : nat) : Prop :=
  forall n parts ov, wf n -> partsOk (eff ov parts) -> ovOk ov parts -> (partsFuel (eff ov parts) <= fuel)%nat ->
    exists n', rec n parts ov = Some n' /\ sameNode n n' /\ wf n' /\ forall s i, sem n' s i <-> sem n s i \/ partsSem (eff ov parts) s i.

(** What it does to a child. *)
Definition childSpec (r : option RadixNode) (c cur : RadixNode) (rest : list RadixNode) : Prop :=
  match r with
  | None => True
  | Some c' => nodeOk c' /\ wf c' /\ forall s i, semChild c' s i <-> semChild c s i \/ partsSem (cur :: rest) s i
  end.

Lemma rec_next rec fuel n cur rest : recSpec rec fuel -> wf n -> partsOk rest -> (partsFuel (cur :: rest) <= S fuel)%nat ->
  exists n', rec n rest None = Some n' /\ sameNode n n' /\ wf n' /\ forall s i, sem n' s i <-> sem n s i \/ partsSem rest s i.
Proof. intros Hrec Hn Hp Hf. apply (Hrec n rest None); [done|done|done|]. unfold partsFuel in *. cbn [eff fmap list_fmap sum_list sum_list_with id] in *. lia. Qed.

(** A fresh part below which the rest is added. *)
Lemma new_part rec fuel p cur rest : recSpec rec fuel -> partsOk (p :: rest) -> (partsFuel (cur :: rest) <= S fuel)%nat ->
  exists p', rec p rest None = Some p' /\ nodeOk p' /\ wf p' /\ forall s i, semChild p' s i <-> partsSem (p :: rest) s i.
Proof.
  intros Hrec (Hch & Hok & Hmi & Hp) Hf. destruct (rec_next rec fuel p cur rest Hrec (wf_leaf _ Hch) Hp Hf) as (p' & Hr & Hs & Hw & Hsem). exists p'. split; [done|].
  split; [by apply (same_ok _ _ Hs)|]. split; [done|]. intros s i. unfold semChild. cbn [partsSem].
  split; intros (a & s' & -> & Ha & Hx); exists a, s'; (split; [done|]); (split; [by apply (same_consumes _ _ _ Hs)|]); revert Hx; rewrite Hsem, (sem_leaf p) by done; done.
Qed.

Lemma sameChild_spec rec fuel c cur p rest : recSpec rec fuel -> wf c -> nodeOk c -> (forall a, consumes cur a <-> consumes c a) -> partsOk (cur :: rest) ->
  ModuleIndex p = ModuleIndex cur -> (partsFuel (cur :: rest) <= S fuel)%nat -> exists r, sameChild rec c (p :: rest) = Some r /\ childSpec r c cur rest.
Proof.
  intros Hrec Hw Hok Hcons (_ & _ & Hmi & Hp) Hpmi Hf. unfold sameChild. cbn [tail]. destruct rest as [|q rest].
  - destruct (rec_next rec fuel (setModuleIndex (ModuleIndex c ++ ModuleIndex p) c) cur [] Hrec) as (c' & -> & Hs & Hw' & Hsem); [by apply (wf_ext c)|done|done|].
    eexists. split; [done|]. split; [by apply (same_ok _ _ Hs)|]. split; [done|]. intros s i. apply semChild_same; [intros a; by apply (same_consumes _ _ _ Hs)|done|].
    intros s' j. rewrite Hsem, sem_moreIndices, Hpmi. cbn [partsSem]. tauto.
  - destruct (rec_next rec fuel c cur (q :: rest) Hrec) as (c' & -> & Hs & Hw' & Hsem); [done..|].
    eexists. split; [done|]. split; [by apply (same_ok _ _ Hs)|]. split; [done|]. intros s i. apply semChild_same; [intros a; by apply (same_consumes _ _ _ Hs)|done|].
    intros s' j. rewrite Hsem, (Hmi ltac:(done)), elem_of_nil. tauto.
Qed.

Lemma commonPrefix_spec a b : exists l a' b', a = l ++ a' /\ b = l ++ b' /\ commonPrefix a b = length l.
Proof.
  revert b. induction a as [|x a IH]; intros b; [by exists [], [], b|]. destruct b as [|y b]; [by exists [], (x :: a), []|]. cbn [commonPrefix].
  destruct (Z.eqb_spec x y) as [->|]; [|by exists [], (x :: a), (y :: b)]. destruct (IH b) as (l & a' & b' & -> & -> & ->). by exists (y :: l), a', b'.
Qed.

Lemma full_prefix {A} (l l' : list A) : bool_decide (length l = length (l ++ l')) = bool_decide (l' = []).
Proof. apply bool_decide_ext. rewrite length_app. destruct l'; cbn [length]; split; try done; lia. Qed.

(** A node in place of a child and a part with a common prefix. *)
Lemma split_sem l sb eb cs mi c old cur rest (Q : bytes -> Z -> Prop) s i : (forall s i, semChild c s i <-> exists s', s = l ++ s' /\ semChild old s' i) ->
  (forall s i, partsSem (cur :: rest) s i <-> exists s', s = l ++ s' /\ Q s' i) ->
  (forall s' i, ((s' = [] /\ i ∈ mi) \/ exists c, c ∈ cs /\ semChild c s' i) <-> semChild old s' i \/ Q s' i) ->
  semChild (Node LITERAL l sb eb cs mi) s i <-> semChild c s i \/ partsSem (cur :: rest) s i.
Proof. intros H1 H2 H3. rewrite semChild_new, H1, H2. setoid_rewrite H3. naive_solver. Qed.

Lemma two_children x y s i : ((s = [] /\ i ∈ []) \/ exists c, c ∈ [x; y] /\ semChild c s i) <-> semChild x s i \/ semChild y s i.
Proof. rewrite elem_of_nil. setoid_rewrite elem_of_cons. setoid_rewrite list_elem_of_singleton. naive_solver. Qed.

(** A part that takes nothing. *)
Lemma partsSem_nilLiteral mi q rest s i : mi = [] -> partsSem (Node LITERAL [] 0 0 [] mi :: q :: rest) s i <-> partsSem (q :: rest) s i.
Proof.
  intros ->. split.
  - intros (a & s' & -> & -> & [[_ H%elem_of_nil]|H]); done.
  - intros H. exists [], s. split; [done|]. split; [done|by right].
Qed.

Lemma literalChild_spec rec fuel c cur p rest : recSpec rec fuel -> wf c -> nodeOk c -> Type_ c = LITERAL -> Type_ cur = LITERAL -> partsOk (cur :: rest) ->
  ModuleIndex p = ModuleIndex cur -> (partsFuel (cur :: rest) <= S fuel)%nat -> exists r, literalChild rec c cur (p :: rest) = Some r /\ childSpec r c cur rest.
Proof.
  intros Hrec Hw Hok Htc Htcur Hpo Hpmi Hf. pose proof Hpo as (_ & Hcok & Hmi & Hp). pose proof (proj1 Hok Htc) as Hlc. pose proof (proj1 Hcok Htcur) as Hlcur.
  unfold literalChild. destruct (Literal c) as [|x lc] eqn:Hc; [done|]. destruct (Literal cur) as [|y lcur] eqn:Hcur; [done|].
  destruct (Z.eqb_spec x y) as [->|]; [|by exists None]. cbn [commonPrefix]. rewrite Z.eqb_refl.
  destruct (commonPrefix_spec lc lcur) as (l' & l1 & l2 & -> & -> & ->). change (S (length l')) with (length (y :: l')).
  change (y :: l' ++ l1) with ((y :: l') ++ l1) in *. change (y :: l' ++ l2) with ((y :: l') ++ l2) in *. set (l := y :: l') in *.
  assert (l <> []) as Hl by done. assert (0 < length l)%nat as Hlpos by (unfold l; cbn [length]; lia). clearbody l. rewrite !full_prefix, !drop_app_length, take_app_length.
  assert (forall s i, semChild c s i <-> exists s', s = l ++ s' /\ semChild (Node LITERAL l1 0 0 (Children c) (ModuleIndex c)) s' i) as Hold by (intros; by apply semChild_split).
  assert (forall s i, partsSem (cur :: rest) s i <-> exists s', s = l ++ s' /\ partsSem (Node LITERAL l2 0 0 [] (ModuleIndex cur) :: rest) s' i) as Hnew by (intros; by apply partsSem_split).
  set (old := Node LITERAL l1 0 0 (Children c) (ModuleIndex c)) in *.
  assert (l1 <> [] -> nodeOk old /\ wf old) as Hold_ok by (intros Hl1; split; [by split|by apply (wf_ext c)]).
  case_bool_decide as E1; cbn [andb]; [subst l1|].
  - rewrite app_nil_r in Hc. case_bool_decide as E2; [subst l2|].
    + rewrite app_nil_r in Hcur. assert (forall a, consumes cur a <-> consumes c a) as Hcons by (intros a; unfold consumes; by rewrite Htc, Htcur, Hc, Hcur).
      destruct rest as [|q rest].
      * eexists. split; [done|]. split; [exact Hok|]. split; [by apply (wf_ext c)|]. intros s i. apply semChild_same; [done|done|]. intros s' j.
        rewrite sem_moreIndices, Hpmi. cbn [partsSem]. tauto.
      * destruct (sameChild_spec rec fuel c cur p (q :: rest) Hrec Hw Hok Hcons Hpo Hpmi Hf) as (r & Hr & Hspec). exists r. split; [exact Hr|done].
    + assert (partsOk (Node LITERAL l2 0 0 [] (ModuleIndex cur) :: rest)) as Ho by (split; [done|]; by split; [split|]).
      destruct (Hrec c (p :: rest) (Some (Node LITERAL l2 0 0 [] (ModuleIndex cur))) Hw Ho) as (c' & -> & Hs & Hw' & Hsem).
      { intros o [= <-]. by exists p, rest. }
      { unfold partsFuel in *. cbn [eff fmap list_fmap sum_list sum_list_with id Literal] in *. rewrite Hcur, length_app in Hf. lia. }
      eexists. split; [done|]. split; [by apply (same_ok _ _ Hs)|]. split; [done|]. intros s i. destruct Hs as (Ht & Hlit & _).
      rewrite Hnew, (semChild_literal c' l), (semChild_literal c l) by congruence. setoid_rewrite Hsem. cbn [eff]. naive_solver.
  - destruct (Hold_ok E1) as [Hook Howf]. case_bool_decide as E2; [subst l2; rewrite app_nil_r in *|].
    + destruct rest as [|q rest].
      * eexists. split; [done|]. split; [by split|]. split; [constructor; intros z ->%list_elem_of_singleton; done|]. intros s i. eapply split_sem; [done|done|].
        intros s' j. cbn [partsSem]. unfold consumes. cbn [Type_ Literal ModuleIndex]. setoid_rewrite list_elem_of_singleton. split.
        -- intros [H|(z & -> & H)]; [right; by exists [], s'; split; [|split; [|left]]|by left].
        -- intros [H|(a & s1 & -> & -> & [H|[]])]; [right; by exists old|by left].
      * destruct (new_part rec fuel q cur rest Hrec Hp) as (q' & Hq & Hqok & Hqwf & Hqsem).
        { unfold partsFuel in *. cbn [fmap list_fmap sum_list sum_list_with id] in *. lia. }
        rewrite Hq. eexists. split; [done|]. split; [by split|]. split; [constructor; intros z [->| ->%list_elem_of_singleton]%elem_of_cons; done|]. intros s i.
        eapply split_sem; [done|done|]. intros s' j. rewrite partsSem_nilLiteral by (by apply Hmi). rewrite <- Hqsem. apply two_children.
    + assert (partsOk (Node LITERAL l2 0 0 [] (ModuleIndex cur) :: rest)) as Ho by (split; [done|]; by split; [split|]).
      destruct (new_part rec fuel _ cur rest Hrec Ho Hf) as (q' & Hq & Hqok & Hqwf & Hqsem). cbn [tail]. rewrite Hq.
      eexists. split; [done|]. split; [by split|]. split; [constructor; intros z [->| ->%list_elem_of_singleton]%elem_of_cons; done|]. intros s i.
      eapply split_sem; [done|done|]. intros s' j. rewrite <- Hqsem. apply two_children.
Qed.

Lemma tryChild_spec rec fuel c cur p rest : recSpec rec fuel -> wf c -> nodeOk c -> partsOk (cur :: rest) -> ModuleIndex p = ModuleIndex cur ->
  (partsFuel (cur :: rest) <= S fuel)%nat -> exists r, tryChild rec c cur (p :: rest) = Some r /\ childSpec r c cur rest.
Proof.
  intros Hrec Hw Hok Hp Hmi Hf. unfold tryChild. destruct (decide (Type_ c = Type_ cur)) as [Ht|]; [|rewrite bool_decide_false by done; by exists None].
  rewrite bool_decide_true by done. cbn [negb]. destruct (Type_ c) eqn:Htc.
  - by apply (literalChild_spec rec fuel).
  - apply (sameChild_spec rec fuel); try done. intros a. unfold consumes. by rewrite Htc, <- Ht.
  - apply (sameChild_spec rec fuel); try done. intros a. unfold consumes. by rewrite Htc, <- Ht.
  - destruct (Z.eqb_spec (StartByte c) (StartByte cur)) as [Hs|], (Z.eqb_spec (EndByte c) (EndByte cur)) as [He|]; try (by exists None). cbn [andb].
    apply (sameChild_spec rec fuel); try done. intros a. unfold consumes. by rewrite Htc, <- Ht, Hs, He.
  - by exists None.
Qed.

Lemma tryChildren_spec f pre cs cur rest : (forall c, c ∈ cs -> exists r, f c = Some r /\ childSpec r c cur rest) ->
  exists r, tryChildren f pre cs = Some r /\
    match r with
    | None => True
    | Some cs' => (forall c, c ∈ cs' -> c ∈ pre \/ c ∈ cs \/ (nodeOk c /\ wf c)) /\
        forall s i, (exists c, c ∈ cs' /\ semChild c s i) <-> (exists c, c ∈ pre ++ cs /\ semChild c s i) \/ partsSem (cur :: rest) s i
    end.
Proof.
  revert pre. induction cs as [|c cs IH]; intros pre Hf; cbn [tryChildren]; [by exists None|]. destruct (Hf c ltac:(left)) as (r & -> & Hspec). cbn [mbind option_bind].
  destruct r as [c'|].
  - eexists. split; [done|]. destruct Hspec as (Hok & Hw & Hsem). split.
    + intros x [Hx|[->|Hx]%elem_of_cons]%elem_of_app; [by left|by right; right|right; left; by right].
    + intros s i. setoid_rewrite elem_of_app. setoid_rewrite elem_of_cons. split.
      * intros (x & [Hx|[->|Hx]] & Hs); [left; exists x; auto| |left; exists x; auto]. apply Hsem in Hs as [Hs|Hs]; [left; exists c; auto|by right].
      * intros [(x & [Hx|[->|Hx]] & Hs)|Hs]; [exists x; auto| |exists x; auto|]; (exists c'; split; [by right; left|]); apply Hsem; [by left|by right].
  - destruct (IH (pre ++ [c]) ltac:(intros x Hx; apply Hf; by right)) as (r & -> & Hr). exists r. split; [done|]. destruct r as [cs'|]; [|done].
    destruct Hr as [H1 H2]. split.
    + intros x Hx. destruct (H1 x Hx) as [[H3|H3%list_elem_of_singleton]%elem_of_app|[H3|H3]]; [by left|right; left; rewrite H3; by left|right; left; by right|by right; right].
    + intros s i. rewrite H2. by rewrite <- app_assoc.
Qed.

Lemma addPatternRec_spec fuel : recSpec (addPatternRec fuel) fuel.
Proof.
  induction fuel as [|fuel IH]; intros n parts ov Hw Hp Hov Hf; [unfold partsFuel in Hf; lia|]. destruct parts as [|p rest].
  { exists n. destruct ov as [o|]; [by destruct (Hov o eq_refl) as (? & ? & ? & _)|]. cbn [eff partsSem addPatternRec]. repeat (split; [done|]). tauto. }
  cbn [addPatternRec]. set (cur := match ov with Some o => o | None => p end). assert (eff ov (p :: rest) = cur :: rest) as Heff by (by destruct ov). rewrite Heff in *.
  assert (ModuleIndex p = ModuleIndex cur) as Hmi.
  { destruct ov as [o|]; [|done]. destruct (Hov o eq_refl) as (p' & rest' & [= <- <-] & Hm & _). done. }
  inversion_clear Hw as [n0 Hc]. destruct (tryChildren_spec (fun c => tryChild (addPatternRec fuel) c cur (p :: rest)) [] (Children n) cur rest) as (r & -> & Hr).
  { intros c Hin. destruct (Hc c Hin). by apply (tryChild_spec _ fuel). }
  cbn [mbind option_bind]. destruct r as [cs|].
  - destruct Hr as [Hcs Hsem]. eexists. split; [done|]. split; [by repeat split|]. split.
    + constructor. intros c Hin. cbn [setChildren Children] in Hin. destruct (Hcs c Hin) as [[]%elem_of_nil|[H|H]]; [by apply Hc|done].
    + intros s i. rewrite !sem_inv. cbn [setChildren Children ModuleIndex]. rewrite Hsem. cbn [app]. tauto.
  - destruct (new_part (addPatternRec fuel) fuel cur cur rest IH Hp Hf) as (c' & -> & Hok & Hw' & Hsem). eexists. split; [done|]. split; [by repeat split|]. split.
    + constructor. intros c [Hin|Hin%list_elem_of_singleton]%elem_of_app; [by apply Hc|by rewrite Hin].
    + intros s i. rewrite !sem_inv. cbn [setChildren Children ModuleIndex]. setoid_rewrite elem_of_app. setoid_rewrite list_elem_of_singleton. rewrite <- Hsem. naive_solver.
Qed.

End KmodTree.
