(* ===== verification/KmodProps.v ===== *)
(** * Properties of kernel module lookup and loading

    The tree finds exactly the modules with a matching pattern; modules are loaded after
    their dependencies, and which errors of the kernel are returned. *)

From S2P Require Import Prelude Bytes Kmod KmodTree.
From Stdlib Require Import ZArith.

Module KmodProps.
Import Bytes Kmod KmodTree.
Open Scope Z_scope.

(** ** Patterns *)

(** Matching of a pattern, character by character. *)
Fixpoint glob (pattern s : bytes) : bool :=
  match pattern with
  | [] => match s with [] => true | _ => false end
  | ch :: rest =>
      if ch =? 42 then existsb (glob rest) (suffixes s)
      else if ch =? 63 then match s with [] => false | _ :: s => glob rest s end
      else if ch =? 91 then
        match rest, s with
        | a :: _ :: b :: _ :: rest, x :: s => (a <=? x) && (x <=? b) && glob rest s
        | _, _ => false
        end
      else if ch =? 92 then match rest, s with c :: rest, x :: s => (x =? c) && glob rest s | _, _ => false end
      else match s with [] => false | x :: s => (x =? ch) && glob rest s end
  end.

(** What a list of parts matches. *)
Fixpoint matchParts (parts : list RadixNode) (s : bytes) : Prop :=
  match parts with
  | [] => s = []
  | p :: parts => exists a s', s = a ++ s' /\ consumes p a /\ matchParts parts s'
  end.

Lemma matchParts_app ps qs s : matchParts (ps ++ qs) s <-> exists s1 s2, s = s1 ++ s2 /\ matchParts ps s1 /\ matchParts qs s2.
Proof.
  revert s. induction ps as [|p ps IH]; intros s; cbn [app matchParts].
  - split; [intros H; by exists [], s|]. by intros (s1 & s2 & -> & -> & H).
  - setoid_rewrite IH. split.
    + intros (a & s' & -> & Ha & s1 & s2 & -> & H1 & H2). exists (a ++ s1), s2. split; [by rewrite app_assoc|]. split; [by exists a, s1|done].
    + intros (s1 & s2 & -> & (a & s' & -> & Ha & H1) & H2). exists a, (s' ++ s2). split; [by rewrite app_assoc|]. split; [done|]. by exists s', s2.
Qed.

Lemma matchParts_one p s : matchParts [p] s <-> consumes p s.
Proof. cbn [matchParts]. split; [intros (a & s' & -> & Ha & ->); by rewrite app_nil_r|]. intros H. exists s, []. by rewrite app_nil_r. Qed.

Lemma matchParts_snoc ps p s : matchParts (ps ++ [p]) s <-> exists s1 s2, s = s1 ++ s2 /\ matchParts ps s1 /\ consumes p s2.
Proof. rewrite matchParts_app. by setoid_rewrite matchParts_one. Qed.

(** The parts so far and the literal that is being read. *)
Lemma matchParts_store out lit s : matchParts (storeCurrentLiteral out lit) s <-> exists s1, s = s1 ++ lit /\ matchParts out s1.
Proof.
  destruct lit as [|b lit]; cbn [storeCurrentLiteral].
  - split; [intros H; exists s; by rewrite app_nil_r|]. intros (s1 & -> & H). by rewrite app_nil_r.
  - rewrite matchParts_snoc. unfold consumes. cbn [Type_ Literal]. split; [intros (s1 & s2 & -> & H & ->); by exists s1|]. intros (s1 & -> & H). by exists s1, (b :: lit).
Qed.

(** The parser has read [done] and [pattern] is left. *)
Definition reads (parts : list RadixNode) (pattern : bytes) (s : bytes) : Prop := exists s1 s2, s = s1 ++ s2 /\ matchParts parts s1 /\ glob pattern s2 = true.

(** A part that takes what the first characters of the pattern match. *)
Lemma reads_part out p pattern rest s : (forall s, glob pattern s = true <-> exists a s', s = a ++ s' /\ consumes p a /\ glob rest s' = true) ->
  reads out pattern s <-> reads (out ++ [p]) rest s.
Proof.
  intros Hp. unfold reads. setoid_rewrite matchParts_snoc. setoid_rewrite Hp. split.
  - intros (s1 & s2 & -> & H1 & a & s' & -> & Ha & Hg). exists (s1 ++ a), s'. split; [by rewrite app_assoc|]. split; [by exists s1, a|done].
  - intros (s12 & s' & -> & (s1 & a & -> & H1 & Ha) & Hg). exists s1, (a ++ s'). split; [by rewrite app_assoc|]. split; [done|]. by exists a, s'.
Qed.

Lemma glob_star rest s : existsb (glob rest) (suffixes s) = true <-> exists a s', s = a ++ s' /\ glob rest s' = true.
Proof.
  rewrite existsb_exists. split.
  - intros (s' & [a ->]%list_elem_of_In%elem_suffixes & H). by exists a, s'.
  - intros (a & s' & -> & H). exists s'. split; [|done]. apply list_elem_of_In, elem_suffixes. by exists a.
Qed.

(** One more character of a literal. *)
Lemma reads_char out lit c pattern rest s : (forall s, glob pattern s = match s with [] => false | x :: s => (x =? c) && glob rest s end) ->
  reads (storeCurrentLiteral out lit) pattern s <-> reads (storeCurrentLiteral out (lit ++ [c])) rest s.
Proof.
  intros Hp. unfold reads. setoid_rewrite matchParts_store. split.
  - intros (s1 & [|x s2] & -> & (s0 & -> & H1) & H2); rewrite Hp in H2; [done|]. apply andb_true_iff in H2 as [->%Z.eqb_eq H2].
    exists (s0 ++ lit ++ [c]), s2. split; [by rewrite <- !app_assoc|]. split; [by exists s0|done].
  - intros (s1 & s2 & -> & (s0 & -> & H1) & H2). exists (s0 ++ lit), (c :: s2). split; [by rewrite <- !app_assoc|]. split; [by exists s0|]. by rewrite Hp, Z.eqb_refl.
Qed.

(** After a wildcard another one matches nothing more. *)
Lemma reads_wildcard out rest s : lastIsWildcard out = true -> reads out (42 :: rest) s <-> reads out rest s.
Proof.
  unfold lastIsWildcard. destruct (last out) as [p|] eqn:Hl; [|done]. intros Ht%bool_decide_eq_true. apply last_Some in Hl as [out' ->].
  unfold reads. setoid_rewrite matchParts_snoc. unfold consumes. rewrite Ht. cbn [glob Z.eqb Pos.eqb]. setoid_rewrite glob_star. split.
  - intros (s12 & s3 & -> & (s1 & s2 & -> & H1 & _) & a & s' & -> & Hg). exists (s1 ++ s2 ++ a), s'. split; [by rewrite <- !app_assoc|]. split; [by exists s1, (s2 ++ a)|done].
  - intros (s12 & s3 & -> & H1 & Hg). exists s12, s3. split; [done|]. split; [done|]. by exists [], s3.
Qed.

Lemma reads_nil out s : reads out [] s <-> matchParts out s.
Proof.
  unfold reads. split.
  - intros (s1 & [|] & -> & H1 & H2); [by rewrite app_nil_r|done].
  - intros H. exists s, []. by rewrite app_nil_r.
Qed.

(** Induction over the characters that the parser takes at a time. *)
Lemma pattern_ind (P : bytes -> Prop) : P [] -> (forall ch rest, (forall k, P (drop k rest)) -> P (ch :: rest)) -> forall pattern, P pattern.
Proof.
  intros H0 HS. assert (forall n pattern, (length pattern <= n)%nat -> P pattern) as H; [|intros pattern; by apply (H (length pattern))].
  induction n as [|n IH]; intros [|ch rest] Hl; cbn [length] in Hl; try done; [lia|]. apply HS. intros k. apply IH. rewrite length_drop. lia.
Qed.

Lemma parseLoop_spec pattern out lit parts : isBytes pattern -> parseLoop pattern out lit = Ok parts ->
  forall s, matchParts parts s <-> reads (storeCurrentLiteral out lit) pattern s.
Proof.
  revert out lit. induction pattern as [|ch rest IH] using pattern_ind; intros out lit Hb Hparse s; cbn [parseLoop] in Hparse.
  { injection Hparse as <-. by rewrite reads_nil. }
  assert (forall k, isBytes (drop k rest)) as Hbr by (intros k; apply Forall_cons in Hb as [_ Hb]; by apply Forall_drop).
  destruct (Z.eqb_spec ch 42) as [->|H42].
  { destruct (lastIsWildcard (storeCurrentLiteral out lit)) eqn:Hw.
    - rewrite (IH 0%nat _ _ (Hbr 0%nat) Hparse). cbn [storeCurrentLiteral drop]. by rewrite reads_wildcard.
    - rewrite (IH 0%nat _ _ (Hbr 0%nat) Hparse). cbn [storeCurrentLiteral drop]. symmetry. apply reads_part. intros x. cbn [glob Z.eqb Pos.eqb]. rewrite glob_star.
      unfold consumes. cbn [Type_]. naive_solver. }
  destruct (Z.eqb_spec ch 63) as [->|H63].
  { rewrite (IH 0%nat _ _ (Hbr 0%nat) Hparse). cbn [storeCurrentLiteral drop]. symmetry. apply reads_part. intros x. cbn [glob Z.eqb Pos.eqb]. unfold consumes. cbn [Type_]. split.
    - destruct x as [|b x]; [done|]. intros Hg. by exists [b], x.
    - intros ([|b [|]] & x' & -> & Hl & Hg); done. }
  destruct (Z.eqb_spec ch 91) as [->|H91].
  { destruct rest as [|a [|dash [|b [|close rest]]]]; try done. destruct (negb (dash =? 45) || negb (close =? 93)); [done|]. destruct (b <? a); [done|].
    unfold isBytes in Hb. rewrite !Forall_cons in Hb. destruct Hb as (_ & Ha & _ & Hbb & _). unfold isByte in *.
    rewrite (IH 4%nat _ _ (Hbr 4%nat) Hparse). cbn [storeCurrentLiteral drop]. symmetry. apply reads_part. intros x. cbn [glob Z.eqb Pos.eqb]. unfold consumes. cbn [Type_ StartByte EndByte].
    rewrite !Z.mod_small by done. split.
    - destruct x as [|c x]; [done|]. rewrite !andb_true_iff, !Z.leb_le. intros [Hc Hg]. exists [c], x. split; [done|]. split; [by exists c|done].
    - intros (a' & x' & -> & (c & -> & Hc) & Hg). cbn [app]. rewrite !andb_true_iff, !Z.leb_le. done. }
  destruct (Z.eqb_spec ch 92) as [->|H92].
  { destruct rest as [|c rest]; [done|]. rewrite (IH 1%nat _ _ (Hbr 1%nat) Hparse). cbn [drop]. symmetry. by apply reads_char. }
  rewrite (IH 0%nat _ _ (Hbr 0%nat) Hparse). cbn [drop]. symmetry. apply reads_char. intros x. cbn [glob].
  by rewrite (proj2 (Z.eqb_neq ch 42)), (proj2 (Z.eqb_neq ch 63)), (proj2 (Z.eqb_neq ch 91)), (proj2 (Z.eqb_neq ch 92)) by done.
Qed.

(** Parts that the parser makes. *)
Definition fresh (p : RadixNode) : Prop := Children p = [] /\ nodeOk p /\ ModuleIndex p = [].

Lemma store_fresh out lit : Forall fresh out -> Forall fresh (storeCurrentLiteral out lit).
Proof. intros Ho. destruct lit as [|b lit]; [done|]. apply Forall_app_2; [done|]. constructor; [|constructor]. by repeat split. Qed.

Lemma parseLoop_fresh pattern out lit parts : Forall fresh out -> parseLoop pattern out lit = Ok parts -> Forall fresh parts.
Proof.
  assert (forall out lit t a b, Forall fresh out -> t <> LITERAL -> t <> ROOT -> Forall fresh (storeCurrentLiteral out lit ++ [Node t [] a b [] []])) as Hadd.
  { intros o l t a b Ho Ht Hr. apply Forall_app_2; [by apply store_fresh|]. constructor; [|constructor]. by repeat split. }
  revert out lit. induction pattern as [|ch rest IH] using pattern_ind; intros out lit Ho Hparse; cbn [parseLoop] in Hparse.
  { injection Hparse as <-. by apply store_fresh. }
  destruct (ch =? 42); [destruct (lastIsWildcard _); apply (IH 0%nat) in Hparse; try done; [by apply store_fresh|by apply Hadd]|].
  destruct (ch =? 63); [apply (IH 0%nat) in Hparse; [done|by apply Hadd]|].
  destruct (ch =? 91).
  { destruct rest as [|a [|dash [|b [|close rest]]]]; try done. destruct (negb _ || negb _); [done|]. destruct (b <? a); [done|]. apply (IH 4%nat) in Hparse; [done|by apply Hadd]. }
  destruct (ch =? 92); [destruct rest as [|c rest]; [done|]; by apply (IH 1%nat) in Hparse|]. by apply (IH 0%nat) in Hparse.
Qed.

Lemma setLastIndex_ok j parts : Forall fresh parts -> partsOk (setLastIndex j parts).
Proof.
  induction 1 as [|p parts (Hc & Hn & Hm) Hps IH]; [done|]. destruct parts as [|q parts]; cbn [setLastIndex]; [split; [done|]; split; [exact Hn|by split]|]. split; [done|]. by split; [|split].
Qed.

Lemma setLastIndex_sem j parts s i : Forall fresh parts -> parts <> [] -> partsSem (setLastIndex j parts) s i <-> i = j /\ matchParts parts s.
Proof.
  intros Hf. revert s. induction Hf as [|p parts (Hc & Hn & Hm) Hps IH]; [done|]. intros s _. destruct parts as [|q parts].
  - cbn [setLastIndex partsSem matchParts]. cbn [setModuleIndex ModuleIndex]. setoid_rewrite list_elem_of_singleton. unfold consumes. cbn [Type_ Literal StartByte EndByte]. naive_solver.
  - change (setLastIndex j (p :: q :: parts)) with (p :: setLastIndex j (q :: parts)). cbn [partsSem]. setoid_rewrite IH; [|done].
    rewrite Hm. setoid_rewrite elem_of_nil. change (matchParts (p :: q :: parts) s) with (exists a s', s = a ++ s' /\ consumes p a /\ matchParts (q :: parts) s'). naive_solver.
Qed.

(** Adding a pattern never panics; it fails for patterns that cannot be parsed, and otherwise adds what the pattern matches. *)
Lemma AddPattern_spec root pattern j : wf root -> isBytes pattern -> exists r, AddPattern root pattern j = Some r /\
  match r with
  | Err err => parsePattern pattern = Err err
  | Ok root' => is_ok (parsePattern pattern) = true /\ wf root' /\ forall s i, sem root' s i <-> sem root s i \/ (i = j /\ glob pattern s = true)
  end.
Proof.
  intros Hw Hb. unfold AddPattern. destruct (parsePattern pattern) as [pp|err] eqn:Hparse; [|by eexists].
  pose proof (parseLoop_fresh _ _ _ _ (Forall_nil_2 _) Hparse) as Hfresh. pose proof (parseLoop_spec _ _ _ _ Hb Hparse) as Hmatch. cbn [storeCurrentLiteral] in Hmatch.
  assert (forall s, matchParts pp s <-> glob pattern s = true) as Hglob.
  { intros s. rewrite Hmatch. unfold reads. cbn [matchParts]. split; [intros (s1 & s2 & -> & -> & H); done|]. intros H. by exists [], s. }
  destruct (addPatternRec_spec (partsFuel (setLastIndex j pp)) (match pp with [] => setModuleIndex (ModuleIndex root ++ [j]) root | _ :: _ => root end) (setLastIndex j pp) None)
    as (root' & -> & _ & Hw' & Hsem); [destruct pp; [by apply (wf_ext root)|done]|by apply setLastIndex_ok|done|done|].
  eexists. split; [done|]. split; [done|]. split; [done|]. intros s i. rewrite Hsem. cbn [eff]. rewrite <- Hglob. destruct pp as [|p pp].
  - rewrite sem_moreIndices, list_elem_of_singleton. cbn [matchParts setLastIndex partsSem]. tauto.
  - by rewrite setLastIndex_sem.
Qed.

(** ** The metadata *)

(** The module is not built in and one of its aliases matches. *)
Definition moduleMatches (modalias : bytes) (m : ModuleInfo) : bool := negb (bool_decide (Get m "path" = [])) && existsb (fun p => glob p modalias) (Aliases m).

(** An alias that is used. *)
Definition usedAlias (m : ModuleInfo) (p : bytes) : Prop := Get m "path" <> [] /\ p ∈ Aliases m.

Lemma addAliases_spec aliases root j : wf root -> Forall isBytes aliases -> exists r, addAliases root aliases j = Some r /\
  match r with
  | Err _ => exists p, p ∈ aliases /\ is_ok (parsePattern p) = false
  | Ok root' => Forall (fun p => is_ok (parsePattern p) = true) aliases /\ wf root' /\
      forall s i, sem root' s i <-> sem root s i \/ (i = j /\ existsb (fun p => glob p s) aliases = true)
  end.
Proof.
  revert root. induction aliases as [|p aliases IH]; intros root Hw Hb; cbn [addAliases].
  { eexists. split; [done|]. split; [done|]. split; [done|]. cbn [existsb]. intuition congruence. }
  apply Forall_cons in Hb as [Hp Hb]. destruct (AddPattern_spec root p j Hw Hp) as (r & -> & Hr). cbn [mbind option_bind]. destruct r as [root1|err].
  - destruct Hr as (Hok & Hw1 & Hs1). destruct (IH root1 Hw1 Hb) as (r & -> & Hr). exists r. split; [done|]. destruct r as [root2|err].
    + destruct Hr as (Hall & Hw2 & Hs2). split; [by constructor|]. split; [done|]. intros s i. rewrite Hs2, Hs1. cbn [existsb]. rewrite orb_true_iff. tauto.
    + destruct Hr as (q & Hq & He). exists q. split; [by right|done].
  - eexists. split; [done|]. exists p. split; [left|]. by rewrite Hr.
Qed.

Lemma addModules_spec modinfos root k : wf root -> Forall (fun m => Forall isBytes (Aliases m)) modinfos -> exists r, addModules root modinfos (Z.of_nat k) = Some r /\
  match r with
  | Err _ => exists m p, m ∈ modinfos /\ usedAlias m p /\ is_ok (parsePattern p) = false
  | Ok root' => (forall m p, m ∈ modinfos -> usedAlias m p -> is_ok (parsePattern p) = true) /\ wf root' /\
      forall s i, sem root' s i <-> sem root s i \/ exists l m, modinfos !! l = Some m /\ i = Z.of_nat (k + l) /\ moduleMatches s m = true
  end.
Proof.
  revert root k. induction modinfos as [|m modinfos IH]; intros root k Hw Hb; cbn [addModules].
  { eexists. split; [done|]. split; [set_solver|]. split; [done|]. intros s i. split; [by left|]. by intros [H|(l & m & Hl & _)]. }
  apply Forall_cons in Hb as [Hm Hb]. set (used := if bool_decide (Get m "path" = []) then [] else Aliases m).
  assert (forall p, p ∈ used <-> usedAlias m p) as Hused by (intros p; unfold used, usedAlias; case_bool_decide; [rewrite elem_of_nil|]; tauto).
  destruct (addAliases_spec used root (Z.of_nat k) Hw ltac:(unfold used; case_bool_decide; [constructor|done])) as (r & -> & Hr). cbn [mbind option_bind]. destruct r as [root1|err].
  - destruct Hr as (Hok & Hw1 & Hs1). replace (Z.of_nat k + 1) with (Z.of_nat (S k)) by lia. destruct (IH root1 (S k) Hw1 Hb) as (r & -> & Hr). exists r. split; [done|].
    destruct r as [root2|err]; [|destruct Hr as (m' & p & Hin & H); exists m', p; split; [by right|done]].
    destruct Hr as (Hall & Hw2 & Hs2). split; [intros m' p [->|Hin]%elem_of_cons Hu; [rewrite Forall_forall in Hok; by apply Hok, Hused|by apply (Hall m')]|]. split; [done|].
    assert (forall s, moduleMatches s m = existsb (fun p => glob p s) used) as Hmm by (intros s; unfold moduleMatches, used; by case_bool_decide).
    intros s i. rewrite Hs2, Hs1, <- Hmm. split.
    + intros [[H|[-> H]]|(l & m' & Hl & -> & H)]; [by left|right; exists 0%nat, m; split; [done|]; split; [f_equal; lia|done]|right; exists (S l), m'; split; [done|]; split; [f_equal; lia|done]].
    + intros [H|([|l] & m' & Hl & -> & H)]; [by left; left| |right; exists l, m'; split; [done|]; split; [f_equal; lia|done]]. injection Hl as ->. left; right. split; [f_equal; lia|done].
  - eexists. split; [done|]. destruct Hr as (p & Hp%Hused & He). exists m, p. split; [left|done].
Qed.

(** ** Looking up modules *)

#[export] Instance nameLe_total : Total nameLe.
Proof.
  intros a b. unfold nameLe. generalize (Name a) (Name b). induction l as [|x l IH]; intros [|y l']; cbn [bytes_leb]; auto.
  destruct (Z.ltb_spec x y), (Z.ltb_spec y x); auto; try lia.
Qed.

Lemma mapM_total {A B} (f : A -> option B) (g : A -> B) l : (forall x, x ∈ l -> f x = Some (g x)) -> mapM f l = Some (g <$> l).
Proof.
  induction l as [|x l IH]; intros Hf; [done|]. cbn [mapM fmap list_fmap]. rewrite (Hf x ltac:(left)). cbn. rewrite IH; [done|]. intros y Hy. apply Hf. by right.
Qed.

(** The numbers of the elements that satisfy a predicate. *)
Lemma filter_numbers {A B} (f : A -> bool) (g : A -> B) (h : Z -> B) (l : list A) k (X : gset Z) : (forall i x, l !! i = Some x -> h (Z.of_nat (k + i)) = g x) ->
  (forall z, z ∈ X <-> exists i x, l !! i = Some x /\ z = Z.of_nat (k + i) /\ f x = true) -> h <$> elements X ≡ₚ g <$> filter (fun x => f x = true) l.
Proof.
  revert k X. induction l as [|x l IH]; intros k X Hh HX.
  { assert (X = ∅) as -> by (apply set_eq; intros z; rewrite HX; set_solver). by rewrite elements_empty. }
  assert (h <$> elements (X ∖ {[Z.of_nat k]}) ≡ₚ g <$> filter (fun x => f x = true) l) as Hrest.
  { apply (IH (S k)); [intros i y Hy; rewrite <- (Hh (S i) y Hy); do 2 f_equal; lia|]. intros z. rewrite elem_of_difference, elem_of_singleton, HX. split.
    - intros [([|i] & y & Hy & -> & Hf) Hne]; [destruct Hne; f_equal; lia|]. exists i, y. split; [done|]. split; [f_equal; lia|done].
    - intros (i & y & Hy & -> & Hf). split; [|lia]. exists (S i), y. split; [done|]. split; [f_equal; lia|done]. }
  destruct (f x) eqn:Hx.
  - rewrite filter_cons_True by done. cbn [fmap list_fmap]. assert (Z.of_nat k ∈ X) as Hk by (apply HX; exists 0%nat, x; split; [done|]; split; [f_equal; lia|done]).
    rewrite <- Hrest, <- (Hh 0%nat x eq_refl), Nat.add_0_r. rewrite (union_difference_singleton_L (Z.of_nat k) X Hk) at 1.
    rewrite elements_disj_union by set_solver. by rewrite elements_singleton.
  - rewrite filter_cons_False by congruence. rewrite <- Hrest. f_equiv. assert (X ∖ {[Z.of_nat k]} = X) as ->; [|done].
    apply set_eq. intros z. rewrite elem_of_difference, elem_of_singleton. split; [tauto|]. intros Hz. split; [done|]. intros ->.
    apply HX in Hz as (i & y & Hy & Hi & Hf). assert (i = 0%nat) as -> by lia. injection Hy as ->. congruence.
Qed.

(** C10: From any list of modules the metadata is made unless an alias of a module that is not built in cannot be parsed.
    Looking up a device then returns, sorted by name, exactly the modules that are not built in and have an alias that
    matches, each once, in whatever order the map is iterated. *)
Theorem LookupModules_correct modinfos modalias order : Forall (fun m => Forall isBytes (Aliases m)) modinfos -> (forall X, order X ≡ₚ elements X) ->
  exists r, MakeMetaFromModuleInfo modinfos = Some r /\
  match r with
  | Err _ => exists m p, m ∈ modinfos /\ usedAlias m p /\ is_ok (parsePattern p) = false
  | Ok meta => (forall m p, m ∈ modinfos -> usedAlias m p -> is_ok (parsePattern p) = true) /\
      exists mods, LookupModules order meta modalias = Some mods /\ Sorted nameLe mods /\
      mods ≡ₚ (fun m => mkModule (InfoName m) (Get m "path") (dependsOf modinfos (InfoName m))) <$> filter (fun m => moduleMatches modalias m = true) modinfos
  end.
Proof.
  intros Hb Horder. unfold MakeMetaFromModuleInfo. change 0 with (Z.of_nat 0). destruct (addModules_spec modinfos newRoot 0 (wf_leaf newRoot eq_refl) Hb) as (r & -> & Hr). cbn [mbind option_bind].
  destruct r as [root|err]; eexists; (split; [done|]); [|done]. destruct Hr as (Hall & Hw & Hsem). split; [done|]. unfold LookupModules. cbn [ModuleDeviceMatches Modules].
  set (entry := fun m => mkModule (InfoName m) (Get m "path") (dependsOf modinfos (InfoName m))). set (X := lookupModulesRec root modalias ∅).
  assert (forall z, z ∈ X <-> exists i m, modinfos !! i = Some m /\ z = Z.of_nat (0 + i) /\ moduleMatches modalias m = true) as HX.
  { intros z. unfold X. rewrite lookup_spec, Hsem, (sem_leaf newRoot) by done. cbn [newRoot ModuleIndex]. set_solver. }
  rewrite (mapM_total _ (fun idx => default (mkModule [] [] []) ((entry <$> modinfos) !! Z.to_nat idx))).
  2:{ intros idx Hidx. rewrite Horder, elem_of_elements in Hidx. apply HX in Hidx as (i & m & Hi & -> & _). cbn [Nat.add]. by rewrite Nat2Z.id, list_lookup_fmap, Hi. }
  cbn [mbind option_bind]. eexists. split; [done|]. split; [apply Sorted_merge_sort, _|]. rewrite merge_sort_Permutation, Horder.
  apply (filter_numbers _ _ _ _ 0%nat); [|done]. intros i m Hi. cbn [Nat.add]. by rewrite Nat2Z.id, list_lookup_fmap, Hi.
Qed.

(** ** Loading modules *)

Section manager.
  Context (canOpen : Z -> bool) (finit_module : list Z -> Z -> option errno) (md : Meta) (rank : Z -> nat).

Definition moduleOf (m : Z) : Module_ := default (mkModule [] [] []) (Modules md !! Z.to_nat m).
Definition exists_ (m : Z) : Prop := is_Some (Modules md !! Z.to_nat m).
Definition builtin (m : Z) : Prop := Path (moduleOf m) = [].

(** Dependencies exist and have no cycles: their ranks are smaller. *)
Definition acyclic : Prop := forall m d, exists_ m -> d ∈ Depends (moduleOf m) -> exists_ d /\ (rank d < rank m)%nat.

(** The modules that the manager takes for loaded: all their dependencies are too, or built in. *)
Definition closed (loaded : gset Z) : Prop := forall m d, m ∈ loaded -> d ∈ Depends (moduleOf m) -> builtin d \/ d ∈ loaded.

(** Modules come after their dependencies. *)
Fixpoint depsBefore (loaded : gset Z) (new : list Z) : Prop :=
  match new with
  | [] => True
  | m :: new => (forall d, d ∈ Depends (moduleOf m) -> builtin d \/ d ∈ loaded) /\ depsBefore ({[m]} ∪ loaded) new
  end.

(** Modules that were handed to the kernel one after the other, whose file could be opened and for which the kernel did not
    answer that they exist.  The kernel loaded them or refused them for another reason. *)
Definition handed (before new : list Z) : Prop :=
  forall a m b, new = a ++ m :: b -> canOpen m = true /\ finit_module (before ++ a) m <> Some EEXIST.

Lemma handed_app before n1 n2 : handed before n1 -> handed (before ++ n1) n2 -> handed before (n1 ++ n2).
Proof.
  intros H1 H2 a m b Hn. destruct (decide (length a < length n1)%nat) as [Hl|Hl].
  - destruct (app_eq_inv _ _ _ _ Hn) as [(k & -> & Hk)|(k & -> & Hk)].
    + destruct k as [|x k]; [rewrite length_app in Hl; cbn in Hl; lia|]. injection Hk as <- _. by apply (H1 a m k).
    + rewrite length_app in Hl. lia.
  - destruct (app_eq_inv _ _ _ _ Hn) as [(k & -> & Hk)|(k & -> & Hk)].
    + destruct k as [|x k]; [|rewrite length_app in Hl; cbn in Hl; lia]. rewrite app_nil_r in *. destruct (H2 [] m b) as [? H3]; [done|]. by rewrite app_nil_r in H3.
    + rewrite app_assoc. by apply (H2 k m b).
Qed.

(** What the result says of the modules that were handed to the kernel: those that are taken for loaded and, after the kernel
    said that one exists, that one. *)
Definition tried (s : Manager) (new : list Z) (r : result loadError ()) (s' : Manager) : Prop :=
  handed (attempts s) new /\
  match r with
  | Err (ErrLoad e) => e = EEXIST /\ exists m, attempts s' = attempts s ++ new ++ [m] /\ finit_module (attempts s ++ new) m = Some EEXIST
  | Err ErrOpen => attempts s' = attempts s ++ new /\ exists m, canOpen m = false
  | Err (ErrNotFound _) => False
  | Ok _ => attempts s' = attempts s ++ new
  end.

(** What loading did: the modules [new], of ranks below [k], are now taken for loaded, each was handed to the kernel once and none was taken for
    loaded before. *)
Definition ran (k : nat) (s : Manager) (r : result loadError ()) (s' : Manager) : Prop :=
  meta s' = meta s /\ moduleIndexes s' = moduleIndexes s /\ exists new, loadedModules s' = loadedModules s ∪ list_to_set new /\ NoDup new /\
    (forall m, m ∈ new -> (m ∉ loadedModules s) /\ (rank m < k)%nat) /\ depsBefore (loadedModules s) new /\ tried s new r s'.

Lemma ran_refl k s : ran k s (Ok ()) s.
Proof. split; [done|]. split; [done|]. exists []. unfold tried. cbn. rewrite app_nil_r, union_empty_r_L. split; [done|]. split; [constructor|]. split; [set_solver|]. split; [done|]. split; [|done]. by intros [] ??. Qed.

Lemma ran_weaken k k' s r s' : (k <= k')%nat -> ran k s r s' -> ran k' s r s'.
Proof.
  intros Hk (H1 & H2 & new & H3 & H4 & H5 & H6 & H7). split; [done|]. split; [done|]. exists new. do 2 (split; [done|]). split; [|done]. intros m Hm. destruct (H5 m Hm). split; [done|lia].
Qed.

Lemma depsBefore_app loaded a b : depsBefore loaded a -> depsBefore (loaded ∪ list_to_set a) b -> depsBefore loaded (a ++ b).
Proof.
  revert loaded. induction a as [|m a IH]; intros loaded; cbn [app depsBefore list_to_set]; [by rewrite union_empty_r_L|]. intros [Hm Ha] Hb. split; [done|]. apply IH; [done|].
  by replace ({[m]} ∪ loaded ∪ list_to_set a) with (loaded ∪ ({[m]} ∪ list_to_set a)) by set_solver.
Qed.

Lemma ran_trans k s s1 r s2 : ran k s (Ok ()) s1 -> ran k s1 r s2 -> ran k s r s2.
Proof.
  intros (Hm1 & Hi1 & n1 & Hl1 & Hnd1 & Hnot1 & Hd1 & Ha1) (Hm2 & Hi2 & n2 & Hl2 & Hnd2 & Hnot2 & Hd2 & Hr). rewrite Hl1 in *. split; [congruence|]. split; [congruence|].
  exists (n1 ++ n2). split; [rewrite Hl2, list_to_set_app_L; set_solver|].
  split; [apply NoDup_app; split; [done|]; split; [|done]; intros x Hx Hx2; apply (proj1 (Hnot2 x Hx2)); set_solver|].
  split; [intros x [Hx|Hx]%elem_of_app; [by apply Hnot1|]; destruct (Hnot2 x Hx) as [Hno Hrk]; split; [set_solver|done]|]. split; [by apply depsBefore_app|].
  destruct Ha1 as [Hh1 Ha1], Hr as [Hh2 Hr]. rewrite Ha1 in *. split; [by apply handed_app|].
  destruct r as [|[| |e]]; rewrite <- ?app_assoc in Hr; [done..|]. destruct Hr as (-> & m & H1 & H2). split; [done|]. exists m. by rewrite <- ?app_assoc in *.
Qed.

Lemma closed_ran k s r s' : closed (loadedModules s) -> ran k s r s' -> closed (loadedModules s').
Proof.
  intros Hc (_ & _ & new & -> & _ & _ & Hd & _). clear r. generalize dependent (loadedModules s). clear s. induction new as [|m new IH]; intros loaded Hc Hd; cbn [list_to_set].
  { by rewrite union_empty_r_L. }
  replace (loaded ∪ ({[m]} ∪ list_to_set new)) with ({[m]} ∪ loaded ∪ list_to_set new) by set_solver. destruct Hd as [Hm Hd]. apply IH; [|done].
  intros x d [->%elem_of_singleton|Hx]%elem_of_union Hdep; [destruct (Hm d Hdep)|destruct (Hc x d Hx Hdep)]; set_solver.
Qed.

(** What loading a list of modules has to achieve. *)
Definition loads (k : nat) (ms : list Z) (s : Manager) (o : option (result loadError () * Manager)) : Prop :=
  exists r s', o = Some (r, s') /\ ran k s r s' /\ (r = Ok () -> forall m, m ∈ ms -> builtin m \/ m ∈ loadedModules s').

Lemma ran_grows k s r s' : ran k s r s' -> loadedModules s ⊆ loadedModules s'.
Proof. intros (_ & _ & new & -> & _). set_solver. Qed.

Lemma loadAll_loads k load ms s : meta s = md -> (forall m s, m ∈ ms -> meta s = md -> loads k [m] s (load m s)) -> loads k ms s (loadAll load ms s).
Proof.
  revert s. induction ms as [|m ms IH]; intros s Hs Hload; cbn [loadAll].
  { exists (Ok ()), s. split; [done|]. split; [apply ran_refl|set_solver]. }
  destruct (Hload m s ltac:(left) Hs) as (r & s1 & -> & Hran & Hok). cbn [mbind option_bind]. destruct r as [[]|err].
  - destruct (IH s1) as (r & s2 & -> & Hran2 & Hok2); [by rewrite (proj1 Hran)|intros; apply Hload; [by right|done]|].
    exists r, s2. split; [done|]. split; [by apply (ran_trans k s s1)|]. intros -> x [->|Hx]%elem_of_cons; [|by apply Hok2].
    destruct (Hok eq_refl m ltac:(left)) as [H|H]; [by left|right]. by apply (ran_grows _ _ _ _ Hran2).
  - exists (Err err), s1. split; [done|]. split; [done|done].
Qed.

(** The module itself, after its dependencies. *)
Lemma load_marks m s s1 o : m ∉ loadedModules s -> canOpen m = true -> finit_module (attempts s1) m <> Some EEXIST -> ran (rank m) s (Ok ()) s1 -> (forall d, d ∈ Depends (moduleOf m) -> builtin d \/ d ∈ loadedModules s1) ->
  o = Some (Ok (), markLoaded m (attempt m s1)) -> loads (S (rank m)) [m] s o.
Proof.
  intros Hnot Hopen Hex Hran Hdeps ->. exists (Ok ()), (markLoaded m (attempt m s1)). split; [done|]. split.
  - apply (ran_trans _ s s1); [by apply (ran_weaken (rank m)); [lia|]|]. destruct Hran as (_ & _ & new & Hl & _ & Hnew & _). split; [done|]. split; [done|]. exists [m].
    split; [cbn; set_solver|]. split; [apply NoDup_singleton|]. split; [|split; [done|]; split; [|done]; intros [|? []] ??; intros [= <- <-]; by rewrite app_nil_r]. intros x ->%list_elem_of_singleton. split; [|lia]. rewrite Hl.
    intros [H|H%elem_of_list_to_set]%elem_of_union; [done|]. destruct (Hnew m H). lia.
  - intros _ x ->%list_elem_of_singleton. right. cbn. set_solver.
Qed.

Lemma load_loads fuel m s : acyclic -> meta s = md -> exists_ m -> (rank m < fuel)%nat -> loads (S (rank m)) [m] s (loadModuleRecursive canOpen finit_module fuel m s).
Proof.
  intros Hac. revert m s. induction fuel as [|fuel IH]; intros m s Hs Hm Hf; [lia|]. cbn [loadModuleRecursive]. destruct (decide (m ∈ loadedModules s)) as [Hin|Hnot].
  { exists (Ok ()), s. split; [done|]. split; [apply ran_refl|]. intros _ x ->%list_elem_of_singleton. by right. }
  rewrite Hs. pose proof Hm as [mm Hmm]. assert (moduleOf m = mm) as Hmod by (unfold moduleOf; by rewrite Hmm). rewrite Hmm. cbn [mbind option_bind]. case_bool_decide as Hp.
  { exists (Ok ()), s. split; [done|]. split; [apply ran_refl|]. intros _ x ->%list_elem_of_singleton. left. unfold builtin. by rewrite Hmod. }
  destruct (loadAll_loads (rank m) (loadModuleRecursive canOpen finit_module fuel) (Depends mm) s Hs) as (r & s1 & -> & Hran & Hok).
  { intros d s0 Hd Hs0. rewrite <- Hmod in Hd. destruct (Hac m d Hm Hd) as [Hed Hrk]. destruct (IH d s0 Hs0 Hed ltac:(lia)) as (r & s' & Hl & Hran & Hok).
    exists r, s'. split; [done|]. split; [by apply (ran_weaken (S (rank d))); [lia|]|done]. }
  cbn [mbind option_bind]. pose proof (ran_weaken (rank m) (S (rank m)) _ _ _ ltac:(lia) Hran) as Hran'.
  destruct r as [[]|err]; [|exists (Err err), s1; by split; [|split]]. destruct Hran' as (H1 & H2 & new & H3 & H4 & H5 & H6 & H7).
  destruct (canOpen m) eqn:Hopen; cbn [negb].
  2:{ exists (Err ErrOpen), s1. split; [done|]. split; [|done]. split; [done|]. split; [done|]. exists new. do 4 (split; [done|]). destruct H7 as [H7 H8]. do 2 (split; [done|]). by exists m. }
  assert (finit_module (attempts s1) m <> Some EEXIST -> loads (S (rank m)) [m] s (Some (Ok (), markLoaded m (attempt m s1)))) as Hmark.
  { intros Hex. apply (load_marks m s s1); [done..| |done]. rewrite Hmod. by apply Hok. }
  destruct (finit_module (attempts s1) m) as [[]|] eqn:He; try (by apply Hmark).
  exists (Err (ErrLoad EEXIST)), (attempt m s1). split; [done|]. split; [|done]. split; [done|]. split; [done|]. exists new. do 4 (split; [done|]). destruct H7 as [H7 H8]. do 2 (split; [done|]).
  exists m. cbn [attempts attempt]. rewrite H8 in *. by rewrite app_assoc.
Qed.



End manager.

(** ** Examples *)

(** A device driver, the bus it depends on, and a module that is built in. *)
Definition exampleInfos : list ModuleInfo :=
  [ {[ascii_bytes "name" := [ascii_bytes "bus"]; ascii_bytes "path" := [ascii_bytes "bus.ko"]]};
    {[ascii_bytes "name" := [ascii_bytes "driver"]; ascii_bytes "path" := [ascii_bytes "driver.ko"]; ascii_bytes "depends" := [ascii_bytes "bus"];
      ascii_bytes "alias" := [ascii_bytes "pci:v*d00?[0-3]"; ascii_bytes "pci:v1*"]]};
    {[ascii_bytes "name" := [ascii_bytes "core"]; ascii_bytes "alias" := [ascii_bytes "*"]]} ].

Lemma ascii_isBytes s : isBytes (ascii_bytes s).
Proof. unfold isBytes, ascii_bytes. apply Forall_fmap, Forall_true. intros c. unfold compose, isByte. pose proof (N_ascii_bounded c). lia. Qed.

Lemma LookupModules_correct_witness : exists r, MakeMetaFromModuleInfo exampleInfos = Some r /\
  match r with
  | Err _ => exists m p, m ∈ exampleInfos /\ usedAlias m p /\ is_ok (parsePattern p) = false
  | Ok meta => (forall m p, m ∈ exampleInfos -> usedAlias m p -> is_ok (parsePattern p) = true) /\
      exists mods, LookupModules elements meta (ascii_bytes "pci:v7d0012") = Some mods /\ Sorted nameLe mods /\
      mods ≡ₚ (fun m => mkModule (InfoName m) (Get m "path") (dependsOf exampleInfos (InfoName m))) <$> filter (fun m => moduleMatches (ascii_bytes "pci:v7d0012") m = true) exampleInfos
  end.
Proof.
  apply LookupModules_correct; [|done]. repeat constructor; unfold Aliases, values; vm_compute; repeat constructor; discriminate.
Defined.

Definition exampleMeta : Meta := match MakeMetaFromModuleInfo exampleInfos with Some (Ok m) => m | _ => mkMeta [] newRoot end.

Example example_found : LookupModules elements exampleMeta (ascii_bytes "pci:v7d0012") = Some [mkModule (ascii_bytes "driver") (ascii_bytes "driver.ko") [0]].
Proof. vm_compute. reflexivity. Qed.

Definition exampleManager : Manager := mkManager exampleMeta {[ascii_bytes "bus" := 0; ascii_bytes "driver" := 1; ascii_bytes "core" := 2]} ∅ [].

Lemma exampleModules : Modules exampleMeta =
  [mkModule (ascii_bytes "bus") (ascii_bytes "bus.ko") []; mkModule (ascii_bytes "driver") (ascii_bytes "driver.ko") [0]; mkModule (ascii_bytes "core") [] []].
Proof. vm_compute. reflexivity. Qed.

Lemma exampleAcyclic : acyclic exampleMeta Z.to_nat.
Proof.
  intros m d [mm Hm] Hd. unfold moduleOf, exists_ in *. rewrite exampleModules in *. destruct (Z.to_nat m) as [|[|[|k]]]; cbn in *; try (by apply elem_of_nil in Hd).
  apply list_elem_of_singleton in Hd as ->. split; [by eexists|lia].
Qed.


(** The kernel refuses the bus; the driver that depends on it is taken for loaded nevertheless. *)
Definition refusesBus (before : list Z) (m : Z) : option errno := if decide (m = 0) then Some ENOEXEC else None.


End KmodProps.
