(* ===== verification/Eventlog.v ===== *)
(** * TPM event logs

    Models [osbase/tpm/eventlog/eventlog.go] and [compat.go]: the parser of TCG event logs in both
    formats, and the replay of a log against the values of PCRs, with the workarounds for events that
    firmware does not log.

    A panic is [None].  Hashes of [crypto] are numbers, as in Go; only SHA-1 and SHA-256 are
    ever made, and all others are unavailable.  Loops over counts of the input have fuel, which
    the length of the input bounds. *)

From S2P Require Import Prelude Bytes Sha256.
From Stdlib Require Import ZArith.

Module Eventlog.
Import Bytes Sha256 Sha1.
Open Scope Z_scope.

(** ** Hashes *)

(** [crypto.SHA1] and [crypto.SHA256]; 0 is none. *)
Definition SHA1 : Z := 3.
Definition SHA256 : Z := 5.

(** [h.New()] followed by one [Write] and [Sum], and [h.Size()]. *)
Definition newHash (h : Z) : option (bytes -> bytes) :=
  if h =? SHA1 then Some Sum1 else if h =? SHA256 then Some Sum256 else None.
Definition hashSize (h : Z) : nat := if h =? SHA1 then 20 else 32.

(** [HashAlg], an 8-bit number. *)
Definition HashSHA1 : Z := 4.
Definition HashSHA256 : Z := 11.
Definition toHashAlg (id : Z) : Z := id mod 256.

Definition cryptoHash (a : Z) : Z := if a =? HashSHA1 then SHA1 else if a =? HashSHA256 then SHA256 else 0.

(** ** Data *)

Record digest := mkDigest { hash : Z; digestData : bytes }.
Record rawEvent := mkRaw { sequence : Z; index : Z; typ : Z; data : bytes; digests : list digest }.

Record Event := mkEvent { eventSequence : Z; Index : Z; Type_ : Z; Data : bytes; Digest : bytes }.

Record PCR := mkPCR { pcrIndex : Z; pcrDigest : bytes; DigestAlg : Z }.

Record EventLog := mkLog { Algs : list Z; rawEvents : list rawEvent }.

Record ReplayError := mkReplayError { Events : list Event; invalidPCRs : list Z }.

Definition affected (e : ReplayError) (pcr : Z) : bool := existsb (fun p => p =? pcr) (invalidPCRs e).

Inductive digestError := ErrNoDigest | ErrHashLength | ErrDigestMismatch.

(** [digestEquals]: [None] if the digest is the one of the bytes. *)
Definition digestEquals (e : Event) (b : bytes) : option digestError :=
  if (length (Digest e) =? 0)%nat then Some ErrNoDigest
  else if (length (Digest e) =? 32)%nat then (if bool_decide (Sum256 b = Digest e) then None else Some ErrDigestMismatch)
  else if (length (Digest e) =? 20)%nat then (if bool_decide (Sum1 b = Digest e) then None else Some ErrDigestMismatch)
  else Some ErrHashLength.

(** ** Workarounds *)

Fixpoint injectDigests (algs : list Z) (d : bytes) : option (list digest) :=
  match algs with
  | [] => Some []
  | alg :: algs =>
      h ← newHash (cryptoHash alg);
      ds ← injectDigests algs d;
      Some (mkDigest (cryptoHash alg) (h d) :: ds)
  end.

Definition inject (pcr : Z) (d : bytes) (e : EventLog) : option EventLog :=
  lastEvent ← last (rawEvents e);
  ds ← injectDigests (Algs e) d;
  Some (mkLog (Algs e) (rawEvents e ++ [mkRaw (sequence lastEvent + 1) pcr 0 d ds])).

Fixpoint injectAll (pcr : Z) (ds : list bytes) (e : EventLog) : option EventLog :=
  match ds with
  | [] => Some e
  | d :: ds => e ← inject pcr d e; injectAll pcr ds e
  end.

Definition ebsInvocation : bytes := ascii_bytes "Exit Boot Services Invocation".
Definition ebsSuccess : bytes := ascii_bytes "Exit Boot Services Returned with Success".
Definition ebsFailure : bytes := ascii_bytes "Exit Boot Services Returned with Failure".

(** [eventlogWorkarounds]: the affected PCR and the data of the events that are appended to it. *)
Definition eventlogWorkarounds : list (Z * list bytes) :=
  [(5, [ebsInvocation; ebsSuccess]);
   (5, [ebsInvocation; ebsFailure]);
   (5, [ebsInvocation; ebsFailure; ebsSuccess])].

(** ** Replay *)

(** [extend], with an error as [Err]: the new value and the digest of the event. *)
Fixpoint extendLoop (pcr : PCR) (replay : bytes) (ds : list digest) : option (result unit (bytes * bytes)) :=
  match ds with
  | [] => Some (Err tt)
  | d :: ds =>
      if negb (hash d =? DigestAlg pcr) then extendLoop pcr replay ds
      else if negb (length (digestData d) =? length (pcrDigest pcr))%nat then Some (Err tt)
      else
        h ← newHash (DigestAlg pcr);
        let start := match replay with [] => zeros (hashSize (DigestAlg pcr)) | _ => replay end in
        Some (Ok (h (start ++ digestData d), digestData d))
  end.
Definition extend (pcr : PCR) (replay : bytes) (e : rawEvent) : option (result unit (bytes * bytes)) := extendLoop pcr replay (digests e).

Fixpoint replayLoop (raws : list rawEvent) (pcr : PCR) (replay : bytes) (out : list Event) : option (list Event * bool) :=
  match raws with
  | [] =>
      if negb (length out =? 0)%nat && negb (bool_decide (replay = pcrDigest pcr)) then Some ([], false)
      else Some (out, true)
  | e :: raws =>
      if negb (index e =? pcrIndex pcr) then replayLoop raws pcr replay out
      else
        r ← extend pcr replay e;
        match r with
        | Err _ => Some ([], false)
        | Ok (value, dig) => replayLoop raws pcr value (out ++ [mkEvent (sequence e) (pcrIndex pcr) (typ e) (data e) dig])
        end
  end.
Definition replayPCR (raws : list rawEvent) (pcr : PCR) : option (list Event * bool) := replayLoop raws pcr [] [].

(** The entries of [allPCRReplays], the first one of an index first. *)
Fixpoint addReplay (i : Z) (r : list Event * bool) (m : list (Z * list (list Event * bool))) : list (Z * list (list Event * bool)) :=
  match m with
  | [] => [(i, [r])]
  | (j, rs) :: m => if j =? i then (j, rs ++ [r]) :: m else (j, rs) :: addReplay i r m
  end.
Fixpoint replayAll (raws : list rawEvent) (pcrs : list PCR) (m : list (Z * list (list Event * bool))) :
    option (list (Z * list (list Event * bool))) :=
  match pcrs with
  | [] => Some m
  | pcr :: pcrs => r ← replayPCR raws pcr; replayAll raws pcrs (addReplay (pcrIndex pcr) r m)
  end.

(** [pcrLoop]: the events of the first successful replay of each index, and the indices that have none. *)
Fixpoint pcrLoop (m : list (Z * list (list Event * bool))) : list Event * list Z :=
  match m with
  | [] => ([], [])
  | (i, rs) :: m =>
      let '(verified, invalid) := pcrLoop m in
      match find (fun r => r.2) rs with
      | Some r => (r.1 ++ verified, invalid)
      | None => (verified, i :: invalid)
      end
  end.

Section verify.
(** The order in which a map is visited, and [sort.Slice] by sequence, which need not be stable. *)
Context (order : list (Z * list (list Event * bool)) -> list (Z * list (list Event * bool))).
Context (sortSlice : list Event -> list Event).

Definition replayEvents (raws : list rawEvent) (pcrs : list PCR) : option (result ReplayError (list Event)) :=
  m ← replayAll raws pcrs [];
  let '(verified, invalid) := pcrLoop (order m) in
  Some (match invalid with
        | [] => Ok (sortSlice verified)
        | _ => Err (mkReplayError ((fun e => mkEvent (sequence e) (index e) (typ e) (data e) []) <$> raws) invalid)
        end).

Fixpoint tryWorkarounds (ws : list (Z * list bytes)) (e : EventLog) (pcrs : list PCR) (rErr : ReplayError) :
    option (result ReplayError (list Event)) :=
  match ws with
  | [] => Some (Err rErr)
  | (affectedPCR, ds) :: ws =>
      if negb (affected rErr affectedPCR) then tryWorkarounds ws e pcrs rErr
      else
        el ← injectAll affectedPCR ds e;
        r ← replayEvents (rawEvents el) pcrs;
        match r with
        | Ok evs => Some (Ok evs)
        | Err _ => tryWorkarounds ws e pcrs rErr
        end
  end.

Definition Verify (e : EventLog) (pcrs : list PCR) : option (result ReplayError (list Event)) :=
  r ← replayEvents (rawEvents e) pcrs;
  match r with
  | Ok evs => Some (Ok evs)
  | Err rErr => tryWorkarounds eventlogWorkarounds e pcrs rErr
  end.
End verify.

(** [ConvertRawPCRs]. *)
Definition ConvertRawPCRs (pcrs : list bytes) : list PCR := imap (fun i d => mkPCR (Z.of_nat i) d SHA256) pcrs.

(** ** Parsing *)

Inductive parseError :=
| EOF
| ErrUnexpectedEOF
| ErrEventSizeZero
| ErrEventSize (eventSize logSize : Z)
| ErrReadingDigest
| ErrUnknownAlgorithm (id : Z)
| ErrFirstEvent (e : parseError)
| ErrSpecID (what : string) (e : option parseError)
| ErrNoAlgs.

(** [io.ReadFull], and [binary.Read] of a number. *)
Definition readFull (n : nat) (r : bytes) : result parseError (bytes * bytes) :=
  if (length r <? n)%nat then Err (if (length r =? 0)%nat then EOF else ErrUnexpectedEOF) else Ok (take n r, drop n r).
Definition readLE (n : nat) (r : bytes) : result parseError (Z * bytes) :=
  '(b, r) ← readFull n r; Ok (unle b, r).

Record specAlgSize := mkAlg { ID : Z; Size : Z }.

Definition wantSignature : bytes := [83; 112; 101; 99; 32; 73; 68; 32; 69; 118; 101; 110; 116; 48; 51; 0].
Definition wantMajor : Z := 2.
Definition wantMinor : Z := 0.

(** [n] algorithms, with fuel that their bytes bound. *)
Fixpoint algLoop (fuel : nat) (n : Z) (r : bytes) : option (result parseError (list specAlgSize * bytes)) :=
  if n <=? 0 then Some (Ok ([], r))
  else match fuel with
  | O => None
  | S fuel =>
      match readFull 4 r with
      | Err e => Some (Err (ErrSpecID "reading algorithm: %v" (Some e)))
      | Ok (b, r) =>
          let alg := mkAlg (unle (take 2 b)) (unle (drop 2 b)) in
          x ← algLoop fuel (n - 1) r;
          Some ('(algs, r) ← x; Ok (alg :: algs, r))
      end
  end.

Definition parseSpecIDEvent (b : bytes) : option (result parseError (list specAlgSize)) :=
  match readFull 28 b with
  | Err e => Some (Err (ErrSpecID "reading event header: %v" (Some e)))
  | Ok (h, r) =>
      let '(signature, h) := getBytes 16 h in
      let '(_, h) := getLE 4 h in
      let '(versionMinor, h) := getLE 1 h in
      let '(versionMajor, h) := getLE 1 h in
      let '(_, h) := getBytes 2 h in
      let '(numAlgs, _) := getLE 4 h in
      if negb (bool_decide (signature = wantSignature)) then Some (Err (ErrSpecID "invalid spec id signature: %x" None))
      else if negb (versionMajor =? wantMajor) then Some (Err (ErrSpecID "invalid spec major version, got %02x, wanted %02x" None))
      else if negb (versionMinor =? wantMinor) then Some (Err (ErrSpecID "invalid spec minor version, got %02x, wanted %02x" None))
      else
        x ← algLoop (S (length r)) numAlgs r;
        Some (match x with
        | Err e => Err e
        | Ok (algs, r) =>
            match readLE 1 r with
            | Err e => Err (ErrSpecID "reading vender info size: %v" (Some e))
            | Ok (vendorInfoSize, r) =>
                guard! len r =? vendorInfoSize else ErrSpecID "reading vendor info, expected %d remaining bytes, got %d" None in
                Ok algs
            end
        end)
  end.

(** The size and the data of an event, at the end of both formats. *)
Definition readEventData (r : bytes) : result parseError (bytes * bytes) :=
  '(eventSize, r) ← readLE 4 r;
  guard! negb (eventSize =? 0) else ErrEventSizeZero in
  guard! negb (u32 (len r) <? eventSize) else ErrEventSize eventSize (len r) in
  readFull (Z.to_nat eventSize) r.

(** The header is read as a whole: a buffer that ends within it is an error of the header. *)
Definition parseRawEvent (r : bytes) : result parseError (rawEvent * bytes) :=
  '(h, _) ← readFull 32 r;
  let '(pcrIndex, h) := getLE 4 h in
  let '(t, h) := getLE 4 h in
  let '(d, _) := getBytes 20 h in
  '(dat, r) ← readEventData (drop 28 r);
  Ok (mkRaw 0 pcrIndex t dat [mkDigest SHA1 d], r).

(** The loop over the algorithms: the last one with this identifier gives the size and the hash. *)
Fixpoint matchAlgs (algs : list specAlgSize) (algID : Z) (r : bytes) (size h : Z) : result parseError (Z * Z) :=
  match algs with
  | [] => Ok (size, h)
  | alg :: algs =>
      if negb (ID alg =? algID) then matchAlgs algs algID r size h
      else if len r mod 2 ^ 16 <? Size alg then Err ErrReadingDigest
      else matchAlgs algs algID r (Size alg) (cryptoHash (toHashAlg (ID alg)))
  end.

Definition readDigest (algs : list specAlgSize) (r : bytes) : result parseError (digest * bytes) :=
  '(algID, r) ← readLE 2 r;
  '(size, h) ← matchAlgs algs algID r 0 0;
  guard! negb (size =? 0) else ErrUnknownAlgorithm algID in
  '(d, r) ← readFull (Z.to_nat size) r;
  Ok (mkDigest h d, r).

Fixpoint digestLoop (fuel : nat) (n : Z) (algs : list specAlgSize) (r : bytes) : option (result parseError (list digest * bytes)) :=
  if n <=? 0 then Some (Ok ([], r))
  else match fuel with
  | O => None
  | S fuel =>
      match readDigest algs r with
      | Err e => Some (Err e)
      | Ok (d, r) => x ← digestLoop fuel (n - 1) algs r; Some ('(ds, r) ← x; Ok (d :: ds, r))
      end
  end.

Definition parseRawEvent2 (algs : list specAlgSize) (r : bytes) : option (result parseError (rawEvent * bytes)) :=
  match
    '(h, r) ← readFull 8 r;
    '(numDigests, r) ← readLE 4 r;
    Ok (h, numDigests, r)
  with
  | Err e => Some (Err e)
  | Ok (h, numDigests, r) =>
      x ← digestLoop (S (length r)) numDigests algs r;
      Some ('(ds, r) ← x;
            '(dat, r) ← readEventData r;
            Ok (mkRaw 0 (unle (take 4 h)) (unle (drop 4 h)) dat ds, r))
  end.

Definition eventTypeNoAction : Z := 3.

(** The events after the first one. *)
Fixpoint eventLoop (fuel : nat) (parseFn : bytes -> option (result parseError (rawEvent * bytes))) (seq : Z) (r : bytes) :
    option (result parseError (list rawEvent)) :=
  match r with
  | [] => Some (Ok [])
  | _ =>
      match fuel with
      | O => None
      | S fuel =>
          x ← parseFn r;
          match x with
          | Err e => Some (Err e)
          | Ok (e, r) =>
              y ← eventLoop fuel parseFn (seq + 1) r;
              Some (es ← y; Ok (mkRaw seq (index e) (typ e) (data e) (digests e) :: es))
          end
      end
  end.

Definition logAlgs (algs : list specAlgSize) : list Z :=
  algs ≫= fun alg => if ID alg =? HashSHA1 then [HashSHA1] else if ID alg =? HashSHA256 then [HashSHA256] else [].

Definition ParseEventLog (measurementLog : bytes) : option (result parseError EventLog) :=
  match parseRawEvent measurementLog with
  | Err e => Some (Err (ErrFirstEvent e))
  | Ok (e, r) =>
      if typ e =? eventTypeNoAction then
        x ← parseSpecIDEvent (data e);
        match x with
        | Err er => Some (Err er)
        | Ok algs =>
            match logAlgs algs with
            | [] => Some (Err ErrNoAlgs)
            | las => y ← eventLoop (length r) (parseRawEvent2 algs) 1 r; Some (es ← y; Ok (mkLog las es))
            end
        end
      else
        y ← eventLoop (length r) (fun r => Some (parseRawEvent r)) 1 r;
        Some (es ← y; Ok (mkLog [HashSHA1] (e :: es)))
  end.

End Eventlog.
