(* ===== verification/EventlogProps.v ===== *)
(** * TPM event logs: verification

    What it means that a log was verified: for every PCR that was given, the digests of the log's
    events, hashed one after the other, give the value of a PCR of that index, or the log has
    no events for it.  So two logs with events that verify against the same PCR have the same digests, or their messages have a
    collision, or one is a preimage of zero.  Verification does not panic. *)

From S2P Require Import Prelude Bytes Sha256 Eventlog.
From Stdlib Require Import ZArith.

Module EventlogProps.
Import Bytes Sha256 Sha1 Eventlog.
Open Scope Z_scope.

(** ** Replaying digests *)

Section chain.
Context (h : bytes -> bytes) (size : nat) (h_size : forall x, length (h x) = size).

Definition replayFrom (v : bytes) (ds : list bytes) : bytes := foldl (fun v d => h (v ++ d)) v ds.
Definition replayValue (ds : list bytes) : bytes := replayFrom (zeros size) ds.

(** The messages that are hashed. *)
Fixpoint messagesFrom (v : bytes) (ds : list bytes) : list bytes :=
  match ds with
  | [] => []
  | d :: ds => (v ++ d) :: messagesFrom (h (v ++ d)) ds
  end.
Definition messages (ds : list bytes) : list bytes := messagesFrom (zeros size) ds.

Lemma replayFrom_snoc v ds d : replayFrom v (ds ++ [d]) = h (replayFrom v ds ++ d).
Proof. unfold replayFrom. by rewrite foldl_app. Qed.

Lemma messagesFrom_snoc v ds d : messagesFrom v (ds ++ [d]) = messagesFrom v ds ++ [replayFrom v ds ++ d].
Proof. revert v. induction ds as [|d' ds IH]; intros v; cbn; [done|]. by rewrite IH. Qed.

Lemma replayValue_length ds : length (replayValue ds) = size.
Proof using h_size.
  destruct ds as [|d ds _] using rev_ind; unfold replayValue; [apply length_replicate|]. by rewrite replayFrom_snoc.
Qed.

(** Something is wrong with the hash function: two of the messages collide, or one hashes to zero. *)
Definition broken (ds1 ds2 : list bytes) : Prop :=
  (exists x y, x ∈ messages ds1 /\ y ∈ messages ds2 /\ x <> y /\ h x = h y) \/
  (exists x, x ∈ messages ds1 ++ messages ds2 /\ h x = zeros size).

Lemma broken_snoc ds1 ds2 d1 d2 : broken ds1 ds2 -> broken (ds1 ++ [d1]) (ds2 ++ [d2]).
Proof.
  unfold broken, messages. rewrite !messagesFrom_snoc. intros [(x & y & Hx & Hy & H)|(x & Hx & H)].
  - left. exists x, y. rewrite !elem_of_app. auto.
  - right. exists x. rewrite !elem_of_app in *. naive_solver.
Qed.

Lemma replay_unique ds1 ds2 : replayValue ds1 = replayValue ds2 -> ds1 = ds2 \/ broken ds1 ds2.
Proof using h_size.
  revert ds2. induction ds1 as [|d1 ds1 IH] using rev_ind; intros ds2; destruct ds2 as [|d2 ds2 _] using rev_ind; [by left|..];
    unfold replayValue; rewrite ?replayFrom_snoc; intros E.
  - right. right. exists (replayValue ds2 ++ d2). split; [|done]. unfold messages. rewrite messagesFrom_snoc, !elem_of_app. right. right. by left.
  - right. right. exists (replayValue ds1 ++ d1). split; [|done]. unfold messages. rewrite messagesFrom_snoc, !elem_of_app. left. right. by left.
  - fold (replayValue ds1) (replayValue ds2) in E. destruct (decide (replayValue ds1 ++ d1 = replayValue ds2 ++ d2)) as [Em|Em].
    + apply app_inj_1 in Em as [Ev ->]; [|by rewrite !replayValue_length]. destruct (IH ds2 Ev) as [->|Hb]; [by left|].
      right. by apply broken_snoc.
    + right. left. exists (replayValue ds1 ++ d1), (replayValue ds2 ++ d2). unfold messages. rewrite !messagesFrom_snoc, !elem_of_app.
      split_and!; [right; by left|right; by left|done..].
Qed.

End chain.

Lemma newHash_size a h x : newHash a = Some h -> length (h x) = hashSize a.
Proof.
  unfold newHash, hashSize. destruct (a =? SHA1); [intros [= <-]; apply Sum1_length|].
  destruct (a =? SHA256); [intros [= <-]; apply Sum256_length|done].
Qed.

(** ** One PCR *)

(** The digest that [extend] uses. *)
Definition measure (p : PCR) (e : rawEvent) : option bytes :=
  d ← find (fun d => hash d =? DigestAlg p) (digests e);
  if (length (digestData d) =? length (pcrDigest p))%nat then Some (digestData d) else None.

Definition relevant (p : PCR) (raws : list rawEvent) : list rawEvent := filter (fun e => index e = pcrIndex p) raws.

Definition eventOf (p : PCR) (e : rawEvent) (d : bytes) : Event := mkEvent (sequence e) (pcrIndex p) (typ e) (data e) d.

(** Digests give the value of [p]. *)
Definition replaysTo (p : PCR) (ds : list bytes) : Prop :=
  exists h, newHash (DigestAlg p) = Some h /\ replayValue h (hashSize (DigestAlg p)) ds = pcrDigest p.

(** What the code accepts for [p]: its events have the digests [ds], and these give its value or there are no events for it, in which case the value of [p]
    is not looked at. *)
Definition accepts (raws : list rawEvent) (p : PCR) (ds : list bytes) : Prop :=
  mapM (measure p) (relevant p raws) = Some ds /\ (relevant p raws = [] \/ replaysTo p ds).

Definition available (p : PCR) : Prop := exists h, newHash (DigestAlg p) = Some h.

Definition startOf (p : PCR) (v : bytes) : bytes := match v with [] => zeros (hashSize (DigestAlg p)) | _ => v end.

Lemma extend_measure p h v e : newHash (DigestAlg p) = Some h ->
  extend p v e = Some (match measure p e with Some d => Ok (h (startOf p v ++ d), d) | None => Err tt end).
Proof.
  intros Hh. unfold extend, measure. induction (digests e) as [|d ds IH]; cbn; [done|].
  destruct (hash d =? DigestAlg p); cbn; [|apply IH]. destruct (length (digestData d) =? _)%nat; cbn; [|done]. by rewrite Hh.
Qed.

Lemma startOf_hash p h x : newHash (DigestAlg p) = Some h -> startOf p (h x) = h x.
Proof.
  intros Hh. pose proof (newHash_size _ _ x Hh) as Hl. unfold startOf. destruct (h x); [|done].
  unfold hashSize in Hl. destruct (_ =? _); done.
Qed.

Lemma replayLoop_spec p h raws v out : newHash (DigestAlg p) = Some h ->
  replayLoop raws p v out = Some (
    match mapM (measure p) (relevant p raws) with
    | None => ([], false)
    | Some ds =>
        let evs := out ++ zip_with (eventOf p) (relevant p raws) ds in
        if negb (length evs =? 0)%nat && negb (bool_decide (match ds with [] => v | _ => replayFrom h (startOf p v) ds end = pcrDigest p))
        then ([], false) else (evs, true)
    end).
Proof.
  intros Hh. revert v out. induction raws as [|e raws IH]; intros v out; cbn [replayLoop].
  { cbn. rewrite app_nil_r. by destruct (_ && _). }
  unfold relevant. rewrite filter_cons. destruct (Z.eqb_spec (index e) (pcrIndex p)) as [Ei|Ei]; cbn [negb].
  2:{ rewrite decide_False by done. apply IH. }
  rewrite decide_True by done. rewrite (extend_measure p h v e Hh). cbn. destruct (measure p e) as [d|]; cbn; [|done].
  rewrite IH. fold (relevant p raws). destruct (mapM (measure p) (relevant p raws)) as [ds|]; cbn; [|done].
  rewrite <- app_assoc. cbn. rewrite (startOf_hash _ _ _ Hh). by destruct ds.
Qed.

Lemma replayPCR_spec p raws : available p ->
  exists r, replayPCR raws p = Some r /\
    (r.2 = true -> exists ds, accepts raws p ds /\ r.1 = zip_with (eventOf p) (relevant p raws) ds) /\
    (r.2 = false -> r.1 = []) /\
    (forall ds, accepts raws p ds -> r.2 = true).
Proof.
  intros [h Hh]. unfold replayPCR. rewrite (replayLoop_spec p h _ _ _ Hh). eexists. split; [done|]. unfold accepts.
  destruct (mapM (measure p) (relevant p raws)) as [ds|] eqn:Em; cbn; [|split_and!; [done..|by intros ds []]].
  pose proof (length_mapM _ _ _ Em) as Hl. split_and!.
  - destruct (_ && _) eqn:Eb; [done|]. intros _. exists ds. split; [|done]. split; [done|]. destruct ds as [|d ds]; [left; by destruct (relevant p raws)|right].
    exists h. split; [done|]. apply andb_false_iff in Eb as [Eb|Eb].
    + apply negb_false_iff, Nat.eqb_eq in Eb. rewrite length_zip_with in Eb. cbn in Eb. rewrite Hl in Eb. cbn in Eb. lia.
    + by apply negb_false_iff, bool_decide_eq_true in Eb.
  - by destruct (_ && _).
  - intros ds' [[= ->] [->|(h' & Hh' & Hv)]]; [done|]. assert (h' = h) as -> by congruence.
    destruct ds' as [|d ds']; [by rewrite zip_with_nil_r|]. rewrite (bool_decide_true _ Hv). by rewrite andb_false_r.
Qed.

(** ** All PCRs *)

Abbreviation replayMap := (list (Z * list (list Event * bool))).

Lemma addReplay_keys i r (m : replayMap) : (addReplay i r m).*1 = if decide (i ∈ m.*1) then m.*1 else m.*1 ++ [i].
Proof.
  induction m as [|[j rs] m IH]; cbn [addReplay fmap list_fmap]; [done|].
  destruct (Z.eqb_spec j i) as [->|Hj]; cbn [fmap list_fmap fst]; [by rewrite decide_True by left|].
  change (fst <$> addReplay i r m) with (addReplay i r m).*1. rewrite IH.
  destruct (decide (i ∈ m.*1)); [rewrite decide_True by (by right)|rewrite decide_False by (by intros [?|?]%elem_of_cons)]; done.
Qed.

Lemma addReplay_elem i r (m : replayMap) j rs :
  NoDup m.*1 -> (j, rs) ∈ addReplay i r m <->
    j <> i /\ (j, rs) ∈ m \/ j = i /\ exists old, rs = old ++ [r] /\ ((i, old) ∈ m \/ old = [] /\ i ∉ m.*1).
Proof.
  induction m as [|[k ks] m IH]; cbn [addReplay fmap list_fmap fst].
  { intros _. rewrite list_elem_of_singleton. split.
    - intros [= -> ->]. right. split; [done|]. exists []. split; [done|]. right. split; [done|]. apply not_elem_of_nil.
    - intros [[_ ?%not_elem_of_nil]|(-> & old & -> & [?%not_elem_of_nil|[-> _]])]; done. }
  intros [Hk Hnd]%NoDup_cons. destruct (Z.eqb_spec k i) as [->|Hki].
  - rewrite !elem_of_cons. split.
    + intros [[= -> ->]|Hin]; [right; split; [done|]; exists ks; split; [done|]; left; by left|].
      left. split; [|by right]. intros ->. apply Hk. apply list_elem_of_fmap. by exists (i, rs).
    + intros [[Hj [[= -> _]|Hin]]|(-> & old & -> & [[[= ->]|Hin]%elem_of_cons|[_ Hn]])]; [done|by right|by left| |].
      * exfalso. apply Hk. apply list_elem_of_fmap. by exists (i, old).
      * exfalso. apply Hn. by left.
  - rewrite elem_of_cons, (IH Hnd). setoid_rewrite elem_of_cons. split.
    + intros [[= -> ->]|[[Hj Hin]|(-> & old & -> & [Hin|[-> Hn]])]].
      * left. split; [done|by left].
      * left. split; [done|by right].
      * right. split; [done|]. exists old. split; [done|]. left. by right.
      * right. split; [done|]. exists []. split; [done|]. right. split; [done|]. by intros [->|?].
    + intros [[Hj [[= -> ->]|Hin]]|(-> & old & -> & [[[= -> _]|Hin]|[-> Hn]])]; [by left| | | |].
      * right. left. done.
      * done.
      * right. right. split; [done|]. exists old. auto.
      * right. right. split; [done|]. exists []. split; [done|]. right. split; [done|]. intros ?. apply Hn. by right.
Qed.

(** The results in [m] are those of the PCRs, by index. *)
Record grouped (raws : list rawEvent) (pcrs : list PCR) (m : replayMap) : Prop := {
  grouped_nodup : NoDup m.*1;
  grouped_sound : forall i rs r, (i, rs) ∈ m -> r ∈ rs -> exists p, p ∈ pcrs /\ pcrIndex p = i /\ replayPCR raws p = Some r;
  grouped_complete : forall p, p ∈ pcrs -> exists rs r, (pcrIndex p, rs) ∈ m /\ r ∈ rs /\ replayPCR raws p = Some r;
  grouped_nonempty : forall i rs, (i, rs) ∈ m -> exists r, r ∈ rs
}.

Lemma grouped_add raws pcrs m p r :
  grouped raws pcrs m -> replayPCR raws p = Some r -> grouped raws (pcrs ++ [p]) (addReplay (pcrIndex p) r m).
Proof.
  intros [Hnd Hs Hc Hne] Hr. pose proof (fun j rs => addReplay_elem (pcrIndex p) r m j rs Hnd) as He. split.
  - rewrite addReplay_keys. case_decide; [done|]. apply NoDup_app. split_and!; [done| |apply NoDup_singleton].
    intros x Hx ->%list_elem_of_singleton. done.
  - intros i rs r' [[Hi Hin]|(-> & old & -> & Hold)]%He Hr'.
    + destruct (Hs _ _ _ Hin Hr') as (p' & Hp & ?). exists p'. rewrite elem_of_app. auto.
    + apply elem_of_app in Hr' as [Hr'| ->%list_elem_of_singleton]; [|exists p; rewrite elem_of_app, list_elem_of_singleton; auto].
      destruct Hold as [Hin|[-> _]]; [|by apply not_elem_of_nil in Hr']. destruct (Hs _ _ _ Hin Hr') as (p' & Hp & ?).
      exists p'. rewrite elem_of_app. auto.
  - intros p' [Hp| ->%list_elem_of_singleton]%elem_of_app.
    + destruct (Hc p' Hp) as (rs & r' & Hin & Hr' & E). destruct (decide (pcrIndex p' = pcrIndex p)) as [Ei|Ei].
      * exists (rs ++ [r]), r'. rewrite He, elem_of_app. split_and!; [|by left|done]. right. split; [done|]. exists rs. rewrite <- Ei. auto.
      * exists rs, r'. rewrite He. auto.
    + destruct (decide (pcrIndex p ∈ m.*1)) as [Hk|Hk].
      * apply list_elem_of_fmap in Hk as ([j rs] & Ej & Hin). cbn in Ej. subst j. exists (rs ++ [r]), r.
        rewrite He, elem_of_app, list_elem_of_singleton. split_and!; [|by right|done]. right. split; [done|]. exists rs. auto.
      * exists [r], r. rewrite He, list_elem_of_singleton. split_and!; [|done..]. right. split; [done|]. exists []. auto.
  - intros i rs [[Hi Hin]|(-> & old & -> & _)]%He; [by eapply Hne|]. exists r. rewrite elem_of_app, list_elem_of_singleton. auto.
Qed.

Lemma replayAll_grouped raws pcrs : Forall available pcrs -> exists m, replayAll raws pcrs [] = Some m /\ grouped raws pcrs m.
Proof.
  intros Hav. assert (grouped raws [] []) as H0.
  { split; [constructor|..]; intros; by match goal with H : _ ∈ [] |- _ => apply not_elem_of_nil in H end. }
  enough (forall done m, grouped raws done m -> exists m', replayAll raws pcrs m = Some m' /\ grouped raws (done ++ pcrs) m') as Hg.
  { apply (Hg [] [] H0). }
  clear H0. induction Hav as [|p pcrs Hp _ IH]; intros dn m Hm; cbn [replayAll].
  { exists m. by rewrite app_nil_r. }
  destruct (replayPCR_spec p raws Hp) as (r & Hr & _). rewrite Hr. cbn.
  destruct (IH (dn ++ [p]) _ (grouped_add _ _ _ _ _ Hm Hr)) as (m' & -> & Hm'). exists m'. by rewrite <- app_assoc in Hm'.
Qed.

Lemma pcrLoop_ok (m : replayMap) verified :
  pcrLoop m = (verified, []) -> NoDup m.*1 -> (forall i rs r, (i, rs) ∈ m -> r ∈ rs -> Forall (fun e => Index e = i) r.1) ->
  (forall i rs, (i, rs) ∈ m -> exists r, r ∈ rs /\ r.2 = true /\ filter (fun e => Index e = i) verified = r.1) /\
  Forall (fun e => Index e ∈ m.*1) verified.
Proof.
  revert verified. induction m as [|[j js] m IH]; intros verified; cbn.
  { intros [= <-] _ _. split; [by intros ? ? ?%not_elem_of_nil|constructor]. }
  destruct (pcrLoop m) as [vs inv]. destruct (find _ js) as [r|] eqn:Ef; [|done]. intros [= <- ->] [Hj Hnd]%NoDup_cons Hix.
  destruct (IH vs eq_refl Hnd) as [IH1 IH2]; [intros i rs r' Hin; eapply Hix; by right|].
  apply find_some in Ef as [Hr%list_elem_of_In Hr2]. pose proof (Hix j js r (list_elem_of_here _ _) Hr) as Hrj. split.
  - intros i rs [[= -> ->]|Hin]%elem_of_cons.
    + exists r. split_and!; [done..|]. rewrite filter_app, (list_filter_all _ r.1) by done.
      rewrite (list_filter_none _ vs), app_nil_r; [done|]. eapply Forall_impl; [apply IH2|]. cbn. intros e He Ei. apply Hj. by rewrite <- Ei.
    + destruct (IH1 i rs Hin) as (r' & Hr' & Hr2' & Hf). exists r'. split_and!; [done..|]. rewrite filter_app, Hf.
      rewrite (list_filter_none _ r.1); [done|]. eapply Forall_impl; [apply Hrj|]. cbn. intros e He Ei. apply Hj.
      assert (i = j) as <- by congruence. apply list_elem_of_fmap. by exists (i, rs).
  - apply Forall_app. split; [eapply Forall_impl; [apply Hrj|]; cbn; intros e ->; by left|].
    eapply Forall_impl; [apply IH2|]. cbn. intros e He. by right.
Qed.

Lemma pcrLoop_invalid (m : replayMap) verified invalid i :
  pcrLoop m = (verified, invalid) -> i ∈ invalid -> exists rs, (i, rs) ∈ m /\ forall r, r ∈ rs -> r.2 = false.
Proof.
  revert verified invalid. induction m as [|[j js] m IH]; intros verified invalid; cbn; [by intros [= _ <-] ?%not_elem_of_nil|].
  destruct (pcrLoop m) as [vs inv]. destruct (find _ js) as [r|] eqn:Ef.
  - intros [= _ <-] Hi. destruct (IH _ _ eq_refl Hi) as (rs & Hin & H). exists rs. split; [by right|done].
  - intros [= _ <-] [->|Hi]%elem_of_cons.
    + exists js. split; [by left|]. intros r Hr%list_elem_of_In. by apply (find_none _ _ Ef) in Hr.
    + destruct (IH _ _ eq_refl Hi) as (rs & Hin & H). exists rs. split; [by right|done].
Qed.

(** ** Verification *)

Definition bySequence (a b : Event) : Prop := eventSequence a <= eventSequence b.

(** For every index that was given there is a PCR which the log replays to, unless it has no events for that index, and the events are those of these. *)
Record verified (raws : list rawEvent) (pcrs : list PCR) (evs : list Event) : Prop := {
  verified_pcr : forall p, p ∈ pcrs -> exists p' ds, p' ∈ pcrs /\ pcrIndex p' = pcrIndex p /\ accepts raws p' ds /\
    filter (fun e => Index e = pcrIndex p) evs ≡ₚ zip_with (eventOf p') (relevant p' raws) ds;
  verified_index : forall e, e ∈ evs -> exists p, p ∈ pcrs /\ pcrIndex p = Index e;
  verified_sorted : StronglySorted bySequence evs
}.

(** The log has events for the index [i], and no PCR of that index is what it replays to. *)
Definition refuted (raws : list rawEvent) (pcrs : list PCR) (i : Z) : Prop :=
  (exists p, p ∈ pcrs /\ pcrIndex p = i) /\ forall p ds, p ∈ pcrs -> pcrIndex p = i -> ~ accepts raws p ds.

Lemma refuted_relevant raws pcrs i : refuted raws pcrs i -> raws <> [].
Proof. intros [(p & Hp & Hi) H] ->. apply (H p [] Hp Hi). split; [done|by left]. Qed.

(** The events of a log, or these with the events of a workaround. *)
Definition candidate (e : EventLog) (raws : list rawEvent) : Prop :=
  raws = rawEvents e \/ exists w el, w ∈ eventlogWorkarounds /\ injectAll w.1 w.2 e = Some el /\ raws = rawEvents el.

Definition algsOk (e : EventLog) : Prop := Forall (fun a => a = HashSHA1 \/ a = HashSHA256) (Algs e).

Lemma injectDigests_ok algs d : Forall (fun a => a = HashSHA1 \/ a = HashSHA256) algs -> exists ds, injectDigests algs d = Some ds.
Proof. induction 1 as [|a algs [->| ->] _ [ds IH]]; cbn; [by eexists|rewrite IH; by eexists..]. Qed.

Lemma injectAll_ok pcr ds e : algsOk e -> rawEvents e <> [] -> exists el, injectAll pcr ds e = Some el.
Proof.
  revert e. induction ds as [|d ds IH]; intros e Ha He; cbn; [by eexists|]. unfold inject.
  destruct (last (rawEvents e)) as [x|] eqn:El; [|by apply last_None in El]. cbn.
  destruct (injectDigests_ok (Algs e) d Ha) as [dd ->]. cbn. apply IH; [done|]. cbn. by destruct (rawEvents e).
Qed.

Section verify.
Context (order : replayMap -> replayMap) (order_perm : forall m, order m ≡ₚ m).
Context (sortSlice : list Event -> list Event) (sort_perm : forall l, sortSlice l ≡ₚ l) (sort_sorted : forall l, StronglySorted bySequence (sortSlice l)).

Lemma replayEvents_spec raws pcrs : Forall available pcrs ->
  exists r, replayEvents order sortSlice raws pcrs = Some r /\
    match r with
    | Ok evs => verified raws pcrs evs
    | Err re => invalidPCRs re <> [] /\ forall i, i ∈ invalidPCRs re -> refuted raws pcrs i
    end.
Proof using order_perm sort_perm sort_sorted.
  intros Hav. unfold replayEvents. destruct (replayAll_grouped raws pcrs Hav) as (m & -> & Hm). cbn.
  rewrite Forall_forall in Hav. destruct (pcrLoop (order m)) as [vs inv] eqn:El. eexists. split; [done|]. destruct inv as [|i inv].
  - destruct (pcrLoop_ok _ _ El) as [Hok Hix].
    { rewrite order_perm. apply (grouped_nodup _ _ _ Hm). }
    { intros i rs r Hin Hr. rewrite order_perm in Hin. destruct (grouped_sound _ _ _ Hm _ _ _ Hin Hr) as (p & Hp & <- & E).
      destruct (replayPCR_spec p raws (Hav p Hp)) as (r' & E' & Ht & Hf & _). assert (r' = r) as -> by congruence.
      destruct r.2; [|by rewrite Hf]. destruct (Ht eq_refl) as (ds & _ & ->). clear. revert ds.
      induction (relevant p raws) as [|e l IH]; intros [|d ds]; cbn; by constructor. }
    split; [|..].
    + intros p Hp. destruct (grouped_complete _ _ _ Hm p Hp) as (rs & _ & Hin & _ & _).
      destruct (Hok (pcrIndex p) rs) as (r & Hr & Hr2 & Hfil); [by rewrite order_perm|].
      destruct (grouped_sound _ _ _ Hm _ _ _ Hin Hr) as (p' & Hp' & Hi & E).
      destruct (replayPCR_spec p' raws (Hav p' Hp')) as (r' & E' & Ht & _). assert (r' = r) as -> by congruence.
      destruct (Ht Hr2) as (ds & Hds & Hr1). exists p', ds. split_and!; [done..|]. by rewrite sort_perm, Hfil, Hr1.
    + intros e He. rewrite sort_perm in He. rewrite Forall_forall in Hix. specialize (Hix e He). cbn in Hix. rewrite order_perm in Hix.
      apply list_elem_of_fmap in Hix as ([i rs] & Hi & Hin). destruct (grouped_nonempty _ _ _ Hm _ _ Hin) as [r Hr].
      destruct (grouped_sound _ _ _ Hm _ _ _ Hin Hr) as (p & Hp & Hpi & _). exists p. split; [done|]. by rewrite Hpi.
    + apply sort_sorted.
  - cbn. split; [done|]. intros k Hk. destruct (pcrLoop_invalid _ _ _ k El Hk) as (rs & Hin & Hall). rewrite order_perm in Hin. split.
    + destruct (grouped_nonempty _ _ _ Hm _ _ Hin) as [r Hr]. destruct (grouped_sound _ _ _ Hm _ _ _ Hin Hr) as (p & Hp & Hpi & _). by exists p.
    + intros p ds Hp <- Hds. destruct (grouped_complete _ _ _ Hm p Hp) as (rs' & r & Hin' & Hr & E).
      assert (rs' = rs) as ->.
      { eapply (NoDup_fmap_fst m); [apply Hm|done..]. }
      destruct (replayPCR_spec p raws (Hav p Hp)) as (r' & E' & _ & _ & Ht). assert (r' = r) as -> by congruence.
      specialize (Ht ds Hds). rewrite (Hall r Hr) in Ht. done.
Qed.

Lemma tryWorkarounds_spec ws e pcrs re :
  algsOk e -> Forall available pcrs -> invalidPCRs re <> [] -> (forall i, i ∈ invalidPCRs re -> refuted (rawEvents e) pcrs i) ->
  (forall w, w ∈ ws -> w ∈ eventlogWorkarounds) ->
  exists r, tryWorkarounds order sortSlice ws e pcrs re = Some r /\
    match r with
    | Ok evs => exists raws, candidate e raws /\ verified raws pcrs evs
    | Err re => exists i, i ∈ invalidPCRs re /\ refuted (rawEvents e) pcrs i
    end.
Proof using order_perm sort_perm sort_sorted.
  intros Ha Hav Hne Href. induction ws as [|[ap ds] ws IH]; intros Hsub; cbn [tryWorkarounds].
  { eexists. split; [done|]. destruct (invalidPCRs re) as [|i inv] eqn:Ei; [done|]. exists i. rewrite Ei. split; [by left|]. apply Href. by left. }
  assert (forall w, w ∈ ws -> w ∈ eventlogWorkarounds) as Hsub2 by (intros w Hw; apply Hsub; by right).
  destruct (affected re ap) eqn:Eaf; cbn [negb]; [|by apply IH].
  assert (rawEvents e <> []) as Hraw.
  { unfold affected in Eaf. apply existsb_exists in Eaf as (k & Hk%list_elem_of_In & _). by eapply refuted_relevant, Href. }
  destruct (injectAll_ok ap ds e Ha Hraw) as [el Hel]. rewrite Hel. cbn [mbind option_bind].
  destruct (replayEvents_spec (rawEvents el) pcrs Hav) as ([evs|re'] & -> & H); cbn [mbind option_bind]; [|by apply IH].
  eexists. split; [done|]. exists (rawEvents el). split; [|done]. right. exists (ap, ds), el. split_and!; [|done..]. apply Hsub. by left.
Qed.

Lemma Verify_spec e pcrs :
  algsOk e -> Forall available pcrs ->
  exists r, Verify order sortSlice e pcrs = Some r /\
    match r with
    | Ok evs => exists raws, candidate e raws /\ verified raws pcrs evs
    | Err re => exists i, i ∈ invalidPCRs re /\ refuted (rawEvents e) pcrs i
    end.
Proof using order_perm sort_perm sort_sorted.
  intros Ha Hav. unfold Verify. destruct (replayEvents_spec (rawEvents e) pcrs Hav) as ([evs|re] & -> & H); cbn [mbind option_bind].
  { eexists. split; [done|]. exists (rawEvents e). split; [by left|done]. }
  destruct H as [Hne Href]. by apply tryWorkarounds_spec.
Qed.

(** C21: verification of a log whose algorithms are SHA-1 and SHA-256, as those of every log that was parsed, does not panic if the PCRs are of these
    algorithms too.  If it succeeds, then for every index that was given, the events of the log for it, or these and those of one
    workaround, have digests which replay to the value of a PCR of that index, or there are no events for it, whatever the value of
    the PCR is; and the events of the index are returned with these digests, sorted by their sequence.  If it fails, there is an index
    that has events which replay to none of the PCRs. *)
Theorem Verify_correct e pcrs :
  algsOk e -> Forall available pcrs ->
  exists r, Verify order sortSlice e pcrs = Some r /\
    match r with
    | Ok evs => exists raws, candidate e raws /\ verified raws pcrs evs
    | Err re => exists i, i ∈ invalidPCRs re /\ refuted (rawEvents e) pcrs i
    end.
Proof using order_perm sort_perm sort_sorted. apply Verify_spec. Qed.

(** ** Tampering *)

Definition seqOk (raws : list rawEvent) : Prop := StronglySorted (fun a b => sequence a < sequence b) raws.

Lemma inject_seq pcr d e el : inject pcr d e = Some el -> seqOk (rawEvents e) -> seqOk (rawEvents el).
Proof.
  unfold inject. destruct (last (rawEvents e)) as [x|] eqn:El; [|done]. cbn. destruct (injectDigests _ _) as [ds|]; [|done]. cbn.
  intros [= <-] Hs. cbn. apply last_Some in El as [l Hl]. rewrite Hl in *. unfold seqOk in *.
  apply StronglySorted_app in Hs as (Hlx & Hs & _). apply StronglySorted_app. split_and!; [|by apply StronglySorted_app; split_and!; [..|repeat constructor]|repeat constructor].
  intros y z Hy ->%list_elem_of_singleton. cbn. apply elem_of_app in Hy as [Hy| ->%list_elem_of_singleton]; [|lia].
  pose proof (Hlx y x Hy (list_elem_of_here _ _)). lia.
Qed.

Lemma candidate_seq e raws : candidate e raws -> seqOk (rawEvents e) -> seqOk raws.
Proof.
  intros [->|(w & el & _ & Hel & ->)]; [done|]. destruct w as [ap ds]. cbn [fst snd] in Hel. revert e Hel.
  induction ds as [|d ds IH]; intros e; cbn; [by intros [= ->]|]. destruct (inject ap d e) as [e'|] eqn:Ei; [|done]. cbn.
  intros Hel Hs. apply (IH e' Hel). by eapply inject_seq.
Qed.

(** The events of a PCR, and the PCR that is the only one of its index. *)
Definition eventsOf (p : PCR) (evs : list Event) : list Event := filter (fun e => Index e = pcrIndex p) evs.
Definition onlyPCR (p : PCR) (pcrs : list PCR) : Prop := p ∈ pcrs /\ forall q, q ∈ pcrs -> pcrIndex q = pcrIndex p -> q = p.

Lemma StronglySorted_filter {A} (R : A -> A -> Prop) (P : A -> Prop) `{!forall x, Decision (P x)} l : StronglySorted R l -> StronglySorted R (filter P l).
Proof.
  induction 1 as [|x l _ IH Hall]; [constructor|]. rewrite filter_cons. case_decide; [|done]. constructor; [done|].
  rewrite Forall_forall in *. intros y Hy. apply list_elem_of_filter in Hy as [_ Hy]. by apply Hall.
Qed.

(** The events of such a PCR are those of its index in the order of the log. *)
Lemma verified_only raws p pcrs evs : seqOk raws -> onlyPCR p pcrs -> verified raws pcrs evs -> accepts raws p (Digest <$> eventsOf p evs).
Proof.
  intros Hs [Hin Honly] [Hp Hi Hsort]. destruct (Hp p Hin) as (p' & ds & Hp' & Hpi & Hr & Hperm). rewrite (Honly p' Hp' Hpi) in *.
  destruct Hr as [Hm Hv]. pose proof (length_mapM _ _ _ Hm) as Hl.
  assert (StronglySorted (fun a b => eventSequence a < eventSequence b) (zip_with (eventOf p) (relevant p raws) ds)) as Hz.
  { clear -Hs. unfold relevant. revert ds. induction Hs as [|e raws Hs IH Hall]; intros ds; [constructor|]. rewrite filter_cons. case_decide; [|apply IH].
    destruct ds as [|d ds]; [constructor|]. cbn. constructor; [apply IH|]. clear -Hall. revert ds. induction Hall as [|x raws Hx _ IH]; intros ds; [constructor|].
    rewrite filter_cons. case_decide; [|apply IH]. destruct ds as [|d' ds]; cbn; [constructor|]. constructor; [done|apply IH]. }
  unfold eventsOf. assert (filter (fun e => Index e = pcrIndex p) evs = zip_with (eventOf p) (relevant p raws) ds) as ->.
  { apply (StronglySorted_unique_strong bySequence); [|by apply StronglySorted_filter| |done].
    - intros x y Hx Hy Hxy Hyx. rewrite Hperm in Hx. unfold bySequence in *. assert (eventSequence x = eventSequence y) as E by lia.
      clear -Hz Hx Hy E. induction Hz as [|z l _ IH Hall]; [by apply not_elem_of_nil in Hx|]. rewrite Forall_forall in Hall.
      apply elem_of_cons in Hx as [->|Hx], Hy as [->|Hy]; [done| | |by apply IH].
      + specialize (Hall y Hy). lia.
      + specialize (Hall x Hx). lia.
    - clear -Hz. induction Hz as [|x l _ IH Hall]; constructor; [done|]. eapply Forall_impl; [done|]. unfold bySequence. cbn. intros y Hy. lia. }
  assert (Digest <$> zip_with (eventOf p) (relevant p raws) ds = ds) as ->; [|done].
  clear -Hl. revert ds Hl. induction (relevant p raws) as [|e l IH]; intros [|d ds]; cbn; try done. intros [= Hl]. by rewrite (IH ds Hl).
Qed.

Lemma Verify_replays e p pcrs h evs :
  Forall available pcrs -> onlyPCR p pcrs -> newHash (DigestAlg p) = Some h -> algsOk e -> seqOk (rawEvents e) ->
  Verify order sortSlice e pcrs = Some (Ok evs) -> eventsOf p evs <> [] ->
  replayValue h (hashSize (DigestAlg p)) (Digest <$> eventsOf p evs) = pcrDigest p /\
  Forall (fun e => length (Digest e) = hashSize (DigestAlg p)) (eventsOf p evs).
Proof using order_perm sort_perm sort_sorted.
  intros Hav Hp Hh Ha Hs Hv Hne. destruct (Verify_spec e pcrs Ha Hav) as (r & Hr & H). rewrite Hv in Hr. injection Hr as <-. destruct H as (raws & Hc & Hver).
  destruct (verified_only raws p pcrs evs (candidate_seq _ _ Hc Hs) Hp Hver) as [Hm [E|(h' & Hh' & E)]]; [rewrite E in Hm; by destruct (eventsOf p evs)|].
  assert (h' = h) as -> by congruence. split; [done|]. assert (length (pcrDigest p) = hashSize (DigestAlg p)) as <-.
  { rewrite <- E. apply replayValue_length. intros x. by apply newHash_size. }
  apply mapM_Some_1 in Hm. clear -Hm. remember (Digest <$> eventsOf p evs) as ds eqn:Ed.
  assert (Forall (fun d => length d = length (pcrDigest p)) ds) as H.
  { clear -Hm. induction Hm as [|e d l ds H _ IH]; constructor; [|done]. unfold measure in H. destruct (find _ _) as [x|]; [|done]. cbn in H.
    destruct (Nat.eqb_spec (length (digestData x)) (length (pcrDigest p))); [|done]. by injection H as <-. }
  subst ds. by apply Forall_fmap in H.
Qed.

(** Two logs that verify against a PCR and have events for it have the same digests in the same order, or
    two of the messages that are hashed for them collide, or one of them hashes to zero. *)
Lemma Verify_unique e1 e2 p pcrs1 pcrs2 h evs1 evs2 :
  newHash (DigestAlg p) = Some h ->
  algsOk e1 -> seqOk (rawEvents e1) -> Forall available pcrs1 -> onlyPCR p pcrs1 -> Verify order sortSlice e1 pcrs1 = Some (Ok evs1) -> eventsOf p evs1 <> [] ->
  algsOk e2 -> seqOk (rawEvents e2) -> Forall available pcrs2 -> onlyPCR p pcrs2 -> Verify order sortSlice e2 pcrs2 = Some (Ok evs2) -> eventsOf p evs2 <> [] ->
  Digest <$> eventsOf p evs1 = Digest <$> eventsOf p evs2 \/
  broken h (hashSize (DigestAlg p)) (Digest <$> eventsOf p evs1) (Digest <$> eventsOf p evs2).
Proof using order_perm sort_perm sort_sorted.
  intros Hh Ha1 Hs1 Hav1 Hp1 Hv1 Hn1 Ha2 Hs2 Hav2 Hp2 Hv2 Hn2. apply replay_unique; [intros x; by apply newHash_size|].
  destruct (Verify_replays e1 p pcrs1 h evs1) as [-> _]; [done..|]. by destruct (Verify_replays e2 p pcrs2 h evs2) as [-> _].
Qed.

End verify.

End EventlogProps.

(** * TPM event logs: parsing

    The parser ends on every input, and reads back the logs that the TCG formats describe; but
    it takes the number of remaining bytes modulo 2^16 and so refuses some logs of more than 64 KiB. *)

Module EventlogCodec.
Import Bytes Sha256 Sha1 Eventlog EventlogProps.
Open Scope Z_scope.

(** ** Reading *)

Lemma readFull_ok n a r : length a = n -> readFull n (a ++ r) = Ok (a, r).
Proof.
  intros Ha. unfold readFull. rewrite length_app, Ha. destruct (Nat.ltb_spec (n + length r) n); [lia|].
  by rewrite take_app_length', drop_app_length'.
Qed.
Lemma readLE_ok n v r : 0 <= v < width n -> readLE n (le n v ++ r) = Ok (v, r).
Proof. intros Hv. unfold readLE. rewrite readFull_ok by apply le_length. cbn. by rewrite unle_le. Qed.

Lemma readFull_shrinks n r b r' : readFull n r = Ok (b, r') -> (length r = n + length r')%nat.
Proof.
  unfold readFull. destruct (Nat.ltb_spec (length r) n); [done|]. intros [= <- <-]. rewrite length_drop. lia.
Qed.
Lemma readLE_shrinks n r v r' : readLE n r = Ok (v, r') -> (length r = n + length r')%nat.
Proof.
  unfold readLE. destruct (readFull n r) as [[b r1]|] eqn:E; [|done]. cbn. intros [= _ <-]. by eapply readFull_shrinks.
Qed.
Lemma readEventData_shrinks r d r' : readEventData r = Ok (d, r') -> (length r' < length r)%nat.
Proof.
  unfold readEventData. destruct (readLE 4 r) as [[n r1]|] eqn:E; [|done]. cbn. apply readLE_shrinks in E.
  destruct (n =? 0); [done|]. cbn. destruct (_ <? n); [done|]. cbn. intros H%readFull_shrinks. lia.
Qed.

(** ** The parser ends *)

Lemma algLoop_total fuel n r : (length r < fuel)%nat -> algLoop fuel n r <> None.
Proof.
  revert n r. induction fuel as [|fuel IH]; intros n r Hf; [lia|]. cbn [algLoop]. destruct (n <=? 0); [done|].
  destruct (readFull 4 r) as [[b r']|] eqn:E; [|done]. apply readFull_shrinks in E.
  destruct (algLoop fuel (n - 1) r') eqn:Ea; [done|]. exfalso. apply (IH (n - 1) r'); [lia|done].
Qed.

Lemma readDigest_shrinks algs r d r' : readDigest algs r = Ok (d, r') -> (length r' < length r)%nat.
Proof.
  unfold readDigest. destruct (readLE 2 r) as [[i r1]|] eqn:E; [|done]. cbn. apply readLE_shrinks in E.
  destruct (matchAlgs algs i r1 0 0) as [[size h]|]; [|done]. cbn. destruct (size =? 0); [done|]. cbn.
  destruct (readFull _ r1) as [[b r2]|] eqn:E2; [|done]. cbn. intros [= _ <-]. apply readFull_shrinks in E2. lia.
Qed.

Lemma digestLoop_total fuel n algs r : (length r < fuel)%nat -> digestLoop fuel n algs r <> None.
Proof.
  revert n r. induction fuel as [|fuel IH]; intros n r Hf; [lia|]. cbn [digestLoop]. destruct (n <=? 0); [done|].
  destruct (readDigest algs r) as [[d r']|] eqn:E; [|done]. apply readDigest_shrinks in E.
  destruct (digestLoop fuel (n - 1) algs r') eqn:Ea; [done|]. exfalso. apply (IH (n - 1) r'); [lia|done].
Qed.

(** A parser of events that ends, and reads something. *)
Definition productive (f : bytes -> option (result parseError (rawEvent * bytes))) : Prop :=
  forall r, exists x, f r = Some x /\ forall e r', x = Ok (e, r') -> (length r' < length r)%nat.

Lemma eventLoop_total f seq fuel r : productive f -> (length r <= fuel)%nat -> eventLoop fuel f seq r <> None.
Proof.
  intros Hf. revert seq r. induction fuel as [|fuel IH]; intros seq r Hl; destruct r as [|b r]; try done; [cbn in Hl; lia|].
  cbn [eventLoop]. destruct (Hf (b :: r)) as (x & -> & Hx). cbn [mbind option_bind]. destruct x as [[e r']|]; [|done].
  specialize (Hx e r' eq_refl). destruct (eventLoop fuel f (seq + 1) r') eqn:Ee; [done|]. exfalso. apply (IH (seq + 1) r'); [lia|done].
Qed.

Lemma parseRawEvent_shrinks r e r' : parseRawEvent r = Ok (e, r') -> (length r' < length r)%nat.
Proof.
  unfold parseRawEvent. destruct (readFull 32 r) as [[h r1]|] eqn:E; [|done]. cbn -[readEventData take drop].
  destruct (readEventData (drop 28 r)) as [[d r2]|] eqn:Ed; [|done]. cbn. intros [= _ <-].
  apply readEventData_shrinks in Ed. rewrite length_drop in Ed. lia.
Qed.
Lemma parseRawEvent_productive : productive (fun r => Some (parseRawEvent r)).
Proof. intros r. eexists. split; [done|]. intros e r'. apply parseRawEvent_shrinks. Qed.

Lemma digestLoop_shrinks fuel n algs r ds r' : digestLoop fuel n algs r = Some (Ok (ds, r')) -> (length r' <= length r)%nat.
Proof.
  revert n r ds. induction fuel as [|fuel IH]; intros n r ds; cbn [digestLoop]; (destruct (n <=? 0); [by intros [= _ <-]|]); [done|].
  destruct (readDigest algs r) as [[d r1]|] eqn:E; [|done]. apply readDigest_shrinks in E.
  destruct (digestLoop fuel (n - 1) algs r1) as [[[ds1 r2]|]|] eqn:Ed; [|done..]. cbn. intros [= _ <-]. apply IH in Ed. lia.
Qed.

Lemma parseRawEvent2_productive algs : productive (parseRawEvent2 algs).
Proof.
  intros r. unfold parseRawEvent2. destruct (readFull 8 r) as [[h r1]|] eqn:E1; [|by eexists]. apply readFull_shrinks in E1.
  cbn [mbind result_bind]. destruct (readLE 4 r1) as [[n r2]|] eqn:E2; [|by eexists]. apply readLE_shrinks in E2. cbn [mbind result_bind].
  destruct (digestLoop _ n algs r2) as [x|] eqn:Ed; [|exfalso; eapply digestLoop_total; [|done]; lia]. eexists. split; [done|].
  intros e r'. destruct x as [[ds r3]|]; [|done]. apply digestLoop_shrinks in Ed. cbn.
  destruct (readEventData r3) as [[d r4]|] eqn:Ee; [|done]. apply readEventData_shrinks in Ee. cbn. intros [= _ <-]. lia.
Qed.

Lemma parseSpecIDEvent_total b : parseSpecIDEvent b <> None.
Proof.
  unfold parseSpecIDEvent. destruct (readFull 28 b) as [[h r]|]; [|done]. cbn -[bool_decide algLoop].
  destruct (negb _); [done|]. destruct (negb _); [done|]. destruct (negb _); [done|].
  destruct (algLoop _ _ r) eqn:E; [done|]. exfalso. eapply algLoop_total; [|done]. lia.
Qed.

Lemma eventLoop_seq fuel f seq r es : eventLoop fuel f seq r = Some (Ok es) -> seqOk es /\ Forall (fun e => seq <= sequence e) es.
Proof.
  revert seq r es. induction fuel as [|fuel IH]; intros seq r es; destruct r as [|b r]; cbn [eventLoop]; try done; try (intros [= <-]; split; constructor).
  destruct (f (b :: r)) as [[[e r']|]|]; [|done..]. cbn [mbind option_bind].
  destruct (eventLoop fuel f (seq + 1) r') as [[es'|]|] eqn:E; [|done..]. cbn. intros [= <-]. destruct (IH _ _ _ E) as [Hs Hall]. split.
  - constructor; [done|]. eapply Forall_impl; [done|]. cbn. intros x Hx. lia.
  - constructor; [cbn; lia|]. eapply Forall_impl; [done|]. cbn. intros x Hx. lia.
Qed.

Lemma logAlgs_ok algs : Forall (fun a => a = HashSHA1 \/ a = HashSHA256) (logAlgs algs).
Proof.
  apply Forall_bind, Forall_true. intros a. cbn. destruct (ID a =? HashSHA1); [apply Forall_singleton; by left|].
  destruct (ID a =? HashSHA256); [apply Forall_singleton; by right|constructor].
Qed.

(** The parser returns a log or an error for every input.  In a log that it returns the events are numbered in
    order, and its algorithms are SHA-1 and SHA-256. *)
Lemma ParseEventLog_total b :
  exists r, ParseEventLog b = Some r /\ forall e, r = Ok e -> algsOk e /\ seqOk (rawEvents e) /\ Algs e <> [].
Proof.
  unfold ParseEventLog. destruct (parseRawEvent b) as [[e r]|] eqn:E0; [|by eexists]. destruct (typ e =? eventTypeNoAction).
  - destruct (parseSpecIDEvent (data e)) as [[algs|]|] eqn:Es; cbn [mbind option_bind]; [|by eexists|by apply parseSpecIDEvent_total in Es].
    destruct (logAlgs algs) as [|a las] eqn:El; [by eexists|].
    destruct (eventLoop _ _ 1 r) as [y|] eqn:Ey; cbn [mbind option_bind]; [|exfalso; eapply eventLoop_total; [apply parseRawEvent2_productive| |done]; lia].
    eexists. split; [done|]. destruct y as [es|]; [|done]. intros ? [= <-]. apply eventLoop_seq in Ey as [Hs _].
    split_and!; [|done..]. unfold algsOk. cbn. rewrite <- El. apply logAlgs_ok.
  - destruct (eventLoop _ _ 1 r) as [y|] eqn:Ey; cbn [mbind option_bind]; [|exfalso; eapply eventLoop_total; [apply parseRawEvent_productive| |done]; lia].
    eexists. split; [done|]. destruct y as [es|]; [|done]. intros ? [= <-]. apply eventLoop_seq in Ey as [Hs Hall].
    split_and!; [apply Forall_singleton; by left| |done]. cbn. constructor; [done|].
    assert (sequence e = 0) as ->.
    { revert E0. unfold parseRawEvent. destruct (readFull 32 b) as [[h r1]|]; [|done]. cbn -[readEventData take drop].
      destruct (readEventData _) as [[d r2]|]; [|done]. cbn. by intros [= <- _]. }
    eapply Forall_impl; [done|]. cbn. intros x Hx. lia.
Qed.

(** ** The formats *)

Record eventSpec := mkSpec { specIndex : Z; specType : Z; specDigests : list (Z * bytes); specData : bytes }.

Definition encodeAlg (a : specAlgSize) : bytes := le 2 (ID a) ++ le 2 (Size a).
(** The header event of the crypto agile format, for any platform class, errata and size of pointers. *)
Definition encodeSpecID (class errata uintn : Z) (algs : list specAlgSize) (vendor : bytes) : bytes :=
  wantSignature ++ le 4 class ++ le 1 wantMinor ++ le 1 wantMajor ++ le 1 errata ++ le 1 uintn ++ le 4 (len algs) ++
  concat (encodeAlg <$> algs) ++ le 1 (len vendor) ++ vendor.
Definition encodeData (d : bytes) : bytes := le 4 (len d) ++ d.
Definition encodeEvent1 (i t : Z) (dig d : bytes) : bytes := le 4 i ++ le 4 t ++ dig ++ encodeData d.
Definition encodeDigest (x : Z * bytes) : bytes := le 2 x.1 ++ x.2.
Definition encodeEvent2 (e : eventSpec) : bytes :=
  le 4 (specIndex e) ++ le 4 (specType e) ++ le 4 (len (specDigests e)) ++ concat (encodeDigest <$> specDigests e) ++ encodeData (specData e).

(** The events that should be read, from number [seq]. *)
Definition rawDigest (x : Z * bytes) : digest := mkDigest (cryptoHash (toHashAlg x.1)) x.2.
Definition rawOf (seq : Z) (e : eventSpec) : rawEvent := mkRaw seq (specIndex e) (specType e) (specData e) (rawDigest <$> specDigests e).
Fixpoint rawsOf (seq : Z) (es : list eventSpec) : list rawEvent :=
  match es with
  | [] => []
  | e :: es => rawOf seq e :: rawsOf (seq + 1) es
  end.

Definition dataOk (d : bytes) : Prop := 0 < len d < width 4.
Definition algOk (a : specAlgSize) : Prop := 0 <= ID a < width 2 /\ 0 < Size a < width 2.
Definition algsWf (algs : list specAlgSize) : Prop := Forall algOk algs /\ NoDup (ID <$> algs) /\ len algs < 2 ^ 16.
Definition eventOk (algs : list specAlgSize) (e : eventSpec) : Prop :=
  0 <= specIndex e < width 4 /\ 0 <= specType e < width 4 /\ dataOk (specData e) /\ len (specDigests e) < width 4 /\
  Forall (fun x => exists a, a ∈ algs /\ ID a = x.1 /\ Size a = len x.2) (specDigests e).

Lemma readEventData_ok d r : dataOk d -> len (d ++ r) < 2 ^ 32 -> readEventData (encodeData d ++ r) = Ok (d, r).
Proof.
  intros Hd Hl. unfold dataOk in Hd. unfold readEventData, encodeData. rewrite <- app_assoc, readLE_ok by lia. cbn -[u32].
  destruct (Z.eqb_spec (len d) 0); [lia|]. cbn -[u32]. rewrite len_app in *. pose proof (len_nonneg r).
  rewrite u32_small by lia. destruct (Z.ltb_spec (len d + len r) (len d)); [lia|]. cbn. apply readFull_ok. unfold len. lia.
Qed.

Lemma algLoop_ok algs fuel r : Forall algOk algs -> (length algs <= fuel)%nat ->
  algLoop fuel (len algs) (concat (encodeAlg <$> algs) ++ r) = Some (Ok (algs, r)).
Proof.
  intros Ha. revert fuel. induction Ha as [|a algs [Hi Hs] _ IH]; intros fuel Hf; [by destruct fuel|].
  destruct fuel as [|fuel]; [cbn in Hf; lia|]. cbn [algLoop fmap list_fmap concat].
  destruct (Z.leb_spec (len (a :: algs)) 0) as [H|_]; [unfold len in H; cbn in H; lia|].
  rewrite <- app_assoc, readFull_ok by done. cbn [mbind option_bind].
  replace (len (a :: algs) - 1) with (len algs) by (unfold len; cbn; lia). rewrite IH by (cbn in Hf; lia). cbn [mbind option_bind result_bind].
  do 3 f_equal. unfold encodeAlg. rewrite take_app_length', drop_app_length', !unle_le by (rewrite ?le_length; done || lia). by destruct a.
Qed.

Lemma parseSpecIDEvent_ok class errata uintn algs vendor :
  0 <= class < width 4 -> algsWf algs -> len vendor < 256 ->
  parseSpecIDEvent (encodeSpecID class errata uintn algs vendor) = Some (Ok algs).
Proof.
  intros Hc (Ha & _ & Hn) Hv. pose proof (len_nonneg algs). pose proof (len_nonneg vendor).
  assert (len algs < width 4) by (eapply Z.lt_trans; [done|]; by vm_compute).
  unfold parseSpecIDEvent. set (h := wantSignature ++ le 4 class ++ le 1 wantMinor ++ le 1 wantMajor ++ (le 1 errata ++ le 1 uintn) ++ le 4 (len algs) ++ []).
  replace (encodeSpecID class errata uintn algs vendor) with (h ++ concat (encodeAlg <$> algs) ++ le 1 (len vendor) ++ vendor)
    by (unfold h, encodeSpecID; by rewrite app_nil_r, <- !app_assoc).
  rewrite readFull_ok by done. unfold h. rewrite getBytes_app by done. rewrite getLE_app by done. rewrite !getLE_app by done.
  rewrite getBytes_app by done. rewrite getLE_app by done.
  rewrite bool_decide_true, !Z.eqb_refl by done. cbn [negb].
  rewrite algLoop_ok; [|done|rewrite length_app, (concat_length_uniform 4), length_fmap; [lia|by apply Forall_fmap, Forall_true]].
  cbn [mbind option_bind]. rewrite readLE_ok by (change (width 1) with 256; lia). by rewrite Z.eqb_refl.
Qed.

Lemma matchAlgs_skip algs i r size h : i ∉ ID <$> algs -> matchAlgs algs i r size h = Ok (size, h).
Proof.
  induction algs as [|a algs IH]; cbn; [done|]. intros Hi. destruct (Z.eqb_spec (ID a) i) as [<-|_]; [exfalso; apply Hi; by left|].
  cbn. apply IH. intros ?. apply Hi. by right.
Qed.
Lemma matchAlgs_ok algs a r size h :
  NoDup (ID <$> algs) -> a ∈ algs -> Size a <= len r mod 2 ^ 16 -> matchAlgs algs (ID a) r size h = Ok (Size a, cryptoHash (toHashAlg (ID a))).
Proof.
  intros Hnd Hin Hr. revert size h Hnd. induction algs as [|b algs IH]; [by apply not_elem_of_nil in Hin|]. intros size h [Hb Hnd]%NoDup_cons.
  cbn [matchAlgs]. apply elem_of_cons in Hin as [<-|Hin].
  - rewrite Z.eqb_refl. cbn [negb]. destruct (Z.ltb_spec (len r mod 2 ^ 16) (Size a)); [lia|]. by apply matchAlgs_skip.
  - destruct (Z.eqb_spec (ID b) (ID a)) as [E|_]; [|by apply IH]. exfalso. apply Hb. rewrite E. by apply list_elem_of_fmap_2.
Qed.

Lemma readDigest_ok algs x r :
  algsWf algs -> (exists a, a ∈ algs /\ ID a = x.1 /\ Size a = len x.2) -> len (x.2 ++ r) < 2 ^ 16 ->
  readDigest algs (encodeDigest x ++ r) = Ok (rawDigest x, r).
Proof.
  intros (Ha & Hnd & _) (a & Hin & Hi & Hs) Hl. rewrite Forall_forall in Ha. destruct (Ha a Hin) as [HI HS].
  unfold readDigest, encodeDigest. rewrite <- app_assoc, readLE_ok by (by rewrite <- Hi). cbn [mbind result_bind].
  pose proof (len_nonneg r). rewrite len_app in Hl.
  rewrite <- Hi, (matchAlgs_ok algs a); [|done..|rewrite len_app, Z.mod_small by lia; lia]. cbn [mbind result_bind].
  destruct (Z.eqb_spec (Size a) 0); [lia|]. cbn [negb]. rewrite Hs, readFull_ok by (unfold len; lia). cbn. by rewrite Hi.
Qed.

Lemma encodeDigest_len x : len (encodeDigest x) = 2 + len x.2.
Proof. unfold encodeDigest. by rewrite len_app. Qed.

Lemma encodeDigests_length xs : (length xs <= length (concat (encodeDigest <$> xs)))%nat.
Proof.
  induction xs as [|x xs IH]; [done|]. change (encodeDigest <$> x :: xs) with (encodeDigest x :: (encodeDigest <$> xs)).
  cbn [concat length]. rewrite length_app. pose proof (encodeDigest_len x) as Hx. pose proof (len_nonneg x.2). unfold len in *. lia.
Qed.

Lemma digestLoop_ok algs xs fuel r :
  algsWf algs -> Forall (fun x => exists a, a ∈ algs /\ ID a = x.1 /\ Size a = len x.2) xs -> (length xs <= fuel)%nat ->
  len (concat (encodeDigest <$> xs) ++ r) < 2 ^ 16 ->
  digestLoop fuel (len xs) algs (concat (encodeDigest <$> xs) ++ r) = Some (Ok (rawDigest <$> xs, r)).
Proof.
  intros Ha Hx. revert fuel. induction Hx as [|x xs Hx _ IH]; intros fuel Hf Hl; [by destruct fuel|].
  destruct fuel as [|fuel]; [cbn in Hf; lia|]. cbn [digestLoop fmap list_fmap concat] in *.
  destruct (Z.leb_spec (len (x :: xs)) 0) as [H|_]; [unfold len in H; cbn in H; lia|].
  rewrite <- app_assoc in *. rewrite len_app, encodeDigest_len in Hl. pose proof (len_nonneg x.2).
  rewrite readDigest_ok; [|done..|rewrite len_app; lia].
  replace (len (x :: xs) - 1) with (len xs) by (unfold len; cbn; lia). change (encodeDigest <$> xs) with (encodeDigest <$> xs).
  rewrite IH; [done|cbn in Hf; lia|lia].
Qed.

Lemma parseRawEvent2_ok algs e r :
  algsWf algs -> eventOk algs e -> len (encodeEvent2 e ++ r) < 2 ^ 16 -> parseRawEvent2 algs (encodeEvent2 e ++ r) = Some (Ok (rawOf 0 e, r)).
Proof.
  intros Ha (Hi & Ht & Hd & Hn & Hx) Hl. unfold parseRawEvent2. unfold encodeEvent2 in *.
  replace ((le 4 (specIndex e) ++ le 4 (specType e) ++ le 4 (len (specDigests e)) ++ concat (encodeDigest <$> specDigests e) ++ encodeData (specData e)) ++ r)
    with ((le 4 (specIndex e) ++ le 4 (specType e)) ++ le 4 (len (specDigests e)) ++ concat (encodeDigest <$> specDigests e) ++ encodeData (specData e) ++ r) in *
    by (by rewrite <- !app_assoc).
  rewrite readFull_ok by done. cbn [mbind result_bind]. pose proof (len_nonneg (specDigests e)).
  rewrite readLE_ok by lia. cbn [mbind result_bind]. rewrite !len_app in Hl.
  assert (len (encodeData (specData e)) = 4 + len (specData e)) as Hed by (unfold encodeData; by rewrite len_app).
  pose proof (len_nonneg (le 4 (specIndex e))). pose proof (len_nonneg (le 4 (specType e))). pose proof (len_nonneg (le 4 (len (specDigests e)))).
  pose proof (len_nonneg (concat (encodeDigest <$> specDigests e))). pose proof (len_nonneg r). unfold dataOk in Hd.
  rewrite digestLoop_ok; [|done..| |rewrite !len_app; lia].
  - cbn [mbind option_bind result_bind]. rewrite readEventData_ok by (done || (rewrite ?len_app; lia)). cbn [mbind result_bind].
    rewrite take_app_length', drop_app_length', !unle_le by (rewrite ?le_length; done). done.
  - rewrite length_app. pose proof (encodeDigests_length (specDigests e)). lia.
Qed.

Lemma eventLoop_ok algs es seq fuel :
  algsWf algs -> Forall (eventOk algs) es -> len (concat (encodeEvent2 <$> es)) < 2 ^ 16 -> (length (concat (encodeEvent2 <$> es)) <= fuel)%nat ->
  eventLoop fuel (parseRawEvent2 algs) seq (concat (encodeEvent2 <$> es)) = Some (Ok (rawsOf seq es)).
Proof.
  intros Ha He. revert seq fuel. induction He as [|e es He _ IH]; intros seq fuel Hl Hf; [by destruct fuel|].
  cbn [fmap list_fmap concat] in *. destruct (encodeEvent2 e) as [|b bs] eqn:Ee; [unfold encodeEvent2 in Ee; by destruct (specIndex e)|].
  rewrite length_app in Hf. destruct fuel as [|fuel]; [cbn in Hf; lia|]. cbn [app eventLoop].
  assert (parseRawEvent2 algs (b :: bs ++ concat (encodeEvent2 <$> es)) = Some (Ok (rawOf 0 e, concat (encodeEvent2 <$> es)))) as ->.
  { change (b :: bs ++ concat (encodeEvent2 <$> es)) with ((b :: bs) ++ concat (encodeEvent2 <$> es)). rewrite <- Ee.
    apply parseRawEvent2_ok; [done..|]. by rewrite Ee. }
  cbn [mbind option_bind]. rewrite len_app in Hl. pose proof (len_nonneg (b :: bs)). rewrite IH; [done|lia|cbn in Hf; lia].
Qed.

Lemma parseRawEvent_ok i t dig d r :
  0 <= i < width 4 -> 0 <= t < width 4 -> length dig = 20%nat -> dataOk d -> len (d ++ r) < 2 ^ 32 ->
  parseRawEvent (encodeEvent1 i t dig d ++ r) = Ok (mkRaw 0 i t d [mkDigest SHA1 dig], r).
Proof.
  intros Hi Ht Hdig Hd Hl. unfold parseRawEvent, encodeEvent1, encodeData.
  replace ((le 4 i ++ le 4 t ++ dig ++ le 4 (len d) ++ d) ++ r) with ((le 4 i ++ le 4 t ++ dig ++ le 4 (len d)) ++ d ++ r) by (by rewrite <- !app_assoc).
  rewrite readFull_ok by (rewrite !length_app, !le_length; lia). cbn [mbind result_bind].
  rewrite getLE_app, getLE_app, getBytes_app by done.
  replace ((le 4 i ++ le 4 t ++ dig ++ le 4 (len d)) ++ d ++ r) with ((le 4 i ++ le 4 t ++ dig) ++ encodeData d ++ r) by (unfold encodeData; by rewrite <- !app_assoc).
  rewrite drop_app_length' by (rewrite !length_app, !le_length; lia). by rewrite readEventData_ok.
Qed.

(** A log in the crypto agile format: its header event and its events. *)
Record logSpec := mkLogSpec {
  headerIndex : Z; headerDigest : bytes; platformClass : Z; errata : Z; uintnSize : Z;
  logAlgSizes : list specAlgSize; vendorInfo : bytes; logEvents : list eventSpec
}.
Definition headerData (l : logSpec) : bytes := encodeSpecID (platformClass l) (errata l) (uintnSize l) (logAlgSizes l) (vendorInfo l).
Definition encodeLog (l : logSpec) : bytes :=
  encodeEvent1 (headerIndex l) eventTypeNoAction (headerDigest l) (headerData l) ++ concat (encodeEvent2 <$> logEvents l).
Definition logOk (l : logSpec) : Prop :=
  0 <= headerIndex l < width 4 /\ length (headerDigest l) = 20%nat /\ 0 <= platformClass l < width 4 /\
  algsWf (logAlgSizes l) /\ logAlgs (logAlgSizes l) <> [] /\ len (vendorInfo l) < 256 /\ Forall (eventOk (logAlgSizes l)) (logEvents l).

Lemma headerData_len l : logOk l -> dataOk (headerData l) /\ len (headerData l) < 2 ^ 20.
Proof.
  intros (_ & _ & _ & (_ & _ & Hn) & _ & Hv & _). unfold dataOk.
  assert (len (headerData l) = 28 + 4 * len (logAlgSizes l) + 1 + len (vendorInfo l)) as ->.
  { unfold headerData, encodeSpecID. rewrite !len_app. assert (len (concat (encodeAlg <$> logAlgSizes l)) = 4 * len (logAlgSizes l)) as ->; [|by unfold len; rewrite !le_length; cbn; lia].
    unfold len. rewrite (concat_length_uniform 4), length_fmap; [lia|by apply Forall_fmap, Forall_true]. }
  pose proof (len_nonneg (logAlgSizes l)). pose proof (len_nonneg (vendorInfo l)). change (width 4) with (2 ^ 32). lia.
Qed.

(** The header event is read, and the rest is left to the loop over the events. *)
Lemma ParseEventLog_header l : logOk l -> len (concat (encodeEvent2 <$> logEvents l)) < 2 ^ 31 ->
  ParseEventLog (encodeLog l) =
    (y ← eventLoop (length (concat (encodeEvent2 <$> logEvents l))) (parseRawEvent2 (logAlgSizes l)) 1 (concat (encodeEvent2 <$> logEvents l));
     Some (es ← y; Ok (mkLog (logAlgs (logAlgSizes l)) es))).
Proof.
  intros Hok Hl. destruct (headerData_len l Hok) as [Hd Hd2]. destruct Hok as (Hi & Hdig & Hc & Ha & Hla & Hv & _).
  unfold ParseEventLog, encodeLog. rewrite parseRawEvent_ok; [|done..|rewrite len_app; lia]. cbn [typ data].
  rewrite Z.eqb_refl. unfold headerData. rewrite parseSpecIDEvent_ok by done. cbn [mbind option_bind].
  by destruct (logAlgs (logAlgSizes l)).
Qed.

(** C33: a log in the crypto agile format whose events take less than 64 KiB is read as it was written: the algorithms of
    its header, and the events with their indices, types, digests and data, numbered from 1. *)
Theorem ParseEventLog_roundtrip l :
  logOk l -> len (concat (encodeEvent2 <$> logEvents l)) < 2 ^ 16 ->
  ParseEventLog (encodeLog l) = Some (Ok (mkLog (logAlgs (logAlgSizes l)) (rawsOf 1 (logEvents l)))).
Proof.
  intros Hok Hl. rewrite ParseEventLog_header by (done || lia). destruct Hok as (_ & _ & _ & Ha & _ & _ & He). by rewrite eventLoop_ok.
Qed.

(** The older format: events with a SHA-1 digest, the first of which is not a header. *)
Definition sha1Spec : Type := Z * Z * bytes * bytes.
Definition encodeSha1 (x : sha1Spec) : bytes := let '(i, t, dig, d) := x in encodeEvent1 i t dig d.
Definition sha1Ok (x : sha1Spec) : Prop :=
  let '(i, t, dig, d) := x in 0 <= i < width 4 /\ 0 <= t < width 4 /\ length dig = 20%nat /\ dataOk d.
Fixpoint sha1Raws (seq : Z) (xs : list sha1Spec) : list rawEvent :=
  match xs with
  | [] => []
  | (i, t, dig, d) :: xs => mkRaw seq i t d [mkDigest SHA1 dig] :: sha1Raws (seq + 1) xs
  end.

Lemma sha1Loop_ok xs seq fuel :
  Forall sha1Ok xs -> len (concat (encodeSha1 <$> xs)) < 2 ^ 32 -> (length (concat (encodeSha1 <$> xs)) <= fuel)%nat ->
  eventLoop fuel (fun r => Some (parseRawEvent r)) seq (concat (encodeSha1 <$> xs)) = Some (Ok (sha1Raws seq xs)).
Proof.
  intros Hx. revert seq fuel. induction Hx as [|[[[i t] dig] d] xs (Hi & Ht & Hdig & Hd) _ IH]; intros seq fuel Hl Hf; [by destruct fuel|].
  cbn [fmap list_fmap concat encodeSha1] in *. destruct (encodeEvent1 i t dig d) as [|b bs] eqn:Ee; [unfold encodeEvent1 in Ee; by destruct i|].
  rewrite length_app in Hf. destruct fuel as [|fuel]; [cbn in Hf; lia|]. cbn [app eventLoop].
  rewrite len_app in Hl. pose proof (len_nonneg (b :: bs)). pose proof (len_nonneg (concat (encodeSha1 <$> xs))).
  assert (parseRawEvent (b :: bs ++ concat (encodeSha1 <$> xs)) = Ok (mkRaw 0 i t d [mkDigest SHA1 dig], concat (encodeSha1 <$> xs))) as ->.
  { change (b :: bs ++ concat (encodeSha1 <$> xs)) with ((b :: bs) ++ concat (encodeSha1 <$> xs)). rewrite <- Ee.
    apply parseRawEvent_ok; [done..|]. rewrite <- Ee in Hl. unfold encodeEvent1, encodeData in Hl. rewrite !len_app in *.
    pose proof (len_nonneg (le 4 i)). pose proof (len_nonneg (le 4 t)). pose proof (len_nonneg dig). pose proof (len_nonneg (le 4 (len d))). lia. }
  cbn [mbind option_bind]. rewrite IH; [done|lia|cbn in Hf; lia].
Qed.

Lemma ParseEventLog_sha1 i t dig d xs :
  sha1Ok (i, t, dig, d) -> t <> eventTypeNoAction -> Forall sha1Ok xs -> len (encodeSha1 (i, t, dig, d) ++ concat (encodeSha1 <$> xs)) < 2 ^ 32 ->
  ParseEventLog (encodeSha1 (i, t, dig, d) ++ concat (encodeSha1 <$> xs)) =
    Some (Ok (mkLog [HashSHA1] (mkRaw 0 i t d [mkDigest SHA1 dig] :: sha1Raws 1 xs))).
Proof.
  intros (Hi & Ht & Hdig & Hd) Hna Hxs Hl. unfold ParseEventLog. cbn [encodeSha1] in *.
  rewrite len_app in Hl. pose proof (len_nonneg (concat (encodeSha1 <$> xs))).
  assert (len d <= len (encodeEvent1 i t dig d)).
  { unfold encodeEvent1, encodeData. rewrite !len_app. pose proof (len_nonneg (le 4 i)). pose proof (len_nonneg (le 4 t)).
    pose proof (len_nonneg dig). pose proof (len_nonneg (le 4 (len d))). lia. }
  rewrite parseRawEvent_ok; [|done..|rewrite len_app; lia]. cbn [typ]. destruct (Z.eqb_spec t eventTypeNoAction); [done|].
  pose proof (len_nonneg (encodeEvent1 i t dig d)). rewrite sha1Loop_ok; [done|done|lia|done].
Qed.

(** ** Long logs *)

(** The number of the remaining bytes is truncated to 16 bits before it is compared with the size of a digest: a
    log whose last event has 65500 to 65531 bytes of data is refused. *)
Lemma long_event_refused i t d dat :
  0 <= i < width 4 -> 0 <= t < width 4 -> length d = 32%nat -> 65500 <= len dat < 65532 ->
  let l := mkLogSpec 0 (zeros 20) 0 0 2 [mkAlg HashSHA256 32] [] [mkSpec i t [(HashSHA256, d)] dat] in
  logOk l /\ ParseEventLog (encodeLog l) = Some (Err ErrReadingDigest).
Proof.
  intros Hi Ht Hd Hdat l. assert (logOk l) as Hok.
  { unfold l. repeat split; cbn; try done; try lia.
    - apply Forall_singleton. done.
    - apply NoDup_singleton.
    - apply Forall_singleton. split_and!; cbn; try done; try lia; [unfold dataOk; change (width 4) with (2 ^ 32); lia|].
      apply Forall_singleton. exists (mkAlg HashSHA256 32). cbn. split_and!; [by left|done|]. unfold len. by rewrite Hd. }
  split; [done|]. assert (len (concat (encodeEvent2 <$> logEvents l)) = 18 + len d + len dat) as Hlen.
  { unfold l. cbn [logEvents fmap list_fmap concat]. rewrite app_nil_r. unfold encodeEvent2. cbn [specIndex specType specDigests specData fmap list_fmap concat].
    rewrite app_nil_r. unfold encodeDigest, encodeData. rewrite !len_app. unfold len. rewrite !le_length. cbn. lia. }
  assert (len d = 32) as Hld by (unfold len; by rewrite Hd).
  rewrite ParseEventLog_header by (done || lia). unfold l. cbn [logEvents logAlgSizes fmap list_fmap concat]. rewrite app_nil_r.
  unfold encodeEvent2. cbn [specIndex specType specDigests specData fmap list_fmap concat]. rewrite app_nil_r.
  change (len [(HashSHA256, d)]) with 1. unfold encodeDigest. cbn [fst snd].
  set (rest := d ++ encodeData dat). assert (len rest = 36 + len dat) as Hrest by (unfold rest, encodeData; rewrite !len_app; unfold len; rewrite !le_length; lia).
  replace (le 4 i ++ le 4 t ++ le 4 1 ++ (le 2 HashSHA256 ++ d) ++ encodeData dat) with ((le 4 i ++ le 4 t) ++ le 4 1 ++ le 2 HashSHA256 ++ rest)
    by (unfold rest; by rewrite <- !app_assoc).
  assert (parseRawEvent2 [mkAlg HashSHA256 32] ((le 4 i ++ le 4 t) ++ le 4 1 ++ le 2 HashSHA256 ++ rest) = Some (Err ErrReadingDigest)) as Hp.
  { unfold parseRawEvent2. rewrite readFull_ok by done. cbn [mbind result_bind]. rewrite readLE_ok by done. cbn [mbind result_bind].
    cbn [digestLoop]. change (1 <=? 0) with false. cbn iota. unfold readDigest. rewrite readLE_ok by done. cbn [mbind result_bind matchAlgs ID Size].
    rewrite Z.eqb_refl. cbn [negb]. rewrite Hrest. replace ((36 + len dat) mod 2 ^ 16) with (len dat - 65500) by (symmetry; rewrite <- (Z_mod_plus_full _ (-1)); rewrite Z.mod_small; lia).
    by destruct (Z.ltb_spec (len dat - 65500) 32); [|lia]. }
  destruct (length ((le 4 i ++ le 4 t) ++ le 4 1 ++ le 2 HashSHA256 ++ rest)) as [|fuel] eqn:Ef; [done|].
  change ((le 4 i ++ le 4 t) ++ le 4 1 ++ le 2 HashSHA256 ++ rest) with (i mod 256 :: (skipn 1 (le 4 i) ++ le 4 t) ++ le 4 1 ++ le 2 HashSHA256 ++ rest) in *.
  cbn [eventLoop]. rewrite Hp. done.
Qed.

End EventlogCodec.
