(* ===== verification/Secureboot.v ===== *)
(** * Secure boot state of an event log

    Models [osbase/tpm/eventlog/secureboot.go] and [osbase/tpm/eventlog/internal/events.go]: the state of
    secure boot as the events of PCR 7 describe it, the parsers of UEFI variables, of signature lists
    and of authority events.

    [None] is a panic, or a loop that did not end within its fuel, which the length of the input
    bounds.  A string of Go that comes from UTF-16 is the list of its runes.  The parser of
    certificates is a parameter. *)

From stdpp Require Import gmap.
From S2P Require Import Prelude Bytes Sha256 Eventlog.
From Stdlib Require Import ZArith.

Module Secureboot.
Import Bytes Sha256 Sha1 Eventlog.
Open Scope Z_scope.

(** ** Event types *)

Definition Separator : Z := 0x4.
Definition EFIVariableDriverConfig : Z := 0x80000001.
Definition EFIAction : Z := 0x80000007.
Definition EFIVariableAuthority : Z := 0x800000e0.

(** The keys of [eventTypeNames]. *)
Definition eventTypeNames : list Z :=
  [0x0; 0x1; 0x2; 0x3; Separator; 0x5; 0x6; 0x7; 0x8; 0x9; 0xA; 0xB; 0xC; 0xD; 0xE; 0xF; 0x10; 0x11; 0x12;
   0x80000000; EFIVariableDriverConfig; 0x80000002; 0x80000003; 0x80000004; 0x80000005; 0x80000006; EFIAction;
   0x80000008; EFIVariableAuthority; 0x80000009; 0x80000010].

Inductive typeError := ErrTypeRange (et : Z) | ErrTypeUnknown (et : Z).

Definition UntrustedParseEventType (et : Z) : result typeError Z :=
  guard! negb (((et <? 0x80000000) || (0x800000FF <? et)) && (0x12 <? et)) else ErrTypeRange et in
  guard! bool_decide (et ∈ eventTypeNames) else ErrTypeUnknown et in
  Ok et.

(** ** GUIDs *)

Record efiGUID := mkGUID { Data1 : Z; Data2 : Z; Data3 : Z; Data4 : bytes }.
#[export] Instance efiGUID_eq_dec : EqDecision efiGUID.
Proof. solve_decision. Defined.

Definition hashSHA256SigGUID : efiGUID := mkGUID 0xc1c41626 0x504c 0x4092 [0xac; 0xa9; 0x41; 0xf9; 0x36; 0x93; 0x43; 0x28].
Definition hashSHA1SigGUID : efiGUID := mkGUID 0x826ca512 0xcf10 0x4ac9 [0xb1; 0x87; 0xbe; 0x01; 0x49; 0x66; 0x31; 0xbd].
Definition hashSHA224SigGUID : efiGUID := mkGUID 0x0b6e5233 0xa65c 0x44c9 [0x94; 0x07; 0xd9; 0xab; 0x83; 0xbf; 0xc8; 0xbd].
Definition hashSHA384SigGUID : efiGUID := mkGUID 0xff3e5307 0x9fd0 0x48c9 [0x85; 0xf1; 0x8a; 0xd5; 0x6c; 0x70; 0x1e; 0x01].
Definition hashSHA512SigGUID : efiGUID := mkGUID 0x093e0fae 0xa6c4 0x4f50 [0x9f; 0x1b; 0xd4; 0x1e; 0x2b; 0x89; 0xc1; 0x9a].
Definition keyRSA2048SigGUID : efiGUID := mkGUID 0x3c5766e8 0x269c 0x4e34 [0xaa; 0x14; 0xed; 0x77; 0x6e; 0x85; 0xb3; 0xb6].
Definition certRSA2048SHA256SigGUID : efiGUID := mkGUID 0xe2b36190 0x879b 0x4a3d [0xad; 0x8d; 0xf2; 0xe7; 0xbb; 0xa3; 0x27; 0x84].
Definition certRSA2048SHA1SigGUID : efiGUID := mkGUID 0x67f8444f 0x8743 0x48f1 [0xa3; 0x28; 0x1e; 0xaa; 0xb8; 0x73; 0x60; 0x80].
Definition certX509SigGUID : efiGUID := mkGUID 0xa5c059a1 0x94e4 0x4aa7 [0x87; 0xb5; 0xab; 0x15; 0x5c; 0x2b; 0xf0; 0x72].
Definition certHashSHA256SigGUID : efiGUID := mkGUID 0x3bd2a492 0x96c0 0x4079 [0xb4; 0x20; 0xfc; 0xf9; 0x8e; 0xf1; 0x03; 0xed].
Definition certHashSHA384SigGUID : efiGUID := mkGUID 0x7076876e 0x80c2 0x4ee6 [0xaa; 0xd2; 0x28; 0xb3; 0x49; 0xa6; 0x86; 0x5b].
Definition certHashSHA512SigGUID : efiGUID := mkGUID 0x446dbf63 0x2502 0x4cda [0xbc; 0xfa; 0x24; 0x65; 0xd2; 0xb0; 0xfe; 0x9d].

Definition unhandledTypes : list (efiGUID * string) :=
  [(keyRSA2048SigGUID, "unhandled RSA2048 key"%string);
   (certRSA2048SHA256SigGUID, "unhandled RSA2048-SHA256 key"%string);
   (hashSHA1SigGUID, "unhandled SHA1 hash"%string);
   (certRSA2048SHA1SigGUID, "unhandled RSA2048-SHA1 key"%string);
   (hashSHA224SigGUID, "unhandled SHA224 hash"%string);
   (hashSHA384SigGUID, "unhandled SHA384 hash"%string);
   (hashSHA512SigGUID, "unhandled SHA512 hash"%string);
   (certHashSHA256SigGUID, "unhandled X509-SHA256 hash metadata"%string);
   (certHashSHA384SigGUID, "unhandled X509-SHA384 hash metadata"%string);
   (certHashSHA512SigGUID, "unhandled X509-SHA512 hash metadata"%string)].

Definition getGUID (l : bytes) : efiGUID * bytes :=
  let '(d1, l) := getLE 4 l in
  let '(d2, l) := getLE 2 l in
  let '(d3, l) := getLE 2 l in
  let '(d4, l) := getBytes 8 l in
  (mkGUID d1 d2 d3 d4, l).

(** ** Variables *)

Definition maxNameLen : Z := 2048.
Definition maxDataLen : Z := 1024 * 1024.

(** An error of the parser of certificates: [asn1.StructuralError], or any other. *)
Inductive certError := StructuralError (msg : string) | OtherError (msg : string).

Inductive dataError :=
| ErrRead (e : parseError)
| ErrNameTooLong (n : Z)
| ErrDataTooLong (n : Z)
| ErrSignatureHeader (n : Z)
| ErrSignatureList (n : Z)
| ErrUnhandled (what : string)
| ErrUnhandledType (g : efiGUID)
| ErrCert (e : certError)
| ErrInvalidSignature (n : Z)
| ErrSigMissingGUID.

(** A read of [n] bytes, with the error of [io.ReadFull]. *)
Definition readData (n : Z) (r : bytes) : result dataError (bytes * bytes) :=
  if len r <? n then Err (ErrRead (if len r =? 0 then EOF else ErrUnexpectedEOF))
  else Ok (take (Z.to_nat n) r, drop (Z.to_nat n) r).

Record UEFIVariableDataHeader := mkHeader { VariableName : efiGUID; UnicodeNameLength : Z; VariableDataLength : Z }.
Record UEFIVariableData := mkVariable { Header : UEFIVariableDataHeader; UnicodeName : list Z; VariableData : bytes }.

Fixpoint readName (n : nat) (r : bytes) : result dataError (list Z * bytes) :=
  match n with
  | O => Ok ([], r)
  | S n => '(b, r) ← readData 2 r; '(us, r) ← readName n r; Ok (unle b :: us, r)
  end.

Definition ParseUEFIVariableData (r : bytes) : result dataError UEFIVariableData :=
  '(h, r) ← readData 32 r;
  let '(name, h) := getGUID h in
  let '(nameLength, h) := getLE 8 h in
  let '(dataLength, _) := getLE 8 h in
  guard! negb (maxNameLen <? nameLength) else ErrNameTooLong nameLength in
  '(us, r) ← readName (Z.to_nat nameLength) r;
  guard! negb (maxDataLen <? dataLength) else ErrDataTooLong dataLength in
  '(d, _) ← readData dataLength r;
  Ok (mkVariable (mkHeader name nameLength dataLength) us d).

Definition VarName (v : UEFIVariableData) : list Z := utf16Decode (UnicodeName v).

(** ** Signatures *)

Record efiSignatureListHeader := mkListHeader { SignatureType : efiGUID; SignatureListSize : Z; SignatureHeaderSize : Z; SignatureSize : Z }.

Definition readListHeader (buf : bytes) : result dataError (efiSignatureListHeader * bytes) :=
  '(h, buf) ← readData 28 buf;
  let '(t, h) := getGUID h in
  let '(listSize, h) := getLE 4 h in
  let '(headerSize, h) := getLE 4 h in
  let '(size, _) := getLE 4 h in
  Ok (mkListHeader t listSize headerSize size, buf).

(** The loop over the signatures of a list, the same for certificates and for hashes up to what is done with the
    data of each.  The differences are of unsigned 32-bit numbers. *)
Fixpoint signatureLoop {A} (item : bytes -> result dataError A) (fuel : nat) (sigOffset : Z) (h : efiSignatureListHeader) (buf : bytes) :
    option (result dataError (list A * bytes)) :=
  if negb (u32 sigOffset <? u32 (SignatureListSize h - 28)) then Some (Ok ([], buf))
  else match fuel with
  | O => None
  | S fuel =>
      match '(_, buf) ← readData 16 buf; '(d, buf) ← readData (u32 (SignatureSize h - 16)) buf; a ← item d; Ok (a, buf) with
      | Err e => Some (Err e)
      | Ok (a, buf) =>
          x ← signatureLoop item fuel (sigOffset + SignatureSize h) h buf;
          Some ('(l, buf) ← x; Ok (a :: l, buf))
      end
  end.

Section certificates.
Context {Certificate : Type} (ParseCertificate : bytes -> result certError Certificate).

Definition certItem (d : bytes) : result dataError Certificate :=
  match ParseCertificate d with Ok c => Ok c | Err e => Err (ErrCert e) end.
Definition hashItem (d : bytes) : result dataError bytes := Ok d.

Fixpoint listLoop (fuel : nat) (certificates : list Certificate) (hashes : list bytes) (buf : bytes) :
    option (result dataError (list Certificate * list bytes)) :=
  match buf with
  | [] => Some (Ok (certificates, hashes))
  | _ =>
      match fuel with
      | O => None
      | S fuel =>
          match readListHeader buf with
          | Err e => Some (Err e)
          | Ok (h, buf) =>
              if maxDataLen <? SignatureHeaderSize h then Some (Err (ErrSignatureHeader (SignatureHeaderSize h)))
              else if maxDataLen <? SignatureListSize h then Some (Err (ErrSignatureList (SignatureListSize h)))
              else if bool_decide (SignatureType h = certX509SigGUID) then
                x ← signatureLoop certItem (S (length buf)) 0 h buf;
                match x with Err e => Some (Err e) | Ok (cs, buf) => listLoop fuel (certificates ++ cs) hashes buf end
              else if bool_decide (SignatureType h = hashSHA256SigGUID) then
                x ← signatureLoop hashItem (S (length buf)) 0 h buf;
                match x with Err e => Some (Err e) | Ok (hs, buf) => listLoop fuel certificates (hashes ++ hs) buf end
              else Some (Err (match find (fun x => bool_decide (x.1 = SignatureType h)) unhandledTypes with
                              | Some (_, what) => ErrUnhandled what
                              | None => ErrUnhandledType (SignatureType h)
                              end))
          end
      end
  end.

Definition parseEfiSignatureList (b : bytes) : option (result dataError (list Certificate * list bytes)) :=
  if len b <? 28 then Some (Ok ([], [])) else listLoop (length b) [] [] b.

Definition SignatureData (v : UEFIVariableData) : option (result dataError (list Certificate * list bytes)) :=
  parseEfiSignatureList (VariableData v).

(** The certificates are returned with [ErrSigMissingGUID] too. *)
Definition parseEfiSignature (b : bytes) : list Certificate * option dataError :=
  if len b <? 16 then ([], Some (ErrInvalidSignature (len b)))
  else match ParseCertificate (drop 16 b) with
       | Ok c => ([c], None)
       | Err (StructuralError m) =>
           match ParseCertificate b with
           | Ok c => ([c], Some ErrSigMissingGUID)
           | Err _ => ([], Some (ErrCert (StructuralError m)))
           end
       | Err e => ([], Some (ErrCert e))
       end.

Definition ParseUEFIVariableAuthority (r : bytes) : list Certificate * option dataError :=
  match ParseUEFIVariableData r with
  | Err e => ([], Some e)
  | Ok v => parseEfiSignature (VariableData v)
  end.

(** ** The state *)

Record SecurebootState := mkState {
  Enabled : bool;
  PlatformKeys : list Certificate; PlatformKeyHashes : list bytes;
  ExchangeKeys : list Certificate; ExchangeKeyHashes : list bytes;
  PermittedKeys : list Certificate; PermittedHashes : list bytes;
  ForbiddenKeys : list Certificate; ForbiddenHashes : list bytes;
  PreSeparatorAuthority : list Certificate; PostSeparatorAuthority : list Certificate
}.

Inductive stateError :=
| ErrEventType (e : typeError)
| ErrDuplicateSeparator (seq : Z)
| ErrSeparatorData (seq : Z) (d : bytes)
| ErrSeparatorDigest (seq : Z) (e : digestError)
| ErrDebugger
| ErrUnexpectedAction (seq : Z)
| ErrVariable (seq : Z) (e : dataError)
| ErrDuplicateVariable (name : list Z) (seq : Z)
| ErrAfterSeparator (seq : Z) (name : list Z)
| ErrVariableDigest (name : list Z) (seq : Z) (e : digestError)
| ErrSecureBootLength (seq : Z) (n : Z)
| ErrKeys (seq : Z) (what : string) (e : dataError)
| ErrAuthority (seq : Z) (e : dataError)
| ErrAuthorityDigest (seq : Z) (e : digestError)
| ErrUnexpectedType (et : Z)
| ErrNoAuthority
| ErrNoPlatformKeys
| ErrNoExchangeKeys
| ErrNoPermitted.

(** The variables of [ParseSecurebootState]. *)
Record scan := mkScan { out : SecurebootState; seenSeparator : bool; seenAuthority : bool; seenVars : gset (list Z) }.

Definition initialScan : scan := mkScan (mkState false [] [] [] [] [] [] [] [] [] []) false false ∅.

Definition nameSecureBoot : list Z := ascii_bytes "SecureBoot".
Definition namePK : list Z := ascii_bytes "PK".
Definition nameKEK : list Z := ascii_bytes "KEK".
Definition nameDb : list Z := ascii_bytes "db".
Definition nameDbx : list Z := ascii_bytes "dbx".

Definition setEnabled (b : bool) (s : SecurebootState) : SecurebootState :=
  mkState b (PlatformKeys s) (PlatformKeyHashes s) (ExchangeKeys s) (ExchangeKeyHashes s) (PermittedKeys s) (PermittedHashes s)
    (ForbiddenKeys s) (ForbiddenHashes s) (PreSeparatorAuthority s) (PostSeparatorAuthority s).
Definition setPlatform (k : list Certificate * list bytes) (s : SecurebootState) : SecurebootState :=
  mkState (Enabled s) k.1 k.2 (ExchangeKeys s) (ExchangeKeyHashes s) (PermittedKeys s) (PermittedHashes s)
    (ForbiddenKeys s) (ForbiddenHashes s) (PreSeparatorAuthority s) (PostSeparatorAuthority s).
Definition setExchange (k : list Certificate * list bytes) (s : SecurebootState) : SecurebootState :=
  mkState (Enabled s) (PlatformKeys s) (PlatformKeyHashes s) k.1 k.2 (PermittedKeys s) (PermittedHashes s)
    (ForbiddenKeys s) (ForbiddenHashes s) (PreSeparatorAuthority s) (PostSeparatorAuthority s).
Definition setPermitted (k : list Certificate * list bytes) (s : SecurebootState) : SecurebootState :=
  mkState (Enabled s) (PlatformKeys s) (PlatformKeyHashes s) (ExchangeKeys s) (ExchangeKeyHashes s) k.1 k.2
    (ForbiddenKeys s) (ForbiddenHashes s) (PreSeparatorAuthority s) (PostSeparatorAuthority s).
Definition setForbidden (k : list Certificate * list bytes) (s : SecurebootState) : SecurebootState :=
  mkState (Enabled s) (PlatformKeys s) (PlatformKeyHashes s) (ExchangeKeys s) (ExchangeKeyHashes s) (PermittedKeys s) (PermittedHashes s)
    k.1 k.2 (PreSeparatorAuthority s) (PostSeparatorAuthority s).
Definition addAuthority (separator : bool) (cs : list Certificate) (s : SecurebootState) : SecurebootState :=
  mkState (Enabled s) (PlatformKeys s) (PlatformKeyHashes s) (ExchangeKeys s) (ExchangeKeyHashes s) (PermittedKeys s) (PermittedHashes s)
    (ForbiddenKeys s) (ForbiddenHashes s)
    (if separator then PreSeparatorAuthority s else PreSeparatorAuthority s ++ cs)
    (if separator then PostSeparatorAuthority s ++ cs else PostSeparatorAuthority s).

Definition separatorEvent (st : scan) (e : Event) : result stateError scan :=
  guard! negb (seenSeparator st) else ErrDuplicateSeparator (eventSequence e) in
  guard! bool_decide (Data e = [0; 0; 0; 0]) else ErrSeparatorData (eventSequence e) (Data e) in
  match digestEquals e (Data e) with
  | Some er => Err (ErrSeparatorDigest (eventSequence e) er)
  | None => Ok (mkScan (out st) true (seenAuthority st) (seenVars st))
  end.

(** The effect of a variable on the state. *)
Definition setKeys (set : list Certificate * list bytes -> SecurebootState -> SecurebootState) (what : string) (seq : Z)
    (v : UEFIVariableData) (s : SecurebootState) : option (result stateError SecurebootState) :=
  x ← SignatureData v;
  Some (match x with Err er => Err (ErrKeys seq what er) | Ok k => Ok (set k s) end).
Definition setVariable (seq : Z) (v : UEFIVariableData) (s : SecurebootState) : option (result stateError SecurebootState) :=
  if bool_decide (VarName v = nameSecureBoot) then
    match VariableData v with
    | [x] => Some (Ok (setEnabled (x =? 1) s))
    | d => Some (Err (ErrSecureBootLength seq (len d)))
    end
  else if bool_decide (VarName v = namePK) then setKeys setPlatform "platform keys" seq v s
  else if bool_decide (VarName v = nameKEK) then setKeys setExchange "key exchange keys" seq v s
  else if bool_decide (VarName v = nameDb) then setKeys setPermitted "signature database" seq v s
  else if bool_decide (VarName v = nameDbx) then setKeys setForbidden "forbidden signature database" seq v s
  else Some (Ok s).

Definition variableEvent (st : scan) (e : Event) : option (result stateError scan) :=
  match ParseUEFIVariableData (Data e) with
  | Err er => Some (Err (ErrVariable (eventSequence e) er))
  | Ok v =>
      if bool_decide (VarName v ∈ seenVars st) then Some (Err (ErrDuplicateVariable (VarName v) (eventSequence e)))
      else if seenSeparator st then Some (Err (ErrAfterSeparator (eventSequence e) (VarName v)))
      else match digestEquals e (Data e) with
      | Some er => Some (Err (ErrVariableDigest (VarName v) (eventSequence e) er))
      | None =>
          x ← setVariable (eventSequence e) v (out st);
          Some (match x with
                | Err er => Err er
                | Ok s => Ok (mkScan s (seenSeparator st) (seenAuthority st) ({[VarName v]} ∪ seenVars st))
                end)
      end
  end.

(** Without the owner of the signature, the digest may be that of the data without its last byte. *)
Definition authorityEvent (st : scan) (e : Event) : option (result stateError scan) :=
  let '(certs, err) := ParseUEFIVariableAuthority (Data e) in
  let verify := digestEquals e (Data e) in
  x ← match err with
      | None => Some (Ok verify)
      | Some ErrSigMissingGUID =>
          match verify with
          | None => Some (Ok None)
          | Some _ => match Data e with [] => None | _ => Some (Ok (digestEquals e (removelast (Data e)))) end
          end
      | Some er => Some (Err (ErrAuthority (eventSequence e) er))
      end;
  Some (match x with
        | Err er => Err er
        | Ok (Some er) => Err (ErrAuthorityDigest (eventSequence e) er)
        | Ok None => Ok (mkScan (addAuthority (seenSeparator st) certs (out st)) (seenSeparator st) true (seenVars st))
        end).

Definition eventStep (st : scan) (e : Event) : option (result stateError scan) :=
  if negb (Index e =? 7) then Some (Ok st)
  else match UntrustedParseEventType (Type_ e) with
  | Err er => Some (Err (ErrEventType er))
  | Ok et =>
      if et =? Separator then Some (separatorEvent st e)
      else if et =? EFIAction then
        Some (Err (if bool_decide (Data e = ascii_bytes "UEFI Debug Mode") then ErrDebugger else ErrUnexpectedAction (eventSequence e)))
      else if et =? EFIVariableDriverConfig then variableEvent st e
      else if et =? EFIVariableAuthority then authorityEvent st e
      else Some (Err (ErrUnexpectedType et))
  end.

Fixpoint eventsLoop (st : scan) (events : list Event) : option (result stateError scan) :=
  match events with
  | [] => Some (Ok st)
  | e :: events =>
      x ← eventStep st e;
      match x with
      | Err er => Some (Err er)
      | Ok st => eventsLoop st events
      end
  end.

Definition isNil {A} (l : list A) : bool := match l with [] => true | _ => false end.

Definition ParseSecurebootState (events : list Event) : option (result stateError SecurebootState) :=
  x ← eventsLoop initialScan events;
  Some (match x with
  | Err er => Err er
  | Ok st =>
      let s := out st in
      if negb (Enabled s) then Ok s
      else
        guard! seenAuthority st else ErrNoAuthority in
        guard! negb (isNil (PlatformKeys s) && isNil (PlatformKeyHashes s)) else ErrNoPlatformKeys in
        guard! negb (isNil (ExchangeKeys s) && isNil (ExchangeKeyHashes s)) else ErrNoExchangeKeys in
        guard! negb (isNil (PermittedKeys s) && isNil (PermittedHashes s)) else ErrNoPermitted in
        Ok s
  end).

End certificates.

Arguments SecurebootState : clear implicits.
Arguments scan : clear implicits.

End Secureboot.
