(* ===== verification/SecurebootProps.v ===== *)
(** * Secure boot state: what is accepted

    [ParseSecurebootState] ends without a panic on every list of events, and accepts exactly the
    lists in which every event of PCR 7 means something, in an order that firmware can have
    produced.  With the verification of logs: a log whose measurements say that secure boot is
    off cannot be replaced by one that is accepted with secure boot on; a log without the events of
    PCR 7 is accepted with secure boot off, whatever the value of PCR 7. *)

From stdpp Require Import gmap.
From S2P Require Import Prelude Bytes Sha256 Eventlog EventlogProps Secureboot.
From Stdlib Require Import ZArith.

Module SecurebootProps.
Import Bytes Sha256 Sha1 Eventlog EventlogProps EventlogCodec Secureboot.
Open Scope Z_scope.

(** ** Loops end *)

Lemma readData_inv n r d r' : readData n r = Ok (d, r') -> r = d ++ r' /\ length d = Z.to_nat n.
Proof.
  unfold readData. destruct (Z.ltb_spec (len r) n); [done|]. intros [= <- <-]. unfold len in *. rewrite take_drop, length_take. split; [done|lia].
Qed.

Lemma signatureLoop_total {A} (item : bytes -> result dataError A) fuel o h buf : (length buf < fuel)%nat -> signatureLoop item fuel o h buf <> None.
Proof.
  revert o buf. induction fuel as [|fuel IH]; intros o buf Hf; [lia|]. cbn [signatureLoop]. destruct (negb _); [done|].
  destruct (readData 16 buf) as [[d r]|] eqn:E1; cbn [mbind result_bind]; [|done]. apply readData_inv in E1 as [-> Hd].
  destruct (readData _ r) as [[d2 r2]|] eqn:E2; cbn [mbind result_bind]; [|done]. apply readData_inv in E2 as [-> _].
  destruct (item d2) as [a|]; cbn [mbind result_bind]; [|done]. rewrite !length_app in Hf. specialize (IH (o + SignatureSize h) r2).
  destruct (signatureLoop _ _ _ _ _); [done|]. exfalso. apply IH; [|done]. change (Z.to_nat 16) with 16%nat in Hd. lia.
Qed.

Lemma signatureLoop_shrinks {A} (item : bytes -> result dataError A) fuel o h buf l buf' :
  signatureLoop item fuel o h buf = Some (Ok (l, buf')) -> (length buf' <= length buf)%nat.
Proof.
  revert o buf l. induction fuel as [|fuel IH]; intros o buf l; cbn [signatureLoop]; (destruct (negb _); [by intros [= _ <-]|]); [done|].
  destruct (readData 16 buf) as [[d r]|] eqn:E1; cbn [mbind result_bind]; [|done]. apply readData_inv in E1 as [-> Hd].
  destruct (readData _ r) as [[d2 r2]|] eqn:E2; cbn [mbind result_bind]; [|done]. apply readData_inv in E2 as [-> _].
  destruct (item d2) as [a|]; cbn [mbind result_bind]; [|done]. destruct (signatureLoop _ _ _ _ r2) as [[[l2 b2]|]|] eqn:E; cbn; [|done..].
  intros [= _ <-]. apply IH in E. rewrite !length_app. lia.
Qed.

(** What follows a variable does not matter. *)
Lemma readData_app n r d r' x : readData n r = Ok (d, r') -> readData n (r ++ x) = Ok (d, r' ++ x).
Proof.
  unfold readData. destruct (Z.ltb_spec (len r) n) as [|H]; [done|]. intros [= <- <-]. rewrite len_app. pose proof (len_nonneg x).
  destruct (Z.ltb_spec (len r + len x) n); [lia|]. unfold len in *. by rewrite take_app_le, drop_app_le by lia.
Qed.

Lemma readName_app n r us r' x : readName n r = Ok (us, r') -> readName n (r ++ x) = Ok (us, r' ++ x).
Proof.
  revert r us. induction n as [|n IH]; intros r us; cbn [readName]; [by intros [= <- <-]|].
  destruct (readData 2 r) as [[b r1]|] eqn:E; [|done]. cbn [mbind result_bind]. rewrite (readData_app _ _ _ _ x E). cbn [mbind result_bind].
  destruct (readName n r1) as [[us1 r2]|] eqn:E2; [|done]. cbn. intros [= <- <-]. by rewrite (IH _ _ E2).
Qed.

Lemma ParseUEFIVariableData_app d v x : ParseUEFIVariableData d = Ok v -> ParseUEFIVariableData (d ++ x) = Ok v.
Proof.
  unfold ParseUEFIVariableData. destruct (readData 32 d) as [[h r]|] eqn:E; [|done]. rewrite (readData_app _ _ _ _ x E). cbn [mbind result_bind].
  destruct (getGUID h) as [g h1]. destruct (getLE 8 h1) as [nl h2]. destruct (getLE 8 h2) as [dl h3]. destruct (maxNameLen <? nl); [done|]. cbn [negb].
  destruct (readName _ r) as [[us r1]|] eqn:E1; [|done]. rewrite (readName_app _ _ _ _ x E1). cbn [mbind result_bind].
  destruct (maxDataLen <? dl); [done|]. cbn [negb]. destruct (readData dl r1) as [[dat r2]|] eqn:E2; [|done]. by rewrite (readData_app _ _ _ _ x E2).
Qed.

Section certificates.
Context {Certificate : Type} (ParseCertificate : bytes -> result certError Certificate).

Lemma listLoop_total fuel cs hs buf : (length buf <= fuel)%nat -> listLoop ParseCertificate fuel cs hs buf <> None.
Proof.
  revert cs hs buf. induction fuel as [|fuel IH]; intros cs hs buf Hf; (destruct buf as [|b bs]; [done|]); [cbn in Hf; lia|].
  cbn [listLoop]. destruct (readListHeader (b :: bs)) as [[h r]|] eqn:Eh; [|done].
  assert (length r < length (b :: bs))%nat as Hr.
  { unfold readListHeader in Eh. destruct (readData 28 (b :: bs)) as [[d r']|] eqn:E1; [|done]. cbn [mbind result_bind getGUID getLE getBytes] in Eh.
    injection Eh as _ <-. apply readData_inv in E1 as [-> Hd]. rewrite length_app, Hd. change (Z.to_nat 28) with 28%nat. lia. }
  destruct (maxDataLen <? _); [done|]. destruct (maxDataLen <? _); [done|].
  destruct (bool_decide _).
  { destruct (signatureLoop _ _ _ _ _) as [[[l r2]|]|] eqn:E; cbn [mbind option_bind]; [|done|apply signatureLoop_total in E; [done|lia]].
    apply signatureLoop_shrinks in E. apply IH. cbn in *. lia. }
  destruct (bool_decide _); [|done].
  destruct (signatureLoop _ _ _ _ _) as [[[l r2]|]|] eqn:E; cbn [mbind option_bind]; [|done|apply signatureLoop_total in E; [done|lia]].
  apply signatureLoop_shrinks in E. apply IH. cbn in *. lia.
Qed.

Lemma parseEfiSignatureList_total b : parseEfiSignatureList ParseCertificate b <> None.
Proof. unfold parseEfiSignatureList. destruct (_ <? 28); [done|]. by apply listLoop_total. Qed.

(** ** What events mean *)

(** An event of PCR 7 is the separator, a variable or the use of a key. *)
Inductive meaning :=
| IsSeparator
| IsVariable (name : list Z) (value : bytes)
| IsAuthority (certs : list Certificate).

Definition keyNames : list (list Z) := [namePK; nameKEK; nameDb; nameDbx].

(** The value of a variable is acceptable: one byte, or a signature list. *)
Definition valueOk (name : list Z) (value : bytes) : Prop :=
  (name = nameSecureBoot -> length value = 1%nat) /\
  (name ∈ keyNames -> exists k, parseEfiSignatureList ParseCertificate value = Some (Ok k)).

Inductive means (e : Event) : meaning -> Prop :=
| means_separator : Type_ e = Separator -> Data e = [0; 0; 0; 0] -> digestEquals e (Data e) = None -> means e IsSeparator
| means_variable v : Type_ e = EFIVariableDriverConfig -> ParseUEFIVariableData (Data e) = Ok v -> digestEquals e (Data e) = None ->
    valueOk (VarName v) (VariableData v) -> means e (IsVariable (VarName v) (VariableData v))
| means_authority certs : Type_ e = EFIVariableAuthority -> ParseUEFIVariableAuthority ParseCertificate (Data e) = (certs, None) ->
    digestEquals e (Data e) = None -> means e (IsAuthority certs)
| means_ownerless certs : Type_ e = EFIVariableAuthority -> ParseUEFIVariableAuthority ParseCertificate (Data e) = (certs, Some ErrSigMissingGUID) ->
    digestEquals e (Data e) = None \/ digestEquals e (removelast (Data e)) = None -> means e (IsAuthority certs).

Definition typeOf (m : meaning) : Z :=
  match m with IsSeparator => Separator | IsVariable _ _ => EFIVariableDriverConfig | IsAuthority _ => EFIVariableAuthority end.
Lemma means_type e m : means e m -> Type_ e = typeOf m.
Proof. by destruct 1. Qed.

Definition namesOf (ms : list meaning) : list (list Z) := ms ≫= fun m => match m with IsVariable n _ => [n] | _ => [] end.
Definition authorities (ms : list meaning) : list Certificate := ms ≫= fun m => match m with IsAuthority cs => cs | _ => [] end.
Definition isAuthority (m : meaning) : bool := match m with IsAuthority _ => true | _ => false end.
Definition isSeparator (m : meaning) : bool := match m with IsSeparator => true | _ => false end.

(** No variable comes twice, and only uses of keys come after the separator. *)
Definition wellOrdered (ms : list meaning) : Prop :=
  NoDup (namesOf ms) /\ forall before after, ms = before ++ IsSeparator :: after -> Forall isAuthority after.

(** The value of a variable, and the keys in it. *)
Fixpoint valueOf (n : list Z) (ms : list meaning) : option bytes :=
  match ms with
  | [] => None
  | IsVariable n' v :: ms => if bool_decide (n' = n) then Some v else valueOf n ms
  | _ :: ms => valueOf n ms
  end.
Definition keysOf (n : list Z) (ms : list meaning) : list Certificate * list bytes :=
  match valueOf n ms with
  | Some v => match parseEfiSignatureList ParseCertificate v with Some (Ok k) => k | _ => ([], []) end
  | None => ([], [])
  end.

Fixpoint beforeSeparator (ms : list meaning) : list meaning :=
  match ms with
  | [] => []
  | IsSeparator :: _ => []
  | m :: ms => m :: beforeSeparator ms
  end.
Fixpoint afterSeparator (ms : list meaning) : list meaning :=
  match ms with
  | [] => []
  | IsSeparator :: ms => ms
  | _ :: ms => afterSeparator ms
  end.

(** The state that the events describe. *)
Definition stateOf (ms : list meaning) : SecurebootState Certificate :=
  mkState (bool_decide (valueOf nameSecureBoot ms = Some [1]))
    (keysOf namePK ms).1 (keysOf namePK ms).2 (keysOf nameKEK ms).1 (keysOf nameKEK ms).2
    (keysOf nameDb ms).1 (keysOf nameDb ms).2 (keysOf nameDbx ms).1 (keysOf nameDbx ms).2
    (authorities (beforeSeparator ms)) (authorities (afterSeparator ms)).

(** With secure boot there are keys of all kinds, and one was used. *)
Definition complete (ms : list meaning) : Prop :=
  existsb isAuthority ms = true /\ keysOf namePK ms <> ([], []) /\ keysOf nameKEK ms <> ([], []) /\ keysOf nameDb ms <> ([], []).

Definition scanOf (ms : list meaning) : scan Certificate :=
  mkScan (stateOf ms) (existsb isSeparator ms) (existsb isAuthority ms) (list_to_set (namesOf ms)).

(** *** One more event *)

Lemma valueOf_snoc n ms m : valueOf n (ms ++ [m]) =
  match valueOf n ms with Some v => Some v | None => match m with IsVariable n' v => if bool_decide (n' = n) then Some v else None | _ => None end end.
Proof. induction ms as [|[|n' v|cs] ms IH]; cbn; [by destruct m|done| |done]. by destruct (bool_decide _). Qed.

Lemma valueOf_None n ms : valueOf n ms = None <-> n ∉ namesOf ms.
Proof.
  induction ms as [|[|n' v|cs] ms IH]; cbn; [set_solver|done| |done].
  destruct (bool_decide_reflect (n' = n)) as [->|]; [set_solver|]. rewrite IH. set_solver.
Qed.

Lemma keysOf_snoc n ms m : keysOf n (ms ++ [m]) =
  match valueOf n ms, m with
  | None, IsVariable n' v => if bool_decide (n' = n) then keysOf n [m] else keysOf n ms
  | _, _ => keysOf n ms
  end.
Proof.
  unfold keysOf. rewrite valueOf_snoc. destruct (valueOf n ms) as [v|]; [done|]. destruct m as [|n' v|cs]; [done| |done]. cbn. by destruct (bool_decide _).
Qed.

Lemma keysOf_same n ms : match valueOf n ms with None => keysOf n ms | Some _ => keysOf n ms end = keysOf n ms.
Proof. by destruct (valueOf n ms). Qed.

Lemma valueOf_same n ms : match valueOf n ms with Some v => Some v | None => None end = valueOf n ms.
Proof. by destruct (valueOf n ms). Qed.

Lemma beforeSeparator_snoc ms m : authorities (beforeSeparator (ms ++ [m])) =
  authorities (beforeSeparator ms) ++ (if existsb isSeparator ms then [] else match m with IsAuthority cs => cs | _ => [] end).
Proof.
  induction ms as [|[|n' v|cs] ms IH]; cbn; [destruct m; cbn; by rewrite ?app_nil_r|done|done|]. unfold authorities in IH. by rewrite IH, app_assoc.
Qed.

Lemma afterSeparator_snoc ms m : authorities (afterSeparator (ms ++ [m])) =
  authorities (afterSeparator ms) ++ (if existsb isSeparator ms then match m with IsAuthority cs => cs | _ => [] end else []).
Proof.
  induction ms as [|[|n' v|cs] ms IH]; cbn; [by destruct m| |done|done]. unfold authorities. rewrite bind_app. cbn. by rewrite app_nil_r.
Qed.

Lemma namesOf_snoc ms m : namesOf (ms ++ [m]) = namesOf ms ++ match m with IsVariable n _ => [n] | _ => [] end.
Proof. unfold namesOf. rewrite bind_app. cbn. by rewrite app_nil_r. Qed.

Lemma existsb_snoc {A} (f : A -> bool) l x : existsb f (l ++ [x]) = existsb f l || f x.
Proof. rewrite existsb_app. cbn. by rewrite orb_false_r. Qed.

Lemma isSeparator_elem ms : existsb isSeparator ms = true <-> IsSeparator ∈ ms.
Proof.
  rewrite existsb_exists. split.
  - intros ([| |] & Hin & ?); [|done..]. by apply list_elem_of_In.
  - intros H. exists IsSeparator. split; [by apply list_elem_of_In|done].
Qed.

Lemma wellOrdered_snoc ms m :
  wellOrdered (ms ++ [m]) <-> wellOrdered ms /\ (existsb isSeparator ms = true -> isAuthority m = true) /\
    (forall n v, m = IsVariable n v -> n ∉ namesOf ms).
Proof.
  unfold wellOrdered. rewrite namesOf_snoc, NoDup_app. split.
  - intros [(Hnd & Hdis & _) Hs]. split_and!; [done|..].
    + intros before after ->. specialize (Hs before (after ++ [m])). rewrite <- app_assoc in Hs. by apply Forall_app in Hs as [Hs _].
    + intros (before & after & ->)%isSeparator_elem%list_elem_of_split. specialize (Hs before (after ++ [m])). rewrite <- app_assoc in Hs.
      apply Forall_app in Hs as [_ Hs]; [|done]. apply Forall_inv in Hs. by destruct m.
    + intros n v -> Hn. apply (Hdis n Hn). by left.
  - intros [[Hnd Hs] [Ha Hn]]. split.
    + split_and!; [done| |destruct m; [constructor|apply NoDup_singleton|constructor]].
      intros n Hin. destruct m as [|n' v|]; [set_solver| |set_solver]. intros ->%list_elem_of_singleton. by apply (Hn n' v).
    + intros before after E. destruct after as [|x after _] using rev_ind; [constructor|].
      rewrite app_comm_cons, app_assoc in E. apply app_inj_tail in E as [-> ->]. apply Forall_app. split; [by eapply Hs|].
      apply Forall_singleton. rewrite Ha; [done|]. rewrite isSeparator_elem. set_solver.
Qed.

(** *** Steps *)

Lemma scanOf_snoc ms m : (forall n v, m = IsVariable n v -> n ∉ namesOf ms) ->
  scanOf (ms ++ [m]) =
  match m with
  | IsSeparator => mkScan (stateOf ms) true (existsb isAuthority ms) (list_to_set (namesOf ms))
  | IsVariable n v => mkScan (stateOf (ms ++ [m])) (existsb isSeparator ms) (existsb isAuthority ms) ({[n]} ∪ list_to_set (namesOf ms))
  | IsAuthority cs => mkScan (addAuthority (existsb isSeparator ms) cs (stateOf ms)) (existsb isSeparator ms) true (list_to_set (namesOf ms))
  end.
Proof.
  intros Hn. unfold scanOf. rewrite !existsb_snoc, namesOf_snoc. destruct m as [|n v|cs]; cbn [isSeparator isAuthority]; rewrite ?orb_false_r, ?orb_true_r, ?app_nil_r.
  - f_equal. unfold stateOf. rewrite valueOf_snoc, !keysOf_snoc, beforeSeparator_snoc, afterSeparator_snoc.
    rewrite valueOf_same, !keysOf_same. by destruct (existsb isSeparator ms); rewrite !app_nil_r.
  - f_equal. rewrite list_to_set_app_L. cbn. set_solver.
  - f_equal. unfold stateOf, addAuthority. rewrite valueOf_snoc, !keysOf_snoc, beforeSeparator_snoc, afterSeparator_snoc. cbn.
    rewrite valueOf_same, !keysOf_same. by destruct (existsb isSeparator ms); rewrite ?app_nil_r.
Qed.

Lemma separatorEvent_spec ms e : Type_ e = Separator -> forall st,
  separatorEvent (scanOf ms) e = Ok st <-> means e IsSeparator /\ existsb isSeparator ms = false /\ st = scanOf (ms ++ [IsSeparator]).
Proof.
  intros Ht st. rewrite scanOf_snoc by done. unfold separatorEvent. cbn [seenSeparator scanOf out seenAuthority seenVars].
  destruct (existsb isSeparator ms); cbn [negb]; [naive_solver|]. destruct (bool_decide_reflect (Data e = [0; 0; 0; 0])) as [Hd|Hd].
  - destruct (digestEquals e (Data e)) eqn:Ed; [split; [done|intros [H _]; by inversion H; congruence]|].
    split; [intros [= <-]; split_and!; [by constructor|done..]|by intros (_ & _ & ->)].
  - split; [done|]. intros [H _]. by inversion H.
Qed.

Lemma keysOf_other n n' v ms : n' <> n ->
  match valueOf n ms with None => if bool_decide (n' = n) then keysOf n [IsVariable n' v] else keysOf n ms | Some _ => keysOf n ms end = keysOf n ms.
Proof. intros Hn. rewrite bool_decide_false by done. by destruct (valueOf n ms). Qed.

Lemma stateOf_variable ms n v : n ∉ namesOf ms ->
  stateOf (ms ++ [IsVariable n v]) =
  if bool_decide (n = nameSecureBoot) then setEnabled (bool_decide (v = [1])) (stateOf ms)
  else if bool_decide (n = namePK) then setPlatform (keysOf n [IsVariable n v]) (stateOf ms)
  else if bool_decide (n = nameKEK) then setExchange (keysOf n [IsVariable n v]) (stateOf ms)
  else if bool_decide (n = nameDb) then setPermitted (keysOf n [IsVariable n v]) (stateOf ms)
  else if bool_decide (n = nameDbx) then setForbidden (keysOf n [IsVariable n v]) (stateOf ms)
  else stateOf ms.
Proof.
  intros Hn%valueOf_None. unfold stateOf. rewrite valueOf_snoc, !keysOf_snoc, beforeSeparator_snoc, afterSeparator_snoc.
  assert (forall l : list Certificate, l ++ (if existsb isSeparator ms then [] else []) = l) as Happ by (intros l; destruct (existsb _ _); apply app_nil_r).
  rewrite !Happ. destruct (bool_decide_reflect (n = nameSecureBoot)) as [->|H0].
  { rewrite Hn. rewrite !(keysOf_other _ nameSecureBoot) by done. unfold setEnabled. cbn. f_equal. apply bool_decide_ext. naive_solver. }
  rewrite valueOf_same.
  destruct (bool_decide_reflect (n = namePK)) as [->|H1]; [by rewrite Hn, !(keysOf_other _ namePK) by done|]. rewrite (keysOf_same namePK).
  destruct (bool_decide_reflect (n = nameKEK)) as [->|H2]; [by rewrite Hn, !(keysOf_other _ nameKEK) by done|]. rewrite (keysOf_same nameKEK).
  destruct (bool_decide_reflect (n = nameDb)) as [->|H3]; [by rewrite Hn, !(keysOf_other _ nameDb) by done|]. rewrite (keysOf_same nameDb).
  destruct (bool_decide_reflect (n = nameDbx)) as [->|H4]; [by rewrite Hn|]. by rewrite (keysOf_same nameDbx).
Qed.

Lemma setKeys_spec set what seq v st : VarName v ∈ keyNames -> VarName v <> nameSecureBoot -> exists r,
  setKeys ParseCertificate set what seq v st = Some r /\
  forall s, r = Ok s <-> valueOk (VarName v) (VariableData v) /\ s = set (keysOf (VarName v) [IsVariable (VarName v) (VariableData v)]) st.
Proof.
  intros Hk Hs. unfold setKeys, SignatureData. pose proof (parseEfiSignatureList_total (VariableData v)) as Ht. unfold keysOf. cbn [valueOf].
  rewrite bool_decide_true by done. destruct (parseEfiSignatureList _ _) as [x|] eqn:Ex; [|done]. eexists. split; [done|]. intros s. destruct x as [k|er].
  - split; [|by intros [_ ->]]. intros [= <-]. split; [|done]. split; [done|]. intros _. by exists k.
  - split; [done|]. intros [[_ H] _]. destruct (H Hk) as [k Hk']. congruence.
Qed.

Lemma setVariable_spec seq v ms : VarName v ∉ namesOf ms -> exists r,
  setVariable ParseCertificate seq v (stateOf ms) = Some r /\
  forall s, r = Ok s <-> valueOk (VarName v) (VariableData v) /\ s = stateOf (ms ++ [IsVariable (VarName v) (VariableData v)]).
Proof.
  intros Hn. rewrite stateOf_variable by done. unfold setVariable.
  destruct (bool_decide_reflect (VarName v = nameSecureBoot)) as [E|H0].
  { assert (VarName v ∉ keyNames) as Hk by (rewrite E; by vm_compute; set_solver).
    destruct (VariableData v) as [|x [|y d]] eqn:Ed; (eexists; split; [done|]); intros s.
    - split; [done|]. intros [[H _] _]. by specialize (H E).
    - assert (bool_decide ([x] = [1]) = (x =? 1)) as ->.
      { rewrite (bool_decide_ext ([x] = [1]) (x = 1)) by naive_solver. destruct (Z.eqb_spec x 1); [by apply bool_decide_true|by apply bool_decide_false]. }
      split; [|by intros [_ ->]]. intros [= <-]. split; [|done]. by split.
    - split; [done|]. intros [[H _] _]. by specialize (H E). }
  destruct (bool_decide_reflect (VarName v = namePK)) as [E|H1]; [apply setKeys_spec; [rewrite E; set_solver|done]|].
  destruct (bool_decide_reflect (VarName v = nameKEK)) as [E|H2]; [apply setKeys_spec; [rewrite E; set_solver|done]|].
  destruct (bool_decide_reflect (VarName v = nameDb)) as [E|H3]; [apply setKeys_spec; [rewrite E; set_solver|done]|].
  destruct (bool_decide_reflect (VarName v = nameDbx)) as [E|H4]; [apply setKeys_spec; [rewrite E; set_solver|done]|].
  eexists. split; [done|]. intros s. split; [|by intros [_ ->]]. intros [= <-]. split; [|done]. split; [done|]. unfold keyNames. set_solver.
Qed.

Lemma variableEvent_spec ms e : Type_ e = EFIVariableDriverConfig -> exists r,
  variableEvent ParseCertificate (scanOf ms) e = Some r /\
  forall st, r = Ok st <-> exists n v, means e (IsVariable n v) /\ existsb isSeparator ms = false /\ (n ∉ namesOf ms) /\ st = scanOf (ms ++ [IsVariable n v]).
Proof.
  intros Ht. unfold variableEvent. cbn [seenSeparator scanOf out seenAuthority seenVars].
  assert (forall n v, means e (IsVariable n v) -> exists w, ParseUEFIVariableData (Data e) = Ok w /\ digestEquals e (Data e) = None /\
    valueOk (VarName w) (VariableData w) /\ n = VarName w /\ v = VariableData w) as Hinv by (inversion 1; subst; eauto 10).
  destruct (ParseUEFIVariableData (Data e)) as [w|er] eqn:Ew.
  2:{ eexists. split; [done|]. intros st. split; [done|]. intros (n & v & Hm & _). by destruct (Hinv _ _ Hm) as (? & ? & _). }
  assert (forall n v, means e (IsVariable n v) -> n = VarName w) as Hname by (intros n v (w' & [= <-] & _ & _ & -> & _)%Hinv; done).
  case_bool_decide as Hseen; rewrite elem_of_list_to_set in Hseen.
  { eexists. split; [done|]. intros st. split; [done|]. intros (n & v & Hm & _ & Hn & _). by rewrite (Hname _ _ Hm) in Hn. }
  destruct (existsb isSeparator ms) eqn:Es; [eexists; split; [done|]; intros st; split; [done|naive_solver]|].
  destruct (digestEquals e (Data e)) as [er|] eqn:Ed.
  { eexists. split; [done|]. intros st. split; [done|]. intros (n & v & (? & _ & ? & _)%Hinv & _). done. }
  destruct (setVariable_spec (eventSequence e) w ms Hseen) as (r & -> & Hr). eexists. split; [done|]. intros st. split.
  - destruct r as [s|]; [|done]. destruct (proj1 (Hr s) eq_refl) as [Hv ->]. intros [= <-]. exists (VarName w), (VariableData w).
    split_and!; [by constructor|done..|]. rewrite scanOf_snoc by (by intros ? ? [= <- <-]). by rewrite Es.
  - intros (n & v & (w' & [= <-] & _ & Hv & -> & ->)%Hinv & _ & Hn & ->).
    rewrite (proj2 (Hr (stateOf (ms ++ [IsVariable (VarName w) (VariableData w)])))) by done.
    rewrite scanOf_snoc by (by intros ? ? [= <- <-]). by rewrite Es.
Qed.

Lemma authorityEvent_spec ms e : Type_ e = EFIVariableAuthority -> exists r,
  authorityEvent ParseCertificate (scanOf ms) e = Some r /\
  forall st, r = Ok st <-> exists cs, means e (IsAuthority cs) /\ st = scanOf (ms ++ [IsAuthority cs]).
Proof.
  intros Ht. unfold authorityEvent. cbn [seenSeparator scanOf out seenAuthority seenVars].
  assert (forall cs, means e (IsAuthority cs) -> exists err, ParseUEFIVariableAuthority ParseCertificate (Data e) = (cs, err) /\
    ((err = None /\ digestEquals e (Data e) = None) \/
     (err = Some ErrSigMissingGUID /\ (digestEquals e (Data e) = None \/ digestEquals e (removelast (Data e)) = None)))) as Hinv.
  { inversion 1; subst; eauto 10. }
  destruct (ParseUEFIVariableAuthority ParseCertificate (Data e)) as [cs err] eqn:Ea.
  assert (forall st, st = scanOf (ms ++ [IsAuthority cs]) <-> st = mkScan (addAuthority (existsb isSeparator ms) cs (stateOf ms)) (existsb isSeparator ms) true (list_to_set (namesOf ms))) as Hst.
  { intros st. by rewrite scanOf_snoc. }
  destruct err as [er|].
  - assert (er = ErrSigMissingGUID \/ er <> ErrSigMissingGUID) as [->|Her] by (destruct er; (by left) || (by right)).
    + destruct (Data e) as [|b bs] eqn:Eb; [by vm_compute in Ea|]. rewrite <- Eb in *.
      destruct (digestEquals e (Data e)) as [d|] eqn:Ed; cbn [mbind option_bind].
      * destruct (digestEquals e (removelast (Data e))) as [d'|] eqn:Ed'; (eexists; split; [done|]); intros st; (split; [try done|]).
        -- intros (cs' & (err & [= <- <-] & [[? ?]|[_ [?|?]]])%Hinv & _); congruence.
        -- intros [= <-]. exists cs. split; [|by apply Hst]. eapply means_ownerless; [done..|]. by right.
        -- intros (cs' & (err & [= <- <-] & _)%Hinv & ->). f_equal. symmetry. by apply Hst.
      * eexists. split; [done|]. intros st. split.
        -- intros [= <-]. exists cs. split; [|by apply Hst]. eapply means_ownerless; [done..|]. by left.
        -- intros (cs' & (err & [= <- <-] & _)%Hinv & ->). f_equal. symmetry. by apply Hst.
    + exists (Err (ErrAuthority (eventSequence e) er)). split; [by destruct er|]. intros st. split; [done|].
      intros (cs' & (err & [= <- <-] & [[? ?]|[[= ->] _]])%Hinv & _); done.
  - cbn [mbind option_bind]. destruct (digestEquals e (Data e)) as [d|] eqn:Ed; (eexists; split; [done|]); intros st.
    + split; [done|]. intros (cs' & (err & [= <- <-] & [[_ ?]|[? _]])%Hinv & _); done.
    + split.
      * intros [= <-]. exists cs. split; [|by apply Hst]. by apply means_authority.
      * intros (cs' & (err & [= <- <-] & _)%Hinv & ->). f_equal. symmetry. by apply Hst.
Qed.

Lemma eventStep_spec ms e : Index e = 7 -> wellOrdered ms -> exists r,
  eventStep ParseCertificate (scanOf ms) e = Some r /\
  forall st, r = Ok st <-> exists m, means e m /\ wellOrdered (ms ++ [m]) /\ st = scanOf (ms ++ [m]).
Proof.
  intros Hi Hw. unfold eventStep. rewrite Hi. cbn [Z.eqb negb Pos.eqb]. unfold UntrustedParseEventType.
  assert (forall r : result stateError (scan Certificate), (forall st, r <> Ok st) -> (forall m, ~ means e m) ->
    exists r', Some r = Some r' /\ forall st, r' = Ok st <-> exists m, means e m /\ wellOrdered (ms ++ [m]) /\ st = scanOf (ms ++ [m])) as Hbad.
  { intros r Hr Hm. exists r. split; [done|]. intros st. split; [intros H; by destruct (Hr st)|intros (m & H & _); by destruct (Hm m)]. }
  destruct (((Type_ e <? 0x80000000) || (0x800000FF <? Type_ e)) && (0x12 <? Type_ e)) eqn:Er; cbn [negb].
  { apply Hbad; [done|]. intros m Hm. by inversion Hm as [Ht| ? Ht| ? Ht| ? Ht]; rewrite Ht in Er. }
  case_bool_decide as Hin; cbn iota.
  2:{ apply Hbad; [done|]. intros m Hm. apply Hin. by inversion Hm as [Ht| ? Ht| ? Ht| ? Ht]; rewrite Ht; apply (bool_decide_unpack _); vm_compute. }
  destruct (Z.eqb_spec (Type_ e) Separator) as [Ht|H1].
  { exists (separatorEvent (scanOf ms) e). split; [done|]. intros st. rewrite separatorEvent_spec by done. split.
    - intros (Hm & Hs & ->). exists IsSeparator. split_and!; [done| |done]. apply wellOrdered_snoc. by rewrite Hs.
    - intros (m & Hm & Hwo%wellOrdered_snoc & ->). assert (m = IsSeparator) as -> by (by inversion Hm as [Ht'| ? Ht'| ? Ht'| ? Ht']; rewrite Ht in Ht').
      split_and!; [done| |done]. destruct Hwo as (_ & Hs & _). destruct (existsb _ _); [by specialize (Hs eq_refl)|done]. }
  destruct (Z.eqb_spec (Type_ e) EFIAction) as [Ht|H2].
  { apply Hbad; [done|]. intros m Hm. by inversion Hm as [Ht'| ? Ht'| ? Ht'| ? Ht']; rewrite Ht in Ht'. }
  destruct (Z.eqb_spec (Type_ e) EFIVariableDriverConfig) as [Ht|H3].
  { destruct (variableEvent_spec ms e Ht) as (r & -> & Hr). exists r. split; [done|]. intros st. rewrite Hr. split.
    - intros (n & v & Hm & Hs & Hn & ->). exists (IsVariable n v). split_and!; [done| |done]. apply wellOrdered_snoc. rewrite Hs. naive_solver.
    - intros (m & Hm & Hwo%wellOrdered_snoc & ->). destruct Hwo as (_ & Hs & Hn).
      pose proof (means_type e m Hm) as Hty. rewrite Ht in Hty. destruct m as [|n v|cs]; [done| |done]. exists n, v. split_and!; [done| |by eapply Hn|done].
      destruct (existsb _ _); [by specialize (Hs eq_refl)|done]. }
  destruct (Z.eqb_spec (Type_ e) EFIVariableAuthority) as [Ht|H4].
  { destruct (authorityEvent_spec ms e Ht) as (r & -> & Hr). exists r. split; [done|]. intros st. rewrite Hr. split.
    - intros (cs & Hm & ->). exists (IsAuthority cs). split_and!; [done| |done]. by apply wellOrdered_snoc.
    - intros (m & Hm & _ & ->). pose proof (means_type e m Hm) as Hty. rewrite Ht in Hty. destruct m as [|n v|cs]; [done..|]. by exists cs. }
  apply Hbad; [done|]. intros m Hm. by inversion Hm.
Qed.

Definition pcr7 (events : list Event) : list Event := filter (fun e => Index e = 7) events.

Lemma means_det e m m' : means e m -> means e m' -> m = m'.
Proof.
  intros H H'. pose proof (means_type e m H) as Ht. rewrite (means_type e m' H') in Ht.
  destruct m, m'; try done; inversion H; inversion H'; congruence.
Qed.

Lemma wellOrdered_app ms ms' : wellOrdered (ms ++ ms') -> wellOrdered ms.
Proof. induction ms' as [|m ms' IH] using rev_ind; [by rewrite app_nil_r|]. rewrite app_assoc. intros [H _]%wellOrdered_snoc. by apply IH. Qed.

Lemma eventsLoop_spec events ms : wellOrdered ms -> exists r,
  eventsLoop ParseCertificate (scanOf ms) events = Some r /\
  forall st, r = Ok st <-> exists ms', Forall2 means (pcr7 events) ms' /\ wellOrdered (ms ++ ms') /\ st = scanOf (ms ++ ms').
Proof.
  revert ms. induction events as [|e events IH]; intros ms Hw; cbn [eventsLoop].
  { eexists. split; [done|]. intros st. cbn. split; [intros [= <-]; exists []; by rewrite app_nil_r|].
    intros (ms' & ->%Forall2_nil_inv_l & _ & ->). by rewrite app_nil_r. }
  unfold pcr7. rewrite filter_cons. case_decide as Hi.
  2:{ unfold eventStep. destruct (Z.eqb_spec (Index e) 7); [done|]. cbn. by apply IH. }
  destruct (eventStep_spec ms e Hi Hw) as (r & -> & Hr). cbn [mbind option_bind]. destruct r as [st|er].
  - destruct (proj1 (Hr st) eq_refl) as (m & Hm & Hwm & ->). destruct (IH (ms ++ [m]) Hwm) as (r & -> & Hr'). exists r. split; [done|].
    intros st. rewrite Hr'. split.
    + intros (ms' & Hms & Hw' & ->). exists (m :: ms'). rewrite <- app_assoc in *. split_and!; [by constructor|done..].
    + intros (ms' & Hms & Hw' & ->). apply Forall2_cons_inv_l in Hms as (m' & ms'' & Hm' & Hms & ->). exists ms''.
      rewrite (means_det e m m') in * by done. rewrite <- app_assoc. done.
  - eexists. split; [done|]. intros st. split; [done|]. intros (ms' & Hms & Hw' & ->).
    apply Forall2_cons_inv_l in Hms as (m' & ms'' & Hm' & Hms & ->). rewrite cons_middle, app_assoc in Hw'.
    by discriminate (proj2 (Hr (scanOf (ms ++ [m']))) (ex_intro _ m' (conj Hm' (conj (wellOrdered_app _ _ Hw') eq_refl)))).
Qed.

Lemma isNil_keys n ms : isNil (keysOf n ms).1 && isNil (keysOf n ms).2 = true <-> keysOf n ms = ([], []).
Proof. destruct (keysOf n ms) as [[|c cs] [|h hs]]; naive_solver. Qed.

Lemma ParseSecurebootState_spec events : exists r,
  ParseSecurebootState ParseCertificate events = Some r /\
  forall s, r = Ok s <-> exists ms, Forall2 means (pcr7 events) ms /\ wellOrdered ms /\ s = stateOf ms /\ (Enabled s = true -> complete ms).
Proof.
  unfold ParseSecurebootState. change initialScan with (scanOf []). destruct (eventsLoop_spec events []) as (r & -> & Hr).
  { split; [constructor|]. by intros [|? ?] ?. }
  cbn [app] in Hr. cbn [mbind option_bind]. eexists. split; [done|]. destruct r as [st|er].
  2:{ intros s. split; [done|]. intros (ms & Hms & Hw & _). by discriminate (proj2 (Hr (scanOf ms)) (ex_intro _ ms (conj Hms (conj Hw eq_refl)))). }
  destruct (proj1 (Hr st) eq_refl) as (ms & Hms & Hw & ->). intros s.
  assert (forall ms', Forall2 means (pcr7 events) ms' -> ms' = ms) as Hdet.
  { clear -Hms. intros ms' H. revert ms' H. induction Hms as [|e m es ms Hm _ IH]; intros ms' H; inversion H; subst; [done|]. f_equal; [by eapply means_det|by apply IH]. }
  cbn [out scanOf seenAuthority]. trans (s = stateOf ms /\ (Enabled (stateOf ms) = true -> complete ms)).
  2:{ split; [intros [-> H]; by exists ms|]. intros (ms' & ->%Hdet & _ & -> & H). done. }
  destruct (Enabled (stateOf ms)) eqn:Een; cbn [negb]; [|naive_solver]. unfold complete.
  cbn [PlatformKeys PlatformKeyHashes ExchangeKeys ExchangeKeyHashes PermittedKeys PermittedHashes stateOf].
  pose proof (isNil_keys namePK ms). pose proof (isNil_keys nameKEK ms). pose proof (isNil_keys nameDb ms).
  destruct (existsb isAuthority ms); [|naive_solver]. destruct (isNil (keysOf namePK ms).1 && _); cbn [negb]; [naive_solver|].
  destruct (isNil (keysOf nameKEK ms).1 && _); cbn [negb]; [naive_solver|]. destruct (isNil (keysOf nameDb ms).1 && _); cbn [negb]; naive_solver.
Qed.

(** C20: [ParseSecurebootState] returns for every list of events, and it returns a state exactly when every event of
    PCR 7 is a separator, a variable or the use of a key, with a digest of its data; no variable comes twice or after the
    separator, and nothing but uses of keys comes after it; and with secure boot enabled a key was used and keys of all kinds were
    set.  The state is then the one that these events describe. *)
Theorem ParseSecurebootState_correct events : exists r,
  ParseSecurebootState ParseCertificate events = Some r /\
  forall s, r = Ok s <-> exists ms, Forall2 means (pcr7 events) ms /\ wellOrdered ms /\ s = stateOf ms /\ (Enabled s = true -> complete ms).
Proof. apply ParseSecurebootState_spec. Qed.

(** ** Tampering *)

(** What the digest of an event may be of. *)
Definition hashed (evs : list Event) (x : bytes) : Prop := exists e, e ∈ evs /\ (x = Data e \/ x = removelast (Data e)).

Lemma digestEquals_hash e x a h : newHash a = Some h -> length (Digest e) = hashSize a -> digestEquals e x = None -> Digest e = h x.
Proof.
  unfold newHash, hashSize, digestEquals. destruct (a =? SHA1); [|destruct (a =? SHA256); [|done]]; intros [= <-] ->; cbn [Nat.eqb]; case_bool_decide; done.
Qed.

(** The state of secure boot cannot be read as anything else. *)
Lemma secureBoot_meaning e1 e2 m v a h :
  newHash a = Some h -> length (Digest e1) = hashSize a -> Digest e1 = Digest e2 ->
  means e1 (IsVariable nameSecureBoot v) -> means e2 m ->
  m = IsVariable nameSecureBoot v \/ exists x y, hashed [e1] x /\ hashed [e2] y /\ x <> y /\ h x = h y.
Proof.
  intros Hh Hl Ed H1 H2. assert (length (Digest e2) = hashSize a) as Hl2 by congruence.
  inversion H1 as [|w Ht1 Hw1 Hd1 Hv1 [En Ev]| |]; subst v. pose proof (digestEquals_hash e1 _ a h Hh Hl Hd1) as Hh1.
  assert (forall x, (x = Data e2 \/ x = removelast (Data e2)) -> digestEquals e2 x = None -> x = Data e1 \/ exists x y, hashed [e1] x /\ hashed [e2] y /\ x <> y /\ h x = h y) as Hx.
  { intros x Hx Hdx. destruct (decide (x = Data e1)) as [->|Hne]; [by left|]. right. exists (Data e1), x. split_and!.
    - exists e1. split; [by left|by left].
    - exists e2. split; [by left|done].
    - done.
    - rewrite <- Hh1, Ed. by apply (digestEquals_hash e2 x a h). }
  assert (forall d w', ParseUEFIVariableData d = Ok w' -> ParseUEFIVariableData d = Ok w -> forall cs err, ParseUEFIVariableAuthority ParseCertificate d = (cs, err) -> err = Some (ErrInvalidSignature 1)) as Hauth.
  { intros d w' _ Hp cs err. unfold ParseUEFIVariableAuthority. rewrite Hp. destruct Hv1 as [Hlen _]. specialize (Hlen En).
    unfold parseEfiSignature, len. rewrite Hlen. by intros [= <- <-]. }
  inversion H2 as [Ht2 Hs2 Hd2|w2 Ht2 Hw2 Hd2 Hv2|cs Ht2 Ha2 Hd2|cs Ht2 Ha2 Hd2]; subst m.
  - destruct (Hx (Data e2)) as [E|?]; [by left|done| |by right]. rewrite <- E, Hs2 in Hw1. by vm_compute in Hw1.
  - destruct (Hx (Data e2)) as [E|?]; [by left|done| |by right]. left. rewrite E in Hw2. congruence.
  - destruct (Hx (Data e2)) as [E|?]; [by left|done| |by right]. rewrite E in Ha2. by apply (Hauth _ w) in Ha2.
  - destruct Hd2 as [Hd2|Hd2].
    + destruct (Hx (Data e2)) as [E|?]; [by left|done| |by right]. rewrite E in Ha2. by apply (Hauth _ w) in Ha2.
    + destruct (Hx (removelast (Data e2))) as [E|?]; [by right|done| |by right]. destruct (decide (Data e2 = [])) as [E0|Hne].
      { by rewrite E0 in Ha2. }
      rewrite (app_removelast_last 0 Hne), E in Ha2. pose proof (ParseUEFIVariableData_app _ _ [List.last (Data e2) 0] Hw1) as Hw2. by apply (Hauth _ w) in Ha2.
Qed.

Lemma valueOf_elem ms n v : NoDup (namesOf ms) -> valueOf n ms = Some v <-> IsVariable n v ∈ ms.
Proof.
  induction ms as [|[|n' v'|cs] ms IH]; cbn; [set_solver|rewrite elem_of_cons; naive_solver| |rewrite elem_of_cons; naive_solver].
  intros [Hn Hnd]%NoDup_cons. rewrite elem_of_cons. case_bool_decide as E; [|rewrite IH by done; naive_solver].
  subst n'. split; [intros [= ->]; by left|]. intros [[= ->]|Hin]; [done|]. exfalso. apply Hn. unfold namesOf. apply list_elem_of_bind. exists (IsVariable n v). split; [by left|done].
Qed.

Lemma enabled_transfer evs1 evs2 ms1 ms2 a h :
  newHash a = Some h -> Forall (fun e => length (Digest e) = hashSize a) evs1 -> Digest <$> evs1 = Digest <$> evs2 ->
  Forall2 means evs1 ms1 -> Forall2 means evs2 ms2 -> wellOrdered ms1 -> wellOrdered ms2 ->
  (Enabled (stateOf ms1) = true -> Enabled (stateOf ms2) = true) \/ exists x y, hashed evs1 x /\ hashed evs2 y /\ x <> y /\ h x = h y.
Proof.
  intros Hh Hl Ed H1 H2 [Hw1 _] [Hw2 _]. cbn [Enabled stateOf]. destruct (bool_decide_reflect (valueOf nameSecureBoot ms1 = Some [1])) as [Hv|]; [|by left].
  apply valueOf_elem in Hv; [|done]. apply list_elem_of_lookup in Hv as [i Hi]. destruct (Forall2_lookup_r _ _ _ _ _ H1 Hi) as (e1 & He1 & Hm1).
  assert ((Digest <$> evs2) !! i = Some (Digest e1)) as Hd2 by (by rewrite <- Ed, list_lookup_fmap, He1).
  rewrite list_lookup_fmap in Hd2. destruct (evs2 !! i) as [e2|] eqn:He2; [|done]. injection Hd2 as Hd2.
  destruct (Forall2_lookup_l _ _ _ _ _ H2 He2) as (m2 & Hi2 & Hm2). rewrite Forall_lookup in Hl.
  destruct (secureBoot_meaning e1 e2 m2 [1] a h Hh (Hl i e1 He1)) as [->|(x & y & Hx & Hy & H)]; [done..| |].
  - left. intros _. apply bool_decide_eq_true. apply valueOf_elem; [done|]. by eapply list_elem_of_lookup_2.
  - right. exists x, y. destruct Hx as (e & ->%list_elem_of_singleton & Hx), Hy as (e' & ->%list_elem_of_singleton & Hy).
    split_and!; [exists e1|exists e2|apply H..]; (split; [by eapply list_elem_of_lookup_2|done]).
Qed.

Section logs.
Context (order : replayMap -> replayMap) (order_perm : forall m, order m ≡ₚ m).
Context (sortSlice : list Event -> list Event) (sort_perm : forall l, sortSlice l ≡ₚ l) (sort_sorted : forall l, StronglySorted bySequence (sortSlice l)).

Lemma no_events_disabled evs s : pcr7 evs = [] -> ParseSecurebootState ParseCertificate evs = Some (Ok s) -> Enabled s = false.
Proof.
  intros He Hs. destruct (ParseSecurebootState_spec evs) as (x & Ex & Hx). destruct (proj1 (Hx s)) as (ms & Hm & _ & -> & _); [congruence|].
  rewrite He in Hm. by apply Forall2_nil_inv_l in Hm as ->.
Qed.

(** C4: two logs that are parsed and verify against the same value of PCR 7, the only one given for that index among PCRs of SHA-1 and SHA-256, and from which a state of secure boot can be read, agree on
    whether secure boot is enabled; or one of them has no events for PCR 7 and says that it is disabled; or a collision or a preimage of zero is
    among what is hashed to verify them.  So a log that says that secure boot is enabled has events, and no other log with events
    contradicts it. *)
Theorem secureBoot_tamper_evident b1 b2 e1 e2 p pcrs1 pcrs2 h evs1 evs2 s1 s2 :
  newHash (DigestAlg p) = Some h -> pcrIndex p = 7 ->
  ParseEventLog b1 = Some (Ok e1) -> Forall available pcrs1 -> onlyPCR p pcrs1 -> Verify order sortSlice e1 pcrs1 = Some (Ok evs1) ->
  ParseSecurebootState ParseCertificate evs1 = Some (Ok s1) ->
  ParseEventLog b2 = Some (Ok e2) -> Forall available pcrs2 -> onlyPCR p pcrs2 -> Verify order sortSlice e2 pcrs2 = Some (Ok evs2) ->
  ParseSecurebootState ParseCertificate evs2 = Some (Ok s2) ->
  Enabled s1 = Enabled s2 \/
  (eventsOf p evs1 = [] /\ Enabled s1 = false) \/ (eventsOf p evs2 = [] /\ Enabled s2 = false) \/
  broken h (hashSize (DigestAlg p)) (Digest <$> eventsOf p evs1) (Digest <$> eventsOf p evs2) \/
  exists x y, hashed (eventsOf p evs1) x /\ hashed (eventsOf p evs2) y /\ x <> y /\ h x = h y.
Proof using order_perm sort_perm sort_sorted.
  intros Hh Hi Hb1 Hav1 Ho1 Hv1 Hs1 Hb2 Hav2 Ho2 Hv2 Hs2.
  destruct (decide (eventsOf p evs1 = [])) as [Hn1|Hn1].
  { right. left. split; [done|]. apply (no_events_disabled evs1); [|done]. unfold eventsOf in Hn1. by rewrite Hi in Hn1. }
  destruct (decide (eventsOf p evs2 = [])) as [Hn2|Hn2].
  { right. right. left. split; [done|]. apply (no_events_disabled evs2); [|done]. unfold eventsOf in Hn2. by rewrite Hi in Hn2. }
  destruct (ParseEventLog_total b1) as (r1 & E1 & H1), (ParseEventLog_total b2) as (r2 & E2 & H2).
  destruct (H1 e1) as (Ha1 & Hq1 & _); [congruence|]. destruct (H2 e2) as (Ha2 & Hq2 & _); [congruence|].
  destruct (Verify_unique order order_perm sortSlice sort_perm sort_sorted e1 e2 p pcrs1 pcrs2 h evs1 evs2) as [Ed|?]; [done..| |by do 3 right; left].
  destruct (Verify_replays order order_perm sortSlice sort_perm sort_sorted e1 p pcrs1 h evs1) as [_ Hl1]; [done..|].
  destruct (Verify_replays order order_perm sortSlice sort_perm sort_sorted e2 p pcrs2 h evs2) as [_ Hl2]; [done..|].
  destruct (ParseSecurebootState_spec evs1) as (x1 & Ex1 & Hx1). destruct (proj1 (Hx1 s1)) as (ms1 & Hm1 & Hw1 & -> & _); [congruence|].
  destruct (ParseSecurebootState_spec evs2) as (x2 & Ex2 & Hx2). destruct (proj1 (Hx2 s2)) as (ms2 & Hm2 & Hw2 & -> & _); [congruence|].
  unfold eventsOf in *. rewrite Hi in *. fold (pcr7 evs1) (pcr7 evs2) in *.
  destruct (enabled_transfer (pcr7 evs1) (pcr7 evs2) ms1 ms2 _ h Hh Hl1 Ed Hm1 Hm2 Hw1 Hw2) as [H12|?]; [|by do 4 right].
  destruct (enabled_transfer (pcr7 evs2) (pcr7 evs1) ms2 ms1 _ h Hh Hl2 (eq_sym Ed) Hm2 Hm1 Hw2 Hw1) as [H21|(x & y & Hx & Hy & Hne & E)].
  - left. apply eq_true_iff_eq. by split.
  - do 4 right. exists y, x. by rewrite E.
Qed.
End logs.

End certificates.
End SecurebootProps.

(** ** Examples *)
Module SecurebootExample.
Import Bytes Sha256 Sha1 Eventlog EventlogProps EventlogCodec Secureboot SecurebootProps.
Open Scope Z_scope.

(** The order of maps, and a sort. *)
Definition exOrder (m : replayMap) : replayMap := m.
#[local] Instance bySequence_dec : RelDecision bySequence.
Proof. intros a b. unfold bySequence. apply _. Defined.
#[local] Instance bySequence_total : Total bySequence.
Proof. intros a b. unfold bySequence. lia. Qed.
#[local] Instance bySequence_trans : Transitive bySequence.
Proof. intros a b c. unfold bySequence. lia. Qed.
Definition exSort (l : list Event) : list Event := merge_sort bySequence l.

Lemma exOrder_perm m : exOrder m ≡ₚ m.
Proof. done. Qed.
Lemma exSort_perm l : exSort l ≡ₚ l.
Proof. apply merge_sort_Permutation. Qed.
Lemma exSort_sorted l : StronglySorted bySequence (exSort l).
Proof. apply StronglySorted_merge_sort; apply _. Qed.

(** Certificates are what begins like one. *)
Definition exCertificate (d : bytes) : result certError bytes :=
  match d with 48 :: _ => Ok d | _ => Err (StructuralError "asn1") end.

Definition guidBytes (g : efiGUID) : bytes := le 4 (Data1 g) ++ le 2 (Data2 g) ++ le 2 (Data3 g) ++ Data4 g.
Definition variableBytes (name : list Z) (value : bytes) : bytes :=
  zeros 16 ++ le 8 (len name) ++ le 8 (len value) ++ concat (le 2 <$> name) ++ value.
Definition hashList (h : bytes) : bytes := guidBytes hashSHA256SigGUID ++ le 4 76 ++ le 4 0 ++ le 4 48 ++ zeros 16 ++ h.
Definition measured (i t : Z) (d : bytes) : eventSpec := mkSpec i t [(HashSHA256, Sum256 d)] d.

(** A log with secure boot, in which the use of a key before the separator has the type [t]. *)
Definition exLog (t : Z) : logSpec := mkLogSpec 0 (zeros 20) 0 0 2 [mkAlg HashSHA256 32] []
  [measured 0 8 [1; 2; 3];
   measured 7 EFIVariableDriverConfig (variableBytes nameSecureBoot [1]);
   measured 7 EFIVariableDriverConfig (variableBytes namePK (hashList (zeros 32)));
   measured 7 EFIVariableDriverConfig (variableBytes nameKEK (hashList (zeros 32)));
   measured 7 EFIVariableDriverConfig (variableBytes nameDb (hashList (zeros 32)));
   measured 7 t (variableBytes (ascii_bytes "Shim") (zeros 16 ++ [48; 1]));
   measured 7 Separator [0; 0; 0; 0];
   measured 7 EFIVariableAuthority (variableBytes nameDb (zeros 16 ++ [48; 2]))].

Definition parsed (l : logSpec) : EventLog := mkLog (logAlgs (logAlgSizes l)) (rawsOf 1 (logEvents l)).
Definition exPCR (i : Z) : PCR :=
  mkPCR i (replayValue Sum256 32 ((fun e => Sum256 (specData e)) <$> filter (fun e => specIndex e = i) (logEvents (exLog EFIVariableAuthority)))) SHA256.
Definition exEvents (t : Z) : list Event :=
  imap (fun i e => mkEvent (1 + Z.of_nat i) (specIndex e) (specType e) (specData e) (Sum256 (specData e))) (logEvents (exLog t)).
Definition exState (pre : list bytes) : SecurebootState bytes := mkState true [] [zeros 32] [] [zeros 32] [] [zeros 32] [] [] pre [[48; 2]].

Definition exPCRs : list PCR := [exPCR 0; exPCR 7].

Lemma exParse t : t = EFIVariableAuthority \/ t = EFIVariableDriverConfig -> ParseEventLog (encodeLog (exLog t)) = Some (Ok (parsed (exLog t))).
Proof. intros [->| ->]; by vm_compute. Qed.
Lemma exVerify t : t = EFIVariableAuthority \/ t = EFIVariableDriverConfig -> Verify exOrder exSort (parsed (exLog t)) exPCRs = Some (Ok (exEvents t)).
Proof. intros [->| ->]; by vm_compute. Qed.
Lemma exSecureboot : ParseSecurebootState exCertificate (exEvents EFIVariableAuthority) = Some (Ok (exState [[48; 1]])).
Proof. by vm_compute. Qed.
Lemma exRetyped : ParseSecurebootState exCertificate (exEvents EFIVariableDriverConfig) = Some (Ok (exState [])).
Proof. by vm_compute. Qed.
Lemma exAvailable : Forall available exPCRs.
Proof. repeat constructor; by eexists. Qed.
Lemma exOnly : onlyPCR (exPCR 7) exPCRs.
Proof.
  split; [apply elem_of_cons; right; by apply list_elem_of_singleton|].
  intros q [->|[->|H%not_elem_of_nil]%elem_of_cons]%elem_of_cons Hq; [|reflexivity|destruct H]. cbn [pcrIndex exPCR] in Hq. discriminate.
Qed.

(** The type of an event is not measured: a log in which the use of a key is given the type of a variable verifies
    against the same PCRs and is accepted, and the use of the key is no longer part of the state. *)
Lemma retyped_accepted : exists e1 e2 evs1 evs2,
  ParseEventLog (encodeLog (exLog EFIVariableAuthority)) = Some (Ok e1) /\ Verify exOrder exSort e1 exPCRs = Some (Ok evs1) /\
  ParseEventLog (encodeLog (exLog EFIVariableDriverConfig)) = Some (Ok e2) /\ Verify exOrder exSort e2 exPCRs = Some (Ok evs2) /\
  ParseSecurebootState exCertificate evs1 = Some (Ok (exState [[48; 1]])) /\ ParseSecurebootState exCertificate evs2 = Some (Ok (exState [])).
Proof.
  exists (parsed (exLog EFIVariableAuthority)), (parsed (exLog EFIVariableDriverConfig)), (exEvents EFIVariableAuthority), (exEvents EFIVariableDriverConfig).
  split_and!; [apply exParse; by left|apply exVerify; by left|apply exParse; by right|apply exVerify; by right|apply exSecureboot|apply exRetyped].
Qed.

(** A log without the events of PCR 7 verifies against the PCRs of a machine with secure boot, and says that it is disabled. *)
Definition strippedLog : logSpec := mkLogSpec 0 (zeros 20) 0 0 2 [mkAlg HashSHA256 32] [] [measured 0 8 [1; 2; 3]].

Lemma stripped_accepted : ParseEventLog (encodeLog strippedLog) = Some (Ok (parsed strippedLog)) /\
  Verify exOrder exSort (parsed strippedLog) exPCRs = Some (Ok (take 1 (exEvents EFIVariableAuthority))) /\
  ParseSecurebootState exCertificate (take 1 (exEvents EFIVariableAuthority)) = Some (Ok (mkState false [] [] [] [] [] [] [] [] [] [])).
Proof. split_and!; by vm_compute. Qed.

Lemma secureBoot_tamper_evident_witness :
  Enabled (exState [[48; 1]]) = Enabled (exState []) \/
  (eventsOf (exPCR 7) (exEvents EFIVariableAuthority) = [] /\ Enabled (exState [[48; 1]]) = false) \/
  (eventsOf (exPCR 7) (exEvents EFIVariableDriverConfig) = [] /\ Enabled (exState []) = false) \/
  broken Sum256 32 (Digest <$> eventsOf (exPCR 7) (exEvents EFIVariableAuthority)) (Digest <$> eventsOf (exPCR 7) (exEvents EFIVariableDriverConfig)) \/
  exists x y, hashed (eventsOf (exPCR 7) (exEvents EFIVariableAuthority)) x /\ hashed (eventsOf (exPCR 7) (exEvents EFIVariableDriverConfig)) y /\ x <> y /\ Sum256 x = Sum256 y.
Proof.
  apply (secureBoot_tamper_evident exCertificate exOrder exOrder_perm exSort exSort_perm exSort_sorted
    (encodeLog (exLog EFIVariableAuthority)) (encodeLog (exLog EFIVariableDriverConfig)) (parsed (exLog EFIVariableAuthority)) (parsed (exLog EFIVariableDriverConfig))
    (exPCR 7) exPCRs exPCRs).
  - reflexivity.
  - reflexivity.
  - apply exParse. by left.
  - apply exAvailable.
  - apply exOnly.
  - apply exVerify. by left.
  - apply exSecureboot.
  - apply exParse. by right.
  - apply exAvailable.
  - apply exOnly.
  - apply exVerify. by right.
  - apply exRetyped.
Defined.

(** A log whose events do not give the value of the PCR is refuted. *)
Lemma Verify_correct_witness : exists r, Verify exOrder exSort (parsed (exLog EFIVariableAuthority)) [exPCR 0; mkPCR 7 (zeros 32) SHA256] = Some r /\
  match r with
  | Ok evs => exists raws, candidate (parsed (exLog EFIVariableAuthority)) raws /\ verified raws [exPCR 0; mkPCR 7 (zeros 32) SHA256] evs
  | Err re => exists i, i ∈ invalidPCRs re /\ refuted (rawEvents (parsed (exLog EFIVariableAuthority))) [exPCR 0; mkPCR 7 (zeros 32) SHA256] i
  end.
Proof.
  apply (Verify_correct exOrder exOrder_perm exSort exSort_perm exSort_sorted).
  - apply Forall_singleton. by right.
  - repeat constructor; by eexists.
Defined.

Lemma measured_ok i t d : 0 <= i < width 4 -> 0 <= t < width 4 -> dataOk d -> eventOk [mkAlg HashSHA256 32] (measured i t d).
Proof.
  intros Hi Ht Hd. split_and!; [apply Hi|apply Hi|apply Ht|apply Ht|apply Hd|by vm_compute|]. apply Forall_singleton. exists (mkAlg HashSHA256 32).
  split_and!; [by apply list_elem_of_singleton|reflexivity|]. unfold len. cbn [snd]. by rewrite Sum256_length.
Qed.

Lemma exLog_ok t : 0 <= t < width 4 -> logOk (exLog t).
Proof.
  intros Ht. unfold logOk. cbn [exLog headerIndex headerDigest platformClass logAlgSizes vendorInfo logEvents].
  split; [by vm_compute|]. split; [reflexivity|]. split; [by vm_compute|].
  split; [split; [apply Forall_singleton; by vm_compute|split; [apply NoDup_singleton|by vm_compute]]|]. split; [by vm_compute|]. split; [by vm_compute|].
  repeat (apply List.Forall_cons; [apply measured_ok; assumption || by vm_compute|]). apply List.Forall_nil.
Qed.

Lemma ParseEventLog_roundtrip_witness : ParseEventLog (encodeLog (exLog EFIVariableAuthority)) = Some (Ok (parsed (exLog EFIVariableAuthority))).
Proof.
  apply (ParseEventLog_roundtrip (exLog EFIVariableAuthority)); [|by vm_compute].
  apply exLog_ok. by vm_compute.
Defined.
End SecurebootExample.
