(* ===== verification/Update.v ===== *)
(** * A/B updates

    Models [metropolis/node/core/update/update.go], the update service of a node, and
    [metropolis/node/core/abloader/main.rs], the program that firmware starts and that selects the slot to boot.

    Programs run on a world: the files of the EFI system partition, the two system partitions, the EFI
    variables, the command line of the kernel and the kernel staged for kexec.  Every
    operation of the operating system or the firmware takes the next one of a list of outcomes: it succeeds, it
    fails after a part of its work, or the machine stops after a part of its work.  Paths are
    relative to the EFI system partition.  HTTP, archives, PE files, protocol buffers and the loading of an
    image by firmware are parameters. *)

From S2P Require Import Prelude GoStrings Bytes Sha256 Gpt Efivar.
From Stdlib Require Import ZArith.

Module Update.
Import Bytes Sha256 Gpt Efivar.
Open Scope Z_scope.

(** ** Slots *)

Definition SlotInvalid : Z := 0.
Definition SlotA : Z := 1.
Definition SlotB : Z := 2.

Definition Other (s : Z) : Z := if s =? SlotA then SlotB else if s =? SlotB then SlotA else SlotInvalid.
Definition slotString (s : Z) : string := if s =? SlotA then "A" else if s =? SlotB then "B" else "<invalid slot>".

(** [filepath.Join] with the mount point, and the paths of firmware: without the leading separator, with slashes. *)
Fixpoint slashes (p : string) : string :=
  match p with
  | EmptyString => EmptyString
  | String c p => String (if Ascii.eqb c (ascii_of_nat 92) then "/" else c) (slashes p)
  end.
Definition onESP (p : string) : string := match slashes p with String "/" p => p | p => p end.

Definition EFIPayloadPath : string := "/EFI/BOOT/BOOTx64.EFI".
Definition EFIBootAPath : string := "/EFI/metropolis/boot-a.efi".
Definition EFIBootBPath : string := "/EFI/metropolis/boot-b.efi".
Definition EFIBootPath (s : Z) : string := if s =? SlotA then EFIBootAPath else if s =? SlotB then EFIBootBPath else "".
Definition loaderStatePath : string := "EFI/metropolis/loader_state.pb".

(** [slotRegexp]: the slot of the leftmost match. *)
Fixpoint slotMatch (cmdline : string) : Z :=
  match cmdline with
  | EmptyString => SlotInvalid
  | String _ rest =>
      if HasPrefix cmdline "PARTLABEL=METROPOLIS-SYSTEM-A" then SlotA
      else if HasPrefix cmdline "PARTLABEL=METROPOLIS-SYSTEM-B" then SlotB
      else slotMatch rest
  end.

(** ** The state of the loader *)

Record ABLoaderData := mkAB { ActiveSlot : Z; NextSlot : Z }.

(** Protocol buffers, in Go and in Rust. *)
Class LoaderCodec := {
  marshalAB : ABLoaderData -> bytes;
  unmarshalAB : bytes -> option ABLoaderData;
  unmarshal_marshal d : 0 <= ActiveSlot d <= 2 -> 0 <= NextSlot d <= 2 -> unmarshalAB (marshalAB d) = Some d
}.

(** ** Worlds *)

Inductive outcome := Succeed | FailAt (n : nat) | CrashAt (n : nat).

(** What was loaded for kexec. *)
Record kexecImage := mkKexec { kexecKernel : bytes; kexecInitramfs : option bytes; kexecCmdline : string }.

Record world := mkWorld {
  files : gmap string bytes;
  systemA : bytes;
  systemB : bytes;
  efi : efivars;
  cmdline : option string;
  staged : option kexecImage;
  outcomes : list outcome
}.

Definition set_files (f : gmap string bytes) (w : world) : world := mkWorld f (systemA w) (systemB w) (efi w) (cmdline w) (staged w) (outcomes w).
Definition set_efi (e : efivars) (w : world) : world := mkWorld (files w) (systemA w) (systemB w) e (cmdline w) (staged w) (outcomes w).
Definition set_staged (k : option kexecImage) (w : world) : world := mkWorld (files w) (systemA w) (systemB w) (efi w) (cmdline w) k (outcomes w).
Definition set_cmdline (c : option string) (w : world) : world := mkWorld (files w) (systemA w) (systemB w) (efi w) c (staged w) (outcomes w).
Definition set_outcomes (os : list outcome) (w : world) : world := mkWorld (files w) (systemA w) (systemB w) (efi w) (cmdline w) (staged w) os.
Definition systemOf (s : Z) (w : world) : bytes := if s =? SlotA then systemA w else systemB w.
Definition set_system (s : Z) (d : bytes) (w : world) : world :=
  mkWorld (files w) (if s =? SlotA then d else systemA w) (if s =? SlotA then systemB w else d) (efi w) (cmdline w) (staged w) (outcomes w).

(** A program ends, or the machine stops, or the program panics. *)
Inductive ran (A : Type) := Done (a : A) (w : world) | Crashed (w : world) | Panicked (w : world).
Arguments Done {A} a w.
Arguments Crashed {A} w.
Arguments Panicked {A} w.

Definition M (A : Type) : Type := world -> ran A.
#[export] Instance M_ret : MRet M := fun A a w => Done a w.
#[export] Instance M_bind : MBind M := fun A B k m w =>
  match m w with Done a w => k a w | Crashed w => Crashed w | Panicked w => Panicked w end.

Definition error : Type := string.
Definition panic {A} : M A := fun w => Panicked w.

(** [if err != nil { return fmt.Errorf(what, err) }]. *)
Definition orFail {A B} (m : M (result error A)) (what : error) (k : A -> M (result error B)) : M (result error B) :=
  r ← m; match r with Ok a => k a | Err _ => mret (Err what) end.

(** An operation: its effect when it succeeds, and after [n] units of its work. *)
Definition operation {A} (full : world -> result error A * world) (part : nat -> world -> world) : M (result error A) := fun w =>
  let '(o, w) := match outcomes w with [] => (Succeed, w) | o :: os => (o, set_outcomes os w) end in
  match o with
  | Succeed => let '(r, w) := full w in Done r w
  | FailAt n => Done (Err "input/output error") (part n w)
  | CrashAt n => Crashed (part n w)
  end.

Definition unchanged (n : nat) (w : world) : world := w.

Definition readFile (p : string) : M (result error bytes) :=
  operation (fun w => (match files w !! p with Some d => Ok d | None => Err "file does not exist" end, w)) unchanged.

Section operations.
(** The files whose content is replaced by a write as a whole or not at all. *)
Context (atomic : string -> bool).

(** [os.WriteFile]: a write that stops early leaves the part that was written, which is nothing if the file could not be opened. *)
Definition writeFile (p : string) (d : bytes) : M (result error ()) :=
  operation (fun w => (Ok (), set_files (<[p := d]> (files w)) w))
    (fun n w => match n with O => w | S n => set_files (<[p := if atomic p then d else take n d]> (files w)) w end).
End operations.

(** [os.Create]. *)
Definition createFile (p : string) : M (result error ()) :=
  operation (fun w => (Ok (), set_files (<[p := []]> (files w)) w)) (fun n w => match n with O => w | S _ => set_files (<[p := []]> (files w)) w end).

(** A file of an archive: what can be read, and whether its end can be reached. *)
Record entry := mkEntry { entryData : bytes; entryOk : bool }.

(** [io.Copy] to the end of a file that was created. *)
Definition appendTo (p : string) (d : bytes) (w : world) : world := set_files (<[p := default [] (files w !! p) ++ d]> (files w)) w.
Definition copyToFile (p : string) (e : entry) : M (result error ()) :=
  operation (fun w => (if entryOk e then Ok () else Err "read error", appendTo p (entryData e) w)) (fun n => appendTo p (take n (entryData e))).

(** [io.Copy] to a system partition, which keeps its size. *)
Definition overlay (d old : bytes) : bytes := take (length old) (d ++ drop (length d) old).
Definition copyToSystem (s : Z) (e : entry) : M (result error ()) :=
  operation (fun w => (if (length (entryData e) <=? length (systemOf s w))%nat && entryOk e then Ok () else Err "write or read error",
                       set_system s (overlay (entryData e) (systemOf s w)) w))
    (fun n w => set_system s (overlay (take n (entryData e)) (systemOf s w)) w).

(** [os.Rename]. *)
Definition moved (a b : string) (w : world) : world :=
  match files w !! a with Some d => set_files (<[b := d]> (delete a (files w))) w | None => w end.
Definition renameFile (a b : string) : M (result error ()) :=
  operation (fun w => (match files w !! a with Some _ => Ok () | None => Err "file does not exist" end, moved a b w))
    (fun n w => match n with O => w | S _ => moved a b w end).

(** Operations without a lasting effect: opening a device, [Sync], [memfd_create]. *)
Definition transient : M (result error ()) := operation (fun w => (Ok (), w)) unchanged.

(** A call of package efivarfs. *)
Definition efiCall {A} (f : efivars -> result varError A * efivars) : M (result error A) :=
  operation (fun w => let '(r, e) := f (efi w) in (match r with Ok a => Ok a | Err _ => Err "efivarfs" end, set_efi e w)) unchanged.

(** ** The service *)

Record Service := mkService { ESPPath : string; ESPPart : option Partition; ESPPartNumber : Z }.
Definition ProvideESP (path : string) (partNum : Z) (part : option Partition) (s : Service) : Service := mkService path part partNum.

(** The command line may not be readable. *)
Definition CurrentlyRunningSlot : M Z := fun w => Done (match cmdline w with None => SlotInvalid | Some c => slotMatch c end) w.

Section loader.
Context {codec : LoaderCodec} (atomic : string -> bool).

Definition getABState : M (result error ABLoaderData) :=
  orFail (readFile loaderStatePath) "read" (fun d => mret (match unmarshalAB d with Some s => Ok s | None => Err "unmarshal" end)).
Definition setABState (d : ABLoaderData) : M (result error ()) := writeFile atomic loaderStatePath (marshalAB d).

(** ** The A/B loader *)

Section main.
(** Whether firmware can load an image. *)
Context (loadable : bytes -> bool).

Definition A_LOADER_PATH : string := "\EFI\metropolis\boot-a.efi".
Definition B_LOADER_PATH : string := "\EFI\metropolis\boot-b.efi".
Definition LOADER_STATE_PATH : string := "\EFI\metropolis\loader_state.pb".

Inductive ValidSlot := A | B.
Definition other (s : ValidSlot) : ValidSlot := match s with A => B | B => A end.
Definition slotPath (s : ValidSlot) : string := match s with A => A_LOADER_PATH | B => B_LOADER_PATH end.

Definition read_loader_state : M (result error ABLoaderData) :=
  orFail (readFile (onESP LOADER_STATE_PATH)) "while reading state file: {}" (fun d =>
  mret (match unmarshalAB d with Some s => Ok s | None => Err "while decoding state file contents: {}" end)).

Definition load_slot_image (s : ValidSlot) : M (result error bytes) :=
  orFail (readFile (onESP (slotPath s))) "load_image" (fun d => mret (if loadable d then Ok d else Err "load_image")).

Definition boot_slot (raw : Z) : ValidSlot := if raw =? 1 then A else if raw =? 2 then B else A.

(** [main]: the slot whose image is started, and the image. *)
Definition main : M (ValidSlot * bytes) :=
  r ← read_loader_state;
  let loader_data := match r with Ok d => d | Err _ => mkAB 1 0 end in
  boot_slot_raw ←
    (if negb (NextSlot loader_data =? 0) then
       r ← writeFile atomic (onESP LOADER_STATE_PATH) (marshalAB (mkAB (ActiveSlot loader_data) 0));
       match r with
       | Ok _ => mret (NextSlot loader_data)
       | Err _ => panic
       end
     else mret (ActiveSlot loader_data));
  let slot := boot_slot boot_slot_raw in
  img ← load_slot_image slot;
  match img with
  | Ok img => mret (slot, img)
  | Err _ =>
      img ← load_slot_image (other slot);
      match img with
      | Ok img => mret (other slot, img)
      | Err _ => panic
      end
  end.
End main.

(** ** Boot entries *)

Section efi.
Context {utf : Utf16Codec} (fault : access -> string -> bool).

(** [p.PartitionMatch.( *efivarfs.PartitionGPT)]: what [UnmarshalDevicePath] stores there are values of type
    [PartitionGPT], [PartitionMBR] and [PartitionUnknown], and none is a pointer. *)
Definition asPartitionGPTPointer (m : option PartitionMatch) : option bytes :=
  match m with
  | Some (PartitionGPT _) | Some (PartitionMBR _) | Some (PartitionUnknown _ _ _) | None => None
  end.

(** [strings.Contains]. *)
Fixpoint contains (s sub : list Z) : bool :=
  bool_decide (take (length sub) s = sub) || match s with [] => false | _ :: s => contains s sub end.

Definition payloadRunes : list Z := ascii_bytes EFIPayloadPath.
Definition metropolisRunes : list Z := ascii_bytes "Metropolis".

Definition getEntry (idx : Z) : M (result error LoadOption) := fun w =>
  match GetBootEntry fault (efi w) idx with
  | None => Panicked w
  | Some r => efiCall (fun e => (r, e)) w
  end.

(** One variable: the index of the entry that is kept. *)
Definition checkEntry (esp : option Partition) (idx valid : Z) (e : LoadOption) : M Z :=
  match FilePath_ e with
  | [HardDrivePath _ _ _ m; f] =>
      unrelated ← match asPartitionGPTPointer m with
                  | Some u => match esp with Some part => mret (negb (bool_decide (u = ID part))) | None => panic end
                  | None => mret false
                  end;
      if (unrelated : bool) then mret valid
      else match f with
      | FilePath p =>
          if bool_decide (p = payloadRunes) then
            if valid =? -1 then mret idx else _ ← efiCall (fun v => DeleteBootEntry fault v idx); mret valid
          else if contains (Description e) metropolisRunes then _ ← efiCall (fun v => DeleteBootEntry fault v idx); mret valid
          else mret valid
      | _ => mret valid
      end
  | _ => mret valid
  end.

Fixpoint efiLoop (esp : option Partition) (varNames : list string) (valid : Z) : M Z :=
  match varNames with
  | [] => mret valid
  | varName :: varNames =>
      match bootVarIndex varName with
      | None => efiLoop esp varNames valid
      | Some idx =>
          r ← getEntry idx;
          match r with
          | Err _ => efiLoop esp varNames valid
          | Ok e => valid ← checkEntry esp idx valid e; efiLoop esp varNames valid
          end
      end
  end.

Definition bootOption (part : Partition) : LoadOption :=
  mkLoadOption metropolisRunes false false 0
    [HardDrivePath 1 (FirstBlock part) (SizeBlocks part) (Some (PartitionGPT (ID part))); FilePath payloadRunes] [] [].

(** The boot order, with the entry in it. *)
Definition fixupOrder (valid : Z) : M (result error ()) :=
  orFail (efiCall (fun v => (GetBootOrder fault v, v))) "failed to get EFI boot order: %v" (fun bootOrder =>
  if existsb (fun b => b =? valid mod 2 ^ 16) bootOrder then mret (Ok ())
  else orFail (efiCall (fun v => SetBootOrder fault v (valid mod 2 ^ 16 :: bootOrder))) "while setting EFI boot order: %w" (fun _ => mret (Ok ()))).

Definition fixupEFI (s : Service) : M (result error ()) :=
  orFail (efiCall (fun v => (List_ fault v ScopeGlobal, v))) "failed to list EFI variables: %w" (fun varNames =>
  valid ← efiLoop (ESPPart s) varNames (-1);
  if valid =? -1 then
    match ESPPart s with
    | None => panic
    | Some part => orFail (efiCall (fun v => AddBootEntry fault v (bootOption part))) "while restoring missing EFI boot entry for Metropolis: %v" fixupOrder
    end
  else fixupOrder valid).

(** ** Marking a boot as successful *)

Section preloader.
(** The loader that is embedded into the service. *)
Context (abloader : bytes).

Definition swapPath : string := "preloader.swp".

Definition restorePreloader : M (result error ()) :=
  orFail (createFile swapPath) "while creating preloader swap file: %w" (fun _ =>
  orFail (copyToFile swapPath (mkEntry abloader true)) "while writing preloader swap file: %w" (fun _ =>
  orFail transient "while sync'ing preloader swap file: %w" (fun _ =>
  orFail (renameFile swapPath (onESP EFIPayloadPath)) "while swapping preloader: %w" (fun _ =>
  mret (Ok ()))))).

(** The file is opened, and read into the hash. *)
Definition fixupPreloader : M (result error ()) :=
  o ← operation (fun w => (match files w !! onESP EFIPayloadPath with Some _ => Ok () | None => Err "file does not exist" end, w)) unchanged;
  match o with
  | Err _ => restorePreloader
  | Ok _ =>
      r ← readFile (onESP EFIPayloadPath);
      match r with
      | Ok d => if bool_decide (Sum256 d = Sum256 abloader) then mret (Ok ()) else restorePreloader
      | Err _ => restorePreloader
      end
  end.

Definition activate (activeSlot : Z) (abState : ABLoaderData) : M (result error ()) :=
  if negb (ActiveSlot abState =? activeSlot) then
    orFail (setABState (mkAB activeSlot 0)) "while setting next A/B slot: %w" (fun _ => mret (Ok ()))
  else mret (Ok ()).

Definition MarkBootSuccessful (s : Service) : M (result error ()) :=
  if String.eqb (ESPPath s) "" then mret (Err "no ESP information provided to update service, cannot continue")
  else
    _ ← fixupEFI s;
    _ ← fixupPreloader;
    activeSlot ← CurrentlyRunningSlot;
    r ← getABState;
    match r with
    | Ok abState => activate activeSlot abState
    | Err _ => orFail (setABState (mkAB activeSlot 0)) "while recreating A/B loader state: %w" (fun _ => activate activeSlot (mkAB activeSlot 0))
    end.
End preloader.
End efi.
End loader.

(** ** Installing an update *)

(** What a request for the bundle gives: no response, or a status and a body that may end early. *)
Inductive response := NoRequest | NoResponse | Response (status : Z) (body : entry).
Inductive download := Downloaded (d : bytes) | Temporary | Permanent.

Definition temporaryStatus (c : Z) : bool := existsb (fun x => x =? c) [425; 429; 500; 502; 503; 504] || ((520 <=? c) && (c <? 599)).
Definition tryDownloadBundle (r : response) : download :=
  match r with
  | NoRequest | NoResponse => Temporary
  | Response c body =>
      if temporaryStatus c then Temporary
      else if negb (c =? 200) then Permanent
      else if entryOk body then Downloaded (entryData body) else Temporary
  end.
(** [backoff.Retry]: until it gives up after the last of these responses. *)
Fixpoint retryDownload (rs : list response) : option bytes :=
  match rs with
  | [] => None
  | r :: rs => match tryDownloadBundle r with Downloaded d => Some d | Permanent => None | Temporary => retryDownload rs end
  end.

(** A section of a PE file. *)
Record peSection := mkSection { sectionData : option bytes; sectionSize : Z }.

(** [strings.ReplaceAll] for a pattern that is not empty, with the length of the text as fuel. *)
Fixpoint replaceAll (fuel : nat) (s old new : string) : string :=
  match fuel with
  | O => s
  | S fuel =>
      match s with
      | EmptyString => EmptyString
      | String c rest => if HasPrefix s old then new +:+ replaceAll fuel (slice_from s (String.length old)) old new else String c (replaceAll fuel rest old new)
      end
  end.
Definition goString (d : bytes) : string := String.string_of_list_ascii ((fun b => ascii_of_N (Z.to_N b)) <$> d).

Section install.
Context {codec : LoaderCodec} (atomic : string -> bool).
(** Archives and PE files; what [kexec.FileLoad] appends to the command line. *)
Context (openZip : bytes -> option (string -> option entry)) (peFile : bytes -> option (string -> option peSection)) (rsdp : string).

(** A section that is copied to a file in memory. *)
Definition copySection (x : peSection) : M (result error bytes) :=
  orFail transient "copy" (fun _ => mret (match sectionData x with Some d => Ok d | None => Err "read" end)).

Definition fileLoad (kernel : bytes) (initramfs : option bytes) (c : string) : M (result error ()) :=
  operation (fun w => (Ok (), set_staged (Some (mkKexec kernel initramfs (c +:+ rsdp))) w)) unchanged.

Definition stageInitramfs (sections : string -> option peSection) : M (result error (option bytes)) :=
  match sections ".initrd" with
  | Some x =>
      if 0 <? sectionSize x then
        orFail transient "failed to create initramfs memfile: %w" (fun _ =>
        orFail (copySection x) "while copying .initrd PE section: %w" (fun d => mret (Ok (Some d))))
      else mret (Ok None)
  | None => mret (Ok None)
  end.

Definition stageKexec (bootFile : bytes) (targetSlot : Z) : M (result error ()) :=
  match peFile bootFile with
  | None => mret (Err "unable to open bootFile as PE: %w")
  | Some sections =>
      match sections ".cmdline" with
      | None => mret (Err "no .cmdline section in boot PE")
      | Some x =>
          match sectionData x with
          | None => mret (Err "while reading .cmdline PE section: %w")
          | Some raw =>
              let c := goString (trimRight raw) in
              let c := replaceAll (String.length c) c "METROPOLIS-SYSTEM-X" ("METROPOLIS-SYSTEM-" +:+ slotString targetSlot) in
              orFail transient "failed to create kernel memfile: %w" (fun _ =>
              match sections ".linux" with
              | None => mret (Err "no .linux section in boot PE")
              | Some x =>
                  orFail (copySection x) "while copying .linux PE section: %w" (fun kernel =>
                  r ← stageInitramfs sections;
                  match r with
                  | Err e => mret (Err e)
                  | Ok initramfs => orFail (fileLoad kernel initramfs c) "while staging new kexec kernel: %w" (fun _ => mret (Ok ()))
                  end)
              end)
          end
      end
  end.

(** The slot is written, then it is made the next one; [openSystemSlot] fails for an invalid slot. *)
Definition openSystemSlot (slot : Z) : M (result error ()) :=
  if (slot =? SlotA) || (slot =? SlotB) then transient else mret (Err "invalid slot identifier given").

Definition installSlot (activeSlot : Z) (efiPayload systemImage : entry) (withKexec : bool) : M (result error ()) :=
  let targetSlot := Other activeSlot in
  let bootFile := onESP (EFIBootPath targetSlot) in
  orFail (openSystemSlot targetSlot) "Inactive system slot unavailable: %v" (fun _ =>
  orFail (copyToSystem targetSlot systemImage) "Failed to copy system image: %v" (fun _ =>
  orFail (createFile bootFile) "failed to open boot file: %w" (fun _ =>
  orFail (copyToFile bootFile efiPayload) "failed to write boot file: %w" (fun _ =>
  if withKexec then orFail (stageKexec (entryData efiPayload) targetSlot) "while kexec staging: %w" (fun _ => mret (Ok ()))
  else orFail (setABState atomic (mkAB activeSlot targetSlot)) "while setting next A/B slot: %w" (fun _ => mret (Ok ())))))).

Definition InstallBundle (s : Service) (responses : list response) (withKexec : bool) : M (result error ()) :=
  if String.eqb (ESPPath s) "" then mret (Err "no ESP information provided to update service, cannot continue")
  else match retryDownload responses with
  | None => mret (Err "error downloading Metropolis bundle: %v")
  | Some bundleRaw =>
      match openZip bundleRaw with
      | None => mret (Err "failed to open node bundle: %w")
      | Some bundle =>
          match bundle "kernel_efi.efi", bundle "verity_rootfs.img" with
          | Some efiPayload, Some systemImage =>
              activeSlot ← CurrentlyRunningSlot;
              if activeSlot =? SlotInvalid then mret (Err "unable to determine active slot, cannot continue")
              else installSlot activeSlot efiPayload systemImage withKexec
          | _, _ => mret (Err "invalid bundle: %w")
          end
      end
  end.
End install.

End Update.
