(* ===== verification/UpdateProps.v ===== *)
(** * A/B updates: what a node boots

    A node as a transition system: it boots through the loader, marks boots as successful, installs updates,
    starts another kernel, and may stop at any operation of these programs.  If writes of the loader's
    state are atomic and updates are installed only after the boot was marked, the loader's
    active slot is always one that was marked, with the content it had then, and an update
    that was not marked is booted at most once.  Without either of them this does not hold.  The
    preloader is replaced atomically, and the entries of the firmware are repaired. *)

From S2P Require Import Prelude GoStrings Bytes Sha256 Gpt Efivar EfivarCodec EfivarProps Update.
From Stdlib Require Import ZArith.

Module UpdateProps.
Import Bytes Sha256 Gpt Efivar Update.
Open Scope Z_scope.

(** ** Programs that leave something alone *)

Definition final {A} (r : ran A) : world := match r with Done _ w | Crashed w | Panicked w => w end.

(** The files [P] and the partitions [S] are the same. *)
Definition same (P : string -> Prop) (S : Z -> Prop) (w w' : world) : Prop :=
  (forall p, P p -> files w' !! p = files w !! p) /\ (forall s, S s -> systemOf s w' = systemOf s w) /\ cmdline w' = cmdline w.

Section frames.
Context (P : string -> Prop) (S : Z -> Prop).

Definition within {A} (m : M A) : Prop := forall w, same P S w (final (m w)).

Lemma same_refl w : same P S w w.
Proof. done. Qed.
Lemma same_trans w1 w2 w3 : same P S w1 w2 -> same P S w2 w3 -> same P S w1 w3.
Proof.
  intros (F1 & S1 & C1) (F2 & S2 & C2). split_and!; [|..|congruence].
  - intros p Hp. by rewrite F2, F1.
  - intros s Hs. by rewrite S2, S1.
Qed.

Lemma within_ret {A} (a : A) : within (mret a).
Proof. done. Qed.
Lemma within_panic {A} : within (panic : M A).
Proof. done. Qed.
Lemma within_bind {A B} (m : M A) (k : A -> M B) : within m -> (forall a, within (k a)) -> within (m ≫= k).
Proof.
  intros Hm Hk w. specialize (Hm w). unfold mbind, M_bind. destruct (m w) as [a w1|w1|w1]; cbn [final] in *; [|done..].
  eapply same_trans; [done|apply Hk].
Qed.
Lemma within_orFail {A B} (m : M (result error A)) what (k : A -> M (result error B)) : within m -> (forall a, within (k a)) -> within (orFail m what k).
Proof. intros Hm Hk. apply within_bind; [done|]. intros [a|e]; [apply Hk|done]. Qed.
Lemma within_operation {A} (full : world -> result error A * world) part :
  (forall w, same P S w (full w).2) -> (forall n w, same P S w (part n w)) -> within (operation full part).
Proof.
  intros Hf Hp w. unfold operation. assert (forall os, same P S w (set_outcomes os w)) as Ho by done.
  destruct (outcomes w) as [|[|n|n] os]; cbn [final].
  - specialize (Hf w). by destruct (full w).
  - specialize (Hf (set_outcomes os w)). destruct (full (set_outcomes os w)). by apply (same_trans w (set_outcomes os w)).
  - by apply (same_trans w (set_outcomes os w)).
  - by apply (same_trans w (set_outcomes os w)).
Qed.

Lemma same_insert p d w : ~ P p -> same P S w (set_files (<[p := d]> (files w)) w).
Proof. intros Hp. split; [|done]. intros q Hq. cbn. rewrite lookup_insert_ne; [done|]. by intros ->. Qed.

Lemma within_transient : within transient.
Proof. by apply within_operation. Qed.
Lemma within_readFile p : within (readFile p).
Proof. by apply within_operation. Qed.
Lemma within_writeFile atomic p d : ~ P p -> within (writeFile atomic p d).
Proof. intros Hp. apply within_operation; [intros w; by apply same_insert|]. intros [|n] w; [done|]. by apply same_insert. Qed.
Lemma within_createFile p : ~ P p -> within (createFile p).
Proof. intros Hp. apply within_operation; [intros w; by apply same_insert|]. intros [|n] w; [done|]. by apply same_insert. Qed.
Lemma within_copyToFile p e : ~ P p -> within (copyToFile p e).
Proof. intros Hp. apply within_operation; [intros w; by apply same_insert|intros n w; by apply same_insert]. Qed.
Lemma within_renameFile a b : ~ P a -> ~ P b -> within (renameFile a b).
Proof.
  intros Ha Hb. assert (forall w, same P S w (moved a b w)) as Hm.
  { intros w. unfold moved. destruct (files w !! a) as [d|]; [|done]. split; [|done]. intros q Hq. cbn.
    rewrite lookup_insert_ne by (by intros ->). rewrite lookup_delete_ne by (by intros ->). done. }
  apply within_operation; [done|]. by intros [|n] w.
Qed.
Lemma within_copyToSystem s e : ~ S s -> (forall s', S s' -> s' = SlotA \/ s' = SlotB) -> s = SlotA \/ s = SlotB -> within (copyToSystem s e).
Proof.
  intros Hs HS Hv. assert (forall d w, same P S w (set_system s d w)) as Hset.
  { intros d w. split; [done|]. split; [|done]. intros s' Hs'. assert (s' <> s) by (by intros ->).
    unfold systemOf, set_system. cbn. destruct (HS s' Hs') as [->| ->], Hv as [->| ->]; done. }
  apply within_operation; [intros w|intros n w]; apply Hset.
Qed.
Lemma within_efiCall {A} (f : efivars -> result varError A * efivars) : within (efiCall f).
Proof. apply within_operation; [|done]. intros w. by destruct (f (efi w)). Qed.
End frames.

Create HintDb frame.
#[export] Hint Resolve within_ret within_panic within_bind within_orFail within_transient within_readFile within_writeFile within_createFile
  within_copyToFile within_renameFile within_efiCall : frame.

(** ** The state of the loader *)

Definition slots (s : Z) : Prop := s = SlotA \/ s = SlotB.
Definition bootFile (s : Z) : string := onESP (EFIBootPath s).
Definition imageOf (s : Z) (w : world) : option bytes * bytes := (files w !! bootFile s, systemOf s w).

Lemma image_same P S s w w' : P (bootFile s) -> S s -> same P S w w' -> imageOf s w' = imageOf s w.
Proof. intros HP HS (Hf & Hs & _). unfold imageOf. by rewrite Hf, Hs. Qed.

Lemma bootFile_state s : slots s -> bootFile s <> loaderStatePath.
Proof. by intros [->| ->]. Qed.
Lemma bootFile_other s : slots s -> bootFile (Other s) <> bootFile s.
Proof. by intros [->| ->]. Qed.
Lemma Other_slots s : slots s -> slots (Other s).
Proof. intros [->| ->]; [by right|by left]. Qed.
Lemma Other_ne s : slots s -> Other s <> s.
Proof. by intros [->| ->]. Qed.

Section loader.
Context {codec : LoaderCodec} (atomic : string -> bool).

(** What the loader reads, and the slot that it boots if no other one is requested. *)
Definition loaderState (w : world) : ABLoaderData :=
  match files w !! loaderStatePath with Some d => default (mkAB 1 0) (unmarshalAB d) | None => mkAB 1 0 end.
Definition slotNumber (s : ValidSlot) : Z := match s with A => SlotA | B => SlotB end.
Definition activeOf (w : world) : Z := slotNumber (boot_slot (ActiveSlot (loaderState w))).
Definition inRange (d : ABLoaderData) : Prop := 0 <= ActiveSlot d <= 2 /\ 0 <= NextSlot d <= 2.

Lemma loaderState_same P S w w' : P loaderStatePath -> same P S w w' -> loaderState w' = loaderState w.
Proof. intros HP (Hf & _). unfold loaderState. by rewrite Hf. Qed.

Lemma loaderState_written d w : inRange d -> loaderState (set_files (<[loaderStatePath := marshalAB d]> (files w)) w) = d.
Proof. intros [Ha Hn]. unfold loaderState. cbn [files set_files]. by rewrite lookup_insert_eq, unmarshal_marshal. Qed.

Definition exceptState (p : string) : Prop := p <> loaderStatePath.

Lemma writeState_spec d w : atomic loaderStatePath = true -> inRange d ->
  let r := writeFile atomic loaderStatePath (marshalAB d) w in
  same exceptState slots w (final r) /\ (loaderState (final r) = loaderState w \/ loaderState (final r) = d) /\
  match r with Done (Ok _) w' => loaderState w' = d | _ => True end.
Proof.
  intros Hat Hd r. split; [by apply within_writeFile; intros []|]. unfold r, writeFile, operation. rewrite Hat.
  destruct (outcomes w) as [|[|[|n]|[|n]] os]; cbn [final]; rewrite ?loaderState_written by done; auto.
Qed.

Lemma setABState_spec d w : atomic loaderStatePath = true -> inRange d ->
  let r := setABState atomic d w in
  same exceptState slots w (final r) /\ (loaderState (final r) = loaderState w \/ loaderState (final r) = d) /\
  match r with Done (Ok _) w' => loaderState w' = d | _ => True end.
Proof. apply writeState_spec. Qed.

Lemma readFile_spec p w : (exists os, readFile p w = Crashed (set_outcomes os w)) \/ (exists os r, readFile p w = Done r (set_outcomes os w) /\
  match r with Ok d => files w !! p = Some d | Err _ => True end) \/ (exists r, readFile p w = Done r w /\ r = match files w !! p with Some d => Ok d | None => Err "file does not exist" end).
Proof.
  unfold readFile, operation. destruct (outcomes w) as [|[|n|n] os]; [by right; right; eexists| | |by left; eexists].
  - right. left. eexists os, _. split; [done|]. cbn. by destruct (files w !! p).
  - right. left. by eexists os, _.
Qed.

(** Reading the state: it is not changed, and what is read is there. *)
Definition readState (e1 e2 : error) : M (result error ABLoaderData) :=
  orFail (readFile loaderStatePath) e1 (fun d => mret (match unmarshalAB d with Some s => Ok s | None => Err e2 end)).
Lemma readState_spec e1 e2 w : exists w1, same (fun _ => True) slots w w1 /\
  ((exists d, readState e1 e2 w = Done (Ok d) w1 /\ loaderState w = d) \/ (exists e, readState e1 e2 w = Done (Err e) w1) \/ readState e1 e2 w = Crashed w1).
Proof.
  unfold readState, orFail, mbind, M_bind. destruct (readFile_spec loaderStatePath w) as [[os ->]|[(os & r & -> & Hr)|(r & -> & Hr)]].
  - exists (set_outcomes os w). split; [done|]. by right; right.
  - exists (set_outcomes os w). split; [done|]. destruct r as [d|e]; [|right; left; by eexists]. cbn. destruct (unmarshalAB d) as [x|] eqn:E; [|right; left; by eexists].
    left. exists x. split; [done|]. unfold loaderState. by rewrite Hr, E.
  - exists w. split; [done|]. subst r. destruct (files w !! loaderStatePath) as [d|] eqn:Ef; [|right; left; by eexists]. cbn.
    destruct (unmarshalAB d) as [x|] eqn:E; [|right; left; by eexists]. left. exists x. split; [done|]. unfold loaderState. by rewrite Ef, E.
Qed.

(** *** Marking a boot *)

Section mark.
Context {utf : Utf16Codec} (fault : access -> string -> bool) (abloader : bytes).

Lemma within_getEntry P S idx : within P S (getEntry fault idx).
Proof. intros w. unfold getEntry. destruct (GetBootEntry fault (efi w) idx) as [r|]; [|done]. apply within_efiCall. Qed.

Lemma within_checkEntry P S esp idx valid e : within P S (checkEntry fault esp idx valid e).
Proof.
  unfold checkEntry. destruct (FilePath_ e) as [|[n a b m| |] [|f [|]]]; try apply within_ret. apply within_bind.
  { unfold asPartitionGPTPointer. destruct m as [[| |]|]; apply within_ret. }
  intros [|]; [apply within_ret|]. destruct f as [|p|]; [apply within_ret| |apply within_ret].
  destruct (bool_decide _); [|destruct (contains _ _); [|apply within_ret]; apply within_bind; [apply within_efiCall|intros; apply within_ret]].
  destruct (valid =? -1); [apply within_ret|]. apply within_bind; [apply within_efiCall|intros; apply within_ret].
Qed.

Lemma within_efiLoop P S esp names valid : within P S (efiLoop fault esp names valid).
Proof.
  revert valid. induction names as [|name names IH]; intros valid; cbn [efiLoop]; [apply within_ret|]. destruct (bootVarIndex name) as [idx|]; [|apply IH].
  apply within_bind; [apply within_getEntry|]. intros [e|]; [|apply IH]. apply within_bind; [apply within_checkEntry|apply IH].
Qed.

Lemma within_fixupOrder P S valid : within P S (fixupOrder fault valid).
Proof.
  apply within_orFail; [apply within_efiCall|]. intros o. destruct (existsb _ _); [apply within_ret|]. apply within_orFail; [apply within_efiCall|intros; apply within_ret].
Qed.

Lemma within_fixupEFI P S s : within P S (fixupEFI fault s).
Proof.
  apply within_orFail; [apply within_efiCall|]. intros names. apply within_bind; [apply within_efiLoop|]. intros valid.
  destruct (valid =? -1); [|apply within_fixupOrder]. destruct (ESPPart s); [|apply within_panic].
  apply within_orFail; [apply within_efiCall|intros; apply within_fixupOrder].
Qed.

Lemma within_restorePreloader P S : ~ P swapPath -> ~ P (onESP EFIPayloadPath) -> within P S (restorePreloader abloader).
Proof.
  intros H1 H2. repeat (apply within_orFail; [eauto with frame|intros _]). apply within_ret.
Qed.

Lemma within_fixupPreloader P S : ~ P swapPath -> ~ P (onESP EFIPayloadPath) -> within P S (fixupPreloader abloader).
Proof.
  intros H1 H2. apply within_bind; [by apply within_operation|]. intros [_|_]; [|by apply within_restorePreloader].
  apply within_bind; [apply within_readFile|]. intros [d|]; [|by apply within_restorePreloader].
  destruct (bool_decide _); [apply within_ret|by apply within_restorePreloader].
Qed.

(** Neither the slots nor the state of the loader. *)
Definition slotFile (p : string) : Prop := p <> swapPath /\ p <> onESP EFIPayloadPath.
Definition slotFileOnly (p : string) : Prop := slotFile p /\ p <> loaderStatePath.

Lemma slotFile_state : slotFile loaderStatePath.
Proof. by split. Qed.
Lemma slotFile_boot s : slots s -> slotFileOnly (bootFile s).
Proof. by intros [->| ->]. Qed.

Lemma same_weaken (P P' : string -> Prop) S w w' : (forall p, P' p -> P p) -> same P S w w' -> same P' S w w'.
Proof. intros HP (Hf & Hr). split; [|done]. intros p Hp. by apply Hf, HP. Qed.

Lemma run_bind {A B} (m : M A) (k : A -> M B) w :
  (m ≫= k) w = match m w with Done a w => k a w | Crashed w => Crashed w | Panicked w => Panicked w end.
Proof. done. Qed.

(** After marking slot [r] the state is as before or says so, and says so if there was no error. *)
Definition markPost (w : world) (r : Z) (x : ran (result error ())) : Prop :=
  same slotFileOnly slots w (final x) /\ (loaderState (final x) = loaderState w \/ loaderState (final x) = mkAB r 0) /\
  match x with Done (Ok _) w' => ActiveSlot (loaderState w') = r | _ => True end.

Lemma markPost_stop w r w1 : same slotFile slots w w1 -> markPost w r (Crashed w1) /\ markPost w r (Panicked w1).
Proof.
  intros Hs. assert (same slotFileOnly slots w w1) by (eapply same_weaken; [|done]; by intros p [? _]).
  assert (loaderState w1 = loaderState w) by (eapply loaderState_same; [apply slotFile_state|done]). by split; split_and!; [|left| | |left|].
Qed.

Lemma slot_inRange r : slots r -> inRange (mkAB r 0).
Proof. unfold inRange, slots, SlotA, SlotB. cbn. lia. Qed.

Lemma activate_spec r d w0 w : atomic loaderStatePath = true -> slots r -> loaderState w = d -> same slotFileOnly slots w0 w ->
  loaderState w = loaderState w0 \/ loaderState w = mkAB r 0 -> markPost w0 r (activate atomic r d w).
Proof.
  intros Hat Hr Hd H0 Hl. unfold activate. destruct (Z.eqb_spec (ActiveSlot d) r) as [E|E]; cbn [negb].
  { cbn. split_and!; [done|done|by cbn; rewrite Hd]. }
  destruct (setABState_spec (mkAB r 0) w Hat (slot_inRange r Hr)) as (Hs & Hst & Hok). unfold orFail. rewrite run_bind.
  assert (same slotFileOnly slots w0 (final (setABState atomic (mkAB r 0) w))) as Hs' by (eapply same_trans; [done|]; eapply same_weaken; [|done]; by intros p [_ ?]).
  destruct (setABState atomic (mkAB r 0) w) as [[[]|e] w1|w1|w1]; cbn [final] in *; (split_and!; cbn; [done|destruct Hst as [->| ->]; auto|try done]). by rewrite Hok.
Qed.

Lemma MarkBootSuccessful_spec s w r c : atomic loaderStatePath = true -> cmdline w = Some c -> slotMatch c = r -> slots r ->
  markPost w r (MarkBootSuccessful atomic fault abloader s w).
Proof.
  intros Hat Hc Hm Hr. unfold MarkBootSuccessful. destruct (String.eqb _ _); [cbn; by split_and!; [|left|]|].
  pose proof (within_fixupEFI slotFile slots s w) as H1. rewrite run_bind.
  destruct (fixupEFI fault s w) as [a w1|w1|w1]; cbn [final] in *; [|by apply markPost_stop..].
  pose proof (within_fixupPreloader slotFile slots (fun H => proj1 H eq_refl) (fun H => proj2 H eq_refl) w1) as H2. rewrite run_bind.
  apply (same_trans _ _ w w1) in H2; [|done].
  destruct (fixupPreloader abloader w1) as [a2 w2|w2|w2]; cbn [final] in *; [|by apply markPost_stop..].
  rewrite run_bind. unfold CurrentlyRunningSlot. rewrite (proj2 (proj2 H2)), Hc, Hm.
  change getABState with (readState "read" "unmarshal"). destruct (readState_spec "read" "unmarshal" w2) as (w3 & H3 & Hg). rewrite run_bind.
  assert (same slotFile slots w w3) as H3' by (eapply same_trans; [done|]; by eapply same_weaken; [|done]).
  assert (loaderState w3 = loaderState w2) as Hl3 by (by eapply loaderState_same; [|done]).
  assert (loaderState w3 = loaderState w) as Hl by (eapply loaderState_same; [apply slotFile_state|done]).
  assert (same slotFileOnly slots w w3) as Hs3 by (eapply same_weaken; [|done]; by intros p [? _]).
  destruct Hg as [(d & -> & Hd)|[(e & ->)| ->]]; [apply activate_spec; [done..|congruence|done|by left]| |by apply markPost_stop].
  unfold orFail. rewrite run_bind. destruct (setABState_spec (mkAB r 0) w3 Hat (slot_inRange r Hr)) as (Hs & Hst & Hok).
  assert (same slotFileOnly slots w (final (setABState atomic (mkAB r 0) w3))) as Hs' by (eapply same_trans; [done|]; eapply same_weaken; [|done]; by intros p [_ ?]).
  rewrite Hl in Hst. destruct (setABState atomic (mkAB r 0) w3) as [[[]|e2] w4|w4|w4]; cbn [final] in *; [|by cbn..]. by apply activate_spec.
Qed.

(** *** The preloader *)

(** After an operation on files: its effect, or no success and at most a part of it. *)
Lemma operation_cases {A} (full : world -> result error A * world) part w : exists w0, files w0 = files w /\
  ((exists r w1, operation full part w = Done r w1 /\ full w0 = (r, w1)) \/
   (exists n, (exists e, operation full part w = Done (Err e) (part n w0)) \/ operation full part w = Crashed (part n w0))).
Proof.
  unfold operation. destruct (outcomes w) as [|[|n|n] os].
  - exists w. split; [done|]. left. destruct (full w) as [r w1] eqn:E. by exists r, w1.
  - exists (set_outcomes os w). split; [done|]. left. destruct (full (set_outcomes os w)) as [r w1] eqn:E. by exists r, w1.
  - exists (set_outcomes os w). split; [done|]. right. exists n. left. by eexists.
  - exists (set_outcomes os w). split; [done|]. right. exists n. by right.
Qed.

(** Cases of the next operation, in a world [w] with the same files. *)
Ltac operate w E n :=
  match goal with
  | |- context [operation ?f ?p ?x] => destruct (operation_cases f p x) as (w & E & [(? & ? & -> & [= <- <-])|(n & [(? & ->)| ->])])
  end.

Definition payloadFile : string := onESP EFIPayloadPath.

(** The file is as it was or the loader, and the loader if there was no error. *)
Definition preloaderPost (w : world) (x : ran (result error ())) : Prop :=
  (files (final x) !! payloadFile = files w !! payloadFile \/ files (final x) !! payloadFile = Some abloader) /\
  match x with Done (Ok _) w' => exists d, files w' !! payloadFile = Some d /\ Sum256 d = Sum256 abloader | _ => True end.

Lemma renamePreloader_spec w0 w : files w !! swapPath = Some abloader -> files w !! payloadFile = files w0 !! payloadFile ->
  preloaderPost w0 (orFail (renameFile swapPath payloadFile) "while swapping preloader: %w" (fun _ => mret (Ok ())) w).
Proof.
  intros Hs Hp. unfold orFail. rewrite run_bind. assert (forall w1, files w1 = files w -> files (moved swapPath payloadFile w1) !! payloadFile = Some abloader) as Hm.
  { intros w1 E. unfold moved. rewrite E, Hs. cbn. by rewrite lookup_insert_eq. }
  unfold renameFile. operate w1 Ew n.
  - rewrite Ew, Hs. split; cbn; [right; by apply Hm|]. exists abloader. split; [by apply Hm|done].
  - destruct n as [|n]; (split; [cbn|done]); [left; by rewrite Ew|right; by apply Hm].
  - destruct n as [|n]; (split; [cbn|done]); [left; by rewrite Ew|right; by apply Hm].
Qed.

Lemma restorePreloader_spec w : preloaderPost w (restorePreloader abloader w).
Proof.
  assert (swapPath <> payloadFile) as Hne by done. unfold restorePreloader. change (onESP EFIPayloadPath) with payloadFile.
  assert (forall w1, files w1 !! payloadFile = files w !! payloadFile -> preloaderPost w (Crashed w1) /\ forall e, preloaderPost w (Done (Err e) w1)) as Hstop.
  { intros w1 E. by split; [split; [left|]|intros e; split; [left|]]. }
  assert (forall d w1, files w1 !! payloadFile = files w !! payloadFile -> files (set_files (<[swapPath := d]> (files w1)) w1) !! payloadFile = files w !! payloadFile) as Hins.
  { intros d w1 E. cbn. by rewrite lookup_insert_ne. }
  unfold orFail at 1. rewrite run_bind. unfold createFile. operate w1 Ew n; [|destruct n; apply Hstop; [by rewrite Ew|apply Hins; by rewrite Ew]..].
  unfold orFail at 1. rewrite run_bind. unfold copyToFile. cbn [entryOk entryData]. set (w2 := set_files (<[swapPath := []]> (files w1)) w1).
  assert (files w2 !! payloadFile = files w !! payloadFile) as H2 by (apply Hins; by rewrite Ew). assert (files w2 !! swapPath = Some []) as H2s by (unfold w2; cbn; by rewrite lookup_insert_eq).
  operate w3 Ew3 n; [|apply Hstop; apply Hins; by rewrite Ew3..].
  unfold orFail at 1. rewrite run_bind. set (w4 := appendTo swapPath abloader w3).
  assert (files w4 !! payloadFile = files w !! payloadFile) as H4 by (apply Hins; by rewrite Ew3).
  assert (files w4 !! swapPath = Some abloader) as H4s by (unfold w4, appendTo; cbn; by rewrite Ew3, H2s, lookup_insert_eq).
  unfold transient. operate w5 Ew5 n; [|apply Hstop; unfold unchanged; by rewrite Ew5..]. apply renamePreloader_spec; by rewrite Ew5.
Qed.

(** The preloader is replaced as a whole, and no error means that it has the right hash. *)
Lemma fixupPreloader_spec w : preloaderPost w (fixupPreloader abloader w).
Proof.
  assert (forall w1, files w1 = files w -> preloaderPost w (restorePreloader abloader w1)) as Hr.
  { intros w1 E. destruct (restorePreloader_spec w1) as [H1 H2]. split; [by rewrite <- E|done]. }
  unfold fixupPreloader. change (onESP EFIPayloadPath) with payloadFile. rewrite run_bind.
  operate w1 Ew n; [|by apply Hr|split; [left; unfold unchanged; cbn; by rewrite Ew|done]].
  destruct (files w1 !! payloadFile) as [d|] eqn:Ed; [|by apply Hr]. rewrite run_bind. unfold readFile.
  operate w3 Ew3 n; [|apply Hr; unfold unchanged; congruence|split; [left; unfold unchanged; cbn; by rewrite Ew3, Ew|done]].
  rewrite Ew3, Ed. destruct (bool_decide_reflect (Sum256 d = Sum256 abloader)) as [E|]; [|apply Hr; congruence].
  split; cbn; [left; by rewrite Ew3, Ew|]. exists d. split; [by rewrite Ew3|done].
Qed.
End mark.

(** *** Installing an update *)

Section install.
Context (openZip : bytes -> option (string -> option entry)) (peFile : bytes -> option (string -> option peSection)) (rsdp : string).

(** Running from slot [r], only the other slot is written, and the state of the loader may request it. *)
Definition installs (r : Z) (w w' : world) : Prop :=
  same (fun p => p <> loaderStatePath /\ p <> bootFile (Other r)) (fun s => s = r) w w' /\
  (loaderState w' = loaderState w \/ loaderState w' = mkAB r (Other r)).

Lemma installs_refl r w : installs r w w.
Proof. by split; [|left]. Qed.
Lemma installs_trans r w1 w2 w3 : installs r w1 w2 -> installs r w2 w3 -> installs r w1 w3.
Proof. intros [H1 [E1|E1]] [H2 [E2|E2]]; (split; [by eapply same_trans|]); rewrite E2; auto. Qed.
Lemma installs_orFail {A B} r (m : M (result error A)) what (k : A -> M (result error B)) :
  (forall w, installs r w (final (m w))) -> (forall a w, installs r w (final (k a w))) -> forall w, installs r w (final (orFail m what k w)).
Proof.
  intros Hm Hk w. unfold orFail. rewrite run_bind. specialize (Hm w). destruct (m w) as [[a|e] w1|w1|w1]; cbn [final] in *; [|done..].
  by eapply installs_trans.
Qed.
Lemma within_installs {A} r (m : M A) : within (fun p => p <> bootFile (Other r)) (fun s => s = r) m -> slots r -> forall w, installs r w (final (m w)).
Proof.
  intros Hm Hr w. specialize (Hm w). split; [eapply same_weaken; [|done]; by intros p []|]. left. eapply loaderState_same; [|done].
  intros E. by apply (bootFile_state (Other r)); [apply Other_slots|].
Qed.

Lemma within_stageKexec P S d t : within P S (stageKexec peFile rsdp d t).
Proof.
  assert (forall x, within P S (copySection x)) as Hc by (intros x; apply within_orFail; [apply within_transient|intros; apply within_ret]).
  unfold stageKexec. destruct (peFile d) as [sections|]; [|apply within_ret]. destruct (sections ".cmdline") as [x|]; [|apply within_ret].
  destruct (sectionData x) as [raw|]; [|apply within_ret]. apply within_orFail; [apply within_transient|intros _].
  destruct (sections ".linux") as [y|]; [|apply within_ret]. apply within_orFail; [apply Hc|intros kernel]. apply within_bind.
  - unfold stageInitramfs. destruct (sections ".initrd") as [z|]; [|apply within_ret]. destruct (0 <? sectionSize z); [|apply within_ret].
    apply within_orFail; [apply within_transient|intros _]. apply within_orFail; [apply Hc|intros; apply within_ret].
  - intros [i|e]; [|apply within_ret]. apply within_orFail; [by apply within_operation|intros; apply within_ret].
Qed.

Lemma installSlot_spec r efiPayload systemImage withKexec w : atomic loaderStatePath = true -> slots r ->
  installs r w (final (installSlot atomic peFile rsdp r efiPayload systemImage withKexec w)).
Proof.
  intros Hat Hr. pose proof (Other_slots r Hr) as Ho. revert w. unfold installSlot.
  apply installs_orFail; [|intros _; apply installs_orFail; [|intros _; apply installs_orFail; [|intros _; apply installs_orFail; [|intros _]]]].
  - apply within_installs; [|done]. unfold openSystemSlot. destruct (_ || _); [apply within_transient|apply within_ret].
  - apply within_installs; [|done]. apply within_copyToSystem; [by apply Other_ne|intros s' ->; exact Hr|exact Ho].
  - apply within_installs; [|done]. apply within_createFile. auto.
  - apply within_installs; [|done]. apply within_copyToFile. auto.
  - destruct withKexec.
    + apply within_installs; [|done]. apply within_orFail; [apply within_stageKexec|intros; apply within_ret].
    + apply installs_orFail; [|intros _; apply installs_refl]. intros w.
      assert (inRange (mkAB r (Other r))) as Hin by (destruct Hr as [->| ->]; by vm_compute).
      destruct (setABState_spec (mkAB r (Other r)) w Hat Hin) as (Hs & Hst & _). split; [|done].
      destruct Hs as (Hf & Hs & Hc). split_and!; [intros p [Hp _]; by apply Hf|intros s ->; by apply Hs|done].
Qed.

Lemma InstallBundle_spec s w r c responses withKexec : atomic loaderStatePath = true -> cmdline w = Some c -> slotMatch c = r -> slots r ->
  installs r w (final (InstallBundle atomic openZip peFile rsdp s responses withKexec w)).
Proof.
  intros Hat Hc Hm Hr. unfold InstallBundle. destruct (String.eqb _ _); [apply installs_refl|]. destruct (retryDownload responses) as [raw|]; [|apply installs_refl].
  destruct (openZip raw) as [bundle|]; [|apply installs_refl]. destruct (bundle _) as [k|]; [|apply installs_refl]. destruct (bundle _) as [y|]; [|apply installs_refl].
  rewrite run_bind. unfold CurrentlyRunningSlot. rewrite Hc, Hm. destruct (Z.eqb_spec r SlotInvalid) as [E|_]; [exfalso; rewrite E in Hr; by destruct Hr|]. by apply installSlot_spec.
Qed.
End install.

(** *** Booting *)

Section boot.
Context (loadable : bytes -> bool).

Lemma within_load_slot_image P S s : within P S (load_slot_image loadable s).
Proof. apply within_orFail; [apply within_readFile|intros; apply within_ret]. Qed.

(** A request for the next boot may be gone after a boot; nothing else changes. *)
Definition bootPost (w w' : world) : Prop :=
  same exceptState slots w w' /\ (loaderState w' = loaderState w \/ loaderState w' = mkAB (ActiveSlot (loaderState w)) 0).

Lemma main_spec w : atomic loaderStatePath = true -> inRange (loaderState w) -> bootPost w (final (main atomic loadable w)).
Proof.
  intros Hat Hin. unfold main. set (m := read_loader_state).
  change m with (readState "while reading state file: {}" "while decoding state file contents: {}"). clear m. rewrite run_bind.
  destruct (readState_spec "while reading state file: {}" "while decoding state file contents: {}" w) as (w1 & H1 & Hg).
  assert (loaderState w1 = loaderState w) as Hl1 by (by eapply loaderState_same; [|done]).
  assert (same exceptState slots w w1) as H1' by (by eapply same_weaken; [|done]).
  assert (forall s w2, bootPost w w2 -> bootPost w (final ((load_slot_image loadable s ≫= fun img => match img with
    | Ok img => mret (s, img) | Err _ => load_slot_image loadable (other s) ≫= fun img => match img with Ok img => mret (other s, img) | Err _ => panic end end) w2))) as Hload.
  { intros s w2 [Hs2 Hl2]. assert (within (fun _ => True) slots (load_slot_image loadable s ≫= fun img => match img with
      | Ok img => mret (s, img) | Err _ => load_slot_image loadable (other s) ≫= fun img => match img with Ok img => mret (other s, img) | Err _ => panic end end)) as Hw.
    { apply within_bind; [apply within_load_slot_image|]. intros [img|]; [apply within_ret|].
      apply within_bind; [apply within_load_slot_image|]. by intros [img|]. }
    specialize (Hw w2). split; [eapply same_trans; [done|]; by eapply same_weaken; [|done]|]. by rewrite (loaderState_same _ _ w2 _ I Hw). }
  destruct Hg as [(d & -> & Hd)|[(e & ->)| ->]]; [| |split; [done|by left]].
  2:{ cbn [NextSlot negb Z.eqb]. apply (Hload A). split; [done|by left]. }
  rewrite run_bind. destruct (Z.eqb_spec (NextSlot d) 0) as [E|E]; cbn [negb]; [cbn; apply Hload; split; [done|by left]|].
  rewrite run_bind. assert (inRange (mkAB (ActiveSlot d) 0)) as Hin' by (rewrite <- Hd; split; [apply Hin|cbn; lia]).
  destruct (writeState_spec (mkAB (ActiveSlot d) 0) w1 Hat Hin') as (Hs & Hst & _). change (onESP LOADER_STATE_PATH) with loaderStatePath.
  assert (bootPost w (final (writeFile atomic loaderStatePath (marshalAB (mkAB (ActiveSlot d) 0)) w1))) as Hb.
  { split; [by eapply same_trans|]. rewrite Hd. rewrite Hl1, Hd in Hst. done. }
  destruct (writeFile atomic loaderStatePath _ w1) as [[[]|e] w2|w2|w2]; cbn [final] in *; [by apply Hload|done..].
Qed.
End boot.

(** ** A node *)

Section system.
Context {utf : Utf16Codec} (fault : access -> string -> bool) (abloader : bytes) (loadable : bytes -> bool).
Context (openZip : bytes -> option (string -> option entry)) (peFile : bytes -> option (string -> option peSection)) (rsdp : string).
Context (service : Service).

(** Its disk; the slot that runs, if it runs; whether this boot was marked without an error; and the slots from which
    [MarkBootSuccessful] was called, with their content at that time. *)
Record node := mkNode { disk : world; running : option Z; marked : bool; proven : Z -> option (option bytes * bytes) }.

Definition on (os : list outcome) (n : node) : world := set_outcomes os (disk n).
Definition update (s : Z) (x : option (option bytes * bytes)) (f : Z -> option (option bytes * bytes)) : Z -> option (option bytes * bytes) :=
  fun s' => if s' =? s then x else f s'.

(** After a program: the node goes on, or it is off. *)
Definition after {A} (r : ran A) (slot : Z) (m : A -> bool) (p : Z -> option (option bytes * bytes)) : node :=
  match r with
  | Done a w => mkNode w (Some slot) (m a) p
  | Crashed w | Panicked w => mkNode w None false p
  end.
Definition isOk {A} (r : result error A) : bool := match r with Ok _ => true | Err _ => false end.

Inductive step (n : node) : node -> Prop :=
| step_boot os s img w c : running n = None -> main atomic loadable (on os n) = Done (s, img) w -> slotMatch c = slotNumber s ->
    step n (mkNode (set_cmdline (Some c) (set_staged None w)) (Some (slotNumber s)) false (proven n))
| step_boot_stops os w : running n = None -> main atomic loadable (on os n) = Crashed w \/ main atomic loadable (on os n) = Panicked w ->
    step n (mkNode w None false (proven n))
| step_mark os r : running n = Some r ->
    step n (after (MarkBootSuccessful atomic fault abloader service (on os n)) r isOk (update r (Some (imageOf r (disk n))) (proven n)))
| step_install os r responses withKexec : running n = Some r -> marked n = true ->
    step n (after (InstallBundle atomic openZip peFile rsdp service responses withKexec (on os n)) r (fun _ => true) (update (Other r) None (proven n)))
| step_kexec r k : running n = Some r -> staged (disk n) = Some k -> slots (slotMatch (kexecCmdline k)) ->
    step n (mkNode (set_cmdline (Some (kexecCmdline k)) (set_staged None (disk n))) (Some (slotMatch (kexecCmdline k))) false (proven n))
| step_off : step n (mkNode (disk n) None false (proven n)).

Definition initial (n : node) : Prop :=
  running n = None /\ marked n = false /\ inRange (loaderState (disk n)) /\
  proven n (activeOf (disk n)) = Some (imageOf (activeOf (disk n)) (disk n)) /\ proven n (Other (activeOf (disk n))) = None.

Definition reachable (n : node) : Prop := exists n0, initial n0 /\ rtc step n0 n.

Record nodeOk (n : node) : Prop := {
  ok_range : inRange (loaderState (disk n));
  ok_proven : forall s img, slots s -> proven n s = Some img -> imageOf s (disk n) = img;
  ok_active : is_Some (proven n (activeOf (disk n)));
  ok_running : forall r, running n = Some r -> slots r /\ exists c, cmdline (disk n) = Some c /\ slotMatch c = r;
  ok_marked : marked n = true -> exists r, running n = Some r /\ activeOf (disk n) = r
}.

Lemma slotNumber_slots s : slots (slotNumber s).
Proof. destruct s; [by left|by right]. Qed.
Lemma activeOf_slots w : slots (activeOf w).
Proof. apply slotNumber_slots. Qed.
Lemma activeOf_state w d : loaderState w = d -> slots (ActiveSlot d) -> activeOf w = ActiveSlot d.
Proof. intros Hd Hs. unfold activeOf. rewrite Hd. by destruct Hs as [->| ->]. Qed.

Lemma boot_ok n w : atomic loaderStatePath = true -> nodeOk n -> bootPost (disk n) w ->
  inRange (loaderState w) /\ (forall s img, slots s -> proven n s = Some img -> imageOf s w = img) /\ is_Some (proven n (activeOf w)).
Proof.
  intros Hat Hok [Hs Hl]. split_and!.
  - pose proof (ok_range n Hok) as [Ha Hn]. destruct Hl as [->| ->]; [done|]. split; [done|cbn; lia].
  - intros s img Hsl Hp. rewrite (image_same _ _ s _ _ (bootFile_state s Hsl) Hsl Hs). by apply (ok_proven n Hok).
  - pose proof (ok_active n Hok) as Ha. assert (activeOf w = activeOf (disk n)) as ->; [|done]. unfold activeOf. by destruct Hl as [->| ->].
Qed.

Lemma mark_ok n r os : atomic loaderStatePath = true -> nodeOk n -> running n = Some r ->
  nodeOk (after (MarkBootSuccessful atomic fault abloader service (on os n)) r isOk (update r (Some (imageOf r (disk n))) (proven n))).
Proof.
  intros Hat Hok Hrun. destruct (ok_running n Hok r Hrun) as (Hr & c & Hc & Hm).
  destruct (MarkBootSuccessful_spec fault abloader service (on os n) r c Hat Hc Hm Hr) as (Hs & Hl & Hres).
  set (x := MarkBootSuccessful _ _ _ _ _) in *. set (p := update r _ _). change (loaderState (on os n)) with (loaderState (disk n)) in Hl.
  assert (disk (after x r isOk p) = final x) as Ed by (by destruct x). assert (proven (after x r isOk p) = p) as Ep by (by destruct x).
  assert (loaderState (final x) = mkAB r 0 -> activeOf (final x) = r) as Hact by (intros E; by apply (activeOf_state _ _ E)).
  split; rewrite ?Ed, ?Ep.
  - destruct Hl as [->| ->]; [apply (ok_range n Hok)|by apply slot_inRange].
  - intros s img Hsl. unfold p, update. rewrite (image_same _ _ s _ _ (slotFile_boot s Hsl) Hsl Hs). destruct (Z.eqb_spec s r) as [->|]; [by intros [= <-]|].
    apply (ok_proven n Hok s img Hsl).
  - unfold p, update. destruct (Z.eqb_spec (activeOf (final x)) r); [done|]. destruct Hl as [E|E]; [|by apply Hact in E].
    unfold activeOf. rewrite E. apply (ok_active n Hok).
  - intros r' H. assert (r' = r) as -> by (destruct x; [by injection H as <-|done..]). split; [done|]. exists c. split; [|done]. destruct Hs as (_ & _ & ->). done.
  - intros H. destruct x as [[[]|e] w|w|w]; [|done..]. exists r. split; [done|]. cbn in *. by rewrite (activeOf_state _ _ eq_refl), Hres; [|rewrite Hres].
Qed.

Lemma install_ok n r os responses withKexec : atomic loaderStatePath = true -> nodeOk n -> running n = Some r -> marked n = true ->
  nodeOk (after (InstallBundle atomic openZip peFile rsdp service responses withKexec (on os n)) r (fun _ => true) (update (Other r) None (proven n))).
Proof.
  intros Hat Hok Hrun Hmk. destruct (ok_running n Hok r Hrun) as (Hr & c & Hc & Hm). destruct (ok_marked n Hok Hmk) as (r' & Hr' & Hact).
  assert (r' = r) as -> by congruence.
  destruct (InstallBundle_spec openZip peFile rsdp service (on os n) r c responses withKexec Hat Hc Hm Hr) as [Hs Hl].
  set (x := InstallBundle _ _ _ _ _ _ _ _) in *. set (p := update _ _ _). change (loaderState (on os n)) with (loaderState (disk n)) in Hl.
  assert (disk (after x r (fun _ => true) p) = final x) as Ed by (by destruct x). assert (proven (after x r (fun _ => true) p) = p) as Ep by (by destruct x).
  assert (activeOf (final x) = r) as Hact'.
  { destruct Hl as [E|E]; [unfold activeOf in *; by rewrite E|]. by apply (activeOf_state _ _ E). }
  assert (p r = proven n r) as Hpr by (unfold p, update; destruct (Z.eqb_spec r (Other r)) as [E|]; [by destruct (Other_ne r Hr)|done]).
  split; rewrite ?Ed, ?Ep.
  - destruct Hl as [->| ->]; [apply (ok_range n Hok)|]. destruct Hr as [->| ->]; by vm_compute.
  - intros s img Hsl Hp. destruct (decide (s = r)) as [->|Hne].
    + rewrite (image_same _ _ r _ _ (conj (bootFile_state r Hr) (not_eq_sym (bootFile_other r Hr))) eq_refl Hs). apply (ok_proven n Hok r img Hr). by rewrite <- Hpr.
    + assert (s = Other r) as -> by (by destruct Hsl as [->| ->], Hr as [->| ->]). unfold p, update in Hp. by rewrite Z.eqb_refl in Hp.
  - rewrite Hact', Hpr, <- Hact. apply (ok_active n Hok).
  - intros r' H. assert (r' = r) as -> by (destruct x; [by injection H as <-|done..]). split; [done|]. exists c. split; [|done]. destruct Hs as (_ & _ & ->). done.
  - intros H. exists r. split; [by destruct x|done].
Qed.

Lemma step_ok n n' : atomic loaderStatePath = true -> nodeOk n -> step n n' -> nodeOk n'.
Proof.
  intros Hat Hok Hstep. destruct Hstep as [os s img w c Hrun Hmain Hc|os w Hrun Hmain|os r Hrun|os r responses wk Hrun Hmk|r k Hrun Hst Hk|].
  - pose proof (main_spec loadable (on os n) Hat (ok_range n Hok)) as Hb. rewrite Hmain in Hb. destruct (boot_ok n w Hat Hok Hb) as (H1 & H2 & H3).
    split; [done..| |done]. cbn. intros r [= <-]. split; [apply slotNumber_slots|]. by exists c.
  - pose proof (main_spec loadable (on os n) Hat (ok_range n Hok)) as Hb. assert (final (main atomic loadable (on os n)) = w) as E by (by destruct Hmain as [->| ->]).
    rewrite E in Hb. destruct (boot_ok n w Hat Hok Hb) as (H1 & H2 & H3). by split.
  - by apply mark_ok.
  - by apply install_ok.
  - split; [apply Hok..| |done]. cbn. intros r' [= <-]. split; [done|]. by eexists.
  - by split; [apply Hok..| |].
Qed.

Lemma node_reachable_ok n : atomic loaderStatePath = true -> reachable n -> nodeOk n.
Proof.
  intros Hat (n0 & (Hrun & Hmk & Hin & Hp & Hnp) & Hrtc). assert (nodeOk n0) as Hok.
  { split; [done| |by rewrite Hp|by rewrite Hrun|by rewrite Hmk]. intros s img Hs Hps.
    destruct (decide (s = activeOf (disk n0))) as [->|Hne]; [congruence|].
    assert (s = Other (activeOf (disk n0))) as -> by (destruct Hs as [->| ->], (activeOf_slots (disk n0)) as [E|E]; rewrite E in *; done). congruence. }
  clear Hrun Hmk Hin Hp Hnp. induction Hrtc as [|n0 n1 n Hstep _ IH]; [done|]. apply IH. by eapply step_ok.
Qed.
(** *** A boot without failures *)

Definition bootable (s : Z) (w : world) : option bytes :=
  match files w !! bootFile s with Some k => if loadable k then Some k else None | None => None end.

Lemma load_clean s w : outcomes w = [] ->
  load_slot_image loadable s w = Done (match bootable (slotNumber s) w with Some k => Ok k | None => Err "load_image" end) w.
Proof.
  intros Ho. unfold load_slot_image, orFail. rewrite run_bind. unfold readFile, operation, bootable. rewrite Ho.
  replace (onESP (slotPath s)) with (bootFile (slotNumber s)) by (by destruct s).
  destruct (files w !! bootFile (slotNumber s)) as [k|]; [|done]. cbn. by destruct (loadable k).
Qed.

Lemma readState_clean e1 e2 w : outcomes w = [] -> exists r, readState e1 e2 w = Done r w /\ match r with Ok d => d | Err _ => mkAB 1 0 end = loaderState w.
Proof.
  intros Ho. unfold readState, orFail. rewrite run_bind. unfold readFile, operation, loaderState. rewrite Ho.
  destruct (files w !! loaderStatePath) as [k|]; [|by eexists]. cbn. destruct (unmarshalAB k) as [d|]; by eexists.
Qed.

(** The world after the request was removed from the state, and the slot to boot. *)
Definition cleared (w : world) : world :=
  if NextSlot (loaderState w) =? 0 then w else set_files (<[loaderStatePath := marshalAB (mkAB (ActiveSlot (loaderState w)) 0)]> (files w)) w.
Definition chosen (w : world) : ValidSlot := boot_slot (if NextSlot (loaderState w) =? 0 then ActiveSlot (loaderState w) else NextSlot (loaderState w)).

Lemma main_clean w : outcomes w = [] ->
  main atomic loadable w =
  match bootable (slotNumber (chosen w)) (cleared w) with
  | Some k => Done (chosen w, k) (cleared w)
  | None => match bootable (slotNumber (other (chosen w))) (cleared w) with
            | Some k => Done (other (chosen w), k) (cleared w)
            | None => Panicked (cleared w)
            end
  end.
Proof.
  intros Ho. unfold main. set (m := read_loader_state).
  change m with (readState "while reading state file: {}" "while decoding state file contents: {}"). clear m. rewrite run_bind.
  destruct (readState_clean "while reading state file: {}" "while decoding state file contents: {}" w Ho) as (r & -> & ->).
  assert (outcomes (cleared w) = []) as Ho' by (unfold cleared; by destruct (_ =? 0)). rewrite run_bind.
  assert ((if negb (NextSlot (loaderState w) =? 0) then writeFile atomic (onESP LOADER_STATE_PATH) (marshalAB (mkAB (ActiveSlot (loaderState w)) 0)) ≫=
    (fun r => match r with Ok _ => mret (NextSlot (loaderState w)) | Err _ => panic end) else mret (ActiveSlot (loaderState w))) w =
    Done (if NextSlot (loaderState w) =? 0 then ActiveSlot (loaderState w) else NextSlot (loaderState w)) (cleared w)) as ->.
  { unfold cleared. destruct (NextSlot (loaderState w) =? 0); cbn [negb]; [done|]. rewrite run_bind. unfold writeFile, operation. by rewrite Ho. }
  fold (chosen w). rewrite run_bind, load_clean by done. destruct (bootable (slotNumber (chosen w)) (cleared w)); [done|].
  rewrite run_bind, load_clean by done. by destruct (bootable (slotNumber (other (chosen w))) (cleared w)).
Qed.

Lemma cleared_files p w : p <> loaderStatePath -> files (cleared w) !! p = files w !! p.
Proof. intros Hp. unfold cleared. destruct (_ =? 0); [done|]. cbn. by rewrite lookup_insert_ne. Qed.
Lemma cleared_state w : inRange (loaderState w) -> loaderState (cleared w) = mkAB (ActiveSlot (loaderState w)) 0.
Proof.
  intros [Ha Hn]. unfold cleared. destruct (Z.eqb_spec (NextSlot (loaderState w)) 0) as [E|E].
  - destruct (loaderState w) as [a n] eqn:El. cbn in *. by rewrite E.
  - apply loaderState_written. split; [done|cbn; lia].
Qed.
Lemma cleared_bootable s w : slots s -> bootable s (cleared w) = bootable s w.
Proof. intros Hs. unfold bootable. by rewrite cleared_files by by apply bootFile_state. Qed.

(** C5: if writes of the loader's state are atomic, then whatever the node does and wherever it stops, the loader's active
    slot is one whose boot was marked as successful, and it has the content it had then.  A boot without
    failures keeps it and removes the request for another slot, so that slot is booted at most once; if there is no request,
    the active slot is booted if firmware can load it; and only if neither slot can be loaded does it boot nothing. *)
Theorem ab_rollback n : atomic loaderStatePath = true -> reachable n ->
  let a := activeOf (disk n) in
  let d := loaderState (disk n) in
  proven n a = Some (imageOf a (disk n)) /\
  match main atomic loadable (on [] n) with
  | Done (s, k) w =>
      loaderState w = mkAB (ActiveSlot d) 0 /\ activeOf w = a /\ imageOf a w = imageOf a (disk n) /\
      (NextSlot d = 0 -> is_Some (bootable a (disk n)) -> slotNumber s = a /\ bootable a (disk n) = Some k)
  | Panicked _ => bootable SlotA (disk n) = None /\ bootable SlotB (disk n) = None
  | Crashed _ => False
  end.
Proof.
  intros Hat Hre a d. pose proof (node_reachable_ok n Hat Hre) as Hok. split.
  { destruct (ok_active n Hok) as [img Himg]. fold a in Himg. rewrite Himg. f_equal. symmetry. apply (ok_proven n Hok); [apply activeOf_slots|done]. }
  rewrite main_clean by done. set (w := on [] n). change d with (loaderState w). change (activeOf (disk n)) with (activeOf w) in a.
  pose proof (cleared_state w (ok_range n Hok)) as Hcl. assert (activeOf (cleared w) = a) as Ha by (unfold activeOf; by rewrite Hcl).
  assert (imageOf a (cleared w) = imageOf a w) as Hi.
  { unfold imageOf. rewrite cleared_files by apply bootFile_state, activeOf_slots. f_equal. unfold cleared. by destruct (_ =? 0). }
  change (bootable a (disk n)) with (bootable a w). change (imageOf a (disk n)) with (imageOf a w).
  assert (NextSlot (loaderState w) = 0 -> slotNumber (chosen w) = a) as Hch by (intros E; unfold chosen; by rewrite E).
  rewrite !cleared_bootable by apply slotNumber_slots. destruct (bootable (slotNumber (chosen w)) w) as [k|] eqn:E1.
  { split_and!; [done..|]. intros E _. by rewrite <- (Hch E). }
  destruct (bootable (slotNumber (other (chosen w))) w) as [k|] eqn:E2.
  { split_and!; [done..|]. intros E [k' Hk']. rewrite <- (Hch E) in Hk'. congruence. }
  destruct (chosen w); cbn in E1, E2; done.
Qed.
End system.

End loader.

(** ** The command line for kexec *)

(** The length of the text is enough fuel for [replaceAll]. *)
Lemma slice_from_length s n : String.length (slice_from s n) = (String.length s - n)%nat.
Proof. revert n. induction s as [|c s IH]; intros [|n]; cbn; done. Qed.

Lemma replaceAll_fuel f1 f2 s old new : old <> EmptyString -> (String.length s <= f1)%nat -> (String.length s <= f2)%nat ->
  replaceAll f1 s old new = replaceAll f2 s old new.
Proof.
  intros Ho. revert f2 s. induction f1 as [|f1 IH]; intros [|f2] [|c s] H1 H2; cbn [String.length] in *; try done; try lia. cbn [replaceAll].
  destruct (HasPrefix (String c s) old); [|f_equal; apply IH; lia]. f_equal.
  assert (0 < String.length old)%nat by (destruct old; [done|cbn; lia]).
  apply IH; rewrite slice_from_length; cbn [String.length]; lia.
Qed.

(** ** Boot entries *)

Lemma varPath_inj a b : varPath ScopeGlobal a = varPath ScopeGlobal b -> a = b.
Proof.
  unfold varPath. intros E. rewrite <- (proj2 (EfivarProps.suffix_app a ("-" +:+ ScopeGlobal))), <- (proj2 (EfivarProps.suffix_app b ("-" +:+ ScopeGlobal))).
  by rewrite E.
Qed.

Lemma hexValue_range c v : hexValue c = Some v -> 0 <= v < 16.
Proof.
  unfold hexValue. destruct ((48 <=? _) && _) eqn:E1; [intros [= <-]; lia|]. destruct ((65 <=? _) && _) eqn:E2; [intros [= <-]; lia|].
  destruct ((97 <=? _) && _) eqn:E3; [intros [= <-]; lia|done].
Qed.

Lemma bootVarIndex_range name i : bootVarIndex name = Some i -> 0 <= i < 65536.
Proof.
  unfold bootVarIndex. repeat (case_match; try done; []). intros Hi.
  repeat match goal with
  | H : (hexValue ?c ≫= _) = Some _ |- _ => let v := fresh "v" in destruct (hexValue c) as [v|] eqn:?; [|done]; cbn [mbind option_bind] in H
  end. injection Hi as <-.
  repeat match goal with H : hexValue _ = Some _ |- _ => apply hexValue_range in H end. lia.
Qed.

(** The variables of two entries differ, and differ from the boot order. *)
Lemma bootVar_ne up up' i i' : 0 <= i < 65536 -> 0 <= i' < 65536 -> i <> i' -> varPath ScopeGlobal (bootVar up i) <> varPath ScopeGlobal (bootVar up' i').
Proof.
  intros Hi Hi' Hne E%varPath_inj. apply Hne. apply (f_equal bootVarIndex) in E. rewrite !EfivarProps.bootVarIndex_bootVar in E by done. congruence.
Qed.
Lemma bootOrder_ne up i : 0 <= i < 65536 -> varPath ScopeGlobal "BootOrder" <> varPath ScopeGlobal (bootVar up i).
Proof. intros Hi E%varPath_inj. apply (f_equal bootVarIndex) in E. by rewrite EfivarProps.bootVarIndex_bootVar in E. Qed.

Section efi.
Context {utf : Utf16Codec} (fault : access -> string -> bool) (nofault : forall a p, fault a p = false).

Lemma Read_frame v v' name : v' !! varPath ScopeGlobal name = v !! varPath ScopeGlobal name -> Read fault v' ScopeGlobal name = Read fault v ScopeGlobal name.
Proof. intros E. unfold Read, efivars in *. by rewrite E. Qed.

Lemma GetBootEntry_frame v v' i :
  (forall up, v' !! varPath ScopeGlobal (bootVar up i) = v !! varPath ScopeGlobal (bootVar up i)) -> GetBootEntry fault v' i = GetBootEntry fault v i.
Proof. intros E. unfold GetBootEntry. by rewrite !(Read_frame v v') by apply E. Qed.

Lemma GetBootOrder_frame v v' : v' !! varPath ScopeGlobal "BootOrder" = v !! varPath ScopeGlobal "BootOrder" -> GetBootOrder fault v' = GetBootOrder fault v.
Proof. intros E. unfold GetBootOrder. by rewrite (Read_frame v v'). Qed.

Lemma DeleteBootEntry_frame v i p : (forall up, p <> varPath ScopeGlobal (bootVar up i)) -> (DeleteBootEntry fault v i).2 !! p = v !! p.
Proof.
  intros Hp. assert (forall up v, (Delete fault v ScopeGlobal (bootVar up i)).2 !! p = v !! p) as Hd.
  { intros up v'. unfold Delete, efivars in *. destruct (v' !! _); [|done]. destruct (fault _ _); [done|]. cbn. rewrite lookup_delete_ne; [done|]. apply not_eq_sym, Hp. }
  unfold DeleteBootEntry. pose proof (Hd true v) as H1. destruct (Delete fault v ScopeGlobal (bootVar true i)) as [[x|[| |what]] v1]; cbn [snd] in *; [done| |done..].
  rewrite Hd. done.
Qed.

(** An entry for the payload on some drive. *)
Definition payloadEntry (e : LoadOption) : Prop := exists n a b m, FilePath_ e = [HardDrivePath n a b m; FilePath payloadRunes].

Definition hasEntry (i : Z) (v : efivars) : Prop := 0 <= i < 65536 /\ exists e, GetBootEntry fault v i = Some (Ok e) /\ payloadEntry e.

(** The boot order has numbers of 16 bits.  For a run without failures, it is there, variables are made of bytes and not all
    entries are taken. *)
Definition orderOk (v : efivars) : Prop := forall ord, GetBootOrder fault v = Ok ord -> Forall (fun b => 0 <= b < width 2) ord.
Definition repairable (v : efivars) : Prop :=
  (exists ord, GetBootOrder fault v = Ok ord) /\ (forall p d, v !! p = Some d -> isBytes d) /\ exists i, 0 <= i < 65535 /\ ~ EfivarProps.taken v i.

Context (clean : bool).
Definition varsOk (v : efivars) : Prop := orderOk v /\ (clean = true -> repairable v).

Lemma DeleteBootEntry_sub v i p d : (DeleteBootEntry fault v i).2 !! p = Some d -> v !! p = Some d.
Proof.
  assert (forall up v, (Delete fault v ScopeGlobal (bootVar up i)).2 !! p = Some d -> v !! p = Some d) as Hd.
  { intros up v'. unfold Delete, efivars in *. destruct (v' !! _); [|done]. destruct (fault _ _); [done|]. cbn. by intros [_ ?]%lookup_delete_Some. }
  unfold DeleteBootEntry. pose proof (Hd true v) as H1. destruct (Delete fault v ScopeGlobal (bootVar true i)) as [[x|[| |what]] v1]; cbn [snd] in *; [done| |done..].
  intros H. by apply H1, (Hd false).
Qed.

Lemma hasEntry_delete i i' v : 0 <= i' < 65536 -> i <> i' -> hasEntry i v -> hasEntry i (DeleteBootEntry fault v i').2.
Proof.
  intros Hi' Hne (Hi & e & He & Hp). split; [done|]. exists e. split; [|done]. rewrite <- He. apply GetBootEntry_frame. intros up.
  apply DeleteBootEntry_frame. intros up'. by apply bootVar_ne.
Qed.
Lemma varsOk_delete i v : 0 <= i < 65536 -> varsOk v -> varsOk (DeleteBootEntry fault v i).2.
Proof.
  intros Hi [Ho Hr]. assert (GetBootOrder fault (DeleteBootEntry fault v i).2 = GetBootOrder fault v) as E.
  { apply GetBootOrder_frame, DeleteBootEntry_frame. intros up. by apply bootOrder_ne. }
  split; [intros ord; rewrite E; apply Ho|]. intros Hc. destruct (Hr Hc) as (Hord & Hb & k & Hk & Ht). split_and!; [by rewrite E| |exists k; split; [done|]].
  - intros p d Hp. by eapply Hb, DeleteBootEntry_sub.
  - intros (name & Hn & [d Hd]). apply Ht. exists name. split; [done|]. exists d. by eapply DeleteBootEntry_sub.
Qed.

(** *** Programs and variables *)

(** What holds after a program; without failures, it also ends. *)
Definition triple {A} (Pre : efivars -> Prop) (m : M A) (Post : A -> efivars -> Prop) : Prop :=
  forall w, (clean = true -> outcomes w = []) -> Pre (efi w) ->
  match m w with Done a w' => (clean = true -> outcomes w' = []) /\ Post a (efi w') | _ => clean = false end.
Definition orError {A} (Post : A -> efivars -> Prop) (r : result error A) (v : efivars) : Prop :=
  match r with Ok a => Post a v | Err _ => clean = false end.

Lemma triple_ret {A} (Pre : efivars -> Prop) (a : A) (Post : A -> efivars -> Prop) : (forall v, Pre v -> Post a v) -> triple Pre (mret a) Post.
Proof. intros H w Ho Hw. split; [done|]. by apply H. Qed.
Lemma triple_bind {A B} Pre (m : M A) Mid (k : A -> M B) Post : triple Pre m Mid -> (forall a, triple (Mid a) (k a) Post) -> triple Pre (m ≫= k) Post.
Proof. intros Hm Hk w Ho Hw. rewrite run_bind. specialize (Hm w Ho Hw). destruct (m w) as [a w1|w1|w1]; [|done..]. destruct Hm. by apply Hk. Qed.
Lemma triple_orFail {A B} Pre (m : M (result error A)) what (Mid : A -> efivars -> Prop) (k : A -> M (result error B)) (Post : B -> efivars -> Prop) :
  triple Pre m (orError Mid) -> (forall a, triple (Mid a) (k a) (orError Post)) -> triple Pre (orFail m what k) (orError Post).
Proof. intros Hm Hk. eapply triple_bind; [done|]. intros [a|e]; [apply Hk|by apply triple_ret]. Qed.
Lemma triple_efiCall {A} Pre (f : efivars -> result varError A * efivars) (Post : result error A -> efivars -> Prop) :
  (forall v, Pre v -> Post (match (f v).1 with Ok a => Ok a | Err _ => Err "efivarfs" end) (f v).2) -> (clean = false -> forall v e, Pre v -> Post (Err e) v) ->
  triple Pre (efiCall f) Post.
Proof.
  intros Hf He w Ho Hw. unfold efiCall, operation. destruct (outcomes w) as [|o os] eqn:Ew.
  - specialize (Hf (efi w) Hw). destruct (f (efi w)) as [[a|e] v]; by split.
  - assert (clean = false) as Hc by (destruct clean; [by specialize (Ho eq_refl)|done]). destruct o as [|n|n]; [|split; [by rewrite Hc|by apply He]|done].
    specialize (Hf (efi w) Hw). cbn [efi set_outcomes]. destruct (f (efi w)) as [[a|e] v]; (split; [by rewrite Hc|done]).
Qed.

Lemma GetBootEntry_total v i : (forall p d, v !! p = Some d -> isBytes d) -> is_Some (GetBootEntry fault v i).
Proof.
  intros Hb. assert (forall name d a, Read fault v ScopeGlobal name = Ok (d, a) -> isBytes d) as Hr.
  { intros name d a. unfold Read, efivars in *. destruct (v !! _) as [x|] eqn:E; [|done]. destruct (fault _ _); [done|]. destruct (len x <? 4); [done|].
    intros [= <- _]. apply Forall_drop. by eapply Hb. }
  unfold GetBootEntry. destruct (match Read fault v ScopeGlobal (bootVar true i) with Err ErrNotExist => _ | r => r end) as [[d a]|er] eqn:E; [|done].
  assert (isBytes d) as Hd by (destruct (Read fault v ScopeGlobal (bootVar true i)) as [[d' a']|[| |]] eqn:E1; try done; [injection E as <- <-|]; by eapply Hr).
  destruct (EfivarProps.UnmarshalLoadOption_returns d Hd) as [[be|er] ->]; by eexists.
Qed.

Lemma triple_getEntry (Pre : efivars -> Prop) i : (forall v, Pre v -> clean = true -> forall p d, v !! p = Some d -> isBytes d) ->
  triple Pre (getEntry fault i) (fun r v => Pre v /\ match r with Ok e => GetBootEntry fault v i = Some (Ok e) | Err _ => True end).
Proof.
  intros Hb w Ho Hw. unfold getEntry. destruct (GetBootEntry fault (efi w) i) as [r|] eqn:E.
  - unfold efiCall, operation. destruct (outcomes w) as [|o os] eqn:Ew; [by destruct r|].
    assert (clean = false) as Hc by (destruct clean; [by specialize (Ho eq_refl)|done]). destruct o; [|by rewrite Hc..]. rewrite Hc. by destruct r.
  - destruct clean; [|done]. destruct (GetBootEntry_total (efi w) i (Hb _ Hw eq_refl)) as [x Hx]. congruence.
Qed.

(** The index that was found so far has an entry, and is none of those that follow. *)
Definition found (valid : Z) (names : list string) (v : efivars) : Prop :=
  varsOk v /\ (valid = -1 \/ (hasEntry valid v /\ valid ∉ omap bootVarIndex names)).

Lemma found_delete valid names i v : 0 <= i < 65536 -> valid <> i -> found valid names v -> found valid names (DeleteBootEntry fault v i).2.
Proof.
  intros Hi Hne [Ho Hv]. split; [by apply varsOk_delete|]. destruct Hv as [->|[Hv Hn]]; [by left|]. right. split; [|done]. by apply hasEntry_delete.
Qed.

Lemma triple_checkEntry esp i valid e names : 0 <= i < 65536 -> valid <> i -> i ∉ omap bootVarIndex names ->
  triple (fun v => found valid names v /\ GetBootEntry fault v i = Some (Ok e)) (checkEntry fault esp i valid e) (fun valid' v => found valid' names v).
Proof.
  intros Hi Hne Hin. unfold checkEntry.
  assert (triple (fun v => found valid names v /\ GetBootEntry fault v i = Some (Ok e)) (mret valid : M Z) (fun valid' v => found valid' names v)) as Hskip
    by (apply triple_ret; by intros v [? _]).
  assert (triple (fun v => found valid names v /\ GetBootEntry fault v i = Some (Ok e)) (efiCall (fun v => DeleteBootEntry fault v i) ≫= fun _ => mret valid)
    (fun valid' v => found valid' names v)) as Hdel.
  { eapply triple_bind; [|intros a; apply (triple_ret (fun v => found valid names v)); by intros v]. apply triple_efiCall; [|by intros _ v er [? _]].
    intros v [Hf _]. by apply found_delete. }
  destruct (FilePath_ e) as [|[n a b m| |] [|f [|]]] eqn:Ep; try done.
  assert (match asPartitionGPTPointer m with Some u => match esp with Some part => mret (negb (bool_decide (u = ID part))) | None => panic end | None => mret false end = (mret false : M bool)) as ->
    by (by destruct m as [[| |]|]).
  change (mret false ≫= ?k) with (k false). cbn beta iota. destruct f as [|p|]; [done| |done].
  destruct (bool_decide_reflect (p = payloadRunes)) as [->|]; [|by destruct (contains _ _)].
  destruct (Z.eqb_spec valid (-1)); [|done]. apply triple_ret. intros v [[Ho _] He]. split; [done|]. right. split; [|done]. split; [done|].
  exists e. split; [done|]. by exists n, a, b, m.
Qed.

Lemma triple_efiLoop esp names valid : NoDup (omap bootVarIndex names) ->
  triple (found valid names) (efiLoop fault esp names valid) (fun valid' v => found valid' [] v).
Proof.
  revert valid. induction names as [|name names IH]; intros valid Hnd; cbn [efiLoop]; [by apply triple_ret|].
  assert (forall v, found valid (name :: names) v -> found valid names v) as Hsub.
  { intros v [Ho Hv]. split; [done|]. destruct Hv as [->|[Hv Hn]]; [by left|]. right. split; [done|]. intros Hin. apply Hn. cbn.
    destruct (bootVarIndex name); [by right|done]. }
  destruct (bootVarIndex name) as [i|] eqn:Ei.
  2:{ intros w Ho Hw. apply IH; [|done|by apply Hsub]. cbn in Hnd. by rewrite Ei in Hnd. }
  cbn in Hnd. rewrite Ei in Hnd. apply NoDup_cons in Hnd as [Hni Hnd]. pose proof (bootVarIndex_range _ _ Ei) as Hi.
  eapply triple_bind; [apply triple_getEntry; by intros v [[_ Hr] _] Hc; destruct (Hr Hc) as (_ & ? & _)|].
  intros [e|er]; [|intros w Ho [Hw _]; apply IH; [done..|by apply Hsub]].
  destruct (decide (valid = i)) as [->|Hne].
  { intros w _ [[_ [E|[_ Hn]]] _]; [lia|]. exfalso. apply Hn. cbn. rewrite Ei. by left. }
  eapply triple_bind; [|intros valid'; by apply IH]. intros w Ho [Hw He]. by apply triple_checkEntry; [..|split; [apply Hsub|]].
Qed.

(** The boot order has the entry. *)
Definition bootsPayload (v : efivars) : Prop := exists ord i, GetBootOrder fault v = Ok ord /\ i ∈ ord /\ hasEntry i v.

Lemma triple_fixupOrder valid : triple (fun v => orderOk v /\ (clean = true -> exists ord, GetBootOrder fault v = Ok ord) /\ hasEntry valid v) (fixupOrder fault valid) (orError (fun _ v => bootsPayload v)).
Proof using nofault.
  unfold fixupOrder. eapply triple_orFail with (Mid := fun ord v => orderOk v /\ hasEntry valid v /\ GetBootOrder fault v = Ok ord).
  { apply triple_efiCall; [|done]. intros v (Ho & Hr & Hv). cbn [fst snd]. destruct (GetBootOrder fault v) eqn:E; [done|]. cbn. destruct clean; [|done].
    destruct (Hr eq_refl) as [ord ?]. congruence. }
  intros ord. destruct (existsb _ ord) eqn:Ex.
  { apply triple_ret. intros v (Ho & Hv & Hord). exists ord, valid. split_and!; [done| |done]. apply existsb_exists in Ex as (b & Hb & E%Z.eqb_eq).
    rewrite Z.mod_small in E by (destruct Hv as [Hv _]; change (2 ^ 16) with 65536; lia). subst b. by apply list_elem_of_In. }
  eapply triple_orFail with (Mid := fun _ v => bootsPayload v); [|intros _; by apply triple_ret]. apply triple_efiCall; [|done].
  intros v (Ho & [Hv (e & He & Hp)] & Hord). rewrite Z.mod_small by (change (2 ^ 16) with 65536; lia). unfold SetBootOrder, Write. rewrite nofault. cbn [fst snd orError].
  change (if negb (Z.land (Z.lor AttrNonVolatile AttrRuntimeAccess) AttrRuntimeAccess =? 0) then _ else _) with 7.
  exists (valid :: ord), valid. split_and!; [|by left|split; [done|]; exists e; split; [|done]].
  - unfold GetBootOrder. rewrite EfivarProps.Read_written by (done || apply nofault). rewrite EfivarProps.bootOrder_roundtrip; [done|].
    constructor; [change (width 2) with 65536; lia|]. by apply Ho.
  - rewrite <- He. apply GetBootEntry_frame. intros up. unfold efivars in *. rewrite lookup_insert_ne; [done|]. by apply bootOrder_ne.
Qed.

(** *** The repair *)

Lemma bootOption_ok part : EfivarCodec.elemOk (HardDrivePath 1 (FirstBlock part) (SizeBlocks part) (Some (PartitionGPT (ID part)))) -> EfivarProps.optionOk (bootOption part).
Proof.
  intros Hp. split; cbn [Description Category FilePath_ ExtraPaths bootOption].
  - repeat (constructor; [left; unfold surr1; vm_compute; done|]). constructor.
  - apply (bool_decide_unpack _). by vm_compute.
  - lia.
  - constructor; [done|]. constructor; [|constructor]. split; [repeat (constructor; [left; unfold surr1; vm_compute; done|]); constructor|].
    repeat split; try (apply (bool_decide_unpack _); by vm_compute).
  - constructor.
Qed.

Lemma AddBootEntry_ok v be d i : Marshal be = Ok d -> 0 <= i < 65535 -> ~ EfivarProps.taken v i -> exists k v', AddBootEntry fault v be = (Ok k, v').
Proof using nofault.
  intros Hm Hi Ht. unfold AddBootEntry. destruct (List_ fault v ScopeGlobal) as [names|] eqn:El; [|unfold List_ in El; by rewrite nofault in El].
  destruct (EfivarProps.firstFree_spec (Z.to_nat 65535) 0 (list_to_set (omap bootVarIndex names)) ltac:(lia)) as [[_ Hall]|(Hr & _ & _)].
  { exfalso. apply Ht. apply (EfivarProps.List_taken fault v names i El). specialize (Hall i ltac:(lia)). by rewrite elem_of_list_to_set in Hall. }
  destruct (Z.eqb_spec (firstFree (Z.to_nat 65535) 0 (list_to_set (omap bootVarIndex names))) (-1)); [lia|].
  unfold SetBootEntry, Write. rewrite Hm, nofault. by eexists _, _.
Qed.

Lemma triple_addEntry part d : EfivarCodec.elemOk (HardDrivePath 1 (FirstBlock part) (SizeBlocks part) (Some (PartitionGPT (ID part)))) -> Marshal (bootOption part) = Ok d ->
  triple varsOk (efiCall (fun v => AddBootEntry fault v (bootOption part)))
    (orError (fun i v => orderOk v /\ (clean = true -> exists ord, GetBootOrder fault v = Ok ord) /\ hasEntry i v)).
Proof using nofault.
  intros Hp Hm. apply triple_efiCall; [|done]. intros v [Ho Hr]. pose proof (EfivarProps.AddBootEntry_correct fault v (bootOption part) (bootOption_ok part Hp)) as Ha.
  destruct (AddBootEntry fault v (bootOption part)) as [[i|er] v'] eqn:E; cbn [fst snd orError].
  - destruct Ha as (Hi & _ & _ & Hf & Hg). assert (GetBootOrder fault v' = GetBootOrder fault v) as Eo.
    { apply GetBootOrder_frame, Hf. apply bootOrder_ne. lia. }
    split_and!; [intros ord; rewrite Eo; apply Ho|intros Hc; rewrite Eo; by destruct (Hr Hc)|]. split; [lia|]. exists (bootOption part).
    split; [apply Hg; [by vm_compute|apply nofault]|]. by eexists _, _, _, _.
  - destruct clean; [|done]. destruct (Hr eq_refl) as (_ & _ & k & Hk & Ht). destruct (AddBootEntry_ok v (bootOption part) d k Hm Hk Ht) as (? & ? & ?). congruence.
Qed.

(** C24: provided that no two variables are for the same boot entry (names in upper and lower case, see [same_number_lost]), that the
    ESP is known and its entry can be encoded, and that the numbers of the boot order are of 16 bits, whichever calls of efivarfs fail: if [fixupEFI] returns without an error, the boot order has an entry for the payload on a hard
    drive; and without failures, with a boot order and a free number, it does return without an error. *)
Theorem fixupEFI_correct s part d w :
  ESPPart s = Some part -> EfivarCodec.elemOk (HardDrivePath 1 (FirstBlock part) (SizeBlocks part) (Some (PartitionGPT (ID part)))) -> Marshal (bootOption part) = Ok d ->
  (forall names, List_ fault (efi w) ScopeGlobal = Ok names -> NoDup (omap bootVarIndex names)) ->
  (clean = true -> outcomes w = []) -> varsOk (efi w) ->
  match fixupEFI fault s w with
  | Done (Ok _) w' => bootsPayload (efi w')
  | Done (Err _) _ | Crashed _ | Panicked _ => clean = false
  end.
Proof using nofault.
  intros Hs Hp Hm Hnd Ho Hv. assert (triple (fun v => v = efi w) (fixupEFI fault s) (orError (fun _ v => bootsPayload v))) as Ht.
  { unfold fixupEFI. rewrite Hs. eapply triple_orFail with (Mid := fun names v => v = efi w /\ List_ fault v ScopeGlobal = Ok names).
    - apply triple_efiCall; [|done]. intros v ->. cbn [fst snd]. destruct (List_ fault (efi w) ScopeGlobal) eqn:El; [done|]. unfold List_ in El. by rewrite nofault in El.
    - intros names. eapply triple_bind with (Mid := fun valid v => found valid [] v).
      { intros w1 Ho1 [E El]. rewrite E in El. apply triple_efiLoop; [by apply Hnd|done|]. rewrite E. split; [done|by left]. }
      intros valid. destruct (Z.eqb_spec valid (-1)) as [->|Hne].
      + eapply triple_orFail; [|intros i; apply triple_fixupOrder]. intros w1 Ho1 [Hv1 _]. by apply (triple_addEntry part d).
      + intros w1 Ho1 [[Hv1 Hr1] [?|[He _]]]; [done|]. apply triple_fixupOrder; [done|]. split_and!; [done| |done]. intros Hc. by destruct (Hr1 Hc). }
  specialize (Ht w Ho eq_refl). destruct (fixupEFI fault s w) as [[[]|er] w'|w'|w']; cbn in Ht; tauto.
Qed.

End efi.

End UpdateProps.

(** ** Examples *)
Module UpdateExample.
Import Bytes Sha256 Gpt Efivar Update UpdateProps.
Open Scope Z_scope.

(** The encoding of the two fields, for values of seven bits. *)
Fixpoint protoFields (l : bytes) (d : ABLoaderData) : option ABLoaderData :=
  match l with
  | [] => Some d
  | tag :: v :: l =>
      if negb (v <? 128) then None
      else if tag =? 8 then protoFields l (mkAB v (NextSlot d))
      else if tag =? 16 then protoFields l (mkAB (ActiveSlot d) v)
      else None
  | _ => None
  end.
Definition protoField (tag v : Z) : bytes := if v =? 0 then [] else [tag; v].

Program Definition protoCodec : LoaderCodec := {|
  marshalAB d := protoField 8 (ActiveSlot d) ++ protoField 16 (NextSlot d);
  unmarshalAB l := protoFields l (mkAB 0 0)
|}.
Next Obligation.
  intros [a n] Ha Hn. cbn in *. assert (a = 0 \/ a = 1 \/ a = 2) as [->|[->| ->]] by lia; assert (n = 0 \/ n = 1 \/ n = 2) as [->|[->| ->]] by lia; done.
Qed.
#[local] Existing Instance protoCodec.
#[local] Existing Instance EfivarProps.textUtf16.

Definition exFault (a : access) (p : string) : bool := false.
Definition exLoader : bytes := [77; 90].
Definition exLoadable (d : bytes) : bool := match d with [] => false | _ => true end.
Definition exZip (d : bytes) : option (string -> option entry) :=
  Some (fun name => if String.eqb name "kernel_efi.efi" then Some (mkEntry [77; 90; 2] true)
                    else if String.eqb name "verity_rootfs.img" then Some (mkEntry [2; 2] true) else None).
Definition exPE (d : bytes) : option (string -> option peSection) := None.
Definition exPart : Partition := mkPartition [] (zeros 16) (seqZ 1 16) 2048 411647 0 None.
Definition exService : Service := mkService "/esp" (Some exPart) 1.
Definition exResponses : list response := [Response 503 (mkEntry [] true); Response 200 (mkEntry [80; 75] true)].
Definition exCmdline (s : Z) : string := "root=PARTLABEL=METROPOLIS-SYSTEM-" +:+ slotString s.

(** A node that is off, with version 1 in slot [s], which was marked. *)
Definition exFiles (s : Z) : gmap string bytes := {[bootFile s := [77; 90; 1]; loaderStatePath := marshalAB (mkAB s 0)]}.
Definition exWorld (s : Z) : world := mkWorld (exFiles s) [1; 1] [1; 1] ∅ None None [].
Definition exNode (s : Z) : node := mkNode (exWorld s) None false (update s (Some (imageOf s (exWorld s))) (fun _ => None)).

Lemma exNode_initial s : slots s -> initial (exNode s).
Proof. intros [->| ->]; by vm_compute. Qed.

Section runs.
Context (atomic : string -> bool).

(** A boot that succeeds, with the command line of slot [s]. *)
Definition boot (os : list outcome) (s : Z) (n : node) : node :=
  match main atomic exLoadable (on os n) with
  | Done (s', _) w => mkNode (set_cmdline (Some (exCmdline s)) (set_staged None w)) (Some (slotNumber s')) false (proven n)
  | Crashed w | Panicked w => mkNode w None false (proven n)
  end.
Definition mark (os : list outcome) (r : Z) (n : node) : node :=
  after (MarkBootSuccessful atomic exFault exLoader exService (on os n)) r isOk (update r (Some (imageOf r (disk n))) (proven n)).
Definition install (os : list outcome) (r : Z) (n : node) : node :=
  after (InstallBundle atomic exZip exPE "" exService exResponses false (on os n)) r (fun _ => true) (update (Other r) None (proven n)).
Definition off (n : node) : node := mkNode (disk n) None false (proven n).

Definition exStep : node -> node -> Prop := step atomic exFault exLoader exLoadable exZip exPE "" exService.

Lemma boot_step os s n : running n = None -> slotMatch (exCmdline s) = s ->
  match main atomic exLoadable (on os n) with Done (s', _) _ => slotNumber s' = s | _ => True end -> exStep n (boot os s n).
Proof.
  intros Hr Hc Hs. unfold boot. destruct (main atomic exLoadable (on os n)) as [[s' img] w|w|w] eqn:E.
  - eapply step_boot; [done|done|]. congruence.
  - eapply step_boot_stops; [done|]. by left.
  - eapply step_boot_stops; [done|]. by right.
Qed.

(** An update: boot, mark, install with outcomes [os], off. *)
Definition updated (s : Z) (os : list outcome) : node := off (install os s (mark [] s (boot [] s (exNode s)))).
End runs.

Definition always (p : string) : bool := true.
Definition never (p : string) : bool := false.

Lemma updated_reachable s os : slots s -> reachable always exFault exLoader exLoadable exZip exPE "" exService (updated always s os).
Proof.
  intros Hs. exists (exNode s). split; [by apply exNode_initial|]. eapply rtc_l; [apply (boot_step always [] s); destruct Hs as [->| ->]; by vm_compute|].
  eapply rtc_l; [apply (step_mark _ _ _ _ _ _ _ _ _ [] s); destruct Hs as [->| ->]; by vm_compute|].
  eapply rtc_l; [apply (step_install _ _ _ _ _ _ _ _ _ os s exResponses false); destruct Hs as [->| ->]; by vm_compute|].
  apply rtc_once. apply step_off.
Qed.

(** An update is requested once, and slot A stays the active one until the update is marked. *)
Lemma ab_rollback_witness :
  let n := updated always SlotA [] in
  proven n SlotA = Some (imageOf SlotA (disk n)) /\
  match main always exLoadable (on [] n) with
  | Done (s, k) w => loaderState w = mkAB SlotA 0 /\ s = B
  | _ => False
  end.
Proof.
  pose proof (ab_rollback always exFault exLoader exLoadable exZip exPE "" exService (updated always SlotA []) eq_refl
    (updated_reachable SlotA [] (or_introl eq_refl))) as [Hp Hm].
  assert (activeOf (disk (updated always SlotA [])) = SlotA) as Ha by (by vm_compute). rewrite Ha in Hp. split; [exact Hp|].
  assert (match main always exLoadable (on [] (updated always SlotA [])) with Done (s, _) _ => Some s | _ => None end = Some B) as Hs by (by vm_compute).
  assert (ActiveSlot (loaderState (disk (updated always SlotA []))) = SlotA) as Hd by (by vm_compute).
  destruct (main always exLoadable (on [] (updated always SlotA []))) as [[s k] w|w|w]; [|discriminate Hs|discriminate Hs].
  injection Hs as ->. rewrite Hd in Hm. split; [apply Hm|reflexivity].
Defined.

(** The file is not written atomically: with slot B active, a stop in the middle of requesting slot A leaves a state file that cannot be
    read, and the loader starts slot A. *)
Lemma torn_state_boots_unproven :
  let n := updated never SlotB [Succeed; Succeed; Succeed; Succeed; CrashAt 2] in
  proven n SlotB <> None /\ proven n SlotA = None /\
  match main never exLoadable (on [] n) with Done (s, k) _ => Some (s, k) | _ => None end = Some (A, [77; 90; 2]).
Proof. split; [by vm_compute|]. split; by vm_compute. Qed.

(** An update that is installed from a slot that was booted by a request and not marked makes that slot the active one. *)
Lemma unmarked_install_activates :
  let n := install always [] SlotB (boot always [] SlotB (updated always SlotA [])) in
  marked (boot always [] SlotB (updated always SlotA [])) = false /\ proven n SlotB = None /\ ActiveSlot (loaderState (disk n)) = SlotB.
Proof. by vm_compute. Qed.

(** If the slot cannot be told from the command line, marking the boot sets no active slot, and the loader falls back to slot A. *)
Lemma unknown_slot_marked :
  match MarkBootSuccessful always exFault exLoader exService (set_cmdline (Some "quiet") (exWorld SlotB)) with
  | Done (Ok _) w => Some (ActiveSlot (loaderState w), activeOf w)
  | _ => None
  end = Some (SlotInvalid, SlotA).
Proof. by vm_compute. Qed.

(** Firmware with an entry for the payload on another disk. *)
Definition entryBytes (be : LoadOption) : bytes := match Marshal be with Ok d => le 4 7 ++ d | Err _ => [] end.
Definition otherDisk : LoadOption :=
  mkLoadOption metropolisRunes false false 0 [HardDrivePath 1 2048 409600 (Some (PartitionGPT (seqZ 101 16))); FilePath payloadRunes] [] [].
Definition otherVars : efivars := {[varPath ScopeGlobal "BootOrder" := le 4 7 ++ [3; 0]; varPath ScopeGlobal "Boot0003" := entryBytes otherDisk]}.

(** The type assertion never succeeds: an entry for another disk is taken for the node's own, and none is added. *)
Lemma other_disk_kept : match fixupEFI exFault exService (set_efi otherVars (exWorld SlotA)) with
  | Done (Ok _) w => bool_decide (efi w = otherVars)
  | _ => false
  end = true.
Proof. vm_compute. reflexivity. Qed.

(** Two variables for one number: the second one is found to be the first again, which is deleted, and no entry for the payload is left. *)
Definition twinVars : efivars :=
  {[varPath ScopeGlobal "BootOrder" := le 4 7 ++ [10; 0]; varPath ScopeGlobal "Boot000A" := entryBytes (bootOption exPart);
    varPath ScopeGlobal "Boot000a" := entryBytes EfivarProps.exampleOption]}.

Lemma same_number_lost :
  GetBootEntry exFault twinVars 10 = Some (Ok (bootOption exPart)) /\
  match fixupEFI exFault exService (set_efi twinVars (exWorld SlotA)) with
  | Done (Ok _) w => Some (GetBootOrder exFault (efi w), GetBootEntry exFault (efi w) 10)
  | _ => None
  end = Some (Ok [10], Some (Ok EfivarProps.exampleOption)).
Proof. split; by vm_compute. Qed.

(** Firmware without an entry for the payload. *)
Definition exVars : efivars := {[varPath ScopeGlobal "BootOrder" := le 4 7 ++ [3; 0]; varPath ScopeGlobal "Boot0003" := entryBytes EfivarProps.exampleOption]}.
Definition exBroken : world := set_efi exVars (exWorld SlotA).

Lemma bytes_check l : forallb (fun b => (0 <=? b) && (b <? 256)) l = true -> isBytes l.
Proof. rewrite forallb_forall. intros H. apply Forall_forall. intros b Hb%list_elem_of_In%H. unfold isByte. lia. Qed.

Lemma exVars_ok : varsOk exFault true exVars.
Proof.
  assert (GetBootOrder exFault exVars = Ok [3]) as Ho by (by vm_compute). split.
  - intros ord. rewrite Ho. intros [= <-]. apply Forall_singleton. by vm_compute.
  - intros _. split; [by exists [3]|]. split.
    + intros p d. assert (map_Forall (fun _ d => isBytes d) exVars) as Hall; [|apply Hall].
      apply map_Forall_insert_2; [|apply map_Forall_singleton]; apply bytes_check; by vm_compute.
    + exists 0. split; [lia|]. intros Ht. apply (EfivarProps.List_taken exFault exVars ["Boot0003"; "BootOrder"] 0) in Ht; [|by vm_compute].
      revert Ht. change (omap bootVarIndex ["Boot0003"; "BootOrder"]) with [3]. by intros ?%list_elem_of_singleton.
Qed.

Lemma fixupEFI_correct_witness : match fixupEFI exFault exService exBroken with
  | Done (Ok _) w' => bootsPayload exFault (efi w')
  | Done (Err _) _ | Crashed _ | Panicked _ => true = false
  end.
Proof.
  apply (fixupEFI_correct exFault (fun _ _ => eq_refl) true exService exPart (match Marshal (bootOption exPart) with Ok d => d | Err _ => [] end) exBroken).
  - reflexivity.
  - cbn [EfivarCodec.elemOk]. repeat split; try (by vm_compute). eexists. split; [reflexivity|]. by vm_compute.
  - by vm_compute.
  - intros names. change (efi exBroken) with exVars. assert (List_ exFault exVars ScopeGlobal = Ok ["Boot0003"; "BootOrder"]) as -> by (by vm_compute).
    intros [= <-]. apply NoDup_singleton.
  - reflexivity.
  - apply exVars_ok.
Defined.
End UpdateExample.
