(* ===== verification/LogBuffer.v ===== *)
(** * Log buffers

    Models [osbase/logbuffer]: splitting of written data into lines of a bounded
    length ([linebuffer.go]), and the ring that keeps the last lines
    ([logbuffer.go]).  Data is a list of bytes.  Slicing out of bounds, division by
    zero and negative sizes panic in Go; such outcomes are [None]. *)

From S2P Require Import Prelude.
From Stdlib Require Import ZArith.

Module LogBuffer.

Abbreviation bytes := (list ascii).
Definition newline : ascii := "010".

(** ** Lines *)

Record Line := mkLine { Data : bytes; OriginalLength : Z }.
#[export] Instance Line_eq_dec : EqDecision Line.
Proof. solve_decision. Defined.

Definition len {A} (l : list A) : Z := Z.of_nat (length l).

Definition Truncated (l : Line) : bool := (len (Data l) <? OriginalLength l)%Z.

Definition String_ (l : Line) : bytes :=
  if Truncated l then Data l ++ ["."; "."; "."]%char else Data l.

(** [lpb.LogEntry_Raw], with an int64. *)
Record RawProto := mkRaw { rawData : bytes; rawOriginalLength : Z }.

(** [int] and [int64] are the same on 64-bit machines: the conversions are those of
    64-bit two's complement numbers. *)
Definition int64 (z : Z) : Z := ((z + 2 ^ 63) mod 2 ^ 64 - 2 ^ 63)%Z.

Definition ProtoLog (l : Line) : RawProto := mkRaw (Data l) (int64 (OriginalLength l)).

Definition LineFromLogProto (raw : RawProto) : result string Line :=
  if (rawOriginalLength raw <? len (rawData raw))%Z then Err "original_length smaller than length of data"%string
  else
    let originalLength := int64 (rawOriginalLength raw) in
    if (originalLength <? rawOriginalLength raw)%Z then Err "original_length larger than native int size"%string
    else Ok (mkLine (rawData raw) originalLength).

(** ** [LineBuffer] *)

Record LineBuffer := mkLB {
  maxLineLength : Z;
  cur : bytes;
  length_ : Z;
  closed : bool
}.

Definition NewLineBuffer (maxLineLength : Z) : LineBuffer := mkLB maxLineLength [] 0 false.

(** [data[:n]]. *)
Definition sliceTo {A} (data : list A) (n : Z) : option (list A) :=
  if ((0 <=? n) && (n <=? len data))%Z then Some (take (Z.to_nat n) data) else None.

Definition writeLimited (l : LineBuffer) (data : bytes) : option LineBuffer :=
  data' ← (if (maxLineLength l <? len (cur l) + len data)%Z
           then sliceTo data (maxLineLength l - len (cur l)) else Some data);
  Some (mkLB (maxLineLength l) (cur l ++ data') (length_ l + len data) (closed l)).

(** [commitLine]: the line given to the callback, and the buffer after. *)
Definition commitLine (l : LineBuffer) : Line * LineBuffer :=
  (mkLine (cur l) (length_ l), mkLB (maxLineLength l) [] 0 (closed l)).

(** [bytes.IndexRune(data, '\n')]. *)
Fixpoint indexNewline (data : bytes) : option nat :=
  match data with
  | [] => None
  | c :: data => if decide (c = newline) then Some 0 else S <$> indexNewline data
  end.

(** The loop of [Write], with the lines passed to the callback. *)
Fixpoint writeLoop (fuel : nat) (l : LineBuffer) (data : bytes) (pos : nat) : option (list Line * LineBuffer) :=
  match fuel with
  | 0 => None
  | S fuel =>
      match indexNewline (drop pos data) with
      | None => l ← writeLimited l (drop pos data); Some ([], l)
      | Some nextNewline =>
          l ← writeLimited l (take nextNewline (drop pos data));
          let '(line, l) := commitLine l in
          let pos := pos + nextNewline + 1 in
          if decide (S nextNewline = length data) then Some ([line], l)
          else '(lines, l) ← writeLoop fuel l data pos; Some (line :: lines, l)
      end
  end.

(** The loop finds at most as many newlines as there are bytes. *)
Definition Write (l : LineBuffer) (data : bytes) : option (result string Z * list Line * LineBuffer) :=
  if closed l then Some (Err "closed"%string, [], l)
  else '(lines, l) ← writeLoop (S (length data)) l data 0; Some (Ok (len data), lines, l).

Definition Close (l : LineBuffer) : result string unit * list Line * LineBuffer :=
  if closed l then (Err "already closed"%string, [], l)
  else
    let l := mkLB (maxLineLength l) (cur l) (length_ l) true in
    if (0 <? length_ l)%Z then let '(line, l) := commitLine l in (Ok tt, [line], l) else (Ok tt, [], l).

(** ** [LogBuffer] *)

Record LogBuffer := mkBuf {
  content : list Line;
  count : nat;
  line : LineBuffer
}.

Definition New (size : nat) (maxLineLength : Z) : LogBuffer :=
  mkBuf (replicate size (mkLine [] 0)) 0 (NewLineBuffer maxLineLength).

Definition lineCallback (content : list Line) (count : nat) (l : Line) : option (list Line * nat) :=
  if decide (length content = 0) then None
  else Some (<[count mod length content := l]> content, S count).

Fixpoint callbacks (content : list Line) (count : nat) (ls : list Line) : option (list Line * nat) :=
  match ls with
  | [] => Some (content, count)
  | l :: ls => '(content, count) ← lineCallback content count l; callbacks content count ls
  end.

Definition bufWrite (b : LogBuffer) (data : bytes) : option (result string Z * LogBuffer) :=
  '(r, lines, l) ← Write (line b) data;
  '(content, count) ← callbacks (content b) (count b) lines;
  Some (r, mkBuf content count l).

Definition bufClose (b : LogBuffer) : option (result string unit * LogBuffer) :=
  let '(r, lines, l) := Close (line b) in
  '(content, count) ← callbacks (content b) (count b) lines;
  Some (r, mkBuf content count l).

Definition capToContentLength (b : LogBuffer) (n : Z) : Z :=
  let n := if (Z.of_nat (count b) <? n)%Z then Z.of_nat (count b) else n in
  if (len (content b) <? n)%Z then len (content b) else n.

(** The loop: [outArray[n-i]] for [i] from 1 to [n], that is in order. *)
Definition readAt (b : LogBuffer) (n k : nat) : option Line :=
  content b !! ((count b - (n - k)) mod length (content b)).

Definition ReadLines (b : LogBuffer) (n : Z) : option (list Line) :=
  let n := capToContentLength b n in
  if (n <? 0)%Z then None
  else mapM (readAt b (Z.to_nat n)) (seq 0 (Z.to_nat n)).

Definition ReadLinesTruncated (b : LogBuffer) (n : Z) (ellipsis : bytes) : option (list bytes) :=
  let n := capToContentLength b n in
  if (n <? 0)%Z then None
  else mapM (fun k => String_ <$> readAt b (Z.to_nat n) k) (seq 0 (Z.to_nat n)).

(** ** Specification *)

(** The complete lines of the data, and what follows the last of them, when the line
    [acc] has been begun. *)
Fixpoint splitLines (acc : bytes) (data : bytes) : list bytes * bytes :=
  match data with
  | [] => ([], acc)
  | c :: data =>
      if decide (c = newline) then let '(ls, rest) := splitLines [] data in (acc :: ls, rest)
      else splitLines (acc ++ [c]) data
  end.

(** A line as it is kept. *)
Definition kept (max : Z) (data : bytes) : Line := mkLine (take (Z.to_nat max) data) (len data).

(** The last [n] elements of a list. *)
Definition lastn {A} (n : nat) (l : list A) : list A := drop (length l - n) l.

(** Successful writes of a number of chunks. *)
Fixpoint writeAll (b : LogBuffer) (chunks : list bytes) : option LogBuffer :=
  match chunks with
  | [] => Some b
  | data :: chunks =>
      '(r, b) ← bufWrite b data;
      match r with Ok n => if decide (n = len data) then writeAll b chunks else None | Err _ => None end
  end.

(** ** Lines *)

Lemma splitLines_app acc d1 d2 :
  splitLines acc (d1 ++ d2) =
  let '(l1, r1) := splitLines acc d1 in let '(l2, r2) := splitLines r1 d2 in (l1 ++ l2, r2).
Proof.
  revert acc. induction d1 as [|c d1 IH]; intros acc; simpl; [by destruct (splitLines acc d2)|].
  case_decide.
  - rewrite IH. destruct (splitLines [] d1) as [l1 r1]. by destruct (splitLines r1 d2).
  - apply IH.
Qed.

Lemma indexNewline_None acc data : indexNewline data = None -> splitLines acc data = ([], acc ++ data).
Proof.
  revert acc. induction data as [|c data IH]; intros acc; simpl; [by rewrite app_nil_r|].
  case_decide; [done|]. destruct (indexNewline data); [done|]. intros _. rewrite IH by done. by rewrite <- app_assoc.
Qed.

Lemma indexNewline_Some acc data n : indexNewline data = Some n ->
  n < length data /\
  splitLines acc data =
    let '(ls, rest) := splitLines [] (drop (S n) data) in ((acc ++ take n data) :: ls, rest).
Proof.
  revert acc n. induction data as [|c data IH]; intros acc n; simpl; [done|]. case_decide.
  - intros [= <-]. simpl. rewrite app_nil_r. split; [lia|]. by rewrite drop_0.
  - destruct (indexNewline data) as [m|]; [|done]. simpl. intros [= <-].
    destruct (IH (acc ++ [c]) m eq_refl) as [Hm ->]. split; [lia|]. simpl. by rewrite <- app_assoc.
Qed.

(** The line being written is [p], of which what fits is kept. *)
Definition pending (max : Z) (l : LineBuffer) (p : bytes) : Prop :=
  maxLineLength l = max /\ closed l = false /\ cur l = take (Z.to_nat max) p /\ length_ l = len p.

Lemma writeLimited_pending max l p d : (0 <= max)%Z -> pending max l p ->
  exists l', writeLimited l d = Some l' /\ pending max l' (p ++ d).
Proof.
  intros Hmax (Hm & Hcl & Hcur & Hlen). unfold writeLimited, sliceTo, len in *. rewrite Hm, Hcur, length_take.
  case_match eqn:Hlt.
  - apply Z.ltb_lt in Hlt. rewrite (proj2 (andb_true_iff _ _)) by (split; apply Z.leb_le; lia). simpl. eexists. split; [done|]. split_and!; [done..| |].
    + cbn [cur]. rewrite take_app. f_equal. f_equal. lia.
    + cbn [length_]. unfold len. rewrite length_app, Hlen. lia.
  - apply Z.ltb_ge in Hlt. simpl. eexists. split; [done|]. split_and!; [done..| |].
    + cbn [cur]. rewrite take_app. f_equal. rewrite take_ge; [done|]. lia.
    + cbn [length_]. unfold len. rewrite length_app, Hlen. lia.
Qed.

Lemma writeLoop_correct max fuel l data pos p : (0 <= max)%Z -> pending max l p -> length data - pos < fuel ->
  let '(ls, rest) := splitLines p (drop pos data) in
  exists l', writeLoop fuel l data pos = Some (kept max <$> ls, l') /\ pending max l' rest.
Proof.
  intros Hmax. revert l pos p. induction fuel as [|fuel IH]; intros l pos p Hp Hf; [lia|]. simpl.
  destruct (indexNewline (drop pos data)) as [n|] eqn:Hn.
  - destruct (indexNewline_Some p _ _ Hn) as [Hlt ->]. rewrite length_drop in Hlt. rewrite drop_drop.
    destruct (writeLimited_pending max l p (take n (drop pos data)) Hmax Hp) as (l1 & -> & Hp1). simpl.
    destruct Hp1 as (Hm & Hcl & Hcur & Hlen).
    assert (pending max (mkLB (maxLineLength l1) [] 0 (closed l1)) []) as Hp2.
    { split_and!; [done|done| |done]. by rewrite take_nil. }
    assert (mkLine (cur l1) (length_ l1) = kept max (p ++ take n (drop pos data))) as Hk.
    { unfold kept. by rewrite Hcur, Hlen. }
    case_decide as Hlast.
    + rewrite (drop_ge data) by lia. simpl. eexists. split; [|done]. by rewrite Hk.
    + specialize (IH _ (pos + n + 1) [] Hp2 ltac:(lia)). replace (pos + S n) with (pos + n + 1) by lia.
      destruct (splitLines [] (drop (pos + n + 1) data)) as [ls rest]. destruct IH as (l' & -> & Hl'). simpl.
      eexists. split; [|done]. by rewrite Hk.
  - rewrite (indexNewline_None p _ Hn). destruct (writeLimited_pending max l p (drop pos data) Hmax Hp) as (l' & -> & Hl').
    simpl. by exists l'.
Qed.

(** ** The ring *)

Definition ring (size : nat) (content : list Line) (count : nat) (lines : list Line) : Prop :=
  length content = size /\ count = length lines /\
  forall i, i < count <= i + size -> content !! (i mod size) = lines !! i.

Lemma mod_apart (i c s : nat) : i < c < i + s -> i mod s <> c mod s.
Proof.
  intros H Heq. pose proof (Nat.div_mod_eq i s). pose proof (Nat.div_mod_eq c s). rewrite Heq in *.
  assert (c - i = s * (c / s - i / s)) by nia. destruct (c / s - i / s); nia.
Qed.

Lemma callbacks_ring size content count lines ls : 0 < size -> ring size content count lines ->
  exists content' count', callbacks content count ls = Some (content', count') /\ ring size content' count' (lines ++ ls).
Proof.
  intros Hsz. revert content count lines. induction ls as [|l ls IH]; intros content count lines Hr; simpl.
  { rewrite app_nil_r. by exists content, count. }
  destruct Hr as (Hlen & Hcnt & Hr). unfold lineCallback. rewrite decide_False by lia. simpl.
  replace (lines ++ l :: ls) with ((lines ++ [l]) ++ ls) by by rewrite <- app_assoc.
  apply IH. rewrite Hlen. split_and!; [by rewrite length_insert|rewrite length_app; simpl; lia|].
  intros i Hi. destruct (decide (i = count)) as [->|Hne].
  - rewrite list_lookup_insert_eq by (rewrite Hlen; apply Nat.mod_upper_bound; lia).
    rewrite lookup_app_r, Hcnt, Nat.sub_diag by lia. done.
  - rewrite list_lookup_insert_ne by (apply not_eq_sym, mod_apart; lia).
    rewrite lookup_app_l by lia. apply Hr. lia.
Qed.

Lemma ReadLines_ring size b lines n : 0 < size -> ring size (content b) (count b) lines -> (0 <= n)%Z ->
  ReadLines b n = Some (lastn (Nat.min (Z.to_nat n) size) lines).
Proof.
  intros Hsz (Hlen & Hcnt & Hr) Hn. unfold ReadLines.
  assert (capToContentLength b n = Z.of_nat (Nat.min (length lines) (Nat.min (Z.to_nat n) size))) as ->.
  { unfold capToContentLength, len. repeat case_match; lia. }
  destruct (Z.ltb_spec (Z.of_nat (Nat.min (length lines) (Nat.min (Z.to_nat n) size))) 0); [lia|]. rewrite Nat2Z.id.
  apply mapM_Some, Forall2_same_length_lookup. unfold lastn. split.
  { rewrite length_seq, length_drop. lia. }
  intros i k l Hi Hl. apply lookup_seq in Hi as [-> Hi]. rewrite lookup_drop in Hl. simpl. unfold readAt.
  rewrite Hlen, Hr by lia. rewrite <- Hl. f_equal. lia.
Qed.

(** ** Correctness *)

(** The buffer after [data] was written in all. *)
Definition holds (size : nat) (max : Z) (b : LogBuffer) (data : bytes) : Prop :=
  let '(ls, rest) := splitLines [] data in
  ring size (content b) (count b) (kept max <$> ls) /\ pending max (line b) rest.

Lemma New_holds size max : holds size max (New size max) [].
Proof.
  split; [|split_and!; [done|done|by rewrite take_nil|done]].
  split_and!; [apply length_replicate|done|]. cbn [count New]. lia.
Qed.

Lemma bufWrite_holds size max b data d : 0 < size -> (0 <= max)%Z -> holds size max b data ->
  exists b', bufWrite b d = Some (Ok (len d), b') /\ holds size max b' (data ++ d).
Proof.
  intros Hsz Hmax Hb. unfold holds, bufWrite, Write in *. rewrite splitLines_app.
  destruct (splitLines [] data) as [ls rest]. destruct Hb as [Hr Hp]. rewrite (proj1 (proj2 Hp)).
  pose proof (writeLoop_correct max (S (length d)) (line b) d 0 rest Hmax Hp ltac:(lia)) as Hw. rewrite drop_0 in Hw.
  destruct (splitLines rest d) as [ls' rest']. destruct Hw as (l' & -> & Hl'). simpl.
  destruct (callbacks_ring size _ _ _ (kept max <$> ls') Hsz Hr) as (c' & n' & -> & Hr'). simpl.
  eexists. split; [done|]. by rewrite fmap_app.
Qed.

Lemma writeAll_holds size max b data chunks : 0 < size -> (0 <= max)%Z -> holds size max b data ->
  exists b', writeAll b chunks = Some b' /\ holds size max b' (data ++ concat chunks).
Proof.
  intros Hsz Hmax. revert b data. induction chunks as [|d chunks IH]; intros b data Hb; simpl.
  { exists b. by rewrite app_nil_r. }
  destruct (bufWrite_holds size max b data d Hsz Hmax Hb) as (b1 & -> & Hb1). simpl. rewrite decide_True by done.
  destruct (IH b1 _ Hb1) as (b' & Hw & Hb'). exists b'. by rewrite app_assoc.
Qed.

(** What closing adds to the lines. *)
Definition unfinished (rest : bytes) : list bytes := if decide (rest = []) then [] else [rest].

Lemma bufClose_ring size max b lines rest : 0 < size -> ring size (content b) (count b) lines -> pending max (line b) rest ->
  exists b', bufClose b = Some (Ok tt, b') /\
    ring size (content b') (count b') (lines ++ (kept max <$> unfinished rest)).
Proof.
  intros Hsz Hr (Hm & Hcl & Hcur & Hlen). unfold bufClose, Close. rewrite Hcl. cbn [length_]. rewrite Hlen.
  destruct (callbacks_ring size _ _ _ (kept max <$> unfinished rest) Hsz Hr) as (c' & n' & Hc & Hr').
  unfold unfinished in *. case_decide as Hrest.
  - subst rest. simpl in *. injection Hc as -> ->. by eexists.
  - destruct (Z.ltb_spec 0 (len rest)) as [_|Hle]; [|unfold len in Hle; destruct rest; simpl in *; [done|lia]].
    cbn [commitLine cur length_] in *. replace (mkLine (cur (line b)) (len rest)) with (kept max rest).
    + cbn [fmap list_fmap] in Hc. rewrite Hc. simpl. by eexists.
    + unfold kept. by rewrite Hcur.
Qed.

(** However the data is cut into writes, the buffer keeps the last lines of all of
    it, each up to the maximal length and with its full length; reading returns as
    many of them as are asked for and kept, in order, and closing adds an unfinished
    line.  Nothing panics for a ring that is not empty. *)
Theorem LogBuffer_correct size max chunks :
  0 < size -> (0 <= max)%Z ->
  let '(ls, rest) := splitLines [] (concat chunks) in
  exists b b', writeAll (New size max) chunks = Some b /\ bufClose b = Some (Ok tt, b') /\
    forall n, (0 <= n)%Z ->
      ReadLines b n = Some (lastn (Nat.min (Z.to_nat n) size) (kept max <$> ls)) /\
      ReadLines b' n = Some (lastn (Nat.min (Z.to_nat n) size) (kept max <$> ls ++ unfinished rest)).
Proof.
  intros Hsz Hmax. destruct (writeAll_holds size max _ [] chunks Hsz Hmax (New_holds size max)) as (b & Hw & Hb).
  unfold holds in Hb. simpl in Hb. destruct (splitLines [] (concat chunks)) as [ls rest]. destruct Hb as [Hr Hp].
  destruct (bufClose_ring size max b _ rest Hsz Hr Hp) as (b' & Hc & Hr'). exists b, b'. split_and!; [done..|].
  intros n Hn. rewrite fmap_app. split; by apply ReadLines_ring.
Qed.

Lemma LogBuffer_correct_witness :
  let chunks := [["a"; "b"]; ["c"; newline; newline; "d"]; ["e"; newline; "f"]]%char in
  let '(ls, rest) := splitLines [] (concat chunks) in
  exists b b', writeAll (New 2 2) chunks = Some b /\ bufClose b = Some (Ok tt, b') /\
    forall n, (0 <= n)%Z ->
      ReadLines b n = Some (lastn (Nat.min (Z.to_nat n) 2) (kept 2 <$> ls)) /\
      ReadLines b' n = Some (lastn (Nat.min (Z.to_nat n) 2) (kept 2 <$> ls ++ unfinished rest)).
Proof. apply (LogBuffer_correct 2 2); lia. Defined.

(** A line survives its protobuf form. *)
Lemma line_roundtrip l : (len (Data l) <= OriginalLength l < 2 ^ 63)%Z -> LineFromLogProto (ProtoLog l) = Ok l.
Proof.
  intros Hl. assert (int64 (OriginalLength l) = OriginalLength l) as Hi.
  { unfold int64, len in *. rewrite Z.mod_small; lia. }
  unfold LineFromLogProto, ProtoLog. cbn [rawOriginalLength rawData]. rewrite !Hi.
  destruct (Z.ltb_spec (OriginalLength l) (len (Data l))); [lia|].
  destruct (Z.ltb_spec (OriginalLength l) (OriginalLength l)); [lia|]. by destruct l.
Qed.

End LogBuffer.
