(* ===== verification/Links.v ===== *)
(** * Doubly linked lists

    The shape of a doubly linked list given by link functions, and what appending at
    the tail and unlinking an element do to it.  Used for the global and the local
    lists of the log journal. *)

From S2P Require Import Prelude.

Module Links.

Section Links.
Context {A : Type} `{EqDecision A}.
Implicit Types (nx pv : A -> option A) (l : list A) (x y : A).

(** [l] is linked from [hd] to [tl]. *)
Definition linked nx pv (hd tl : option A) l : Prop :=
  hd = hd_error l /\ tl = last l /\
  forall l1 x l2, l = l1 ++ x :: l2 -> pv x = last l1 /\ nx x = hd_error l2.

Lemma linked_ext nx pv nx' pv' hd tl l :
  (forall x, x ∈ l -> nx' x = nx x /\ pv' x = pv x) -> linked nx pv hd tl l -> linked nx' pv' hd tl l.
Proof.
  intros He (Hh & Ht & Hl). split_and!; [done|done|]. intros l1 x l2 ->.
  destruct (He x) as [-> ->]; [rewrite elem_of_app, elem_of_cons; auto|]. by apply Hl.
Qed.

Lemma last_hd_None l : last l = None <-> hd_error l = None.
Proof. rewrite last_None. by destruct l. Qed.

Lemma last_not_in l x : x ∉ l -> last l <> Some x.
Proof. intros Hx Hl. by apply Hx, last_Some_elem_of. Qed.
Lemma hd_not_in l x : x ∉ l -> hd_error l <> Some x.
Proof. destruct l; [done|]. intros Hx [= ->]. apply Hx. by left. Qed.

Lemma hd_app l1 l2 : hd_error (l1 ++ l2) = match l1 with [] => hd_error l2 | x :: _ => Some x end.
Proof. by destruct l1. Qed.
Lemma last_app_r l1 l2 : l2 <> [] -> last (l1 ++ l2) = last l2.
Proof. intros Hl. rewrite last_app. destruct (last l2) eqn:H; [done|]. by apply last_None in H. Qed.

Lemma linked_neighbours nx pv hd tl l x y :
  linked nx pv hd tl l -> x ∈ l -> pv x = Some y \/ nx x = Some y -> y ∈ l.
Proof.
  intros (_ & _ & Hl) Hx Hy. apply list_elem_of_split in Hx as (l1 & l2 & ->).
  destruct (Hl l1 x l2 eq_refl) as [Hp Hn]. rewrite Hp, Hn in Hy. rewrite elem_of_app, elem_of_cons.
  destruct Hy as [Hy%last_Some_elem_of|Hy]; [auto|]. destruct l2 as [|z l2]; [done|]. injection Hy as ->. right. right. left.
Qed.

(** Unlinking: the neighbours are linked to each other. *)
Lemma linked_remove nx pv nx' pv' hd tl l1 x l2 :
  NoDup (l1 ++ x :: l2) -> linked nx pv hd tl (l1 ++ x :: l2) ->
  (forall y, y ∈ l1 ++ l2 -> nx' y = (if decide (pv x = Some y) then nx x else nx y) /\
                            pv' y = (if decide (nx x = Some y) then pv x else pv y)) ->
  linked nx' pv' (if decide (hd = Some x) then nx x else hd) (if decide (tl = Some x) then pv x else tl) (l1 ++ l2).
Proof.
  intros Hnd (Hh & Ht & Hl) He. destruct (Hl l1 x l2 eq_refl) as [Hpx Hnx].
  apply NoDup_app in Hnd as (Hnd1 & Hd & Hnd2). apply NoDup_cons in Hnd2 as [Hx2 Hnd2].
  assert (x ∉ l1) as Hx1. { intros H. apply (Hd x H). by left. }
  rewrite hd_app in Hh. rewrite last_app_r in Ht by done. split_and!.
  - rewrite hd_app. destruct l1 as [|y l1]; [by rewrite Hh, decide_True|]. rewrite Hh, decide_False; [done|].
    intros [= ->]. apply Hx1. by left.
  - destruct l2 as [|y l2].
    + rewrite Ht, app_nil_r. simpl. by rewrite decide_True.
    + rewrite last_app_r, Ht by done. rewrite last_cons_cons, decide_False; [done|]. by apply last_not_in.
  - intros m1 y m2 Heq. destruct (He y) as [-> ->]; [rewrite Heq, elem_of_app, elem_of_cons; auto|].
    rewrite Hpx, Hnx. apply app_eq_inv in Heq as [(k & H1 & H2)|(k & H1 & H2)].
    + destruct k as [|z k].
      * simpl in H2. rewrite app_nil_r in H1. subst m1. destruct (Hl (l1 ++ [x]) y m2) as [Hp Hn].
        { rewrite <- app_assoc. simpl. by rewrite H2. }
        rewrite <- H2 in *. rewrite (decide_False (P := last l1 = Some y)) by (apply last_not_in; intros H; apply (Hd y H); right; left).
        by rewrite decide_True.
      * injection H2 as -> ->. subst l1. destruct (Hl m1 z (k ++ x :: l2)) as [Hp Hn]; [by rewrite <- !app_assoc|].
        rewrite (decide_False (P := hd_error l2 = Some z)).
        2:{ apply hd_not_in. intros H. apply (Hd z); [rewrite elem_of_app, elem_of_cons; auto|by right]. }
        split; [done|]. destruct k as [|w k].
        -- rewrite last_app_r, decide_True by done. done.
        -- rewrite decide_False; [by rewrite Hn|]. rewrite last_app_r, last_cons_cons by done. apply last_not_in.
           apply NoDup_app in Hnd1 as (_ & _ & Hz). by apply NoDup_cons in Hz as [].
    + subst m1 l2. destruct (Hl (l1 ++ x :: k) y m2) as [Hp Hn]; [by rewrite <- app_assoc|].
      rewrite (decide_False (P := last l1 = Some y)).
      2:{ apply last_not_in. intros H. apply (Hd y H). right. rewrite elem_of_app, elem_of_cons. auto. }
      split; [|done]. destruct k as [|w k].
      * rewrite app_nil_r, decide_True by done. done.
      * rewrite decide_False; [by rewrite Hp, !last_app_r, last_cons_cons|].
        intros [= ->]. apply NoDup_app in Hnd2 as (_ & Hd2 & _). apply (Hd2 y); left.
Qed.

(** Appending an element that is not in the list. *)
Lemma linked_snoc nx pv nx' pv' hd tl l x :
  NoDup l -> x ∉ l -> linked nx pv hd tl l -> nx' x = None -> pv' x = tl ->
  (forall y, y ∈ l -> nx' y = (if decide (tl = Some y) then Some x else nx y) /\ pv' y = pv y) ->
  linked nx' pv' (if decide (hd = None) then Some x else hd) (Some x) (l ++ [x]).
Proof.
  intros Hnd Hx (Hh & Ht & Hl) Hn Hp He. split_and!.
  - rewrite hd_app, Hh. by destruct l.
  - by rewrite last_snoc.
  - intros l1 y l2 Heq. destruct l2 as [|z l2 _] using rev_ind.
    + apply app_inj_tail in Heq as [-> ->]. by rewrite Hp, Hn.
    + replace (l1 ++ y :: l2 ++ [z]) with ((l1 ++ y :: l2) ++ [z]) in Heq by by rewrite <- app_assoc.
      apply app_inj_tail in Heq as [Heq ->]. destruct (He y) as [-> ->]; [rewrite Heq, elem_of_app, elem_of_cons; auto|].
      destruct (Hl l1 y l2 Heq) as [-> Hny]. split; [done|]. rewrite Ht, Heq. destruct l2 as [|w l2].
      * rewrite last_app_r, decide_True by done. done.
      * rewrite Hny. case_decide as Hd; [|done]. rewrite last_app_r, last_cons_cons in Hd by done.
        exfalso. subst l. apply NoDup_app in Hnd as (_ & _ & Hnd). apply NoDup_cons in Hnd as [Hy _].
        by apply last_not_in in Hy.
Qed.

End Links.
End Links.
