(* ===== verification/Journal.v ===== *)
(** * The log journal

    Models [osbase/logtree]: the journal of log entries as a heap of entries linked
    into one global list and a list per distinguished name ([journal.go],
    [journal_entry.go]), its quota, its subscribers ([journal_subscriber.go]) and
    reads ([logtree_access.go]).  A pointer is a location in the heap; a nil
    dereference is [None]. *)

From S2P Require Import Prelude GoStrings GoSort LogBuffer.
From Stdlib Require Import ZArith.

Module Journal.
Import GoSort LogBuffer.

(** ** Names and severities *)

(** [DN.Path]. *)
Definition Path (d : string) : result string (list string) :=
  if decide (d = EmptyString) then Ok []
  else
    let parts := Split d "." in
    if existsb (fun p => bool_decide (p = EmptyString)) parts then Err "invalid DN"%string else Ok parts.

Inductive Severity := INFO | WARNING | ERROR | FATAL.
#[export] Instance Severity_eq_dec : EqDecision Severity.
Proof. solve_decision. Defined.

Definition SeverityAtLeast (s : Severity) : list Severity :=
  match s with
  | INFO => [INFO; WARNING; ERROR; FATAL]
  | WARNING => [WARNING; ERROR; FATAL]
  | ERROR => [ERROR; FATAL]
  | FATAL => [FATAL]
  end.
Definition AtLeast (s other : Severity) : bool := bool_decide (s ∈ SeverityAtLeast other).

Record LeveledPayload := mkLeveled {
  messages : list string;
  timestamp : Z;
  severity : Severity;
  file : string;
  fileLine : Z
}.

(** ** Entries *)

Abbreviation loc := positive.

Record entry := mkEntry {
  origin : string;
  leveled : option LeveledPayload;
  raw : option Line;
  prevGlobal : option loc;
  nextGlobal : option loc;
  prevLocal : option loc;
  nextLocal : option loc;
  seqLocal : Z
}.

Definition set_prevGlobal p e := mkEntry (origin e) (leveled e) (raw e) p (nextGlobal e) (prevLocal e) (nextLocal e) (seqLocal e).
Definition set_nextGlobal n e := mkEntry (origin e) (leveled e) (raw e) (prevGlobal e) n (prevLocal e) (nextLocal e) (seqLocal e).
Definition set_prevLocal p e := mkEntry (origin e) (leveled e) (raw e) (prevGlobal e) (nextGlobal e) p (nextLocal e) (seqLocal e).
Definition set_nextLocal n e := mkEntry (origin e) (leveled e) (raw e) (prevGlobal e) (nextGlobal e) (prevLocal e) n (seqLocal e).
Definition set_seqLocal s e := mkEntry (origin e) (leveled e) (raw e) (prevGlobal e) (nextGlobal e) (prevLocal e) (nextLocal e) s.

(** [LogEntry], the public part of an entry. *)
Record LogEntry := mkLog { DN : string; Leveled : option LeveledPayload; Raw : option Line }.
Definition external (e : entry) : LogEntry := mkLog (origin e) (leveled e) (raw e).

Definition filter_ : Type := entry -> bool.

(** ** The journal *)

(** A subscriber: the entries in its channel (of capacity [cap]), whether it is done,
    whether its channel is closed, and how many entries it missed. *)
Record subscriber := mkSub {
  filters : list filter_;
  dataC : list LogEntry;
  cap : nat;
  done_ : bool;
  dataClosed : bool;
  missed : Z
}.

(** A map of pointers has no entry where the pointer is nil. *)
Record journal := mkJournal {
  heap : gmap loc entry;
  head : option loc;
  tail : option loc;
  heads : gmap string loc;
  tails : gmap string loc;
  quotas : gmap string Z;
  subscribers : list subscriber
}.

Definition newJournal : journal := mkJournal ∅ None None ∅ ∅ ∅ [].

Definition set_heap h j := mkJournal h (head j) (tail j) (heads j) (tails j) (quotas j) (subscribers j).
Definition set_head p j := mkJournal (heap j) p (tail j) (heads j) (tails j) (quotas j) (subscribers j).
Definition set_tail p j := mkJournal (heap j) (head j) p (heads j) (tails j) (quotas j) (subscribers j).
Definition set_heads m j := mkJournal (heap j) (head j) (tail j) m (tails j) (quotas j) (subscribers j).
Definition set_tails m j := mkJournal (heap j) (head j) (tail j) (heads j) m (quotas j) (subscribers j).
Definition set_quotas q j := mkJournal (heap j) (head j) (tail j) (heads j) (tails j) q (subscribers j).
Definition set_subscribers s j := mkJournal (heap j) (head j) (tail j) (heads j) (tails j) (quotas j) s.

(** [m[k] = p] for a pointer. *)
Definition assign (k : string) (p : option loc) (m : gmap string loc) : gmap string loc :=
  match p with Some l => <[k := l]> m | None => delete k m end.

(** [p.field = v] for a pointer that may be nil, guarded by a nil check. *)
Definition update (p : option loc) (f : entry -> entry) (j : journal) : option journal :=
  match p with
  | None => Some j
  | Some l => e ← heap j !! l; Some (set_heap (<[l := f e]> (heap j)) j)
  end.

(** ** [unlink] *)

(** The pointers are read where the code reads them; [e] stays allocated, as
    subscribers and readers may hold it. *)
Definition unlink (l : loc) (j : journal) : option journal :=
  e ← heap j !! l;
  j ← update (prevGlobal e) (set_nextGlobal (nextGlobal e)) j;
  j ← update (nextGlobal e) (set_prevGlobal (prevGlobal e)) j;
  let j := if bool_decide (head j = Some l) then set_head (nextGlobal e) j else j in
  let j := if bool_decide (tail j = Some l) then set_tail (prevGlobal e) j else j in
  j ← update (prevLocal e) (set_nextLocal (nextLocal e)) j;
  j ← update (nextLocal e) (set_prevLocal (prevLocal e)) j;
  let j := if bool_decide (heads j !! origin e = Some l) then set_heads (assign (origin e) (nextLocal e) (heads j)) j else j in
  let j := if bool_decide (tails j !! origin e = Some l) then set_tails (assign (origin e) (prevLocal e) (tails j)) j else j in
  Some j.

(** ** [append] *)

Definition uint64 (z : Z) : Z := z mod 2 ^ 64.

(** The popping loop: [n] entries from [cur] on. *)
Fixpoint pop (n : nat) (cur : option loc) (j : journal) : option journal :=
  match n, cur with
  | S n, Some el =>
      e ← heap j !! el;
      j ← unlink el j;
      pop n (nextLocal e) j
  | _, _ => Some j
  end.

(** The first part of [append]: a new entry, allocated at [l], is linked at the tails of
    its lists. *)
Definition insertEntry (l : loc) (dn : string) (lv : option LeveledPayload) (rw : option Line) (j : journal) : option journal :=
  let old := tail j in
  let j := set_heap (<[l := mkEntry dn lv rw old None None None 0]> (heap j)) j in
  j ← update old (set_nextGlobal (Some l)) j;
  let j := set_tail (Some l) j in
  let j := if decide (head j = None) then set_head (Some l) j else j in
  let j := if decide (quotas j !! dn = None) then set_quotas (<[dn := 8192%Z]> (quotas j)) j else j in
  j ← match tails j !! dn with
      | Some t =>
          j ← update (Some t) (set_nextLocal (Some l)) j;
          te ← heap j !! t;
          update (Some l) (fun e => set_prevLocal (Some t) (set_seqLocal (uint64 (seqLocal te + 1)) e)) j
      | None => Some j
      end;
  let j := set_tails (<[dn := l]> (tails j)) j in
  Some (if decide (heads j !! dn = None) then set_heads (<[dn := l]> (heads j)) j else j).

(** The second part: the oldest entries of the name in excess of its quota are unlinked. *)
Definition applyQuota (dn : string) (j : journal) : option journal :=
  t ← tails j !! dn; te ← heap j !! t;
  h ← heads j !! dn; he ← heap j !! h;
  max ← quotas j !! dn;
  let count := uint64 (uint64 (seqLocal te - seqLocal he) + 1) in
  if (max <? count)%Z then pop (Z.to_nat (uint64 (count - max))) (heads j !! dn) j else Some j.

Definition append (l : loc) (dn : string) (lv : option LeveledPayload) (rw : option Line) (j : journal) : option journal :=
  j ← insertEntry l dn lv rw j;
  applyQuota dn j.

(** ** Filters *)

Definition filterAll : filter_ := fun _ => true.
Definition filterExact (dn : string) : filter_ := fun e => bool_decide (origin e = dn).

(** [rootParts] is a prefix of the parts. *)
Fixpoint prefixParts (rootParts parts : list string) : bool :=
  match rootParts, parts with
  | [], _ => true
  | p :: rootParts, q :: parts => bool_decide (q = p) && prefixParts rootParts parts
  | _ :: _, [] => false
  end.
Definition filterSubtree (root : string) : filter_ :=
  if decide (root = EmptyString) then filterAll
  else fun e => prefixParts (Split root ".") (Split (origin e) ".").
Definition filterSeverity (atLeast : Severity) : filter_ := fun e =>
  match leveled e with Some p => AtLeast (severity p) atLeast | None => false end.
Definition filterOnlyRaw : filter_ := fun e => bool_decide (is_Some (raw e)).
Definition filterOnlyLeveled : filter_ := fun e => bool_decide (is_Some (leveled e)).

Definition passes (fs : list filter_) (e : entry) : bool := forallb (fun f => f e) fs.

(** ** Reading *)

Definition BacklogAllAvailable : Z := -1.

(** The loop of [scanEntries] and [getEntries], over a link field; it visits every
    entry at most once. *)
Fixpoint scanLoop (link : entry -> option loc) (h : gmap loc entry) (count : Z) (fs : list filter_)
    (fuel : nat) (cur : option loc) (res : list loc) : option (list loc) :=
  match cur with
  | None => Some res
  | Some l =>
      match fuel with
      | 0 => None
      | S fuel =>
          e ← h !! l;
          let res := if passes fs e then res ++ [l] else res in
          if negb (count =? BacklogAllAvailable)%Z && (count <=? len res)%Z then Some res
          else scanLoop link h count fs fuel (link e) res
      end
  end.

Definition scanEntries (j : journal) (count : Z) (fs : list filter_) : option (list loc) :=
  SliceStable indexAfter <$> scanLoop prevGlobal (heap j) count fs (size (heap j)) (tail j) [].

Definition getEntries (j : journal) (count : Z) (exact : string) (fs : list filter_) : option (list loc) :=
  SliceStable indexAfter <$> scanLoop prevLocal (heap j) count fs (size (heap j)) (tails j !! exact) [].

(** ** Subscribers *)

Definition subscribe (sub : subscriber) (j : journal) : journal := set_subscribers (subscribers j ++ [sub]) j.

(** The loop over the filters of a subscriber has no effect: its [continue] continues
    with the next filter. *)
Fixpoint filterLoop (fs : list filter_) (e : entry) : unit :=
  match fs with
  | [] => tt
  | f :: fs => if negb (f e) then filterLoop fs e else filterLoop fs e
  end.

(** The body of the loop over subscribers: the subscriber after, and whether it stays. *)
Definition notifyOne (e : entry) (sub : subscriber) : subscriber * bool :=
  if done_ sub then (mkSub (filters sub) (dataC sub) (cap sub) (done_ sub) true (missed sub), false)
  else
    let 'tt := filterLoop (filters sub) e in
    if length (dataC sub) <? cap sub
    then (mkSub (filters sub) (dataC sub ++ [external e]) (cap sub) (done_ sub) (dataClosed sub) (missed sub), true)
    else (mkSub (filters sub) (dataC sub) (cap sub) (done_ sub) (dataClosed sub) (uint64 (missed sub + 1)), true).

Definition notify (l : loc) (j : journal) : option journal :=
  e ← heap j !! l;
  Some (set_subscribers (fst <$> List.filter snd (notifyOne e <$> subscribers j)) j).

(** ** [Read] *)

Record LogReadOption := mkOpt {
  withChildren : bool;
  withStream : bool;
  withBacklog : Z;
  onlyLeveled : bool;
  onlyRaw : bool;
  leveledWithMinimumSeverity : option Severity
}.

(** The options in force: the last of each kind wins. *)
Definition applyOption (acc o : LogReadOption) : LogReadOption :=
  mkOpt (withChildren acc || withChildren o) (withStream acc || withStream o)
    (if (0 <? withBacklog o)%Z || (withBacklog o =? BacklogAllAvailable)%Z then withBacklog o else withBacklog acc)
    (onlyLeveled acc || onlyLeveled o) (onlyRaw acc || onlyRaw o)
    (match leveledWithMinimumSeverity o with Some s => Some s | None => leveledWithMinimumSeverity acc end).
Definition options (opts : list LogReadOption) : LogReadOption := foldl applyOption (mkOpt false false 0 false false None) opts.

Definition readFilters (dn : string) (o : LogReadOption) : list filter_ :=
  (if onlyLeveled o then [filterOnlyLeveled] else []) ++
  (if onlyRaw o then [filterOnlyRaw] else []) ++
  [if withChildren o then filterSubtree dn else filterExact dn] ++
  (match leveledWithMinimumSeverity o with Some s => [filterSeverity s] | None => [] end).

(** [Read]: the backlog, and the journal with the subscriber of a stream. *)
Definition Read (j : journal) (dn : string) (opts : list LogReadOption) : option (result string (list LogEntry) * journal) :=
  let o := options opts in
  if onlyLeveled o && onlyRaw o then Some (Err "cannot return logs that are simultaneously OnlyRaw and OnlyLeveled"%string, j)
  else
    let fs := readFilters dn o in
    ls ← (if (0 <? withBacklog o)%Z || (withBacklog o =? BacklogAllAvailable)%Z then
            if withChildren o then scanEntries j (withBacklog o) fs else getEntries j (withBacklog o) dn fs
          else Some []);
    es ← mapM (fun l => heap j !! l) ls;
    let j := if withStream o then subscribe (mkSub fs [] 128 false false 0) j else j in
    Some (Ok (external <$> es), j).

(** [logRaw] and [logLeveled]: an entry is appended, then subscribers are notified. *)
Definition log (l : loc) (dn : string) (lv : option LeveledPayload) (rw : option Line) (j : journal) : option journal :=
  j ← append l dn lv rw j;
  notify l j.

End Journal.
