(* ===== verification/JournalProps.v ===== *)
(** * Properties of the log journal

    The heap of linked entries implements a list of entries with a quota per
    distinguished name: appending drops the oldest entries of the name, reading
    returns the newest entries that match.  Also: subscribers receive entries that
    their filters do not match. *)

From S2P Require Import Prelude GoStrings GoSort Links LogBuffer Journal.
From Stdlib Require Import ZArith.

Module JournalProps.
Import GoSort Links LogBuffer Journal.

(** ** Lists *)

(** A list without the first [n] elements that satisfy [P]. *)
Fixpoint dropFirst {A} (P : A -> Prop) `{forall x, Decision (P x)} (n : nat) (l : list A) : list A :=
  match l with
  | [] => []
  | x :: l =>
      match n with
      | 0 => x :: l
      | S n' => if decide (P x) then dropFirst P n' l else x :: dropFirst P n l
      end
  end.

Section DropFirst.
Context {A : Type} (P : A -> Prop) `{forall x, Decision (P x)}.

Lemma dropFirst_0 l : dropFirst P 0 l = l.
Proof. by destruct l. Qed.

Lemma dropFirst_skip n l1 l2 : filter P l1 = [] -> dropFirst P n (l1 ++ l2) = l1 ++ dropFirst P n l2.
Proof.
  induction l1 as [|x l1 IH]; [done|]. rewrite filter_cons. case_decide; [done|]. intros Hl. simpl.
  destruct n; [by rewrite dropFirst_0|]. rewrite decide_False by done. by rewrite IH.
Qed.

Lemma dropFirst_S n l1 x l2 : filter P l1 = [] -> P x -> dropFirst P (S n) (l1 ++ x :: l2) = dropFirst P n (l1 ++ l2).
Proof. intros Hl Hx. rewrite !dropFirst_skip by done. simpl. by rewrite decide_True. Qed.

Lemma dropFirst_filter n l : filter P (dropFirst P n l) = drop n (filter P l).
Proof.
  revert n. induction l as [|x l IH]; intros n; simpl; [by rewrite filter_nil, drop_nil|]. destruct n as [|n]; [done|].
  rewrite (filter_cons P x l). case_decide; simpl; [apply IH|]. rewrite filter_cons, decide_False by done. apply IH.
Qed.

Lemma dropFirst_filter_le (Q : A -> Prop) `{forall x, Decision (Q x)} n l :
  length (filter Q (dropFirst P n l)) <= length (filter Q l).
Proof.
  revert n. induction l as [|x l IH]; intros n; simpl; [done|]. destruct n as [|n]; [done|].
  rewrite (filter_cons Q x l). specialize (IH n) as IHn. specialize (IH (S n)).
  case_decide; [destruct (decide (Q x)); simpl; lia|]. rewrite filter_cons. case_decide; simpl; lia.
Qed.

Lemma filter_cons_split l x rest : filter P l = x :: rest ->
  exists l1 l2, l = l1 ++ x :: l2 /\ filter P l1 = [] /\ filter P l2 = rest /\ P x.
Proof.
  induction l as [|y l IH]; [done|]. rewrite filter_cons. case_decide as Hy.
  - intros [= -> <-]. by exists [], l.
  - intros (l1 & l2 & -> & H1 & H2 & Hx)%IH. exists (y :: l1), l2. split_and!; [done| |done|done].
    by rewrite filter_cons, decide_False.
Qed.

End DropFirst.

Lemma dropFirst_ext {A} (P Q : A -> Prop) `{forall x, Decision (P x)} `{forall x, Decision (Q x)} n l :
  (forall x, P x <-> Q x) -> dropFirst P n l = dropFirst Q n l.
Proof.
  intros HPQ. revert n. induction l as [|x l IH]; intros n; simpl; [done|]. destruct n; [done|].
  destruct (decide (P x)) as [Hx|Hx], (decide (Q x)) as [Hx'|Hx']; [apply IH|naive_solver|naive_solver|by rewrite IH].
Qed.

Lemma filter_ext_in {A} (P Q : A -> Prop) `{forall x, Decision (P x)} `{forall x, Decision (Q x)} (l : list A) :
  (forall x, x ∈ l -> P x <-> Q x) -> filter P l = filter Q l.
Proof.
  induction l as [|x l IH]; intros HPQ; [done|]. rewrite !filter_cons.
  rewrite IH by (intros y Hy; apply HPQ; by right). assert (P x <-> Q x) by (apply HPQ; by left).
  repeat case_decide; tauto || done.
Qed.

(** ** The heap *)

Definition nG (j : journal) (x : loc) : option loc := heap j !! x ≫= nextGlobal.
Definition pG (j : journal) (x : loc) : option loc := heap j !! x ≫= prevGlobal.
Definition nL (j : journal) (x : loc) : option loc := heap j !! x ≫= nextLocal.
Definition pL (j : journal) (x : loc) : option loc := heap j !! x ≫= prevLocal.
Definition originOf (j : journal) (x : loc) : option string := origin <$> heap j !! x.
Definition seqOf (j : journal) (x : loc) : option Z := seqLocal <$> heap j !! x.

Definition locals (j : journal) (dn : string) (gl : list loc) : list loc := filter (fun x => originOf j x = Some dn) gl.

(** The journal holds the entries [gl], in order: they are linked in the global list
    and, those of a name, in the local list of the name, with consecutive numbers. *)
Record links (j : journal) (gl : list loc) : Prop := {
  links_nodup : NoDup gl;
  links_heap x : x ∈ gl -> is_Some (heap j !! x);
  links_global : linked (nG j) (pG j) (head j) (tail j) gl;
  links_local dn : linked (nL j) (pL j) (heads j !! dn) (tails j !! dn) (locals j dn gl);
  links_seq dn : exists s, forall i x, locals j dn gl !! i = Some x -> seqOf j x = Some (uint64 (s + Z.of_nat i))
}.

Lemma locals_app j dn l1 l2 : locals j dn (l1 ++ l2) = locals j dn l1 ++ locals j dn l2.
Proof. apply filter_app. Qed.

(** Updating through a pointer that may be nil. *)
Definition upd (p : option loc) (f : entry -> entry) (h : gmap loc entry) : gmap loc entry :=
  match p with Some l => alter f l h | None => h end.

Lemma upd_lookup p f h y : upd p f h !! y = if decide (p = Some y) then f <$> h !! y else h !! y.
Proof.
  destruct p as [l|]; simpl; [|done]. destruct (decide (l = y)) as [->|].
  - by rewrite lookup_alter_eq, decide_True.
  - rewrite lookup_alter_ne, decide_False; congruence.
Qed.

Lemma update_upd p f j : (forall l, p = Some l -> is_Some (heap j !! l)) ->
  update p f j = Some (set_heap (upd p f (heap j)) j).
Proof.
  intros Hp. unfold update, upd. destruct p as [l|]; [|by destruct j]. destruct (Hp l eq_refl) as [e He]. rewrite He. simpl.
  do 2 f_equal. symmetry. apply map_eq. intros y. destruct (decide (l = y)) as [->|].
  - by rewrite lookup_alter_eq, lookup_insert_eq, He.
  - by rewrite lookup_alter_ne, lookup_insert_ne.
Qed.

Lemma upd_is_Some p f h y : is_Some (upd p f h !! y) <-> is_Some (h !! y).
Proof. rewrite upd_lookup. case_decide; [apply fmap_is_Some|done]. Qed.

Lemma assign_eq k p m : assign k p m !! k = p.
Proof. destruct p; simpl; [apply lookup_insert_eq|apply lookup_delete_eq]. Qed.
Lemma assign_ne k k' p m : k <> k' -> assign k p m !! k' = m !! k'.
Proof. intros. destruct p; simpl; [by apply lookup_insert_ne|by apply lookup_delete_ne]. Qed.

(** What linking and unlinking leave alone. *)
Definition same_entries (j j' : journal) : Prop :=
  (forall y, external <$> heap j' !! y = external <$> heap j !! y) /\ (forall y, seqOf j' y = seqOf j y) /\
  quotas j' = quotas j /\ subscribers j' = subscribers j.

Lemma same_origin j j' y : same_entries j j' -> originOf j' y = originOf j y.
Proof.
  intros (H & _). specialize (H y). unfold originOf.
  destruct (heap j' !! y), (heap j !! y); simpl in *; [by injection H as -> _ _|done..].
Qed.
Lemma same_locals j j' dn gl : same_entries j j' -> locals j' dn gl = locals j dn gl.
Proof. intros H. unfold locals. apply list_filter_iff. intros y. by rewrite (same_origin j j'). Qed.

(** ** [unlink] *)

Section Unlink.
Context (j : journal) (g1 g2 : list loc) (x : loc) (e : entry).
Hypothesis (Hl : links j (g1 ++ x :: g2)) (He : heap j !! x = Some e).

(** The heap after [unlink]. *)
Definition unlinked : gmap loc entry :=
  upd (nextLocal e) (set_prevLocal (prevLocal e)) (upd (prevLocal e) (set_nextLocal (nextLocal e))
    (upd (nextGlobal e) (set_prevGlobal (prevGlobal e)) (upd (prevGlobal e) (set_nextGlobal (nextGlobal e)) (heap j)))).

Definition after : journal :=
  mkJournal unlinked
    (if decide (head j = Some x) then nextGlobal e else head j)
    (if decide (tail j = Some x) then prevGlobal e else tail j)
    (if decide (heads j !! origin e = Some x) then assign (origin e) (nextLocal e) (heads j) else heads j)
    (if decide (tails j !! origin e = Some x) then assign (origin e) (prevLocal e) (tails j) else tails j)
    (quotas j) (subscribers j).

Lemma x_in : x ∈ g1 ++ x :: g2.
Proof. rewrite elem_of_app, elem_of_cons. auto. Qed.
Lemma x_local : x ∈ locals j (origin e) (g1 ++ x :: g2).
Proof. apply list_elem_of_filter. split; [unfold originOf; by rewrite He|apply x_in]. Qed.

Lemma unlink_after : unlink x j = Some after.
Proof.
  assert (forall y, prevGlobal e = Some y \/ nextGlobal e = Some y -> is_Some (heap j !! y)) as HG.
  { intros y Hy. apply (links_heap _ _ Hl). eapply linked_neighbours; [apply (links_global _ _ Hl)|apply x_in|].
    unfold pG, nG. by rewrite He. }
  assert (forall y, prevLocal e = Some y \/ nextLocal e = Some y -> is_Some (heap j !! y)) as HL.
  { intros y Hy. assert (y ∈ locals j (origin e) (g1 ++ x :: g2)) as Hin.
    { eapply linked_neighbours; [apply (links_local _ _ Hl)|apply x_local|]. unfold pL, nL. by rewrite He. }
    apply list_elem_of_filter in Hin as [_ Hin]. by apply (links_heap _ _ Hl). }
  unfold unlink. rewrite He. simpl. rewrite update_upd by (intros; apply HG; auto). simpl.
  rewrite update_upd by (intros; simpl; rewrite upd_is_Some; apply HG; auto). simpl.
  repeat rewrite bool_decide_decide.
  rewrite (update_upd (prevLocal e)) by (intros; repeat case_decide; simpl; rewrite !upd_is_Some; apply HL; auto). simpl.
  rewrite (update_upd (nextLocal e)) by (intros; repeat case_decide; simpl; rewrite !upd_is_Some; apply HL; auto). simpl.
  unfold after, unlinked. repeat case_decide; simpl in *; try done.
Qed.

Lemma after_same : same_entries j after.
Proof.
  split_and!; [..|done|done]; intros y; unfold seqOf; simpl; unfold unlinked; rewrite !upd_lookup;
    repeat case_decide; by destruct (heap j !! y).
Qed.

Lemma after_fields y : is_Some (heap j !! y) ->
  nG after y = (if decide (pG j x = Some y) then nG j x else nG j y) /\
  pG after y = (if decide (nG j x = Some y) then pG j x else pG j y) /\
  nL after y = (if decide (pL j x = Some y) then nL j x else nL j y) /\
  pL after y = (if decide (nL j x = Some y) then pL j x else pL j y).
Proof.
  intros [e' He']. unfold nG, pG, nL, pL. simpl. unfold unlinked. rewrite !upd_lookup, He, He'. simpl.
  repeat case_decide; simpl; done.
Qed.

Lemma x_split : locals j (origin e) (g1 ++ x :: g2) = locals j (origin e) g1 ++ x :: locals j (origin e) g2.
Proof.
  unfold locals. rewrite filter_app, filter_cons_True; [done|]. unfold originOf. by rewrite He.
Qed.
Lemma x_other dn : dn <> origin e -> locals j dn (g1 ++ x :: g2) = locals j dn (g1 ++ g2).
Proof.
  intros Hd. unfold locals. rewrite !filter_app, filter_cons_False; [done|]. unfold originOf. rewrite He. simpl. congruence.
Qed.

Lemma local_in dn y : y ∈ locals j dn (g1 ++ g2) -> y ∈ g1 ++ g2 /\ is_Some (heap j !! y) /\ originOf j y = Some dn.
Proof.
  intros [Ho Hy]%list_elem_of_filter. split_and!; [done| |done]. apply (links_heap _ _ Hl).
  rewrite elem_of_app, elem_of_cons. apply elem_of_app in Hy. tauto.
Qed.

Lemma after_local dn : linked (nL after) (pL after) (heads after !! dn) (tails after !! dn) (locals j dn (g1 ++ g2)).
Proof.
  pose proof (links_local _ _ Hl dn) as Hd. destruct (decide (dn = origin e)) as [->|Hne].
  - rewrite x_split in Hd. rewrite locals_app.
    replace (heads after !! origin e) with (if decide (heads j !! origin e = Some x) then nL j x else heads j !! origin e).
    2:{ simpl. unfold nL. rewrite He. simpl. case_decide; [|done]. by rewrite assign_eq. }
    replace (tails after !! origin e) with (if decide (tails j !! origin e = Some x) then pL j x else tails j !! origin e).
    2:{ simpl. unfold pL. rewrite He. simpl. case_decide; [|done]. by rewrite assign_eq. }
    eapply linked_remove; [|exact Hd|].
    + rewrite <- x_split. apply NoDup_filter, Hl.
    + intros y Hy. rewrite <- locals_app in Hy. apply local_in in Hy as (_ & Hy & _).
      destruct (after_fields y Hy) as (_ & _ & ? & ?). done.
  - rewrite x_other in Hd by done.
    replace (heads after !! dn) with (heads j !! dn) by (simpl; case_decide; [by rewrite assign_ne|done]).
    replace (tails after !! dn) with (tails j !! dn) by (simpl; case_decide; [by rewrite assign_ne|done]).
    eapply linked_ext; [|exact Hd]. intros y Hy. apply local_in in Hy as (_ & Hy & Ho).
    destruct (after_fields y Hy) as (_ & _ & -> & ->).
    assert (forall z, pL j x = Some z \/ nL j x = Some z -> z <> y) as Hz.
    { intros z Hz ->. assert (y ∈ locals j (origin e) (g1 ++ x :: g2)) as Hin
        by (eapply linked_neighbours; [apply (links_local _ _ Hl)|apply x_local|done]).
      apply list_elem_of_filter in Hin as [Ho' _]. congruence. }
    split; (case_decide as Hd'; [|done]); exfalso; by apply (Hz y); auto.
Qed.

Lemma after_links : locals j (origin e) g1 = [] -> links after (g1 ++ g2).
Proof.
  intros Hfirst. pose proof after_same as Hsame. split.
  - eapply sublist_NoDup; [apply (links_nodup _ _ Hl)|]. apply sublist_app; [done|by apply sublist_cons].
  - intros y Hy. simpl. unfold unlinked. rewrite !upd_is_Some. apply (links_heap _ _ Hl).
    rewrite elem_of_app, elem_of_cons. apply elem_of_app in Hy. tauto.
  - replace (head after) with (if decide (head j = Some x) then nG j x else head j) by (unfold nG; by rewrite He).
    replace (tail after) with (if decide (tail j = Some x) then pG j x else tail j) by (unfold pG; by rewrite He).
    eapply linked_remove; [apply Hl|apply (links_global _ _ Hl)|]. intros y Hy.
    destruct (after_fields y) as (? & ? & _); [|done]. apply (links_heap _ _ Hl).
    rewrite elem_of_app, elem_of_cons. apply elem_of_app in Hy. tauto.
  - intros dn. rewrite (same_locals j) by done. apply after_local.
  - intros dn. destruct (links_seq _ _ Hl dn) as [s Hs]. destruct Hsame as (Ho & Hq & _).
    rewrite (same_locals j after) by (apply after_same). destruct (decide (dn = origin e)) as [->|Hne].
    + exists (s + 1)%Z. intros i y Hy. rewrite Hq. rewrite x_split, Hfirst in Hs. simpl in Hs.
      rewrite locals_app, Hfirst in Hy.
      rewrite (Hs (S i) y Hy). do 2 f_equal. lia.
    + exists s. intros i y Hy. rewrite Hq. apply Hs. by rewrite x_other.
Qed.

End Unlink.

(** ** Popping *)

Lemma same_entries_trans j1 j2 j3 : same_entries j1 j2 -> same_entries j2 j3 -> same_entries j1 j3.
Proof.
  intros (H1 & H2 & H3 & H4) (G1 & G2 & G3 & G4). split_and!; [..|congruence|congruence].
  - intros y. by rewrite G1.
  - intros y. by rewrite G2.
Qed.

Lemma pop_links n dn j gl : links j gl -> n <= length (locals j dn gl) ->
  exists j', pop n (hd_error (locals j dn gl)) j = Some j' /\
    links j' (dropFirst (fun x => originOf j x = Some dn) n gl) /\ same_entries j j'.
Proof.
  revert j gl. induction n as [|n IH]; intros j gl Hl Hn.
  { exists j. rewrite dropFirst_0. by split_and!. }
  destruct (locals j dn gl) as [|x rest] eqn:Hloc; [simpl in Hn; lia|]. cbn [hd_error pop].
  destruct (filter_cons_split _ _ _ _ Hloc) as (g1 & g2 & -> & H1 & H2 & Ho).
  unfold originOf in Ho. apply fmap_Some in Ho as (e & He & Ho). subst dn.
  rewrite He. cbn [mbind option_bind]. rewrite (unlink_after j g1 g2 x e Hl He). cbn [mbind option_bind].
  pose proof (after_links j g1 g2 x e Hl He H1) as Ha. pose proof (after_same j x e) as Hs.
  assert (locals (after j x e) (origin e) (g1 ++ g2) = rest) as Hrest.
  { rewrite (same_locals j), locals_app by done. unfold locals at 1. by rewrite H1. }
  assert (nextLocal e = hd_error rest) as ->.
  { pose proof (links_local _ _ Hl (origin e)) as (_ & _ & Hc). rewrite Hloc in Hc.
    destruct (Hc [] x rest eq_refl) as [_ Hn']. unfold nL in Hn'. rewrite He in Hn'. exact Hn'. }
  destruct (IH (after j x e) (g1 ++ g2) Ha) as (j' & Hp & Hl' & Hs'); [rewrite Hrest; simpl in Hn; lia|].
  rewrite Hrest in Hp. exists j'. split_and!; [done| |by eapply same_entries_trans].
  rewrite dropFirst_S; [|done|unfold originOf; by rewrite He].
  erewrite dropFirst_ext; [exact Hl'|]. intros y. cbv beta. by rewrite (same_origin j (after j x e) y Hs).
Qed.

(** ** Inserting *)

Section Insert.
Context (j : journal) (gl : list loc) (l : loc) (dn : string) (lv : option LeveledPayload) (rw : option Line).
Hypothesis (Hl : links j gl) (Hfresh : heap j !! l = None).

Definition newSeq : Z := match tails j !! dn ≫= seqOf j with Some s => uint64 (s + 1) | None => 0 end.

(** The heap and the journal after [insertEntry]. *)
Definition inserted : gmap loc entry :=
  <[l := mkEntry dn lv rw (tail j) None (tails j !! dn) None newSeq]>
    (upd (tails j !! dn) (set_nextLocal (Some l)) (upd (tail j) (set_nextGlobal (Some l)) (heap j))).

Definition grown : journal :=
  mkJournal inserted (if decide (head j = None) then Some l else head j) (Some l)
    (if decide (heads j !! dn = None) then <[dn := l]> (heads j) else heads j) (<[dn := l]> (tails j))
    (if decide (quotas j !! dn = None) then <[dn := 8192%Z]> (quotas j) else quotas j) (subscribers j).

Lemma fresh_not_in : l ∉ gl.
Proof. intros Hin. destruct (links_heap _ _ Hl l Hin). congruence. Qed.

Lemma tail_in t : tail j = Some t -> t ∈ gl.
Proof. intros Ht. destruct (links_global _ _ Hl) as (_ & Hlast & _). apply last_Some_elem_of. congruence. Qed.
Lemma tails_in dn' t : tails j !! dn' = Some t -> t ∈ gl /\ originOf j t = Some dn'.
Proof.
  intros Ht. destruct (links_local _ _ Hl dn') as (_ & Hlast & _). rewrite Ht in Hlast. symmetry in Hlast.
  apply last_Some_elem_of, list_elem_of_filter in Hlast as [? ?]. done.
Qed.

Ltac branches :=
  simpl; destruct (decide (head j = None)); simpl; destruct (decide (quotas j !! dn = None)); simpl;
  destruct (decide (heads j !! dn = None)); simpl.

Lemma insertEntry_grown : insertEntry l dn lv rw j = Some grown.
Proof.
  unfold insertEntry. rewrite update_upd.
  2:{ intros t Ht. simpl. destruct (decide (t = l)) as [->|]; [by rewrite lookup_insert_eq|].
      rewrite lookup_insert_ne by done. apply (links_heap _ _ Hl). by apply tail_in. }
  cbn [mbind option_bind]. unfold grown, inserted, newSeq.
  assert (upd (tail j) (set_nextGlobal (Some l)) (<[l:=mkEntry dn lv rw (tail j) None None None 0]> (heap j)) =
          <[l:=mkEntry dn lv rw (tail j) None None None 0]> (upd (tail j) (set_nextGlobal (Some l)) (heap j))) as Hup.
  { destruct (tail j) as [t|] eqn:Ht; [|done]. simpl. assert (t <> l) by (intros ->; by apply fresh_not_in, tail_in).
    by rewrite alter_insert_ne. }
  set (h1 := upd (tail j) (set_nextGlobal (Some l)) (heap j)) in *.
  assert (forall y, y ∈ gl -> is_Some (h1 !! y) /\ seqLocal <$> h1 !! y = seqOf j y) as Hh1.
  { intros y Hy. unfold h1. rewrite upd_is_Some, upd_lookup. split; [by apply Hl|]. unfold seqOf.
    case_decide; [|done]. by destruct (heap j !! y). }
  destruct (tails j !! dn) as [t|] eqn:Ht.
  - destruct (tails_in _ _ Ht) as [Hin _]. assert (t <> l) as Hne by (intros ->; by apply fresh_not_in).
    destruct (Hh1 t Hin) as [[te Hte] Hseq]. rewrite Hte in Hseq. simpl in Hseq.
    assert (forall j', tails j' = tails j -> heap j' = <[l:=mkEntry dn lv rw (tail j) None None None 0]> h1 ->
      match tails j' !! dn with
      | Some t => j ← update (Some t) (set_nextLocal (Some l)) j'; te ← heap j !! t;
          update (Some l) (fun e => set_prevLocal (Some t) (set_seqLocal (uint64 (seqLocal te + 1)) e)) j
      | None => Some j'
      end = Some (set_heap (<[l:=mkEntry dn lv rw (tail j) None (Some t) None (uint64 (seqLocal te + 1))]>
                              (alter (set_nextLocal (Some l)) t h1)) j')) as Hmid.
    { intros j' Hj1 Hj2. rewrite Hj1, Ht. unfold update. rewrite Hj2, lookup_insert_ne, Hte by done. simpl.
      rewrite lookup_insert_eq. simpl. rewrite lookup_insert_ne, lookup_insert_eq by done. simpl.
      unfold set_heap. simpl. do 2 f_equal. apply map_eq. intros y. destruct (decide (y = l)) as [->|].
      - by rewrite !lookup_insert_eq.
      - rewrite !(lookup_insert_ne _ l) by done. destruct (decide (y = t)) as [->|].
        + by rewrite lookup_insert_eq, lookup_alter_eq, Hte.
        + rewrite lookup_insert_ne, lookup_alter_ne, lookup_insert_ne by done. done. }
    rewrite Hmid; [|by repeat case_decide|by repeat case_decide].
    cbn [mbind option_bind]. rewrite <- Hseq. branches; done.
  - assert (forall j', tails j' = tails j -> match tails j' !! dn with
      | Some t => j ← update (Some t) (set_nextLocal (Some l)) j'; te ← heap j !! t;
          update (Some l) (fun e => set_prevLocal (Some t) (set_seqLocal (uint64 (seqLocal te + 1)) e)) j
      | None => Some j'
      end = Some j') as Hmid by (intros j' ->; by rewrite Ht).
    rewrite Hmid by by repeat case_decide. cbn [mbind option_bind]. branches; by rewrite Hup.
Qed.

Lemma grown_new : heap grown !! l = Some (mkEntry dn lv rw (tail j) None (tails j !! dn) None newSeq).
Proof. apply lookup_insert_eq. Qed.

Lemma grown_fields y : y ∈ gl ->
  nG grown y = (if decide (tail j = Some y) then Some l else nG j y) /\ pG grown y = pG j y /\
  nL grown y = (if decide (tails j !! dn = Some y) then Some l else nL j y) /\ pL grown y = pL j y /\
  external <$> heap grown !! y = external <$> heap j !! y /\ seqOf grown y = seqOf j y.
Proof.
  intros Hy. assert (y <> l) by (intros ->; by apply fresh_not_in). destruct (links_heap _ _ Hl y Hy) as [e He].
  unfold nG, pG, nL, pL, seqOf. simpl. unfold inserted. rewrite lookup_insert_ne, !upd_lookup, He by done.
  repeat case_decide; simpl; done.
Qed.

Lemma external_origin j1 j2 y : external <$> heap j1 !! y = external <$> heap j2 !! y -> originOf j1 y = originOf j2 y.
Proof. unfold originOf. destruct (heap j1 !! y), (heap j2 !! y); simpl; [by intros [= -> _ _]|done..]. Qed.

Lemma grown_locals dn' : locals grown dn' (gl ++ [l]) = locals j dn' gl ++ (if decide (dn = dn') then [l] else []).
Proof.
  rewrite locals_app. f_equal.
  - apply filter_ext_in. intros y Hy. destruct (grown_fields y Hy) as (_ & _ & _ & _ & Hx & _).
    by rewrite (external_origin _ _ _ Hx).
  - unfold locals. rewrite filter_cons, filter_nil. unfold originOf. rewrite grown_new. simpl.
    destruct (decide (dn = dn')), (decide (Some dn = Some dn')); congruence.
Qed.

Lemma grown_seq dn' : exists s, forall i x,
  (locals j dn' gl ++ (if decide (dn = dn') then [l] else [])) !! i = Some x -> seqOf grown x = Some (uint64 (s + Z.of_nat i)).
Proof.
  destruct (links_seq _ _ Hl dn') as [s Hs].
  assert (forall i x, locals j dn' gl !! i = Some x -> seqOf grown x = seqOf j x) as Hold.
  { intros i x Hx. apply list_elem_of_lookup_2, list_elem_of_filter in Hx as [_ Hx]. by destruct (grown_fields x Hx) as (_ & _ & _ & _ & _ & ?). }
  destruct (decide (dn = dn')) as [<-|].
  2:{ exists s. rewrite app_nil_r. intros i x Hx. rewrite (Hold i) by done. by apply Hs. }
  assert (seqOf grown l = Some newSeq) as Hnew by (unfold seqOf; by rewrite grown_new). unfold newSeq in Hnew.
  destruct (links_local _ _ Hl dn) as (_ & Ht & _). rewrite Ht in Hnew.
  destruct (locals j dn gl) as [|z ll _] eqn:Hll using rev_ind.
  { exists 0%Z. simpl. intros [|i] x; [|done]. intros [= <-]. rewrite Hnew. done. }
  exists s. rewrite last_snoc in Hnew. simpl in Hnew. rewrite (Hs (length ll) z) in Hnew by by rewrite lookup_app_r, Nat.sub_diag.
  simpl in Hnew. intros i x [Hx|[Hi Hx]]%lookup_app_Some.
  - rewrite (Hold i) by done. by apply Hs.
  - apply list_lookup_singleton_Some in Hx as [Hi' <-]. rewrite Hnew. rewrite length_app in *. simpl in *. unfold uint64.
    rewrite Zplus_mod_idemp_l. do 2 f_equal. lia.
Qed.

Lemma grown_links : links grown (gl ++ [l]).
Proof.
  split.
  - apply NoDup_app. split_and!; [apply Hl| |apply NoDup_singleton]. intros y Hy ->%list_elem_of_singleton. by apply fresh_not_in.
  - intros y [Hy| ->%list_elem_of_singleton]%elem_of_app; [|by rewrite grown_new].
    destruct (grown_fields y Hy) as (_ & _ & _ & _ & Hx & _). destruct (links_heap _ _ Hl y Hy) as [e He]. rewrite He in Hx.
    by destruct (heap grown !! y).
  - eapply (linked_snoc (nG j) (pG j) _ _ (head j) (tail j)); [apply Hl|apply fresh_not_in|apply (links_global _ _ Hl)|..].
    + unfold nG. by rewrite grown_new.
    + unfold pG. by rewrite grown_new.
    + intros y Hy. by destruct (grown_fields y Hy) as (? & ? & _).
  - intros dn'. rewrite grown_locals. pose proof (links_local _ _ Hl dn') as Hd. destruct (decide (dn = dn')) as [<-|Hne].
    + replace (heads grown !! dn) with (if decide (heads j !! dn = None) then Some l else heads j !! dn)
        by (simpl; case_decide; [by rewrite lookup_insert_eq|done]).
      replace (tails grown !! dn) with (Some l) by (simpl; by rewrite lookup_insert_eq).
      eapply (linked_snoc (nL j) (pL j)); [apply NoDup_filter, Hl| |exact Hd|..].
      * intros [_ Hin]%list_elem_of_filter. by apply fresh_not_in.
      * unfold nL. by rewrite grown_new.
      * unfold pL. by rewrite grown_new.
      * intros y [_ Hy]%list_elem_of_filter. by destruct (grown_fields y Hy) as (_ & _ & ? & ? & _).
    + rewrite app_nil_r. replace (heads grown !! dn') with (heads j !! dn') by (simpl; case_decide; [by rewrite lookup_insert_ne|done]).
      replace (tails grown !! dn') with (tails j !! dn') by (simpl; by rewrite lookup_insert_ne).
      eapply linked_ext; [|exact Hd]. intros y [Ho Hy]%list_elem_of_filter.
      destruct (grown_fields y Hy) as (_ & _ & -> & -> & _). rewrite decide_False; [done|].
      intros Ht. apply tails_in in Ht as [_ Ht]. congruence.
  - intros dn'. rewrite grown_locals. apply grown_seq.
Qed.

End Insert.

(** ** The quota *)

(** The default quota, as a number that is not computed in unary. *)
Lemma quota_exists : { n : nat | Z.of_nat n = 8192%Z }.
Proof. exists (Z.to_nat 8192). apply Z2Nat.id. lia. Qed.
Definition quotaMax : nat := proj1_sig quota_exists.
Lemma quotaMax_Z : Z.of_nat quotaMax = 8192%Z.
Proof. exact (proj2_sig quota_exists). Qed.

Lemma applyQuota_links dn j gl : links j gl -> locals j dn gl <> [] -> quotas j !! dn = Some 8192%Z ->
  (Z.of_nat (length (locals j dn gl)) < 2 ^ 64)%Z ->
  exists j', applyQuota dn j = Some j' /\
    links j' (dropFirst (fun x => originOf j x = Some dn) (length (locals j dn gl) - quotaMax) gl) /\ same_entries j j'.
Proof.
  intros Hl Hne Hq Hlen. pose proof quotaMax_Z. destruct (links_local _ _ Hl dn) as (Hh & Ht & _). destruct (links_seq _ _ Hl dn) as [s Hs].
  set (ll := locals j dn gl) in *. unfold applyQuota. rewrite Hq.
  assert (forall x, x ∈ ll -> is_Some (heap j !! x)) as Hin by (intros x [_ Hx]%list_elem_of_filter; by apply Hl).
  destruct ll as [|h ll0] eqn:Hll; [done|]. assert (is_Some (last (h :: ll0))) as [t Hlast] by (apply last_is_Some; done).
  rewrite Hlast in Ht. rewrite Hh, Ht. cbn [mbind option_bind hd_error].
  destruct (Hin t) as [te Hte]; [by apply last_Some_elem_of|]. destruct (Hin h) as [he Hhe]; [by left|]. rewrite Hte. cbn [mbind option_bind].
  rewrite Hhe. cbn [mbind option_bind].
  assert (seqLocal te = uint64 (s + Z.of_nat (length ll0))) as ->.
  { specialize (Hs (length ll0) t). unfold seqOf in Hs. rewrite Hte in Hs. rewrite last_lookup in Hlast. simpl in Hlast. by injection (Hs Hlast). }
  assert (seqLocal he = uint64 s) as ->.
  { specialize (Hs 0 h eq_refl). unfold seqOf in Hs. rewrite Hhe, Z.add_0_r in Hs. by injection Hs. }
  assert (uint64 (uint64 (uint64 (s + Z.of_nat (length ll0)) - uint64 s) + 1) = Z.of_nat (length (h :: ll0))) as ->.
  { unfold uint64. rewrite Zminus_mod_idemp_l, Zminus_mod_idemp_r, Zplus_mod_idemp_l. rewrite Z.mod_small; simpl in *; lia. }
  destruct (Z.ltb_spec 8192 (Z.of_nat (length (h :: ll0)))) as [Hgt|Hle].
  - assert (Z.to_nat (uint64 (Z.of_nat (length (h :: ll0)) - 8192)) = length (h :: ll0) - quotaMax) as ->
      by (unfold uint64; rewrite Z.mod_small; lia).
    destruct (pop_links (length (h :: ll0) - quotaMax) dn j gl Hl) as (j' & Hp & Hl' & Hs'); [fold ll; rewrite Hll; lia|].
    fold ll in Hp. rewrite Hll in Hp. by exists j'.
  - exists j. replace (length (h :: ll0) - quotaMax) with 0 by lia. rewrite dropFirst_0. by split_and!.
Qed.

(** ** Refinement *)

(** The entries of the journal. *)
Definition entries (j : journal) (gl : list loc) : list LogEntry := omap (fun x => external <$> heap j !! x) gl.

Definition journal_inv (j : journal) (gl : list loc) : Prop :=
  links j gl /\
  forall dn, length (locals j dn gl) <= quotaMax /\ (quotas j !! dn = None \/ quotas j !! dn = Some 8192%Z).

(** Specification: a list of entries, of which at most 8192 have the same name. *)
Definition specAppend (e : LogEntry) (l : list LogEntry) : list LogEntry :=
  let l := l ++ [e] in
  dropFirst (fun e' => DN e' = DN e) (length (filter (fun e' => DN e' = DN e) l) - quotaMax) l.

Lemma entries_cons j x gl : entries j (x :: gl) = match heap j !! x with Some e => external e :: entries j gl | None => entries j gl end.
Proof. unfold entries. simpl. by destruct (heap j !! x). Qed.

Lemma entries_ext j j' gl : (forall x, x ∈ gl -> external <$> heap j' !! x = external <$> heap j !! x) -> entries j' gl = entries j gl.
Proof.
  induction gl as [|x gl IH]; intros He; [done|]. rewrite !entries_cons, IH by (intros y Hy; apply He; by right).
  specialize (He x ltac:(by left)). destruct (heap j' !! x), (heap j !! x); simpl in He; congruence.
Qed.

Lemma entries_filter j dn gl : (forall x, x ∈ gl -> is_Some (heap j !! x)) ->
  length (filter (fun e => DN e = dn) (entries j gl)) = length (locals j dn gl) /\
  forall n, entries j (dropFirst (fun x => originOf j x = Some dn) n gl) = dropFirst (fun e => DN e = dn) n (entries j gl).
Proof.
  induction gl as [|x gl IH]; intros Hh; [done|]. destruct IH as [IH1 IH2]; [intros y Hy; apply Hh; by right|].
  destruct (Hh x) as [e He]; [by left|]. assert (originOf j x = Some dn <-> DN (external e) = dn) as Ho.
  { unfold originOf. rewrite He. simpl. split; congruence. }
  unfold locals in *. rewrite entries_cons, He, !filter_cons. split.
  - repeat case_decide; simpl; tauto || congruence.
  - intros [|n]; [by rewrite dropFirst_0, entries_cons, He|]. simpl. repeat case_decide; try tauto; [apply IH2|].
    rewrite entries_cons, He. f_equal. apply IH2.
Qed.

Lemma append_refines j gl l dn lv rw : journal_inv j gl -> heap j !! l = None ->
  exists j' gl', append l dn lv rw j = Some j' /\ journal_inv j' gl' /\
    entries j' gl' = specAppend (mkLog dn lv rw) (entries j gl) /\
    (forall y, is_Some (heap j' !! y) <-> y = l \/ is_Some (heap j !! y)) /\
    external <$> heap j' !! l = Some (mkLog dn lv rw) /\ subscribers j' = subscribers j.
Proof.
  intros [Hl Hq] Hf. pose proof quotaMax_Z. unfold append. rewrite (insertEntry_grown j gl l dn lv rw Hl Hf). cbn [mbind option_bind].
  pose proof (grown_links j gl l dn lv rw Hl Hf) as Hg. set (g := grown j l dn lv rw) in *.
  assert (forall dn', locals g dn' (gl ++ [l]) = locals j dn' gl ++ (if decide (dn = dn') then [l] else [])) as Hloc
    by (intros; by apply grown_locals).
  assert (forall dn', quotas g !! dn' = None \/ quotas g !! dn' = Some 8192%Z) as Hgq.
  { intros dn'. simpl. case_decide; [|apply Hq]. destruct (decide (dn = dn')) as [<-|]; [rewrite lookup_insert_eq; auto|].
    rewrite lookup_insert_ne by done. apply Hq. }
  assert (quotas g !! dn = Some 8192%Z) as Hgdn.
  { simpl. case_decide; [by rewrite lookup_insert_eq|]. destruct (Hq dn) as [_ [?|?]]; done. }
  destruct (applyQuota_links dn g (gl ++ [l]) Hg) as (j' & Ha & Hl' & Hs).
  - rewrite Hloc, decide_True by done. by destruct (locals j dn gl).
  - done.
  - rewrite Hloc, decide_True, length_app by done. destruct (Hq dn) as [? _]. simpl. lia.
  - eexists j', _. split; [exact Ha|]. pose proof (entries_filter g dn (gl ++ [l]) (links_heap _ _ Hg)) as [He1 He2].
    assert (entries g (gl ++ [l]) = entries j gl ++ [mkLog dn lv rw]) as Hent.
    { unfold entries at 1. rewrite omap_app. f_equal.
      - apply entries_ext. intros x Hx. by destruct (grown_fields j gl l dn lv rw Hl Hf x Hx) as (_ & _ & _ & _ & ? & _).
      - fold (entries g [l]). rewrite entries_cons. unfold g. by rewrite grown_new. }
    split_and!.
    + split; [done|]. intros dn'. rewrite (proj1 (proj2 (proj2 Hs))). split; [|apply Hgq].
      rewrite (same_locals g j') by done. destruct (decide (dn = dn')) as [<-|Hne].
      * unfold locals at 1. rewrite dropFirst_filter, length_drop. fold (locals g dn (gl ++ [l])). lia.
      * transitivity (length (locals g dn' (gl ++ [l]))).
        -- apply dropFirst_filter_le.
        -- rewrite Hloc, decide_False, app_nil_r by done. apply Hq.
    + rewrite (entries_ext g) by (intros; apply Hs). rewrite He2, <- He1. by rewrite Hent.
    + intros y. destruct Hs as (Hs1 & _). specialize (Hs1 y).
      transitivity (is_Some (heap g !! y)); [destruct (heap g !! y), (heap j' !! y); simpl in *; naive_solver|].
      simpl. unfold inserted. destruct (decide (y = l)) as [->|]; [rewrite lookup_insert_eq; naive_solver|].
      rewrite lookup_insert_ne, !upd_is_Some by done. naive_solver.
    + rewrite (proj1 Hs l). unfold g. by rewrite grown_new.
    + by destruct Hs as (_ & _ & _ & ->).
Qed.

(** ** Scanning *)

(** At most [count] elements from the front, or all. *)
Definition takeCount {A} (count : Z) (l : list A) : list A :=
  if decide (count = BacklogAllAvailable) then l else take (Z.to_nat count) l.

Section Scan.
Context (link : entry -> option loc) (h : gmap loc entry) (count : Z) (fs : list filter_).
Hypothesis (Hcount : count = BacklogAllAvailable \/ (0 < count)%Z).

Definition matches (x : loc) : Prop := exists e, h !! x = Some e /\ passes fs e = true.
#[export] Instance matches_dec x : Decision (matches x).
Proof.
  refine (match h !! x as o return h !! x = o -> Decision (matches x) with
          | Some e => fun H => cast_if (decide (passes fs e = true))
          | None => fun H => right _ end eq_refl).
  - by exists e.
  - intros (e' & He & Hp). congruence.
  - intros (e' & He & _). congruence.
Defined.

(** The links lead backwards through [l]. *)
Definition backwards (l : list loc) : Prop :=
  forall l1 x l2, l = l1 ++ x :: l2 -> exists e, h !! x = Some e /\ link e = last l1.

Lemma scanLoop_correct fuel l res : backwards l -> length l <= fuel ->
  count = BacklogAllAvailable \/ (len res < count)%Z ->
  scanLoop link h count fs fuel (last l) res = Some (takeCount count (res ++ rev (filter matches l))).
Proof.
  revert fuel res. induction l as [|x l IH] using rev_ind; intros fuel res Hb Hf Hres.
  { replace (scanLoop link h count fs fuel (last []) res) with (Some res) by by destruct fuel. simpl. rewrite app_nil_r.
    f_equal. unfold takeCount. case_decide; [done|]. rewrite take_ge; [done|]. unfold len in *. lia. }
  rewrite last_snoc. rewrite length_app in Hf. simpl in Hf. destruct fuel as [|fuel]; [lia|]. cbn [scanLoop].
  destruct (Hb l x [] eq_refl) as (e & He & Hlink). rewrite He. cbn [mbind option_bind].
  assert (res ++ rev (filter matches (l ++ [x])) =
    (if passes fs e then res ++ [x] else res) ++ rev (filter matches l)) as ->.
  { rewrite filter_app, filter_cons, filter_nil. destruct (passes fs e) eqn:Hp.
    - rewrite decide_True by by exists e. rewrite rev_app_distr. simpl. by rewrite <- app_assoc.
    - rewrite decide_False by (intros (e' & ? & ?); congruence). by rewrite app_nil_r. }
  set (res' := if passes fs e then res ++ [x] else res). rewrite Hlink.
  assert (len res' <= len res + 1)%Z as Hres' by (unfold len, res'; case_match; rewrite ?length_app; simpl; lia).
  destruct (negb _ && _) eqn:Hstop.
  - apply andb_true_iff in Hstop as [Hc1 Hc2]. apply negb_true_iff, Z.eqb_neq in Hc1. apply Z.leb_le in Hc2.
    f_equal. unfold takeCount. rewrite decide_False by done. rewrite take_app_le by (unfold len in *; lia).
    rewrite take_ge; [done|]. unfold len in *. destruct Hres; [done|lia].
  - apply IH; [|lia|].
    + intros l1 y l2 ->. apply (Hb l1 y (l2 ++ [x])). by rewrite <- app_assoc.
    + destruct (decide (count = BacklogAllAvailable)) as [->|Hne]; [by left|right].
      rewrite (proj2 (Z.eqb_neq _ _)) in Hstop by done. simpl in Hstop. apply Z.leb_gt in Hstop. lia.
Qed.

End Scan.

Lemma linked_backwards {link : entry -> option loc} h nx pv hd tl l :
  linked nx pv hd tl l -> (forall x, x ∈ l -> is_Some (h !! x)) -> (forall x, pv x = h !! x ≫= link) -> backwards link h l.
Proof.
  intros (_ & _ & Hl) Hh Hpv l1 x l2 ->. destruct (Hh x) as [e He]; [rewrite elem_of_app, elem_of_cons; auto|].
  exists e. split; [done|]. destruct (Hl l1 x l2 eq_refl) as [Hp _]. rewrite Hpv, He in Hp. done.
Qed.

Lemma links_size j gl l : links j gl -> l ⊆ gl -> NoDup l -> length l <= size (heap j).
Proof.
  intros Hl Hsub Hnd. rewrite <- (size_list_to_set (C := gset loc) l Hnd), <- size_dom. apply subseteq_size.
  intros x Hx%elem_of_list_to_set. apply elem_of_dom, (links_heap _ _ Hl), Hsub, Hx.
Qed.

(** The newest entries. *)
Definition lastCount {A} (count : Z) (l : list A) : list A :=
  if decide (count = BacklogAllAvailable) then l else lastn (Z.to_nat count) l.

Lemma rev_takeCount {A} count (l : list A) : rev (takeCount count (rev l)) = lastCount count l.
Proof.
  unfold takeCount, lastCount, lastn. case_decide; [apply rev_involutive|].
  rewrite firstn_rev, rev_involutive. done.
Qed.

Lemma scanEntries_correct j gl count fs : links j gl -> count = BacklogAllAvailable \/ (0 < count)%Z ->
  scanEntries j count fs = Some (lastCount count (filter (matches (heap j) fs) gl)).
Proof.
  intros Hl Hc. unfold scanEntries. rewrite (proj1 (proj2 (links_global _ _ Hl))).
  rewrite scanLoop_correct; [|done|..].
  - cbn [fmap option_fmap option_map]. rewrite SliceStable_reverse. by rewrite <- rev_takeCount.
  - eapply linked_backwards; [apply (links_global _ _ Hl)|apply Hl|done].
  - eapply links_size; [done|done|apply Hl].
  - destruct Hc; [by left|right]. unfold len. simpl. lia.
Qed.

Lemma getEntries_correct j gl dn count fs : links j gl -> count = BacklogAllAvailable \/ (0 < count)%Z ->
  getEntries j count dn fs = Some (lastCount count (filter (matches (heap j) fs) (locals j dn gl))).
Proof.
  intros Hl Hc. unfold getEntries. rewrite (proj1 (proj2 (links_local _ _ Hl dn))).
  rewrite scanLoop_correct; [|done|..].
  - cbn [fmap option_fmap option_map]. rewrite SliceStable_reverse. by rewrite <- rev_takeCount.
  - eapply linked_backwards; [apply (links_local _ _ Hl)| |done]. intros x [_ Hx]%list_elem_of_filter. by apply Hl.
  - eapply links_size; [done| |apply NoDup_filter, Hl]. intros x [_ Hx]%list_elem_of_filter. done.
  - destruct Hc; [by left|right]. unfold len. simpl. lia.
Qed.

(** ** Reading *)

Definition rank (s : Severity) : nat := match s with INFO => 0 | WARNING => 1 | ERROR => 2 | FATAL => 3 end.

(** [d] is [root] or below. *)
Definition below (root d : string) : bool :=
  bool_decide (root = EmptyString) || bool_decide (Split root "." `prefix_of` Split d ".").

(** The entries that a read is about. *)
Definition eligible (dn : string) (o : LogReadOption) (e : LogEntry) : bool :=
  (negb (onlyLeveled o) || bool_decide (is_Some (Leveled e))) &&
  (negb (onlyRaw o) || bool_decide (is_Some (Raw e))) &&
  (if withChildren o then below dn (DN e) else bool_decide (DN e = dn)) &&
  match leveledWithMinimumSeverity o with
  | Some s => match Leveled e with Some p => rank s <=? rank (severity p) | None => false end
  | None => true
  end.

(** Specification of [Read] for the list of entries. *)
Definition specRead (l : list LogEntry) (dn : string) (opts : list LogReadOption) : result string (list LogEntry) :=
  let o := options opts in
  if onlyLeveled o && onlyRaw o then Err "cannot return logs that are simultaneously OnlyRaw and OnlyLeveled"%string
  else if (0 <? withBacklog o)%Z || (withBacklog o =? BacklogAllAvailable)%Z
  then Ok (lastCount (withBacklog o) (filter (fun e => eligible dn o e = true) l))
  else Ok [].

Lemma prefixParts_prefix r p : prefixParts r p = bool_decide (r `prefix_of` p).
Proof.
  revert p. induction r as [|x r IH]; intros p; cbn [prefixParts].
  - symmetry. apply bool_decide_eq_true_2, prefix_nil.
  - destruct p as [|y p]; [symmetry; apply bool_decide_eq_false_2, prefix_nil_not|]. rewrite IH.
    apply eq_true_iff_eq. rewrite andb_true_iff, !bool_decide_eq_true. split.
    + intros [-> H]. by apply prefix_cons.
    + intros H. split; [by apply prefix_cons_inv_1 in H|by apply prefix_cons_inv_2 in H].
Qed.

Lemma AtLeast_rank s other : AtLeast s other = (rank other <=? rank s).
Proof. by destruct s, other. Qed.

Lemma passes_eligible dn o e : passes (readFilters dn o) e = eligible dn o (external e).
Proof.
  unfold passes, readFilters, eligible. rewrite !forallb_app. cbn [forallb].
  assert ((if withChildren o then filterSubtree dn else filterExact dn) e =
    (if withChildren o then below dn (origin e) else bool_decide (origin e = dn))) as ->.
  { destruct (withChildren o); [|done]. unfold filterSubtree, below. case_decide as Hd.
    - by rewrite bool_decide_eq_true_2.
    - rewrite (bool_decide_eq_false_2 _ Hd), prefixParts_prefix. done. }
  assert (forall s, filterSeverity s e = match leveled e with Some p => rank s <=? rank (severity p) | None => false end) as Hsev.
  { intros s. unfold filterSeverity. destruct (leveled e); [apply AtLeast_rank|done]. }
  destruct (onlyLeveled o), (onlyRaw o), (leveledWithMinimumSeverity o) as [s|]; cbn; rewrite ?Hsev, ?andb_true_r, ?andb_assoc; done.
Qed.

(** The entries at locations found. *)
Lemma mapM_entries j l : (forall x, x ∈ l -> is_Some (heap j !! x)) ->
  exists es, mapM (fun x => heap j !! x) l = Some es /\ external <$> es = entries j l.
Proof.
  induction l as [|x l IH]; intros Hh; [by exists []|]. destruct (Hh x) as [e He]; [by left|].
  destruct IH as (es & Hes & Heq); [intros y Hy; apply Hh; by right|]. exists (e :: es). rewrite entries_cons, fmap_cons, Heq, He. simpl. by rewrite He, Hes.
Qed.

Lemma entries_matches j l dn o : (forall x, x ∈ l -> is_Some (heap j !! x)) ->
  entries j (filter (matches (heap j) (readFilters dn o)) l) = filter (fun e => eligible dn o e = true) (entries j l).
Proof.
  induction l as [|x l IH]; intros Hh; [done|]. destruct (Hh x) as [e He]; [by left|].
  rewrite filter_cons, entries_cons, He, filter_cons, <- IH by (intros y Hy; apply Hh; by right).
  assert (matches (heap j) (readFilters dn o) x <-> eligible dn o (external e) = true) as Hm.
  { rewrite <- passes_eligible. split; [intros (e' & ? & ?); congruence|by exists e]. }
  repeat case_decide; try tauto. by rewrite entries_cons, He.
Qed.

Lemma entries_lastCount j c l : (forall x, x ∈ l -> is_Some (heap j !! x)) -> entries j (lastCount c l) = lastCount c (entries j l).
Proof.
  intros Hh. unfold lastCount. case_decide; [done|]. unfold lastn.
  assert (forall l n, (forall x, x ∈ l -> is_Some (heap j !! x)) -> length (entries j l) = length l /\ entries j (drop n l) = drop n (entries j l)) as Hd.
  { clear. induction l as [|x l IH]; intros n Hh; [split; [done|by destruct n]|]. destruct (Hh x) as [e He]; [by left|].
    rewrite entries_cons, He. destruct (IH (pred n)) as [H1 H2]; [intros y Hy; apply Hh; by right|]. simpl. split; [by rewrite H1|].
    destruct n; [by rewrite !drop_0, entries_cons, He|done]. }
  destruct (Hd l (length l - Z.to_nat c) Hh) as [Hlen ->]. by rewrite Hlen.
Qed.

Lemma lastCount_in {A} c (l : list A) x : x ∈ lastCount c l -> x ∈ l.
Proof. unfold lastCount, lastn. case_decide; [done|]. apply subseteq_drop. Qed.

(** A read of one name looks at the entries of the name only. *)
Lemma locals_matches j gl dn o : links j gl -> withChildren o = false ->
  filter (matches (heap j) (readFilters dn o)) (locals j dn gl) = filter (matches (heap j) (readFilters dn o)) gl.
Proof.
  intros Hl Ho. unfold locals. rewrite list_filter_filter. apply filter_ext_in. intros x Hx. split; [tauto|].
  intros (e & He & Hp). split; [by exists e|]. rewrite passes_eligible in Hp. unfold eligible in Hp. rewrite Ho in Hp.
  rewrite !andb_true_iff, bool_decide_eq_true in Hp. unfold originOf. rewrite He. simpl. f_equal. apply Hp.
Qed.

Lemma Read_correct j gl dn opts : links j gl ->
  exists j', Read j dn opts = Some (specRead (entries j gl) dn opts, j') /\
    (withStream (options opts) = true -> onlyLeveled (options opts) && onlyRaw (options opts) = false ->
     exists sub, j' = subscribe sub j /\ dataC sub = [] /\ cap sub = 128 /\ done_ sub = false).
Proof.
  intros Hl. unfold Read, specRead. set (o := options opts). destruct (onlyLeveled o && onlyRaw o); [by eexists|].
  set (fs := readFilters dn o).
  assert (exists ls, (if (0 <? withBacklog o)%Z || (withBacklog o =? BacklogAllAvailable)%Z
      then if withChildren o then scanEntries j (withBacklog o) fs else getEntries j (withBacklog o) dn fs
      else Some []) = Some ls /\ (forall x, x ∈ ls -> x ∈ gl) /\
      entries j ls = (if (0 <? withBacklog o)%Z || (withBacklog o =? BacklogAllAvailable)%Z
        then lastCount (withBacklog o) (filter (fun e => eligible dn o e = true) (entries j gl)) else [])) as (ls & -> & Hin & Hent).
  { destruct (_ || _) eqn:Hb; [|exists []; split_and!; [done|intros ? ?%elem_of_nil; done|done]].
    assert (withBacklog o = BacklogAllAvailable \/ (0 < withBacklog o)%Z) as Hc.
    { apply orb_true_iff in Hb as [Hb|Hb]; [right; by apply Z.ltb_lt|left; by apply Z.eqb_eq]. }
    exists (lastCount (withBacklog o) (filter (matches (heap j) fs) gl)). split_and!.
    - destruct (withChildren o) eqn:Hw; [by apply scanEntries_correct|].
      rewrite (getEntries_correct j gl) by done. unfold fs. by rewrite locals_matches.
    - intros x [_ Hx]%lastCount_in%list_elem_of_filter. done.
    - rewrite entries_lastCount; [|intros x [_ Hx]%list_elem_of_filter; by apply Hl]. unfold fs.
      rewrite entries_matches by apply Hl. done. }
  cbn [mbind option_bind]. destruct (mapM_entries j ls) as (es & -> & Hes); [intros x Hx; by apply Hl, Hin|].
  cbn [mbind option_bind]. rewrite Hes, Hent. eexists. split.
  - destruct (_ || _); done.
  - intros -> _. eexists. split; [done|]. done.
Qed.

(** ** Logging *)

(** Entries logged one after the other, from an empty heap. *)
Fixpoint logAll (l : loc) (es : list LogEntry) (j : journal) : option journal :=
  match es with
  | [] => Some j
  | e :: es => j ← log l (DN e) (Leveled e) (Raw e) j; logAll (Pos.succ l) es j
  end.

Lemma links_subscribers j gl s : links j gl -> links (set_subscribers s j) gl.
Proof. intros [H1 H2 H3 H4 H5]. by split. Qed.

Lemma log_refines j gl l e : journal_inv j gl -> heap j !! l = None ->
  exists j' gl', log l (DN e) (Leveled e) (Raw e) j = Some j' /\ journal_inv j' gl' /\
    entries j' gl' = specAppend e (entries j gl) /\
    (forall y, is_Some (heap j' !! y) <-> y = l \/ is_Some (heap j !! y)).
Proof.
  intros Hj Hf. destruct (append_refines j gl l (DN e) (Leveled e) (Raw e) Hj Hf) as (j1 & gl1 & Ha & [Hl Hq] & He & Hd & _).
  unfold log, notify. rewrite Ha. cbn [mbind option_bind]. destruct (proj2 (Hd l)) as [e1 He1]; [by left|]. rewrite He1.
  cbn [mbind option_bind]. eexists _, gl1. split; [done|]. split_and!; [split; [by apply links_subscribers|done]| |done].
  destruct e. exact He.
Qed.

Lemma logAll_refines es l j gl : journal_inv j gl -> (forall y, (l <= y)%positive -> heap j !! y = None) ->
  exists j' gl', logAll l es j = Some j' /\ journal_inv j' gl' /\
    entries j' gl' = foldl (fun acc e => specAppend e acc) (entries j gl) es.
Proof.
  revert l j gl. induction es as [|e es IH]; intros l j gl Hj Hf; [by exists j, gl|]. cbn [logAll foldl].
  destruct (log_refines j gl l e Hj (Hf l ltac:(lia))) as (j1 & gl1 & -> & Hj1 & He1 & Hd). cbn [mbind option_bind].
  rewrite <- He1. apply IH; [done|]. intros y Hy. apply eq_None_not_Some. rewrite Hd. intros [->|Hs]; [lia|].
  rewrite Hf in Hs by lia. by destruct Hs.
Qed.

Lemma newJournal_inv : journal_inv newJournal [].
Proof.
  split; [|intros; split; [simpl; lia|by left]]. split; [constructor|intros x Hx; by apply elem_of_nil in Hx|..].
  - split_and!; [done|done|]. intros l1 x l2 Heq. by destruct l1.
  - intros dn. split_and!; [done|done|]. intros l1 x l2 Heq. by destruct l1.
  - intros dn. by exists 0%Z.
Qed.

(** C11: The journal implements a list: after any sequence of log entries, a read
    returns the newest entries of the list that are asked for and that match, where
    the list has every entry but the oldest beyond 8192 of the same name.  No nil
    pointer is followed and the links never go astray. *)
Theorem journal_refines es :
  exists j, logAll 1 es newJournal = Some j /\
    forall dn opts, exists j', Read j dn opts = Some (specRead (foldl (fun acc e => specAppend e acc) [] es) dn opts, j').
Proof.
  destruct (logAll_refines es 1 newJournal [] newJournal_inv) as (j & gl & Hlog & [Hl _] & He); [done|].
  exists j. split; [done|]. intros dn opts. destruct (Read_correct j gl dn opts Hl) as (j' & HR & _).
  exists j'. change (entries newJournal []) with (@nil LogEntry) in He. by rewrite HR, He.
Qed.

(** The filters of a stream are ignored: whatever a reader asked for, the next
    entry that is logged, at any name and of any kind, is sent to its stream. *)
Theorem stream_unfiltered j gl dn opts backlog j1 l e j2 :
  journal_inv j gl -> heap j !! l = None ->
  withStream (options opts) = true -> Read j dn opts = Some (Ok backlog, j1) ->
  log l (DN e) (Leveled e) (Raw e) j1 = Some j2 ->
  exists sub, last (subscribers j2) = Some sub /\ dataC sub = [e].
Proof.
  intros Hj Hf Hs HR Hlog. destruct (Read_correct j gl dn opts (proj1 Hj)) as (j1' & HR' & Hsub).
  rewrite HR in HR'. injection HR' as Hok <-. destruct Hsub as (sub & -> & Hdata & Hcap & Hdone); [done| |].
  { unfold specRead in Hok. by destruct (onlyLeveled _ && onlyRaw _). }
  destruct (append_refines (subscribe sub j) gl l (DN e) (Leveled e) (Raw e)) as (j' & gl' & Ha & _ & _ & _ & He & Hsubs);
    [split; [apply links_subscribers, Hj|apply Hj]|done|].
  unfold log, notify in Hlog. rewrite Ha in Hlog. cbn [mbind option_bind] in Hlog.
  apply fmap_Some in He as (e1 & He1 & Hext). rewrite He1 in Hlog. cbn [mbind option_bind] in Hlog. injection Hlog as <-.
  cbn [subscribers set_subscribers]. rewrite Hsubs. cbn [subscribe subscribers set_subscribers]. rewrite fmap_app, List.filter_app, fmap_app.
  unfold notifyOne at 2. cbn [fmap list_fmap]. rewrite Hdone, Hcap, Hdata. destruct (filterLoop (filters sub) e1). cbn.
  rewrite last_snoc. eexists. split; [done|]. cbn. rewrite <- Hext. by destruct e.
Qed.

Lemma stream_unfiltered_witness :
  exists sub, last (subscribers (default newJournal (log 1 "b" None (Some (mkLine [] 0))
      (subscribe (mkSub (readFilters "a" (mkOpt false true 0 true false None)) [] 128 false false 0) newJournal)))) = Some sub /\
    dataC sub = [mkLog "b" None (Some (mkLine [] 0))].
Proof.
  apply (stream_unfiltered newJournal [] "a" [mkOpt false true 0 true false None] []
    (subscribe (mkSub (readFilters "a" (mkOpt false true 0 true false None)) [] 128 false false 0) newJournal)
    1 (mkLog "b" None (Some (mkLine [] 0)))).
  - exact newJournal_inv.
  - reflexivity.
  - reflexivity.
  - reflexivity.
  - reflexivity.
Defined.

End JournalProps.
