(* ===== verification/DhcpLease.v ===== *)
(** * DHCPv4 leases

    Models [metropolis/node/core/network/dhcp4c/lease.go]: what a lease says about
    the address, the routes and the DNS servers of an interface.  Addresses are
    IPv4 addresses as numbers; a nil [net.IP] or [net.IPMask] is [None].  Parsing
    of options is done by the dhcpv4 library, a parameter. *)

From S2P Require Import Prelude.

Module DhcpLease.

(** ** [net.IP] and [net.IPMask] *)

Abbreviation ip := N.

Definition octet (a : ip) (i : N) : N := N.land (N.shiftr a (24 - 8 * i)) 255.

Definition IsUnspecified (a : ip) : bool := N.eqb a 0.
Definition IsLoopback (a : ip) : bool := N.eqb (octet a 0) 127.
Definition IsMulticast (a : ip) : bool := N.eqb (N.land (octet a 0) 240) 224.
Definition IsLinkLocalUnicast (a : ip) : bool := N.eqb (octet a 0) 169 && N.eqb (octet a 1) 254.
Definition IsGlobalUnicast (a : ip) : bool :=
  negb (N.eqb a (2 ^ 32 - 1)) && negb (IsUnspecified a) && negb (IsLoopback a) &&
  negb (IsMulticast a) && negb (IsLinkLocalUnicast a).

(** The test [a.IsGlobalUnicast() || a.IsLinkLocalUnicast()]. *)
Definition unicast (a : ip) : bool := IsGlobalUnicast a || IsLinkLocalUnicast a.

Definition CIDRMask (ones : N) : N := N.shiftl (N.ones ones) (32 - ones).
Definition DefaultMask (a : ip) : N :=
  if N.ltb (octet a 0) 128 then CIDRMask 8
  else if N.ltb (octet a 0) 192 then CIDRMask 16
  else CIDRMask 24.

(** [IPMask.Size]: the number of leading ones and of bits; zeroes for a mask that
    is not ones followed by zeroes. *)
Definition mask_ones (m : N) : option N := List.find (fun k => N.eqb m (CIDRMask k)) (N.of_nat <$> seq 0 33).
Definition Size (m : option N) : N * N :=
  match m with
  | None => (0, 0)%N
  | Some m => match mask_ones m with Some k => (k, 32%N) | None => (0, 0)%N end
  end.

Record IPNet := mkNet { net_IP : option ip; net_Mask : option N }.
#[export] Instance IPNet_eq_dec : EqDecision IPNet.
Proof. solve_decision. Defined.

Definition Contains (n : IPNet) (a : ip) : bool :=
  match net_IP n, net_Mask n with
  | Some b, Some m => N.eqb (N.land b m) (N.land a m)
  | _, _ => false
  end.

(** [dhcpv4.Route]. *)
Record Route := mkRoute { Dest : IPNet; Router : option ip }.
#[export] Instance Route_eq_dec : EqDecision Route.
Proof. solve_decision. Defined.

(** ** [sanitizeRoutes] *)

(** The router of a route can be reached over the assigned network or one of the
    routes before. *)
Definition reachable (saneRoutes : list Route) (assignedNet : IPNet) (router : ip) : bool :=
  existsb (fun r => Contains (Dest r) router) saneRoutes || Contains assignedNet router.

Definition routerOk (saneRoutes : list Route) (assignedNet : IPNet) (route : Route) : bool :=
  match Router route with
  | Some router =>
      if IsUnspecified router then true
      else unicast router && reachable saneRoutes assignedNet router
  | None => true
  end.

Definition sameDest (r route : Route) : bool :=
  bool_decide (net_IP (Dest r) = net_IP (Dest route)) &&
  N.eqb (Size (net_Mask (Dest route))).1 (Size (net_Mask (Dest r))).1.

(** The checks of the loop body. *)
Definition sane (saneRoutes : list Route) (assignedNet : IPNet) (route : Route) : bool :=
  let '(ones, bits) := Size (net_Mask (Dest route)) in
  routerOk saneRoutes assignedNet route &&
  negb (N.eqb bits 0 && bool_decide (net_Mask (Dest route) <> None)) &&
  negb (from_option IsLoopback false (net_IP (Dest route)) && N.leb 8 ones) &&
  negb (bool_decide (net_IP assignedNet = net_IP (Dest route)) && N.eqb (Size (net_Mask assignedNet)).1 ones) &&
  negb (existsb (fun r => sameDest r route) saneRoutes).

Fixpoint sanitizeFrom (saneRoutes : list Route) (assignedNet : IPNet) (routes : list Route) : list Route :=
  match routes with
  | [] => saneRoutes
  | route :: routes =>
      if sane saneRoutes assignedNet route
      then sanitizeFrom (saneRoutes ++ [route]) assignedNet routes
      else sanitizeFrom saneRoutes assignedNet routes
  end.
Definition sanitizeRoutes (routes : list Route) (assignedNet : IPNet) : list Route :=
  sanitizeFrom [] assignedNet routes.

(** ** Options *)

(** The library's view of options: the raw options of a message by code. *)
Abbreviation Options := (gmap N string).

Definition OptionSubnetMask : N := 1.
Definition OptionRouter : N := 3.
Definition OptionDomainNameServer : N := 6.
Definition OptionStaticRoutingTable : N := 33.
Definition OptionClasslessStaticRoute : N := 121.

(** [dhcpv4.GetIP], [dhcpv4.GetIPs] and [Routes.FromBytes] (the routes up to the
    first one that does not parse). *)
Class OptionLib := {
  GetIP : N -> Options -> option ip;
  GetIPs : N -> Options -> list ip;
  RoutesFromBytes : string -> list Route
}.

Section Lease.
Context {L : OptionLib}.

Record Lease := mkLease {
  AssignedIP : option ip;
  ExpiresAt : Z;
  LeaseOptions : Options
}.

(** A nil lease is [None]. *)
Definition SubnetMask (l : option Lease) : option N :=
  l ≫= fun l =>
  let mask := GetIP OptionSubnetMask (LeaseOptions l) in
  if bool_decide ((Size mask).2 = 32%N) then mask else DefaultMask <$> AssignedIP l.

Definition IPNet_of (l : option Lease) : option IPNet :=
  l' ← l; Some (mkNet (AssignedIP l') (SubnetMask l)).

(** The classful routes of the Static Routes option, from pairs of addresses; an
    odd last one is ignored. *)
Fixpoint legacyRoutes (ips : list ip) : list Route :=
  match ips with
  | dest :: via :: ips =>
      if IsUnspecified dest then legacyRoutes ips
      else mkRoute (mkNet (Some (N.land dest (DefaultMask dest))) (Some (DefaultMask dest))) (Some via) :: legacyRoutes ips
  | _ => []
  end.

(** The default route: over the first usable router. *)
Definition defaultRoute (routers : list ip) : list Route :=
  match List.find (fun r => unicast r) routers with
  | Some r => [mkRoute (mkNet (Some 0%N) (Some 0%N)) (Some r)]
  | None => []
  end.

Definition assignedNet (l : Lease) : IPNet :=
  let mask := SubnetMask (Some l) in
  mkNet (match AssignedIP l, mask with Some a, Some m => Some (N.land a m) | _, _ => None end) mask.

Definition Routes (l : option Lease) : list Route :=
  match l with
  | None => []
  | Some l =>
      match LeaseOptions l !! OptionClasslessStaticRoute with
      | Some raw => sanitizeRoutes (RoutesFromBytes raw) (assignedNet l)
      | None =>
          sanitizeRoutes (legacyRoutes (GetIPs OptionStaticRoutingTable (LeaseOptions l)) ++
                          defaultRoute (GetIPs OptionRouter (LeaseOptions l))) (assignedNet l)
      end
  end.

(** [DNSServers]: the usable servers, each once. *)
Fixpoint dnsLoop (seen : gset ip) (servers : list ip) : list ip :=
  match servers with
  | [] => []
  | s :: servers =>
      if unicast s then
        if bool_decide (s ∈ seen) then dnsLoop seen servers
        else s :: dnsLoop ({[s]} ∪ seen) servers
      else dnsLoop seen servers
  end.
Definition DNSServers (l : option Lease) : list ip :=
  match l with
  | None => []
  | Some l => dnsLoop ∅ (GetIPs OptionDomainNameServer (LeaseOptions l))
  end.

(** [DNSServers.Equal]. *)
Fixpoint dnsEqual (a b : list ip) : bool :=
  match a, b with
  | [], [] => true
  | x :: a, y :: b => bool_decide (x = y) && dnsEqual a b
  | _, _ => false
  end.

End Lease.

(** ** Sane routes *)

Definition sane_list (net : IPNet) (l : list Route) : Prop :=
  forall i r, l !! i = Some r -> sane (take i l) net r = true.

Lemma sane_list_snoc net l r : sane_list net l -> sane l net r = true -> sane_list net (l ++ [r]).
Proof.
  intros Hl Hr i r' Hi. apply lookup_app_Some in Hi as [Hi|[Hle Hi]].
  - pose proof (lookup_lt_Some _ _ _ Hi). rewrite take_app_le by lia. by apply Hl.
  - apply list_lookup_singleton_Some in Hi as [Hz <-]. assert (i = length l) as -> by lia.
    by rewrite take_app_length.
Qed.

Lemma sanitizeFrom_spec net routes acc :
  sane_list net acc ->
  exists kept, sanitizeFrom acc net routes = acc ++ kept /\ kept `sublist_of` routes /\
    sane_list net (acc ++ kept).
Proof.
  revert acc. induction routes as [|r routes IH]; intros acc Hacc; simpl.
  { exists []. rewrite app_nil_r. split_and!; [done|constructor|done]. }
  destruct (sane acc net r) eqn:Hr.
  - destruct (IH (acc ++ [r])) as (kept & -> & Hsub & Hs); [by apply sane_list_snoc|].
    exists (r :: kept). rewrite <- app_assoc in *. split_and!; [done|by apply sublist_skip|done].
  - destruct (IH acc Hacc) as (kept & -> & Hsub & Hs). exists kept. split_and!; [done|by apply sublist_cons|done].
Qed.

Lemma sanitizeFrom_sane net l acc :
  sane_list net (acc ++ l) -> sanitizeFrom acc net l = acc ++ l.
Proof.
  revert acc. induction l as [|r l IH]; intros acc Hs; simpl; [by rewrite app_nil_r|].
  assert (sane acc net r = true) as ->.
  { specialize (Hs (length acc) r). rewrite take_app_length in Hs. apply Hs.
    by rewrite lookup_app_r, Nat.sub_diag by lia. }
  rewrite IH; by rewrite <- app_assoc.
Qed.

(** The criteria for a route that is kept after others ([before]). *)
Record good_route (net : IPNet) (before : list Route) (r : Route) : Prop := {
  good_router : forall a, Router r = Some a -> a <> 0%N ->
    unicast a = true /\
    (Contains net a = true \/ exists r', r' ∈ before /\ Contains (Dest r') a = true);
  good_mask : forall m, net_Mask (Dest r) = Some m -> exists k, m = CIDRMask k /\ (k <= 32)%N;
  good_loopback : forall a, net_IP (Dest r) = Some a -> IsLoopback a = true -> ((Size (net_Mask (Dest r))).1 < 8)%N;
  good_interface : net_IP (Dest r) = net_IP net -> (Size (net_Mask (Dest r))).1 <> (Size (net_Mask net)).1;
  good_unique : forall r', r' ∈ before -> net_IP (Dest r') = net_IP (Dest r) ->
    (Size (net_Mask (Dest r'))).1 <> (Size (net_Mask (Dest r))).1
}.

Lemma mask_ones_Some m k : mask_ones m = Some k -> m = CIDRMask k /\ (k <= 32)%N.
Proof.
  intros H. apply find_some in H as [Hin Heq%N.eqb_eq]. split; [done|].
  apply list_elem_of_In, list_elem_of_fmap in Hin as (i & -> & Hi%elem_of_seq). lia.
Qed.

Lemma sane_good net before r : sane before net r = true -> good_route net before r.
Proof.
  unfold sane. destruct (Size (net_Mask (Dest r))) as [ones bits] eqn:Hsz.
  rewrite !andb_true_iff, !negb_true_iff. intros ((((Hrt & Hm) & Hlo) & Hif) & Hdup). split.
  - intros a Ha Hne. unfold routerOk in Hrt. rewrite Ha in Hrt.
    unfold IsUnspecified in Hrt. destruct (N.eqb_spec a 0) as [|_]; [done|].
    apply andb_true_iff in Hrt as [Hu Hr]. split; [done|].
    apply orb_true_iff in Hr as [Hex|Hn]; [|by left]. right.
    apply existsb_exists in Hex as (r' & Hin & Hc). exists r'. by rewrite list_elem_of_In.
  - intros m Hmask. rewrite Hmask in Hsz, Hm. simpl in Hsz. destruct (mask_ones m) as [k|] eqn:Hk.
    + exists k. by apply mask_ones_Some.
    + injection Hsz as <- <-. simpl in Hm. done.
  - intros a Ha Hl. rewrite Ha in Hlo. cbn [from_option default id] in Hlo.
    rewrite Hl in Hlo. cbn [andb] in Hlo. rewrite Hsz. by apply N.leb_gt in Hlo.
  - intros Heq. rewrite Heq, bool_decide_eq_true_2 in Hif by done. cbn [andb] in Hif. rewrite Hsz.
    apply N.eqb_neq in Hif. cbn [fst]. congruence.
  - intros r' Hin Heq Hsame. apply not_true_iff_false in Hdup. apply Hdup, existsb_exists.
    exists r'. split; [by apply list_elem_of_In|]. unfold sameDest. rewrite Heq, bool_decide_eq_true_2 by done.
    cbn [andb]. rewrite <- Hsame. apply N.eqb_refl.
Qed.

(** The routes that [sanitizeRoutes] keeps are, in order, routes it was given;
    each has a contiguous mask, does not capture loopback addresses, does not
    shadow the route of the interface or a route before it, and has a router that
    is a unicast address in the assigned network or a route before it; and there
    is nothing left to remove. *)
Theorem sanitizeRoutes_correct routes net :
  let kept := sanitizeRoutes routes net in
  kept `sublist_of` routes /\
  (forall i r, kept !! i = Some r -> good_route net (take i kept) r) /\
  sanitizeRoutes kept net = kept.
Proof.
  simpl. unfold sanitizeRoutes. destruct (sanitizeFrom_spec net routes []) as (kept & -> & Hsub & Hs); [done|].
  simpl in *. split_and!; [done| |by apply (sanitizeFrom_sane net kept [])].
  intros i r Hi. by apply sane_good, Hs.
Qed.

Lemma dnsLoop_spec seen servers :
  NoDup (dnsLoop seen servers) /\ (dnsLoop seen servers) `sublist_of` servers /\
  forall s, s ∈ dnsLoop seen servers <-> s ∈ servers /\ (s ∉ seen) /\ unicast s = true.
Proof.
  revert seen. induction servers as [|a servers IH]; intros seen; simpl.
  { split_and!; [constructor|constructor|]. intros s. rewrite elem_of_nil. tauto. }
  destruct (IH seen) as (H1 & H2 & H3). destruct (IH ({[a]} ∪ seen)) as (G1 & G2 & G3).
  destruct (unicast a) eqn:Hu; [case_bool_decide as Ha|].
  - split_and!; [done|by apply sublist_cons|]. intros s. rewrite H3, elem_of_cons.
    split; [tauto|]. intros ([->|?] & ? & ?); tauto.
  - split_and!; [constructor; [|done]|by apply sublist_skip|].
    + rewrite G3, elem_of_union, elem_of_singleton. tauto.
    + intros s. rewrite !elem_of_cons, G3, elem_of_union, elem_of_singleton.
      destruct (decide (s = a)) as [->|]; tauto.
  - split_and!; [done|by apply sublist_cons|]. intros s. rewrite H3, elem_of_cons.
    split; [tauto|]. intros ([->|?] & ? & ?); [congruence|tauto].
Qed.

(** [DNSServers] returns exactly the unicast servers of the option, each once
    and in order. *)
Theorem DNSServers_correct `{OptionLib} l :
  NoDup (DNSServers (Some l)) /\
  DNSServers (Some l) `sublist_of` GetIPs OptionDomainNameServer (LeaseOptions l) /\
  forall s, s ∈ DNSServers (Some l) <->
    s ∈ GetIPs OptionDomainNameServer (LeaseOptions l) /\ unicast s = true.
Proof.
  destruct (dnsLoop_spec ∅ (GetIPs OptionDomainNameServer (LeaseOptions l))) as (H1 & H2 & H3).
  split_and!; [done|done|]. intros s. unfold DNSServers. rewrite H3.
  split; [tauto|]. pose proof (not_elem_of_empty (C := gset ip) s). tauto.
Qed.

End DhcpLease.
