(* ===== verification/DhcpClient.v ===== *)
(** * The DHCPv4 client

    Models [metropolis/node/core/network/dhcp4c/dhcpc.go] and the transports of
    [dhcp4c/transport].  The dhcpv4 library is a parameter ([DhcpLib]), with what the
    client relies on as laws ([DhcpLaws]).  A call of [runState] is a function of the
    client and of what the outside does during the call: the clock, the random
    source, the backoff, the results of socket calls and of the lease callback, the
    messages received.  It also returns the calls the client makes, in order. *)

From S2P Require Import Prelude DhcpLease.
From Stdlib Require Import ZArith.

Module DhcpClient.
Import DhcpLease.

Open Scope Z_scope.

(** ** Messages *)

Definition Millisecond : Z := 10 ^ 6.
Definition Second : Z := 10 ^ 9.

Definition OptionRequestedIPAddress : N := 50.
Definition OptionIPAddressLeaseTime : N := 51.
Definition OptionDHCPMessageType : N := 53.
Definition OptionServerIdentifier : N := 54.
Definition OptionParameterRequestList : N := 55.
Definition OptionMaximumDHCPMessageSize : N := 57.
Definition OptionRenewTimeValue : N := 58.
Definition OptionRebindingTimeValue : N := 59.
Definition OptionClassIdentifier : N := 60.
Definition OptionClientIdentifier : N := 61.
Definition OptionTFTPServerName : N := 66.
Definition OptionBootfileName : N := 67.
Definition OptionRapidCommit : N := 80.
Definition OptionTFTPServerAddress : N := 150.

(** [dhcpv4.MessageType]. *)
Definition MessageTypeDiscover : N := 1.
Definition MessageTypeOffer : N := 2.
Definition MessageTypeRequest : N := 3.
Definition MessageTypeAck : N := 5.
Definition MessageTypeNak : N := 6.
Definition MessageTypeInform : N := 8.

(** The fields of [dhcpv4.DHCPv4] that the client reads, or sets to other than a
    constant. *)
Record Msg := mkMsg {
  ClientHWAddr : list N;
  TransactionID : N;
  ClientIPAddr : option ip;
  YourIPAddr : option ip;
  ServerIPAddr : option ip;
  ServerHostName : string;
  BootFileName : string;
  MsgOptions : Options
}.

Definition set_opts (o : Options) (m : Msg) : Msg :=
  mkMsg (ClientHWAddr m) (TransactionID m) (ClientIPAddr m) (YourIPAddr m) (ServerIPAddr m)
    (ServerHostName m) (BootFileName m) o.
Definition set_xid (x : N) (m : Msg) : Msg :=
  mkMsg (ClientHWAddr m) x (ClientIPAddr m) (YourIPAddr m) (ServerIPAddr m)
    (ServerHostName m) (BootFileName m) (MsgOptions m).
Definition set_ciaddr (a : option ip) (m : Msg) : Msg :=
  mkMsg (ClientHWAddr m) (TransactionID m) a (YourIPAddr m) (ServerIPAddr m)
    (ServerHostName m) (BootFileName m) (MsgOptions m).

(** [UpdateOption] and assignments to [Options]. *)
Definition UpdateOption (code : N) (v : string) (m : Msg) : Msg :=
  set_opts (<[code := v]> (MsgOptions m)) m.
Definition deleteOption (code : N) (m : Msg) : Msg :=
  set_opts (delete code (MsgOptions m)) m.

(** The accessors of the library.  [GetDuration code o def] is the duration in an
    option, [def] if there is none or it is malformed; the [...Bytes] functions encode
    option values, [FromBytes] decodes a message. *)
Class DhcpLib := {
  lib_options :: OptionLib;
  MessageType : Options -> N;
  GetDuration : N -> Options -> Z -> Z;
  DurationBytes : Z -> string;
  MessageTypeBytes : N -> string;
  CodeListBytes : list N -> string;
  Uint16Bytes : Z -> string;
  IPBytes : option ip -> string;
  FromBytes : string -> option Msg
}.

(** Durations are a 32-bit number of seconds. *)
Definition wireDuration (d : Z) : Prop := exists k, 0 <= k < 2 ^ 32 /\ d = k * Second.

Class DhcpLaws (D : DhcpLib) : Prop := {
  GetIP_ext c o o' : o !! c = o' !! c -> GetIP c o = GetIP c o';
  GetDuration_ext c o o' def : o !! c = o' !! c -> GetDuration c o def = GetDuration c o' def;
  GetDuration_none c o def : o !! c = None -> GetDuration c o def = def;
  GetDuration_wire c o :
    (forall def, GetDuration c o def = def) \/ (exists d, wireDuration d /\ forall def, GetDuration c o def = d);
  GetDuration_bytes c o d def : wireDuration d -> o !! c = Some (DurationBytes d) -> GetDuration c o def = d
}.

Section Client.
Context {D : DhcpLib}.

Definition ServerIdentifier (m : Msg) : option ip := GetIP OptionServerIdentifier (MsgOptions m).
Definition IPAddressLeaseTime (m : Msg) (def : Z) : Z := GetDuration OptionIPAddressLeaseTime (MsgOptions m) def.
Definition IPAddressRenewalTime (m : Msg) (def : Z) : Z := GetDuration OptionRenewTimeValue (MsgOptions m) def.
Definition IPAddressRebindingTime (m : Msg) (def : Z) : Z := GetDuration OptionRebindingTimeValue (MsgOptions m) def.

(** ** [acceptableLease] *)

(** The four bytes of an address. *)
Definition To4 (a : ip) : string :=
  String.string_of_list_ascii ((fun i => ascii_of_N (octet a i)) <$> [0; 1; 2; 3]%N).

Definition isUnicast (a : option ip) : bool := from_option unicast false a.

(** The checks. *)
Definition acceptable (offer : Msg) : bool :=
  bool_decide (ServerIdentifier offer <> None) &&
  negb (IPAddressLeaseTime offer 0 <? 1 * Second) &&
  isUnicast (YourIPAddr offer).

(** Options a server must not send are removed. *)
Definition removeRefused (m : Msg) : Msg :=
  deleteOption OptionMaximumDHCPMessageSize (deleteOption OptionClientIdentifier
    (deleteOption OptionParameterRequestList (deleteOption OptionRequestedIPAddress m))).

Definition clampRebinding (m : Msg) : Msg :=
  if IPAddressLeaseTime m 0 <? IPAddressRebindingTime m 0
  then UpdateOption OptionRebindingTimeValue (DurationBytes (IPAddressLeaseTime m 0)) m else m.
Definition clampRenewal (m : Msg) : Msg :=
  if IPAddressRebindingTime m 0 <? IPAddressRenewalTime m 0
  then UpdateOption OptionRenewTimeValue (DurationBytes (IPAddressRebindingTime m 0)) m else m.

(** Fields that can be inline become options. *)
Definition normalizeNames (m : Msg) : Msg :=
  let m := if bool_decide (ServerHostName m <> EmptyString)
           then UpdateOption OptionTFTPServerName (ServerHostName m) m else m in
  if bool_decide (BootFileName m <> EmptyString)
  then UpdateOption OptionBootfileName (BootFileName m) m else m.
Definition normalizeServer (m : Msg) : Msg :=
  if bool_decide (default EmptyString (MsgOptions m !! OptionTFTPServerAddress) = EmptyString)
  then if isUnicast (ServerIPAddr m)
       then UpdateOption OptionTFTPServerAddress (from_option To4 EmptyString (ServerIPAddr m)) m else m
  else m.

Definition normalize (m : Msg) : Msg :=
  normalizeServer (normalizeNames (clampRenewal (clampRebinding (removeRefused m)))).

(** [acceptableLease]: the message as it is after the call, if it is acceptable. *)
Definition acceptableLease (offer : Msg) : option Msg :=
  if acceptable offer then Some (normalize offer) else None.

(** ** Errors and calls *)

(** Errors of the transports: [errors.Is(err, ErrDeadlineExceeded)], a pointer to or
    a value of [InvalidMessageError], or another error. *)
Inductive goerr := ErrDeadlineExceeded | InvalidMessagePtr | InvalidMessageVal | OtherErr.

(** [NewInvalidMessageError] returns a pointer. *)
Definition NewInvalidMessageError : goerr := InvalidMessagePtr.
Definition deadlineFromTimeout (timeout : bool) : goerr := if timeout then ErrDeadlineExceeded else OtherErr.

(** [errors.As(err, &e)] for [e] of type [transport.InvalidMessageError]: the
    dynamic type of the error is assignable to the type of [e].  A pointer is not. *)
Definition asInvalidMessageError (e : goerr) : bool :=
  match e with InvalidMessageVal => true | _ => false end.

(** Why a call of [runState] does not return nil: an error (of the context, one that
    wraps [ErrInvalidMsg], or another), a panic, or it has not returned yet. *)
Inductive stop :=
| CtxErr
| ErrInvalidMsg
| Failed (msg : string)
| Panicked
| Waiting.
#[export] Instance stop_eq_dec : EqDecision stop.
Proof. solve_decision. Defined.

Inductive state := stateDiscovering | stateRequesting | stateBound | stateRenewing | stateRebinding.
#[export] Instance state_eq_dec : EqDecision state.
Proof. solve_decision. Defined.

Inductive conn := broadcast | unicastT.
#[export] Instance conn_eq_dec : EqDecision conn.
Proof. solve_decision. Defined.

(** What the client does to the outside: calls of the lease callback (and whether
    they succeed), messages sent with the deadline for answers, backoff resets (by
    the state the backoff is for). *)
Inductive event :=
| Called (l : option Lease) (ok : bool)
| Sent (t : conn) (m : Msg)
| Deadline (t : conn) (at_ : Z)
| Reset (s : state).

(** ** The client *)

(** The fields that do not change. *)
Record config := mkConfig {
  RequestedOptions : list N;
  ClientIdentifier : string;
  VendorClassIdentifier : string;
  ExtraRequestOptions : Options;
  HardwareAddr : list N;
  MTU : Z
}.

(** The transports are their sockets: [broadcastConn] tells if [rawConn] is set,
    [unicastConn] holds [targetIP] if [udpConn] is set. *)
Record Client := mkClient {
  cstate : state;
  broadcastConn : bool;
  unicastConn : option (option ip);
  offer : option Msg;
  lease : option Msg;
  leaseDeadline : Z;
  leaseBoundDeadline : Z;
  leaseRenewDeadline : Z
}.

Definition set_state s c := mkClient s (broadcastConn c) (unicastConn c) (offer c) (lease c)
  (leaseDeadline c) (leaseBoundDeadline c) (leaseRenewDeadline c).
Definition set_broadcast b c := mkClient (cstate c) b (unicastConn c) (offer c) (lease c)
  (leaseDeadline c) (leaseBoundDeadline c) (leaseRenewDeadline c).
Definition set_unicast u c := mkClient (cstate c) (broadcastConn c) u (offer c) (lease c)
  (leaseDeadline c) (leaseBoundDeadline c) (leaseRenewDeadline c).
Definition set_offer o c := mkClient (cstate c) (broadcastConn c) (unicastConn c) o (lease c)
  (leaseDeadline c) (leaseBoundDeadline c) (leaseRenewDeadline c).
Definition set_lease l c := mkClient (cstate c) (broadcastConn c) (unicastConn c) (offer c) l
  (leaseDeadline c) (leaseBoundDeadline c) (leaseRenewDeadline c).
Definition set_deadlines d b r c := mkClient (cstate c) (broadcastConn c) (unicastConn c) (offer c) (lease c) d b r.

(** Code of the client: it changes the client, makes calls, and may stop. *)
Definition M (A : Type) : Type := Client -> result stop A * Client * list event.

#[export] Instance M_ret : MRet M := fun A a c => (Ok a, c, []).
#[export] Instance M_bind : MBind M := fun A B k m c =>
  match m c with
  | (Ok a, c1, e1) => let '(r, c2, e2) := k a c1 in (r, c2, e1 ++ e2)
  | (Err x, c1, e1) => (Err x, c1, e1)
  end.

Definition fail {A} (x : stop) : M A := fun c => (Err x, c, []).
Definition modify (f : Client -> Client) : M unit := fun c => (Ok tt, f c, []).
Definition gets {A} (f : Client -> A) : M A := fun c => (Ok (f c), c, []).
Definition emit (e : event) : M unit := fun c => (Ok tt, c, [e]).

(** The error of a call is replaced ([fmt.Errorf] with [%w] keeps what it wraps) or
    ignored. *)
Definition wrap (msg : string) {A} (m : M A) : M A := fun c =>
  match m c with
  | (Err (Failed _), c1, e1) => (Err (Failed msg), c1, e1)
  | r => r
  end.
Definition ignore (m : M unit) : M unit := fun c =>
  match m c with (_, c1, e1) => (Ok tt, c1, e1) end.
Definition check (ok : bool) (msg : string) : M unit := if ok then mret tt else fail (Failed msg).

(** ** Transports *)

(** The result of the callback: nil, an error that wraps [ErrInvalidMsg], another
    error. *)
Inductive cbResult := CbOk | CbInvalidMsg | CbErr.

(** The results of socket calls and of the callback. *)
Record answers := mkAnswers {
  broadcastOpens : bool;
  broadcastCloses : bool;
  unicastOpens : bool;
  unicastCloses : bool;
  callback : cbResult
}.

Definition broadcastOpen (a : answers) : M unit :=
  b ← gets broadcastConn;
  check (negb b) "broadcast transport already open";;
  check (broadcastOpens a) "failed to create raw listener";;
  modify (set_broadcast true).

Definition broadcastClose (a : answers) : M unit :=
  b ← gets broadcastConn;
  if b : bool then
    check (broadcastCloses a) "close";;
    modify (set_broadcast false)
  else mret tt.

Definition unicastOpen (a : answers) (serverIP : option ip) : M unit :=
  u ← gets unicastConn;
  check (bool_decide (u = None)) "unicast transport already open";;
  check (unicastOpens a) "failed to open socket";;
  modify (set_unicast (Some serverIP)).

(** The socket is forgotten even if closing it fails. *)
Definition unicastClose (a : answers) : M unit :=
  u ← gets unicastConn;
  match u with
  | Some _ => modify (set_unicast None);; check (unicastCloses a) "close"
  | None => mret tt
  end.

Definition isOpen (t : conn) (c : Client) : bool :=
  match t with broadcast => broadcastConn c | unicastT => bool_decide (unicastConn c <> None) end.

Definition Send (t : conn) (m : Msg) (sends : bool) : M unit :=
  o ← gets (isOpen t);
  check o "transport closed";;
  emit (Sent t m);;
  check sends "failed to transmit".

Definition SetReceiveDeadline (t : conn) (d : Z) (sets : bool) : M unit :=
  o ← gets (isOpen t);
  check o "transport closed";;
  emit (Deadline t d);;
  check sets "failed to set deadline".

(** A packet as the packet library decodes it, if it has an IPv4 and a UDP layer. *)
Record packet := mkPacket {
  ipLayer : option bool;              (* the flag for more fragments *)
  udpLayer : option (N * string)      (* destination port and payload *)
}.

(** [BroadcastTransport.Receive] from the result of [ReadFrom]. *)
Definition BroadcastReceive (read : result bool packet) : result goerr Msg :=
  match read with
  | Err timeout => Err (deadlineFromTimeout timeout)
  | Ok p =>
      match ipLayer p with
      | None => Err NewInvalidMessageError
      | Some moreFragments =>
          if moreFragments then Err NewInvalidMessageError
          else match udpLayer p with
               | None => Err NewInvalidMessageError
               | Some (port, payload) =>
                   if negb (port =? 68)%N then Err NewInvalidMessageError
                   else match FromBytes payload with
                        | None => Err NewInvalidMessageError
                        | Some msg => Ok msg
                        end
               end
      end
  end.

(** [UnicastTransport.Receive] from the result of [ReadFromUDP]. *)
Definition UnicastReceive (read : result bool string) : result goerr Msg :=
  match read with
  | Err timeout => Err (deadlineFromTimeout timeout)
  | Ok buf => match FromBytes buf with
              | None => Err NewInvalidMessageError
              | Some msg => Ok msg
              end
  end.

(** ** Transitions *)

Definition LeaseCallback (a : answers) (l : option Lease) : M unit :=
  match callback a with
  | CbOk => emit (Called l true)
  | CbInvalidMsg => emit (Called l false);; fail ErrInvalidMsg
  | CbErr => emit (Called l false);; fail (Failed "callback")
  end.

Definition leaseFromAck (ack : option Msg) (expiresAt : Z) : option Lease :=
  (fun ack => mkLease (YourIPAddr ack) expiresAt (MsgOptions ack)) <$> ack.

Definition switchToUnicast (a : answers) (serverIP : option ip) : M unit :=
  wrap "failed to close broadcast transport" (broadcastClose a);;
  wrap "failed to open unicast transport" (unicastOpen a serverIP).

Definition switchToBroadcast (a : answers) : M unit :=
  wrap "failed to close unicast transport" (unicastClose a);;
  wrap "failed to open broadcast transport" (broadcastOpen a).

Definition cleanup (a : answers) : M unit :=
  ignore (unicastClose a);;
  l ← gets lease;
  match l with Some _ => ignore (LeaseCallback a None) | None => mret tt end;;
  ignore (broadcastClose a).

Definition requestingToDiscovering : M unit :=
  modify (set_offer None);;
  emit (Reset stateDiscovering);;
  modify (set_state stateDiscovering).

Definition leaseToDiscovering (a : answers) : M unit :=
  s ← gets cstate;
  (if bool_decide (s = stateRenewing) then switchToBroadcast a else mret tt);;
  modify (set_state stateDiscovering);;
  modify (set_lease None);;
  emit (Reset stateDiscovering);;
  wrap "lease callback failed" (LeaseCallback a None).

(** [time.Duration(float64(d) * x)] for a non-negative duration and the float64
    [x = m * 2^-53]: the product is rounded to 53 bits, to nearest and ties to even,
    and then truncated. *)
Definition round53 (n : Z) : Z :=
  let e := Z.max 0 (Z.log2 n - 52) in
  let q := Z.shiftr n e in
  let r := n - Z.shiftl q e in
  let half := Z.shiftl 1 (e - 1) in
  let up := (0 <? e) && ((half <? r) || ((half =? r) && Z.odd q)) in
  Z.shiftl (if up then q + 1 else q) e.
Definition scale (m : Z) (d : Z) : Z := Z.shiftr (round53 (round53 d * m)) 53.

Definition half : Z := 2 ^ 52.               (* 0.5 *)
Definition f85 : Z := 7656119366529843.      (* 0.85 *)

Definition transitionToBound (a : answers) (ack : Msg) (sentTime : Z) : M unit :=
  let leaseTime := IPAddressLeaseTime ack 0 in
  let deadline := sentTime + leaseTime in
  modify (set_deadlines deadline
                (sentTime + IPAddressRenewalTime ack (scale half leaseTime))
                (sentTime + IPAddressRebindingTime ack (scale f85 leaseTime)));;
  wrap "lease callback failed" (LeaseCallback a (leaseFromAck (Some ack) deadline));;
  s ← gets cstate;
  (if bool_decide (s <> stateRenewing)
       then wrap "failed to switch transports" (switchToUnicast a (ServerIdentifier ack)) else mret tt);;
  modify (set_state stateBound);;
  modify (set_lease (Some ack)).

(** ** Requests *)

Definition internalOptions : list N := [OptionSubnetMask; OptionIPAddressLeaseTime].

Definition earliestDeadline (dl1 dl2 : Z) : Z := if dl1 <? dl2 then dl1 else dl2.

Definition maxMsgSize (cfg : config) : Z :=
  if MTU cfg <? 2 ^ 16 - 1 then MTU cfg mod 2 ^ 16 else 2 ^ 16 - 1.

Definition newOptions (cfg : config) (t : N) : Options :=
  let opts : Options := {[OptionDHCPMessageType := MessageTypeBytes t]} in
  let opts := if bool_decide (ClientIdentifier cfg <> EmptyString)
              then <[OptionClientIdentifier := ClientIdentifier cfg]> opts else opts in
  if (t =? MessageTypeDiscover)%N || (t =? MessageTypeRequest)%N || (t =? MessageTypeInform)%N then
    let opts := <[OptionParameterRequestList := CodeListBytes (RequestedOptions cfg ++ internalOptions)]> opts in
    let opts := <[OptionMaximumDHCPMessageSize := Uint16Bytes (maxMsgSize cfg)]> opts in
    let opts := if bool_decide (VendorClassIdentifier cfg <> EmptyString)
                then <[OptionClassIdentifier := VendorClassIdentifier cfg]> opts else opts in
    ExtraRequestOptions cfg ∪ opts
  else opts.

(** [newMsg], from the transaction ID that [newXID] reads. *)
Definition newMsg (cfg : config) (xid : option N) (t : N) : M Msg :=
  match xid with
  | None => fail (Failed "cannot read randomness for transaction ID")
  | Some xid => mret (mkMsg (HardwareAddr cfg) xid (Some 0%N) (Some 0%N) (Some 0%N) EmptyString EmptyString (newOptions cfg t))
  end.

(** ** Transactions *)

(** A return of [Receive]: whether the context is done at that time, the result, and
    the results of the calls made when it is processed. *)
Record reception := mkReception {
  ctxDone : bool;
  received : result goerr Msg;
  rxAnswers : answers
}.

(** How the wait in [stateBound] goes. *)
Inductive selected := TimerFired | ContextDone | NotYet.

(** What the outside does during one call of [runState]: the clock, the source of
    transaction IDs, the backoffs of the states ([None] is [backoff.Stop]), the results of [Send] and
    [SetReceiveDeadline], the messages so far, the results of other calls, and the wait. *)
Record round := mkRound {
  now : Z;
  xid : option N;
  NextBackOff : state -> option Z;
  sends : bool;
  sets : bool;
  receptions : list reception;
  roundAnswers : answers;
  select : selected
}.

(** [backoff] names the backoff of the client. *)
Record transactionStateSpec := mkSpec {
  transport : conn;
  stateDeadline : option Z;
  backoff : state;
  requestType : N;
  setExtraOptions : Msg -> M Msg;
  handleMessage : answers -> Msg -> Z -> M unit;
  stateDeadlineExceeded : option (answers -> M unit)
}.

(** The receive loop. *)
Fixpoint receiveLoop (s : transactionStateSpec) (xid : N) (sentTime : Z) (rx : list reception) : M unit :=
  match rx with
  | [] => fail Waiting
  | r :: rx =>
      o ← gets (isOpen (transport s));
      if ctxDone r then
        cleanup (rxAnswers r);;
        fail CtxErr
      else
        match (if o : bool then received r else Err OtherErr) with
        | Err ErrDeadlineExceeded => mret tt
        | Err e =>
            if asInvalidMessageError e then receiveLoop s xid sentTime rx
            else fail (Failed "failed to receive packet")
        | Ok offer =>
            if negb (TransactionID offer =? xid)%N then receiveLoop s xid sentTime rx
            else fun c =>
              match handleMessage s (rxAnswers r) offer sentTime c with
              | (Err ErrInvalidMsg, c1, e1) =>
                  let '(x, c2, e2) := receiveLoop s xid sentTime rx c1 in (x, c2, e1 ++ e2)
              | x => x
              end
        end
  end.

(** A call of a nil function panics. *)
Definition exceeded (s : transactionStateSpec) (r : round) : M unit :=
  match stateDeadlineExceeded s with Some f => f (roundAnswers r) | None => fail Panicked end.

Definition runTransactionState (cfg : config) (s : transactionStateSpec) (r : round) : M unit :=
  let sentTime := now r in
  msg ← wrap "failed to get new DHCP message" (newMsg cfg (xid r) (requestType s));
  msg ← wrap "failed to create DHCP message" (setExtraOptions s msg);
  match NextBackOff r (backoff s) with
  | None => exceeded s r
  | Some wait =>
      let '(receiveDeadline, expired) :=
        match stateDeadline s with
        | Some d => (earliestDeadline d (sentTime + wait), d - 10 * Millisecond <? sentTime)
        | None => (sentTime + wait, false)
        end in
      if expired then exceeded s r
      else
        wrap "failed to send message" (Send (transport s) msg (sends r));;
        wrap "failed to set deadline" (SetReceiveDeadline (transport s) receiveDeadline (sets r));;
        receiveLoop s (TransactionID msg) sentTime (receptions r)
  end.

(** ** The states *)

(** A field that is nil is dereferenced. *)
Definition deref {A} (o : option A) : M A := match o with Some a => mret a | None => fail Panicked end.

Definition handleAck (a : answers) (msg : Msg) (sentTime : Z) : M unit :=
  match acceptableLease msg with
  | Some ack => transitionToBound a ack sentTime
  | None => fail ErrInvalidMsg
  end.

Definition handleDiscovering (a : answers) (msg : Msg) (sentTime : Z) : M unit :=
  if (MessageType (MsgOptions msg) =? MessageTypeOffer)%N then
    match acceptableLease msg with
    | Some offer =>
        modify (set_offer (Some offer));;
        emit (Reset stateRequesting);;
        modify (set_state stateRequesting)
    | None => fail ErrInvalidMsg
    end
  else if (MessageType (MsgOptions msg) =? MessageTypeAck)%N then handleAck a msg sentTime
  else fail ErrInvalidMsg.

Definition handleRequesting (a : answers) (msg : Msg) (sentTime : Z) : M unit :=
  if (MessageType (MsgOptions msg) =? MessageTypeAck)%N then handleAck a msg sentTime
  else if (MessageType (MsgOptions msg) =? MessageTypeNak)%N then requestingToDiscovering
  else fail ErrInvalidMsg.

Definition handleExtending (a : answers) (msg : Msg) (sentTime : Z) : M unit :=
  if (MessageType (MsgOptions msg) =? MessageTypeAck)%N then handleAck a msg sentTime
  else if (MessageType (MsgOptions msg) =? MessageTypeNak)%N then leaseToDiscovering a
  else fail ErrInvalidMsg.

Definition discovering : transactionStateSpec :=
  mkSpec broadcast None stateDiscovering MessageTypeDiscover
    (fun msg => mret (UpdateOption OptionRapidCommit EmptyString msg))
    handleDiscovering None.

Definition requesting : transactionStateSpec :=
  mkSpec broadcast None stateRequesting MessageTypeRequest
    (fun msg =>
       o ← gets offer;
       offer ← deref o;
       let msg := UpdateOption OptionServerIdentifier (IPBytes (ServerIdentifier offer)) msg in
       let msg := set_xid (TransactionID offer) msg in
       mret (UpdateOption OptionRequestedIPAddress (IPBytes (YourIPAddr offer)) msg))
    handleRequesting (Some (fun _ => requestingToDiscovering)).

Definition extendOptions (msg : Msg) : M Msg :=
  l ← gets lease;
  l ← deref l;
  mret (set_ciaddr (YourIPAddr l) msg).

Definition renewing (c : Client) : transactionStateSpec :=
  mkSpec unicastT (Some (leaseRenewDeadline c)) stateRenewing MessageTypeRequest extendOptions handleExtending
    (Some (fun a =>
       modify (set_state stateRebinding);;
       wrap "failed to switch to broadcast" (switchToBroadcast a);;
       emit (Reset stateRebinding))).

Definition rebinding (c : Client) : transactionStateSpec :=
  mkSpec broadcast (Some (leaseDeadline c)) stateRebinding MessageTypeRequest extendOptions handleExtending
    (Some leaseToDiscovering).

Definition runState (cfg : config) (r : round) : M unit := fun c =>
  match cstate c with
  | stateDiscovering => runTransactionState cfg discovering r c
  | stateRequesting => runTransactionState cfg requesting r c
  | stateBound =>
      match select r with
      | TimerFired => (modify (set_state stateRenewing);; emit (Reset stateRenewing)) c
      | ContextDone => (cleanup (roundAnswers r);; fail CtxErr) c
      | NotYet => fail Waiting c
      end
  | stateRenewing => runTransactionState cfg (renewing c) r c
  | stateRebinding => runTransactionState cfg (rebinding c) r c
  end.

(** [Run]: the calls of [runState] so far; it goes on after all of them. *)
Fixpoint Run (cfg : config) (rs : list round) : M unit :=
  match rs with
  | [] => fail Waiting
  | r :: rs => runState cfg r;; Run cfg rs
  end.

(** [NewClient]: the client, or whether the broadcast socket is left open when it
    fails. *)
Definition NewClient (hwaddr : list N) (opens : bool) : result bool Client :=
  if opens then
    if existsb (fun b => negb (b =? 0)%N) hwaddr
    then Ok (mkClient stateDiscovering true None None None 0 0 0)
    else Err true
  else Err false.

End Client.
End DhcpClient.

(** * A concrete DHCPv4 library

    An instance of [DhcpLib] with the encodings of RFC 2132 and RFC 3442 for option
    values, and a proof of the laws that the client relies on.  Messages are decoded
    from a toy format that only has a transaction. *)

Module DhcpExample.
Import DhcpLease DhcpClient.

Definition be32 (s : string) : option N :=
  match String.list_ascii_of_string s with
  | [a; b; c; d] =>
      Some (N_of_ascii a * 2 ^ 24 + N_of_ascii b * 2 ^ 16 + N_of_ascii c * 2 ^ 8 + N_of_ascii d)%N
  | _ => None
  end.

Fixpoint be32s (l : list ascii) : list N :=
  match l with
  | a :: b :: c :: d :: l =>
      (N_of_ascii a * 2 ^ 24 + N_of_ascii b * 2 ^ 16 + N_of_ascii c * 2 ^ 8 + N_of_ascii d)%N :: be32s l
  | _ => []
  end.

Lemma octet_spec a i : octet a i = ((a / 2 ^ (24 - 8 * i)) mod 256)%N.
Proof.
  unfold octet. rewrite N.shiftr_div_pow2. change 255%N with (N.ones 8). by rewrite N.land_ones.
Qed.

Lemma be32_To4 a : (a < 2 ^ 32)%N -> be32 (To4 a) = Some a.
Proof.
  intros Ha. unfold be32, To4. rewrite String.list_ascii_of_string_of_list_ascii. cbn [fmap list_fmap].
  f_equal. rewrite !octet_spec.
  rewrite !N_ascii_embedding by (apply N.mod_lt; lia).
  change (24 - 8 * 0)%N with 24%N. change (24 - 8 * 1)%N with 16%N. change (24 - 8 * 2)%N with 8%N. change (24 - 8 * 3)%N with 0%N.
  change (2 ^ 24)%N with 16777216%N. change (2 ^ 16)%N with 65536%N. change (2 ^ 8)%N with 256%N.
  change (2 ^ 0)%N with 1%N. change (2 ^ 32)%N with 4294967296%N in Ha.
  pose proof (N.div_mod a 256). pose proof (N.div_mod (a / 256) 256). pose proof (N.div_mod (a / 65536) 256).
  rewrite (N.Div0.div_div a 256 256) in *. change (256 * 256)%N with 65536%N in *.
  rewrite (N.Div0.div_div a 65536 256) in *. change (65536 * 256)%N with 16777216%N in *.
  rewrite N.div_1_r. rewrite (N.mod_small (a / 16777216)) by (apply N.Div0.div_lt_upper_bound; lia). lia.
Qed.

(** Routes of RFC 3442: the width of the mask, the significant bytes of the
    destination, the router. *)
Fixpoint routes (fuel : nat) (l : list ascii) : list Route :=
  match fuel, l with
  | S fuel, w :: l =>
      let ones := N_of_ascii w in
      let k := N.to_nat ((ones + 7) / 8) in
      if (ones <=? 32)%N then
        match be32s (take k l ++ replicate (4 - k) "000"%char), be32s (take 4 (drop k l)) with
        | [dst], [router] =>
            mkRoute (mkNet (Some dst) (Some (CIDRMask ones))) (Some router) :: routes fuel (drop (k + 4) l)
        | _, _ => []
        end
      else []
  | _, _ => []
  end.

#[export] Instance ExampleOptions : OptionLib := {|
  GetIP c o := o !! c ≫= be32;
  GetIPs c o := from_option (fun s => be32s (String.list_ascii_of_string s)) [] (o !! c);
  RoutesFromBytes s := routes (String.length s) (String.list_ascii_of_string s)
|}.

#[export] Instance ExampleDhcp : DhcpLib := {|
  lib_options := ExampleOptions;
  MessageType o := match String.list_ascii_of_string <$> o !! OptionDHCPMessageType with
                   | Some [t] => N_of_ascii t
                   | _ => 0%N
                   end;
  GetDuration c o def := from_option (fun n => Z.of_N n * Second)%Z def (o !! c ≫= be32);
  DurationBytes d := To4 (Z.to_N (d / Second));
  MessageTypeBytes t := String (ascii_of_N t) EmptyString;
  CodeListBytes l := String.string_of_list_ascii (ascii_of_N <$> l);
  Uint16Bytes n := String (ascii_of_N (Z.to_N (n / 256))) (String (ascii_of_N (Z.to_N (n mod 256))) EmptyString);
  IPBytes := from_option To4 EmptyString;
  FromBytes s := (fun x => mkMsg [] x None None None EmptyString EmptyString ∅) <$> be32 s
|}.

Lemma be32_bound s n : be32 s = Some n -> (n < 2 ^ 32)%N.
Proof.
  unfold be32. destruct (String.list_ascii_of_string s) as [|a [|b [|c [|d [|]]]]]; try done.
  intros [= <-]. pose proof (N_ascii_bounded a). pose proof (N_ascii_bounded b).
  pose proof (N_ascii_bounded c). pose proof (N_ascii_bounded d). lia.
Qed.

#[export] Instance ExampleLaws : DhcpLaws ExampleDhcp.
Proof.
  split.
  - intros c o o' H. cbn. by rewrite H.
  - intros c o o' def H. cbn. by rewrite H.
  - intros c o def H. cbn. by rewrite H.
  - intros c o. cbn. destruct (o !! c ≫= be32) as [n|] eqn:Hn; cbn; [right|by left].
    apply bind_Some in Hn as (s & _ & Hs%be32_bound). exists (Z.of_N n * Second)%Z. split; [|done].
    exists (Z.of_N n). lia.
  - intros c o d def (k & Hk & ->) H.
    cbn [GetDuration ExampleDhcp DurationBytes] in *. rewrite H. cbn [mbind option_bind].
    rewrite Z.div_mul, be32_To4 by (unfold Second; lia). cbn [from_option default id]. by rewrite Z2N.id by lia.
Qed.

(** ** Messages of a server *)

Definition serverIP : ip := 167772161.      (* 10.0.0.1 *)
Definition leasedIP : ip := 167772165.      (* 10.0.0.5 *)

(** A message of the server: with a renewal and a rebinding time, if given. *)
Definition answer (t : N) (renewal rebinding : option Z) : Msg :=
  let opts : Options :=
    <[OptionServerIdentifier := To4 serverIP]> (<[OptionIPAddressLeaseTime := DurationBytes (3600 * Second)]>
      {[OptionDHCPMessageType := MessageTypeBytes t]}) in
  let opts := from_option (fun d => <[OptionRenewTimeValue := DurationBytes d]> opts) opts renewal in
  let opts := from_option (fun d => <[OptionRebindingTimeValue := DurationBytes d]> opts) opts rebinding in
  mkMsg [] 7%N None (Some leasedIP) None EmptyString EmptyString opts.

Definition works : answers := mkAnswers true true true true CbOk.
Definition exampleConfig : config := mkConfig [OptionRouter] EmptyString EmptyString ∅ [2%N] 1500.
Definition start : Client := mkClient stateDiscovering true None None None 0 0 0.

(** A call of [runState] at a time, in which a packet is received. *)
Definition receives (t : Z) (m : result goerr Msg) : round :=
  mkRound t (Some 7%N) (fun _ => Some (2 * Second)%Z) true true [mkReception false m works] works TimerFired.

(** An offer, and an acknowledgement a second later. *)
Definition handshake : list round :=
  [receives 0 (Ok (answer MessageTypeOffer None None)); receives Second (Ok (answer MessageTypeAck None None))].

(** An offer that is not acknowledged within 30 seconds, and then a handshake. *)
Definition abandoned : list round :=
  [receives (-40 * Second) (Ok (answer MessageTypeOffer None None));
   mkRound (-8 * Second) (Some 7%N) (fun s => if bool_decide (s = stateRequesting) then None else Some (2 * Second)%Z) true true [] works TimerFired] ++ handshake.

(** The client after the handshake. *)
Definition boundClient : Client := (Run exampleConfig handshake start).1.2.

End DhcpExample.
