(* ===== verification/DhcpProps.v ===== *)
(** * Properties of the DHCPv4 client

    Leases are normalised when they are accepted, so that the deadlines of the
    state machine are in order; the transports and the lease that the callback was
    last told agree with the state in every call of [runState]; a lease that is not
    renewed is given up at its deadline.  Also the ways in which the client fails. *)

From S2P Require Import Prelude DhcpLease DhcpClient.
From Stdlib Require Import ZArith.

Module DhcpProps.
Import DhcpLease DhcpClient DhcpExample.

Open Scope Z_scope.

(** ** Scaled durations *)

Lemma round53_le n : 0 <= n -> 0 <= round53 n /\ 2 ^ 52 * round53 n <= (2 ^ 52 + 1) * n.
Proof.
  intros Hn. unfold round53. set (e := Z.max 0 (Z.log2 n - 52)).
  assert (0 <= e) as He by lia. rewrite !Z.shiftl_mul_pow2, Z.shiftr_div_pow2 by lia.
  pose proof (Z.pow_pos_nonneg 2 e ltac:(lia) He) as Hp.
  pose proof (Z.mul_div_le n (2 ^ e) Hp) as Hq. pose proof (Z.div_pos n (2 ^ e) Hn Hp) as Hq0.
  set (q := n / 2 ^ e) in *. destruct (_ && _) eqn:Hup; [|nia].
  apply andb_true_iff in Hup as [He1%Z.ltb_lt _].
  assert (2 ^ 52 * 2 ^ e <= n).
  { rewrite <- Z.pow_add_r by lia. replace (52 + e) with (Z.log2 n) by lia.
    destruct (Z.eq_dec n 0) as [->|]; [simpl in *; lia|]. apply Z.log2_spec. lia. }
  nia.
Qed.

Lemma scale_le m d : 0 <= d -> 0 <= m <= f85 -> 0 <= scale m d <= d.
Proof.
  intros Hd Hm. unfold scale, f85 in *. rewrite Z.shiftr_div_pow2 by lia.
  destruct (round53_le d Hd) as [H1 H2]. destruct (round53_le (round53 d * m) ltac:(nia)) as [H3 H4].
  split; [apply Z.div_pos; lia|]. apply Z.div_le_upper_bound; [lia|].
  assert (round53 d * m <= round53 d * 7656119366529843) by nia.
  change (2 ^ 52) with 4503599627370496 in *. change (2 ^ 53) with 9007199254740992. lia.
Qed.

(** ** Accepted leases *)

Section Laws.
Context {D : DhcpLib} {L : DhcpLaws D}.

Lemma GetDuration_nonneg c o def : 0 <= def -> 0 <= GetDuration c o def.
Proof.
  intros Hd. destruct (GetDuration_wire c o) as [H|(d & (k & Hk & ->) & H)]; rewrite H; [done|].
  unfold Second. lia.
Qed.

Lemma GetDuration_wire0 c o : wireDuration (GetDuration c o 0).
Proof.
  destruct (GetDuration_wire c o) as [H|(d & Hd & H)]; rewrite H; [|done].
  exists 0. unfold Second. lia.
Qed.

(** A default is used, or the default does not matter. *)
Lemma GetDuration_le c o def b : GetDuration c o 0 <= b -> def <= b -> GetDuration c o def <= b.
Proof. destruct (GetDuration_wire c o) as [H|(d & _ & H)]; by rewrite !H. Qed.

(** The options that [normalize] may change. *)
Definition refused : list N :=
  [OptionRequestedIPAddress; OptionParameterRequestList; OptionClientIdentifier; OptionMaximumDHCPMessageSize].
Definition adjusted : list N :=
  [OptionRenewTimeValue; OptionRebindingTimeValue; OptionTFTPServerName; OptionBootfileName; OptionTFTPServerAddress].

Ltac code := apply (bool_decide_unpack _); vm_compute; exact I.

Lemma names_lookup m c : c <> OptionTFTPServerName -> c <> OptionBootfileName ->
  MsgOptions (normalizeNames m) !! c = MsgOptions m !! c.
Proof. intros. unfold normalizeNames. repeat case_bool_decide; simpl; by rewrite ?lookup_insert_ne. Qed.
Lemma server_lookup m c : c <> OptionTFTPServerAddress ->
  MsgOptions (normalizeServer m) !! c = MsgOptions m !! c.
Proof. intros. unfold normalizeServer. repeat case_match; simpl; by rewrite ?lookup_insert_ne. Qed.
Lemma renewal_lookup m c : c <> OptionRenewTimeValue -> MsgOptions (clampRenewal m) !! c = MsgOptions m !! c.
Proof. intros. unfold clampRenewal. case_match; simpl; by rewrite ?lookup_insert_ne. Qed.
Lemma rebinding_lookup m c : c <> OptionRebindingTimeValue ->
  MsgOptions (clampRebinding m) !! c = MsgOptions m !! c.
Proof. intros. unfold clampRebinding. case_match; simpl; by rewrite ?lookup_insert_ne. Qed.
Lemma refused_lookup m c : MsgOptions (removeRefused m) !! c = if decide (c ∈ refused) then None else MsgOptions m !! c.
Proof.
  unfold removeRefused, refused. simpl. case_decide as Hc.
  - repeat (apply elem_of_cons in Hc as [->|Hc]); [..|by apply elem_of_nil in Hc];
      by rewrite ?lookup_delete_ne, lookup_delete_eq by done.
  - rewrite !not_elem_of_cons in Hc. by rewrite !lookup_delete_ne by naive_solver.
Qed.

Lemma normalize_lookup m c : c ∉ adjusted ->
  MsgOptions (normalize m) !! c = if decide (c ∈ refused) then None else MsgOptions m !! c.
Proof.
  unfold adjusted. rewrite !not_elem_of_cons. intros (? & ? & ? & ? & ? & _). unfold normalize.
  by rewrite server_lookup, names_lookup, renewal_lookup, rebinding_lookup, refused_lookup.
Qed.

Lemma rebinding_time m : IPAddressRebindingTime (clampRebinding m) 0 <= IPAddressLeaseTime m 0.
Proof.
  unfold clampRebinding. case_match eqn:H.
  - unfold IPAddressRebindingTime. rewrite (GetDuration_bytes _ _ (IPAddressLeaseTime m 0)); [done|apply GetDuration_wire0|].
    apply lookup_insert_eq.
  - by apply Z.ltb_ge.
Qed.
Lemma renewal_time m : IPAddressRenewalTime (clampRenewal m) 0 <= IPAddressRebindingTime m 0.
Proof.
  unfold clampRenewal. case_match eqn:H.
  - unfold IPAddressRenewalTime. rewrite (GetDuration_bytes _ _ (IPAddressRebindingTime m 0)); [done|apply GetDuration_wire0|].
    apply lookup_insert_eq.
  - by apply Z.ltb_ge.
Qed.

(** The times of a normalised message. *)
Lemma normalize_times m :
  IPAddressLeaseTime (normalize m) 0 = IPAddressLeaseTime m 0 /\
  IPAddressRebindingTime (normalize m) 0 <= IPAddressLeaseTime m 0 /\
  IPAddressRenewalTime (normalize m) 0 <= IPAddressRebindingTime (normalize m) 0.
Proof.
  assert (IPAddressRebindingTime (normalize m) 0 = IPAddressRebindingTime (clampRebinding (removeRefused m)) 0) as HT2.
  { apply GetDuration_ext. unfold normalize. by rewrite server_lookup, names_lookup, renewal_lookup. }
  assert (IPAddressRenewalTime (normalize m) 0 = IPAddressRenewalTime (clampRenewal (clampRebinding (removeRefused m))) 0) as HT1.
  { apply GetDuration_ext. unfold normalize. by rewrite server_lookup, names_lookup. }
  assert (IPAddressLeaseTime (removeRefused m) 0 = IPAddressLeaseTime m 0) as HL.
  { apply GetDuration_ext. by rewrite refused_lookup. }
  split_and!.
  - apply GetDuration_ext. by rewrite normalize_lookup by code.
  - rewrite HT2, <- HL. apply rebinding_time.
  - rewrite HT1, HT2. apply renewal_time.
Qed.

Lemma normalize_fields m :
  YourIPAddr (normalize m) = YourIPAddr m /\ TransactionID (normalize m) = TransactionID m /\
  ServerIPAddr (normalize m) = ServerIPAddr m /\ ServerHostName (normalize m) = ServerHostName m /\
  BootFileName (normalize m) = BootFileName m.
Proof.
  unfold normalize, normalizeServer, normalizeNames, clampRenewal, clampRebinding.
  repeat case_match; done.
Qed.

Lemma normalize_server m : ServerIdentifier (normalize m) = ServerIdentifier m.
Proof. apply GetIP_ext. by rewrite normalize_lookup by code. Qed.

Lemma normalize_acceptable m : acceptable (normalize m) = acceptable m.
Proof.
  unfold acceptable. destruct (normalize_fields m) as (-> & _), (normalize_times m) as (-> & _).
  by rewrite normalize_server.
Qed.

Lemma set_opts_id m o : o = MsgOptions m -> set_opts o m = m.
Proof. intros ->. by destruct m. Qed.

Lemma removeRefused_id m : (forall c, c ∈ refused -> MsgOptions m !! c = None) -> removeRefused m = m.
Proof.
  intros H. unfold removeRefused, deleteOption. destruct m as [? ? ? ? ? ? ? o]; simpl in *. unfold set_opts; simpl.
  rewrite !delete_id; [done|..]; rewrite ?lookup_delete_ne by done; apply H; code.
Qed.

Lemma UpdateOption_id c v m : MsgOptions m !! c = Some v -> UpdateOption c v m = m.
Proof. intros H. apply set_opts_id. by apply insert_id. Qed.

Lemma normalizeNames_id m :
  (ServerHostName m <> EmptyString -> MsgOptions m !! OptionTFTPServerName = Some (ServerHostName m)) ->
  (BootFileName m <> EmptyString -> MsgOptions m !! OptionBootfileName = Some (BootFileName m)) ->
  normalizeNames m = m.
Proof.
  intros H1 H2. unfold normalizeNames. destruct (bool_decide (ServerHostName m <> EmptyString)) eqn:Hs.
  - apply bool_decide_eq_true in Hs. rewrite (UpdateOption_id OptionTFTPServerName) by auto.
    case_bool_decide; [|done]. apply UpdateOption_id. auto.
  - clear Hs. case_bool_decide; [|done]. apply UpdateOption_id. auto.
Qed.

Lemma names_set m :
  (ServerHostName m <> EmptyString -> MsgOptions (normalizeNames m) !! OptionTFTPServerName = Some (ServerHostName m)) /\
  (BootFileName m <> EmptyString -> MsgOptions (normalizeNames m) !! OptionBootfileName = Some (BootFileName m)).
Proof.
  unfold normalizeNames. repeat case_bool_decide; simpl in *; split; intros; simplify_map_eq; congruence.
Qed.

Lemma normalizeServer_id m :
  (isUnicast (ServerIPAddr m) = true -> default EmptyString (MsgOptions m !! OptionTFTPServerAddress) <> EmptyString) ->
  normalizeServer m = m.
Proof.
  intros H. unfold normalizeServer. case_bool_decide; [|done]. case_match; [|done]. by destruct H.
Qed.

Lemma server_set m : isUnicast (ServerIPAddr m) = true ->
  default EmptyString (MsgOptions (normalizeServer m) !! OptionTFTPServerAddress) <> EmptyString.
Proof.
  intros H. unfold normalizeServer. case_bool_decide; [|done]. rewrite H. simpl. rewrite lookup_insert_eq. simpl.
  by destruct (ServerIPAddr m).
Qed.

Lemma normalize_idemp m : normalize (normalize m) = normalize m.
Proof.
  destruct (normalize_times m) as (HL & HT2 & HT1). destruct (normalize_fields m) as (_ & _ & HS & HN & HB).
  unfold normalize at 1. rewrite removeRefused_id.
  2:{ intros c Hc. rewrite normalize_lookup, decide_True; [done..|]. revert c Hc. apply Forall_forall. code. }
  unfold clampRebinding at 1. rewrite HL. destruct (Z.ltb_spec (IPAddressLeaseTime m 0) (IPAddressRebindingTime (normalize m) 0)); [lia|].
  unfold clampRenewal at 1. destruct (Z.ltb_spec (IPAddressRebindingTime (normalize m) 0) (IPAddressRenewalTime (normalize m) 0)); [lia|].
  set (m1 := clampRenewal (clampRebinding (removeRefused m))).
  assert (normalizeNames (normalize m) = normalize m) as ->.
  { apply normalizeNames_id.
    all: change (normalize m) with (normalizeServer (normalizeNames m1)) at 2; rewrite server_lookup by done.
    - rewrite HN. intros Hn. rewrite (proj1 (names_set m1)).
      all: subst m1; unfold clampRenewal, clampRebinding; repeat case_match; done.
    - rewrite HB. intros Hn. rewrite (proj2 (names_set m1)).
      all: subst m1; unfold clampRenewal, clampRebinding; repeat case_match; done. }
  apply normalizeServer_id. rewrite HS. intros Hu. apply server_set.
  unfold normalizeNames, clampRenewal, clampRebinding. by repeat case_match.
Qed.

Lemma acceptable_spec m :
  acceptable m = true <->
  ServerIdentifier m <> None /\ Second <= IPAddressLeaseTime m 0 /\
  exists a, YourIPAddr m = Some a /\ unicast a = true.
Proof.
  unfold acceptable, isUnicast. rewrite !andb_true_iff, bool_decide_eq_true, negb_true_iff, Z.ltb_ge, Z.mul_1_l.
  destruct (YourIPAddr m) as [a|]; simpl; naive_solver.
Qed.

(** [acceptableLease] refuses exactly the messages without a server identifier,
    with a lease time under a second or with an address that is not unicast.  In an
    accepted message the options that a server must not send are gone, the renewal
    time is at most the rebinding time and that at most the lease time; address,
    transaction, server, lease time and all other options are as they were; and
    accepting it again changes nothing. *)
Theorem acceptableLease_correct m :
  match acceptableLease m with
  | None => ServerIdentifier m = None \/ IPAddressLeaseTime m 0 < Second \/ isUnicast (YourIPAddr m) = false
  | Some m' =>
      ServerIdentifier m <> None /\ Second <= IPAddressLeaseTime m 0 /\ isUnicast (YourIPAddr m) = true /\
      YourIPAddr m' = YourIPAddr m /\ TransactionID m' = TransactionID m /\
      ServerIdentifier m' = ServerIdentifier m /\ IPAddressLeaseTime m' 0 = IPAddressLeaseTime m 0 /\
      (forall c, c ∈ refused -> MsgOptions m' !! c = None) /\
      (forall c, c ∉ refused ++ adjusted -> MsgOptions m' !! c = MsgOptions m !! c) /\
      IPAddressRenewalTime m' 0 <= IPAddressRebindingTime m' 0 <= IPAddressLeaseTime m' 0 /\
      acceptableLease m' = Some m'
  end.
Proof.
  unfold acceptableLease. destruct (acceptable m) eqn:Ha.
  - rewrite normalize_acceptable, Ha, normalize_idemp, normalize_server.
    destruct (normalize_times m) as (HL & HT2 & HT1). destruct (normalize_fields m) as (-> & -> & _).
    apply acceptable_spec in Ha as (Hs & Hl & a & Hy & Hu). rewrite HL.
    split_and!; [done|done|by rewrite Hy|done..| | |lia|lia|done].
    + intros c Hc. rewrite normalize_lookup, decide_True; [done..|]. revert c Hc. apply Forall_forall. code.
    + intros c Hc. apply not_elem_of_app in Hc as [H1 H2]. by rewrite normalize_lookup, decide_False.
  - destruct (ServerIdentifier m) as [sid|] eqn:Hs; [|auto].
    destruct (Z.ltb_spec (IPAddressLeaseTime m 0) Second) as [|Hl]; [auto|].
    right. right. apply not_true_iff_false in Ha. apply not_true_iff_false. intros Hu. apply Ha, acceptable_spec.
    rewrite Hs. split_and!; [done|done|]. destruct (YourIPAddr m) as [a|]; [by exists a|done].
Qed.

(** A message accepted by the client. *)
Definition accepted (m : Msg) : Prop := exists m0, acceptableLease m0 = Some m.

Lemma accepted_times m : accepted m ->
  let l := IPAddressLeaseTime m 0 in
  Second <= l /\ 0 <= IPAddressRenewalTime m (scale half l) <= l /\ 0 <= IPAddressRebindingTime m (scale f85 l) <= l.
Proof.
  intros [m0 H]. unfold acceptableLease in H. case_match eqn:Ha; [|done]. injection H as <-.
  apply acceptable_spec in Ha as (_ & Hl & _). destruct (normalize_times m0) as (HL & HT2 & HT1). simpl. rewrite HL.
  assert (0 <= IPAddressLeaseTime m0 0) as H0 by (apply GetDuration_nonneg; lia).
  pose proof (scale_le half (IPAddressLeaseTime m0 0) H0 ltac:(unfold half, f85; lia)).
  pose proof (scale_le f85 (IPAddressLeaseTime m0 0) H0 ltac:(unfold f85; lia)).
  split_and!; [done|apply GetDuration_nonneg; lia|apply GetDuration_le; [|lia]|apply GetDuration_nonneg; lia|apply GetDuration_le; [done|lia]].
  unfold IPAddressRenewalTime in *. lia.
Qed.

(** A server that sends a renewal time but no rebinding time makes the client
    renew at once: the renewal time is clamped to the rebinding time read with a
    default of zero. *)
Theorem renewal_without_rebinding a m m' sentTime c :
  acceptableLease m = Some m' -> callback a = CbOk -> cstate c = stateRenewing ->
  MsgOptions m !! OptionRebindingTimeValue = None -> 0 < IPAddressRenewalTime m 0 ->
  exists c' es, transitionToBound a m' sentTime c = (Ok tt, c', es) /\
    cstate c' = stateBound /\ leaseBoundDeadline c' = sentTime /\ leaseDeadline c' = sentTime + IPAddressLeaseTime m 0.
Proof.
  intros Hm Hcb Hst H59 HT1. unfold acceptableLease in Hm. case_match eqn:Hacc; [|done]. injection Hm as <-.
  assert (IPAddressRebindingTime (removeRefused m) 0 = 0) as HT2.
  { apply GetDuration_none. by rewrite refused_lookup. }
  assert (IPAddressLeaseTime (removeRefused m) 0 = IPAddressLeaseTime m 0) as HL.
  { apply GetDuration_ext. by rewrite refused_lookup. }
  assert (IPAddressRenewalTime (removeRefused m) 0 = IPAddressRenewalTime m 0) as HR.
  { apply GetDuration_ext. by rewrite refused_lookup. }
  assert (forall def, IPAddressRenewalTime (normalize m) def = 0) as HN.
  { intros def. apply GetDuration_bytes; [exists 0; unfold Second; lia|]. unfold normalize.
    rewrite server_lookup, names_lookup by done. unfold clampRebinding. apply acceptable_spec in Hacc as (_ & Hl & _).
    rewrite HL, HT2. destruct (Z.ltb_spec (IPAddressLeaseTime m 0) 0); [unfold Second in *; lia|].
    unfold clampRenewal. rewrite HT2, HR. destruct (Z.ltb_spec 0 (IPAddressRenewalTime m 0)); [|lia].
    apply lookup_insert_eq. }
  unfold transitionToBound, LeaseCallback. unfold mbind, M_bind, modify, wrap. cbn.
  rewrite Hcb. cbn. rewrite Hst. cbn. eexists _, _. split; [done|]. cbn. rewrite HN.
  destruct (normalize_times m) as (-> & _). split_and!; [done|lia|done].
Qed.

(** ** The state machine *)

(** The argument of the last call of the lease callback. *)
Fixpoint told (es : list event) (t : option Lease) : option Lease :=
  match es with
  | [] => t
  | Called l _ :: es => told es l
  | _ :: es => told es t
  end.

Lemma told_app es es' t : told (es ++ es') t = told es' (told es t).
Proof. revert t. induction es as [|[]]; intros; simpl; auto. Qed.

(** What holds of the result, the client and the last lease told after [m]. *)
Definition wp {A} (m : M A) (Q : result stop A -> Client -> option Lease -> Prop) (c : Client) (t : option Lease) : Prop :=
  let '(x, c', es) := m c in Q x c' (told es t).

(** Runs the client's code as far as it is known. *)
Ltac run := unfold wp, switchToUnicast, switchToBroadcast, broadcastOpen, broadcastClose, unicastOpen, unicastClose,
  LeaseCallback, ignore, wrap, check, mbind, M_bind, mret, M_ret, modify, gets, emit, fail; cbn.

Lemma mwp_mono {A} (m : M A) (Q Q' : result stop A -> Client -> option Lease -> Prop) c t :
  (forall x c' t', Q x c' t' -> Q' x c' t') -> wp m Q c t -> wp m Q' c t.
Proof. intros HQ. unfold wp. destruct (m c) as [[x c'] es]. apply HQ. Qed.

Lemma mwp_bind {A B} (m : M A) (k : A -> M B) Q c t :
  wp (m ≫= k) Q c t <->
  wp m (fun x c' t' => match x with Ok a => wp (k a) Q c' t' | Err e => Q (Err e) c' t' end) c t.
Proof.
  unfold wp, mbind, M_bind. destruct (m c) as [[[a|e] c'] es]; [|done].
  destruct (k a c') as [[x c2] es2]. by rewrite told_app.
Qed.

(** The client in each state: which transport is open, the lease and its deadlines. *)
Definition client_inv (c : Client) (t : option Lease) : Prop :=
  t = leaseFromAck (lease c) (leaseDeadline c) /\
  let held := exists l, lease c = Some l /\ accepted l /\
    leaseBoundDeadline c <= leaseDeadline c /\ leaseRenewDeadline c <= leaseDeadline c in
  match cstate c with
  | stateDiscovering => broadcastConn c = true /\ unicastConn c = None /\ lease c = None
  | stateRequesting => broadcastConn c = true /\ unicastConn c = None /\ lease c = None /\
                       exists o, offer c = Some o /\ accepted o
  | stateBound | stateRenewing => broadcastConn c = false /\ unicastConn c <> None /\ held
  | stateRebinding => broadcastConn c = true /\ unicastConn c = None /\ held
  end.

(** What the outside is assumed to do: the backoff of discovering does not stop, as that of
    [NewClient], callbacks do not return the client's own [ErrInvalidMsg], and, where [closes] holds, the broadcast socket can be closed. *)
Variable closes : Prop.
Definition fair (a : answers) : Prop := callback a <> CbInvalidMsg /\ (closes -> broadcastCloses a = true).
Definition fair_round (r : round) : Prop :=
  NextBackOff r stateDiscovering <> None /\ fair (roundAnswers r) /\ Forall (fun rx => fair (rxAnswers rx)) (receptions r).

(** A transition moves on or fails. *)
Definition settled (x : result stop unit) (c : Client) (t : option Lease) : Prop :=
  match x with
  | Ok _ => client_inv c t
  | Err (Failed _) => True
  | Err _ => False
  end.

(** A handler moves on, leaves everything as it was, or fails. *)
Definition handled (c0 : Client) (t0 : option Lease) (x : result stop unit) (c : Client) (t : option Lease) : Prop :=
  match x with
  | Ok _ => client_inv c t
  | Err ErrInvalidMsg => c = c0 /\ t = t0
  | Err (Failed _) => True
  | Err _ => False
  end.

(** The outcomes of a call of [runState]: when the context is done, the transports
    are closed and the last callback was for no lease. *)
Definition outcome (x : result stop unit) (c : Client) (t : option Lease) : Prop :=
  match x with
  | Ok _ | Err Waiting => client_inv c t
  | Err CtxErr => unicastConn c = None /\ (closes -> broadcastConn c = false) /\ t = None
  | Err (Failed _) => True
  | Err _ => False
  end.

Lemma settled_handled c0 t0 x c t : settled x c t -> handled c0 t0 x c t.
Proof. destruct x as [|[]]; cbn; done. Qed.
Lemma settled_outcome x c t : settled x c t -> outcome x c t.
Proof. destruct x as [|[]]; cbn; done. Qed.

Lemma transitionToBound_inv a ack sent c t :
  fair a -> accepted ack -> client_inv c t -> cstate c <> stateBound ->
  wp (transitionToBound a ack sent) (handled c t) c t.
Proof.
  intros [Hcb _] Hack (Ht & Hc) Hst. pose proof (accepted_times ack Hack) as (Hl & H1 & H2).
  assert (forall s b u, b = false -> u <> None ->
    client_inv (mkClient stateBound b u s (Some ack) (sent + IPAddressLeaseTime ack 0)
      (sent + IPAddressRenewalTime ack (scale half (IPAddressLeaseTime ack 0)))
      (sent + IPAddressRebindingTime ack (scale f85 (IPAddressLeaseTime ack 0))))
      (leaseFromAck (Some ack) (sent + IPAddressLeaseTime ack 0))) as Hb.
  { intros. split; [done|]. split_and!; [done..|]. exists ack. simpl. split_and!; [done|done|lia|lia]. }
  destruct c as [s b u o l d1 d2 d3]. unfold transitionToBound.
  destruct (callback a) eqn:Hcba; [|done|by run; rewrite Hcba].
  destruct s; cbn in Hc; [destruct Hc as (-> & -> & _)..|done|destruct Hc as (-> & Hu & _)|destruct Hc as (-> & -> & _)].
  all: run; rewrite Hcba; cbn; destruct (broadcastCloses a), (unicastOpens a); cbn; first [done | by apply Hb].
Qed.

Lemma leaseToDiscovering_inv a c t :
  fair a -> client_inv c t -> cstate c = stateRenewing \/ cstate c = stateRebinding ->
  wp (leaseToDiscovering a) settled c t.
Proof.
  intros [Hcb _] (Ht & Hc) Hst. destruct c as [s b u o l d1 d2 d3]. unfold leaseToDiscovering.
  destruct Hst as [Hs|Hs]; cbn in Hs; subst s; cbn in Hc; destruct Hc as (-> & Hu & _).
  - destruct u as [u|]; [|done]. run.
    destruct (unicastCloses a), (broadcastOpens a); cbn; destruct (callback a); by cbn.
  - subst u. run. destruct (callback a); by cbn.
Qed.

Lemma cleanup_inv a c t : fair a -> client_inv c t -> wp (cleanup a;; fail CtxErr) outcome c t.
Proof.
  intros [Hcb Hcl] (Ht & Hc). destruct c as [s b u o l d1 d2 d3]. cbn in *.
  unfold cleanup. run.
  destruct u, l, b; cbn; destruct (unicastCloses a), (callback a), (broadcastCloses a); cbn; naive_solver.
Qed.

Lemma acceptableLease_accepted m m' : acceptableLease m = Some m' -> accepted m'.
Proof. by exists m. Qed.

Lemma handleAck_inv a m sent c t :
  fair a -> client_inv c t -> cstate c <> stateBound -> wp (handleAck a m sent) (handled c t) c t.
Proof.
  intros. unfold handleAck. destruct (acceptableLease m) eqn:Hm; [|done].
  apply transitionToBound_inv; [done|by eapply acceptableLease_accepted|done|done].
Qed.

(** The handler of each state. *)
Definition handlerOf (s : state) : answers -> Msg -> Z -> M unit :=
  match s with
  | stateDiscovering => handleDiscovering
  | stateRequesting => handleRequesting
  | _ => handleExtending
  end.

Lemma handler_inv a m sent c t :
  fair a -> client_inv c t -> cstate c <> stateBound -> wp (handlerOf (cstate c) a m sent) (handled c t) c t.
Proof.
  intros Ha Hc Hs. unfold handlerOf, handleDiscovering, handleRequesting, handleExtending.
  destruct (cstate c) eqn:Hst; [| |done| |]; repeat case_match; try done;
    try (apply handleAck_inv; [done..|by rewrite Hst]).
  - destruct Hc as [Ht Hc]. rewrite Hst in Hc. run. split; [done|].
    cbn. destruct Hc as (? & ? & ?). split_and!; [done..|]. eexists. split; [done|]. by eapply acceptableLease_accepted.
  - destruct Hc as [Ht Hc]. rewrite Hst in Hc. run. split; [done|]. cbn. naive_solver.
  - eapply mwp_mono; [apply settled_handled|apply leaseToDiscovering_inv; auto].
  - eapply mwp_mono; [apply settled_handled|apply leaseToDiscovering_inv; auto].
Qed.

Lemma receiveLoop_inv s x sent rx c t :
  handleMessage s = handlerOf (cstate c) -> isOpen (transport s) c = true -> cstate c <> stateBound ->
  client_inv c t -> Forall (fun r => fair (rxAnswers r)) rx -> wp (receiveLoop s x sent rx) outcome c t.
Proof.
  intros Hh Ho Hs Hc. induction 1 as [|r rx Hr Hrx IH]; [done|]. cbn [receiveLoop]. apply mwp_bind. unfold wp at 1.
  cbn [gets told]. rewrite Ho. destruct (ctxDone r); [by apply cleanup_inv|].
  destruct (received r) as [m|[]]; cbn [asInvalidMessageError]; try done.
  destruct (negb _); [done|]. rewrite Hh. pose proof (handler_inv (rxAnswers r) m sent c t Hr Hc Hs) as Hw.
  unfold wp in *. destruct (handlerOf _ _ _ _ _) as [[[u|e] c'] es]; [done|].
  destruct e; [done| |done..]. destruct Hw as [-> Ht].
  destruct (receiveLoop _ _ _ _ _) as [[y c2] es2]. by rewrite told_app, Ht.
Qed.

(** A transaction, from what its parts do. *)
Lemma transaction_inv cfg s r c t :
  handleMessage s = handlerOf (cstate c) -> isOpen (transport s) c = true -> cstate c <> stateBound ->
  client_inv c t -> fair_round r ->
  (forall m, exists m', setExtraOptions s m c = (Ok m', c, [])) ->
  (NextBackOff r (backoff s) = None \/ stateDeadline s <> None -> wp (exceeded s r) settled c t) ->
  wp (runTransactionState cfg s r) outcome c t.
Proof.
  intros Hh Ho Hs Hc (Hw & Ha & Hrx) Hopt Hex. unfold runTransactionState. apply mwp_bind. unfold newMsg.
  destruct (xid r) as [x|]; [|by run]. run. apply (mwp_bind (wrap _ (setExtraOptions s _))). unfold wp at 1, wrap at 1.
  destruct (Hopt (mkMsg (HardwareAddr cfg) x (Some 0%N) (Some 0%N) (Some 0%N) EmptyString EmptyString (newOptions cfg (requestType s)))) as [m' ->].
  cbn [told]. destruct (NextBackOff r (backoff s)) as [w|]; [|eapply mwp_mono; [apply settled_outcome|]; by apply Hex; left].
  destruct (match stateDeadline s with Some d => _ | None => _ end) as [dl ex] eqn:Hd. destruct ex.
  { eapply mwp_mono; [apply settled_outcome|]. apply Hex. right. by destruct (stateDeadline s). }
  pose proof (receiveLoop_inv s (TransactionID m') (now r) (receptions r) c t Hh Ho Hs Hc Hrx) as Hl.
  unfold Send, SetReceiveDeadline. run. rewrite Ho. cbn. destruct (sends r); cbn; [|done].
  rewrite Ho. cbn. destruct (sets r); cbn; [|done].
  unfold wp in Hl. by destruct (receiveLoop _ _ _ _ _) as [[y c2] es].
Qed.

Lemma runState_inv cfg r c t : client_inv c t -> fair_round r -> wp (runState cfg r) outcome c t.
Proof.
  intros Hc Hr. pose proof Hr as (Hw & Ha & Hrx). unfold runState, wp.
  destruct (cstate c) eqn:Hst; pose proof Hc as [Ht Hc']; rewrite Hst in Hc'.
  - apply (transaction_inv cfg discovering); rewrite ?Hst; try done; [by destruct Hc'|intros m; by eexists|]. by intros [|].
  - destruct Hc' as (Hb & Hu & Hl & o & Ho & _).
    apply (transaction_inv cfg requesting); rewrite ?Hst; try done.
    intros m. unfold setExtraOptions, requesting. run. rewrite Ho. by eexists.
  - destruct (select r); [|by apply (cleanup_inv (roundAnswers r))|done]. run. split; [done|]. by destruct c.
  - destruct Hc' as (Hb & Hu & l & Hl & _).
    apply (transaction_inv cfg (renewing c)); rewrite ?Hst; try done.
    + by apply bool_decide_eq_true.
    + intros m. unfold setExtraOptions, renewing, extendOptions. run. rewrite Hl. by eexists.
    + intros _. unfold exceeded, renewing. destruct c as [s b u o l' d1 d2 d3]. cbn in *. subst.
      destruct u as [u|]; [|done]. run. destruct (unicastCloses (roundAnswers r)), (broadcastOpens (roundAnswers r)); cbn; try done.
      destruct Hc as (_ & _ & _ & Hh). by split_and!.
  - destruct Hc' as (Hb & Hu & l & Hl & _).
    apply (transaction_inv cfg (rebinding c)); rewrite ?Hst; try done.
    + intros m. unfold setExtraOptions, rebinding, extendOptions. run. rewrite Hl. by eexists.
    + intros _. apply leaseToDiscovering_inv; auto.
Qed.

Lemma Run_inv cfg rs c t : client_inv c t -> Forall fair_round rs -> wp (Run cfg rs) outcome c t.
Proof.
  intros Hc Hrs. revert c t Hc. induction Hrs as [|r rs Hr Hrs IH]; intros c t Hc; [done|].
  cbn [Run]. apply mwp_bind. eapply mwp_mono; [|by apply runState_inv].
  intros [u|e] c' t' H; [by apply IH|done].
Qed.

Lemma Run_not_ok cfg rs c c' es : Run cfg rs c <> (Ok tt, c', es).
Proof.
  revert c es. induction rs as [|r rs IH]; intros c es; [done|]. cbn [Run]. unfold mbind, M_bind.
  destruct (runState cfg r c) as [[[u|e] c1] e1]; [|done].
  destruct (Run cfg rs c1) as [[x c2] e2] eqn:HR. intros [= -> -> <-]. by eapply IH.
Qed.


(** ** Expiry *)

(** A call of [runState] when the lease of [c] has run out, in which nothing else goes
    wrong. *)
Definition late (c : Client) (r : round) : Prop :=
  leaseDeadline c - 10 * Millisecond < now r /\ xid r <> None /\ select r = TimerFired /\
  broadcastOpens (roundAnswers r) = true /\ unicastCloses (roundAnswers r) = true /\
  callback (roundAnswers r) = CbOk.

(** The number of calls until the lease is given up. *)
Definition rank (s : state) : nat :=
  match s with stateBound => 3 | stateRenewing => 2 | stateRebinding => 1 | _ => 0 end.

Definition is_sent (e : event) : bool := match e with Sent _ _ => true | _ => false end.

Lemma transaction_late cfg s r c d :
  stateDeadline s = Some d -> d - 10 * Millisecond < now r -> xid r <> None ->
  (forall m, exists m', setExtraOptions s m c = (Ok m', c, [])) ->
  runTransactionState cfg s r c = exceeded s r c.
Proof.
  intros Hd Hn Hx Hopt. unfold runTransactionState, newMsg. destruct (xid r) as [x|]; [|done].
  unfold wrap, mbind, M_bind, mret, M_ret.
  destruct (Hopt (mkMsg (HardwareAddr cfg) x (Some 0%N) (Some 0%N) (Some 0%N) EmptyString EmptyString (newOptions cfg (requestType s)))) as [m' ->].
  rewrite Hd. destruct (Z.ltb_spec (d - 10 * Millisecond) (now r)); [|lia].
  destruct (NextBackOff r (backoff s)); by destruct (exceeded s r c) as [[[] ?] ?].
Qed.

Lemma extend_ok c l m : lease c = Some l -> exists m', extendOptions m c = (Ok m', c, []).
Proof. intros Hl. unfold extendOptions. run. rewrite Hl. by eexists. Qed.

Lemma bound_late cfg r c : cstate c = stateBound -> late c r ->
  runState cfg r c = (Ok tt, set_state stateRenewing c, [Reset stateRenewing]).
Proof. intros Hs (_ & _ & Hsel & _). unfold runState. by rewrite Hs, Hsel. Qed.

Lemma renewing_late cfg r c t : client_inv c t -> cstate c = stateRenewing -> late c r ->
  runState cfg r c = (Ok tt, set_state stateRebinding (set_broadcast true (set_unicast None c)), [Reset stateRebinding]).
Proof.
  intros (_ & Hc) Hs (Hn & Hx & _ & Ho & Hcl & _). rewrite Hs in Hc. destruct Hc as (Hb & Hu & l & Hl & _ & _ & Hd).
  unfold runState. rewrite Hs, (transaction_late cfg (renewing c) r c (leaseRenewDeadline c)); [|done|lia|done|by intros; eapply extend_ok].
  destruct c as [s b u o l' d1 d2 d3]. cbn in *. subst. destruct u; [|done]. unfold exceeded. run. by rewrite Hcl, Ho.
Qed.

Lemma rebinding_late cfg r c t : client_inv c t -> cstate c = stateRebinding -> late c r ->
  runState cfg r c =
    (Ok tt, set_lease None (set_state stateDiscovering c), [Reset stateDiscovering; Called None true]).
Proof.
  intros (_ & Hc) Hs (Hn & Hx & _ & Ho & Hcl & Hcb). rewrite Hs in Hc. destruct Hc as (Hb & Hu & l & Hl & _).
  unfold runState. rewrite Hs, (transaction_late cfg (rebinding c) r c (leaseDeadline c)); [|done|lia|done|by intros; eapply extend_ok].
  unfold exceeded, rebinding, leaseToDiscovering. cbn. run. rewrite Hs. cbn. by rewrite Hcb.
Qed.

Lemma Run_step cfg r rs c c1 e1 :
  runState cfg r c = (Ok tt, c1, e1) ->
  Run cfg (r :: rs) c = let '(x, c2, e2) := Run cfg rs c1 in (x, c2, e1 ++ e2).
Proof. intros H. cbn [Run]. unfold mbind, M_bind. by rewrite H. Qed.

(** C39: A lease that has run out is given up: from every state with a lease, after as
    many calls of [runState] as there are states to go through, the client is
    discovering, has told the callback that there is no lease, and has sent nothing. *)
Theorem expired_lease_dropped cfg rs c :
  client_inv c (leaseFromAck (lease c) (leaseDeadline c)) -> lease c <> None ->
  length rs = rank (cstate c) -> Forall (late c) rs ->
  exists c' es, Run cfg rs c = (Err Waiting, c', es) /\
    cstate c' = stateDiscovering /\ lease c' = None /\ broadcastConn c' = true /\
    last es = Some (Called None true) /\ Forall (fun e => is_sent e = false) es.
Proof.
  intros Hinv Hne Hlen Hlate. pose proof Hinv as [Ht Hc]. destruct c as [s b u o l d1 d2 d3]. cbn in Hlen.
  destruct s; cbn in Hlen, Hc; [naive_solver..| | |].
  - destruct rs as [|r1 [|r2 [|r3 [|]]]]; try done. rewrite !Forall_cons in Hlate. destruct Hlate as (H1 & H2 & H3 & _).
    erewrite Run_step by by apply bound_late. erewrite Run_step by (eapply renewing_late; [|done|done]; exact (conj Ht Hc)).
    erewrite Run_step. 2:{ eapply rebinding_late; [|done|done]. split; [exact Ht|]. destruct Hc as (_ & _ & Hh). by split_and!. }
    eexists _, _. split; [done|]. by repeat constructor.
  - destruct rs as [|r1 [|r2 [|]]]; try done. rewrite !Forall_cons in Hlate. destruct Hlate as (H1 & H2 & _).
    erewrite Run_step by (eapply renewing_late; [|done|done]; exact (conj Ht Hc)).
    erewrite Run_step. 2:{ eapply rebinding_late; [|done|done]. split; [exact Ht|]. destruct Hc as (_ & _ & Hh). by split_and!. }
    eexists _, _. split; [done|]. by repeat constructor.
  - destruct rs as [|r1 [|]]; try done. rewrite !Forall_cons in Hlate. destruct Hlate as (H1 & _).
    erewrite Run_step by by eapply rebinding_late. eexists _, _. split; [done|]. destruct Hc as (-> & _). by repeat constructor.
Qed.

(** ** Failures *)

(** [Run] is a runnable of the supervisor, which calls it again on the same client
    after it fails: the client and the calls it makes over a number of runs. *)
Fixpoint Restarts (cfg : config) (rss : list (list round)) (c : Client) : Client * list event :=
  match rss with
  | [] => (c, [])
  | rs :: rss =>
      let '(_, c1, e1) := Run cfg rs c in
      let '(c2, e2) := Restarts cfg rss c1 in (c2, e1 ++ e2)
  end.

(** The client wants to send broadcasts, and the socket is closed. *)
Definition stuck (c : Client) : Prop :=
  broadcastConn c = false /\ (cstate c = stateDiscovering \/ cstate c = stateRequesting).
Definition silent (es : list event) : Prop := Forall (fun e => is_sent e = false) es.

Lemma transaction_stuck cfg s r c :
  transport s = broadcast -> broadcastConn c = false ->
  (forall m, (exists m', setExtraOptions s m c = (Ok m', c, [])) \/ setExtraOptions s m c = (Err Panicked, c, [])) ->
  (exists x, runTransactionState cfg s r c = (Err x, c, [])) \/ runTransactionState cfg s r c = exceeded s r c.
Proof.
  intros Ht Hb Hopt. unfold runTransactionState, newMsg. destruct (xid r) as [x|]; [|left; by eexists].
  unfold wrap, mbind, M_bind, mret, M_ret.
  destruct (Hopt (mkMsg (HardwareAddr cfg) x (Some 0%N) (Some 0%N) (Some 0%N) EmptyString EmptyString (newOptions cfg (requestType s))))
    as [[m' ->]| ->]; [|left; by eexists].
  destruct (NextBackOff r (backoff s)) as [w|]; [|right; by destruct (exceeded s r c) as [[[] ?] ?]].
  destruct (match stateDeadline s with Some d => _ | None => _ end) as [dl [|]];
    [right; by destruct (exceeded s r c) as [[[] ?] ?]|].
  left. unfold Send. run. rewrite Ht. cbn. rewrite Hb. by eexists.
Qed.

Lemma runState_stuck cfg r c : stuck c -> let '(_, c', es) := runState cfg r c in stuck c' /\ silent es.
Proof.
  intros [Hb [Hs|Hs]]; unfold runState; rewrite Hs.
  - destruct (transaction_stuck cfg discovering r c) as [[x ->]| ->]; [done|done|left; by eexists|..].
    all: split; [by split; auto|constructor].
  - destruct (transaction_stuck cfg requesting r c) as [[x ->]| ->]; [done|done| |..].
    + intros m. unfold setExtraOptions, requesting. run. destruct (offer c); [left; by eexists|by right].
    + split; [by split; auto|constructor].
    + unfold exceeded, requesting, requestingToDiscovering. run. split; [by split; auto|by repeat constructor].
Qed.

Lemma Run_stuck cfg rs c : stuck c -> let '(_, c', es) := Run cfg rs c in stuck c' /\ silent es.
Proof.
  revert c. induction rs as [|r rs IH]; intros c Hc; [split; [done|constructor]|].
  cbn [Run]. unfold mbind, M_bind. pose proof (runState_stuck cfg r c Hc) as H.
  destruct (runState cfg r c) as [[[u|e] c1] e1]; [|done]. destruct H as [H1 H2]. specialize (IH c1 H1).
  destruct (Run cfg rs c1) as [[x c2] e2]. destruct IH. split; [done|]. by apply Forall_app.
Qed.

Lemma Restarts_stuck cfg rss c : stuck c -> stuck (Restarts cfg rss c).1 /\ silent (Restarts cfg rss c).2.
Proof.
  revert c. induction rss as [|rs rss IH]; intros c Hc; [split; [done|constructor]|].
  cbn [Restarts]. pose proof (Run_stuck cfg rs c Hc) as H. destruct (Run cfg rs c) as [[x c1] e1].
  destruct H as [H1 H2]. destruct (IH c1 H1) as [H3 H4]. destruct (Restarts cfg rss c1) as [c2 e2].
  split; [done|]. by apply Forall_app.
Qed.

(** If the unicast socket cannot be opened after the server acknowledged, [Run]
    fails with the broadcast socket closed, the lease told to the callback and the
    state unchanged; and however often it is run again, the client never sends a
    message. *)
Theorem failed_switch_stuck cfg a ack sentTime c :
  cstate c = stateDiscovering \/ cstate c = stateRequesting ->
  broadcastConn c = true -> unicastConn c = None ->
  callback a = CbOk -> broadcastCloses a = true -> unicastOpens a = false ->
  exists c' es, transitionToBound a ack sentTime c = (Err (Failed "failed to switch transports"), c', es) /\
    told es None = leaseFromAck (Some ack) (sentTime + IPAddressLeaseTime ack 0) /\
    forall rss, stuck (Restarts cfg rss c').1 /\ silent (Restarts cfg rss c').2.
Proof.
  intros Hs Hb Hu Hcb Hcl Ho. destruct c as [s b u o l d1 d2 d3]. cbn in *. subst b u. unfold transitionToBound. run.
  rewrite Hcb. cbn. destruct Hs as [-> | ->]; cbn; rewrite Hcl; cbn; rewrite Ho; cbn.
  all: eexists _, _; split; [done|]; split; [done|]; intros rss; apply Restarts_stuck; split; auto.
Qed.

(** A malformed packet ends [Run]: the transports return a pointer to
    [InvalidMessageError], and the client asks for a value. *)
Theorem malformed_packet_fatal cfg r c p rx :
  cstate c = stateDiscovering -> broadcastConn c = true -> xid r <> None -> NextBackOff r stateDiscovering <> None ->
  sends r = true -> sets r = true ->
  (ipLayer p = None \/ ipLayer p = Some true \/ udpLayer p = None \/
   exists port payload, udpLayer p = Some (port, payload) /\ (port <> 68%N \/ FromBytes payload = None)) ->
  (exists a, receptions r = mkReception false (BroadcastReceive (Ok p)) a :: rx) ->
  exists es, runState cfg r c = (Err (Failed "failed to receive packet"), c, es).
Proof.
  intros Hs Hb Hx Hw H1 H2 Hp [a Hrx].
  assert (BroadcastReceive (Ok p) = Err NewInvalidMessageError) as Hrcv.
  { unfold BroadcastReceive. destruct (ipLayer p) as [[]|]; try done. destruct (udpLayer p) as [[port payload]|]; [|done].
    destruct (N.eqb_spec port 68) as [->|]; [|done]. cbn. destruct (FromBytes payload) eqn:?; [naive_solver|done]. }
  unfold runState, runTransactionState, newMsg, Send, SetReceiveDeadline. rewrite Hs, Hrx, Hrcv.
  destruct (xid r); [|done]. cbn [backoff discovering]. destruct (NextBackOff r stateDiscovering); [|done]. run. rewrite Hb. cbn. rewrite H1. cbn. rewrite Hb. cbn. rewrite H2. cbn.
  run. rewrite Hb. by eexists.
Qed.

End Laws.

(** An acknowledgement whose renewal and rebinding times are too late. *)
Definition lateTimes : Msg := answer MessageTypeAck (Some (5000 * Second)) (Some (4000 * Second)).

Lemma acceptableLease_correct_witness :
  exists m', acceptableLease lateTimes = Some m' /\
    IPAddressRenewalTime m' 0 <= IPAddressRebindingTime m' 0 <= IPAddressLeaseTime m' 0.
Proof.
  pose proof (@acceptableLease_correct ExampleDhcp ExampleLaws lateTimes) as H. revert H.
  destruct (acceptableLease lateTimes) as [m'|] eqn:E; [|exfalso; revert E; by vm_compute].
  intros (_ & _ & _ & _ & _ & _ & _ & _ & _ & Hle & _).
  exact (ex_intro _ m' (conj eq_refl Hle)).
Defined.

(** ** Examples *)

Lemma handshake_fair : Forall (fair_round True) handshake.
Proof. by repeat constructor. Qed.

Definition clientAfter (rs : list round) : Client := (Run exampleConfig rs start).1.2.

Lemma abandoned_fair : Forall (fair_round True) abandoned.
Proof. by repeat constructor. Qed.


Lemma start_inv `{DhcpLib} : client_inv start None.
Proof. split; [done|]. by split_and!. Qed.

Lemma wp_running `{DhcpLib} (m : M unit) c t :
  wp m (outcome True) c t -> (m c).1.1 = Err Waiting ->
  client_inv (m c).1.2 (leaseFromAck (lease (m c).1.2) (leaseDeadline (m c).1.2)).
Proof.
  unfold wp. destruct (m c) as [[x c'] es]. cbn [fst snd]. intros Hw ->. destruct Hw as [Ht Hc]. by split.
Qed.

Lemma boundClient_inv : client_inv boundClient (leaseFromAck (lease boundClient) (leaseDeadline boundClient)).
Proof.
  apply (wp_running (Run exampleConfig handshake) start None).
  - exact (Run_inv True exampleConfig handshake start None start_inv handshake_fair).
  - by vm_compute.
Qed.

(** Three calls, long after the lease has run out. *)
Definition tooLate : list round := replicate 3 (receives (4000 * Second) (Err OtherErr)).

Lemma tooLate_late : Forall (late boundClient) tooLate.
Proof. repeat constructor; by vm_compute. Qed.

Lemma expired_lease_dropped_witness :
  exists c' es, Run exampleConfig tooLate boundClient = (Err Waiting, c', es) /\
    cstate c' = stateDiscovering /\ lease c' = None /\ broadcastConn c' = true /\
    last es = Some (Called None true) /\ Forall (fun e => is_sent e = false) es.
Proof.
  apply (expired_lease_dropped exampleConfig tooLate boundClient); [exact boundClient_inv|by vm_compute|by vm_compute|exact tooLate_late].
Defined.

(** The client, renewing; and an acknowledgement with a renewal time only. *)
Definition renewingClient : Client := set_state stateRenewing boundClient.
Definition renewalOnly : Msg := answer MessageTypeAck (Some (1800 * Second)) None.

Lemma renewal_without_rebinding_witness :
  exists c' es, transitionToBound works (normalize renewalOnly) (1801 * Second) renewingClient = (Ok tt, c', es) /\
    cstate c' = stateBound /\ leaseBoundDeadline c' = 1801 * Second /\
    leaseDeadline c' = 1801 * Second + IPAddressLeaseTime renewalOnly 0.
Proof.
  apply (renewal_without_rebinding works renewalOnly); by vm_compute.
Defined.

Lemma failed_switch_stuck_witness :
  exists c' es, transitionToBound (mkAnswers true true false true CbOk) (answer MessageTypeAck None None) 0 start =
      (Err (Failed "failed to switch transports"), c', es) /\
    told es None = leaseFromAck (Some (answer MessageTypeAck None None)) (0 + IPAddressLeaseTime (answer MessageTypeAck None None) 0) /\
    forall rss, stuck (Restarts exampleConfig rss c').1 /\ silent (Restarts exampleConfig rss c').2.
Proof. apply (failed_switch_stuck exampleConfig); [by left|done..]. Defined.

Lemma malformed_packet_fatal_witness :
  exists es, runState exampleConfig (receives 0 (BroadcastReceive (Ok (mkPacket (Some false) (Some (68%N, "x"%string)))))) start =
    (Err (Failed "failed to receive packet"), start, es).
Proof.
  apply (malformed_packet_fatal exampleConfig _ start (mkPacket (Some false) (Some (68%N, "x"%string))) []); try done.
  - right. right. right. exists 68%N, "x"%string. auto.
  - by exists works.
Defined.

End DhcpProps.
